(* ===== verification/_CoqProject ===== *)
-Q . S2P
Prelude.v
Tokens.v
QN4.v
QN8.v
QN12.v
Bytes.v
Consensus.v
Account.v
Validators.v
Transaction.v
VerifyCache.v
Vertex.v
Committee.v
Checkpoint.v
Dag.v
Ordering.v
Smt.v
State.v
StateLedger.v
StateBlocks.v
StateAnomalies.v
Merkle.v
Finality.v
Slashing.v
Pipeline.v
ViewChange.v
CrossShard.v
Mvcc.v
Stacc.v
Ingress.v
Air.v
Zk.v
Privacy.v
RelayBond.v
Sidechain.v
Chains.v
LightClient.v
SetDelta.v
BatchProof.v
L0Hub.v
Executor.v
FastPath.v
F64.v
Economics.v
Storage.v
Genesis.v
Engine.v
ErasureCoding.v
Abi.v
Coordinator.v
TxGraph.v
Goldilocks.v
Vrf.v
