(* ===== verification/Prelude.v ===== *)
(** * Quantos: a verification library

    Quantos is a blockchain node written in Rust ([src/L1/src]).  Transactions
    enter through an ingress buffer, are admitted under quotas and assembled into
    vertices of a directed acyclic graph; committees drawn by stake vote on
    vertices; checkpoints of the graph are finalized by two thirds of the stake; the
    state manager executes the transactions and commits to the accounts by a sparse
    Merkle tree.  Around this core there are a pipelined BFT protocol with view
    changes, slashing, an atomic protocol across shards, a multi-version store for
    contracts and three token standards.  This library models these parts as
    executable definitions and proves what they do, including where that differs
    from what the code means to do.

    ** Files and sources

    - [Prelude]: machine integers, results, the state-and-error monad [M] with its
      notation, automation (hint database [quantos], [unfold_monad],
      [reflect_hyps], [split_hyp]), sums over finite maps.
    - [Tokens], [QN4], [QN8], [QN12]: [standards/mod.rs], [qn4.rs], [qn8.rs],
      [qn12.rs].  The state of a token is a record of finite maps, every method a
      function in [M]; [Call] and [exec] collect the trait methods.
    - [Bytes]: byte strings, little- and big-endian numbers and the domain tags of
      [crypto/domains.rs].
    - [Consensus]: errors and quorum certificates shared by the protocols.
    - [Account], [Validators]: [types/account.rs]; accounts, validators and
      validator sets.
    - [Transaction], [Vertex], [Checkpoint]: [types/transaction.rs],
      [types/vertex.rs], [types/checkpoint.rs]; records, signed bytes, hashes,
      quorums.
    - [VerifyCache]: the signature cache of [crypto/precomputed.rs] with
      [verify_ml_dsa_65].
    - [Committee]: [consensus/committee.rs]; rejection sampling, rotation, votes.
    - [Dag]: [dag/graph.rs]; insertion, tips, eviction, traversals, finalization.
    - [Ordering]: [dag/ordering.rs]; topological sorts, common ancestors, double
      spends.
    - [Smt], [State], [StateLedger], [StateBlocks], [StateAnomalies]:
      [state/manager.rs]; the sparse Merkle root, the execution of transactions
      (State), what one transaction does to the total of all balances
      (StateLedger), blocks of transactions (StateBlocks) and executions that break
      the accounting (StateAnomalies).
    - [Merkle]: the trees and proofs of [crypto/hash.rs].
    - [Finality]: [consensus/finality.rs]; collecting checkpoint signatures.
    - [Slashing]: [consensus/slashing.rs].
    - [Pipeline], [ViewChange]: [consensus/pipelining.rs], [view_change.rs].
    - [CrossShard]: [consensus/cross_shard_atomic.rs]; coordinator, locks, proofs,
      rollback.
    - [Mvcc]: [vm/mvcc.rs]; version chains, transactions, validation, collection.
    - [Stacc]: [stacc/]; activation, token buckets, fair queueing, admission.
    - [Ingress]: [network/prefilter.rs] and [dag/ingress.rs]; the filter, the
      buffer and the vertex builder on top of [Stacc].
    - [Air], [Zk]: [zk/mod.rs]; the arithmetization of state transitions (Air) and the
      proofs the node makes, checks and aggregates (Zk).
    - [Privacy]: [privacy/] and [crypto/kyber_kem.rs]; notes, stealth payments, the
      shielded pool, confidential storage, tokens and payloads on top of [Zk].
    - [RelayBond]: [l0/relay_bond.rs]; bonds, unbonding, slashing of relays.
    - [Sidechain]: [sidechain/mod.rs]; registry, operators, commitments, bridge escrow.
    - [Chains], [LightClient], [SetDelta], [BatchProof], [L0Hub]: [l0/external.rs] and
      [registry.rs]; [light_client.rs]; [validator_set_delta.rs]; [stark_prover.rs];
      [config.rs], [proof.rs], [verifier.rs] and [hub.rs].  Checkpoints of other chains, their
      verification, and the proofs of finality the hub builds.
    - [Executor]: [state/executor.rs]; parallel execution and the speculation of the
      fast path on top of [State].
    - [FastPath]: [consensus/fast_path.rs]; vertices and votes on top of [Ingress], [Dag],
      [Committee] and [Executor].
    - [F64], [Economics]: IEEE 754 arithmetic, and [consensus/validator_performance.rs] and
      [stacc/tokenomics.rs], [state_rent.rs], [anti_spam.rs].
    - [Storage]: [storage/keys.rs] and [rocks.rs]; the key layout, typed tables, contract
      storage, pruning.
    - [Genesis]: [genesis/mod.rs].
    - [Engine]: [consensus/quantos.rs]; the slot loop and entry points that compose the fast
      path, the committees, the finality layer, the hub and the store.
    - [ErasureCoding]: [network/erasure_coding.rs]; Reed-Solomon coding over GF(2^8).
    - [Abi], [TxGraph]: [vm/abi.rs] and [vm/tx_dependency_graph.rs].
    - [Coordinator]: [sharding/cross_shard.rs]; transfers between shards.
    - [Goldilocks], [Vrf]: [crypto/vrf_hashbased.rs] and [rescue_constants.rs]; the field and
      the circuit of the verifiable random function.

    ** How code becomes definitions

    A [&mut self] method that returns [Result<A, E>] is a function of type
    [M S E A]: it returns the result and the new state, and an early [?] keeps the
    mutations made before it.  Integers are [Z] with the checked, saturating or
    wrapping operation of the source; the release profile has no overflow checks, so
    plain operators wrap.  32-byte arrays are numbers.  Hash maps are [gmap]; where
    the order of iteration can be observed it is an argument or the order of the
    finite map, as the file says.  Calls to code outside the repository are
    arguments: SHA3-256, ML-DSA signatures, the STARK prover, bincode and the clock.  Numbers
    computed in [f64] are computed with [F64] in [Economics] and are arguments in [Stacc],
    [Slashing] and [ViewChange].  What a theorem needs of an argument is a hypothesis
    and has an instance in its witness.

    Interfaces between components are classes with laws: [VertexStore] and
    [VertexStoreLaws] (the durable store under the graph), [FinalizableDag] and
    [CheckpointStore] (what the finality layer asks of the graph and the store),
    [ShardDag], [ShardDagLaws] and [AccountBackend] (what the cross-shard
    protocol asks), [AccountStore] with its laws (under the state manager: reads succeed, writes
    and listings may fail, a batch is written whole or not at all; [store_reliable] adds that
    nothing fails),
    [LruCache] with its laws (under the signature cache), [QuotaProvider] and
    [VirtualTime] (stake and floating point under the admission), [FieldElement] with
    its laws, [GoldilocksField], [Winterfell], [BatchWinterfell] and [Bincode] (under the
    proofs), [PrivacyCrypto] with its laws (encryption), [ChainCrypto] (primitives of other
    chains), [FromU128] (stakes as field elements), [StateOps] (the state manager under the
    executors), [PayloadSource] and [PayloadLaws] (the ingress under the fast path), [Rocks] and
    [Codec] with their laws (database and encoding), [SharedSet] and [AtomicProtocol] (what the
    engine shares).  [Dag], [State], [Ingress] and finite maps give the instances.

    ** What the theorems show

    - Value: execution of blocks conserves the total of balances and stakes, but for stake
      an account transfers to itself, which is destroyed, and rejects replays, also when the
      store fails ([StateBlocks]); speculation stores the accounts of atomic execution ([Executor]);
      rent is conserved to the unit ([Economics]); token supplies and ownership stay consistent
      ([QN4], [QN8], [QN12]); slashed stake is accounted for ([Slashing]).
    - Agreement: what is finalized has a quorum and conflicting finality convicts a
      third of the stake ([Finality]); the commit rule and view-change certificates
      ([Pipeline], [ViewChange]); committees are distinct, stake-weighted and
      unbiased ([Committee]); the outcomes of cross-shard operations
      ([CrossShard]).
    - Data structures: the graph stays well-formed and its traversals,
      finalization and sorts are exact ([Dag], [Ordering]); the sparse Merkle root
      is the root of the tree it stands for, and equal roots mean equal accounts or a collision
      among the strings hashed ([Smt]); Merkle
      proofs are complete and sound ([Merkle]); the signature cache is transparent
      ([VerifyCache]); signed bytes determine what is signed, up to an empty boost
      ([Transaction]); the database is a set of typed tables, and pruning keeps what is recent
      ([Storage]); any ten of the fourteen shards rebuild a block ([ErasureCoding]).
    - Concurrency: sequential commits of the multi-version store are serializable
      and refine a plain map ([Mvcc]); schedules of the dependency graph are serializable
      ([TxGraph]).
    - Composition: vertices confirmed by votes had a quorum, across rotations ([FastPath]); the
      finality layer inside the engine goes through the history read off the slot ticks, and
      without foreign signatures nothing is final ([Engine]); the outcome of a transfer between
      shards is final ([Coordinator]).
    - Other chains: accepted checkpoints carry a quorum of registered keys, for the families that
      check them ([LightClient]); the proofs of the hub verify and do not conflict ([L0Hub]).
    - Admission: rates are bounded, queues fair and first-in-first-out, pending
      counters exact, payloads free of conflicts ([Stacc], [Ingress]).
    - Proofs and privacy: what the constraints of the circuit enforce and what they do
      not ([Air], [Vrf], [BatchProof]); what verification accepts ([Zk]); payments reach their recipients,
      notes are spent once, supplies and bonds are accounted for ([Privacy],
      [RelayBond]).
    - Defects: some theorems state what goes wrong, on all inputs that meet their
      hypotheses: self-transfers that mint ([StateAnomalies]), lost updates of
      concurrent commits ([Mvcc]), partially committed operations ([CrossShard]),
      honest votes that are slashed ([Slashing]), an ingress that closes after
      65536 transactions and senders that run dry ([Ingress]), proofs of the node that its
      verifier refuses and aggregates of anything that it accepts ([Zk]), notes spent that
      never existed ([Privacy]), locks whose release blocks for ever ([CrossShard]), sorts that
      depend on hash maps ([Ordering]), votes of earlier committees that count and transactions
      lost when a vertex is refused ([FastPath]), proofs of any output of the random function ([Vrf]), and
      others.

    ** Loops and fuel

    Loops that are not structural take fuel, and a theorem shows that the fuel is
    enough.  Graph traversals: [MAX_TRAVERSAL_VERTICES + 1] rounds, by the bound in
    the code.  Topological sorts: one round more than the number of hashes.
    Common ancestors: twice the number of stored vertices and a constant.  Merkle
    trees: the number of leaves.  Sparse Merkle tree: its 256 levels.  Rejection
    sampling of a committee: the fuel is an argument, and a draw that accepts within it
    is hypothesis of the rotation theorem.  View synchronization: the number of views
    behind.  Proof aggregation of cross-shard operations: the number of leaves.
    Scheduler: the size of the heap, since every round takes an entry out.  Schedules of the
    dependency graph: the number of its nodes.  Waiting for messages is a finite schedule of
    what arrives.  Calls that block for ever have a result of their own: [None] in [RelayBond],
    [Blocked] in [CrossShard], [None] for a slot tick whose sampling does not end in [Engine].

    ** Concurrency

    Methods that hold one lock from beginning to end are atomic steps.  Where a
    method releases a lock between its parts and a theorem depends on it
    ([Mvcc.commit]), the parts are definitions of their own and can be
    interleaved.  Elsewhere calls are sequential.

    ** Not modelled

    Input and output (network, RPC, the storage engine, command line), third-party
    code (cryptographic primitives, STARK prover, Wasmer, revm) and the code that
    wraps it, heuristics on measured loads (security monitors, dynamic committee
    sizes, shard load), state snapshots and compression, contracts for other chains, the
    wallet server, and [consensus/beacon.rs], [cross_shard_protocol.rs] and
    [sharding/reshard.rs], which no module declares.  Logging, metrics and caches
    without influence on results are left out of the components that have them. *)

From Stdlib Require Export ZArith Lia.
From stdpp Require Export base gmap sets list strings pretty fin_maps numbers.

#[global] Open Scope Z_scope.

(** ** Fixed-width unsigned integers

    A Rust [u16]/[u64]/[u128] is a [Z] between [0] and the maximum of its
    width.  The checked and saturating operations take the maximum as their
    first argument.  The release profile of the workspace does not enable
    overflow checks, so the plain operators wrap around. *)

Definition u8_max : Z := 255.
Definition u16_max : Z := 65535.
Definition u32_max : Z := 4294967295.
Definition u64_max : Z := 18446744073709551615.
Definition u128_max : Z := 340282366920938463463374607431768211455.

(** A 32-byte array ([Hash], [Address]) is the number its bytes spell in
    big-endian order: array equality is equality of numbers and the
    lexicographic order of arrays is the order of numbers. *)
Abbreviation Address := Z (only parsing).
Abbreviation Hash := Z (only parsing).

Definition fits (max x : Z) : Prop := 0 ≤ x ≤ max.

#[export] Instance fits_dec max x : Decision (fits max x).
Proof. unfold fits. apply _. Defined.

Definition checked_add (max a b : Z) : option Z :=
  if a + b <=? max then Some (a + b) else None.

Definition checked_sub (a b : Z) : option Z :=
  if a <? b then None else Some (a - b).

Definition checked_mul (max a b : Z) : option Z :=
  if a * b <=? max then Some (a * b) else None.

Definition saturating_add (max a b : Z) : Z := Z.min max (a + b).
Definition saturating_sub (a b : Z) : Z := Z.max 0 (a - b).
Definition saturating_mul (max a b : Z) : Z := Z.min max (a * b).
Definition wrapping_add (max a b : Z) : Z := (a + b) mod (max + 1).
Definition wrapping_sub (max a b : Z) : Z := (a - b) mod (max + 1).
Definition wrapping_mul (max a b : Z) : Z := (a * b) mod (max + 1).

Lemma checked_add_Some max a b c :
  checked_add max a b = Some c ↔ c = a + b ∧ a + b ≤ max.
Proof.
  unfold checked_add. destruct (Z.leb_spec (a + b) max); split; intros; simplify_eq;
    naive_solver lia.
Qed.

Lemma checked_add_None max a b : checked_add max a b = None ↔ max < a + b.
Proof. unfold checked_add. destruct (Z.leb_spec (a + b) max); split; intros; simplify_eq; done || lia. Qed.

Lemma checked_sub_Some a b c : checked_sub a b = Some c ↔ c = a - b ∧ b ≤ a.
Proof.
  unfold checked_sub. destruct (Z.ltb_spec a b); split; intros; simplify_eq; naive_solver lia.
Qed.

Lemma checked_sub_None a b : checked_sub a b = None ↔ a < b.
Proof. unfold checked_sub. destruct (Z.ltb_spec a b); split; intros; simplify_eq; done || lia. Qed.

Lemma saturating_add_fits max a b : 0 ≤ max → 0 ≤ a → 0 ≤ b → fits max (saturating_add max a b).
Proof. unfold fits, saturating_add. lia. Qed.

(** A wrapping sum is the sum modulo the width. *)
Lemma foldl_wrapping_add {A} (f : A → Z) max (l : list A) acc :
  foldl (λ acc x, wrapping_add max acc (f x)) (acc mod (max + 1)) l =
  (acc + foldr (λ x acc, f x + acc) 0 l) mod (max + 1).
Proof.
  revert acc. induction l as [|x l IH]; intros acc; simpl; [f_equal; lia|].
  unfold wrapping_add at 2. rewrite Zplus_mod_idemp_l, IH. f_equal. lia.
Qed.

(** ** Results and the state-and-error monad

    A Rust method on [&mut self] that returns [Result<A, E>] is a function from
    the old state to the result and the new state: a [?] that returns early
    keeps the mutations made before it. *)

Inductive Result (A E : Type) : Type :=
  | Ok (a : A)
  | Err (e : E).
Arguments Ok {A E} a.
Arguments Err {A E} e.

#[export] Instance Result_eq_dec {A E} `{EqDecision A, EqDecision E} : EqDecision (Result A E).
Proof. solve_decision. Defined.

Definition is_ok {A E} (r : Result A E) : bool :=
  match r with Ok _ => true | Err _ => false end.

Definition ok_or {A E} (o : option A) (e : E) : Result A E :=
  match o with Some a => Ok a | None => Err e end.

Definition M (S E A : Type) : Type := S → Result A E * S.

Section Monad.
Context {S E : Type}.

Definition returns {A} (a : A) : M S E A := λ s, (Ok a, s).
Definition throw {A} (e : E) : M S E A := λ s, (Err e, s).
Definition bindM {A B} (m : M S E A) (k : A → M S E B) : M S E B :=
  λ s, match m s with
       | (Ok a, s') => k a s'
       | (Err e, s') => (Err e, s')
       end.
Definition gets {A} (f : S → A) : M S E A := λ s, (Ok (f s), s).
Definition modify (f : S → S) : M S E () := λ s, (Ok (), f s).
Definition lift {A} (r : Result A E) : M S E A := λ s, (r, s).
(** [if b { return Err(e) }] *)
Definition fail_if (b : bool) (e : E) : M S E () := λ s, (if b then Err e else Ok (), s).
(** [for x in l { body }] *)
Fixpoint for_each {A} (l : list A) (body : A → M S E ()) : M S E () :=
  match l with
  | [] => returns ()
  | x :: l' => bindM (body x) (λ _, for_each l' body)
  end.
End Monad.

Declare Scope rust_scope.
Delimit Scope rust_scope with rust.
#[global] Open Scope rust_scope.

Notation "x <-? c ; k" := (bindM c (λ x, k))
  (at level 100, c at next level, k at level 200, right associativity) : rust_scope.
Notation "c ?; k" := (bindM c (λ _, k))
  (at level 100, k at level 200, right associativity) : rust_scope.

(** ** Automation *)

Create HintDb quantos discriminated.
#[export] Hint Constants Opaque : quantos.

(** Unfold the monad and reduce. *)
Ltac unfold_monad :=
  unfold fail_if, bindM, returns, throw, gets, modify, lift, ok_or in *; simpl in *.

(** Boolean comparisons and checked arithmetic in the context as
    propositions over [Z]. *)
Ltac reflect_hyps :=
  repeat match goal with
  | H : (_ <? _) = true |- _ => apply Z.ltb_lt in H
  | H : (_ <? _) = false |- _ => apply Z.ltb_ge in H
  | H : (_ <=? _) = true |- _ => apply Z.leb_le in H
  | H : (_ <=? _) = false |- _ => apply Z.leb_gt in H
  | H : (_ =? _) = true |- _ => apply Z.eqb_eq in H
  | H : (_ =? _) = false |- _ => apply Z.eqb_neq in H
  | H : checked_add _ _ _ = Some _ |- _ => apply checked_add_Some in H as [? ?]
  | H : checked_add _ _ _ = None |- _ => apply checked_add_None in H
  | H : checked_sub _ _ = Some _ |- _ => apply checked_sub_Some in H as [? ?]
  | H : checked_sub _ _ = None |- _ => apply checked_sub_None in H
  | H : bool_decide _ = true |- _ => apply bool_decide_eq_true_1 in H
  | H : bool_decide _ = false |- _ => apply bool_decide_eq_false_1 in H
  | H : negb _ = true |- _ => apply negb_true_iff in H
  | H : negb _ = false |- _ => apply negb_false_iff in H
  | H : (_ && _) = true |- _ => apply andb_true_iff in H as [? ?]
  | H : (_ || _) = false |- _ => apply orb_false_iff in H as [? ?]
  end.

(** Case analysis on every [match] of the hypothesis [H]. *)
Ltac split_hyp H :=
  repeat (simpl in H; match type of H with
  | context [match ?x with _ => _ end] =>
      match x with
      | context [match _ with _ => _ end] => fail 1
      | _ => let E := fresh "E" in destruct x eqn:E
      end
  end); simplify_eq; reflect_hyps.

(** A state invariant of both parts of a sequence is one of the sequence. *)
Lemma bindM_inv {S E A B} (P : S → Prop) (m : M S E A) (k : A → M S E B) s :
  P (m s).2 → (∀ a s', m s = (Ok a, s') → P s' → P (k a s').2) → P (bindM m k s).2.
Proof. unfold bindM. destruct (m s) as [[a|e] s'] eqn:Hm; simpl; eauto. Qed.

(** The two ways a sequence can end. *)
Lemma bindM_cases {S E A B} (m : M S E A) (k : A → M S E B) s r s' :
  bindM m k s = (r, s') →
  (∃ a s1, m s = (Ok a, s1) ∧ k a s1 = (r, s')) ∨ (∃ e, m s = (Err e, s') ∧ r = Err e).
Proof.
  unfold bindM. destruct (m s) as [[a|e] s1]; intros Heq; [left; eauto|right].
  injection Heq as <- <-. eauto.
Qed.

Lemma gets_bind {S E A B} (f : S → A) (k : A → M S E B) s : bindM (gets f) k s = k (f s) s.
Proof. done. Qed.

Lemma fail_if_bind {S E B} b (e : E) (k : () → M S E B) s :
  bindM (fail_if b e) k s = if b then (Err e, s) else k () s.
Proof. unfold bindM, fail_if. by destruct b. Qed.

(** A state invariant of the body of a loop is one of the loop, whether it ends
    or is left by an error. *)
Lemma for_each_inv {S E A} (P : S → Prop) (l : list A) (body : A → M S E ()) s :
  (∀ x s, x ∈ l → P s → P (body x s).2) → P s → P (for_each l body s).2.
Proof.
  revert s. induction l as [|x l IH]; intros s Hbody Hs; simpl; [done|].
  unfold bindM. pose proof (Hbody x s (list_elem_of_here _ _) Hs) as Hx.
  destruct (body x s) as [[[]|e] s'] eqn:Hb; simpl in *; [|done].
  apply IH; [|done]. intros y s'' Hy. apply Hbody. by apply list_elem_of_further.
Qed.

(** What each iteration establishes and later ones keep holds after the loop. *)
Lemma for_each_ok {S E A} (Q : A → S → Prop) (l : list A) (body : A → M S E ()) s s' :
  (∀ x s s', body x s = (Ok (), s') → Q x s') →
  (∀ x y s s', Q x s → body y s = (Ok (), s') → Q x s') →
  for_each l body s = (Ok (), s') → ∀ x, x ∈ l → Q x s'.
Proof.
  intros Hest Hkeep.
  assert (Hkeeps : ∀ l x s s', Q x s → for_each l body s = (Ok (), s') → Q x s').
  { clear s s'. intros k x. induction k as [|y k IH]; intros s s' Hx; simpl; [by intros [= <-]|].
    unfold bindM. destruct (body y s) as [[[]|e] s1] eqn:Hb; [|done]. apply IH. by eapply Hkeep. }
  revert s. induction l as [|y l IH]; intros s; simpl; [by intros _ x ?%not_elem_of_nil|].
  unfold bindM. destruct (body y s) as [[[]|e] s1] eqn:Hb; [|done]. intros Hl x [->|Hx]%elem_of_cons.
  - eapply Hkeeps; [|done]. by eapply Hest.
  - by apply (IH s1).
Qed.

(** ** Sums over finite maps *)

Section MapSum.
Context `{Countable K} {V : Type}.
Implicit Types (m : gmap K V) (f : K → V → Z).

Definition map_sum f m : Z := map_fold (λ k v acc, f k v + acc) 0 m.

Lemma map_sum_empty f : map_sum f ∅ = 0.
Proof. apply map_fold_empty. Qed.

Lemma map_sum_insert_fresh f m k v :
  m !! k = None → map_sum f (<[k := v]> m) = f k v + map_sum f m.
Proof.
  intros Hk. unfold map_sum.
  apply (map_fold_insert_L (λ k v acc, f k v + acc)); [intros; lia | done].
Qed.

Lemma map_sum_delete f m k :
  map_sum f (delete k m) = map_sum f m - from_option (f k) 0 (m !! k).
Proof.
  destruct (m !! k) as [v|] eqn:Hk; simpl.
  - rewrite <- (insert_delete_id m k v Hk) at 2.
    rewrite map_sum_insert_fresh by apply lookup_delete_eq. lia.
  - rewrite delete_id by done. lia.
Qed.

Lemma map_sum_insert f m k v :
  map_sum f (<[k := v]> m) = map_sum f m - from_option (f k) 0 (m !! k) + f k v.
Proof.
  rewrite <- insert_delete_eq, map_sum_insert_fresh by apply lookup_delete_eq.
  rewrite map_sum_delete. lia.
Qed.

Lemma map_sum_nonneg f m :
  (∀ k v, m !! k = Some v → 0 ≤ f k v) → 0 ≤ map_sum f m.
Proof.
  induction m as [|k v m Hk IH] using map_ind; intros Hpos.
  - rewrite map_sum_empty. lia.
  - rewrite map_sum_insert_fresh by done.
    assert (0 ≤ f k v) by (apply Hpos, lookup_insert_eq).
    assert (0 ≤ map_sum f m); [|lia].
    apply IH. intros k' v' Hk'. apply Hpos. rewrite lookup_insert_ne; [done|congruence].
Qed.

Lemma map_sum_lookup_le f m k v :
  (∀ k v, m !! k = Some v → 0 ≤ f k v) → m !! k = Some v → f k v ≤ map_sum f m.
Proof.
  intros Hpos Hk. rewrite <- (insert_delete_id m k v Hk).
  rewrite map_sum_insert_fresh by apply lookup_delete_eq.
  assert (0 ≤ map_sum f (delete k m)); [|lia].
  apply map_sum_nonneg. intros k' v' [_ ?]%lookup_delete_Some. eauto.
Qed.

Lemma map_sum_two_le f m k1 k2 v1 v2 :
  (∀ k v, m !! k = Some v → 0 ≤ f k v) → k1 ≠ k2 →
  m !! k1 = Some v1 → m !! k2 = Some v2 → f k1 v1 + f k2 v2 ≤ map_sum f m.
Proof.
  intros Hpos Hne Hk1 Hk2. rewrite <- (insert_delete_id m k1 v1 Hk1).
  rewrite map_sum_insert_fresh by apply lookup_delete_eq.
  assert (f k2 v2 ≤ map_sum f (delete k1 m)); [|lia].
  apply map_sum_lookup_le.
  - intros k' v' [_ ?]%lookup_delete_Some. eauto.
  - by rewrite lookup_delete_ne.
Qed.
End MapSum.

(** The sum over the values as a list. *)
Lemma map_sum_list `{Countable K} {V} (f : V → Z) (m : gmap K V) :
  map_sum (λ _, f) m = foldr (λ v acc, f v + acc) 0 (map_to_list m).*2.
Proof.
  unfold map_sum. rewrite map_fold_foldr. induction (map_to_list m) as [|[k v] l IH]; simpl; [done|]. by rewrite IH.
Qed.

(** [*m.get(k).unwrap_or(&0)] *)
Definition get0 `{Countable K} (m : gmap K Z) (k : K) : Z := default 0 (m !! k).

Lemma from_option_id_get0 `{Countable K} (m : gmap K Z) k :
  from_option (λ v, v) 0 (m !! k) = get0 m k.
Proof. unfold get0. by destruct (m !! k). Qed.

Lemma get0_insert_eq `{Countable K} (m : gmap K Z) k v : get0 (<[k := v]> m) k = v.
Proof. unfold get0. by rewrite lookup_insert_eq. Qed.

Lemma get0_insert_ne `{Countable K} (m : gmap K Z) k k' v :
  k ≠ k' → get0 (<[k := v]> m) k' = get0 m k'.
Proof. intros. unfold get0. by rewrite lookup_insert_ne. Qed.
