(* ===== verification/Tokens.v ===== *)
(** * Shared vocabulary of the token standards

    The error and event types of [src/L1/src/standards/mod.rs] and the address
    check the three standards (QN4, QN8, QN12) each define. *)

From S2P Require Import Prelude.

Inductive TokenError : Type :=
  | InsufficientBalance | InsufficientAllowance | Unauthorized | InvalidAddress
  | TokenNotFound | TokenAlreadyExists | Overflow | Underflow | InvalidAmount
  | NotOwner | NotApproved | ArrayLengthMismatch | ApprovalRaceCondition
  | BatchSizeTooLarge | MaxSupplyExceeded | ReentrancyDetected
  | MaxTokensPerOwnerReached | DuplicateTokenId.

#[export] Instance TokenError_eq_dec : EqDecision TokenError.
Proof. solve_decision. Defined.

Inductive TokenEvent : Type :=
  | Transfer (from to : Address) (value : Z)
  | Approval (owner spender : Address) (value : Z)
  | TransferNFT (from to : Address) (token_id : Z)
  | ApprovalNFT (owner approved : Address) (token_id : Z)
  | ApprovalForAll (owner operator : Address) (approved : bool)
  | TransferSingle (operator from to : Address) (token_id value : Z)
  | TransferBatch (operator from to : Address) (token_ids values : list Z)
  | Paused (account : Address)
  | Unpaused (account : Address)
  | OwnershipTransferStarted (previous_owner new_owner : Address)
  | OwnershipTransferred (previous_owner new_owner : Address).

(** [const ZERO_ADDRESS: Address = [0u8; 32]] *)
Definition ZERO_ADDRESS : Address := 0.

(** [Self::check_not_zero_address], the same text in the three standards. *)
Definition check_not_zero_address {S} (address : Address) : M S TokenError () :=
  fail_if (address =? ZERO_ADDRESS) InvalidAddress.
