(* ===== verification/QN4.v ===== *)
(** * QN4, the fungible token standard

    Models [src/L1/src/standards/qn4.rs]: the resource [QN4Token], its
    constructors, every operation of the traits [QN4], [QN4Mintable],
    [QN4Burnable] and [QN4Pausable], and the administrative methods.  A method
    on [&mut self] is a computation of the state-and-error monad, so that what
    an error path leaves behind is part of the model. *)

From S2P Require Import Prelude Tokens.

(** ** State *)

Record QN4Token : Type := mkQN4Token {
  name : string;
  symbol : string;
  decimals : Z;
  total_supply : Z;
  owner : Address;
  pending_owner : option Address;
  balances : gmap Address Z;
  allowances : gmap (Address * Address) Z;
  mintable : bool;
  burnable : bool;
  pausable : bool;
  paused : bool;
  max_supply : option Z
}.

(** Field assignments [self.f = v]. *)
Definition set_total_supply (v : Z) (t : QN4Token) : QN4Token :=
  mkQN4Token (name t) (symbol t) (decimals t) v (owner t) (pending_owner t)
    (balances t) (allowances t) (mintable t) (burnable t) (pausable t) (paused t) (max_supply t).
Definition set_owner (v : Address) (t : QN4Token) : QN4Token :=
  mkQN4Token (name t) (symbol t) (decimals t) (total_supply t) v (pending_owner t)
    (balances t) (allowances t) (mintable t) (burnable t) (pausable t) (paused t) (max_supply t).
Definition set_pending_owner (v : option Address) (t : QN4Token) : QN4Token :=
  mkQN4Token (name t) (symbol t) (decimals t) (total_supply t) (owner t) v
    (balances t) (allowances t) (mintable t) (burnable t) (pausable t) (paused t) (max_supply t).
Definition set_balances (v : gmap Address Z) (t : QN4Token) : QN4Token :=
  mkQN4Token (name t) (symbol t) (decimals t) (total_supply t) (owner t) (pending_owner t)
    v (allowances t) (mintable t) (burnable t) (pausable t) (paused t) (max_supply t).
Definition set_allowances (v : gmap (Address * Address) Z) (t : QN4Token) : QN4Token :=
  mkQN4Token (name t) (symbol t) (decimals t) (total_supply t) (owner t) (pending_owner t)
    (balances t) v (mintable t) (burnable t) (pausable t) (paused t) (max_supply t).
Definition set_flags (m b p : bool) (t : QN4Token) : QN4Token :=
  mkQN4Token (name t) (symbol t) (decimals t) (total_supply t) (owner t) (pending_owner t)
    (balances t) (allowances t) m b p (paused t) (max_supply t).
Definition set_paused (v : bool) (t : QN4Token) : QN4Token :=
  mkQN4Token (name t) (symbol t) (decimals t) (total_supply t) (owner t) (pending_owner t)
    (balances t) (allowances t) (mintable t) (burnable t) (pausable t) v (max_supply t).
Definition set_max_supply_field (v : option Z) (t : QN4Token) : QN4Token :=
  mkQN4Token (name t) (symbol t) (decimals t) (total_supply t) (owner t) (pending_owner t)
    (balances t) (allowances t) (mintable t) (burnable t) (pausable t) (paused t) v.

(** [self.balances.insert(a, v)] and [self.allowances.insert((o, s), v)] *)
Definition insert_balance (a : Address) (v : Z) (t : QN4Token) : QN4Token :=
  set_balances (<[a := v]> (balances t)) t.
Definition insert_allowance (o s : Address) (v : Z) (t : QN4Token) : QN4Token :=
  set_allowances (<[(o, s) := v]> (allowances t)) t.

(** ** Constructors *)

Definition new (name symbol : string) (decimals initial_supply : Z) (owner : Address) : QN4Token :=
  mkQN4Token name symbol decimals initial_supply owner None
    {[owner := initial_supply]} ∅ false false false false None.

Definition new_full (name symbol : string) (decimals initial_supply : Z) (owner : Address)
    (mintable burnable pausable : bool) : QN4Token :=
  set_flags mintable burnable pausable (new name symbol decimals initial_supply owner).

(** ** Checks and queries *)

Abbreviation OP A := (M QN4Token TokenError A).

Definition check_not_paused : OP () :=
  p <-? gets paused;
  fail_if p Unauthorized.

Definition check_owner (caller : Address) : OP () :=
  o <-? gets owner;
  fail_if (negb (caller =? o)) Unauthorized.

Definition balance_of (t : QN4Token) (account : Address) : Z := get0 (balances t) account.

Definition allowance (t : QN4Token) (owner spender : Address) : Z :=
  get0 (allowances t) (owner, spender).

Definition is_paused (t : QN4Token) : bool := paused t.

Definition cleanup_zero_balance (address : Address) (t : QN4Token) : QN4Token :=
  match balances t !! address with
  | Some balance => if balance =? 0 then set_balances (delete address (balances t)) t else t
  | None => t
  end.

(** ** Administration *)

Definition transfer_ownership (caller new_owner : Address) : OP TokenEvent :=
  check_owner caller ?;
  check_not_zero_address new_owner ?;
  modify (set_pending_owner (Some new_owner)) ?;
  returns (OwnershipTransferStarted caller new_owner).

Definition accept_ownership (caller : Address) : OP TokenEvent :=
  p <-? gets pending_owner;
  fail_if (negb (bool_decide (p = Some caller))) Unauthorized ?;
  previous_owner <-? gets owner;
  modify (set_owner caller) ?;
  modify (set_pending_owner None) ?;
  returns (OwnershipTransferred previous_owner caller).

Definition set_max_supply (caller : Address) (max : Z) : OP () :=
  check_owner caller ?;
  m <-? gets max_supply;
  fail_if (bool_decide (is_Some m)) Unauthorized ?;
  s <-? gets total_supply;
  fail_if (max <? s) InvalidAmount ?;
  modify (set_max_supply_field (Some max)).

Definition pause (caller : Address) : OP () :=
  check_owner caller ?;
  p <-? gets pausable;
  fail_if (negb p) Unauthorized ?;
  modify (set_paused true).

Definition unpause (caller : Address) : OP () :=
  check_owner caller ?;
  p <-? gets pausable;
  fail_if (negb p) Unauthorized ?;
  modify (set_paused false).

(** ** Allowances *)

Definition increase_allowance (caller spender : Address) (added_value : Z) : OP TokenEvent :=
  check_not_paused ?;
  check_not_zero_address spender ?;
  current <-? gets (λ t, allowance t caller spender);
  new_allowance <-? lift (ok_or (checked_add u64_max current added_value) Overflow);
  modify (insert_allowance caller spender new_allowance) ?;
  returns (Approval caller spender new_allowance).

Definition decrease_allowance (caller spender : Address) (subtracted_value : Z) : OP TokenEvent :=
  check_not_paused ?;
  check_not_zero_address spender ?;
  current <-? gets (λ t, allowance t caller spender);
  new_allowance <-? lift (ok_or (checked_sub current subtracted_value) Underflow);
  modify (insert_allowance caller spender new_allowance) ?;
  returns (Approval caller spender new_allowance).

Definition approve (caller spender : Address) (amount : Z) : OP TokenEvent :=
  check_not_paused ?;
  check_not_zero_address spender ?;
  current_allowance <-? gets (λ t, allowance t caller spender);
  fail_if (negb (current_allowance =? 0) && negb (amount =? 0)) ApprovalRaceCondition ?;
  modify (insert_allowance caller spender amount) ?;
  returns (Approval caller spender amount).

(** ** Transfers *)

Definition transfer (caller to : Address) (amount : Z) : OP TokenEvent :=
  check_not_paused ?;
  check_not_zero_address to ?;
  fail_if (amount =? 0) InvalidAmount ?;
  from_balance <-? gets (λ t, get0 (balances t) caller);
  fail_if (from_balance <? amount) InsufficientBalance ?;
  to_balance <-? gets (λ t, get0 (balances t) to);
  new_from <-? lift (ok_or (checked_sub from_balance amount) Underflow);
  new_to <-? lift (ok_or (checked_add u64_max to_balance amount) Overflow);
  modify (insert_balance caller new_from) ?;
  modify (insert_balance to new_to) ?;
  modify (cleanup_zero_balance caller) ?;
  returns (Transfer caller to amount).

Definition transfer_from (caller from to : Address) (amount : Z) : OP TokenEvent :=
  check_not_paused ?;
  check_not_zero_address to ?;
  fail_if (amount =? 0) InvalidAmount ?;
  current_allowance <-? gets (λ t, allowance t from caller);
  fail_if (current_allowance <? amount) InsufficientAllowance ?;
  from_balance <-? gets (λ t, balance_of t from);
  fail_if (from_balance <? amount) InsufficientBalance ?;
  (if current_allowance =? u64_max then returns ()
   else new_allowance <-? lift (ok_or (checked_sub current_allowance amount) Underflow);
        modify (insert_allowance from caller new_allowance)) ?;
  to_balance <-? gets (λ t, get0 (balances t) to);
  new_from <-? lift (ok_or (checked_sub from_balance amount) Underflow);
  new_to <-? lift (ok_or (checked_add u64_max to_balance amount) Overflow);
  modify (insert_balance from new_from) ?;
  modify (insert_balance to new_to) ?;
  modify (cleanup_zero_balance from) ?;
  returns (Transfer from to amount).

(** ** Minting and burning *)

Definition mint (caller to : Address) (amount : Z) : OP TokenEvent :=
  check_not_paused ?;
  check_owner caller ?;
  check_not_zero_address to ?;
  m <-? gets mintable;
  fail_if (negb m) Unauthorized ?;
  cap <-? gets max_supply;
  supply <-? gets total_supply;
  (match cap with
   | Some max => fail_if (max <? default u64_max (checked_add u64_max supply amount)) MaxSupplyExceeded
   | None => returns ()
   end) ?;
  new_supply <-? lift (ok_or (checked_add u64_max supply amount) Overflow);
  modify (set_total_supply new_supply) ?;
  current_balance <-? gets (λ t, get0 (balances t) to);
  new_balance <-? lift (ok_or (checked_add u64_max current_balance amount) Overflow);
  modify (insert_balance to new_balance) ?;
  returns (Transfer ZERO_ADDRESS to amount).

Definition burn (caller : Address) (amount : Z) : OP TokenEvent :=
  check_not_paused ?;
  b <-? gets burnable;
  fail_if (negb b) Unauthorized ?;
  caller_balance <-? gets (λ t, balance_of t caller);
  fail_if (caller_balance <? amount) InsufficientBalance ?;
  new_balance <-? lift (ok_or (checked_sub caller_balance amount) Underflow);
  supply <-? gets total_supply;
  new_supply <-? lift (ok_or (checked_sub supply amount) Underflow);
  modify (set_total_supply new_supply) ?;
  modify (insert_balance caller new_balance) ?;
  modify (cleanup_zero_balance caller) ?;
  returns (Transfer caller ZERO_ADDRESS amount).

Definition burn_from (caller from : Address) (amount : Z) : OP TokenEvent :=
  check_not_paused ?;
  b <-? gets burnable;
  fail_if (negb b) Unauthorized ?;
  current_allowance <-? gets (λ t, allowance t from caller);
  fail_if (current_allowance <? amount) InsufficientAllowance ?;
  from_balance <-? gets (λ t, balance_of t from);
  fail_if (from_balance <? amount) InsufficientBalance ?;
  new_allowance <-? lift (ok_or (checked_sub current_allowance amount) Underflow);
  new_balance <-? lift (ok_or (checked_sub from_balance amount) Underflow);
  supply <-? gets total_supply;
  new_supply <-? lift (ok_or (checked_sub supply amount) Underflow);
  modify (set_total_supply new_supply) ?;
  modify (insert_allowance from caller new_allowance) ?;
  modify (insert_balance from new_balance) ?;
  modify (cleanup_zero_balance from) ?;
  returns (Transfer from ZERO_ADDRESS amount).

(** ** The interface as one step function *)

Inductive Call : Type :=
  | CTransferOwnership (caller new_owner : Address)
  | CAcceptOwnership (caller : Address)
  | CSetMaxSupply (caller : Address) (max : Z)
  | CPause (caller : Address)
  | CUnpause (caller : Address)
  | CIncreaseAllowance (caller spender : Address) (v : Z)
  | CDecreaseAllowance (caller spender : Address) (v : Z)
  | CApprove (caller spender : Address) (v : Z)
  | CTransfer (caller to : Address) (v : Z)
  | CTransferFrom (caller from to : Address) (v : Z)
  | CMint (caller to : Address) (v : Z)
  | CBurn (caller : Address) (v : Z)
  | CBurnFrom (caller from : Address) (v : Z).

Definition discard {A} (m : OP A) : OP () := m ?; returns ().

Definition exec (c : Call) : OP () :=
  match c with
  | CTransferOwnership c o => discard (transfer_ownership c o)
  | CAcceptOwnership c => discard (accept_ownership c)
  | CSetMaxSupply c m => set_max_supply c m
  | CPause c => pause c
  | CUnpause c => unpause c
  | CIncreaseAllowance c s v => discard (increase_allowance c s v)
  | CDecreaseAllowance c s v => discard (decrease_allowance c s v)
  | CApprove c s v => discard (approve c s v)
  | CTransfer c t v => discard (transfer c t v)
  | CTransferFrom c f t v => discard (transfer_from c f t v)
  | CMint c t v => discard (mint c t v)
  | CBurn c v => discard (burn c v)
  | CBurnFrom c f v => discard (burn_from c f v)
  end.

(** The state after a call, and after a history of calls whatever their
    results. *)
Definition step (t : QN4Token) (c : Call) : QN4Token := (exec c t).2.
Definition run (t : QN4Token) (cs : list Call) : QN4Token := foldl step t cs.

(** ** Specification vocabulary *)

Definition sum_balances (t : QN4Token) : Z := map_sum (λ _ v, v) (balances t).

(** The ledger invariant: entries are [u64]s, the balances add up to the
    recorded supply, and the supply respects the cap once one is set. *)
Record wf (t : QN4Token) : Prop := {
  wf_balances : ∀ a v, balances t !! a = Some v → fits u64_max v;
  wf_allowances : ∀ k v, allowances t !! k = Some v → fits u64_max v;
  wf_supply : sum_balances t = total_supply t;
  wf_range : fits u64_max (total_supply t);
  wf_cap : ∀ m, max_supply t = Some m → total_supply t ≤ m
}.

(** The [u64] arguments of a call are in range. *)
Definition call_fits (c : Call) : Prop :=
  match c with
  | CSetMaxSupply _ v | CIncreaseAllowance _ _ v | CDecreaseAllowance _ _ v | CApprove _ _ v
  | CTransfer _ _ v | CTransferFrom _ _ _ v | CMint _ _ v | CBurn _ v | CBurnFrom _ _ v =>
      fits u64_max v
  | _ => True
  end.

(** A transfer whose source and destination are the same account. *)
Definition self_transfer (c : Call) : bool :=
  match c with
  | CTransfer c t _ => c =? t
  | CTransferFrom _ f t _ => f =? t
  | _ => false
  end.

(** Abstract effects: [v] units move, [v] units disappear, an allowance is
    used ([u64::MAX] is never used up). *)
Definition moved (from to : Address) (v : Z) (t : QN4Token) : QN4Token :=
  cleanup_zero_balance from (insert_balance to (balance_of t to + v)
    (insert_balance from (balance_of t from - v) t)).

Definition destroyed (from : Address) (v : Z) (t : QN4Token) : QN4Token :=
  cleanup_zero_balance from (insert_balance from (balance_of t from - v)
    (set_total_supply (total_supply t - v) t)).

Definition spend_allowance (from caller : Address) (v : Z) (t : QN4Token) : QN4Token :=
  if allowance t from caller =? u64_max then t
  else insert_allowance from caller (allowance t from caller - v) t.

(** A spender draws on [from] with a list of [transfer_from] calls: the total
    of the calls that succeed, and the final state. *)
Fixpoint draw (spender from : Address) (reqs : list (Address * Z)) (t : QN4Token) : Z * QN4Token :=
  match reqs with
  | [] => (0, t)
  | (to, v) :: reqs' =>
      let '(r, t') := transfer_from spender from to v t in
      let '(total, t'') := draw spender from reqs' t' in
      ((if is_ok r then v else 0) + total, t'')
  end.

(** ** Basic consequences of the invariant *)

Lemma get0_fits (m : gmap Address Z) a :
  (∀ a v, m !! a = Some v → fits u64_max v) → fits u64_max (get0 m a).
Proof.
  intros Hm. unfold get0. destruct (m !! a) as [v|] eqn:Ha; simpl; [eauto|].
  unfold fits, u64_max. lia.
Qed.

Lemma wf_balance_le t a : wf t → 0 ≤ balance_of t a ≤ total_supply t.
Proof.
  intros Hwf. pose proof (get0_fits (balances t) a (wf_balances _ Hwf)) as [Hlo _].
  split; [done|]. rewrite <- (wf_supply _ Hwf). unfold balance_of, get0, sum_balances in *.
  assert (Hpos : ∀ k v, balances t !! k = Some v → 0 ≤ v)
    by (intros k v Hk; by destruct (wf_balances _ Hwf k v Hk)).
  destruct (balances t !! a) as [v|] eqn:Ha; simpl.
  - by apply (map_sum_lookup_le (λ _ v, v)) with a.
  - by apply map_sum_nonneg.
Qed.

Lemma wf_two_balances_le t a b :
  wf t → a ≠ b → balance_of t a + balance_of t b ≤ total_supply t.
Proof.
  intros Hwf Hne. unfold balance_of, get0.
  destruct (balances t !! a) as [v|] eqn:Ha; simpl.
  2: { pose proof (wf_balance_le t b Hwf). unfold balance_of, get0 in *. lia. }
  destruct (balances t !! b) as [w|] eqn:Hb; simpl.
  2: { pose proof (wf_balance_le t a Hwf) as Hle. unfold balance_of, get0 in Hle.
       rewrite Ha in Hle. simpl in Hle. lia. }
  rewrite <- (wf_supply _ Hwf). unfold sum_balances.
  eapply (map_sum_two_le (λ _ v, v)); eauto.
  intros k x Hk. by destruct (wf_balances _ Hwf k x Hk).
Qed.

(** *** What the map updates do to the sum and to each balance *)

Lemma cleanup_get0 a t b : balance_of (cleanup_zero_balance a t) b = balance_of t b.
Proof.
  unfold cleanup_zero_balance. destruct (balances t !! a) as [v|] eqn:Ha; [|done].
  destruct (Z.eqb_spec v 0) as [->|]; [|done]. unfold balance_of, get0. simpl.
  rewrite lookup_delete. case_decide; [subst|done]. by rewrite Ha.
Qed.

Lemma cleanup_sum a t : sum_balances (cleanup_zero_balance a t) = sum_balances t.
Proof.
  unfold cleanup_zero_balance. destruct (balances t !! a) as [v|] eqn:Ha; [|done].
  destruct (Z.eqb_spec v 0) as [->|]; [|done]. unfold sum_balances. simpl.
  rewrite map_sum_delete, Ha. simpl. lia.
Qed.

Lemma cleanup_lookup a t b v :
  balances (cleanup_zero_balance a t) !! b = Some v → balances t !! b = Some v.
Proof.
  unfold cleanup_zero_balance. destruct (balances t !! a); [|done].
  destruct (_ =? 0); [|done]. simpl. intros [_ ?]%lookup_delete_Some. done.
Qed.

Lemma cleanup_others a t :
  let t' := cleanup_zero_balance a t in
  allowances t' = allowances t ∧ total_supply t' = total_supply t ∧
  max_supply t' = max_supply t ∧ owner t' = owner t ∧ paused t' = paused t ∧
  pending_owner t' = pending_owner t ∧ mintable t' = mintable t ∧
  burnable t' = burnable t ∧ pausable t' = pausable t.
Proof.
  unfold cleanup_zero_balance. destruct (balances t !! a); [|naive_solver].
  destruct (_ =? 0); naive_solver.
Qed.

Lemma insert_sum a v t :
  sum_balances (insert_balance a v t) = sum_balances t - balance_of t a + v.
Proof.
  unfold sum_balances, insert_balance, balance_of. simpl.
  rewrite map_sum_insert, from_option_id_get0. done.
Qed.

Lemma wf_insert_balance a v s t :
  wf t → fits u64_max v → fits u64_max s →
  s = total_supply t - balance_of t a + v →
  (∀ m, max_supply t = Some m → s ≤ m) →
  wf (insert_balance a v (set_total_supply s t)).
Proof.
  intros Hwf Hv Hs Heq Hcap. split; simpl; try done.
  - intros b w. rewrite lookup_insert. case_decide; [naive_solver|]. apply (wf_balances _ Hwf).
  - apply (wf_allowances _ Hwf).
  - rewrite insert_sum. unfold sum_balances, balance_of in *. simpl.
    pose proof (wf_supply _ Hwf) as Hsum. unfold sum_balances in Hsum. lia.
Qed.

Lemma wf_cleanup a t : wf t → wf (cleanup_zero_balance a t).
Proof.
  intros Hwf. destruct (cleanup_others a t) as (Hal & Hts & Hms & _).
  split; rewrite ?Hal, ?Hts, ?Hms; try apply Hwf.
  - intros b v Hb. apply (wf_balances _ Hwf b). by eapply cleanup_lookup.
  - rewrite cleanup_sum. apply Hwf.
Qed.

Lemma wf_move a b v t :
  wf t → a ≠ b → 0 ≤ v ≤ balance_of t a →
  wf (cleanup_zero_balance a (insert_balance b (balance_of t b + v)
        (insert_balance a (balance_of t a - v) t))).
Proof.
  intros Hwf Hne Hv. apply wf_cleanup.
  pose proof (wf_two_balances_le t a b Hwf Hne). pose proof (wf_balance_le t a Hwf).
  pose proof (wf_balance_le t b Hwf). pose proof (wf_range _ Hwf) as [_ Hmax].
  split; simpl; try apply Hwf.
  - intros c w. rewrite !lookup_insert. unfold fits.
    repeat case_decide; [naive_solver lia..|]. apply (wf_balances _ Hwf).
  - rewrite !insert_sum.
    assert (balance_of (insert_balance a (balance_of t a - v) t) b = balance_of t b) as ->
      by (unfold balance_of; simpl; by apply get0_insert_ne).
    rewrite (wf_supply _ Hwf). lia.
Qed.

Lemma wf_insert_allowance o s v t : wf t → fits u64_max v → wf (insert_allowance o s v t).
Proof.
  intros Hwf Hv. split; simpl; try apply Hwf.
  intros k w. rewrite lookup_insert. case_decide; [naive_solver|]. apply (wf_allowances _ Hwf).
Qed.

Lemma wf_allowance_fits t o s : wf t → fits u64_max (allowance t o s).
Proof.
  intros Hwf. unfold allowance, get0. destruct (allowances t !! (o, s)) eqn:Hk; simpl.
  - by eapply wf_allowances.
  - unfold fits, u64_max. lia.
Qed.

(** ** Each balance-changing operation on every branch

    On a well-formed ledger the [Overflow] and [Underflow] exits after the
    explicit guards cannot be taken, so each operation is its guards followed by
    one update. *)

Ltac run_ops :=
  unfold check_not_paused, check_owner, check_not_zero_address in *; unfold_monad;
  repeat (case_match; simpl in *); simplify_eq; reflect_hyps; simplify_eq.

Lemma transfer_eq t caller to v :
  wf t → fits u64_max v → caller ≠ to →
  transfer caller to v t =
    if paused t then (Err Unauthorized, t)
    else if to =? ZERO_ADDRESS then (Err InvalidAddress, t)
    else if v =? 0 then (Err InvalidAmount, t)
    else if balance_of t caller <? v then (Err InsufficientBalance, t)
    else (Ok (Transfer caller to v), moved caller to v t).
Proof.
  intros Hwf [Hv _] Hne. pose proof (wf_two_balances_le t caller to Hwf Hne).
  pose proof (wf_range _ Hwf) as [_ ?]. unfold transfer, moved, balance_of in *.
  run_ops; simpl in *; done || lia.
Qed.

Lemma transfer_from_eq t caller from to v :
  wf t → fits u64_max v → from ≠ to →
  transfer_from caller from to v t =
    if paused t then (Err Unauthorized, t)
    else if to =? ZERO_ADDRESS then (Err InvalidAddress, t)
    else if v =? 0 then (Err InvalidAmount, t)
    else if allowance t from caller <? v then (Err InsufficientAllowance, t)
    else if balance_of t from <? v then (Err InsufficientBalance, t)
    else (Ok (Transfer from to v), moved from to v (spend_allowance from caller v t)).
Proof.
  intros Hwf [Hv _] Hne. pose proof (wf_two_balances_le t from to Hwf Hne).
  pose proof (wf_range _ Hwf) as [_ ?].
  unfold transfer_from, moved, spend_allowance, balance_of in *.
  run_ops; simpl in *; done || lia.
Qed.

Lemma mint_eq t caller to v :
  wf t → fits u64_max v →
  mint caller to v t =
    if paused t then (Err Unauthorized, t)
    else if negb (caller =? owner t) then (Err Unauthorized, t)
    else if to =? ZERO_ADDRESS then (Err InvalidAddress, t)
    else if negb (mintable t) then (Err Unauthorized, t)
    else match max_supply t with
         | Some m => if m <? Z.min u64_max (total_supply t + v) then (Err MaxSupplyExceeded, t)
                     else if u64_max <? total_supply t + v then (Err Overflow, t)
                     else (Ok (Transfer ZERO_ADDRESS to v),
                           insert_balance to (balance_of t to + v)
                             (set_total_supply (total_supply t + v) t))
         | None => if u64_max <? total_supply t + v then (Err Overflow, t)
                   else (Ok (Transfer ZERO_ADDRESS to v),
                         insert_balance to (balance_of t to + v)
                           (set_total_supply (total_supply t + v) t))
         end.
Proof.
  intros Hwf [Hv _]. pose proof (wf_balance_le t to Hwf).
  unfold mint, balance_of, checked_add in *. run_ops; simpl in *; done || lia.
Qed.

Lemma burn_eq t caller v :
  wf t → fits u64_max v →
  burn caller v t =
    if paused t then (Err Unauthorized, t)
    else if negb (burnable t) then (Err Unauthorized, t)
    else if balance_of t caller <? v then (Err InsufficientBalance, t)
    else (Ok (Transfer caller ZERO_ADDRESS v), destroyed caller v t).
Proof.
  intros Hwf [Hv _]. pose proof (wf_balance_le t caller Hwf).
  unfold burn, destroyed, balance_of in *. run_ops; simpl in *; done || lia.
Qed.

Lemma burn_from_eq t caller from v :
  wf t → fits u64_max v →
  burn_from caller from v t =
    if paused t then (Err Unauthorized, t)
    else if negb (burnable t) then (Err Unauthorized, t)
    else if allowance t from caller <? v then (Err InsufficientAllowance, t)
    else if balance_of t from <? v then (Err InsufficientBalance, t)
    else (Ok (Transfer from ZERO_ADDRESS v),
          destroyed from v (insert_allowance from caller (allowance t from caller - v) t)).
Proof.
  intros Hwf [Hv _]. pose proof (wf_balance_le t from Hwf).
  unfold burn_from, destroyed, balance_of in *. run_ops; simpl in *; done || lia.
Qed.

(** ** Preservation of the invariant *)

Lemma wf_moved from to v t :
  wf t → from ≠ to → 0 ≤ v ≤ balance_of t from → wf (moved from to v t).
Proof. apply wf_move. Qed.

Lemma wf_destroyed from v t :
  wf t → 0 ≤ v ≤ balance_of t from → wf (destroyed from v t).
Proof.
  intros Hwf Hv. apply wf_cleanup. pose proof (wf_balance_le t from Hwf).
  pose proof (wf_range _ Hwf) as [? ?].
  apply wf_insert_balance; try done; unfold fits in *; try lia.
  intros m Hm. pose proof (wf_cap _ Hwf m Hm). lia.
Qed.

Lemma wf_spend_allowance from caller v t :
  wf t → 0 ≤ v ≤ allowance t from caller → wf (spend_allowance from caller v t).
Proof.
  intros Hwf Hv. unfold spend_allowance. case_match; [done|].
  apply wf_insert_allowance; [done|]. pose proof (wf_allowance_fits t from caller Hwf).
  unfold fits in *. lia.
Qed.

Lemma spend_allowance_balance from caller v t a :
  balance_of (spend_allowance from caller v t) a = balance_of t a.
Proof. unfold spend_allowance. by case_match. Qed.

Lemma wf_minted to v t :
  wf t → 0 ≤ v → total_supply t + v ≤ u64_max →
  (∀ m, max_supply t = Some m → total_supply t + v ≤ m) →
  wf (insert_balance to (balance_of t to + v) (set_total_supply (total_supply t + v) t)).
Proof.
  intros Hwf Hv Hmax Hcap. pose proof (wf_balance_le t to Hwf).
  apply wf_insert_balance; try done; unfold fits; lia.
Qed.

(** Assignments that do not touch balances, allowances or the supply. *)
Lemma wf_admin t t' :
  wf t → balances t' = balances t → allowances t' = allowances t →
  total_supply t' = total_supply t → max_supply t' = max_supply t → wf t'.
Proof.
  intros Hwf Hb Ha Hs Hm. split; unfold sum_balances; rewrite ?Hb, ?Ha, ?Hs, ?Hm; apply Hwf.
Qed.

(** The state after an operation that only reads or only changes
    administrative fields or allowances. *)
Lemma wf_step_other t c :
  wf t → call_fits c →
  match c with CTransfer _ _ _ | CTransferFrom _ _ _ _ | CMint _ _ _ | CBurn _ _ | CBurnFrom _ _ _ => True
  | _ => wf (step t c) end.
Proof.
  intros Hwf Hc. destruct c; try done; unfold step, exec, discard, transfer_ownership,
    accept_ownership, set_max_supply, pause, unpause, increase_allowance, decrease_allowance, approve;
    run_ops; try done; try (by apply (wf_admin t));
    try (apply wf_insert_allowance; [done|]).
  - split; try apply Hwf. simpl. intros ? [= <-]. lia.
  - pose proof (wf_allowance_fits t caller spender Hwf). unfold fits in *. lia.
  - pose proof (wf_allowance_fits t caller spender Hwf). unfold fits in *. lia.
  - done.
Qed.

Lemma wf_step t c : wf t → call_fits c → self_transfer c = false → wf (step t c).
Proof.
  intros Hwf Hc Hself. destruct c; try (by apply (wf_step_other t _ Hwf Hc));
    unfold step, exec, discard, bindM; simpl in Hself; reflect_hyps; destruct Hc as [Hv Hmax].
  - rewrite transfer_eq by done. repeat case_match; simplify_eq; reflect_hyps; done || by apply wf_moved.
  - rewrite transfer_from_eq by done. repeat case_match; simplify_eq; reflect_hyps; try done.
    apply wf_moved; [by apply wf_spend_allowance|done|]. by rewrite spend_allowance_balance.
  - rewrite mint_eq by done.
    repeat case_match; simplify_eq; reflect_hyps; try done; apply wf_minted; done || (intros; simplify_eq; lia).
  - rewrite burn_eq by done. repeat case_match; simplify_eq; reflect_hyps; done || by apply wf_destroyed.
  - rewrite burn_from_eq by done. repeat case_match; simplify_eq; reflect_hyps; try done.
    apply wf_destroyed; [|done]. apply wf_insert_allowance; [done|].
    pose proof (wf_allowance_fits t from caller Hwf). unfold fits in *. lia.
Qed.

Lemma wf_new name symbol decimals supply owner :
  fits u64_max supply → wf (new name symbol decimals supply owner).
Proof.
  intros Hs. split; simpl; try done.
  - intros a v [_ <-]%lookup_singleton_Some. done.
  - unfold sum_balances. simpl. rewrite <- insert_empty, map_sum_insert_fresh by done.
    rewrite map_sum_empty. lia.
Qed.

Lemma wf_set_flags m b p t : wf t → wf (set_flags m b p t).
Proof. intros Hwf. by apply (wf_admin t). Qed.

Lemma wf_run t cs :
  wf t → Forall call_fits cs → Forall (λ c, self_transfer c = false) cs → wf (run t cs).
Proof.
  unfold run. revert t. induction cs as [|c cs IH]; intros t Hwf Hfit Hself; simpl; [done|].
  inversion Hfit; inversion Hself; subst. apply IH; try done. by apply wf_step.
Qed.

(** ** Balances after a move *)

Lemma moved_balance from to v t a :
  from ≠ to →
  balance_of (moved from to v t) a =
    if a =? from then balance_of t from - v
    else if a =? to then balance_of t to + v else balance_of t a.
Proof.
  intros Hne. unfold moved. rewrite cleanup_get0. unfold balance_of, insert_balance. simpl.
  unfold get0. rewrite !lookup_insert.
  destruct (Z.eqb_spec a from), (Z.eqb_spec a to); repeat case_decide; naive_solver.
Qed.

Lemma moved_others from to v t :
  let t' := moved from to v t in
  total_supply t' = total_supply t ∧ allowances t' = allowances t ∧
  max_supply t' = max_supply t ∧ owner t' = owner t ∧ paused t' = paused t.
Proof. unfold moved. edestruct cleanup_others as (-> & -> & -> & -> & -> & _). done. Qed.

Lemma transfer_from_cases t caller from to v :
  wf t → fits u64_max v → from ≠ to →
  (∃ e, transfer_from caller from to v t = (Err e, t)) ∨
  (transfer_from caller from to v t =
     (Ok (Transfer from to v), moved from to v (spend_allowance from caller v t)) ∧
   v ≤ allowance t from caller ∧ v ≤ balance_of t from).
Proof.
  intros. rewrite transfer_from_eq by done.
  repeat case_match; reflect_hyps; solve [left; eauto | right; auto].
Qed.

Lemma allowance_moved_spend t caller from to v :
  allowance t from caller ≠ u64_max →
  allowance (moved from to v (spend_allowance from caller v t)) from caller =
    allowance t from caller - v.
Proof.
  intros Hinf. unfold allowance at 1.
  destruct (moved_others from to v (spend_allowance from caller v t)) as (_ & -> & _).
  unfold spend_allowance. destruct (Z.eqb_spec (allowance t from caller) u64_max); [done|].
  simpl. apply get0_insert_eq.
Qed.

Lemma draw_bound spender from reqs t :
  wf t → Forall (λ '(to, v), fits u64_max v ∧ from ≠ to) reqs →
  allowance t from spender ≠ u64_max →
  allowance (draw spender from reqs t).2 from spender =
    allowance t from spender - (draw spender from reqs t).1 ∧
  0 ≤ allowance (draw spender from reqs t).2 from spender.
Proof.
  revert t. induction reqs as [|[to v] reqs IH]; intros t Hwf Hreqs Hinf; simpl.
  - split; [lia|]. by destruct (wf_allowance_fits t from spender Hwf).
  - inversion Hreqs as [|? ? Hreq Hreqs']; subst. cbv beta iota in Hreq.
    destruct Hreq as [Hv Hne]. destruct (wf_allowance_fits t from spender Hwf) as [Hlo Hhi].
    destruct (transfer_from_cases t spender from to v Hwf Hv Hne) as [[e ->]|(-> & Hal & Hbal)].
    + specialize (IH t Hwf Hreqs' Hinf). destruct (draw spender from reqs t). simpl in *. lia.
    + destruct Hv as [Hv ?]. pose proof (allowance_moved_spend t spender from to v Hinf) as Heq.
      assert (Hwf' : wf (moved from to v (spend_allowance from spender v t))).
      { apply wf_moved; [by apply wf_spend_allowance|done|]. by rewrite spend_allowance_balance. }
      specialize (IH _ Hwf' Hreqs' ltac:(lia)).
      destruct (draw spender from reqs _). simpl in *. lia.
Qed.

(** ** Claims *)

(** C26. Supply conservation.  From any constructor, after any history of calls
    (successful or not, authorised or not) that contains no transfer of an
    account to itself, the balances add up to the recorded total supply, the
    supply is a [u64], it respects the cap once one is set, and every balance is
    between 0 and the supply. *)
Theorem supply_conserved name symbol decimals supply owner m b p cs
    (Hs : fits u64_max supply)
    (Hfit : Forall call_fits cs)
    (Hself : Forall (λ c, self_transfer c = false) cs) :
  let t := run (new_full name symbol decimals supply owner m b p) cs in
  sum_balances t = total_supply t ∧ fits u64_max (total_supply t) ∧
  (∀ cap, max_supply t = Some cap → total_supply t ≤ cap) ∧
  ∀ a, 0 ≤ balance_of t a ≤ total_supply t.
Proof.
  intros t. assert (Hwf : wf t) by (by apply wf_run; [apply wf_set_flags, wf_new|..]).
  split_and!; try apply Hwf. intros a. by apply wf_balance_le.
Qed.

Lemma supply_conserved_witness :
  let t := run (new_full "Test Token" "TST" 18 1000000 1 true true true)
             [CTransfer 1 2 1000; CApprove 1 3 500; CTransferFrom 3 1 2 200; CMint 1 4 50;
              CBurn 2 100; CTransfer 2 1 5000; CPause 1; CTransfer 1 2 1] in
  sum_balances t = total_supply t ∧ fits u64_max (total_supply t) ∧
  (∀ cap, max_supply t = Some cap → total_supply t ≤ cap) ∧
  ∀ a, 0 ≤ balance_of t a ≤ total_supply t.
Proof.
  apply supply_conserved.
  - vm_compute. split; discriminate.
  - repeat constructor; vm_compute; discriminate.
  - repeat constructor.
Defined.

(** Transfers between distinct accounts.  On a well-formed ledger [transfer]
    returns [Ok] exactly when the token is not paused, the destination is not the
    zero address, the amount is non-zero and the caller holds it (in particular
    the [Overflow] and [Underflow] exits are unreachable); then the caller loses
    and the destination gains exactly the amount, every other balance, the supply
    and all allowances are unchanged; otherwise the ledger is unchanged. *)
Theorem transfer_correct t caller to v
    (Hwf : wf t) (Hv : fits u64_max v) (Hne : caller ≠ to) :
  let '(r, t') := transfer caller to v t in
  (is_ok r = true ↔ paused t = false ∧ to ≠ ZERO_ADDRESS ∧ v ≠ 0 ∧ v ≤ balance_of t caller) ∧
  (is_ok r = true →
     r = Ok (Transfer caller to v) ∧ wf t' ∧
     total_supply t' = total_supply t ∧ allowances t' = allowances t ∧
     ∀ a, balance_of t' a =
       if a =? caller then balance_of t caller - v
       else if a =? to then balance_of t to + v else balance_of t a) ∧
  (is_ok r = false → t' = t ∧ r ≠ Err Overflow ∧ r ≠ Err Underflow).
Proof.
  rewrite transfer_eq by done. destruct Hv as [Hv _].
  repeat case_match; simplify_eq; reflect_hyps; simpl; split_and!; try done; try naive_solver lia.
  intros _. destruct (moved_others caller to v t) as (? & ? & _).
  split_and!; try done; [by apply wf_moved|]. intros a. by apply moved_balance.
Qed.

Lemma transfer_correct_witness :
  let t := new_full "Test Token" "TST" 18 1000000 1 true true true in
  let '(r, t') := transfer 1 2 1000 t in
  (is_ok r = true ↔ paused t = false ∧ 2 ≠ ZERO_ADDRESS ∧ 1000 ≠ 0 ∧ 1000 ≤ balance_of t 1) ∧
  (is_ok r = true →
     r = Ok (Transfer 1 2 1000) ∧ wf t' ∧
     total_supply t' = total_supply t ∧ allowances t' = allowances t ∧
     ∀ a, balance_of t' a =
       if a =? 1 then balance_of t 1 - 1000
       else if a =? 2 then balance_of t 2 + 1000 else balance_of t a) ∧
  (is_ok r = false → t' = t ∧ r ≠ Err Overflow ∧ r ≠ Err Underflow).
Proof.
  apply transfer_correct.
  - apply wf_set_flags, wf_new. vm_compute. split; discriminate.
  - vm_compute. split; discriminate.
  - discriminate.
Defined.

(** A rejected call has no effect.  On a well-formed ledger every operation
    of the interface that returns an error leaves the whole state as it was,
    except possibly a transfer of an account to itself. *)
Theorem error_keeps_state t c e t'
    (Hwf : wf t) (Hfit : call_fits c) (Hself : self_transfer c = false)
    (Herr : exec c t = (Err e, t')) : t' = t.
Proof.
  destruct c; simpl in Herr, Hfit, Hself; unfold discard, bindM in Herr; reflect_hyps;
    rewrite ?transfer_eq, ?transfer_from_eq, ?mint_eq, ?burn_eq, ?burn_from_eq in Herr by done;
    unfold transfer_ownership, accept_ownership, set_max_supply, pause, unpause, increase_allowance,
      decrease_allowance, approve in Herr;
    run_ops; done.
Qed.

Lemma error_keeps_state_witness :
  (exec (CMint 2 2 5) (new_full "Test Token" "TST" 18 1000000 1 true true true)).2 =
  new_full "Test Token" "TST" 18 1000000 1 true true true.
Proof.
  apply (error_keeps_state _ (CMint 2 2 5) Unauthorized).
  - apply wf_set_flags, wf_new. vm_compute. split; discriminate.
  - vm_compute. split; discriminate.
  - reflexivity.
  - reflexivity.
Defined.

(** A spender never draws more than its allowance.  Whatever sequence of
    [transfer_from] calls a spender makes against [from], to whatever other
    accounts and for whatever amounts, the calls that succeed move in total at
    most the allowance it had at the start, and the remaining allowance is exactly
    the difference (the infinite allowance [u64::MAX] excepted). *)
Theorem allowance_bounds_spending spender from reqs t
    (Hwf : wf t)
    (Hreqs : Forall (λ '(to, v), fits u64_max v ∧ from ≠ to) reqs)
    (Hinf : allowance t from spender ≠ u64_max) :
  (draw spender from reqs t).1 ≤ allowance t from spender ∧
  allowance (draw spender from reqs t).2 from spender =
    allowance t from spender - (draw spender from reqs t).1.
Proof.
  pose proof (draw_bound spender from reqs t Hwf Hreqs Hinf). lia.
Qed.

Lemma allowance_bounds_spending_witness :
  let t := step (new_full "Test Token" "TST" 18 1000000 1 true true true) (CApprove 1 2 5000) in
  (draw 2 1 [(3, 3000); (4, 2500); (3, 2000)] t).1 ≤ allowance t 1 2 ∧
  allowance (draw 2 1 [(3, 3000); (4, 2500); (3, 2000)] t).2 1 2 =
    allowance t 1 2 - (draw 2 1 [(3, 3000); (4, 2500); (3, 2000)] t).1.
Proof.
  apply allowance_bounds_spending.
  - apply wf_step; [|vm_compute; split; discriminate|reflexivity].
    apply wf_set_flags, wf_new. vm_compute. split; discriminate.
  - repeat constructor; vm_compute; discriminate.
  - vm_compute. discriminate.
Defined.

(** A transfer to oneself creates tokens.  When caller and destination are
    the same account, [transfer] reads both balances before writing either, so the
    second write wins: the account ends with its balance plus the amount while
    the recorded supply stays the same, and the ledger invariant is lost. *)
Theorem self_transfer_creates_tokens t a v
    (Hwf : wf t) (Hp : paused t = false) (Ha : a ≠ ZERO_ADDRESS)
    (Hv : 0 < v ≤ balance_of t a) (Hroom : balance_of t a + v ≤ u64_max) :
  let '(r, t') := transfer a a v t in
  r = Ok (Transfer a a v) ∧ balance_of t' a = balance_of t a + v ∧
  total_supply t' = total_supply t ∧ sum_balances t' = total_supply t' + v.
Proof.
  unfold transfer, balance_of in *. run_ops; try lia; simpl in *; try done.
  rewrite cleanup_sum, !insert_sum. edestruct cleanup_others as (_ & -> & _).
  fold (balance_of (cleanup_zero_balance a (insert_balance a (get0 (balances t) a + v)
    (insert_balance a (get0 (balances t) a - v) t))) a). rewrite cleanup_get0.
  rewrite (wf_supply _ Hwf). unfold balance_of, insert_balance. simpl.
  rewrite !get0_insert_eq. split_and!; done || lia.
Qed.

Lemma self_transfer_creates_tokens_witness :
  let '(r, t') := transfer 1 1 400000 (new_full "Test Token" "TST" 18 1000000 1 true true true) in
  r = Ok (Transfer 1 1 400000) ∧ balance_of t' 1 = 1400000 ∧
  total_supply t' = 1000000 ∧ sum_balances t' = total_supply t' + 400000.
Proof.
  apply (self_transfer_creates_tokens (new_full "Test Token" "TST" 18 1000000 1 true true true) 1 400000).
  - apply wf_set_flags, wf_new. vm_compute. split; discriminate.
  - reflexivity.
  - discriminate.
  - vm_compute. split; [reflexivity|discriminate].
  - vm_compute. discriminate.
Defined.
