(* ===== verification/QN8.v ===== *)
(** * QN8, the non-fungible token standard

    Models [src/L1/src/standards/qn8.rs]: the resource [QN8Token] and the
    operations of the traits [QN8], [QN8Mintable], [QN8Burnable] and
    [QN8Enumerable].  The per-owner index [owner_tokens], the [balances] counters
    and the [owners] map are three redundant views of the same relation; the
    invariant [wf] says they agree. *)

From S2P Require Import Prelude Tokens.

Definition MAX_BATCH_SIZE : Z := 1000.
Definition MAX_TOKENS_PER_OWNER : Z := 100000.

(** ** State *)

Record QN8Token : Type := mkQN8Token {
  name : string;
  symbol : string;
  owner : Address;
  pending_owner : option Address;
  owners : gmap Z Address;
  owner_tokens : gmap Address (gset Z);
  balances : gmap Address Z;
  token_approvals : gmap Z Address;
  operator_approvals : gmap (Address * Address) bool;
  token_uris : gmap Z string;
  next_token_id : Z;
  base_uri : string;
  contract_addresses : gset Address;
  nft_receivers : gset Address;
  reentrancy_guard : bool
}.

Definition set_owner (v : Address) (t : QN8Token) : QN8Token :=
  mkQN8Token (name t) (symbol t) v (pending_owner t) (owners t) (owner_tokens t) (balances t)
    (token_approvals t) (operator_approvals t) (token_uris t) (next_token_id t) (base_uri t)
    (contract_addresses t) (nft_receivers t) (reentrancy_guard t).
Definition set_pending_owner (v : option Address) (t : QN8Token) : QN8Token :=
  mkQN8Token (name t) (symbol t) (owner t) v (owners t) (owner_tokens t) (balances t)
    (token_approvals t) (operator_approvals t) (token_uris t) (next_token_id t) (base_uri t)
    (contract_addresses t) (nft_receivers t) (reentrancy_guard t).
Definition set_owners (v : gmap Z Address) (t : QN8Token) : QN8Token :=
  mkQN8Token (name t) (symbol t) (owner t) (pending_owner t) v (owner_tokens t) (balances t)
    (token_approvals t) (operator_approvals t) (token_uris t) (next_token_id t) (base_uri t)
    (contract_addresses t) (nft_receivers t) (reentrancy_guard t).
Definition set_owner_tokens (v : gmap Address (gset Z)) (t : QN8Token) : QN8Token :=
  mkQN8Token (name t) (symbol t) (owner t) (pending_owner t) (owners t) v (balances t)
    (token_approvals t) (operator_approvals t) (token_uris t) (next_token_id t) (base_uri t)
    (contract_addresses t) (nft_receivers t) (reentrancy_guard t).
Definition set_balances (v : gmap Address Z) (t : QN8Token) : QN8Token :=
  mkQN8Token (name t) (symbol t) (owner t) (pending_owner t) (owners t) (owner_tokens t) v
    (token_approvals t) (operator_approvals t) (token_uris t) (next_token_id t) (base_uri t)
    (contract_addresses t) (nft_receivers t) (reentrancy_guard t).
Definition set_token_approvals (v : gmap Z Address) (t : QN8Token) : QN8Token :=
  mkQN8Token (name t) (symbol t) (owner t) (pending_owner t) (owners t) (owner_tokens t) (balances t)
    v (operator_approvals t) (token_uris t) (next_token_id t) (base_uri t)
    (contract_addresses t) (nft_receivers t) (reentrancy_guard t).
Definition set_operator_approvals (v : gmap (Address * Address) bool) (t : QN8Token) : QN8Token :=
  mkQN8Token (name t) (symbol t) (owner t) (pending_owner t) (owners t) (owner_tokens t) (balances t)
    (token_approvals t) v (token_uris t) (next_token_id t) (base_uri t)
    (contract_addresses t) (nft_receivers t) (reentrancy_guard t).
Definition set_token_uris (v : gmap Z string) (t : QN8Token) : QN8Token :=
  mkQN8Token (name t) (symbol t) (owner t) (pending_owner t) (owners t) (owner_tokens t) (balances t)
    (token_approvals t) (operator_approvals t) v (next_token_id t) (base_uri t)
    (contract_addresses t) (nft_receivers t) (reentrancy_guard t).
Definition set_next_token_id (v : Z) (t : QN8Token) : QN8Token :=
  mkQN8Token (name t) (symbol t) (owner t) (pending_owner t) (owners t) (owner_tokens t) (balances t)
    (token_approvals t) (operator_approvals t) (token_uris t) v (base_uri t)
    (contract_addresses t) (nft_receivers t) (reentrancy_guard t).
Definition set_contract_addresses (v : gset Address) (t : QN8Token) : QN8Token :=
  mkQN8Token (name t) (symbol t) (owner t) (pending_owner t) (owners t) (owner_tokens t) (balances t)
    (token_approvals t) (operator_approvals t) (token_uris t) (next_token_id t) (base_uri t)
    v (nft_receivers t) (reentrancy_guard t).
Definition set_nft_receivers (v : gset Address) (t : QN8Token) : QN8Token :=
  mkQN8Token (name t) (symbol t) (owner t) (pending_owner t) (owners t) (owner_tokens t) (balances t)
    (token_approvals t) (operator_approvals t) (token_uris t) (next_token_id t) (base_uri t)
    (contract_addresses t) v (reentrancy_guard t).
Definition set_guard (v : bool) (t : QN8Token) : QN8Token :=
  mkQN8Token (name t) (symbol t) (owner t) (pending_owner t) (owners t) (owner_tokens t) (balances t)
    (token_approvals t) (operator_approvals t) (token_uris t) (next_token_id t) (base_uri t)
    (contract_addresses t) (nft_receivers t) v.

Abbreviation OP A := (M QN8Token TokenError A).

Definition new (name symbol : string) (owner : Address) (base_uri : string) : QN8Token :=
  mkQN8Token name symbol owner None ∅ ∅ ∅ ∅ ∅ ∅ 1 base_uri ∅ ∅ false.

Definition register_contract (address : Address) (t : QN8Token) : QN8Token :=
  set_contract_addresses ({[address]} ∪ contract_addresses t) t.

Definition register_nft_receiver (address : Address) (t : QN8Token) : QN8Token :=
  set_nft_receivers ({[address]} ∪ nft_receivers t) t.

(** ** Queries *)

Definition is_contract (t : QN8Token) (address : Address) : bool :=
  bool_decide (address ∈ contract_addresses t).

Definition supports_nft_receive (t : QN8Token) (address : Address) : bool :=
  bool_decide (address ∈ nft_receivers t).

Definition exists_token (t : QN8Token) (token_id : Z) : bool :=
  bool_decide (is_Some (owners t !! token_id)).

Definition total_supply (t : QN8Token) : Z := Z.of_nat (size (owners t)).

Definition balance_of (t : QN8Token) (owner : Address) : Z := get0 (balances t) owner.

Definition owner_of (t : QN8Token) (token_id : Z) : Result Address TokenError :=
  ok_or (owners t !! token_id) TokenNotFound.

(** [format!("{}{}", self.base_uri, token_id)] *)
Definition token_uri (t : QN8Token) (token_id : Z) : Result string TokenError :=
  if negb (exists_token t token_id) then Err TokenNotFound
  else match token_uris t !! token_id with
       | Some uri => Ok uri
       | None => Ok (base_uri t +:+ pretty token_id)
       end.

Definition get_approved (t : QN8Token) (token_id : Z) : option Address :=
  token_approvals t !! token_id.

Definition is_approved_for_all (t : QN8Token) (owner operator : Address) : bool :=
  default false (operator_approvals t !! (owner, operator)).

Definition is_approved_or_owner (t : QN8Token) (spender : Address) (token_id : Z)
    : Result bool TokenError :=
  match owner_of t token_id with
  | Ok owner =>
      Ok ((spender =? owner)
          || from_option (λ a, a =? spender) false (get_approved t token_id)
          || is_approved_for_all t owner spender)
  | Err e => Err e
  end.

(** [self.owner_tokens.get(a).map(|t| t.len()).unwrap_or(0)] *)
Definition token_count (t : QN8Token) (a : Address) : Z :=
  from_option (λ s, Z.of_nat (size s)) 0 (owner_tokens t !! a).

(** Enumeration.  [HashMap] and [HashSet] iterate in an unspecified order; the
    model lists the keys in the order of the finite map. *)
Definition all_tokens (t : QN8Token) : list Z := (map_to_list (owners t)).*1.

Definition tokens_of_owner (t : QN8Token) (owner : Address) : list Z :=
  from_option elements [] (owner_tokens t !! owner).

Definition token_by_index (t : QN8Token) (index : Z) : Result Z TokenError :=
  ok_or (all_tokens t !! Z.to_nat index) TokenNotFound.

Definition token_of_owner_by_index (t : QN8Token) (owner : Address) (index : Z) : Result Z TokenError :=
  ok_or (tokens_of_owner t owner !! Z.to_nat index) TokenNotFound.

(** ** Administration and approvals *)

Definition check_owner (caller : Address) : OP () :=
  o <-? gets owner;
  fail_if (negb (caller =? o)) Unauthorized.

Definition transfer_ownership (caller new_owner : Address) : OP () :=
  check_owner caller ?;
  check_not_zero_address new_owner ?;
  modify (set_pending_owner (Some new_owner)).

Definition accept_ownership (caller : Address) : OP () :=
  p <-? gets pending_owner;
  fail_if (negb (bool_decide (p = Some caller))) Unauthorized ?;
  modify (set_owner caller) ?;
  modify (set_pending_owner None).

Definition approve (caller to : Address) (token_id : Z) : OP TokenEvent :=
  t <-? gets id;
  o <-? lift (owner_of t token_id);
  fail_if (negb (caller =? o) && negb (is_approved_for_all t o caller)) Unauthorized ?;
  modify (λ t, set_token_approvals (<[token_id := to]> (token_approvals t)) t) ?;
  returns (ApprovalNFT o to token_id).

Definition set_approval_for_all (caller operator : Address) (approved : bool) : OP TokenEvent :=
  fail_if (caller =? operator) InvalidAddress ?;
  modify (λ t, set_operator_approvals (<[(caller, operator) := approved]> (operator_approvals t)) t) ?;
  returns (ApprovalForAll caller operator approved).

(** ** Transfers *)

(** The [if let Some(tokens) = self.owner_tokens.get_mut(from)] block: the set
    loses the token and an empty set is dropped. *)
Definition remove_owned (from : Address) (token_id : Z) (t : QN8Token) : QN8Token :=
  match owner_tokens t !! from with
  | Some tokens =>
      let tokens' := tokens ∖ {[token_id]} in
      if bool_decide (tokens' = ∅)
      then set_owner_tokens (delete from (owner_tokens t)) t
      else set_owner_tokens (<[from := tokens']> (owner_tokens t)) t
  | None => t
  end.

(** [self.owner_tokens.entry(to).or_insert_with(HashSet::new).insert(token_id)] *)
Definition add_owned (to : Address) (token_id : Z) (t : QN8Token) : QN8Token :=
  set_owner_tokens (<[to := {[token_id]} ∪ default ∅ (owner_tokens t !! to)]> (owner_tokens t)) t.

Definition transfer_from (caller from to : Address) (token_id : Z) : OP TokenEvent :=
  check_not_zero_address to ?;
  t <-? gets id;
  allowed <-? lift (is_approved_or_owner t caller token_id);
  fail_if (negb allowed) NotApproved ?;
  o <-? lift (owner_of t token_id);
  fail_if (negb (o =? from)) NotOwner ?;
  modify (λ t, set_token_approvals (delete token_id (token_approvals t)) t) ?;
  modify (λ t, set_owners (<[token_id := to]> (owners t)) t) ?;
  modify (remove_owned from token_id) ?;
  to_token_count <-? gets (λ t, token_count t to);
  fail_if (MAX_TOKENS_PER_OWNER <=? to_token_count) MaxTokensPerOwnerReached ?;
  modify (add_owned to token_id) ?;
  from_balance <-? gets (λ t, balance_of t from);
  to_balance <-? gets (λ t, balance_of t to);
  new_from <-? lift (ok_or (checked_sub from_balance 1) Underflow);
  new_to <-? lift (ok_or (checked_add u64_max to_balance 1) Overflow);
  modify (λ t, set_balances (<[from := new_from]> (balances t)) t) ?;
  modify (λ t, set_balances (<[to := new_to]> (balances t)) t) ?;
  returns (TransferNFT from to token_id).

(** The guard is a field: the early exit of [check_not_zero_address(to)?] leaves
    it set, the other exits reset it. *)
Definition safe_transfer_from (caller from to : Address) (token_id : Z) : OP TokenEvent :=
  g <-? gets reentrancy_guard;
  fail_if g ReentrancyDetected ?;
  modify (set_guard true) ?;
  check_not_zero_address to ?;
  t <-? gets id;
  if is_contract t to && negb (supports_nft_receive t to)
  then modify (set_guard false) ?; throw Unauthorized
  else λ s, let '(result, s') := transfer_from caller from to token_id s in
            (result, set_guard false s').

(** ** Minting and burning *)

Definition mint (caller to : Address) (uri : option string) : OP (Z * TokenEvent) :=
  check_owner caller ?;
  check_not_zero_address to ?;
  token_id <-? gets next_token_id;
  next <-? lift (ok_or (checked_add u64_max token_id 1) Overflow);
  modify (set_next_token_id next) ?;
  modify (λ t, set_owners (<[token_id := to]> (owners t)) t) ?;
  to_token_count <-? gets (λ t, token_count t to);
  fail_if (MAX_TOKENS_PER_OWNER <=? to_token_count) MaxTokensPerOwnerReached ?;
  modify (add_owned to token_id) ?;
  current_balance <-? gets (λ t, balance_of t to);
  new_balance <-? lift (ok_or (checked_add u64_max current_balance 1) Overflow);
  modify (λ t, set_balances (<[to := new_balance]> (balances t)) t) ?;
  modify (λ t, match uri with
               | Some u => set_token_uris (<[token_id := u]> (token_uris t)) t
               | None => t
               end) ?;
  returns (token_id, TransferNFT ZERO_ADDRESS to token_id).

(** The loop [for i in 0..count] of [mint_batch], from index [i]. *)
Fixpoint mint_loop (n : nat) (i : nat) (caller to : Address) (uris : list string) : OP (list Z) :=
  match n with
  | O => returns []
  | S n' =>
      r <-? mint caller to (uris !! i);
      ids <-? mint_loop n' (S i) caller to uris;
      returns (r.1 :: ids)
  end.

Definition mint_batch (caller to : Address) (count : Z) (uris : list string) : OP (list Z) :=
  check_owner caller ?;
  fail_if (MAX_BATCH_SIZE <? count) BatchSizeTooLarge ?;
  mint_loop (Z.to_nat count) 0 caller to uris.

Definition burn (caller : Address) (token_id : Z) : OP TokenEvent :=
  t <-? gets id;
  o <-? lift (owner_of t token_id);
  allowed <-? lift (is_approved_or_owner t caller token_id);
  fail_if (negb allowed) NotApproved ?;
  modify (λ t, set_token_approvals (delete token_id (token_approvals t)) t) ?;
  modify (λ t, set_owners (delete token_id (owners t)) t) ?;
  modify (λ t, set_token_uris (delete token_id (token_uris t)) t) ?;
  modify (λ t, set_owner_tokens
    (alter (λ s, s ∖ {[token_id]}) o (owner_tokens t)) t) ?;
  current_balance <-? gets (λ t, balance_of t o);
  new_balance <-? lift (ok_or (checked_sub current_balance 1) Underflow);
  modify (λ t, set_balances (<[o := new_balance]> (balances t)) t) ?;
  returns (TransferNFT o ZERO_ADDRESS token_id).

(** ** The interface as one step function *)

Inductive Call : Type :=
  | CTransferOwnership (caller new_owner : Address)
  | CAcceptOwnership (caller : Address)
  | CRegisterContract (a : Address)
  | CRegisterReceiver (a : Address)
  | CApprove (caller to : Address) (token_id : Z)
  | CSetApprovalForAll (caller operator : Address) (approved : bool)
  | CTransferFrom (caller from to : Address) (token_id : Z)
  | CSafeTransferFrom (caller from to : Address) (token_id : Z)
  | CMint (caller to : Address) (uri : option string)
  | CMintBatch (caller to : Address) (count : Z) (uris : list string)
  | CBurn (caller : Address) (token_id : Z).

Definition discard {A} (m : OP A) : OP () := m ?; returns ().

Definition exec (c : Call) : OP () :=
  match c with
  | CTransferOwnership c o => transfer_ownership c o
  | CAcceptOwnership c => accept_ownership c
  | CRegisterContract a => modify (register_contract a)
  | CRegisterReceiver a => modify (register_nft_receiver a)
  | CApprove c t i => discard (approve c t i)
  | CSetApprovalForAll c o b => discard (set_approval_for_all c o b)
  | CTransferFrom c f t i => discard (transfer_from c f t i)
  | CSafeTransferFrom c f t i => discard (safe_transfer_from c f t i)
  | CMint c t u => discard (mint c t u)
  | CMintBatch c t n us => discard (mint_batch c t n us)
  | CBurn c i => discard (burn c i)
  end.

Definition step (t : QN8Token) (c : Call) : QN8Token := (exec c t).2.
Definition run (t : QN8Token) (cs : list Call) : QN8Token := foldl step t cs.

(** ** Specification vocabulary *)

(** The tokens the index lists for an address. *)
Definition owned (t : QN8Token) (a : Address) : gset Z := default ∅ (owner_tokens t !! a).

(** The three views of ownership agree, identifiers are below the counter and
    nobody is over the per-owner limit. *)
Record wf (t : QN8Token) : Prop := {
  wf_index : ∀ a i, i ∈ owned t a ↔ owners t !! i = Some a;
  wf_count : ∀ a, balance_of t a = Z.of_nat (size (owned t a));
  wf_limit : ∀ a, Z.of_nat (size (owned t a)) ≤ MAX_TOKENS_PER_OWNER;
  wf_fresh : ∀ i a, owners t !! i = Some a → 1 ≤ i < next_token_id t;
  wf_next : 1 ≤ next_token_id t ≤ u64_max
}.

Definition self_transfer (c : Call) : bool :=
  match c with
  | CTransferFrom _ f t _ | CSafeTransferFrom _ f t _ => f =? t
  | _ => false
  end.

(** The caller may move the token: owner, approved for the token, or operator
    of the owner. *)
Definition may_move (t : QN8Token) (caller : Address) (token_id : Z) (o : Address) : Prop :=
  owners t !! token_id = Some o ∧
  (caller = o ∨ get_approved t token_id = Some caller ∨ is_approved_for_all t o caller = true).

(** ** The index updates *)

Lemma token_count_owned t a : token_count t a = Z.of_nat (size (owned t a)).
Proof. unfold token_count, owned. by destruct (owner_tokens t !! a). Qed.

Lemma owned_remove from i t a :
  owned (remove_owned from i t) a = if decide (a = from) then owned t from ∖ {[i]} else owned t a.
Proof.
  unfold remove_owned, owned. destruct (owner_tokens t !! from) as [s|] eqn:Hs.
  - case_bool_decide as Hemp; simpl.
    + rewrite lookup_delete. repeat case_decide; subst; done.
    + rewrite lookup_insert. repeat case_decide; subst; done.
  - case_decide; subst; [|done]. rewrite Hs. simpl. set_solver.
Qed.

Lemma owned_add to i t a :
  owned (add_owned to i t) a = if decide (a = to) then {[i]} ∪ owned t to else owned t a.
Proof.
  unfold add_owned, owned. simpl. rewrite lookup_insert. repeat case_decide; subst; done.
Qed.

Lemma remove_owned_others from i t :
  let t' := remove_owned from i t in
  owners t' = owners t ∧ balances t' = balances t ∧ next_token_id t' = next_token_id t ∧
  token_approvals t' = token_approvals t ∧ operator_approvals t' = operator_approvals t ∧
  reentrancy_guard t' = reentrancy_guard t ∧ token_uris t' = token_uris t ∧ owner t' = owner t.
Proof. unfold remove_owned. destruct (owner_tokens t !! from); [|done]. by case_bool_decide. Qed.

Lemma wf_balance_bound t a : wf t → 0 ≤ balance_of t a ≤ MAX_TOKENS_PER_OWNER.
Proof. intros Hwf. rewrite (wf_count _ Hwf). pose proof (wf_limit _ Hwf a). lia. Qed.

(** The state [transfer_from] builds on success. *)
Lemma wf_transferred t t' from to i :
  wf t → from ≠ to → owners t !! i = Some from → token_count t to < MAX_TOKENS_PER_OWNER →
  owners t' = <[i := to]> (owners t) →
  (∀ a, owned t' a = if decide (a = to) then {[i]} ∪ owned t to
                     else if decide (a = from) then owned t from ∖ {[i]} else owned t a) →
  (∀ a, balance_of t' a = if decide (a = to) then balance_of t to + 1
                          else if decide (a = from) then balance_of t from - 1 else balance_of t a) →
  next_token_id t' = next_token_id t → wf t'.
Proof.
  intros Hwf Hne Hi Hlim Hown Hidx Hbal Hnext. rewrite token_count_owned in Hlim.
  assert (Hfrom : i ∈ owned t from) by (by apply (wf_index _ Hwf)).
  assert (Hto : i ∉ owned t to) by (rewrite (wf_index _ Hwf); congruence).
  assert (Hsz : size (owned t from) ≠ 0%nat) by (intros ?%size_empty_inv; set_solver).
  assert (Hsize : ∀ a, Z.of_nat (size (owned t' a)) =
    if decide (a = to) then Z.of_nat (size (owned t to)) + 1
    else if decide (a = from) then Z.of_nat (size (owned t from)) - 1
    else Z.of_nat (size (owned t a))).
  { intros a. rewrite Hidx. repeat case_decide; [| |done].
    - rewrite size_union by set_solver. rewrite size_singleton. lia.
    - rewrite size_difference by set_solver. rewrite size_singleton. lia. }
  split; rewrite ?Hnext; try apply Hwf.
  - intros a j. rewrite Hidx, Hown, lookup_insert.
    pose proof (wf_index _ Hwf a j). pose proof (wf_index _ Hwf to j). pose proof (wf_index _ Hwf from j).
    repeat case_decide; subst; set_solver.
  - intros a. rewrite Hbal, Hsize. rewrite !(wf_count _ Hwf). by repeat case_decide.
  - intros a. rewrite Hsize. pose proof (wf_limit _ Hwf a). pose proof (wf_limit _ Hwf from).
    repeat case_decide; lia.
  - intros j a. rewrite Hown, lookup_insert. case_decide; [|apply (wf_fresh _ Hwf)].
    intros _. subst. by apply (wf_fresh _ Hwf) with from.
Qed.

Lemma nft_wf_minted t t' to :
  wf t → token_count t to < MAX_TOKENS_PER_OWNER → next_token_id t < u64_max →
  owners t' = <[next_token_id t := to]> (owners t) →
  (∀ a, owned t' a = if decide (a = to) then {[next_token_id t]} ∪ owned t to else owned t a) →
  (∀ a, balance_of t' a = if decide (a = to) then balance_of t to + 1 else balance_of t a) →
  next_token_id t' = next_token_id t + 1 → wf t'.
Proof.
  intros Hwf Hlim Hmax Hown Hidx Hbal Hnext. rewrite token_count_owned in Hlim.
  assert (Hfresh : owners t !! next_token_id t = None).
  { destruct (owners t !! next_token_id t) eqn:Hx; [|done]. apply (wf_fresh _ Hwf) in Hx. lia. }
  assert (Hout : ∀ a, next_token_id t ∉ owned t a) by (intros a; rewrite (wf_index _ Hwf); congruence).
  pose proof (wf_next _ Hwf).
  assert (Hsize : ∀ a, Z.of_nat (size (owned t' a)) =
    if decide (a = to) then Z.of_nat (size (owned t to)) + 1 else Z.of_nat (size (owned t a))).
  { intros a. rewrite Hidx. case_decide; [|done]. rewrite size_union by set_solver.
    rewrite size_singleton. lia. }
  split; rewrite ?Hnext; try lia.
  - intros a j. rewrite Hidx, Hown, lookup_insert.
    pose proof (wf_index _ Hwf a j). pose proof (wf_index _ Hwf to j).
    repeat case_decide; subst; set_solver.
  - intros a. rewrite Hbal, Hsize, !(wf_count _ Hwf). done.
  - intros a. rewrite Hsize. pose proof (wf_limit _ Hwf a). case_decide; lia.
  - intros j a. rewrite Hown, lookup_insert. case_decide; [lia|].
    intros Hj. apply (wf_fresh _ Hwf) in Hj. lia.
Qed.

Lemma wf_burnt t t' o i :
  wf t → owners t !! i = Some o →
  owners t' = delete i (owners t) →
  (∀ a, owned t' a = if decide (a = o) then owned t o ∖ {[i]} else owned t a) →
  (∀ a, balance_of t' a = if decide (a = o) then balance_of t o - 1 else balance_of t a) →
  next_token_id t' = next_token_id t → wf t'.
Proof.
  intros Hwf Hi Hown Hidx Hbal Hnext.
  assert (Hin : i ∈ owned t o) by (by apply (wf_index _ Hwf)).
  assert (Hsz : size (owned t o) ≠ 0%nat) by (intros ?%size_empty_inv; set_solver).
  assert (Hsize : ∀ a, Z.of_nat (size (owned t' a)) =
    if decide (a = o) then Z.of_nat (size (owned t o)) - 1 else Z.of_nat (size (owned t a))).
  { intros a. rewrite Hidx. case_decide; [|done]. rewrite size_difference by set_solver.
    rewrite size_singleton. lia. }
  split; rewrite ?Hnext; try apply Hwf.
  - intros a j. rewrite Hidx, Hown, lookup_delete.
    pose proof (wf_index _ Hwf a j). pose proof (wf_index _ Hwf o j).
    repeat case_decide; subst; set_solver.
  - intros a. rewrite Hbal, Hsize, !(wf_count _ Hwf). done.
  - intros a. rewrite Hsize. pose proof (wf_limit _ Hwf a). case_decide; subst; lia.
  - intros j a. rewrite Hown. intros [_ Hj]%lookup_delete_Some. by apply (wf_fresh _ Hwf) in Hj.
Qed.

(** ** The operations on every branch *)

Ltac run_ops :=
  unfold check_owner, check_not_zero_address in *; unfold_monad;
  repeat (case_match; simpl in *); simplify_eq; reflect_hyps; simplify_eq.

Lemma approved_spec t caller i b :
  is_approved_or_owner t caller i = Ok b →
  ∃ o, owners t !! i = Some o ∧ (b = true ↔ may_move t caller i o).
Proof.
  unfold is_approved_or_owner, owner_of, may_move, ok_or.
  destruct (owners t !! i) as [o|]; [|done]. intros [= <-]. exists o. split; [done|].
  rewrite !orb_true_iff, Z.eqb_eq. destruct (get_approved t i) as [a|]; simpl;
    rewrite ?Z.eqb_eq; naive_solver.
Qed.

Lemma approved_err t caller i e :
  is_approved_or_owner t caller i = Err e → owners t !! i = None ∧ e = TokenNotFound.
Proof. unfold is_approved_or_owner, owner_of, ok_or. destruct (owners t !! i); naive_solver. Qed.

(** The intermediate state in which the per-owner limit is checked. *)
Lemma transfer_cases t caller from to i :
  wf t → from ≠ to →
  let s := remove_owned from i (set_owners (<[i := to]> (owners t))
             (set_token_approvals (delete i (token_approvals t)) t)) in
  (∃ e, transfer_from caller from to i t = (Err e, t) ∧ e ≠ MaxTokensPerOwnerReached) ∨
  (may_move t caller i from ∧ to ≠ ZERO_ADDRESS ∧ token_count t to < MAX_TOKENS_PER_OWNER ∧
   transfer_from caller from to i t =
     (Ok (TransferNFT from to i),
      set_balances (<[to := balance_of t to + 1]> (<[from := balance_of t from - 1]> (balances t)))
        (add_owned to i s))) ∨
  (may_move t caller i from ∧ MAX_TOKENS_PER_OWNER ≤ token_count t to ∧
   transfer_from caller from to i t = (Err MaxTokensPerOwnerReached, s)).
Proof.
  intros Hwf Hne s. unfold transfer_from, check_not_zero_address.
  assert (Hcnt : token_count s to = token_count t to).
  { rewrite !token_count_owned. subst s. rewrite owned_remove. case_decide; [done|]. done. }
  pose proof (wf_balance_bound t to Hwf) as Hb. pose proof (wf_balance_bound t from Hwf) as Hbf.
  destruct (remove_owned_others from i (set_owners (<[i := to]> (owners t))
             (set_token_approvals (delete i (token_approvals t)) t))) as (_ & Hbal & _). fold s in Hbal.
  simpl in Hbal. unfold_monad. destruct (Z.eqb_spec to ZERO_ADDRESS); [left; eauto|].
  destruct (is_approved_or_owner t caller i) as [b|e] eqn:Happ.
  2: { apply approved_err in Happ as [? ->]. left; eauto. }
  apply approved_spec in Happ as (o & Ho & Hmay). destruct b; simpl; [|left; eauto].
  unfold owner_of, ok_or. rewrite Ho. destruct (Z.eqb_spec o from) as [->|]; simpl; [|left; eauto].
  right. fold s. rewrite Hcnt. destruct (Z.leb_spec MAX_TOKENS_PER_OWNER (token_count t to)).
  { right. naive_solver. }
  left. split_and!; try naive_solver. unfold balance_of in *. simpl. rewrite Hbal.
  assert (Hone : 1 ≤ get0 (balances t) from).
  { pose proof (wf_count _ Hwf from) as Hc. unfold balance_of in Hc. rewrite Hc.
    assert (i ∈ owned t from) by (by apply (wf_index _ Hwf)).
    assert (size (owned t from) ≠ 0%nat) by (intros ?%size_empty_inv; set_solver). lia. }
  unfold checked_sub, checked_add.
  destruct (Z.ltb_spec (get0 (balances t) from) 1); [lia|].
  destruct (Z.leb_spec (get0 (balances t) to + 1) u64_max); [|unfold u64_max, MAX_TOKENS_PER_OWNER in *; lia].
  simpl. done.
Qed.

Lemma wf_transfer_from t caller from to i ev t' :
  wf t → from ≠ to → transfer_from caller from to i t = (Ok ev, t') → wf t'.
Proof.
  intros Hwf Hne Hrun.
  destruct (transfer_cases t caller from to i Hwf Hne) as [(e & He & _)|[(Hmay & _ & Hlim & He)|(_ & _ & He)]];
    rewrite He in Hrun; simplify_eq.
  set (s0 := set_owners _ _). destruct (remove_owned_others from i s0) as (Ho & Hb & Hn & _).
  destruct Hmay as [Hi _]. eapply (wf_transferred t _ from to i); eauto; simpl.
  - intros a. change (owned (set_balances _ ?x) a) with (owned x a).
    rewrite owned_add, !owned_remove. by repeat case_decide.
  - intros a. unfold balance_of. simpl. unfold get0. rewrite !lookup_insert. by repeat case_decide.
Qed.

(** [mint] either stops before any write, or adds the next identifier, or stops
    at the per-owner limit having already recorded the owner. *)
Lemma mint_cases t caller to uri :
  wf t →
  (∃ e, mint caller to uri t = (Err e, t) ∧ e ≠ MaxTokensPerOwnerReached) ∨
  (∃ t', mint caller to uri t =
     (Ok (next_token_id t, TransferNFT ZERO_ADDRESS to (next_token_id t)), t') ∧
     caller = owner t ∧ to ≠ ZERO_ADDRESS ∧
     wf t' ∧ owners t' = <[next_token_id t := to]> (owners t) ∧
     next_token_id t' = next_token_id t + 1 ∧ owner t' = owner t ∧
     (∀ a, owned t' a = if decide (a = to) then {[next_token_id t]} ∪ owned t to else owned t a)) ∨
  (MAX_TOKENS_PER_OWNER ≤ token_count t to ∧
   mint caller to uri t = (Err MaxTokensPerOwnerReached,
     set_owners (<[next_token_id t := to]> (owners t)) (set_next_token_id (next_token_id t + 1) t))).
Proof.
  intros Hwf. unfold mint, check_owner, check_not_zero_address. unfold_monad.
  destruct (Z.eqb_spec caller (owner t)); simpl; [|left; eauto].
  destruct (Z.eqb_spec to ZERO_ADDRESS); simpl; [left; eauto|].
  destruct (checked_add u64_max (next_token_id t) 1) as [nx|] eqn:Hn; simpl; [|left; eauto].
  reflect_hyps. subst nx. right.
  change (token_count (set_owners _ _) to) with (token_count t to).
  destruct (Z.leb_spec MAX_TOKENS_PER_OWNER (token_count t to)); [right; done|].
  left. unfold balance_of. simpl. pose proof (wf_balance_bound t to Hwf).
  destruct (checked_add u64_max (get0 (balances t) to) 1) as [b|] eqn:Hb; reflect_hyps.
  2: { unfold balance_of, MAX_TOKENS_PER_OWNER, u64_max in *. lia. }
  eexists. split; [done|]. subst b.
  set (t' := match uri with Some _ => _ | None => _ end).
  assert (Hown : owners t' = <[next_token_id t := to]> (owners t)) by (subst t'; by destruct uri).
  assert (Hnext : next_token_id t' = next_token_id t + 1) by (subst t'; by destruct uri).
  assert (Hidx : ∀ a, owned t' a = if decide (a = to) then {[next_token_id t]} ∪ owned t to else owned t a).
  { intros a. transitivity (owned (add_owned to (next_token_id t) t) a); [subst t'; by destruct uri|].
    apply owned_add. }
  split_and!; try done; [|subst t'; by destruct uri]. eapply nft_wf_minted; eauto; [lia|].
  intros a. transitivity (get0 (<[to := get0 (balances t) to + 1]> (balances t)) a);
    [subst t'; by destruct uri|]. unfold get0. rewrite lookup_insert. by repeat case_decide.
Qed.

Lemma wf_burn t caller i ev t' : wf t → burn caller i t = (Ok ev, t') → wf t'.
Proof.
  intros Hwf Hrun. unfold burn, owner_of in Hrun. unfold_monad.
  destruct (owners t !! i) as [o|] eqn:Ho; [|done]. simpl in Hrun.
  split_hyp Hrun. eapply (wf_burnt t _ o i); eauto.
  - intros addr. unfold owned. simpl. rewrite lookup_alter.
    destruct (owner_tokens t !! o) as [toks|] eqn:Htoks; repeat case_decide; subst; try done;
      rewrite ?Htoks; simpl; set_solver.
  - intros addr. unfold balance_of. simpl. unfold get0. rewrite lookup_insert. by repeat case_decide.
Qed.

Lemma burn_err t caller i e t' : wf t → burn caller i t = (Err e, t') → t' = t.
Proof.
  intros Hwf Hrun. unfold burn, owner_of in Hrun. unfold_monad.
  destruct (owners t !! i) as [o|] eqn:Ho; [|by simplify_eq]. simpl in Hrun.
  split_hyp Hrun; try done. exfalso.
  assert (i ∈ owned t o) by (by apply (wf_index _ Hwf)).
  assert (size (owned t o) ≠ 0%nat) by (intros ?%size_empty_inv; set_solver).
  pose proof (wf_count _ Hwf o) as Hc.
  match goal with H : balance_of _ _ < 1 |- _ => unfold balance_of in *; simpl in H end. lia.
Qed.

(** Assignments that touch none of the three ownership views. *)
Lemma nft_wf_admin t t' :
  wf t → owners t' = owners t → owner_tokens t' = owner_tokens t → balances t' = balances t →
  next_token_id t' = next_token_id t → wf t'.
Proof.
  intros Hwf Ho Hi Hb Hn.
  assert (Hown : ∀ a, owned t' a = owned t a) by (intros; unfold owned; by rewrite Hi).
  split; rewrite ?Hn; intros; rewrite ?Hown; unfold balance_of; rewrite ?Ho, ?Hb; try apply Hwf.
  apply (wf_fresh _ Hwf i a). by rewrite <- Ho.
Qed.

Lemma wf_transfer_any t caller from to i r t' :
  wf t → from ≠ to → transfer_from caller from to i t = (r, t') →
  r ≠ Err MaxTokensPerOwnerReached → wf t'.
Proof.
  intros Hwf Hne Hrun Hr. destruct r as [ev|e]; [by eapply wf_transfer_from|].
  destruct (transfer_cases t caller from to i Hwf Hne) as [(e' & He & _)|[(_ & _ & _ & He)|(_ & _ & He)]];
    rewrite He in Hrun; naive_solver.
Qed.

Lemma wf_safe_transfer t caller from to i r t' :
  wf t → from ≠ to → safe_transfer_from caller from to i t = (r, t') →
  r ≠ Err MaxTokensPerOwnerReached → wf t'.
Proof.
  intros Hwf Hne Hrun Hr. unfold safe_transfer_from, check_not_zero_address in Hrun.
  assert (Hg : wf (set_guard true t)) by (by apply (nft_wf_admin t)).
  unfold_monad. destruct (reentrancy_guard t); [by simplify_eq|]. simpl in Hrun.
  destruct (to =? ZERO_ADDRESS); [by simplify_eq|]. simpl in Hrun.
  destruct (_ && _); simpl in Hrun; [simplify_eq; by apply (nft_wf_admin t)|].
  destruct (transfer_from caller from to i (set_guard true t)) as [r0 t0] eqn:Ht. simplify_eq.
  apply (nft_wf_admin t0); try done. by eapply (wf_transfer_any (set_guard true t)).
Qed.

Lemma wf_mint t caller to uri r t' :
  wf t → mint caller to uri t = (r, t') → r ≠ Err MaxTokensPerOwnerReached → wf t'.
Proof.
  intros Hwf Hrun Hr.
  destruct (mint_cases t caller to uri Hwf) as [(e & He & _)|[(t1 & He & _ & _ & ? & _)|[_ He]]];
    rewrite He in Hrun; naive_solver.
Qed.

Lemma wf_mint_loop n i t caller to uris r t' :
  wf t → mint_loop n i caller to uris t = (r, t') → r ≠ Err MaxTokensPerOwnerReached → wf t'.
Proof.
  revert i t r t'. induction n as [|n IH]; intros i t r t' Hwf Hrun Hr; simpl in Hrun; unfold_monad.
  - by simplify_eq.
  - destruct (mint caller to (uris !! i) t) as [[[id ev]|e] t1] eqn:Hm.
    + assert (wf t1) by (by eapply wf_mint).
      destruct (mint_loop n (S i) caller to uris t1) as [[ids|e] t2] eqn:Hl; simplify_eq;
        (eapply (IH (S i) t1); [done|exact Hl|naive_solver]).
    + simplify_eq. eapply wf_mint; [done..|]. naive_solver.
Qed.

Lemma mint_loop_success n i t caller to uris :
  wf t → caller = owner t → to ≠ ZERO_ADDRESS →
  token_count t to + Z.of_nat n ≤ MAX_TOKENS_PER_OWNER → next_token_id t + Z.of_nat n ≤ u64_max →
  ∃ t', mint_loop n i caller to uris t = (Ok (seqZ (next_token_id t) (Z.of_nat n)), t') ∧
    wf t' ∧ next_token_id t' = next_token_id t + Z.of_nat n ∧
    (∀ j, owners t' !! j = if decide (next_token_id t ≤ j < next_token_id t + Z.of_nat n)
                           then Some to else owners t !! j).
Proof.
  revert i t. induction n as [|n IH]; intros i t Hwf Hc Hto Hcnt Hmax; simpl.
  - exists t. split_and!; try done; [lia|]. intros j. case_decide; [lia|done].
  - unfold_monad. pose proof (wf_next _ Hwf).
    destruct (mint_cases t caller to (uris !! i) Hwf)
      as [(e & He & _)|[(t1 & He & _ & _ & Hwf1 & Hown & Hnext & Hownr & Hidx)|[Hlim _]]].
    { exfalso. revert He. unfold mint, check_owner, check_not_zero_address. unfold_monad.
      subst caller. rewrite Z.eqb_refl. simpl. destruct (Z.eqb_spec to ZERO_ADDRESS); [done|].
      destruct (checked_add u64_max (next_token_id t) 1) eqn:Hn; reflect_hyps; [|lia].
      change (token_count (set_owners _ _) to) with (token_count t to). simpl.
      destruct (Z.leb_spec MAX_TOKENS_PER_OWNER (token_count t to)); [lia|].
      unfold balance_of. simpl. destruct (checked_add u64_max (get0 (balances t) to) 1) eqn:Hb; [done|].
      reflect_hyps. pose proof (wf_balance_bound t to Hwf).
      unfold balance_of, MAX_TOKENS_PER_OWNER, u64_max in *. lia. }
    2: lia.
    rewrite He. assert (Hcnt1 : token_count t1 to = token_count t to + 1).
    { rewrite !token_count_owned, Hidx, decide_True by done.
      assert (next_token_id t ∉ owned t to).
      { intros Hin%(wf_index _ Hwf). apply (wf_fresh _ Hwf) in Hin. lia. }
      rewrite size_union by set_solver. rewrite size_singleton. lia. }
    destruct (IH (S i) t1) as (t' & Hloop & Hwf' & Hn' & Hown'); try done; try lia; try congruence.
    rewrite Hloop. exists t'. split_and!; try done; [|lia|].
    + rewrite Hnext, (seqZ_cons (next_token_id t)) by lia.
      do 3 f_equal. rewrite Z.add_1_r. f_equal. lia.
    + intros j. rewrite Hown', Hnext, Hown, lookup_insert. repeat case_decide; done || lia.
Qed.

Lemma nft_wf_new name symbol owner base : wf (new name symbol owner base).
Proof. by split; simpl; try done; unfold u64_max; lia. Qed.

Lemma wf_exec t c r t' :
  wf t → self_transfer c = false → exec c t = (r, t') → r ≠ Err MaxTokensPerOwnerReached → wf t'.
Proof.
  intros Hwf Hself Hrun Hr. destruct c; simpl in Hrun, Hself; unfold discard in Hrun; reflect_hyps.
  7: { destruct (transfer_from caller from to token_id t) as [[]] eqn:Ht; unfold_monad;
         rewrite Ht in Hrun; simplify_eq; (eapply wf_transfer_any; [done|done|exact Ht|congruence]). }
  7: { destruct (safe_transfer_from caller from to token_id t) as [[]] eqn:Ht; unfold_monad;
         rewrite Ht in Hrun; simplify_eq; (eapply wf_safe_transfer; [done|done|exact Ht|congruence]). }
  7: { destruct (mint caller to uri t) as [[]] eqn:Ht; unfold_monad;
         rewrite Ht in Hrun; simplify_eq; (eapply wf_mint; [done|exact Ht|congruence]). }
  8: { destruct (burn caller token_id t) as [[]] eqn:Ht; unfold_monad; rewrite Ht in Hrun; simplify_eq;
         [by eapply wf_burn|by apply burn_err in Ht as ->]. }
  7: { unfold mint_batch, check_owner in Hrun. unfold_monad.
       destruct (negb _); [by simplify_eq|]. destruct (_ <? count); [by simplify_eq|].
       destruct (mint_loop _ _ _ _ _ _) as [[]] eqn:Hl; simplify_eq;
         (eapply wf_mint_loop; [done|exact Hl|congruence]). }
  all: unfold transfer_ownership, accept_ownership, approve, set_approval_for_all, owner_of,
         check_owner, check_not_zero_address in Hrun; unfold_monad.
  all: split_hyp Hrun; done || by apply (nft_wf_admin t).
Qed.

Lemma guard_kept t c : reentrancy_guard t = true → reentrancy_guard (step t c) = true.
Proof.
  intros Hg. unfold step.
  assert (Htr : ∀ caller from to i s, reentrancy_guard s = true →
            reentrancy_guard (transfer_from caller from to i s).2 = true).
  { intros caller from to i s Hs. unfold transfer_from, check_not_zero_address, owner_of. unfold_monad.
    repeat (case_match; simpl in *; simplify_eq; try done);
      match goal with |- context [remove_owned ?f ?i ?x] =>
        destruct (remove_owned_others f i x) as (_ & _ & _ & _ & _ & -> & _) end; done. }
  assert (Hm : ∀ caller to uri s, reentrancy_guard s = true →
            reentrancy_guard (mint caller to uri s).2 = true).
  { intros. unfold mint, check_owner, check_not_zero_address. unfold_monad.
    repeat (case_match; simpl in *; simplify_eq; try done). }
  assert (Hl : ∀ n i caller to uris s, reentrancy_guard s = true →
            reentrancy_guard (mint_loop n i caller to uris s).2 = true).
  { induction n as [|n IH]; intros i caller to uris s Hs; [done|]. simpl. unfold_monad.
    specialize (Hm caller to (uris !! i) s Hs). destruct (mint caller to (uris !! i) s) as [[]]; [|done].
    simpl in Hm. specialize (IH (S i) caller to uris _ Hm). destruct (mint_loop _ _ _ _ _ _) as [[]]; done. }
  destruct c; simpl; unfold discard, bindM; try done.
  all: try (match goal with |- context [transfer_from ?a ?b ?c ?d ?x] =>
              specialize (Htr a b c d x Hg); by destruct (transfer_from a b c d x) as [[]] end).
  all: try (match goal with |- context [mint ?a ?b ?c ?x] =>
              specialize (Hm a b c x Hg); by destruct (mint a b c x) as [[]] end).
  all: unfold transfer_ownership, accept_ownership, approve, set_approval_for_all, owner_of, mint_batch,
         safe_transfer_from, burn, check_owner, check_not_zero_address; unfold_monad.
  all: rewrite ?Hg; try done; repeat (case_match; simpl in *; simplify_eq; try done).
  all: match goal with H : mint_loop ?a ?b ?c ?d ?e ?x = _ |- _ =>
         specialize (Hl a b c d e x Hg); rewrite H in Hl; done end.
Qed.

Lemma guard_kept_run cs t : reentrancy_guard t = true → reentrancy_guard (run t cs) = true.
Proof.
  unfold run. revert t. induction cs as [|c cs IH]; intros t Hg; simpl; [done|].
  apply IH. by apply guard_kept.
Qed.

(** ** Claims *)

(** The ownership views stay consistent.  Every operation of the interface
    that starts from a consistent collection ends in a consistent one: the owner
    map, the per-owner index and the balance counters agree, identifiers stay
    below the counter and no owner exceeds the limit.  Excluded are a transfer
    to the current owner and a call refused with [MaxTokensPerOwnerReached]. *)
Theorem ownership_views_agree t c r t'
    (Hwf : wf t) (Hself : self_transfer c = false)
    (Hrun : exec c t = (r, t')) (Hr : r ≠ Err MaxTokensPerOwnerReached) :
  wf t' ∧
  (∀ a i, i ∈ tokens_of_owner t' a ↔ owner_of t' i = Ok a) ∧
  (∀ a, balance_of t' a = Z.of_nat (length (tokens_of_owner t' a))).
Proof.
  assert (Hwf' : wf t') by (by eapply wf_exec). split; [done|].
  assert (Hlist : ∀ a, tokens_of_owner t' a = elements (owned t' a)).
  { intros a. unfold tokens_of_owner, owned. by destruct (owner_tokens t' !! a). }
  split.
  - intros a i. rewrite Hlist, elem_of_elements, (wf_index _ Hwf'). unfold owner_of, ok_or.
    destruct (owners t' !! i); naive_solver.
  - intros a. by rewrite Hlist, (wf_count _ Hwf').
Qed.

Lemma ownership_views_agree_witness :
  let t := new "Test NFT" "TNFT" 1 "ipfs://" in
  let t' := step t (CMint 1 2 None) in
  wf t' ∧ (∀ a i, i ∈ tokens_of_owner t' a ↔ owner_of t' i = Ok a) ∧
  (∀ a, balance_of t' a = Z.of_nat (length (tokens_of_owner t' a))).
Proof.
  apply (ownership_views_agree (new "Test NFT" "TNFT" 1 "ipfs://") (CMint 1 2 None) (Ok ())).
  - apply nft_wf_new.
  - reflexivity.
  - vm_compute. reflexivity.
  - discriminate.
Defined.

(** A successful transfer was authorised and does exactly what it says.  On
    a consistent collection, [transfer_from] to another address returns [Ok] only
    if the caller is the owner, is approved for the token or is an operator of the
    owner, and [from] is the owner; afterwards the token belongs to the
    destination, its approval is cleared, both counters moved by one and no other
    token changed hands. *)
Theorem transfer_authorised t caller from to i ev t'
    (Hwf : wf t) (Hne : from ≠ to)
    (Hrun : transfer_from caller from to i t = (Ok ev, t')) :
  may_move t caller i from ∧ to ≠ ZERO_ADDRESS ∧ ev = TransferNFT from to i ∧
  owner_of t' i = Ok to ∧ get_approved t' i = None ∧
  balance_of t' from = balance_of t from - 1 ∧ balance_of t' to = balance_of t to + 1 ∧
  (∀ j, j ≠ i → owner_of t' j = owner_of t j) ∧ total_supply t' = total_supply t.
Proof.
  destruct (transfer_cases t caller from to i Hwf Hne)
    as [(e & He & _)|[(Hmay & Hto & Hlim & He)|(_ & _ & He)]]; rewrite He in Hrun; simplify_eq.
  set (s0 := set_owners _ _). destruct (remove_owned_others from i s0) as (Ho & Hb & Hn & Ha & _).
  unfold owner_of, get_approved, balance_of, total_supply. simpl. rewrite Ho, Ha. subst s0. simpl.
  rewrite lookup_insert_eq, lookup_delete_eq, get0_insert_eq.
  rewrite get0_insert_ne, get0_insert_eq by done.
  split_and!; try done.
  - intros j Hj. by rewrite lookup_insert_ne.
  - destruct Hmay as [Hi _]. by rewrite map_size_insert_Some by eauto.
Qed.

Lemma transfer_authorised_witness :
  let t := run (new "Test NFT" "TNFT" 1 "ipfs://") [CMint 1 2 None; CApprove 2 3 1] in
  let t' := (transfer_from 3 2 4 1 t).2 in
  may_move t 3 1 2 ∧ 4 ≠ ZERO_ADDRESS ∧ TransferNFT 2 4 1 = TransferNFT 2 4 1 ∧
  owner_of t' 1 = Ok 4 ∧ get_approved t' 1 = None ∧
  balance_of t' 2 = balance_of t 2 - 1 ∧ balance_of t' 4 = balance_of t 4 + 1 ∧
  (∀ j, j ≠ 1 → owner_of t' j = owner_of t j) ∧ total_supply t' = total_supply t.
Proof.
  apply transfer_authorised.
  - apply (wf_exec (step (new "Test NFT" "TNFT" 1 "ipfs://") (CMint 1 2 None)) (CApprove 2 3 1) (Ok ()));
      [|reflexivity|vm_compute; reflexivity|discriminate].
    apply (wf_exec (new "Test NFT" "TNFT" 1 "ipfs://") (CMint 1 2 None) (Ok ()));
      [apply nft_wf_new|reflexivity|vm_compute; reflexivity|discriminate].
  - discriminate.
  - vm_compute. reflexivity.
Defined.

(** Batch minting.  When the collection owner mints [count] tokens, within the
    batch limit, the per-owner limit and the identifier range, [mint_batch]
    succeeds, returns [count] consecutive identifiers starting at the counter, all
    of them previously unused and now owned by [to], and changes no other owner. *)
Theorem mint_batch_correct t caller to count uris
    (Hwf : wf t) (Hc : caller = owner t) (Hto : to ≠ ZERO_ADDRESS)
    (Hcount : 0 ≤ count ≤ MAX_BATCH_SIZE)
    (Hlim : token_count t to + count ≤ MAX_TOKENS_PER_OWNER)
    (Hid : next_token_id t + count ≤ u64_max) :
  ∃ t', mint_batch caller to count uris t = (Ok (seqZ (next_token_id t) count), t') ∧ wf t' ∧
    (∀ j, j ∈ seqZ (next_token_id t) count → owners t !! j = None ∧ owner_of t' j = Ok to) ∧
    (∀ j, j ∉ seqZ (next_token_id t) count → owner_of t' j = owner_of t j).
Proof.
  destruct (mint_loop_success (Z.to_nat count) 0 t caller to uris)
    as (t' & Hloop & Hwf' & _ & Hown); try done; try lia.
  rewrite Z2Nat.id in Hloop, Hown by lia. exists t'. split_and!; try done.
  - unfold mint_batch, check_owner. unfold_monad. rewrite Hc, Z.eqb_refl. simpl.
    destruct (Z.ltb_spec MAX_BATCH_SIZE count); [lia|]. by rewrite <- Hc.
  - intros j Hj%elem_of_seqZ. unfold owner_of. rewrite Hown, decide_True by done. split; [|done].
    destruct (owners t !! j) eqn:Hx; [|done]. apply (wf_fresh _ Hwf) in Hx. lia.
  - intros j Hj. unfold owner_of. rewrite Hown, decide_False; [done|]. by rewrite <- elem_of_seqZ.
Qed.

Lemma mint_batch_correct_witness :
  let t := new "Test NFT" "TNFT" 1 "ipfs://" in
  ∃ t', mint_batch 1 2 3 ["a"; "b"] t = (Ok (seqZ 1 3), t') ∧ wf t' ∧
    (∀ j, j ∈ seqZ 1 3 → owners t !! j = None ∧ owner_of t' j = Ok 2) ∧
    (∀ j, j ∉ seqZ 1 3 → owner_of t' j = owner_of t j).
Proof.
  apply (mint_batch_correct (new "Test NFT" "TNFT" 1 "ipfs://") 1 2 3 ["a"; "b"]).
  - apply nft_wf_new.
  - reflexivity.
  - discriminate.
  - vm_compute. split; discriminate.
  - vm_compute. discriminate.
  - vm_compute. discriminate.
Defined.

(** The reentrancy guard can be left set for good.  A [safe_transfer_from] to
    the zero address is refused, but the early return keeps the guard: after it,
    whatever calls are made, every further [safe_transfer_from] by anybody is
    refused with [ReentrancyDetected]. *)
Theorem zero_address_blocks_safe_transfers t caller from i cs
    (Hg : reentrancy_guard t = false) :
  let t1 := (safe_transfer_from caller from ZERO_ADDRESS i t).2 in
  (safe_transfer_from caller from ZERO_ADDRESS i t).1 = Err InvalidAddress ∧
  ∀ c f to j, safe_transfer_from c f to j (run t1 cs) = (Err ReentrancyDetected, run t1 cs).
Proof.
  assert (Hrun : safe_transfer_from caller from ZERO_ADDRESS i t = (Err InvalidAddress, set_guard true t)).
  { unfold safe_transfer_from, check_not_zero_address. unfold_monad. by rewrite Hg. }
  rewrite Hrun. simpl. split; [done|]. intros c f to j.
  unfold safe_transfer_from. unfold_monad. by rewrite guard_kept_run.
Qed.

Lemma zero_address_blocks_safe_transfers_witness :
  let t := run (new "Test NFT" "TNFT" 1 "ipfs://") [CMint 1 2 None] in
  let t1 := (safe_transfer_from 2 2 ZERO_ADDRESS 1 t).2 in
  (safe_transfer_from 2 2 ZERO_ADDRESS 1 t).1 = Err InvalidAddress ∧
  ∀ c f to j, safe_transfer_from c f to j (run t1 [CTransferFrom 2 2 3 1]) =
                (Err ReentrancyDetected, run t1 [CTransferFrom 2 2 3 1]).
Proof.
  apply (zero_address_blocks_safe_transfers
           (run (new "Test NFT" "TNFT" 1 "ipfs://") [CMint 1 2 None]) 2 2 1 [CTransferFrom 2 2 3 1]).
  reflexivity.
Defined.
