(* ===== verification/QN12.v ===== *)
(** * QN12, the multi-token standard

    Models [src/L1/src/standards/qn12.rs]: the resource [QN12Token] and the
    operations of the traits [QN12], [QN12Mintable], [QN12Burnable] and
    [QN12Supply].  One contract holds many token types; [balances] is keyed by
    (token, account) and [token_supplies] by token.  The [data] argument of the
    transfers is ignored by the code and left out. *)

From S2P Require Import Prelude Tokens.

Definition MAX_BATCH_SIZE : Z := 1000.

(** ** State *)

Record QN12Token : Type := mkQN12Token {
  name : string;
  owner : Address;
  pending_owner : option Address;
  balances : gmap (Z * Address) Z;
  operator_approvals : gmap (Address * Address) bool;
  token_uris : gmap Z string;
  token_supplies : gmap Z Z;
  base_uri : string;
  next_token_id : Z
}.

Definition set_owner (v : Address) (t : QN12Token) : QN12Token :=
  mkQN12Token (name t) v (pending_owner t) (balances t) (operator_approvals t) (token_uris t)
    (token_supplies t) (base_uri t) (next_token_id t).
Definition set_pending_owner (v : option Address) (t : QN12Token) : QN12Token :=
  mkQN12Token (name t) (owner t) v (balances t) (operator_approvals t) (token_uris t)
    (token_supplies t) (base_uri t) (next_token_id t).
Definition set_operator_approvals (v : gmap (Address * Address) bool) (t : QN12Token) : QN12Token :=
  mkQN12Token (name t) (owner t) (pending_owner t) (balances t) v (token_uris t)
    (token_supplies t) (base_uri t) (next_token_id t).
Definition set_next_token_id (v : Z) (t : QN12Token) : QN12Token :=
  mkQN12Token (name t) (owner t) (pending_owner t) (balances t) (operator_approvals t) (token_uris t)
    (token_supplies t) (base_uri t) v.

(** [self.balances.insert((id, a), v)], [self.token_supplies.insert(id, v)] and
    [self.token_uris.insert(id, u)]; the assignments through
    [entry(k).or_insert(0)] have the same effect, their right-hand side being
    evaluated first. *)
Definition insert_balance (id : Z) (a : Address) (v : Z) (t : QN12Token) : QN12Token :=
  mkQN12Token (name t) (owner t) (pending_owner t) (<[(id, a) := v]> (balances t))
    (operator_approvals t) (token_uris t) (token_supplies t) (base_uri t) (next_token_id t).
Definition insert_supply (id : Z) (v : Z) (t : QN12Token) : QN12Token :=
  mkQN12Token (name t) (owner t) (pending_owner t) (balances t)
    (operator_approvals t) (token_uris t) (<[id := v]> (token_supplies t)) (base_uri t) (next_token_id t).
Definition insert_uri (id : Z) (u : string) (t : QN12Token) : QN12Token :=
  mkQN12Token (name t) (owner t) (pending_owner t) (balances t)
    (operator_approvals t) (<[id := u]> (token_uris t)) (token_supplies t) (base_uri t) (next_token_id t).

Definition new (name : string) (owner : Address) (base_uri : string) : QN12Token :=
  mkQN12Token name owner None ∅ ∅ ∅ ∅ base_uri 1.

(** ** Checks and queries *)

Abbreviation OP A := (M QN12Token TokenError A).

Definition check_owner (caller : Address) : OP () :=
  o <-? gets owner;
  fail_if (negb (caller =? o)) Unauthorized.

Definition is_approved_for_all (t : QN12Token) (account operator : Address) : bool :=
  default false (operator_approvals t !! (account, operator)).

Definition is_approved_or_owner (t : QN12Token) (caller from : Address) : bool :=
  (caller =? from) || is_approved_for_all t from caller.

Definition uri (t : QN12Token) (token_id : Z) : string :=
  match token_uris t !! token_id with
  | Some uri => uri
  | None => base_uri t +:+ pretty token_id +:+ ".json"
  end.

Definition balance_of (t : QN12Token) (account : Address) (token_id : Z) : Z :=
  get0 (balances t) (token_id, account).

Definition balance_of_batch (t : QN12Token) (accounts : list Address) (token_ids : list Z)
    : Result (list Z) TokenError :=
  if negb (length accounts =? length token_ids)%nat then Err ArrayLengthMismatch
  else Ok (zip_with (balance_of t) accounts token_ids).

Definition total_supply (t : QN12Token) (token_id : Z) : Z := get0 (token_supplies t) token_id.

Definition exists_token (t : QN12Token) (token_id : Z) : bool :=
  bool_decide (is_Some (token_supplies t !! token_id)).

(** ** Administration *)

Definition transfer_ownership (caller new_owner : Address) : OP () :=
  check_owner caller ?;
  check_not_zero_address new_owner ?;
  modify (set_pending_owner (Some new_owner)).

Definition accept_ownership (caller : Address) : OP () :=
  p <-? gets pending_owner;
  fail_if (negb (bool_decide (p = Some caller))) Unauthorized ?;
  modify (set_owner caller) ?;
  modify (set_pending_owner None).

Definition set_approval_for_all (caller operator : Address) (approved : bool) : OP TokenEvent :=
  fail_if (caller =? operator) InvalidAddress ?;
  modify (λ t, set_operator_approvals (<[(caller, operator) := approved]> (operator_approvals t)) t) ?;
  returns (ApprovalForAll caller operator approved).

(** ** Transfers *)

(** The balance update of one token type, the same text in the single transfer
    and in the second loop of the batch. *)
Definition move (from to : Address) (token_id amount : Z) : OP () :=
  from_balance <-? gets (λ t, balance_of t from token_id);
  to_balance <-? gets (λ t, balance_of t to token_id);
  new_from <-? lift (ok_or (checked_sub from_balance amount) Underflow);
  new_to <-? lift (ok_or (checked_add u64_max to_balance amount) Overflow);
  modify (insert_balance token_id from new_from) ?;
  modify (insert_balance token_id to new_to).

Definition check_approved (caller from : Address) : OP () :=
  ok <-? gets (λ t, is_approved_or_owner t caller from);
  fail_if (negb ok) NotApproved.

(** [if from_balance < amount { return Err(InsufficientBalance) }] *)
Definition check_balance (from : Address) (token_id amount : Z) : OP () :=
  from_balance <-? gets (λ t, balance_of t from token_id);
  fail_if (from_balance <? amount) InsufficientBalance.

Definition safe_transfer_from (caller from to : Address) (token_id amount : Z) : OP TokenEvent :=
  check_not_zero_address to ?;
  check_approved caller from ?;
  check_balance from token_id amount ?;
  move from to token_id amount ?;
  returns (TransferSingle caller from to token_id amount).

Definition check_batch_size (token_ids : list Z) : OP () :=
  fail_if (MAX_BATCH_SIZE <? Z.of_nat (length token_ids)) BatchSizeTooLarge.

Definition check_lengths (token_ids amounts : list Z) : OP () :=
  fail_if (negb (length token_ids =? length amounts)%nat) ArrayLengthMismatch.

Definition safe_batch_transfer_from (caller from to : Address) (token_ids amounts : list Z)
    : OP TokenEvent :=
  check_not_zero_address to ?;
  check_batch_size token_ids ?;
  check_lengths token_ids amounts ?;
  check_approved caller from ?;
  for_each (zip token_ids amounts) (λ '(token_id, amount), check_balance from token_id amount) ?;
  for_each (zip token_ids amounts) (λ '(token_id, amount), move from to token_id amount) ?;
  returns (TransferBatch caller from to token_ids amounts).

(** ** Minting *)

(** The two checked assignments of [mint] and of the loop of [mint_batch]: the
    balance is written before the supply is checked. *)
Definition credit (to : Address) (token_id amount : Z) : OP () :=
  b <-? gets (λ t, get0 (balances t) (token_id, to));
  new_balance <-? lift (ok_or (checked_add u64_max b amount) Overflow);
  modify (insert_balance token_id to new_balance) ?;
  s <-? gets (λ t, get0 (token_supplies t) token_id);
  new_supply <-? lift (ok_or (checked_add u64_max s amount) Overflow);
  modify (insert_supply token_id new_supply).

Definition mint (caller to : Address) (token_id amount : Z) (uri : option string) : OP TokenEvent :=
  check_owner caller ?;
  check_not_zero_address to ?;
  credit to token_id amount ?;
  (match uri with
   | Some uri => modify (insert_uri token_id uri)
   | None => returns ()
   end) ?;
  returns (TransferSingle caller ZERO_ADDRESS to token_id amount).

(** The loop over [seen]: an identifier already inserted is an error. *)
Fixpoint check_duplicates (seen : gset Z) (token_ids : list Z) : OP () :=
  match token_ids with
  | [] => returns ()
  | id :: rest =>
      if bool_decide (id ∈ seen) then throw DuplicateTokenId
      else check_duplicates ({[id]} ∪ seen) rest
  end.

Definition mint_batch (caller to : Address) (token_ids amounts : list Z) : OP TokenEvent :=
  check_owner caller ?;
  check_not_zero_address to ?;
  check_lengths token_ids amounts ?;
  check_batch_size token_ids ?;
  check_duplicates ∅ token_ids ?;
  for_each (zip token_ids amounts) (λ '(token_id, amount), credit to token_id amount) ?;
  returns (TransferBatch caller ZERO_ADDRESS to token_ids amounts).

Definition create_token (caller : Address) (initial_supply : Z) (uri : string) : OP Z :=
  check_owner caller ?;
  token_id <-? gets next_token_id;
  next <-? lift (ok_or (checked_add u64_max token_id 1) Overflow);
  modify (set_next_token_id next) ?;
  modify (insert_uri token_id uri) ?;
  (if 0 <? initial_supply then
     modify (insert_balance token_id caller initial_supply) ?;
     modify (insert_supply token_id initial_supply)
   else returns ()) ?;
  returns token_id.

(** ** Burning *)

Definition burn (caller from : Address) (token_id amount : Z) : OP TokenEvent :=
  check_approved caller from ?;
  from_balance <-? gets (λ t, balance_of t from token_id);
  fail_if (from_balance <? amount) InsufficientBalance ?;
  new_balance <-? lift (ok_or (checked_sub from_balance amount) Underflow);
  current_supply <-? gets (λ t, get0 (token_supplies t) token_id);
  new_supply <-? lift (ok_or (checked_sub current_supply amount) Underflow);
  modify (insert_balance token_id from new_balance) ?;
  modify (insert_supply token_id new_supply) ?;
  returns (TransferSingle caller from ZERO_ADDRESS token_id amount).

(** The body of the second loop of [burn_batch]: here the balance is written
    before the supply is checked. *)
Definition debit (from : Address) (token_id amount : Z) : OP () :=
  balance <-? gets (λ t, get0 (balances t) (token_id, from));
  new_balance <-? lift (ok_or (checked_sub balance amount) Underflow);
  modify (insert_balance token_id from new_balance) ?;
  supply <-? gets (λ t, get0 (token_supplies t) token_id);
  new_supply <-? lift (ok_or (checked_sub supply amount) Underflow);
  modify (insert_supply token_id new_supply).

Definition burn_batch (caller from : Address) (token_ids amounts : list Z) : OP TokenEvent :=
  check_batch_size token_ids ?;
  check_lengths token_ids amounts ?;
  check_approved caller from ?;
  for_each (zip token_ids amounts) (λ '(token_id, amount), check_balance from token_id amount) ?;
  for_each (zip token_ids amounts) (λ '(token_id, amount), debit from token_id amount) ?;
  returns (TransferBatch caller from ZERO_ADDRESS token_ids amounts).

(** ** The interface as one step function *)

Inductive Call : Type :=
  | CTransferOwnership (caller new_owner : Address)
  | CAcceptOwnership (caller : Address)
  | CSetApprovalForAll (caller operator : Address) (approved : bool)
  | CSafeTransferFrom (caller from to : Address) (id v : Z)
  | CSafeBatchTransferFrom (caller from to : Address) (ids vs : list Z)
  | CMint (caller to : Address) (id v : Z) (uri : option string)
  | CMintBatch (caller to : Address) (ids vs : list Z)
  | CCreateToken (caller : Address) (v : Z) (uri : string)
  | CBurn (caller from : Address) (id v : Z)
  | CBurnBatch (caller from : Address) (ids vs : list Z).

Definition discard {A} (m : OP A) : OP () := m ?; returns ().

Definition exec (c : Call) : OP () :=
  match c with
  | CTransferOwnership c o => transfer_ownership c o
  | CAcceptOwnership c => accept_ownership c
  | CSetApprovalForAll c o b => discard (set_approval_for_all c o b)
  | CSafeTransferFrom c f t i v => discard (safe_transfer_from c f t i v)
  | CSafeBatchTransferFrom c f t ids vs => discard (safe_batch_transfer_from c f t ids vs)
  | CMint c t i v u => discard (mint c t i v u)
  | CMintBatch c t ids vs => discard (mint_batch c t ids vs)
  | CCreateToken c v u => discard (create_token c v u)
  | CBurn c f i v => discard (burn c f i v)
  | CBurnBatch c f ids vs => discard (burn_batch c f ids vs)
  end.

Definition step (t : QN12Token) (c : Call) : QN12Token := (exec c t).2.
Definition run (t : QN12Token) (cs : list Call) : QN12Token := foldl step t cs.

(** ** Specification vocabulary *)

(** The holdings of one token type over all accounts. *)
Definition held (t : QN12Token) (id : Z) : Z :=
  map_sum (λ '(i, _) v, if i =? id then v else 0) (balances t).

Record wf (t : QN12Token) : Prop := {
  multi_wf_balances : ∀ k v, balances t !! k = Some v → 0 ≤ v;
  multi_wf_held : ∀ id, held t id = total_supply t id;
  multi_wf_supply : ∀ id, fits u64_max (total_supply t id);
  multi_wf_next : 1 ≤ next_token_id t ≤ u64_max
}.

Definition call_fits (c : Call) : Prop :=
  match c with
  | CSafeTransferFrom _ _ _ _ v | CMint _ _ _ v _ | CCreateToken _ v _ | CBurn _ _ _ v => fits u64_max v
  | CSafeBatchTransferFrom _ _ _ _ vs | CMintBatch _ _ _ vs | CBurnBatch _ _ _ vs =>
      Forall (fits u64_max) vs
  | _ => True
  end.

(** The calls after which the books still balance: no transfer of an account to
    itself, no mint that overflows a supply, no creation of a type whose
    identifier was minted before. *)
Definition admissible (t : QN12Token) (c : Call) : bool :=
  match c with
  | CSafeTransferFrom _ f to _ _ | CSafeBatchTransferFrom _ f to _ _ => negb (f =? to)
  | CMint _ _ i v _ => total_supply t i + v <=? u64_max
  | CMintBatch _ _ ids vs => forallb (λ '(i, v), total_supply t i + v <=? u64_max) (zip ids vs)
  | CCreateToken _ _ _ => total_supply t (next_token_id t) =? 0
  | _ => true
  end.

(** Every call of a history is admissible in the state it is executed in. *)
Fixpoint all_admissible (t : QN12Token) (cs : list Call) : bool :=
  match cs with
  | [] => true
  | c :: cs' => admissible t c && all_admissible (step t c) cs'
  end.

(** [v] units of [i] move; are created for [to]; are destroyed. *)
Definition moved (from to : Address) (i v : Z) (t : QN12Token) : QN12Token :=
  insert_balance i to (balance_of t to i + v) (insert_balance i from (balance_of t from i - v) t).
Definition created (to : Address) (i v : Z) (t : QN12Token) : QN12Token :=
  insert_supply i (total_supply t i + v) (insert_balance i to (balance_of t to i + v) t).
Definition destroyed (from : Address) (i v : Z) (t : QN12Token) : QN12Token :=
  insert_supply i (total_supply t i - v) (insert_balance i from (balance_of t from i - v) t).

(** What a batch asks for of one token type, over all its entries. *)
Definition batch_total (l : list (Z * Z)) (id : Z) : Z :=
  foldr (λ '(i, v) acc, (if i =? id then v else 0) + acc) 0 l.

(** Balances after a batch has moved. *)
Definition batch_balance (t : QN12Token) (from to : Address) (l : list (Z * Z)) (a : Address) (id : Z) : Z :=
  if a =? from then balance_of t from id - batch_total l id
  else if a =? to then balance_of t to id + batch_total l id
  else balance_of t a id.

Definition batch_guards (t : QN12Token) (caller from to : Address) (ids vs : list Z) : Prop :=
  to ≠ ZERO_ADDRESS ∧ Z.of_nat (length ids) ≤ MAX_BATCH_SIZE ∧ length ids = length vs ∧
  is_approved_or_owner t caller from = true.

(** ** Consequences of the invariant *)

Lemma held_insert_balance i a v t id :
  held (insert_balance i a v t) id =
    held t id + (if i =? id then v - balance_of t a i else 0).
Proof.
  unfold held, insert_balance, balance_of, get0. simpl. rewrite map_sum_insert.
  destruct (balances t !! (i, a)); simpl; destruct (i =? id); lia.
Qed.

Lemma holding_nonneg t id :
  wf t → ∀ k v, balances t !! k = Some v →
  0 ≤ (λ '(i, _) v, if i =? id then v else 0) k v.
Proof.
  intros Hwf [i a] v Hk. pose proof (multi_wf_balances _ Hwf _ _ Hk). by destruct (i =? id).
Qed.

Lemma multi_balance_nonneg t a id : wf t → 0 ≤ balance_of t a id.
Proof.
  intros Hwf. unfold balance_of, get0. destruct (balances t !! _) eqn:Hk; simpl; [|done].
  by eapply multi_wf_balances.
Qed.

Lemma multi_balance_le t a id : wf t → 0 ≤ balance_of t a id ≤ total_supply t id.
Proof.
  intros Hwf. split; [by apply multi_balance_nonneg|].
  rewrite <- (multi_wf_held _ Hwf). unfold balance_of, get0, held.
  destruct (balances t !! (id, a)) as [v|] eqn:Hk; simpl.
  - pose proof (map_sum_lookup_le _ _ (id, a) v (holding_nonneg t id Hwf) Hk) as Hle.
    simpl in Hle. by rewrite Z.eqb_refl in Hle.
  - apply map_sum_nonneg. by apply holding_nonneg.
Qed.

Lemma multi_two_balances_le t a b id :
  wf t → a ≠ b → balance_of t a id + balance_of t b id ≤ total_supply t id.
Proof.
  intros Hwf Hne. pose proof (multi_balance_le t a id Hwf) as Ha.
  pose proof (multi_balance_le t b id Hwf) as Hb. unfold balance_of, get0 in *.
  destruct (balances t !! (id, a)) as [v|] eqn:Hka; simpl in *; [|lia].
  destruct (balances t !! (id, b)) as [w|] eqn:Hkb; simpl in *; [|lia].
  rewrite <- (multi_wf_held _ Hwf). unfold held.
  pose proof (map_sum_two_le _ _ (id, a) (id, b) v w (holding_nonneg t id Hwf)
    ltac:(congruence) Hka Hkb) as Hle.
  simpl in Hle. by rewrite Z.eqb_refl in Hle.
Qed.

Lemma multi_wf_admin t t' :
  wf t → balances t' = balances t → token_supplies t' = token_supplies t →
  next_token_id t' = next_token_id t → wf t'.
Proof.
  intros [H1 H2 H3 H4] Eb Es En. unfold held, total_supply in *.
  split; unfold held, total_supply; rewrite ?Eb, ?Es, ?En; done.
Qed.

Lemma multi_balance_insert t i a v b id :
  balance_of (insert_balance i a v t) b id =
    if bool_decide (id = i ∧ b = a) then v else balance_of t b id.
Proof.
  unfold balance_of, insert_balance. simpl. case_bool_decide as Hd.
  - destruct Hd as [-> ->]. apply get0_insert_eq.
  - apply get0_insert_ne. naive_solver.
Qed.

Lemma multi_supply_insert t i v id :
  total_supply (insert_supply i v t) id = if id =? i then v else total_supply t id.
Proof.
  unfold total_supply, insert_supply. simpl. destruct (Z.eqb_spec id i) as [->|].
  - apply get0_insert_eq.
  - by apply get0_insert_ne.
Qed.

(** ** The three elementary updates *)

Lemma lookup_insert_nonneg t i a v :
  wf t → 0 ≤ v → ∀ k w, balances (insert_balance i a v t) !! k = Some w → 0 ≤ w.
Proof.
  intros Hwf Hv k w. simpl. rewrite lookup_insert. case_decide; [naive_solver|].
  by apply (multi_wf_balances _ Hwf).
Qed.

Lemma multi_wf_moved t from to i v :
  wf t → from ≠ to → 0 ≤ v ≤ balance_of t from i → wf (moved from to i v t).
Proof.
  intros Hwf Hne Hv. unfold moved. pose proof (multi_balance_nonneg t to i Hwf).
  split; try apply Hwf.
  - intros k w. simpl. rewrite lookup_insert. case_decide; [naive_solver lia|].
    eapply (lookup_insert_nonneg t); [done|lia].
  - intros id. rewrite !held_insert_balance, multi_balance_insert.
    rewrite bool_decide_false by naive_solver.
    pose proof (multi_wf_held _ Hwf id). unfold total_supply in *. simpl. destruct (i =? id); lia.
Qed.

Lemma multi_wf_restock t a i v s :
  wf t → 0 ≤ v → fits u64_max s → s - total_supply t i = v - balance_of t a i →
  wf (insert_supply i s (insert_balance i a v t)).
Proof.
  intros Hwf Hv Hs Heq. split; try apply Hwf.
  - by eapply (lookup_insert_nonneg t).
  - intros id. rewrite multi_supply_insert. fold (held (insert_balance i a v t) id).
    change (held (insert_supply i s (insert_balance i a v t)) id)
      with (held (insert_balance i a v t) id).
    rewrite held_insert_balance, (multi_wf_held _ Hwf).
    change (total_supply (insert_balance i a v t) id) with (total_supply t id).
    destruct (Z.eqb_spec i id), (Z.eqb_spec id i); subst; lia || done.
  - intros id. rewrite multi_supply_insert. destruct (id =? i); [done|]. apply (multi_wf_supply _ Hwf).
Qed.

Lemma multi_wf_created t to i v :
  wf t → 0 ≤ v → total_supply t i + v ≤ u64_max → wf (created to i v t).
Proof.
  intros Hwf Hv Hmax. pose proof (multi_balance_le t to i Hwf).
  apply multi_wf_restock; unfold fits; done || lia.
Qed.

Lemma multi_wf_destroyed t from i v :
  wf t → 0 ≤ v ≤ balance_of t from i → wf (destroyed from i v t).
Proof.
  intros Hwf Hv. pose proof (multi_balance_le t from i Hwf).
  destruct (multi_wf_supply _ Hwf i). apply multi_wf_restock; unfold fits; done || lia.
Qed.

Ltac run_ops :=
  unfold check_owner, check_not_zero_address, check_approved, check_balance, check_batch_size,
    check_lengths in *; unfold_monad;
  repeat (case_match; simpl in *); simplify_eq; reflect_hyps; simplify_eq.

Lemma move_eq t from to i v :
  wf t → from ≠ to → 0 ≤ v →
  move from to i v t =
    if balance_of t from i <? v then (Err Underflow, t) else (Ok (), moved from to i v t).
Proof.
  intros Hwf Hne Hv. pose proof (multi_two_balances_le t from to i Hwf Hne).
  destruct (multi_wf_supply _ Hwf i). unfold move. run_ops; try lia; done.
Qed.

Lemma credit_eq t to i v :
  wf t → 0 ≤ v → total_supply t i + v ≤ u64_max → credit to i v t = (Ok (), created to i v t).
Proof.
  intros Hwf Hv Hmax. pose proof (multi_balance_le t to i Hwf).
  unfold credit, balance_of, total_supply in *. run_ops; try lia; try done; simpl in *.
  all: rewrite ?get0_insert_eq in *; done || lia.
Qed.

Lemma debit_eq t from i v :
  wf t → 0 ≤ v →
  debit from i v t =
    if balance_of t from i <? v then (Err Underflow, t) else (Ok (), destroyed from i v t).
Proof.
  intros Hwf Hv. pose proof (multi_balance_le t from i Hwf).
  unfold debit, balance_of, total_supply in *. run_ops; try lia; done.
Qed.

(** ** Loops *)

Lemma check_loop_state l from t :
  (for_each l (λ '(i, v), check_balance from i v) t).2 = t.
Proof. by apply (for_each_inv (λ s, s = t)); [intros [i v] s _ ->|]. Qed.

Lemma check_loop_ok l from t :
  is_ok (for_each l (λ '(i, v), check_balance from i v) t).1 = true ↔
  Forall (λ '(i, v), v ≤ balance_of t from i) l.
Proof.
  induction l as [|[i v] l IH]; simpl; [naive_solver|].
  rewrite list.Forall_cons. rewrite <- IH. clear IH. unfold bindM at 1.
  change (check_balance from i v t)
    with (if balance_of t from i <? v then Err InsufficientBalance else Ok () : Result () TokenError, t).
  destruct (Z.ltb_spec (balance_of t from i) v); simpl; [|naive_solver].
  split; [done|]. intros [? _]. lia.
Qed.

Lemma zip_fits (ids vs : list Z) : Forall (fits u64_max) vs → ∀ p, p ∈ zip ids vs → 0 ≤ p.2.
Proof.
  intros Hvs [i v] Hin%elem_of_zip_r. simpl. by apply (proj1 (list.Forall_forall _ _) Hvs v) in Hin as [? _].
Qed.

Lemma zip_fst_elem (ids vs : list Z) i : i ∈ (zip ids vs).*1 → i ∈ ids.
Proof.
  intros ([j v] & -> & Hin%elem_of_zip_l)%list_elem_of_fmap. done.
Qed.

Lemma zip_fst_NoDup (ids vs : list Z) : NoDup ids → NoDup (zip ids vs).*1.
Proof.
  revert vs. induction ids as [|i ids IH]; intros [|v vs] Hnd; simpl; try constructor.
  - apply list.NoDup_cons in Hnd as [Hi _]. by intros ?%zip_fst_elem.
  - apply IH. by apply list.NoDup_cons in Hnd as [_ ?].
Qed.

Lemma check_duplicates_ok seen ids t :
  (check_duplicates seen ids t).2 = t ∧
  (is_ok (check_duplicates seen ids t).1 = true ↔ NoDup ids ∧ ∀ i, i ∈ ids → i ∉ seen).
Proof.
  revert seen. induction ids as [|i ids IH]; intros seen; simpl.
  - split; [done|]. split; [|done]. split; [constructor|]. set_solver.
  - case_bool_decide as Hin; simpl.
    + split; [done|]. split; [done|]. intros [_ Hn]. set_solver.
    + destruct (IH ({[i]} ∪ seen)) as [-> ->]. split; [done|]. rewrite list.NoDup_cons. set_solver.
Qed.

Lemma created_supply_ne to i v t id : id ≠ i → total_supply (created to i v t) id = total_supply t id.
Proof. intros. unfold created. rewrite multi_supply_insert. by destruct (Z.eqb_spec id i). Qed.

Lemma credit_loop t to l :
  wf t → NoDup l.*1 → Forall (λ '(i, v), 0 ≤ v ∧ total_supply t i + v ≤ u64_max) l →
  for_each l (λ '(i, v), credit to i v) t =
    (Ok (), foldl (λ t '(i, v), created to i v t) t l) ∧
  wf (foldl (λ t '(i, v), created to i v t) t l).
Proof.
  revert t. induction l as [|[i v] l IH]; intros t Hwf Hnd Hl; simpl; [done|].
  apply list.NoDup_cons in Hnd as [Hni Hnd]. apply list.Forall_cons in Hl as [[Hv Hmax] Hl].
  unfold bindM. rewrite credit_eq by done. apply IH; [by apply multi_wf_created|done|].
  rewrite list.Forall_forall in Hl |- *. intros [j w] Hj. specialize (Hl _ Hj). simpl in Hl.
  rewrite created_supply_ne; [done|]. intros ->. apply Hni, list_elem_of_fmap. by exists (i, w).
Qed.

(** ** Preservation *)

Lemma move_wf t from to i v : wf t → from ≠ to → 0 ≤ v → wf (move from to i v t).2.
Proof.
  intros. rewrite move_eq by done. destruct (Z.ltb_spec (balance_of t from i) v); [done|].
  by apply multi_wf_moved.
Qed.

Lemma debit_wf t from i v : wf t → 0 ≤ v → wf (debit from i v t).2.
Proof.
  intros. rewrite debit_eq by done. destruct (Z.ltb_spec (balance_of t from i) v); [done|].
  by apply multi_wf_destroyed.
Qed.

(** A guard reads the state and changes nothing. *)
Ltac pass_guard :=
  apply (bindM_inv wf);
    [done || (rewrite check_loop_state; done)
    | let s' := fresh "s" in let Hs := fresh "Hs" in intros ? s' Hs _;
      first [ unfold check_not_zero_address, check_owner, check_approved, check_balance,
                check_batch_size, check_lengths, fail_if, bindM, gets in Hs; simpl in Hs; injection Hs as ? <-
            | apply (f_equal snd) in Hs; rewrite check_loop_state in Hs; simpl in Hs; subst s' ] ].

Lemma safe_transfer_wf t caller from to i v :
  wf t → from ≠ to → 0 ≤ v → wf (safe_transfer_from caller from to i v t).2.
Proof.
  intros. unfold safe_transfer_from. do 3 pass_guard.
  apply (bindM_inv wf); [by apply move_wf|done].
Qed.

Lemma safe_batch_transfer_wf t caller from to ids vs :
  wf t → from ≠ to → Forall (fits u64_max) vs →
  wf (safe_batch_transfer_from caller from to ids vs t).2.
Proof.
  intros Hwf Hne Hvs. unfold safe_batch_transfer_from. do 5 pass_guard.
  apply (bindM_inv wf); [|done]. apply (for_each_inv wf); [|done].
  intros [i v] s' Hin%(zip_fits _ _ Hvs) Hs. by apply move_wf.
Qed.

Lemma mint_wf t caller to i v u :
  wf t → 0 ≤ v → total_supply t i + v ≤ u64_max → wf (mint caller to i v u t).2.
Proof.
  intros Hwf Hv Hmax. unfold mint. do 2 pass_guard.
  apply (bindM_inv wf); rewrite credit_eq by done; [by apply multi_wf_created|].
  intros ? s' Heq Hs. simplify_eq. destruct u; simpl; [|done]. by apply (multi_wf_admin (created to i v t)).
Qed.

Lemma mint_batch_wf t caller to ids vs :
  wf t → Forall (fits u64_max) vs →
  forallb (λ '(i, v), total_supply t i + v <=? u64_max) (zip ids vs) = true →
  wf (mint_batch caller to ids vs t).2.
Proof.
  intros Hwf Hvs Hall. unfold mint_batch. do 4 pass_guard.
  apply (bindM_inv wf).
  - by rewrite (proj1 (check_duplicates_ok _ _ _)).
  - intros ? s' Hs _. destruct (check_duplicates_ok ∅ ids t) as [Hst Hok]. rewrite Hs in Hst, Hok.
    simpl in Hst. subst s'. destruct Hok as [[Hnd _] _]; [done|].
    apply (bindM_inv wf); [|done].
    edestruct (credit_loop t to (zip ids vs)) as [-> ?]; try done.
    + by apply zip_fst_NoDup.
    + apply list.Forall_forall. intros [i v] Hin. split; [by apply (zip_fits _ _ Hvs _ Hin)|].
      rewrite forallb_forall in Hall. apply list_elem_of_In, Hall in Hin. by apply Z.leb_le.
Qed.

Lemma create_token_wf t caller v u :
  wf t → fits u64_max v → total_supply t (next_token_id t) = 0 → wf (create_token caller v u t).2.
Proof.
  intros Hwf [Hv Hmax] Hfresh. destruct (multi_wf_next _ Hwf).
  pose proof (multi_balance_le t caller (next_token_id t) Hwf).
  assert (Hnext : ∀ s, wf s → next_token_id t + 1 ≤ u64_max → wf (set_next_token_id (next_token_id t + 1) s)).
  { intros s Hs Hn. split; try apply Hs. simpl. lia. }
  assert (Huri : next_token_id t + 1 ≤ u64_max → wf (insert_uri (next_token_id t) u
    (set_next_token_id (next_token_id t + 1) t))).
  { intros Hn. by apply (multi_wf_admin _ _ (Hnext _ Hwf Hn)). }
  unfold create_token. run_ops; try done; [|by apply Huri].
  apply multi_wf_restock; [by apply Huri|done..|].
  unfold balance_of, total_supply in *. simpl. lia.
Qed.

Lemma burn_wf t caller from i v : wf t → 0 ≤ v → wf (burn caller from i v t).2.
Proof.
  intros Hwf Hv. pose proof (multi_balance_le t from i Hwf). unfold burn. pass_guard.
  run_ops; try done. by apply multi_wf_destroyed.
Qed.

Lemma burn_batch_wf t caller from ids vs :
  wf t → Forall (fits u64_max) vs → wf (burn_batch caller from ids vs t).2.
Proof.
  intros Hwf Hvs. unfold burn_batch. do 4 pass_guard.
  apply (bindM_inv wf); [|done]. apply (for_each_inv wf); [|done].
  intros [i v] s' Hin%(zip_fits _ _ Hvs) Hs. by apply debit_wf.
Qed.

Lemma discard_state {A} (m : OP A) t : (discard m t).2 = (m t).2.
Proof. unfold discard, bindM. by destruct (m t) as [[a|e] t']. Qed.

Lemma multi_wf_step t c : wf t → call_fits c → admissible t c = true → wf (step t c).
Proof.
  intros Hwf Hfit Hadm.
  destruct c; unfold step, exec; rewrite ?discard_state; simpl in Hfit, Hadm; reflect_hyps.
  1-3: unfold transfer_ownership, accept_ownership, set_approval_for_all; run_ops; try done;
       by apply (multi_wf_admin t).
  - apply safe_transfer_wf; [done..|apply Hfit].
  - by apply safe_batch_transfer_wf.
  - apply mint_wf; [done|apply Hfit|done].
  - by apply mint_batch_wf.
  - by apply create_token_wf.
  - apply burn_wf; [done|apply Hfit].
  - by apply burn_batch_wf.
Qed.

Lemma multi_wf_run t cs :
  wf t → Forall call_fits cs → all_admissible t cs = true → wf (run t cs).
Proof.
  unfold run. revert t. induction cs as [|c cs IH]; intros t Hwf Hfit Hadm; simpl in *; [done|].
  apply list.Forall_cons in Hfit as [? ?]. reflect_hyps. apply IH; try done. by apply multi_wf_step.
Qed.

Lemma multi_wf_new name owner base_uri : wf (new name owner base_uri).
Proof.
  split; simpl; try done.
Qed.

(** ** Batches *)

Lemma batch_total_nonneg l id : Forall (λ p, 0 ≤ p.2) l → 0 ≤ batch_total l id.
Proof.
  induction 1 as [|[i v] l Hv Hl IH]; simpl in *; [done|]. destruct (i =? id); lia.
Qed.

Lemma batch_total_absent l id : id ∉ l.*1 → batch_total l id = 0.
Proof.
  induction l as [|[i v] l IH]; simpl; [done|]. intros Hni.
  rewrite IH by set_solver. destruct (Z.eqb_spec i id); [set_solver|lia].
Qed.

Lemma batch_total_distinct t from l :
  wf t → NoDup l.*1 → Forall (λ '(i, v), v ≤ balance_of t from i) l →
  ∀ id, batch_total l id ≤ balance_of t from id.
Proof.
  intros Hwf Hnd Hl id. pose proof (multi_balance_nonneg t from id Hwf).
  induction l as [|[i v] l IH]; simpl in *; [done|].
  apply list.NoDup_cons in Hnd as [Hni Hnd]. apply list.Forall_cons in Hl as [Hv Hl].
  destruct (Z.eqb_spec i id) as [<-|]; [rewrite batch_total_absent by done; lia|].
  specialize (IH Hnd Hl). lia.
Qed.

Lemma batch_total_bounds_entries t from l :
  Forall (λ p, 0 ≤ p.2) l → (∀ id, batch_total l id ≤ balance_of t from id) →
  Forall (λ '(i, v), v ≤ balance_of t from i) l.
Proof.
  intros Hpos Hall. apply list.Forall_forall. intros [i v] Hin. etrans; [|apply (Hall i)].
  clear Hall. induction Hpos as [|[j w] l Hw Hl IH]; simpl in *; [by apply not_elem_of_nil in Hin|].
  pose proof (batch_total_nonneg l i Hl).
  apply elem_of_cons in Hin as [[= -> ->]|Hin]; [rewrite Z.eqb_refl; lia|].
  specialize (IH Hin). destruct (j =? i); lia.
Qed.

Lemma moved_balance_of t from to i v a id :
  from ≠ to →
  balance_of (moved from to i v t) a id = batch_balance t from to [(i, v)] a id.
Proof.
  intros Hne. unfold moved, batch_balance. rewrite !multi_balance_insert. simpl.
  destruct (Z.eqb_spec a from), (Z.eqb_spec a to), (Z.eqb_spec i id);
    repeat case_bool_decide; naive_solver lia.
Qed.

Lemma move_loop t from to l :
  wf t → from ≠ to → Forall (λ p, 0 ≤ p.2) l →
  let '(r, t') := for_each l (λ '(i, v), move from to i v) t in
  (is_ok r = true ↔ ∀ id, batch_total l id ≤ balance_of t from id) ∧
  (is_ok r = true → token_supplies t' = token_supplies t ∧
     ∀ a id, balance_of t' a id = batch_balance t from to l a id).
Proof.
  intros Hwf Hne. revert t Hwf. induction l as [|[i v] l IH]; intros t Hwf Hl; simpl.
  - split; [split; [|done]; intros; by apply multi_balance_nonneg|]. intros _. split; [done|].
    intros a id. unfold batch_balance. simpl.
    destruct (Z.eqb_spec a from), (Z.eqb_spec a to); subst; lia.
  - apply list.Forall_cons in Hl as [Hv Hl]. simpl in Hv. unfold bindM at 1.
    rewrite move_eq by done. destruct (Z.ltb_spec (balance_of t from i) v) as [Hlt|Hle].
    + split; [split; [done|]|done]. intros Hall. specialize (Hall i). rewrite Z.eqb_refl in Hall.
      pose proof (batch_total_nonneg l i Hl). lia.
    + specialize (IH _ (multi_wf_moved t from to i v Hwf Hne ltac:(lia)) Hl).
      destruct (for_each l _ _) as [r t']. destruct IH as [Hiff Hbal]. split.
      * rewrite Hiff. apply forall_proper. intros id. rewrite moved_balance_of by done.
        unfold batch_balance. simpl. rewrite Z.eqb_refl. destruct (i =? id); lia.
      * intros Hr. destruct (Hbal Hr) as [Hs Hb]. split; [done|]. intros a id. rewrite Hb.
        unfold batch_balance at 1. rewrite !moved_balance_of by done. unfold batch_balance. simpl.
        destruct (Z.eqb_spec a from), (Z.eqb_spec a to), (Z.eqb_spec to from), (Z.eqb_spec from from),
          (Z.eqb_spec to to), (Z.eqb_spec i id); subst; done || lia.
Qed.

(** A batch is its guards, the balance check and the loop of moves. *)
Lemma batch_cases t caller from to ids vs :
  (∃ e, safe_batch_transfer_from caller from to ids vs t = (Err e, t) ∧
     (batch_guards t caller from to ids vs →
        ¬ Forall (λ '(i, v), v ≤ balance_of t from i) (zip ids vs))) ∨
  (safe_batch_transfer_from caller from to ids vs t =
     (for_each (zip ids vs) (λ '(i, v), move from to i v) ?;
      returns (TransferBatch caller from to ids vs)) t ∧
   batch_guards t caller from to ids vs ∧
   Forall (λ '(i, v), v ≤ balance_of t from i) (zip ids vs)).
Proof.
  destruct (safe_batch_transfer_from caller from to ids vs t) as [r t0] eqn:Hr.
  unfold safe_batch_transfer_from, check_not_zero_address, check_batch_size, check_lengths,
    check_approved, fail_if, gets in Hr. unfold batch_guards.
  unfold bindM at 1 in Hr. destruct (Z.eqb_spec to ZERO_ADDRESS); [left; naive_solver|].
  unfold bindM at 1 in Hr. destruct (Z.ltb_spec MAX_BATCH_SIZE (Z.of_nat (length ids)));
    [left; simplify_eq; eexists; split; [done|lia]|].
  unfold bindM at 1 in Hr.
  destruct (Nat.eqb_spec (length ids) (length vs)); simpl in Hr; [|left; naive_solver].
  unfold bindM at 1 2 in Hr.
  destruct (is_approved_or_owner t caller from) eqn:Hap; simpl in Hr; [|left; naive_solver].
  unfold bindM at 1 in Hr. pose proof (check_loop_state (zip ids vs) from t) as Hst.
  pose proof (check_loop_ok (zip ids vs) from t) as Hok.
  destruct (for_each (zip ids vs) (λ '(i, v), check_balance from i v) t) as [[u|er] t'];
    simpl in *; subst t'.
  - right. rewrite <- Hr. naive_solver.
  - left. exists er. simplify_eq. split; [done|]. intros _ HF. by apply Hok in HF.
Qed.

(** ** Claims *)

(** The books of every token type balance.  From a new contract, after any
    history of calls, successful or not and including batches left half-way by an
    error, in which no account transfers to itself, no mint overflows a supply and
    no type is created over an identifier minted before: for every token type the
    holdings add up to the recorded supply, the supply is a [u64], and every
    balance is between 0 and the supply. *)
Theorem multi_supply_conserved name owner base_uri cs
    (Hfit : Forall call_fits cs)
    (Hadm : all_admissible (new name owner base_uri) cs = true) :
  let t := run (new name owner base_uri) cs in
  ∀ id, held t id = total_supply t id ∧ fits u64_max (total_supply t id) ∧
        ∀ a, 0 ≤ balance_of t a id ≤ total_supply t id.
Proof.
  intros t id. assert (Hwf : wf t) by (apply multi_wf_run; [apply multi_wf_new|done..]).
  split_and!; try apply Hwf. intros a. by apply multi_balance_le.
Qed.

Lemma multi_supply_conserved_witness :
  let t := run (new "Multi Token" 1 "ipfs://")
    [CCreateToken 1 1000 "gold"; CMint 1 2 1 500 None; CSafeBatchTransferFrom 1 1 2 [1; 1] [600; 600];
     CMintBatch 1 3 [7; 8] [10; 20]; CBurn 2 2 1 100; CBurnBatch 3 3 [7; 8] [5; 5]] in
  held t 1 = total_supply t 1 ∧ fits u64_max (total_supply t 1) ∧
  ∀ a, 0 ≤ balance_of t a 1 ≤ total_supply t 1.
Proof.
  apply (multi_supply_conserved "Multi Token" 1 "ipfs://"
    [CCreateToken 1 1000 "gold"; CMint 1 2 1 500 None; CSafeBatchTransferFrom 1 1 2 [1; 1] [600; 600];
     CMintBatch 1 3 [7; 8] [10; 20]; CBurn 2 2 1 100; CBurnBatch 3 3 [7; 8] [5; 5]]).
  - repeat constructor; vm_compute; discriminate.
  - vm_compute. reflexivity.
Defined.

(** Batch transfers between distinct accounts.  [safe_batch_transfer_from]
    returns [Ok] exactly when its guards hold and, for every token type, the
    batch's entries for it add up to at most the balance of [from]; then [from]
    loses and [to] gains exactly those totals and every other balance and every
    supply is unchanged.  When the identifiers are distinct a rejected batch
    changes nothing. *)
Theorem batch_transfer_correct t caller from to ids vs
    (Hwf : wf t) (Hne : from ≠ to) (Hvs : Forall (fits u64_max) vs) :
  let '(r, t') := safe_batch_transfer_from caller from to ids vs t in
  (is_ok r = true ↔ batch_guards t caller from to ids vs ∧
     ∀ id, batch_total (zip ids vs) id ≤ balance_of t from id) ∧
  (is_ok r = true → wf t' ∧ token_supplies t' = token_supplies t ∧
     ∀ a id, balance_of t' a id = batch_balance t from to (zip ids vs) a id) ∧
  (is_ok r = false → NoDup ids → t' = t).
Proof.
  pose proof (safe_batch_transfer_wf t caller from to ids vs Hwf Hne Hvs) as Hwf'.
  assert (Hpos : Forall (λ p, 0 ≤ p.2) (zip ids vs)) by (apply list.Forall_forall, zip_fits, Hvs).
  destruct (batch_cases t caller from to ids vs) as [(e & -> & Hno)|(Heq & Hg & HF)].
  - split_and!; try done. split; [done|]. intros [Hg Hall]. exfalso. apply Hno; [done|].
    by apply batch_total_bounds_entries.
  - rewrite Heq in *. unfold bindM in *. pose proof (move_loop t from to (zip ids vs) Hwf Hne Hpos) as Hml.
    destruct (for_each (zip ids vs) _ t) as [[u|e] t']; simpl in *; destruct Hml as [Hiff Hbal].
    + split_and!; naive_solver.
    + split_and!; [naive_solver|done|]. intros _ Hnd. exfalso.
      destruct Hiff as [_ Hiff]. discriminate Hiff.
      apply batch_total_distinct; [done|by apply zip_fst_NoDup|done].
Qed.

Lemma batch_transfer_correct_witness :
  let t := run (new "Multi Token" 1 "ipfs://")
    [CCreateToken 1 1000 ""; CCreateToken 1 500 ""; CCreateToken 1 100 ""] in
  let '(r, t') := safe_batch_transfer_from 1 1 2 [1; 2; 3] [100; 50; 10] t in
  (is_ok r = true ↔ batch_guards t 1 1 2 [1; 2; 3] [100; 50; 10] ∧
     ∀ id, batch_total (zip [1; 2; 3] [100; 50; 10]) id ≤ balance_of t 1 id) ∧
  (is_ok r = true → wf t' ∧ token_supplies t' = token_supplies t ∧
     ∀ a id, balance_of t' a id = batch_balance t 1 2 (zip [1; 2; 3] [100; 50; 10]) a id) ∧
  (is_ok r = false → NoDup [1; 2; 3] → t' = t).
Proof.
  apply batch_transfer_correct.
  - apply multi_wf_run; [apply multi_wf_new| |vm_compute; reflexivity].
    repeat constructor; vm_compute; discriminate.
  - discriminate.
  - repeat constructor; vm_compute; discriminate.
Defined.

(** A rejected batch can still move tokens.  The balance check of
    [safe_batch_transfer_from] looks at each entry on its own.  A batch that lists
    the same type twice, each amount covered but not their sum, passes the check,
    performs the first move and then returns [Err(Underflow)]: the caller sees an
    error and the first amount is gone. *)
Theorem duplicate_batch_partially_applied t caller from to i v w
    (Hwf : wf t) (Hne : from ≠ to) (Hto : to ≠ ZERO_ADDRESS)
    (Hap : is_approved_or_owner t caller from = true)
    (Hv : 0 < v ≤ balance_of t from i) (Hw : 0 ≤ w ≤ balance_of t from i)
    (Hsum : balance_of t from i < v + w) :
  let '(r, t') := safe_batch_transfer_from caller from to [i; i] [v; w] t in
  r = Err Underflow ∧ balance_of t' from i = balance_of t from i - v ∧
  balance_of t' to i = balance_of t to i + v.
Proof.
  destruct (batch_cases t caller from to [i; i] [v; w]) as [(e & _ & Hno)|(-> & _ & _)].
  { exfalso. apply Hno; [by split_and!|]. repeat constructor; lia. }
  pose proof (moved_balance_of t from to i v) as Hm. unfold batch_balance in Hm. simpl in Hm.
  simpl. unfold bindM, returns. rewrite move_eq by (done || lia).
  destruct (Z.ltb_spec (balance_of t from i) v); [lia|].
  assert (Hf : balance_of (moved from to i v t) from i = balance_of t from i - v).
  { rewrite Hm by done. rewrite !Z.eqb_refl. lia. }
  rewrite move_eq by (done || lia || (apply multi_wf_moved; done || lia)). rewrite Hf.
  destruct (Z.ltb_spec (balance_of t from i - v) w); [|lia]. split_and!; try done.
  rewrite Hm by done. rewrite !Z.eqb_refl. destruct (Z.eqb_spec to from); [congruence|lia].
Qed.

Lemma duplicate_batch_partially_applied_witness :
  let t := run (new "Multi Token" 1 "ipfs://") [CCreateToken 1 1000 ""] in
  let '(r, t') := safe_batch_transfer_from 1 1 2 [1; 1] [600; 600] t in
  r = Err Underflow ∧ balance_of t' 1 1 = balance_of t 1 1 - 600 ∧
  balance_of t' 2 1 = balance_of t 2 1 + 600.
Proof.
  apply duplicate_batch_partially_applied; try (vm_compute; done || split; done).
  apply multi_wf_run; [apply multi_wf_new| |vm_compute; reflexivity].
  repeat constructor; vm_compute; discriminate.
Defined.

(** Creating a type over minted units loses them from the books.  [mint]
    accepts any identifier, so the owner can mint units of the identifier that
    [create_token] will use next.  [create_token] then overwrites the supply
    instead of adding to it: the earlier holder keeps its units but they are no
    longer counted, and the holdings exceed the recorded supply by that amount. *)
Theorem create_token_overwrites_supply t holder v s u
    (Hwf : wf t) (Hz : holder ≠ ZERO_ADDRESS) (Hh : holder ≠ owner t)
    (Hfresh : total_supply t (next_token_id t) = 0)
    (Hv : fits u64_max v) (Hs : 0 < s) (Hn : next_token_id t < u64_max) :
  let id := next_token_id t in
  let t' := run t [CMint (owner t) holder id v None; CCreateToken (owner t) s u] in
  balance_of t' holder id = v ∧ total_supply t' id = s ∧ held t' id = s + v.
Proof.
  intros id t'. destruct Hv as [Hv Hmax].
  pose proof (multi_balance_le t holder id Hwf). pose proof (multi_balance_le t (owner t) id Hwf).
  assert (Hm : step t (CMint (owner t) holder id v None) = created holder id v t).
  { unfold step, exec. rewrite discard_state. unfold mint, check_owner, check_not_zero_address.
    unfold_monad. rewrite Z.eqb_refl. destruct (Z.eqb_spec holder ZERO_ADDRESS); [done|]. simpl.
    rewrite credit_eq; unfold id in *; done || lia. }
  assert (Ht' : t' = insert_supply id s (insert_balance id (owner t) s (insert_uri id u
                 (set_next_token_id (id + 1) (created holder id v t))))).
  { unfold t', run. simpl. rewrite Hm. unfold step, exec. rewrite discard_state.
    unfold create_token. run_ops; unfold id in *; done || lia. }
  rewrite Ht'. split_and!.
  - change (balance_of (insert_supply id s ?x) holder id) with (balance_of x holder id).
    rewrite multi_balance_insert, bool_decide_false by naive_solver.
    change (balance_of (created holder id v t) holder id = v). unfold created.
    change (balance_of (insert_balance id holder (balance_of t holder id + v) t) holder id = v).
    rewrite multi_balance_insert, bool_decide_true by done. unfold id in *. lia.
  - rewrite multi_supply_insert, Z.eqb_refl. done.
  - change (held (insert_supply id s ?x) id) with (held x id).
    rewrite held_insert_balance, Z.eqb_refl.
    change (held (created holder id v t) id + (s - balance_of (created holder id v t) (owner t) id) = s + v).
    rewrite (multi_wf_held _ (multi_wf_created t holder id v Hwf Hv ltac:(unfold id in *; lia))).
    change (balance_of (created holder id v t) (owner t) id) with
      (balance_of (insert_balance id holder (balance_of t holder id + v) t) (owner t) id).
    rewrite multi_balance_insert, bool_decide_false by naive_solver.
    unfold created. rewrite multi_supply_insert, Z.eqb_refl. unfold id in *. lia.
Qed.

Lemma create_token_overwrites_supply_witness :
  let t := new "Multi Token" 1 "ipfs://" in
  let t' := run t [CMint 1 2 1 500 None; CCreateToken 1 1000 "gold"] in
  balance_of t' 2 1 = 500 ∧ total_supply t' 1 = 1000 ∧ held t' 1 = 1000 + 500.
Proof.
  apply (create_token_overwrites_supply (new "Multi Token" 1 "ipfs://") 2 500 1000 "gold");
    try (vm_compute; done || split; done).
Defined.
