(* ===== verification/Bytes.v ===== *)
(** * Byte strings

    The encodings the code writes with [to_le_bytes]/[to_be_bytes] and
    [extend_from_slice], and the domain separation of
    [src/L1/src/crypto/domains.rs].  A byte is a [Z] between 0 and 255. *)

From S2P Require Import Prelude.

(** [x.to_le_bytes()] and [from_le_bytes] of an [n]-byte integer. *)
Fixpoint le_bytes (n : nat) (x : Z) : list Z :=
  match n with
  | O => []
  | S n' => x mod 256 :: le_bytes n' (x / 256)
  end.

Fixpoint of_le_bytes (bs : list Z) : Z :=
  match bs with
  | [] => 0
  | b :: bs' => b + 256 * of_le_bytes bs'
  end.

(** Big endian; in particular the 32 bytes of a [Hash] or [Address]. *)
Definition be_bytes (n : nat) (x : Z) : list Z := reverse (le_bytes n x).
Definition of_be_bytes (bs : list Z) : Z := of_le_bytes (reverse bs).

Definition hash_bytes (h : Hash) : list Z := be_bytes 32 h.

(** [b"..."] *)
Definition ascii_bytes (s : string) : list Z := map (λ a, Z.of_N (Ascii.N_of_ascii a)) (String.list_ascii_of_string s).

(** [with_domain]: the domain's length as a [u16], the domain, the message. *)
Definition with_domain (domain message : list Z) : list Z :=
  le_bytes 2 (Z.of_nat (length domain)) ++ domain ++ message.

Definition DOMAIN_TX : list Z := ascii_bytes "QUANTOS_TX_V1".
Definition DOMAIN_VERTEX : list Z := ascii_bytes "QUANTOS_VERTEX_V1".
Definition DOMAIN_COMMITTEE_VOTE : list Z := ascii_bytes "QUANTOS_COMMITTEE_VOTE_V1".
Definition DOMAIN_CHECKPOINT : list Z := ascii_bytes "QUANTOS_CHECKPOINT_V1".
Definition DOMAIN_VIEW_CHANGE : list Z := ascii_bytes "QUANTOS_VIEW_CHANGE_V1".
Definition DOMAIN_PIPELINE_VOTE : list Z := ascii_bytes "QUANTOS_PIPELINE_VOTE_V1".
Definition DOMAIN_VRF_PRF : list Z := ascii_bytes "QUANTOS_VRF_PRF_V1".
Definition DOMAIN_VRF_OUTPUT : list Z := ascii_bytes "QUANTOS_VRF_OUTPUT_V1".
Definition DOMAIN_VRF_PROVE : list Z := ascii_bytes "QUANTOS_VRF_PROVE_V1".
Definition DOMAIN_CSAP_VOTE : list Z := ascii_bytes "QUANTOS_CSAP_VOTE_V1".
Definition DOMAIN_CSAP_ACK : list Z := ascii_bytes "QUANTOS_CSAP_ACK_V1".
Definition DOMAIN_SLASH_DOUBLE_SIGN : list Z := ascii_bytes "QUANTOS_SLASH_DS_V1".
Definition DOMAIN_SLASH_EQUIVOC : list Z := ascii_bytes "QUANTOS_SLASH_EQ_V1".
Definition DOMAIN_SLASH_INVALID_BLOCK : list Z := ascii_bytes "QUANTOS_SLASH_IBLOCK_V1".
Definition DOMAIN_SLASH_FRONT_RUN : list Z := ascii_bytes "QUANTOS_SLASH_FRUN_V1".
Definition DOMAIN_PQ_PEER_ID : list Z := ascii_bytes "QUANTOS_PQ_PEER_ID_V1".
Definition DOMAIN_PQ_KEM_HANDSHAKE : list Z := ascii_bytes "QUANTOS_PQ_KEM_HS_V1".

Definition all_domains : list (list Z) :=
  [DOMAIN_TX; DOMAIN_VERTEX; DOMAIN_COMMITTEE_VOTE; DOMAIN_CHECKPOINT; DOMAIN_VIEW_CHANGE; DOMAIN_PIPELINE_VOTE;
   DOMAIN_VRF_PRF; DOMAIN_VRF_OUTPUT; DOMAIN_VRF_PROVE; DOMAIN_CSAP_VOTE; DOMAIN_CSAP_ACK; DOMAIN_SLASH_DOUBLE_SIGN;
   DOMAIN_SLASH_EQUIVOC; DOMAIN_SLASH_INVALID_BLOCK; DOMAIN_SLASH_FRONT_RUN; DOMAIN_PQ_PEER_ID;
   DOMAIN_PQ_KEM_HANDSHAKE].

Definition byte (b : Z) : Prop := 0 ≤ b < 256.

(** ** Lemmas *)

Lemma le_bytes_length n x : length (le_bytes n x) = n.
Proof. revert x. induction n as [|n IH]; intros x; simpl; [done|]. by rewrite IH. Qed.

Lemma be_bytes_length n x : length (be_bytes n x) = n.
Proof. unfold be_bytes. by rewrite length_reverse, le_bytes_length. Qed.

Lemma le_bytes_byte n x : Forall byte (le_bytes n x).
Proof.
  revert x. induction n as [|n IH]; intros x; simpl; constructor; [|apply IH].
  unfold byte. pose proof (Z.mod_pos_bound x 256). lia.
Qed.

(** Decoding undoes encoding on the integers the width can hold. *)
Lemma of_le_le_bytes n x : 0 ≤ x < 256 ^ Z.of_nat n → of_le_bytes (le_bytes n x) = x.
Proof.
  revert x. induction n as [|n IH]; intros x Hx; simpl.
  - change (256 ^ Z.of_nat 0) with 1 in Hx. lia.
  - rewrite Nat2Z.inj_succ, Z.pow_succ_r in Hx by lia.
    rewrite IH; [pose proof (Z.div_mod x 256); lia|].
    split; [apply Z.div_pos; lia|]. apply Z.div_lt_upper_bound; lia.
Qed.

Lemma of_le_bytes_range bs : Forall byte bs → 0 ≤ of_le_bytes bs < 256 ^ Z.of_nat (length bs).
Proof.
  induction 1 as [|b bs Hb Hbs IH]; simpl; [done|]. unfold byte in Hb.
  rewrite Nat2Z.inj_succ, Z.pow_succ_r by lia. lia.
Qed.

Lemma le_of_le_bytes bs : Forall byte bs → le_bytes (length bs) (of_le_bytes bs) = bs.
Proof.
  induction 1 as [|b bs Hb Hbs IH]; simpl; [done|]. unfold byte in Hb.
  rewrite (Z.mul_comm 256), Z_mod_plus_full, Z.mod_small by lia.
  by rewrite Z_div_plus_full, Z.div_small, Z.add_0_l, IH by lia.
Qed.

Lemma le_of_le_bytes_n n bs :
  length bs = n → Forall byte bs → le_bytes n (of_le_bytes bs) = bs.
Proof. intros <-. apply le_of_le_bytes. Qed.

Lemma le_bytes_inj n x y :
  0 ≤ x < 256 ^ Z.of_nat n → 0 ≤ y < 256 ^ Z.of_nat n → le_bytes n x = le_bytes n y → x = y.
Proof. intros Hx Hy Heq. by rewrite <- (of_le_le_bytes n x), <- (of_le_le_bytes n y), Heq. Qed.

Lemma of_be_be_bytes k n : 0 ≤ n < 256 ^ Z.of_nat k → of_be_bytes (be_bytes k n) = n.
Proof. intros Hn. unfold of_be_bytes, be_bytes. rewrite reverse_involutive. by apply of_le_le_bytes. Qed.

Lemma be_bytes_inj n x y :
  0 ≤ x < 256 ^ Z.of_nat n → 0 ≤ y < 256 ^ Z.of_nat n → be_bytes n x = be_bytes n y → x = y.
Proof. intros Hx Hy Heq%(inj reverse). by eapply le_bytes_inj. Qed.

(** Two concatenations of a fixed-length first part agree part by part. *)
Lemma app_fixed_inj {A} (n : nat) (a b c d : list A) :
  length a = n → length b = n → a ++ c = b ++ d → a = b ∧ c = d.
Proof. intros Ha Hb. apply app_inj_1. congruence. Qed.

Lemma le_app_inj n x y c d :
  0 ≤ x < 256 ^ Z.of_nat n → 0 ≤ y < 256 ^ Z.of_nat n →
  le_bytes n x ++ c = le_bytes n y ++ d → x = y ∧ c = d.
Proof.
  intros Hx Hy [Heq ->]%(app_fixed_inj n); try apply le_bytes_length. split; [|done].
  by eapply le_bytes_inj.
Qed.

Lemma hash_app_inj x y c d :
  0 ≤ x < 2 ^ 256 → 0 ≤ y < 2 ^ 256 →
  hash_bytes x ++ c = hash_bytes y ++ d → x = y ∧ c = d.
Proof.
  intros Hx Hy [Heq ->]%(app_fixed_inj 32); try apply be_bytes_length. split; [|done].
  change (2 ^ 256) with (256 ^ Z.of_nat 32) in Hx, Hy. by eapply be_bytes_inj.
Qed.

(** The same with the fixed-length part at the end. *)
Lemma app_le_inj n x y c d :
  0 ≤ x < 256 ^ Z.of_nat n → 0 ≤ y < 256 ^ Z.of_nat n →
  c ++ le_bytes n x = d ++ le_bytes n y → c = d ∧ x = y.
Proof.
  intros Hx Hy [-> Heq]%app_inj_2; [|by rewrite !le_bytes_length].
  split; [done|]. by eapply le_bytes_inj.
Qed.

Lemma with_domain_inj domain m1 m2 : with_domain domain m1 = with_domain domain m2 → m1 = m2.
Proof. unfold with_domain. by intros ->%app_inv_head%app_inv_head. Qed.

(** Messages signed under different domains differ. *)
Lemma with_domain_sep d1 d2 m1 m2 :
  Z.of_nat (length d1) < 65536 → Z.of_nat (length d2) < 65536 →
  with_domain d1 m1 = with_domain d2 m2 → d1 = d2 ∧ m1 = m2.
Proof.
  unfold with_domain. intros H1 H2 [Hl Heq]%le_app_inj; [|change (256 ^ Z.of_nat 2) with 65536; lia..].
  eapply app_inj_1 in Heq; [done|lia].
Qed.

(** No message is signed under two of the program's domains: the domains are
    pairwise different, and equal signed bytes have equal domain and message. *)
Lemma domains_separated i j d1 d2 m1 m2 :
  all_domains !! i = Some d1 → all_domains !! j = Some d2 →
  with_domain d1 m1 = with_domain d2 m2 → i = j ∧ m1 = m2.
Proof.
  assert (Hall : NoDup all_domains ∧ Forall (λ d, Z.of_nat (length d) < 65536) all_domains)
    by (apply (bool_decide_unpack _); by vm_compute).
  destruct Hall as [Hnd Hlen]. intros H1 H2 [-> ->]%with_domain_sep; [|exact (list.Forall_lookup_1 _ _ _ _ Hlen H1)|exact (list.Forall_lookup_1 _ _ _ _ Hlen H2)].
  split; [|done]. by eapply NoDup_lookup.
Qed.
