(* ===== verification/Consensus.v ===== *)
(** * Consensus errors and quorum certificates

    The error type of [src/L1/src/consensus/mod.rs], which the finality layer, the
    pipeline and the view change share, and the certificate that the pipeline
    makes and the view change carries ([QuorumCertificate] of
    [src/L1/src/consensus/pipelining.rs]). *)

From S2P Require Import Prelude.

Inductive ConsensusError : Type :=
  | InvalidVertex (e : string)
  | InvalidVote (e : string)
  | QuorumNotReached
  | NotCommitteeMember
  | InvalidVRFProof
  | CheckpointVerificationFailed
  | StorageError (e : string)
  | CryptoError (e : string)
  | ResourceExhausted (e : string)
  | ArithmeticOverflow (e : string)
  | Unauthorized (e : string)
  | InvalidData (e : string)
  | InvalidValidator (e : string).

Record QuorumCertificate : Type := mkQC {
  qc_block_hash : Hash;
  qc_view : Z;
  qc_aggregated_sig : list Z;
  qc_signers_bitmap : list Z;
  qc_total_stake : Z
}.

Definition new_qc (block_hash : Hash) (view : Z) : QuorumCertificate := mkQC block_hash view [] [] 0.

(** [QuorumCertificate::is_valid] *)
Definition qc_is_valid (qc : QuorumCertificate) (quorum_threshold : Z) : bool :=
  quorum_threshold <=? qc_total_stake qc.

(** [if high.map_or(true, |h| qc.view > h.view) { high = Some(qc) }] *)
Definition higher_qc (qc : QuorumCertificate) (high : option QuorumCertificate) : option QuorumCertificate :=
  match high with
  | Some h => if qc_view h <? qc_view qc then Some qc else high
  | None => Some qc
  end.

(** The view of an optional certificate; none is below every view. *)
Definition opt_view (o : option QuorumCertificate) : Z := match o with Some qc => qc_view qc | None => -1 end.

(** Keeping the higher certificate takes the maximum of the views. *)
Lemma higher_qc_view qc high :
  0 ≤ qc_view qc → opt_view (higher_qc qc high) = Z.max (opt_view high) (qc_view qc).
Proof. intros Hv. destruct high as [h|]; simpl; [|lia]. destruct (Z.ltb_spec (qc_view h) (qc_view qc)); simpl; lia. Qed.

Lemma higher_qc_mono qc high : opt_view high ≤ opt_view (higher_qc qc high) ∨ high = None.
Proof. destruct high as [h|]; [left|by right]. simpl. destruct (Z.ltb_spec (qc_view h) (qc_view qc)); simpl; lia. Qed.
