(* ===== verification/Account.v ===== *)
(** * Accounts

    Models [Account] of [src/L1/src/types/account.rs]: the record every part of
    the state layer reads and writes, and its balance, stake and nonce
    operations.  An operation that returns [bool] and mutates the account is a
    function to the flag and the new account.  [Amount] is a [u128]. *)

From S2P Require Import Prelude Bytes.

Record Account : Type := mkAccount {
  address : Address;
  balance : Z;
  nonce : Z;
  code_hash : option Hash;
  storage_root : Hash;
  stake : Z;
  is_validator : bool
}.

#[export] Instance Account_eq_dec : EqDecision Account.
Proof. solve_decision. Defined.

Definition set_balance (v : Z) (a : Account) : Account :=
  mkAccount (address a) v (nonce a) (code_hash a) (storage_root a) (stake a) (is_validator a).
Definition set_nonce (v : Z) (a : Account) : Account :=
  mkAccount (address a) (balance a) v (code_hash a) (storage_root a) (stake a) (is_validator a).
Definition set_code_hash (v : option Hash) (a : Account) : Account :=
  mkAccount (address a) (balance a) (nonce a) v (storage_root a) (stake a) (is_validator a).
Definition set_stake (v : Z) (a : Account) : Account :=
  mkAccount (address a) (balance a) (nonce a) (code_hash a) (storage_root a) v (is_validator a).
Definition set_is_validator (v : bool) (a : Account) : Account :=
  mkAccount (address a) (balance a) (nonce a) (code_hash a) (storage_root a) (stake a) v.

Definition new (address : Address) : Account := mkAccount address 0 0 None 0 0 false.

Definition with_balance (address : Address) (balance : Z) : Account :=
  mkAccount address balance 0 None 0 0 false.

(** The bytes that [Account::hash] feeds to [hash_data]. *)
Definition hash_preimage (a : Account) : list Z :=
  hash_bytes (address a) ++ le_bytes 16 (balance a) ++ le_bytes 8 (nonce a) ++
  match code_hash a with Some h => hash_bytes h | None => [] end ++
  hash_bytes (storage_root a) ++ le_bytes 16 (stake a) ++ [if is_validator a then 1 else 0].

Definition hash (hash_data : list Z → Hash) (a : Account) : Hash := hash_data (hash_preimage a).

Definition increment_nonce (a : Account) : Result Account string :=
  match checked_add u64_max (nonce a) 1 with
  | Some n => Ok (set_nonce n a)
  | None => Err "Nonce overflow: account has reached maximum nonce"
  end.

Definition add_balance (amount : Z) (a : Account) : bool * Account :=
  match checked_add u128_max (balance a) amount with
  | Some new_balance => (true, set_balance new_balance a)
  | None => (false, a)
  end.

Definition sub_balance (amount : Z) (a : Account) : bool * Account :=
  match checked_sub (balance a) amount with
  | Some new_balance => (true, set_balance new_balance a)
  | None => (false, a)
  end.

Definition add_stake (amount : Z) (a : Account) : bool * Account :=
  match checked_add u128_max (stake a) amount with
  | None => (false, a)
  | Some new_stake =>
      match checked_sub (balance a) amount with
      | None => (false, a)
      | Some new_balance => (true, set_balance new_balance (set_stake new_stake a))
      end
  end.

Definition remove_stake (amount : Z) (a : Account) : bool * Account :=
  match checked_sub (stake a) amount with
  | Some new_stake => add_balance amount (set_stake new_stake a)
  | None => (false, a)
  end.

Definition subtract_stake (amount : Z) (a : Account) : bool * Account :=
  match checked_sub (stake a) amount with
  | Some new_stake => (true, set_stake new_stake a)
  | None => (false, a)
  end.

Definition add_stake_direct (amount : Z) (a : Account) : Account :=
  match checked_add u128_max (stake a) amount with
  | Some new_stake => set_stake new_stake a
  | None => a
  end.

(** ** Specification vocabulary *)

(** What an account owns, staked or not. *)
Definition worth (a : Account) : Z := balance a + stake a.

Record in_range (a : Account) : Prop := {
  range_address : 0 ≤ address a < 2 ^ 256;
  range_balance : fits u128_max (balance a);
  range_nonce : fits u64_max (nonce a);
  range_code_hash : ∀ h, code_hash a = Some h → 0 ≤ h < 2 ^ 256;
  range_storage_root : 0 ≤ storage_root a < 2 ^ 256;
  range_stake : fits u128_max (stake a)
}.

(** ** Lemmas *)

Ltac account_op :=
  unfold remove_stake, add_balance, sub_balance, add_stake, subtract_stake, add_stake_direct, worth in *;
  repeat (case_match; simpl in *); simplify_eq; reflect_hyps; simplify_eq; simpl in *.

Lemma sub_balance_spec v a r a' :
  sub_balance v a = (r, a') → 0 ≤ v →
  (r = true ∧ v ≤ balance a ∧ a' = set_balance (balance a - v) a) ∨
  (r = false ∧ balance a < v ∧ a' = a).
Proof. intros Heq Hv. account_op; [left|right]; done. Qed.

Lemma add_balance_spec v a :
  balance a + v ≤ u128_max → add_balance v a = (true, set_balance (balance a + v) a).
Proof. intros Hv. account_op; done || lia. Qed.

(** Staking and unstaking move value between the two fields or do nothing. *)
Lemma add_stake_spec v a r a' :
  add_stake v a = (r, a') → stake a + v ≤ u128_max →
  (r = true ∧ v ≤ balance a ∧ a' = set_balance (balance a - v) (set_stake (stake a + v) a)) ∨
  (r = false ∧ balance a < v ∧ a' = a).
Proof. intros Heq Hmax. account_op; naive_solver lia. Qed.

Lemma remove_stake_spec v a r a' :
  remove_stake v a = (r, a') → balance a + v ≤ u128_max →
  (r = true ∧ v ≤ stake a ∧ a' = set_balance (balance a + v) (set_stake (stake a - v) a)) ∨
  (r = false ∧ stake a < v ∧ a' = a).
Proof. intros Heq Hmax. account_op; naive_solver lia. Qed.

Lemma subtract_stake_spec v a r a' :
  subtract_stake v a = (r, a') →
  (r = true ∧ v ≤ stake a ∧ a' = set_stake (stake a - v) a) ∨
  (r = false ∧ stake a < v ∧ a' = a).
Proof. intros Heq. account_op; [left|right]; done. Qed.

Lemma add_stake_direct_spec v a :
  stake a + v ≤ u128_max → add_stake_direct v a = set_stake (stake a + v) a.
Proof. intros Hv. account_op; done || lia. Qed.

Lemma increment_nonce_spec a a' :
  increment_nonce a = Ok a' → a' = set_nonce (nonce a + 1) a ∧ nonce a + 1 ≤ u64_max.
Proof. unfold increment_nonce. intros. repeat case_match; simplify_eq; reflect_hyps; by subst. Qed.

(** Accounts with the same preimage are equal: the state root binds every
    field. *)
Lemma hash_preimage_inj a b :
  in_range a → in_range b → hash_preimage a = hash_preimage b → a = b.
Proof.
  intros Ha Hb Heq. pose proof (f_equal length Heq) as Hlen. unfold hash_preimage in *.
  apply hash_app_inj in Heq as [Haddr Heq]; [|apply Ha|apply Hb].
  destruct Ha as [_ [? ?] [? ?] Hca Hsa [? ?]], Hb as [_ [? ?] [? ?] Hcb Hsb [? ?]].
  unfold u128_max, u64_max in *.
  apply le_app_inj in Heq as [Hbal Heq]; [|lia..].
  apply le_app_inj in Heq as [Hnon Heq]; [|lia..].
  rewrite !length_app, !le_bytes_length in Hlen. unfold hash_bytes in Hlen.
  rewrite !be_bytes_length in Hlen. simpl in Hlen.
  assert (Hcode : code_hash a = code_hash b ∧
    hash_bytes (storage_root a) ++ le_bytes 16 (stake a) ++ [if is_validator a then 1 else 0] =
    hash_bytes (storage_root b) ++ le_bytes 16 (stake b) ++ [if is_validator b then 1 else 0]).
  { destruct (code_hash a) as [ha|] eqn:Ea, (code_hash b) as [hb|] eqn:Eb; simpl in Hlen;
      rewrite ?be_bytes_length in Hlen; try lia; [|done].
    apply hash_app_inj in Heq as [-> ?]; [done|by apply Hca|by apply Hcb]. }
  destruct Hcode as [Hcode Hrest].
  apply hash_app_inj in Hrest as [Hroot Hrest]; [|done..].
  apply le_app_inj in Hrest as [Hstake Hval]; [|lia..].
  destruct a, b; simpl in *. subst. f_equal. repeat case_match; congruence.
Qed.
