(* ===== verification/Validators.v ===== *)
(** * Validators and validator sets

    Models [Validator] and [ValidatorSet] of [src/L1/src/types/account.rs].
    Keys are byte strings.  The error messages are the constructors of
    [ValidatorError]. *)

From S2P Require Import Prelude.

Definition MAX_COMMISSION_RATE : Z := 10000.
Definition MAX_VALIDATORS : Z := 1000.
Definition MIN_VRF_KEY_SIZE : Z := 32.
Definition MAX_VRF_KEY_SIZE : Z := 256.

Inductive ValidatorError : Type :=
  | InvalidVrfKeySize | ZeroVrfKey | SlashTooLarge | CommissionTooLarge
  | ValidatorSetFull | ValidatorExists | TotalStakeOverflow | ValidatorNotFound
  | ZeroStake | StakeTooLarge.

Record Validator : Type := mkValidator {
  address : Address;
  public_key : list Z;
  finality_public_key : list Z;
  stake : Z;
  commission_rate : Z;
  active : bool;
  jailed : bool;
  slash_count : Z;
  last_active_slot : Z;
  vrf_public_key : list Z
}.

Definition set_stake (s : Z) (v : Validator) : Validator :=
  mkValidator (address v) (public_key v) (finality_public_key v) s (commission_rate v) (active v)
    (jailed v) (slash_count v) (last_active_slot v) (vrf_public_key v).
Definition set_commission (r : Z) (v : Validator) : Validator :=
  mkValidator (address v) (public_key v) (finality_public_key v) (stake v) r (active v)
    (jailed v) (slash_count v) (last_active_slot v) (vrf_public_key v).
Definition set_slash_count (n : Z) (v : Validator) : Validator :=
  mkValidator (address v) (public_key v) (finality_public_key v) (stake v) (commission_rate v) (active v)
    (jailed v) n (last_active_slot v) (vrf_public_key v).
(** [jailed = true; active = false] *)
Definition jail (v : Validator) : Validator :=
  mkValidator (address v) (public_key v) (finality_public_key v) (stake v) (commission_rate v) false
    true (slash_count v) (last_active_slot v) (vrf_public_key v).
Definition set_vrf_public_key (k : list Z) (v : Validator) : Validator :=
  mkValidator (address v) (public_key v) (finality_public_key v) (stake v) (commission_rate v) (active v)
    (jailed v) (slash_count v) (last_active_slot v) k.
Definition set_finality_public_key (k : list Z) (v : Validator) : Validator :=
  mkValidator (address v) (public_key v) k (stake v) (commission_rate v) (active v)
    (jailed v) (slash_count v) (last_active_slot v) (vrf_public_key v).

(** ** One validator *)

Definition new (address : Address) (public_key : list Z) (stake : Z) (vrf_public_key : list Z)
    : Result Validator ValidatorError :=
  let len := Z.of_nat (length vrf_public_key) in
  if (len <? MIN_VRF_KEY_SIZE) || (MAX_VRF_KEY_SIZE <? len) then Err InvalidVrfKeySize
  else if forallb (λ b, b =? 0) vrf_public_key then Err ZeroVrfKey
  else Ok (mkValidator address public_key [] stake 500 true false 0 0 vrf_public_key).

Definition slash (percentage : Z) (v : Validator) : Result Z ValidatorError * Validator :=
  if MAX_COMMISSION_RATE <? percentage then (Err SlashTooLarge, v)
  else
    let slash_amount :=
      match checked_mul u128_max (stake v) percentage with
      | Some m => m / 10000
      | None => 0
      end in
    match checked_sub (stake v) slash_amount with
    | Some new_stake =>
        let v1 := set_slash_count (saturating_add u32_max (slash_count v) 1) (set_stake new_stake v) in
        (Ok slash_amount, if 3 <=? slash_count v1 then jail v1 else v1)
    | None => (Ok 0, v)
    end.

Definition set_commission_rate (rate : Z) (v : Validator) : Result () ValidatorError * Validator :=
  if MAX_COMMISSION_RATE <? rate then (Err CommissionTooLarge, v) else (Ok (), set_commission rate v).

Definition effective_stake (v : Validator) : Z :=
  if active v && negb (jailed v) then stake v else 0.

(** ** Validator sets *)

Record ValidatorSet : Type := mkValidatorSet {
  validators : list Validator;
  total_stake : Z;
  epoch : Z
}.

Definition empty_set : ValidatorSet := mkValidatorSet [] 0 0.

Definition get_validator (s : ValidatorSet) (a : Address) : option Validator :=
  find (λ v, address v =? a) (validators s).

(** Mutation through [iter_mut().find(..)]: the first validator with the
    address is replaced. *)
Fixpoint update_first (a : Address) (f : Validator → Validator) (vs : list Validator) : list Validator :=
  match vs with
  | [] => []
  | v :: vs' => if address v =? a then f v :: vs' else v :: update_first a f vs'
  end.

Definition add_validator (v : Validator) (s : ValidatorSet) : Result () ValidatorError * ValidatorSet :=
  if MAX_VALIDATORS <=? Z.of_nat (length (validators s)) then (Err ValidatorSetFull, s)
  else if existsb (λ w, address w =? address v) (validators s) then (Err ValidatorExists, s)
  else match checked_add u128_max (total_stake s) (stake v) with
       | None => (Err TotalStakeOverflow, s)
       | Some t => (Ok (), mkValidatorSet (validators s ++ [v]) t (epoch s))
       end.

Definition slash_validator (a : Address) (percentage : Z) (s : ValidatorSet)
    : Result Z ValidatorError * ValidatorSet :=
  match get_validator s a with
  | None => (Err ValidatorNotFound, s)
  | Some v =>
      match slash percentage v with
      | (Err e, _) => (Err e, s)
      | (Ok slashed_amount, v') =>
          (Ok slashed_amount,
           mkValidatorSet (update_first a (λ _, v') (validators s))
             (default 0 (checked_sub (total_stake s) slashed_amount)) (epoch s))
      end
  end.

Definition active_validators (s : ValidatorSet) : list Validator :=
  filter (λ v, active v && negb (jailed v) = true) (validators s).

(** [iter().sum()] of [u128]s. *)
Definition sum_u128 (l : list Z) : Z := foldl (wrapping_add u128_max) 0 l.

Definition total_active_stake (s : ValidatorSet) : Z := sum_u128 (map effective_stake (validators s)).

(** [CommitteeManager::add_validator] on the set. *)
Definition register_validator (v : Validator) (s : ValidatorSet) : Result () ValidatorError * ValidatorSet :=
  if stake v =? 0 then (Err ZeroStake, s)
  else if u128_max / 2 <? stake v then (Err StakeTooLarge, s)
  else add_validator v s.

(** [CommitteeManager::remove_validator] on the set. *)
Definition remove_validator (a : Address) (s : ValidatorSet) : ValidatorSet :=
  let vs := filter (λ v, negb (address v =? a) = true) (validators s) in
  mkValidatorSet vs (sum_u128 (map stake vs)) (epoch s).

(** ** Specification vocabulary *)

Definition sumZ (l : list Z) : Z := foldr Z.add 0 l.

Record wf (s : ValidatorSet) : Prop := {
  set_wf_addresses : NoDup (map address (validators s));
  set_wf_size : Z.of_nat (length (validators s)) ≤ MAX_VALIDATORS;
  set_wf_stakes : Forall (λ v, fits u128_max (stake v)) (validators s);
  set_wf_total : total_stake s = sumZ (map stake (validators s));
  set_wf_range : total_stake s ≤ u128_max
}.

(** The operations that change the set. *)
Inductive SetOp : Type :=
  | AddValidator (v : Validator)
  | RegisterValidator (v : Validator)
  | SlashValidator (a : Address) (percentage : Z)
  | RemoveValidator (a : Address)
  | UpdateVrf (a : Address) (key : list Z)
  | UpdateFinalityKey (a : Address) (key : list Z).

Definition update_key (a : Address) (f : Validator → Validator) (s : ValidatorSet) : ValidatorSet :=
  mkValidatorSet (update_first a f (validators s)) (total_stake s) (epoch s).

Definition step (s : ValidatorSet) (o : SetOp) : ValidatorSet :=
  match o with
  | AddValidator v => (add_validator v s).2
  | RegisterValidator v => (register_validator v s).2
  | SlashValidator a p => (slash_validator a p s).2
  | RemoveValidator a => remove_validator a s
  | UpdateVrf a k => update_key a (set_vrf_public_key k) s
  | UpdateFinalityKey a k => update_key a (set_finality_public_key k) s
  end.

Definition op_fits (o : SetOp) : Prop :=
  match o with
  | AddValidator v | RegisterValidator v => fits u128_max (stake v)
  | SlashValidator _ p => fits u16_max p
  | _ => True
  end.

(** [n] slashes in a row, the amounts taken and the final validator. *)
Fixpoint slash_many (percentages : list Z) (v : Validator) : Z * Validator :=
  match percentages with
  | [] => (0, v)
  | p :: ps =>
      let '(r, v') := slash p v in
      let '(total, v'') := slash_many ps v' in
      (match r with Ok x => x + total | Err _ => total end, v'')
  end.

(** ** Lemmas on one validator *)

Lemma slash_spec p v :
  0 ≤ p → 0 ≤ stake v →
  (MAX_COMMISSION_RATE < p ∧ slash p v = (Err SlashTooLarge, v)) ∨
  ∃ x v', slash p v = (Ok x, v') ∧ 0 ≤ x ≤ stake v ∧ stake v' = stake v - x ∧
    address v' = address v ∧ slash_count v' = saturating_add u32_max (slash_count v) 1 ∧
    (stake v * p ≤ u128_max → x = stake v * p / 10000) ∧
    (3 ≤ slash_count v' → jailed v' = true ∧ active v' = false) ∧
    (slash_count v' < 3 → jailed v' = jailed v ∧ active v' = active v).
Proof.
  intros Hp Hs. unfold slash. destruct (Z.ltb_spec MAX_COMMISSION_RATE p) as [?|Hle]; [by left|right].
  unfold MAX_COMMISSION_RATE in Hle. unfold checked_mul.
  assert (Hdiv : 0 ≤ stake v * p / 10000 ≤ stake v).
  { split; [apply Z.div_pos; nia|]. apply Z.div_le_upper_bound; nia. }
  set (x := match (if stake v * p <=? u128_max then Some (stake v * p) else None) with
            | Some m => m / 10000 | None => 0 end).
  assert (Hx : 0 ≤ x ≤ stake v ∧ (stake v * p ≤ u128_max → x = stake v * p / 10000)).
  { unfold x. destruct (Z.leb_spec (stake v * p) u128_max); [done|]. split; [lia|lia]. }
  clearbody x. unfold checked_sub. destruct (Z.ltb_spec (stake v) x); [lia|].
  eexists x, _. split; [done|]. simpl.
  destruct (Z.leb_spec 3 (saturating_add u32_max (slash_count v) 1)); simpl; naive_solver lia.
Qed.

(** ** Lemmas on sets *)

Lemma sumZ_app l k : sumZ (l ++ k) = sumZ l + sumZ k.
Proof. induction l; simpl; lia. Qed.

Lemma sumZ_perm l k : l ≡ₚ k → sumZ l = sumZ k.
Proof. induction 1; simpl; lia. Qed.

Lemma sumZ_nonneg l : Forall (λ x, 0 ≤ x) l → 0 ≤ sumZ l.
Proof. induction 1; simpl; lia. Qed.

Lemma sum_u128_spec l :
  Forall (λ x, 0 ≤ x) l → sumZ l ≤ u128_max → sum_u128 l = sumZ l.
Proof.
  unfold sum_u128. intros Hl Hmax.
  assert (Hgen : ∀ acc, 0 ≤ acc → acc + sumZ l ≤ u128_max →
    foldl (wrapping_add u128_max) acc l = acc + sumZ l).
  { clear Hmax. induction Hl as [|x l Hx Hl IH]; intros acc Hacc Hsum; simpl in *; [lia|].
    pose proof (sumZ_nonneg l Hl). unfold wrapping_add at 2. rewrite Z.mod_small by lia.
    rewrite IH; lia. }
  rewrite Hgen; lia.
Qed.

Lemma stakes_nonneg vs :
  Forall (λ v, fits u128_max (stake v)) vs → Forall (λ x, 0 ≤ x) (map stake vs).
Proof. induction 1 as [|v vs [? ?] _ IH]; simpl; constructor; done. Qed.

Lemma get_validator_Some s a v :
  get_validator s a = Some v → v ∈ validators s ∧ address v = a.
Proof.
  unfold get_validator. intros [Hin Heq]%find_some. split; [by apply list_elem_of_In|].
  by apply Z.eqb_eq.
Qed.

Lemma update_first_addresses a f vs :
  (∀ v, address (f v) = address v ∨ address (f v) = a) →
  map address (update_first a f vs) = map address vs.
Proof.
  intros Hf. induction vs as [|v vs IH]; simpl; [done|].
  destruct (Z.eqb_spec (address v) a) as [<-|]; simpl; [|by rewrite IH].
  f_equal. destruct (Hf v); done.
Qed.

Lemma update_first_length a f vs : length (update_first a f vs) = length vs.
Proof. induction vs as [|v vs IH]; simpl; [done|]. case_match; simpl; auto. Qed.

Lemma update_first_Forall (P : Validator → Prop) a f vs :
  Forall P vs → (∀ v, P v → P (f v)) → Forall P (update_first a f vs).
Proof.
  intros HP Hf. induction HP as [|v vs Hv HP IH]; simpl; [constructor|].
  case_match; constructor; auto.
Qed.

(** Replacing the validator that [find] returns changes the sum by the change of
    its stake. *)
Lemma update_first_sum a f vs v :
  find (λ v, address v =? a) vs = Some v →
  sumZ (map stake (update_first a f vs)) = sumZ (map stake vs) - stake v + stake (f v).
Proof.
  induction vs as [|w vs IH]; simpl; [done|]. case_match; simpl; intros Hf.
  - injection Hf as <-. lia.
  - rewrite IH by done. lia.
Qed.

Lemma update_first_sum_same a f vs :
  (∀ v, stake (f v) = stake v) → sumZ (map stake (update_first a f vs)) = sumZ (map stake vs).
Proof.
  intros Hf. induction vs as [|w vs IH]; simpl; [done|]. case_match; simpl; rewrite ?Hf, ?IH; done.
Qed.

Lemma elem_stake_le vs v :
  Forall (λ x, 0 ≤ x) (map stake vs) → v ∈ vs → stake v ≤ sumZ (map stake vs).
Proof.
  induction vs as [|w vs IH]; simpl; intros Hpos Hin; [by apply not_elem_of_nil in Hin|].
  apply list.Forall_cons in Hpos as [Hw Hpos]. pose proof (sumZ_nonneg _ Hpos).
  apply elem_of_cons in Hin as [->|Hin]; [lia|]. specialize (IH Hpos Hin). lia.
Qed.

Lemma filter_sum_le (P : Validator → Prop) `{∀ v, Decision (P v)} vs :
  Forall (λ v, fits u128_max (stake v)) vs →
  sumZ (map stake (filter P vs)) ≤ sumZ (map stake vs).
Proof.
  induction 1 as [|v vs [? ?] Hvs IH]; [done|]. rewrite filter_cons. case_decide; simpl; lia.
Qed.

Lemma filter_addresses_NoDup (P : Validator → Prop) `{∀ v, Decision (P v)} vs :
  NoDup (map address vs) → NoDup (map address (filter P vs)).
Proof.
  induction vs as [|v vs IH]; [done|]. rewrite filter_cons. simpl.
  intros [Hv Hnd]%list.NoDup_cons. case_decide; simpl; [|by apply IH].
  apply list.NoDup_cons. split; [|by apply IH].
  intros (w & Hw & Hin)%list_elem_of_fmap. apply Hv. apply list_elem_of_fmap. exists w.
  split; [done|]. by apply list_elem_of_filter in Hin as [_ ?].
Qed.

Lemma existsb_address_false a vs :
  existsb (λ w, address w =? a) vs = false → a ∉ map address vs.
Proof.
  intros Hex (w & -> & Hin)%list_elem_of_fmap.
  assert (existsb (λ w0, address w0 =? address w) vs = true); [|congruence].
  apply existsb_exists. exists w. split; [by apply list_elem_of_In|apply Z.eqb_refl].
Qed.

Lemma set_wf_add v s : wf s → fits u128_max (stake v) → wf (add_validator v s).2.
Proof.
  intros [Hnd Hsz Hst Htot Hmax] Hv. unfold add_validator.
  destruct (Z.leb_spec MAX_VALIDATORS (Z.of_nat (length (validators s)))); [by split|].
  destruct (existsb _ _) eqn:Hex; [by split|].
  destruct (checked_add _ _ _) eqn:Hadd; [|by split]. reflect_hyps. subst.
  split; simpl.
  - rewrite map_app. apply list.NoDup_app. split_and!; [done| |apply NoDup_singleton].
    intros x Hx Hin%list_elem_of_singleton. subst x. by apply existsb_address_false in Hex.
  - rewrite length_app. simpl. lia.
  - apply list.Forall_app. split; [done|]. by apply list.Forall_singleton.
  - rewrite map_app, sumZ_app. simpl. lia.
  - lia.
Qed.

Lemma set_wf_slash a p s : wf s → 0 ≤ p → wf (slash_validator a p s).2.
Proof.
  intros Hwf Hp. unfold slash_validator. destruct (get_validator s a) as [v|] eqn:Hg; [|done].
  pose proof (get_validator_Some _ _ _ Hg) as [Hin Ha]. destruct Hwf as [Hnd Hsz Hst Htot Hmax].
  pose proof (proj1 (list.Forall_forall _ _) Hst v Hin) as [Hv0 Hvm].
  destruct (slash_spec p v Hp Hv0) as [[_ ->]|(x & v' & -> & Hx & Hst' & Ha' & _)]; [by split|].
  pose proof (elem_stake_le _ v (stakes_nonneg _ Hst) Hin).
  split; simpl.
  - rewrite update_first_addresses; [done|]. intros. right. congruence.
  - by rewrite update_first_length.
  - apply update_first_Forall; [done|]. intros _ _. unfold fits. lia.
  - rewrite (update_first_sum a _ _ v) by done. unfold checked_sub.
    destruct (Z.ltb_spec (total_stake s) x); simpl; lia.
  - unfold checked_sub. destruct (Z.ltb_spec (total_stake s) x); simpl; [done|lia].
Qed.

Lemma set_wf_remove a s : wf s → wf (remove_validator a s).
Proof.
  intros [Hnd Hsz Hst Htot Hmax]. unfold remove_validator.
  set (vs := filter _ _).
  assert (Hst' : Forall (λ v, fits u128_max (stake v)) vs) by 
    (apply list.Forall_forall; intros v [_ Hin]%list_elem_of_filter; by apply (proj1 (list.Forall_forall _ _) Hst)).
  assert (Hsum : sumZ (map stake vs) ≤ u128_max) by (etrans; [by apply filter_sum_le|lia]).
  split; simpl; rewrite ?sum_u128_spec by (done || by apply stakes_nonneg); try done.
  - by apply filter_addresses_NoDup.
  - pose proof (list.length_filter (λ v, negb (address v =? a) = true) (validators s)) as Hl. fold vs in Hl. lia.
Qed.

Lemma set_wf_update_key a f s :
  (∀ v, address (f v) = address v ∧ stake (f v) = stake v) → wf s → wf (update_key a f s).
Proof.
  intros Hf [Hnd Hsz Hst Htot Hmax]. split; simpl.
  - rewrite update_first_addresses; [done|]. intros v. left. apply Hf.
  - by rewrite update_first_length.
  - apply update_first_Forall; [done|]. intros v Hv. by rewrite (proj2 (Hf v)).
  - rewrite update_first_sum_same; [done|apply Hf].
  - done.
Qed.

Lemma set_wf_step s o : wf s → op_fits o → wf (step s o).
Proof.
  destruct o; simpl; intros Hwf Ho.
  - by apply set_wf_add.
  - unfold register_validator. repeat case_match; try done. by apply set_wf_add.
  - apply set_wf_slash; [done|apply Ho].
  - by apply set_wf_remove.
  - by apply set_wf_update_key.
  - by apply set_wf_update_key.
Qed.

Lemma set_wf_run s os : wf s → Forall op_fits os → wf (foldl step s os).
Proof.
  revert s. induction os as [|o os IH]; intros s Hwf Ho; simpl; [done|].
  apply list.Forall_cons in Ho as [? ?]. apply IH; [|done]. by apply set_wf_step.
Qed.

Lemma set_wf_empty : wf empty_set.
Proof. split; simpl; try done. constructor. Qed.

Lemma effective_stakes_bound vs :
  Forall (λ v, fits u128_max (stake v)) vs →
  Forall (λ x, 0 ≤ x) (map effective_stake vs) ∧
  sumZ (map effective_stake vs) ≤ sumZ (map stake vs) ∧
  sumZ (map effective_stake vs) =
    sumZ (map stake (filter (λ v, active v && negb (jailed v) = true) vs)).
Proof.
  induction 1 as [|v vs [? ?] Hvs [IH1 [IH2 IH3]]]; simpl; [done|]. rewrite filter_cons.
  assert (Hv : effective_stake v = if active v && negb (jailed v) then stake v else 0) by done.
  destruct (active v && negb (jailed v)); simpl;
    (split_and!; [constructor; [lia|done]|lia|lia]).
Qed.

Lemma slash_many_spec ps v :
  Forall (λ p, 0 ≤ p) ps → 0 ≤ stake v →
  let '(total, v') := slash_many ps v in
  0 ≤ total ∧ total + stake v' = stake v ∧ 0 ≤ stake v'.
Proof.
  intros Hps. revert v. induction Hps as [|p ps Hp Hps IH]; intros v Hv; simpl; [lia|].
  destruct (slash_spec p v Hp Hv) as [[_ ->]|(x & v' & -> & Hx & Hs & _)].
  - specialize (IH v Hv). destruct (slash_many ps v) as [total w]. simpl in *. lia.
  - specialize (IH v' ltac:(lia)). destruct (slash_many ps v') as [total w]. simpl in *. lia.
Qed.

(** ** Claims *)

(** C25. The validator set stays consistent.  After any sequence of additions,
    slashes, removals and key updates, refused ones included, addresses are
    distinct, at most [MAX_VALIDATORS] are listed, the recorded total stake is
    the exact sum of the stakes and fits a [u128], and the active stake is the sum
    over the active validators and at most the total. *)
Theorem validator_set_consistent os
    (Hops : Forall op_fits os) :
  let s := foldl step empty_set os in
  NoDup (map address (validators s)) ∧ Z.of_nat (length (validators s)) ≤ MAX_VALIDATORS ∧
  total_stake s = sumZ (map stake (validators s)) ∧ fits u128_max (total_stake s) ∧
  total_active_stake s = sumZ (map stake (active_validators s)) ∧
  total_active_stake s ≤ total_stake s.
Proof.
  intros s. destruct (set_wf_run empty_set os set_wf_empty Hops) as [Hnd Hsz Hst Htot Hmax].
  fold s in Hnd, Hsz, Hst, Htot, Hmax.
  destruct (effective_stakes_bound _ Hst) as (Hpos & Hle & Heq).
  unfold total_active_stake, active_validators.
  rewrite sum_u128_spec by (done || lia). split_and!; try done; [|lia].
  split; [|done]. rewrite Htot. by apply sumZ_nonneg, stakes_nonneg.
Qed.

Lemma validator_set_consistent_witness :
  let s := foldl step empty_set
    [AddValidator (mkValidator 1 [] [] 100 500 true false 0 0 []);
     AddValidator (mkValidator 2 [] [] 200 500 true false 2 0 []);
     AddValidator (mkValidator 1 [] [] 50 500 true false 0 0 []);
     SlashValidator 2 1000; SlashValidator 1 20000; RemoveValidator 7] in
  NoDup (map address (validators s)) ∧ Z.of_nat (length (validators s)) ≤ MAX_VALIDATORS ∧
  total_stake s = sumZ (map stake (validators s)) ∧ fits u128_max (total_stake s) ∧
  total_active_stake s = sumZ (map stake (active_validators s)) ∧
  total_active_stake s ≤ total_stake s.
Proof.
  apply validator_set_consistent. repeat constructor; vm_compute; discriminate.
Defined.

(** Slashing.  A slash of at most 100% takes exactly the percentage of the
    stake rounded down (when the product fits a [u128]), never more than the
    stake; the third and later ones jail and deactivate the validator; and any
    number of slashes together take at most the initial stake, what is taken and
    what is left adding up to it. *)
Theorem slash_bounded p ps v
    (Hp : 0 ≤ p ≤ MAX_COMMISSION_RATE) (Hfit : stake v * p ≤ u128_max)
    (Hv : fits u128_max (stake v)) (Hc : fits u32_max (slash_count v))
    (Hps : Forall (λ p, 0 ≤ p) ps) :
  let '(r, v') := slash p v in
  r = Ok (stake v * p / 10000) ∧ stake v' = stake v - stake v * p / 10000 ∧
  (2 ≤ slash_count v → jailed v' = true ∧ active v' = false) ∧
  (slash_count v < 2 → jailed v' = jailed v ∧ active v' = active v) ∧
  (slash_many (p :: ps) v).1 + stake (slash_many (p :: ps) v).2 = stake v ∧
  (slash_many (p :: ps) v).1 ≤ stake v.
Proof.
  destruct Hv as [Hv _]. pose proof (slash_many_spec (p :: ps) v ltac:(constructor; [lia|done]) Hv) as Hm.
  destruct (slash_many (p :: ps) v) as [total v''].
  destruct (slash_spec p v ltac:(lia) Hv) as [[? _]|(x & v' & -> & Hx & Hs & _ & Hsc & Hval & Hj & Hnj)]; [lia|].
  rewrite <- (Hval Hfit). unfold saturating_add, fits, u32_max in *.
  split_and!; try done; simpl; try lia; intros; [apply Hj|apply Hnj]; lia.
Qed.

Lemma slash_bounded_witness :
  let v := mkValidator 1 [] [] 1001 500 true false 2 0 [] in
  let '(r, v') := slash 500 v in
  r = Ok (stake v * 500 / 10000) ∧ stake v' = stake v - stake v * 500 / 10000 ∧
  (2 ≤ slash_count v → jailed v' = true ∧ active v' = false) ∧
  (slash_count v < 2 → jailed v' = jailed v ∧ active v' = active v) ∧
  (slash_many [500; 10000] v).1 + stake (slash_many [500; 10000] v).2 = stake v ∧
  (slash_many [500; 10000] v).1 ≤ stake v.
Proof.
  apply (slash_bounded 500 [10000]); try (vm_compute; split; discriminate).
  - vm_compute. discriminate.
  - repeat constructor; vm_compute; discriminate.
Defined.
