(* ===== verification/Transaction.v ===== *)
(** * Transactions

    Models [src/L1/src/types/transaction.rs]: the transaction record, the bytes
    that are signed and hashed, the timestamp window and the shard mapping.  The
    clock and SHA3-256 ([hash_data] of [src/L1/src/types/mod.rs]) are
    arguments. *)

From S2P Require Import Prelude Bytes.

(** The drift of a transaction's timestamp, in seconds. *)
Definition MAX_TIMESTAMP_DRIFT : Z := 30.

Inductive TransactionType : Type :=
  | Transfer | Stake | Unstake | StakeTransfer | ValidatorRegister | ValidatorExit
  | ContractCall | ContractDeploy.

#[export] Instance TransactionType_eq_dec : EqDecision TransactionType.
Proof. solve_decision. Defined.

Inductive VmKind : Type := Qvm | Evm.

#[export] Instance VmKind_eq_dec : EqDecision VmKind.
Proof. solve_decision. Defined.

(** [self.tx_type as u8], [self.vm_kind as u8]: the declaration order. *)
Definition type_byte (t : TransactionType) : Z :=
  match t with
  | Transfer => 0 | Stake => 1 | Unstake => 2 | StakeTransfer => 3 | ValidatorRegister => 4
  | ValidatorExit => 5 | ContractCall => 6 | ContractDeploy => 7
  end.

Definition vm_byte (k : VmKind) : Z := match k with Qvm => 0 | Evm => 1 end.

Record PriorityBoost : Type := mkBoost {
  locked_tokens : Z;
  lock_duration_blocks : Z
}.

Record Transaction : Type := mkTransaction {
  tx_type : TransactionType;
  from : Address;
  to : Address;
  amount : Z;
  nonce : Z;
  max_compute_units : Z;
  boost : option PriorityBoost;
  vm_kind : VmKind;
  data : list Z;
  shard_id : Z;
  timestamp : Z;
  signature : list Z;
  public_key : list Z;
  chain_id : Z
}.

Definition new_with_vm_kind (now : Z) (tx_type : TransactionType) (from to : Address)
    (amount nonce max_compute_units : Z) (boost : option PriorityBoost) (vm_kind : VmKind)
    (data : list Z) (shard_id : Z) : Transaction :=
  mkTransaction tx_type from to amount nonce max_compute_units boost vm_kind data shard_id now [] [] 1.

Definition new (now : Z) (tx_type : TransactionType) (from to : Address)
    (amount nonce max_compute_units : Z) (boost : option PriorityBoost)
    (data : list Z) (shard_id : Z) : Transaction :=
  new_with_vm_kind now tx_type from to amount nonce max_compute_units boost Qvm data shard_id.

(** The part of the message before [data] (114 bytes) and the part after it (18
    bytes). *)
Definition signing_head (tx : Transaction) : list Z :=
  [type_byte (tx_type tx)] ++ hash_bytes (from tx) ++ hash_bytes (to tx) ++
  le_bytes 16 (amount tx) ++ le_bytes 8 (nonce tx) ++ le_bytes 8 (max_compute_units tx) ++
  match boost tx with
  | Some b => le_bytes 8 (locked_tokens b) ++ le_bytes 8 (lock_duration_blocks b)
  | None => le_bytes 8 0 ++ le_bytes 8 0
  end ++
  [vm_byte (vm_kind tx)].

Definition signing_tail (tx : Transaction) : list Z :=
  le_bytes 2 (shard_id tx) ++ le_bytes 8 (timestamp tx) ++ le_bytes 8 (chain_id tx).

Definition signing_data (tx : Transaction) : list Z :=
  with_domain DOMAIN_TX (signing_head tx ++ data tx ++ signing_tail tx).

Definition hash (hash_data : list Z → Hash) (tx : Transaction) : Hash := hash_data (signing_data tx).

Definition set_signature_unchecked (sig pk : list Z) (tx : Transaction) : Transaction :=
  mkTransaction (tx_type tx) (from tx) (to tx) (amount tx) (nonce tx) (max_compute_units tx) (boost tx)
    (vm_kind tx) (data tx) (shard_id tx) (timestamp tx) sig pk (chain_id tx).

(** [set_signature], [verify] standing for [verify_ml_dsa_65_batch]. *)
Definition set_signature (verify : list Z → list Z → list Z → bool) (sig pk : list Z) (tx : Transaction)
    : Result () string * Transaction :=
  if verify pk (signing_data tx) sig then (Ok (), set_signature_unchecked sig pk tx)
  else (Err "Invalid signature", tx).

Definition validate_timestamp (tx : Transaction) (current_time : Z) : Result () string :=
  if wrapping_add u64_max current_time MAX_TIMESTAMP_DRIFT <? timestamp tx then
    Err "Transaction timestamp too far in future"
  else if wrapping_add u64_max (timestamp tx) MAX_TIMESTAMP_DRIFT <? current_time then
    Err "Transaction timestamp too old"
  else Ok ().

Definition boost_locked_tokens (tx : Transaction) : Z :=
  match boost tx with Some b => locked_tokens b | None => 0 end.

Definition balance_commitment (tx : Transaction) : option Z :=
  checked_add u128_max (amount tx) (boost_locked_tokens tx).

(** The first 8 bytes of the address as a little-endian number, modulo the
    number of shards ([num_shards = 0] panics). *)
Definition target_shard (address : Address) (num_shards : Z) : Z :=
  of_le_bytes (take 8 (hash_bytes address)) mod num_shards.

(** ** Signed transactions and receipts *)

Record SignedTransaction : Type := mkSigned {
  transaction : Transaction;
  tx_hash : Hash;
  tx_size : Z
}.

Inductive TransactionStatus (E : Type) : Type :=
  | Pending | Included | PreConfirmed | Finalized | Failed (e : E).
Arguments Pending {E}. Arguments Included {E}. Arguments PreConfirmed {E}.
Arguments Finalized {E}. Arguments Failed {E} e.

Record Log : Type := mkLog {
  log_address : Address;
  topics : list Hash;
  log_data : list Z
}.

(** ** Specification vocabulary *)

Definition boost_fits (b : option PriorityBoost) : Prop :=
  match b with
  | Some b => fits u64_max (locked_tokens b) ∧ fits u64_max (lock_duration_blocks b)
  | None => True
  end.

(** The integers of a transaction are within their Rust types. *)
Record in_range (tx : Transaction) : Prop := {
  tx_range_from : 0 ≤ from tx < 2 ^ 256;
  tx_range_to : 0 ≤ to tx < 2 ^ 256;
  tx_range_amount : fits u128_max (amount tx);
  tx_range_nonce : fits u64_max (nonce tx);
  tx_range_cu : fits u64_max (max_compute_units tx);
  tx_range_boost : boost_fits (boost tx);
  tx_range_shard : fits u16_max (shard_id tx);
  tx_range_time : fits u64_max (timestamp tx);
  tx_range_chain : fits u64_max (chain_id tx)
}.

(** The two numbers of a boost; no boost counts as two zeros. *)
Definition boost_pair (b : option PriorityBoost) : Z * Z :=
  match b with Some b => (locked_tokens b, lock_duration_blocks b) | None => (0, 0) end.

(** Two transactions agree on everything a signature should cover. *)
Definition same_signed_fields (t1 t2 : Transaction) : Prop :=
  tx_type t1 = tx_type t2 ∧ from t1 = from t2 ∧ to t1 = to t2 ∧ amount t1 = amount t2 ∧
  nonce t1 = nonce t2 ∧ max_compute_units t1 = max_compute_units t2 ∧
  boost_pair (boost t1) = boost_pair (boost t2) ∧ vm_kind t1 = vm_kind t2 ∧
  data t1 = data t2 ∧ shard_id t1 = shard_id t2 ∧ timestamp t1 = timestamp t2 ∧
  chain_id t1 = chain_id t2.

(** ** Lemmas *)

Lemma boost_bytes b :
  match b with
  | Some b => le_bytes 8 (locked_tokens b) ++ le_bytes 8 (lock_duration_blocks b)
  | None => le_bytes 8 0 ++ le_bytes 8 0
  end = le_bytes 8 (boost_pair b).1 ++ le_bytes 8 (boost_pair b).2.
Proof. by destruct b. Qed.

Lemma boost_pair_fits b : boost_fits b → fits u64_max (boost_pair b).1 ∧ fits u64_max (boost_pair b).2.
Proof. by destruct b. Qed.

Lemma signing_head_length tx : length (signing_head tx) = 114%nat.
Proof.
  unfold signing_head, hash_bytes. rewrite boost_bytes, !length_app, !be_bytes_length, !le_bytes_length.
  done.
Qed.

Lemma signing_tail_length tx : length (signing_tail tx) = 18%nat.
Proof. unfold signing_tail. rewrite !length_app, !le_bytes_length. done. Qed.

Lemma type_byte_inj t1 t2 : type_byte t1 = type_byte t2 → t1 = t2.
Proof. by destruct t1, t2. Qed.

Lemma vm_byte_inj k1 k2 : vm_byte k1 = vm_byte k2 → k1 = k2.
Proof. by destruct k1, k2. Qed.

Lemma signing_head_inj t1 t2 :
  in_range t1 → in_range t2 → signing_head t1 = signing_head t2 →
  tx_type t1 = tx_type t2 ∧ from t1 = from t2 ∧ to t1 = to t2 ∧ amount t1 = amount t2 ∧
  nonce t1 = nonce t2 ∧ max_compute_units t1 = max_compute_units t2 ∧
  boost_pair (boost t1) = boost_pair (boost t2) ∧ vm_kind t1 = vm_kind t2.
Proof.
  intros H1 H2 Heq. unfold signing_head in Heq. rewrite !boost_bytes, <- !app_assoc in Heq.
  apply (app_fixed_inj 1) in Heq as [Hty Heq]; [|done..]. injection Hty as Hty%type_byte_inj.
  apply hash_app_inj in Heq as [Hfrom Heq]; [|apply H1|apply H2].
  apply hash_app_inj in Heq as [Hto Heq]; [|apply H1|apply H2].
  destruct H1 as [_ _ [? ?] [? ?] [? ?] [[? ?] [? ?]]%boost_pair_fits _ _ _].
  destruct H2 as [_ _ [? ?] [? ?] [? ?] [[? ?] [? ?]]%boost_pair_fits _ _ _].
  unfold u128_max, u64_max in *.
  do 5 (apply le_app_inj in Heq as [? Heq]; [|lia..]).
  injection Heq as Hvm%vm_byte_inj.
  split_and!; try done. by apply injective_projections.
Qed.

Lemma signing_tail_inj t1 t2 :
  in_range t1 → in_range t2 → signing_tail t1 = signing_tail t2 →
  shard_id t1 = shard_id t2 ∧ timestamp t1 = timestamp t2 ∧ chain_id t1 = chain_id t2.
Proof.
  intros [_ _ _ _ _ _ [? ?] [? ?] [? ?]] [_ _ _ _ _ _ [? ?] [? ?] [? ?]] Heq.
  unfold signing_tail, u64_max, u16_max in *.
  do 2 (apply le_app_inj in Heq as [? Heq]; [|lia..]).
  split_and!; try done. apply (le_bytes_inj 8); done || lia.
Qed.

Lemma same_fields_signing_data t1 t2 : same_signed_fields t1 t2 → signing_data t1 = signing_data t2.
Proof.
  intros (Ety & Efr & Eto & Eam & Eno & Ecu & Ebo & Evm & Eda & Esh & Eti & Ech).
  unfold signing_data, signing_head, signing_tail. rewrite !boost_bytes, Ety, Efr, Eto, Eam, Eno, Ecu.
  by rewrite Ebo, Evm, Eda, Esh, Eti, Ech.
Qed.

(** ** Claims *)

(** C24. A signature covers the whole transaction but for one ambiguity.  Two transactions with fields
    of their widths have the same signed message exactly when they agree on every field but the signature,
    the public key and the boost, and their boosts agree or one is absent and the other a boost
    of two zeros ([boost_pair]): the code writes an absent boost as two zeros.  Otherwise no field can
    be altered, and no byte moved between [data] and its neighbours, without changing the
    message. *)
Theorem signing_data_covers_fields t1 t2
    (H1 : in_range t1) (H2 : in_range t2) :
  signing_data t1 = signing_data t2 ↔ same_signed_fields t1 t2.
Proof.
  split; [|apply same_fields_signing_data]. unfold signing_data. intros Heq%with_domain_inj.
  apply (app_fixed_inj 114) in Heq as [Hh Heq]; try apply signing_head_length.
  apply app_inj_2 in Heq as [Hd Ht]; [|by rewrite !signing_tail_length].
  pose proof (signing_head_inj t1 t2 H1 H2 Hh). pose proof (signing_tail_inj t1 t2 H1 H2 Ht).
  unfold same_signed_fields. destruct_and?. split_and!; done.
Qed.

Lemma signing_data_covers_fields_witness :
  let t1 := new 1700000000 Transfer 1 2 500 7 100000 None [1; 2; 3] 0 in
  let t2 := new 1700000000 Transfer 1 2 500 7 100000 (Some (mkBoost 0 0)) [1; 2; 3] 0 in
  signing_data t1 = signing_data t2 ↔ same_signed_fields t1 t2.
Proof.
  apply signing_data_covers_fields; split; try (vm_compute; done || split; done).
Defined.

(** No boost and a boost of nothing are different transactions with the same signed message. *)
Theorem absent_boost_ambiguous ts ty a b amt n cu d sh :
  let t1 := new ts ty a b amt n cu None d sh in let t2 := new ts ty a b amt n cu (Some (mkBoost 0 0)) d sh in
  signing_data t1 = signing_data t2 ∧ t1 ≠ t2.
Proof. split; [done|]. intros [=]. Qed.
