(* ===== verification/VerifyCache.v ===== *)
(** * The signature verification cache

    Models [VerifyCache] of [src/L1/src/crypto/precomputed.rs] and
    [verify_ml_dsa_65] of [src/L1/src/crypto/ml_dsa.rs], through which every
    signature of the node is checked.  The LRU map (crate [lru]), SHA3-256 and the
    ML-DSA-65 primitive (crate [pqcrypto_mldsa]) are not part of the repository:
    the map is the interface [LruCache] with its documented laws [LruLaws], the
    hash and the primitive are arguments. *)

From S2P Require Import Prelude Bytes Transaction.

Definition MLDSA65_PUBLIC_KEY_SIZE : Z := 1952.
Definition MLDSA65_SIGNATURE_SIZE : Z := 3309.

(** ** The LRU map *)

(** [LruCache<Vec<u8>, bool>]: [get] also marks the entry as recently used, [put]
    may evict another entry. *)
Class LruCache (C : Type) : Type := {
  lru_new : Z → C;
  lru_get : list Z → C → option bool * C;
  lru_put : list Z → bool → C → C
}.

Definition lru_lookup `{LruCache C} (c : C) (k : list Z) : option bool := (lru_get k c).1.

Class LruLaws (C : Type) `{LruCache C} : Prop := {
  lru_lookup_new : ∀ n k, lru_lookup (lru_new n : C) k = None;
  lru_lookup_get : ∀ (c : C) k k', lru_lookup (lru_get k c).2 k' = lru_lookup c k';
  lru_lookup_put : ∀ (c : C) k v, lru_lookup (lru_put k v c) k = Some v;
  lru_lookup_put_ne : ∀ (c : C) k v k', k ≠ k' →
    lru_lookup (lru_put k v c) k' = None ∨ lru_lookup (lru_put k v c) k' = lru_lookup c k'
}.

(** ** The cache and the verification function *)

Section Verify.
Context `{LruCache C}.
(** SHA3-256 of a byte string, as bytes. *)
Context (sha3 : list Z → list Z).
(** [PublicKey::from_bytes], [DetachedSignature::from_bytes] succeed, and
    [verify_detached_signature] accepts. *)
Context (pk_from_bytes sig_from_bytes : list Z → bool).
Context (verify_detached : list Z → list Z → list Z → bool).

(** [VerifyCache::get_or_compute] *)
Definition get_or_compute (key : list Z) (compute : bool) (c : C) : bool * C :=
  match lru_get key c with
  | (Some v, c') => (v, c')
  | (None, c') => (compute, lru_put key compute c')
  end.

(** The closure passed to the cache. *)
Definition check_signature (public_key message signature : list Z) : bool :=
  if pk_from_bytes public_key then
    if sig_from_bytes signature then verify_detached signature message public_key
    else false
  else false.

Definition cache_key (public_key message signature : list Z) : list Z :=
  sha3 (public_key ++ message ++ signature).

Definition verify_ml_dsa_65 (public_key message signature : list Z) (c : C) : bool * C :=
  get_or_compute (cache_key public_key message signature)
    (check_signature public_key message signature) c.

(** A sequence of verifications sharing the cache, and their answers. *)
Fixpoint verify_all (queries : list (list Z * list Z * list Z)) (c : C) : list bool * C :=
  match queries with
  | [] => ([], c)
  | (pk, msg, sig) :: qs =>
      let '(r, c') := verify_ml_dsa_65 pk msg sig c in
      let '(rs, c'') := verify_all qs c' in
      (r :: rs, c'')
  end.

(** ** Specification vocabulary *)

Definition query_bytes (q : list Z * list Z * list Z) : list Z := let '(pk, msg, sig) := q in pk ++ msg ++ sig.
Definition query_key (q : list Z * list Z * list Z) : list Z := sha3 (query_bytes q).
Definition query_answer (q : list Z * list Z * list Z) : bool :=
  let '(pk, msg, sig) := q in check_signature pk msg sig.
(** Keys and signatures of the sizes the scheme prescribes. *)
Definition query_sized (q : list Z * list Z * list Z) : Prop :=
  let '(pk, msg, sig) := q in
  Z.of_nat (length pk) = MLDSA65_PUBLIC_KEY_SIZE ∧ Z.of_nat (length sig) = MLDSA65_SIGNATURE_SIZE.

(** Every entry of the cache is the answer of each query of [qs] with its key. *)
Definition cache_agrees (qs : list (list Z * list Z * list Z)) (c : C) : Prop :=
  ∀ q v, q ∈ qs → lru_lookup c (query_key q) = Some v → v = query_answer q.

(** ** Lemmas *)

Lemma sized_queries_determined q1 q2 :
  query_sized q1 → query_sized q2 → query_bytes q1 = query_bytes q2 → q1 = q2.
Proof.
  destruct q1 as [[pk1 msg1] sig1], q2 as [[pk2 msg2] sig2]. simpl. intros [Hp1 Hs1] [Hp2 Hs2] Heq.
  apply app_inj_1 in Heq as [-> Heq]; [|lia]. apply app_inj_2 in Heq as [-> ->]; [done|lia].
Qed.

Context `{!LruLaws C}.

Lemma verify_step qs c q :
  Forall query_sized qs →
  (∀ q1 q2, q1 ∈ qs → q2 ∈ qs → query_key q1 = query_key q2 → query_bytes q1 = query_bytes q2) →
  q ∈ qs → cache_agrees qs c →
  let '(pk, msg, sig) := q in
  (verify_ml_dsa_65 pk msg sig c).1 = query_answer q ∧
  cache_agrees qs (verify_ml_dsa_65 pk msg sig c).2.
Proof.
  intros Hsz Hinj Hq Hc. rewrite list.Forall_forall in Hsz.
  assert (Hdet : ∀ q', q' ∈ qs → query_key q = query_key q' → q' = q).
  { intros q' Hq' Hk. apply sized_queries_determined; [by apply Hsz..|]. symmetry. by apply Hinj. }
  destruct q as [[pk msg] sig]. unfold verify_ml_dsa_65, get_or_compute.
  change (cache_key pk msg sig) with (query_key (pk, msg, sig)).
  pose proof (lru_lookup_get c (query_key (pk, msg, sig))) as Hget.
  destruct (lru_get (query_key (pk, msg, sig)) c) as [[v|] c'] eqn:Hg; simpl in *.
  - assert (Hv : lru_lookup c (query_key (pk, msg, sig)) = Some v) by (unfold lru_lookup; by rewrite Hg).
    split; [by apply (Hc (pk, msg, sig))|]. intros q' w Hq'. rewrite Hget. by apply Hc.
  - split; [done|]. intros q' w Hq' Hl.
    destruct (decide (query_key (pk, msg, sig) = query_key q')) as [Hk|Hk].
    + rewrite <- Hk, lru_lookup_put in Hl. rewrite (Hdet q') by done. naive_solver.
    + destruct (lru_lookup_put_ne c' _ (check_signature pk msg sig) _ Hk) as [Hn|Hn]; [congruence|].
      rewrite Hn, Hget in Hl. by apply Hc.
Qed.

Lemma verify_all_spec qs queries c :
  Forall query_sized qs →
  (∀ q1 q2, q1 ∈ qs → q2 ∈ qs → query_key q1 = query_key q2 → query_bytes q1 = query_bytes q2) →
  (∀ q, q ∈ queries → q ∈ qs) → cache_agrees qs c →
  (verify_all queries c).1 = map query_answer queries.
Proof.
  intros Hsz Hinj. revert c. induction queries as [|q queries IH]; intros c Hsub Hc; simpl; [done|].
  pose proof (verify_step qs c q Hsz Hinj (Hsub q (list_elem_of_here _ _)) Hc) as Hstep.
  destruct q as [[pk msg] sig]. destruct (verify_ml_dsa_65 pk msg sig c) as [r c'].
  destruct Hstep as [Hr Hc']. simpl in Hr.
  specialize (IH c' (λ q Hq, Hsub q (list_elem_of_further _ _ _ Hq)) Hc').
  destruct (verify_all queries c') as [rs c'']. simpl in *. by rewrite Hr, IH.
Qed.

(** What is cached for one split of a byte string answers for every other. *)
Lemma verify_same_bytes c pk msg sig pk' msg' sig' :
  lru_lookup c (cache_key pk msg sig) = None →
  pk ++ msg ++ sig = pk' ++ msg' ++ sig' →
  (verify_ml_dsa_65 pk' msg' sig' (verify_ml_dsa_65 pk msg sig c).2).1 = check_signature pk msg sig.
Proof.
  intros Hnone Heq. unfold verify_ml_dsa_65, get_or_compute.
  assert (cache_key pk' msg' sig' = cache_key pk msg sig) as -> by (unfold cache_key; by rewrite Heq).
  unfold lru_lookup in Hnone. destruct (lru_get (cache_key pk msg sig) c) as [o c']. simpl in Hnone.
  subst o. simpl. pose proof (lru_lookup_put c' (cache_key pk msg sig) (check_signature pk msg sig)) as Hput.
  unfold lru_lookup in Hput. destruct (lru_get _ _) as [o c'']. simpl in Hput. by subst o.
Qed.
End Verify.

(** ** A transaction altered without its signer

    The tail of the signed message becomes part of [data], and the first 18 bytes
    of the signature become the new tail. *)
Definition grafted (tx : Transaction) : Transaction :=
  let t := take 18 (signature tx) in
  mkTransaction (tx_type tx) (from tx) (to tx) (amount tx) (nonce tx) (max_compute_units tx) (boost tx)
    (vm_kind tx) (data tx ++ signing_tail tx)
    (of_le_bytes (take 2 t)) (of_le_bytes (take 8 (drop 2 t)))
    (drop 18 (signature tx)) (public_key tx) (of_le_bytes (drop 10 t)).

(** ** An instance of the LRU interface *)

Record ListLru : Type := mkListLru {
  slots : nat;
  entries : list (list Z * bool)
}.

Fixpoint assoc_lookup (k : list Z) (l : list (list Z * bool)) : option bool :=
  match l with
  | [] => None
  | (k', v) :: l' => if decide (k' = k) then Some v else assoc_lookup k l'
  end.

(** Most recent first; there is always at least one slot. *)
Definition list_put (k : list Z) (v : bool) (c : ListLru) : ListLru :=
  mkListLru (slots c) (take (S (slots c)) ((k, v) :: filter (λ e, e.1 ≠ k) (entries c))).

Definition list_get (k : list Z) (c : ListLru) : option bool * ListLru :=
  match assoc_lookup k (entries c) with
  | Some v => (Some v, mkListLru (slots c) ((k, v) :: filter (λ e, e.1 ≠ k) (entries c)))
  | None => (None, c)
  end.

#[export] Instance ListLru_cache : LruCache ListLru := {
  lru_new n := mkListLru (Z.to_nat n - 1) [];
  lru_get := list_get;
  lru_put := list_put
}.

Lemma assoc_lookup_filter_ne k k' l :
  k ≠ k' → assoc_lookup k' (filter (λ e, e.1 ≠ k) l) = assoc_lookup k' l.
Proof.
  intros Hne. induction l as [|[k0 v] l IH]; [done|]. rewrite filter_cons. simpl.
  repeat case_decide; simpl in *; rewrite ?decide_True, ?decide_False by done; naive_solver.
Qed.

Lemma assoc_lookup_take n k l :
  assoc_lookup k (take n l) = None ∨ assoc_lookup k (take n l) = assoc_lookup k l.
Proof.
  revert n. induction l as [|[k0 v] l IH]; intros [|n]; simpl; auto. case_decide; auto.
Qed.

Lemma list_lookup_eq c k : lru_lookup c k = assoc_lookup k (entries c).
Proof. unfold lru_lookup. simpl. unfold list_get. by destruct (assoc_lookup k (entries c)). Qed.

#[export] Instance ListLru_laws : LruLaws ListLru.
Proof.
  split; intros; rewrite ?list_lookup_eq; simpl; try done.
  - unfold list_get. destruct (assoc_lookup k (entries c)) as [v|] eqn:Hk; [|done]. simpl.
    case_decide; [by subst|]. by apply assoc_lookup_filter_ne.
  - by rewrite decide_True.
  - rewrite decide_False by done. rewrite <- (assoc_lookup_filter_ne k k' (entries c)) by done.
    apply assoc_lookup_take.
Qed.

(** ** Lemmas on grafted transactions *)

Lemma grafted_bytes tx :
  Forall byte (signature tx) → (18 ≤ length (signature tx))%nat →
  signing_data (grafted tx) ++ signature (grafted tx) = signing_data tx ++ signature tx.
Proof.
  intros Hb Hlen. unfold signing_data, with_domain.
  change (signing_head (grafted tx)) with (signing_head tx).
  change (data (grafted tx)) with (data tx ++ signing_tail tx).
  assert (Htail : signing_tail (grafted tx) = take 18 (signature tx)).
  { set (t := take 18 (signature tx)).
    assert (Hbt : Forall byte t) by (by apply Forall_take).
    assert (Hlt : length t = 18%nat) by (unfold t; rewrite length_take; lia).
    unfold signing_tail. change (shard_id (grafted tx)) with (of_le_bytes (take 2 t)).
    change (timestamp (grafted tx)) with (of_le_bytes (take 8 (drop 2 t))).
    change (chain_id (grafted tx)) with (of_le_bytes (drop 10 t)).
    rewrite (le_of_le_bytes_n 2) by (rewrite ?length_take; lia || by apply Forall_take).
    rewrite (le_of_le_bytes_n 8 (take 8 _))
      by (rewrite ?length_take, ?length_drop; lia || by apply Forall_take, Forall_drop).
    rewrite (le_of_le_bytes_n 8) by (rewrite ?length_drop; lia || by apply Forall_drop).
    change 10%nat with (2 + 8)%nat. rewrite <- drop_drop, take_drop. apply take_drop. }
  rewrite Htail. change (signature (grafted tx)) with (drop 18 (signature tx)).
  rewrite <- !app_assoc. rewrite take_drop. done.
Qed.

Lemma grafted_in_range tx : in_range tx → Forall byte (signature tx) → in_range (grafted tx).
Proof.
  intros Hr Hb. set (t := take 18 (signature tx)).
  assert (Hbt : Forall byte t) by (by apply Forall_take).
  assert (Hle : ∀ n bs, Forall byte bs → (length bs ≤ n)%nat → 0 ≤ of_le_bytes bs < 256 ^ Z.of_nat n).
  { intros n bs Hbs Hl. pose proof (of_le_bytes_range bs Hbs).
    pose proof (Z.pow_le_mono_r 256 (Z.of_nat (length bs)) (Z.of_nat n)). lia. }
  assert (Hlt : (length t ≤ 18)%nat) by (unfold t; rewrite length_take; lia).
  pose proof (Hle 2%nat (take 2 t) ltac:(by apply Forall_take) ltac:(rewrite length_take; lia)).
  pose proof (Hle 8%nat (take 8 (drop 2 t)) ltac:(by apply Forall_take, Forall_drop)
    ltac:(rewrite length_take; lia)).
  pose proof (Hle 8%nat (drop 10 t) ltac:(by apply Forall_drop) ltac:(rewrite length_drop; lia)).
  destruct Hr. split; simpl; try done; fold t; unfold fits, u16_max, u64_max; lia.
Qed.

(** ** Claims *)

(** The cache is transparent for well-sized input.  Whatever sequence of
    verifications shares the cache, evictions included, each answer is the one the
    ML-DSA-65 check would give, provided every public key and signature has the
    size of the scheme and SHA3 does not collide on the byte strings hashed. *)
Theorem cached_verification_correct {C} `{LruLaws C} (sha3 : list Z → list Z)
    pk_from_bytes sig_from_bytes verify_detached capacity qs
    (Hsz : Forall query_sized qs)
    (Hinj : ∀ q1 q2, q1 ∈ qs → q2 ∈ qs →
       query_key sha3 q1 = query_key sha3 q2 → query_bytes q1 = query_bytes q2) :
  (verify_all sha3 pk_from_bytes sig_from_bytes verify_detached qs (lru_new capacity : C)).1 =
    map (query_answer pk_from_bytes sig_from_bytes verify_detached) qs.
Proof.
  apply (verify_all_spec _ _ _ _ qs); try done.
  intros q v _. by rewrite lru_lookup_new.
Qed.

Lemma cached_verification_correct_witness :
  let sized := (λ l : list Z, (length l =? 1952)%nat) in
  let check := (λ sig msg pk : list Z, bool_decide (head sig = head pk)) in
  let q1 := (replicate 1952 1, [5; 6], replicate 3309 1) in
  let q2 := (replicate 1952 2, [5; 6], replicate 3309 1) in
  (verify_all id sized (λ _, true) check [q1; q2; q1] (lru_new 2 : ListLru)).1 =
    map (query_answer sized (λ _, true) check) [q1; q2; q1].
Proof.
  apply cached_verification_correct; [repeat constructor|].
  intros q1 q2 _ _ Heq. exact Heq.
Defined.

(** A verified transaction lets anyone pass an altered one.  The cache key
    hashes public key, message and signature without their lengths, and the
    lengths are checked only when the key is not cached.  Once a correctly signed
    transaction has been verified, the transaction with its signed tail moved into
    [data], shard, timestamp and chain taken from the first 18 signature bytes,
    and the rest of the signature as signature, passes verification for the same
    signer, although the ML-DSA-65 check itself would reject it and no one signed
    it; it differs from the original in [data] and has the same sender, recipient,
    amount and nonce. *)
Theorem verify_cache_forgery {C} `{LruLaws C} (sha3 : list Z → list Z)
    pk_from_bytes sig_from_bytes verify_detached (c : C) tx
    (Hsigsize : ∀ s, sig_from_bytes s = true → Z.of_nat (length s) = MLDSA65_SIGNATURE_SIZE)
    (Hrange : in_range tx) (Hbytes : Forall byte (signature tx))
    (Hvalid : check_signature pk_from_bytes sig_from_bytes verify_detached
                (public_key tx) (signing_data tx) (signature tx) = true)
    (Hfresh : lru_lookup c (cache_key sha3 (public_key tx) (signing_data tx) (signature tx)) = None) :
  let verify := verify_ml_dsa_65 sha3 pk_from_bytes sig_from_bytes verify_detached in
  let '(r, c') := verify (public_key tx) (signing_data tx) (signature tx) c in
  let tx' := grafted tx in
  r = true ∧ (verify (public_key tx') (signing_data tx') (signature tx') c').1 = true ∧
  check_signature pk_from_bytes sig_from_bytes verify_detached
    (public_key tx') (signing_data tx') (signature tx') = false ∧
  in_range tx' ∧ from tx' = from tx ∧ to tx' = to tx ∧ amount tx' = amount tx ∧ nonce tx' = nonce tx ∧
  data tx' ≠ data tx.
Proof.
  cbv zeta. pose proof Hvalid as Hv. unfold check_signature in Hv.
  destruct (pk_from_bytes (public_key tx)) eqn:Hpk; [|done].
  destruct (sig_from_bytes (signature tx)) eqn:Hsig; [|done].
  pose proof (Hsigsize _ Hsig) as Hlen. unfold MLDSA65_SIGNATURE_SIZE in Hlen.
  pose proof (grafted_bytes tx Hbytes ltac:(lia)) as Hgb.
  pose proof (verify_same_bytes sha3 pk_from_bytes sig_from_bytes verify_detached c
    (public_key tx) (signing_data tx) (signature tx) (public_key (grafted tx))
    (signing_data (grafted tx)) (signature (grafted tx)) Hfresh ltac:(by rewrite Hgb)) as Hsame.
  rewrite Hvalid in Hsame.
  set (verify := verify_ml_dsa_65 sha3 pk_from_bytes sig_from_bytes verify_detached) in *.
  assert (Hr : (verify (public_key tx) (signing_data tx) (signature tx) c).1 = true).
  { unfold verify, verify_ml_dsa_65, get_or_compute. unfold lru_lookup in Hfresh.
    destruct (lru_get _ c) as [o c1]. simpl in Hfresh. subst o. exact Hvalid. }
  destruct (verify (public_key tx) (signing_data tx) (signature tx) c) as [r c']. simpl in Hr, Hsame.
  split_and!; try done.
  - unfold check_signature. destruct (pk_from_bytes _); [|done].
    destruct (sig_from_bytes (signature (grafted tx))) eqn:Hs'; [|done].
    apply Hsigsize in Hs'. simpl in Hs'. rewrite length_drop in Hs'. unfold MLDSA65_SIGNATURE_SIZE in Hs'. lia.
  - by apply grafted_in_range.
  - simpl. intros Heq%(f_equal length). rewrite length_app, signing_tail_length in Heq. lia.
Qed.

Lemma verify_cache_forgery_witness :
  let sized := (λ l : list Z, Z.of_nat (length l) =? MLDSA65_SIGNATURE_SIZE) in
  let check := (λ sig msg pk : list Z, bool_decide (head sig = head pk)) in
  let tx := set_signature_unchecked (replicate 3309 9) [9]
              (new 1700000000 ContractCall 1 2 500 7 100000 None [1; 2; 3] 0) in
  let verify := verify_ml_dsa_65 id (λ _, true) sized check in
  let '(r, c') := verify (public_key tx) (signing_data tx) (signature tx) (lru_new 10 : ListLru) in
  let tx' := grafted tx in
  r = true ∧ (verify (public_key tx') (signing_data tx') (signature tx') c').1 = true ∧
  check_signature (λ _, true) sized check
    (public_key tx') (signing_data tx') (signature tx') = false ∧
  in_range tx' ∧ from tx' = from tx ∧ to tx' = to tx ∧ amount tx' = amount tx ∧ nonce tx' = nonce tx ∧
  data tx' ≠ data tx.
Proof.
  apply verify_cache_forgery.
  - intros s Hs. apply Z.eqb_eq. exact Hs.
  - split; vm_compute; done || split; done.
  - apply Forall_replicate. split; [discriminate|reflexivity].
  - vm_compute. reflexivity.
  - vm_compute. reflexivity.
Defined.
