(* ===== verification/Vertex.v ===== *)
(** * DAG vertices and committee votes

    Models [src/L1/src/types/vertex.rs]: the vertex record, the bytes its hash
    covers, its votes and their weight.  The clock and SHA3-256 are arguments. *)

From S2P Require Import Prelude Bytes Transaction.

Definition MAX_TRANSACTIONS_PER_VERTEX : Z := 10000.
Definition MAX_VOTES_PER_VERTEX : Z := 1000.
(** The drift of a vertex's timestamp, in seconds. *)
Definition MAX_VERTEX_DRIFT : Z := 300.

Inductive VertexStatus : Type := VPending | VPreConfirmed | VConfirmed | VFinalized | VOrphaned.

#[export] Instance VertexStatus_eq_dec : EqDecision VertexStatus.
Proof. solve_decision. Defined.

Record CommitteeVote : Type := mkVote {
  validator : Address;
  vertex_hash : Hash;
  approve : bool;
  stake_weight : Z;
  vote_signature : list Z;
  vote_timestamp : Z
}.

Record DAGVertex : Type := mkVertex {
  vhash : Hash;
  parents : list Hash;
  transactions : list SignedTransaction;
  vtimestamp : Z;
  vshard_id : Z;
  creator : Address;
  vsignature : list Z;
  weight : Z;
  height : Z;
  status : VertexStatus;
  committee_votes : list CommitteeVote;
  state_root : Hash
}.

(** The bytes that [compute_hash] feeds to [hash_data]. *)
Definition hash_preimage (v : DAGVertex) : list Z :=
  concat (map hash_bytes (parents v)) ++
  concat (map (λ tx, hash_bytes (tx_hash tx)) (transactions v)) ++
  le_bytes 8 (vtimestamp v) ++ le_bytes 2 (vshard_id v) ++ hash_bytes (creator v) ++
  le_bytes 8 (height v).

Definition compute_hash (hash_data : list Z → Hash) (v : DAGVertex) : Hash := hash_data (hash_preimage v).

Definition set_vhash (h : Hash) (v : DAGVertex) : DAGVertex :=
  mkVertex h (parents v) (transactions v) (vtimestamp v) (vshard_id v) (creator v) (vsignature v)
    (weight v) (height v) (status v) (committee_votes v) (state_root v).
Definition set_votes (votes : list CommitteeVote) (w : Z) (v : DAGVertex) : DAGVertex :=
  mkVertex (vhash v) (parents v) (transactions v) (vtimestamp v) (vshard_id v) (creator v) (vsignature v)
    w (height v) (status v) votes (state_root v).
Definition set_status (s : VertexStatus) (v : DAGVertex) : DAGVertex :=
  mkVertex (vhash v) (parents v) (transactions v) (vtimestamp v) (vshard_id v) (creator v) (vsignature v)
    (weight v) (height v) s (committee_votes v) (state_root v).
Definition set_signature_unchecked (s : list Z) (v : DAGVertex) : DAGVertex :=
  mkVertex (vhash v) (parents v) (transactions v) (vtimestamp v) (vshard_id v) (creator v) s
    (weight v) (height v) (status v) (committee_votes v) (state_root v).
Definition set_state_root (r : Hash) (v : DAGVertex) : DAGVertex :=
  mkVertex (vhash v) (parents v) (transactions v) (vtimestamp v) (vshard_id v) (creator v) (vsignature v)
    (weight v) (height v) (status v) (committee_votes v) r.

Definition new (hash_data : list Z → Hash) (now : Z) (parents : list Hash)
    (transactions : list SignedTransaction) (shard_id : Z) (creator : Address) (height : Z)
    : Result DAGVertex string :=
  if MAX_TRANSACTIONS_PER_VERTEX <? Z.of_nat (length transactions) then Err "Too many transactions"
  else
    let vertex := mkVertex 0 parents transactions now shard_id creator [] 0 height VPending [] 0 in
    Ok (set_vhash (compute_hash hash_data vertex) vertex).

Definition signing_data (v : DAGVertex) : list Z :=
  with_domain DOMAIN_VERTEX (hash_bytes (vhash v) ++ hash_bytes (state_root v)).

Definition set_signature (verify : list Z → list Z → list Z → bool) (sig pk : list Z) (v : DAGVertex)
    : Result () string * DAGVertex :=
  if verify pk (signing_data v) sig then (Ok (), set_signature_unchecked sig v)
  else (Err "Invalid vertex signature", v).

Definition validate_timestamp (v : DAGVertex) (current_time : Z) : Result () string :=
  if wrapping_add u64_max current_time MAX_VERTEX_DRIFT <? vtimestamp v then
    Err "Vertex timestamp too far in future"
  else if wrapping_add u64_max (vtimestamp v) MAX_VERTEX_DRIFT <? current_time then
    Err "Vertex timestamp too old"
  else Ok ().

(** The fold of [update_weight] and of [has_quorum]. *)
Definition approve_weight (votes : list CommitteeVote) : Z :=
  foldl (saturating_add u64_max) 0 (map stake_weight (filter (λ v, approve v = true) votes)).

Definition update_weight (v : DAGVertex) : DAGVertex :=
  set_votes (committee_votes v) (approve_weight (committee_votes v)) v.

Definition add_vote (vote : CommitteeVote) (v : DAGVertex) : Result () string * DAGVertex :=
  if MAX_VOTES_PER_VERTEX <=? Z.of_nat (length (committee_votes v)) then (Err "Maximum votes reached", v)
  else (Ok (), update_weight (set_votes (committee_votes v ++ [vote]) (weight v) v)).

Definition has_quorum (v : DAGVertex) (threshold : Z) : bool :=
  threshold <=? approve_weight (committee_votes v).

Definition tx_count (v : DAGVertex) : Z := Z.of_nat (length (transactions v)).

Definition new_vote (now : Z) (validator : Address) (vertex_hash : Hash) (approve : bool)
    (stake_weight : Z) : CommitteeVote :=
  mkVote validator vertex_hash approve stake_weight [] now.

Definition vote_signing_data (v : CommitteeVote) : list Z :=
  with_domain DOMAIN_COMMITTEE_VOTE
    (hash_bytes (validator v) ++ hash_bytes (vertex_hash v) ++ [if approve v then 1 else 0] ++
     le_bytes 8 (stake_weight v) ++ le_bytes 8 (vote_timestamp v)).

Definition set_vote_signature_unchecked (sig : list Z) (v : CommitteeVote) : CommitteeVote :=
  mkVote (validator v) (vertex_hash v) (approve v) (stake_weight v) sig (vote_timestamp v).

Definition set_vote_signature (verify : list Z → list Z → list Z → bool) (sig pk : list Z)
    (v : CommitteeVote) : Result () string * CommitteeVote :=
  if verify pk (vote_signing_data v) sig then (Ok (), set_vote_signature_unchecked sig v)
  else (Err "Invalid vote signature", v).

(** ** Specification vocabulary *)

Record in_range (v : DAGVertex) : Prop := {
  vertex_range_parents : Forall (λ h, 0 ≤ h < 2 ^ 256) (parents v);
  vertex_range_txs : Forall (λ tx, 0 ≤ tx_hash tx < 2 ^ 256) (transactions v);
  vertex_range_time : fits u64_max (vtimestamp v);
  vertex_range_shard : fits u16_max (vshard_id v);
  vertex_range_creator : 0 ≤ creator v < 2 ^ 256;
  vertex_range_height : fits u64_max (height v)
}.

(** The parents followed by the transaction hashes. *)
Definition referenced (v : DAGVertex) : list Hash := parents v ++ map tx_hash (transactions v).

(** ** Lemmas *)

Lemma concat_hash_bytes_length l : length (concat (map hash_bytes l)) = (32 * length l)%nat.
Proof.
  induction l as [|h l IH]; [done|]. cbn [map concat]. rewrite length_app, IH.
  unfold hash_bytes. rewrite be_bytes_length. simpl. lia.
Qed.

Lemma concat_hash_bytes_inj l k :
  Forall (λ h, 0 ≤ h < 2 ^ 256) l → Forall (λ h, 0 ≤ h < 2 ^ 256) k →
  concat (map hash_bytes l) = concat (map hash_bytes k) → l = k.
Proof.
  intros Hl. revert k. induction Hl as [|h l Hh Hl IH]; intros k Hk Heq;
    pose proof (f_equal length Heq) as Hlen; rewrite !concat_hash_bytes_length in Hlen;
    destruct Hk as [|h' k Hh' Hk]; try (simpl in Hlen; lia); [done|].
  cbn [map concat] in Heq. apply hash_app_inj in Heq as [-> Heq]; [|done..]. f_equal. by apply IH.
Qed.

Lemma hash_preimage_eq v :
  hash_preimage v =
    concat (map hash_bytes (referenced v)) ++
    (le_bytes 8 (vtimestamp v) ++ le_bytes 2 (vshard_id v) ++ hash_bytes (creator v) ++
     le_bytes 8 (height v)).
Proof.
  unfold hash_preimage, referenced. rewrite map_app, concat_app, <- app_assoc.
  f_equal. f_equal. by rewrite map_map.
Qed.

Lemma saturating_fold_le l acc :
  0 ≤ acc ≤ u64_max → Forall (λ x, 0 ≤ x) l →
  foldl (saturating_add u64_max) acc l = Z.min u64_max (acc + foldr Z.add 0 l).
Proof.
  intros Hacc Hl. revert acc Hacc. induction Hl as [|x l Hx Hl IH]; intros acc Hacc; simpl.
  - lia.
  - assert (0 ≤ foldr Z.add 0 l) by (clear -Hl; induction Hl; simpl; lia).
    rewrite IH by (unfold saturating_add; lia). unfold saturating_add. lia.
Qed.

(** ** Claims *)

(** What a vertex hash covers.  Two vertices have the same hash input
    exactly when they have the same timestamp, shard, creator and height and the
    same sequence of parents followed by transaction hashes.  Everything else
    (state root, weight, votes, the transactions' contents) is not covered, and
    neither is the boundary between parents and transactions. *)
Theorem vertex_hash_covers v w
    (Hv : in_range v) (Hw : in_range w) :
  hash_preimage v = hash_preimage w ↔
    referenced v = referenced w ∧ vtimestamp v = vtimestamp w ∧ vshard_id v = vshard_id w ∧
    creator v = creator w ∧ height v = height w.
Proof.
  rewrite !hash_preimage_eq. split; [|by intros (-> & -> & -> & -> & ->)].
  assert (Href : ∀ u, in_range u → Forall (λ h, 0 ≤ h < 2 ^ 256) (referenced u)).
  { intros u Hu. apply list.Forall_app. split; [apply Hu|]. apply list.Forall_fmap, Hu. }
  intros Heq. apply app_inj_2 in Heq as [Hr Heq];
    [|unfold hash_bytes; by rewrite !length_app, !le_bytes_length, !be_bytes_length].
  apply concat_hash_bytes_inj in Hr; [|by apply Href..].
  destruct Hv as [_ _ [? ?] [? ?] Hcv [? ?]], Hw as [_ _ [? ?] [? ?] Hcw [? ?]].
  unfold u64_max, u16_max in *.
  do 2 (apply le_app_inj in Heq as [? Heq]; [|lia..]).
  apply hash_app_inj in Heq as [? Heq]; [|done..].
  split_and!; try done. apply (le_bytes_inj 8); done || lia.
Qed.

Lemma vertex_hash_covers_witness :
  let tx := mkSigned (Transaction.new 0 Transfer 1 2 5 0 0 None [] 0) 77 100 in
  let v := mkVertex 0 [11; 77] [] 1700000000 3 9 [] 0 4 VPending [] 0 in
  let w := mkVertex 0 [11] [tx] 1700000000 3 9 [] 0 4 VPending [] 0 in
  hash_preimage v = hash_preimage w ↔
    referenced v = referenced w ∧ vtimestamp v = vtimestamp w ∧ vshard_id v = vshard_id w ∧
    creator v = creator w ∧ height v = height w.
Proof.
  apply vertex_hash_covers; split; repeat constructor; vm_compute; done || split; done.
Defined.
