(* ===== verification/Committee.v ===== *)
(** * Committees

    Models [src/L1/src/consensus/committee.rs]: committees and their quorum, the
    rotation of committees by stake-weighted sampling, the super committee, checks
    of committee votes and the changes of the validator set, and the selection by a
    verifiable random function.

    SHA3-256 and the signature check are arguments.  The rejection-sampling loop
    takes a bound on the number of tries; [None] means the bound was reached.  The
    set that [new] loads is an argument; later writes to the store, whose failures
    are only logged, are left out. *)

From S2P Require Import Prelude Bytes Validators Vertex Consensus.

(** ** Data *)

(** [VRFProof] of [src/L1/src/crypto/vrf.rs] *)
Record VRFProof : Type := mkVRFProof {
  vrf_output : Hash;
  vrf_proof : list Z
}.
Definition to_u64 (p : VRFProof) : Z := of_le_bytes (take 8 (hash_bytes (vrf_output p))).
Definition proof_is_selected (p : VRFProof) (threshold : Z) : bool := to_u64 p <? threshold.

Record CommitteeMember : Type := mkMember {
  m_address : Address;
  m_stake : Z;
  m_vrf_proof : option VRFProof;
  m_active : bool
}.

Record Committee : Type := mkCommittee {
  c_id : Z;
  c_epoch : Z;
  c_shard_id : Z;
  members : list CommitteeMember;
  c_total_stake : Z
}.

Definition quorum_threshold (c : Committee) : Result Z ConsensusError :=
  match checked_mul u128_max (c_total_stake c) 2 with
  | None => Err (ArithmeticOverflow "Quorum calculation overflow")
  | Some doubled =>
      match checked_add u128_max (doubled / 3) 1 with
      | None => Err (ArithmeticOverflow "Quorum threshold overflow")
      | Some t => Ok t
      end
  end.

Definition has_member (c : Committee) (a : Address) : bool := existsb (λ m, m_address m =? a) (members c).
Definition get_member (c : Committee) (a : Address) : option CommitteeMember := find (λ m, m_address m =? a) (members c).
Definition member_count (c : Committee) : Z := Z.of_nat (length (members c)).

Record CommitteeManager : Type := mkManager {
  current_epoch : Z;
  committees : gmap (Z * Z) Committee;
  validator_set : ValidatorSet;
  num_committees : Z;
  validators_per_committee : nat
}.

Definition set_validator_set (v : ValidatorSet) (s : CommitteeManager) : CommitteeManager :=
  mkManager (current_epoch s) (committees s) v (num_committees s) (validators_per_committee s).
Definition set_committees (v : gmap (Z * Z) Committee) (s : CommitteeManager) : CommitteeManager :=
  mkManager (current_epoch s) v (validator_set s) (num_committees s) (validators_per_committee s).
Definition set_epoch (v : Z) (s : CommitteeManager) : CommitteeManager :=
  mkManager v (committees s) (validator_set s) (num_committees s) (validators_per_committee s).

(** [new]; [loaded] is the stored set, if there is one. *)
Definition new (loaded : option ValidatorSet) (num_committees : Z) (validators_per_committee : nat) : CommitteeManager :=
  let vs := match loaded with
            | Some set => if bool_decide (length (validators set) = 0%nat) then empty_set else set
            | None => empty_set
            end in
  mkManager 0 ∅ vs num_committees validators_per_committee.

(** ** Sampling *)

Section Sampling.
Context (hash_data : list Z → Hash).

(** The first 16 bytes of a hash as a little-endian number. *)
Definition seed_value (h : Hash) : Z := of_le_bytes (take 16 (hash_bytes h)).

Definition max_unbiased (total : Z) : Z := u128_max / total * total.

(** The rejection-sampling loop: rehash with [suffix] until the value is in the
    unbiased range. *)
Fixpoint sample (fuel : nat) (suffix : list Z) (total : Z) (seed : Hash) : option Z :=
  if seed_value seed <? max_unbiased total then Some (seed_value seed mod total)
  else match fuel with
       | O => None
       | S n => sample n suffix total (hash_data (hash_bytes seed ++ suffix))
       end.

(** The first validator not used yet whose cumulative stake exceeds the value. *)
Fixpoint pick (value cumulative : Z) (used : list nat) (idx : nat) (vs : list Validator) : option (nat * Validator) :=
  match vs with
  | [] => None
  | v :: vs' =>
      let c := wrapping_add u128_max cumulative (stake v) in
      if (value <? c) && negb (existsb (Nat.eqb idx) used) then Some (idx, v) else pick value c used (S idx) vs'
  end.

Definition seat_seed (seed : Hash) (i : nat) : Hash := hash_data (hash_bytes seed ++ le_bytes 8 (Z.of_nat i)).

Definition member_of (v : Validator) : CommitteeMember := mkMember (address v) (stake v) None true.

(** The loop over the seats. *)
Fixpoint fill_seats (fuel : nat) (vs : list Validator) (total : Z) (seed : Hash) (per_committee : nat)
    (seats : list nat) (ms : list CommitteeMember) (used : list nat) : option (list CommitteeMember) :=
  match seats with
  | [] => Some ms
  | i :: seats' =>
      match sample fuel [Z.of_nat i mod 256] total (seat_seed seed i) with
      | None => None
      | Some value =>
          let '(ms', used') :=
            match pick value 0 used 0 vs with
            | Some (idx, v) => (ms ++ [member_of v], idx :: used)
            | None => (ms, used)
            end in
          if (per_committee <=? length ms')%nat then Some ms'
          else fill_seats fuel vs total seed per_committee seats' ms' used'
      end
  end.

Definition select_committee_members (fuel : nat) (s : CommitteeManager) (vs : list Validator) (seed : Hash)
    : option (list CommitteeMember) :=
  let total := sum_u128 (map stake vs) in
  if total =? 0 then Some []
  else fill_seats fuel vs total seed (validators_per_committee s) (seq 0 (validators_per_committee s)) [] [].

Definition compute_committee_seed (epoch slot committee_id : Z) (randomness : Hash) : Hash :=
  hash_data (le_bytes 8 epoch ++ le_bytes 8 slot ++ le_bytes 2 committee_id ++ hash_bytes randomness).

(** One committee of a rotation. *)
Definition rotate_one (fuel : nat) (epoch slot : Z) (randomness : Hash) (active : list Validator)
    (st : option CommitteeManager) (committee_id : nat) : option CommitteeManager :=
  s ← st;
  let id := Z.of_nat committee_id in
  ms ← select_committee_members fuel s active (compute_committee_seed epoch slot id randomness);
  let c := mkCommittee id epoch id ms (sum_u128 (map m_stake ms)) in
  Some (set_committees (<[(epoch, id) := c]> (committees s)) s).

Definition rotate_committees (fuel : nat) (epoch slot : Z) (randomness : Hash) (s : CommitteeManager)
    : option CommitteeManager :=
  let active := active_validators (validator_set s) in
  if bool_decide (length active = 0%nat) then Some s
  else set_epoch epoch <$> foldl (rotate_one fuel epoch slot randomness active) (Some s) (seq 0 (Z.to_nat (num_committees s))).

(** One turn of the loop of [select_super_committee]. *)
Definition super_seed (randomness : Hash) (i : nat) : Hash :=
  hash_data (hash_bytes randomness ++ ascii_bytes "super" ++ le_bytes 8 (Z.of_nat i)).

Definition super_one (fuel : nat) (randomness : Hash) (active : list Validator) (total : Z)
    (st : option (list Address)) (i : nat) : option (list Address) :=
  selected ← st;
  value ← sample fuel (le_bytes 8 (Z.of_nat i)) total (super_seed randomness i);
  Some (match pick value 0 [] 0 active with
        | Some (_, v) => if existsb (λ a, a =? address v) selected then selected else selected ++ [address v]
        | None => selected
        end).

Definition select_super_committee (fuel : nat) (s : CommitteeManager) (randomness : Hash) : option (list Address) :=
  let active := active_validators (validator_set s) in
  let total := sum_u128 (map stake active) in
  if total =? 0 then Some []
  else foldl (super_one fuel randomness active total) (Some []) (seq 0 100).
End Sampling.

(** ** Lookup and votes *)

Definition get_committee (s : CommitteeManager) (epoch committee_id : Z) : option Committee :=
  committees s !! (epoch, committee_id).

(** A remainder by zero panics; there is at least one committee. *)
Definition get_committee_for_shard (s : CommitteeManager) (epoch shard_id : Z) : option Committee :=
  get_committee s epoch (shard_id mod num_committees s).

Definition is_committee_member (s : CommitteeManager) (epoch committee_id : Z) (a : Address) : bool :=
  match get_committee s epoch committee_id with Some c => has_member c a | None => false end.

Definition verify_committee_vote (verify : list Z → list Z → list Z → bool) (s : CommitteeManager)
    (vote : CommitteeVote) (epoch committee_id : Z) : Result bool ConsensusError :=
  match get_committee s epoch committee_id with
  | None => Err NotCommitteeMember
  | Some c =>
      if negb (has_member c (validator vote)) then Err NotCommitteeMember
      else
        match get_validator (validator_set s) (validator vote) with
        | None => Err (InvalidValidator "Validator not found")
        | Some v =>
            if negb (active v) || jailed v then Ok false
            else Ok (verify (public_key v) (vote_signing_data vote) (vote_signature vote))
        end
  end.

(** ** The validator set *)

Definition cm_add_validator (v : Validator) (s : CommitteeManager) : Result () ValidatorError * CommitteeManager :=
  let '(r, set) := register_validator v (validator_set s) in (r, set_validator_set set s).

Definition cm_remove_validator (a : Address) (s : CommitteeManager) : CommitteeManager :=
  set_validator_set (remove_validator a (validator_set s)) s.

Definition update_validator_vrf (a : Address) (key : list Z) (s : CommitteeManager) : CommitteeManager :=
  set_validator_set (update_key a (set_vrf_public_key key) (validator_set s)) s.

Definition update_validator_finality_key (a : Address) (key : list Z) (s : CommitteeManager) : CommitteeManager :=
  set_validator_set (update_key a (set_finality_public_key key) (validator_set s)) s.

Definition total_validators (s : CommitteeManager) : Z := Z.of_nat (length (validators (validator_set s))).

(** ** Selection by a verifiable random function *)

Record VRFCommitteeSelection : Type := mkSelection {
  sel_epoch : Z;
  sel_slot : Z;
  validator_proofs : gmap Address VRFProof
}.

Definition new_selection (epoch slot : Z) : VRFCommitteeSelection := mkSelection epoch slot ∅.
Definition add_proof (a : Address) (p : VRFProof) (s : VRFCommitteeSelection) : VRFCommitteeSelection :=
  mkSelection (sel_epoch s) (sel_slot s) (<[a := p]> (validator_proofs s)).
Definition is_selected (s : VRFCommitteeSelection) (a : Address) (threshold : Z) : bool :=
  match validator_proofs s !! a with Some p => proof_is_selected p threshold | None => false end.

(** ** Picking by cumulative stake *)

(** Stake of the first [k] validators. *)
Definition stake_before (vs : list Validator) (k : nat) : Z := sumZ (map stake (take k vs)).

Definition stakes_fit (vs : list Validator) : Prop :=
  Forall (λ v, 0 ≤ stake v) vs ∧ sumZ (map stake vs) ≤ u128_max.

Lemma stakes_fit_sum vs : Forall (λ v, 0 ≤ stake v) vs → 0 ≤ sumZ (map stake vs).
Proof. intros Hvs. apply sumZ_nonneg. by apply list.Forall_fmap. Qed.

Lemma pick_lookup value c used i vs j v :
  pick value c used i vs = Some (j, v) → ∃ k, j = (i + k)%nat ∧ vs !! k = Some v ∧ j ∉ used.
Proof.
  revert c i. induction vs as [|w vs IH]; intros c i; simpl; [done|].
  destruct ((value <? _) && negb (existsb (Nat.eqb i) used)) eqn:Hp.
  - intros [= <- <-]. exists 0%nat. split; [lia|]. split; [done|]. apply andb_true_iff in Hp as [_ Hu%negb_true_iff].
    intros Hin. apply not_true_iff_false in Hu. apply Hu, existsb_exists. exists i. by rewrite <- list_elem_of_In, Nat.eqb_refl.
  - intros (k & -> & Hk & Hu)%IH. exists (S k). split; [lia|done].
Qed.

(** Without used validators the interval of the value decides. *)
Lemma pick_interval value c i vs j v :
  Forall (λ v, 0 ≤ stake v) vs → 0 ≤ c → c + sumZ (map stake vs) ≤ u128_max → c ≤ value →
  pick value c [] i vs = Some (j, v) ↔
  ∃ k, j = (i + k)%nat ∧ vs !! k = Some v ∧ c + stake_before vs k ≤ value < c + stake_before vs k + stake v.
Proof.
  intros Hvs. revert c i. induction Hvs as [|w vs Hw Hvs IH]; intros c i Hc Hsum Hle; simpl in *.
  - split; [done|]. intros (k & _ & Hk & _). by rewrite lookup_nil in Hk.
  - pose proof (stakes_fit_sum vs Hvs). unfold wrapping_add. rewrite Z.mod_small by lia. rewrite andb_true_r.
    destruct (Z.ltb_spec value (c + stake w)) as [Hlt|Hge].
    + split.
      * intros [= <- <-]. exists 0%nat. unfold stake_before. simpl. split; [lia|]. split; [done|lia].
      * intros (k & -> & Hk & Hint). destruct k as [|k]; [simpl in Hk; simplify_eq; by rewrite Nat.add_0_r|].
        unfold stake_before in Hint. simpl in Hint.
        assert (0 ≤ sumZ (map stake (take k vs))) by (apply stakes_fit_sum; by apply Forall_take). lia.
    + rewrite IH by lia. split.
      * intros (k & -> & Hk & Hint). exists (S k). unfold stake_before in *. simpl. split; [lia|]. split; [done|lia].
      * intros (k & -> & Hk & Hint). destruct k as [|k].
        { unfold stake_before in Hint. simpl in *. simplify_eq. lia. }
        exists k. unfold stake_before in *. simpl in *. split; [lia|]. split; [done|lia].
Qed.

(** ** Seats *)

Section Seats.
Context (hash_data : list Z → Hash) (fuel : nat) (vs : list Validator) (total : Z) (seed : Hash) (per : nat).

(** Members and used indices come from distinct positions of the list. *)
Definition seats_from (ms : list CommitteeMember) (used : list nat) : Prop :=
  ∃ picked : list (nat * Validator),
    ms = map (λ p, member_of p.2) picked ∧ used = reverse (map fst picked) ∧
    NoDup (map fst picked) ∧ Forall (λ p, vs !! p.1 = Some p.2) picked.

Lemma seats_from_pick ms used value idx v :
  seats_from ms used → pick value 0 used 0 vs = Some (idx, v) → seats_from (ms ++ [member_of v]) (idx :: used).
Proof.
  intros (picked & -> & -> & Hnd & Hall) (k & -> & Hk & Hu)%pick_lookup. exists (picked ++ [(k, v)]).
  rewrite !map_app. split; [done|]. split; [by rewrite reverse_app|]. split.
  - apply list.NoDup_app. split; [done|]. split; [|apply NoDup_singleton].
    intros x Hx ->%list_elem_of_singleton. apply Hu. by rewrite elem_of_reverse.
  - apply Forall_app. split; [done|]. by constructor.
Qed.

Lemma fill_seats_ok seats ms used :
  (∀ i, i ∈ seats → is_Some (sample hash_data fuel [Z.of_nat i mod 256] total (seat_seed hash_data seed i))) →
  (length ms + length seats ≤ per)%nat → seats_from ms used →
  ∃ ms' used', fill_seats hash_data fuel vs total seed per seats ms used = Some ms' ∧
    seats_from ms' used' ∧ (length ms' ≤ per)%nat.
Proof.
  revert ms used. induction seats as [|i seats IH]; intros ms used Hs Hl Hf; simpl in *; [exists ms, used; split; [done|]; split; [done|lia]|].
  destruct (Hs i ltac:(left)) as [value Hv]. rewrite Hv.
  assert (Hs' : ∀ j, j ∈ seats → is_Some (sample hash_data fuel [Z.of_nat j mod 256] total (seat_seed hash_data seed j)))
    by (intros j Hj; apply Hs; by right).
  destruct (pick value 0 used 0 vs) as [[idx v]|] eqn:Hp.
  - assert (Hlen : length (ms ++ [member_of v]) = S (length ms)) by (rewrite length_app; simpl; lia).
    pose proof (seats_from_pick _ _ _ _ _ Hf Hp) as Hf'. case_match.
    + eexists _, _. split; [done|]. split; [exact Hf'|]. lia.
    + apply IH; [done|lia|done].
  - case_match; [exists ms, used; split; [done|]; split; [done|lia]|]. apply IH; [done|lia|done].
Qed.

(** Picked members as a committee of distinct validators of the list. *)
Lemma seats_from_members ms used :
  NoDup (map address vs) → Forall (λ v, 0 ≤ stake v) vs → seats_from ms used →
  NoDup (map m_address ms) ∧ (∀ m, m ∈ ms → ∃ v, v ∈ vs ∧ m = member_of v) ∧
  0 ≤ sumZ (map m_stake ms) ≤ sumZ (map stake vs).
Proof.
  intros Hnd Hpos (picked & -> & _ & Hidx & Hall).
  assert (Hdistinct : NoDup (map (λ p, address p.2) picked)).
  { induction Hall as [|[j v] picked Hj Hall IH]; simpl in *; [constructor|].
    apply list.NoDup_cons in Hidx as [Hj' Hidx]. apply list.NoDup_cons. split; [|by apply IH].
    intros ([j' v'] & Heq & Hin)%list_elem_of_fmap. apply Hj'. apply list_elem_of_fmap. exists (j', v'). split; [|done]. simpl in *.
    eapply list.Forall_forall in Hall; [|exact Hin]. simpl in Hall.
    apply (NoDup_lookup (map address vs) j j' (address v) Hnd); rewrite list_lookup_fmap; [by rewrite Hj|by rewrite Hall, Heq]. }
  split; [by rewrite map_map|]. split.
  { intros m ([j v] & -> & Hin)%list_elem_of_fmap. exists v. split; [|done]. eapply list.Forall_forall in Hall; [|exact Hin].
    by eapply list_elem_of_lookup_2. }
  rewrite map_map. simpl.
  assert (Hsub : map snd picked ⊆+ vs).
  { apply NoDup_submseteq.
    - apply (NoDup_fmap_1 address). by rewrite map_map.
    - intros v ([j w] & -> & Hin)%list_elem_of_fmap. eapply list.Forall_forall in Hall; [|exact Hin].
      by eapply list_elem_of_lookup_2. }
  apply submseteq_Permutation in Hsub as [k Hk].
  assert (Hsum : sumZ (map stake vs) = sumZ (map stake (map snd picked)) + sumZ (map stake k)).
  { rewrite <- sumZ_app, <- map_app. apply sumZ_perm. by rewrite Hk. }
  rewrite Hk in Hpos. apply Forall_app in Hpos as [Hp1 Hp2].
  pose proof (stakes_fit_sum _ Hp1). pose proof (stakes_fit_sum _ Hp2). rewrite map_map in *. simpl in *.
  change (sumZ (map (λ x : nat * Validator, stake x.2) picked)) with (sumZ (map (λ x, stake (snd x)) picked)) in *. lia.
Qed.
End Seats.

(** ** Rotation *)

(** A committee as a rotation makes it. *)
Record committee_ok (active : list Validator) (per : nat) (epoch id : Z) (c : Committee) : Prop := {
  co_ids : c_id c = id ∧ c_epoch c = epoch ∧ c_shard_id c = id;
  co_distinct : NoDup (map m_address (members c));
  co_size : (length (members c) ≤ per)%nat;
  co_active : ∀ m, m ∈ members c → ∃ v, v ∈ active ∧ m = member_of v;
  co_total : c_total_stake c = sumZ (map m_stake (members c));
  co_bound : 0 ≤ c_total_stake c ≤ sumZ (map stake active)
}.

Section Rotation.
Context (hash_data : list Z → Hash) (fuel : nat) (epoch slot : Z) (randomness : Hash).

(** Every seat of a committee accepts a value within the bound on the tries. *)
Definition samples_end (active : list Validator) (per : nat) (id : nat) : Prop :=
  ∀ i, (i < per)%nat → is_Some (sample hash_data fuel [Z.of_nat i mod 256] (sumZ (map stake active))
    (seat_seed hash_data (compute_committee_seed hash_data epoch slot (Z.of_nat id) randomness) i)).

Lemma select_ok s active seed :
  NoDup (map address active) → stakes_fit active →
  (∀ i, (i < validators_per_committee s)%nat →
     is_Some (sample hash_data fuel [Z.of_nat i mod 256] (sumZ (map stake active)) (seat_seed hash_data seed i))) →
  ∃ ms used, select_committee_members hash_data fuel s active seed = Some ms ∧ seats_from active ms used ∧
    (length ms ≤ validators_per_committee s)%nat.
Proof.
  intros Hnd [Hpos Hmax] Hs. unfold select_committee_members.
  rewrite sum_u128_spec; [|by apply list.Forall_fmap|done]. case_match.
  - exists [], []. split; [done|]. split; [|simpl; lia]. exists []. split; [done|]. split; [done|]. split; constructor.
  - apply fill_seats_ok; [|simpl; rewrite length_seq; lia|exists []; split; [done|]; split; [done|]; split; constructor].
    intros i [_ Hi]%elem_of_seq. apply Hs. lia.
Qed.

Lemma rotate_one_ok s active id :
  NoDup (map address active) → stakes_fit active → samples_end active (validators_per_committee s) id →
  ∃ c, rotate_one hash_data fuel epoch slot randomness active (Some s) id =
         Some (set_committees (<[(epoch, Z.of_nat id) := c]> (committees s)) s) ∧
       committee_ok active (validators_per_committee s) epoch (Z.of_nat id) c.
Proof.
  intros Hnd [Hpos Hmax] Hs. destruct (select_ok s active _ Hnd (conj Hpos Hmax) Hs) as (ms & used & Hsel & Hfrom & Hlen).
  destruct (seats_from_members active ms used Hnd Hpos Hfrom) as (Hd & Ha & Hb).
  unfold rotate_one. simpl. rewrite Hsel. simpl. eexists. split; [done|].
  assert (Hsum : sum_u128 (map m_stake ms) = sumZ (map m_stake ms)).
  { apply sum_u128_spec; [|lia]. apply list.Forall_fmap, list.Forall_forall. intros m Hm.
    destruct (Ha m Hm) as (v & Hv & ->). simpl. eapply list.Forall_forall in Hpos; done. }
  by split; simpl; try done; rewrite Hsum.
Qed.

Lemma rotate_all_ok s active ids :
  NoDup (map address active) → stakes_fit active →
  (∀ id, id ∈ ids → samples_end active (validators_per_committee s) id) →
  ∃ s', foldl (rotate_one hash_data fuel epoch slot randomness active) (Some s) ids = Some s' ∧
    validator_set s' = validator_set s ∧
    (∀ id, id ∈ ids → ∃ c, get_committee s' epoch (Z.of_nat id) = Some c ∧
       committee_ok active (validators_per_committee s) epoch (Z.of_nat id) c) ∧
    (∀ e k, (∀ id, id ∈ ids → (e, k) ≠ (epoch, Z.of_nat id)) → get_committee s' e k = get_committee s e k).
Proof.
  intros Hnd Hfit. revert s. induction ids as [|id ids IH]; intros s Hs; cbn [foldl].
  - exists s. split; [done|]. split; [done|]. split; [by intros id ?%not_elem_of_nil|done].
  - destruct (rotate_one_ok s active id Hnd Hfit (Hs id ltac:(left))) as (c & -> & Hc).
    set (s1 := set_committees _ s).
    destruct (IH s1) as (s' & -> & Hvs & Hin & Hout); [intros j Hj; apply Hs; by right|].
    exists s'. split; [done|]. split; [done|]. split.
    + intros j [->|Hj]%elem_of_cons; [|by apply Hin]. destruct (decide (id ∈ ids)) as [Hid|Hid]; [by apply Hin|].
      exists c. split; [|done]. rewrite Hout; [apply lookup_insert_eq|]. intros k Hk [= Heq%Nat2Z.inj]. by subst.
    + intros e k Hek. rewrite Hout by (intros j Hj; apply Hek; by right). apply lookup_insert_ne.
      intros Heq. by destruct (Hek id ltac:(left)).
Qed.
End Rotation.

(** C7. Rotation.  With a consistent validator set, if the rejection sampling of
    every seat accepts a value within the bound, the rotation ends; every committee of
    the epoch then consists of distinct active validators with their stakes, at most as
    many as configured, its total stake is the exact sum of its members' stakes and at
    most the active stake, its quorum is more than two thirds of it; and committees of
    other epochs and the validator set are unchanged. *)
Theorem rotation_correct hash_data fuel epoch slot randomness s :
  wf (validator_set s) →
  let active := active_validators (validator_set s) in
  let per := validators_per_committee s in
  active ≠ [] →
  (∀ id, (id < Z.to_nat (num_committees s))%nat → samples_end hash_data fuel epoch slot randomness active per id) →
  ∃ s', rotate_committees hash_data fuel epoch slot randomness s = Some s' ∧
    current_epoch s' = epoch ∧ validator_set s' = validator_set s ∧
    (∀ id, 0 ≤ id < num_committees s → ∃ c, get_committee s' epoch id = Some c ∧ committee_ok active per epoch id c ∧
       (c_total_stake c * 2 ≤ u128_max →
          ∃ q, quorum_threshold c = Ok q ∧ 2 * c_total_stake c < 3 * q ≤ 2 * c_total_stake c + 3)) ∧
    (∀ e id, e ≠ epoch → get_committee s' e id = get_committee s e id).
Proof.
  intros [Hnd _ Hst Htot Hmax] active per Hne Hs.
  assert (Hfit : stakes_fit active).
  { split.
    - apply list.Forall_forall. intros v [_ Hv]%list_elem_of_filter. eapply list.Forall_forall in Hst; [|exact Hv]. by destruct Hst.
    - pose proof (filter_sum_le (λ v, Validators.active v && negb (jailed v) = true) (validators (validator_set s)) Hst) as Hle. simpl in Hle.
      unfold active, active_validators. lia. }
  assert (Hnda : NoDup (map address active)) by (by apply filter_addresses_NoDup).
  destruct (rotate_all_ok hash_data fuel epoch slot randomness s active (seq 0 (Z.to_nat (num_committees s))) Hnda Hfit)
    as (s' & Hrot & Hvs & Hin & Hout); [intros id [_ Hid]%elem_of_seq; apply Hs; lia|].
  unfold rotate_committees. fold active. rewrite bool_decide_false by (destruct active; simpl; congruence).
  rewrite Hrot. eexists. split; [done|]. split; [done|]. split; [done|]. split.
  - intros id Hid. destruct (Hin (Z.to_nat id)) as (c & Hc & Hok); [apply elem_of_seq; lia|].
    rewrite Z2Nat.id in Hc, Hok by lia. exists c. split; [done|]. split; [done|]. intros Hq.
    unfold quorum_threshold, checked_mul. rewrite (proj2 (Z.leb_le _ _) Hq).
    pose proof (co_bound _ _ _ _ _ Hok) as Hb. pose proof (Z.div_mod (c_total_stake c * 2) 3 ltac:(lia)).
    pose proof (Z.mod_pos_bound (c_total_stake c * 2) 3 ltac:(lia)).
    unfold checked_add. rewrite (proj2 (Z.leb_le _ _)) by (unfold u128_max in *; lia). eexists. split; [done|]. lia.
  - intros e id He. apply (Hout e id). intros j _ [= -> _]. done.
Qed.

(** ** Fairness of one draw *)

Lemma elem_stake_before vs idx v :
  Forall (λ v, 0 ≤ stake v) vs → vs !! idx = Some v →
  0 ≤ stake_before vs idx ∧ stake_before vs idx + stake v ≤ sumZ (map stake vs).
Proof.
  intros Hpos Hv. unfold stake_before. split; [apply stakes_fit_sum; by apply Forall_take|].
  rewrite <- (take_drop_middle vs idx v Hv) at 2. rewrite map_app, sumZ_app. simpl.
  pose proof (stakes_fit_sum (drop (S idx) vs) ltac:(by apply Forall_drop)). lia.
Qed.

(** The draw of a free seat is exactly proportional to stake.  The 128-bit
    values that rejection sampling accepts and that select a given validator are those
    [k * total + r] with [k] below [u128::MAX / total] and [r] in the validator's
    interval, whose length is its stake; so each validator is selected by exactly
    [u128::MAX / total] times its stake many values. *)
Theorem draw_proportional vs idx v x :
  stakes_fit vs → 0 < sumZ (map stake vs) → vs !! idx = Some v → 0 ≤ x →
  let total := sumZ (map stake vs) in
  x < max_unbiased total ∧ pick (x mod total) 0 [] 0 vs = Some (idx, v) ↔
  ∃ k r, 0 ≤ k < u128_max / total ∧ stake_before vs idx ≤ r < stake_before vs idx + stake v ∧ x = k * total + r.
Proof.
  intros [Hpos Hmax] Htot Hv Hx total. pose proof (Z.mod_pos_bound x total ltac:(lia)) as Hm.
  pose proof (Z.div_mod x total ltac:(lia)) as Hdm.
  assert (Hpick : ∀ r, 0 ≤ r → pick r 0 [] 0 vs = Some (idx, v) ↔ stake_before vs idx ≤ r < stake_before vs idx + stake v).
  { intros r Hr. rewrite pick_interval by (done || lia). split.
    - intros (k & -> & Hk & Hint). simpl. lia.
    - intros Hint. exists idx. split; [done|]. split; [done|]. lia. }
  rewrite Hpick by lia. unfold max_unbiased. split.
  - intros [Hlt Hint]. exists (x / total), (x mod total). split; [|split; [done|lia]].
    split; [apply Z.div_pos; lia|]. apply Z.div_lt_upper_bound; lia.
  - intros (k & r & Hk & Hr & ->).
    assert (Hr' : 0 ≤ r < total).
    { pose proof (elem_stake_before vs idx v Hpos Hv). lia. }
    assert ((k * total + r) mod total = r) as ->.
    { rewrite Z.add_comm, Z.mod_add by lia. by apply Z.mod_small. }
    split; [nia|done].
Qed.

(** ** Termination of sampling and the super committee *)

(** The seed after [n] rejections. *)
Fixpoint rehash (hash_data : list Z → Hash) (suffix : list Z) (n : nat) (seed : Hash) : Hash :=
  match n with
  | O => seed
  | S n' => rehash hash_data suffix n' (hash_data (hash_bytes seed ++ suffix))
  end.

(** The loop ends as soon as a rehash is in the unbiased range, with a value below
    the total, and more fuel does not change it. *)
Theorem sample_terminates hash_data suffix total n seed :
  0 < total → seed_value (rehash hash_data suffix n seed) < max_unbiased total →
  ∃ value, 0 ≤ value < total ∧ ∀ fuel, (n ≤ fuel)%nat → sample hash_data fuel suffix total seed = Some value.
Proof.
  intros Ht. revert seed. induction n as [|n IH]; intros seed Hn; simpl in Hn.
  - exists (seed_value seed mod total). split; [by apply Z.mod_pos_bound|]. intros fuel _.
    apply Z.ltb_lt in Hn. destruct fuel; cbn [sample]; rewrite Hn; reflexivity.
  - destruct (Z.ltb_spec (seed_value seed) (max_unbiased total)) as [Hlt|Hge].
    + exists (seed_value seed mod total). split; [by apply Z.mod_pos_bound|]. intros fuel _.
      apply Z.ltb_lt in Hlt. destruct fuel; cbn [sample]; rewrite Hlt; reflexivity.
    + destruct (IH _ Hn) as (value & Hv & Hs). exists value. split; [done|]. intros fuel Hf.
      destruct fuel as [|fuel]; [lia|]. cbn [sample]. apply Z.ltb_ge in Hge. rewrite Hge. apply Hs. lia.
Qed.

Lemma super_loop hash_data fuel randomness active total ids acc r :
  foldl (super_one hash_data fuel randomness active total) (Some acc) ids = Some r →
  NoDup acc → (∀ a, a ∈ acc → a ∈ map address active) →
  NoDup r ∧ (∀ a, a ∈ r → a ∈ map address active) ∧ (length r ≤ length acc + length ids)%nat.
Proof.
  revert acc. induction ids as [|i ids IH]; intros acc Hf Hnd Hin; cbn [foldl] in Hf.
  - simplify_eq. split; [done|]. split; [done|]. simpl. lia.
  - destruct (super_one hash_data fuel randomness active total (Some acc) i) as [acc'|] eqn:H1.
    2: { exfalso. clear -Hf. induction ids as [|j ids IH]; simpl in Hf; [done|]. by apply IH. }
    enough (NoDup acc' ∧ (∀ a, a ∈ acc' → a ∈ map address active) ∧ (length acc' ≤ S (length acc))%nat) as (Hn' & Hi' & Hl').
    { destruct (IH acc' Hf Hn' Hi') as (G1 & G2 & G3). split; [done|]. split; [done|]. simpl. lia. }
    unfold super_one in H1. simpl in H1. destruct (sample _ _ _ _ _) as [value|]; simpl in H1; [|done].
    injection H1 as <-. destruct (pick value 0 [] 0 active) as [[j v]|] eqn:Hp; [|split; [done|]; split; [done|lia]].
    apply pick_lookup in Hp as (k & -> & Hk & _). destruct (existsb _ acc) eqn:Hex; [split; [done|]; split; [done|lia]|].
    split; [|split; [|rewrite length_app; simpl; lia]].
    + apply list.NoDup_app. split; [done|]. split; [|apply NoDup_singleton]. intros a Ha ->%list_elem_of_singleton.
      apply not_true_iff_false in Hex. apply Hex, existsb_exists. exists (address v). by rewrite <- list_elem_of_In, Z.eqb_refl.
    + intros a [Ha| ->%list_elem_of_singleton]%elem_of_app; [by apply Hin|]. apply list_elem_of_fmap. exists v.
      split; [done|]. by eapply list_elem_of_lookup_2.
Qed.

(** The super committee consists of at most 100 distinct active validators. *)
Theorem super_committee_distinct hash_data fuel s randomness l :
  select_super_committee hash_data fuel s randomness = Some l →
  NoDup l ∧ (length l ≤ 100)%nat ∧ ∀ a, a ∈ l → a ∈ map address (active_validators (validator_set s)).
Proof.
  unfold select_super_committee. case_match; intros Hf.
  - simplify_eq. split; [constructor|]. split; [simpl; lia|]. by intros a ?%not_elem_of_nil.
  - apply super_loop in Hf as (H1 & H2 & H3); [|constructor|by intros a ?%not_elem_of_nil].
    rewrite length_seq in H3. simpl in H3. done.
Qed.

(** ** Three validators *)

Module Trio.
Definition hash_data (l : list Z) : Hash := foldl (λ h b, (h * 31 + b) mod 2 ^ 250) 7 l.
Definition val (a s : Z) : Validator := mkValidator a [a] [] s 500 true false 0 0 [].
Definition set : ValidatorSet := foldl Validators.step empty_set (map (λ p, AddValidator (val p.1 p.2)) [(1, 50); (2, 30); (3, 20)]).
Definition manager : CommitteeManager := new (Some set) 2 2.

Lemma set_fine : wf set.
Proof. apply set_wf_run; [apply set_wf_empty|]. repeat constructor; by vm_compute. Qed.
End Trio.

Lemma rotation_correct_witness :
  ∃ s', rotate_committees Trio.hash_data 0 5 9 11 Trio.manager = Some s' ∧ current_epoch s' = 5.
Proof.
  destruct (rotation_correct Trio.hash_data 0 5 9 11 Trio.manager Trio.set_fine) as (s' & H1 & H2 & _).
  - by vm_compute.
  - intros [|[|id]] Hid [|[|i]] Hi; try (exfalso; vm_compute in Hid; lia); try (exfalso; vm_compute in Hi; lia);
      (eexists; by vm_compute).
  - exists s'. split; [exact H1|exact H2].
Defined.

Lemma draw_proportional_witness :
  let vs := validators Trio.set in
  123 < max_unbiased 100 ∧ pick (123 mod 100) 0 [] 0 vs = Some (0%nat, Trio.val 1 50) ↔
  ∃ k r, 0 ≤ k < u128_max / 100 ∧ stake_before vs 0 ≤ r < stake_before vs 0 + 50 ∧ 123 = k * 100 + r.
Proof.
  apply (draw_proportional (validators Trio.set) 0 (Trio.val 1 50) 123).
  - split; [apply (bool_decide_unpack _); by vm_compute|by vm_compute].
  - by vm_compute.
  - by vm_compute.
  - by vm_compute.
Defined.
