(* ===== verification/Checkpoint.v ===== *)
(** * Checkpoints and finality proofs

    Models [src/L1/src/types/checkpoint.rs]: the checkpoint record and the bytes
    it is identified and signed by, and the accumulation of signatures in a
    finality proof.  The clock, SHA3-256 and the signature check are arguments. *)

From S2P Require Import Prelude Bytes.

Definition MAX_CHECKPOINT_VALIDATORS : Z := 1000.
Definition MAX_FINALITY_SIGNATURES : Z := 1000.

Record Checkpoint : Type := mkCheckpoint {
  epoch : Z;
  slot : Z;
  state_root : Hash;
  dag_root : Hash;
  vertex_count : Z;
  transaction_count : Z;
  cp_validators : list Address;
  cp_signature : list Z;
  timestamp : Z;
  previous_checkpoint : Hash
}.

Definition new (now epoch slot : Z) (state_root dag_root : Hash) (vertex_count transaction_count : Z)
    (previous_checkpoint : Hash) : Checkpoint :=
  mkCheckpoint epoch slot state_root dag_root vertex_count transaction_count [] [] now
    previous_checkpoint.

Definition set_cp_validators (vs : list Address) (c : Checkpoint) : Checkpoint :=
  mkCheckpoint (epoch c) (slot c) (state_root c) (dag_root c) (vertex_count c) (transaction_count c)
    vs (cp_signature c) (timestamp c) (previous_checkpoint c).
Definition set_cp_signature (s : list Z) (c : Checkpoint) : Checkpoint :=
  mkCheckpoint (epoch c) (slot c) (state_root c) (dag_root c) (vertex_count c) (transaction_count c)
    (cp_validators c) s (timestamp c) (previous_checkpoint c).

Definition add_validator (address : Address) (c : Checkpoint) : Result () string * Checkpoint :=
  if MAX_CHECKPOINT_VALIDATORS <=? Z.of_nat (length (cp_validators c)) then
    (Err "Checkpoint validator limit reached", c)
  else if bool_decide (address ∈ cp_validators c) then (Err "Validator already in checkpoint", c)
  else (Ok (), set_cp_validators (cp_validators c ++ [address]) c).

Definition hash_preimage (c : Checkpoint) : list Z :=
  le_bytes 8 (epoch c) ++ le_bytes 8 (slot c) ++ hash_bytes (state_root c) ++ hash_bytes (dag_root c) ++
  le_bytes 8 (vertex_count c) ++ le_bytes 8 (transaction_count c) ++
  hash_bytes (previous_checkpoint c) ++ le_bytes 8 (timestamp c).

Definition hash (hash_data : list Z → Hash) (c : Checkpoint) : Hash := hash_data (hash_preimage c).

Definition signing_data (hash_data : list Z → Hash) (c : Checkpoint) : list Z :=
  with_domain DOMAIN_CHECKPOINT (hash_bytes (hash hash_data c)).

Definition genesis : Checkpoint := mkCheckpoint 0 0 0 0 0 0 [] [] 0 0.

(** ** Finality proofs *)

Record ValidatorSignature : Type := mkValidatorSignature {
  signer : Address;
  sig_bytes : list Z;
  sig_timestamp : Z
}.

Definition new_signature (now : Z) (validator : Address) (signature : list Z) : ValidatorSignature :=
  mkValidatorSignature validator signature now.

Record FinalityProof : Type := mkFinalityProof {
  checkpoint : Checkpoint;
  super_committee_signatures : list ValidatorSignature;
  total_stake_signed : Z;
  stake_threshold : Z
}.

Definition new_proof (checkpoint : Checkpoint) (stake_threshold : Z) : FinalityProof :=
  mkFinalityProof checkpoint [] 0 stake_threshold.

(** [verify] is [verify_ml_dsa_65], which never returns an error. *)
Definition add_signature (hash_data : list Z → Hash) (verify : list Z → list Z → list Z → bool)
    (sig : ValidatorSignature) (stake : Z) (validator_pubkey : list Z) (p : FinalityProof)
    : Result () string * FinalityProof :=
  if MAX_FINALITY_SIGNATURES <=? Z.of_nat (length (super_committee_signatures p)) then
    (Err "Finality proof signature limit reached", p)
  else if existsb (λ s, signer s =? signer sig) (super_committee_signatures p) then
    (Err "Duplicate validator signature", p)
  else if negb (verify validator_pubkey (signing_data hash_data (checkpoint p)) (sig_bytes sig)) then
    (Err "Invalid finality signature: verification failed", p)
  else
    (Ok (), mkFinalityProof (checkpoint p) (super_committee_signatures p ++ [sig])
              (saturating_add u128_max (total_stake_signed p) stake) (stake_threshold p)).

Definition is_finalized (p : FinalityProof) : bool := stake_threshold p <=? total_stake_signed p.

(** ** Committee summaries of an epoch *)

Record CommitteeInfo : Type := mkCommitteeInfo {
  committee_id : Z;
  committee_shard : Z;
  committee_validators : list Address;
  committee_stake : Z
}.

(** [(total * 2) / 3 + 1] on [u128]s. *)
Definition quorum_of (total_stake : Z) : Z :=
  wrapping_add u128_max (wrapping_mul u128_max total_stake 2 / 3) 1.

Definition quorum_threshold (c : CommitteeInfo) : Z := quorum_of (committee_stake c).

(** ** Lemmas *)

Record in_range (c : Checkpoint) : Prop := {
  cp_range_epoch : fits u64_max (epoch c);
  cp_range_slot : fits u64_max (slot c);
  cp_range_state : 0 ≤ state_root c < 2 ^ 256;
  cp_range_dag : 0 ≤ dag_root c < 2 ^ 256;
  cp_range_vertices : fits u64_max (vertex_count c);
  cp_range_txs : fits u64_max (transaction_count c);
  cp_range_prev : 0 ≤ previous_checkpoint c < 2 ^ 256;
  cp_range_time : fits u64_max (timestamp c)
}.

(** Two checkpoints agree on everything but the validators and the aggregate
    signature that finalization writes. *)
Definition same_content (c d : Checkpoint) : Prop :=
  epoch c = epoch d ∧ slot c = slot d ∧ state_root c = state_root d ∧ dag_root c = dag_root d ∧
  vertex_count c = vertex_count d ∧ transaction_count c = transaction_count d ∧
  timestamp c = timestamp d ∧ previous_checkpoint c = previous_checkpoint d.

Lemma checkpoint_preimage_inj c d :
  in_range c → in_range d → hash_preimage c = hash_preimage d → same_content c d.
Proof.
  intros [[? ?] [? ?] Hs Hd [? ?] [? ?] Hp [? ?]] [[? ?] [? ?] Hs' Hd' [? ?] [? ?] Hp' [? ?]] Heq.
  unfold hash_preimage, u64_max in *.
  do 2 (apply le_app_inj in Heq as [? Heq]; [|lia..]).
  do 2 (apply hash_app_inj in Heq as [? Heq]; [|done..]).
  do 2 (apply le_app_inj in Heq as [? Heq]; [|lia..]).
  apply hash_app_inj in Heq as [? Heq]; [|done..].
  apply (le_bytes_inj 8) in Heq; [|lia..]. by split_and!.
Qed.

Lemma quorum_of_spec total :
  0 ≤ total → 2 * total ≤ u128_max → quorum_of total = 2 * total / 3 + 1.
Proof.
  intros H0 Hmax. unfold quorum_of, wrapping_mul, wrapping_add.
  rewrite (Z.mod_small (total * 2)) by (unfold u128_max in *; lia).
  rewrite Z.mod_small; [by rewrite Z.mul_comm|].
  assert (total * 2 / 3 ≤ total * 2) by (apply Z.div_le_upper_bound; lia).
  assert (0 ≤ total * 2 / 3) by (apply Z.div_pos; lia).
  assert (total * 2 / 3 < u128_max) by (apply Z.div_lt_upper_bound; unfold u128_max in *; lia). lia.
Qed.

(** A quorum is more than two thirds. *)
Lemma quorum_of_two_thirds total x :
  0 ≤ total → 2 * total ≤ u128_max → quorum_of total ≤ x ↔ 2 * total < 3 * x.
Proof.
  intros H0 Hmax. rewrite quorum_of_spec by done.
  pose proof (Z.div_mod (2 * total) 3). pose proof (Z.mod_pos_bound (2 * total) 3). lia.
Qed.
