(* ===== verification/Dag.v ===== *)
(** * The vertex graph

    Models [DAGGraph] of [src/L1/src/dag/graph.rs]: authorization, insertion of
    vertices with their parents, tips, children and heights, eviction, the two
    bounded traversals, status updates and the finalization of everything
    reachable from a checkpoint's tips.

    The durable store ([Storage], RocksDB) is the interface [VertexStore]: its
    operations can fail.  [VertexStoreLaws] is what the graph relies on.  The
    iteration order of the vertex map, unspecified in the code, is the order of
    the finite map.  [add_vertex] runs under one lock, so its parts are not
    interleaved. *)

From Stdlib Require Import Sorting.Sorted.
From S2P Require Import Prelude Transaction Vertex.

Definition MAX_VERTICES_IN_MEMORY : Z := 1000000.
Definition MAX_TRAVERSAL_VERTICES : Z := 10000.
Definition MAX_TIPS_PER_SHARD : Z := 100.
Definition MAX_SHARDS : Z := 1024.
Definition MAX_CHILDREN_PER_VERTEX : Z := 256.
Definition GENESIS_CREATOR : Address := 0.

Inductive DAGError : Type :=
  | VertexNotFound (e : string)
  | InvalidParent
  | CycleDetected
  | InvalidInput (e : string)
  | TooFewParents (min got : Z)
  | TooManyParents (max got : Z)
  | StorageError (e : string)
  | Unauthorized (e : string)
  | MemoryExhausted
  | ShardLimitExceeded (max : Z)
  | ChildrenLimitExceeded
  | HeightOverflow (h : Z)
  | InvalidVertex (e : string)
  | TraversalLimitExceeded (max : Z).

(** ** The durable store *)

Class VertexStore (St : Type) : Type := {
  store_get : Hash → St → Result (option DAGVertex) string;
  store_put : DAGVertex → St → Result () string * St
}.

(** A store that does not fail keeps the last vertex put under each hash. *)
Class VertexStoreLaws (St : Type) `{VertexStore St} : Type := {
  store_view : St → gmap Hash DAGVertex;
  store_get_view : ∀ h s, store_get h s = Ok (store_view s !! h);
  store_put_ok : ∀ v s, (store_put v s).1 = Ok ();
  store_put_view : ∀ v s, store_view (store_put v s).2 = <[vhash v := v]> (store_view s)
}.

Record DAGGraph (St : Type) : Type := mkDAG {
  storage : St;
  vertices : gmap Hash DAGVertex;
  tips : gmap Z (list Hash);
  children : gmap Hash (list Hash);
  heights : gmap Z Z;
  min_parents : Z;
  max_parents : Z;
  admin : Address;
  authorized_creators : gset Address;
  vertex_count : Z
}.
Arguments mkDAG {St}. Arguments storage {St}. Arguments vertices {St}. Arguments tips {St}.
Arguments children {St}. Arguments heights {St}. Arguments min_parents {St}. Arguments max_parents {St}.
Arguments admin {St}. Arguments authorized_creators {St}. Arguments vertex_count {St}.

Section Graph.
Context `{VertexStore St}.
Implicit Types (g : DAGGraph St).

Abbreviation OP A := (M (DAGGraph St) DAGError A).

Definition set_storage (s : St) g : DAGGraph St :=
  mkDAG s (vertices g) (tips g) (children g) (heights g) (min_parents g) (max_parents g) (admin g)
    (authorized_creators g) (vertex_count g).
Definition set_vertices (vs : gmap Hash DAGVertex) (n : Z) g : DAGGraph St :=
  mkDAG (storage g) vs (tips g) (children g) (heights g) (min_parents g) (max_parents g) (admin g)
    (authorized_creators g) n.
Definition set_tips (t : gmap Z (list Hash)) g : DAGGraph St :=
  mkDAG (storage g) (vertices g) t (children g) (heights g) (min_parents g) (max_parents g) (admin g)
    (authorized_creators g) (vertex_count g).
Definition set_children (c : gmap Hash (list Hash)) g : DAGGraph St :=
  mkDAG (storage g) (vertices g) (tips g) c (heights g) (min_parents g) (max_parents g) (admin g)
    (authorized_creators g) (vertex_count g).
Definition set_heights (h : gmap Z Z) g : DAGGraph St :=
  mkDAG (storage g) (vertices g) (tips g) (children g) h (min_parents g) (max_parents g) (admin g)
    (authorized_creators g) (vertex_count g).
Definition set_admin_field (a : Address) g : DAGGraph St :=
  mkDAG (storage g) (vertices g) (tips g) (children g) (heights g) (min_parents g) (max_parents g) a
    (authorized_creators g) (vertex_count g).
Definition set_creators (a : gset Address) g : DAGGraph St :=
  mkDAG (storage g) (vertices g) (tips g) (children g) (heights g) (min_parents g) (max_parents g)
    (admin g) a (vertex_count g).

Definition new (storage : St) (min_parents max_parents : Z) : DAGGraph St :=
  mkDAG storage ∅ ∅ ∅ ∅ min_parents max_parents GENESIS_CREATOR {[GENESIS_CREATOR]} 0.

(** ** Administration *)

Definition set_admin (caller new_admin : Address) : OP () :=
  a <-? gets admin;
  fail_if (negb (caller =? a)) (Unauthorized "Only admin can transfer admin rights") ?;
  modify (set_admin_field new_admin).

Definition add_authorized_creator (a : Address) : OP () :=
  modify (λ g, set_creators ({[a]} ∪ authorized_creators g) g).

Definition add_authorized_creator_checked (caller a : Address) : OP () :=
  adm <-? gets admin;
  fail_if (negb (caller =? adm)) (Unauthorized "Only admin can add authorized creators") ?;
  add_authorized_creator a.

Definition remove_authorized_creator (a : Address) : OP () :=
  modify (λ g, set_creators (authorized_creators g ∖ {[a]}) g).

Definition remove_authorized_creator_checked (caller a : Address) : OP () :=
  adm <-? gets admin;
  fail_if (negb (caller =? adm)) (Unauthorized "Only admin can remove authorized creators") ?;
  remove_authorized_creator a.

Definition is_authorized_creator g (a : Address) : bool := bool_decide (a ∈ authorized_creators g).

(** ** Queries *)

Definition get_vertex g (h : Hash) : Result (option DAGVertex) DAGError :=
  match vertices g !! h with
  | Some v => Ok (Some v)
  | None =>
      match store_get h (storage g) with
      | Ok o => Ok o
      | Err e => Err (StorageError e)
      end
  end.

Definition get_tips g (shard_id : Z) : list Hash := default [] (tips g !! shard_id).
Definition get_children g (h : Hash) : list Hash := default [] (children g !! h).
Definition get_height g (shard_id : Z) : Z := default 0 (heights g !! shard_id).
Definition tip_count g (shard_id : Z) : Z := Z.of_nat (length (get_tips g shard_id)).

Definition select_parents g (shard_id : Z) : list Hash :=
  let ts := get_tips g shard_id in
  let num_parents := Z.min (Z.max (Z.of_nat (length ts)) (min_parents g)) (max_parents g) in
  take (Z.to_nat num_parents) ts.

Definition create_vertex (hash_data : list Z → Hash) (now : Z) g (shard_id : Z)
    (txs : list SignedTransaction) (creator : Address) : Result DAGVertex DAGError :=
  if negb (is_authorized_creator g creator) then Err (Unauthorized "not authorized to create vertices")
  else
    let parents := select_parents g shard_id in
    if (Z.of_nat (length parents) <? min_parents g) && (0 <? get_height g shard_id) then
      Err (TooFewParents (min_parents g) (Z.of_nat (length parents)))
    else
      match checked_add u64_max (get_height g shard_id) 1 with
      | None => Err (HeightOverflow (get_height g shard_id))
      | Some height =>
          match Vertex.new hash_data now parents txs shard_id creator height with
          | Ok v => Ok v
          | Err e => Err (InvalidVertex e)
          end
      end.

(** ** Insertion *)

Definition put_vertex (v : DAGVertex) : OP () :=
  λ g, match store_put v (storage g) with
       | (Ok _, s) => (Ok (), set_storage s g)
       | (Err e, s) => (Err (StorageError e), set_storage s g)
       end.

Definition evict_old_vertices : OP () :=
  modify (λ g,
    let to_evict := take (Z.to_nat (MAX_VERTICES_IN_MEMORY / 10))
      (filter (λ kv, status kv.2 = VConfirmed) (map_to_list (vertices g))).*1 in
    set_vertices (foldl (λ m h, delete h m) (vertices g) to_evict)
      (wrapping_sub u64_max (vertex_count g) (Z.of_nat (length to_evict))) g).

(** The retained tips, the new one, the oldest dropped beyond the limit. *)
Definition next_tips (old : option (list Hash)) (v : DAGVertex) : list Hash :=
  match old with
  | None => [vhash v]
  | Some ts =>
      let ts' := filter (λ tip, tip ∉ parents v) ts ++ [vhash v] in
      drop (length ts' - Z.to_nat MAX_TIPS_PER_SHARD) ts'
  end.

Definition update_tips (shard_id : Z) (v : DAGVertex) : OP () :=
  modify (λ g, set_tips (<[shard_id := next_tips (tips g !! shard_id) v]> (tips g)) g).

(** Each parent is in memory or in the store. *)
Definition check_parent (p : Hash) : OP () :=
  g <-? gets id;
  match vertices g !! p with
  | Some _ => returns ()
  | None =>
      match store_get p (storage g) with
      | Err e => throw (StorageError e)
      | Ok None => throw InvalidParent
      | Ok (Some _) => returns ()
      end
  end.

(** [children.entry(p).or_insert_with(Vec::new)], the limit, the push: the entry
    is created even when the limit stops the push. *)
Definition push_child (child p : Hash) : OP () :=
  modify (λ g, set_children (<[p := get_children g p]> (children g)) g) ?;
  cs <-? gets (λ g, get_children g p);
  fail_if (MAX_CHILDREN_PER_VERTEX <=? Z.of_nat (length cs)) ChildrenLimitExceeded ?;
  modify (λ g, set_children (<[p := cs ++ [child]]> (children g)) g).

Definition next_height (old : option Z) (h : Z) : Z :=
  match old with Some h' => if h' <? h then h else h' | None => h end.

(** The memory check that precedes the lock. *)
Definition make_room : OP () :=
  n <-? gets vertex_count;
  if MAX_VERTICES_IN_MEMORY <=? n then
    evict_old_vertices ?;
    n' <-? gets vertex_count;
    fail_if (MAX_VERTICES_IN_MEMORY <=? n') MemoryExhausted
  else returns ().

(** The checks of [add_vertex] and the registration with the parents. *)
Definition link_vertex (v : DAGVertex) : OP () :=
  g <-? gets id;
  fail_if (negb (is_authorized_creator g (creator v)))
    (Unauthorized "not authorized to create vertices") ?;
  make_room ?;
  fail_if ((Z.of_nat (length (parents v)) <? min_parents g) && (0 <? height v))
    (TooFewParents (min_parents g) (Z.of_nat (length (parents v)))) ?;
  fail_if (max_parents g <? Z.of_nat (length (parents v)))
    (TooManyParents (max_parents g) (Z.of_nat (length (parents v)))) ?;
  for_each (parents v) check_parent ?;
  ts <-? gets tips;
  fail_if (bool_decide (ts !! vshard_id v = None) && (MAX_SHARDS <=? Z.of_nat (size ts)))
    (ShardLimitExceeded MAX_SHARDS) ?;
  for_each (parents v) (push_child (vhash v)).

Definition add_vertex (v : DAGVertex) : OP () :=
  link_vertex v ?;
  update_tips (vshard_id v) v ?;
  modify (λ g, set_heights
    (<[vshard_id v := next_height (heights g !! vshard_id v) (height v)]> (heights g)) g) ?;
  put_vertex v ?;
  modify (λ g, set_vertices (<[vhash v := v]> (vertices g)) (wrapping_add u64_max (vertex_count g) 1) g).

(** ** Traversals *)

(** The inner loop: every neighbour not seen before is recorded and queued. *)
Fixpoint visit_all (ns : list Hash) (d : nat) (visited : gset Hash) (found : list Hash)
    (queue : list (Hash * nat)) : gset Hash * list Hash * list (Hash * nat) :=
  match ns with
  | [] => (visited, found, queue)
  | n :: ns' =>
      if decide (n ∈ visited) then visit_all ns' d visited found queue
      else visit_all ns' d ({[n]} ∪ visited) (found ++ [n]) (queue ++ [(n, d)])
  end.

(** The loop shared by [get_ancestors] and [get_descendants]; [None] when the
    fuel runs out. *)
Fixpoint traverse (fuel : nat) (next : Hash → Result (list Hash) DAGError) (depth : nat)
    (visited : gset Hash) (found : list Hash) (queue : list (Hash * nat))
    : option (Result (list Hash) DAGError) :=
  match fuel with
  | O => None
  | S fuel' =>
      match queue with
      | [] => Some (Ok found)
      | (current, current_depth) :: queue' =>
          if MAX_TRAVERSAL_VERTICES <=? Z.of_nat (size visited) then
            Some (Err (TraversalLimitExceeded MAX_TRAVERSAL_VERTICES))
          else if (depth <=? current_depth)%nat then traverse fuel' next depth visited found queue'
          else
            match next current with
            | Err e => Some (Err e)
            | Ok ns =>
                let '(visited', found', queue'') :=
                  visit_all ns (S current_depth) visited found queue' in
                traverse fuel' next depth visited' found' queue''
            end
      end
  end.

(** One iteration per visited vertex, and the iteration that sees the limit. *)
Definition traversal_fuel : nat := Z.to_nat (MAX_TRAVERSAL_VERTICES + 1).

Definition parents_of g (h : Hash) : Result (list Hash) DAGError :=
  match get_vertex g h with
  | Ok (Some v) => Ok (parents v)
  | Ok None => Ok []
  | Err e => Err e
  end.

Definition get_ancestors g (h : Hash) (depth : nat) : option (Result (list Hash) DAGError) :=
  traverse traversal_fuel (parents_of g) depth {[h]} [] [(h, 0%nat)].

Definition get_descendants g (h : Hash) (depth : nat) : option (Result (list Hash) DAGError) :=
  traverse traversal_fuel (λ x, Ok (get_children g x)) depth {[h]} [] [(h, 0%nat)].

(** ** Status updates and finalization *)

Definition update_vertex_status (caller : Address) (h : Hash) (s : VertexStatus) : OP () :=
  g <-? gets id;
  fail_if (negb (caller =? admin g) && negb (is_authorized_creator g caller))
    (Unauthorized "Only authorized creators or admin can update vertex status") ?;
  match vertices g !! h with
  | Some v =>
      modify (λ g, set_vertices (<[h := set_status s v]> (vertices g)) (vertex_count g) g) ?;
      put_vertex (set_status s v)
  | None => returns ()
  end.

Definition update_vertex_status_internal (h : Hash) (s : VertexStatus) : OP () :=
  g <-? gets id;
  match vertices g !! h with
  | Some v =>
      modify (λ g, set_vertices (<[h := set_status s v]> (vertices g)) (vertex_count g) g) ?;
      put_vertex (set_status s v)
  | None =>
      match store_get h (storage g) with
      | Err e => throw (StorageError e)
      | Ok None => returns ()
      | Ok (Some v) => put_vertex (set_status s v)
      end
  end.

(** [if visited.insert(x) { queue.push_back(x) }] over a list. *)
Fixpoint enqueue_all (xs : list Hash) (visited : gset Hash) (queue : list Hash) : gset Hash * list Hash :=
  match xs with
  | [] => (visited, queue)
  | x :: xs' =>
      if decide (x ∈ visited) then enqueue_all xs' visited queue
      else enqueue_all xs' ({[x]} ∪ visited) (queue ++ [x])
  end.

(** Mark one vertex: write it to the store and to memory. *)
Definition mark_finalized (h : Hash) (v : DAGVertex) : OP () :=
  put_vertex (set_status VFinalized v) ?;
  modify (λ g, set_vertices (<[h := set_status VFinalized v]> (vertices g)) (vertex_count g) g).

Fixpoint finalize_loop (fuel : nat) (visited : gset Hash) (queue : list Hash) (nv nt : Z)
    : DAGGraph St → option (Result (Z * Z) DAGError * DAGGraph St) :=
  λ g, match fuel with
  | O => None
  | S fuel' =>
      match queue with
      | [] => Some (Ok (nv, nt), g)
      | h :: queue' =>
          if MAX_TRAVERSAL_VERTICES <=? Z.of_nat (size visited) then
            Some (Err (TraversalLimitExceeded MAX_TRAVERSAL_VERTICES), g)
          else
            match get_vertex g h with
            | Err e => Some (Err e, g)
            | Ok None => finalize_loop fuel' visited queue' nv nt g
            | Ok (Some v) =>
                let '(visited', queue'') := enqueue_all (parents v) visited queue' in
                if decide (status v = VFinalized) then finalize_loop fuel' visited' queue'' nv nt g
                else
                  match mark_finalized h v g with
                  | (Err e, g') => Some (Err e, g')
                  | (Ok _, g') =>
                      finalize_loop fuel' visited' queue'' (saturating_add u64_max nv 1)
                        (saturating_add u64_max nt (tx_count v)) g'
                  end
            end
      end
  end.

Definition finalize_reachable_from_tips (tips : list Hash) g
    : option (Result (Z * Z) DAGError * DAGGraph St) :=
  let '(visited, queue) := enqueue_all tips ∅ [] in
  finalize_loop traversal_fuel visited queue 0 0 g.
End Graph.

(** [GenesisVertex::create] *)
Definition genesis_vertex (hash_data : list Z → Hash) (now shard_id : Z) : Result DAGVertex DAGError :=
  match Vertex.new hash_data now [] [] shard_id GENESIS_CREATOR 0 with
  | Ok v => Ok v
  | Err e => Err (InvalidVertex e)
  end.

(** ** Paths

    [path nx k x y]: [y] is [k] steps away from [x] along the neighbour function
    [nx]. *)
Fixpoint path (nx : Hash → list Hash) (k : nat) (x y : Hash) : Prop :=
  match k with
  | O => y = x
  | S k' => ∃ z, path nx k' x z ∧ y ∈ nx z
  end.

(** [y] is at most [depth] steps away from [x] and is not [x] itself. *)
Definition within (nx : Hash → list Hash) (depth : nat) (x y : Hash) : Prop :=
  y ≠ x ∧ ∃ k, (k ≤ depth)%nat ∧ path nx k x y.

(** ** Correctness of the bounded traversal *)

Lemma visit_all_spec ns d V F Q :
  ∃ new, NoDup new ∧ (∀ x, x ∈ new ↔ x ∈ ns ∧ x ∉ V) ∧
    visit_all ns d V F Q = (V ∪ list_to_set new, F ++ new, Q ++ map (λ x, (x, d)) new).
Proof.
  revert V F Q. induction ns as [|n ns IH]; intros V F Q; simpl.
  - exists []. split_and!; [constructor|set_solver|]. simpl. by rewrite !app_nil_r, (right_id_L ∅ (∪)).
  - case_decide as Hn.
    + destruct (IH V F Q) as (new & Hnd & Hin & ->). exists new. split_and!; [done|set_solver|done].
    + destruct (IH ({[n]} ∪ V) (F ++ [n]) (Q ++ [(n, d)])) as (new & Hnd & Hin & ->).
      exists (n :: new). split_and!.
      * apply list.NoDup_cons. split; [set_solver|done].
      * intros x. rewrite elem_of_cons, Hin. destruct (decide (x = n)); set_solver.
      * rewrite <- !app_assoc. simpl.
        assert ({[n]} ∪ V ∪ list_to_set new = V ∪ ({[n]} ∪ list_to_set new)) as -> by set_solver. done.
Qed.

Record traversal_inv (nx : Hash → list Hash) (h : Hash) (depth : nat)
    (V : gset Hash) (F : list Hash) (Q : list (Hash * nat)) (δ : Hash → nat) : Prop := {
  tinv_found : NoDup F ∧ h ∉ F ∧ ∀ x, x ∈ V ↔ x = h ∨ x ∈ F;
  tinv_root : δ h = 0%nat;
  tinv_path : ∀ x, x ∈ V → path nx (δ x) h x ∧ (δ x ≤ depth)%nat;
  tinv_queue : NoDup Q.*1 ∧ ∀ x d, (x, d) ∈ Q → x ∈ V ∧ δ x = d;
  tinv_sorted : ∀ x d Q', Q = (x, d) :: Q' → ∀ y, y ∈ V → (δ y ≤ S d)%nat;
  tinv_mono : StronglySorted le Q.*2;
  tinv_done : ∀ x, x ∈ V → x ∉ Q.*1 → (δ x < depth)%nat → ∀ y, y ∈ nx x → y ∈ V ∧ (δ y ≤ S (δ x))%nat
}.

Lemma map_fst_pair (d : nat) (l : list Hash) : (map (λ x, (x, d)) l).*1 = l.
Proof. induction l as [|x l IH]; [done|]. rewrite <- IH at 2. done. Qed.

Lemma map_snd_pair (d : nat) (l : list Hash) : (map (λ x, (x, d)) l).*2 = replicate (length l) d.
Proof. induction l as [|x l IH]; [done|]. simpl. rewrite <- IH. done. Qed.

Lemma StronglySorted_app_replicate l n d :
  StronglySorted le l → Forall (λ x, (x ≤ d)%nat) l → StronglySorted le (l ++ replicate n d).
Proof.
  induction 1 as [|x l Hs IH Hx]; intros Hall; simpl.
  - induction n as [|n IH]; simpl; constructor; [done|]. apply list.Forall_forall.
    intros y [-> _]%elem_of_replicate. done.
  - apply list.Forall_cons in Hall as [Hxd Hall]. constructor; [by apply IH|].
    apply list.Forall_app. split; [done|]. apply list.Forall_forall. intros y [-> _]%elem_of_replicate. done.
Qed.

(** Popping a vertex that is not expanded because it is at the depth limit. *)
Lemma traversal_skip nx h depth V F x d Q δ :
  traversal_inv nx h depth V F ((x, d) :: Q) δ → (depth ≤ d)%nat →
  traversal_inv nx h depth V F Q δ.
Proof.
  intros [Hf Hr Hp [Hnd Hq] Hb Hm Hd] Hle. simpl in *.
  apply list.NoDup_cons in Hnd as [Hx Hnd]. inversion Hm as [|? ? Hm' Hall]; subst.
  destruct (Hq x d (list_elem_of_here _ _)) as [HxV Hδ].
  split; try done.
  - split; [done|]. intros y e Hin. apply Hq. by apply list_elem_of_further.
  - intros y e Q' -> z Hz. specialize (Hb x d _ eq_refl z Hz). simpl in Hall.
    apply list.Forall_cons in Hall as [? _]. lia.
  - intros y Hy Hny Hlt. destruct (decide (y = x)) as [->|Hne]; [lia|].
    apply Hd; [done|set_solver|done].
Qed.

(** Expanding a vertex. *)
Lemma traversal_expand nx h depth V F x d Q δ new :
  traversal_inv nx h depth V F ((x, d) :: Q) δ → (d < depth)%nat →
  NoDup new → (∀ y, y ∈ new ↔ y ∈ nx x ∧ y ∉ V) →
  traversal_inv nx h depth (V ∪ list_to_set new) (F ++ new) (Q ++ map (λ y, (y, S d)) new)
    (λ y, if decide (y ∈ new) then S d else δ y).
Proof.
  intros [[Hndf [Hhf Hf]] Hr Hp [Hnd Hq] Hb Hm Hd] Hlt Hnew Hin. simpl in *.
  apply list.NoDup_cons in Hnd as [Hx Hnd]. inversion Hm as [|? ? Hm' Hall]; subst.
  destruct (Hq x d (list_elem_of_here _ _)) as [HxV Hδ]. pose proof (Hb x d Q eq_refl) as Hbd.
  assert (HQV : ∀ y, y ∈ Q.*1 → y ∈ V).
  { intros y ([y' e] & -> & Hy)%list_elem_of_fmap. by apply (Hq y' e), list_elem_of_further. }
  assert (HhV : h ∈ V) by (apply Hf; by left).
  split.
  - split_and!.
    + apply list.NoDup_app. split_and!; [done| |done]. intros y Hy Hy'. apply Hin in Hy' as [_ Hy'].
      apply Hy', Hf. by right.
    + rewrite elem_of_app. intros [?|Hh]; [done|]. apply Hin in Hh as [_ Hh]. done.
    + intros y. rewrite elem_of_union, elem_of_list_to_set, elem_of_app, Hf. tauto.
  - case_decide as Hh; [|done]. apply Hin in Hh as [_ Hh]. done.
  - intros y Hy. case_decide as Hn.
    + split; [|lia]. exists x. split; [rewrite <- Hδ; by apply Hp|]. by apply Hin in Hn as [? _].
    + apply elem_of_union in Hy as [Hy|Hy%elem_of_list_to_set]; [by apply Hp|done].
  - split.
    + rewrite fmap_app, map_fst_pair. apply list.NoDup_app. split_and!; try done.
      intros y Hy%HQV Hy'. apply Hin in Hy' as [_ ?]. done.
    + intros y e [Hy|Hy]%elem_of_app.
      * destruct (Hq y e (list_elem_of_further _ _ _ Hy)) as [HyV Hδy].
        split; [set_solver|]. case_decide as Hn; [|done]. by apply Hin in Hn as [_ ?].
      * apply list_elem_of_fmap in Hy as (y' & [= -> ->] & Hy).
        split; [set_solver|]. by rewrite decide_True.
  - intros y e Q' HQ z Hz.
    assert (Hde : (d ≤ e)%nat).
    { assert (Hin' : e ∈ (Q ++ map (λ y0, (y0, S d)) new).*2) by (rewrite HQ; simpl; apply list_elem_of_here).
      rewrite fmap_app, map_snd_pair in Hin'. apply elem_of_app in Hin' as [He|[-> _]%elem_of_replicate]; [|lia].
      by apply (proj1 (list.Forall_forall _ _) Hall). }
    case_decide; [lia|].
    apply elem_of_union in Hz as [Hz|Hz%elem_of_list_to_set]; [|done]. specialize (Hbd z Hz). lia.
  - rewrite fmap_app, map_snd_pair. apply StronglySorted_app_replicate; [done|].
    apply list.Forall_forall. intros e ([y e'] & -> & Hy)%list_elem_of_fmap. simpl.
    destruct (Hq y e' (list_elem_of_further _ _ _ Hy)) as [HyV <-]. by apply Hbd.
  - intros y Hy Hny Hlty z Hz. rewrite fmap_app, map_fst_pair in Hny.
    assert (Hnn : y ∉ new) by set_solver. rewrite (decide_False (P := y ∈ new)) in * by done.
    apply elem_of_union in Hy as [Hy|Hy%elem_of_list_to_set]; [|done].
    destruct (decide (y = x)) as [->|Hne].
    + destruct (decide (z ∈ V)) as [HzV|HzV].
      * split; [set_solver|]. rewrite decide_False by (intros Hzn; apply Hin in Hzn; tauto).
        specialize (Hbd z HzV). lia.
      * assert (z ∈ new) by (by apply Hin). split; [set_solver|]. rewrite decide_True by done. lia.
    + destruct (Hd y Hy ltac:(set_solver) Hlty z Hz) as [HzV Hle]. split; [set_solver|].
      rewrite decide_False by (intros Hzn; apply Hin in Hzn; tauto). done.
Qed.

(** What a finished traversal has found. *)
Lemma traversal_complete nx h depth V F δ :
  traversal_inv nx h depth V F [] δ → NoDup F ∧ ∀ x, x ∈ F ↔ within nx depth h x.
Proof.
  intros [[Hnd [Hh Hf]] Hr Hp _ _ _ Hd]. split; [done|].
  assert (Hreach : ∀ k x, path nx k h x → (k ≤ depth)%nat → x ∈ V ∧ (δ x ≤ k)%nat).
  { induction k as [|k IH]; simpl; intros x Hpx Hk.
    - subst x. split; [apply Hf; by left|lia].
    - destruct Hpx as (z & Hpz & Hx). destruct (IH z Hpz ltac:(lia)) as [Hz Hδ].
      destruct (Hd z Hz ltac:(simpl; set_solver) ltac:(lia) x Hx) as [? ?]. split; [done|lia]. }
  intros x. split.
  - intros Hx. assert (HxV : x ∈ V) by (apply Hf; by right). destruct (Hp x HxV).
    split; [congruence|]. eauto.
  - intros [Hne (k & Hk & Hpx)]. destruct (Hreach k x Hpx Hk) as [[?|?]%Hf _]; done.
Qed.

Lemma traversal_partial nx h depth V F Q δ :
  traversal_inv nx h depth V F Q δ → NoDup F ∧ (∀ x, x ∈ F → within nx depth h x) ∧
  size V = S (length F).
Proof.
  intros [[Hnd [Hh Hf]] Hr Hp _ _ _ Hd]. split_and!; [done| |].
  - intros x Hx. assert (HxV : x ∈ V) by (apply Hf; by right). destruct (Hp x HxV).
    split; [congruence|]. eauto.
  - replace V with (list_to_set (h :: F) : gset Hash).
    + rewrite size_list_to_set; [done|]. by apply list.NoDup_cons.
    + apply set_eq. intros x. rewrite Hf, elem_of_list_to_set, elem_of_cons. done.
Qed.

Lemma queue_le_visited nx h depth V F Q δ :
  traversal_inv nx h depth V F Q δ → (length Q ≤ size V)%nat.
Proof.
  intros Hinv. destruct (tinv_queue _ _ _ _ _ _ _ Hinv) as [Hnd Hq].
  rewrite <- (length_fmap fst Q), <- (size_list_to_set (C := gset Hash) Q.*1) by done.
  apply subseteq_size. intros x Hx%elem_of_list_to_set.
  apply list_elem_of_fmap in Hx as ([y d] & -> & Hy). by apply (Hq y d).
Qed.

(** The outcome of a traversal from [h]. *)
Definition traversal_post (nx : Hash → list Hash) (h : Hash) (depth : nat)
    (r : Result (list Hash) DAGError) : Prop :=
  match r with
  | Ok l => NoDup l ∧ ∀ x, x ∈ l ↔ within nx depth h x
  | Err e => e = TraversalLimitExceeded MAX_TRAVERSAL_VERTICES ∧
      ∃ l, NoDup l ∧ MAX_TRAVERSAL_VERTICES ≤ Z.of_nat (length l) + 1 ∧ ∀ x, x ∈ l → within nx depth h x
  end.

Lemma traverse_spec fuel next nx h depth V F Q δ :
  (∀ x, next x = Ok (nx x)) → traversal_inv nx h depth V F Q δ →
  Z.of_nat fuel + Z.of_nat (size V) - Z.of_nat (length Q) = MAX_TRAVERSAL_VERTICES + 1 →
  Z.of_nat (size V) - Z.of_nat (length Q) < MAX_TRAVERSAL_VERTICES →
  ∃ r, traverse fuel next depth V F Q = Some r ∧ traversal_post nx h depth r.
Proof.
  intros Hnext. revert V F Q δ. induction fuel as [|fuel IH]; intros V F Q δ Hinv Hfuel Hlim.
  { pose proof (queue_le_visited _ _ _ _ _ _ _ Hinv). lia. }
  simpl. destruct Q as [|[x d] Q].
  { exists (Ok F). split; [done|]. by eapply traversal_complete. }
  destruct (Z.leb_spec MAX_TRAVERSAL_VERTICES (Z.of_nat (size V))) as [Hmax|Hmax].
  { eexists. split; [done|]. destruct (traversal_partial _ _ _ _ _ _ _ Hinv) as (Hnd & Hw & Hsz).
    split; [done|]. exists F. split_and!; [done|lia|done]. }
  simpl in Hfuel, Hlim. destruct (Nat.leb_spec depth d) as [Hle|Hlt].
  { apply (IH _ _ _ δ); [by eapply traversal_skip|lia|].
    pose proof (queue_le_visited _ _ _ _ _ _ _ Hinv) as Hq. simpl in Hq. lia. }
  rewrite Hnext. destruct (visit_all_spec (nx x) (S d) V F Q) as (new & Hnd & Hin & ->).
  assert (Hsz : size (V ∪ list_to_set new) = (size V + length new)%nat).
  { rewrite size_union, size_list_to_set; [done..|]. intros y Hy Hy'%elem_of_list_to_set.
    by apply Hin in Hy' as [_ ?]. }
  eapply IH; [by eapply traversal_expand| |]; rewrite Hsz, length_app, length_map; [lia|].
  pose proof (queue_le_visited _ _ _ _ _ _ _ Hinv) as Hq. simpl in Hq. lia.
Qed.

Lemma traverse_start next nx h depth :
  (∀ x, next x = Ok (nx x)) →
  ∃ r, traverse traversal_fuel next depth {[h]} [] [(h, 0%nat)] = Some r ∧ traversal_post nx h depth r.
Proof.
  intros Hnext. apply (traverse_spec _ _ nx h depth _ _ _ (λ _, 0%nat)); [done| | |].
  - split; simpl.
    + split_and!; [constructor|set_solver|set_solver].
    + done.
    + intros x ->%elem_of_singleton. split; [done|lia].
    + split; [apply NoDup_singleton|]. intros x d Hin%list_elem_of_singleton. simplify_eq. set_solver.
    + intros; lia.
    + repeat constructor.
    + set_solver.
  - rewrite size_singleton. unfold traversal_fuel. simpl length. rewrite Z2Nat.id; unfold MAX_TRAVERSAL_VERTICES; lia.
  - rewrite size_singleton. unfold MAX_TRAVERSAL_VERTICES. simpl. lia.
Qed.

(** ** Specification vocabulary *)

Section Spec.
Context `{VertexStoreLaws St}.
Implicit Types (g : DAGGraph St).

(** The vertex a hash names: memory first, then the store. *)
Definition known g (h : Hash) : option DAGVertex :=
  match vertices g !! h with Some v => Some v | None => store_view (storage g) !! h end.

Definition stored g : gmap Hash DAGVertex := store_view (storage g).

Definition parents_fn g (h : Hash) : list Hash :=
  match known g h with Some v => parents v | None => [] end.

(** [x] can be reached from one of [ts] by going from vertices to parents. *)
Definition reachable (nx : Hash → list Hash) (ts : list Hash) (x : Hash) : Prop :=
  ∃ t k, t ∈ ts ∧ path nx k t x.

(** Every vertex is filed under its own hash, and what is in memory is in the
    store. *)
Record keyed g : Prop := {
  keyed_stored : ∀ h v, stored g !! h = Some v → vhash v = h;
  keyed_durable : ∀ h v, vertices g !! h = Some v → stored g !! h = Some v
}.

(** The invariant of the graph. *)
Record wf g : Prop := {
  dag_keyed : keyed g;
  dag_parents : ∀ h v p, stored g !! h = Some v → p ∈ parents v → is_Some (stored g !! p);
  dag_acyclic : ∃ rank : Hash → nat, ∀ h v p, stored g !! h = Some v → p ∈ parents v → (rank p < rank h)%nat;
  dag_children : ∀ h v p, stored g !! h = Some v → p ∈ parents v → h ∈ get_children g p;
  dag_children_max : ∀ p, Z.of_nat (length (get_children g p)) ≤ MAX_CHILDREN_PER_VERTEX;
  dag_tips_known : ∀ s x, x ∈ get_tips g s → is_Some (stored g !! x);
  dag_tips_max : ∀ s, Z.of_nat (length (get_tips g s)) ≤ MAX_TIPS_PER_SHARD;
  dag_shards_max : Z.of_nat (size (tips g)) ≤ MAX_SHARDS;
  dag_heights : ∀ h v, stored g !! h = Some v →
    ∃ z, heights g !! vshard_id v = Some z ∧ height v ≤ z
}.

(** The operations that change the graph. *)
Inductive Op : Type :=
  | OAddVertex (v : DAGVertex)
  | OSetAdmin (caller a : Address)
  | OAddCreator (a : Address)
  | OAddCreatorChecked (caller a : Address)
  | ORemoveCreator (a : Address)
  | ORemoveCreatorChecked (caller a : Address)
  | OUpdateStatus (caller : Address) (h : Hash) (s : VertexStatus)
  | OUpdateStatusInternal (h : Hash) (s : VertexStatus)
  | OFinalize (ts : list Hash).

Definition step g (o : Op) : DAGGraph St :=
  match o with
  | OAddVertex v => (add_vertex v g).2
  | OSetAdmin c a => (set_admin c a g).2
  | OAddCreator a => (add_authorized_creator a g).2
  | OAddCreatorChecked c a => (add_authorized_creator_checked c a g).2
  | ORemoveCreator a => (remove_authorized_creator a g).2
  | ORemoveCreatorChecked c a => (remove_authorized_creator_checked c a g).2
  | OUpdateStatus c h s => (update_vertex_status c h s g).2
  | OUpdateStatusInternal h s => (update_vertex_status_internal h s g).2
  | OFinalize ts =>
      match finalize_reachable_from_tips ts g with Some (_, g') => g' | None => g end
  end.

(** A vertex is added under a hash that is not in use. *)
Definition fresh_op g (o : Op) : bool :=
  match o with OAddVertex v => bool_decide (stored g !! vhash v = None) | _ => true end.

Fixpoint all_fresh g (os : list Op) : bool :=
  match os with
  | [] => true
  | o :: os' => fresh_op g o && all_fresh (step g o) os'
  end.

(** ** Lookups *)

Lemma get_vertex_known g h : get_vertex g h = Ok (known g h).
Proof.
  unfold get_vertex, known. destruct (vertices g !! h); [done|]. by rewrite store_get_view.
Qed.

Lemma parents_of_fn g h : parents_of g h = Ok (parents_fn g h).
Proof. unfold parents_of, parents_fn. rewrite get_vertex_known. by destruct (known g h). Qed.

Lemma known_stored g h : keyed g → known g h = stored g !! h.
Proof.
  intros Hk. unfold known. destruct (vertices g !! h) as [v|] eqn:Hv; [|done].
  symmetry. by apply Hk.
Qed.

Lemma put_vertex_eq g v :
  put_vertex v g = (Ok (), set_storage (store_put v (storage g)).2 g).
Proof.
  unfold put_vertex. pose proof (store_put_ok v (storage g)) as Hok.
  destruct (store_put v (storage g)) as [r s]. simpl in *. by subst r.
Qed.

Lemma stored_put g v : stored (set_storage (store_put v (storage g)).2 g) = <[vhash v := v]> (stored g).
Proof. unfold stored. simpl. apply store_put_view. Qed.

Lemma set_status_id v : set_status (status v) v = v.
Proof. by destruct v. Qed.

(** ** Finalization *)

Lemma enqueue_all_spec xs V Q :
  ∃ new, NoDup new ∧ (∀ x, x ∈ new ↔ x ∈ xs ∧ x ∉ V) ∧
    enqueue_all xs V Q = (V ∪ list_to_set new, Q ++ new).
Proof.
  revert V Q. induction xs as [|n xs IH]; intros V Q; simpl.
  - exists []. split_and!; [constructor|set_solver|]. simpl. by rewrite app_nil_r, (right_id_L ∅ (∪)).
  - case_decide as Hn.
    + destruct (IH V Q) as (new & Hnd & Hin & ->). exists new. split_and!; [done|set_solver|done].
    + destruct (IH ({[n]} ∪ V) (Q ++ [n])) as (new & Hnd & Hin & ->).
      exists (n :: new). split_and!.
      * apply list.NoDup_cons. split; [set_solver|done].
      * intros x. rewrite elem_of_cons, Hin. destruct (decide (x = n)); set_solver.
      * rewrite <- !app_assoc. simpl.
        assert ({[n]} ∪ V ∪ list_to_set new = V ∪ ({[n]} ∪ list_to_set new)) as -> by set_solver. done.
Qed.

Record finalize_inv g0 (ts : list Hash) (V : gset Hash) (Q : list Hash) g : Prop := {
  finv_keyed : keyed g;
  finv_tips : ∀ t, t ∈ ts → t ∈ V;
  finv_reach : ∀ x, x ∈ V → reachable (parents_fn g0) ts x;
  finv_queue : NoDup Q ∧ ∀ x, x ∈ Q → x ∈ V;
  finv_done : ∀ x, x ∈ V → x ∉ Q →
    (∀ y, y ∈ parents_fn g0 x → y ∈ V) ∧ stored g !! x = set_status VFinalized <$> stored g0 !! x;
  finv_rest : ∀ x, (x ∈ V → x ∈ Q) → stored g !! x = stored g0 !! x;
  finv_same : tips g = tips g0 ∧ children g = children g0 ∧ heights g = heights g0 ∧
    min_parents g = min_parents g0 ∧ max_parents g = max_parents g0 ∧ admin g = admin g0 ∧
    authorized_creators g = authorized_creators g0 ∧ vertex_count g = vertex_count g0
}.

(** Marking the vertex filed under [h]. *)
Lemma mark_finalized_spec g h v :
  keyed g → stored g !! h = Some v →
  ∃ g', mark_finalized h v g = (Ok (), g') ∧ keyed g' ∧
    stored g' = <[h := set_status VFinalized v]> (stored g) ∧
    tips g' = tips g ∧ children g' = children g ∧ heights g' = heights g ∧
    min_parents g' = min_parents g ∧ max_parents g' = max_parents g ∧ admin g' = admin g ∧
    authorized_creators g' = authorized_creators g ∧ vertex_count g' = vertex_count g.
Proof.
  intros Hk Hv. pose proof (keyed_stored _ Hk h v Hv) as Hh.
  set (g' := set_vertices (<[h := set_status VFinalized v]> (vertices g)) (vertex_count g)
    (set_storage (store_put (set_status VFinalized v) (storage g)).2 g)).
  exists g'. split; [unfold mark_finalized, bindM; by rewrite put_vertex_eq|].
  assert (Hst : stored g' = <[h := set_status VFinalized v]> (stored g)).
  { unfold stored, g'. simpl. rewrite store_put_view. simpl. by rewrite Hh. }
  split_and!; try done.
  split; rewrite Hst; simpl.
  - intros k w. rewrite lookup_insert. case_decide; [naive_solver|]. apply (keyed_stored _ Hk).
  - intros k w. rewrite !lookup_insert. case_decide; [done|]. apply (keyed_durable _ Hk).
Qed.

Lemma path_trans_parent nx ts x y : reachable nx ts x → y ∈ nx x → reachable nx ts y.
Proof. intros (t & k & Ht & Hp) Hy. exists t, (S k). split; [done|]. by exists x. Qed.

(** One iteration: the popped vertex is expanded and marked if it is known. *)
Lemma finalize_step g0 ts V h Q g new g' :
  finalize_inv g0 ts V (h :: Q) g → NoDup new →
  (∀ x, x ∈ new ↔ x ∈ parents_fn g0 h ∧ x ∉ V) →
  keyed g' → stored g' = from_option (λ v, <[h := set_status VFinalized v]> (stored g)) (stored g) (stored g !! h) →
  (tips g' = tips g ∧ children g' = children g ∧ heights g' = heights g ∧
    min_parents g' = min_parents g ∧ max_parents g' = max_parents g ∧ admin g' = admin g ∧
    authorized_creators g' = authorized_creators g ∧ vertex_count g' = vertex_count g) →
  finalize_inv g0 ts (V ∪ list_to_set new) (Q ++ new) g'.
Proof.
  intros [Hk Ht Hr [Hnd Hq] Hd Hrest Hs] Hnew Hin Hk' Hst' Hs'.
  apply list.NoDup_cons in Hnd as [Hh Hnd].
  assert (HhV : h ∈ V) by (apply Hq; left).
  assert (Hhst : stored g !! h = stored g0 !! h) by (apply Hrest; intros _; left).
  assert (Hother : ∀ x, x ≠ h → stored g' !! x = stored g !! x).
  { intros x Hx. rewrite Hst'. destruct (stored g !! h); simpl; [|done]. by rewrite lookup_insert_ne. }
  assert (Hself : stored g' !! h = set_status VFinalized <$> stored g0 !! h).
  { rewrite Hst', <- Hhst. destruct (stored g !! h) eqn:E; simpl; [by rewrite lookup_insert_eq|done]. }
  split; [done| | | | | |].
  - intros t Htt. set_solver.
  - intros x [Hx|Hx%elem_of_list_to_set]%elem_of_union; [by apply Hr|].
    apply Hin in Hx as [Hx _]. eapply path_trans_parent; [by apply Hr|done].
  - split.
    + apply list.NoDup_app. split_and!; [done| |done]. intros x Hx Hx'. apply Hin in Hx' as [_ Hx'].
      apply Hx', Hq. by right.
    + intros x [Hx|Hx]%elem_of_app; [apply elem_of_union; left; apply Hq; by right|set_solver].
  - intros x Hx Hnq. destruct (decide (x = h)) as [->|Hne].
    + split; [|done]. intros y Hy. destruct (decide (y ∈ V)); [set_solver|].
      apply elem_of_union; right. apply elem_of_list_to_set. by apply Hin.
    + assert (HxV : x ∈ V) by set_solver.
      destruct (Hd x HxV) as [Hpar Hfin]; [set_solver|].
      split; [set_solver|]. rewrite Hother by done. done.
  - intros x Hx. destruct (decide (x = h)) as [->|Hne].
    + exfalso. assert (h ∈ Q ++ new) as [?|Hn]%elem_of_app by (apply Hx; set_solver); [done|].
      apply Hin in Hn. tauto.
    + rewrite Hother by done. apply Hrest. intros HxV. right.
      assert (x ∈ Q ++ new) as [?|Hn]%elem_of_app by (apply Hx; set_solver); [done|].
      apply Hin in Hn. tauto.
  - destruct Hs as (? & ? & ? & ? & ? & ? & ? & ?), Hs' as (? & ? & ? & ? & ? & ? & ? & ?).
    split_and!; congruence.
Qed.

(** The outcome of finalizing from [ts]. *)
Definition finalize_post g0 (ts : list Hash) (r : Result (Z * Z) DAGError) g : Prop :=
  match r with
  | Ok _ =>
      (∃ l, NoDup l ∧ Z.of_nat (length l) < MAX_TRAVERSAL_VERTICES ∧
        (∀ x, x ∈ l ↔ reachable (parents_fn g0) ts x) ∧
        (∀ x, x ∈ l → stored g !! x = set_status VFinalized <$> stored g0 !! x) ∧
        (∀ x, x ∉ l → stored g !! x = stored g0 !! x))
  | Err e => e = TraversalLimitExceeded MAX_TRAVERSAL_VERTICES ∧
      ∃ l, NoDup l ∧ MAX_TRAVERSAL_VERTICES ≤ Z.of_nat (length l) ∧
        ∀ x, x ∈ l → reachable (parents_fn g0) ts x
  end.

Lemma finalize_finished g0 ts V g nv nt :
  finalize_inv g0 ts V [] g → Z.of_nat (size V) < MAX_TRAVERSAL_VERTICES →
  finalize_post g0 ts (Ok (nv, nt)) g.
Proof.
  intros Hinv Hsz. destruct Hinv as [Hk Ht Hr _ Hd Hrest Hs].
  exists (elements V). split_and!.
  - apply NoDup_elements.
  - done.
  - intros x. rewrite elem_of_elements. split; [apply Hr|]. intros (t & k & Htt & Hp).
    revert x Hp. induction k as [|k IH]; simpl; intros x Hp; [subst; by apply Ht|].
    destruct Hp as (z & Hz & Hx). destruct (Hd z (IH z Hz)) as [Hpar _]; [set_solver|]. by apply Hpar.
  - intros x Hx%elem_of_elements. apply Hd; [done|set_solver].
  - intros x Hx. apply Hrest. intros HV. exfalso. apply Hx. by apply elem_of_elements.
Qed.

Lemma finalize_queue_le g0 ts V Q g : finalize_inv g0 ts V Q g → (length Q ≤ size V)%nat.
Proof.
  intros Hinv. destruct (finv_queue _ _ _ _ _ Hinv) as [Hnd Hq].
  rewrite <- (size_list_to_set (C := gset Hash) Q) by done.
  apply subseteq_size. intros x Hx%elem_of_list_to_set. by apply Hq.
Qed.

Lemma finalize_loop_spec g0 ts fuel V Q nv nt g :
  keyed g0 → finalize_inv g0 ts V Q g →
  (Q = [] → Z.of_nat (size V) < MAX_TRAVERSAL_VERTICES) →
  Z.of_nat fuel + Z.of_nat (size V) - Z.of_nat (length Q) = MAX_TRAVERSAL_VERTICES + 1 →
  Z.of_nat (size V) - Z.of_nat (length Q) < MAX_TRAVERSAL_VERTICES →
  ∃ r g', finalize_loop fuel V Q nv nt g = Some (r, g') ∧ finalize_post g0 ts r g' ∧
    ∃ V' Q', finalize_inv g0 ts V' Q' g'.
Proof.
  intros Hk0. revert V Q nv nt g. induction fuel as [|fuel IH]; intros V Q nv nt g Hinv Hend Hfuel Hlim.
  { pose proof (finalize_queue_le _ _ _ _ _ Hinv). lia. }
  simpl. destruct Q as [|h Q].
  { eexists _, _. split; [done|]. split; [by eapply finalize_finished; [done|apply Hend]|]. eauto. }
  destruct (Z.leb_spec MAX_TRAVERSAL_VERTICES (Z.of_nat (size V))) as [Hmax|Hmax].
  { eexists _, _. split; [done|]. split; [|eauto]. split; [done|]. exists (elements V).
    split_and!; [apply NoDup_elements|done|]. intros x Hx%elem_of_elements.
    by apply (finv_reach _ _ _ _ _ Hinv). }
  pose proof (finalize_queue_le _ _ _ _ _ Hinv) as Hql. simpl in Hfuel, Hlim, Hql.
  assert (Hhst : stored g !! h = stored g0 !! h)
    by (apply (finv_rest _ _ _ _ _ Hinv); intros _; left).
  assert (Hpf : parents_fn g0 h = match stored g !! h with Some v => parents v | None => [] end).
  { unfold parents_fn. by rewrite known_stored, Hhst. }
  pose proof (finv_keyed _ _ _ _ _ Hinv) as Hk.
  assert (Hnext : ∀ new nv' nt' g', NoDup new → (∀ x, x ∈ new ↔ x ∈ parents_fn g0 h ∧ x ∉ V) →
    finalize_inv g0 ts (V ∪ list_to_set new) (Q ++ new) g' →
    ∃ r g'', finalize_loop fuel (V ∪ list_to_set new) (Q ++ new) nv' nt' g' = Some (r, g'') ∧
      finalize_post g0 ts r g'' ∧ ∃ V' Q', finalize_inv g0 ts V' Q' g'').
  { intros new nv' nt' g' Hnd Hin Hinv'.
    assert (Hsz : size (V ∪ list_to_set new) = (size V + length new)%nat).
    { rewrite size_union, size_list_to_set; [done..|]. intros y Hy Hy'%elem_of_list_to_set.
      by apply Hin in Hy' as [_ ?]. }
    apply IH; [done|..]; rewrite ?Hsz, ?length_app; [|lia..].
    intros [-> ->]%app_eq_nil. simpl. lia. }
  rewrite get_vertex_known, known_stored by done. destruct (stored g !! h) as [v|] eqn:Hv; rewrite Hpf in Hnext.
  - destruct (enqueue_all_spec (parents v) V Q) as (new & Hnd & Hin & ->).
    assert (Hin' : ∀ x, x ∈ new ↔ x ∈ parents_fn g0 h ∧ x ∉ V) by (by rewrite Hpf).
    case_decide as Hfin.
    + apply Hnext; [done..|]. eapply finalize_step; [done..| |by split_and!].
      rewrite Hv. simpl. rewrite <- Hfin, set_status_id, insert_id; done.
    + destruct (mark_finalized_spec g h v Hk Hv) as (g' & -> & Hk' & Hst' & Hs').
      apply Hnext; [done..|]. eapply finalize_step; [done..| |done]. by rewrite Hv.
  - specialize (Hnext [] nv nt g). simpl in Hnext. rewrite (right_id_L ∅ (∪)), app_nil_r in Hnext.
    apply Hnext; [constructor|set_solver|].
    pose proof (finalize_step g0 ts V h Q g [] g Hinv) as Hstep.
    simpl in Hstep. rewrite (right_id_L ∅ (∪)), app_nil_r in Hstep.
    apply Hstep; [constructor| |done|by rewrite Hv|by split_and!]. rewrite Hpf. set_solver.
Qed.

Lemma finalize_spec g ts :
  keyed g →
  ∃ r g', finalize_reachable_from_tips ts g = Some (r, g') ∧ finalize_post g ts r g' ∧
    ∃ V Q, finalize_inv g ts V Q g'.
Proof.
  intros Hk. unfold finalize_reachable_from_tips.
  destruct (enqueue_all_spec ts ∅ []) as (new & Hnd & Hin & ->).
  assert (Hsz : size (∅ ∪ list_to_set new : gset Hash) = length new).
  { rewrite (left_id_L ∅ (∪)). by apply size_list_to_set. }
  apply finalize_loop_spec; [done| |..].
  - split; [done| | | | | |done].
    + intros t Ht. apply elem_of_union; right. apply elem_of_list_to_set, Hin. set_solver.
    + intros x [Hx|Hx%elem_of_list_to_set]%elem_of_union; [set_solver|].
      apply Hin in Hx as [Hx _]. exists x, 0%nat. done.
    + split; [done|]. set_solver.
    + set_solver.
    + done.
  - intros Hnil. simpl in Hnil. rewrite Hsz, Hnil. done.
  - rewrite Hsz. unfold traversal_fuel. change ([] ++ new) with new. rewrite Z2Nat.id; unfold MAX_TRAVERSAL_VERTICES; lia.
  - rewrite Hsz. change ([] ++ new) with new. unfold MAX_TRAVERSAL_VERTICES. lia.
Qed.

(** ** What a refused insertion can change

    Memory shrinks by eviction and the children lists may have grown; the store,
    the tips and the heights are untouched. *)
Record reduced g g' : Prop := {
  red_storage : storage g' = storage g;
  red_tips : tips g' = tips g;
  red_heights : heights g' = heights g;
  red_memory : ∀ h v, vertices g' !! h = Some v → vertices g !! h = Some v;
  red_children : ∀ p x, x ∈ get_children g p → x ∈ get_children g' p;
  red_children_max :
    (∀ p, Z.of_nat (length (get_children g p)) ≤ MAX_CHILDREN_PER_VERTEX) →
    ∀ p, Z.of_nat (length (get_children g' p)) ≤ MAX_CHILDREN_PER_VERTEX
}.

Lemma reduced_refl g : reduced g g.
Proof. by split. Qed.

Lemma reduced_trans g1 g2 g3 : reduced g1 g2 → reduced g2 g3 → reduced g1 g3.
Proof. intros [] []. split; try congruence; eauto. Qed.

Lemma wf_reduced g g' : reduced g g' → wf g → wf g'.
Proof.
  intros [Hs Ht Hh Hm Hc Hcm] [[Hk1 Hk2] Hp Ha Hch Hchm Htk Htm Hsh Hhe].
  unfold stored, get_tips, get_height in *.
  split; unfold stored, get_tips, get_height; rewrite ?Hs, ?Ht, ?Hh; try done; eauto.
  split; unfold stored; rewrite Hs; eauto.
Qed.

Lemma deletes_lookup (hs : list Hash) (m : gmap Hash DAGVertex) h v :
  foldl (λ m h, delete h m) m hs !! h = Some v → m !! h = Some v.
Proof.
  revert m. induction hs as [|x hs IH]; intros m; simpl; [done|]. intros Hl%IH.
  by apply lookup_delete_Some in Hl as [_ ?].
Qed.

Lemma make_room_reduced g : reduced g (make_room g).2.
Proof.
  unfold make_room, bindM, gets, evict_old_vertices, modify, fail_if, returns.
  destruct (MAX_VERTICES_IN_MEMORY <=? vertex_count g); simpl; [|apply reduced_refl].
  split; try done. simpl. intros h v. apply deletes_lookup.
Qed.

Lemma get_children_insert g p cs q :
  get_children (set_children (<[p := cs]> (children g)) g) q =
    if decide (p = q) then cs else get_children g q.
Proof.
  unfold get_children. simpl. rewrite lookup_insert. by destruct (decide (p = q)).
Qed.

Lemma push_child_spec c p g :
  push_child c p g =
    let g1 := set_children (<[p := get_children g p]> (children g)) g in
    if MAX_CHILDREN_PER_VERTEX <=? Z.of_nat (length (get_children g p)) then (Err ChildrenLimitExceeded, g1)
    else (Ok (), set_children (<[p := get_children g p ++ [c]]> (children g1)) g1).
Proof.
  unfold push_child, bindM, modify, gets, fail_if. cbv zeta.
  rewrite get_children_insert, decide_True by done.
  by destruct (MAX_CHILDREN_PER_VERTEX <=? Z.of_nat (length (get_children g p))).
Qed.

Lemma push_child_children c p g q :
  get_children (push_child c p g).2 q =
    if decide (p = q) then
      if MAX_CHILDREN_PER_VERTEX <=? Z.of_nat (length (get_children g p)) then get_children g q
      else get_children g q ++ [c]
    else get_children g q.
Proof.
  rewrite push_child_spec. cbv zeta.
  destruct (MAX_CHILDREN_PER_VERTEX <=? _); cbn [snd]; rewrite !get_children_insert;
    destruct (decide (p = q)) as [->|]; done.
Qed.

Lemma push_child_reduced c p g : reduced g (push_child c p g).2.
Proof.
  split.
  1-4: rewrite push_child_spec; cbv zeta; destruct (MAX_CHILDREN_PER_VERTEX <=? _); done.
  - intros q x Hx. rewrite push_child_children. repeat case_match; set_solver.
  - intros Hmax q. rewrite push_child_children. specialize (Hmax q).
    destruct (decide (p = q)) as [->|]; [|done].
    destruct (Z.leb_spec MAX_CHILDREN_PER_VERTEX (Z.of_nat (length (get_children g q)))); [done|].
    rewrite length_app. simpl. lia.
Qed.

Lemma check_parent_spec p g :
  check_parent p g = ((if decide (is_Some (known g p)) then Ok () else Err InvalidParent), g).
Proof.
  unfold check_parent, bindM, gets, known, returns, throw. simpl. unfold id.
  destruct (vertices g !! p) as [v|]; [by rewrite decide_True|].
  rewrite store_get_view. destruct (store_view (storage g) !! p); [by rewrite decide_True|].
  by rewrite decide_False by (intros [? ?]; done).
Qed.

(** ** Registration with the parents *)

Lemma link_vertex_spec v g :
  keyed g →
  reduced g (link_vertex v g).2 ∧
  ((link_vertex v g).1 = Ok () →
     (∀ p, p ∈ parents v → is_Some (stored g !! p)) ∧
     (tips g !! vshard_id v = None → Z.of_nat (size (tips g)) < MAX_SHARDS) ∧
     ∀ p, p ∈ parents v → vhash v ∈ get_children (link_vertex v g).2 p).
Proof.
  intros Hk. destruct (link_vertex v g) as [r g'] eqn:Hl. simpl. unfold link_vertex in Hl.
  rewrite gets_bind, fail_if_bind in Hl. unfold id in Hl.
  destruct (negb _); [simplify_eq; split; [apply reduced_refl|done]|].
  pose proof (make_room_reduced g) as Hroom.
  apply bindM_cases in Hl as [(u & g1 & Hr & Hl)|(e & Hr & ->)]; rewrite Hr in Hroom; simpl in Hroom;
    [|by split].
  rewrite !fail_if_bind in Hl. do 2 (case_match; [simplify_eq; by split|]).
  assert (Hchk : (for_each (parents v) check_parent g1).2 = g1).
  { apply (for_each_inv (λ s, s = g1)); [|done]. intros x s _ ->. by rewrite check_parent_spec. }
  apply bindM_cases in Hl as [(u' & g2 & Hf & Hl)|(e & Hf & ->)]; rewrite Hf in Hchk; simpl in Hchk;
    [|subst; by split].
  subst g2. rewrite gets_bind, fail_if_bind in Hl.
  destruct (bool_decide _ && _) eqn:Hsh; [simplify_eq; by split|].
  assert (Hpush : reduced g1 (for_each (parents v) (push_child (vhash v)) g1).2).
  { apply (for_each_inv (reduced g1)); [|apply reduced_refl].
    intros p s _ Hs. eapply reduced_trans; [done|apply push_child_reduced]. }
  rewrite Hl in Hpush. simpl in Hpush. split; [by eapply reduced_trans|]. intros ->. destruct u'. split_and!.
  - intros p Hp. rewrite <- known_stored by done.
    assert (Hp1 : is_Some (known g1 p)).
    { apply (for_each_ok (λ p s, is_Some (known s p)) _ _ _ _) with (3 := Hf); [| |done].
      - intros x s s'. rewrite check_parent_spec. case_decide; naive_solver.
      - intros x y s s' Hx. rewrite check_parent_spec. case_decide; naive_solver. }
    unfold known in *. rewrite (red_storage _ _ Hroom) in Hp1.
    destruct (vertices g1 !! p) as [w|] eqn:Hw; [by rewrite (red_memory _ _ Hroom p w Hw)|].
    by destruct (vertices g !! p).
  - intros Hnone. rewrite (red_tips _ _ Hroom) in Hsh. rewrite bool_decide_true in Hsh by done.
    simpl in Hsh. by apply Z.leb_gt in Hsh.
  - apply (for_each_ok (λ p s, vhash v ∈ get_children s p) _ _ _ _) with (3 := Hl).
    + intros p s s' Hps. pose proof (push_child_children (vhash v) p s p) as Hc. rewrite Hps in Hc.
      rewrite push_child_spec in Hps. cbv zeta in Hps. simpl in Hc. rewrite decide_True in Hc by done.
      destruct (MAX_CHILDREN_PER_VERTEX <=? _); [done|]. rewrite Hc. set_solver.
    + intros p q s s' Hx Hps. pose proof (push_child_reduced (vhash v) q s) as Hred.
      rewrite Hps in Hred. by apply (red_children _ _ Hred).
Qed.

(** ** Insertion *)

(** The graph after a successful insertion, from the one the registration
    left. *)
Definition inserted (v : DAGVertex) g : DAGGraph St :=
  let g1 := set_tips (<[vshard_id v := next_tips (tips g !! vshard_id v) v]> (tips g)) g in
  let g2 := set_heights
    (<[vshard_id v := next_height (heights g1 !! vshard_id v) (height v)]> (heights g1)) g1 in
  let g3 := set_storage (store_put v (storage g2)).2 g2 in
  set_vertices (<[vhash v := v]> (vertices g3)) (wrapping_add u64_max (vertex_count g3) 1) g3.

Lemma add_vertex_cases v g :
  (∃ e, add_vertex v g = (Err e, (link_vertex v g).2)) ∨
  ((link_vertex v g).1 = Ok () ∧ add_vertex v g = (Ok (), inserted v (link_vertex v g).2)).
Proof.
  unfold add_vertex, update_tips, modify, bindM.
  destruct (link_vertex v g) as [[[]|e] g'] eqn:Hl; cbn [fst snd].
  - right. split; [done|]. by rewrite put_vertex_eq.
  - left. eauto.
Qed.

Lemma next_tips_spec old v :
  (Z.of_nat (length (default [] old)) ≤ MAX_TIPS_PER_SHARD →
     Z.of_nat (length (next_tips old v)) ≤ MAX_TIPS_PER_SHARD) ∧
  ∀ x, x ∈ next_tips old v → x = vhash v ∨ x ∈ default [] old.
Proof.
  destruct old as [ts|]; simpl.
  - split.
    + intros _. rewrite length_drop. unfold MAX_TIPS_PER_SHARD. lia.
    + intros x Hx. set (ts' := filter _ _ ++ _) in Hx. set (n := (length ts' - _)%nat) in Hx.
      assert (Hi : x ∈ take n ts' ++ drop n ts') by set_solver. rewrite take_drop in Hi.
      apply elem_of_app in Hi as [Hi|Hi]; [|left; set_solver]. right. by apply list_elem_of_filter in Hi as [_ ?].
  - split; [done|]. intros x Hx. left. set_solver.
Qed.

Lemma max_rank_le (rank : Hash → nat) ps p :
  p ∈ ps → (rank p ≤ foldr (λ p m, Nat.max (rank p) m) 0 ps)%nat.
Proof.
  induction ps as [|q ps IH]; intros Hp; [by apply not_elem_of_nil in Hp|]. simpl.
  apply elem_of_cons in Hp as [->|Hp]; [lia|]. specialize (IH Hp). lia.
Qed.

Lemma inserted_stored v g : stored (inserted v g) = <[vhash v := v]> (stored g).
Proof. unfold stored, inserted. simpl. apply store_put_view. Qed.

Lemma inserted_keyed v g : keyed g → keyed (inserted v g).
Proof.
  intros [Hk1 Hk2]. split; rewrite inserted_stored.
  - intros h w. rewrite lookup_insert. case_decide; [naive_solver|]. apply Hk1.
  - intros h w. simpl. rewrite !lookup_insert. case_decide; [done|]. apply Hk2.
Qed.

Lemma inserted_acyclic v g :
  (∀ h w p, stored g !! h = Some w → p ∈ parents w → is_Some (stored g !! p)) →
  (∃ rank : Hash → nat, ∀ h w p, stored g !! h = Some w → p ∈ parents w → (rank p < rank h)%nat) →
  (∀ p, p ∈ parents v → is_Some (stored g !! p)) → stored g !! vhash v = None →
  ∃ rank : Hash → nat, ∀ h w p, stored (inserted v g) !! h = Some w → p ∈ parents w → (rank p < rank h)%nat.
Proof.
  intros Hcl [rank Hrank] Hpar Hfresh.
  exists (λ x, if decide (x = vhash v) then S (foldr (λ p m, Nat.max (rank p) m) 0%nat (parents v)) else rank x).
  intros h w p. rewrite inserted_stored, lookup_insert. case_decide as Hh.
  - intros [= <-] Hp. rewrite (decide_True (P := h = vhash v)) by done.
    rewrite decide_False by (intros ->; destruct (Hpar _ Hp); congruence).
    pose proof (max_rank_le rank _ _ Hp). lia.
  - intros Hw Hp. rewrite (decide_False (P := h = vhash v)) by done.
    rewrite decide_False; [by eapply Hrank|].
    intros ->. destruct (Hcl _ _ _ Hw Hp). congruence.
Qed.

Lemma wf_inserted v g :
  wf g → stored g !! vhash v = None →
  (∀ p, p ∈ parents v → is_Some (stored g !! p)) →
  (tips g !! vshard_id v = None → Z.of_nat (size (tips g)) < MAX_SHARDS) →
  (∀ p, p ∈ parents v → vhash v ∈ get_children g p) → wf (inserted v g).
Proof.
  intros [Hk Hp Ha Hch Hchm Htk Htm Hsh Hhe] Hfresh Hpar Hshard Hchild.
  assert (Htips : ∀ s, get_tips (inserted v g) s =
    if decide (vshard_id v = s) then next_tips (tips g !! vshard_id v) v else get_tips g s).
  { intros s. unfold get_tips, inserted. simpl. rewrite lookup_insert. by destruct (decide _). }
  assert (Hsome : ∀ x, is_Some (stored g !! x) → is_Some (stored (inserted v g) !! x)).
  { intros x Hx. rewrite inserted_stored, lookup_insert. by case_decide. }
  split.
  - by apply inserted_keyed.
  - intros h w p. rewrite inserted_stored at 1. rewrite lookup_insert.
    case_decide; [intros [= <-]|]; eauto.
  - by apply inserted_acyclic.
  - intros h w p. rewrite inserted_stored, lookup_insert.
    change (get_children (inserted v g) p) with (get_children g p).
    case_decide; [intros [= <-]; subst|]; eauto.
  - done.
  - intros s x. rewrite Htips. case_decide as Hs; [|eauto].
    intros [->|Hx]%next_tips_spec; [rewrite inserted_stored, lookup_insert_eq; done|].
    by apply Hsome, (Htk (vshard_id v)).
  - intros s. rewrite Htips. case_decide; [|done]. apply next_tips_spec. apply (Htm (vshard_id v)).
  - unfold inserted. simpl. destruct (tips g !! vshard_id v) eqn:Ht.
    + rewrite map_size_insert_Some; [done|by rewrite Ht].
    + rewrite map_size_insert_None by done. specialize (Hshard eq_refl). lia.
  - intros h w. rewrite inserted_stored, lookup_insert. unfold inserted. simpl.
    rewrite lookup_insert. intros Hw. destruct (decide (vhash v = h)) as [?|].
    + injection Hw as <-. rewrite decide_True by done. eexists; split; [done|]. unfold next_height.
      destruct (heights g !! vshard_id v) as [z|]; [|done]. destruct (Z.ltb_spec z (height v)); lia.
    + destruct (Hhe h w Hw) as (z & Hz & Hle). case_decide as Hs; [|eauto]. rewrite Hs, Hz.
      eexists; split; [done|]. simpl. destruct (Z.ltb_spec z (height v)); lia.
Qed.

Lemma wf_add_vertex v g :
  wf g → stored g !! vhash v = None → wf (add_vertex v g).2.
Proof.
  intros Hwf Hfresh. destruct (link_vertex_spec v g (dag_keyed _ Hwf)) as [Hred Hok].
  pose proof (wf_reduced _ _ Hred Hwf) as Hwf'.
  destruct (add_vertex_cases v g) as [[e ->]|[Hl ->]]; [done|]. simpl.
  destruct (Hok Hl) as (Hpar & Hsh & Hch).
  assert (Hst : stored (link_vertex v g).2 = stored g) by (unfold stored; by rewrite (red_storage _ _ Hred)).
  apply wf_inserted; rewrite ?Hst, ?(red_tips _ _ Hred); done.
Qed.

(** ** Relabelling: only statuses change *)

Lemma wf_relabel g g' :
  wf g → keyed g' → tips g' = tips g → children g' = children g → heights g' = heights g →
  (∀ x, ∃ f : DAGVertex → DAGVertex, stored g' !! x = f <$> stored g !! x ∧
     ∀ v, parents (f v) = parents v ∧ vshard_id (f v) = vshard_id v ∧ height (f v) = height v) →
  wf g'.
Proof.
  intros [Hk Hp [rank Ha] Hch Hchm Htk Htm Hsh Hhe] Hk' Ht Hc Hh Hst.
  assert (Hback : ∀ x v', stored g' !! x = Some v' → ∃ v, stored g !! x = Some v ∧
    parents v' = parents v ∧ vshard_id v' = vshard_id v ∧ height v' = height v).
  { intros x v' Hx. destruct (Hst x) as (f & Hf & Hsame). rewrite Hf in Hx.
    apply fmap_Some in Hx as (v & Hv & ->). exists v. split; [done|]. apply Hsame. }
  assert (Hsome : ∀ x, is_Some (stored g !! x) → is_Some (stored g' !! x)).
  { intros x Hx. destruct (Hst x) as (f & -> & _). by apply fmap_is_Some. }
  unfold get_children, get_tips in *.
  split; unfold get_children, get_tips; rewrite ?Ht, ?Hc, ?Hh; try done.
  - intros h v' p (v & Hv & -> & _)%Hback Hin. eauto.
  - exists rank. intros h v' p (v & Hv & -> & _)%Hback. by apply Ha.
  - intros h v' p (v & Hv & -> & _)%Hback. by apply Hch.
  - intros s x Hx. eauto.
  - intros h v' (v & Hv & _ & -> & ->)%Hback. eauto.
Qed.

Lemma wf_finalize ts g : wf g → wf (step g (OFinalize ts)).
Proof.
  intros Hwf. simpl.
  destruct (finalize_spec g ts (dag_keyed _ Hwf)) as (r & g' & -> & _ & V & Q & Hinv).
  destruct (finv_same _ _ _ _ _ Hinv) as (Ht & Hc & Hh & _).
  apply (wf_relabel g); [done|apply Hinv|done..|].
  intros x. destruct (decide (x ∈ V ∧ x ∉ Q)) as [[HV HQ]|Hno].
  - exists (set_status VFinalized). split; [by apply Hinv|done].
  - exists id. split; [|done]. rewrite option_fmap_id. apply (finv_rest _ _ _ _ _ Hinv).
    intros HV. destruct (decide (x ∈ Q)); tauto.
Qed.

(** Rewriting one stored vertex with another status, in memory or not. *)
Lemma wf_restatus g h v s (mem : gmap Hash DAGVertex) n :
  wf g → stored g !! h = Some v →
  (∀ x w, mem !! x = Some w → if decide (h = x) then w = set_status s v else vertices g !! x = Some w) →
  wf (set_storage (store_put (set_status s v) (storage g)).2 (set_vertices mem n g)).
Proof.
  intros Hwf Hv Hmem. destruct (dag_keyed _ Hwf) as [Hk1 Hk2]. pose proof (Hk1 h v Hv) as Hh.
  set (g' := set_storage _ _).
  assert (Hst : stored g' = <[h := set_status s v]> (stored g)).
  { unfold g', stored. simpl. rewrite store_put_view. simpl. by rewrite Hh. }
  apply (wf_relabel g); try done.
  - split; rewrite Hst.
    + intros x w. rewrite lookup_insert. case_decide; [naive_solver|]. apply Hk1.
    + intros x w Hw. specialize (Hmem x w Hw). rewrite lookup_insert. case_decide; [by subst|]. by apply Hk2.
  - intros x. rewrite Hst, lookup_insert. case_decide as Hx.
    + exists (set_status s). subst x. by rewrite Hv.
    + exists id. by rewrite option_fmap_id.
Qed.

Lemma wf_update_status_internal h s g : wf g → wf (update_vertex_status_internal h s g).2.
Proof.
  intros Hwf. destruct (dag_keyed _ Hwf) as [Hk1 Hk2].
  unfold update_vertex_status_internal. rewrite gets_bind. unfold id.
  destruct (vertices g !! h) as [v|] eqn:Hv.
  - unfold bindM, modify. rewrite put_vertex_eq. simpl. apply (wf_restatus g h v); [done|by apply Hk2|].
    intros x w. rewrite lookup_insert. case_decide; naive_solver.
  - rewrite store_get_view. destruct (store_view (storage g) !! h) as [v|] eqn:Hs; [|done].
    rewrite put_vertex_eq. simpl.
    replace (set_storage (store_put (set_status s v) (storage g)).2 g) with
      (set_storage (store_put (set_status s v) (storage g)).2 (set_vertices (vertices g) (vertex_count g) g))
      by (by destruct g).
    apply (wf_restatus g h v); [done..|]. intros x w Hw. case_decide; [congruence|done].
Qed.

Lemma wf_update_status c h s g : wf g → wf (update_vertex_status c h s g).2.
Proof.
  intros Hwf. unfold update_vertex_status. rewrite gets_bind, fail_if_bind. unfold id.
  destruct (_ && _); [done|]. destruct (vertices g !! h) as [v|] eqn:Hv; [|done].
  pose proof (wf_update_status_internal h s g Hwf) as Hint.
  unfold update_vertex_status_internal in Hint. rewrite gets_bind in Hint. unfold id in Hint.
  by rewrite Hv in Hint.
Qed.

Lemma wf_admin_field g g' :
  wf g → storage g' = storage g → vertices g' = vertices g → tips g' = tips g →
  children g' = children g → heights g' = heights g → wf g'.
Proof.
  intros Hwf Hs Hv Ht Hc Hh. apply (wf_relabel g); try done.
  - destruct (dag_keyed _ Hwf). split; unfold stored in *; rewrite Hs, ?Hv; done.
  - intros x. exists id. unfold stored. rewrite Hs. by rewrite option_fmap_id.
Qed.

Lemma dag_wf_step g o : wf g → fresh_op g o = true → wf (step g o).
Proof.
  intros Hwf Hfresh. destruct o; simpl in Hfresh.
  - apply wf_add_vertex; [done|]. by apply bool_decide_eq_true_1 in Hfresh.
  - simpl. unfold set_admin. rewrite gets_bind, fail_if_bind. destruct (negb _); [done|].
    by apply (wf_admin_field g).
  - by apply (wf_admin_field g).
  - simpl. unfold add_authorized_creator_checked. rewrite gets_bind, fail_if_bind.
    destruct (negb _); [done|]. by apply (wf_admin_field g).
  - by apply (wf_admin_field g).
  - simpl. unfold remove_authorized_creator_checked. rewrite gets_bind, fail_if_bind.
    destruct (negb _); [done|]. by apply (wf_admin_field g).
  - by apply wf_update_status.
  - by apply wf_update_status_internal.
  - by apply wf_finalize.
Qed.

Lemma dag_wf_run g os : wf g → all_fresh g os = true → wf (foldl step g os).
Proof.
  revert g. induction os as [|o os IH]; intros g Hwf Hf; simpl in *; [done|].
  apply andb_true_iff in Hf as [? ?]. apply IH; [|done]. by apply dag_wf_step.
Qed.

Lemma dag_wf_new s mn mx : store_view s = ∅ → wf (new s mn mx).
Proof.
  intros Hs.
  assert (Hst : ∀ h, stored (new s mn mx) !! h = None) by (intros h; unfold stored; simpl; by rewrite Hs).
  split; try (intros; rewrite ?Hst in *; done).
  - split; intros; rewrite ?Hst in *; done.
  - exists (λ _, 0%nat). intros h v p Hh. by rewrite Hst in Hh.
  - intros t x Hx. unfold get_tips in Hx. simpl in Hx. rewrite lookup_empty in Hx. set_solver.
Qed.
End Spec.

(** ** A store that keeps everything *)

#[export] Instance map_store : VertexStore (gmap Hash DAGVertex) := {
  store_get h s := Ok (s !! h);
  store_put v s := (Ok (), <[vhash v := v]> s)
}.

#[export] Instance map_store_laws : VertexStoreLaws (gmap Hash DAGVertex).
Proof. by exists (λ s, s). Defined.

(** A vertex with the fields the graph looks at, for examples. *)
Definition plain_vertex (h : Hash) (ps : list Hash) (n : Z) : DAGVertex :=
  mkVertex h ps [] 0 0 GENESIS_CREATOR [] 0 n VPending [] 0.

(** A diamond: 1 is the genesis, 2 and 3 extend it, 4 joins them. *)
Definition diamond : list (Op) :=
  [OAddVertex (plain_vertex 1 [] 0); OAddVertex (plain_vertex 2 [1] 1);
   OAddVertex (plain_vertex 3 [1] 1); OAddVertex (plain_vertex 4 [2; 3] 2)].

(** ** Claims *)

(** C9. The graph stays a well-formed DAG.  From an empty store, after any
    sequence of insertions (refused ones included), status updates,
    finalizations and administrative calls in which vertices are added under
    unused hashes: vertices are filed under their hash and everything in memory is
    in the store; every parent of a stored vertex is stored; the parent relation
    has no cycle; every vertex is listed among the children of its parents; no
    vertex lists more than 256 children and no shard more than 100 tips, all of
    them stored; at most 1024 shards exist; and the recorded height of a shard
    bounds the heights of its vertices. *)
Theorem graph_consistent {St} `{VertexStoreLaws St} (s : St) mn mx os
    (Hs : store_view s = ∅) (Hfresh : all_fresh (new s mn mx) os = true) :
  wf (foldl step (new s mn mx) os).
Proof. apply dag_wf_run; [by apply dag_wf_new|done]. Qed.

Lemma graph_consistent_witness :
  wf (foldl step (new (∅ : gmap Hash DAGVertex) 0 8)
    (diamond ++ [OUpdateStatusInternal 2 VConfirmed; OAddVertex (plain_vertex 5 [77] 1); OFinalize [4]])).
Proof. apply graph_consistent; vm_compute; reflexivity. Defined.

(** The bounded traversals.  [get_ancestors] and [get_descendants] always
    return (their loop ends within [MAX_TRAVERSAL_VERTICES + 1] iterations).  A
    returned list has no duplicates and contains exactly the vertices other than
    the start that are at most [depth] parent (child) steps away; the only error is
    the traversal limit, and then at least [MAX_TRAVERSAL_VERTICES - 1] such
    vertices exist. *)
Theorem traversals_correct {St} `{VertexStoreLaws St} (g : DAGGraph St) h depth :
  (∃ r, get_ancestors g h depth = Some r ∧ traversal_post (parents_fn g) h depth r) ∧
  (∃ r, get_descendants g h depth = Some r ∧ traversal_post (get_children g) h depth r).
Proof.
  split; apply traverse_start.
  - intros x. apply parents_of_fn.
  - done.
Qed.

(** C10. Finalization.  [finalize_reachable_from_tips] always returns.  It
    succeeds exactly when fewer than [MAX_TRAVERSAL_VERTICES] hashes are reachable
    from the tips, whether or not they are finalized already; then exactly the
    reachable vertices get the status [Finalized] and nothing else changes.
    Otherwise it returns [TraversalLimitExceeded]: vertices finalized by earlier
    checkpoints are traversed again each time, so a graph with that many vertices
    can no longer be finalized. *)
Theorem finalize_correct {St} `{VertexStoreLaws St} (g : DAGGraph St) ts
    (Hk : keyed g) :
  ∃ r g', finalize_reachable_from_tips ts g = Some (r, g') ∧ finalize_post g ts r g' ∧
    (is_ok r = false ↔
       ∃ l, NoDup l ∧ MAX_TRAVERSAL_VERTICES ≤ Z.of_nat (length l) ∧
         ∀ x, x ∈ l → reachable (parents_fn g) ts x).
Proof.
  destruct (finalize_spec g ts Hk) as (r & g' & Heq & Hpost & _). exists r, g'.
  split_and!; [done..|]. destruct r as [[nv nt]|e]; simpl in *; [|naive_solver].
  split; [done|]. intros (l & Hnd & Hlen & Hl). exfalso. destruct Hpost as (l' & Hnd' & Hlen' & Hl' & _).
  assert (l ⊆+ l') as Hsub%submseteq_length; [|lia].
  apply NoDup_submseteq; [done|]. intros x Hx. by apply Hl', Hl.
Qed.

Lemma finalize_correct_witness :
  let g := foldl step (new (∅ : gmap Hash DAGVertex) 0 8) diamond in
  ∃ r g', finalize_reachable_from_tips [2] g = Some (r, g') ∧ finalize_post g [2] r g' ∧
    (is_ok r = false ↔
       ∃ l, NoDup l ∧ MAX_TRAVERSAL_VERTICES ≤ Z.of_nat (length l) ∧
         ∀ x, x ∈ l → reachable (parents_fn g) [2] x).
Proof.
  apply finalize_correct. apply dag_keyed, dag_wf_run; [apply dag_wf_new; reflexivity|].
  vm_compute. reflexivity.
Defined.

(** Inserting under a hash in use can make a cycle.  [add_vertex] neither
    recomputes the hash nor looks whether it is in use: when [b] has the parent
    [a], a vertex with hash [a] and parent [b] that passes the other checks
    replaces [a], and [a] becomes its own grandparent. *)
Theorem overwriting_makes_cycle {St} `{VertexStoreLaws St} (g g' : DAGGraph St) v b vb
    (Hwf : wf g) (Hb : stored g !! b = Some vb) (Hab : vhash v ∈ parents vb)
    (Hv : parents v = [b]) (Hadd : add_vertex v g = (Ok (), g')) :
  path (parents_fn g') 2 (vhash v) (vhash v).
Proof.
  destruct (dag_acyclic _ Hwf) as [rank Hrank].
  assert (Hne : vhash v ≠ b) 
    by (intros Heq; specialize (Hrank _ _ _ Hb Hab); rewrite Heq in Hrank; lia).
  destruct (link_vertex_spec v g (dag_keyed _ Hwf)) as [Hred _].
  destruct (add_vertex_cases v g) as [[e Heq]|[_ Heq]]; rewrite Heq in Hadd; [done|].
  injection Hadd as <-. set (g1 := (link_vertex v g).2) in *.
  assert (Hk : keyed (inserted v g1)) by (apply inserted_keyed, (wf_reduced _ _ Hred Hwf)).
  assert (Hst : stored g1 = stored g) by (unfold stored; by rewrite (red_storage _ _ Hred)).
  exists b. split; [exists (vhash v); split; [done|]|];
    unfold parents_fn; rewrite known_stored, inserted_stored, Hst by done.
  - rewrite lookup_insert_eq, Hv. set_solver.
  - by rewrite lookup_insert_ne, Hb.
Qed.

Lemma overwriting_makes_cycle_witness :
  let g := foldl step (new (∅ : gmap Hash DAGVertex) 0 8) diamond in
  let v := plain_vertex 1 [2] 5 in
  path (parents_fn (add_vertex v g).2) 2 1 1.
Proof.
  apply (overwriting_makes_cycle (foldl step (new (∅ : gmap Hash DAGVertex) 0 8) diamond) _
    (plain_vertex 1 [2] 5) 2 (plain_vertex 2 [1] 1)); try (vm_compute; reflexivity).
  - apply dag_wf_run; [apply dag_wf_new; reflexivity|]. vm_compute. reflexivity.
  - apply list_elem_of_here.
Defined.
