(* ===== verification/Ordering.v ===== *)
(** * Ordering of vertices and resolution of conflicts

    Models [src/L1/src/dag/ordering.rs]: the two topological sorts, the search
    for a common ancestor, the choice between vertices that spend twice and the
    detection of conflicting transactions.

    The iteration order of a [HashMap], which the standard library leaves open,
    is the argument [iter] of the sorts, required only to list the entries of the
    map; the [BinaryHeap] is a list with an argument [pop] that takes out a
    greatest element, whichever one it is among equals.  The loops take fuel; the
    theorems give a bound on the fuel they need. *)

From S2P Require Import Prelude Transaction Vertex Dag.

#[local] Abbreviation usize_max := u64_max (only parsing).

(** ** The tables of a sort *)

Record Degrees : Type := mkDegrees {
  in_degree : gmap Hash Z;
  successors : gmap Hash (list Hash)
}.

(** [map.entry(k).or_insert(a)]. *)
Definition or_insert {A} (k : Hash) (a : A) (m : gmap Hash A) : gmap Hash A :=
  match m !! k with Some _ => m | None => <[k := a]> m end.

Definition add_edge (child : Hash) (d : Degrees) (parent : Hash) : Degrees :=
  mkDegrees
    (<[child := saturating_add usize_max (default 0 (in_degree d !! child)) 1]> (in_degree d))
    (<[parent := default [] (successors d !! parent) ++ [child]]> (successors d)).

Section Sorting.
Context `{VertexStore St}.
Implicit Types (g : DAGGraph St).

(** One round of the first loop: the vertex [h] and its edges from parents among
    the vertices to sort. *)
Definition add_node g (vs : list Hash) (d : Degrees) (h : Hash) : Result Degrees DAGError :=
  let d1 := mkDegrees (or_insert h 0 (in_degree d)) (or_insert h [] (successors d)) in
  match get_vertex g h with
  | Err e => Err e
  | Ok None => Ok d1
  | Ok (Some v) =>
      Ok (foldl (λ d p, if bool_decide (p ∈ vs) then add_edge h d p else d) d1 (parents v))
  end.

Fixpoint add_nodes g (vs todo : list Hash) (d : Degrees) : Result Degrees DAGError :=
  match todo with
  | [] => Ok d
  | h :: todo' =>
      match add_node g vs d h with
      | Err e => Err e
      | Ok d' => add_nodes g vs todo' d'
      end
  end.

Definition build_degrees g (vs : list Hash) : Result Degrees DAGError :=
  add_nodes g vs vs (mkDegrees ∅ ∅).

End Sorting.

(** ** The main loop

    Both sorts take vertices without open predecessors out of a worklist and
    decrement the degrees of their successors.  The worklist holds entries of
    type [E]: hashes in a queue, or hashes with weights in a heap.  [entry] makes
    the entry of a hash, or no entry when the vertex is not known; [pop] takes an
    entry out. *)

Section Loop.
Context {E : Type}.
Context (key : E → Hash) (entry : Hash → Result (option E) DAGError).
Context (pop : list E → option (E * list E)).

Definition push (h : Hash) (work : list E) : Result (list E) DAGError :=
  match entry h with
  | Err e => Err e
  | Ok None => Ok work
  | Ok (Some x) => Ok (work ++ [x])
  end.

Fixpoint release (cs : list Hash) (deg : gmap Hash Z) (work : list E)
    : Result (gmap Hash Z * list E) DAGError :=
  match cs with
  | [] => Ok (deg, work)
  | c :: cs' =>
      match deg !! c with
      | None => release cs' deg work
      | Some n =>
          let n' := saturating_sub n 1 in
          let deg' := <[c := n']> deg in
          if n' =? 0 then
            match push c work with
            | Err e => Err e
            | Ok work' => release cs' deg' work'
            end
          else release cs' deg' work
      end
  end.

Fixpoint sort_loop (fuel : nat) (succ : gmap Hash (list Hash)) (deg : gmap Hash Z)
    (work : list E) (sorted : list Hash) : option (Result (list Hash) DAGError) :=
  match fuel with
  | O => None
  | S fuel' =>
      match pop work with
      | None => Some (Ok sorted)
      | Some (x, rest) =>
          match succ !! key x with
          | None => sort_loop fuel' succ deg rest (sorted ++ [key x])
          | Some cs =>
              match release cs deg rest with
              | Err e => Some (Err e)
              | Ok (deg', work') => sort_loop fuel' succ deg' work' (sorted ++ [key x])
              end
          end
      end
  end.

(** The worklist at the start: the vertices of degree 0, in the order of the map. *)
Fixpoint push_all (hs : list Hash) (work : list E) : Result (list E) DAGError :=
  match hs with
  | [] => Ok work
  | h :: hs' => match push h work with Err e => Err e | Ok work' => push_all hs' work' end
  end.

End Loop.

Definition zero_degree (l : list (Hash * Z)) : list Hash :=
  map fst (List.filter (λ e, e.2 =? 0) l).

Definition pop_front {A} (l : list A) : option (A * list A) :=
  match l with [] => None | x :: l' => Some (x, l') end.

Record WeightedVertex : Type := mkWeighted {
  wv_hash : Hash;
  wv_weight : Z;
  wv_height : Z;
  wv_timestamp : Z
}.

(** [Ord::cmp]: the lighter vertex is the greater one, then the lower one, then
    the later one. *)
Definition wv_cmp (a b : WeightedVertex) : comparison :=
  match wv_weight b ?= wv_weight a with
  | Eq =>
      match wv_height b ?= wv_height a with
      | Eq => wv_timestamp a ?= wv_timestamp b
      | c => c
      end
  | c => c
  end.

Section Orderer.
Context `{VertexStore St}.
Implicit Types (g : DAGGraph St).
Context (iter : gmap Hash Z → list (Hash * Z)).

Definition topological_sort (fuel : nat) g (vs : list Hash)
    : option (Result (list Hash) DAGError) :=
  match build_degrees g vs with
  | Err e => Some (Err e)
  | Ok d =>
      sort_loop (λ h, h) (λ h, Ok (Some h)) pop_front fuel (successors d) (in_degree d)
        (zero_degree (iter (in_degree d))) []
  end.

Definition weighted_entry g (h : Hash) : Result (option WeightedVertex) DAGError :=
  match get_vertex g h with
  | Err e => Err e
  | Ok None => Ok None
  | Ok (Some v) => Ok (Some (mkWeighted h (weight v) (height v) (vtimestamp v)))
  end.

Definition weighted_topological_sort
    (pop : list WeightedVertex → option (WeightedVertex * list WeightedVertex))
    (fuel : nat) g (vs : list Hash) : option (Result (list Hash) DAGError) :=
  match build_degrees g vs with
  | Err e => Some (Err e)
  | Ok d =>
      match push_all (weighted_entry g) (zero_degree (iter (in_degree d))) [] with
      | Err e => Some (Err e)
      | Ok heap => sort_loop wv_hash (weighted_entry g) pop fuel (successors d) (in_degree d) heap []
      end
  end.

(** ** Common ancestors *)

(** One half of a round: take a hash from a queue; stop when the other side has
    visited it, else visit its parents. *)
Definition search_side g (visited : gset Hash) (queue : list Hash) (other : gset Hash)
    : Result (option Hash * gset Hash * list Hash) DAGError :=
  match queue with
  | [] => Ok (None, visited, [])
  | current :: queue' =>
      if decide (current ∈ other) then Ok (Some current, visited, queue')
      else
        match get_vertex g current with
        | Err e => Err e
        | Ok None => Ok (None, visited, queue')
        | Ok (Some v) =>
            let '(visited', queue'') := enqueue_all (parents v) visited queue' in
            Ok (None, visited', queue'')
        end
  end.

Fixpoint search (fuel : nat) g (va vb : gset Hash) (qa qb : list Hash)
    : option (Result (option Hash) DAGError) :=
  match fuel with
  | O => None
  | S fuel' =>
      match qa, qb with
      | [], [] => Some (Ok None)
      | _, _ =>
          match search_side g va qa vb with
          | Err e => Some (Err e)
          | Ok (Some c, _, _) => Some (Ok (Some c))
          | Ok (None, va', qa') =>
              match search_side g vb qb va' with
              | Err e => Some (Err e)
              | Ok (Some c, _, _) => Some (Ok (Some c))
              | Ok (None, vb', qb') => search fuel' g va' vb' qa' qb'
              end
          end
      end
  end.

Definition find_common_ancestor (fuel : nat) g (a b : Hash) : option (Result (option Hash) DAGError) :=
  search fuel g {[a]} {[b]} [a] [b].

(** ** Conflicts *)

Fixpoint heaviest g (hs : list Hash) (max_weight : Z) (winner : Hash) : Result Hash DAGError :=
  match hs with
  | [] => Ok winner
  | h :: hs' =>
      match get_vertex g h with
      | Err e => Err e
      | Ok None => heaviest g hs' max_weight winner
      | Ok (Some v) =>
          if max_weight <? weight v then heaviest g hs' (weight v) h
          else if weight v =? max_weight then
            heaviest g hs' max_weight (if h <? winner then h else winner)
          else heaviest g hs' max_weight winner
      end
  end.

Definition resolve_double_spend g (tx_hash : Hash) (vs : list Hash) : Result Hash DAGError :=
  match vs with
  | [] => Err (InvalidInput "Cannot resolve double spend with empty vertices array")
  | h :: _ => heaviest g vs 0 h
  end.

End Orderer.

(** What a transaction spends. *)
Definition spend_key (tx : SignedTransaction) : Address * Z :=
  (from (transaction tx), nonce (transaction tx)).

(** The spends of the vertex itself: the last transaction of each key, and the
    pairs that share a key. *)
Fixpoint own_spends (txs : list SignedTransaction) (seen : gmap (Address * Z) Hash)
    (conflicts : list (Hash * Hash)) : gmap (Address * Z) Hash * list (Hash * Hash) :=
  match txs with
  | [] => (seen, conflicts)
  | tx :: txs' =>
      let conflicts' :=
        match seen !! spend_key tx with
        | Some existing => conflicts ++ [(existing, tx_hash tx)]
        | None => conflicts
        end in
      own_spends txs' (<[spend_key tx := tx_hash tx]> seen) conflicts'
  end.

Definition other_conflicts (seen : gmap (Address * Z) Hash) (txs : list SignedTransaction)
    : list (Hash * Hash) :=
  omap (λ tx, match seen !! spend_key tx with
              | Some h => Some (h, tx_hash tx)
              | None => None
              end) txs.

Definition detect_conflicting_transactions (v : DAGVertex) (recent : list DAGVertex)
    : list (Hash * Hash) :=
  let '(seen, conflicts) := own_spends (transactions v) ∅ [] in
  foldl (λ cs other,
           if vhash other =? vhash v then cs
           else cs ++ other_conflicts seen (transactions other))
    conflicts recent.

(** ** Edges

    The edges of a sort as a list of pairs (parent, child), and the degree that
    is left when the parents in [S] are done. *)

Definition occurrences (c : Hash) (l : list Hash) : nat := length (filter (λ x, x = c) l).

Definition succ_of (L : list (Hash * Hash)) (p : Hash) : list Hash :=
  (filter (λ e, e.1 = p) L).*2.

Definition open_degree (L : list (Hash * Hash)) (S : list Hash) (c : Hash) : nat :=
  length (filter (λ e, e.2 = c ∧ e.1 ∉ S) L).

Lemma occurrences_cons c x l :
  occurrences c (x :: l) = if decide (x = c) then S (occurrences c l) else occurrences c l.
Proof. unfold occurrences. rewrite filter_cons. by case_decide. Qed.

Lemma occurrences_pos c l : (0 < occurrences c l)%nat ↔ c ∈ l.
Proof.
  induction l as [|x l IH]; [split; [unfold occurrences; simpl; lia|intros []%not_elem_of_nil]|].
  rewrite occurrences_cons, elem_of_cons. case_decide; [split; [by left|lia]|].
  rewrite IH. split; [by right|intros [?|?]; [congruence|done]].
Qed.

Lemma succ_of_elem L p c : c ∈ succ_of L p ↔ (p, c) ∈ L.
Proof.
  unfold succ_of. rewrite list_elem_of_fmap. split.
  - intros ([x y] & -> & [? ?]%list_elem_of_filter). simpl in *. by subst.
  - intros ?. exists (p, c). split; [done|]. by apply list_elem_of_filter.
Qed.

Lemma open_degree_done L S p c :
  p ∉ S → open_degree L S c = (open_degree L (S ++ [p]) c + occurrences c (succ_of L p))%nat.
Proof.
  intros Hp. unfold open_degree, succ_of, occurrences.
  induction L as [|[x y] L IH]; [done|].
  rewrite !filter_cons. simpl.
  destruct (decide (y = c)) as [->|Hy], (decide (x = p)) as [->|Hx].
  - rewrite decide_True by done. rewrite decide_False by set_solver. rewrite fmap_cons, filter_cons.
    simpl. rewrite decide_True by done. simpl. lia.
  - destruct (decide (x ∈ S)) as [Hs|Hs].
    + rewrite !decide_False by set_solver. done.
    + rewrite !decide_True by set_solver. simpl. lia.
  - rewrite !decide_False by naive_solver. rewrite fmap_cons, filter_cons. simpl.
    by rewrite decide_False.
  - rewrite !decide_False by naive_solver. done.
Qed.

Lemma open_degree_zero L S c : open_degree L S c = O ↔ ∀ p, (p, c) ∈ L → p ∈ S.
Proof.
  unfold open_degree. rewrite length_zero_iff_nil. split.
  - intros Hnil p Hp. destruct (decide (p ∈ S)) as [|Hn]; [done|].
    assert ((p, c) ∈ filter (λ e : Hash * Hash, e.2 = c ∧ e.1 ∉ S) L) as Hin by by apply list_elem_of_filter.
    rewrite Hnil in Hin. by apply not_elem_of_nil in Hin.
  - intros Hall. destruct (filter _ L) as [|[p y] l] eqn:Hf; [done|].
    assert ((p, y) ∈ filter (λ e : Hash * Hash, e.2 = c ∧ e.1 ∉ S) L) as [[Heq Hn] Hin]%list_elem_of_filter
      by (rewrite Hf; left).
    simpl in *. subst. destruct Hn. by apply Hall.
Qed.

Lemma open_degree_snoc L S p c x :
  open_degree (L ++ [(p, c)]) S x = (open_degree L S x + if decide (c = x ∧ p ∉ S) then 1 else 0)%nat.
Proof.
  unfold open_degree. rewrite list.filter_app, length_app, filter_cons. cbn [fst snd]. by case_decide.
Qed.

Lemma open_degree_le L S c : (open_degree L S c ≤ length L)%nat.
Proof. apply length_filter. Qed.

(** ** The tables hold the edges *)

Definition in_table (done : list Hash) (L : list (Hash * Hash)) (d : Degrees) : Prop :=
  (∀ c, in_degree d !! c = if decide (c ∈ done) then Some (Z.of_nat (open_degree L [] c)) else None) ∧
  (∀ p, default [] (successors d !! p) = succ_of L p).

Lemma in_table_edge done L d c p :
  in_table done L d → c ∈ done → Z.of_nat (length L) < usize_max → in_table done (L ++ [(p, c)]) (add_edge c d p).
Proof.
  intros [Hd Hs] Hc Hlen. split; intros x; simpl.
  - rewrite open_degree_snoc. destruct (decide (x = c)) as [->|Hx].
    + rewrite lookup_insert_eq, Hd. rewrite !decide_True by (done || set_solver). simpl. f_equal.
      unfold saturating_add. pose proof (open_degree_le L [] c). lia.
    + rewrite lookup_insert_ne by done. rewrite (decide_False (P := c = x ∧ _)) by naive_solver.
      rewrite Nat.add_0_r. apply Hd.
  - unfold succ_of. rewrite list.filter_app, fmap_app, filter_cons. simpl.
    destruct (decide (x = p)) as [->|Hx].
    + rewrite lookup_insert_eq, Hs. by rewrite decide_True.
    + rewrite lookup_insert_ne by done. rewrite decide_False by done. simpl. rewrite app_nil_r. apply Hs.
Qed.

Lemma in_table_node done L d h :
  in_table done L d →
  (∀ p, (p, h) ∈ L → h ∈ done) →
  in_table (done ++ [h]) L (mkDegrees (or_insert h 0 (in_degree d)) (or_insert h [] (successors d))).
Proof.
  intros [Hd Hs] Hh. split; intros x; simpl; unfold or_insert.
  - pose proof (Hd h) as Hdh. destruct (in_degree d !! h) as [n|] eqn:Hn.
    + destruct (decide (h ∈ done)) as [Hin|]; [|done]. rewrite Hd.
      repeat case_decide; set_solver.
    + destruct (decide (h ∈ done)) as [|Hnd]; [done|]. destruct (decide (x = h)) as [->|Hx].
      * rewrite lookup_insert_eq, decide_True by set_solver.
        enough (open_degree L [] h = O) as -> by done.
        apply open_degree_zero. intros p Hp. by destruct Hnd; apply (Hh p).
      * rewrite lookup_insert_ne by done. rewrite Hd. repeat case_decide; set_solver.
  - rewrite <- Hs. destruct (successors d !! h) as [l|] eqn:Hl; [done|].
    destruct (decide (x = h)) as [->|Hx]; [by rewrite lookup_insert_eq, Hl|by rewrite lookup_insert_ne].
Qed.

Definition node_edges (nx : Hash → list Hash) (vs : list Hash) (h : Hash) : list (Hash * Hash) :=
  (λ p, (p, h)) <$> filter (λ p, p ∈ vs) (nx h).

(** The edges of a sort of [vs] along the parent function [nx]. *)
Definition edges (nx : Hash → list Hash) (vs : list Hash) : list (Hash * Hash) :=
  concat (node_edges nx vs <$> vs).

Lemma elem_of_node_edges nx vs h p c : (p, c) ∈ node_edges nx vs h ↔ c = h ∧ p ∈ vs ∧ p ∈ nx h.
Proof.
  unfold node_edges. rewrite list_elem_of_fmap. split.
  - intros (? & [= -> ->] & [? ?]%list_elem_of_filter). done.
  - intros (-> & ? & ?). exists p. split; [done|]. by apply list_elem_of_filter.
Qed.

Lemma elem_of_edges nx vs p c : (p, c) ∈ edges nx vs ↔ c ∈ vs ∧ p ∈ vs ∧ p ∈ nx c.
Proof.
  unfold edges. rewrite list_elem_of_In, in_concat. setoid_rewrite <- list_elem_of_In. split.
  - intros (l & (h & -> & Hh)%list_elem_of_fmap & Hin). apply elem_of_node_edges in Hin as (-> & ? & ?). done.
  - intros (? & ? & ?). exists (node_edges nx vs c). split; [by apply list_elem_of_fmap_2|].
    by apply elem_of_node_edges.
Qed.

Lemma in_table_parents done (vs : list Hash) c ps L d :
  in_table done L d → c ∈ done →
  Z.of_nat (length L + length (filter (λ p, p ∈ vs) ps)) ≤ usize_max →
  in_table done (L ++ ((λ p, (p, c)) <$> filter (λ p, p ∈ vs) ps))
    (foldl (λ d p, if bool_decide (p ∈ vs) then add_edge c d p else d) d ps).
Proof.
  revert L d. induction ps as [|p ps IH]; intros L d Ht Hc Hlen; simpl; [by rewrite app_nil_r|].
  rewrite filter_cons in Hlen |- *. destruct (decide (p ∈ vs)) as [Hp|Hp].
  - rewrite bool_decide_eq_true_2 by done. rewrite fmap_cons. cbn [length] in Hlen.
    rewrite cons_middle, app_assoc.
    apply IH; [|done|rewrite length_app; simpl; lia]. apply in_table_edge; [done|done|lia].
  - rewrite bool_decide_eq_false_2 by done. by apply IH.
Qed.

Section Tables.
Context `{VertexStoreLaws St}.
Implicit Types (g : DAGGraph St).

Lemma add_node_table g vs done L d h :
  in_table done L d → (∀ p, (p, h) ∈ L → h ∈ done) →
  Z.of_nat (length (L ++ node_edges (parents_fn g) vs h)) ≤ usize_max →
  ∃ d', add_node g vs d h = Ok d' ∧ in_table (done ++ [h]) (L ++ node_edges (parents_fn g) vs h) d'.
Proof.
  intros Ht Hh. unfold add_node, node_edges, parents_fn. rewrite get_vertex_known.
  pose proof (in_table_node _ _ _ _ Ht Hh) as Ht'.
  destruct (known g h) as [v|]; intros Hlen.
  - eexists. split; [done|]. apply in_table_parents; [done|set_solver|].
    rewrite length_app, length_fmap in Hlen. lia.
  - eexists. split; [done|]. by rewrite list.filter_nil, fmap_nil, app_nil_r.
Qed.

Lemma add_nodes_table g vs done L d todo :
  in_table done L d → (∀ p c, (p, c) ∈ L → c ∈ done) →
  Z.of_nat (length (L ++ concat (node_edges (parents_fn g) vs <$> todo))) ≤ usize_max →
  ∃ d', add_nodes g vs todo d = Ok d' ∧
    in_table (done ++ todo) (L ++ concat (node_edges (parents_fn g) vs <$> todo)) d'.
Proof.
  revert done L d. induction todo as [|h todo IH]; intros done L d Ht HL Hlen; simpl in *.
  - exists d. by rewrite !app_nil_r.
  - rewrite app_assoc in Hlen.
    destruct (add_node_table g vs done L d h) as (d1 & -> & Ht1); [done|eauto|rewrite !length_app in *; lia|].
    destruct (IH (done ++ [h]) (L ++ node_edges (parents_fn g) vs h) d1) as (d' & -> & Ht').
    { done. }
    { intros p c [?%HL|(-> & _)%elem_of_node_edges]%elem_of_app; set_solver. }
    { done. }
    exists d'. rewrite <- !app_assoc in Ht'. done.
Qed.

Lemma build_degrees_table g vs :
  Z.of_nat (length (edges (parents_fn g) vs)) ≤ usize_max →
  ∃ d, build_degrees g vs = Ok d ∧ in_table vs (edges (parents_fn g) vs) d.
Proof.
  intros Hlen. apply (add_nodes_table g vs [] [] (mkDegrees ∅ ∅) vs).
  - split; intros x; simpl; by rewrite lookup_empty.
  - by intros p c ?%not_elem_of_nil.
  - done.
Qed.

End Tables.

(** ** Correctness of the main loop *)

Section LoopSpec.
Context {E : Type} (key : E → Hash) (entry : Hash → Result (option E) DAGError).
Context (pop : list E → option (E * list E)).
Context (kn : Hash → bool) (mk : Hash → E) (best : E → E → Prop).
Context (Hentry : ∀ h, entry h = Ok (if kn h then Some (mk h) else None)).
Context (Hkey : ∀ h, key (mk h) = h).
Context (Hpop : ∀ l, match pop l with
                     | None => l = []
                     | Some (x, r) => l ≡ₚ x :: r ∧ ∀ y, y ∈ l → best x y
                     end).

Lemma push_spec h work : push entry h work = Ok (if kn h then work ++ [mk h] else work).
Proof. unfold push. rewrite Hentry. by destruct (kn h). Qed.

Lemma push_all_spec hs work : push_all entry hs work = Ok (work ++ (mk <$> filter (λ h, kn h = true) hs)).
Proof.
  revert work. induction hs as [|h hs IH]; intros work; simpl; [by rewrite app_nil_r|].
  rewrite push_spec, IH, filter_cons. destruct (kn h) eqn:Hk.
  - rewrite decide_True by done. rewrite fmap_cons. by rewrite <- app_assoc.
  - by rewrite decide_False.
Qed.

Lemma release_spec cs deg work :
  (∀ c, c ∈ cs → is_Some (deg !! c)) →
  (∀ c n, deg !! c = Some n → Z.of_nat (occurrences c cs) ≤ n) →
  ∃ deg' new, release entry cs deg work = Ok (deg', work ++ (mk <$> new)) ∧ NoDup new ∧
    (∀ c, c ∈ new ↔ c ∈ cs ∧ kn c = true ∧ deg !! c = Some (Z.of_nat (occurrences c cs))) ∧
    (∀ c, deg' !! c = (λ n, n - Z.of_nat (occurrences c cs)) <$> deg !! c).
Proof.
  revert deg work. induction cs as [|c cs IH]; intros deg work Hdom Hocc; simpl.
  - exists deg, []. split_and!; [by rewrite fmap_nil, app_nil_r|constructor|set_solver|].
    intros c. destruct (deg !! c); [|done]. cbn. f_equal. unfold occurrences. simpl. lia.
  - destruct (Hdom c) as [n Hn]; [left|]. rewrite Hn.
    pose proof (Hocc c n Hn) as Hge. rewrite occurrences_cons, decide_True in Hge by done.
    unfold saturating_sub. replace (0 `max` (n - 1)) with (n - 1) by lia.
    set (deg1 := <[c := n - 1]> deg).
    assert (∀ x, x ∈ cs → is_Some (deg1 !! x)) as Hdom1.
    { intros x Hx. unfold deg1. destruct (decide (x = c)) as [->|]; [by rewrite lookup_insert_eq|].
      rewrite lookup_insert_ne by done. apply Hdom. by right. }
    assert (∀ x m, deg1 !! x = Some m → Z.of_nat (occurrences x cs) ≤ m) as Hocc1.
    { intros x m. destruct (decide (x = c)) as [->|Hne]; unfold deg1.
      - rewrite lookup_insert_eq. intros [= <-]. lia.
      - rewrite lookup_insert_ne by done. intros Hm%Hocc. rewrite occurrences_cons, decide_False in Hm; done. }
    assert (∀ x, (λ k, k - Z.of_nat (occurrences x cs)) <$> deg1 !! x =
                 (λ k, k - Z.of_nat (occurrences x (c :: cs))) <$> deg !! x) as Hdeg.
    { intros x. rewrite occurrences_cons. unfold deg1. destruct (decide (x = c)) as [->|Hne].
      - rewrite lookup_insert_eq, Hn, decide_True by done. cbn. f_equal. lia.
      - rewrite lookup_insert_ne, decide_False by done. done. }
    assert (∀ x, x ≠ c → deg1 !! x = deg !! x ∧ occurrences x (c :: cs) = occurrences x cs) as Hother.
    { intros x Hx. split; [by unfold deg1; rewrite lookup_insert_ne|by rewrite occurrences_cons, decide_False]. }
    destruct (Z.eqb_spec (n - 1) 0) as [Hz|Hz].
    + assert (c ∉ cs) as Hc by (rewrite <- occurrences_pos; lia).
      rewrite push_spec.
      destruct (IH deg1 (if kn c then work ++ [mk c] else work) Hdom1 Hocc1) as (deg' & new & -> & Hnd & Hin & Hd').
      assert (c ∉ new) as Hcn by (rewrite Hin; tauto).
      exists deg', (if kn c then c :: new else new). split_and!.
      * destruct (kn c); [|done]. rewrite fmap_cons. by rewrite <- app_assoc.
      * destruct (kn c); [|done]. by apply list.NoDup_cons.
      * intros x. destruct (decide (x = c)) as [->|Hx].
        { rewrite Hn, occurrences_cons, decide_True by done.
          assert (occurrences c cs = O) as Ho by (destruct (occurrences c cs) eqn:Ho; [done|];
            destruct Hc; apply occurrences_pos; lia).
          rewrite Ho. destruct (kn c); [|naive_solver].
          split; [intros _; split_and!; [left|done|f_equal; lia]|intros _; left]. }
        destruct (Hother x Hx) as [<- ->]. rewrite elem_of_cons.
        destruct (kn c); rewrite ?elem_of_cons, Hin; naive_solver.
      * intros x. by rewrite Hd', Hdeg.
    + destruct (IH deg1 work Hdom1 Hocc1) as (deg' & new & -> & Hnd & Hin & Hd').
      exists deg', new. split_and!; [done|done| |intros x; by rewrite Hd', Hdeg].
      intros x. rewrite Hin, elem_of_cons. destruct (decide (x = c)) as [->|Hx].
      * rewrite Hn, occurrences_cons, decide_True by done. unfold deg1. rewrite lookup_insert_eq.
        split; intros (H1 & H2 & [= H3]); split_and!; auto; try (f_equal; lia).
        apply occurrences_pos. lia.
      * destruct (Hother x Hx) as [-> ->]. naive_solver.
Qed.

Context (L : list (Hash * Hash)) (vs : list Hash) (succ : gmap Hash (list Hash)).
Context (HL : ∀ p c, (p, c) ∈ L → p ∈ vs ∧ c ∈ vs).
Context (Hsucc : ∀ p, default [] (succ !! p) = succ_of L p).

(** A vertex that may come next after [S]. *)
Definition ready (S : list Hash) (c : Hash) : Prop :=
  c ∈ vs ∧ kn c = true ∧ c ∉ S ∧ ∀ p, (p, c) ∈ L → p ∈ S.

(** Every vertex of [S] was ready at its position and best among the ready ones. *)
Definition greedy (S : list Hash) : Prop :=
  ∀ S1 c S2, S = S1 ++ c :: S2 → ready S1 c ∧ ∀ x, ready S1 x → best (mk c) (mk x).

Record sort_inv (S : list Hash) (deg : gmap Hash Z) (W : list Hash) : Prop := {
  sort_deg : ∀ c, deg !! c = if decide (c ∈ vs) then Some (Z.of_nat (open_degree L S c)) else None;
  sort_nodup : NoDup (S ++ W);
  sort_elem : ∀ c, c ∈ S ++ W ↔ c ∈ vs ∧ kn c = true ∧ open_degree L S c = O;
  sort_greedy : greedy S
}.

Lemma sort_inv_ready S deg W c : sort_inv S deg W → ready S c ↔ c ∈ W.
Proof.
  intros [_ Hnd Hel _]. unfold ready. rewrite <- open_degree_zero.
  apply list.NoDup_app in Hnd as (_ & Hdisj & _). specialize (Hel c). rewrite elem_of_app in Hel.
  split; [naive_solver|]. intros Hc. specialize (Hdisj c). naive_solver.
Qed.

Lemma sort_inv_length S deg W : sort_inv S deg W → (length (S ++ W) ≤ length vs)%nat.
Proof.
  intros [_ Hnd Hel _]. apply submseteq_length, NoDup_submseteq; [done|].
  intros x Hx. by apply Hel in Hx as [? _].
Qed.

(** One round keeps the invariant. *)
Lemma sort_inv_step S deg W p W1 deg' new :
  sort_inv S deg W → W ≡ₚ p :: W1 → (∀ x, x ∈ W → best (mk p) (mk x)) → NoDup new →
  (∀ c, c ∈ new ↔ c ∈ succ_of L p ∧ kn c = true ∧ deg !! c = Some (Z.of_nat (occurrences c (succ_of L p)))) →
  (∀ c, deg' !! c = (λ n, n - Z.of_nat (occurrences c (succ_of L p))) <$> deg !! c) →
  sort_inv (S ++ [p]) deg' (W1 ++ new).
Proof.
  intros Hinv HW Hbest Hnew Hin Hdeg'. pose proof (λ c, sort_inv_ready S deg W c Hinv) as Hready.
  destruct Hinv as [Hdeg Hnd Hel Hgr].
  assert (p ∈ W) as HpW by (rewrite HW; left).
  assert (p ∉ S) as HpS by (apply list.NoDup_app in Hnd as (_ & Hd & _); intros Hp; by eapply Hd).
  assert (∀ c, open_degree L S c = (open_degree L (S ++ [p]) c + occurrences c (succ_of L p))%nat) as Hopen
    by (intros c; by apply open_degree_done).
  assert (∀ c, c ∈ new ↔ c ∈ vs ∧ kn c = true ∧ open_degree L (S ++ [p]) c = O ∧ open_degree L S c ≠ O) as Hin'.
  { intros c. rewrite Hin, Hdeg. specialize (Hopen c). split.
    - intros (Hc & ? & Hd). pose proof (proj2 (occurrences_pos _ _) Hc). destruct (decide (c ∈ vs)); [|done].
      apply (inj Some), (inj Z.of_nat) in Hd. split_and!; [done|done|lia|lia].
    - intros (Hc & ? & ? & ?). rewrite decide_True by done. split_and!; [|done|f_equal; lia].
      apply occurrences_pos. lia. }
  assert (∀ c, c ∈ (S ++ [p]) ++ W1 ++ new ↔ c ∈ S ++ W ∨ c ∈ new) as Hall.
  { intros c. rewrite HW. set_solver. }
  split.
  - intros c. rewrite Hdeg', Hdeg, Hopen. case_decide; [|done]. cbn. f_equal. lia.
  - assert ((S ++ [p]) ++ W1 ++ new ≡ₚ (S ++ W) ++ new) as ->
      by (rewrite HW, <- !app_assoc; done).
    apply list.NoDup_app. split_and!; [done| |done].
    intros x Hx%Hel Hn%Hin'. tauto.
  - intros c. rewrite Hall, Hel, Hin'. specialize (Hopen c).
    destruct (decide (open_degree L S c = O)); split; intros Hc.
    + assert (open_degree L (S ++ [p]) c = O) by lia. tauto.
    + tauto.
    + destruct Hc as [?|?]; [tauto|tauto].
    + tauto.
  - intros S1 c S2 Heq. destruct S2 as [|y S2 _] using rev_ind.
    + apply app_inj_tail in Heq as [<- <-]. split; [by apply Hready|].
      intros x Hx%Hready. by apply Hbest.
    + rewrite app_comm_cons, app_assoc in Heq. apply app_inj_tail in Heq as [Heq _]. by apply Hgr with S2.
Qed.

Lemma map_key_mk (hs : list Hash) : key <$> (mk <$> hs) = hs.
Proof. induction hs as [|h hs IH]; [done|]. rewrite !fmap_cons. by rewrite Hkey, IH. Qed.

Lemma pop_mk W x r :
  pop (mk <$> W) = Some (x, r) →
  ∃ p W1, x = mk p ∧ r = mk <$> W1 ∧ W ≡ₚ p :: W1 ∧ ∀ y, y ∈ W → best (mk p) (mk y).
Proof.
  intros Heq. pose proof (Hpop (mk <$> W)) as Hp. rewrite Heq in Hp. destruct Hp as [Hperm Hbest].
  assert (W ≡ₚ key x :: (key <$> r)) as HW.
  { rewrite <- (map_key_mk W). by rewrite Hperm. }
  assert (∀ y, y ∈ x :: r → y = mk (key y)) as Hmk.
  { intros y. rewrite <- Hperm. intros (h & -> & _)%list_elem_of_fmap. by rewrite Hkey. }
  exists (key x), (key <$> r). split_and!.
  - apply Hmk. left.
  - clear -Hmk. induction r as [|z r IH]; [done|]. rewrite !fmap_cons. f_equal.
    + apply Hmk. right. left.
    + apply IH. intros y [->|]%elem_of_cons; apply Hmk; [left|by right; right].
  - done.
  - intros y Hy. rewrite <- Hmk by left. apply Hbest. by apply list_elem_of_fmap_2.
Qed.

Lemma sort_loop_spec fuel S deg W :
  sort_inv S deg W → (length vs < fuel + length S)%nat →
  ∃ out deg', sort_loop key entry pop fuel succ deg (mk <$> W) S = Some (Ok out) ∧ sort_inv out deg' [].
Proof.
  revert S deg W. induction fuel as [|fuel IH]; intros S deg W Hinv Hfuel.
  { pose proof (sort_inv_length _ _ _ Hinv) as Hl. rewrite length_app in Hl. lia. }
  cbn [sort_loop]. destruct (pop (mk <$> W)) as [[x r]|] eqn:Hp.
  - destruct (pop_mk _ _ _ Hp) as (p & W1 & -> & -> & HW & Hbest). rewrite Hkey.
    destruct (release_spec (succ_of L p) deg (mk <$> W1)) as (deg' & new & Hrel & Hnew & Hin & Hdeg').
    { intros c [_ Hc]%succ_of_elem%HL. rewrite (sort_deg _ _ _ Hinv), decide_True by done. eauto. }
    { intros c n. rewrite (sort_deg _ _ _ Hinv). case_decide; [|done]. intros [= <-].
      rewrite (open_degree_done _ _ p c); [lia|]. destruct Hinv as [_ Hnd _ _].
      apply list.NoDup_app in Hnd as (_ & Hd & _). intros ?. eapply Hd; [done|]. rewrite HW. left. }
    pose proof (sort_inv_step _ _ _ _ _ _ _ Hinv HW Hbest Hnew Hin Hdeg') as Hinv'.
    assert (length vs < fuel + length (S ++ [p]))%nat as Hf by (rewrite length_app; simpl; lia).
    rewrite <- fmap_app in Hrel. rewrite <- Hsucc in Hrel.
    destruct (succ !! p) as [cs|]; cbn [default from_option id] in Hrel.
    + rewrite Hrel. by apply (IH (S ++ [p]) deg' (W1 ++ new)).
    + injection Hrel as -> Heq. rewrite Heq. by apply (IH (S ++ [p]) deg' (W1 ++ new)).
  - pose proof (Hpop (mk <$> W)) as HW. rewrite Hp in HW. apply fmap_nil_inv in HW as ->. eauto.
Qed.

(** Along an acyclic relation every known vertex is sorted. *)
Lemma sort_complete out deg (rank : Hash → nat) :
  sort_inv out deg [] → (∀ p c, (p, c) ∈ L → (rank p < rank c)%nat) →
  (∀ p c, (p, c) ∈ L → kn c = true → kn p = true) →
  ∀ c, c ∈ out ↔ c ∈ vs ∧ kn c = true.
Proof.
  intros Hinv Hrank Hkn c. pose proof (sort_elem _ _ _ Hinv) as Hel. setoid_rewrite app_nil_r in Hel.
  split; [by intros (? & ? & _)%Hel|].
  revert c. induction c as [c IH] using (well_founded_ind (well_founded_ltof _ rank)).
  intros [Hc Hk]. apply Hel. split_and!; [done|done|]. apply open_degree_zero. intros p Hp.
  apply IH; [by apply Hrank|]. split; [by apply HL in Hp as [? _]|eauto].
Qed.

End LoopSpec.

(** ** The two sorts *)

(** What the iteration order of a map and a heap promise. *)
Definition lists_map (iter : gmap Hash Z → list (Hash * Z)) : Prop :=
  ∀ m, iter m ≡ₚ map_to_list m.

Definition greatest_first (pop : list WeightedVertex → option (WeightedVertex * list WeightedVertex)) : Prop :=
  ∀ l, match pop l with
       | None => l = []
       | Some (x, r) => l ≡ₚ x :: r ∧ ∀ y, y ∈ l → wv_cmp y x ≠ Gt
       end.

Lemma zero_degree_spec iter m :
  lists_map iter →
  NoDup (zero_degree (iter m)) ∧ ∀ c, c ∈ zero_degree (iter m) ↔ m !! c = Some 0.
Proof.
  intros Hiter. specialize (Hiter m). unfold zero_degree.
  assert (∀ l : list (Hash * Z), List.filter (λ e, e.2 =? 0) l = filter (λ e, e.2 = 0) l) as Hf.
  { induction l as [|e l IH]; [done|]. rewrite filter_cons. simpl. rewrite IH.
    case_decide; [rewrite (proj2 (Z.eqb_eq _ _)) by done|rewrite (proj2 (Z.eqb_neq _ _)) by done]; done. }
  rewrite Hf. change (map fst) with (fmap (M := list) (A := Hash * Z) fst). split.
  - eapply sublist_NoDup; [|apply fmap_sublist, sublist_filter].
    rewrite Hiter. apply NoDup_fst_map_to_list.
  - intros c. rewrite list_elem_of_fmap. split.
    + intros ([c' n] & -> & [Hn Hin]%list_elem_of_filter). simpl in *. subst.
      apply elem_of_map_to_list. by rewrite <- Hiter.
    + intros Hc. exists (c, 0). split; [done|]. apply list_elem_of_filter. split; [done|].
      rewrite Hiter. by apply elem_of_map_to_list.
Qed.

Lemma filter_true (l : list Hash) : filter (λ _, true = true) l = l.
Proof. induction l as [|x l IH]; [done|]. by rewrite filter_cons_True, IH. Qed.

(** The worklist at the start satisfies the invariant of the loop. *)
Lemma sort_inv_start {E} kn (mk : Hash → E) best L vs d iter :
  lists_map iter → in_table vs L d →
  sort_inv kn mk best L vs [] (in_degree d) (filter (λ h, kn h = true) (zero_degree (iter (in_degree d)))).
Proof.
  intros Hiter [Hd _]. destruct (zero_degree_spec iter (in_degree d) Hiter) as [Hnd Hz]. split; simpl.
  - done.
  - eapply sublist_NoDup; [done|apply sublist_filter].
  - intros c. rewrite list_elem_of_filter, Hz, Hd. case_decide; [|naive_solver].
    split; [intros [? [= ?]]; split_and!; [done|done|lia]|intros (_ & ? & ->); done].
  - by intros [] ? ?.
Qed.

Section SortSpec.
Context `{VertexStoreLaws St}.
Implicit Types (g : DAGGraph St).

Lemma edges_ranked g vs :
  wf g → ∃ rank : Hash → nat, ∀ p c, (p, c) ∈ edges (parents_fn g) vs → (rank p < rank c)%nat.
Proof.
  intros Hwf. destruct (dag_acyclic g Hwf) as [rank Hr]. exists rank.
  intros p c (_ & _ & Hp)%elem_of_edges. unfold parents_fn in Hp.
  rewrite known_stored in Hp by apply Hwf. destruct (stored g !! c) as [v|] eqn:Hv; [eauto|].
  by apply not_elem_of_nil in Hp.
Qed.

Lemma edges_known g vs p c :
  wf g → (p, c) ∈ edges (parents_fn g) vs → is_Some (known g p).
Proof.
  intros Hwf (_ & _ & Hp)%elem_of_edges. unfold parents_fn in Hp.
  rewrite known_stored in Hp |- * by apply Hwf. destruct (stored g !! c) as [v|] eqn:Hv.
  - by eapply dag_parents.
  - by apply not_elem_of_nil in Hp.
Qed.

Lemma edges_inside g vs p c : (p, c) ∈ edges (parents_fn g) vs → p ∈ vs ∧ c ∈ vs.
Proof. intros (? & ? & ?)%elem_of_edges. done. Qed.

(** [out] lists the vertices of [vs] that satisfy [kn], once each, every one after
    its parents. *)
Definition topological g (vs : list Hash) (kn : Hash → bool) (out : list Hash) : Prop :=
  NoDup out ∧ (∀ h, h ∈ out ↔ h ∈ vs ∧ kn h = true) ∧
  ∀ S1 c S2 p, out = S1 ++ c :: S2 → p ∈ parents_fn g c → p ∈ vs → p ∈ S1.

Lemma sort_inv_topological {E} g vs kn (mk : Hash → E) best out deg :
  wf g → (∀ h, kn h = true ∨ kn h = bool_decide (is_Some (known g h))) →
  sort_inv kn mk best (edges (parents_fn g) vs) vs out deg [] → topological g vs kn out.
Proof.
  intros Hwf Hkn Hinv. destruct (edges_ranked g vs Hwf) as [rank Hrank]. split_and!.
  - pose proof (sort_nodup _ _ _ _ _ _ _ _ Hinv) as Hnd. by rewrite app_nil_r in Hnd.
  - eapply sort_complete; [apply edges_inside|done|done|].
    intros p c Hp _. destruct (Hkn p) as [Ht|Ht]; [done|]. rewrite Ht. apply bool_decide_eq_true. by eapply edges_known.
  - intros S1 c S2 p -> Hp Hin. destruct (sort_greedy _ _ _ _ _ _ _ _ Hinv S1 c S2 eq_refl) as [(Hc & _ & _ & Hr) _].
    apply Hr, elem_of_edges. done.
Qed.

Lemma topological_sort_spec iter fuel g vs :
  wf g → lists_map iter → (length vs < fuel)%nat →
  Z.of_nat (length (edges (parents_fn g) vs)) ≤ usize_max →
  ∃ out, topological_sort iter fuel g vs = Some (Ok out) ∧ topological g vs (λ _, true) out.
Proof.
  intros Hwf Hiter Hfuel Hlen. unfold topological_sort.
  destruct (build_degrees_table g vs Hlen) as (d & -> & Ht).
  assert (∀ l : list Hash, match pop_front l with
    | None => l = [] | Some (x, r) => l ≡ₚ x :: r ∧ ∀ y, y ∈ l → True end) as Hpop by by intros [].
  pose proof (sort_inv_start (λ _, true) (λ h, h) (λ _ _, True) _ _ _ _ Hiter Ht) as Hinv.
  destruct (sort_loop_spec (λ h, h) (λ h, Ok (Some h)) pop_front (λ _, true) (λ h, h) (λ _ _, True)
    (λ _, eq_refl) (λ _, eq_refl) Hpop _ _ (successors d) (edges_inside g vs) (proj2 Ht) fuel _ _ _ Hinv)
    as (out & deg' & Hrun & Hout); [simpl; lia|].
  exists out. split.
  - rewrite <- Hrun. f_equal. by rewrite list_fmap_id, filter_true.
  - eapply sort_inv_topological; [done| |done]. by left.
Qed.

(** The known vertex behind a hash, as the heap sees it. *)
Definition weighted_of g (h : Hash) : WeightedVertex :=
  match known g h with
  | Some v => mkWeighted h (weight v) (height v) (vtimestamp v)
  | None => mkWeighted h 0 0 0
  end.

Definition is_known g (h : Hash) : bool := bool_decide (is_Some (known g h)).

(** A known vertex all of whose parents in [vs] are in [S]. *)
Definition available g (vs S : list Hash) (c : Hash) : Prop :=
  c ∈ vs ∧ is_known g c = true ∧ c ∉ S ∧ ∀ p, p ∈ parents_fn g c → p ∈ vs → p ∈ S.

Lemma weighted_entry_spec g h :
  weighted_entry g h = Ok (if is_known g h then Some (weighted_of g h) else None).
Proof.
  unfold weighted_entry, is_known, weighted_of. rewrite get_vertex_known. destruct (known g h) as [v|].
  - by rewrite bool_decide_eq_true_2.
  - by rewrite bool_decide_eq_false_2 by (intros [? ?]; done).
Qed.

Lemma weighted_sort_spec iter pop fuel g vs :
  wf g → lists_map iter → greatest_first pop → (length vs < fuel)%nat →
  Z.of_nat (length (edges (parents_fn g) vs)) ≤ usize_max →
  ∃ out, weighted_topological_sort iter pop fuel g vs = Some (Ok out) ∧ topological g vs (is_known g) out ∧
    ∀ S1 c S2 x, out = S1 ++ c :: S2 → available g vs S1 x → wv_cmp (weighted_of g x) (weighted_of g c) ≠ Gt.
Proof.
  intros Hwf Hiter Hpop Hfuel Hlen. unfold weighted_topological_sort.
  destruct (build_degrees_table g vs Hlen) as (d & -> & Ht).
  assert (∀ h, wv_hash (weighted_of g h) = h) as Hkey by (intros h; unfold weighted_of; by destruct (known g h)).
  rewrite (push_all_spec (weighted_entry g) (is_known g) (weighted_of g) (weighted_entry_spec g)).
  pose proof (sort_inv_start (is_known g) (weighted_of g) (λ x y, wv_cmp y x ≠ Gt) _ _ _ _ Hiter Ht) as Hinv.
  destruct (sort_loop_spec wv_hash (weighted_entry g) pop (is_known g) (weighted_of g) (λ x y, wv_cmp y x ≠ Gt)
    (weighted_entry_spec g) Hkey Hpop _ _ (successors d) (edges_inside g vs) (proj2 Ht) fuel _ _ _ Hinv)
    as (out & deg' & Hrun & Hout); [simpl; lia|].
  exists out. split_and!; [done| |].
  - eapply sort_inv_topological; [done| |done]. by right.
  - intros S1 c S2 x -> (Hx & Hk & Hn & Hp).
    apply (sort_greedy _ _ _ _ _ _ _ _ Hout S1 c S2 eq_refl). split_and!; [done|done|done|].
    intros p (_ & ? & ?)%elem_of_edges. by apply Hp.
Qed.

End SortSpec.

(** ** Common ancestors *)

(** The visited hashes of one side: reachable from its start, and closed under
    parents except for the hashes that wait in the queue. *)
Record side_inv (nx : Hash → list Hash) (U : gset Hash) (a : Hash) (V : gset Hash) (Q : list Hash) : Prop := {
  side_start : a ∈ V;
  side_sound : ∀ x, x ∈ V → reachable nx [a] x;
  side_universe : V ⊆ U;
  side_queue : ∀ x, x ∈ Q → x ∈ V;
  side_closed : ∀ x y, x ∈ V → x ∉ Q → y ∈ nx x → y ∈ V
}.

Lemma side_complete nx U a V x : side_inv nx U a V [] → reachable nx [a] x → x ∈ V.
Proof.
  intros Hs (t & k & ->%list_elem_of_singleton & Hp). revert x Hp.
  induction k as [|k IH]; intros x Hp; simpl in Hp; [subst; apply Hs|].
  destruct Hp as (z & Hz%IH & Hx). eapply side_closed; [done..|apply not_elem_of_nil|done].
Qed.

Lemma side_inv_expand nx U a V c Q new :
  side_inv nx U a V (c :: Q) → (∀ x, x ∈ new ↔ x ∈ nx c ∧ x ∉ V) → (∀ x, x ∈ nx c → x ∈ U) →
  side_inv nx U a (V ∪ list_to_set new) (Q ++ new).
Proof.
  intros [H1 H2 H3 H4 H5] Hnew HU. split.
  - set_solver.
  - intros x [?|Hx%elem_of_list_to_set]%elem_of_union; [auto|].
    apply Hnew in Hx as [Hx _]. eapply path_trans_parent; [|done]. apply H2, H4. left.
  - intros x [?|Hx%elem_of_list_to_set]%elem_of_union; [auto|].
    apply Hnew in Hx as [Hx _]. auto.
  - intros x [Hx|Hx]%elem_of_app; [|set_solver]. apply elem_of_union_l, H4. by right.
  - intros x y Hx Hnq Hy. apply not_elem_of_app in Hnq as [HnQ Hnn].
    apply elem_of_union in Hx as [Hx|Hx]; [|set_solver].
    destruct (decide (y ∈ V)) as [|Hyv]; [set_solver|]. destruct (decide (x = c)) as [->|Hne].
    + apply elem_of_union_r, elem_of_list_to_set, Hnew. done.
    + destruct Hyv. eapply H5; [done| |done]. apply not_elem_of_cons. done.
Qed.

Definition side_measure (U V : gset Hash) (Q : list Hash) : nat := size (U ∖ V) + length Q.

Section Search.
Context `{VertexStoreLaws St}.
Implicit Types (g : DAGGraph St).

Lemma search_side_spec g U a V Q O :
  side_inv (parents_fn g) U a V Q → (∀ x y, y ∈ parents_fn g x → y ∈ U) → Q ≠ [] →
  (∃ c V' Q', search_side g V Q O = Ok (Some c, V', Q') ∧ c ∈ V ∧ c ∈ O) ∨
  (∃ V' Q', search_side g V Q O = Ok (None, V', Q') ∧ side_inv (parents_fn g) U a V' Q' ∧
     (side_measure U V' Q' < side_measure U V Q)%nat ∧ V ⊆ V' ∧
     (∀ x, x ∈ V' → x ∈ O → x ∈ V → x ∈ Q → x ∈ Q') ∧ ∀ x, x ∈ V' → x ∉ V → x ∈ Q').
Proof.
  intros Hs HU HQ. destruct Q as [|c Q]; [done|]. cbn [search_side]. case_decide as Hc.
  - left. exists c, V, Q. split_and!; [done| |done]. apply (side_queue _ _ _ _ _ Hs). left.
  - right. rewrite get_vertex_known.
    destruct (enqueue_all_spec (parents_fn g c) V Q) as (new & Hnd & Hin & Heq).
    exists (V ∪ list_to_set new), (Q ++ new). split_and!.
    + unfold parents_fn in Heq, Hin. destruct (known g c) as [v|].
      * by rewrite Heq.
      * destruct new as [|x new]; [|exfalso; specialize (Hin x); set_solver].
        simpl. by rewrite app_nil_r, (right_id_L ∅ (∪)).
    + eapply side_inv_expand; [done|done|eauto].
    + unfold side_measure. rewrite length_app. simpl.
      assert (list_to_set new ⊆ U ∖ V) as Hsub.
      { intros x Hx%elem_of_list_to_set%Hin. set_solver. }
      assert (U ∖ (V ∪ list_to_set new) = (U ∖ V) ∖ list_to_set new) as -> by set_solver.
      rewrite size_difference by done. apply subseteq_size in Hsub.
      rewrite size_list_to_set in * by done. lia.
    + set_solver.
    + intros x _ Ho _ [->|Hx]%elem_of_cons; [done|]. apply elem_of_app. by left.
    + set_solver.
Qed.

Lemma search_side_nil g V O : search_side g V [] O = Ok (None, V, []).
Proof. done. Qed.

(** What a search must return. *)
Definition search_post g (a b : Hash) (r : option Hash) : Prop :=
  match r with
  | Some c => reachable (parents_fn g) [a] c ∧ reachable (parents_fn g) [b] c
  | None => ∀ c, ¬ (reachable (parents_fn g) [a] c ∧ reachable (parents_fn g) [b] c)
  end.

Record search_inv g U a b (va vb : gset Hash) (qa qb : list Hash) : Prop := {
  search_a : side_inv (parents_fn g) U a va qa;
  search_b : side_inv (parents_fn g) U b vb qb;
  search_meet : ∀ x, x ∈ va → x ∈ vb → x ∈ qa ∨ x ∈ qb
}.

(** One side of a round, with an empty queue allowed. *)
Lemma search_half g U a b va vb qa qb :
  search_inv g U a b va vb qa qb → (∀ x y, y ∈ parents_fn g x → y ∈ U) →
  (∃ c V' Q', search_side g va qa vb = Ok (Some c, V', Q') ∧ search_post g a b (Some c)) ∨
  (∃ va' qa', search_side g va qa vb = Ok (None, va', qa') ∧ search_inv g U a b va' vb qa' qb ∧
     (side_measure U va' qa' ≤ side_measure U va qa)%nat ∧
     (qa ≠ [] → side_measure U va' qa' < side_measure U va qa)%nat).
Proof.
  intros [Ha Hb Hm] HU. destruct (decide (qa = [])) as [->|Hq].
  - right. exists va, []. rewrite search_side_nil. done.
  - destruct (search_side_spec g U a va qa vb Ha HU Hq) as
      [(c & V' & Q' & -> & Hc1 & Hc2)|(V' & Q' & -> & Hs & Hlt & Hsub & Hkeep & Hnew)].
    + left. exists c, V', Q'. split; [done|]. split; [by apply Ha|by apply Hb].
    + right. exists V', Q'. split_and!; [done| |lia|intros _; lia]. split; [done|done|].
      intros x Hx Hxb. destruct (decide (x ∈ va)) as [Hxa|]; [|left; eauto].
      destruct (Hm x Hxa Hxb) as [?|?]; [left; eauto|by right].
Qed.

Lemma search_inv_sym g U a b va vb qa qb :
  search_inv g U a b va vb qa qb → search_inv g U b a vb va qb qa.
Proof. intros [Ha Hb Hm]. split; [done|done|]. intros x ? ?. destruct (Hm x); auto. Qed.

Lemma search_spec fuel g U a b va vb qa qb :
  search_inv g U a b va vb qa qb → (∀ x y, y ∈ parents_fn g x → y ∈ U) →
  (side_measure U va qa + side_measure U vb qb < fuel)%nat →
  ∃ r, search fuel g va vb qa qb = Some (Ok r) ∧ search_post g a b r.
Proof.
  revert va vb qa qb. induction fuel as [|fuel IH]; intros va vb qa qb Hinv HU Hf; [lia|].
  cbn [search]. destruct (decide (qa = [] ∧ qb = [])) as [[-> ->]|Hq].
  - exists None. split; [done|]. intros c [Hca Hcb]. destruct Hinv as [Ha Hb Hm].
    eapply side_complete in Hca, Hcb; [|done..]. destruct (Hm c Hca Hcb) as [[]%not_elem_of_nil|[]%not_elem_of_nil].
  - assert (∀ A (x y : A), match qa, qb with [], [] => x | _, _ => y end = y) as ->
      by (intros; destruct qa, qb; naive_solver).
    destruct (search_half g U a b va vb qa qb Hinv HU) as [(c & V' & Q' & -> & Hpost)|
      (va' & qa' & -> & Hinv1 & Hle1 & Hlt1)]; [eauto|].
    apply search_inv_sym in Hinv1.
    destruct (search_half g U b a vb va' qb qa' Hinv1 HU) as [(c & V' & Q' & -> & Hpost)|
      (vb' & qb' & -> & Hinv2 & Hle2 & Hlt2)].
    + eexists. split; [done|]. by destruct Hpost.
    + apply search_inv_sym in Hinv2. apply IH; [done|done|].
      destruct (decide (qa = [])) as [|Hn]; [|specialize (Hlt1 Hn); lia].
      assert (qb ≠ []) as Hn by naive_solver. specialize (Hlt2 Hn). lia.
Qed.

Lemma find_common_ancestor_spec fuel g a b :
  wf g → (2 * size (dom (stored g)) + 6 < fuel)%nat →
  ∃ r, find_common_ancestor fuel g a b = Some (Ok r) ∧ search_post g a b r.
Proof.
  intros Hwf Hf. unfold find_common_ancestor.
  set (U := dom (stored g) ∪ {[a; b]}).
  assert (size U ≤ size (dom (stored g)) + 2)%nat as HsU.
  { unfold U. pose proof (size_union_alt (dom (stored g)) ({[a; b]} : gset Hash)) as ->.
    assert (({[a; b]} : gset Hash) ∖ dom (stored g) ⊆ {[a; b]}) as Hs%subseteq_size by set_solver.
    pose proof (size_union_alt ({[a]} : gset Hash) {[b]}) as Hab.
    assert (({[b]} : gset Hash) ∖ {[a]} ⊆ {[b]}) as Hs2%subseteq_size by set_solver.
    rewrite !size_singleton in *. lia. }
  assert (∀ x y, y ∈ parents_fn g x → y ∈ U) as HU.
  { intros x y Hy. unfold parents_fn in Hy. rewrite known_stored in Hy by apply Hwf.
    destruct (stored g !! x) as [v|] eqn:Hv; [|by apply not_elem_of_nil in Hy].
    apply elem_of_union_l, elem_of_dom. by eapply dag_parents. }
  assert (∀ c, c ∈ U → side_inv (parents_fn g) U c {[c]} [c]) as Hside.
  { intros c Hc. split; [set_solver| |set_solver|set_solver|set_solver].
    intros x ->%elem_of_singleton. exists c, O. split; [left|done]. }
  eapply search_spec; [|done|].
  - split; [apply Hside; set_solver|apply Hside; set_solver|set_solver].
  - unfold side_measure. cbn [length].
    assert (∀ c, size (U ∖ {[c]}) ≤ size U)%nat as Hd by (intros c; apply subseteq_size; set_solver).
    pose proof (Hd a). pose proof (Hd b). lia.
Qed.

(** ** Double spends *)

(** [w] beats [h]: heavier, or as heavy with a smaller hash. *)
Definition beats g (w h : Hash) : Prop :=
  ∀ vw vh, known g w = Some vw → known g h = Some vh →
    weight vh < weight vw ∨ (weight vh = weight vw ∧ w ≤ h).

Lemma beats_refl g h : beats g h h.
Proof. intros v1 v2 H1 H2. simplify_eq. lia. Qed.

Lemma beats_trans g r x y : is_Some (known g x) → beats g r x → beats g x y → beats g r y.
Proof.
  intros [vx Hx] H1 H2 vr vy Hr Hy. specialize (H1 vr vx Hr Hx). specialize (H2 vx vy Hx Hy). lia.
Qed.

(** One round keeps the better of the winner and the vertex. *)
Lemma heaviest_step g h hs w vw v :
  known g w = Some vw → known g h = Some v →
  ∃ w' v', heaviest g (h :: hs) (weight vw) w = heaviest g hs (weight v') w' ∧
    known g w' = Some v' ∧ (w' = w ∨ w' = h) ∧ beats g w' w ∧ beats g w' h.
Proof.
  intros Hw Hv. cbn [heaviest]. rewrite get_vertex_known, Hv.
  destruct (Z.ltb_spec (weight vw) (weight v)); [|destruct (Z.eqb_spec (weight v) (weight vw));
    [destruct (Z.ltb_spec h w)|]].
  1: exists h, v. 2: exists h, v. 3,4: exists w, vw.
  all: split_and!; rewrite ?e; auto using beats_refl; intros v1 v2 Hv1 Hv2; simplify_eq; lia.
Qed.

Lemma heaviest_spec g hs w vw :
  known g w = Some vw → Forall (λ h, is_Some (known g h)) hs →
  ∃ r, heaviest g hs (weight vw) w = Ok r ∧ r ∈ w :: hs ∧ is_Some (known g r) ∧ ∀ h, h ∈ w :: hs → beats g r h.
Proof.
  revert w vw. induction hs as [|h hs IH]; intros w vw Hw Hkn.
  - exists w. split_and!; [done|left|eauto|]. intros h ->%list_elem_of_singleton. apply beats_refl.
  - apply list.Forall_cons in Hkn as [[v Hv] Hkn].
    destruct (heaviest_step g h hs w vw v Hw Hv) as (w' & v' & -> & Hw' & Hor & B1 & B2).
    destruct (IH w' v' Hw' Hkn) as (r & -> & Hin & Hr & Hb). exists r. split_and!; [done| |done|].
    + destruct Hor; set_solver.
    + assert (beats g r w') as Hrw by (apply Hb; left). assert (is_Some (known g w')) as Hs by eauto.
      intros x [->|[->|Hx]%elem_of_cons]%elem_of_cons; [by eapply beats_trans..|].
      apply Hb. by right.
Qed.

Lemma resolve_double_spend_spec g t h hs :
  Forall (λ h, ∃ v, known g h = Some v ∧ 0 ≤ weight v) (h :: hs) →
  ∃ r, resolve_double_spend g t (h :: hs) = Ok r ∧ r ∈ h :: hs ∧ is_Some (known g r) ∧
    ∀ x, x ∈ h :: hs → beats g r x.
Proof.
  intros [(v & Hv & Hpos) Hall]%list.Forall_cons. unfold resolve_double_spend. cbn [heaviest].
  rewrite get_vertex_known, Hv, Z.ltb_irrefl.
  destruct (heaviest_spec g hs h v Hv) as (r & Hr & ?).
  { eapply list.Forall_impl; [done|]. intros x (? & ? & _). eauto. }
  exists r. split; [|done]. destruct (Z.ltb_spec 0 (weight v)); [done|].
  rewrite (proj2 (Z.eqb_eq _ _)) by lia. by replace (weight v) with 0 in Hr by lia.
Qed.

(** The best vertex is unique. *)
Lemma beats_antisym g r s :
  is_Some (known g r) → is_Some (known g s) → beats g r s → beats g s r → r = s.
Proof.
  intros [vr Hr] [vs Hs] H1 H2. specialize (H1 _ _ Hr Hs). specialize (H2 _ _ Hs Hr). lia.
Qed.

End Search.

(** ** Conflicting transactions *)

(** Two transactions of the given lists that spend the same nonce. *)
Definition spend_twice (l1 l2 : list SignedTransaction) (p : Hash * Hash) : Prop :=
  ∃ t1 t2, t1 ∈ l1 ∧ t2 ∈ l2 ∧ spend_key t1 = spend_key t2 ∧ p = (tx_hash t1, tx_hash t2).

(** [seen] holds the hash of a transaction of [txs] for exactly their keys. *)
Definition seen_spec (txs : list SignedTransaction) (seen : gmap (Address * Z) Hash) : Prop :=
  (∀ k h, seen !! k = Some h → ∃ t, t ∈ txs ∧ spend_key t = k ∧ tx_hash t = h) ∧
  (∀ t, t ∈ txs → is_Some (seen !! spend_key t)).

Lemma seen_insert done seen tx :
  seen_spec done seen → seen_spec (done ++ [tx]) (<[spend_key tx := tx_hash tx]> seen).
Proof.
  intros [H1 H2]. split.
  - intros k h. destruct (decide (k = spend_key tx)) as [->|Hk].
    + rewrite lookup_insert_eq. intros [= <-]. exists tx. split; [set_solver|done].
    + rewrite lookup_insert_ne by done. intros (t & ? & ?)%H1. exists t. split; [set_solver|done].
  - intros t Ht. destruct (decide (spend_key t = spend_key tx)) as [->|Hk]; [by rewrite lookup_insert_eq|].
    rewrite lookup_insert_ne by done. apply H2. apply elem_of_app in Ht as [| ->%list_elem_of_singleton]; done.
Qed.

Lemma own_spends_spec todo done seen cs :
  seen_spec done seen → Forall (spend_twice done done) cs →
  ∃ seen' cs', own_spends todo seen cs = (seen', cs ++ cs') ∧ seen_spec (done ++ todo) seen' ∧
    Forall (spend_twice (done ++ todo) (done ++ todo)) (cs ++ cs') ∧
    ∀ pre t2 post, todo = pre ++ t2 :: post → ∀ t1, t1 ∈ done ++ pre → spend_key t1 = spend_key t2 →
      ∃ h, (h, tx_hash t2) ∈ cs'.
Proof.
  revert done seen cs. induction todo as [|tx todo IH]; intros done seen cs Hseen Hcs.
  - exists seen, []. rewrite !app_nil_r. split_and!; [done|done|done|]. by intros [] ? ?.
  - cbn [own_spends].
    set (new := match seen !! spend_key tx with Some e => [(e, tx_hash tx)] | None => [] end).
    assert (match seen !! spend_key tx with Some e => cs ++ [(e, tx_hash tx)] | None => cs end = cs ++ new) as ->
      by (unfold new; destruct (seen !! spend_key tx); [done|by rewrite app_nil_r]).
    assert (∀ l p, spend_twice done done p → spend_twice (done ++ l) (done ++ l) p) as Hmono.
    { intros l p (t1 & t2 & ? & ? & ? & ->). exists t1, t2. rewrite !elem_of_app. auto. }
    assert (Forall (spend_twice (done ++ [tx]) (done ++ [tx])) (cs ++ new)) as Hnew.
    { apply list.Forall_app. split; [eapply list.Forall_impl; [done|]; auto|]. unfold new.
      destruct (seen !! spend_key tx) as [e|] eqn:He; [|done]. apply Forall_singleton.
      destruct (proj1 Hseen _ _ He) as (t & Ht & Hk & <-). exists t, tx. rewrite !elem_of_app, !list_elem_of_singleton. auto. }
    destruct (IH (done ++ [tx]) _ (cs ++ new) (seen_insert done seen tx Hseen) Hnew)
      as (seen' & cs' & -> & Hseen' & Hall & Hcomp).
    exists seen', (new ++ cs'). rewrite <- !app_assoc in Hseen'. rewrite <- !app_assoc in Hall.
    split_and!; [by rewrite <- app_assoc|exact Hseen'|exact Hall|].
    intros pre t2 post Heq t1 Ht1 Hk. destruct pre as [|y pre]; injection Heq as <- Heq.
    + rewrite app_nil_r in Ht1. destruct (proj2 Hseen t1 Ht1) as [e He]. rewrite Hk in He.
      exists e. unfold new. rewrite He. left.
    + destruct (Hcomp pre t2 post Heq t1) as [h Hh]; [set_solver|done|]. exists h. set_solver.
Qed.

Lemma other_conflicts_spec txs seen l :
  seen_spec txs seen →
  Forall (spend_twice txs l) (other_conflicts seen l) ∧
  ∀ t1 t2, t1 ∈ txs → t2 ∈ l → spend_key t1 = spend_key t2 → ∃ h, (h, tx_hash t2) ∈ other_conflicts seen l.
Proof.
  intros [H1 H2]. unfold other_conflicts. split.
  - apply list.Forall_forall. intros p (t2 & Ht2 & Hp)%list_elem_of_omap.
    destruct (seen !! spend_key t2) as [h|] eqn:Hs; [|done]. injection Hp as <-.
    destruct (H1 _ _ Hs) as (t1 & ? & ? & <-). exists t1, t2. done.
  - intros t1 t2 Ht1 Ht2 Hk. destruct (H2 t1 Ht1) as [h Hh]. exists h. apply list_elem_of_omap.
    exists t2. split; [done|]. by rewrite <- Hk, Hh.
Qed.

(** The vertices of [recent] that are compared with [v]. *)
Definition others (v : DAGVertex) (recent : list DAGVertex) : list DAGVertex :=
  filter (λ o, vhash o ≠ vhash v) recent.

Lemma fold_others v seen recent cs :
  foldl (λ cs other, if vhash other =? vhash v then cs else cs ++ other_conflicts seen (transactions other)) cs recent =
  cs ++ concat (other_conflicts seen ∘ transactions <$> others v recent).
Proof.
  unfold others. revert cs. induction recent as [|o recent IH]; intros cs; [by rewrite list.filter_nil, app_nil_r|].
  cbn [foldl]. rewrite filter_cons, IH. destruct (Z.eqb_spec (vhash o) (vhash v)).
  - by rewrite decide_False by naive_solver.
  - rewrite decide_True by done. rewrite fmap_cons. cbn [concat]. by rewrite <- app_assoc.
Qed.

(** ** A list as a heap *)

Ltac compare_entries :=
  unfold wv_cmp in *;
  repeat match goal with
  | H : context [?a ?= ?b] |- _ => destruct (Z.compare_spec a b)
  | |- context [?a ?= ?b] => destruct (Z.compare_spec a b)
  end; try done; lia.

(** Takes a greatest entry out of a list, the first one among equals. *)
Fixpoint take_greatest (l : list WeightedVertex) : option (WeightedVertex * list WeightedVertex) :=
  match l with
  | [] => None
  | x :: l' =>
      match take_greatest l' with
      | None => Some (x, [])
      | Some (y, r) => match wv_cmp y x with Gt => Some (y, x :: r) | _ => Some (x, l') end
      end
  end.

Lemma take_greatest_first : greatest_first take_greatest.
Proof.
  intros l. induction l as [|x l IH]; [done|]. cbn [take_greatest].
  assert (∀ a, wv_cmp a a ≠ Gt) as Hrefl.
  { intros a. unfold wv_cmp. by rewrite !Z.compare_refl. }
  destruct (take_greatest l) as [[y r]|].
  - destruct IH as [Hperm Hmax]. destruct (wv_cmp y x) eqn:Hyx.
    1,2: split; [done|]; intros z [->|Hz]%elem_of_cons; [apply Hrefl|]; specialize (Hmax z Hz);
      compare_entries.
    split; [by rewrite Hperm; apply Permutation_swap|]. intros z [->|Hz]%elem_of_cons; [|by apply Hmax].
    compare_entries.
  - subst. split; [done|]. intros z ->%list_elem_of_singleton. apply Hrefl.
Qed.

(** ** Claims *)

(** C11. Topological sorting.  On a well-formed graph and for every list of hashes,
    whatever the iteration order of the hash maps, both sorts return within one round
    per hash.  [topological_sort] lists every given hash exactly once, with every
    parent that is among them before its children.
    [weighted_topological_sort] does the same with the hashes of known vertices, and
    at every position takes a vertex that is greatest, for the order of the heap,
    among those whose parents are already listed.  Between vertices that this leaves open the
    order is that of the iteration, not that of the hashes. *)
Theorem sorts_correct {St} `{VertexStoreLaws St} (g : DAGGraph St) iter pop fuel vs
    (Hwf : wf g) (Hiter : lists_map iter) (Hpop : greatest_first pop) (Hfuel : (length vs < fuel)%nat)
    (Hlen : Z.of_nat (length (edges (parents_fn g) vs)) ≤ usize_max) :
  (∃ out, topological_sort iter fuel g vs = Some (Ok out) ∧ topological g vs (λ _, true) out) ∧
  (∃ out, weighted_topological_sort iter pop fuel g vs = Some (Ok out) ∧ topological g vs (is_known g) out ∧
    ∀ S1 c S2 x, out = S1 ++ c :: S2 → available g vs S1 x → wv_cmp (weighted_of g x) (weighted_of g c) ≠ Gt).
Proof. split; [by apply topological_sort_spec|by apply weighted_sort_spec]. Qed.

(** The graph of the examples: the diamond with one vertex on top. *)
Definition sample_graph : DAGGraph (gmap Hash DAGVertex) :=
  foldl step (new (∅ : gmap Hash DAGVertex) 0 8) (diamond ++ [OAddVertex (plain_vertex 5 [4; 1] 3)]).

Lemma sample_graph_wf : wf sample_graph.
Proof. apply dag_wf_run; [by apply dag_wf_new|vm_compute; reflexivity]. Qed.

Lemma sorts_correct_witness :
  topological_sort map_to_list 10 sample_graph [5; 4; 9; 3; 2; 1] = Some (Ok [9; 1; 3; 2; 4; 5]) ∧
  (∃ out, weighted_topological_sort map_to_list take_greatest 10 sample_graph [5; 4; 9; 3; 2; 1] = Some (Ok out) ∧
    topological sample_graph [5; 4; 9; 3; 2; 1] (is_known sample_graph) out).
Proof.
  split; [vm_compute; reflexivity|].
  destruct (sorts_correct sample_graph map_to_list take_greatest 10 [5; 4; 9; 3; 2; 1]) as [_ (out & H1 & H2 & _)].
  - exact sample_graph_wf.
  - intros m. reflexivity.
  - exact take_greatest_first.
  - simpl. lia.
  - vm_compute. discriminate.
  - exists out. split; [exact H1|exact H2].
Defined.

(** The order is not determined by the graph: two nodes whose hash maps are iterated in different orders sort the same
    two siblings differently, with both sorts.  Neither compares hashes. *)
Theorem order_not_deterministic :
  ∃ (g : DAGGraph (gmap Hash DAGVertex)) iter1 iter2 vs, wf g ∧ lists_map iter1 ∧ lists_map iter2 ∧
    topological_sort iter1 10 g vs ≠ topological_sort iter2 10 g vs ∧
    weighted_topological_sort iter1 take_greatest 10 g vs ≠ weighted_topological_sort iter2 take_greatest 10 g vs.
Proof.
  exists sample_graph, map_to_list, (λ m, reverse (map_to_list m)), [2; 3]. split; [exact sample_graph_wf|].
  split; [intros m; reflexivity|]. split; [intros m; apply reverse_Permutation|]. split; vm_compute; discriminate.
Qed.

(** C39. Common ancestors.  On a well-formed graph [find_common_ancestor] ends
    within the stated number of rounds and never fails: it returns a hash reachable
    from both arguments by going to parents (an argument reaches itself), and
    returns none exactly when there is no such hash. *)
Theorem common_ancestor_correct {St} `{VertexStoreLaws St} (g : DAGGraph St) fuel a b
    (Hwf : wf g) (Hfuel : (2 * size (dom (stored g)) + 6 < fuel)%nat) :
  ∃ r, find_common_ancestor fuel g a b = Some (Ok r) ∧
    match r with
    | Some c => reachable (parents_fn g) [a] c ∧ reachable (parents_fn g) [b] c
    | None => ∀ c, ¬ (reachable (parents_fn g) [a] c ∧ reachable (parents_fn g) [b] c)
    end.
Proof. exact (find_common_ancestor_spec fuel g a b Hwf Hfuel). Qed.

Lemma common_ancestor_correct_witness :
  find_common_ancestor 20 sample_graph 2 3 = Some (Ok (Some 1)) ∧
  find_common_ancestor 20 sample_graph 5 3 = Some (Ok (Some 1)) ∧
  ∃ r, find_common_ancestor 20 sample_graph 2 3 = Some (Ok r).
Proof.
  split; [vm_compute; reflexivity|]. split; [vm_compute; reflexivity|].
  destruct (common_ancestor_correct sample_graph 20 2 3 sample_graph_wf) as (r & Hr & _).
  - vm_compute. lia.
  - exists r. exact Hr.
Defined.

(** Double spends are resolved the same way by everyone.  Among known
    vertices [resolve_double_spend] chooses one of the given ones, no other is
    heavier, and those as heavy have a larger hash; two nodes that list the same
    vertices in different orders choose the same one.  An empty list is an error. *)
Theorem double_spend_deterministic {St} `{VertexStoreLaws St} (g : DAGGraph St) t1 t2 vs1 vs2
    (Hne : vs1 ≠ []) (Hperm : vs1 ≡ₚ vs2)
    (Hknown : Forall (λ h, ∃ v, known g h = Some v ∧ 0 ≤ weight v) vs1) :
  resolve_double_spend g t1 [] = Err (InvalidInput "Cannot resolve double spend with empty vertices array") ∧
  ∃ w, resolve_double_spend g t1 vs1 = Ok w ∧ resolve_double_spend g t2 vs2 = Ok w ∧ w ∈ vs1 ∧
    ∀ h, h ∈ vs1 → beats g w h.
Proof.
  split; [done|].
  assert (Forall (λ h, ∃ v, known g h = Some v ∧ 0 ≤ weight v) vs2) as Hknown2 by by rewrite <- Hperm.
  destruct vs1 as [|x vs1]; [done|]. destruct vs2 as [|y vs2]; [by apply Permutation_nil_r in Hperm|].
  destruct (resolve_double_spend_spec g t1 x vs1 Hknown) as (r & -> & Hin & Hr & Hb).
  destruct (resolve_double_spend_spec g t2 y vs2 Hknown2) as (r2 & -> & Hin2 & Hr2 & Hb2).
  exists r. split_and!; [done| |done|done]. f_equal. apply (beats_antisym g); [done|done| |].
  - apply Hb2. by rewrite <- Hperm.
  - apply Hb. by rewrite Hperm.
Qed.

Lemma double_spend_deterministic_witness :
  resolve_double_spend sample_graph 0 [4; 2; 3] = Ok 2 ∧
  ∃ w, resolve_double_spend sample_graph 0 [4; 2; 3] = Ok w ∧ resolve_double_spend sample_graph 0 [3; 4; 2] = Ok w.
Proof.
  split; [vm_compute; reflexivity|].
  destruct (double_spend_deterministic sample_graph 0 0 [4; 2; 3] [3; 4; 2]) as [_ (w & H1 & H2 & _)].
  - discriminate.
  - apply (Permutation_app_comm [4; 2] [3]).
  - repeat (apply list.Forall_cons; split; [eexists; split; [vm_compute; reflexivity|vm_compute; discriminate]|]).
    apply list.Forall_nil. exact I.
  - exists w. split; [exact H1|exact H2].
Defined.

(** Conflict detection.  Every pair reported by
    [detect_conflicting_transactions] consists of a transaction of the vertex and
    one of the vertex or of another recent vertex with the same sender and nonce,
    and every transaction of another recent vertex, or later in the vertex itself, that
    spends a nonce which a transaction of the vertex spends is reported. *)
Theorem conflicts_detected (v : DAGVertex) (recent : list DAGVertex) :
  (∀ p, p ∈ detect_conflicting_transactions v recent →
     spend_twice (transactions v) (transactions v) p ∨
     ∃ o, o ∈ recent ∧ vhash o ≠ vhash v ∧ spend_twice (transactions v) (transactions o) p) ∧
  (∀ pre t2 post t1, transactions v = pre ++ t2 :: post → t1 ∈ pre → spend_key t1 = spend_key t2 →
     ∃ h, (h, tx_hash t2) ∈ detect_conflicting_transactions v recent) ∧
  (∀ o t1 t2, o ∈ recent → vhash o ≠ vhash v → t1 ∈ transactions v → t2 ∈ transactions o →
     spend_key t1 = spend_key t2 → ∃ h, (h, tx_hash t2) ∈ detect_conflicting_transactions v recent).
Proof.
  unfold detect_conflicting_transactions.
  destruct (own_spends_spec (transactions v) [] ∅ []) as (seen & cs & -> & Hseen & Hcs & Hown);
    [split; [by intros ? ? ?%lookup_empty_Some|by intros ? ?%not_elem_of_nil]|by constructor|].
  simpl in Hseen, Hcs |- *. rewrite fold_others.
  pose proof (λ o, other_conflicts_spec _ _ (transactions o) Hseen) as Hother.
  assert (∀ o, o ∈ recent → vhash o ≠ vhash v → ∀ p, p ∈ other_conflicts seen (transactions o) →
    p ∈ cs ++ concat (other_conflicts seen ∘ transactions <$> others v recent)) as Hincl.
  { intros o Ho Hne p Hp. apply elem_of_app. right. apply list_elem_of_In, in_concat.
    exists (other_conflicts seen (transactions o)). rewrite <- !list_elem_of_In. split; [|done].
    apply list_elem_of_fmap. exists o. split; [done|]. by apply list_elem_of_filter. }
  split_and!.
  - intros p [Hp|Hp]%elem_of_app.
    + left. by eapply list.Forall_forall in Hcs.
    + right. apply list_elem_of_In, in_concat in Hp as (l & Hl & Hp). rewrite <- list_elem_of_In in Hl. rewrite <- list_elem_of_In in Hp.
      apply list_elem_of_fmap in Hl as (o & -> & [Hne Ho]%list_elem_of_filter). exists o.
      split_and!; [done|done|]. by eapply list.Forall_forall in Hp; [|apply Hother].
  - intros pre t2 post t1 Heq Ht1 Hk. destruct (Hown pre t2 post Heq t1 Ht1 Hk) as [h Hh].
    exists h. apply elem_of_app. by left.
  - intros o t1 t2 Ho Hne Ht1 Ht2 Hk. destruct (proj2 (Hother o) t1 t2 Ht1 Ht2 Hk) as [h Hh]. eauto.
Qed.
