(* ===== verification/Smt.v ===== *)
(** * The sparse Merkle tree of the state root

    Models the tree functions of [src/L1/src/state/manager.rs]
    ([smt_hash_leaf], [smt_hash_node], [smt_default_hashes], [shift_right_one],
    [toggle_lowest_bit], [sparse_merkle_root]).  The root is computed level by
    level over the occupied nodes only; the reference definition [tree] is the
    full binary tree of depth 256.  The construction is a function of the leaf
    and node hashes, which the code builds from SHA3-256. *)

From S2P Require Import Prelude Bytes.

Definition SMT_EMPTY_LEAF_DOMAIN : list Z := ascii_bytes "QUANTOS_STATE_SMT_EMPTY_LEAF_V1".
Definition SMT_LEAF_DOMAIN : list Z := ascii_bytes "QUANTOS_STATE_SMT_LEAF_V1".
Definition SMT_NODE_DOMAIN : list Z := ascii_bytes "QUANTOS_STATE_SMT_NODE_V1".

Definition smt_hash_leaf (hash_data : list Z → Hash) (address : Address) (account_hash : Hash) : Hash :=
  hash_data (SMT_LEAF_DOMAIN ++ hash_bytes address ++ hash_bytes account_hash).

Definition smt_hash_node (hash_data : list Z → Hash) (left right : Hash) : Hash :=
  hash_data (SMT_NODE_DOMAIN ++ hash_bytes left ++ hash_bytes right).

(** A key is 32 big-endian bytes: shifting every byte with its carry is the
    shift of the number, flipping bit 0 of byte 31 flips its lowest bit. *)
Definition shift_right_one (key : Address) : Address := Z.shiftr key 1.
Definition toggle_lowest_bit (key : Address) : Address := Z.lxor key 1.

(** Some key lies under [p] at height [l]. *)
Definition occupied (m : gmap Address Hash) (l : nat) (p : Z) : Prop :=
  ∃ k, is_Some (m !! k) ∧ k / 2 ^ Z.of_nat l = p.

Lemma occupied_step m l p :
  occupied m (S l) p ↔ occupied m l (2 * p) ∨ occupied m l (2 * p + 1).
Proof.
  unfold occupied. rewrite Nat2Z.inj_succ, Z.pow_succ_r by lia. split.
  - intros (k & Hk & Hp). rewrite Z.mul_comm, <- Z.div_div in Hp by lia.
    pose proof (Z.div_mod (k / 2 ^ Z.of_nat l) 2). pose proof (Z.mod_pos_bound (k / 2 ^ Z.of_nat l) 2).
    destruct (Z.eq_dec ((k / 2 ^ Z.of_nat l) mod 2) 0); [left|right]; exists k; split; done || lia.
  - intros [(k & Hk & Hp)|(k & Hk & Hp)]; exists k; (split; [done|]);
      rewrite Z.mul_comm, <- Z.div_div, Hp by lia.
    + rewrite Z.mul_comm, Z_div_mult by lia. done.
    + rewrite Z.add_comm, Z.mul_comm, Z_div_plus_full by lia. done.
Qed.

Lemma occupied_dec m l p : occupied m l p ∨ ¬ occupied m l p.
Proof.
  revert p. induction l as [|l IH]; intros p.
  - destruct (m !! p) eqn:E.
    + left. exists p. rewrite E. split; [done|]. change (2 ^ Z.of_nat 0) with 1. apply Z.div_1_r.
    + right. intros (k & Hk & Hp). change (2 ^ Z.of_nat 0) with 1 in Hp. rewrite Z.div_1_r in Hp.
      subst. rewrite E in Hk. by destruct Hk.
  - rewrite occupied_step. destruct (IH (2 * p)), (IH (2 * p + 1)); tauto.
Qed.

Section Tree.
Context (leaf : Address → Hash → Hash) (node : Hash → Hash → Hash) (empty_leaf : Hash).

(** [smt_default_hashes]: entry [l] is the root of an empty subtree of height
    [l]. *)
Fixpoint default_hash (level : nat) : Hash :=
  match level with
  | O => empty_leaf
  | S l => node (default_hash l) (default_hash l)
  end.

Definition smt_default_hashes : list Hash := map default_hash (seq 0 257).

(** The parent that one node contributes; nothing when its left sibling
    contributes it. *)
Definition parent_entry (level : nat) (nodes : gmap Address Hash) (key : Address) (hash : Hash)
    : option (Address * Hash) :=
  let sibling_key := toggle_lowest_bit key in
  if (sibling_key <? key) && bool_decide (is_Some (nodes !! sibling_key)) then None
  else
    let sibling_hash := default (default_hash level) (nodes !! sibling_key) in
    let lr := if Z.land key 1 =? 0 then (hash, sibling_hash) else (sibling_hash, hash) in
    Some (shift_right_one key, node lr.1 lr.2).

Definition insert_parent (level : nat) (nodes : gmap Address Hash) (parents : gmap Address Hash)
    (kv : Address * Hash) : gmap Address Hash :=
  match parent_entry level nodes kv.1 kv.2 with
  | Some (k, h) => <[k := h]> parents
  | None => parents
  end.

(** One iteration of the outer loop. *)
Definition level_up (level : nat) (nodes : gmap Address Hash) : gmap Address Hash :=
  foldl (insert_parent level nodes) ∅ (map_to_list nodes).

Fixpoint levels (n : nat) (level : nat) (nodes : gmap Address Hash) : gmap Address Hash :=
  match n with
  | O => nodes
  | S n' => levels n' (S level) (level_up level nodes)
  end.

(** The [BTreeMap] collected from the leaves: a later entry for a key wins. *)
Definition leaf_nodes (account_hashes : list (Address * Hash)) : gmap Address Hash :=
  foldl (λ m '(a, h), <[a := leaf a h]> m) ∅ account_hashes.

Definition sparse_merkle_root (account_hashes : list (Address * Hash)) : Hash :=
  match account_hashes with
  | [] => default_hash 256
  | _ =>
      match map_to_list (levels 256 0 (leaf_nodes account_hashes)) with
      | (_, h) :: _ => h
      | [] => default_hash 256
      end
  end.

(** ** Reference definition *)

(** The hash of the subtree of height [l] over the keys [k] with
    [k / 2 ^ l = p]. *)
Fixpoint tree (m : gmap Address Hash) (l : nat) (p : Z) : Hash :=
  match l with
  | O => match m !! p with Some h => leaf p h | None => empty_leaf end
  | S l' => node (tree m l' (2 * p)) (tree m l' (2 * p + 1))
  end.

(** ** Lemmas on keys *)

Lemma toggle_even p : toggle_lowest_bit (2 * p) = 2 * p + 1.
Proof.
  unfold toggle_lowest_bit. apply Z.bits_inj'. intros n Hn. rewrite Z.lxor_spec.
  change 1 with (2 ^ 0). rewrite Z.pow2_bits_eqb by lia.
  destruct (Z.eqb_spec 0 n) as [<-|].
  - rewrite Z.testbit_even_0, Z.testbit_odd_0. done.
  - replace n with (Z.succ (n - 1)) by lia.
    rewrite Z.testbit_even_succ, Z.testbit_odd_succ by lia. by rewrite xorb_false_r.
Qed.

Lemma toggle_odd p : toggle_lowest_bit (2 * p + 1) = 2 * p.
Proof.
  rewrite <- toggle_even. unfold toggle_lowest_bit.
  by rewrite Z.lxor_assoc, Z.lxor_nilpotent, Z.lxor_0_r.
Qed.

Lemma shift_half k : shift_right_one k = k / 2.
Proof. unfold shift_right_one. by rewrite Z.shiftr_div_pow2. Qed.

Lemma land_one k : Z.land k 1 = k mod 2.
Proof. change 1 with (Z.ones 1). by rewrite Z.land_ones. Qed.

Lemma parity k : ∃ p, k = 2 * p ∨ k = 2 * p + 1.
Proof. exists (k / 2). pose proof (Z.div_mod k 2). pose proof (Z.mod_pos_bound k 2). lia. Qed.

Lemma parent_entry_even level nodes p h :
  parent_entry level nodes (2 * p) h =
    Some (p, node h (default (default_hash level) (nodes !! (2 * p + 1)))).
Proof.
  unfold parent_entry. rewrite toggle_even.
  destruct (Z.ltb_spec (2 * p + 1) (2 * p)); [lia|]. simpl.
  rewrite land_one, (Z.mul_comm 2 p), Z_mod_mult. simpl. rewrite shift_half, Z_div_mult by lia. done.
Qed.

Lemma parent_entry_odd level nodes p h :
  parent_entry level nodes (2 * p + 1) h =
    if decide (is_Some (nodes !! (2 * p))) then None else Some (p, node (default_hash level) h).
Proof.
  unfold parent_entry. rewrite toggle_odd.
  destruct (Z.ltb_spec (2 * p) (2 * p + 1)); [|lia]. simpl.
  case_decide as Hs; [by rewrite bool_decide_true|]. rewrite bool_decide_false by done.
  rewrite land_one, Z.add_comm, Z.mul_comm, Z_mod_plus_full. simpl.
  rewrite shift_half, Z_div_plus_full by lia. simpl.
  rewrite <- not_eq_None_Some in Hs. destruct (nodes !! (p * 2)) eqn:E; [|done].
  exfalso. apply Hs. rewrite Z.mul_comm. congruence.
Qed.

(** ** One level *)

(** The value of a parent of which at least one child is occupied. *)
Definition combine (level : nat) (nodes : gmap Address Hash) (p : Z) : Hash :=
  node (default (default_hash level) (nodes !! (2 * p)))
       (default (default_hash level) (nodes !! (2 * p + 1))).

Lemma parent_entry_value level nodes k h p x :
  nodes !! k = Some h → parent_entry level nodes k h = Some (p, x) →
  x = combine level nodes p ∧ (k = 2 * p ∨ k = 2 * p + 1).
Proof.
  intros Hk. unfold combine. destruct (parity k) as [q [-> | ->]].
  - rewrite parent_entry_even. intros [= <- <-]. rewrite Hk. auto.
  - rewrite parent_entry_odd. case_decide as Hs; [done|]. intros [= <- <-]. rewrite Hk.
    rewrite <- not_eq_None_Some in Hs. destruct (nodes !! (2 * q)) eqn:E; [by exfalso; apply Hs|auto].
Qed.

(** The node contributes the parent [p]. *)
Definition contributes (level : nat) (nodes : gmap Address Hash) (p : Z) (kv : Address * Hash) : bool :=
  match parent_entry level nodes kv.1 kv.2 with Some (q, _) => q =? p | None => false end.

Lemma insert_parents_lookup level nodes l acc p :
  (∀ k h, (k, h) ∈ l → nodes !! k = Some h) →
  foldl (insert_parent level nodes) acc l !! p =
    if existsb (contributes level nodes p) l then Some (combine level nodes p) else acc !! p.
Proof.
  revert acc. induction l as [|[k h] l IH]; intros acc Hl; simpl; [done|].
  rewrite IH by (intros; apply Hl; by right).
  assert (Hk : nodes !! k = Some h) by (apply Hl; left).
  unfold insert_parent, contributes at 2. simpl.
  destruct (existsb (contributes level nodes p) l); [by rewrite orb_true_r|]. rewrite orb_false_r.
  destruct (parent_entry level nodes k h) as [[q x]|] eqn:Hpe; [|done].
  rewrite lookup_insert. destruct (Z.eqb_spec q p) as [->|Hne]; [|by rewrite decide_False].
  rewrite decide_True by done. by destruct (parent_entry_value _ _ _ _ _ _ Hk Hpe) as [-> _].
Qed.

Lemma level_up_lookup level nodes p :
  level_up level nodes !! p =
    if decide (is_Some (nodes !! (2 * p)) ∨ is_Some (nodes !! (2 * p + 1)))
    then Some (combine level nodes p) else None.
Proof.
  unfold level_up. rewrite insert_parents_lookup by (intros k h; apply elem_of_map_to_list).
  assert (Hcon : ∀ k h x, nodes !! k = Some h → parent_entry level nodes k h = Some (p, x) →
    existsb (contributes level nodes p) (map_to_list nodes) = true).
  { intros k h x Hk Hp. apply existsb_exists. exists (k, h).
    split; [by apply list_elem_of_In, elem_of_map_to_list|]. unfold contributes. simpl. rewrite Hp.
    apply Z.eqb_refl. }
  case_decide as Hs.
  - destruct (nodes !! (2 * p)) as [h|] eqn:He; [by erewrite Hcon by (done || apply parent_entry_even)|].
    destruct Hs as [[? ?]|[h Ho]]; [done|]. erewrite Hcon; [done..|].
    rewrite parent_entry_odd, decide_False; [done|]. rewrite He. by intros [? ?].
  - destruct (existsb _ _) eqn:Hex; [|done]. exfalso. apply Hs.
    apply existsb_exists in Hex as ([k h] & Hin%list_elem_of_In%elem_of_map_to_list & Hc).
    unfold contributes in Hc. simpl in Hc.
    destruct (parent_entry level nodes k h) as [[q x]|] eqn:Hp; [|done]. apply Z.eqb_eq in Hc. subst q.
    destruct (parent_entry_value _ _ _ _ _ _ Hin Hp) as [_ [-> | ->]]; eauto.
Qed.

(** ** All levels *)

Lemma tree_empty m l p : ¬ occupied m l p → tree m l p = default_hash l.
Proof.
  revert p. induction l as [|l IH]; intros p Hno; simpl.
  - destruct (m !! p) eqn:E; [|done]. exfalso. apply Hno. exists p. rewrite E.
    split; [done|]. change (2 ^ Z.of_nat 0) with 1. apply Z.div_1_r.
  - rewrite !IH; [done|..]; intros (k & Hk & Hp); apply Hno; exists k; (split; [done|]);
      rewrite Nat2Z.inj_succ, Z.pow_succ_r, Z.mul_comm, <- Z.div_div by lia; rewrite Hp.
    + rewrite Z.add_comm, Z.mul_comm, Z_div_plus_full by lia. done.
    + rewrite Z.mul_comm, Z_div_mult by lia. done.
Qed.

(** [nodes] holds the hashes of the occupied subtrees of height [l]. *)
Definition represents (m : gmap Address Hash) (l : nat) (nodes : gmap Address Hash) : Prop :=
  ∀ p, (occupied m l p → nodes !! p = Some (tree m l p)) ∧ (¬ occupied m l p → nodes !! p = None).

Lemma represents_default m l nodes p :
  represents m l nodes → default (default_hash l) (nodes !! p) = tree m l p.
Proof.
  intros Hr. destruct (Hr p) as [H1 H2]. destruct (occupied_dec m l p) as [Ho|Ho].
  - by rewrite H1.
  - rewrite H2 by done. simpl. by rewrite tree_empty.
Qed.

Lemma represents_level_up m l nodes : represents m l nodes → represents m (S l) (level_up l nodes).
Proof.
  intros Hr p. rewrite occupied_step, level_up_lookup. unfold combine.
  rewrite !(represents_default m l nodes) by done.
  destruct (Hr (2 * p)) as [Ha Hb], (Hr (2 * p + 1)) as [Hc Hd]. split.
  - intros Ho. rewrite decide_True; [done|]. destruct Ho as [Ho|Ho]; [left; rewrite Ha|right; rewrite Hc]; done.
  - intros Hno. rewrite decide_False; [done|]. rewrite Hb, Hd by tauto. intros [[? ?]|[? ?]]; done.
Qed.

Lemma represents_levels m n l nodes : represents m l nodes → represents m (n + l) (levels n l nodes).
Proof.
  revert l nodes. induction n as [|n IH]; intros l nodes Hr; simpl; [done|].
  rewrite <- Nat.add_succ_r. apply IH. by apply represents_level_up.
Qed.

Lemma represents_leaves m : represents m 0 (map_imap (λ a h, Some (leaf a h)) m).
Proof.
  intros p. rewrite map_lookup_imap. unfold occupied. change (2 ^ Z.of_nat 0) with 1. split.
  - intros (k & [h Hk] & Hp). rewrite Z.div_1_r in Hp. subst k. simpl. rewrite Hk. done.
  - intros Hno. destruct (m !! p) eqn:E; simpl; [|done]. exfalso. apply Hno. exists p.
    rewrite E, Z.div_1_r. done.
Qed.

Lemma leaf_nodes_map l :
  leaf_nodes l = map_imap (λ a h, Some (leaf a h)) (foldl (λ m '(a, h), <[a := h]> m) ∅ l).
Proof.
  unfold leaf_nodes.
  assert (Hgen : ∀ acc : gmap Address Hash,
    foldl (λ m '(a, h), <[a := leaf a h]> m) (map_imap (λ a h, Some (leaf a h)) acc) l =
    map_imap (λ a h, Some (leaf a h)) (foldl (λ m '(a, h), <[a := h]> m) acc l)).
  { induction l as [|[a h] l IH]; intros acc; simpl; [done|]. rewrite <- IH. f_equal.
    apply map_eq. intros k. rewrite lookup_insert, !map_lookup_imap, lookup_insert.
    by case_decide; subst. }
  by rewrite <- Hgen.
Qed.

(** The tree is a function of the leaves below it. *)
Lemma tree_ext m m' l p :
  (∀ k, k / 2 ^ Z.of_nat l = p → m !! k = m' !! k) → tree m l p = tree m' l p.
Proof.
  revert p. induction l as [|l IH]; intros p Hext; simpl.
  - rewrite Hext; [done|]. change (2 ^ Z.of_nat 0) with 1. apply Z.div_1_r.
  - f_equal; apply IH; intros k Hk; apply Hext;
      rewrite Nat2Z.inj_succ, Z.pow_succ_r, Z.mul_comm, <- Z.div_div, Hk by lia.
    + rewrite Z.mul_comm, Z_div_mult by lia. done.
    + rewrite Z.add_comm, Z.mul_comm, Z_div_plus_full by lia. done.
Qed.

End Tree.

(** The root as the state manager computes it. *)
Definition state_smt_root (hash_data : list Z → Hash) (account_hashes : list (Address * Hash)) : Hash :=
  sparse_merkle_root (smt_hash_leaf hash_data) (smt_hash_node hash_data)
    (hash_data SMT_EMPTY_LEAF_DOMAIN) account_hashes.

(** The map a list of entries stands for: a later entry wins. *)
Definition entries (l : list (Address * Hash)) : gmap Address Hash :=
  foldl (λ m '(a, h), <[a := h]> m) ∅ l.

(** ** The level-by-level root is the root of the tree *)

Lemma small_keys_top k : 0 ≤ k < 2 ^ 256 → k / 2 ^ Z.of_nat 256 = 0.
Proof. intros Hk. change (Z.of_nat 256) with 256. by apply Z.div_small. Qed.

Lemma entries_keys l :
  Forall (λ e, 0 ≤ e.1 < 2 ^ 256) l → ∀ k, is_Some (entries l !! k) → 0 ≤ k < 2 ^ 256.
Proof.
  unfold entries. intros Hl.
  assert (Hgen : ∀ acc : gmap Address Hash, (∀ k, is_Some (acc !! k) → 0 ≤ k < 2 ^ 256) →
    ∀ k, is_Some (foldl (λ m '(a, h), <[a := h]> m) acc l !! k) → 0 ≤ k < 2 ^ 256).
  { induction Hl as [|[a h] l Ha Hl IH]; intros acc Hacc; simpl in *; [done|].
    apply IH. intros k. rewrite lookup_insert. case_decide; [by subst|]. apply Hacc. }
  apply Hgen. intros k [? Hk]. by rewrite lookup_empty in Hk.
Qed.

Lemma entries_nonempty e l : ∃ k, is_Some (entries (e :: l) !! k).
Proof.
  destruct e as [a h]. exists a. unfold entries. simpl.
  assert (Hgen : ∀ acc : gmap Address Hash, is_Some (acc !! a) →
    is_Some (foldl (λ m '(a, h), <[a := h]> m) acc l !! a)).
  { induction l as [|[b h'] l IH]; intros acc Hacc; simpl; [done|].
    apply IH. rewrite lookup_insert. by case_decide. }
  apply Hgen. by rewrite lookup_insert_eq.
Qed.

Lemma root_is_tree leaf node empty_leaf l :
  Forall (λ e, 0 ≤ e.1 < 2 ^ 256) l →
  sparse_merkle_root leaf node empty_leaf l = tree leaf node empty_leaf (entries l) 256 0.
Proof.
  intros Hl. unfold sparse_merkle_root. destruct l as [|e l].
  { symmetry. apply tree_empty. intros (k & [h Hk] & _). unfold entries in Hk. simpl in Hk. by rewrite lookup_empty in Hk. }
  set (es := e :: l) in *.
  assert (Hr : represents leaf node empty_leaf (entries es) 256
    (levels node empty_leaf 256 0 (leaf_nodes leaf es))).
  { rewrite leaf_nodes_map. apply (represents_levels leaf node empty_leaf (entries es) 256 0).
    apply represents_leaves. }
  assert (Hocc : occupied (entries es) 256 0).
  { destruct (entries_nonempty e l) as [k Hk]. exists k. split; [done|].
    apply small_keys_top. by apply (entries_keys es). }
  destruct (Hr 0) as [Htop _]. specialize (Htop Hocc).
  assert (Honly : ∀ p h, levels node empty_leaf 256 0 (leaf_nodes leaf es) !! p = Some h → p = 0).
  { intros p h Hp. destruct (Hr p) as [_ Hn].
    destruct (occupied_dec (entries es) 256 p) as [(k & Hk & <-)|Hno]; [|by rewrite Hn in Hp].
    apply small_keys_top. by apply (entries_keys es). }
  destruct (map_to_list _) as [|[q h] rest] eqn:Hm.
  - apply elem_of_map_to_list in Htop. rewrite Hm in Htop. by apply not_elem_of_nil in Htop.
  - assert (Hq : levels node empty_leaf 256 0 (leaf_nodes leaf es) !! q = Some h).
    { apply elem_of_map_to_list. rewrite Hm. left. }
    pose proof (Honly _ _ Hq). subst q. congruence.
Qed.

(** ** The root commits to the entries *)

Section Binding.
Context (hash_data : list Z → Hash).

(** The tree over the hashes of the code. *)
Definition smt_tree : gmap Address Hash → nat → Z → Hash :=
  tree (smt_hash_leaf hash_data) (smt_hash_node hash_data) (hash_data SMT_EMPTY_LEAF_DOMAIN).

(** The byte strings hashed by the tree over [m]: the empty leaf, the leaf of an entry and
    the inner nodes, of which the one at height [l + 1] and position [p] covers the keys from
    [p * 2 ^ (l + 1)]. *)
Inductive hashed (m : gmap Address Hash) : list Z → Prop :=
  | hashed_empty : hashed m SMT_EMPTY_LEAF_DOMAIN
  | hashed_leaf k h : m !! k = Some h → hashed m (SMT_LEAF_DOMAIN ++ hash_bytes k ++ hash_bytes h)
  | hashed_node l p :
      (l < 256)%nat → 0 ≤ p → (p + 1) * 2 ^ Z.of_nat (S l) ≤ 2 ^ 256 →
      hashed m (SMT_NODE_DOMAIN ++ hash_bytes (smt_tree m l (2 * p)) ++ hash_bytes (smt_tree m l (2 * p + 1))).

(** Two different strings, one of each tree, with the same hash. *)
Definition collision (m m' : gmap Address Hash) : Prop :=
  ∃ x y, hashed m x ∧ hashed m' y ∧ x ≠ y ∧ hash_data x = hash_data y.

Lemma collide m m' x y : hashed m x → hashed m' y → hash_data x = hash_data y → x = y ∨ collision m m'.
Proof. intros Hx Hy He. destruct (decide (x = y)); [by left|right]. by exists x, y. Qed.

Lemma hash_bytes_inj a b : 0 ≤ a < 2 ^ 256 → 0 ≤ b < 2 ^ 256 → hash_bytes a = hash_bytes b → a = b.
Proof.
  apply (be_bytes_inj 32).
Qed.

(** Two 32-byte words after a prefix determine each other. *)
Lemma words_inj (d : list Z) a b a' b' :
  d ++ hash_bytes a ++ hash_bytes b = d ++ hash_bytes a' ++ hash_bytes b' →
  hash_bytes a = hash_bytes a' ∧ hash_bytes b = hash_bytes b'.
Proof. intros He. apply (inj (app d)) in He. apply app_inj_1 in He; [done|]. unfold hash_bytes. by rewrite !be_bytes_length. Qed.

Lemma leaf_not_empty k h : SMT_LEAF_DOMAIN ++ hash_bytes k ++ hash_bytes h ≠ SMT_EMPTY_LEAF_DOMAIN.
Proof.
  intros He. apply (f_equal length) in He. unfold hash_bytes in He. rewrite !length_app, !be_bytes_length in He.
  vm_compute in He. discriminate.
Qed.

Context (hash_range : ∀ x, 0 ≤ hash_data x < 2 ^ 256).

Lemma smt_tree_range m l p : 0 ≤ smt_tree m l p < 2 ^ 256.
Proof.
  unfold smt_tree. destruct l; simpl; [destruct (m !! p)|]; unfold smt_hash_leaf, smt_hash_node; apply hash_range.
Qed.

(** Equal subtrees have equal leaves, or a collision lies below them. *)
Lemma tree_binding m m' l p :
  (∀ k h, m !! k = Some h → 0 ≤ h < 2 ^ 256) → (∀ k h, m' !! k = Some h → 0 ≤ h < 2 ^ 256) →
  (l ≤ 256)%nat → 0 ≤ p → (p + 1) * 2 ^ Z.of_nat l ≤ 2 ^ 256 → smt_tree m l p = smt_tree m' l p →
  (∀ k, k / 2 ^ Z.of_nat l = p → m !! k = m' !! k) ∨ collision m m'.
Proof.
  intros Hm Hm'. revert p. induction l as [|l IH]; intros p Hl Hp Hmax Heq.
  - unfold smt_tree in Heq. cbn [tree] in Heq.
    assert (Hgoal : m !! p = m' !! p ∨ collision m m').
    { destruct (m !! p) as [h|] eqn:E, (m' !! p) as [h'|] eqn:E'; unfold smt_hash_leaf in Heq.
      - destruct (collide m m' _ _ (hashed_leaf m p h E) (hashed_leaf m' p h' E') Heq) as [Hx|]; [left|by right].
        apply words_inj in Hx as [_ Hx]. f_equal. eapply hash_bytes_inj; eauto.
      - right. destruct (collide m m' _ _ (hashed_leaf m p h E) (hashed_empty m') Heq) as [Hx|]; [|done]. by apply leaf_not_empty in Hx.
      - right. destruct (collide m m' _ _ (hashed_empty m) (hashed_leaf m' p h' E') Heq) as [Hx|]; [|done]. symmetry in Hx. by apply leaf_not_empty in Hx.
      - by left. }
    destruct Hgoal as [Hg|]; [left|by right]. intros k Hk. change (2 ^ Z.of_nat 0) with 1 in Hk. rewrite Z.div_1_r in Hk. by subst.
  - destruct (collide m m' _ _ (hashed_node m l p Hl Hp Hmax) (hashed_node m' l p Hl Hp Hmax) Heq) as [Hx|]; [|by right].
    apply words_inj in Hx as [Ha%hash_bytes_inj Hb%hash_bytes_inj]; try apply smt_tree_range.
    rewrite Nat2Z.inj_succ, Z.pow_succ_r in Hmax |- * by lia.
    pose proof (Z.pow_pos_nonneg 2 (Z.of_nat l)).
    destruct (IH (2 * p)) as [HL|]; [lia..|nia|done| |by right].
    destruct (IH (2 * p + 1)) as [HR|]; [lia..|nia|done| |by right].
    left. intros k Hk. rewrite Z.mul_comm, <- Z.div_div in Hk by lia.
    pose proof (Z.div_mod (k / 2 ^ Z.of_nat l) 2). pose proof (Z.mod_pos_bound (k / 2 ^ Z.of_nat l) 2).
    destruct (Z.eq_dec ((k / 2 ^ Z.of_nat l) mod 2) 0); [apply HL|apply HR]; lia.
Qed.
End Binding.

Lemma entries_values l :
  Forall (λ e, 0 ≤ e.2 < 2 ^ 256) l → ∀ k h, entries l !! k = Some h → 0 ≤ h < 2 ^ 256.
Proof.
  unfold entries. intros Hl.
  assert (Hgen : ∀ acc : gmap Address Hash, (∀ k h, acc !! k = Some h → 0 ≤ h < 2 ^ 256) →
    ∀ k h, foldl (λ m '(a, h), <[a := h]> m) acc l !! k = Some h → 0 ≤ h < 2 ^ 256).
  { induction Hl as [|[a h] l Ha Hl IH]; intros acc Hacc; simpl in *; [done|].
    apply IH. intros k h'. rewrite lookup_insert. case_decide; [by intros [= <-]|]. apply Hacc. }
  apply Hgen. intros k h Hk. by rewrite lookup_empty in Hk.
Qed.

(** ** Claims *)

(** C13. The state root.  For every list of entries with 32-byte keys, the root
    computed level by level over occupied nodes (each pair of siblings once, absent
    siblings replaced by the hash of an empty subtree) is the root of the full
    binary tree of depth 256; so it depends only on the map from addresses to
    account hashes, not on the order of the list. *)
Theorem sparse_root_correct leaf node empty_leaf l l'
    (Hl : Forall (λ e, 0 ≤ e.1 < 2 ^ 256) l) (Hl' : Forall (λ e, 0 ≤ e.1 < 2 ^ 256) l')
    (Hsame : entries l = entries l') :
  sparse_merkle_root leaf node empty_leaf l = tree leaf node empty_leaf (entries l) 256 0 ∧
  sparse_merkle_root leaf node empty_leaf l' = sparse_merkle_root leaf node empty_leaf l.
Proof. rewrite !root_is_tree by done. by rewrite Hsame. Qed.

Lemma sparse_root_correct_witness :
  let leaf := (λ a h, 7 * a + h) in let node := (λ a b, (3 * a + 5 * b) mod 1000003) in
  sparse_merkle_root leaf node 11 [(5, 50); (2 ^ 200, 60); (5, 70)] =
    tree leaf node 11 (entries [(5, 50); (2 ^ 200, 60); (5, 70)]) 256 0 ∧
  sparse_merkle_root leaf node 11 [(2 ^ 200, 60); (5, 70)] =
    sparse_merkle_root leaf node 11 [(5, 50); (2 ^ 200, 60); (5, 70)].
Proof.
  apply sparse_root_correct.
  - repeat constructor; vm_compute; discriminate.
  - repeat constructor; vm_compute; discriminate.
  - vm_compute. reflexivity.
Defined.

(** C14. The state root commits to every account.  If two lists of entries (32-byte addresses and
    account hashes) have the same root under a hash with 32-byte outputs, then they describe the
    same map from addresses to account hashes, or the strings hashed by the two trees contain a
    collision: two different ones, an empty leaf, a leaf of an entry or an inner node, with the
    same hash.  Nothing is assumed of the hash but the length of its output. *)
Theorem sparse_root_binding hash_data l l'
    (Hout : ∀ x, 0 ≤ hash_data x < 2 ^ 256)
    (Hl : Forall (λ e, 0 ≤ e.1 < 2 ^ 256) l) (Hl' : Forall (λ e, 0 ≤ e.1 < 2 ^ 256) l')
    (Hv : Forall (λ e, 0 ≤ e.2 < 2 ^ 256) l) (Hv' : Forall (λ e, 0 ≤ e.2 < 2 ^ 256) l')
    (Hroot : state_smt_root hash_data l = state_smt_root hash_data l') :
  entries l = entries l' ∨
  ∃ x y, hashed hash_data (entries l) x ∧ hashed hash_data (entries l') y ∧ x ≠ y ∧ hash_data x = hash_data y.
Proof.
  unfold state_smt_root in Hroot. rewrite !root_is_tree in Hroot by done.
  destruct (tree_binding hash_data Hout (entries l) (entries l') 256 0) as [Hsame|Hc]; [| |lia|lia|done|done| |by right].
  1, 2: by apply entries_values.
  left. apply map_eq. intros k. destruct (decide (0 ≤ k < 2 ^ 256)) as [Hk|Hk]; [by apply Hsame, small_keys_top|].
  destruct (entries l !! k) eqn:E1, (entries l' !! k) eqn:E2; try done; exfalso; apply Hk;
    [apply (entries_keys l)|apply (entries_keys l)|apply (entries_keys l')]; rewrite ?E1, ?E2; done.
Qed.

(** A hash that only looks at the length: every pair of roots is equal and the collision is found
    among the hashed strings. *)
Definition poor_hash (x : list Z) : Hash := Z.of_nat (length x) mod 2 ^ 256.

Lemma sparse_root_binding_witness :
  (entries [(5, 50); (9, 4)] = entries [(5, 70); (9, 4)] ∨
   ∃ x y, hashed poor_hash (entries [(5, 50); (9, 4)]) x ∧ hashed poor_hash (entries [(5, 70); (9, 4)]) y ∧
     x ≠ y ∧ poor_hash x = poor_hash y) ∧
  (entries [(5, 50); (9, 4); (5, 70)] = entries [(5, 70); (9, 4)] ∨
   ∃ x y, hashed poor_hash (entries [(5, 50); (9, 4); (5, 70)]) x ∧ hashed poor_hash (entries [(5, 70); (9, 4)]) y ∧
     x ≠ y ∧ poor_hash x = poor_hash y).
Proof.
  assert (Hrange : ∀ x, 0 ≤ poor_hash x < 2 ^ 256) by (intros x; apply Z.mod_pos_bound; lia).
  split; apply (sparse_root_binding poor_hash);
    first [exact Hrange | (repeat constructor; vm_compute; discriminate) | idtac].
Defined.
