(* ===== verification/State.v ===== *)
(** * The state manager

    Models [StateManager] of [src/L1/src/state/manager.rs]: account access through
    the cache, validation, the direct execution path [apply_transaction], the
    overlay path used by vertex execution (sequential up to eight transactions,
    grouped by sender above), speculative nonces, genesis, and the state root.

    Interfaces and arguments: the durable account store is [AccountStore] (its
    operations can fail; [AccountStoreLaws] is what the manager relies on); the
    signature check [verify], SHA3-256 [hash_data], the QVM contract manager and
    the EVM engine are arguments, the two engines with a state of their own.  The
    committee manager's validator set is part of the state because transactions
    change it.  Error texts are constructors; logging is left out. *)

From S2P Require Import Prelude Bytes Account Validators Smt Transaction.

Definition MAX_TRANSACTION_AMOUNT : Z := u64_max.
Definition MIN_TRANSACTION_AMOUNT : Z := 1.

(** ** Errors and receipts *)

Inductive ExecFailure : Type :=
  | NoContractManager | NoEvmEngine | InvalidDeployPayload | EmptyBytecode
  | DeployFailed (e : string) | CallFailed (e : string) | CallReverted (return_data : list Z)
  | EvmDeployFailed (e : string) | EvmMissingAddress | EvmCallFailed (e : string)
  | NeedVrfKey | RegistrationFailed (e : ValidatorError) | NoStakeToRemove | TransactionPanicked.

Inductive StateError : Type :=
  | AccountNotFound (e : string)
  | InsufficientBalance
  | InvalidNonce (expected got : Z)
  | InvalidSignature
  | StorageError (e : string)
  | ExecutionError (e : ExecFailure)
  | Unauthorized
  | InvalidAmount
  | ArithmeticOverflow.

Record TransactionReceipt : Type := mkReceipt {
  r_tx_hash : Hash;
  r_status : TransactionStatus StateError;
  r_cu_used : Z;
  r_vertex_hash : Hash;
  r_shard_id : Z;
  r_logs : list Log;
  r_slot : Z;
  r_from : Address;
  r_to : Address;
  r_success : bool
}.

Record StateExecution : Type := mkExecution {
  ex_state_root : Hash;
  ex_receipts : list TransactionReceipt;
  ex_accounts : list Account
}.

(** ** Contract deployment payloads ([src/L1/src/vm/contract.rs]) *)

Definition WASM_MAGIC : list Z := [0; 97; 115; 109].
Definition CONTRACT_DEPLOY_PAYLOAD_MAGIC : list Z := ascii_bytes "QDP1".

Definition decode_contract_deploy_payload (data : list Z) : option (list Z * list Z) :=
  if (4 <=? Z.of_nat (length data)) && bool_decide (take 4 data = WASM_MAGIC) then Some (data, [])
  else if (Z.of_nat (length data) <? 12) || negb (bool_decide (take 4 data = CONTRACT_DEPLOY_PAYLOAD_MAGIC))
  then None
  else
    let bytecode_len := of_le_bytes (take 4 (drop 4 data)) in
    let constructor_len := of_le_bytes (take 4 (drop 8 data)) in
    let expected_len := 12 + bytecode_len + constructor_len in
    if (bytecode_len =? 0) || negb (expected_len =? Z.of_nat (length data)) then None
    else Some (take (Z.to_nat bytecode_len) (drop 12 data),
               take (Z.to_nat constructor_len) (drop (12 + Z.to_nat bytecode_len) data)).

(** ** The durable store *)

Class AccountStore (St : Type) : Type := {
  acct_get : Address → St → Result (option Account) string;
  acct_put_batch : list Account → St → Result () string * St;
  acct_iter : St → Result (list Account) string
}.

(** [accounts] written over a map, in order. *)
Definition write_accounts (accounts : list Account) (m : gmap Address Account) : gmap Address Account :=
  foldl (λ m a, <[Account.address a := a]> m) m accounts.

(** Reads succeed and see the last successful write; a batch is written as a whole or, when it fails, not at
    all; an iteration, when it succeeds, lists the stored accounts. *)
Class AccountStoreLaws (St : Type) `{AccountStore St} : Type := {
  acct_view : St → gmap Address Account;
  acct_get_view : ∀ a s, acct_get a s = Ok (acct_view s !! a);
  acct_put_view : ∀ l s, acct_view (acct_put_batch l s).2 =
    match (acct_put_batch l s).1 with Ok _ => write_accounts l (acct_view s) | Err _ => acct_view s end;
  acct_iter_view : ∀ s l, acct_iter s = Ok l → ∀ a, a ∈ l ↔ a ∈ (map_to_list (acct_view s)).*2
}.

(** A store whose writes and iterations succeed too. *)
Definition store_reliable (St : Type) `{AccountStore St} : Prop :=
  (∀ l s, (acct_put_batch l s).1 = Ok ()) ∧ ∀ s, ∃ l, acct_iter s = Ok l.

(** ** State *)

Record StateManager (St CM EV : Type) : Type := mkState {
  storage : St;
  account_cache : gmap Address Account;
  pending_state : gmap Address Account;
  state_root : Hash;
  account_hash_index : option (gmap Address Hash);
  auth_token : Z;
  speculative_counter : Z;
  contract_manager : option CM;
  evm_engine : option EV;
  committee_set : option ValidatorSet
}.
Arguments mkState {St CM EV}. Arguments storage {St CM EV}. Arguments account_cache {St CM EV}.
Arguments pending_state {St CM EV}. Arguments state_root {St CM EV}.
Arguments account_hash_index {St CM EV}. Arguments auth_token {St CM EV}.
Arguments speculative_counter {St CM EV}. Arguments contract_manager {St CM EV}.
Arguments evm_engine {St CM EV}. Arguments committee_set {St CM EV}.

Section Manager.
Context `{AccountStore St} {CM EV : Type}.
Context (hash_data : list Z → Hash) (verify : list Z → list Z → list Z → bool).
(** The contract manager: deployment (bytecode, constructor data, deployer, nonce,
    timestamp, chain) and execution (contract, caller, input, timestamp, chain). *)
Context (deploy_contract : list Z → list Z → Address → Z → Z → Z → CM →
           Result (Address * list Log) string * CM).
Context (execute_contract : Address → Address → list Z → Z → Z → CM →
           Result (bool * list Z * list Log) string * CM).
Context (simulate_contract : Address → Address → list Z → Z → Z → CM →
           Result (bool * list Z * list Log) string).
(** The EVM: deployment (deployer, nonce, amount, code, compute units, chain) and
    call (caller, contract, amount, input, compute units, chain). *)
Context (evm_deploy : Address → Z → Z → list Z → Z → Z → EV →
           Result (option Address * option (list Z) * list Log) string * EV).
Context (evm_call : Address → Address → Z → list Z → Z → Z → EV →
           Result (bool * list Z * list Log) string * EV).
(** The wall clock in seconds, if it can be read. *)
Context (clock : option Z).

Abbreviation SM := (StateManager St CM EV).
Abbreviation OP A := (M SM StateError A).

Definition set_storage (v : St) (s : SM) : SM :=
  mkState v (account_cache s) (pending_state s) (state_root s) (account_hash_index s) (auth_token s)
    (speculative_counter s) (contract_manager s) (evm_engine s) (committee_set s).
Definition set_cache (v : gmap Address Account) (s : SM) : SM :=
  mkState (storage s) v (pending_state s) (state_root s) (account_hash_index s) (auth_token s)
    (speculative_counter s) (contract_manager s) (evm_engine s) (committee_set s).
Definition set_pending (v : gmap Address Account) (s : SM) : SM :=
  mkState (storage s) (account_cache s) v (state_root s) (account_hash_index s) (auth_token s)
    (speculative_counter s) (contract_manager s) (evm_engine s) (committee_set s).
Definition set_state_root (v : Hash) (s : SM) : SM :=
  mkState (storage s) (account_cache s) (pending_state s) v (account_hash_index s) (auth_token s)
    (speculative_counter s) (contract_manager s) (evm_engine s) (committee_set s).
Definition set_index (v : option (gmap Address Hash)) (s : SM) : SM :=
  mkState (storage s) (account_cache s) (pending_state s) (state_root s) v (auth_token s)
    (speculative_counter s) (contract_manager s) (evm_engine s) (committee_set s).
Definition set_counter (v : Z) (s : SM) : SM :=
  mkState (storage s) (account_cache s) (pending_state s) (state_root s) (account_hash_index s)
    (auth_token s) v (contract_manager s) (evm_engine s) (committee_set s).
Definition set_contract_manager (v : option CM) (s : SM) : SM :=
  mkState (storage s) (account_cache s) (pending_state s) (state_root s) (account_hash_index s)
    (auth_token s) (speculative_counter s) v (evm_engine s) (committee_set s).
Definition set_evm_engine (v : option EV) (s : SM) : SM :=
  mkState (storage s) (account_cache s) (pending_state s) (state_root s) (account_hash_index s)
    (auth_token s) (speculative_counter s) (contract_manager s) v (committee_set s).
Definition set_committee (v : option ValidatorSet) (s : SM) : SM :=
  mkState (storage s) (account_cache s) (pending_state s) (state_root s) (account_hash_index s)
    (auth_token s) (speculative_counter s) (contract_manager s) (evm_engine s) v.

Definition new (storage : St) (token : Z) : SM :=
  mkState storage ∅ ∅ 0 None token 0 None None None.

(** ** Accounts *)

Definition index_accounts (accounts : list Account) (i : gmap Address Hash) : gmap Address Hash :=
  foldl (λ i a, <[Account.address a := Account.hash hash_data a]> i) i accounts.

Definition persist_accounts (accounts : list Account) : OP () :=
  s <-? gets id;
  match acct_put_batch accounts (storage s) with
  | (Err e, st) => modify (set_storage st) ?; throw (StorageError e)
  | (Ok _, st) =>
      modify (set_storage st) ?;
      modify (λ s, set_cache (write_accounts accounts (account_cache s)) s) ?;
      modify (λ s, set_index (index_accounts accounts <$> account_hash_index s) s)
  end.

Definition verify_auth (provided : Z) : OP () :=
  t <-? gets auth_token;
  fail_if (negb (provided =? t)) Unauthorized.

Definition get_account (a : Address) : OP Account :=
  s <-? gets id;
  match account_cache s !! a with
  | Some account => returns account
  | None =>
      match acct_get a (storage s) with
      | Ok (Some account) =>
          modify (λ s, set_cache (<[a := account]> (account_cache s)) s) ?;
          returns account
      | Ok None => returns (Account.new a)
      | Err _ => throw (StorageError "Storage access failed")
      end
  end.

Definition get_balance (a : Address) : OP Z := account <-? get_account a; returns (Account.balance account).
Definition get_nonce (a : Address) : OP Z := account <-? get_account a; returns (Account.nonce account).
Definition get_stake (a : Address) : OP Z := account <-? get_account a; returns (Account.stake account).

(** ** Validation *)

Definition requires_amount (t : TransactionType) : bool :=
  match t with Transfer | Stake | Unstake | StakeTransfer => true | _ => false end.

(** The checks of both validation functions that precede the account access. *)
Definition validate_static (tx : Transaction) : Result () StateError :=
  if negb (hash_data (public_key tx) =? from tx) then Err InvalidSignature
  else if negb (verify (public_key tx) (signing_data tx) (signature tx)) then Err InvalidSignature
  else if requires_amount (tx_type tx) && (amount tx <? MIN_TRANSACTION_AMOUNT) then Err InvalidAmount
  else if MAX_TRANSACTION_AMOUNT <? amount tx then Err InvalidAmount
  else Ok ().

Definition check_nonce (tx : Transaction) (account : Account) : Result () StateError :=
  if nonce tx =? Account.nonce account then Ok ()
  else Err (InvalidNonce (Account.nonce account) (nonce tx)).

Definition validate_transaction (tx : SignedTransaction) : OP () :=
  lift (validate_static (transaction tx)) ?;
  account <-? get_account (from (transaction tx));
  lift (check_nonce (transaction tx) account).

(** ** Effects of a transaction *)

Definition success_receipt (tx : SignedTransaction) (logs : list Log) (to : Address) : TransactionReceipt :=
  mkReceipt (tx_hash tx) Finalized (max_compute_units (transaction tx)) 0 (shard_id (transaction tx))
    logs 0 (from (transaction tx)) to true.

Definition failure_receipt (tx : SignedTransaction) (e : StateError) : TransactionReceipt :=
  mkReceipt (tx_hash tx) (Failed e) (max_compute_units (transaction tx)) 0 (shard_id (transaction tx))
    [] 0 (from (transaction tx)) (to (transaction tx)) false.

Definition current_execution_timestamp (fallback : Z) : Z := default fallback clock.

(** A flag returned by an account operation, [e] when it is false. *)
Definition require {A} (r : bool * A) (e : StateError) : OP A :=
  if r.1 then returns r.2 else throw e.

(** [ValidatorRegister]: the stake moves, the validator joins the committee. *)
Definition register_effect (tx : Transaction) (sender : Account) : OP Account :=
  fail_if (Z.of_nat (length (data tx)) <? 32) (ExecutionError NeedVrfKey) ?;
  let vrf_pub := take (Nat.min (length (data tx)) 256) (data tx) in
  let comm := if 258 <=? Z.of_nat (length (data tx)) then of_le_bytes (take 2 (drop 256 (data tx)))
              else 500 in
  sender <-? require (Account.add_stake (amount tx) sender) InsufficientBalance;
  let sender := Account.set_is_validator true sender in
  c <-? gets committee_set;
  match c with
  | None => returns sender
  | Some set =>
      match Validators.new (from tx) (public_key tx) (amount tx) vrf_pub with
      | Err e => throw (ExecutionError (RegistrationFailed e))
      | Ok v =>
          match register_validator (set_commission comm v) set with
          | (Err e, _) => throw (ExecutionError (RegistrationFailed e))
          | (Ok _, set') => modify (set_committee (Some set')) ?; returns sender
          end
      end
  end.

(** [ValidatorExit]: all stake returns, the validator leaves the committee. *)
Definition exit_effect (tx : Transaction) (sender : Account) (e : StateError) : OP Account :=
  sender <-? require (Account.remove_stake (Account.stake sender) sender) e;
  let sender := Account.set_is_validator false sender in
  modify (λ s, set_committee (remove_validator (from tx) <$> committee_set s) s) ?;
  returns sender.

(** A call whose outcome must be success. *)
Definition require_success (r : Result (bool * list Z * list Log) string) (fail : string → ExecFailure)
    : OP (list Log) :=
  match r with
  | Err e => throw (ExecutionError (fail e))
  | Ok (false, return_data, _) => throw (ExecutionError (CallReverted return_data))
  | Ok (true, _, logs) => returns logs
  end.

(** ** The direct path *)

(** Value sent with a contract call. *)
Definition pay_direct (tx : Transaction) (sender recipient : Account) : OP (Account * Account) :=
  if 0 <? amount tx then
    sender <-? require (Account.sub_balance (amount tx) sender) InsufficientBalance;
    returns (sender, (Account.add_balance (amount tx) recipient).2)
  else returns (sender, recipient).

Definition apply_deploy (tx : Transaction) : OP (Account * list Log) :=
  match vm_kind tx with
  | Qvm =>
      cm <-? gets contract_manager;
      match cm with
      | None => throw (ExecutionError NoContractManager)
      | Some cm =>
          match decode_contract_deploy_payload (data tx) with
          | None => throw (ExecutionError InvalidDeployPayload)
          | Some (bytecode, constructor_data) =>
              fail_if (bool_decide (bytecode = [])) (ExecutionError EmptyBytecode) ?;
              let '(r, cm') := deploy_contract bytecode constructor_data (from tx) (nonce tx)
                                 (timestamp tx) (chain_id tx) cm in
              modify (set_contract_manager (Some cm')) ?;
              match r with
              | Err e => throw (ExecutionError (DeployFailed e))
              | Ok (contract_address, logs) =>
                  recipient <-? get_account contract_address;
                  returns (Account.set_code_hash (Some (hash_data bytecode)) recipient, logs)
              end
          end
      end
  | Evm =>
      ev <-? gets evm_engine;
      match ev with
      | None => throw (ExecutionError NoEvmEngine)
      | Some ev =>
          let '(r, ev') := evm_deploy (from tx) (nonce tx) (amount tx) (data tx)
                             (max_compute_units tx) (chain_id tx) ev in
          modify (set_evm_engine (Some ev')) ?;
          match r with
          | Err e => throw (ExecutionError (EvmDeployFailed e))
          | Ok (None, _, _) => throw (ExecutionError EvmMissingAddress)
          | Ok (Some contract_address, code, logs) =>
              recipient <-? get_account contract_address;
              returns (match code with
                       | Some code => Account.set_code_hash (Some (hash_data code)) recipient
                       | None => recipient
                       end, logs)
          end
      end
  end.

Definition apply_call (tx : Transaction) (sender recipient : Account)
    : OP (Account * Account * list Log) :=
  match vm_kind tx with
  | Qvm =>
      cm <-? gets contract_manager;
      match cm with
      | None => throw (ExecutionError NoContractManager)
      | Some cm =>
          sr <-? pay_direct tx sender recipient;
          let ts := current_execution_timestamp (timestamp tx) in
          let '(r, cm') := execute_contract (to tx) (from tx) (data tx) ts (chain_id tx) cm in
          modify (set_contract_manager (Some cm')) ?;
          logs <-? require_success r CallFailed;
          returns (sr, logs)
      end
  | Evm =>
      ev <-? gets evm_engine;
      match ev with
      | None => throw (ExecutionError NoEvmEngine)
      | Some ev =>
          sr <-? pay_direct tx sender recipient;
          let '(r, ev') := evm_call (from tx) (to tx) (amount tx) (data tx) (max_compute_units tx)
                             (chain_id tx) ev in
          modify (set_evm_engine (Some ev')) ?;
          logs <-? require_success r EvmCallFailed;
          returns (sr, logs)
      end
  end.

(** The [match] of [apply_transaction]: the new sender and recipient. *)
Definition apply_effect (tx : Transaction) (sender recipient : Account)
    : OP (Account * Account * list Log) :=
  match tx_type tx with
  | Transfer =>
      sender <-? require (Account.sub_balance (amount tx) sender) InsufficientBalance;
      returns (sender, (Account.add_balance (amount tx) recipient).2, [])
  | Stake =>
      sender <-? require (Account.add_stake (amount tx) sender) InsufficientBalance;
      returns (sender, recipient, [])
  | Unstake =>
      sender <-? require (Account.remove_stake (amount tx) sender) InsufficientBalance;
      returns (sender, recipient, [])
  | StakeTransfer =>
      sender <-? require (Account.subtract_stake (amount tx) sender) InsufficientBalance;
      returns (sender, Account.add_stake_direct (amount tx) recipient, [])
  | ContractDeploy =>
      rl <-? apply_deploy tx;
      returns (sender, rl.1, rl.2)
  | ContractCall => apply_call tx sender recipient
  | ValidatorRegister =>
      sender <-? register_effect tx sender;
      returns (sender, recipient, [])
  | ValidatorExit =>
      sender <-? exit_effect tx sender InsufficientBalance;
      returns (sender, recipient, [])
  end.

Definition advance_nonce (a : Account) : OP Account :=
  match Account.increment_nonce a with
  | Ok a' => returns a'
  | Err e => throw (StorageError e)
  end.

Definition apply_transaction (stx : SignedTransaction) : OP TransactionReceipt :=
  let tx := transaction stx in
  validate_transaction stx ?;
  sender <-? get_account (from tx);
  recipient <-? get_account (to tx);
  res <-? apply_effect tx sender recipient;
  let '(sender, recipient, logs) := res in
  sender <-? advance_nonce sender;
  let receipt_to := Account.address recipient in
  persist_accounts [sender; recipient] ?;
  returns (success_receipt stx logs receipt_to).

(** ** The overlay path *)

Definition overlay_account (overlay : gmap Address Account) (a : Address) : OP Account :=
  match overlay !! a with
  | Some account => returns account
  | None => get_account a
  end.

Definition validate_transaction_against_overlay (stx : SignedTransaction)
    (overlay : gmap Address Account) : OP () :=
  lift (validate_static (transaction stx)) ?;
  account <-? overlay_account overlay (from (transaction stx));
  lift (check_nonce (transaction stx) account).

(** A debit and a credit that handle a transfer to oneself. *)
Definition pay_overlay (v : Z) (sender recipient : Account) : OP (Account * Account) :=
  sender <-? require (Account.sub_balance v sender) InsufficientBalance;
  returns (if Account.address sender =? Account.address recipient
           then ((Account.add_balance v sender).2, recipient)
           else (sender, (Account.add_balance v recipient).2)).

Definition deploy_address (deployer : Address) (bytecode_hash : Hash) (nonce : Z) : Address :=
  hash_data (hash_bytes deployer ++ hash_bytes bytecode_hash ++ le_bytes 8 nonce).

Definition overlay_deploy (tx : Transaction) (overlay : gmap Address Account) (persist_contracts : bool)
    : OP (Account * list Log) :=
  match decode_contract_deploy_payload (data tx) with
  | None => throw (ExecutionError InvalidDeployPayload)
  | Some (bytecode, constructor_data) =>
      fail_if (bool_decide (bytecode = [])) (ExecutionError EmptyBytecode) ?;
      let bytecode_hash := hash_data bytecode in
      let contract_address := deploy_address (from tx) bytecode_hash (nonce tx) in
      recipient <-? overlay_account overlay contract_address;
      let recipient := Account.set_code_hash (Some bytecode_hash) recipient in
      if persist_contracts then
        cm <-? gets contract_manager;
        match cm with
        | None => throw (ExecutionError NoContractManager)
        | Some cm =>
            let '(r, cm') := deploy_contract bytecode constructor_data (from tx) (nonce tx)
                               (timestamp tx) (chain_id tx) cm in
            modify (set_contract_manager (Some cm')) ?;
            match r with
            | Err e => throw (ExecutionError (DeployFailed e))
            | Ok (deployed, logs) =>
                recipient <-? overlay_account overlay deployed;
                returns (Account.set_code_hash (Some bytecode_hash) recipient, logs)
            end
        end
      else returns (recipient, [])
  end.

Definition overlay_call (tx : Transaction) (sender recipient : Account) (persist_contracts : bool)
    : OP (Account * Account * list Log) :=
  sr <-? (if 0 <? amount tx then pay_overlay (amount tx) sender recipient
          else returns (sender, recipient));
  cm <-? gets contract_manager;
  match cm with
  | None => throw (ExecutionError NoContractManager)
  | Some cm =>
      let ts := current_execution_timestamp (timestamp tx) in
      (if persist_contracts then
         let '(r, cm') := execute_contract (to tx) (from tx) (data tx) ts (chain_id tx) cm in
         modify (set_contract_manager (Some cm')) ?;
         logs <-? require_success r CallFailed;
         returns (sr, logs)
       else
         logs <-? require_success (simulate_contract (to tx) (from tx) (data tx) ts (chain_id tx) cm)
                    CallFailed;
         returns (sr, logs))
  end.

Definition overlay_effect (tx : Transaction) (overlay : gmap Address Account)
    (persist_contracts : bool) (sender recipient : Account) : OP (Account * Account * list Log) :=
  match tx_type tx with
  | Transfer =>
      sr <-? pay_overlay (amount tx) sender recipient;
      returns (sr, [])
  | Stake =>
      sender <-? require (Account.add_stake (amount tx) sender) InsufficientBalance;
      returns (sender, recipient, [])
  | Unstake =>
      sender <-? require (Account.remove_stake (amount tx) sender) InsufficientBalance;
      returns (sender, recipient, [])
  | StakeTransfer =>
      sender <-? require (Account.subtract_stake (amount tx) sender) InsufficientBalance;
      returns (sender, Account.add_stake_direct (amount tx) recipient, [])
  | ContractDeploy =>
      rl <-? overlay_deploy tx overlay persist_contracts;
      returns (sender, rl.1, rl.2)
  | ContractCall => overlay_call tx sender recipient persist_contracts
  | ValidatorRegister =>
      sender <-? register_effect tx sender;
      returns (sender, recipient, [])
  | ValidatorExit =>
      sender <-? exit_effect tx sender (ExecutionError NoStakeToRemove);
      returns (sender, recipient, [])
  end.

(** The overlay is written only at the end: an error leaves it as it was. *)
Definition execute_transaction_overlay (stx : SignedTransaction) (overlay : gmap Address Account)
    (persist_contracts : bool) : OP (TransactionReceipt * gmap Address Account) :=
  let tx := transaction stx in
  validate_transaction_against_overlay stx overlay ?;
  sender <-? overlay_account overlay (from tx);
  recipient <-? overlay_account overlay (to tx);
  res <-? overlay_effect tx overlay persist_contracts sender recipient;
  let '(sender, recipient, logs) := res in
  sender <-? advance_nonce sender;
  let receipt_to := Account.address recipient in
  let overlay := <[Account.address sender := sender]> overlay in
  let overlay := if from tx =? receipt_to then overlay else <[receipt_to := recipient]> overlay in
  returns (success_receipt stx logs receipt_to, overlay).

(** The loop of the sequential path: a failed transaction yields a receipt. *)
Fixpoint overlay_loop (txs : list SignedTransaction) (overlay : gmap Address Account)
    (persist_contracts : bool) : SM → list TransactionReceipt * gmap Address Account * SM :=
  λ s, match txs with
  | [] => ([], overlay, s)
  | tx :: txs' =>
      match execute_transaction_overlay tx overlay persist_contracts s with
      | (Ok (receipt, overlay'), s') =>
          let '(rs, o, s'') := overlay_loop txs' overlay' persist_contracts s' in (receipt :: rs, o, s'')
      | (Err e, s') =>
          let '(rs, o, s'') := overlay_loop txs' overlay persist_contracts s' in
          (failure_receipt tx e :: rs, o, s'')
      end
  end.

(** ** State roots *)

Definition load_account_hash_index : OP (gmap Address Hash) :=
  s <-? gets id;
  match account_hash_index s with
  | Some index => returns index
  | None =>
      match acct_iter (storage s) with
      | Err e => throw (StorageError e)
      | Ok accounts =>
          let index := index_accounts accounts ∅ in
          modify (set_index (Some index)) ?; returns index
      end
  end.

Definition compute_state_root_with_overlay (overlay : gmap Address Account) : OP Hash :=
  index <-? load_account_hash_index;
  returns (state_smt_root hash_data
    (map_to_list (index_accounts (map_to_list overlay).*2 index))).

Definition compute_full_state_root : OP Hash :=
  s <-? gets id;
  match acct_iter (storage s) with
  | Err e => throw (StorageError e)
  | Ok accounts =>
      let index := index_accounts accounts ∅ in
      modify (set_index (Some index)) ?;
      returns (state_smt_root hash_data (map_to_list index))
  end.

(** [accounts.sort_by(|a, b| a.address.cmp(&b.address))] *)
Fixpoint insert_by_address (a : Account) (l : list Account) : list Account :=
  match l with
  | [] => [a]
  | b :: l' => if Account.address a <=? Account.address b then a :: b :: l' else b :: insert_by_address a l'
  end.
Definition sort_by_address (l : list Account) : list Account := foldr insert_by_address [] l.

Definition execute_transactions_overlay_sequential (txs : list SignedTransaction)
    (persist_contracts : bool) : OP StateExecution :=
  λ s, let '(receipts, overlay, s') := overlay_loop txs ∅ persist_contracts s in
       (root <-? compute_state_root_with_overlay overlay;
        returns (mkExecution root receipts (sort_by_address (map_to_list overlay).*2))) s'.

(** ** The grouped path

    Transactions are grouped by sender; the groups run on overlays of their own
    which are then merged.  [senders] is the order in which the hash map yields
    the groups. *)

(** Failed and successful outcomes of a group with their positions. *)
Fixpoint group_loop (txs : list (nat * SignedTransaction)) (overlay : gmap Address Account)
    (persist_contracts : bool)
    : SM → list (nat * TransactionReceipt) * gmap Address Account * SM :=
  λ s, match txs with
  | [] => ([], overlay, s)
  | (i, tx) :: txs' =>
      match execute_transaction_overlay tx overlay persist_contracts s with
      | (Ok (receipt, overlay'), s') =>
          let '(rs, o, s'') := group_loop txs' overlay' persist_contracts s' in ((i, receipt) :: rs, o, s'')
      | (Err e, s') =>
          let '(rs, o, s'') := group_loop txs' overlay persist_contracts s' in
          ((i, failure_receipt tx e) :: rs, o, s'')
      end
  end.

Definition group_of (txs : list SignedTransaction) (sender : Address) : list (nat * SignedTransaction) :=
  filter (λ p, from (transaction p.2) = sender) (zip (seq 0 (length txs)) txs).

Fixpoint run_groups (txs : list SignedTransaction) (senders : list Address) (persist_contracts : bool)
    : SM → list (nat * TransactionReceipt) * list (gmap Address Account) * SM :=
  λ s, match senders with
  | [] => ([], [], s)
  | a :: senders' =>
      let '(rs, o, s') := group_loop (group_of txs a) ∅ persist_contracts s in
      let '(rs', os, s'') := run_groups txs senders' persist_contracts s' in
      (rs ++ rs', o :: os, s'')
  end.

(** The merge of an account two groups changed, relative to the base account. *)
Definition merge_account (addr : Address) (base account existing : Account) : Account :=
  mkAccount addr
    (wrapping_sub u128_max (wrapping_add u128_max (Account.balance account) (Account.balance existing))
       (Account.balance base))
    (Z.max (Account.nonce account) (Account.nonce existing))
    (match Account.code_hash account with Some h => Some h | None => Account.code_hash existing end)
    (Account.storage_root account)
    (wrapping_sub u128_max (wrapping_add u128_max (Account.stake account) (Account.stake existing))
       (Account.stake base))
    (Account.is_validator account || Account.is_validator existing).

(** [self.get_account(&addr).unwrap_or_else(|_| Account::new(addr))] *)
Definition base_account (a : Address) : SM → Account * SM :=
  λ s, match get_account a s with
       | (Ok acc, s') => (acc, s')
       | (Err _, s') => (Account.new a, s')
       end.

Definition merge_one (kv : Address * Account) (st : gmap Address Account * SM)
    : gmap Address Account * SM :=
  let '(overlay, s) := st in
  match overlay !! kv.1 with
  | Some existing =>
      let '(base, s') := base_account kv.1 s in
      (<[kv.1 := merge_account kv.1 base kv.2 existing]> overlay, s')
  | None => (<[kv.1 := kv.2]> overlay, s)
  end.

Definition merge_overlays (os : list (gmap Address Account)) (s : SM) : gmap Address Account * SM :=
  foldl (λ st o, foldl (λ st kv, merge_one kv st) st (map_to_list o)) (∅, s) os.

(** [indexed_receipts.sort_by_key] on distinct positions. *)
Definition sort_receipts (n : nat) (rs : list (nat * TransactionReceipt)) : list TransactionReceipt :=
  omap (λ i, match list_find (λ p, p.1 = i) rs with Some (_, p) => Some p.2 | None => None end) (seq 0 n).

Definition execute_transactions_overlay (txs : list SignedTransaction) (senders : list Address)
    (persist_contracts : bool) : OP StateExecution :=
  if (length txs <=? 8)%nat then execute_transactions_overlay_sequential txs persist_contracts
  else λ s,
    let '(rs, os, s1) := run_groups txs senders persist_contracts s in
    let '(overlay, s2) := merge_overlays os s1 in
    (root <-? compute_state_root_with_overlay overlay;
     returns (mkExecution root (sort_receipts (length txs) rs)
                (sort_by_address (map_to_list overlay).*2))) s2.

(** ** Execution entry points *)

Definition simulate_transactions (txs : list SignedTransaction) (senders : list Address) : OP StateExecution :=
  execute_transactions_overlay txs senders false.

Definition prepare_transactions (txs : list SignedTransaction) (senders : list Address) : OP StateExecution :=
  execute_transactions_overlay txs senders true.

Definition commit_execution (e : StateExecution) : OP () :=
  persist_accounts (ex_accounts e) ?;
  modify (set_state_root (ex_state_root e)).

Definition apply_transactions_atomically (txs : list SignedTransaction) (senders : list Address)
    : OP StateExecution :=
  e <-? prepare_transactions txs senders;
  commit_execution e ?;
  returns e.

Definition apply_transactions_batch (txs : list SignedTransaction)
    : SM → list (Result TransactionReceipt StateError) * SM :=
  λ s, foldl (λ '(rs, s) tx, let '(r, s') := apply_transaction tx s in (rs ++ [r], s')) ([], s) txs.

(** ** Speculative nonces, genesis and privileged writes *)

Definition speculative_apply (stx : SignedTransaction) : OP Account :=
  let tx := transaction stx in
  modify (λ s, set_counter (wrapping_add u64_max (speculative_counter s) 1) s) ?;
  account <-? (λ s, match pending_state s !! from tx with
                    | Some a => (Ok a, s)
                    | None =>
                        let '(a, s') := base_account (from tx) s in
                        (Ok a, set_pending (<[from tx := a]> (pending_state s')) s')
                    end);
  lift (check_nonce tx account) ?;
  account <-? advance_nonce account;
  modify (λ s, set_pending (<[from tx := account]> (pending_state s)) s) ?;
  returns account.

Definition refresh_root : OP Hash :=
  root <-? compute_full_state_root;
  modify (set_state_root root) ?;
  returns root.

Definition commit_pending (token : Z) : OP Hash :=
  verify_auth token ?;
  pending <-? gets pending_state;
  persist_accounts (map_to_list pending).*2 ?;
  modify (set_pending ∅) ?;
  refresh_root.

Definition rollback_pending (token : Z) : OP () :=
  verify_auth token ?;
  modify (set_pending ∅).

Definition restore_account (a : Address) (account : Account) : OP () :=
  persist_accounts [account] ?;
  modify (λ s, set_pending (delete a (pending_state s)) s).

Definition set_balance (a : Address) (balance token : Z) : OP () :=
  verify_auth token ?;
  account <-? get_account a;
  persist_accounts [Account.set_balance balance account].

(** The supply of the genesis balances, [None] when it overflows a [u128]. *)
Fixpoint genesis_supply (l : list (Address * Z)) (acc : Z) : option Z :=
  match l with
  | [] => Some acc
  | (_, b) :: l' => acc' ← checked_add u128_max acc b; genesis_supply l' acc'
  end.

Definition apply_genesis (initial_balances : list (Address * Z)) (token : Z) : OP () :=
  verify_auth token ?;
  root <-? gets state_root;
  if negb (root =? 0) then returns ()
  else
    fail_if (bool_decide (genesis_supply initial_balances 0 = None)) ArithmeticOverflow ?;
    persist_accounts (map (λ '(a, b), Account.set_balance b (Account.new a)) initial_balances) ?;
    refresh_root ?;
    returns ().

Definition apply_state_batch (accounts : list Account) (token : Z) : OP () :=
  verify_auth token ?;
  persist_accounts accounts ?;
  refresh_root ?;
  returns ().
End Manager.
