(* ===== verification/StateLedger.v ===== *)
(** * The state manager: one transaction

    The ledger seen through an overlay, the invariants of cache and store, and
    what the execution of a single transaction and of a sequence of transactions
    does to the ledger.  The operations are those of [State.v]. *)

From S2P Require Import Prelude Bytes Account Validators Smt Transaction State.

(** ** Specification vocabulary *)

(** The account a map gives for an address; absent accounts are empty. *)
Definition acc_of (m : gmap Address Account) (a : Address) : Account := default (Account.new a) (m !! a).

(** Everything owned, staked or not. *)
Definition total (m : gmap Address Account) : Z := map_sum (λ _ a, worth a) m.

Record ledger_ok (m : gmap Address Account) : Prop := {
  lok_address : ∀ a x, m !! a = Some x → Account.address x = a;
  lok_balance : ∀ a x, m !! a = Some x → 0 ≤ Account.balance x;
  lok_stake : ∀ a x, m !! a = Some x → 0 ≤ Account.stake x;
  lok_total : total m ≤ u128_max
}.

(** A stake transfer of an account to itself. *)
Definition self_stake_transfer (tx : Transaction) : bool :=
  bool_decide (tx_type tx = StakeTransfer) && (from tx =? to tx).

(** ** Ledgers *)

Lemma acc_of_insert m a x b : acc_of (<[a := x]> m) b = if decide (a = b) then x else acc_of m b.
Proof. unfold acc_of. rewrite lookup_insert. by case_decide. Qed.

Lemma acc_of_address m a : ledger_ok m → Account.address (acc_of m a) = a.
Proof.
  intros Hm. unfold acc_of. destruct (m !! a) eqn:E; simpl; [|done]. by eapply lok_address.
Qed.

Lemma acc_of_nonneg m a :
  ledger_ok m → 0 ≤ Account.balance (acc_of m a) ∧ 0 ≤ Account.stake (acc_of m a).
Proof.
  intros Hm. unfold acc_of. destruct (m !! a) eqn:E; simpl; [|done].
  split; [by eapply lok_balance|by eapply lok_stake].
Qed.

Lemma worth_nonneg m : ledger_ok m → ∀ a x, m !! a = Some x → 0 ≤ worth x.
Proof.
  intros Hm a x Hx. unfold worth.
  pose proof (lok_balance _ Hm a x Hx). pose proof (lok_stake _ Hm a x Hx). lia.
Qed.

Lemma total_insert m a x : total (<[a := x]> m) = total m - worth (acc_of m a) + worth x.
Proof.
  unfold total, acc_of. rewrite map_sum_insert. by destruct (m !! a).
Qed.

Lemma worth_le_total m a : ledger_ok m → worth (acc_of m a) ≤ total m.
Proof.
  intros Hm. unfold acc_of. destruct (m !! a) as [x|] eqn:E; simpl.
  - apply (map_sum_lookup_le (λ _ a, worth a)) with a; [by apply worth_nonneg|done].
  - by apply map_sum_nonneg, worth_nonneg.
Qed.

Lemma two_worths_le_total m a b :
  ledger_ok m → a ≠ b → worth (acc_of m a) + worth (acc_of m b) ≤ total m.
Proof.
  intros Hm Hne. pose proof (worth_le_total m a Hm) as Ha. pose proof (worth_le_total m b Hm) as Hb.
  unfold acc_of in *. destruct (m !! a) as [x|] eqn:Ea; simpl in *; [|unfold worth at 1; simpl; lia].
  destruct (m !! b) as [y|] eqn:Eb; simpl in *; [|unfold worth at 2; simpl; lia].
  by apply (map_sum_two_le (λ _ a, worth a)) with a b; [apply worth_nonneg|..].
Qed.

(** Replacing one or two accounts at their addresses. *)
Lemma ledger_ok_insert m a x :
  ledger_ok m → Account.address x = a → 0 ≤ Account.balance x → 0 ≤ Account.stake x →
  total (<[a := x]> m) ≤ u128_max → ledger_ok (<[a := x]> m).
Proof.
  intros [H1 H2 H3 H4] Ha Hb Hs Ht.
  split; try done; intros c y; rewrite lookup_insert; case_decide; naive_solver.
Qed.

(** ** How ledgers evolve *)

(** From one ledger to a later one: what is owned does not grow, nonces do not
    decrease, and accounts outside [P] only gain. *)
Record advanced (P : Address → Prop) (m m' : gmap Address Account) : Prop := {
  adv_ok : ledger_ok m';
  adv_total : total m' ≤ total m;
  adv_nonce : ∀ a, Account.nonce (acc_of m a) ≤ Account.nonce (acc_of m' a);
  adv_gain : ∀ a, ¬ P a →
    Account.balance (acc_of m a) ≤ Account.balance (acc_of m' a) ∧
    Account.stake (acc_of m a) ≤ Account.stake (acc_of m' a) ∧
    Account.nonce (acc_of m' a) = Account.nonce (acc_of m a)
}.

Lemma advanced_refl P m : ledger_ok m → advanced P m m.
Proof. by split. Qed.

Lemma advanced_weaken (P Q : Address → Prop) m m' :
  advanced P m m' → (∀ a, P a → Q a) → advanced Q m m'.
Proof. intros [? ? ? Hg] HPQ. split; try done. intros a Ha. apply Hg. auto. Qed.

Lemma advanced_trans (P Q : Address → Prop) m1 m2 m3 :
  advanced Q m1 m2 → advanced P m2 m3 → (∀ a, P a → Q a) → advanced Q m1 m3.
Proof.
  intros [_ Ht1 Hn1 Hg1] [Hok Ht2 Hn2 Hg2] HPQ. split; [done|lia| |].
  - intros a. specialize (Hn1 a). specialize (Hn2 a). lia.
  - intros a Ha. destruct (Hg1 a Ha) as (? & ? & ?). destruct (Hg2 a) as (? & ? & ?); [auto|].
    split_and!; [lia..|congruence].
Qed.

(** What a successful transaction destroys: stake that an account transfers to itself is
    taken from it and never arrives. *)
Definition burned (tx : Transaction) : Z := if self_stake_transfer tx then amount tx else 0.

(** The amount of a transaction is a [u128]. *)
Definition tx_fine (stx : SignedTransaction) : Prop := fits u128_max (amount (transaction stx)).

(** ** The new sender and recipient of a transaction *)

Record effect_good (tx : Transaction) (m : gmap Address Account) (sd rc : Account) : Prop := {
  good_sender : Account.address sd = from tx ∧ Account.nonce sd = Account.nonce (acc_of m (from tx));
  good_recipient : Account.nonce rc = Account.nonce (acc_of m (Account.address rc));
  good_sender_range : 0 ≤ Account.balance sd ∧ 0 ≤ Account.stake sd;
  good_recipient_range : 0 ≤ Account.balance rc ∧ 0 ≤ Account.stake rc;
  good_burn : self_stake_transfer tx = true → Account.address rc = from tx;
  good_self : Account.address rc = from tx → worth sd = worth (acc_of m (from tx)) - burned tx;
  good_other : Account.address rc ≠ from tx →
    worth sd + worth rc = worth (acc_of m (from tx)) + worth (acc_of m (Account.address rc));
  good_gain : Account.address rc ≠ from tx →
    Account.balance (acc_of m (Account.address rc)) ≤ Account.balance rc ∧
    Account.stake (acc_of m (Account.address rc)) ≤ Account.stake rc
}.

(** The sender changes on its own account and the recipient is untouched. *)
Lemma good_own tx m sd r :
  ledger_ok m → self_stake_transfer tx = false → Account.address sd = from tx → Account.nonce sd = Account.nonce (acc_of m (from tx)) →
  0 ≤ Account.balance sd → 0 ≤ Account.stake sd → worth sd = worth (acc_of m (from tx)) →
  effect_good tx m sd (acc_of m r).
Proof.
  intros Hm Hns Ha Hn Hb Hs Hw. pose proof (acc_of_nonneg m r Hm). unfold burned.
  split; unfold burned; rewrite ?Hns; try done; rewrite ?acc_of_address by done; lia || done.
Qed.

(** [v] moves from the sender's balance to the recipient's. *)
Lemma good_payment tx m v sd rc :
  ledger_ok m → self_stake_transfer tx = false → 0 ≤ v ≤ Account.balance (acc_of m (from tx)) →
  sd = Account.set_balance (Account.balance (acc_of m (from tx)) - v) (acc_of m (from tx)) →
  rc = acc_of m (to tx) →
  (from tx = to tx → effect_good tx m (Account.add_balance v sd).2 rc) ∧
  (from tx ≠ to tx → effect_good tx m sd (Account.add_balance v rc).2).
Proof.
  intros Hm Hns Hv -> ->. pose proof (acc_of_nonneg m (from tx) Hm) as [Hb Hs].
  pose proof (acc_of_nonneg m (to tx) Hm) as [Hb' Hs']. pose proof (lok_total _ Hm).
  pose proof (worth_le_total m (from tx) Hm) as Hw. unfold worth in Hw. split; intros Hft.
  - rewrite add_balance_spec by (simpl; lia). simpl. apply good_own; simpl; try done;
      [by apply acc_of_address|lia|unfold worth; simpl; lia].
  - pose proof (two_worths_le_total m _ _ Hm Hft) as Hw2. unfold worth in Hw2.
    rewrite add_balance_spec by lia. simpl.
    split; simpl; unfold burned; rewrite ?acc_of_address, ?Hns by done; try done; try (split; done || lia); unfold worth; simpl; try lia.
Qed.

(** ** Coherence of cache and store *)

Section Coherence.
Context `{AccountStoreLaws St} {CM EV : Type}.
Implicit Types (s : StateManager St CM EV) (o : gmap Address Account).

Definition stored s : gmap Address Account := acct_view (storage s).

(** Every cached account is the stored one. *)
Definition coherent s : Prop := ∀ a x, account_cache s !! a = Some x → stored s !! a = Some x.

(** What transactions see: the overlay over the store. *)
Definition ledger o s : gmap Address Account := o ∪ stored s.

(** Store and hash index are the same and the cache is still coherent. *)
Definition kept s s' : Prop :=
  (storage s' = storage s ∧ account_hash_index s' = account_hash_index s) ∧ (coherent s → coherent s').

Lemma kept_refl s : kept s s.
Proof. done. Qed.

Lemma kept_trans s1 s2 s3 : kept s1 s2 → kept s2 s3 → kept s1 s3.
Proof. intros [[] C1] [[] C2]. split; [split; congruence|auto]. Qed.

Lemma kept_stored s s' : kept s s' → stored s' = stored s.
Proof. intros [[E _] _]. unfold stored. by rewrite E. Qed.

Lemma kept_same s s' :
  storage s' = storage s → account_cache s' = account_cache s →
  account_hash_index s' = account_hash_index s → kept s s'.
Proof. intros E1 E2 E3. split; [done|]. unfold coherent, stored. by rewrite E1, E2. Qed.

Lemma get_account_spec a s :
  coherent s → ∃ s', get_account a s = (Ok (acc_of (stored s) a), s') ∧ kept s s' ∧
    pending_state s' = pending_state s ∧ state_root s' = state_root s ∧
    contract_manager s' = contract_manager s ∧ committee_set s' = committee_set s ∧
    account_hash_index s' = account_hash_index s ∧ evm_engine s' = evm_engine s.
Proof.
  intros Hc. unfold get_account. rewrite gets_bind. unfold id, acc_of, stored.
  destruct (account_cache s !! a) as [x|] eqn:Hx.
  - exists s. pose proof (Hc a x Hx) as Hsx. unfold stored in Hsx. by rewrite Hsx.
  - rewrite acct_get_view. destruct (acct_view (storage s) !! a) as [x|] eqn:Hs; [|by exists s].
    eexists. split; [done|]. split; [|done]. split; [done|]. intros _ b y. simpl. rewrite lookup_insert.
    case_decide; [intros [= <-]; by subst|apply Hc].
Qed.

Lemma overlay_account_spec o a s :
  coherent s → ∃ s', overlay_account o a s = (Ok (acc_of (ledger o s) a), s') ∧ kept s s' ∧
    contract_manager s' = contract_manager s ∧ committee_set s' = committee_set s.
Proof.
  intros Hc. unfold overlay_account, ledger. destruct (o !! a) as [x|] eqn:Ho.
  - exists s. unfold acc_of. rewrite (lookup_union_Some_l _ _ _ _ Ho). done.
  - destruct (get_account_spec a s Hc) as (s' & -> & Hk & _ & _ & Hcm & Hcs & _).
    exists s'. unfold acc_of. rewrite lookup_union_r by done. done.
Qed.

(** Writing accounts: all of them, or a storage error and nothing. *)
Lemma persist_cases (hash_data : list Z → Hash) l s :
  coherent s →
  let '(r, s') := persist_accounts hash_data l s in
  coherent s' ∧ committee_set s' = committee_set s ∧ contract_manager s' = contract_manager s ∧ state_root s' = state_root s ∧
  match r with
  | Ok _ => stored s' = write_accounts l (stored s) ∧
      account_hash_index s' = index_accounts hash_data l <$> account_hash_index s
  | Err e => (∃ m, e = StorageError m) ∧ stored s' = stored s ∧ account_hash_index s' = account_hash_index s
  end.
Proof.
  intros Hc. unfold persist_accounts. rewrite gets_bind. unfold id. pose proof (acct_put_view l (storage s)) as Hv.
  destruct (acct_put_batch l (storage s)) as [[[]|e] st]; simpl in *; unfold coherent, stored in *; simpl; rewrite Hv.
  - split_and!; try done. clear Hv.
    generalize (account_cache s) (acct_view (storage s)) Hc. clear Hc s st. unfold write_accounts.
    induction l as [|y l IH]; intros c m Hc; simpl; [done|]. apply IH.
    intros a x. rewrite !lookup_insert. case_decide; [done|]. apply Hc.
  - split_and!; try done. eauto.
Qed.

Lemma persist_ok (hash_data : list Z → Hash) l s :
  store_reliable St → ∃ s', persist_accounts hash_data l s = (Ok (), s').
Proof.
  intros [Hok _]. unfold persist_accounts. rewrite gets_bind. unfold id. specialize (Hok l (storage s)).
  destruct (acct_put_batch l (storage s)) as [r st]. simpl in Hok. subst r. by eexists.
Qed.

Lemma persist_spec (hash_data : list Z → Hash) l s :
  store_reliable St → coherent s → ∃ s', persist_accounts hash_data l s = (Ok (), s') ∧
    stored s' = write_accounts l (stored s) ∧ coherent s'.
Proof.
  intros Hrel Hc. destruct (persist_ok hash_data l s Hrel) as [s' Hp]. pose proof (persist_cases hash_data l s Hc) as Hs.
  rewrite Hp in Hs. exists s'. by destruct Hs as (? & _ & _ & _ & ? & _).
Qed.

Lemma ledger_insert o s a x : ledger (<[a := x]> o) s = <[a := x]> (ledger o s).
Proof. unfold ledger. by rewrite insert_union_l. Qed.
End Coherence.

(** ** Execution of one transaction over an overlay *)

Section Execution.
Context `{AccountStoreLaws St} {CM EV : Type}.
Context (hash_data : list Z → Hash) (verify : list Z → list Z → list Z → bool).
Context (deploy_contract : list Z → list Z → Address → Z → Z → Z → CM →
           Result (Address * list Log) string * CM).
Context (execute_contract : Address → Address → list Z → Z → Z → CM →
           Result (bool * list Z * list Log) string * CM).
Context (simulate_contract : Address → Address → list Z → Z → Z → CM →
           Result (bool * list Z * list Log) string).
Context (clock : option Z).
Implicit Types (s : StateManager St CM EV) (o : gmap Address Account).

Abbreviation exec := (execute_transaction_overlay (EV := EV) hash_data verify deploy_contract
  execute_contract simulate_contract clock).
Abbreviation effect := (overlay_effect (EV := EV) hash_data deploy_contract execute_contract
  simulate_contract clock).

(** An outcome that keeps the store and, when it is a result, satisfies [P]. *)
Definition outcome {A} s (P : A → Prop) (r : Result A StateError * StateManager St CM EV) : Prop :=
  kept s r.2 ∧ ∀ a, r.1 = Ok a → P a.

Lemma outcome_bind {A B} s (P : A → Prop) (Q : B → Prop) (m : M _ StateError A) k :
  outcome s P (m s) → (∀ a s', P a → kept s s' → outcome s' Q (k a s')) → outcome s Q (bindM m k s).
Proof.
  unfold outcome, bindM. destruct (m s) as [[a|e] s'] eqn:Hm; simpl; [|naive_solver].
  intros [Hk HP] Hn. destruct (Hn a s' (HP a eq_refl) Hk) as [Hk' HQ]. split; [|done].
  by eapply kept_trans.
Qed.

Lemma outcome_throw {A} s (P : A → Prop) e : outcome s P (throw e s).
Proof. by split. Qed.

Lemma outcome_returns {A} s (P : A → Prop) a : P a → outcome s P (returns a s).
Proof. intros HP. split; [done|]. by intros ? [= <-]. Qed.

Lemma outcome_gets {A B} s (P : B → Prop) (f : _ → A) k :
  outcome s P (k (f s) s) → outcome s P (bindM (gets f) k s).
Proof. done. Qed.

Lemma outcome_fail_if {B} s (P : B → Prop) b e k :
  (b = false → outcome s P (k () s)) → outcome s P (bindM (fail_if b e) k s).
Proof. rewrite fail_if_bind. destruct b; [intros _; by split|auto]. Qed.

Lemma outcome_modify {B} s (P : B → Prop) f k :
  storage (f s) = storage s → account_cache (f s) = account_cache s →
  account_hash_index (f s) = account_hash_index s → outcome (f s) P (k () (f s)) → outcome s P (bindM (modify f) k s).
Proof.
  intros E1 E2 E3 [Hk HP]. split; [|done]. eapply kept_trans; [|done]. by apply kept_same.
Qed.

Lemma outcome_require {A} s (r : bool * A) e : outcome s (λ a, r.1 = true ∧ a = r.2) (require r e s).
Proof. destruct r as [[] a]; split; try done. by intros ? [= <-]. Qed.

Lemma outcome_success s r fail :
  outcome s (λ _ : list Log, True) (require_success (EV := EV) r fail s).
Proof. unfold require_success. repeat case_match; by split. Qed.

(** Only the committee changes. *)
Lemma register_outcome s tx sender :
  outcome s (λ sd, ∃ x, add_stake (amount tx) sender = (true, x) ∧ sd = set_is_validator true x)
    (register_effect tx sender s).
Proof.
  unfold register_effect. apply outcome_fail_if. intros _.
  eapply outcome_bind; [apply outcome_require|]. intros x s' [Hr ->] _.
  destruct (add_stake (amount tx) sender) as [[] y] eqn:Ha; [|done]. simpl.
  apply outcome_gets. destruct (committee_set s') as [set|]; [|apply outcome_returns; eauto].
  destruct (Validators.new _ _ _ _) as [v|e]; [|apply outcome_throw].
  destruct (register_validator _ _) as [[u|e] set']; [|apply outcome_throw].
  apply outcome_modify; [done..|]. apply outcome_returns; eauto.
Qed.

Lemma exit_outcome s tx sender e :
  outcome s (λ sd, ∃ x, remove_stake (Account.stake sender) sender = (true, x) ∧ sd = set_is_validator false x)
    (exit_effect tx sender e s).
Proof.
  unfold exit_effect. eapply outcome_bind; [apply outcome_require|]. intros x s' [Hr ->] _.
  destruct (remove_stake _ sender) as [[] y] eqn:Ha; [|done]. simpl.
  apply outcome_modify; [done..|]. apply outcome_returns; eauto.
Qed.

Lemma overlay_account_outcome o a s :
  coherent s → outcome s (λ x, x = acc_of (ledger o s) a) (overlay_account o a s).
Proof.
  intros Hc. destruct (overlay_account_spec o a s Hc) as (s' & -> & Hk & _).
  split; [done|]. by intros ? [= <-].
Qed.

Lemma ledger_kept o s s' : kept s s' → ledger o s' = ledger o s.
Proof. intros Hk. unfold ledger. by rewrite (kept_stored _ _ Hk). Qed.

Lemma deploy_outcome o p s tx :
  coherent s →
  outcome s (λ rl, ∃ a h, rl.1 = set_code_hash (Some h) (acc_of (ledger o s) a))
    (overlay_deploy (EV := EV) hash_data deploy_contract tx o p s).
Proof.
  intros Hc. unfold overlay_deploy.
  destruct (decode_contract_deploy_payload (data tx)) as [[code ctor]|]; [|apply outcome_throw].
  apply outcome_fail_if. intros _. eapply outcome_bind; [by apply overlay_account_outcome|].
  intros x s1 -> Hk1. destruct p; [|apply outcome_returns; simpl; eauto].
  apply outcome_gets. destruct (contract_manager s1) as [cm|]; [|apply outcome_throw].
  destruct (deploy_contract _ _ _ _ _ _ cm) as [r cm'].
  apply outcome_modify; [done..|]. destruct r as [[deployed logs]|e]; [|apply outcome_throw].
  eapply outcome_bind; [apply overlay_account_outcome; by apply Hk1|].
  intros x s2 -> Hk2. apply outcome_returns. simpl. exists deployed, (hash_data code).
  f_equal. f_equal. unfold ledger, stored. simpl. by rewrite (proj1 (proj1 Hk1)).
Qed.

Lemma pay_outcome s v sender recipient :
  outcome s (λ sr, ∃ x, sub_balance v sender = (true, x) ∧
      sr = if Account.address x =? Account.address recipient then ((add_balance v x).2, recipient)
           else (x, (add_balance v recipient).2))
    (pay_overlay v sender recipient s).
Proof.
  unfold pay_overlay. eapply outcome_bind; [apply outcome_require|]. intros x s' [Hr ->] _.
  destruct (sub_balance v sender) as [[] y] eqn:Ha; [|done]. apply outcome_returns. eauto.
Qed.

Lemma call_outcome s p tx sender recipient :
  outcome s (λ res, (amount tx ≤ 0 ∧ res.1 = (sender, recipient)) ∨
      ∃ x, 0 < amount tx ∧ sub_balance (amount tx) sender = (true, x) ∧
        res.1 = if Account.address x =? Account.address recipient then ((add_balance (amount tx) x).2, recipient)
                else (x, (add_balance (amount tx) recipient).2))
    (overlay_call (EV := EV) execute_contract simulate_contract clock tx sender recipient p s).
Proof.
  unfold overlay_call.
  eapply (outcome_bind s (λ sr, (amount tx ≤ 0 ∧ sr = (sender, recipient)) ∨
      ∃ x, 0 < amount tx ∧ sub_balance (amount tx) sender = (true, x) ∧
        sr = if Account.address x =? Account.address recipient then ((add_balance (amount tx) x).2, recipient)
             else (x, (add_balance (amount tx) recipient).2))).
  - destruct (Z.ltb_spec 0 (amount tx)) as [Hlt|Hge]; [|apply outcome_returns; left; done].
    destruct (pay_outcome s (amount tx) sender recipient) as [Hk HP]. split; [done|]. intros sr Hr.
    right. destruct (HP sr Hr) as (x & ? & ?). eauto.
  - intros sr s1 Hsr _. apply outcome_gets. destruct (contract_manager s1) as [cm|]; [|apply outcome_throw].
    destruct p.
    + destruct (execute_contract _ _ _ _ _ cm) as [r cm']. apply outcome_modify; [done..|].
      eapply outcome_bind; [apply outcome_success|]. intros logs s2 _ _. by apply outcome_returns.
    + eapply outcome_bind; [apply outcome_success|]. intros logs s2 _ _. by apply outcome_returns.
Qed.

(** Every transaction type keeps what sender and recipient own together. *)
Lemma effect_outcome o p s tx :
  coherent s → ledger_ok (ledger o s) → fits u128_max (amount tx) →
  outcome s (λ res, effect_good tx (ledger o s) res.1.1 res.1.2)
    (effect tx o p (acc_of (ledger o s) (from tx)) (acc_of (ledger o s) (to tx)) s).
Proof.
  intros Hc Hm [Hv _]. set (m := ledger o s) in *. set (snd := acc_of m (from tx)).
  pose proof (acc_of_nonneg m (from tx) Hm) as [Hb Hs]. fold snd in Hb, Hs.
  pose proof (worth_le_total m (from tx) Hm) as Hw. fold snd in Hw. unfold worth in Hw.
  pose proof (lok_total _ Hm) as Ht.
  assert (Haddr : Account.address snd = from tx) by (by apply acc_of_address).
  assert (Haddr' : Account.address (acc_of m (to tx)) = to tx) by (by apply acc_of_address).
  assert (Hpay : ∀ v x, self_stake_transfer tx = false → 0 ≤ v → sub_balance v snd = (true, x) →
    effect_good tx m
      (if Account.address x =? Account.address (acc_of m (to tx)) then ((add_balance v x).2, acc_of m (to tx))
       else (x, (add_balance v (acc_of m (to tx))).2)).1
      (if Account.address x =? Account.address (acc_of m (to tx)) then ((add_balance v x).2, acc_of m (to tx))
       else (x, (add_balance v (acc_of m (to tx))).2)).2).
  { intros v x Hns Hv0 Hx. destruct (sub_balance_spec _ _ _ _ Hx Hv0) as [(_ & Hle & ->)|(? & _)]; [|done].
    destruct (good_payment tx m v _ _ Hm Hns (conj Hv0 Hle) eq_refl eq_refl) as [Hself Hother].
    simpl. rewrite Haddr, Haddr'. destruct (Z.eqb_spec (from tx) (to tx)); simpl; [by apply Hself|by apply Hother]. }
  assert (Hplain : tx_type tx ≠ StakeTransfer → self_stake_transfer tx = false)
    by (intros Hne; unfold self_stake_transfer; by rewrite bool_decide_eq_false_2).
  unfold overlay_effect. destruct (tx_type tx) eqn:Hty; try specialize (Hplain ltac:(done)).
  - eapply outcome_bind; [apply pay_outcome|]. intros sr s' (x & Hx & ->) _. apply outcome_returns. by apply Hpay.
  - eapply outcome_bind; [apply outcome_require|]. intros x s' [Hr ->] _. apply outcome_returns. simpl.
    destruct (add_stake (amount tx) snd) as [r y] eqn:Ha. simpl in *. subst r.
    unfold add_stake in Ha. repeat case_match; simplify_eq; reflect_hyps; subst.
    apply good_own; simpl; try done; unfold worth; simpl; fold snd; lia.
  - eapply outcome_bind; [apply outcome_require|]. intros x s' [Hr ->] _. apply outcome_returns. simpl.
    destruct (remove_stake (amount tx) snd) as [r y] eqn:Ha. simpl in *. subst r.
    unfold remove_stake, add_balance in Ha. simpl in Ha. repeat case_match; simplify_eq; reflect_hyps; subst.
    apply good_own; simpl; try done; unfold worth; simpl; fold snd; lia.
  - eapply outcome_bind; [apply outcome_require|]. intros x s' [Hr ->] _. apply outcome_returns. simpl.
    destruct (subtract_stake (amount tx) snd) as [r y] eqn:Ha. simpl in *. subst r.
    destruct (subtract_stake_spec _ _ _ _ Ha) as [(_ & Hle & ->)|(? & _)]; [|done].
    pose proof (acc_of_nonneg m (to tx) Hm) as [Hb' Hs'].
    assert (Hroom : from tx ≠ to tx → Account.stake (acc_of m (to tx)) + amount tx ≤ u128_max).
    { intros Hne. pose proof (two_worths_le_total m _ _ Hm Hne) as H2. unfold worth in H2. fold snd in H2. lia. }
    assert (Hdir : Account.address (add_stake_direct (amount tx) (acc_of m (to tx))) = to tx ∧
      Account.nonce (add_stake_direct (amount tx) (acc_of m (to tx))) = Account.nonce (acc_of m (to tx)) ∧
      0 ≤ Account.balance (add_stake_direct (amount tx) (acc_of m (to tx))) ∧
      0 ≤ Account.stake (add_stake_direct (amount tx) (acc_of m (to tx)))).
    { unfold add_stake_direct. destruct (checked_add _ _ _) eqn:Hadd; simpl; [|done]. reflect_hyps. subst.
      split_and!; done || lia. }
    destruct Hdir as (Hd1 & Hd2 & Hd3 & Hd4).
    split; simpl; rewrite ?Hd1; try done; try (split; done || lia).
    + unfold self_stake_transfer. intros [_ Hft%Z.eqb_eq]%andb_true_iff. done.
    + intros Heq. unfold burned, self_stake_transfer. rewrite Hty, Heq, Z.eqb_refl. unfold worth. simpl. fold snd. lia.
    + intros Hne. rewrite add_stake_direct_spec by (apply Hroom; congruence). unfold worth. simpl. fold snd. lia.
    + intros Hne. rewrite add_stake_direct_spec by (apply Hroom; congruence). simpl. lia.
  - eapply outcome_bind; [apply register_outcome|]. intros sd s' (x & Ha & ->) _. apply outcome_returns. simpl.
    unfold add_stake in Ha. repeat case_match; simplify_eq; reflect_hyps; subst.
    apply good_own; simpl; try done; unfold worth; simpl; fold snd; lia.
  - eapply outcome_bind; [apply exit_outcome|]. intros sd s' (x & Ha & ->) _. apply outcome_returns. simpl.
    unfold remove_stake, add_balance in Ha. simpl in Ha. repeat case_match; simplify_eq; reflect_hyps; subst.
    apply good_own; simpl; try done; unfold worth; simpl; fold snd; lia.
  - destruct (call_outcome s p tx snd (acc_of m (to tx))) as [Hk HP]. split; [done|]. intros res Hr.
    destruct (HP res Hr) as [[_ ->]|(x & Hpos & Hx & ->)]; [|by apply Hpay].
    by apply good_own.
  - eapply outcome_bind; [by apply deploy_outcome|]. intros rl s' (a & h & Hrl) _. apply outcome_returns. simpl.
    rewrite Hrl. fold m. pose proof (acc_of_nonneg m a Hm).
    unfold burned. split; simpl; unfold burned; rewrite ?Hplain, ?acc_of_address by done; try done. intros; fold snd; lia.
Qed.

(** ** One transaction *)

(** What a successful execution does to the ledger. *)
Record executed (stx : SignedTransaction) (m m' : gmap Address Account) : Prop := {
  exe_ok : ledger_ok m';
  exe_total : total m' = total m - burned (transaction stx);
  exe_nonce : nonce (transaction stx) = Account.nonce (acc_of m (from (transaction stx)));
  exe_nonce' : Account.nonce (acc_of m' (from (transaction stx))) =
    Account.nonce (acc_of m (from (transaction stx))) + 1;
  exe_others : ∀ a, a ≠ from (transaction stx) → Account.nonce (acc_of m' a) = Account.nonce (acc_of m a);
  exe_gain : ∀ a, a ≠ from (transaction stx) →
    Account.balance (acc_of m a) ≤ Account.balance (acc_of m' a) ∧
    Account.stake (acc_of m a) ≤ Account.stake (acc_of m' a)
}.

Lemma executed_update stx m sd rc :
  let tx := transaction stx in
  ledger_ok m → effect_good tx m sd rc → 0 ≤ amount tx →
  nonce tx = Account.nonce (acc_of m (from tx)) →
  executed stx m
    (let m1 := <[from tx := Account.set_nonce (Account.nonce sd + 1) sd]> m in
     if from tx =? Account.address rc then m1 else <[Account.address rc := rc]> m1).
Proof.
  intros tx Hm [[Ha Hn] Hrn [Hb Hs] [Hb' Hs'] Hburn Hself Hother Hgain] Hpos Hnonce. cbv zeta.
  assert (Hbpos : 0 ≤ burned tx) by (unfold burned; case_match; lia).
  set (sd' := Account.set_nonce (Account.nonce sd + 1) sd).
  pose proof (total_insert m (from tx) sd') as Ht1.
  assert (Hwsd : worth sd' = worth sd) by done. pose proof (lok_total _ Hm).
  destruct (Z.eqb_spec (from tx) (Account.address rc)) as [Heq|Hne].
  - specialize (Hself (eq_sym Heq)).
    assert (Htot : total (<[from tx := sd']> m) = total m - burned tx) by lia.
    split; try done; fold tx.
    + apply ledger_ok_insert; try done. lia.
    + rewrite acc_of_insert, decide_True by done. simpl. by rewrite Hn.
    + intros a Hna. by rewrite acc_of_insert, decide_False by congruence.
    + intros a Hna. by rewrite acc_of_insert, decide_False by congruence.
  - specialize (Hother (not_eq_sym Hne)).
    set (m1 := <[from tx := sd']> m).
    assert (Hrc1 : acc_of m1 (Account.address rc) = acc_of m (Account.address rc))
      by (unfold m1; by rewrite acc_of_insert, decide_False).
    assert (Hzero : burned tx = 0).
    { unfold burned. destruct (self_stake_transfer tx); [|done]. by specialize (Hburn eq_refl). }
    assert (Htot : total (<[Account.address rc := rc]> m1) = total m).
    { rewrite total_insert, Hrc1. unfold m1. lia. }
    rewrite <- (Z.sub_0_r (total m)), <- Hzero in Htot.
    split; try done; fold tx.
    + split; [| | |lia]; intros a x; unfold m1; rewrite !lookup_insert; repeat case_decide;
        intros Hx; first [injection Hx as <-; simpl; congruence || done
                         | by eauto using lok_address, lok_balance, lok_stake].
    + unfold m1. rewrite !acc_of_insert, decide_False, decide_True by congruence. simpl. by rewrite Hn.
    + intros a Hna. rewrite acc_of_insert. case_decide as Hr; [by subst|].
      unfold m1. by rewrite acc_of_insert, decide_False by congruence.
    + intros a Hna. rewrite acc_of_insert. case_decide as Hr; [subst; by apply Hgain|].
      unfold m1. by rewrite acc_of_insert, decide_False by congruence.
Qed.

Lemma exec_outcome stx o p s :
  coherent s → ledger_ok (ledger o s) → tx_fine stx →
  outcome s (λ ro, r_success ro.1 = true ∧ validate_static hash_data verify (transaction stx) = Ok () ∧
      executed stx (ledger o s) (ledger ro.2 s)) (exec stx o p s).
Proof.
  intros Hc Hm Hv. unfold tx_fine in Hv. unfold execute_transaction_overlay, validate_transaction_against_overlay.
  set (tx := transaction stx) in *.
  eapply (outcome_bind s (λ _, validate_static hash_data verify tx = Ok () ∧
    nonce tx = Account.nonce (acc_of (ledger o s) (from tx)))).
  { eapply (outcome_bind s (λ _, validate_static hash_data verify tx = Ok ())).
    { split; [done|]. intros [] Hr. exact Hr. }
    intros [] s1 Hval Hk1. eapply outcome_bind; [apply overlay_account_outcome; by apply Hk1|].
    intros x s2 -> Hk2. rewrite (ledger_kept o s s1 Hk1). split; [done|]. intros [] Hr. split; [done|].
    unfold lift, check_nonce in Hr. simpl in Hr. fold tx in Hr.
    destruct (Z.eqb_spec (nonce tx) (Account.nonce (acc_of (ledger o s) (from tx)))); done. }
  intros [] s1 [Hval Hnonce] Hk1.
  eapply outcome_bind; [apply overlay_account_outcome; by apply Hk1|]. intros sender s2 -> Hk2.
  assert (Hk12 : kept s s2) by (by eapply kept_trans).
  eapply outcome_bind; [apply overlay_account_outcome; by apply Hk12|]. intros recipient s3 -> Hk3.
  assert (Hk13 : kept s s3) by (by eapply kept_trans).
  rewrite (ledger_kept o s s1), (ledger_kept o s s2) by done.
  eapply outcome_bind.
  { rewrite <- (ledger_kept o s s3) by done.
    apply effect_outcome; [by apply Hk13|by rewrite (ledger_kept o s s3)|done]. }
  intros [[sd rc] logs] s4 Hgood Hk4. simpl in Hgood. rewrite (ledger_kept o s s3) in Hgood by done.
  eapply (outcome_bind s4 (λ x, x = Account.set_nonce (Account.nonce sd + 1) sd)).
  { unfold advance_nonce. destruct (increment_nonce sd) as [y|e] eqn:Hi; [|apply outcome_throw].
    apply increment_nonce_spec in Hi as [-> _]. by apply outcome_returns. }
  intros x s5 -> Hk5. apply outcome_returns. split; [done|]. split; [done|]. simpl.
  pose proof (executed_update stx (ledger o s) sd rc Hm Hgood (proj1 Hv) Hnonce) as Hex. fold tx in Hex.
  destruct (good_sender _ _ _ _ Hgood) as [Ha _]. rewrite Ha.
  destruct (from tx =? Account.address rc); rewrite ?ledger_insert; exact Hex.
Qed.

(** ** Sequences of transactions *)

Abbreviation loop := (overlay_loop (EV := EV) hash_data verify deploy_contract
  execute_contract simulate_contract clock).

Lemma executed_advanced stx m m' P :
  tx_fine stx → executed stx m m' → P (from (transaction stx)) → advanced P m m'.
Proof.
  intros [Hpos _] [Hok Ht Hn Hn' Ho Hg] HP. split; [done|unfold burned in Ht; case_match; lia| |].
  - intros a. destruct (decide (a = from (transaction stx))) as [->|Hne]; [lia|]. rewrite Ho by done. lia.
  - intros a HnP. assert (a ≠ from (transaction stx)) by congruence. split_and!; [by apply Hg..|by apply Ho].
Qed.

(** What the successful transactions of a block destroyed. *)
Definition burned_in (txs : list SignedTransaction) (rs : list TransactionReceipt) : Z :=
  sumZ (zip_with (λ stx r, if r_success r then burned (transaction stx) else 0) txs rs).

(** The receipts and the ledger of a run of transactions. *)
Record run_result (txs : list SignedTransaction) (rs : list TransactionReceipt)
    (m m' : gmap Address Account) : Prop := {
  run_advanced : advanced (λ a, a ∈ map (λ stx, from (transaction stx)) txs) m m';
  run_total : total m' = total m - burned_in txs rs;
  run_length : length rs = length txs;
  run_success : ∀ i stx r, txs !! i = Some stx → rs !! i = Some r → r_success r = true →
    validate_static hash_data verify (transaction stx) = Ok () ∧
    nonce (transaction stx) < Account.nonce (acc_of m' (from (transaction stx)))
}.

Lemma run_result_cons stx txs r rs m m1 m' :
  advanced (λ a, a = from (transaction stx)) m m1 → run_result txs rs m1 m' →
  total m1 = total m - (if r_success r then burned (transaction stx) else 0) →
  (r_success r = true → validate_static hash_data verify (transaction stx) = Ok () ∧
    nonce (transaction stx) < Account.nonce (acc_of m1 (from (transaction stx)))) →
  run_result (stx :: txs) (r :: rs) m m'.
Proof.
  intros Hadv [Ha Ht Hl Hs] Ht1 Hr. split.
  - eapply advanced_trans; [|exact Ha|]; [eapply advanced_weaken; [exact Hadv|]|]; set_solver.
  - rewrite Ht, Ht1. unfold burned_in. simpl. lia.
  - simpl. by rewrite Hl.
  - intros [|i] x y Hx Hy Hsuc; simpl in *; [|by eapply Hs]. simplify_eq.
    destruct (Hr Hsuc) as [? ?]. pose proof (adv_nonce _ _ _ Ha (from (transaction x))). split; [done|lia].
Qed.

Lemma loop_spec txs o p s :
  coherent s → ledger_ok (ledger o s) → Forall tx_fine txs →
  let '(rs, o', s') := loop txs o p s in
  kept s s' ∧ run_result txs rs (ledger o s) (ledger o' s).
Proof.
  intros Hc Hm Hall. revert o s Hc Hm. induction Hall as [|tx txs Hv Hall IH]; intros o s Hc Hm.
  { simpl. split; [done|]. split; [by apply advanced_refl|unfold burned_in; simpl; lia|done|done]. }
  simpl. pose proof (exec_outcome tx o p s Hc Hm Hv) as [Hk HP].
  destruct (exec tx o p s) as [[[rc o1]|e] s1] eqn:Hex; simpl in Hk, HP.
  - destruct (HP _ eq_refl) as (Hsuc & Hval & He). simpl in *.
    specialize (IH o1 s1 (proj2 Hk Hc)). rewrite (ledger_kept o1 s s1 Hk) in IH. specialize (IH (exe_ok _ _ _ He)).
    destruct (loop txs o1 p s1) as [[rs o2] s2]. destruct IH as [Hk2 Hr].
    rewrite (ledger_kept o2 s s1 Hk) in *. split; [by eapply kept_trans|].
    eapply run_result_cons; [by eapply executed_advanced|done|rewrite Hsuc; apply He|].
    intros _. split; [done|]. destruct He. lia.
  - specialize (IH o s1 (proj2 Hk Hc)). rewrite (ledger_kept o s s1 Hk) in IH. specialize (IH Hm).
    destruct (loop txs o p s1) as [[rs o2] s2]. destruct IH as [Hk2 Hr].
    rewrite (ledger_kept o2 s s1 Hk) in *. split; [by eapply kept_trans|].
    eapply run_result_cons; [by apply advanced_refl|done|simpl; lia|done].
Qed.
End Execution.
