(* ===== verification/StateBlocks.v ===== *)
(** * The state manager: blocks

    Committing overlays and their state roots, the groups of the parallel path
    and their merge, and the theorems about whole blocks. *)

From S2P Require Import Prelude Bytes Account Validators Smt Transaction State StateLedger.

(** ** Committing an overlay *)

(** Every account of a map is filed under its own address. *)
Definition keyed (m : gmap Address Account) : Prop := ∀ a x, m !! a = Some x → Account.address x = a.

Lemma insert_by_address_elem a l x : x ∈ insert_by_address a l ↔ x = a ∨ x ∈ l.
Proof.
  induction l as [|b l IH]; simpl; [set_solver|]. case_match; set_solver.
Qed.

Lemma sort_by_address_elem l x : x ∈ sort_by_address l ↔ x ∈ l.
Proof.
  induction l as [|a l IH]; simpl; [done|]. rewrite insert_by_address_elem, IH. set_solver.
Qed.

Lemma elem_of_values (o : gmap Address Account) x : x ∈ (map_to_list o).*2 ↔ ∃ a, o !! a = Some x.
Proof.
  rewrite list_elem_of_fmap. setoid_rewrite elem_of_map_to_list'. split.
  - intros ([a y] & -> & Hy). eauto.
  - intros [a Ha]. by exists (a, x).
Qed.

Lemma write_accounts_lookup (o : gmap Address Account) l m a :
  (∀ x, x ∈ l → o !! Account.address x = Some x) →
  write_accounts l m !! a = if bool_decide (a ∈ map Account.address l) then o !! a else m !! a.
Proof.
  unfold write_accounts. revert m. induction l as [|x l IH]; intros m Hin; simpl; [done|].
  rewrite IH by (intros; apply Hin; by right). rewrite lookup_insert.
  assert (Hx : o !! Account.address x = Some x) by (apply Hin; left).
  repeat case_bool_decide; try case_decide; subst; try done; set_solver.
Qed.

(** Writing the accounts of an overlay, in any order, overlays the map. *)
Lemma write_accounts_union l o m :
  keyed o → (∀ x, x ∈ l ↔ x ∈ (map_to_list o).*2) → write_accounts l m = o ∪ m.
Proof.
  intros Hk Hl. apply map_eq. intros a. rewrite (write_accounts_lookup o).
  - case_bool_decide as Ha.
    + apply list_elem_of_fmap in Ha as (x & -> & Hx). apply Hl, elem_of_values in Hx as [b Hb].
      rewrite (Hk b x Hb), Hb. symmetry. by apply lookup_union_Some_l.
    + rewrite lookup_union_r; [done|]. destruct (o !! a) as [x|] eqn:E; [|done]. exfalso. apply Ha.
      apply list_elem_of_fmap. exists x. split; [symmetry; by apply Hk|]. apply Hl, elem_of_values. eauto.
  - intros x Hx. apply Hl, elem_of_values in Hx as [b Hb]. by rewrite (Hk b x Hb).
Qed.

Lemma write_accounts_values l m : keyed m → (∀ x, x ∈ l ↔ x ∈ (map_to_list m).*2) → write_accounts l ∅ = m.
Proof. intros Hk Hl. rewrite (write_accounts_union _ m) by done. by rewrite (right_id_L ∅ (∪)). Qed.

Lemma index_accounts_hash hash_data l m :
  index_accounts hash_data l (Account.hash hash_data <$> m) = Account.hash hash_data <$> write_accounts l m.
Proof.
  unfold index_accounts, write_accounts. revert m. induction l as [|x l IH]; intros m; simpl; [done|].
  by rewrite <- fmap_insert, IH.
Qed.

(** The hash of every account, and the root that commits to a ledger. *)
Definition index_of (hash_data : list Z → Hash) (m : gmap Address Account) : gmap Address Hash :=
  Account.hash hash_data <$> m.
Definition root_of (hash_data : list Z → Hash) (m : gmap Address Account) : Hash :=
  state_smt_root hash_data (map_to_list (index_of hash_data m)).

Section Commit.
Context `{AccountStoreLaws St} {CM EV : Type} (hash_data : list Z → Hash).
Implicit Types (s : StateManager St CM EV) (o : gmap Address Account).

(** The hash index, when it is loaded, is the one of the store. *)
Definition index_ok s : Prop := ∀ i, account_hash_index s = Some i → i = index_of hash_data (stored s).

Lemma kept_index_ok s s' : kept s s' → index_ok s → index_ok s'.
Proof. intros Hk Hi i. rewrite (proj2 (proj1 Hk)), (kept_stored _ _ Hk). apply Hi. Qed.

Lemma load_index_cases s :
  keyed (stored s) → index_ok s → coherent s →
  let '(r, s') := load_account_hash_index hash_data s in
  storage s' = storage s ∧ coherent s' ∧ index_ok s' ∧ committee_set s' = committee_set s ∧ state_root s' = state_root s ∧
  (store_reliable St → is_ok r) ∧
  match r with Ok i => i = index_of hash_data (stored s) | Err e => ∃ m, e = StorageError m end.
Proof.
  intros Hk Hi Hc. unfold load_account_hash_index. rewrite gets_bind. unfold id.
  destruct (account_hash_index s) as [i|] eqn:E.
  { by rewrite (Hi i E). }
  pose proof (acct_iter_view (storage s)) as Hl. fold (stored s) in Hl.
  destruct (acct_iter (storage s)) as [l|e] eqn:Hit.
  - pose proof (index_accounts_hash hash_data l ∅) as Hix.
    rewrite fmap_empty, (write_accounts_values l (stored s)) in Hix by (done || by apply Hl). rewrite Hix.
    simpl. split_and!; try done. intros i. by intros [= <-].
  - simpl. split_and!; try done; [|eauto]. intros [_ Hrel]. destruct (Hrel (storage s)) as [l Hl']. by rewrite Hit in Hl'.
Qed.

Lemma root_with_overlay_cases o s :
  keyed (stored s) → keyed o → index_ok s → coherent s →
  let '(r, s') := compute_state_root_with_overlay hash_data o s in
  storage s' = storage s ∧ coherent s' ∧ index_ok s' ∧ committee_set s' = committee_set s ∧ state_root s' = state_root s ∧
  (store_reliable St → is_ok r) ∧
  match r with Ok root => root = root_of hash_data (ledger o s) | Err e => ∃ m, e = StorageError m end.
Proof.
  intros Hk Ho Hi Hc. unfold compute_state_root_with_overlay, bindM. pose proof (load_index_cases s Hk Hi Hc) as Hs.
  destruct (load_account_hash_index hash_data s) as [[i|e] s']; [|exact Hs]. destruct Hs as (? & ? & ? & ? & ? & _ & ->).
  simpl. split_and!; try done. unfold root_of, index_of. by rewrite index_accounts_hash, (write_accounts_union _ o).
Qed.

Lemma root_with_overlay_spec o s :
  store_reliable St → keyed (stored s) → keyed o → index_ok s → coherent s →
  ∃ s', compute_state_root_with_overlay hash_data o s = (Ok (root_of hash_data (ledger o s)), s') ∧
    storage s' = storage s ∧ coherent s' ∧ index_ok s'.
Proof.
  intros Hrel Hk Ho Hi Hc. pose proof (root_with_overlay_cases o s Hk Ho Hi Hc) as Hs.
  destruct (compute_state_root_with_overlay hash_data o s) as [[r|e] s']; destruct Hs as (? & ? & ? & _ & _ & Hok & Hr);
    [subst r; by exists s'|by specialize (Hok Hrel)].
Qed.

(** Writing back an execution: the store becomes the overlaid ledger, or nothing is written. *)
Lemma commit_cases root receipts o s :
  keyed o → index_ok s → coherent s →
  let '(r, s') := commit_execution hash_data (mkExecution root receipts (sort_by_address (map_to_list o).*2)) s in
  coherent s' ∧ index_ok s' ∧ committee_set s' = committee_set s ∧ (store_reliable St → is_ok r) ∧
  match r with
  | Ok _ => stored s' = ledger o s ∧ state_root s' = root
  | Err e => (∃ m, e = StorageError m) ∧ stored s' = stored s ∧ state_root s' = state_root s
  end.
Proof.
  intros Ho Hi Hc. unfold commit_execution, bindM. cbn [ex_accounts ex_state_root].
  pose proof (persist_cases hash_data (sort_by_address (map_to_list o).*2) s Hc) as Hp.
  pose proof (persist_ok hash_data (sort_by_address (map_to_list o).*2) s) as Hrel.
  destruct (persist_accounts hash_data _ s) as [[[]|e] s1]; destruct Hp as (Hc1 & Hcs & _ & Hroot & Hp).
  - destruct Hp as [Hst Hix]. rewrite (write_accounts_union _ o) in Hst by (done || apply sort_by_address_elem).
    split_and!; try done. intros i. simpl. rewrite Hix. destruct (account_hash_index s) as [j|] eqn:Hj; [|done].
    simpl. intros [= <-]. rewrite (Hi j Hj). unfold index_of.
    rewrite index_accounts_hash, (write_accounts_union _ o) by (done || apply sort_by_address_elem).
    change (stored (set_state_root root s1)) with (stored s1). by rewrite Hst.
  - destruct Hp as (He & Hst & Hix). split_and!; try done.
    + intros i. rewrite Hix, Hst. apply Hi.
    + intros H'. by destruct (Hrel H').
Qed.

Lemma commit_spec root receipts o s :
  store_reliable St → keyed o → index_ok s → coherent s →
  ∃ s', commit_execution hash_data (mkExecution root receipts (sort_by_address (map_to_list o).*2)) s = (Ok (), s') ∧
    stored s' = ledger o s ∧ coherent s' ∧ index_ok s' ∧ state_root s' = root.
Proof.
  intros Hrel Ho Hi Hc. pose proof (commit_cases root receipts o s Ho Hi Hc) as Hs.
  destruct (commit_execution _ _ _) as [[[]|e] s']; destruct Hs as (? & ? & _ & Hok & Hr); [by exists s'; destruct Hr|by specialize (Hok Hrel)].
Qed.
End Commit.

(** ** Merging the overlays of groups *)

(** What is owned in total, summed over any addresses that cover the ledger. *)
Lemma total_over m l :
  NoDup l → (∀ a, is_Some (m !! a) → a ∈ l) → total m = sumZ (map (λ a, worth (acc_of m a)) l).
Proof.
  revert m. induction l as [|a l IH]; intros m Hnd Hin; simpl.
  { assert (m = ∅) as ->; [|done]. apply map_empty. intros a. apply eq_None_not_Some.
    intros Ha. by apply Hin, not_elem_of_nil in Ha. }
  apply list.NoDup_cons in Hnd as [Ha Hnd].
  rewrite (map_ext_in _ (λ b, worth (acc_of (delete a m) b))).
  - rewrite <- IH; [|done|].
    + unfold total, acc_of. rewrite map_sum_delete. destruct (m !! a); simpl; unfold worth; simpl; lia.
    + intros b [x [Hne Hx]%lookup_delete_Some]. specialize (Hin b (mk_is_Some _ _ Hx)). set_solver.
  - intros b Hb%list_elem_of_In. unfold acc_of. by rewrite lookup_delete_ne by congruence.
Qed.

(** The overlay after merging [o] into [Om], account by account. *)
Definition merged_lookup (m Om o : gmap Address Account) (b : Address) : option Account :=
  match o !! b, Om !! b with
  | None, e => e
  | Some x, None => Some x
  | Some x, Some e => Some (merge_account b (acc_of m b) x e)
  end.

Lemma acc_of_union o m b : acc_of (o ∪ m) b = match o !! b with Some x => x | None => acc_of m b end.
Proof. unfold acc_of. rewrite lookup_union. by destruct (o !! b), (m !! b). Qed.

(** The merge adds the changes of both, without wrapping around. *)
Lemma merged_account m Om o Om' b :
  ledger_ok (Om ∪ m) → ledger_ok (o ∪ m) → Om' !! b = merged_lookup m Om o b →
  Account.nonce (acc_of m b) ≤ Account.nonce (acc_of (Om ∪ m) b) →
  Account.nonce (acc_of m b) ≤ Account.nonce (acc_of (o ∪ m) b) →
  let db := Account.balance (acc_of (Om ∪ m) b) + Account.balance (acc_of (o ∪ m) b) - Account.balance (acc_of m b) in
  let ds := Account.stake (acc_of (Om ∪ m) b) + Account.stake (acc_of (o ∪ m) b) - Account.stake (acc_of m b) in
  0 ≤ db → 0 ≤ ds → db + ds ≤ u128_max →
  Account.address (acc_of (Om' ∪ m) b) = b ∧ Account.balance (acc_of (Om' ∪ m) b) = db ∧
  Account.stake (acc_of (Om' ∪ m) b) = ds ∧
  Account.nonce (acc_of (Om' ∪ m) b) =
    Z.max (Account.nonce (acc_of (Om ∪ m) b)) (Account.nonce (acc_of (o ∪ m) b)).
Proof.
  intros HO Ho Hl. pose proof (acc_of_address _ b HO) as HaO. pose proof (acc_of_address _ b Ho) as Hao.
  rewrite !acc_of_union, Hl in *. unfold merged_lookup.
  destruct (o !! b) as [x|], (Om !! b) as [e|]; cbv zeta; intros Hn1 Hn2 H1 H2 H3; simpl; try (split_and!; lia || done).
  unfold wrapping_sub, wrapping_add. rewrite !Zminus_mod_idemp_l, !Z.mod_small by lia.
  split_and!; lia || done.
Qed.

(** Merging the overlay of the group of [a] into that of groups of others. *)
Lemma merge_advanced (P : Address → Prop) a m Om o Om' :
  ledger_ok m → advanced P m (Om ∪ m) → advanced (λ b, b = a) m (o ∪ m) → ¬ P a →
  (∀ b, Om' !! b = merged_lookup m Om o b) →
  advanced (λ b, b = a ∨ P b) m (Om' ∪ m) ∧
  total (Om' ∪ m) = total (Om ∪ m) + total (o ∪ m) - total m ∧
  ∀ b, Account.nonce (acc_of (Om' ∪ m) b) =
    Z.max (Account.nonce (acc_of (Om ∪ m) b)) (Account.nonce (acc_of (o ∪ m) b)).
Proof.
  intros Hm [HO HtO HnO HgO] [Ho Hto Hno Hgo] HPa Hl.
  set (db b := Account.balance (acc_of (Om ∪ m) b) + Account.balance (acc_of (o ∪ m) b) - Account.balance (acc_of m b)).
  set (ds b := Account.stake (acc_of (Om ∪ m) b) + Account.stake (acc_of (o ∪ m) b) - Account.stake (acc_of m b)).
  assert (Hpos : ∀ b, 0 ≤ db b ∧ 0 ≤ ds b).
  { intros b. pose proof (acc_of_nonneg _ b HO). pose proof (acc_of_nonneg _ b Ho). unfold db, ds.
    destruct (decide (b = a)) as [->|Hne]; [destruct (HgO a HPa); lia|destruct (Hgo b Hne); lia]. }
  set (l := elements (dom Om ∪ dom o ∪ dom m)).
  assert (Hcov : ∀ m' : gmap Address Account, dom m' ⊆ dom Om ∪ dom o ∪ dom m →
    total m' = sumZ (map (λ a, worth (acc_of m' a)) l)).
  { intros m' Hsub. apply total_over; [apply NoDup_elements|]. intros b Hb. apply elem_of_elements.
    by apply Hsub, elem_of_dom. }
  assert (Hsum : sumZ (map (λ b, db b + ds b) l) = total (Om ∪ m) + total (o ∪ m) - total m).
  { assert (Hlin : ∀ k, sumZ (map (λ b, db b + ds b) k) = sumZ (map (λ b, worth (acc_of (Om ∪ m) b)) k) +
      sumZ (map (λ b, worth (acc_of (o ∪ m) b)) k) - sumZ (map (λ b, worth (acc_of m b)) k)).
    { induction k as [|b k IH]; simpl; [done|]. rewrite IH. unfold db, ds, worth. lia. }
    rewrite Hlin, <- !Hcov by (rewrite ?dom_union_L; set_solver). lia. }
  assert (Hle : ∀ b, db b + ds b ≤ u128_max).
  { intros b. pose proof (lok_total _ Hm). destruct (decide (b ∈ l)) as [Hb|Hb].
    - assert (Hmem : ∀ k, b ∈ k → db b + ds b ≤ sumZ (map (λ b, db b + ds b) k)).
      { induction k as [|c k IH]; [set_solver|]. intros [->|Hk]%elem_of_cons; simpl.
        - enough (0 ≤ sumZ (map (λ b, db b + ds b) k)) by lia. apply sumZ_nonneg, list.Forall_fmap,
            list.Forall_forall. intros c' _. simpl. destruct (Hpos c'). lia.
        - specialize (IH Hk). destruct (Hpos c). lia. }
      specialize (Hmem l Hb). lia.
    - assert (HbO : Om !! b = None ∧ o !! b = None ∧ m !! b = None).
      { unfold l in Hb. rewrite elem_of_elements, !elem_of_union, !elem_of_dom in Hb.
        rewrite !eq_None_not_Some. tauto. }
      destruct HbO as (E1 & E2 & E3). unfold db, ds. rewrite !acc_of_union, E1, E2. unfold acc_of. rewrite E3.
      simpl. unfold u128_max. lia. }
  assert (Hat : ∀ b, Account.address (acc_of (Om' ∪ m) b) = b ∧ Account.balance (acc_of (Om' ∪ m) b) = db b ∧
    Account.stake (acc_of (Om' ∪ m) b) = ds b ∧ Account.nonce (acc_of (Om' ∪ m) b) =
      Z.max (Account.nonce (acc_of (Om ∪ m) b)) (Account.nonce (acc_of (o ∪ m) b))).
  { intros b. destruct (Hpos b). apply (merged_account m Om o Om' b); auto; apply Hle. }
  assert (Ht : total (Om' ∪ m) = total (Om ∪ m) + total (o ∪ m) - total m).
  { rewrite Hcov, <- Hsum.
    - f_equal. apply map_ext. intros b. unfold worth. by destruct (Hat b) as (_ & -> & -> & _).
    - rewrite dom_union_L. intros b. rewrite !elem_of_union, !elem_of_dom, Hl. unfold merged_lookup.
      destruct (o !! b), (Om !! b); naive_solver. }
  split; [|split; [done|intros b; apply Hat]]. split; [|lia| |].
  - assert (Hacc : ∀ b x, (Om' ∪ m) !! b = Some x → acc_of (Om' ∪ m) b = x) by (by unfold acc_of; intros b x ->).
    split; [| | |rewrite Ht; pose proof (lok_total _ Hm); lia]; intros b x <-%Hacc; destruct (Hat b) as (? & ? & ? & ?);
      destruct (Hpos b); congruence || lia.
  - intros b. destruct (Hat b) as (_ & _ & _ & ->). specialize (HnO b). lia.
  - intros b Hb. assert (Hba : b ≠ a) by tauto. assert (HbP : ¬ P b) by tauto. destruct (Hat b) as (_ & -> & -> & ->). unfold db, ds.
    destruct (HgO b HbP) as (? & ? & ->), (Hgo b Hba) as (? & ? & ->). lia.
Qed.

(** ** Positions *)

Lemma elem_of_zip_seq {A} (l : list A) n i x :
  (i, x) ∈ zip (seq n (length l)) l ↔ ∃ k, i = (n + k)%nat ∧ l !! k = Some x.
Proof.
  revert n. induction l as [|y l IH]; intros n; simpl; [split; [set_solver|naive_solver]|].
  rewrite elem_of_cons, IH. split.
  - intros [[= -> ->]|(k & -> & Hk)]; [exists 0%nat|exists (S k)]; split; done || lia.
  - intros ([|k] & -> & Hk); simpl in Hk; [left; simplify_eq; f_equal; lia|right; exists k; split; [lia|done]].
Qed.

Lemma elem_of_group txs a i stx :
  (i, stx) ∈ group_of txs a ↔ txs !! i = Some stx ∧ from (transaction stx) = a.
Proof.
  unfold group_of. rewrite list_elem_of_filter, elem_of_zip_seq. simpl. naive_solver.
Qed.

(** The positions of the groups of distinct senders are distinct. *)
Lemma NoDup_groups txs senders : base.NoDup senders → base.NoDup (concat (map (λ a, (group_of txs a).*1) senders)).
Proof.
  induction 1 as [|a senders Ha Hnd IH]; simpl; [constructor|]. apply list.NoDup_app. split_and!.
  - unfold group_of. eapply sublist_NoDup; [|apply fmap_sublist, sublist_filter]. rewrite fst_zip by (by rewrite length_seq). apply NoDup_seq.
  - intros i ([j x] & -> & [Hx Hfrom]%elem_of_group)%list_elem_of_fmap Hin.
    apply list_elem_of_In, in_concat in Hin as (l & (b & <- & Hb)%in_map_iff & Hi). apply list_elem_of_In in Hb, Hi.
    apply list_elem_of_fmap in Hi as ([k y] & Heq & [Hy Hfrom']%elem_of_group). simpl in *. subst k.
    assert (x = y) as -> by congruence. congruence.
  - exact IH.
Qed.

Lemma elem_of_zip_lookup {A B} (l : list A) (k : list B) x y :
  (x, y) ∈ zip l k ↔ ∃ i, l !! i = Some x ∧ k !! i = Some y.
Proof.
  rewrite list_elem_of_lookup. split; intros [i Hi]; exists i.
  - by apply lookup_zip_Some in Hi.
  - by apply lookup_zip_Some.
Qed.

Lemma omap_total {A B} (f : A → option B) l :
  (∀ x, x ∈ l → is_Some (f x)) →
  length (omap f l) = length l ∧ ∀ i, omap f l !! i = x ← l !! i; f x.
Proof.
  induction l as [|x l IH]; intros Hf; [done|]. destruct (Hf x) as [y Hy]; [left|].
  destruct IH as [Hl Hi]; [intros z Hz; apply Hf; by right|].
  change (omap f (x :: l)) with (match f x with Some y => y :: omap f l | None => omap f l end).
  rewrite Hy. split; [simpl length; by rewrite Hl|]. by intros [|i]; [|apply Hi].
Qed.

(** Every position has a receipt, and only receipts of that position. *)
Lemma sort_receipts_spec n rs :
  (∀ i, (i < n)%nat → ∃ r, (i, r) ∈ rs) →
  length (sort_receipts n rs) = n ∧ ∀ i r, sort_receipts n rs !! i = Some r → (i, r) ∈ rs.
Proof.
  intros Hcov. unfold sort_receipts.
  set (f := λ i, match list_find (λ p : nat * TransactionReceipt, p.1 = i) rs with
                 | Some (_, p) => Some p.2 | None => None end).
  assert (Hf : ∀ i r, f i = Some r → (i, r) ∈ rs).
  { intros i r. unfold f. destruct (list_find _ rs) as [[k [j x]]|] eqn:Hk; [|done]. intros [= <-].
    apply list_find_Some in Hk as (Hk & Hj & _). simpl in *. subst j. by eapply list_elem_of_lookup_2. }
  destruct (omap_total f (seq 0 n)) as [Hl Hi].
  { intros i Hin. apply elem_of_seq in Hin. destruct (Hcov i) as [r Hr]; [lia|]. unfold f.
    destruct (list_find_elem_of (λ p : nat * TransactionReceipt, p.1 = i) rs (i, r) Hr eq_refl) as [[k p] ->]. eauto. }
  split; [by rewrite Hl, length_seq|]. intros i r. rewrite Hi.
  destruct (seq 0 n !! i) as [j|] eqn:Hj; [|done]. apply lookup_seq in Hj as [-> _]. apply Hf.
Qed.

(** What the receipt of a position destroyed. *)
Definition burned_at (txs : list SignedTransaction) (p : nat * TransactionReceipt) : Z :=
  match txs !! p.1 with Some stx => if r_success p.2 then burned (transaction stx) else 0 | None => 0 end.

Lemma burned_in_positions txs0 txs rs :
  length rs = length txs →
  burned_in txs rs = sumZ (map (burned_at (txs0 ++ txs)) (zip (seq (length txs0) (length txs)) rs)).
Proof.
  revert txs0 rs. induction txs as [|stx txs IH]; intros txs0 [|r rs] Hl; simpl in Hl; try done. unfold burned_in in *. simpl.
  unfold burned_at at 1. simpl. rewrite lookup_app_r, Nat.sub_diag by lia. simpl. f_equal. rewrite (IH (txs0 ++ [stx])) by lia.
  rewrite length_app, Nat.add_1_r, <- app_assoc. done.
Qed.

Lemma burned_at_group (txs : list SignedTransaction) g rs :
  length rs = length g → (∀ i stx, (i, stx) ∈ g → txs !! i = Some stx) →
  burned_in (map snd g) rs = sumZ (map (burned_at txs) (zip (map fst g) rs)).
Proof.
  revert rs. induction g as [|[i stx] g IH]; intros [|r rs] Hl Hin; simpl in Hl; try done. unfold burned_in in *. simpl.
  unfold burned_at at 1. simpl. rewrite (Hin i stx) by left. f_equal. apply IH; [lia|]. intros j x Hx. apply Hin. by right.
Qed.

(** Sorting receipts with distinct positions keeps what they destroyed. *)
Lemma sort_receipts_burned txs rs :
  base.NoDup rs.*1 → (∀ i, (i < length txs)%nat → ∃ r, (i, r) ∈ rs) → (∀ i r, (i, r) ∈ rs → (i < length txs)%nat) →
  burned_in txs (sort_receipts (length txs) rs) = sumZ (map (burned_at txs) rs).
Proof.
  intros Hnd Hcov Hin. destruct (sort_receipts_spec (length txs) rs Hcov) as [Hlen Hsort].
  rewrite (burned_in_positions [] txs) by done. apply sumZ_perm, Permutation_map.
  apply NoDup_Permutation.
  - apply (NoDup_fmap_1 fst). rewrite fst_zip by (rewrite length_seq; lia). apply NoDup_seq.
  - by apply (NoDup_fmap_1 fst).
  - intros [i r]. rewrite elem_of_zip_lookup. split.
    + intros (k & Hk & Hr). apply lookup_seq in Hk as [-> _]. by apply Hsort.
    + intros Hir. pose proof (Hin i r Hir) as Hlt. exists i. split; [by apply lookup_seq|].
      destruct (lookup_lt_is_Some_2 (sort_receipts (length txs) rs) i) as [r' Hr']; [lia|]. rewrite Hr'. f_equal.
      pose proof (Hsort i r' Hr') as Hir'. apply list_elem_of_lookup in Hir as [a Ha], Hir' as [b Hb].
      assert (a = b) as ->; [|congruence]. eapply (list.NoDup_lookup rs.*1); [done|rewrite list_lookup_fmap, Ha; done|by rewrite list_lookup_fmap, Hb].
Qed.

(** ** The grouped path *)

Section Groups.
Context `{AccountStoreLaws St} {CM EV : Type}.
Context (hash_data : list Z → Hash) (verify : list Z → list Z → list Z → bool).
Context (deploy_contract : list Z → list Z → Address → Z → Z → Z → CM →
           Result (Address * list Log) string * CM).
Context (execute_contract : Address → Address → list Z → Z → Z → CM →
           Result (bool * list Z * list Log) string * CM).
Context (simulate_contract : Address → Address → list Z → Z → Z → CM →
           Result (bool * list Z * list Log) string).
Context (clock : option Z).
Implicit Types (s : StateManager St CM EV) (o : gmap Address Account).

Abbreviation loop := (overlay_loop (EV := EV) hash_data verify deploy_contract
  execute_contract simulate_contract clock).
Abbreviation groups := (run_groups (EV := EV) hash_data verify deploy_contract
  execute_contract simulate_contract clock).

Lemma group_loop_eq g o p s :
  group_loop hash_data verify deploy_contract execute_contract simulate_contract clock g o p s =
  let '(rs, o', s') := loop (map snd g) o p s in (zip (map fst g) rs, o', s').
Proof.
  revert o s. induction g as [|[i tx] g IH]; intros o s; simpl; [done|].
  destruct (execute_transaction_overlay _ _ _ _ _ _ tx o p s) as [[[r o']|e] s']; simpl; rewrite IH;
    by destruct (overlay_loop _ _ _ _ _ _ _ _ _ _) as [[rs o2] s2].
Qed.

Lemma merge_fold_spec m l Om s :
  NoDup (map fst l) → coherent s → stored s = m →
  let '(Om', s') := foldl (λ st kv, merge_one kv st) (Om, s) l in
  kept s s' ∧ ∀ b, Om' !! b = merged_lookup m Om (list_to_map l) b.
Proof.
  intros Hnd Hc Hm. revert Om s Hc Hm. induction l as [|[k x] l IH]; intros Om s Hc Hm; cbn [foldl].
  { split; [done|]. intros b. unfold merged_lookup. simpl. by rewrite lookup_empty. }
  simpl in Hnd. apply list.NoDup_cons in Hnd as [Hk Hnd].
  assert (Hone : ∃ O1 s1, merge_one (k, x) (Om, s) = (O1, s1) ∧ kept s s1 ∧
    O1 !! k = merged_lookup m Om {[k := x]} k ∧ ∀ b, b ≠ k → O1 !! b = Om !! b).
  { unfold merge_one, merged_lookup. simpl. rewrite lookup_singleton_eq. destruct (Om !! k) as [e|] eqn:He.
    - unfold base_account. destruct (get_account_spec k s Hc) as (s1 & -> & Hk1 & _).
      rewrite Hm. eexists _, s1. split; [done|]. split; [done|]. split; [apply lookup_insert_eq|].
      intros b Hb. by apply lookup_insert_ne.
    - eexists _, s. split; [done|]. split; [done|]. split; [apply lookup_insert_eq|].
      intros b Hb. by apply lookup_insert_ne. }
  destruct Hone as (O1 & s1 & -> & Hk1 & Hat & Hoth).
  assert (Hs1 : stored s1 = m) by (by rewrite (kept_stored _ _ Hk1)).
  specialize (IH Hnd O1 s1 (proj2 Hk1 Hc) Hs1).
  destruct (foldl _ (O1, s1) l) as [Om' s']. destruct IH as [Hk2 Hl]. split; [by eapply kept_trans|].
  intros b. rewrite Hl. unfold merged_lookup. simpl. destruct (decide (b = k)) as [->|Hne].
  - rewrite (not_elem_of_list_to_map_1 l k) by done. rewrite Hat. unfold merged_lookup.
    by rewrite lookup_singleton_eq, lookup_insert_eq.
  - by rewrite (lookup_insert_ne _ k b) by done; rewrite Hoth.
Qed.

(** The groups of distinct senders merge into one advanced ledger. *)
Lemma merge_overlays_spec m senders os s :
  ledger_ok m → coherent s → stored s = m → NoDup senders →
  Forall2 (λ a o, advanced (λ b, b = a) m (o ∪ m)) senders os →
  let '(Om, s') := merge_overlays os s in
  kept s s' ∧ advanced (λ b, b ∈ senders) m (Om ∪ m) ∧
  total m - total (Om ∪ m) = sumZ (map (λ o, total m - total (o ∪ m)) os) ∧
  ∀ o, o ∈ os → ∀ b, Account.nonce (acc_of (o ∪ m) b) ≤ Account.nonce (acc_of (Om ∪ m) b).
Proof.
  intros Hm Hc Hst Hnd Hall. unfold merge_overlays.
  assert (Hgen : ∀ P Om s, coherent s → stored s = m → advanced P m (Om ∪ m) → (∀ a, a ∈ senders → ¬ P a) →
    let '(Om', s') := foldl (λ st o, foldl (λ st kv, merge_one kv st) st (map_to_list o)) (Om, s) os in
    kept s s' ∧ advanced (λ b, b ∈ senders ∨ P b) m (Om' ∪ m) ∧
    total (Om ∪ m) - total (Om' ∪ m) = sumZ (map (λ o, total m - total (o ∪ m)) os) ∧
    (∀ b, Account.nonce (acc_of (Om ∪ m) b) ≤ Account.nonce (acc_of (Om' ∪ m) b)) ∧
    ∀ o, o ∈ os → ∀ b, Account.nonce (acc_of (o ∪ m) b) ≤ Account.nonce (acc_of (Om' ∪ m) b)).
  { clear s Hc Hst. induction Hall as [|a o senders os Ho Hall IH]; intros P Om s Hc Hst HO HP; simpl.
    { split; [done|]. split; [eapply advanced_weaken; [done|tauto]|]. split; [lia|]. split; [done|set_solver]. }
    apply list.NoDup_cons in Hnd as [Ha Hnd].
    pose proof (merge_fold_spec m (map_to_list o) Om s (NoDup_fst_map_to_list o) Hc Hst) as Hf.
    rewrite list_to_map_to_list in Hf.
    destruct (foldl _ (Om, s) (map_to_list o)) as [O1 s1]. destruct Hf as [Hk1 Hl1].
    destruct (merge_advanced P a m Om o O1 Hm HO Ho (HP a ltac:(set_solver)) Hl1) as (HO1 & Ht1 & Hn1).
    specialize (IH Hnd (λ b, b = a ∨ P b) O1 s1 (proj2 Hk1 Hc)).
    rewrite (kept_stored _ _ Hk1) in IH. specialize (IH Hst HO1).
    destruct (foldl _ (O1, s1) os) as [Om' s']. destruct IH as (Hk2 & HO' & Htot & Hmono & Hin).
    { intros b Hb [->|HPb]; [done|]. by apply (HP b); [set_solver|]. }
    split; [by eapply kept_trans|]. split; [|split; [lia|split]].
    - eapply advanced_weaken; [exact HO'|]. intros b. set_solver.
    - intros b. specialize (Hmono b). specialize (Hn1 b). lia.
    - intros o' [->|Ho']%elem_of_cons b; [|by apply Hin]. specialize (Hmono b). specialize (Hn1 b). lia. }
  specialize (Hgen (λ _, False) ∅ s Hc Hst). rewrite (left_id_L ∅ (∪)) in Hgen.
  destruct (foldl _ (∅, s) os) as [Om s']. destruct Hgen as (Hk & HO & Ht & _ & Hin); [by apply advanced_refl|tauto|].
  split; [done|]. split; [|done]. eapply advanced_weaken; [exact HO|]. intros b [?|[]]; done.
Qed.

(** What the receipt of position [i] says. *)
Definition receipt_ok (m : gmap Address Account) (os : list (gmap Address Account))
    (txs : list SignedTransaction) (i : nat) (r : TransactionReceipt) : Prop :=
  ∃ stx, txs !! i = Some stx ∧ (r_success r = true →
    validate_static hash_data verify (transaction stx) = Ok () ∧
    ∃ o, o ∈ os ∧ nonce (transaction stx) < Account.nonce (acc_of (o ∪ m) (from (transaction stx)))).

Lemma run_groups_spec m txs senders p s :
  coherent s → stored s = m → ledger_ok m → Forall tx_fine txs →
  let '(rs, os, s') := groups txs senders p s in
  kept s s' ∧ Forall2 (λ a o, advanced (λ b, b = a) m (o ∪ m)) senders os ∧
  sumZ (map (λ o, total m - total (o ∪ m)) os) = sumZ (map (burned_at txs) rs) ∧
  rs.*1 = concat (map (λ a, (group_of txs a).*1) senders) ∧
  (∀ i r, (i, r) ∈ rs → receipt_ok m os txs i r) ∧
  (∀ i stx, txs !! i = Some stx → from (transaction stx) ∈ senders → ∃ r, (i, r) ∈ rs).
Proof.
  intros Hc Hst Hm Hall. revert s Hc Hst. induction senders as [|a senders IH]; intros s Hc Hst; simpl.
  { split_and!; try done; set_solver. }
  rewrite group_loop_eq. set (g := group_of txs a).
  assert (Hg : Forall tx_fine (map snd g)).
  { apply list.Forall_fmap, list.Forall_forall. intros [i x] Hx. apply elem_of_group in Hx as [Hx _].
    rewrite list.Forall_lookup in Hall. by apply (Hall i). }
  pose proof (loop_spec hash_data verify deploy_contract execute_contract simulate_contract clock
    (map snd g) ∅ p s Hc) as Hloop. unfold ledger in Hloop. rewrite (left_id_L ∅ (∪)), Hst in Hloop.
  specialize (Hloop Hm Hg). destruct (loop (map snd g) ∅ p s) as [[rs o] s1].
  destruct Hloop as [Hk1 [Hadv Htot Hlen Hsuc]]. rewrite length_map in Hlen.
  assert (Hs1 : stored s1 = m) by (by rewrite (kept_stored _ _ Hk1)).
  specialize (IH s1 (proj2 Hk1 Hc) Hs1). destruct (groups txs senders p s1) as [[rs' os] s2].
  destruct IH as (Hk2 & Hos & Hsum & Hpos & Hrs & Hcov). split_and!.
  - by eapply kept_trans.
  - constructor; [|done]. eapply advanced_weaken; [exact Hadv|]. intros b Hb.
    rewrite map_map in Hb. apply list_elem_of_fmap in Hb as ([i x] & -> & Hx).
    by apply elem_of_group in Hx as [_ <-].
  - simpl. rewrite map_app, sumZ_app, <- Hsum, Htot, (burned_at_group txs g rs) by (done || by intros i x [Hx _]%elem_of_group). lia.
  - simpl. rewrite fmap_app, Hpos. f_equal. setoid_rewrite fst_zip; [done|]. rewrite length_map. lia.
  - intros i r [Hir|Hir]%elem_of_app.
    + apply elem_of_zip_lookup in Hir as (k & Hi & Hr). apply list_lookup_fmap_Some in Hi as ([j x] & -> & Hgk).
      pose proof (list_elem_of_lookup_2 _ _ _ Hgk) as Hx. apply elem_of_group in Hx as [Hx _]. exists x.
      split; [done|]. intros Hr'. destruct (Hsuc k x r) as [? ?]; [|done|done|].
      { by rewrite list_lookup_fmap, Hgk. }
      split; [done|]. exists o. split; [left|done].
    + destruct (Hrs i r Hir) as (x & Hx & Hok). exists x. split; [done|]. intros Hr.
      destruct (Hok Hr) as (? & o' & Ho' & ?). split; [done|]. exists o'. split; [by right|done].
  - intros i x Hx [Ha|Hin]%elem_of_cons; [|destruct (Hcov i x Hx Hin) as [r Hr]; exists r; set_solver].
    assert (Hig : (i, x) ∈ g) by (by apply elem_of_group). apply list_elem_of_lookup in Hig as [k Hk].
    destruct (lookup_lt_is_Some_2 rs k) as [r Hr].
    { rewrite Hlen. by eapply lookup_lt_Some. }
    exists r. apply elem_of_app; left. apply elem_of_zip_lookup. exists k. by rewrite list_lookup_fmap, Hk.
Qed.

(** A block and the order in which its groups are visited: every sender once. *)
Record block_fine (b : list SignedTransaction * list Address) : Prop := {
  blk_txs : Forall tx_fine b.1;
  blk_nodup : NoDup b.2;
  blk_senders : ∀ a, a ∈ b.2 ↔ a ∈ map (λ stx, from (transaction stx)) b.1
}.

(** Both paths: an overlay that advances the ledger, and one receipt for each
    transaction. *)
Lemma execution_spec txs senders p s :
  coherent s → ledger_ok (stored s) → block_fine (txs, senders) →
  ∃ rs o s1, kept s s1 ∧ run_result hash_data verify txs rs (stored s) (ledger o s) ∧
    execute_transactions_overlay hash_data verify deploy_contract execute_contract simulate_contract clock
      txs senders p s =
    (root <-? compute_state_root_with_overlay hash_data o;
     returns (mkExecution root rs (sort_by_address (map_to_list o).*2))) s1.
Proof.
  intros Hc Hm [Htx Hnd Hsend]. simpl in *. unfold execute_transactions_overlay.
  destruct (length txs <=? 8)%nat.
  - unfold execute_transactions_overlay_sequential.
    pose proof (loop_spec hash_data verify deploy_contract execute_contract simulate_contract clock
      txs ∅ p s Hc) as Hloop. unfold ledger in Hloop at 1 2. rewrite (left_id_L ∅ (∪)) in Hloop.
    specialize (Hloop Hm Htx). destruct (loop txs ∅ p s) as [[rs o] s1]. destruct Hloop as [Hk Hr].
    by exists rs, o, s1.
  - pose proof (run_groups_spec (stored s) txs senders p s Hc eq_refl Hm Htx) as Hg.
    destruct (groups txs senders p s) as [[rs os] s1]. destruct Hg as (Hk1 & Hos & Hsum & Hpos & Hrs & Hcov).
    pose proof (merge_overlays_spec (stored s) senders os s1 Hm (proj2 Hk1 Hc) (kept_stored _ _ Hk1) Hnd Hos) as Hmg.
    destruct (merge_overlays os s1) as [o s2]. destruct Hmg as (Hk2 & Hadv & Htot & Hn).
    assert (Hall : ∀ i, (i < length txs)%nat → ∃ r, (i, r) ∈ rs).
    { intros i Hi. destruct (lookup_lt_is_Some_2 txs i Hi) as [x Hx]. apply (Hcov i x Hx), Hsend.
      apply list_elem_of_fmap. exists x. split; [done|]. by eapply list_elem_of_lookup_2. }
    destruct (sort_receipts_spec (length txs) rs Hall) as [Hlen Hsort].
    assert (Hburn : burned_in txs (sort_receipts (length txs) rs) = sumZ (map (burned_at txs) rs)).
    { apply sort_receipts_burned; [rewrite Hpos; by apply NoDup_groups|done|].
      intros i r Hir. destruct (Hrs i r Hir) as (x & Hx & _). by eapply lookup_lt_Some. }
    exists (sort_receipts (length txs) rs), o, s2. split; [by eapply kept_trans|]. split; [|done].
    split; [|unfold ledger; lia|done|].
    + eapply advanced_weaken; [exact Hadv|]. intros a. apply Hsend.
    + intros i stx r Hi Hr Hs. destruct (Hrs i r (Hsort i r Hr)) as (x & Hx & Hok). simplify_eq.
      destruct (Hok Hs) as (? & o' & Ho' & ?). specialize (Hn o' Ho' (from (transaction stx))). split; [done|].
      unfold ledger. lia.
Qed.
End Groups.

(** ** Blocks of transactions *)

Section Blocks.
Context `{AccountStoreLaws St} {CM EV : Type}.
Context (hash_data : list Z → Hash) (verify : list Z → list Z → list Z → bool).
Context (deploy_contract : list Z → list Z → Address → Z → Z → Z → CM →
           Result (Address * list Log) string * CM).
Context (execute_contract : Address → Address → list Z → Z → Z → CM →
           Result (bool * list Z * list Log) string * CM).
Context (simulate_contract : Address → Address → list Z → Z → Z → CM →
           Result (bool * list Z * list Log) string).
Context (clock : option Z).
Implicit Types (s : StateManager St CM EV) (o : gmap Address Account).

Abbreviation exec := (execute_transaction_overlay (EV := EV) hash_data verify deploy_contract
  execute_contract simulate_contract clock).
Abbreviation loop := (overlay_loop (EV := EV) hash_data verify deploy_contract
  execute_contract simulate_contract clock).
Abbreviation atomically := (apply_transactions_atomically (EV := EV) hash_data verify deploy_contract
  execute_contract simulate_contract clock).

(** The invariant between blocks. *)
Record settled s : Prop := {
  stl_coherent : coherent s;
  stl_index : index_ok hash_data s;
  stl_ledger : ledger_ok (stored s)
}.

Definition apply_blocks (bs : list (list SignedTransaction * list Address)) s : StateManager St CM EV :=
  foldl (λ s b, (atomically b.1 b.2 s).2) s bs.

(** What applying a block does: all of it, or, when the store refuses to list or write the accounts,
    nothing to the ledger and its root. *)
Lemma atomically_cases txs senders s :
  settled s → block_fine (txs, senders) →
  let '(r, s') := atomically txs senders s in
  settled s' ∧ (store_reliable St → is_ok r) ∧
  match r with
  | Ok e => run_result hash_data verify txs (ex_receipts e) (stored s) (stored s') ∧
      state_root s' = root_of hash_data (stored s') ∧ ex_state_root e = state_root s'
  | Err e => (∃ m, e = StorageError m) ∧ stored s' = stored s
  end.
Proof.
  intros [Hc Hi Hl] Hb.
  destruct (execution_spec hash_data verify deploy_contract execute_contract simulate_contract clock
    txs senders true s Hc Hl Hb) as (rs & o & s1 & Hk & Hr & Hex).
  unfold apply_transactions_atomically, prepare_transactions, bindM. rewrite Hex. unfold bindM.
  pose proof (adv_ok _ _ _ (run_advanced _ _ _ _ _ _ Hr)) as Hok.
  assert (Ho : keyed o).
  { intros a x Ha. apply (lok_address _ Hok). unfold ledger. by apply lookup_union_Some_l. }
  pose proof (root_with_overlay_cases hash_data o s1) as Hroot.
  destruct (compute_state_root_with_overlay hash_data o s1) as [root s2].
  destruct Hroot as (Hst2 & Hc2 & Hi2 & _ & _ & Hrel2 & Hroot).
  { rewrite (kept_stored _ _ Hk). exact (lok_address _ Hl). }
  { done. } { by eapply kept_index_ok. } { by apply Hk. }
  assert (Hkeep : stored s2 = stored s) by (unfold stored; by rewrite Hst2, (proj1 (proj1 Hk))).
  destruct root as [root|e]; [subst root|split; [split; [done..|by rewrite Hkeep]|done]].
  rewrite (ledger_kept o s s1 Hk). unfold returns.
  pose proof (commit_cases hash_data (root_of hash_data (ledger o s)) rs o s2 Ho Hi2 Hc2) as Hcm.
  destruct (commit_execution hash_data _ s2) as [[[]|e] s']; destruct Hcm as (Hc' & Hi' & _ & Hrel & Hcm).
  - destruct Hcm as [Hst Hrt]. assert (Hled : ledger o s2 = ledger o s) by (unfold ledger; by rewrite Hkeep).
    rewrite Hled in Hst. split; [split; [done..|by rewrite Hst]|]. split; [done|]. simpl. by rewrite Hst, Hrt.
  - destruct Hcm as (He & Hst & Hrt). split; [split; [done..|by rewrite Hst, Hkeep]|]. split; [done|]. split; [done|congruence].
Qed.

Lemma atomically_spec txs senders s :
  store_reliable St → settled s → block_fine (txs, senders) →
  ∃ e s', atomically txs senders s = (Ok e, s') ∧ settled s' ∧
    run_result hash_data verify txs (ex_receipts e) (stored s) (stored s') ∧
    state_root s' = root_of hash_data (stored s') ∧ ex_state_root e = state_root s'.
Proof.
  intros Hrel Hs Hb. pose proof (atomically_cases txs senders s Hs Hb) as Hc.
  destruct (atomically txs senders s) as [[e|e] s']; destruct Hc as (? & Hok & Hc); [by exists e, s'; destruct Hc as (? & ? & ?)|by specialize (Hok Hrel)].
Qed.

Lemma blocks_settled bs s :
  settled s → Forall block_fine bs →
  settled (apply_blocks bs s) ∧
  ∀ a, Account.nonce (acc_of (stored s) a) ≤ Account.nonce (acc_of (stored (apply_blocks bs s)) a).
Proof.
  intros Hs Hbs. unfold apply_blocks. revert s Hs.
  induction Hbs as [|[txs senders] bs Hb Hbs IH]; intros s Hs; simpl; [done|].
  pose proof (atomically_cases txs senders s Hs Hb) as Hc.
  destruct (atomically txs senders s) as [r s']. destruct Hc as (Hs' & _ & Hc). simpl.
  destruct (IH s' Hs') as [Hset Hm]. split; [done|]. intros a. specialize (Hm a).
  destruct r as [e|e]; [|by destruct Hc as [_ <-]]. destruct Hc as [[Hadv _ _ _] _].
  pose proof (adv_nonce _ _ _ Hadv a). lia.
Qed.

(** A transaction with an old nonce is refused. *)
Lemma stale_refused stx o p s :
  coherent s → validate_static hash_data verify (transaction stx) = Ok () →
  nonce (transaction stx) < Account.nonce (acc_of (ledger o s) (from (transaction stx))) →
  ∃ s', exec stx o p s =
    (Err (InvalidNonce (Account.nonce (acc_of (ledger o s) (from (transaction stx))))
       (nonce (transaction stx))), s').
Proof.
  intros Hc Hv Hn. unfold execute_transaction_overlay, validate_transaction_against_overlay, bindM, lift.
  rewrite Hv. destruct (overlay_account_spec o (from (transaction stx)) s Hc) as (s' & -> & _).
  unfold check_nonce. destruct (Z.eqb_spec (nonce (transaction stx))
    (Account.nonce (acc_of (ledger o s) (from (transaction stx))))); [lia|]. eauto.
Qed.

(** C1. Atomic execution of a block.  From a state whose cache and hash index
    agree with the store and whose ledger is well-formed, apply a block of any
    transactions, sequentially or in groups by sender that are merged in any order,
    over a store whose reads succeed.  Either the call returns, with one receipt per
    transaction (failed transactions have failure receipts): then everything owned (balances plus stakes) is what it
    was, less exactly the stake that successful transactions transferred from an
    account to itself; no nonce decreases; accounts that sent nothing lose
    nothing; and the state root is the sparse Merkle root of exactly the accounts then
    stored.  Or it fails with a storage error and the stored accounts are what they
    were.  In both cases the invariant holds after it, and it returns whenever the store
    can be listed and written. *)
Theorem atomic_execution_conserves txs senders s :
  settled s → block_fine (txs, senders) →
  let '(r, s') := atomically txs senders s in
  settled s' ∧ (store_reliable St → is_ok r) ∧
  match r with
  | Ok e =>
      total (stored s') = total (stored s) - burned_in txs (ex_receipts e) ∧
      advanced (λ a, a ∈ map (λ stx, from (transaction stx)) txs) (stored s) (stored s') ∧
      length (ex_receipts e) = length txs ∧
      state_root s' = root_of hash_data (stored s') ∧ ex_state_root e = state_root s'
  | Err e => (∃ m, e = StorageError m) ∧ stored s' = stored s
  end.
Proof.
  intros Hs Hb. pose proof (atomically_cases txs senders s Hs Hb) as Hc.
  destruct (atomically txs senders s) as [[e|e] s']; destruct Hc as (Hs' & Hrel & Hc); [|done].
  destruct Hc as ([Ha Ht Hl _] & Hr). done.
Qed.

(** C2. A transaction cannot be replayed: once a block gave it a receipt of
    success, then after that block, after any number of further blocks, of whatever
    transactions and even where the store refuses to write some of them, and after
    any transactions of the current one, executing it again is refused with
    [InvalidNonce], and the nonce it carries is below the expected one.  The reads
    of the store succeed. *)
Theorem replay_rejected txs senders blocks txs' p s i stx r e s1 :
  settled s → block_fine (txs, senders) → Forall block_fine blocks → Forall tx_fine txs' →
  atomically txs senders s = (Ok e, s1) →
  txs !! i = Some stx → ex_receipts e !! i = Some r → r_success r = true →
  let '(_, o, s2) := loop txs' ∅ p (apply_blocks blocks s1) in
  ∃ n s3, nonce (transaction stx) < n ∧
    exec stx o p s2 = (Err (InvalidNonce n (nonce (transaction stx))), s3).
Proof.
  intros Hs Hb Hbs Htxs' Hat Hi Hr Hsuc.
  pose proof (atomically_cases txs senders s Hs Hb) as Hc. rewrite Hat in Hc. destruct Hc as (Hs' & _ & [_ _ _ Hok] & _).
  destruct (Hok i stx r Hi Hr Hsuc) as [Hval Hlt].
  destruct (blocks_settled blocks s1 Hs' Hbs) as [[Hc _ Hl] Hmono].
  specialize (Hmono (from (transaction stx))). set (sb := apply_blocks blocks s1) in *.
  pose proof (loop_spec hash_data verify deploy_contract execute_contract simulate_contract clock
    txs' ∅ p sb Hc) as Hloop. unfold ledger in Hloop at 1 2. rewrite (left_id_L ∅ (∪)) in Hloop.
  specialize (Hloop Hl Htxs'). destruct (loop txs' ∅ p sb) as [[rs' o'] s2]. destruct Hloop as [Hk [Hadv _ _ _]].
  pose proof (adv_nonce _ _ _ Hadv (from (transaction stx))) as Hm2.
  destruct (stale_refused stx o' p s2 (proj2 Hk Hc) Hval) as [s3 Hex]; rewrite (ledger_kept o' sb s2 Hk) in *; [lia|].
  eexists _, s3. split; [|exact Hex]. lia.
Qed.
End Blocks.

(** ** A store in memory, and concrete runs *)

#[export] Instance map_store : AccountStore (gmap Address Account) := {
  acct_get a m := Ok (m !! a);
  acct_put_batch l m := (Ok (), write_accounts l m);
  acct_iter m := Ok (map_to_list m).*2
}.

#[export] Instance map_store_laws : AccountStoreLaws (gmap Address Account).
Proof. refine {| acct_view m := m |}; try done. by intros m l [= <-]. Defined.

Lemma map_store_reliable : store_reliable (gmap Address Account).
Proof. split; [done|]. intros s. by eexists. Qed.

Module Sample.
Definition hash_data (l : list Z) : Hash := Z.of_nat (length l).
Definition verify (pk msg sig : list Z) : bool := true.
Definition deploy_contract (c d : list Z) (a : Address) (n t i : Z) (m : ()) : Result (Address * list Log) string * () :=
  (Ok (99, []), m).
Definition execute_contract (c a : Address) (d : list Z) (t i : Z) (m : ())
    : Result (bool * list Z * list Log) string * () := (Ok (true, [], []), m).
Definition simulate_contract (c a : Address) (d : list Z) (t i : Z) (m : ())
    : Result (bool * list Z * list Log) string := Ok (true, [], []).
Definition evm_deploy (a : Address) (n v : Z) (c : list Z) (u i : Z) (m : ())
    : Result (option Address * option (list Z) * list Log) string * () := (Err "no engine"%string, m).
Definition evm_call (a c : Address) (v : Z) (d : list Z) (u i : Z) (m : ())
    : Result (bool * list Z * list Log) string * () := (Err "no engine"%string, m).

(** An account with 100 free and 50 staked. *)
Definition owner : Account := mkAccount 1 100 0 None 0 50 false.
Definition state (c : option ValidatorSet) : StateManager (gmap Address Account) () () :=
  mkState {[1 := owner]} ∅ ∅ 0 None 0 0 (Some ()) None c.
Definition tx (ty : TransactionType) (to v : Z) (data : list Z) : SignedTransaction :=
  mkSigned (mkTransaction ty 1 to v 0 1000 None Qvm data 0 0 [] [7] 1) 5 0.

Lemma sample_ledger_ok : ledger_ok {[1 := owner]}.
Proof.
  split; [..|by vm_compute]; intros a x Hx; apply lookup_singleton_Some in Hx as [<- <-]; by vm_compute.
Qed.

Lemma sample_coherent c : coherent (state c).
Proof. intros a x. simpl. by rewrite lookup_empty. Qed.

Lemma sample_settled c : settled hash_data (state c).
Proof. split; [apply sample_coherent|intros i; done|apply sample_ledger_ok]. Qed.
End Sample.

(** Ten transactions of one account, the first a stake transfer to itself: the grouped path. *)
Definition ten : list SignedTransaction := Sample.tx StakeTransfer 1 20 [] :: replicate 9 (Sample.tx Transfer 2 30 []).

Lemma atomic_execution_conserves_witness :
  let run := apply_transactions_atomically Sample.hash_data Sample.verify Sample.deploy_contract
      Sample.execute_contract Sample.simulate_contract None ten [1] (Sample.state None) in
  ∃ e, run.1 = Ok e ∧ total (stored run.2) = 150 - burned_in ten (ex_receipts e) ∧ length (ex_receipts e) = 10%nat ∧
    burned_in ten (ex_receipts e) = 20 ∧ state_root run.2 = root_of Sample.hash_data (stored run.2).
Proof.
  intros run. pose proof (atomic_execution_conserves Sample.hash_data Sample.verify Sample.deploy_contract
    Sample.execute_contract Sample.simulate_contract None ten [1] (Sample.state None)) as Hw.
  assert (Hb : (match run.1 with Ok e => burned_in ten (ex_receipts e) | Err _ => 20 end) = 20).
  { unfold run, apply_transactions_atomically, prepare_transactions, execute_transactions_overlay, compute_state_root_with_overlay.
    generalize (state_smt_root Sample.hash_data). intros root. vm_compute. reflexivity. }
  unfold run in *. destruct (apply_transactions_atomically _ _ _ _ _ _ _ _ _) as [r s'].
  destruct Hw as (_ & Hok & Hr).
  - apply Sample.sample_settled.
  - split; simpl; [repeat constructor; done|apply NoDup_singleton|]. intros a. set_solver.
  - simpl in *. specialize (Hok map_store_reliable). destruct r as [e|]; [|done]. exists e. destruct Hr as (Ht & _ & Hl & Hr & _).
    split_and!; [reflexivity|rewrite Ht; f_equal; by vm_compute|exact Hl|exact Hb|exact Hr].
Defined.

Lemma replay_rejected_witness :
  let run := apply_transactions_atomically Sample.hash_data Sample.verify Sample.deploy_contract
    Sample.execute_contract Sample.simulate_contract None [Sample.tx Transfer 2 30 []] [1] (Sample.state None) in
  ∃ n s3, 0 < n ∧
    execute_transaction_overlay Sample.hash_data Sample.verify Sample.deploy_contract
      Sample.execute_contract Sample.simulate_contract None (Sample.tx Transfer 2 30 []) ∅ true run.2 =
    (Err (InvalidNonce n 0), s3).
Proof.
  intros run.
  pose proof (replay_rejected Sample.hash_data Sample.verify Sample.deploy_contract
    Sample.execute_contract Sample.simulate_contract None [Sample.tx Transfer 2 30 []] [1] [] [] true
    (Sample.state None) 0 (Sample.tx Transfer 2 30 [])
    (success_receipt (Sample.tx Transfer 2 30 []) [] 2)
    (match run.1 with Ok e => e | Err _ => mkExecution 0 [] [] end) run.2) as Hrep.
  apply Hrep; try done.
  - apply Sample.sample_settled.
  - split; simpl; [repeat constructor; done|apply NoDup_singleton|]. intros a. set_solver.
Defined.

