(* ===== verification/StateAnomalies.v ===== *)
(** * The state manager: anomalies

    Transactions that do not do what they mean to: transfers of an account to
    itself on the two execution paths, and the side effect of simulating a
    validator registration. *)

From S2P Require Import Prelude Bytes Account Validators Smt Transaction State StateLedger StateBlocks.

(** ** Transactions that do not do what they mean to *)

(** Registering a validator twice fails the second time. *)
Lemma register_again v set set' :
  register_validator v set = (Ok (), set') → ∃ e, register_validator v set' = (Err e, set').
Proof.
  unfold register_validator. destruct (stake v =? 0); [done|]. destruct (_ <? stake v); [done|].
  intros Hadd. assert (Hin : v ∈ validators set').
  { unfold add_validator in Hadd. repeat case_match; simplify_eq. simpl. set_solver. }
  unfold add_validator. case_match; [by eexists|].
  assert (Hex : existsb (λ w, address w =? address v) (validators set') = true).
  { apply existsb_exists. exists v. by rewrite <- list_elem_of_In, Z.eqb_refl. }
  rewrite Hex. by eexists.
Qed.

Section Anomalies.
Context `{AccountStoreLaws St} {CM EV : Type}.
Context (hash_data : list Z → Hash) (verify : list Z → list Z → list Z → bool).
Context (deploy_contract : list Z → list Z → Address → Z → Z → Z → CM →
           Result (Address * list Log) string * CM).
Context (execute_contract : Address → Address → list Z → Z → Z → CM →
           Result (bool * list Z * list Log) string * CM).
Context (simulate_contract : Address → Address → list Z → Z → Z → CM →
           Result (bool * list Z * list Log) string).
Context (evm_deploy : Address → Z → Z → list Z → Z → Z → EV →
           Result (option Address * option (list Z) * list Log) string * EV).
Context (evm_call : Address → Address → Z → list Z → Z → Z → EV →
           Result (bool * list Z * list Log) string * EV).
Context (clock : option Z).
Implicit Types (s : StateManager St CM EV) (o : gmap Address Account).

Abbreviation exec := (execute_transaction_overlay (EV := EV) hash_data verify deploy_contract
  execute_contract simulate_contract clock).
Abbreviation apply := (apply_transaction hash_data verify deploy_contract execute_contract
  evm_deploy evm_call clock).

(** A valid transaction of an account to itself, next in line. *)
Record to_itself (ty : TransactionType) (stx : SignedTransaction) (m : gmap Address Account) : Prop := {
  tsl_type : tx_type (transaction stx) = ty;
  tsl_self : to (transaction stx) = from (transaction stx);
  tsl_valid : validate_static hash_data verify (transaction stx) = Ok ();
  tsl_nonce : nonce (transaction stx) = Account.nonce (acc_of m (from (transaction stx)));
  tsl_amount : 0 ≤ amount (transaction stx)
}.

Lemma self_transfer_step stx s :
  let tx := transaction stx in
  store_reliable St → coherent s → ledger_ok (stored s) → to_itself Transfer stx (stored s) →
  amount tx ≤ Account.balance (acc_of (stored s) (from tx)) →
  total (stored s) + amount tx ≤ u128_max → nonce tx < u64_max →
  ∃ r s', apply stx s = (Ok r, s') ∧ r_success r = true ∧ coherent s' ∧
    stored s' = <[from tx := Account.set_balance
      (Account.balance (acc_of (stored s) (from tx)) + amount tx) (acc_of (stored s) (from tx))]> (stored s).
Proof.
  intros tx Hrel Hc Hl [Hty Hself Hval Hnonce Hpos] Hle Htot Hn. fold tx in Hty, Hself, Hval, Hnonce, Hpos.
  unfold apply_transaction, validate_transaction, bindM, lift. fold tx. rewrite Hval.
  destruct (get_account_spec (from tx) s Hc) as (s1 & -> & Hk1 & _). unfold check_nonce.
  rewrite Hnonce, Z.eqb_refl, Hself.
  destruct (get_account_spec (from tx) s1 (proj2 Hk1 Hc)) as (s2 & -> & Hk2 & _).
  destruct (get_account_spec (from tx) s2 (proj2 Hk2 (proj2 Hk1 Hc))) as (s3 & -> & Hk3 & _).
  rewrite (kept_stored _ _ Hk2), (kept_stored _ _ Hk1). set (x := acc_of (stored s) (from tx)) in *.
  unfold apply_effect, bindM, require. rewrite Hty.
  unfold sub_balance, checked_sub. rewrite (proj2 (Z.ltb_ge _ _) Hle). simpl.
  pose proof (worth_le_total (stored s) (from tx) Hl) as Hw. fold x in Hw. unfold worth in Hw.
  pose proof (acc_of_nonneg (stored s) (from tx) Hl) as [Hb Hs]. fold x in Hb, Hs.
  unfold add_balance, checked_add, advance_nonce, increment_nonce, checked_add. simpl.
  rewrite (proj2 (Z.leb_le (Account.balance x + amount tx) u128_max)) by lia.
  rewrite (proj2 (Z.leb_le (Account.nonce x + 1) u64_max)) by lia. simpl.
  match goal with |- context [persist_accounts _ ?l s3] =>
    destruct (persist_spec hash_data l s3 Hrel (proj2 Hk3 (proj2 Hk2 (proj2 Hk1 Hc))))
      as (s4 & -> & Hst & Hc4) end.
  eexists _, s4. split; [done|]. split; [done|]. split; [done|]. rewrite Hst.
  rewrite (kept_stored _ _ Hk3), (kept_stored _ _ Hk2), (kept_stored _ _ Hk1).
  unfold write_accounts. simpl. assert (Haddr : Account.address x = from tx) by (by apply acc_of_address).
  rewrite Haddr. by rewrite insert_insert_eq.
Qed.

(** On the direct path ([apply_transaction]) a transfer of an account to
    itself mints money: sender and recipient are two copies of the same account
    and the recipient's, written last, keeps the credit and the old nonce.  The
    very same signed transaction therefore succeeds again and again: after [n]
    applications the total supply has grown by [n] times the amount and the nonce
    is still the one the transaction carries. *)
Theorem self_transfer_mints n stx s :
  let tx := transaction stx in
  store_reliable St → coherent s → ledger_ok (stored s) → to_itself Transfer stx (stored s) →
  amount tx ≤ Account.balance (acc_of (stored s) (from tx)) →
  total (stored s) + Z.of_nat n * amount tx ≤ u128_max → nonce tx < u64_max →
  let s' := Nat.iter n (λ s, (apply stx s).2) s in
  total (stored s') = total (stored s) + Z.of_nat n * amount tx ∧
  Account.balance (acc_of (stored s') (from tx)) =
    Account.balance (acc_of (stored s) (from tx)) + Z.of_nat n * amount tx ∧
  Account.nonce (acc_of (stored s') (from tx)) = nonce tx ∧
  (n ≠ 0%nat → ∃ r, (apply stx (Nat.iter (pred n) (λ s, (apply stx s).2) s)).1 = Ok r ∧ r_success r = true).
Proof.
  intros tx Hrel Hc Hl Hself Hle Htot Hn. cbv zeta.
  assert (Hpos := tsl_amount _ _ _ Hself). fold tx in Hpos.
  assert (Hgen : ∀ k, (k ≤ n)%nat → let s' := Nat.iter k (λ s, (apply stx s).2) s in
    coherent s' ∧ ledger_ok (stored s') ∧ total (stored s') = total (stored s) + Z.of_nat k * amount tx ∧
    Account.balance (acc_of (stored s') (from tx)) =
      Account.balance (acc_of (stored s) (from tx)) + Z.of_nat k * amount tx ∧
    Account.nonce (acc_of (stored s') (from tx)) = nonce tx ∧
    (k ≠ 0%nat → ∃ r, (apply stx (Nat.iter (pred k) (λ s, (apply stx s).2) s)).1 = Ok r ∧ r_success r = true)).
  { induction k as [|k IH]; intros Hk; cbv zeta.
    { simpl. split_and!; try done; try lia. symmetry. apply Hself. }
    destruct (IH ltac:(lia)) as (Hck & Hlk & Htk & Hbk & Hnk & _). clear IH.
    change (Nat.iter (S k) (λ s, (apply stx s).2) s) with
      ((apply stx (Nat.iter k (λ s, (apply stx s).2) s)).2). simpl pred.
    set (sk := Nat.iter k (λ s, (apply stx s).2) s) in *.
    destruct (self_transfer_step stx sk Hrel Hck Hlk) as (r & s' & Hap & Hr & Hc' & Hst); fold tx.
    - destruct Hself as [? ? ? ? ?]. by split.
    - rewrite Hbk. nia.
    - rewrite Htk. nia.
    - done.
    - fold tx in Hst. rewrite Hap. simpl. pose proof (total_insert (stored sk) (from tx) (Account.set_balance
        (Account.balance (acc_of (stored sk) (from tx)) + amount tx) (acc_of (stored sk) (from tx)))) as Ht.
      unfold worth in Ht. simpl in Ht. rewrite <- Hst in Ht.
      pose proof (acc_of_nonneg (stored sk) (from tx) Hlk) as [Hb Hs].
      assert (Ht' : total (stored s') = total (stored s) + Z.of_nat (S k) * amount tx) by lia.
      split_and!; try done.
      + rewrite Hst. apply ledger_ok_insert; simpl; try done; [by apply acc_of_address|lia|].
        rewrite <- Hst, Ht'. nia.
      + rewrite Hst, acc_of_insert, decide_True by done. simpl. lia.
      + rewrite Hst, acc_of_insert, decide_True by done. simpl. done.
      + intros _. by exists r. }
  destruct (Hgen n ltac:(lia)) as (_ & _ & ? & ? & ? & ?). done.
Qed.

(** On the overlay path a stake transfer of an account to itself destroys
    the stake: it succeeds, and what is owned in total shrinks by the amount. *)
Theorem self_stake_transfer_burns stx o p s :
  let tx := transaction stx in
  coherent s → ledger_ok (ledger o s) → to_itself StakeTransfer stx (ledger o s) →
  amount tx ≤ Account.stake (acc_of (ledger o s) (from tx)) → nonce tx < u64_max →
  ∃ r o' s', exec stx o p s = (Ok (r, o'), s') ∧ r_success r = true ∧
    total (ledger o' s') = total (ledger o s) - amount tx.
Proof.
  intros tx Hc Hl [Hty Hself Hval Hnonce Hpos] Hle Hn. fold tx in Hty, Hself, Hval, Hnonce, Hpos.
  unfold execute_transaction_overlay, validate_transaction_against_overlay, bindM, lift. fold tx. rewrite Hval.
  destruct (overlay_account_spec o (from tx) s Hc) as (s1 & -> & Hk1 & _). unfold check_nonce.
  rewrite Hnonce, Z.eqb_refl, Hself.
  destruct (overlay_account_spec o (from tx) s1 (proj2 Hk1 Hc)) as (s2 & -> & Hk2 & _).
  destruct (overlay_account_spec o (from tx) s2 (proj2 Hk2 (proj2 Hk1 Hc))) as (s3 & -> & Hk3 & _).
  rewrite (ledger_kept o s1 s2 Hk2), (ledger_kept o s s1 Hk1). set (x := acc_of (ledger o s) (from tx)) in *.
  assert (Haddr : Account.address x = from tx) by (by apply acc_of_address).
  unfold overlay_effect, bindM, require. rewrite Hty.
  unfold subtract_stake, checked_sub. rewrite (proj2 (Z.ltb_ge _ _) Hle). simpl.
  unfold advance_nonce, increment_nonce, checked_add. simpl.
  rewrite (proj2 (Z.leb_le (Account.nonce x + 1) u64_max)) by lia. simpl.
  assert (Hd : Account.address (add_stake_direct (amount tx) x) = from tx).
  { unfold add_stake_direct. by case_match. }
  rewrite Hd, Z.eqb_refl. eexists _, _, s3. split; [done|]. split; [done|].
  rewrite (ledger_kept _ s2 s3 Hk3), (ledger_kept _ s1 s2 Hk2), (ledger_kept _ s s1 Hk1).
  rewrite ledger_insert, total_insert, Haddr. fold x. unfold worth. simpl. lia.
Qed.

(** Simulation is not free of side effects: simulating a validator
    registration enters the validator into the shared committee set, so that the
    real execution of the same transaction on the same ledger then fails with
    [RegistrationFailed] and the stake is never locked. *)
Theorem simulated_registration_blocks stx o p s r o1 s1 :
  coherent s → tx_type (transaction stx) = ValidatorRegister → committee_set s ≠ None →
  exec stx o false s = (Ok (r, o1), s1) →
  storage s1 = storage s ∧
  ∃ e s2, exec stx o p s1 = (Err (ExecutionError (RegistrationFailed e)), s2).
Proof.
  intros Hc Hty Hset. set (tx := transaction stx) in *.
  unfold execute_transaction_overlay, validate_transaction_against_overlay, bindM, lift. fold tx.
  destruct (validate_static hash_data verify tx) as [[]|]; [|done].
  destruct (overlay_account_spec o (from tx) s Hc) as (sa & -> & Ka & _ & Ca).
  destruct (check_nonce tx (acc_of (ledger o s) (from tx))) as [[]|] eqn:Hnonce; [|done].
  assert (Hca : coherent sa) by (by apply Ka).
  destruct (overlay_account_spec o (from tx) sa Hca) as (sb & -> & Kb & _ & Cb).
  assert (Hcb : coherent sb) by (by apply Kb).
  destruct (overlay_account_spec o (to tx) sb Hcb) as (sc & -> & Kc & _ & Cc).
  assert (Hcc : coherent sc) by (by apply Kc).
  rewrite (ledger_kept o sa sb Kb), (ledger_kept o s sa Ka). unfold overlay_effect, bindM. rewrite Hty.
  unfold register_effect. rewrite !fail_if_bind. destruct (Z.of_nat (length (data tx)) <? 32) eqn:Hlen; [done|].
  unfold bindM, require, gets. set (x := acc_of (ledger o s) (from tx)).
  destruct (add_stake (amount tx) x) as [[] y] eqn:Hy; [|done]. simpl. rewrite Cc, Cb, Ca.
  destruct (committee_set s) as [set|]; [|done].
  destruct (Validators.new _ _ _ _) as [v|] eqn:Hv; [|done].
  destruct (register_validator _ set) as [[[]|] set'] eqn:Hreg; [|done].
  simpl. unfold modify. destruct (advance_nonce _ _) as [[z|] sz] eqn:Hadv; [|done].
  intros Hok. assert (sz = set_committee (Some set') sc) as ->.
  { unfold advance_nonce in Hadv. destruct (increment_nonce _); unfold returns, throw in Hadv; by simplify_eq. }
  assert (s1 = set_committee (Some set') sc) as -> by (unfold returns in Hok; by simplify_eq/=). clear Hok Hadv.
  assert (Kd : kept s (set_committee (Some set') sc)).
  { eapply kept_trans; [exact Ka|]. eapply kept_trans; [exact Kb|]. eapply kept_trans; [exact Kc|].
    by apply kept_same. }
  split; [apply Kd|].
  assert (Hcd : coherent (set_committee (Some set') sc)) by (by apply Kd).
  destruct (overlay_account_spec o (from tx) _ Hcd) as (ta & -> & La & _ & Da).
  rewrite (ledger_kept o s _ Kd), Hnonce.
  assert (Hta : coherent ta) by (by apply La).
  destruct (overlay_account_spec o (from tx) ta Hta) as (tb & -> & Lb & _ & Db).
  assert (Htb : coherent tb) by (by apply Lb).
  destruct (overlay_account_spec o (to tx) tb Htb) as (tc & -> & Lc & _ & Dc).
  rewrite (ledger_kept o ta tb Lb), (ledger_kept o _ ta La), (ledger_kept o s _ Kd). fold x.
  rewrite Hy. simpl. rewrite Dc, Db, Da. simpl.
  destruct (register_again _ _ _ Hreg) as [e ->]. by eexists e, _.
Qed.
End Anomalies.

Lemma self_transfer_mints_witness :
  total (stored (Nat.iter 3 (λ s, (apply_transaction Sample.hash_data Sample.verify Sample.deploy_contract
      Sample.execute_contract Sample.evm_deploy Sample.evm_call None (Sample.tx Transfer 1 40 []) s).2)
      (Sample.state None))) = 270.
Proof.
  destruct (self_transfer_mints Sample.hash_data Sample.verify Sample.deploy_contract
    Sample.execute_contract Sample.evm_deploy Sample.evm_call None 3 (Sample.tx Transfer 1 40 [])
    (Sample.state None)) as [Ht _].
  - apply map_store_reliable.
  - apply Sample.sample_coherent.
  - apply Sample.sample_ledger_ok.
  - split; by vm_compute.
  - by vm_compute.
  - by vm_compute.
  - by vm_compute.
  - exact Ht.
Defined.

Lemma self_stake_transfer_burns_witness :
  ∃ r o' s', execute_transaction_overlay Sample.hash_data Sample.verify Sample.deploy_contract
      Sample.execute_contract Sample.simulate_contract None (Sample.tx StakeTransfer 1 20 []) ∅ true
      (Sample.state None) = (Ok (r, o'), s') ∧ r_success r = true ∧ total (ledger o' s') = 130.
Proof.
  destruct (self_stake_transfer_burns Sample.hash_data Sample.verify Sample.deploy_contract
    Sample.execute_contract Sample.simulate_contract None (Sample.tx StakeTransfer 1 20 []) ∅ true
    (Sample.state None)) as (r & o' & s' & He & Hr & Ht).
  - apply Sample.sample_coherent.
  - apply Sample.sample_ledger_ok.
  - split; by vm_compute.
  - by vm_compute.
  - by vm_compute.
  - exists r, o', s'. split; [exact He|]. split; [exact Hr|]. rewrite Ht. by vm_compute.
Defined.

Lemma simulated_registration_blocks_witness :
  let stx := Sample.tx ValidatorRegister 1 60 (replicate 32 1) in
  let exec := execute_transaction_overlay Sample.hash_data Sample.verify Sample.deploy_contract
      Sample.execute_contract Sample.simulate_contract None stx ∅ in
  let run := exec false (Sample.state (Some empty_set)) in
  ∃ e s2, exec true run.2 = (Err (ExecutionError (RegistrationFailed e)), s2).
Proof.
  intros stx exec run.
  refine (proj2 (simulated_registration_blocks Sample.hash_data Sample.verify Sample.deploy_contract
    Sample.execute_contract Sample.simulate_contract None stx ∅ true (Sample.state (Some empty_set))
    (success_receipt stx [] 1)
    (match run.1 with Ok ro => ro.2 | Err _ => ∅ end) run.2 _ _ _ _)).
  - apply Sample.sample_coherent.
  - done.
  - done.
  - vm_compute. reflexivity.
Defined.
