(* ===== verification/Merkle.v ===== *)
(** * Merkle trees over hashes

    Models [merkle_root], [build_merkle_tree], [generate_merkle_proof] and
    [verify_merkle_proof] of [src/L1/src/crypto/hash.rs], used for the DAG root of
    checkpoints.  SHA3-256 is the argument [sha3].  The [while] loops halve the
    level they work on; their fuel is the number of leaves. *)

From S2P Require Import Prelude Bytes.

Section Merkle.
Context (sha3 : list Z → Hash).

(** [combined]: two hashes one after the other. *)
Definition combined (a b : Hash) : list Z := hash_bytes a ++ hash_bytes b.

(** The messages hashed for [current_level.chunks(2)]; a last single element is
    paired with itself. *)
Fixpoint level_messages (l : list Hash) : list (list Z) :=
  match l with
  | [] => []
  | [a] => [combined a a]
  | a :: b :: l' => combined a b :: level_messages l'
  end.

Definition next_level (l : list Hash) : list Hash := map sha3 (level_messages l).

(** [while current_level.len() > 1] *)
Fixpoint climb (fuel : nat) (current_level : list Hash) : list Hash :=
  match fuel with
  | O => current_level
  | S fuel' =>
      if (1 <? length current_level)%nat then climb fuel' (next_level current_level) else current_level
  end.

Definition merkle_root (hashes : list Hash) : Hash :=
  match hashes with
  | [] => 0
  | [h] => h
  | _ => default 0 (head (climb (length hashes) hashes))
  end.

(** The levels from the leaves up. *)
Fixpoint tree_levels (fuel : nat) (current : list Hash) : list (list Hash) :=
  current ::
  match fuel with
  | O => []
  | S fuel' => if (length current <=? 1)%nat then [] else tree_levels fuel' (next_level current)
  end.

Definition build_merkle_tree (leaves : list Hash) : Hash * list (list Hash) :=
  match leaves with
  | [] => (0, [])
  | _ =>
      let levels := tree_levels (length leaves) leaves in
      (match list.last levels with Some level => default 0 (head level) | None => 0 end, levels)
  end.

Record MerkleProof : Type := mkMerkleProof {
  leaf : Hash;
  siblings : list Hash;
  index : nat
}.

(** The sibling of position [idx], itself when it has none. *)
Definition sibling_of (level : list Hash) (idx : nat) : Hash :=
  let sibling_idx := if Nat.even idx then S idx else pred idx in
  default (default 0 (level !! idx)) (level !! sibling_idx).

Fixpoint proof_siblings (levels : list (list Hash)) (idx : nat) : list Hash :=
  match levels with
  | [] => []
  | level :: levels' => sibling_of level idx :: proof_siblings levels' (Nat.div2 idx)
  end.

Definition generate_merkle_proof (leaves : list Hash) (index : nat) : option MerkleProof :=
  match leaves !! index with
  | None => None
  | Some leaf =>
      let levels := (build_merkle_tree leaves).2 in
      Some (mkMerkleProof leaf (proof_siblings (take (length levels - 1) levels) index) index)
  end.

Definition step_message (current sibling : Hash) (idx : nat) : list Z :=
  if Nat.even idx then combined current sibling else combined sibling current.

(** The loop of [verify_merkle_proof]. *)
Fixpoint fold_proof (proof : list Hash) (current : Hash) (idx : nat) : Hash :=
  match proof with
  | [] => current
  | sibling :: proof' => fold_proof proof' (sha3 (step_message current sibling idx)) (Nat.div2 idx)
  end.

Definition verify_merkle_proof (leaf : Hash) (proof : list Hash) (index : nat) (root : Hash) : bool :=
  fold_proof proof leaf index =? root.

Definition verify (p : MerkleProof) (root : Hash) : bool :=
  verify_merkle_proof (leaf p) (siblings p) (index p) root.

(** ** Specification vocabulary *)

(** Every message hashed for a tree, and every message hashed for a proof. *)
Definition tree_messages (leaves : list Hash) : list (list Z) :=
  concat (map level_messages (removelast (tree_levels (length leaves) leaves))).

Fixpoint proof_messages (proof : list Hash) (current : Hash) (idx : nat) : list (list Z) :=
  match proof with
  | [] => []
  | sibling :: proof' =>
      step_message current sibling idx ::
      proof_messages proof' (sha3 (step_message current sibling idx)) (Nat.div2 idx)
  end.

Definition no_collision (ms : list (list Z)) : Prop :=
  ∀ m m', m ∈ ms → m' ∈ ms → sha3 m = sha3 m' → m = m'.

Definition is_hash (h : Hash) : Prop := 0 ≤ h < 2 ^ 256.

(** ** Levels *)

Lemma list_two_ind {A} (P : list A → Prop) :
  P [] → (∀ a, P [a]) → (∀ a b l, P l → P (a :: b :: l)) → ∀ l, P l.
Proof.
  intros H0 H1 H2 l. assert (Hl : P l ∧ ∀ a, P (a :: l)); [|apply Hl].
  induction l as [|b l [IH1 IH2]]; [auto|]. split; [apply IH2|]. intros a. auto.
Qed.

Lemma level_messages_length l : length (level_messages l) = Nat.div2 (S (length l)).
Proof. induction l as [|a|a b l IH] using list_two_ind; simpl in *; [done..|]. by rewrite IH. Qed.

Lemma next_level_length l : length (next_level l) = Nat.div2 (S (length l)).
Proof. unfold next_level. by rewrite length_map, level_messages_length. Qed.

Lemma div2_half n : (2 * Nat.div2 n ≤ n ∧ n ≤ 2 * Nat.div2 n + 1)%nat.
Proof. pose proof (Nat.div2_odd n). destruct (Nat.odd n); simpl in *; lia. Qed.

Lemma next_level_smaller l :
  (1 < length l)%nat → (1 ≤ length (next_level l) < length l)%nat.
Proof. intros Hl. rewrite next_level_length. pose proof (div2_half (S (length l))). lia. Qed.

(** The message of the parent of position [idx]. *)
Lemma level_messages_lookup l idx x :
  l !! idx = Some x → level_messages l !! Nat.div2 idx = Some (step_message x (sibling_of l idx) idx).
Proof.
  revert idx. induction l as [|a|a b l IH] using list_two_ind; intros idx Hx; [done|..].
  - destruct idx as [|idx]; [|done]. by injection Hx as ->.
  - destruct idx as [|[|idx]]; [by injection Hx as ->..|]. simpl in Hx |- *. rewrite (IH idx Hx).
    f_equal. unfold step_message, sibling_of. simpl.
    destruct (Nat.even idx) eqn:He; [done|]. by destruct idx.
Qed.

Lemma next_level_lookup l idx x :
  l !! idx = Some x → next_level l !! Nat.div2 idx = Some (sha3 (step_message x (sibling_of l idx) idx)).
Proof. intros Hx. unfold next_level. by rewrite list_lookup_fmap, (level_messages_lookup l idx x). Qed.

Lemma div2_lt idx l : (idx < length l)%nat → (Nat.div2 idx < length (next_level l))%nat.
Proof.
  intros Hi. rewrite next_level_length.
  pose proof (div2_half idx). pose proof (div2_half (S (length l))). lia.
Qed.

(** ** The loop ends in a single hash *)

Lemma tree_levels_last f l :
  (1 ≤ length l ≤ S f)%nat → ∃ r, list.last (tree_levels f l) = Some [r] ∧ head (climb f l) = Some r.
Proof.
  revert l. induction f as [|f IH]; intros l Hl; simpl.
  - destruct l as [|a [|b l]]; simpl in Hl; [lia| |lia]. by exists a.
  - destruct (Nat.leb_spec (length l) 1) as [Hle|Hgt].
    + destruct l as [|a [|b l]]; simpl in Hl, Hle; [lia| |lia]. by exists a.
    + pose proof (next_level_smaller l Hgt) as Hs.
      destruct (IH (next_level l) ltac:(lia)) as (r & Hr & Hc). exists r.
      rewrite (proj2 (Nat.ltb_lt 1 (length l)) Hgt). split; [|done].
      rewrite last_cons. by rewrite Hr.
Qed.

Lemma climb_single f x : climb f [x] = [x].
Proof. by destruct f. Qed.

Lemma build_root leaves :
  leaves ≠ [] → (build_merkle_tree leaves).1 = merkle_root leaves ∧
    list.last (tree_levels (length leaves) leaves) = Some [merkle_root leaves].
Proof.
  intros Hne. destruct leaves as [|a leaves]; [done|].
  destruct (tree_levels_last (length (a :: leaves)) (a :: leaves)) as (r & Hr & Hc); [simpl; lia|].
  assert (Hroot : merkle_root (a :: leaves) = r).
  { unfold merkle_root. destruct leaves as [|b leaves]; [by injection Hc|]. by rewrite Hc. }
  split; [|by rewrite Hr, Hroot]. unfold build_merkle_tree. cbn [fst]. rewrite Hr. by rewrite Hroot.
Qed.

Lemma take_but_last {A} (x : A) l : take (length (x :: l) - 1) (x :: l) = removelast (x :: l).
Proof.
  revert x. induction l as [|y l IH]; intros x; [done|]. specialize (IH y). simpl in *.
  by rewrite Nat.sub_0_r in IH; rewrite <- IH.
Qed.

Lemma tree_levels_cons f l :
  (1 < length l)%nat → tree_levels (S f) l = l :: tree_levels f (next_level l).
Proof. intros Hl. simpl. by rewrite (proj2 (Nat.leb_gt _ _) Hl). Qed.

Lemma removelast_levels f l l' : removelast (l :: tree_levels f l') = l :: removelast (tree_levels f l').
Proof. by destruct f. Qed.

(** Following the siblings of a position leads to the root. *)
Lemma fold_proof_complete f l idx x r :
  (1 ≤ length l ≤ S f)%nat → l !! idx = Some x → list.last (tree_levels f l) = Some [r] →
  fold_proof (proof_siblings (removelast (tree_levels f l)) idx) x idx = r.
Proof.
  revert l idx x. induction f as [|f IH]; intros l idx x Hl Hx Hr.
  { simpl in *. injection Hr as ->. destruct idx; [by injection Hx|done]. }
  destruct (Nat.ltb_spec 1 (length l)) as [Hgt|Hle].
  - rewrite tree_levels_cons in * by done. rewrite removelast_levels. simpl.
    pose proof (next_level_smaller l Hgt). rewrite last_cons in Hr.
    destruct (tree_levels_last f (next_level l) ltac:(lia)) as (r' & Hr' & _). rewrite Hr' in Hr.
    injection Hr as ->. apply IH; [lia| |done]. by apply next_level_lookup.
  - simpl in *. rewrite (proj2 (Nat.leb_le _ _) Hle) in *. simpl in *. injection Hr as ->.
    destruct idx; [by injection Hx|done].
Qed.

(** Only the leaf at the position does. *)
Lemma fold_proof_sound f l idx x r proof :
  (∀ m, is_hash (sha3 m)) → (1 ≤ length l ≤ S f)%nat → (idx < length l)%nat →
  list.last (tree_levels f l) = Some [r] → length proof = length (removelast (tree_levels f l)) →
  Forall is_hash l → is_hash x → Forall is_hash proof →
  no_collision (concat (map level_messages (removelast (tree_levels f l))) ++ proof_messages proof x idx) →
  fold_proof proof x idx = r → l !! idx = Some x.
Proof.
  intros Hsha. revert l idx x proof.
  induction f as [|f IH]; intros l idx x proof Hl Hi Hr Hlen Hhl Hhx Hhp Hnc Hf.
  { simpl in *. destruct proof; [|done]. injection Hr as ->. simpl in *. destruct idx; [by subst|lia]. }
  destruct (Nat.ltb_spec 1 (length l)) as [Hgt|Hle].
  - rewrite tree_levels_cons in * by done. rewrite removelast_levels in Hlen, Hnc.
    pose proof (next_level_smaller l Hgt). rewrite last_cons in Hr.
    destruct (tree_levels_last f (next_level l) ltac:(lia)) as (r' & Hr' & _). rewrite Hr' in Hr.
    injection Hr as ->. destruct proof as [|s proof]; [done|]. simpl in Hlen, Hf.
    apply list.Forall_cons in Hhp as [Hs Hhp].
    destruct (lookup_lt_is_Some_2 l idx Hi) as [y Hy].
    assert (Hup : next_level l !! Nat.div2 idx = Some (sha3 (step_message x s idx))).
    { apply (IH (next_level l) (Nat.div2 idx) _ proof); try done; try lia.
      - by apply div2_lt.
      - unfold next_level. apply list.Forall_fmap, list.Forall_forall. intros m _. apply Hsha.
      - intros m m' Hm Hm'. apply Hnc; simpl; set_solver. }
    rewrite (next_level_lookup l idx y Hy) in Hup. injection Hup as Hup.
    apply Hnc in Hup.
    + assert (Hsib : is_hash (sibling_of l idx)).
      { unfold sibling_of. rewrite Hy. simpl. rewrite list.Forall_lookup in Hhl.
        destruct (l !! (if Nat.even idx then S idx else pred idx)) eqn:Hz; simpl; eauto. }
      rewrite list.Forall_lookup in Hhl. pose proof (Hhl idx y Hy) as Hhy. rewrite Hy. f_equal.
      unfold step_message, combined in Hup. destruct (Nat.even idx).
      * apply hash_app_inj in Hup as [? _]; done.
      * apply hash_app_inj in Hup as [_ Hup]; [|done..].
        apply (hash_app_inj y x [] []); [done..|]. by rewrite Hup.
    + simpl. apply elem_of_app. left. apply elem_of_app. left.
      apply list_elem_of_lookup_2 with (Nat.div2 idx). by apply level_messages_lookup.
    + simpl. set_solver.
  - simpl in *. rewrite (proj2 (Nat.leb_le _ _) Hle) in *. simpl in *. injection Hr as ->.
    destruct proof; [|done]. simpl in *. destruct idx; [by subst|simpl in *; lia].
Qed.
End Merkle.

(** ** More fuel changes nothing *)

Lemma climb_fuel sha3 f g l :
  (length l ≤ S f)%nat → (length l ≤ S g)%nat → climb sha3 f l = climb sha3 g l.
Proof.
  revert g l. induction f as [|f IH]; intros g l Hf Hg.
  - destruct g; simpl; [done|]. by rewrite (proj2 (Nat.ltb_ge 1 (length l))) by lia.
  - destruct g; simpl; [by rewrite (proj2 (Nat.ltb_ge 1 (length l))) by lia|].
    destruct (Nat.ltb_spec 1 (length l)) as [Hl|]; [|done].
    pose proof (next_level_smaller sha3 l Hl). apply IH; lia.
Qed.

Lemma merkle_root_climb sha3 f l :
  (1 ≤ length l ≤ S f)%nat → merkle_root sha3 l = default 0 (head (climb sha3 f l)).
Proof.
  intros Hl. destruct l as [|a [|b l]]; [simpl in Hl; lia|by rewrite climb_single|].
  unfold merkle_root. rewrite (climb_fuel sha3 (length (a :: b :: l)) f) by lia. done.
Qed.

Lemma level_messages_app l1 l2 :
  Nat.even (length l1) = true → level_messages (l1 ++ l2) = level_messages l1 ++ level_messages l2.
Proof. induction l1 as [|a|a b l IH] using list_two_ind; simpl; intros He; [done..|]. by rewrite IH. Qed.

(** Proofs are complete: for every position of the list a proof is
    generated, it carries the element at that position, and it verifies against
    the root, which both root computations agree on; past the end there is no
    proof. *)
Theorem merkle_proof_complete sha3 leaves i :
  match leaves !! i with
  | Some x => ∃ p, generate_merkle_proof sha3 leaves i = Some p ∧ leaf p = x ∧ index p = i ∧
      verify sha3 p (merkle_root sha3 leaves) = true ∧
      (build_merkle_tree sha3 leaves).1 = merkle_root sha3 leaves
  | None => generate_merkle_proof sha3 leaves i = None
  end.
Proof.
  unfold generate_merkle_proof. destruct (leaves !! i) as [x|] eqn:Hx; [|done].
  assert (Hne : leaves ≠ []) by (by destruct leaves). destruct (build_root sha3 leaves Hne) as [Hb Hl].
  eexists. split; [done|]. split_and!; try done. unfold verify, verify_merkle_proof. simpl.
  pose proof (lookup_lt_Some _ _ _ Hx) as Hlt. apply Z.eqb_eq.
  rewrite <- (fold_proof_complete sha3 (length leaves) leaves i x _ ltac:(lia) Hx Hl).
  f_equal. f_equal. destruct leaves as [|a leaves]; [done|]. apply take_but_last.
Qed.

(** Proofs are sound: if SHA3 does not collide on the messages hashed for
    the tree and for the proof, a proof of the tree's height that verifies
    against the root at a position of the list is about the element there. *)
Theorem merkle_proof_sound sha3 leaves x proof i :
  (∀ m, is_hash (sha3 m)) → Forall is_hash leaves → is_hash x → Forall is_hash proof →
  no_collision sha3 (tree_messages sha3 leaves ++ proof_messages sha3 proof x i) →
  (i < length leaves)%nat → length proof = (length (build_merkle_tree sha3 leaves).2 - 1)%nat →
  verify_merkle_proof sha3 x proof i (merkle_root sha3 leaves) = true → leaves !! i = Some x.
Proof.
  intros Hsha Hl Hx Hp Hnc Hi Hlen Hv. assert (Hne : leaves ≠ []) by (by intros ->; simpl in Hi; lia).
  destruct (build_root sha3 leaves Hne) as [_ Hlast]. apply Z.eqb_eq in Hv.
  eapply (fold_proof_sound sha3 (length leaves) leaves i x _ proof); try done; [lia|].
  rewrite Hlen. destruct leaves as [|a leaves]; [done|]. simpl snd.
  change (tree_levels sha3 (length (a :: leaves)) (a :: leaves)) with
    (tree_levels sha3 (S (length leaves)) (a :: leaves)).
  cbn [tree_levels]. rewrite <- take_but_last. rewrite length_take. simpl. lia.
Qed.

(** The root does not determine the list: repeating the last element of a
    list of odd length of at least three leaves the root unchanged, whatever the
    hash function. *)
Theorem merkle_root_ambiguous sha3 l x :
  Nat.even (length l) = true → l ≠ [] →
  merkle_root sha3 (l ++ [x; x]) = merkle_root sha3 (l ++ [x]).
Proof.
  intros He Hne. assert (Hlen : (2 ≤ length l)%nat).
  { destruct l as [|a [|b l]]; simpl in *; [done..|lia]. }
  assert (Hnext : next_level sha3 (l ++ [x; x]) = next_level sha3 (l ++ [x])).
  { unfold next_level. by rewrite !level_messages_app. }
  rewrite (merkle_root_climb sha3 (S (length l + 2)) (l ++ [x; x])),
    (merkle_root_climb sha3 (S (length l + 2)) (l ++ [x])) by (rewrite length_app; simpl; lia).
  cbn [climb]. rewrite !(proj2 (Nat.ltb_lt 1 _)) by (rewrite length_app; simpl; lia). by rewrite Hnext.
Qed.

Lemma merkle_proof_sound_witness :
  let sha3 := λ m, (of_le_bytes (reverse m) / 2 ^ 255) mod 2 ^ 256 in
  verify_merkle_proof sha3 5 [6] 0 (merkle_root sha3 [5; 6]) = true ∧ [5; 6] !! 0%nat = Some 5.
Proof.
  intros sha3.
  assert (Hv : verify_merkle_proof sha3 5 [6] 0 (merkle_root sha3 [5; 6]) = true) by (by vm_compute).
  split; [exact Hv|].
  apply (merkle_proof_sound sha3 [5; 6] 5 [6] 0).
  - intros m. unfold is_hash. subst sha3. simpl. apply Z.mod_pos_bound. done.
  - repeat constructor; by vm_compute.
  - by vm_compute.
  - repeat constructor; by vm_compute.
  - assert (He : tree_messages sha3 [5; 6] ++ proof_messages sha3 [6] 5 0 = [combined 5 6; combined 5 6])
      by (by vm_compute).
    rewrite He. intros m m' Hm Hm' _. rewrite !elem_of_cons, elem_of_nil in Hm, Hm'.
    destruct Hm as [->|[->|[]]], Hm' as [->|[->|[]]]; done.
  - simpl. lia.
  - by vm_compute.
  - exact Hv.
Defined.

Lemma merkle_root_ambiguous_witness :
  merkle_root (foldr Z.add 7) [1; 2; 3; 3] = merkle_root (foldr Z.add 7) [1; 2; 3].
Proof. by apply (merkle_root_ambiguous (foldr Z.add 7) [1; 2] 3). Defined.
