(* ===== verification/Finality.v ===== *)
(** * The finality layer

    Models [FinalityLayer] of [src/L1/src/consensus/finality.rs]: creation of
    checkpoints, collection of validator signatures up to a two-thirds quorum,
    finalization, and finality proofs.

    The vertex graph is used through the interface [FinalizableDag], which the
    graph of [Dag.v] implements; the durable store is [CheckpointStore].  The
    committee manager's validator set is part of the state and changes by a step
    of its own.  SHA3-256, the signature check and the signature aggregation are
    arguments.  Texts of errors are shortened. *)

From S2P Require Import Prelude Bytes Merkle Transaction Vertex Dag Validators Checkpoint Consensus.

(** ** Interfaces *)

(** What the finality layer uses of the vertex graph. *)
Class FinalizableDag (D : Type) : Type := {
  dag_tips : Z → D → list Hash;
  dag_vertex_count : D → Z;
  dag_finalize : list Hash → D → Result (Z * Z) string * D
}.

Class CheckpointStore (CS : Type) : Type := {
  put_checkpoint : Checkpoint → CS → Result () string * CS;
  load_checkpoint : Z → Z → CS → Result (option Checkpoint) string;
  stored_state_root : Z → CS → Result (option Hash) string
}.

(** The vertex graph; [show] renders its errors. *)
Definition graph_dag `{VertexStore St} (show : DAGError → string) : FinalizableDag (DAGGraph St) := {|
  dag_tips shard_id g := get_tips g shard_id;
  dag_vertex_count g := Dag.vertex_count g;
  dag_finalize tips g :=
    match finalize_reachable_from_tips tips g with
    | Some (Ok n, g') => (Ok n, g')
    | Some (Err e, g') => (Err (show e), g')
    | None => (Err "unreachable", g)
    end
|}.

(** ** State *)

Record PendingCheckpoint : Type := mkPending {
  pc_checkpoint : Checkpoint;
  pc_dag_tips : list Hash;
  pc_signatures : list ValidatorSignature;
  pc_signers : gset Address;
  pc_stake_signed : Z
}.

Record FinalizedCheckpoint : Type := mkFinalized {
  fc_checkpoint : Checkpoint;
  fc_signatures : list ValidatorSignature
}.

Record FinalityLayer (D CS : Type) : Type := mkLayer {
  storage : CS;
  dag : D;
  validator_set : ValidatorSet;
  pending_checkpoints : gmap Hash PendingCheckpoint;
  finalized_checkpoints : list Checkpoint;
  checkpoint_interval : Z;
  last_checkpoint_slot : Z;
  num_shards : nat
}.
Arguments mkLayer {D CS}. Arguments storage {D CS}. Arguments dag {D CS}. Arguments validator_set {D CS}.
Arguments pending_checkpoints {D CS}. Arguments finalized_checkpoints {D CS}.
Arguments checkpoint_interval {D CS}. Arguments last_checkpoint_slot {D CS}. Arguments num_shards {D CS}.

Section Layer.
Context `{FinalizableDag D} `{CheckpointStore CS}.
Context (hash_data : list Z → Hash) (verify : list Z → list Z → list Z → bool).
(** Aggregation and compaction: signatures, keys, message, signer positions,
    committee size; the serialized result if all of it succeeds. *)
Context (aggregate : list (list Z) → list (list Z) → list Z → list nat → nat → option (list Z)).

Abbreviation FL := (FinalityLayer D CS).
Abbreviation OP A := (M FL ConsensusError A).

Definition set_storage (v : CS) (s : FL) : FL :=
  mkLayer v (dag s) (validator_set s) (pending_checkpoints s) (finalized_checkpoints s)
    (checkpoint_interval s) (last_checkpoint_slot s) (num_shards s).
Definition set_dag (v : D) (s : FL) : FL :=
  mkLayer (storage s) v (validator_set s) (pending_checkpoints s) (finalized_checkpoints s)
    (checkpoint_interval s) (last_checkpoint_slot s) (num_shards s).
Definition set_validator_set (v : ValidatorSet) (s : FL) : FL :=
  mkLayer (storage s) (dag s) v (pending_checkpoints s) (finalized_checkpoints s)
    (checkpoint_interval s) (last_checkpoint_slot s) (num_shards s).
Definition set_pending (v : gmap Hash PendingCheckpoint) (s : FL) : FL :=
  mkLayer (storage s) (dag s) (validator_set s) v (finalized_checkpoints s)
    (checkpoint_interval s) (last_checkpoint_slot s) (num_shards s).
Definition set_finalized (v : list Checkpoint) (s : FL) : FL :=
  mkLayer (storage s) (dag s) (validator_set s) (pending_checkpoints s) v
    (checkpoint_interval s) (last_checkpoint_slot s) (num_shards s).
Definition set_last_slot (v : Z) (s : FL) : FL :=
  mkLayer (storage s) (dag s) (validator_set s) (pending_checkpoints s) (finalized_checkpoints s)
    (checkpoint_interval s) v (num_shards s).

Definition new (storage : CS) (dag : D) (vs : ValidatorSet) (checkpoint_interval : Z) (num_shards : nat) : FL :=
  mkLayer storage dag vs ∅ [] checkpoint_interval 0 num_shards.

(** ** Creating checkpoints *)

Definition collect_dag_state (s : FL) : list Hash :=
  concat (map (λ shard_id, dag_tips (Z.of_nat shard_id) (dag s)) (seq 0 (num_shards s))).

Definition count_transactions_since_last_checkpoint (s : FL) : Z := 0.

Definition latest_hash (s : FL) : Hash :=
  match list.last (finalized_checkpoints s) with Some c => Checkpoint.hash hash_data c | None => 0 end.

Definition create_checkpoint (now slot : Z) : OP Checkpoint :=
  s <-? gets id;
  let dag_tips := collect_dag_state s in
  match stored_state_root slot (storage s) with
  | Err e => throw (StorageError e)
  | Ok root =>
      let checkpoint := Checkpoint.new now (slot / 32) slot (default 0 root) (merkle_root hash_data dag_tips)
        (dag_vertex_count (dag s)) (count_transactions_since_last_checkpoint s) (latest_hash s) in
      modify (λ s, set_pending (<[Checkpoint.hash hash_data checkpoint :=
        mkPending checkpoint dag_tips [] ∅ 0]> (pending_checkpoints s)) s) ?;
      returns checkpoint
  end.

(** [current_slot - last_slot] on [u64]s. *)
Definition maybe_create_checkpoint (now current_slot : Z) : OP (option Checkpoint) :=
  s <-? gets id;
  if wrapping_sub u64_max current_slot (last_checkpoint_slot s) <? checkpoint_interval s then returns None
  else
    checkpoint <-? create_checkpoint now current_slot;
    modify (set_last_slot current_slot) ?;
    returns (Some checkpoint).

(** ** Signing *)

(** [public_key] and [sign] are the two halves of the key pair. *)
Definition sign_checkpoint (now : Z) (checkpoint_hash : Hash) (validator : Address) (public_key : list Z)
    (sign : list Z → Result (list Z) string) : OP ValidatorSignature :=
  s <-? gets id;
  match pending_checkpoints s !! checkpoint_hash with
  | None => throw CheckpointVerificationFailed
  | Some pending =>
      match get_validator (validator_set s) validator with
      | None => throw (InvalidValidator "not found")
      | Some v =>
          fail_if (negb (bool_decide (finality_public_key v = public_key)))
            (Unauthorized "Finality public key mismatch") ?;
          match sign (signing_data hash_data (pc_checkpoint pending)) with
          | Err e => throw (CryptoError e)
          | Ok signature => returns (new_signature now validator signature)
          end
      end
  end.

(** ** Finalizing *)

(** The signatures in the order of the validator set: signature, key, position. *)
Definition signer_entries (p : PendingCheckpoint) (vs : list Validator) : list (list Z * list Z * nat) :=
  omap (λ '(i, v),
    if bool_decide (address v ∈ pc_signers p) then
      match find (λ s, signer s =? address v) (pc_signatures p) with
      | Some sig => Some (sig_bytes sig, finality_public_key v, i)
      | None => None
      end
    else None) (zip (seq 0 (length vs)) vs).

(** The checkpoint with its signers and, when aggregation succeeds, signature. *)
Definition certified (p : PendingCheckpoint) (set : ValidatorSet) : Checkpoint :=
  let checkpoint := set_cp_validators (map signer (pc_signatures p)) (pc_checkpoint p) in
  let entries := signer_entries p (validators set) in
  match entries with
  | [] => checkpoint
  | _ =>
      match aggregate (map (λ e, e.1.1) entries) (map (λ e, e.1.2) entries)
              (signing_data hash_data checkpoint) (map snd entries) (length (validators set)) with
      | Some bytes => set_cp_signature bytes checkpoint
      | None => checkpoint
      end
  end.

Definition mark_vertices_finalized (dag_tips : list Hash) : OP () :=
  λ s, match dag_finalize dag_tips (dag s) with
       | (Ok _, d) => (Ok (), set_dag d s)
       | (Err e, d) => (Err (StorageError e), set_dag d s)
       end.

Definition store_checkpoint (c : Checkpoint) : OP () :=
  λ s, match put_checkpoint c (storage s) with
       | (Ok _, st) => (Ok (), set_storage st s)
       | (Err e, st) => (Err (StorageError e), set_storage st s)
       end.

Definition finalize_checkpoint (checkpoint_hash : Hash) : OP FinalizedCheckpoint :=
  s <-? gets id;
  match pending_checkpoints s !! checkpoint_hash with
  | None => throw (InvalidData "pending checkpoint missing during finalization")
  | Some pending =>
      modify (λ s, set_pending (delete checkpoint_hash (pending_checkpoints s)) s) ?;
      let checkpoint := certified pending (validator_set s) in
      store_checkpoint checkpoint ?;
      modify (λ s, set_finalized (finalized_checkpoints s ++ [checkpoint]) s) ?;
      mark_vertices_finalized (pc_dag_tips pending) ?;
      returns (mkFinalized checkpoint (pc_signatures pending))
  end.

Definition put_pending (h : Hash) (p : PendingCheckpoint) : OP () :=
  modify (λ s, set_pending (<[h := p]> (pending_checkpoints s)) s).

Definition receive_checkpoint_signature (checkpoint_hash : Hash) (signature : ValidatorSignature)
    : OP (option FinalizedCheckpoint) :=
  s <-? gets id;
  match pending_checkpoints s !! checkpoint_hash with
  | None => returns None
  | Some p =>
      if bool_decide (signer signature ∈ pc_signers p) then returns None
      else
        match get_validator (validator_set s) (signer signature) with
        | None => throw (InvalidValidator "not found for checkpoint signature")
        | Some v =>
            fail_if (negb (active v) || jailed v) (Unauthorized "not active in the finality set") ?;
            fail_if (bool_decide (finality_public_key v = []))
              (InvalidValidator "no registered finality public key") ?;
            fail_if (negb (verify (finality_public_key v) (signing_data hash_data (pc_checkpoint p))
                       (sig_bytes signature))) (Unauthorized "Invalid checkpoint signature") ?;
            let signers := {[signer signature]} ∪ pc_signers p in
            let signatures := pc_signatures p ++ [signature] in
            put_pending checkpoint_hash
              (mkPending (pc_checkpoint p) (pc_dag_tips p) signatures signers (pc_stake_signed p)) ?;
            match checked_add u128_max (pc_stake_signed p) (effective_stake v) with
            | None => throw (ArithmeticOverflow "Checkpoint signed stake overflow")
            | Some signed =>
                put_pending checkpoint_hash
                  (mkPending (pc_checkpoint p) (pc_dag_tips p) signatures signers signed) ?;
                if quorum_of (total_active_stake (validator_set s)) <=? signed then
                  finalized_checkpoint <-? finalize_checkpoint checkpoint_hash;
                  returns (Some finalized_checkpoint)
                else returns None
            end
        end
  end.

(** ** Queries and proofs *)

Definition get_latest_finalized_checkpoint (s : FL) : option Checkpoint := list.last (finalized_checkpoints s).
Definition finalized_slot (s : FL) : Z :=
  match list.last (finalized_checkpoints s) with Some c => slot c | None => 0 end.
Definition finalized_epoch (s : FL) : Z :=
  match list.last (finalized_checkpoints s) with Some c => Checkpoint.epoch c | None => 0 end.

Definition get_checkpoint (s : FL) (epoch slot : Z) : Result (option Checkpoint) ConsensusError :=
  match load_checkpoint epoch slot (storage s) with
  | Ok c => Ok c
  | Err e => Err (StorageError e)
  end.

(** Stake and key of a signer; an unknown one has none. *)
Definition stake_and_key (set : ValidatorSet) (a : Address) : Z * list Z :=
  match get_validator set a with
  | Some v => (effective_stake v, finality_public_key v)
  | None => (0, [])
  end.

Definition create_finality_proof (s : FL) (checkpoint : Checkpoint) : Result FinalityProof ConsensusError :=
  match pending_checkpoints s !! Checkpoint.hash hash_data checkpoint with
  | None => Err CheckpointVerificationFailed
  | Some pending =>
      Ok (foldl (λ proof sig,
            let '(stake, key) := stake_and_key (validator_set s) (signer sig) in
            (add_signature hash_data verify sig stake key proof).2)
          (new_proof checkpoint (quorum_of (total_active_stake (validator_set s))))
          (pc_signatures pending))
  end.

(** The loop of [verify_finality_proof]: [None] when it returns [false]. *)
Fixpoint check_signatures (set : ValidatorSet) (data : list Z) (sigs : list ValidatorSignature)
    (seen : gset Address) (signed_stake : Z) : option Z :=
  match sigs with
  | [] => Some signed_stake
  | sig :: sigs' =>
      if bool_decide (signer sig ∈ seen) then None
      else
        match get_validator set (signer sig) with
        | None => None
        | Some v =>
            if negb (active v) || jailed v || bool_decide (finality_public_key v = []) then None
            else if negb (verify (finality_public_key v) data (sig_bytes sig)) then None
            else check_signatures set data sigs' ({[signer sig]} ∪ seen)
                   (saturating_add u128_max signed_stake (effective_stake v))
        end
  end.

Definition verify_finality_proof (s : FL) (proof : FinalityProof) : bool :=
  if total_stake_signed proof <? stake_threshold proof then false
  else
    match check_signatures (validator_set s) (signing_data hash_data (checkpoint proof))
            (super_committee_signatures proof) ∅ 0 with
    | None => false
    | Some signed_stake =>
        (stake_threshold proof <=? signed_stake) && (signed_stake =? total_stake_signed proof)
    end.

(** ** Histories *)

(** What can happen to the layer while the validator set is fixed; the graph
    changes on its own. *)
Inductive Event : Type :=
  | ETick (now slot : Z)
  | EReceive (checkpoint_hash : Hash) (sig : ValidatorSignature)
  | EGraph (d : D).

Definition step (s : FL) (e : Event) : FL :=
  match e with
  | ETick now slot => (maybe_create_checkpoint now slot s).2
  | EReceive h sig => (receive_checkpoint_signature h sig s).2
  | EGraph d => set_dag d s
  end.
End Layer.

(** ** Specification vocabulary *)

(** The active stake of the validators whose address satisfies [P]. *)
Definition stake_in (vs : list Validator) (P : Address → bool) : Z :=
  sumZ (map (λ v, if P (address v) then effective_stake v else 0) vs).

Definition is_in (l : list Address) (a : Address) : bool := bool_decide (a ∈ l).

(** A validator set whose quorums can be computed without overflow. *)
Record set_fine (set : ValidatorSet) : Prop := {
  fine_wf : wf set;
  fine_room : 2 * total_stake set ≤ u128_max
}.

(** [a] is a member in good standing and made a valid signature on [data]. *)
Definition signed_by (verify : list Z → list Z → list Z → bool) (set : ValidatorSet) (data : list Z)
    (a : Address) : Prop :=
  ∃ v sig, get_validator set a = Some v ∧ active v = true ∧ jailed v = false ∧
    verify (finality_public_key v) data sig = true.

(** What a finalized checkpoint proves. *)
Record certificate (hash_data : list Z → Hash) (verify : list Z → list Z → list Z → bool)
    (set : ValidatorSet) (c : Checkpoint) : Prop := {
  cert_distinct : NoDup (cp_validators c);
  cert_signed : ∀ a, a ∈ cp_validators c → signed_by verify set (signing_data hash_data c) a;
  cert_quorum : 2 * total_active_stake set < 3 * stake_in (validators set) (is_in (cp_validators c))
}.

(** What is recorded of a pending checkpoint: genuine distinct signatures, short
    of a quorum. *)
Record pending_ok (hash_data : list Z → Hash) (verify : list Z → list Z → list Z → bool)
    (set : ValidatorSet) (h : Hash) (p : PendingCheckpoint) : Prop := {
  pok_hash : Checkpoint.hash hash_data (pc_checkpoint p) = h;
  pok_signers : pc_signers p = list_to_set (map signer (pc_signatures p));
  pok_distinct : NoDup (map signer (pc_signatures p));
  pok_signed : ∀ a, a ∈ map signer (pc_signatures p) →
    signed_by verify set (signing_data hash_data (pc_checkpoint p)) a;
  pok_stake : pc_stake_signed p = stake_in (validators set) (is_in (map signer (pc_signatures p)));
  pok_short : pc_stake_signed p < quorum_of (total_active_stake set)
}.

Record layer_ok {D CS} (hash_data : list Z → Hash) (verify : list Z → list Z → list Z → bool)
    (set : ValidatorSet) (s : FinalityLayer D CS) : Prop := {
  lay_set : validator_set s = set;
  lay_pending : ∀ h p, pending_checkpoints s !! h = Some p → pending_ok hash_data verify set h p;
  lay_finalized : ∀ c, c ∈ finalized_checkpoints s → certificate hash_data verify set c
}.

(** ** Stake of a set of addresses *)

Lemma stake_in_ext vs P Q :
  (∀ v, v ∈ vs → P (address v) = Q (address v)) → stake_in vs P = stake_in vs Q.
Proof.
  unfold stake_in. induction vs as [|v vs IH]; intros HPQ; simpl; [done|].
  rewrite (HPQ v) by left. rewrite IH; [done|]. intros w Hw. apply HPQ. by right.
Qed.

Lemma effective_nonneg v : fits u128_max (stake v) → 0 ≤ effective_stake v.
Proof. unfold effective_stake, fits. case_match; lia. Qed.

Lemma stake_in_bounds vs P :
  Forall (λ v, fits u128_max (stake v)) vs → 0 ≤ stake_in vs P ≤ sumZ (map effective_stake vs).
Proof.
  unfold stake_in. induction 1 as [|v vs Hv Hvs IH]; simpl; [done|].
  pose proof (effective_nonneg v Hv). case_match; lia.
Qed.

(** Inclusion and exclusion. *)
Lemma stake_in_and_or vs P Q :
  stake_in vs (λ a, P a && Q a) + stake_in vs (λ a, P a || Q a) = stake_in vs P + stake_in vs Q.
Proof.
  unfold stake_in. induction vs as [|v vs IH]; simpl; [done|].
  destruct (P (address v)), (Q (address v)); simpl; lia.
Qed.

Lemma stake_in_snoc vs l a v :
  NoDup (map address vs) → find (λ w, address w =? a) vs = Some v → a ∉ l →
  stake_in vs (is_in (l ++ [a])) = stake_in vs (is_in l) + effective_stake v.
Proof.
  unfold stake_in. intros Hnd Hf Ha. induction vs as [|w vs IH]; simpl in *; [done|].
  apply list.NoDup_cons in Hnd as [Hw Hnd]. unfold is_in at 1 3.
  destruct (Z.eqb_spec (address w) a) as [Heq|Hne].
  - injection Hf as ->. subst a. rewrite bool_decide_true, (bool_decide_false (address v ∈ l)) by set_solver.
    fold (stake_in vs (is_in (l ++ [address v]))) (stake_in vs (is_in l)).
    rewrite (stake_in_ext vs (is_in (l ++ [address v])) (is_in l)); [lia|].
    intros x Hx. unfold is_in. apply bool_decide_ext. rewrite elem_of_app, list_elem_of_singleton.
    split; [|tauto]. intros [?|Heq]; [done|]. exfalso. apply Hw. rewrite <- Heq.
    apply list_elem_of_fmap. eauto.
  - rewrite (IH Hnd Hf). rewrite (bool_decide_ext (address w ∈ l ++ [a]) (address w ∈ l)) by set_solver. lia.
Qed.

Lemma stake_in_empty vs : stake_in vs (is_in []) = 0.
Proof.
  rewrite (stake_in_ext vs _ (λ _, false)); [unfold stake_in; by induction vs|].
  intros v _. apply bool_decide_false, not_elem_of_nil.
Qed.

Lemma total_active_spec set :
  wf set → total_active_stake set = sumZ (map effective_stake (validators set)) ∧
    0 ≤ total_active_stake set ≤ total_stake set.
Proof.
  intros [_ _ Hs Ht Hr]. destruct (effective_stakes_bound _ Hs) as (Hnn & Hle & _).
  pose proof (sumZ_nonneg _ Hnn). unfold total_active_stake. rewrite sum_u128_spec by (done || lia). lia.
Qed.

Lemma quorum_fine set x :
  set_fine set → quorum_of (total_active_stake set) ≤ x ↔ 2 * total_active_stake set < 3 * x.
Proof.
  intros [Hwf Hroom]. destruct (total_active_spec set Hwf) as [_ ?]. apply quorum_of_two_thirds; lia.
Qed.

(** What finalization writes does not change what is signed. *)
Lemma certified_signing_data hash_data aggregate p set :
  signing_data hash_data (certified hash_data aggregate p set) = signing_data hash_data (pc_checkpoint p) ∧
  cp_validators (certified hash_data aggregate p set) = map signer (pc_signatures p).
Proof. unfold certified. repeat case_match; done. Qed.

Section Invariant.
Context `{FinalizableDag D} `{CheckpointStore CS}.
Context (hash_data : list Z → Hash) (verify : list Z → list Z → list Z → bool).
Context (aggregate : list (list Z) → list (list Z) → list Z → list nat → nat → option (list Z)).
Context (set : ValidatorSet) (Hfine : set_fine set).
Implicit Types (s : FinalityLayer D CS).

Abbreviation ok := (layer_ok hash_data verify set).

Lemma layer_ok_insert s h p :
  ok s → pending_ok hash_data verify set h p → ok (set_pending (<[h := p]> (pending_checkpoints s)) s).
Proof.
  intros [Hset Hp Hf] Hok. split; simpl; [done| |done]. intros h' p'. rewrite lookup_insert.
  case_decide; [intros [= <-]; by subst|apply Hp].
Qed.

Lemma create_ok now slot s : ok s → ok (create_checkpoint hash_data now slot s).2.
Proof.
  intros Hok. unfold create_checkpoint. rewrite gets_bind. destruct (stored_state_root _ _) as [r|e]; [|done].
  apply layer_ok_insert; [done|]. split; simpl; try done.
  - constructor.
  - set_solver.
  - by rewrite stake_in_empty.
  - apply Z.nle_gt. rewrite quorum_fine by done. destruct (total_active_spec set (fine_wf _ Hfine)). lia.
Qed.

Lemma tick_ok now slot s : ok s → ok (maybe_create_checkpoint hash_data now slot s).2.
Proof.
  intros Hok. unfold maybe_create_checkpoint. rewrite gets_bind. case_match; [done|].
  pose proof (create_ok now slot s Hok) as Hc. unfold bindM.
  destruct (create_checkpoint hash_data now slot s) as [[c|e] s']; [|done].
  simpl in *. by destruct Hc.
Qed.

(** Finalizing a checkpoint that reached the quorum. *)
Lemma finalize_ok h p s :
  validator_set s = set → pending_checkpoints s !! h = Some p →
  (∀ h' p', delete h (pending_checkpoints s) !! h' = Some p' → pending_ok hash_data verify set h' p') →
  (∀ c, c ∈ finalized_checkpoints s → certificate hash_data verify set c) →
  certificate hash_data verify set (certified hash_data aggregate p set) →
  ok (finalize_checkpoint hash_data aggregate h s).2.
Proof.
  intros Hset Hp Hpend Hfin Hcert. unfold finalize_checkpoint. rewrite gets_bind. unfold id. rewrite Hp.
  unfold bindM, modify, store_checkpoint. simpl. rewrite Hset.
  destruct (put_checkpoint _ _) as [[u|e] st]; simpl; [|by split].
  unfold mark_vertices_finalized. simpl.
  assert (Hall : ∀ c, c ∈ finalized_checkpoints s ++ [certified hash_data aggregate p set] →
    certificate hash_data verify set c).
  { intros c [Hc|Hc]%elem_of_app; [by apply Hfin|]. apply list_elem_of_singleton in Hc. by subst. }
  destruct (dag_finalize _ _) as [[u'|e] d]; simpl; by split.
Qed.

Lemma receive_ok h sig s :
  ok s → ok (receive_checkpoint_signature hash_data verify aggregate h sig s).2.
Proof.
  intros [Hset Hp Hf]. unfold receive_checkpoint_signature. rewrite gets_bind. unfold id.
  assert (Hok : ok s) by done.
  destruct (pending_checkpoints s !! h) as [p|] eqn:Hh; [|done]. case_bool_decide as Hin; [done|].
  rewrite Hset. destruct (get_validator set (signer sig)) as [v|] eqn:Hv; [|done].
  rewrite fail_if_bind. destruct (negb (active v) || jailed v) eqn:Hact; [done|].
  apply orb_false_iff in Hact as [Hact%negb_false_iff Hjail].
  rewrite fail_if_bind. case_match; [done|]. rewrite fail_if_bind.
  destruct (verify _ _ _) eqn:Hver; [|done]. simpl.
  destruct (Hp h p Hh) as [Hhash Hsg Hnd Hsigned Hst Hshort].
  assert (Hnew : signer sig ∉ map signer (pc_signatures p)) by (rewrite Hsg in Hin; set_solver).
  pose proof (fine_wf _ Hfine) as Hwf. pose proof (total_active_spec set Hwf) as [Htot Hrange].
  set (sigs := pc_signatures p ++ [sig]).
  assert (Hstake : stake_in (validators set) (is_in (map signer sigs)) = pc_stake_signed p + effective_stake v).
  { unfold sigs. rewrite map_app, Hst. simpl. by apply stake_in_snoc; [apply Hwf|..]. }
  pose proof (stake_in_bounds (validators set) (is_in (map signer sigs)) (set_wf_stakes _ Hwf)) as Hb.
  pose proof (set_wf_range _ Hwf). rewrite Hstake in Hb.
  unfold checked_add. rewrite (proj2 (Z.leb_le _ _)) by lia.
  set (p' := mkPending (pc_checkpoint p) (pc_dag_tips p) sigs ({[signer sig]} ∪ pc_signers p)
    (pc_stake_signed p + effective_stake v)).
  assert (Hsigned' : ∀ a, a ∈ map signer sigs → signed_by verify set (signing_data hash_data (pc_checkpoint p)) a).
  { unfold sigs. rewrite map_app. intros a [Ha|Ha]%elem_of_app; [by apply Hsigned|].
    simpl in Ha. apply list_elem_of_singleton in Ha as ->. by exists v, (sig_bytes sig). }
  assert (Hnd' : NoDup (map signer sigs)).
  { unfold sigs. rewrite map_app. apply list.NoDup_app. split; [done|]. split; [set_solver|].
    simpl. apply NoDup_singleton. }
  unfold put_pending, modify, bindM at 1 2. simpl. rewrite insert_insert_eq. fold sigs. fold p'.
  destruct (Z.leb_spec (quorum_of (total_active_stake set)) (pc_stake_signed p + effective_stake v)) as [Hq|Hq].
  - unfold bindM. set (s' := set_pending (<[h := p']> (pending_checkpoints s))
      (set_pending _ s)). match goal with |- context [finalize_checkpoint _ _ h ?t] => set (t' := t) end.
    assert (Hfin : ok (finalize_checkpoint hash_data aggregate h t').2).
    { apply (finalize_ok h p' t'); try done; [by apply lookup_insert_eq| |].
      - intros h' q. simpl. rewrite delete_insert_eq. intros [_ Hq']%lookup_delete_Some. by apply Hp.
      - destruct (certified_signing_data hash_data aggregate p' set) as [E1 E2].
        split; rewrite ?E1, ?E2; try done. change (map signer (pc_signatures p')) with (map signer sigs).
        rewrite Hstake. by apply quorum_fine. }
    by destruct (finalize_checkpoint hash_data aggregate h t') as [[fc|e] s2].
  - apply (layer_ok_insert s); [done|]. split; simpl; try done.
    rewrite Hsg. unfold sigs. rewrite map_app. set_solver.
Qed.

Lemma step_ok s e : ok s → ok (step hash_data verify aggregate s e).
Proof. destruct e as [now slot|h sig|d]; simpl; intros Hok; [by apply tick_ok|by apply receive_ok|by destruct Hok]. Qed.

Lemma run_ok s es : ok s → ok (foldl (step hash_data verify aggregate) s es).
Proof. revert s. induction es as [|e es IH]; intros s Hok; simpl; [done|]. by apply IH, step_ok. Qed.

Lemma new_ok (st : CS) (d : D) interval n : ok (new st d set interval n).
Proof. split; simpl; [done| |set_solver]. intros h p. by rewrite lookup_empty. Qed.
End Invariant.

(** ** Proofs collected from a pending checkpoint *)

Definition stake_of (set : ValidatorSet) (a : Address) : Z := (stake_and_key set a).1.

Lemma stake_of_nonneg set a : wf set → 0 ≤ stake_of set a.
Proof.
  intros Hwf. unfold stake_of, stake_and_key. destruct (get_validator set a) as [v|] eqn:Hv; [|done].
  simpl. apply effective_nonneg. unfold get_validator in Hv. apply find_some in Hv as [Hv _].
  pose proof (set_wf_stakes _ Hwf) as Hs. rewrite list.Forall_forall in Hs. by apply Hs, list_elem_of_In.
Qed.

Lemma proof_fold_bound hash_data verify set sigs proof :
  wf set →
  let proof' := foldl (λ proof sig, let '(stake, key) := stake_and_key set (signer sig) in
    (add_signature hash_data verify sig stake key proof).2) proof sigs in
  stake_threshold proof' = stake_threshold proof ∧
  total_stake_signed proof' ≤ total_stake_signed proof + sumZ (map (stake_of set) (map signer sigs)).
Proof.
  intros Hwf. revert proof. induction sigs as [|sig sigs IH]; intros proof; simpl; [lia|].
  pose proof (stake_of_nonneg set (signer sig) Hwf) as Hnn. unfold stake_of in Hnn |- *.
  destruct (stake_and_key set (signer sig)) as [k key]. simpl in *.
  destruct (IH (add_signature hash_data verify sig k key proof).2) as [-> Hle].
  unfold stake_of in Hle. clear IH. revert Hle. unfold add_signature.
  repeat case_match; simpl; unfold saturating_add; lia.
Qed.

Lemma stake_sum set l :
  wf set → NoDup l → (∀ a, a ∈ l → is_Some (get_validator set a)) →
  sumZ (map (stake_of set) l) = stake_in (validators set) (is_in l).
Proof.
  intros Hwf. induction l as [|a l IH] using rev_ind; intros Hnd Hin; simpl.
  { by rewrite stake_in_empty. }
  apply list.NoDup_app in Hnd as (Hnd & Hdis & _). rewrite map_app, sumZ_app. simpl.
  destruct (Hin a) as [v Hv]; [set_solver|].
  rewrite IH, (stake_in_snoc _ l a v); [|apply Hwf|done|set_solver|done|set_solver].
  unfold stake_of, stake_and_key. rewrite Hv. simpl. lia.
Qed.

(** C3. Finality.  Whatever the order of ticks, signatures and graph changes,
    and whatever the store and the graph answer, while the validator set is
    fixed every finalized checkpoint carries a certificate: its recorded signers
    are distinct active members that made a valid signature on this very
    checkpoint, and they hold more than two thirds of the active stake. *)
Theorem finalized_has_quorum {D CS} `{FinalizableDag D} `{CheckpointStore CS} hash_data verify aggregate
    set (st : CS) (d : D) interval n es c :
  set_fine set →
  c ∈ finalized_checkpoints (foldl (step hash_data verify aggregate) (new st d set interval n) es) →
  certificate hash_data verify set c.
Proof.
  intros Hfine. apply (lay_finalized hash_data verify set).
  by apply run_ok, new_ok.
Qed.

(** C4. Accountability.  If two nodes with the same validator set finalize two
    checkpoints, validators holding more than a third of the active stake signed
    both: conflicting finality needs at least that much provable equivocation. *)
Theorem conflicting_finality_accountable {D CS} `{FinalizableDag D} `{CheckpointStore CS} hash_data verify
    aggregate set (st1 st2 : CS) (d1 d2 : D) i1 i2 n1 n2 es1 es2 c1 c2 :
  set_fine set →
  c1 ∈ finalized_checkpoints (foldl (step hash_data verify aggregate) (new st1 d1 set i1 n1) es1) →
  c2 ∈ finalized_checkpoints (foldl (step hash_data verify aggregate) (new st2 d2 set i2 n2) es2) →
  let both a := is_in (cp_validators c1) a && is_in (cp_validators c2) a in
  total_active_stake set < 3 * stake_in (validators set) both ∧
  ∀ a, both a = true →
    signed_by verify set (signing_data hash_data c1) a ∧ signed_by verify set (signing_data hash_data c2) a.
Proof.
  intros Hfine Hc1 Hc2 both.
  assert (Hok : ∀ st d i n es, layer_ok hash_data verify set
    (foldl (step hash_data verify aggregate) (new st d set i n) es)) by (intros; by apply run_ok, new_ok).
  apply (lay_finalized _ _ _ _ (Hok _ _ _ _ _)) in Hc1 as [_ Hs1 Hq1].
  apply (lay_finalized _ _ _ _ (Hok _ _ _ _ _)) in Hc2 as [_ Hs2 Hq2]. split.
  - pose proof (stake_in_and_or (validators set) (is_in (cp_validators c1)) (is_in (cp_validators c2))) as Hio.
    fold both in Hio. pose proof (fine_wf _ Hfine) as Hwf.
    pose proof (stake_in_bounds (validators set) (λ a, is_in (cp_validators c1) a || is_in (cp_validators c2) a)
      (set_wf_stakes _ Hwf)) as Hb. destruct (total_active_spec set Hwf) as [Ht _]. lia.
  - intros a [Ha1%bool_decide_eq_true Ha2%bool_decide_eq_true]%andb_true_iff. auto.
Qed.

(** A finality proof can never be produced: a checkpoint leaves the pending
    set in the step that reaches the quorum, and [create_finality_proof] only
    reads the pending set, so every proof it returns falls short of its own
    threshold and is rejected by [verify_finality_proof]. *)
Theorem no_finality_proof {D CS} `{FinalizableDag D} `{CheckpointStore CS} hash_data verify aggregate
    set (st : CS) (d : D) interval n es c proof :
  set_fine set →
  let s := foldl (step hash_data verify aggregate) (new st d set interval n) es in
  create_finality_proof hash_data verify s c = Ok proof →
  is_finalized proof = false ∧ verify_finality_proof hash_data verify s proof = false.
Proof.
  intros Hfine s Hcreate. assert (Hok : layer_ok hash_data verify set s) by (by apply run_ok, new_ok).
  unfold create_finality_proof in Hcreate. rewrite (lay_set _ _ _ _ Hok) in Hcreate.
  destruct (pending_checkpoints s !! _) as [p|] eqn:Hp; [|done]. injection Hcreate as <-.
  destruct (lay_pending _ _ _ _ Hok _ _ Hp) as [_ _ Hnd Hsigned Hst Hshort].
  pose proof (fine_wf _ Hfine) as Hwf.
  match goal with |- is_finalized ?q = _ ∧ _ => assert (Hlt : total_stake_signed q < stake_threshold q) end.
  { destruct (proof_fold_bound hash_data verify set (pc_signatures p)
      (new_proof c (quorum_of (total_active_stake set))) Hwf) as [-> Hle]. simpl in Hle |- *.
    rewrite stake_sum in Hle; [lia|done..|]. intros a Ha. by destruct (Hsigned a Ha) as (v & sig & -> & _). }
  unfold is_finalized, verify_finality_proof.
  split; [by apply Z.leb_gt|]. by rewrite (proj2 (Z.ltb_lt _ _) Hlt).
Qed.

(** ** Acceptance of finality proofs *)

Lemma check_signatures_spec verify set data sigs seen acc r :
  check_signatures verify set data sigs seen acc = Some r →
  NoDup (map signer sigs) ∧ (∀ a, a ∈ map signer sigs → a ∉ seen ∧ signed_by verify set data a).
Proof.
  revert seen acc. induction sigs as [|sig sigs IH]; intros seen acc; simpl; [split; [constructor|set_solver]|].
  case_bool_decide as Hin; [done|]. destruct (get_validator set (signer sig)) as [v|] eqn:Hv; [|done].
  destruct (negb (active v) || jailed v || _) eqn:Hg; [done|].
  apply orb_false_iff in Hg as [[Ha%negb_false_iff Hj]%orb_false_iff _].
  destruct (verify _ _ _) eqn:Hver; [|done]. simpl. intros Hr. apply IH in Hr as [Hnd Hall]. split.
  - apply list.NoDup_cons. split; [|done]. intros Hx. apply Hall in Hx as [Hx _]. set_solver.
  - intros a [->|Ha']%elem_of_cons; [split; [done|by exists v, (sig_bytes sig)]|].
    apply Hall in Ha' as [Hx ?]. split; [set_solver|done].
Qed.

(** What an accepted finality proof shows, and what it does not.  If
    [verify_finality_proof] accepts, the signers are distinct active members that
    signed the checkpoint and the stated threshold is met; but the threshold is
    the proof's own and is never compared with the quorum of the validator set:
    an empty proof with threshold zero is accepted for every checkpoint. *)
Theorem finality_proof_acceptance {D CS} hash_data verify (s : FinalityLayer D CS) :
  (∀ proof, verify_finality_proof hash_data verify s proof = true →
    NoDup (map signer (super_committee_signatures proof)) ∧
    (∀ a, a ∈ map signer (super_committee_signatures proof) →
      signed_by verify (validator_set s) (signing_data hash_data (checkpoint proof)) a) ∧
    is_finalized proof = true) ∧
  (∀ c, verify_finality_proof hash_data verify s (new_proof c 0) = true).
Proof.
  split; [|done]. intros proof. unfold verify_finality_proof, is_finalized.
  destruct (Z.ltb_spec (total_stake_signed proof) (stake_threshold proof)); [done|].
  destruct (check_signatures _ _ _ _ _ _) as [r|] eqn:Hc; [|done]. intros _.
  apply check_signatures_spec in Hc as [Hnd Hall]. split; [done|]. split; [|by apply Z.leb_le].
  intros a Ha. by apply Hall.
Qed.

(** ** Concrete runs *)

Module Node.
#[local] Instance no_dag : FinalizableDag () := {|
  dag_tips _ _ := [3; 4; 5]; dag_vertex_count _ := 3; dag_finalize _ d := (Ok (3, 0), d)
|}.
#[local] Instance no_store : CheckpointStore () := {|
  put_checkpoint _ s := (Ok (), s); load_checkpoint _ _ _ := Ok None; stored_state_root _ _ := Ok (Some 9)
|}.

Definition hash_data (l : list Z) : Hash := sumZ l.
Definition verify (pk msg sig : list Z) : bool := bool_decide (pk = sig).
Definition aggregate (sigs keys : list (list Z)) (m : list Z) (positions : list nat) (n : nat) : option (list Z) := None.

Definition member (a stake : Z) : Validator := mkValidator a [a] [a] stake 500 true false 0 0 [1].
Definition set : ValidatorSet := mkValidatorSet [member 1 10; member 2 20; member 3 5] 35 0.
Definition start (slots : nat) : FinalityLayer () () := new () () set 1 slots.

(** A checkpoint at slot 100, then signatures of all three validators. *)
Definition hash_at (now : Z) : Hash :=
  match (create_checkpoint hash_data now 100 (start 2)).1 with
  | Ok c => Checkpoint.hash hash_data c
  | Err _ => 0
  end.
Definition sign (a : Z) : ValidatorSignature := mkValidatorSignature a [a] 0.
Definition history (now : Z) (signers : list Z) : list (Event (D := ())) :=
  ETick now 100 :: map (λ a, EReceive (hash_at now) (sign a)) signers.
Definition final (now : Z) (signers : list Z) : FinalityLayer () () :=
  foldl (step hash_data verify aggregate) (start 2) (history now signers).
Definition first_finalized (s : FinalityLayer () ()) : Checkpoint :=
  default genesis (head (finalized_checkpoints s)).

Lemma sample_set_fine : set_fine set.
Proof.
  split; [split|]; simpl.
  - apply (bool_decide_unpack _). by vm_compute.
  - done.
  - repeat constructor; done.
  - done.
  - done.
  - done.
Qed.

Lemma sample_finalized now signers :
  finalized_checkpoints (final now signers) = [first_finalized (final now signers)] →
  first_finalized (final now signers) ∈ finalized_checkpoints (final now signers).
Proof. intros ->. by left. Qed.

Lemma finalized_has_quorum_witness :
  certificate hash_data verify set (first_finalized (final 7 [1; 2])) ∧
  cp_validators (first_finalized (final 7 [1; 2])) = [1; 2].
Proof.
  split; [|by vm_compute].
  apply (finalized_has_quorum hash_data verify aggregate set () () 1 2
    (history 7 [1; 2])); [apply sample_set_fine|].
  apply sample_finalized. by vm_compute.
Defined.

Lemma conflicting_finality_accountable_witness :
  let c1 := first_finalized (final 7 [1; 2]) in
  let c2 := first_finalized (final 8 [2; 3]) in
  total_active_stake set < 3 * stake_in (validators set)
    (λ a, is_in (cp_validators c1) a && is_in (cp_validators c2) a).
Proof.
  intros c1 c2.
  refine (proj1 (conflicting_finality_accountable hash_data verify aggregate set
    () () () () 1 1 2 2 (history 7 [1; 2]) (history 8 [2; 3]) c1 c2 _ _ _)).
  - apply sample_set_fine.
  - apply sample_finalized. by vm_compute.
  - apply sample_finalized. by vm_compute.
Defined.

Lemma no_finality_proof_witness :
  let s := final 7 [1] in
  match create_finality_proof hash_data verify s
          (match (create_checkpoint hash_data 7 100 (start 2)).1 with Ok c => c | Err _ => genesis end) with
  | Ok proof => is_finalized proof = false
  | Err _ => False
  end.
Proof.
  intros s. destruct (create_finality_proof _ _ s _) as [proof|e] eqn:Hp; [|by vm_compute in Hp].
  exact (proj1 (no_finality_proof hash_data verify aggregate set () () 1 2
    (history 7 [1]) _ proof sample_set_fine Hp)).
Defined.
End Node.
