(* ===== verification/Slashing.v ===== *)
(** * Slashing

    Models [SlashingManager] of [src/L1/src/consensus/slashing.rs]: registration,
    submission and validation of evidence, execution of slashings with the split
    of the penalty, jailing, downtime tracking and pruning.

    SHA3-256 and the signature check ([verify_ml_dsa_65], which never fails other
    than by answering false) are arguments.  The floating-point expression
    of progressive slashing, [(penalty as f64 * multiplier.powi(n)) as u64], is the
    argument [scale].  The evidence pool is processed in the order of the finite
    map (in the code, that of the hash map).  Error texts are shortened. *)

From stdpp Require Import sorting.
From S2P Require Import Prelude Bytes.

Definition MIN_VALIDATOR_STAKE : Z := 10000.
Definition MAX_VALIDATOR_STAKE : Z := 1000000000000.

(** ** Data *)

Inductive SlashingError : Type :=
  | InvalidEvidence (e : string)
  | DuplicateEvidence (id : Hash)
  | ValidatorNotFound
  | EvidenceExpired (offense current : Z)
  | InsufficientStake (required available : Z)
  | AlreadyJailed
  | SignatureVerificationFailed
  | SelfSlashing.

Record SlashingConfig : Type := mkSlashingConfig {
  double_sign_penalty_bps : Z;
  surround_vote_penalty_bps : Z;
  downtime_penalty_bps : Z;
  invalid_block_penalty_bps : Z;
  equivocation_penalty_bps : Z;
  front_running_penalty_bps : Z;
  max_evidence_age : Z;
  jail_duration : Z;
  min_stake_after_slash : Z;
  reporter_reward_bps : Z;
  burn_percentage_bps : Z;
  max_downtime_epochs : Z;
  progressive_slashing : bool
}.

Definition default_config : SlashingConfig :=
  mkSlashingConfig 500 500 10 1000 500 200 10000 50000 1000 1000 5000 3 true.

Inductive OffenseType : Type :=
  | DoubleSigning | SurroundVote | Downtime | InvalidBlock | Equivocation | FrontRunning
  | Custom (name : string).

#[export] Instance OffenseType_eq_dec : EqDecision OffenseType.
Proof. solve_decision. Defined.

#[export] Instance OffenseType_countable : Countable OffenseType.
Proof.
  refine (inj_countable'
    (λ o, match o with
          | DoubleSigning => inl 0 | SurroundVote => inl 1 | Downtime => inl 2 | InvalidBlock => inl 3
          | Equivocation => inl 4 | FrontRunning => inl 5 | Custom n => inr n
          end)
    (λ x : Z + string, match x with
          | inl 0 => DoubleSigning | inl 1 => SurroundVote | inl 2 => Downtime | inl 3 => InvalidBlock
          | inl 4 => Equivocation | inl _ => FrontRunning | inr n => Custom n
          end) _); by intros [].
Defined.

Definition base_penalty_bps (o : OffenseType) (c : SlashingConfig) : Z :=
  match o with
  | DoubleSigning => double_sign_penalty_bps c
  | SurroundVote => surround_vote_penalty_bps c
  | Downtime => downtime_penalty_bps c
  | InvalidBlock => invalid_block_penalty_bps c
  | Equivocation => equivocation_penalty_bps c
  | FrontRunning => front_running_penalty_bps c
  | Custom _ => 100
  end.

Definition results_in_jail (o : OffenseType) : bool :=
  match o with Downtime | Custom _ => false | _ => true end.

Record SignedMessage : Type := mkSignedMessage {
  message_hash : Hash;
  msg_slot : Z;
  msg_signature : list Z;
  block_hash : option Hash
}.

Record SignedVote : Type := mkSignedVote {
  vote_source : Z;
  vote_target : Z;
  vote_hash : Hash;
  vote_signature : list Z
}.

Inductive DutyType : Type := BlockProposal | Attestation | SyncCommittee.

Record MissedDuty : Type := mkMissedDuty {
  duty_slot : Z;
  duty_type : DutyType
}.

Inductive EvidenceData : Type :=
  | DoubleSigningData (message1 message2 : SignedMessage)
  | SurroundVoteData (vote1 vote2 : SignedVote)
  | DowntimeData (start_slot end_slot : Z) (missed_duties : list MissedDuty)
  | InvalidBlockData (block_hash : Hash) (block_slot : Z) (validation_error : string)
      (proposer_signature : list Z)
  | EquivocationData (vote1 vote2 : SignedVote) (committee_round : Z)
  | FrontRunningData (block : Z) (ordering_beacon : Hash) (canonical_order proposed_order : list Hash)
      (leader_signature : list Z).

Record SlashingEvidence : Type := mkEvidence {
  ev_id : Hash;
  offense_type : OffenseType;
  ev_validator : Address;
  offense_slot : Z;
  submission_slot : Z;
  reporter : Address;
  evidence_data : EvidenceData;
  evidence_hash : Hash
}.

Record SlashingRecord : Type := mkSlashingRecord {
  rec_evidence_id : Hash;
  rec_offense : OffenseType;
  amount_slashed : Z;
  slashed_at : Z;
  rec_reporter : Address;
  rec_reporter_reward : Z;
  rec_burned : Z;
  rec_jailed : bool
}.

Record JailStatus : Type := mkJail {
  jailed_at : Z;
  jail_ends_at : Z;
  jail_reason : OffenseType;
  jail_count : Z
}.

Record SlashingExecution : Type := mkSlashingExecution {
  ex_validator : Address;
  total_slashed : Z;
  ex_reporter_reward : Z;
  amount_burned : Z;
  amount_redistributed : Z;
  ex_jailed : bool;
  new_stake : Z
}.

Record SlashingMetrics : Type := mkMetrics {
  evidence_submitted : Z;
  evidence_validated : Z;
  evidence_rejected : Z;
  total_slashings : Z;
  total_amount_slashed : Z;
  total_amount_burned : Z;
  total_reporter_rewards : Z;
  validators_jailed : Z;
  slashings_by_type : gmap OffenseType Z
}.

Record SlashingManager : Type := mkSlashing {
  config : SlashingConfig;
  evidence_pool : gmap Hash SlashingEvidence;
  processed_evidence : gmap Hash Z;
  slashing_history : gmap Address (list SlashingRecord);
  jail_status : gmap Address JailStatus;
  validator_stakes : gmap Address Z;
  validator_pubkeys : gmap Address (list Z);
  downtime_tracker : gmap Address (list MissedDuty);
  current_slot : Z;
  metrics : SlashingMetrics
}.

Definition set_pool v s := mkSlashing (config s) v (processed_evidence s) (slashing_history s) (jail_status s)
  (validator_stakes s) (validator_pubkeys s) (downtime_tracker s) (current_slot s) (metrics s).
Definition set_processed v s := mkSlashing (config s) (evidence_pool s) v (slashing_history s) (jail_status s)
  (validator_stakes s) (validator_pubkeys s) (downtime_tracker s) (current_slot s) (metrics s).
Definition set_history v s := mkSlashing (config s) (evidence_pool s) (processed_evidence s) v (jail_status s)
  (validator_stakes s) (validator_pubkeys s) (downtime_tracker s) (current_slot s) (metrics s).
Definition set_jail v s := mkSlashing (config s) (evidence_pool s) (processed_evidence s) (slashing_history s) v
  (validator_stakes s) (validator_pubkeys s) (downtime_tracker s) (current_slot s) (metrics s).
Definition set_stakes v s := mkSlashing (config s) (evidence_pool s) (processed_evidence s) (slashing_history s)
  (jail_status s) v (validator_pubkeys s) (downtime_tracker s) (current_slot s) (metrics s).
Definition set_pubkeys v s := mkSlashing (config s) (evidence_pool s) (processed_evidence s) (slashing_history s)
  (jail_status s) (validator_stakes s) v (downtime_tracker s) (current_slot s) (metrics s).
Definition set_tracker v s := mkSlashing (config s) (evidence_pool s) (processed_evidence s) (slashing_history s)
  (jail_status s) (validator_stakes s) (validator_pubkeys s) v (current_slot s) (metrics s).
Definition set_slot v s := mkSlashing (config s) (evidence_pool s) (processed_evidence s) (slashing_history s)
  (jail_status s) (validator_stakes s) (validator_pubkeys s) (downtime_tracker s) v (metrics s).
Definition set_metrics v s := mkSlashing (config s) (evidence_pool s) (processed_evidence s) (slashing_history s)
  (jail_status s) (validator_stakes s) (validator_pubkeys s) (downtime_tracker s) (current_slot s) v.

Definition new (config : SlashingConfig) : SlashingManager :=
  mkSlashing config ∅ ∅ ∅ ∅ ∅ ∅ ∅ 0 (mkMetrics 0 0 0 0 0 0 0 0 ∅).

Abbreviation OP A := (M SlashingManager SlashingError A).

(** ** Registration *)

Definition set_current_slot (slot : Z) : SlashingManager → SlashingManager := set_slot slot.

Definition check_stake (stake : Z) : OP () :=
  fail_if (stake <? MIN_VALIDATOR_STAKE) (InsufficientStake MIN_VALIDATOR_STAKE stake) ?;
  fail_if (MAX_VALIDATOR_STAKE <? stake) (InvalidEvidence "Stake exceeds maximum").

Definition register_validator (validator : Address) (stake : Z) : OP () :=
  check_stake stake ?;
  modify (λ s, set_stakes (<[validator := stake]> (validator_stakes s)) s).

Definition register_validator_with_pubkey (validator : Address) (stake : Z) (public_key : list Z) : OP () :=
  check_stake stake ?;
  modify (λ s, set_stakes (<[validator := stake]> (validator_stakes s)) s) ?;
  modify (λ s, set_pubkeys (<[validator := public_key]> (validator_pubkeys s)) s).

Definition get_validator_pubkey (s : SlashingManager) (validator : Address) : option (list Z) :=
  validator_pubkeys s !! validator.

(** ** Validation of evidence *)

Section Validation.
Context (hash_data : list Z → Hash) (verify : list Z → list Z → list Z → bool).
Implicit Types (s : SlashingManager) (evidence : SlashingEvidence).

(** The position of a validator in the sorted list of addresses. *)
Definition get_validator_index s (validator : Address) : nat :=
  match list_find (λ v, v = validator) (merge_sort Z.le (map_to_list (validator_stakes s)).*1) with
  | Some (i, _) => i
  | None => 0%nat
  end.

Definition assignment_seed (validator : Address) (slot epoch : Z) : Hash :=
  hash_data (le_bytes 8 epoch ++ le_bytes 8 slot ++ hash_bytes validator).

(** Bytes [i..i+8] of a hash as a little-endian number. *)
Definition seed_word (h : Hash) (i : nat) : Z := of_le_bytes (take 8 (drop i (hash_bytes h))).

Definition verify_duty_assignment s (validator : Address) (slot epoch : Z) (duty : DutyType) : bool :=
  match validator_stakes s !! validator with
  | None => false
  | Some stake =>
      if stake <? min_stake_after_slash (config s) then false
      else
        let seed := assignment_seed validator slot epoch in
        match duty with
        | BlockProposal =>
            let total_validators := Z.of_nat (size (validator_stakes s)) in
            if total_validators =? 0 then false
            else seed_word seed 0 mod total_validators =? Z.of_nat (get_validator_index s validator)
        | Attestation => seed_word seed 8 mod 32 =? slot mod 32
        | SyncCommittee =>
            let sync_hash := hash_data (le_bytes 8 (epoch / 256) ++ hash_bytes validator) in
            seed_word sync_hash 0 <? wrapping_mul u64_max (u64_max / 512) (Z.min (stake / 1000) 10)
        end
  end.

(** Both signatures of the registered key over two hashes in a domain. *)
Definition check_two_signatures s (validator : Address) (domain : list Z) (h1 : Hash) (sig1 : list Z)
    (h2 : Hash) (sig2 : list Z) : Result () SlashingError :=
  match get_validator_pubkey s validator with
  | None => Err (InvalidEvidence "Validator public key not registered")
  | Some key =>
      if negb (verify key (with_domain domain (hash_bytes h1)) sig1) then Err SignatureVerificationFailed
      else if negb (verify key (with_domain domain (hash_bytes h2)) sig2) then Err SignatureVerificationFailed
      else Ok ()
  end.

Definition validate_double_signing s evidence (msg1 msg2 : SignedMessage) : Result () SlashingError :=
  if negb (msg_slot msg1 =? msg_slot msg2) then Err (InvalidEvidence "Messages not from same slot")
  else if message_hash msg1 =? message_hash msg2 then Err (InvalidEvidence "Messages are identical")
  else check_two_signatures s (ev_validator evidence) DOMAIN_SLASH_DOUBLE_SIGN
         (message_hash msg1) (msg_signature msg1) (message_hash msg2) (msg_signature msg2).

Definition surrounds (v1 v2 : SignedVote) : bool :=
  (vote_source v1 <? vote_source v2) && (vote_target v2 <? vote_target v1).

Definition validate_surround_vote s evidence (vote1 vote2 : SignedVote) : Result () SlashingError :=
  if negb (surrounds vote1 vote2) && negb (surrounds vote2 vote1) then
    Err (InvalidEvidence "Votes do not constitute a surround")
  else check_two_signatures s (ev_validator evidence) DOMAIN_SLASH_EQUIVOC
         (vote_hash vote1) (vote_signature vote1) (vote_hash vote2) (vote_signature vote2).

Definition validate_equivocation s evidence (vote1 vote2 : SignedVote) : Result () SlashingError :=
  if negb (vote_target vote1 =? vote_target vote2) then Err (InvalidEvidence "Votes not for same target")
  else if vote_hash vote1 =? vote_hash vote2 then Err (InvalidEvidence "Votes are identical")
  else check_two_signatures s (ev_validator evidence) DOMAIN_SLASH_EQUIVOC
         (vote_hash vote1) (vote_signature vote1) (vote_hash vote2) (vote_signature vote2).

(** The loop over the missed duties: how many were assigned. *)
Fixpoint count_missed s (validator : Address) (duties : list MissedDuty) (verified : Z) : Result Z SlashingError :=
  match duties with
  | [] => Ok verified
  | duty :: duties' =>
      if current_slot s <? duty_slot duty then Err (InvalidEvidence "Missed duty in future slot")
      else if max_evidence_age (config s) <? current_slot s - duty_slot duty then
        Err (InvalidEvidence "Missed duty too old")
      else
        let was_assigned := verify_duty_assignment s validator (duty_slot duty) (duty_slot duty / 32)
                              (duty_type duty) in
        count_missed s validator duties' (if was_assigned then verified + 1 else verified)
  end.

Definition validate_downtime s evidence (missed_duties : list MissedDuty) : Result () SlashingError :=
  match missed_duties with
  | [] => Err (InvalidEvidence "No missed duties provided")
  | _ =>
      match count_missed s (ev_validator evidence) missed_duties 0 with
      | Err e => Err e
      | Ok verified => if verified <? 10 then Err (InvalidEvidence "Not enough verified missed duties") else Ok ()
      end
  end.

Definition invalid_block_signing_data (validator : Address) (block_slot : Z) (block_hash : Hash) : list Z :=
  with_domain DOMAIN_SLASH_INVALID_BLOCK
    (hash_bytes validator ++ le_bytes 8 block_slot ++ hash_bytes block_hash).

Definition validate_invalid_block s evidence (block_hash : Hash) (block_slot : Z) (validation_error : string)
    (proposer_signature : list Z) : Result () SlashingError :=
  if block_hash =? 0 then Err (InvalidEvidence "Invalid block hash: empty")
  else if bool_decide (validation_error = ""%string) then Err (InvalidEvidence "No validation error provided")
  else if current_slot s <? block_slot then Err (InvalidEvidence "Block in future slot")
  else if max_evidence_age (config s) <? current_slot s - block_slot then Err (InvalidEvidence "Block too old")
  else if negb (verify_duty_assignment s (ev_validator evidence) block_slot (block_slot / 32) BlockProposal) then
    Err (InvalidEvidence "Validator was not assigned as block proposer")
  else
    match get_validator_pubkey s (ev_validator evidence) with
    | None => Err (InvalidEvidence "Validator public key not registered for invalid block evidence")
    | Some key =>
        if negb (verify key (invalid_block_signing_data (ev_validator evidence) block_slot block_hash)
                   proposer_signature) then Err SignatureVerificationFailed
        else Ok ()
    end.

Definition front_run_order_signing_payload (block : Z) (beacon : Hash) (tx_order : list Hash) : list Z :=
  with_domain DOMAIN_SLASH_FRONT_RUN (le_bytes 8 block ++ hash_bytes beacon ++ concat (map hash_bytes tx_order)).

Definition validate_front_running s evidence (block : Z) (ordering_beacon : Hash)
    (canonical_order proposed_order : list Hash) (leader_signature : list Z) : Result () SlashingError :=
  if bool_decide (canonical_order = []) then Err (InvalidEvidence "empty canonical order")
  else if bool_decide (proposed_order = []) then Err (InvalidEvidence "empty proposed order")
  else if bool_decide (canonical_order = proposed_order) then Err (InvalidEvidence "orders match; not front-running")
  else if negb (verify_duty_assignment s (ev_validator evidence) block (block / 32) BlockProposal) then
    Err (InvalidEvidence "validator was not block proposer")
  else
    match get_validator_pubkey s (ev_validator evidence) with
    | None => Err (InvalidEvidence "validator public key not registered")
    | Some key =>
        if negb (verify key (front_run_order_signing_payload block ordering_beacon proposed_order)
                   leader_signature) then Err SignatureVerificationFailed
        else Ok ()
    end.

Definition validate_data s evidence : Result () SlashingError :=
  match evidence_data evidence with
  | DoubleSigningData m1 m2 => validate_double_signing s evidence m1 m2
  | SurroundVoteData v1 v2 => validate_surround_vote s evidence v1 v2
  | DowntimeData _ _ duties => validate_downtime s evidence duties
  | InvalidBlockData h slot e sig => validate_invalid_block s evidence h slot e sig
  | EquivocationData v1 v2 _ => validate_equivocation s evidence v1 v2
  | FrontRunningData b beacon canonical proposed sig =>
      validate_front_running s evidence b beacon canonical proposed sig
  end.

Definition count_validated (m : SlashingMetrics) : SlashingMetrics :=
  mkMetrics (evidence_submitted m) (wrapping_add u64_max (evidence_validated m) 1) (evidence_rejected m)
    (total_slashings m) (total_amount_slashed m) (total_amount_burned m) (total_reporter_rewards m)
    (validators_jailed m) (slashings_by_type m).
Definition count_submitted (m : SlashingMetrics) : SlashingMetrics :=
  mkMetrics (wrapping_add u64_max (evidence_submitted m) 1) (evidence_validated m) (evidence_rejected m)
    (total_slashings m) (total_amount_slashed m) (total_amount_burned m) (total_reporter_rewards m)
    (validators_jailed m) (slashings_by_type m).
Definition count_rejected (m : SlashingMetrics) : SlashingMetrics :=
  mkMetrics (evidence_submitted m) (evidence_validated m) (wrapping_add u64_max (evidence_rejected m) 1)
    (total_slashings m) (total_amount_slashed m) (total_amount_burned m) (total_reporter_rewards m)
    (validators_jailed m) (slashings_by_type m).
Definition set_jailed_count (n : Z) (m : SlashingMetrics) : SlashingMetrics :=
  mkMetrics (evidence_submitted m) (evidence_validated m) (evidence_rejected m)
    (total_slashings m) (total_amount_slashed m) (total_amount_burned m) (total_reporter_rewards m)
    n (slashings_by_type m).
Definition count_slashing (o : OffenseType) (slashed burned reward : Z) (m : SlashingMetrics) : SlashingMetrics :=
  mkMetrics (evidence_submitted m) (evidence_validated m) (evidence_rejected m)
    (wrapping_add u64_max (total_slashings m) 1) (wrapping_add u64_max (total_amount_slashed m) slashed)
    (wrapping_add u64_max (total_amount_burned m) burned)
    (wrapping_add u64_max (total_reporter_rewards m) reward) (validators_jailed m)
    (<[o := wrapping_add u64_max (default 0 (slashings_by_type m !! o)) 1]> (slashings_by_type m)).
Definition on_metrics (f : SlashingMetrics → SlashingMetrics) s : SlashingManager := set_metrics (f (metrics s)) s.

Definition validate_evidence evidence : OP () :=
  s <-? gets id;
  fail_if (bool_decide (validator_stakes s !! ev_validator evidence = None)) ValidatorNotFound ?;
  lift (validate_data s evidence) ?;
  modify (on_metrics count_validated).

Definition submit_evidence evidence : OP Hash :=
  s <-? gets id;
  fail_if (bool_decide (is_Some (processed_evidence s !! ev_id evidence))) (DuplicateEvidence (ev_id evidence)) ?;
  fail_if (current_slot s <? offense_slot evidence) (InvalidEvidence "Evidence from future slot") ?;
  fail_if (wrapping_add u64_max (offense_slot evidence) (max_evidence_age (config s)) <? current_slot s)
    (EvidenceExpired (offense_slot evidence) (current_slot s)) ?;
  validate_evidence evidence ?;
  modify (λ s, set_pool (<[ev_id evidence := evidence]> (evidence_pool s)) s) ?;
  modify (on_metrics count_submitted) ?;
  returns (ev_id evidence).
End Validation.

(** ** Execution *)

Section Execution.
Context (scale : Z → nat → Z).
Implicit Types (s : SlashingManager) (evidence : SlashingEvidence).

(** The penalty in basis points, at most 10000. *)
Definition penalty_bps s evidence : Z :=
  let base := base_penalty_bps (offense_type evidence) (config s) in
  let offense_count := length (default [] (slashing_history s !! ev_validator evidence)) in
  let p := if progressive_slashing (config s) && (0 <? offense_count)%nat then scale base offense_count
           else base in
  Z.min p 10000.

(** Slashed, rewarded, burned and redistributed amounts for a stake. *)
Definition amounts (c : SlashingConfig) (stake penalty : Z) : Z * Z * Z * Z :=
  let slash_amount := wrapping_mul u64_max stake penalty / 10000 in
  let reporter_reward := wrapping_mul u64_max slash_amount (reporter_reward_bps c) / 10000 in
  let remaining := wrapping_sub u64_max slash_amount reporter_reward in
  let burn_amount := wrapping_mul u64_max remaining (burn_percentage_bps c) / 10000 in
  (slash_amount, reporter_reward, burn_amount, wrapping_sub u64_max remaining burn_amount).

Definition is_jailed s (validator : Address) : bool :=
  match jail_status s !! validator with
  | Some jail => current_slot s <? jail_ends_at jail
  | None => false
  end.

Definition put_in_jail evidence s : SlashingManager :=
  let v := ev_validator evidence in
  let count := match jail_status s !! v with Some j => wrapping_add u32_max (jail_count j) 1 | None => 1 end in
  on_metrics (λ m, set_jailed_count (wrapping_add u64_max (validators_jailed m) 1) m)
    (set_jail (<[v := mkJail (current_slot s) (wrapping_add u64_max (current_slot s) (jail_duration (config s)))
                       (offense_type evidence) count]> (jail_status s)) s).

Definition execute_slashing evidence : OP SlashingExecution :=
  s <-? gets id;
  let v := ev_validator evidence in
  fail_if (is_jailed s v) AlreadyJailed ?;
  match validator_stakes s !! v with
  | None => throw ValidatorNotFound
  | Some current_stake =>
      let '(slash_amount, reward, burn, redistribute) := amounts (config s) current_stake (penalty_bps s evidence) in
      let stake' := saturating_sub current_stake slash_amount in
      modify (λ s, set_stakes (<[v := stake']> (validator_stakes s)) s) ?;
      let jailed := results_in_jail (offense_type evidence) in
      modify (λ s, if jailed then put_in_jail evidence s else s) ?;
      let record := mkSlashingRecord (ev_id evidence) (offense_type evidence) slash_amount (current_slot s)
                      (reporter evidence) reward burn jailed in
      modify (λ s, set_history (<[v := default [] (slashing_history s !! v) ++ [record]]> (slashing_history s)) s) ?;
      modify (on_metrics (count_slashing (offense_type evidence) slash_amount burn reward)) ?;
      returns (mkSlashingExecution v slash_amount reward burn redistribute jailed stake')
  end.

(** One iteration of [process_evidence]; evidence that fails is dropped. *)
Definition process_one (st : list SlashingExecution * SlashingManager) (id : Hash)
    : list SlashingExecution * SlashingManager :=
  let '(executions, s) := st in
  match evidence_pool s !! id with
  | None => st
  | Some evidence =>
      match execute_slashing evidence (set_pool (delete id (evidence_pool s)) s) with
      | (Ok execution, s') =>
          (executions ++ [execution], set_processed (<[id := current_slot s']> (processed_evidence s')) s')
      | (Err _, s') => (executions, on_metrics count_rejected s')
      end
  end.

Definition process_evidence s : list SlashingExecution * SlashingManager :=
  foldl process_one ([], s) (map_to_list (evidence_pool s)).*1.
End Execution.

(** ** Downtime, jail and pruning *)

Definition record_missed_duty (validator : Address) (duty : MissedDuty) (s : SlashingManager) : SlashingManager :=
  set_tracker (<[validator := default [] (downtime_tracker s !! validator) ++ [duty]]> (downtime_tracker s)) s.

Definition check_downtime (hash_data : list Z → Hash) (s : SlashingManager) (validator : Address)
    : option SlashingEvidence :=
  missed_duties ← downtime_tracker s !! validator;
  if Z.of_nat (length missed_duties) <? 100 then None
  else
    let start_slot := match head missed_duties with Some d => duty_slot d | None => 0 end in
    let end_slot := match list.last missed_duties with Some d => duty_slot d | None => current_slot s end in
    let h := hash_data (hash_bytes validator ++ le_bytes 8 start_slot ++ le_bytes 8 end_slot) in
    Some (mkEvidence h Downtime validator end_slot (current_slot s) 0
            (DowntimeData start_slot end_slot missed_duties) h).

Definition get_jail_status (s : SlashingManager) (v : Address) : option JailStatus := jail_status s !! v.
Definition get_slashing_history (s : SlashingManager) (v : Address) : list SlashingRecord :=
  default [] (slashing_history s !! v).

Definition unjail (validator : Address) : OP () :=
  s <-? gets id;
  fail_if (is_jailed s validator) AlreadyJailed ?;
  modify (λ s, set_jail (delete validator (jail_status s)) s) ?;
  modify (on_metrics (λ m, set_jailed_count (saturating_sub (validators_jailed m) 1) m)).

Definition pending_evidence_count (s : SlashingManager) : nat := size (evidence_pool s).

Definition prune_processed_evidence (before_slot : Z) (s : SlashingManager) : SlashingManager :=
  set_processed (filter (λ kv, before_slot ≤ kv.2) (processed_evidence s)) s.

(** ** Specification vocabulary *)

(** The configuration and the stakes keep the arithmetic within a [u64]. *)
Record config_fine (c : SlashingConfig) : Prop := {
  cfg_reporter : 0 ≤ reporter_reward_bps c ≤ 10000;
  cfg_burn : 0 ≤ burn_percentage_bps c ≤ 10000;
  cfg_penalties : ∀ o, 0 ≤ base_penalty_bps o c
}.

Definition stakes_fine (s : SlashingManager) : Prop :=
  ∀ v x, validator_stakes s !! v = Some x → 0 ≤ x ≤ MAX_VALIDATOR_STAKE.

(** What the records of a validator add up to. *)
Definition slashed_sum (s : SlashingManager) (v : Address) : Z :=
  foldr Z.add 0 (map amount_slashed (get_slashing_history s v)).

(** The calls on a manager. *)
Inductive SlashOp : Type :=
  | SSlot (slot : Z)
  | SRegister (v : Address) (stake : Z)
  | SRegisterKey (v : Address) (stake : Z) (key : list Z)
  | SSubmit (evidence : SlashingEvidence)
  | SProcess
  | SMissed (v : Address) (duty : MissedDuty)
  | SUnjail (v : Address)
  | SPrune (before : Z).

Definition registers (v : Address) (o : SlashOp) : bool :=
  match o with SRegister w _ | SRegisterKey w _ _ => w =? v | _ => false end.

Definition step (hash_data : list Z → Hash) (verify : list Z → list Z → list Z → bool) (scale : Z → nat → Z)
    (s : SlashingManager) (o : SlashOp) : SlashingManager :=
  match o with
  | SSlot n => set_current_slot n s
  | SRegister v x => (register_validator v x s).2
  | SRegisterKey v x k => (register_validator_with_pubkey v x k s).2
  | SSubmit e => (submit_evidence hash_data verify e s).2
  | SProcess => (process_evidence scale s).2
  | SMissed v d => record_missed_duty v d s
  | SUnjail v => (unjail v s).2
  | SPrune n => prune_processed_evidence n s
  end.

(** ** The amounts of a slashing *)

Lemma div_bps x p : 0 ≤ x → 0 ≤ p ≤ 10000 → 0 ≤ x * p / 10000 ≤ x.
Proof.
  intros Hx Hp. split; [apply Z.div_pos; nia|]. apply Z.div_le_upper_bound; nia.
Qed.

Lemma amounts_spec c stake penalty :
  config_fine c → 0 ≤ stake ≤ MAX_VALIDATOR_STAKE → 0 ≤ penalty ≤ 10000 →
  let '(slashed, reward, burn, redistribute) := amounts c stake penalty in
  slashed = stake * penalty / 10000 ∧ 0 ≤ slashed ≤ stake ∧ 0 ≤ reward ∧ 0 ≤ burn ∧ 0 ≤ redistribute ∧
  reward + burn + redistribute = slashed.
Proof.
  intros [Hr Hb _] Hs Hp. unfold amounts, MAX_VALIDATOR_STAKE in *.
  assert (Hwrap : ∀ x p, 0 ≤ x ≤ 1000000000000 → 0 ≤ p ≤ 10000 → wrapping_mul u64_max x p = x * p).
  { intros x p Hx Hq. unfold wrapping_mul. apply Z.mod_small. unfold u64_max. nia. }
  rewrite (Hwrap stake) by lia. pose proof (div_bps stake penalty ltac:(lia) Hp) as H1.
  set (a := stake * penalty / 10000) in *. rewrite (Hwrap a) by lia.
  pose proof (div_bps a (reporter_reward_bps c) ltac:(lia) Hr) as H2.
  set (r := a * reporter_reward_bps c / 10000) in *.
  assert (Hsub : ∀ x y, 0 ≤ y ≤ x → x ≤ 1000000000000 → wrapping_sub u64_max x y = x - y).
  { intros x y Hx Hy. unfold wrapping_sub. apply Z.mod_small. unfold u64_max. lia. }
  rewrite (Hsub a r), (Hwrap (a - r)) by lia.
  pose proof (div_bps (a - r) (burn_percentage_bps c) ltac:(lia) Hb) as H3.
  set (b := (a - r) * burn_percentage_bps c / 10000) in *. rewrite (Hsub (a - r) b) by lia. lia.
Qed.

(** ** What the operations keep *)

Section Invariant.
Context (hash_data : list Z → Hash) (verify : list Z → list Z → list Z → bool) (scale : Z → nat → Z).
Context (scale_nonneg : ∀ p n, 0 ≤ p → 0 ≤ scale p n).
Implicit Types (s : SlashingManager) (v : Address).

(** Configuration, stakes and the account of one validator: [x] is what its
    stake and its records add up to. *)
Record accounted v x s : Prop := {
  acc_config : config_fine (config s);
  acc_stakes : stakes_fine s;
  acc_sum : ∃ stake, validator_stakes s !! v = Some stake ∧ stake + slashed_sum s v = x ∧ 0 ≤ slashed_sum s v
}.

(** Operations that touch neither configuration, stakes nor history. *)
Lemma accounted_same v x s s' :
  config s' = config s → validator_stakes s' = validator_stakes s → slashing_history s' = slashing_history s →
  accounted v x s → accounted v x s'.
Proof.
  intros E1 E2 E3 [Hc Hs Ha]. unfold stakes_fine, slashed_sum, get_slashing_history in *.
  split; unfold stakes_fine, slashed_sum, get_slashing_history; by rewrite ?E1, ?E2, ?E3.
Qed.

Lemma penalty_range s e : config_fine (config s) → 0 ≤ penalty_bps scale s e ≤ 10000.
Proof.
  intros Hc. unfold penalty_bps. pose proof (cfg_penalties _ Hc (offense_type e)) as Hb.
  case_match; [specialize (scale_nonneg _ (length (default [] (slashing_history s !! ev_validator e))) Hb)|]; lia.
Qed.

Lemma submit_same e s :
  let s' := (submit_evidence hash_data verify e s).2 in
  config s' = config s ∧ validator_stakes s' = validator_stakes s ∧ slashing_history s' = slashing_history s ∧
  jail_status s' = jail_status s ∧ current_slot s' = current_slot s.
Proof.
  unfold submit_evidence, validate_evidence. rewrite gets_bind, !fail_if_bind.
  repeat (case_match; [done|]). unfold bindM, gets, fail_if, lift, modify. simpl.
  destruct (bool_decide (validator_stakes s !! ev_validator e = None)); [done|].
  by destruct (validate_data hash_data verify s e).
Qed.

(** A slashing moves the penalty from the stake into the records. *)
Lemma execute_spec e s :
  config_fine (config s) → stakes_fine s →
  let '(r, s') := execute_slashing scale e s in
  match r with
  | Ok x =>
      ∃ stake, is_jailed s (ev_validator e) = false ∧ validator_stakes s !! ev_validator e = Some stake ∧
      total_slashed x = stake * penalty_bps scale s e / 10000 ∧ 0 ≤ total_slashed x ≤ stake ∧
      ex_reporter_reward x + amount_burned x + amount_redistributed x = total_slashed x ∧
      new_stake x = stake - total_slashed x ∧
      validator_stakes s' = <[ev_validator e := stake - total_slashed x]> (validator_stakes s) ∧
      config s' = config s ∧ current_slot s' = current_slot s ∧
      (∀ w, slashed_sum s' w = slashed_sum s w + if decide (w = ev_validator e) then total_slashed x else 0) ∧
      (results_in_jail (offense_type e) = false → jail_status s' = jail_status s) ∧
      evidence_pool s' = evidence_pool s ∧ processed_evidence s' = processed_evidence s ∧
      validator_pubkeys s' = validator_pubkeys s ∧
      (results_in_jail (offense_type e) = true → ex_jailed x = true) ∧
      ∃ rec, amount_slashed rec = total_slashed x ∧ rec_evidence_id rec = ev_id e ∧
        slashing_history s' = <[ev_validator e := get_slashing_history s (ev_validator e) ++ [rec]]> (slashing_history s)
  | Err _ => s' = s ∧ (is_jailed s (ev_validator e) = true ∨ validator_stakes s !! ev_validator e = None)
  end.
Proof.
  intros Hc Hst. unfold execute_slashing. rewrite gets_bind, fail_if_bind. unfold id.
  destruct (is_jailed s (ev_validator e)) eqn:Hj; [by split; [|left]|].
  destruct (validator_stakes s !! ev_validator e) as [stake|] eqn:Hs; [|by split; [|right]].
  pose proof (amounts_spec (config s) stake (penalty_bps scale s e) Hc (Hst _ _ Hs) (penalty_range s e Hc)) as Ha.
  destruct (amounts _ _ _) as [[[a r] b] d]. destruct Ha as (Ha & Hle & _ & _ & _ & Hsum).
  unfold bindM, modify, returns, saturating_sub. simpl. rewrite Z.max_r by lia. exists stake.
  assert (Hhist : ∀ (h : gmap Address (list SlashingRecord)) rec w,
    foldr Z.add 0 (map amount_slashed (default [] (<[ev_validator e := default [] (h !! ev_validator e) ++ [rec]]> h !! w))) =
    foldr Z.add 0 (map amount_slashed (default [] (h !! w))) +
      if decide (w = ev_validator e) then amount_slashed rec else 0).
  { intros h rec w. rewrite lookup_insert. case_decide as E1; case_decide as E2; subst; try done; [|lia].
    simpl. rewrite map_app, foldr_app. simpl.
    assert (Hadd : ∀ l k, foldr Z.add k l = foldr Z.add 0 l + k) by (induction l; intros; simpl; [lia|rewrite IHl; lia]).
    rewrite Hadd. lia. }
  destruct (results_in_jail (offense_type e)); split_and!; try done; try (apply Hle); 
    unfold slashed_sum, get_slashing_history; simpl;
    first [intros w; apply Hhist | eexists (mkSlashingRecord _ _ _ _ _ _ _ _); split_and!; reflexivity].
Qed.

Lemma accounted_execute v x e s :
  accounted v x s → accounted v x (execute_slashing scale e s).2.
Proof.
  intros [Hc Hst (stake & Hv & Hx & Hnn)]. pose proof (execute_spec e s Hc Hst) as He.
  destruct (execute_slashing scale e s) as [[r|err] s']; [|destruct He as [-> _]; split; eauto].
  destruct He as (st & _ & Hw & _ & Hr & _ & _ & Hst' & Hcfg & _ & Hsum & _). simpl. split.
  - by rewrite Hcfg.
  - intros w y. rewrite Hst', lookup_insert. case_decide; [intros [= <-]|apply Hst].
    pose proof (Hst _ _ Hw). lia.
  - rewrite Hst', Hsum. setoid_rewrite lookup_insert. destruct (decide (ev_validator e = v)) as [<-|Hne].
    + simplify_eq. eexists. rewrite decide_True by done. split; [done|]. lia.
    + rewrite decide_False by congruence. exists stake. split; [done|]. lia.
Qed.

Lemma accounted_process v x s : accounted v x s → accounted v x (process_evidence scale s).2.
Proof.
  unfold process_evidence. generalize (map_to_list (evidence_pool s)).*1 as ids.
  generalize (@nil SlashingExecution) as xs. intros xs ids. revert xs s.
  induction ids as [|id ids IH]; intros xs s Hacc; simpl; [done|].
  destruct (evidence_pool s !! id) as [e|] eqn:He; [|by apply IH].
  assert (Hd : accounted v x (set_pool (delete id (evidence_pool s)) s)) by (by apply (accounted_same v x s)).
  pose proof (accounted_execute v x e _ Hd) as Hx.
  destruct (execute_slashing scale e _) as [[r|err] s']; apply IH; by apply (accounted_same v x s').
Qed.

Lemma accounted_register v x w stake f s :
  accounted v x s → w ≠ v → MIN_VALIDATOR_STAKE ≤ stake ≤ MAX_VALIDATOR_STAKE →
  (∀ s, config (f s) = config s ∧ validator_stakes (f s) = validator_stakes s ∧
    slashing_history (f s) = slashing_history s) →
  accounted v x (f (set_stakes (<[w := stake]> (validator_stakes s)) s)).
Proof.
  intros [Hc Hst Ha] Hne Hr Hf. destruct (Hf (set_stakes (<[w := stake]> (validator_stakes s)) s)) as (E1 & E2 & E3).
  eapply accounted_same; [done..|]. split; simpl; [done| |].
  - intros u y. simpl. rewrite lookup_insert. case_decide; [intros [= <-]|apply Hst].
    unfold MIN_VALIDATOR_STAKE in Hr. lia.
  - destruct Ha as (st & Hs & Hrest). exists st. by rewrite lookup_insert_ne.
Qed.

Lemma accounted_step v x s o :
  accounted v x s → registers v o = false → accounted v x (step hash_data verify scale s o).
Proof.
  intros Hacc Hr. destruct o as [n|w st|w st k|e| |w d|w|n]; simpl in *.
  - by apply (accounted_same v x s).
  - apply Z.eqb_neq in Hr. unfold register_validator, check_stake, bindM, fail_if, modify.
    destruct (Z.ltb_spec st MIN_VALIDATOR_STAKE); [done|]. destruct (Z.ltb_spec MAX_VALIDATOR_STAKE st); [done|].
    by apply (accounted_register v x w st id).
  - apply Z.eqb_neq in Hr. unfold register_validator_with_pubkey, check_stake, bindM, fail_if, modify.
    destruct (Z.ltb_spec st MIN_VALIDATOR_STAKE); [done|]. destruct (Z.ltb_spec MAX_VALIDATOR_STAKE st); [done|].
    by apply (accounted_register v x w st (λ s, set_pubkeys (<[w := k]> (validator_pubkeys s)) s)).
  - destruct (submit_same e s) as (E1 & E2 & E3 & _). by apply (accounted_same v x s).
  - by apply accounted_process.
  - by apply (accounted_same v x s).
  - unfold unjail. rewrite gets_bind, fail_if_bind. destruct (is_jailed (id s) w); [done|]. by apply (accounted_same v x s).
  - by apply (accounted_same v x s).
Qed.

Lemma accounted_run v x os s :
  accounted v x s → forallb (λ o, negb (registers v o)) os = true →
  accounted v x (foldl (step hash_data verify scale) s os).
Proof.
  revert s. induction os as [|o os IH]; intros s Hacc Hr; simpl in *; [done|].
  apply andb_true_iff in Hr as [Ho%negb_true_iff Hos]. apply IH; [by apply accounted_step|done].
Qed.
End Invariant.

(** ** Theorems *)

(** Stake is accounted for.  From a manager with a reasonable configuration
    in which [v] is registered and was never slashed, after any calls that do not
    register [v] anew, its stake plus what its slashing records say was taken is
    exactly the stake it started with, and it is never negative. *)
Theorem stake_accounted hash_data verify scale s v x os :
  (∀ p n, 0 ≤ p → 0 ≤ scale p n) → config_fine (config s) → stakes_fine s →
  validator_stakes s !! v = Some x → get_slashing_history s v = [] →
  forallb (λ o, negb (registers v o)) os = true →
  let s' := foldl (step hash_data verify scale) s os in
  ∃ x', validator_stakes s' !! v = Some x' ∧ x' + slashed_sum s' v = x ∧ 0 ≤ x' ≤ x.
Proof.
  intros Hscale Hc Hst Hv Hh Hos s'.
  assert (Hacc : accounted v x s).
  { split; [done..|]. exists x. unfold slashed_sum. rewrite Hh. simpl. split; [done|]. lia. }
  destruct (accounted_run hash_data verify scale Hscale v x os s Hacc Hos) as [_ Hst' (x' & Hx' & Hsum & Hnn)].
  exists x'. split; [done|]. split; [done|]. pose proof (Hst' _ _ Hx'). fold s' in Hsum, Hnn. lia.
Qed.

(** Execution of a slashing, on every branch.  It is refused, without
    effect, exactly when the validator is in jail or unknown.  Otherwise the
    penalty is the stake times the basis points rounded down, at most the stake;
    reporter reward, burned and redistributed amounts add up to it exactly; the
    stake drops by it, and one record of it is appended to the history. *)
Theorem execute_slashing_correct scale e s :
  (∀ p n, 0 ≤ p → 0 ≤ scale p n) → config_fine (config s) → stakes_fine s →
  match execute_slashing scale e s with
  | (Ok x, s') => ∃ stake rec,
      is_jailed s (ev_validator e) = false ∧ validator_stakes s !! ev_validator e = Some stake ∧
      total_slashed x = stake * penalty_bps scale s e / 10000 ∧ 0 ≤ total_slashed x ≤ stake ∧
      ex_reporter_reward x + amount_burned x + amount_redistributed x = total_slashed x ∧
      validator_stakes s' = <[ev_validator e := stake - total_slashed x]> (validator_stakes s) ∧
      amount_slashed rec = total_slashed x ∧
      get_slashing_history s' (ev_validator e) = get_slashing_history s (ev_validator e) ++ [rec]
  | (Err _, s') => s' = s ∧ (is_jailed s (ev_validator e) = true ∨ validator_stakes s !! ev_validator e = None)
  end.
Proof.
  intros Hscale Hc Hst. pose proof (execute_spec scale Hscale e s Hc Hst) as He.
  destruct (execute_slashing scale e s) as [[x|err] s']; [|done].
  destruct He as (stake & Hj & Hs & Ht & Hr & Hsum & _ & Hst' & _ & _ & _ & _ & _ & _ & _ & _ & rec & Hrec & _ & Hh).
  exists stake, rec. split_and!; try done; try apply Hr. unfold get_slashing_history at 1.
  by rewrite Hh, lookup_insert_eq.
Qed.

(** Accepting evidence whose data is valid. *)
Lemma submit_accepts hash_data verify e s :
  processed_evidence s !! ev_id e = None → is_Some (validator_stakes s !! ev_validator e) →
  0 ≤ offense_slot e ≤ current_slot s → 0 ≤ max_evidence_age (config s) →
  current_slot s ≤ offense_slot e + max_evidence_age (config s) ≤ u64_max →
  validate_data hash_data verify s e = Ok () →
  submit_evidence hash_data verify e s =
    (Ok (ev_id e), on_metrics count_submitted (set_pool (<[ev_id e := e]> (evidence_pool s)) (on_metrics count_validated s))).
Proof.
  intros Hp [x Hx] Hslot Hage Hexp Hd. unfold submit_evidence. rewrite gets_bind, !fail_if_bind. unfold id.
  rewrite Hp, bool_decide_false by (by intros [? ?]).
  rewrite (proj2 (Z.ltb_ge (current_slot s) _)) by lia. unfold wrapping_add. rewrite Z.mod_small by lia.
  rewrite (proj2 (Z.ltb_ge _ (current_slot s))) by lia.
  unfold validate_evidence, bindM, gets, fail_if, lift, modify, id.
  rewrite (bool_decide_false (validator_stakes s !! ev_validator e = None)) by (by rewrite Hx). by rewrite Hd.
Qed.

(** One honest vote is enough to be slashed for a surround vote.  The
    signature of a vote covers its hash only, and [validate_surround_vote] does
    not ask for two different votes: whoever knows a single valid vote of a
    registered validator can submit it twice with made-up source and target
    slots.  The evidence is accepted and, unless the validator is in jail, its
    execution slashes and jails it. *)
Theorem honest_vote_slashed hash_data verify scale s v key x h sig id rep :
  (∀ p n, 0 ≤ p → 0 ≤ scale p n) → config_fine (config s) → stakes_fine s →
  validator_stakes s !! v = Some x → validator_pubkeys s !! v = Some key →
  verify key (with_domain DOMAIN_SLASH_EQUIVOC (hash_bytes h)) sig = true →
  is_jailed s v = false → processed_evidence s !! id = None →
  0 ≤ current_slot s → 0 ≤ max_evidence_age (config s) → current_slot s + max_evidence_age (config s) ≤ u64_max →
  let e := mkEvidence id SurroundVote v (current_slot s) (current_slot s) rep
    (SurroundVoteData (mkSignedVote 0 3 h sig) (mkSignedVote 1 2 h sig)) 0 in
  ∃ s1 r s2, submit_evidence hash_data verify e s = (Ok id, s1) ∧
    evidence_pool s1 !! id = Some e ∧
    execute_slashing scale e s1 = (Ok r, s2) ∧ ex_jailed r = true ∧
    total_slashed r = x * penalty_bps scale s e / 10000 ∧
    validator_stakes s2 !! v = Some (x - total_slashed r).
Proof.
  intros Hscale Hc Hst Hv Hk Hsig Hj Hp Hslot Hage Hroom e.
  assert (Hd : validate_data hash_data verify s e = Ok ()).
  { subst e. unfold validate_data, validate_surround_vote, check_two_signatures, get_validator_pubkey. simpl. by rewrite Hk, Hsig. }
  rewrite (submit_accepts hash_data verify e s Hp (mk_is_Some _ _ Hv) ltac:(simpl; lia) Hage ltac:(simpl; lia) Hd).
  set (s1 := on_metrics count_submitted _). eexists s1.
  pose proof (execute_spec scale Hscale e s1 Hc Hst) as He.
  destruct (execute_slashing scale e s1) as [[r|err] s2].
  - destruct He as (stake & _ & Hs & Ht & _ & _ & _ & Hst' & _ & _ & _ & _ & _ & _ & _ & Hjail & _).
    exists r, s2. simpl in Hs, Hst', Ht. simplify_eq.
    split_and!; try done; [apply lookup_insert_eq|by apply Hjail|]. by rewrite Hst', lookup_insert_eq.
  - destruct He as [_ [Hbad|Hbad]]; [change (is_jailed s v = true) in Hbad|simpl in Hbad]; congruence.
Qed.

(** ** Slashing twice for one offense *)

Section Again.
Context (hash_data : list Z → Hash) (verify : list Z → list Z → list Z → bool) (scale : Z → nat → Z).
Context (scale_nonneg : ∀ p n, 0 ≤ p → 0 ≤ scale p n).
Context (v : Address) (key : list Z) (m1 m2 : SignedMessage) (slot : Z) (rep : Address).
Implicit Types s : SlashingManager.

(** The same pair of messages, relabelled and under another identifier. *)
Definition relabelled (id : Hash) : SlashingEvidence :=
  mkEvidence id (Custom "") v slot slot rep (DoubleSigningData m1 m2) 0.

Definition round s (id : Hash) : SlashingManager :=
  (process_evidence scale (submit_evidence hash_data verify (relabelled id) s).2).2.

Record exposed s : Prop := {
  exp_config : config_fine (config s);
  exp_stakes : stakes_fine s;
  exp_stake : is_Some (validator_stakes s !! v);
  exp_key : validator_pubkeys s !! v = Some key;
  exp_free : is_jailed s v = false;
  exp_pool : evidence_pool s = ∅;
  exp_slot : current_slot s = slot ∧ 0 ≤ slot;
  exp_age : 0 ≤ max_evidence_age (config s) ∧ slot + max_evidence_age (config s) ≤ u64_max
}.

Context (Hslot : msg_slot m1 = msg_slot m2) (Hdiff : message_hash m1 ≠ message_hash m2).
Context (Hsig1 : verify key (with_domain DOMAIN_SLASH_DOUBLE_SIGN (hash_bytes (message_hash m1))) (msg_signature m1) = true).
Context (Hsig2 : verify key (with_domain DOMAIN_SLASH_DOUBLE_SIGN (hash_bytes (message_hash m2))) (msg_signature m2) = true).

Lemma round_slashes s id :
  exposed s → processed_evidence s !! id = None →
  exposed (round s id) ∧ processed_evidence (round s id) = <[id := slot]> (processed_evidence s) ∧
  length (get_slashing_history (round s id) v) = S (length (get_slashing_history s v)).
Proof.
  intros [Hc Hst Hx Hk Hfree Hpool [Hs Hs0] [Ha Hroom]] Hp. unfold round.
  assert (Hd : validate_data hash_data verify s (relabelled id) = Ok ()).
  { unfold validate_data, validate_double_signing, check_two_signatures, get_validator_pubkey. simpl.
    rewrite Hslot, Z.eqb_refl, (proj2 (Z.eqb_neq _ _) Hdiff), Hk, Hsig1, Hsig2. done. }
  rewrite submit_accepts by (simpl; done || lia). simpl. unfold process_evidence. simpl.
  rewrite Hpool, insert_empty, map_to_list_singleton. simpl. rewrite lookup_singleton_eq.
  match goal with |- context [execute_slashing scale ?e ?t] => set (t1 := t);
    pose proof (execute_spec scale scale_nonneg e t1 Hc Hst) as He; destruct (execute_slashing scale e t1) as [[r|err] s2] end.
  - destruct He as (stake & _ & Hsv & _ & Hr & _ & _ & Hst' & Hcfg & Hcur & _ & Hjail & Hpl & Hpr & Hpk & _ & rec & _ & _ & Hh).
    simpl in Hsv, Hst', Hcfg, Hcur, Hpl, Hpr, Hpk, Hh. simpl. rewrite Hpr, Hcur, Hs. split; [|split; [done|]].
    + split; simpl.
      * by rewrite Hcfg.
      * intros w y. simpl. rewrite Hst', lookup_insert. case_decide; [intros [= <-]|apply Hst].
        pose proof (Hst _ _ Hsv). lia.
      * rewrite Hst', lookup_insert_eq. by eexists.
      * by rewrite Hpk.
      * specialize (Hjail eq_refl). unfold is_jailed. simpl. rewrite Hjail, Hcur. exact Hfree.
      * rewrite Hpl. apply delete_singleton_eq.
      * by rewrite Hcur.
      * by rewrite Hcfg.
    + unfold get_slashing_history at 1. simpl. rewrite Hh, lookup_insert_eq. simpl.
      rewrite length_app. simpl. change (get_slashing_history t1 v) with (get_slashing_history s v). lia.
  - destruct He as [_ [Hbad|Hbad]]; simpl in Hbad; [change (is_jailed s v = true) in Hbad; congruence|].
    destruct Hx. congruence.
Qed.

Lemma rounds_slash ids s :
  exposed s → NoDup ids → (∀ id, id ∈ ids → processed_evidence s !! id = None) →
  length (get_slashing_history (foldl round s ids) v) = (length (get_slashing_history s v) + length ids)%nat.
Proof.
  revert s. induction ids as [|id ids IH]; intros s Hs Hnd Hp; simpl; [lia|].
  apply list.NoDup_cons in Hnd as [Hid Hnd].
  destruct (round_slashes s id Hs) as (Hs' & Hpr & Hl); [apply Hp; left|].
  rewrite IH; [rewrite Hl; lia|done..|]. intros j Hj. rewrite Hpr, lookup_insert_ne by congruence.
  apply Hp. by right.
Qed.
End Again.

(** One offense can be punished any number of times.  Evidence is identified
    by a field its submitter chooses and its label is independent of its data:
    the same pair of conflicting messages, relabelled as a [Custom] offense (which
    does not jail) under fresh identifiers, is accepted and executed once for each
    identifier. *)
Theorem one_offense_many_slashes hash_data verify scale s v key m1 m2 slot rep ids :
  (∀ p n, 0 ≤ p → 0 ≤ scale p n) → exposed v key slot s →
  msg_slot m1 = msg_slot m2 → message_hash m1 ≠ message_hash m2 →
  verify key (with_domain DOMAIN_SLASH_DOUBLE_SIGN (hash_bytes (message_hash m1))) (msg_signature m1) = true →
  verify key (with_domain DOMAIN_SLASH_DOUBLE_SIGN (hash_bytes (message_hash m2))) (msg_signature m2) = true →
  NoDup ids → (∀ id, id ∈ ids → processed_evidence s !! id = None) →
  length (get_slashing_history (foldl (round hash_data verify scale v m1 m2 slot rep) s ids) v) =
    (length (get_slashing_history s v) + length ids)%nat.
Proof. intros. by eapply rounds_slash. Qed.

(** ** A registered validator *)

Module Registered.
Definition hash_data (l : list Z) : Hash := 0.
Definition verify (pk msg sig : list Z) : bool := bool_decide (pk = sig).
Definition scale (p : Z) (n : nat) : Z := p * Z.of_nat (S n).
Definition state : SlashingManager :=
  set_slot 100 (register_validator_with_pubkey 1 50000 [9] (new default_config)).2.
Definition messages : SignedMessage * SignedMessage :=
  (mkSignedMessage 7 90 [9] None, mkSignedMessage 8 90 [9] None).

Lemma sample_scale p n : 0 ≤ p → 0 ≤ scale p n.
Proof. unfold scale. nia. Qed.

Lemma sample_config : config_fine (config state).
Proof. split; [by vm_compute..|]. intros []; by vm_compute. Qed.

Lemma sample_stakes : stakes_fine state.
Proof.
  intros v x. change (validator_stakes state) with ({[1 := 50000]} : gmap Address Z).
  intros [_ <-]%lookup_singleton_Some. by vm_compute.
Qed.
End Registered.

Lemma stake_accounted_witness :
  let os := [SSubmit (relabelled 1 Registered.messages.1 Registered.messages.2 100 5 77); SProcess; SUnjail 1] in
  let s' := foldl (step Registered.hash_data Registered.verify Registered.scale) Registered.state os in
  ∃ x', validator_stakes s' !! 1 = Some x' ∧ x' + slashed_sum s' 1 = 50000 ∧ 0 ≤ x' ≤ 50000.
Proof.
  intros os. apply stake_accounted.
  - apply Registered.sample_scale.
  - apply Registered.sample_config.
  - apply Registered.sample_stakes.
  - by vm_compute.
  - by vm_compute.
  - by vm_compute.
Defined.

Lemma execute_slashing_correct_witness :
  let e := relabelled 1 Registered.messages.1 Registered.messages.2 100 5 77 in
  match execute_slashing Registered.scale e Registered.state with
  | (Ok x, s') => ∃ stake rec,
      is_jailed Registered.state (ev_validator e) = false ∧
      validator_stakes Registered.state !! ev_validator e = Some stake ∧
      total_slashed x = stake * penalty_bps Registered.scale Registered.state e / 10000 ∧ 0 ≤ total_slashed x ≤ stake ∧
      ex_reporter_reward x + amount_burned x + amount_redistributed x = total_slashed x ∧
      validator_stakes s' = <[ev_validator e := stake - total_slashed x]> (validator_stakes Registered.state) ∧
      amount_slashed rec = total_slashed x ∧
      get_slashing_history s' (ev_validator e) = get_slashing_history Registered.state (ev_validator e) ++ [rec]
  | (Err _, s') => False
  end.
Proof.
  intros e. pose proof (execute_slashing_correct Registered.scale e Registered.state Registered.sample_scale
    Registered.sample_config Registered.sample_stakes) as H.
  destruct (execute_slashing Registered.scale e Registered.state) as [[x|err] s']; [exact H|].
  destruct H as [_ [H|H]]; by vm_compute in H.
Defined.

Lemma honest_vote_slashed_witness :
  let e := mkEvidence 77 SurroundVote 1 100 100 5
    (SurroundVoteData (mkSignedVote 0 3 4 [9]) (mkSignedVote 1 2 4 [9])) 0 in
  ∃ s1 r s2, submit_evidence Registered.hash_data Registered.verify e Registered.state = (Ok 77, s1) ∧
    evidence_pool s1 !! 77 = Some e ∧ execute_slashing Registered.scale e s1 = (Ok r, s2) ∧ ex_jailed r = true ∧
    total_slashed r = 50000 * penalty_bps Registered.scale Registered.state e / 10000 ∧
    validator_stakes s2 !! 1 = Some (50000 - total_slashed r).
Proof.
  apply (honest_vote_slashed Registered.hash_data Registered.verify Registered.scale Registered.state 1 [9] 50000 4 [9] 77 5).
  - apply Registered.sample_scale.
  - apply Registered.sample_config.
  - apply Registered.sample_stakes.
  - by vm_compute.
  - by vm_compute.
  - by vm_compute.
  - by vm_compute.
  - by vm_compute.
  - by vm_compute.
  - by vm_compute.
  - by vm_compute.
Defined.

Lemma one_offense_many_slashes_witness :
  length (get_slashing_history (foldl (round Registered.hash_data Registered.verify Registered.scale 1
    Registered.messages.1 Registered.messages.2 100 5) Registered.state [70; 71; 72; 73]) 1) = 4%nat.
Proof.
  apply (one_offense_many_slashes Registered.hash_data Registered.verify Registered.scale Registered.state 1 [9]
    Registered.messages.1 Registered.messages.2 100 5 [70; 71; 72; 73]).
  - apply Registered.sample_scale.
  - split; [apply Registered.sample_config|apply Registered.sample_stakes|by eexists|..]; by vm_compute.
  - done.
  - done.
  - by vm_compute.
  - by vm_compute.
  - apply (bool_decide_unpack _). by vm_compute.
  - intros id _. by vm_compute.
Defined.
