(* ===== verification/Pipeline.v ===== *)
(** * Pipelined consensus

    Models [src/L1/src/consensus/pipelining.rs]: proposals, votes and quorum
    certificates, the commit rule, views and timeouts of [PipelinedConsensus], and
    the shard coordinator [ParallelProposer].

    SHA3-256 is an argument.  Creation times and the timeout duration, which no
    operation reads, are left out.  [commit_tx] is the list of blocks handed to the
    commit channel.  A hash map is searched in the order of the finite map.  Every
    shard has an instance of its own.  Texts of errors are shortened. *)

From S2P Require Import Prelude Bytes Consensus.

(** ** Data *)

Inductive ProposalStatus : Type := Proposed | Certified | Committed | Failed.

#[export] Instance ProposalStatus_eq_dec : EqDecision ProposalStatus.
Proof. solve_decision. Defined.

Record PipelinedBlock : Type := mkBlock {
  hash : Hash;
  parent_hash : Hash;
  grandparent_hash : option Hash;
  view : Z;
  height : Z;
  proposer : Address;
  payload : list Z;
  state_root : Hash;
  justify_qc : option QuorumCertificate;
  status : ProposalStatus
}.

(** [PipelinedBlock::new] *)
Definition new_block (hash parent_hash : Hash) (view height : Z) (proposer : Address) (payload : list Z)
    (state_root : Hash) (justify_qc : option QuorumCertificate) : PipelinedBlock :=
  mkBlock hash parent_hash (qc_block_hash <$> justify_qc) view height proposer payload state_root justify_qc Proposed.

Definition signing_data (b : PipelinedBlock) : list Z :=
  with_domain DOMAIN_PIPELINE_VOTE
    (hash_bytes (hash b) ++ hash_bytes (parent_hash b) ++ le_bytes 8 (view b) ++ le_bytes 8 (height b) ++
     hash_bytes (state_root b)).

Definition set_status (st : ProposalStatus) (b : PipelinedBlock) : PipelinedBlock :=
  mkBlock (hash b) (parent_hash b) (grandparent_hash b) (view b) (height b) (proposer b) (payload b) (state_root b)
    (justify_qc b) st.

Record PipelineVote : Type := mkVote {
  v_block_hash : Hash;
  v_view : Z;
  voter : Address;
  v_stake : Z;
  v_signature : list Z
}.

Record TimeoutCertificate : Type := mkTimeout {
  tc_view : Z;
  tc_high_qc : option QuorumCertificate;
  tc_aggregated_sig : list Z;
  tc_total_stake : Z
}.

Record PipelineSlot : Type := mkSlot {
  block : PipelinedBlock;
  votes : list PipelineVote;
  qc : option QuorumCertificate;
  vote_stake : Z
}.

(** [PipelineSlot::new], [add_vote] and [has_quorum] *)
Definition new_slot (b : PipelinedBlock) : PipelineSlot := mkSlot b [] None 0.
Definition add_vote (sl : PipelineSlot) (v : PipelineVote) : PipelineSlot :=
  mkSlot (block sl) (votes sl ++ [v]) (qc sl) (wrapping_add u64_max (vote_stake sl) (v_stake v)).
Definition has_quorum (sl : PipelineSlot) (threshold : Z) : bool := threshold <=? vote_stake sl.

Record PipelineConfig : Type := mkConfig {
  cfg_quorum_threshold : Z;
  cfg_total_stake : Z;
  cfg_max_pipeline_depth : Z
}.

Definition default_config : PipelineConfig := mkConfig 67 100 10.

Record PipelinedConsensus : Type := mkPipelined {
  local_addr : Address;
  current_view : Z;
  locked_block : option PipelinedBlock;
  high_qc : option QuorumCertificate;
  pipeline : gmap Z PipelineSlot;
  committed : gmap Z PipelinedBlock;
  pending_proposals : list PipelinedBlock;
  quorum_threshold : Z;
  total_stake : Z;
  max_pipeline_depth : Z;
  commit_tx : list PipelinedBlock
}.

Definition set_view v s := mkPipelined (local_addr s) v (locked_block s) (high_qc s) (pipeline s) (committed s)
  (pending_proposals s) (quorum_threshold s) (total_stake s) (max_pipeline_depth s) (commit_tx s).
Definition set_locked v s := mkPipelined (local_addr s) (current_view s) v (high_qc s) (pipeline s) (committed s)
  (pending_proposals s) (quorum_threshold s) (total_stake s) (max_pipeline_depth s) (commit_tx s).
Definition set_high_qc v s := mkPipelined (local_addr s) (current_view s) (locked_block s) v (pipeline s) (committed s)
  (pending_proposals s) (quorum_threshold s) (total_stake s) (max_pipeline_depth s) (commit_tx s).
Definition set_pipeline v s := mkPipelined (local_addr s) (current_view s) (locked_block s) (high_qc s) v (committed s)
  (pending_proposals s) (quorum_threshold s) (total_stake s) (max_pipeline_depth s) (commit_tx s).
Definition set_committed v s := mkPipelined (local_addr s) (current_view s) (locked_block s) (high_qc s) (pipeline s) v
  (pending_proposals s) (quorum_threshold s) (total_stake s) (max_pipeline_depth s) (commit_tx s).
Definition set_pending v s := mkPipelined (local_addr s) (current_view s) (locked_block s) (high_qc s) (pipeline s)
  (committed s) v (quorum_threshold s) (total_stake s) (max_pipeline_depth s) (commit_tx s).
Definition set_commit_tx v s := mkPipelined (local_addr s) (current_view s) (locked_block s) (high_qc s) (pipeline s)
  (committed s) (pending_proposals s) (quorum_threshold s) (total_stake s) (max_pipeline_depth s) v.

Definition new (local_addr : Address) (config : PipelineConfig) : PipelinedConsensus :=
  mkPipelined local_addr 0 None None ∅ ∅ [] (cfg_quorum_threshold config) (cfg_total_stake config)
    (cfg_max_pipeline_depth config) [].

Abbreviation OP A := (M PipelinedConsensus ConsensusError A).

(** ** Lookup *)

(** The first value of a map with a property. *)
Definition find_value {V} (P : V → bool) (m : gmap Z V) : option V :=
  (λ x : nat * (Z * V), x.2.2) <$> list_find (λ kv : Z * V, Is_true (P kv.2)) (map_to_list m).

Definition get_pipeline_block (s : PipelinedConsensus) (h : Hash) : option PipelinedBlock :=
  match find_value (λ sl, hash (block sl) =? h) (pipeline s) with
  | Some sl => Some (block sl)
  | None => find_value (λ b, hash b =? h) (committed s)
  end.

Definition has_block (s : PipelinedConsensus) (h : Hash) : bool :=
  match get_pipeline_block s h with Some _ => true | None => false end.

Definition get_block_height (s : PipelinedConsensus) (h : Hash) : option Z := height <$> get_pipeline_block s h.

Definition pipeline_depth (s : PipelinedConsensus) : Z := Z.of_nat (size (pipeline s)).
Definition committed_count (s : PipelinedConsensus) : Z := Z.of_nat (size (committed s)).

Definition update_high_qc (q : QuorumCertificate) (s : PipelinedConsensus) : PipelinedConsensus :=
  set_high_qc (higher_qc q (high_qc s)) s.

(** ** Proposals *)

Definition block_preimage (parent_hash : Hash) (view : Z) (payload : list Z) (state_root : Hash) : list Z :=
  hash_bytes parent_hash ++ le_bytes 8 view ++ payload ++ hash_bytes state_root.

(** The parent and the height of the next block: on top of the highest certificate. *)
Definition next_parent (s : PipelinedConsensus) : Hash * Z :=
  match high_qc s with
  | Some q => (qc_block_hash q, wrapping_add u64_max (default 0 (get_block_height s (qc_block_hash q))) 1)
  | None => (0, 0)
  end.

Definition propose (sha3_256 : list Z → Hash) (payload : list Z) (state_root : Hash) : OP PipelinedBlock :=
  s <-? gets id;
  let view := current_view s in
  let '(parent, height) := next_parent s in
  let h := sha3_256 (block_preimage parent view payload state_root) in
  let b := new_block h parent view height (local_addr s) payload state_root (high_qc s) in
  fail_if (max_pipeline_depth s <=? Z.of_nat (size (pipeline s))) (ResourceExhausted "Pipeline full") ?;
  modify (λ s, set_pipeline (<[view := new_slot b]> (pipeline s)) s) ?;
  returns b.

Definition verify_proposal (s : PipelinedConsensus) (b : PipelinedBlock) : Result bool ConsensusError :=
  if view b <? current_view s then Ok false
  else
    let checked :=
      match justify_qc b with
      | Some justify =>
          if negb (qc_is_valid justify (quorum_threshold s)) then Err (InvalidVote "Invalid justify QC")
          else if negb (parent_hash b =? qc_block_hash justify) then
            Err (InvalidVertex "Parent doesn't match justify QC")
          else Ok ()
      | None => Ok ()
      end in
    match checked with
    | Err e => Err e
    | Ok _ =>
        match locked_block s, justify_qc b with
        | Some locked, Some justify => if qc_view justify <? view locked then Ok false else Ok true
        | _, _ => Ok true
        end
    end.

(** [if !pipeline.contains_key(&block.view) { pipeline.insert(..) }] *)
Definition add_to_pipeline (b : PipelinedBlock) (s : PipelinedConsensus) : PipelinedConsensus :=
  match pipeline s !! view b with
  | Some _ => s
  | None => set_pipeline (<[view b := new_slot b]> (pipeline s)) s
  end.

Definition on_proposal (b : PipelinedBlock) : OP bool :=
  s <-? gets id;
  ok <-? lift (verify_proposal s b);
  if negb ok then returns false
  else
    fail_if (max_pipeline_depth s * 2 <=? Z.of_nat (size (pipeline s)))
      (ResourceExhausted "Pipeline full (incoming)") ?;
    match justify_qc b with
    | Some justify =>
        if negb (has_block s (qc_block_hash justify)) then
          fail_if (max_pipeline_depth s * 2 <=? Z.of_nat (length (pending_proposals s)))
            (ResourceExhausted "Pending proposals queue full") ?;
          modify (λ s, set_pending (pending_proposals s ++ [b]) s) ?;
          returns false
        else
          modify (add_to_pipeline b) ?;
          modify (update_high_qc justify) ?;
          returns true
    | None => modify (add_to_pipeline b) ?; returns true
    end.

(** ** Votes and certificates *)

(** One iteration of the loop of [create_qc]: [bitmap[i / 8] |= 1 << (i % 8)]. *)
Definition set_bit (bitmap : list Z) (i : nat) : list Z :=
  alter (λ b, Z.lor b (Z.shiftl 1 (Z.of_nat (i mod 8)%nat))) (i / 8)%nat bitmap.

Definition create_qc (sl : PipelineSlot) : QuorumCertificate :=
  let n := length (votes sl) in
  let bitmap := foldl set_bit (replicate ((n + 7) / 8)%nat 0) (seq 0 n) in
  mkQC (hash (block sl)) (view (block sl)) (concat (map v_signature (votes sl))) bitmap
    (foldl (λ acc v, wrapping_add u64_max acc (v_stake v)) 0 (votes sl)).

(** [try_commit]; it returns [Ok(())] on every path. *)
Definition try_commit (q : QuorumCertificate) (s : PipelinedConsensus) : PipelinedConsensus :=
  match get_pipeline_block s (qc_block_hash q) with
  | None => s
  | Some certified =>
      match get_pipeline_block s (parent_hash certified) with
      | None => s
      | Some parent =>
          let s1 :=
            match grandparent_hash parent with
            | None => s
            | Some g =>
                match get_pipeline_block s g with
                | None => s
                | Some grandparent =>
                    if bool_decide (status grandparent ≠ Committed) then
                      let b := set_status Committed grandparent in
                      set_locked (Some parent)
                        (set_commit_tx (commit_tx s ++ [b])
                           (set_committed (<[height b := b]> (committed s)) s))
                    else s
                end
            end in
          update_high_qc q s1
      end
  end.

Definition on_vote (v : PipelineVote) : OP (option QuorumCertificate) :=
  s <-? gets id;
  match pipeline s !! v_view v with
  | None => returns None
  | Some sl =>
      fail_if (negb (hash (block sl) =? v_block_hash v)) (InvalidVote "Vote for wrong block") ?;
      if existsb (λ w, voter w =? voter v) (votes sl) then returns (qc sl)
      else
        let sl' := add_vote sl v in
        if bool_decide (qc sl' = None) && has_quorum sl' (quorum_threshold s) then
          let q := create_qc sl' in
          let sl'' := mkSlot (set_status Certified (block sl')) (votes sl') (Some q) (vote_stake sl') in
          modify (λ s, set_pipeline (<[v_view v := sl'']> (pipeline s)) s) ?;
          modify (try_commit q) ?;
          returns (Some q)
        else
          modify (λ s, set_pipeline (<[v_view v := sl']> (pipeline s)) s) ?;
          returns None
  end.

(** ** Views *)

Definition advance_view (s : PipelinedConsensus) : PipelinedConsensus :=
  let current := wrapping_add u64_max (current_view s) 1 in
  set_pipeline (filter (λ kv, saturating_sub current (max_pipeline_depth s) ≤ kv.1) (pipeline s)) (set_view current s).

Definition on_timeout (v : Z) (s : PipelinedConsensus) : TimeoutCertificate * PipelinedConsensus :=
  (mkTimeout v (high_qc s) [] (total_stake s), advance_view s).

Definition has_sufficient_stake (s : PipelinedConsensus) (stake : Z) : bool :=
  wrapping_mul u64_max (total_stake s) 2 <=? wrapping_mul u64_max stake 3.

(** ** The shard coordinator *)

Record ParallelProposer : Type := mkProposer {
  shard_consensus : gmap Z PipelinedConsensus;
  sync_view : Z
}.

Definition new_proposer : ParallelProposer := mkProposer ∅ 0.

Definition register_shard (shard : Z) (c : PipelinedConsensus) (p : ParallelProposer) : ParallelProposer :=
  mkProposer (<[shard := c]> (shard_consensus p)) (sync_view p).

(** The proposals run in order; unknown shards are skipped. *)
Definition propose_one (sha3_256 : list Z → Hash)
    (st : list (Result PipelinedBlock ConsensusError) * ParallelProposer) (x : Z * list Z * Hash)
    : list (Result PipelinedBlock ConsensusError) * ParallelProposer :=
  let '(out, p) := st in
  let '(shard, payload, root) := x in
  match shard_consensus p !! shard with
  | None => st
  | Some c => let '(r, c') := propose sha3_256 payload root c in (out ++ [r], register_shard shard c' p)
  end.

Definition propose_parallel (sha3_256 : list Z → Hash) (l : list (Z * list Z * Hash)) (p : ParallelProposer)
    : list (Result PipelinedBlock ConsensusError) * ParallelProposer :=
  foldl (propose_one sha3_256) ([], p) l.

(** [while current_view() < max_view { advance_view() }] *)
Fixpoint advance_to (fuel : nat) (max_view : Z) (c : PipelinedConsensus) : option PipelinedConsensus :=
  if current_view c <? max_view then
    match fuel with
    | O => None
    | S n => advance_to n max_view (advance_view c)
    end
  else Some c.

Definition max_view (p : ParallelProposer) : Z := map_fold (λ _ c m, Z.max (current_view c) m) 0 (shard_consensus p).

(** [sync_views]; the loop of a shard takes as many turns as it lags behind. *)
Definition sync_views (p : ParallelProposer) : ParallelProposer :=
  let m := max_view p in
  mkProposer ((λ c, default c (advance_to (Z.to_nat (m - current_view c)) m c)) <$> shard_consensus p) m.

(** ** Specification vocabulary *)

(** The calls on an instance. *)
Inductive PipeOp : Type :=
  | PPropose (payload : list Z) (state_root : Hash)
  | PProposal (b : PipelinedBlock)
  | PVote (v : PipelineVote)
  | PAdvance
  | PTimeout (v : Z).

Definition step (sha3_256 : list Z → Hash) (s : PipelinedConsensus) (o : PipeOp) : PipelinedConsensus :=
  match o with
  | PPropose payload root => (propose sha3_256 payload root s).2
  | PProposal b => (on_proposal b s).2
  | PVote v => (on_vote v s).2
  | PAdvance => advance_view s
  | PTimeout v => (on_timeout v s).2
  end.

(** Stake declared by votes, as a 64-bit sum. *)
Definition declared_stake (vs : list PipelineVote) : Z := foldr (λ v acc, v_stake v + acc) 0 vs mod (u64_max + 1).

(** A block in a slot or among the committed blocks. *)
Definition known (s : PipelinedConsensus) (b : PipelinedBlock) : Prop :=
  (∃ w sl, pipeline s !! w = Some sl ∧ block sl = b) ∨ (∃ h, committed s !! h = Some b).

(** A certificate made from these votes for a block. *)
Record certifies (threshold : Z) (b : PipelinedBlock) (vs : list PipelineVote) (q : QuorumCertificate) : Prop := {
  ct_block : qc_block_hash q = hash b ∧ qc_view q = view b;
  ct_votes : Forall (λ v, v_block_hash v = hash b ∧ v_view v = view b) vs;
  ct_voters : NoDup (map voter vs);
  ct_stake : qc_total_stake q = declared_stake vs ∧ threshold ≤ qc_total_stake q;
  ct_bitmap : length (qc_signers_bitmap q) = ((length vs + 7) / 8)%nat ∧
    ∀ i, (i < 8 * length (qc_signers_bitmap q))%nat →
      Z.testbit (nth (i / 8)%nat (qc_signers_bitmap q) 0) (Z.of_nat (i mod 8)%nat) = (i <? length vs)%nat
}.

(** ** Lookup *)

Lemma find_value_Some {V} (P : V → bool) (m : gmap Z V) v :
  find_value P m = Some v → ∃ k, m !! k = Some v ∧ P v = true.
Proof.
  unfold find_value. intros ([i [k w]] & Hf & Hv)%fmap_Some.
  apply list_find_Some in Hf as (Hl & HP & _). simpl in *. subst. exists k. split; [|by apply Is_true_true].
  apply elem_of_map_to_list. by eapply list_elem_of_lookup_2.
Qed.

Lemma find_value_None {V} (P : V → bool) (m : gmap Z V) k v :
  find_value P m = None → m !! k = Some v → P v = false.
Proof.
  unfold find_value. intros Hf%fmap_None Hk%elem_of_map_to_list. apply list_find_None in Hf.
  eapply list.Forall_forall in Hf; [|exact Hk]. simpl in Hf. by destruct (P v).
Qed.

Lemma get_pipeline_block_known s h b : get_pipeline_block s h = Some b → known s b ∧ hash b = h.
Proof.
  unfold get_pipeline_block. destruct (find_value _ (pipeline s)) as [sl|] eqn:Hf.
  - intros [= <-]. apply find_value_Some in Hf as (k & Hk & Heq%Z.eqb_eq). split; [|done]. left. by exists k, sl.
  - intros (k & Hk & Heq%Z.eqb_eq)%find_value_Some. split; [|done]. right. by exists k.
Qed.

(** A known block of a hash that no other known block has is found. *)
Lemma get_pipeline_block_unique s b :
  known s b → (∀ b', known s b' → hash b' = hash b → b' = b) → get_pipeline_block s (hash b) = Some b.
Proof.
  intros Hb Hu. destruct (get_pipeline_block s (hash b)) as [b'|] eqn:Hg.
  - apply get_pipeline_block_known in Hg as [Hk Hh]. f_equal. by apply Hu.
  - exfalso. unfold get_pipeline_block in Hg. destruct (find_value _ (pipeline s)) eqn:Hf; [done|].
    destruct Hb as [(w & sl & Hw & <-)|(h & Hh)].
    + apply (find_value_None _ _ w sl) in Hf; [|done]. simpl in Hf. by rewrite Z.eqb_refl in Hf.
    + apply (find_value_None _ _ h b) in Hg; [|done]. simpl in Hg. by rewrite Z.eqb_refl in Hg.
Qed.

(** ** Certificates *)

#[local] Arguments Nat.div : simpl never.
#[local] Arguments Nat.modulo : simpl never.

Lemma declared_stake_snoc vs v :
  declared_stake (vs ++ [v]) = wrapping_add u64_max (declared_stake vs) (v_stake v).
Proof.
  unfold declared_stake, wrapping_add. rewrite Zplus_mod_idemp_l. f_equal.
  induction vs as [|w vs IH]; simpl; [lia|]. rewrite IH. lia.
Qed.

Lemma set_bit_length bm i : length (set_bit bm i) = length bm.
Proof. apply length_alter. Qed.

Lemma set_bit_spec bm i j :
  (i / 8 < length bm)%nat →
  Z.testbit (nth (j / 8)%nat (set_bit bm i) 0) (Z.of_nat (j mod 8)%nat) =
  (i =? j)%nat || Z.testbit (nth (j / 8)%nat bm 0) (Z.of_nat (j mod 8)%nat).
Proof.
  intros Hi. rewrite !nth_lookup. unfold set_bit.
  destruct (decide (i / 8 = j / 8)%nat) as [Heq|Hne].
  - rewrite Heq, list_lookup_alter_eq. assert (Hi' : (j / 8 < length bm)%nat) by lia. destruct (lookup_lt_is_Some_2 bm _ Hi') as [b Hb].
    rewrite Hb. unfold fmap, option_fmap, option_map, default, from_option, id. rewrite Z.lor_spec, orb_comm. f_equal. rewrite Z.shiftl_1_l, Z.pow2_bits_eqb by lia.
    destruct (Nat.eqb_spec i j) as [->|Hij]; [apply Z.eqb_refl|]. apply Z.eqb_neq. intros Hm%Nat2Z.inj. apply Hij.
    pose proof (Nat.div_mod_eq i 8). pose proof (Nat.div_mod_eq j 8). lia.
  - rewrite list_lookup_alter_ne by done. destruct (Nat.eqb_spec i j) as [->|]; [done|]. done.
Qed.

Lemma set_bits_spec ks bm j :
  (∀ i, i ∈ ks → (i / 8 < length bm)%nat) →
  length (foldl set_bit bm ks) = length bm ∧
  Z.testbit (nth (j / 8)%nat (foldl set_bit bm ks) 0) (Z.of_nat (j mod 8)%nat) =
  existsb (Nat.eqb j) ks || Z.testbit (nth (j / 8)%nat bm 0) (Z.of_nat (j mod 8)%nat).
Proof.
  revert bm. induction ks as [|i ks IH]; intros bm Hall; simpl; [done|].
  destruct (IH (set_bit bm i)) as [Hl Hb].
  { intros k Hk. rewrite set_bit_length. apply Hall. by right. }
  rewrite set_bit_length in Hl. split; [done|]. rewrite Hb, set_bit_spec by (apply Hall; left).
  rewrite (Nat.eqb_sym i j). by destruct (Nat.eqb j i), (existsb (Nat.eqb j) ks).
Qed.

Lemma create_qc_certifies threshold sl :
  Forall (λ v, v_block_hash v = hash (block sl) ∧ v_view v = view (block sl)) (votes sl) →
  NoDup (map voter (votes sl)) → threshold ≤ declared_stake (votes sl) →
  certifies threshold (block sl) (votes sl) (create_qc sl).
Proof.
  intros Hv Hnd Hst. set (n := length (votes sl)).
  assert (Hbits : ∀ j, length (qc_signers_bitmap (create_qc sl)) = ((n + 7) / 8)%nat ∧
    Z.testbit (nth (j / 8)%nat (qc_signers_bitmap (create_qc sl)) 0) (Z.of_nat (j mod 8)%nat) = existsb (Nat.eqb j) (seq 0 n)).
  { intros j. unfold create_qc. simpl. fold n.
    destruct (set_bits_spec (seq 0 n) (replicate ((n + 7) / 8) 0) j) as [Hl Hb].
    - intros i [_ Hi]%elem_of_seq. rewrite length_replicate. apply Nat.div_lt_upper_bound; [lia|].
      pose proof (Nat.div_mod_eq (n + 7) 8). pose proof (Nat.mod_upper_bound (n + 7) 8). lia.
    - rewrite length_replicate in Hl. split; [done|]. rewrite Hb.
      rewrite nth_lookup. destruct (replicate ((n + 7) / 8) 0 !! (j / 8)%nat) as [x|] eqn:Hx; simpl.
      + apply lookup_replicate in Hx as [-> _]. by rewrite Z.bits_0, orb_false_r.
      + by rewrite Z.bits_0, orb_false_r. }
  split; [done|done|done| |].
  - assert (qc_total_stake (create_qc sl) = declared_stake (votes sl)) as ->; [|done].
    apply (foldl_wrapping_add v_stake u64_max (votes sl) 0).
  - split; [apply (proj1 (Hbits 0%nat))|]. intros i _. rewrite (proj2 (Hbits i)). fold n.
    destruct (Nat.ltb_spec i n) as [Hi|Hi].
    + apply existsb_exists. exists i. split; [apply in_seq; lia|apply Nat.eqb_refl].
    + apply not_true_iff_false. intros (k & Hk%in_seq & ->%Nat.eqb_eq)%existsb_exists. lia.
Qed.

(** ** The invariant *)

(** A slot holds at most one vote of each voter, all for its block, their declared
    stake, and a certificate made from the votes that reached the quorum. *)
Record slot_ok (threshold w : Z) (sl : PipelineSlot) : Prop := {
  so_view : view (block sl) = w;
  so_votes : Forall (λ v, v_block_hash v = hash (block sl) ∧ v_view v = w) (votes sl);
  so_voters : NoDup (map voter (votes sl));
  so_stake : vote_stake sl = declared_stake (votes sl);
  so_qc : ∀ q, qc sl = Some q → ∃ vs rest, votes sl = vs ++ rest ∧ certifies threshold (block sl) vs q
}.

Record inv (s : PipelinedConsensus) : Prop := {
  inv_slots : map_Forall (slot_ok (quorum_threshold s)) (pipeline s);
  inv_depth : 0 ≤ max_pipeline_depth s;
  inv_size : Z.of_nat (size (pipeline s)) ≤ 2 * max_pipeline_depth s;
  inv_pending : Z.of_nat (length (pending_proposals s)) ≤ 2 * max_pipeline_depth s
}.

Lemma inv_same s s' :
  pipeline s' = pipeline s → quorum_threshold s' = quorum_threshold s → max_pipeline_depth s' = max_pipeline_depth s →
  pending_proposals s' = pending_proposals s → inv s → inv s'.
Proof. intros E1 E2 E3 E4 []. split; rewrite ?E1, ?E2, ?E3, ?E4; done. Qed.

Lemma new_slot_ok th b : slot_ok th (view b) (new_slot b).
Proof. split; simpl; [done|constructor|constructor|done|done]. Qed.

Lemma size_insert_le {V} (m : gmap Z V) k v : (size (<[k := v]> m) ≤ S (size m))%nat.
Proof. rewrite map_size_insert. destruct (m !! k); simpl; lia. Qed.

Lemma inv_insert_slot s w sl :
  slot_ok (quorum_threshold s) w sl → (is_Some (pipeline s !! w) ∨ Z.of_nat (size (pipeline s)) < 2 * max_pipeline_depth s) →
  inv s → inv (set_pipeline (<[w := sl]> (pipeline s)) s).
Proof.
  intros Hsl Hsz [Hs Hd Hn Hp]. split; simpl; [|done| |done].
  - by apply map_Forall_insert_2.
  - destruct Hsz as [Hk|Hlt]; [rewrite map_size_insert_Some by done; done|].
    pose proof (size_insert_le (pipeline s) w sl). lia.
Qed.

Lemma try_commit_same q s :
  let s' := try_commit q s in
  pipeline s' = pipeline s ∧ quorum_threshold s' = quorum_threshold s ∧ max_pipeline_depth s' = max_pipeline_depth s ∧
  pending_proposals s' = pending_proposals s ∧ current_view s' = current_view s.
Proof. unfold try_commit. repeat case_match; done. Qed.

(** The slot after a vote that counts. *)
Lemma add_vote_ok th w sl v :
  slot_ok th w sl → hash (block sl) = v_block_hash v → v_view v = w →
  existsb (λ u, voter u =? voter v) (votes sl) = false → slot_ok th w (add_vote sl v).
Proof.
  intros [Hw Hv Hnd Hst Hqc] Hh Hview Hex. split; simpl; [done| | | |].
  - apply Forall_app. split; [done|]. constructor; [done|constructor].
  - rewrite map_app. apply list.NoDup_app. split; [done|]. split.
    + intros x (u & -> & Hu)%list_elem_of_fmap Hx%list_elem_of_singleton.
      apply not_true_iff_false in Hex. apply Hex, existsb_exists. exists u. split; [by apply list_elem_of_In|].
      by apply Z.eqb_eq.
    + apply NoDup_singleton.
  - by rewrite declared_stake_snoc, Hst.
  - intros q Hq. destruct (Hqc q Hq) as (vs & rest & Heq & Hc). exists vs, (rest ++ [v]).
    by rewrite Heq, <- app_assoc.
Qed.

Lemma certify_ok th w sl :
  slot_ok th w sl → has_quorum sl th = true →
  certifies th (block sl) (votes sl) (create_qc sl) ∧
  slot_ok th w (mkSlot (set_status Certified (block sl)) (votes sl) (Some (create_qc sl)) (vote_stake sl)).
Proof.
  intros [Hw Hv Hnd Hst _] Hq%Z.leb_le.
  assert (Hc : certifies th (block sl) (votes sl) (create_qc sl)).
  { apply create_qc_certifies; [|done|by rewrite <- Hst]. by rewrite Hw. }
  split; [done|]. split; simpl; [done..|]. intros q [= <-]. exists (votes sl), []. rewrite app_nil_r.
  split; [done|]. by destruct Hc.
Qed.

(** What a vote does, branch by branch. *)
Lemma on_vote_spec v s :
  inv s →
  let '(r, s') := on_vote v s in
  (s' = s ∧ (∀ q, r = Ok (Some q) → ∃ sl, pipeline s !! v_view v = Some sl ∧ qc sl = Some q)) ∨
  (∃ sl, pipeline s !! v_view v = Some sl ∧ hash (block sl) = v_block_hash v ∧ r = Ok None ∧
     slot_ok (quorum_threshold s) (v_view v) (add_vote sl v) ∧
     s' = set_pipeline (<[v_view v := add_vote sl v]> (pipeline s)) s) ∨
  (∃ sl q sl' s1, pipeline s !! v_view v = Some sl ∧ hash (block sl) = v_block_hash v ∧ r = Ok (Some q) ∧
     slot_ok (quorum_threshold s) (v_view v) sl' ∧ block sl' = set_status Certified (block sl) ∧
     certifies (quorum_threshold s) (block sl) (votes sl ++ [v]) q ∧
     s1 = set_pipeline (<[v_view v := sl']> (pipeline s)) s ∧ s' = try_commit q s1).
Proof.
  intros Hinv. unfold on_vote. rewrite gets_bind. unfold id.
  destruct (pipeline s !! v_view v) as [sl|] eqn:Hsl; [|by left].
  rewrite fail_if_bind. destruct (Z.eqb_spec (hash (block sl)) (v_block_hash v)) as [Hh|]; simpl; [|by left].
  destruct (existsb _ _) eqn:Hex; [left; split; [done|]; intros q [= Hq]; by exists sl|].
  pose proof (add_vote_ok _ _ sl v (inv_slots _ Hinv _ _ Hsl) Hh eq_refl Hex) as Hok.
  destruct (bool_decide (qc sl = None) && has_quorum (add_vote sl v) (quorum_threshold s)) eqn:Hb; right; [right|left].
  - apply andb_true_iff in Hb as [_ Hq]. destruct (certify_ok _ _ _ Hok Hq) as [Hc Hok'].
    unfold bindM, modify, returns. eexists sl, (create_qc (add_vote sl v)), _, _. split_and!; try done.
  - exists sl. done.
Qed.

Lemma filter_slots th (P : Z * PipelineSlot → Prop) `{∀ x, Decision (P x)} (m : gmap Z PipelineSlot) :
  map_Forall (slot_ok th) m → map_Forall (slot_ok th) (filter P m).
Proof. intros Hm k sl [Hk _]%map_lookup_filter_Some. by apply Hm. Qed.

Lemma advance_inv s : inv s → inv (advance_view s).
Proof.
  intros [Hs Hd Hn Hp]. split; simpl; [by apply filter_slots|done| |done].
  etrans; [|exact Hn]. apply inj_le. apply map_size_filter.
Qed.

Lemma on_proposal_inv b s : inv s → inv (on_proposal b s).2.
Proof.
  intros Hinv. unfold on_proposal. rewrite gets_bind. unfold id, bindM at 1, lift.
  destruct (verify_proposal s b) as [[]|e]; simpl; [|done..]. rewrite fail_if_bind.
  destruct (Z.leb_spec (max_pipeline_depth s * 2) (Z.of_nat (size (pipeline s)))) as [|Hroom]; [done|].
  assert (Hadd : inv (add_to_pipeline b s)).
  { unfold add_to_pipeline. destruct (pipeline s !! view b) eqn:Hb; [done|].
    apply inv_insert_slot; [apply new_slot_ok|right; lia|done]. }
  destruct (justify_qc b) as [justify|]; [|done].
  destruct (has_block s (qc_block_hash justify)); simpl.
  - unfold bindM, modify, returns. simpl. by apply (inv_same (add_to_pipeline b s)).
  - rewrite fail_if_bind. destruct (Z.leb_spec (max_pipeline_depth s * 2) (Z.of_nat (length (pending_proposals s)))); [done|].
    unfold bindM, modify, returns. simpl. destruct Hinv. split; simpl; [done..|]. rewrite length_app. simpl. lia.
Qed.

Section Inv.
Context (sha3_256 : list Z → Hash).

Lemma step_inv s o : inv s → inv (step sha3_256 s o).
Proof.
  intros Hinv. destruct o as [payload root|b|v| |v]; simpl.
  - unfold propose. rewrite gets_bind. unfold id. destruct (next_parent s) as [parent h].
    cbv beta iota zeta. rewrite fail_if_bind. destruct (Z.leb_spec (max_pipeline_depth s) (Z.of_nat (size (pipeline s)))) as [|Hroom]; [done|].
    unfold bindM, modify, returns. simpl. pose proof (inv_depth _ Hinv).
    apply inv_insert_slot; [exact (new_slot_ok _ (new_block _ _ (current_view s) _ _ _ _ _))|right; lia|done].
  - by apply on_proposal_inv.
  - pose proof (on_vote_spec v s Hinv) as Hv. destruct (on_vote v s) as [r s']. simpl.
    destruct Hv as [[-> _]|[(sl & Hsl & _ & _ & Hok & ->)|(sl & q & sl' & s1 & Hsl & _ & _ & Hok & _ & _ & Hs1 & ->)]]; [done| |].
    + apply inv_insert_slot; [done|left; by eexists|done].
    + destruct (try_commit_same q s1) as (E1 & E2 & E3 & E4 & _). apply (inv_same s1); try done. subst s1.
      apply inv_insert_slot; [done|left; by eexists|done].
  - by apply advance_inv.
  - by apply advance_inv.
Qed.

Lemma run_inv s os : inv s → inv (foldl (step sha3_256) s os).
Proof. revert s. induction os as [|o os IH]; intros s Hs; simpl; [done|]. apply IH. by apply step_inv. Qed.
End Inv.

Lemma new_inv addr c : 0 ≤ cfg_max_pipeline_depth c → inv (new addr c).
Proof. intros Hd. split; simpl; [apply map_Forall_empty|done|rewrite map_size_empty; lia|lia]. Qed.

(** What the commit rule does with a certificate. *)
Lemma try_commit_spec q s :
  let s' := try_commit q s in
  commit_tx s' = commit_tx s ∧ committed s' = committed s ∨
  ∃ certified parent g, known s certified ∧ known s parent ∧ known s g ∧
    hash certified = qc_block_hash q ∧ hash parent = parent_hash certified ∧ grandparent_hash parent = Some (hash g) ∧
    status g ≠ Committed ∧ commit_tx s' = commit_tx s ++ [set_status Committed g] ∧
    committed s' = <[height g := set_status Committed g]> (committed s) ∧ locked_block s' = Some parent.
Proof.
  unfold try_commit. destruct (get_pipeline_block s (qc_block_hash q)) as [c|] eqn:Hc; [|by left].
  destruct (get_pipeline_block s (parent_hash c)) as [p|] eqn:Hp; [|by left].
  destruct (grandparent_hash p) as [h|] eqn:Hg; [|by left].
  destruct (get_pipeline_block s h) as [g|] eqn:Hgp; [|by left]. simpl.
  case_bool_decide as Hst; [|by left]. right.
  apply get_pipeline_block_known in Hc as [Kc Hc], Hp as [Kp Hp], Hgp as [Kg <-].
  exists c, p, g. done.
Qed.

Lemma step_keeps_commits sha3_256 s o :
  (∀ v, o ≠ PVote v) →
  commit_tx (step sha3_256 s o) = commit_tx s ∧ committed (step sha3_256 s o) = committed s.
Proof.
  intros Ho. set (same := λ s', commit_tx s' = commit_tx s ∧ committed s' = committed s).
  change (same (step sha3_256 s o)). destruct o as [payload root|b|v| |v]; simpl; [| |by destruct (Ho v)|done|done].
  - unfold propose. rewrite gets_bind. destruct (next_parent (id s)). cbv beta iota zeta. rewrite fail_if_bind.
    by case_match.
  - unfold on_proposal. rewrite gets_bind. unfold id, bindM at 1, lift.
    destruct (verify_proposal s b) as [[]|e]; simpl; [|done..]. rewrite fail_if_bind. case_match; [done|].
    assert (Ha : same (add_to_pipeline b s)) by (unfold add_to_pipeline; by case_match).
    case_match; [|done]. case_match; simpl; [rewrite fail_if_bind; by case_match|done].
Qed.

(** C5. Certificates and commits.  After any calls on a new instance, a step hands
    a block to the commit channel (and stores it as committed) only when a vote
    completes a quorum certificate: the certificate is for the block voted on, made
    from one vote per voter whose declared stakes add up (modulo 2^64) to its stake
    and reach the threshold, with exactly their bits set; and the committed block is
    the recorded grandparent of a known block which is the parent of the certified
    one, where the lock moves.  The pipeline and the queue of proposals never hold
    more than twice the configured depth. *)
Theorem commit_rule sha3_256 addr c os o :
  0 ≤ cfg_max_pipeline_depth c →
  let s := foldl (step sha3_256) (new addr c) os in
  let s' := step sha3_256 s o in
  Z.of_nat (size (pipeline s)) ≤ 2 * max_pipeline_depth s ∧
  Z.of_nat (length (pending_proposals s)) ≤ 2 * max_pipeline_depth s ∧
  (commit_tx s' = commit_tx s ∧ committed s' = committed s ∨
   ∃ v sl q s1 certified parent g,
     o = PVote v ∧ pipeline s !! v_view v = Some sl ∧ hash (block sl) = v_block_hash v ∧
     certifies (quorum_threshold s) (block sl) (votes sl ++ [v]) q ∧
     (on_vote v s).1 = Ok (Some q) ∧ s' = try_commit q s1 ∧
     known s1 certified ∧ known s1 parent ∧ known s1 g ∧
     hash certified = v_block_hash v ∧ hash parent = parent_hash certified ∧ grandparent_hash parent = Some (hash g) ∧
     commit_tx s' = commit_tx s ++ [set_status Committed g] ∧
     committed s' = <[height g := set_status Committed g]> (committed s) ∧ locked_block s' = Some parent).
Proof.
  intros Hd s s'. assert (Hinv : inv s) by (apply run_inv, new_inv, Hd).
  split; [by apply inv_size|]. split; [by apply inv_pending|].
  assert (Hvote : (∃ v, o = PVote v) ∨ ∀ v, o ≠ PVote v) by (destruct o; (left; by eexists) || by right).
  destruct Hvote as [[v ->]|Hno]; [|left; by apply step_keeps_commits].
  pose proof (on_vote_spec v s Hinv) as Hv. subst s'. simpl. destruct (on_vote v s) as [r s'] eqn:Hov. simpl.
  destruct Hv as [[-> _]|[(sl & _ & _ & _ & _ & ->)|(sl & q & sl' & s1 & Hsl & Hh & -> & _ & _ & Hc & Hs1 & ->)]]; [by left|by left|].
  assert (E : commit_tx s1 = commit_tx s ∧ committed s1 = committed s) by (by subst s1). destruct E as [E1 E2].
  destruct (try_commit_spec q s1) as [Hsame|(cb & p & g & Kc & Kp & Kg & Hcb & Hp & Hg & _ & H1 & H2 & H3)].
  - left. by rewrite E1, E2 in Hsame.
  - right. exists v, sl, q, s1, cb, p, g. rewrite E1 in H1. rewrite E2 in H2. destruct (ct_block _ _ _ _ Hc) as [Hqb _].
    split_and!; try done; [by rewrite Hov|congruence].
Qed.

(** ** Commits without votes of validators *)

Lemma known_insert s w sl b :
  pipeline s !! w = None → known (set_pipeline (<[w := sl]> (pipeline s)) s) b ↔ b = block sl ∨ known s b.
Proof.
  intros Hw. split.
  - intros [(w' & sl' & Hl & <-)|(h & Hh)]; [|right; right; by exists h]. simpl in Hl.
    apply lookup_insert_Some in Hl as [[_ <-]|[_ Hl]]; [by left|]. right. left. by exists w', sl'.
  - intros [->|[(w' & sl' & Hl & <-)|(h & Hh)]].
    + left. exists w, sl. split; [apply lookup_insert_eq|done].
    + left. exists w', sl'. split; [|done]. simpl. rewrite lookup_insert_ne; [done|]. intros ->. congruence.
    + right. by exists h.
Qed.

(** A proposal without a certificate is accepted whatever the lock is. *)
Lemma on_proposal_unjustified b s :
  justify_qc b = None → current_view s ≤ view b → pipeline s !! view b = None →
  Z.of_nat (size (pipeline s)) < max_pipeline_depth s * 2 →
  on_proposal b s = (Ok true, set_pipeline (<[view b := new_slot b]> (pipeline s)) s).
Proof.
  intros Hj Hv Hf Hroom. unfold on_proposal, verify_proposal, add_to_pipeline. rewrite gets_bind. unfold id.
  rewrite Hj, (proj2 (Z.ltb_ge _ _) Hv). unfold bindM, lift, fail_if, modify, returns.
  destruct (locked_block s); simpl; by rewrite (proj2 (Z.leb_gt _ _) Hroom), Hf.
Qed.

Section Forged.
Context (g : PipelinedBlock) (w hp hc : Z) (x : Address).

(** A made-up parent that names [g] as its grandparent, and a made-up child. *)
Definition fake_parent : PipelinedBlock := mkBlock hp 0 (Some (hash g)) w 0 x [] 0 None Proposed.
Definition fake_child : PipelinedBlock := mkBlock hc hp None (w + 1) 0 x [] 0 None Proposed.
Definition fake_vote (stake : Z) : PipelineVote := mkVote hc (w + 1) x stake [].

Lemma fake_commit s :
  known s g → status g ≠ Committed → (∀ b, known s b → hash b = hash g → b = g) →
  hp ≠ hc → hp ≠ hash g → hc ≠ hash g → (∀ b, known s b → hash b ≠ hp ∧ hash b ≠ hc) →
  0 ≤ quorum_threshold s ≤ u64_max →
  let s0 := set_pipeline (<[w + 1 := new_slot fake_child]> (<[w := new_slot fake_parent]> (pipeline s))) s in
  pipeline s !! w = None → pipeline s !! (w + 1) = None →
  commit_tx (on_vote (fake_vote (quorum_threshold s)) s0).2 = commit_tx s ++ [set_status Committed g].
Proof.
  intros Hg Hst Hu Hpc Hpg Hcg Hfresh Hth s0 Hw Hw'. unfold on_vote. rewrite gets_bind. unfold id. simpl.
  rewrite lookup_insert_eq, fail_if_bind. simpl. rewrite Z.eqb_refl. simpl.
  unfold has_quorum, add_vote at 1 2. simpl. unfold wrapping_add. rewrite Z.add_0_l, Z.mod_small by lia.
  rewrite Z.leb_refl. unfold bindM, modify, returns. simpl.
  match goal with |- context [try_commit ?q ?t] => set (s1 := t); set (qq := q) end.
  set (c' := set_status Certified fake_child).
  assert (Hk : ∀ b, known s1 b ↔ b = c' ∨ b = fake_parent ∨ known s b).
  { intros b. set (sp := set_pipeline (<[w := new_slot fake_parent]> (pipeline s)) s).
    assert (Hsp : pipeline sp !! (w + 1) = None) by (simpl; rewrite lookup_insert_ne by lia; done).
    rewrite <- (known_insert s w (new_slot fake_parent) b Hw : known sp b ↔ _).
    rewrite <- (known_insert sp (w + 1) (mkSlot c' [fake_vote (quorum_threshold s)] (Some qq) (quorum_threshold s)) b Hsp).
    subst s1 s0. simpl. by rewrite insert_insert_eq. }
  assert (Hc : get_pipeline_block s1 hc = Some c').
  { apply (get_pipeline_block_unique s1 c'); [apply Hk; by left|].
    intros b [->|[->|Hb]]%Hk Heq; [done|simpl in Heq; congruence|]. by destruct (Hfresh b Hb). }
  assert (Hp : get_pipeline_block s1 hp = Some fake_parent).
  { apply (get_pipeline_block_unique s1 fake_parent); [apply Hk; by right; left|].
    intros b [->|[->|Hb]]%Hk Heq; [simpl in Heq; congruence|done|]. by destruct (Hfresh b Hb). }
  assert (Hgp : get_pipeline_block s1 (hash g) = Some g).
  { apply get_pipeline_block_unique; [apply Hk; by right; right|].
    intros b [->|[->|Hb]]%Hk Heq; [simpl in Heq; congruence..|]. by apply Hu. }
  unfold try_commit. change (qc_block_hash qq) with hc. rewrite Hc. change (parent_hash c') with hp. rewrite Hp.
  change (grandparent_hash fake_parent) with (Some (hash g)). cbv iota. rewrite Hgp.
  rewrite bool_decide_true by done. done.
Qed.
End Forged.

(** A commit needs no votes of validators.  Neither the stake nor the signature
    of a vote is checked, the grandparent a proposal names is taken as it is, and
    proposals without a certificate pass the lock.  So three messages of anyone, two
    made-up proposals without certificate and one unsigned vote that declares
    the threshold as its stake, make an instance with room in its pipeline commit any
    block [g] it knows, whatever its lock is. *)
Theorem forged_messages_commit sha3_256 s g hp hc x :
  let w := current_view s in
  known s g → status g ≠ Committed → (∀ b, known s b → hash b = hash g → b = g) →
  hp ≠ hc → hp ≠ hash g → hc ≠ hash g → (∀ b, known s b → hash b ≠ hp ∧ hash b ≠ hc) →
  0 ≤ quorum_threshold s ≤ u64_max → pipeline s !! w = None → pipeline s !! (w + 1) = None →
  Z.of_nat (size (pipeline s)) + 1 < max_pipeline_depth s * 2 →
  commit_tx (foldl (step sha3_256) s [PProposal (fake_parent g w hp x); PProposal (fake_child w hp hc x);
                                      PVote (fake_vote w hc x (quorum_threshold s))]) =
    commit_tx s ++ [set_status Committed g].
Proof.
  intros w Hg Hst Hu Hpc Hpg Hcg Hfresh Hth Hw Hw' Hroom. simpl.
  rewrite (on_proposal_unjustified (fake_parent g w hp x) s) by (simpl; done || lia).
  cbn [snd]. rewrite on_proposal_unjustified; simpl; [exact (fake_commit g w hp hc x s Hg Hst Hu Hpc Hpg Hcg Hfresh Hth Hw Hw')|done|lia| |].
  - rewrite lookup_insert_ne by lia. done.
  - rewrite map_size_insert_None by done. lia.
Qed.

(** ** View synchronisation *)

Lemma advance_to_correct m c :
  0 ≤ current_view c → current_view c ≤ m ≤ u64_max →
  ∃ c', advance_to (Z.to_nat (m - current_view c)) m c = Some c' ∧ current_view c' = m.
Proof.
  intros Hc Hm. remember (Z.to_nat (m - current_view c)) as n eqn:Hn. revert c Hc Hm Hn.
  induction n as [|n IH]; intros c Hc Hm Hn; simpl.
  - assert (current_view c = m) as Heq by lia. rewrite (proj2 (Z.ltb_ge _ _)) by lia. by exists c.
  - rewrite (proj2 (Z.ltb_lt _ _)) by lia.
    assert (Hadv : current_view (advance_view c) = current_view c + 1).
    { simpl. unfold wrapping_add. apply Z.mod_small. lia. }
    apply IH; rewrite Hadv; lia.
Qed.

Lemma max_view_spec p :
  (∀ k c, shard_consensus p !! k = Some c → current_view c ≤ max_view p) ∧ 0 ≤ max_view p ∧
  (max_view p = 0 ∨ ∃ k c, shard_consensus p !! k = Some c ∧ current_view c = max_view p).
Proof.
  unfold max_view. induction (shard_consensus p) as [|k c m Hk IH] using map_ind.
  - rewrite map_fold_empty. split; [by intros k c Hl%lookup_empty_Some|]. split; [lia|by left].
  - rewrite map_fold_insert_L; [|intros; lia|done]. destruct IH as (H1 & H2 & H3). split; [|split; [lia|]].
    + intros k' c' [[_ <-]|[_ Hl]]%lookup_insert_Some; [lia|]. specialize (H1 _ _ Hl). lia.
    + set (mv := map_fold _ 0 m) in *. destruct (Z.max_spec (current_view c) mv) as [[Hlt ->]|[Hle ->]].
      * destruct H3 as [|(k' & c' & Hl & Heq)]; [by left|]. right. exists k', c'. split; [|done].
        rewrite lookup_insert_ne; [done|]. intros ->. congruence.
      * right. exists k, c. split; [apply lookup_insert_eq|done].
Qed.

(** View synchronisation terminates and aligns the shards: the loop of every
    shard ends after as many turns as the shard lags behind, every shard is then at
    the highest view any shard had, and no shard is lost. *)
Theorem sync_views_correct p :
  map_Forall (λ _ c, 0 ≤ current_view c ≤ u64_max) (shard_consensus p) →
  (∀ k c, shard_consensus p !! k = Some c →
     is_Some (advance_to (Z.to_nat (max_view p - current_view c)) (max_view p) c)) ∧
  (∀ k c, shard_consensus p !! k = Some c → current_view c ≤ sync_view (sync_views p)) ∧
  (∀ k, is_Some (shard_consensus p !! k) ↔ is_Some (shard_consensus (sync_views p) !! k)) ∧
  map_Forall (λ _ c, current_view c = sync_view (sync_views p)) (shard_consensus (sync_views p)).
Proof.
  intros Hall. destruct (max_view_spec p) as (Hle & Hnn & Hmax).
  assert (Hbound : max_view p ≤ u64_max).
  { destruct Hmax as [->|(k & c & Hc & <-)]; [done|]. by destruct (Hall _ _ Hc). }
  assert (Hadv : ∀ k c, shard_consensus p !! k = Some c →
    ∃ c', advance_to (Z.to_nat (max_view p - current_view c)) (max_view p) c = Some c' ∧ current_view c' = max_view p).
  { intros k c Hc. apply advance_to_correct; [by destruct (Hall _ _ Hc)|]. split; [by eapply Hle|done]. }
  split; [|split; [|split]].
  - intros k c Hc. destruct (Hadv k c Hc) as (c' & -> & _). by eexists.
  - intros k c Hc. simpl. by eapply Hle.
  - intros k. simpl. rewrite lookup_fmap. by rewrite fmap_is_Some.
  - intros k c'. simpl. rewrite lookup_fmap. intros (c & Hc & ->)%fmap_Some.
    destruct (Hadv k c Hc) as (c' & -> & Hv). done.
Qed.

(** ** A network of honest instances *)

(** Proposals are made by the instances and delivered to any of them, any number
    of times in any order; votes are arbitrary. *)
Inductive NetOp : Type :=
  | NPropose (i : Z) (payload : list Z) (state_root : Hash)
  | NDeliver (i : Z) (k : nat)
  | NVote (i : Z) (v : PipelineVote)
  | NAdvance (i : Z).

Record Network : Type := mkNet {
  nodes : gmap Z PipelinedConsensus;
  sent : list PipelinedBlock
}.

Definition net_step (sha3_256 : list Z → Hash) (n : Network) (o : NetOp) : Network :=
  let run i op := mkNet (alter (λ c, step sha3_256 c op) i (nodes n)) (sent n) in
  match o with
  | NPropose i payload root =>
      match nodes n !! i with
      | Some c => let '(r, c') := propose sha3_256 payload root c in
          mkNet (<[i := c']> (nodes n)) (sent n ++ match r with Ok b => [b] | Err _ => [] end)
      | None => n
      end
  | NDeliver i k => match sent n !! k with Some b => run i (PProposal b) | None => n end
  | NVote i v => run i (PVote v)
  | NAdvance i => run i PAdvance
  end.

(** No proposal of the run hashes to the all-zero hash. *)
Definition no_zero_hash (sha3_256 : list Z → Hash) (o : NetOp) : Prop :=
  match o with
  | NPropose _ payload root => ∀ v, sha3_256 (block_preimage 0 v payload root) ≠ 0
  | _ => True
  end.

Record orphan (b : PipelinedBlock) : Prop := {
  or_hash : hash b ≠ 0;
  or_parent : parent_hash b = 0;
  or_grand : grandparent_hash b = None;
  or_justify : justify_qc b = None
}.

Record stuck (s : PipelinedConsensus) : Prop := {
  st_qc : high_qc s = None;
  st_tx : commit_tx s = [];
  st_committed : committed s = ∅;
  st_blocks : map_Forall (λ _ sl, orphan (block sl)) (pipeline s)
}.

Lemma stuck_pipeline s m :
  stuck s → map_Forall (λ _ sl, orphan (block sl)) m → stuck (set_pipeline m s).
Proof. intros [] Hm. by split. Qed.

Lemma stuck_known s b : stuck s → known s b → orphan b.
Proof.
  intros [_ _ Hc Hb] [(w & sl & Hl & <-)|(h & Hh)]; [by eapply Hb|]. by rewrite Hc, lookup_empty in Hh.
Qed.

(** The commit rule returns before it records the certificate of a block whose
    parent is not known. *)
Lemma stuck_try_commit q s : stuck s → try_commit q s = s.
Proof.
  intros Hs. unfold try_commit. destruct (get_pipeline_block s (qc_block_hash q)) as [c|] eqn:Hc; [|done].
  apply get_pipeline_block_known in Hc as [Hc _]. apply (stuck_known _ _ Hs) in Hc. rewrite (or_parent _ Hc).
  destruct (get_pipeline_block s 0) as [p|] eqn:Hp; [|done].
  apply get_pipeline_block_known in Hp as [Hp Hz]. apply (stuck_known _ _ Hs) in Hp. by destruct (or_hash _ Hp).
Qed.

Lemma stuck_propose sha3_256 payload root s :
  stuck s → (∀ v, sha3_256 (block_preimage 0 v payload root) ≠ 0) →
  let '(r, s') := propose sha3_256 payload root s in stuck s' ∧ ∀ b, r = Ok b → orphan b.
Proof.
  intros Hs Hz. unfold propose. rewrite gets_bind. unfold id, next_parent. rewrite (st_qc _ Hs). cbv beta iota zeta.
  rewrite fail_if_bind. destruct (max_pipeline_depth s <=? _); [done|]. unfold bindM, modify, returns.
  set (b := new_block _ _ _ _ _ _ _ _). assert (Hb : orphan b) by (split; simpl; [apply Hz|done..]).
  split; [|by intros b' [= <-]]. apply stuck_pipeline; [done|]. apply map_Forall_insert_2; [done|apply Hs].
Qed.

Lemma stuck_proposal b s : stuck s → orphan b → stuck (on_proposal b s).2.
Proof.
  intros Hs Hb. unfold on_proposal. rewrite gets_bind. unfold id, bindM at 1, lift.
  destruct (verify_proposal s b) as [[]|e]; simpl; [|done..]. rewrite fail_if_bind. case_match; [done|].
  rewrite (or_justify _ Hb). unfold bindM, modify, returns, add_to_pipeline. simpl. case_match; [done|].
  apply stuck_pipeline; [done|]. apply map_Forall_insert_2; [done|apply Hs].
Qed.

Lemma stuck_vote v s : stuck s → stuck (on_vote v s).2.
Proof.
  intros Hs. unfold on_vote. rewrite gets_bind. unfold id.
  destruct (pipeline s !! v_view v) as [sl|] eqn:Hsl; [|done]. rewrite fail_if_bind. case_match; [done|].
  case_match; [done|]. pose proof (st_blocks _ Hs _ _ Hsl) as Hb. simpl in Hb.
  assert (Hput : ∀ sl', orphan (block sl') → stuck (set_pipeline (<[v_view v := sl']> (pipeline s)) s)).
  { intros sl' Hsl'. apply stuck_pipeline; [done|]. apply map_Forall_insert_2; [done|apply Hs]. }
  assert (Hb' : orphan (set_status Certified (block sl))) by (by destruct Hb).
  case_match; unfold bindM, modify, returns; simpl; [|by apply Hput]. by rewrite stuck_try_commit; apply Hput.
Qed.

Lemma stuck_advance s : stuck s → stuck (advance_view s).
Proof.
  intros [H1 H2 H3 H4]. split; simpl; [done..|]. intros k sl [Hk _]%map_lookup_filter_Some. by apply (H4 k).
Qed.

Lemma stuck_net sha3_256 n o :
  no_zero_hash sha3_256 o → map_Forall (λ _ c, stuck c) (nodes n) ∧ Forall orphan (sent n) →
  map_Forall (λ _ c, stuck c) (nodes (net_step sha3_256 n o)) ∧ Forall orphan (sent (net_step sha3_256 n o)).
Proof.
  intros Hz [Hn Hs].
  assert (Hrun : ∀ i op, (∀ c, stuck c → stuck (step sha3_256 c op)) →
    map_Forall (λ _ c, stuck c) (alter (λ c, step sha3_256 c op) i (nodes n))).
  { intros i op Hop k c Hk. apply lookup_alter_Some in Hk as [(-> & c0 & Hc0 & ->)|[_ Hk]]; [|by eapply Hn].
    apply Hop. by eapply Hn. }
  destruct o as [i payload root|i k|i v|i]; simpl.
  - destruct (nodes n !! i) as [c|] eqn:Hc; [|done].
    pose proof (stuck_propose sha3_256 payload root c (Hn _ _ Hc) Hz) as Hp.
    destruct (propose sha3_256 payload root c) as [r c']. destruct Hp as [Hc' Hr]. simpl. split.
    + by apply map_Forall_insert_2.
    + apply Forall_app. split; [done|]. destruct r as [b|e]; [constructor; [by apply Hr|constructor]|constructor].
  - destruct (sent n !! k) as [b|] eqn:Hb; [|done]. simpl. split; [|done]. apply (Hrun i (PProposal b)). intros c Hc.
    apply stuck_proposal; [done|]. by eapply list.Forall_lookup_1.
  - split; [|done]. apply (Hrun i (PVote v)). apply stuck_vote.
  - split; [|done]. apply (Hrun i PAdvance). apply stuck_advance.
Qed.

(** Instances that follow the protocol never commit anything.  The commit rule
    returns early, before recording a new certificate as the highest one, when the
    parent of the certified block is not known; the first block has no parent.  So in
    a network of any number of new instances that exchange their proposals, whatever
    votes and view changes happen, no instance ever has a highest certificate, every
    proposal is again a first block, and nothing is committed. *)
Theorem honest_network_never_commits sha3_256 addrs c os :
  Forall (no_zero_hash sha3_256) os →
  let n := foldl (net_step sha3_256) (mkNet ((λ a, new a c) <$> addrs) []) os in
  (∀ i s, nodes n !! i = Some s → high_qc s = None ∧ commit_tx s = [] ∧ committed s = ∅) ∧
  (∀ b, b ∈ sent n → parent_hash b = 0 ∧ justify_qc b = None).
Proof.
  intros Hos n.
  assert (Hinv : map_Forall (λ _ c, stuck c) (nodes n) ∧ Forall orphan (sent n)).
  { subst n. assert (Hinit : ∀ n0, map_Forall (λ _ c, stuck c) (nodes n0) ∧ Forall orphan (sent n0) →
      map_Forall (λ _ c, stuck c) (nodes (foldl (net_step sha3_256) n0 os)) ∧ Forall orphan (sent (foldl (net_step sha3_256) n0 os))).
    { induction Hos as [|o os Ho Hos IH]; intros n0 Hn0; simpl; [done|]. apply IH. by apply stuck_net. }
    apply Hinit. simpl. split; [|constructor]. intros k s. rewrite lookup_fmap. intros (a & _ & ->)%fmap_Some.
    split; simpl; [done..|]. apply map_Forall_empty. }
  destruct Hinv as [Hn Hs]. split.
  - intros i s Hi. by destruct (Hn _ _ Hi).
  - intros b Hb. eapply list.Forall_forall in Hs; [|exact Hb]. by destruct Hs.
Qed.

(** ** Concrete runs *)

Module Chain.
Definition sha3 (l : list Z) : Hash := foldl (λ h b, (h * 31 + b) mod 1000003) 7 l + 1.
Definition votes_for (h : Hash) (v : Z) : list PipeOp := [PVote (mkVote h v 1 40 []); PVote (mkVote h v 2 40 [])].
Definition config : PipelineConfig := mkConfig 67 100 10.
Definition cert (h : Hash) (v : Z) : QuorumCertificate := mkQC h v [] [3] 80.
Definition b0 : PipelinedBlock := new_block 10 0 0 0 5 [1] 0 None.
Definition b1 : PipelinedBlock := new_block 11 10 1 1 5 [2] 0 (Some (cert 10 0)).
Definition b2 : PipelinedBlock := new_block 12 11 2 2 5 [3] 0 (Some (cert 11 1)).
(** Proposals with certificates, the last one voted on. *)
Definition run : list PipeOp := [PProposal b0; PProposal b1; PProposal b2] ++ votes_for 12 2.
(** A first block that was certified, one view later. *)
Definition first : PipelinedConsensus :=
  foldl (step sha3) (new 5 config) (PProposal b0 :: votes_for 10 0 ++ [PAdvance]).
Definition genesis : PipelinedBlock := set_status Certified b0.
Definition net : list NetOp :=
  [NPropose 1 [4] 0; NDeliver 2 0; NVote 1 (mkVote (sha3 (block_preimage 0 0 [4] 0)) 0 1 100 []); NAdvance 1; NPropose 1 [5] 0].
End Chain.

(** A certified block commits its grandparent. *)
Example chain_commits :
  commit_tx (foldl (step Chain.sha3) (new 5 Chain.config) Chain.run) = [set_status Committed Chain.b0].
Proof. by vm_compute. Qed.

Lemma commit_rule_witness :
  let s := foldl (step Chain.sha3) (new 5 Chain.config) (take 4 Chain.run) in
  ∃ sl q, pipeline s !! 2 = Some sl ∧ certifies 67 (block sl) (votes sl ++ [mkVote 12 2 2 40 []]) q ∧
    (on_vote (mkVote 12 2 2 40 []) s).1 = Ok (Some q).
Proof.
  pose proof (commit_rule Chain.sha3 5 Chain.config (take 4 Chain.run) (PVote (mkVote 12 2 2 40 [])) ltac:(by vm_compute))
    as (_ & _ & [[H _]|(v & sl & q & s1 & cb & p & g & [= <-] & Hsl & _ & Hc & Hq & _)]).
  - exfalso. by vm_compute in H.
  - by exists sl, q.
Defined.

Lemma forged_messages_commit_witness :
  commit_tx (foldl (step Chain.sha3) Chain.first
    [PProposal (fake_parent Chain.genesis 1 77 9); PProposal (fake_child 1 77 78 9); PVote (fake_vote 1 78 9 67)]) =
  [set_status Committed Chain.genesis].
Proof.
  assert (Hk : ∀ b, known Chain.first b → b = Chain.genesis).
  { intros b [(w & sl & Hl & <-)|(h & Hh)].
    - change (pipeline Chain.first) with (<[0 := default (new_slot Chain.genesis) (pipeline Chain.first !! 0)]> (∅ : gmap Z PipelineSlot)) in Hl.
      apply lookup_insert_Some in Hl as [[_ <-]|[_ Hl]]; [by vm_compute|by rewrite lookup_empty in Hl].
    - change (committed Chain.first) with (∅ : gmap Z PipelinedBlock) in Hh. by rewrite lookup_empty in Hh. }
  apply (forged_messages_commit Chain.sha3 Chain.first Chain.genesis 77 78 9).
  - left. exists 0. eexists. split; [by vm_compute|by vm_compute].
  - by vm_compute.
  - intros b Hb _. by apply Hk.
  - done.
  - by vm_compute.
  - by vm_compute.
  - intros b ->%Hk. by vm_compute.
  - by vm_compute.
  - by vm_compute.
  - by vm_compute.
  - by vm_compute.
Defined.

Lemma sync_views_correct_witness :
  let p := register_shard 1 Chain.first (register_shard 0 (new 5 Chain.config) new_proposer) in
  sync_view (sync_views p) = 1 ∧
  map_Forall (λ _ c, current_view c = sync_view (sync_views p)) (shard_consensus (sync_views p)).
Proof.
  intros p. split; [by vm_compute|]. apply (sync_views_correct p). apply (bool_decide_unpack _). by vm_compute.
Defined.

Lemma honest_network_never_commits_witness :
  let n := foldl (net_step Chain.sha3) (mkNet ((λ a, new a Chain.config) <$> ({[1 := 1; 2 := 2]} : gmap Z Z)) []) Chain.net in
  length (sent n) = 2%nat ∧ ∀ i s, nodes n !! i = Some s → high_qc s = None ∧ commit_tx s = [] ∧ committed s = ∅.
Proof.
  split; [by vm_compute|].
  apply (honest_network_never_commits Chain.sha3 ({[1 := 1; 2 := 2]}) Chain.config Chain.net).
  assert (Hz : ∀ l, Chain.sha3 l ≠ 0).
  { intros l. unfold Chain.sha3. enough (0 ≤ foldl (λ h b, (h * 31 + b) mod 1000003) 7 l) by lia.
    destruct l as [|b l] using rev_ind; [done|]. rewrite foldl_snoc. apply Z.mod_pos_bound. lia. }
  repeat constructor; intros v; apply Hz.
Defined.
