(* ===== verification/ViewChange.v ===== *)
(** * View change

    Models [src/L1/src/consensus/view_change.rs]: view change messages and their
    certificates, new-view messages, heartbeats and timeouts, blame, and the
    pacemaker.

    The clock is an argument of the operations that read it ([now], in nanoseconds
    for instants and in seconds for timestamps).  [vc_tx] is the list of
    certificates handed to the channel.  The average latency, a floating-point
    statistic nothing reads, is left out.  The pacemaker's multiplier is kept in
    units of 1/64, in which every value it takes (1.5^n up to 8) is an integer;
    the conversion to a duration is left out.  Hash maps are iterated in the order
    of the finite map.  Texts of errors are shortened. *)

From S2P Require Import Prelude Bytes Consensus.

(** ** Data *)

Inductive ViewChangeStatus : Type := Normal | Changing | WaitingForLeader | Completed.

Inductive ViewChangeReason : Type :=
  | LeaderTimeout | EquivocationDetected | InvalidProposal | LeaderCrash | ScheduledRotation.

Record ViewChangeMessage : Type := mkMsg {
  new_view : Z;
  sender : Address;
  stake : Z;
  msg_high_qc : option QuorumCertificate;
  prepared_block : option Hash;
  reason : ViewChangeReason;
  signature : list Z;
  timestamp : Z
}.

(** [ViewChangeMessage::new] *)
Definition new_msg (now new_view : Z) (sender : Address) (stake : Z) (high_qc : option QuorumCertificate)
    (reason : ViewChangeReason) : ViewChangeMessage :=
  mkMsg new_view sender stake high_qc None reason [] now.

Definition signing_data (m : ViewChangeMessage) : list Z :=
  with_domain DOMAIN_VIEW_CHANGE
    (le_bytes 8 (new_view m) ++ hash_bytes (sender m) ++ le_bytes 8 (timestamp m) ++
     match msg_high_qc m with
     | Some q => hash_bytes (qc_block_hash q) ++ le_bytes 8 (qc_view q)
     | None => []
     end).

Record ViewChangeCertificate : Type := mkCert {
  cert_new_view : Z;
  aggregated_sig : list Z;
  signers : list Address;
  cert_total_stake : Z;
  max_qc : option QuorumCertificate
}.

(** [ViewChangeCertificate::new] and [is_valid] *)
Definition new_cert (v : Z) : ViewChangeCertificate := mkCert v [] [] 0 None.
Definition is_valid (c : ViewChangeCertificate) (quorum : Z) : bool := quorum <=? cert_total_stake c.

Record NewViewMessage : Type := mkNewView {
  nv_view : Z;
  nv_leader : Address;
  vc_cert : ViewChangeCertificate;
  nv_high_qc : option QuorumCertificate;
  first_proposal : option Hash;
  nv_signature : list Z
}.

Record BlameCertificate : Type := mkBlame {
  bl_view : Z;
  bl_leader : Address;
  bl_reason : ViewChangeReason;
  bl_evidence : list (list Z);
  bl_signatures : list (Address * list Z);
  bl_total_stake : Z
}.

Record LeaderHeartbeat : Type := mkHeartbeat {
  hb_view : Z;
  hb_leader : Address;
  hb_sequence : Z;
  hb_timestamp : Z;
  hb_signature : list Z
}.

Record ViewState : Type := mkViewState {
  messages : gmap Address ViewChangeMessage;
  total_stake : Z;
  highest_qc : option QuorumCertificate;
  certificate : option ViewChangeCertificate;
  new_view_msg : option NewViewMessage
}.

(** [ViewState::new] and [add_message] *)
Definition new_state : ViewState := mkViewState ∅ 0 None None None.

Definition add_message (m : ViewChangeMessage) (st : ViewState) : bool * ViewState :=
  match messages st !! sender m with
  | Some _ => (false, st)
  | None =>
      (true, mkViewState (<[sender m := m]> (messages st)) (wrapping_add u64_max (total_stake st) (stake m))
               (match msg_high_qc m with Some q => higher_qc q (highest_qc st) | None => highest_qc st end)
               (certificate st) (new_view_msg st))
  end.

Record ViewChangeConfig : Type := mkConfig {
  view_timeout : Z;
  heartbeat_interval : Z;
  max_missed_heartbeats : Z;
  quorum_threshold : Z;
  cfg_total_stake : Z;
  vc_timeout : Z
}.

Definition default_config : ViewChangeConfig := mkConfig 500000000 100000000 3 67 100 2000000000.

Record ViewChangeMetrics : Type := mkMetrics {
  view_changes_initiated : Z;
  view_changes_completed : Z;
  leader_timeouts : Z;
  equivocations_detected : Z
}.

Record ViewChangeManager : Type := mkManager {
  local_addr : Address;
  local_stake : Z;
  config : ViewChangeConfig;
  current_view : Z;
  status : ViewChangeStatus;
  view_states : gmap Z ViewState;
  leader_schedule : gmap Z Address;
  last_heartbeat : Z;
  heartbeat_seq : Z;
  blame_certs : list BlameCertificate;
  vc_tx : list ViewChangeCertificate;
  metrics : ViewChangeMetrics
}.

Definition set_view v s := mkManager (local_addr s) (local_stake s) (config s) v (status s) (view_states s)
  (leader_schedule s) (last_heartbeat s) (heartbeat_seq s) (blame_certs s) (vc_tx s) (metrics s).
Definition set_status v s := mkManager (local_addr s) (local_stake s) (config s) (current_view s) v (view_states s)
  (leader_schedule s) (last_heartbeat s) (heartbeat_seq s) (blame_certs s) (vc_tx s) (metrics s).
Definition set_states v s := mkManager (local_addr s) (local_stake s) (config s) (current_view s) (status s) v
  (leader_schedule s) (last_heartbeat s) (heartbeat_seq s) (blame_certs s) (vc_tx s) (metrics s).
Definition set_schedule v s := mkManager (local_addr s) (local_stake s) (config s) (current_view s) (status s)
  (view_states s) v (last_heartbeat s) (heartbeat_seq s) (blame_certs s) (vc_tx s) (metrics s).
Definition set_last_heartbeat v s := mkManager (local_addr s) (local_stake s) (config s) (current_view s) (status s)
  (view_states s) (leader_schedule s) v (heartbeat_seq s) (blame_certs s) (vc_tx s) (metrics s).
Definition set_seq v s := mkManager (local_addr s) (local_stake s) (config s) (current_view s) (status s)
  (view_states s) (leader_schedule s) (last_heartbeat s) v (blame_certs s) (vc_tx s) (metrics s).
Definition set_blame v s := mkManager (local_addr s) (local_stake s) (config s) (current_view s) (status s)
  (view_states s) (leader_schedule s) (last_heartbeat s) (heartbeat_seq s) v (vc_tx s) (metrics s).
Definition set_tx v s := mkManager (local_addr s) (local_stake s) (config s) (current_view s) (status s)
  (view_states s) (leader_schedule s) (last_heartbeat s) (heartbeat_seq s) (blame_certs s) v (metrics s).
Definition set_metrics v s := mkManager (local_addr s) (local_stake s) (config s) (current_view s) (status s)
  (view_states s) (leader_schedule s) (last_heartbeat s) (heartbeat_seq s) (blame_certs s) (vc_tx s) v.

Definition new (now : Z) (local_addr : Address) (local_stake : Z) (config : ViewChangeConfig) : ViewChangeManager :=
  mkManager local_addr local_stake config 0 Normal ∅ ∅ now 0 [] [] (mkMetrics 0 0 0 0).

Abbreviation OP A := (M ViewChangeManager ConsensusError A).
Implicit Types s : ViewChangeManager.

Definition count_initiated (m : ViewChangeMetrics) : ViewChangeMetrics :=
  mkMetrics (wrapping_add u64_max (view_changes_initiated m) 1) (view_changes_completed m) (leader_timeouts m)
    (equivocations_detected m).
Definition count_completed (m : ViewChangeMetrics) : ViewChangeMetrics :=
  mkMetrics (view_changes_initiated m) (wrapping_add u64_max (view_changes_completed m) 1) (leader_timeouts m)
    (equivocations_detected m).
Definition count_timeout (m : ViewChangeMetrics) : ViewChangeMetrics :=
  mkMetrics (view_changes_initiated m) (view_changes_completed m) (wrapping_add u64_max (leader_timeouts m) 1)
    (equivocations_detected m).
Definition count_equivocation (m : ViewChangeMetrics) : ViewChangeMetrics :=
  mkMetrics (view_changes_initiated m) (view_changes_completed m) (leader_timeouts m)
    (wrapping_add u64_max (equivocations_detected m) 1).

(** ** Leaders, heartbeats and timeouts *)

Definition set_leader (view : Z) (leader : Address) s : ViewChangeManager :=
  set_schedule (<[view := leader]> (leader_schedule s)) s.

Definition get_leader s (view : Z) : option Address := leader_schedule s !! view.

Definition calculate_leader (view : Z) (validators : list Address) : Address :=
  match validators with
  | [] => 0
  | _ => nth (Z.to_nat (view mod Z.of_nat (length validators))) validators 0
  end.

Definition is_leader s (view : Z) : bool :=
  match get_leader s view with Some l => l =? local_addr s | None => false end.

Definition on_heartbeat (now : Z) (h : LeaderHeartbeat) : OP () :=
  s <-? gets id;
  if negb (hb_view h =? current_view s) then returns ()
  else
    fail_if (match get_leader s (current_view s) with Some l => negb (hb_leader h =? l) | None => false end)
      (InvalidVote "Wrong leader") ?;
    modify (set_last_heartbeat now) ?;
    modify (set_seq (hb_sequence h)).

Definition check_timeout (now : Z) s : option ViewChangeReason * ViewChangeManager :=
  let elapsed := now - last_heartbeat s in
  let max_delay := heartbeat_interval (config s) * max_missed_heartbeats (config s) in
  if max_delay <? elapsed then (Some LeaderTimeout, set_metrics (count_timeout (metrics s)) s) else (None, s).

Definition create_heartbeat (now : Z) : OP LeaderHeartbeat :=
  s <-? gets id;
  fail_if (negb (is_leader s (current_view s))) (Unauthorized "Not leader") ?;
  let seq := wrapping_add u64_max (heartbeat_seq s) 1 in
  modify (set_seq seq) ?;
  returns (mkHeartbeat (current_view s) (local_addr s) seq now []).

(** ** View change messages and certificates *)

Definition create_vc_certificate (v : Z) (st : ViewState) : ViewChangeCertificate :=
  let msgs := (map_to_list (messages st)).*2 in
  mkCert v (concat (map signature msgs)) (map sender msgs)
    (foldl (λ acc m, wrapping_add u64_max acc (stake m)) 0 msgs) (highest_qc st).

Definition set_certificate (c : ViewChangeCertificate) (st : ViewState) : ViewState :=
  mkViewState (messages st) (total_stake st) (highest_qc st) (Some c) (new_view_msg st).

Definition on_view_change_message (m : ViewChangeMessage) : OP (option ViewChangeCertificate) :=
  s <-? gets id;
  if new_view m <=? current_view s then returns None
  else
    let '(fresh, st) := add_message m (default new_state (view_states s !! new_view m)) in
    modify (λ s, set_states (<[new_view m := st]> (view_states s)) s) ?;
    if negb fresh then returns (certificate st)
    else if bool_decide (certificate st = None) && (quorum_threshold (config s) <=? total_stake st) then
      let c := create_vc_certificate (new_view m) st in
      modify (λ s, set_states (<[new_view m := set_certificate c st]> (view_states s)) s) ?;
      modify (λ s, set_tx (vc_tx s ++ [c]) s) ?;
      returns (Some c)
    else returns (certificate st).

Definition initiate_view_change (now : Z) (r : ViewChangeReason) (high_qc : option QuorumCertificate)
    : OP ViewChangeMessage :=
  s <-? gets id;
  let v := wrapping_add u64_max (current_view s) 1 in
  modify (set_status Changing) ?;
  let m := new_msg now v (local_addr s) (local_stake s) high_qc r in
  on_view_change_message m ?;
  modify (λ s, set_metrics (count_initiated (metrics s)) s) ?;
  returns m.

(** [complete_view_change]; it returns [Ok(())] on every path. *)
Definition complete_view_change (now v : Z) s : ViewChangeManager :=
  if v <=? current_view s then s
  else
    let s1 := set_last_heartbeat now (set_status Completed (set_view v s)) in
    let s2 := set_metrics (count_completed (metrics s1)) s1 in
    let s3 := set_states (filter (λ kv, saturating_sub v 5 ≤ kv.1) (view_states s2)) s2 in
    set_status Normal s3.

Definition set_new_view_msg (m : NewViewMessage) (st : ViewState) : ViewState :=
  mkViewState (messages st) (total_stake st) (highest_qc st) (certificate st) (Some m).

Definition on_new_view (now : Z) (m : NewViewMessage) : OP () :=
  s <-? gets id;
  fail_if (negb (is_valid (vc_cert m) (quorum_threshold (config s)))) (InvalidVote "Invalid view change certificate") ?;
  fail_if (match get_leader s (nv_view m) with Some l => negb (l =? nv_leader m) | None => false end)
    (InvalidVote "Wrong new leader") ?;
  modify (complete_view_change now (nv_view m)) ?;
  modify (λ s, set_states (alter (set_new_view_msg m) (nv_view m) (view_states s)) s).

Definition create_new_view_message s (c : ViewChangeCertificate) (first_proposal : option Hash)
    : Result NewViewMessage ConsensusError :=
  if negb (is_leader s (cert_new_view c)) then Err (Unauthorized "Not the leader for this view")
  else Ok (mkNewView (cert_new_view c) (local_addr s) c (max_qc c) first_proposal []).

Definition report_equivocation (now view : Z) (leader : Address) (proposal1 proposal2 : list Z) : OP () :=
  modify (λ s, set_metrics (count_equivocation (metrics s)) s) ?;
  modify (λ s, set_blame (blame_certs s ++ [mkBlame view leader EquivocationDetected [proposal1; proposal2] [] 0]) s) ?;
  initiate_view_change now EquivocationDetected None ?;
  returns ().

Definition is_changing s : bool := match status s with Changing | WaitingForLeader => true | _ => false end.

(** ** The pacemaker *)

Record Pacemaker : Type := mkPacemaker {
  timeout_multiplier : Z;   (* in units of 1/64 *)
  consecutive_timeouts : Z
}.

Definition new_pacemaker : Pacemaker := mkPacemaker 64 0.
Definition on_view_success (p : Pacemaker) : Pacemaker := mkPacemaker 64 0.
Definition on_view_timeout (p : Pacemaker) : Pacemaker :=
  mkPacemaker (Z.min (timeout_multiplier p * 3 / 2) 512) (wrapping_add u32_max (consecutive_timeouts p) 1).
Definition reset (p : Pacemaker) : Pacemaker := mkPacemaker 64 0.

(** ** Specification vocabulary *)

(** The calls on a manager, with the clock values they read. *)
Inductive VcOp : Type :=
  | VSetLeader (view : Z) (leader : Address)
  | VHeartbeat (now : Z) (h : LeaderHeartbeat)
  | VCreateHeartbeat (now : Z)
  | VCheckTimeout (now : Z)
  | VInitiate (now : Z) (r : ViewChangeReason) (q : option QuorumCertificate)
  | VMessage (m : ViewChangeMessage)
  | VNewView (now : Z) (m : NewViewMessage)
  | VReport (now view : Z) (leader : Address) (p1 p2 : list Z).

Definition step s (o : VcOp) : ViewChangeManager :=
  match o with
  | VSetLeader v l => set_leader v l s
  | VHeartbeat now h => (on_heartbeat now h s).2
  | VCreateHeartbeat now => (create_heartbeat now s).2
  | VCheckTimeout now => (check_timeout now s).2
  | VInitiate now r q => (initiate_view_change now r q s).2
  | VMessage m => (on_view_change_message m s).2
  | VNewView now m => (on_new_view now m s).2
  | VReport now v l p1 p2 => (report_equivocation now v l p1 p2 s).2
  end.

(** Stake declared by messages, as a 64-bit sum. *)
Definition declared_stake (ms : list ViewChangeMessage) : Z := foldr (λ m acc, stake m + acc) 0 ms mod (u64_max + 1).

(** [h] is the highest certificate of the messages in [P]. *)
Record is_highest (P : ViewChangeMessage → Prop) (h : option QuorumCertificate) : Prop := {
  hi_max : ∀ m q, P m → msg_high_qc m = Some q → ∃ h', h = Some h' ∧ qc_view q ≤ qc_view h';
  hi_one : ∀ h', h = Some h' → ∃ m, P m ∧ msg_high_qc m = Some h'
}.

(** A certificate made from these messages: one per sender, all for its view. *)
Record certifies (threshold v : Z) (ms : list ViewChangeMessage) (c : ViewChangeCertificate) : Prop := {
  ce_view : cert_new_view c = v ∧ Forall (λ m, new_view m = v) ms;
  ce_signers : signers c = map sender ms ∧ NoDup (signers c);
  ce_sigs : aggregated_sig c = concat (map signature ms);
  ce_stake : cert_total_stake c = declared_stake ms ∧ threshold ≤ cert_total_stake c;
  ce_qc : is_highest (λ m, m ∈ ms) (max_qc c)
}.

(** ** One view's state *)

Record state_ok (threshold v : Z) (st : ViewState) : Prop := {
  sk_messages : ∀ a m, messages st !! a = Some m → sender m = a ∧ new_view m = v;
  sk_stake : total_stake st = map_sum (λ _, stake) (messages st) mod (u64_max + 1);
  sk_qc : is_highest (λ m, messages st !! sender m = Some m) (highest_qc st);
  sk_cert : ∀ c, certificate st = Some c →
    ∃ ms, certifies threshold v ms c ∧ Forall (λ m, messages st !! sender m = Some m) ms
}.

Lemma new_state_ok th v : state_ok th v new_state.
Proof.
  split; simpl; [by intros a m Hm%lookup_empty_Some|by rewrite map_sum_empty| |done].
  split; [|done]. intros m q Hm. by rewrite lookup_empty in Hm.
Qed.

Lemma is_highest_iff P Q h : (∀ m, P m ↔ Q m) → is_highest P h → is_highest Q h.
Proof.
  intros HPQ [Hm Ho]. split; [intros m q HQ; apply Hm; by apply HPQ|].
  intros h' Hh. destruct (Ho h' Hh) as (m & HP & Hq). exists m. split; [by apply HPQ|done].
Qed.

(** The highest certificate after one more message. *)
Lemma is_highest_add P m0 h :
  is_highest P h →
  is_highest (λ m, m = m0 ∨ P m) (match msg_high_qc m0 with Some q => higher_qc q h | None => h end).
Proof.
  intros [Hm Ho]. destruct (msg_high_qc m0) as [q0|] eqn:Hq0.
  - split.
    + intros m q [->|HP] Hq.
      * assert (q = q0) as -> by congruence. unfold higher_qc. destruct h as [h'|]; [|by exists q0].
        destruct (Z.ltb_spec (qc_view h') (qc_view q0)); [by exists q0|exists h'; split; [done|lia]].
      * destruct (Hm m q HP Hq) as (h' & -> & Hle). simpl.
        destruct (Z.ltb_spec (qc_view h') (qc_view q0)); [exists q0|exists h']; split; done || lia.
    + intros h'. destruct h as [h0|]; simpl.
      * destruct (Z.ltb_spec (qc_view h0) (qc_view q0)); intros [= <-]; [exists m0; split; [by left|done]|].
        destruct (Ho h0 eq_refl) as (m & HP & Hq). exists m. split; [by right|done].
      * intros [= <-]. exists m0. split; [by left|done].
  - split.
    + intros m q [->|HP] Hq; [congruence|by eapply Hm].
    + intros h' Hh. destruct (Ho h' Hh) as (m & HP & Hq). exists m. split; [by right|done].
Qed.

Lemma add_message_ok th m st :
  state_ok th (new_view m) st →
  let '(fresh, st') := add_message m st in state_ok th (new_view m) st' ∧ certificate st' = certificate st.
Proof.
  intros [Hms Hst Hqc Hc]. unfold add_message. destruct (messages st !! sender m) as [m'|] eqn:Hm; [done|].
  split; [|done]. split; simpl.
  - intros a m' [[<- <-]|[_ Hl]]%lookup_insert_Some; [done|by apply Hms].
  - rewrite map_sum_insert_fresh by done. rewrite Hst. unfold wrapping_add. rewrite Zplus_mod_idemp_l. f_equal. lia.
  - eapply is_highest_iff; [|exact (is_highest_add _ m _ Hqc)]. intros m'. simpl. split.
    + intros [->|Hl]; [apply lookup_insert_eq|]. rewrite lookup_insert_ne; [done|]. intros Heq. congruence.
    + intros [[_ <-]|[_ Hl]]%lookup_insert_Some; [by left|by right].
  - intros c Hcert. destruct (Hc c Hcert) as (ms & Hcs & Hin). exists ms. split; [done|].
    apply (list.Forall_impl _ _ _ Hin). intros m' Hl. simpl in Hl. rewrite lookup_insert_ne; [done|]. intros Heq. congruence.
Qed.

Lemma senders_of_keys (l : list (Address * ViewChangeMessage)) :
  Forall (λ kv, sender kv.2 = kv.1) l → map sender l.*2 = l.*1.
Proof. induction 1 as [|[a m] l Hx _ IH]; csimpl; [done|]. simpl in Hx. by rewrite Hx, IH. Qed.

(** The certificate of a state that reached the quorum. *)
Lemma create_certifies th v st :
  state_ok th v st → th ≤ total_stake st →
  ∃ ms, certifies th v ms (create_vc_certificate v st) ∧ Forall (λ m, messages st !! sender m = Some m) ms.
Proof.
  intros [Hms Hst Hqc _] Hth. set (ms := (map_to_list (messages st)).*2).
  assert (Hin : ∀ m, m ∈ ms ↔ messages st !! sender m = Some m).
  { intros m. subst ms. split.
    - intros ([a m'] & -> & Hl%elem_of_map_to_list)%list_elem_of_fmap. simpl. by destruct (Hms _ _ Hl) as [-> _].
    - intros Hl%elem_of_map_to_list. apply list_elem_of_fmap. by exists (sender m, m). }
  assert (Hsenders : map sender ms = (map_to_list (messages st)).*1).
  { apply senders_of_keys, list.Forall_forall. intros [a m] Hl%elem_of_map_to_list. by apply (Hms a m). }
  exists ms. split.
  - split; simpl.
    + split; [done|]. apply list.Forall_forall. intros m Hm%Hin. by apply (Hms (sender m)).
    + split; [done|]. fold ms. rewrite Hsenders. apply NoDup_fst_map_to_list.
    + done.
    + fold ms. assert (foldl (λ acc m, wrapping_add u64_max acc (stake m)) 0 ms = declared_stake ms) as ->
        by apply (foldl_wrapping_add stake u64_max ms 0).
      split; [done|]. unfold declared_stake, ms. by rewrite <- map_sum_list, <- Hst.
    + eapply is_highest_iff; [|exact Hqc]. intros m. by rewrite Hin.
  - apply list.Forall_forall. intros m. apply Hin.
Qed.

(** ** The manager *)

Record inv s : Prop := {
  inv_states : map_Forall (state_ok (quorum_threshold (config s))) (view_states s);
  inv_tx : Forall (λ c, ∃ v ms, certifies (quorum_threshold (config s)) v ms c) (vc_tx s)
}.

Lemma vc_inv_same s s' :
  view_states s' = view_states s → config s' = config s → vc_tx s' = vc_tx s → inv s → inv s'.
Proof. intros E1 E2 E3 []. split; by rewrite ?E1, ?E2, ?E3. Qed.

Lemma inv_put s v st : state_ok (quorum_threshold (config s)) v st → inv s → inv (set_states (<[v := st]> (view_states s)) s).
Proof. intros Hst [Hs Ht]. split; simpl; [by apply map_Forall_insert_2|done]. Qed.

Lemma message_inv m s : inv s → inv (on_view_change_message m s).2.
Proof.
  intros Hinv. unfold on_view_change_message. rewrite gets_bind. unfold id. case_match; [done|].
  assert (Hok : state_ok (quorum_threshold (config s)) (new_view m) (default new_state (view_states s !! new_view m))).
  { destruct (view_states s !! new_view m) as [st|] eqn:Hst; simpl; [by apply (inv_states _ Hinv)|apply new_state_ok]. }
  pose proof (add_message_ok _ m _ Hok) as Ha. destruct (add_message m _) as [fresh st]. destruct Ha as [Ha _].
  unfold bindM at 1, modify. cbv iota.
  assert (Hput : inv (set_states (<[new_view m := st]> (view_states s)) s)) by (by apply inv_put).
  destruct fresh; simpl; [|done]. case_match eqn:Hq; [|done]. apply andb_true_iff in Hq as [_ Hq%Z.leb_le].
  destruct (create_certifies _ _ _ Ha Hq) as (ms & Hc & Hin).
  unfold bindM, returns. simpl. rewrite insert_insert_eq. destruct Hinv as [Hs Ht]. split; simpl.
  - apply map_Forall_insert_2; [|done]. destruct Ha as [H1 H2 H3 _]. split; simpl; [done..|].
    intros c [= <-]. by exists ms.
  - apply Forall_app. split; [done|]. constructor; [by exists (new_view m), ms|constructor].
Qed.

Lemma initiate_inv now r q s : inv s → inv (initiate_view_change now r q s).2.
Proof.
  intros Hinv. unfold initiate_view_change. rewrite gets_bind. unfold id. unfold bindM at 1, modify at 1. cbv iota.
  apply (bindM_inv inv).
  - apply message_inv. by apply (vc_inv_same s).
  - intros c s' _ Hs'. unfold bindM, modify, returns. simpl. by apply (vc_inv_same s').
Qed.

Lemma complete_inv now v s : inv s → inv (complete_view_change now v s).
Proof.
  intros [Hs Ht]. unfold complete_view_change. case_match; [done|]. split; simpl; [|done].
  intros k st [Hk _]%map_lookup_filter_Some. by apply Hs.
Qed.

Lemma vc_step_inv s o : inv s → inv (step s o).
Proof.
  intros Hinv. destruct o as [v l|now h|now|now|now r q|m|now m|now v l p1 p2]; simpl.
  - by apply (vc_inv_same s).
  - unfold on_heartbeat. rewrite gets_bind. case_match; [done|]. rewrite fail_if_bind. case_match; [done|].
    by apply (vc_inv_same s).
  - unfold create_heartbeat. rewrite gets_bind, fail_if_bind. case_match; [done|]. by apply (vc_inv_same s).
  - unfold check_timeout. case_match; simpl; by apply (vc_inv_same s).
  - by apply initiate_inv.
  - by apply message_inv.
  - unfold on_new_view. rewrite gets_bind, fail_if_bind. case_match; [done|]. rewrite fail_if_bind. case_match; [done|].
    unfold bindM, modify. simpl. destruct (complete_inv now (nv_view m) s Hinv) as [Hs Ht].
    split; simpl; [|done]. intros k st [(Hk & st0 & Hst0 & ->)|[_ Hk]]%lookup_alter_Some; [|by apply Hs].
    destruct (Hs _ _ Hst0) as [H1 H2 H3 H4]. by split.
  - unfold report_equivocation. unfold bindM at 1 2, modify at 1 2. cbv iota.
    apply (bindM_inv inv); [|by intros a s' _ Hs']. apply initiate_inv. by apply (vc_inv_same s).
Qed.

(** Views only grow. *)
Lemma message_view m s : current_view (on_view_change_message m s).2 = current_view s.
Proof.
  unfold on_view_change_message. rewrite gets_bind. case_match; [done|]. destruct (add_message m _) as [fresh st].
  unfold bindM, modify, returns. simpl. destruct fresh; simpl; [|done]. by case_match.
Qed.

Lemma initiate_view now r q s : current_view (initiate_view_change now r q s).2 = current_view s.
Proof.
  unfold initiate_view_change. rewrite gets_bind. unfold bindM at 1, modify at 1. cbv iota.
  apply (bindM_inv (λ s', current_view s' = current_view s)); [exact (message_view _ (set_status Changing s))|].
  intros c s' _ <-. done.
Qed.

Lemma step_view s o : current_view s ≤ current_view (step s o).
Proof.
  destruct o as [v l|now h|now|now|now r q|m|now m|now v l p1 p2]; simpl; [lia| | | | | | |].
  - unfold on_heartbeat. rewrite gets_bind. case_match; [done|]. rewrite fail_if_bind. by case_match.
  - unfold create_heartbeat. rewrite gets_bind, fail_if_bind. by case_match.
  - unfold check_timeout. by case_match.
  - by rewrite initiate_view.
  - by rewrite message_view.
  - unfold on_new_view. rewrite gets_bind, fail_if_bind. case_match; [done|]. rewrite fail_if_bind. case_match; [done|].
    unfold bindM, modify. simpl. unfold complete_view_change. destruct (Z.leb_spec (nv_view m) (current_view s)); simpl; lia.
  - unfold report_equivocation. unfold bindM at 1 2, modify at 1 2. cbv iota.
    apply (bindM_inv (λ s', current_view s ≤ current_view s')); [by rewrite initiate_view|by intros a s' _ Hs'].
Qed.

Lemma vc_run_inv s os :
  inv s → inv (foldl step s os) ∧ current_view s ≤ current_view (foldl step s os).
Proof.
  revert s. induction os as [|o os IH]; intros s Hs; simpl; [done|].
  destruct (IH (step s o)) as [H1 H2]; [by apply vc_step_inv|]. split; [done|]. pose proof (step_view s o). lia.
Qed.

(** C6. View change certificates.  After any calls, every certificate a manager
    formed (those it keeps for a view and those it announced) is made from messages
    of distinct senders for its view, its stake is the sum (modulo 2^64) of the stakes
    they declare and reaches the threshold, and its certificate of a block is the
    highest one among these messages and comes from one of them; the stake counted for
    a view is that of the messages kept, one per sender; and the current view never
    decreases. *)
Theorem view_change_certificates now addr own c os os' :
  let s := foldl step (new now addr own c) os in
  let th := quorum_threshold (config s) in
  (∀ v st, view_states s !! v = Some st →
     total_stake st = map_sum (λ _, stake) (messages st) mod (u64_max + 1) ∧
     (∀ a m, messages st !! a = Some m → sender m = a ∧ new_view m = v) ∧
     (∀ crt, certificate st = Some crt → ∃ ms, certifies th v ms crt ∧ ∀ m, m ∈ ms → messages st !! sender m = Some m)) ∧
  (∀ crt, crt ∈ vc_tx s → ∃ v ms, certifies th v ms crt) ∧
  current_view s ≤ current_view (foldl step s os').
Proof.
  intros s th. assert (Hinv : inv s).
  { apply vc_run_inv. split; [apply map_Forall_empty|constructor]. }
  split; [|split].
  - intros v st Hst. destruct (inv_states _ Hinv _ _ Hst) as [H1 H2 _ H4]. split; [done|]. split; [done|].
    intros crt Hc. destruct (H4 crt Hc) as (ms & Hcs & Hin). exists ms. split; [done|]. by apply list.Forall_forall.
  - intros crt Hc. pose proof (inv_tx _ Hinv) as Ht. eapply list.Forall_forall in Ht; [exact Ht|done].
  - by apply vc_run_inv.
Qed.

(** ** A message that freezes a node *)

(** Views are 64-bit numbers. *)
Definition fits_u64 (o : VcOp) : bool :=
  match o with
  | VMessage m => new_view m <=? u64_max
  | VNewView _ m => nv_view m <=? u64_max
  | _ => true
  end.

(** A new-view message for the last view, with a certificate nobody signed. *)
Definition last_view_message s : NewViewMessage :=
  mkNewView u64_max (default 0 (get_leader s u64_max)) (mkCert 0 [] [] (quorum_threshold (config s)) None) None None [].

Record frozen (tx : list ViewChangeCertificate) s : Prop := {
  fr_view : current_view s = u64_max;
  fr_tx : vc_tx s = tx
}.

Lemma frozen_message tx m s : new_view m ≤ u64_max → frozen tx s → on_view_change_message m s = (Ok None, s).
Proof.
  intros Hm [Hv Ht]. unfold on_view_change_message. rewrite gets_bind. unfold id.
  by rewrite Hv, (proj2 (Z.leb_le _ _) Hm).
Qed.

Lemma frozen_initiate tx now r q s : frozen tx s → frozen tx (initiate_view_change now r q s).2.
Proof.
  intros Hf. unfold initiate_view_change. rewrite gets_bind. unfold id. unfold bindM at 1, modify at 1. cbv iota.
  unfold bindM at 1. erewrite (frozen_message tx); [|simpl; rewrite (fr_view _ _ Hf); by vm_compute|by destruct Hf].
  by destruct Hf.
Qed.

Lemma frozen_step tx s o : fits_u64 o = true → frozen tx s → frozen tx (step s o).
Proof.
  intros Ho Hf. destruct o as [v l|now h|now|now|now r q|m|now m|now v l p1 p2]; simpl.
  - by destruct Hf.
  - unfold on_heartbeat. rewrite gets_bind. case_match; [done|]. rewrite fail_if_bind. case_match; [done|]. by destruct Hf.
  - unfold create_heartbeat. rewrite gets_bind, fail_if_bind. case_match; [done|]. by destruct Hf.
  - unfold check_timeout. case_match; by destruct Hf.
  - by apply frozen_initiate.
  - simpl in Ho. apply Z.leb_le in Ho. by rewrite (frozen_message tx).
  - simpl in Ho. unfold on_new_view. rewrite gets_bind, fail_if_bind. case_match; [done|]. rewrite fail_if_bind. case_match; [done|].
    unfold bindM, modify, complete_view_change. simpl. rewrite (fr_view _ _ Hf), Ho. by destruct Hf.
  - unfold report_equivocation. unfold bindM at 1 2, modify at 1 2. cbv iota.
    apply (bindM_inv (frozen tx)); [|by intros a s' _ Hs']. apply frozen_initiate. by destruct Hf.
Qed.

(** One unsigned message stops the view change for good.  [on_new_view] compares
    only the stake its certificate declares with the threshold; it checks no signature,
    no signer and not even that the certificate is for the view.  Anyone can move a
    node to the last 64-bit view, and from then on, whatever calls follow, it stays
    there and no certificate is ever formed again: every further message is old. *)
Theorem forged_new_view_freezes now s os :
  0 ≤ current_view s < u64_max → forallb fits_u64 os = true →
  (on_new_view now (last_view_message s) s).1 = Ok () ∧
  let s' := (on_new_view now (last_view_message s) s).2 in
  current_view (foldl step s' os) = u64_max ∧ vc_tx (foldl step s' os) = vc_tx s.
Proof.
  intros Hv Hos.
  assert (Hon : ∃ s', on_new_view now (last_view_message s) s = (Ok (), s') ∧ frozen (vc_tx s) s').
  { unfold on_new_view. rewrite gets_bind, fail_if_bind. unfold is_valid, id. simpl. rewrite Z.leb_refl. simpl.
    rewrite fail_if_bind. assert (match get_leader s u64_max with Some l => negb (l =? default 0 (get_leader s u64_max)) | None => false end = false) as ->.
    { destruct (get_leader s u64_max); simpl; [by rewrite Z.eqb_refl|done]. }
    unfold bindM, modify. eexists. split; [done|]. unfold complete_view_change. simpl.
    rewrite (proj2 (Z.leb_gt _ _)) by lia. done. }
  destruct Hon as (s' & -> & Hf). split; [done|]. simpl.
  assert (Hrun : frozen (vc_tx s) (foldl step s' os)); [|by destruct Hrun].
  clear Hv. revert s' Hf. induction os as [|o os IH]; intros s' Hf; simpl in *; [done|].
  apply andb_true_iff in Hos as [Ho Hos]. apply (IH Hos). by apply frozen_step.
Qed.

(** ** Backoff *)

Inductive PaceOp : Type := PSuccess | PTimeout | PReset.

Definition pace (p : Pacemaker) (o : PaceOp) : Pacemaker :=
  match o with PSuccess => on_view_success p | PTimeout => on_view_timeout p | PReset => reset p end.

Lemma backoff_cap p n :
  timeout_multiplier p = 512 → timeout_multiplier (foldl pace p (replicate n PTimeout)) = 512.
Proof. revert p. induction n as [|n IH]; intros p Hp; simpl; [done|]. apply IH. simpl. by rewrite Hp. Qed.

(** After [n] timeouts in a row the multiplier is [1.5^n], at most 8. *)
Theorem backoff_correct (os : list PaceOp) (n : nat) :
  let p := foldl pace new_pacemaker os in
  64 ≤ timeout_multiplier p ≤ 512 ∧
  timeout_multiplier (foldl pace (on_view_success p) (replicate n PTimeout)) =
    if (n <=? 5)%nat then 64 * 3 ^ Z.of_nat n / 2 ^ Z.of_nat n else 512.
Proof.
  intros p. split.
  - subst p. assert (H : 64 ≤ timeout_multiplier new_pacemaker ≤ 512) by done. revert H.
    generalize new_pacemaker. induction os as [|o os IH]; intros p Hp; simpl; [done|]. apply IH.
    destruct o; simpl; [done| |done]. pose proof (Z.div_le_lower_bound (timeout_multiplier p * 3) 2 64). lia.
  - do 6 (destruct n as [|n]; [done|]). cbn [Nat.leb]. simpl.
    by apply backoff_cap.
Qed.

(** ** A run of three validators *)

Module Run.
Definition cfg : ViewChangeConfig := default_config.
Definition cert (h : Hash) (v : Z) : QuorumCertificate := mkQC h v [] [] 80.
Definition messages : list VcOp :=
  [VInitiate 5 LeaderTimeout (Some (cert 10 3));
   VMessage (mkMsg 1 2 40 (Some (cert 11 4)) None LeaderTimeout [] 5);
   VMessage (mkMsg 1 3 30 None None LeaderTimeout [] 5)].
Definition state : ViewChangeManager := foldl step (new 0 1 20 cfg) messages.
End Run.

(** The three messages form one certificate with the higher block certificate. *)
Example certificate_formed :
  map (λ c, (cert_new_view c, cert_total_stake c, qc_view <$> max_qc c)) (vc_tx Run.state) = [(1, 90, Some 4)].
Proof. by vm_compute. Qed.

Lemma forged_new_view_freezes_witness :
  let s' := (on_new_view 9 (last_view_message Run.state) Run.state).2 in
  current_view (foldl step s' Run.messages) = u64_max ∧ vc_tx (foldl step s' Run.messages) = vc_tx Run.state.
Proof.
  apply (forged_new_view_freezes 9 Run.state Run.messages).
  - by vm_compute.
  - by vm_compute.
Defined.
