(* ===== verification/CrossShard.v ===== *)
(** * Cross-shard atomic protocol

    Models [src/L1/src/consensus/cross_shard_atomic.rs]: the lock protocol messages
    and their handlers, the distributed lock manager, the proof aggregator, the
    rollback coordinator, and the coordinator's two-phase execution.

    The vertex graph is used through the interface [ShardDag], which the graph of
    [Dag.v] implements; the accounts through [AccountBackend].  SHA3-256, signing and
    verification, and the STARK prover are arguments.  While the coordinator waits
    for votes or acknowledgements it handles the messages that arrive between two
    polls; these are the lists of a [Schedule], together with the clock readings the
    coordinator makes.  [network_tx] and the validator channels record what is sent.
    Serialization of the messages does not fail, and the semaphore is never closed.
    Error texts are shortened; times are in milliseconds. *)

From stdpp Require Import sorting.
From S2P Require Import Prelude Bytes Account Transaction Validators Vertex Committee Dag.

Definition MAX_ATOMIC_SHARDS : Z := 8.
Definition LOCK_TIMEOUT : Z := 5000.

(** ** Data *)

Inductive AtomicStatus : Type := Preparing | Committing | Committed | RolledBack.

Inductive AtomicError : Type :=
  | InvalidOperations (e : string)
  | TooManyShards
  | LockTimeout
  | ExecutionFailed (e : string)
  | ConsistencyCheckFailed
  | ResourceExhausted
  | ConsensusNotReached (needed received : Z)
  | LockAcquisitionFailed
  | ProofGenerationFailed (e : string)
  | CheckpointFailed (e : string)
  | CheckpointNotFound
  | RollbackFailed (e : string)
  | CommitteeNotFound (shard : Z)
  | NotCommitteeMember
  | SigningFailed (e : string)
  | SerializationFailed (e : string)
  | LockConflict (shard : Z)
  | UnauthorizedSender.

Record ShardOperation : Type := mkOperation {
  op_shard_id : Z;
  op_transactions : list SignedTransaction;
  expected_state_root : Hash
}.

Record PreparedState : Type := mkPrepared {
  ps_shard_id : Z;
  ps_state_root : Hash;
  ps_transactions : list SignedTransaction;
  ps_success : bool
}.

Record ShardLock : Type := mkLock {
  lk_atomic_id : Hash;
  lk_shard_id : Z;
  consensus_proof : list Z;
  validator_signatures : list (list Z)
}.

Record LockPrepareMessage : Type := mkPrepare {
  pr_atomic_id : Hash;
  pr_shard_id : Z;
  requester : Address
}.

Record LockVote : Type := mkLockVote {
  lv_atomic_id : Hash;
  lv_shard_id : Z;
  lv_validator : Address;
  lv_approved : bool;
  lv_signature : list Z
}.

Record LockCommitMessage : Type := mkCommit {
  cm_atomic_id : Hash;
  cm_shard_id : Z;
  cm_votes : list LockVote
}.

Record LockAck : Type := mkAck {
  la_atomic_id : Hash;
  la_shard_id : Z;
  la_validator : Address;
  la_acknowledged : bool;
  la_signature : list Z
}.

Record LockAbortMessage : Type := mkAbort {
  ab_atomic_id : Hash;
  ab_shard_id : Z
}.

Inductive ProtocolMessage : Type :=
  | MLockPrepare (m : LockPrepareMessage)
  | MLockVote (v : LockVote)
  | MLockCommit (m : LockCommitMessage)
  | MLockAck (a : LockAck)
  | MLockAbort (m : LockAbortMessage).

Record StarkProof : Type := mkStark {
  stark_id : Hash;
  stark_data : list Z;
  stark_time : Z
}.

Record CrossShardInputs : Type := mkInputs {
  source_shard : Z;
  dest_shard : Z;
  message_hash : Hash;
  source_state_root : Hash;
  in_sender : Address;
  in_recipient : Address;
  in_amount : Z;
  in_nonce : Z
}.

Record ShardProof : Type := mkShardProof {
  sp_shard_id : Z;
  sp_state_root : Hash;
  sp_proof_data : list Z;
  stark_proof_id : Hash;
  generation_time_ms : Z
}.

Record AggregatedProof : Type := mkAggregated {
  shard_proofs : list ShardProof;
  ag_merkle_root : Hash;
  aggregate_proof_data : list Z;
  total_shards : Z;
  ag_timestamp : Z
}.

Record AtomicResult : Type := mkResult {
  res_atomic_id : Hash;
  committed_shards : list Z;
  aggregated_proof : AggregatedProof;
  res_success : bool
}.

Record AtomicOperation : Type := mkAtomicOp {
  ao_id : Hash;
  ao_shards : gset Z;
  ao_operations : list ShardOperation;
  ao_status : AtomicStatus
}.

Record StateCheckpoint : Type := mkCheckpoint {
  ck_shard_id : Z;
  ck_atomic_id : Hash;
  account_states : gmap Address Account;
  ck_state_root : Hash
}.

Record RollbackEntry : Type := mkEntry {
  re_atomic_id : Hash;
  re_shard_id : Z;
  transactions_rolled_back : Z;
  accounts_restored : Z;
  original_state_root : Hash
}.

Record RollbackStats : Type := mkStats {
  total_rollbacks : Z;
  total_transactions_rolled_back : Z;
  total_accounts_restored : Z
}.

(** ** Interfaces *)

(** What the protocol uses of the vertex graph. *)
Class ShardDag (D : Type) : Type := {
  sd_tips : D → Z → list Hash;
  sd_height : D → Z → Z;
  sd_add : DAGVertex → D → Result () string * D
}.

(** Adding a vertex makes it durable and loses none. *)
Class ShardDagLaws (D : Type) `{ShardDag D} : Type := {
  sd_has : D → Hash → Prop;
  sd_add_has : ∀ v d d', sd_add v d = (Ok (), d') → sd_has d' (vhash v);
  sd_add_keeps : ∀ v d h, sd_has d h → sd_has (sd_add v d).2 h
}.

(** What the rollback coordinator uses of the state manager. *)
Class AccountBackend (B : Type) : Type := {
  ab_get : Address → B → Result Account string * B;
  ab_restore : Address → Account → B → Result () string * B;
  ab_root : B → Hash
}.

#[export] Instance graph_shard_dag `{VertexStore St} : ShardDag (DAGGraph St) := {|
  sd_tips := get_tips;
  sd_height := get_height;
  sd_add v g := match add_vertex v g with (Ok _, g') => (Ok (), g') | (Err _, g') => (Err "DAG error", g') end
|}.

(** ** State *)

(** The coordinator with its lock manager, rollback coordinator and graph.
    [lm_epoch] is the epoch of the lock manager, [network_tx] the messages sent
    through its channel if it has one. *)
Record Csap (D B : Type) : Type := mkCsap {
  locks : gmap Hash (list ShardLock);
  lm_epoch : Z;
  pending_votes : gmap (Hash * Z) (list LockVote);
  pending_acks : gmap (Hash * Z) (list LockAck);
  local_locks : gmap Z Hash;
  network_tx : option (list (Z * ProtocolMessage));
  checkpoints : gmap Hash (gmap Z StateCheckpoint);
  rollback_log : list RollbackEntry;
  state_manager : B;
  dag : D;
  active_operations : gmap Hash AtomicOperation;
  committee_manager : CommitteeManager;
  current_epoch : Z;
  validator_channels : gmap Address (list ProtocolMessage)
}.
Arguments mkCsap {D B}.
Arguments locks {D B}.
Arguments lm_epoch {D B}.
Arguments pending_votes {D B}.
Arguments pending_acks {D B}.
Arguments local_locks {D B}.
Arguments network_tx {D B}.
Arguments checkpoints {D B}.
Arguments rollback_log {D B}.
Arguments state_manager {D B}.
Arguments dag {D B}.
Arguments active_operations {D B}.
Arguments committee_manager {D B}.
Arguments current_epoch {D B}.
Arguments validator_channels {D B}.

(** What the waits of one shard's lock acquisition see: the time since the
    acquisition began, the messages between the polls of the two waits, and the
    age of the lock when it is verified. *)
Record Schedule : Type := mkSchedule {
  sc_elapsed : Z;
  sc_votes : list (list ProtocolMessage);
  sc_acks : list (list ProtocolMessage);
  sc_lock_age : Z
}.

(** How a call can end without a result: with an error, or never.  [local_locks] is a [DashMap]; a task that asks for its
    write lock while it holds a read guard of the same entry waits for itself.  A run is followed up to the first call that
    blocks; what other tasks do after that is not modelled. *)
Inductive Stop : Type := Failed (e : AtomicError) | Blocked.

(** [?] on a result without state. *)
Definition failing {A} (r : Result A AtomicError) : Result A Stop :=
  match r with Ok a => Ok a | Err e => Err (Failed e) end.

Section Protocol.
Context `{ShardDag D, AccountBackend B}.
Context (sha3_256 : list Z → Hash) (verify : list Z → list Z → list Z → bool).
Context (sign : list Z → Result (list Z) string) (my_address : Address).
Context (prove_cross_shard : CrossShardInputs → list Hash → Result StarkProof string).

Abbreviation CS := (Csap D B).
Abbreviation OP A := (M CS Stop A).
Implicit Types s : CS.

Definition set_locks v s : CS := mkCsap v (lm_epoch s) (pending_votes s) (pending_acks s) (local_locks s) (network_tx s) (checkpoints s) (rollback_log s) (state_manager s) (dag s) (active_operations s) (committee_manager s) (current_epoch s) (validator_channels s).
Definition set_pending_votes v s : CS := mkCsap (locks s) (lm_epoch s) v (pending_acks s) (local_locks s) (network_tx s) (checkpoints s) (rollback_log s) (state_manager s) (dag s) (active_operations s) (committee_manager s) (current_epoch s) (validator_channels s).
Definition set_pending_acks v s : CS := mkCsap (locks s) (lm_epoch s) (pending_votes s) v (local_locks s) (network_tx s) (checkpoints s) (rollback_log s) (state_manager s) (dag s) (active_operations s) (committee_manager s) (current_epoch s) (validator_channels s).
Definition set_local_locks v s : CS := mkCsap (locks s) (lm_epoch s) (pending_votes s) (pending_acks s) v (network_tx s) (checkpoints s) (rollback_log s) (state_manager s) (dag s) (active_operations s) (committee_manager s) (current_epoch s) (validator_channels s).
Definition set_network_tx v s : CS := mkCsap (locks s) (lm_epoch s) (pending_votes s) (pending_acks s) (local_locks s) v (checkpoints s) (rollback_log s) (state_manager s) (dag s) (active_operations s) (committee_manager s) (current_epoch s) (validator_channels s).
Definition set_checkpoints v s : CS := mkCsap (locks s) (lm_epoch s) (pending_votes s) (pending_acks s) (local_locks s) (network_tx s) v (rollback_log s) (state_manager s) (dag s) (active_operations s) (committee_manager s) (current_epoch s) (validator_channels s).
Definition set_rollback_log v s : CS := mkCsap (locks s) (lm_epoch s) (pending_votes s) (pending_acks s) (local_locks s) (network_tx s) (checkpoints s) v (state_manager s) (dag s) (active_operations s) (committee_manager s) (current_epoch s) (validator_channels s).
Definition set_state_manager v s : CS := mkCsap (locks s) (lm_epoch s) (pending_votes s) (pending_acks s) (local_locks s) (network_tx s) (checkpoints s) (rollback_log s) v (dag s) (active_operations s) (committee_manager s) (current_epoch s) (validator_channels s).
Definition set_dag v s : CS := mkCsap (locks s) (lm_epoch s) (pending_votes s) (pending_acks s) (local_locks s) (network_tx s) (checkpoints s) (rollback_log s) (state_manager s) v (active_operations s) (committee_manager s) (current_epoch s) (validator_channels s).
Definition set_active v s : CS := mkCsap (locks s) (lm_epoch s) (pending_votes s) (pending_acks s) (local_locks s) (network_tx s) (checkpoints s) (rollback_log s) (state_manager s) (dag s) v (committee_manager s) (current_epoch s) (validator_channels s).
Definition set_epoch v s : CS := mkCsap (locks s) (lm_epoch s) (pending_votes s) (pending_acks s) (local_locks s) (network_tx s) (checkpoints s) (rollback_log s) (state_manager s) (dag s) (active_operations s) (committee_manager s) v (validator_channels s).
Definition set_channels v s : CS := mkCsap (locks s) (lm_epoch s) (pending_votes s) (pending_acks s) (local_locks s) (network_tx s) (checkpoints s) (rollback_log s) (state_manager s) (dag s) (active_operations s) (committee_manager s) (current_epoch s) v.

(** [CrossShardAtomicProtocol::new]: the lock manager starts at epoch 0, without a
    network channel. *)
Definition new (dag : D) (state_manager : B) (committee_manager : CommitteeManager) : CS :=
  mkCsap ∅ 0 ∅ ∅ ∅ None ∅ [] state_manager dag ∅ committee_manager 0 ∅.

Definition register_validator_channel (a : Address) s : CS :=
  set_channels (<[a := default [] (validator_channels s !! a)]> (validator_channels s)) s.

(** [channel.send(..)], if there is a channel. *)
Definition send_to (a : Address) (m : ProtocolMessage) s : CS :=
  match validator_channels s !! a with
  | Some l => set_channels (<[a := l ++ [m]]> (validator_channels s)) s
  | None => s
  end.

(** ** Signed payloads *)

Definition vote_signing_payload (atomic_id : Hash) (shard_id : Z) (approved : bool) : list Z :=
  with_domain DOMAIN_CSAP_VOTE (hash_bytes atomic_id ++ le_bytes 2 shard_id ++ [if approved then 1 else 0]).

Definition ack_signing_payload (atomic_id : Hash) (shard_id : Z) : list Z :=
  with_domain DOMAIN_CSAP_ACK (hash_bytes atomic_id ++ le_bytes 2 shard_id).

Definition sign_payload (payload : list Z) : Result (list Z) AtomicError :=
  match sign payload with Ok s => Ok s | Err e => Err (SigningFailed e) end.
Definition sign_vote (atomic_id : Hash) (shard_id : Z) (approved : bool) : Result (list Z) AtomicError :=
  sign_payload (vote_signing_payload atomic_id shard_id approved).
Definition sign_ack (atomic_id : Hash) (shard_id : Z) : Result (list Z) AtomicError :=
  sign_payload (ack_signing_payload atomic_id shard_id).

(** Membership, key lookup and signature check shared by votes and
    acknowledgements. *)
Definition verify_member_signature s (shard_id : Z) (v : Address) (payload sig : list Z) : Result () AtomicError :=
  match get_committee_for_shard (committee_manager s) (current_epoch s) shard_id with
  | None => Err (CommitteeNotFound shard_id)
  | Some c =>
      if negb (has_member c v) then Err NotCommitteeMember
      else
        match get_validator (validator_set (committee_manager s)) v with
        | None => Err UnauthorizedSender
        | Some val => if verify (public_key val) payload sig then Ok () else Err UnauthorizedSender
        end
  end.

Definition verify_vote_signature s (v : LockVote) : Result () AtomicError :=
  verify_member_signature s (lv_shard_id v) (lv_validator v)
    (vote_signing_payload (lv_atomic_id v) (lv_shard_id v) (lv_approved v)) (lv_signature v).

Definition verify_ack_signature s (a : LockAck) : Result () AtomicError :=
  verify_member_signature s (la_shard_id a) (la_validator a)
    (ack_signing_payload (la_atomic_id a) (la_shard_id a)) (la_signature a).

(** ** The lock manager *)

Definition has_conflicting_lock s (shard_id : Z) (atomic_id : Hash) : bool :=
  match local_locks s !! shard_id with Some existing => negb (existing =? atomic_id) | None => false end.

Definition record_vote (v : LockVote) s : CS :=
  let k := (lv_atomic_id v, lv_shard_id v) in
  set_pending_votes (<[k := default [] (pending_votes s !! k) ++ [v]]> (pending_votes s)) s.

Definition record_ack (a : LockAck) s : CS :=
  let k := (la_atomic_id a, la_shard_id a) in
  set_pending_acks (<[k := default [] (pending_acks s !! k) ++ [a]]> (pending_acks s)) s.

Definition apply_lock (atomic_id : Hash) (shard_id : Z) : OP () :=
  s <-? gets id;
  fail_if (has_conflicting_lock s shard_id atomic_id) (Failed (LockConflict shard_id)) ?;
  modify (λ s, set_local_locks (<[shard_id := atomic_id]> (local_locks s)) s).

(** The guard [existing] of [local_locks.get] is alive when [local_locks.remove] is called on the same key. *)
Definition release_lock (atomic_id : Hash) (shard_id : Z) : OP () :=
  held <-? gets (λ s, match local_locks s !! shard_id with Some existing => existing =? atomic_id | None => false end);
  fail_if held Blocked ?;
  modify (λ s, set_pending_votes (delete (atomic_id, shard_id) (pending_votes s)) s) ?;
  modify (λ s, set_pending_acks (delete (atomic_id, shard_id) (pending_acks s)) s).

(** [compute_node_id] *)
Definition compute_node_id : Address := 0.

(** ** Message handlers *)

Definition handle_lock_prepare (p : LockPrepareMessage) : OP () :=
  s <-? gets id;
  match get_committee_for_shard (committee_manager s) (current_epoch s) (pr_shard_id p) with
  | None => throw (Failed (CommitteeNotFound (pr_shard_id p)))
  | Some c =>
      fail_if (negb (has_member c (requester p))) (Failed UnauthorizedSender) ?;
      fail_if (negb (has_member c my_address)) (Failed NotCommitteeMember) ?;
      let approved := negb (has_conflicting_lock s (pr_shard_id p) (pr_atomic_id p)) in
      sig <-? lift (failing (sign_vote (pr_atomic_id p) (pr_shard_id p) approved));
      modify (send_to (requester p)
        (MLockVote (mkLockVote (pr_atomic_id p) (pr_shard_id p) my_address approved sig)))
  end.

Definition handle_lock_vote (v : LockVote) : OP () :=
  s <-? gets id;
  lift (failing (verify_vote_signature s v)) ?;
  modify (record_vote v).

(** [(n * 2) / 3 + 1] *)
Definition vote_threshold (n : Z) : Z := n * 2 / 3 + 1.

Definition approved_count (votes : list LockVote) : Z := Z.of_nat (length (filter (λ v, lv_approved v = true) votes)).

Definition handle_lock_commit (m : LockCommitMessage) : OP () :=
  s <-? gets id;
  match get_committee_for_shard (committee_manager s) (current_epoch s) (cm_shard_id m) with
  | None => throw (Failed (CommitteeNotFound (cm_shard_id m)))
  | Some c =>
      fail_if (existsb (λ v, negb (has_member c (lv_validator v))) (cm_votes m)) (Failed UnauthorizedSender) ?;
      let threshold := vote_threshold (member_count c) in
      let valid := approved_count (cm_votes m) in
      fail_if (valid <? threshold) (Failed (ConsensusNotReached threshold valid)) ?;
      apply_lock (cm_atomic_id m) (cm_shard_id m) ?;
      sig <-? lift (failing (sign_ack (cm_atomic_id m) (cm_shard_id m)));
      match head (cm_votes m) with
      | Some v => modify (send_to (lv_validator v) (MLockAck (mkAck (cm_atomic_id m) (cm_shard_id m) my_address true sig)))
      | None => returns ()
      end
  end.

Definition handle_lock_ack (a : LockAck) : OP () :=
  s <-? gets id;
  lift (failing (verify_ack_signature s a)) ?;
  modify (record_ack a).

(** Both branches of the code release the lock. *)
Definition handle_lock_abort (m : LockAbortMessage) : OP () :=
  release_lock (ab_atomic_id m) (ab_shard_id m).

Definition handle_message (m : ProtocolMessage) : OP () :=
  match m with
  | MLockPrepare p => handle_lock_prepare p
  | MLockVote v => handle_lock_vote v
  | MLockCommit c => handle_lock_commit c
  | MLockAck a => handle_lock_ack a
  | MLockAbort a => handle_lock_abort a
  end.

(** The messages that arrive between two polls; their errors concern their senders only. *)
Fixpoint deliver (ms : list ProtocolMessage) : OP () :=
  match ms with
  | [] => returns ()
  | m :: ms' => λ s,
      match handle_message m s with
      | (Err Blocked, s') => (Err Blocked, s')
      | (_, s') => deliver ms' s'
      end
  end.

(** [loop { if now > deadline { break } .. if enough { return } sleep }] *)
Fixpoint wait (enough : CS → bool) (polls : list (list ProtocolMessage)) : OP () :=
  match polls with
  | [] => returns ()
  | ms :: polls' => b <-? gets enough; if b then returns () else deliver ms ?; wait enough polls'
  end.

(** ** Acquisition of locks *)

Definition votes_of s (k : Hash * Z) : list LockVote := default [] (pending_votes s !! k).
Definition acks_of s (k : Hash * Z) : list LockAck := default [] (pending_acks s !! k).

(** [if let Some(ref tx) = self.network_tx { tx.send(BroadcastToShard ..) }] *)
Definition broadcast (shard_id : Z) (m : ProtocolMessage) s : CS :=
  match network_tx s with
  | Some out => set_network_tx (Some (out ++ [(shard_id, m)])) s
  | None => s
  end.

Definition broadcast_prepare (polls : list (list ProtocolMessage)) (m : LockPrepareMessage) : OP (list LockVote) :=
  s <-? gets id;
  match get_committee_for_shard (committee_manager s) (lm_epoch s) (pr_shard_id m) with
  | None => throw (Failed (CommitteeNotFound (pr_shard_id m)))
  | Some c =>
      let k := (pr_atomic_id m, pr_shard_id m) in
      modify (broadcast (pr_shard_id m) (MLockPrepare m)) ?;
      wait (λ s, vote_threshold (member_count c) <=? Z.of_nat (length (votes_of s k))) polls ?;
      gets (λ s, votes_of s k)
  end.

Definition broadcast_commit (polls : list (list ProtocolMessage)) (m : LockCommitMessage) : OP (list LockAck) :=
  s <-? gets id;
  match get_committee_for_shard (committee_manager s) (lm_epoch s) (cm_shard_id m) with
  | None => throw (Failed (CommitteeNotFound (cm_shard_id m)))
  | Some c =>
      let k := (cm_atomic_id m, cm_shard_id m) in
      modify (broadcast (cm_shard_id m) (MLockCommit m)) ?;
      wait (λ s, vote_threshold (member_count c) <=? Z.of_nat (length (acks_of s k))) polls ?;
      gets (λ s, acks_of s k)
  end.

Definition broadcast_abort (atomic_id : Hash) (shard_id : Z) : OP () :=
  modify (broadcast shard_id (MLockAbort (mkAbort atomic_id shard_id))) ?;
  release_lock atomic_id shard_id.

Definition create_lock_proof (votes : list LockVote) (acks : list LockAck) : list Z :=
  let entry a i v := hash_bytes (sha3_256 (hash_bytes a ++ le_bytes 2 i ++ hash_bytes v)) in
  hash_bytes (sha3_256
    (concat (map (λ v, entry (lv_atomic_id v) (lv_shard_id v) (lv_validator v)) (filter (λ v, lv_approved v = true) votes)) ++
     concat (map (λ a, entry (la_atomic_id a) (la_shard_id a) (la_validator a)) acks))).

Definition try_acquire_shard_lock (sc : Schedule) (atomic_id : Hash) (shard_id : Z) : OP ShardLock :=
  votes <-? broadcast_prepare (sc_votes sc) (mkPrepare atomic_id shard_id compute_node_id);
  let threshold := vote_threshold (Z.of_nat (length votes)) in
  let positive := approved_count votes in
  fail_if (positive <? threshold) (Failed (ConsensusNotReached threshold positive)) ?;
  acks <-? broadcast_commit (sc_acks sc) (mkCommit atomic_id shard_id votes);
  if Z.of_nat (length acks) <? threshold then
    broadcast_abort atomic_id shard_id ?;
    throw (Failed LockAcquisitionFailed)
  else
    returns (mkLock atomic_id shard_id (create_lock_proof votes acks)
               (map lv_signature (filter (λ v, lv_approved v = true) votes))).

Definition verify_lock s (lock_age : Z) (l : ShardLock) : bool :=
  match get_committee_for_shard (committee_manager s) (lm_epoch s) (lk_shard_id l) with
  | None => false
  | Some c =>
      negb (Z.of_nat (length (validator_signatures l)) <? (member_count c * 2 + 2) / 3) &&
      negb (bool_decide (consensus_proof l = [])) && negb (LOCK_TIMEOUT <? lock_age)
  end.

Definition release_locks (ls : list ShardLock) : OP () :=
  for_each ls (λ l, release_lock (lk_atomic_id l) (lk_shard_id l)).

(** [Vec::dedup] *)
Fixpoint dedup (l : list Z) : list Z :=
  match l with
  | x :: (y :: _) as l' => if x =? y then dedup l' else x :: dedup l'
  | _ => l
  end.

(** The loop of [acquire_all] over the shards. *)
Fixpoint acquire_loop (sched : Z → Schedule) (atomic_id : Hash) (shards : list Z) (acquired : list ShardLock)
    : OP (list ShardLock) :=
  match shards with
  | [] => returns acquired
  | shard :: shards' => λ s,
      if LOCK_TIMEOUT <? sc_elapsed (sched shard) then (release_locks acquired ?; throw (Failed LockTimeout)) s
      else
        match try_acquire_shard_lock (sched shard) atomic_id shard s with
        | (Ok l, s') =>
            if negb (verify_lock s' (sc_lock_age (sched shard)) l) then
              (release_locks acquired ?; throw (Failed LockAcquisitionFailed)) s'
            else acquire_loop sched atomic_id shards' (acquired ++ [l]) s'
        | (Err Blocked, s') => (Err Blocked, s')
        | (Err (Failed e), s') => (release_locks acquired ?; throw (Failed e)) s'
        end
  end.

Definition lock_order (ops : list ShardOperation) : list Z := dedup (merge_sort Z.le (map op_shard_id ops)).

Definition acquire_all (sched : Z → Schedule) (atomic_id : Hash) (ops : list ShardOperation) : OP (list ShardLock) :=
  acquired <-? acquire_loop sched atomic_id (lock_order ops) [];
  modify (λ s, set_locks (<[atomic_id := acquired]> (locks s)) s) ?;
  returns acquired.

Definition release_all (atomic_id : Hash) : OP () :=
  l <-? gets (λ s, locks s !! atomic_id);
  match l with
  | Some ls => modify (λ s, set_locks (delete atomic_id (locks s)) s) ?; release_locks ls
  | None => returns ()
  end.

(** ** Proofs *)

Definition compute_transactions_hash (txs : list SignedTransaction) : Hash :=
  sha3_256 (concat (map (λ tx, hash_bytes (tx_hash tx)) txs)).

(** One level of the loop of [generate_merkle_proof]: an odd last hash is kept. *)
Fixpoint pair_level (l : list Hash) : list Hash :=
  match l with
  | x :: y :: l' => sha3_256 (hash_bytes x ++ hash_bytes y) :: pair_level l'
  | _ => l
  end.

(** [while current_level.len() > 1]; the number of levels is below the length. *)
Fixpoint proof_path (fuel : nat) (level : list Hash) : list Hash :=
  match fuel, level with
  | S n, x :: _ :: _ => x :: proof_path n (pair_level level)
  | _, _ => []
  end.

Definition generate_merkle_proof (st : PreparedState) : list Hash :=
  let tx_hashes := map tx_hash (ps_transactions st) in
  match tx_hashes with
  | [] => [ps_state_root st]
  | _ => proof_path (length tx_hashes) tx_hashes ++ [ps_state_root st]
  end.

(** [leaves.len().count_ones() != 1] *)
Fixpoint count_ones (p : positive) : nat :=
  match p with xH => 1%nat | xO p' => count_ones p' | xI p' => S (count_ones p') end.
Definition is_power_of_two (n : nat) : bool :=
  match N.of_nat n with N0 => false | Npos p => (count_ones p =? 1)%nat end.

(** [while .. { leaves.push([0u8; 32]) }] *)
Fixpoint pad_leaves (fuel : nat) (leaves : list Hash) : list Hash :=
  if is_power_of_two (length leaves) then leaves
  else match fuel with O => leaves | S n => pad_leaves n (leaves ++ [0]) end.

(** [while leaves.len() > 1] *)
Fixpoint aggregate_levels (fuel : nat) (leaves : list Hash) : list Hash :=
  match fuel, leaves with
  | S n, _ :: _ :: _ => aggregate_levels n (pair_level leaves)
  | _, _ => leaves
  end.

Definition compute_aggregate_merkle_root (proofs : list ShardProof) : Hash :=
  match proofs with
  | [] => 0
  | _ =>
      let leaves := pad_leaves (length proofs) (map sp_state_root proofs) in
      nth 0 (aggregate_levels (length leaves) leaves) 0
  end.

Definition generate_recursive_proof (proofs : list ShardProof) : list Z :=
  hash_bytes (sha3_256 (concat (map (λ p, hash_bytes (stark_proof_id p) ++ hash_bytes (sp_state_root p) ++
                                          le_bytes 2 (sp_shard_id p)) proofs))).

Definition prove_shard (st : PreparedState) : Result ShardProof AtomicError :=
  let inputs := mkInputs (ps_shard_id st) 0 (compute_transactions_hash (ps_transactions st)) (ps_state_root st) 0 0 0 0 in
  match prove_cross_shard inputs (generate_merkle_proof st) with
  | Err e => Err (ProofGenerationFailed e)
  | Ok p => Ok (mkShardProof (ps_shard_id st) (ps_state_root st) (stark_data p) (stark_id p) (stark_time p))
  end.

Fixpoint prove_shards (states : list PreparedState) : Result (list ShardProof) AtomicError :=
  match states with
  | [] => Ok []
  | st :: states' =>
      match prove_shard st with
      | Err e => Err e
      | Ok p => match prove_shards states' with Err e => Err e | Ok ps => Ok (p :: ps) end
      end
  end.

Definition aggregate (now : Z) (states : list PreparedState) : Result AggregatedProof AtomicError :=
  match prove_shards states with
  | Err e => Err e
  | Ok proofs => Ok (mkAggregated proofs (compute_aggregate_merkle_root proofs) (generate_recursive_proof proofs)
                       (Z.of_nat (length states)) now)
  end.

(** ** Rollback *)

(** The loop that captures the accounts. *)
Fixpoint capture (accounts : list Address) (acc : gmap Address Account) : OP (gmap Address Account) :=
  match accounts with
  | [] => returns acc
  | a :: accounts' => λ s,
      let '(r, b) := ab_get a (state_manager s) in
      match r with
      | Ok account => capture accounts' (<[a := account]> acc) (set_state_manager b s)
      | Err e => (Err (Failed (CheckpointFailed e)), set_state_manager b s)
      end
  end.

Definition create_checkpoint (atomic_id : Hash) (shard_id : Z) (accounts : list Address) : OP () :=
  captured <-? capture accounts ∅;
  modify (λ s,
    let c := mkCheckpoint shard_id atomic_id captured (ab_root (state_manager s)) in
    set_checkpoints (<[atomic_id := <[shard_id := c]> (default ∅ (checkpoints s !! atomic_id))]> (checkpoints s)) s).

Fixpoint restore (accounts : list (Address * Account)) (restored : Z) : OP Z :=
  match accounts with
  | [] => returns restored
  | (a, account) :: accounts' => λ s,
      let '(r, b) := ab_restore a account (state_manager s) in
      match r with
      | Ok _ => restore accounts' (restored + 1) (set_state_manager b s)
      | Err e => (Err (Failed (RollbackFailed e)), set_state_manager b s)
      end
  end.

(** The checkpoint is looked up under the hash of the first transaction. *)
Definition rollback_shard (shard_id : Z) (txs : list SignedTransaction) : OP () :=
  match txs with
  | [] => returns ()
  | tx :: _ =>
      let atomic_id := tx_hash tx in
      s <-? gets id;
      match checkpoints s !! atomic_id ≫= lookup shard_id with
      | None => throw (Failed CheckpointNotFound)
      | Some c =>
          n <-? restore (map_to_list (account_states c)) 0;
          modify (λ s, set_rollback_log (rollback_log s ++
            [mkEntry atomic_id shard_id (Z.of_nat (length txs)) n (ck_state_root c)]) s)
      end
  end.

Definition clear_checkpoints (atomic_id : Hash) s : CS := set_checkpoints (delete atomic_id (checkpoints s)) s.

Definition get_rollback_stats s : RollbackStats :=
  mkStats (Z.of_nat (length (rollback_log s)))
    (foldr (λ e acc, transactions_rolled_back e + acc) 0 (rollback_log s))
    (foldr (λ e acc, accounts_restored e + acc) 0 (rollback_log s)).

(** ** The two phases *)

Definition execute_speculative (o : ShardOperation) : Result PreparedState AtomicError :=
  Ok (mkPrepared (op_shard_id o) (expected_state_root o) (op_transactions o) true).

Definition verify_cross_shard_consistency (states : list PreparedState) : Result () AtomicError :=
  if existsb (λ st, negb (ps_success st)) states then Err (ExecutionFailed "Shard execution failed") else Ok ().

(** The loop over the operations; an error releases the locks. *)
Fixpoint speculate (atomic_id : Hash) (ops : list ShardOperation) (acc : list PreparedState) : OP (list PreparedState) :=
  match ops with
  | [] => returns acc
  | o :: ops' =>
      match execute_speculative o with
      | Ok st => speculate atomic_id ops' (acc ++ [st])
      | Err e => release_all atomic_id ?; throw (Failed e)
      end
  end.

Definition prepare_phase (sched : Z → Schedule) (atomic_id : Hash) (ops : list ShardOperation) : OP (list PreparedState) :=
  acquire_all sched atomic_id ops ?;
  states <-? speculate atomic_id ops [];
  lift (failing (verify_cross_shard_consistency states)) ?;
  returns states.

(** One iteration of the commit loop: the vertex of a shard. *)
Definition shard_vertex (now : Z) s (st : PreparedState) : Result DAGVertex AtomicError :=
  let parents := take 4 (sd_tips (dag s) (ps_shard_id st)) in
  match checked_add u64_max (sd_height (dag s) (ps_shard_id st)) 1 with
  | None => Err (ExecutionFailed "Height overflow")
  | Some h =>
      match Vertex.new sha3_256 now parents (ps_transactions st) (ps_shard_id st) my_address h with
      | Err e => Err (ExecutionFailed e)
      | Ok v =>
          let v1 := set_state_root (ps_state_root st) v in
          match sign (signing_data v1) with
          | Err e => Err (SigningFailed e)
          | Ok sig => Ok (set_signature_unchecked sig v1)
          end
      end
  end.

Definition commit_one (now : Z) (st : PreparedState) : OP Hash :=
  s <-? gets id;
  v <-? lift (failing (shard_vertex now s st));
  λ s, let '(r, d) := sd_add v (dag s) in
       match r with
       | Ok _ => (Ok (vhash v), set_dag d s)
       | Err e => (Err (Failed (ExecutionFailed e)), set_dag d s)
       end.

Fixpoint commit_loop (now : Z) (states : list PreparedState) (shards : list Z) (vertices : list Hash)
    : OP (list Z * list Hash) :=
  match states with
  | [] => returns (shards, vertices)
  | st :: states' =>
      h <-? commit_one now st;
      commit_loop now states' (shards ++ [ps_shard_id st]) (vertices ++ [h])
  end.

Definition commit_phase (now : Z) (atomic_id : Hash) (states : list PreparedState) : OP AtomicResult :=
  proof <-? lift (failing (aggregate now states));
  committed <-? commit_loop now states [] [];
  modify (clear_checkpoints atomic_id) ?;
  release_all atomic_id ?;
  returns (mkResult atomic_id committed.1 proof true).

Definition set_op_status (atomic_id : Hash) (st : AtomicStatus) s : CS :=
  set_active (alter (λ o, mkAtomicOp (ao_id o) (ao_shards o) (ao_operations o) st) atomic_id (active_operations s)) s.

Definition rollback_all (atomic_id : Hash) (ops : list ShardOperation) : OP () :=
  for_each ops (λ o, rollback_shard (op_shard_id o) (op_transactions o)) ?;
  release_all atomic_id ?;
  modify (set_op_status atomic_id RolledBack).

Definition finalize_success (atomic_id : Hash) s : CS := set_op_status atomic_id Committed s.

Definition execute_atomic (now : Z) (sched : Z → Schedule) (atomic_id : Hash) (ops : list ShardOperation)
    : OP AtomicResult :=
  fail_if (bool_decide (length ops = 0%nat)) (Failed (InvalidOperations "Empty operations")) ?;
  fail_if (MAX_ATOMIC_SHARDS <? Z.of_nat (length ops)) (Failed TooManyShards) ?;
  modify (λ s, set_active (<[atomic_id := mkAtomicOp atomic_id (list_to_set (map op_shard_id ops)) ops Preparing]>
                             (active_operations s)) s) ?;
  λ s, match prepare_phase sched atomic_id ops s with
       | (Ok states, s1) =>
           match commit_phase now atomic_id states s1 with
           | (Ok r, s2) => (Ok r, finalize_success atomic_id s2)
           | (Err Blocked, s2) => (Err Blocked, s2)
           | (Err (Failed e), s2) => (rollback_all atomic_id ops ?; throw (Failed e)) s2
           end
       | (Err Blocked, s1) => (Err Blocked, s1)
       | (Err (Failed e), s1) => (rollback_all atomic_id ops ?; throw (Failed e)) s1
       end.

Definition get_status s (atomic_id : Hash) : option AtomicStatus := ao_status <$> active_operations s !! atomic_id.
End Protocol.

(** ** Specification vocabulary *)

(** What the lock protocol leaves alone: everything but locks, votes,
    acknowledgements and channels.  No local lock goes away, and nothing is sent without a network channel. *)
Record same_core {D B} (s s' : Csap D B) : Prop := {
  core_checkpoints : checkpoints s' = checkpoints s;
  core_active : active_operations s' = active_operations s;
  core_dag : dag s' = dag s;
  core_accounts : state_manager s' = state_manager s;
  core_log : rollback_log s' = rollback_log s;
  core_committee : committee_manager s' = committee_manager s;
  core_epochs : current_epoch s' = current_epoch s ∧ lm_epoch s' = lm_epoch s;
  core_locals : local_locks s ⊆ local_locks s';
  core_network : network_tx s = None → network_tx s' = None
}.

#[export] Instance same_core_preorder {D B} : PreOrder (@same_core D B).
Proof.
  split; [by split|]. intros s1 s2 s3 [? ? ? ? ? ? [? ?] ? Hn1] [? ? ? ? ? ? [? ?] ? Hn2].
  split; try congruence; [split; congruence|by etrans|]. intros Hn. by apply Hn2, Hn1.
Qed.

(** [same_core] and the locks. *)
Definition same_frame {D B} (s s' : Csap D B) : Prop := same_core s s' ∧ locks s' = locks s.

#[export] Instance same_frame_preorder {D B} : PreOrder (@same_frame D B).
Proof.
  split; [split; reflexivity|]. intros s1 s2 s3 [H1 L1] [H2 L2]. split; [by etrans|congruence].
Qed.

Lemma dedup_elem (l : list Z) x : x ∈ dedup l ↔ x ∈ l.
Proof.
  induction l as [|y l IH]; [done|]. destruct l as [|z l]; [done|].
  change (dedup (y :: z :: l)) with (if y =? z then dedup (z :: l) else y :: dedup (z :: l)).
  destruct (Z.eqb_spec y z) as [->|]; [rewrite IH|rewrite elem_of_cons, IH]; set_solver.
Qed.

Lemma lock_order_elem ops i : i ∈ lock_order ops ↔ i ∈ map op_shard_id ops.
Proof. unfold lock_order. rewrite dedup_elem. by rewrite merge_sort_Permutation. Qed.

Section Facts.
Context `{ShardDag D, AccountBackend B}.
Context (sha3_256 : list Z → Hash) (verify : list Z → list Z → list Z → bool).
Context (sign : list Z → Result (list Z) string) (my_address : Address).
Context (prove_cross_shard : CrossShardInputs → list Hash → Result StarkProof string).
Implicit Types s : Csap D B.

(** An outcome that keeps the frame and blocks only where this node holds a lock. *)
Definition framed {A} s (o : Result A Stop * Csap D B) : Prop :=
  same_frame s o.2 ∧ (o.1 = Err Blocked → ∃ i x, local_locks o.2 !! i = Some x).

Lemma framed_same {A} (r : Result A Stop) s s' : same_frame s s' → r ≠ Err Blocked → framed s (r, s').
Proof. by split. Qed.

Lemma framed_trans {A} s s1 (o : Result A Stop * Csap D B) : same_frame s s1 → framed s1 o → framed s o.
Proof. intros Hf [Hf' Hb]. split; [by etrans|done]. Qed.

(** A sequence is framed if its parts are. *)
Lemma bind_framed {A C} (m : M (Csap D B) Stop A) (k : A → M (Csap D B) Stop C) s :
  framed s (m s) → (∀ a s', framed s' (k a s')) → framed s (bindM m k s).
Proof.
  intros [Hm Hb] Hk. unfold bindM. destruct (m s) as [[a|e] s']; simpl in *; [by eapply framed_trans|].
  split; [done|]. simpl. intros [= ->]. by apply Hb.
Qed.

Lemma frame_modify (f : Csap D B → Csap D B) s : same_frame s (f s) → framed s (@modify _ Stop f s).
Proof. intros Hf. by apply framed_same. Qed.

Lemma frame_lift {A} (r : Result A AtomicError) s : framed s (lift (failing r) s).
Proof. apply framed_same; [reflexivity|]. by destruct r. Qed.

Lemma release_lock_framed a i s : framed s (release_lock a i s).
Proof.
  unfold release_lock. rewrite gets_bind, fail_if_bind. destruct (local_locks s !! i) as [x|] eqn:Hx; [destruct (Z.eqb_spec x a)|].
  - split; [reflexivity|]. simpl. eauto.
  - apply bind_framed; [|intros ? ?]; apply frame_modify; repeat split; done.
  - apply bind_framed; [|intros ? ?]; apply frame_modify; repeat split; done.
Qed.

Lemma release_locks_framed ls s : framed s (release_locks ls s).
Proof.
  unfold release_locks. revert s. induction ls as [|l ls IH]; intros s; simpl; [by apply framed_same|].
  apply bind_framed; [apply release_lock_framed|]. intros _ s'. apply IH.
Qed.

Lemma insert_local_frame i a s :
  has_conflicting_lock s i a = false → same_frame s (set_local_locks (<[i := a]> (local_locks s)) s).
Proof.
  unfold has_conflicting_lock. intros Hc. repeat split; try done. simpl. apply map_subseteq_spec. intros j x Hx.
  rewrite lookup_insert. case_decide as Hj; [|done]. subst j. rewrite Hx in Hc. apply negb_false_iff, Z.eqb_eq in Hc. by rewrite Hc.
Qed.

Lemma handle_message_framed m s : framed s (handle_message verify sign my_address m s).
Proof.
  destruct m as [p|v|c|a|a]; simpl.
  - unfold handle_lock_prepare. rewrite gets_bind. destruct (get_committee_for_shard _ _ _); [|by apply framed_same].
    rewrite fail_if_bind. case_match; [by apply framed_same|]. rewrite fail_if_bind. case_match; [by apply framed_same|].
    apply bind_framed; [apply frame_lift|]. intros sig s'. apply frame_modify. unfold send_to. case_match; repeat split; done.
  - unfold handle_lock_vote. rewrite gets_bind. apply bind_framed; [apply frame_lift|]. intros _ s'. apply frame_modify. repeat split; done.
  - unfold handle_lock_commit. rewrite gets_bind. destruct (get_committee_for_shard _ _ _); [|by apply framed_same].
    rewrite fail_if_bind. case_match; [by apply framed_same|]. rewrite fail_if_bind. case_match; [by apply framed_same|].
    apply bind_framed.
    + unfold apply_lock. rewrite gets_bind, fail_if_bind. unfold id. case_match; [by apply framed_same|].
      apply frame_modify. by apply insert_local_frame.
    + intros _ s'. apply bind_framed; [apply frame_lift|]. intros sig s''. destruct (head (cm_votes c)); [|by apply framed_same].
      apply frame_modify. unfold send_to. case_match; repeat split; done.
  - unfold handle_lock_ack. rewrite gets_bind. apply bind_framed; [apply frame_lift|]. intros _ s'. apply frame_modify. repeat split; done.
  - apply release_lock_framed.
Qed.

Lemma deliver_framed ms s : framed s (deliver verify sign my_address ms s).
Proof.
  revert s. induction ms as [|m ms IH]; intros s; simpl; [by apply framed_same|].
  pose proof (handle_message_framed m s) as [Hf Hb].
  destruct (handle_message _ _ _ m s) as [[[]|[e|]] s']; simpl in *;
    [by eapply framed_trans|by eapply framed_trans|by split].
Qed.

Lemma wait_framed enough polls s : framed s (wait verify sign my_address enough polls s).
Proof.
  revert s. induction polls as [|ms polls IH]; intros s; simpl; [by apply framed_same|]. rewrite gets_bind.
  destruct (enough s); [by apply framed_same|]. apply bind_framed; [apply deliver_framed|]. intros _ s'. apply IH.
Qed.

Lemma broadcast_frame i m s : same_frame s (broadcast i m s).
Proof. unfold broadcast. destruct (network_tx s) eqn:Hn; repeat split; simpl; done || congruence. Qed.

Lemma try_acquire_framed sc a i s : framed s (try_acquire_shard_lock sha3_256 verify sign my_address sc a i s).
Proof.
  unfold try_acquire_shard_lock. apply bind_framed.
  - unfold broadcast_prepare. rewrite gets_bind. destruct (get_committee_for_shard _ _ _); [|by apply framed_same].
    apply bind_framed; [apply frame_modify, broadcast_frame|]. intros _ s1. apply bind_framed; [apply wait_framed|].
    intros _ s2. by apply framed_same.
  - intros votes s1. rewrite fail_if_bind. case_match; [by apply framed_same|]. apply bind_framed.
    + unfold broadcast_commit. rewrite gets_bind. destruct (get_committee_for_shard _ _ _); [|by apply framed_same].
      apply bind_framed; [apply frame_modify, broadcast_frame|]. intros _ s2. apply bind_framed; [apply wait_framed|].
      intros _ s3. by apply framed_same.
    + intros acks s2. case_match; [|by apply framed_same]. apply bind_framed; [|intros _ s3; by apply framed_same].
      unfold broadcast_abort. apply bind_framed; [apply frame_modify, broadcast_frame|]. intros _ s3. apply release_lock_framed.
Qed.

Lemma try_acquire_lock sc a i s l s' :
  try_acquire_shard_lock sha3_256 verify sign my_address sc a i s = (Ok l, s') → lk_atomic_id l = a ∧ lk_shard_id l = i.
Proof.
  unfold try_acquire_shard_lock. intros [(votes & s1 & _ & Hk)|(e & _ & ?)]%bindM_cases; [|done].
  rewrite fail_if_bind in Hk. case_match; [done|]. apply bindM_cases in Hk as [(acks & s2 & _ & Hk)|(e & _ & ?)]; [|done].
  case_match; [|unfold returns in Hk; by simplify_eq].
  apply bindM_cases in Hk as [(? & s3 & _ & Hk)|(e & _ & ?)]; done.
Qed.

(** Giving up: the locks acquired so far are released first. *)
Lemma give_up_framed {A} ls e s : framed s ((release_locks ls ?; throw (Failed e)) s : Result A Stop * Csap D B).
Proof. apply bind_framed; [apply release_locks_framed|]. intros _ s'. by apply framed_same. Qed.

Lemma give_up_not_ok {A} ls e s (a : A) s' : (release_locks ls ?; throw (Failed e)) s ≠ (Ok a, s').
Proof. intros [(? & ? & _ & ?)|(? & _ & ?)]%bindM_cases; done. Qed.

Lemma acquire_loop_framed sched a shards acq s :
  framed s (acquire_loop sha3_256 verify sign my_address sched a shards acq s).
Proof.
  revert acq s. induction shards as [|i shards IH]; intros acq s; simpl; [by apply framed_same|].
  case_match; [apply give_up_framed|].
  pose proof (try_acquire_framed (sched i) a i s) as [Ht Hb].
  destruct (try_acquire_shard_lock _ _ _ _ _ _ _ s) as [[l|[e|]] s']; simpl in *.
  - case_match; (eapply framed_trans; [exact Ht|]); [apply give_up_framed|apply IH].
  - eapply framed_trans; [exact Ht|apply give_up_framed].
  - split; [exact Ht|]. simpl. intros _. by apply Hb.
Qed.

(** The locks acquired are one per shard, in order. *)
Lemma acquire_loop_locks sched a shards acq s ls s' :
  acquire_loop sha3_256 verify sign my_address sched a shards acq s = (Ok ls, s') →
  ∃ more, ls = acq ++ more ∧ map lk_shard_id more = shards ∧ Forall (λ l, lk_atomic_id l = a) more.
Proof.
  revert acq s. induction shards as [|i shards IH]; intros acq s; simpl.
  - intros [= <- <-]. exists []. by rewrite app_nil_r.
  - case_match; [by intros ?%give_up_not_ok|].
    destruct (try_acquire_shard_lock _ _ _ _ _ _ _ s) as [[l|[e|]] s1] eqn:Ht; [|by intros ?%give_up_not_ok|done].
    apply try_acquire_lock in Ht as [Ha Hi]. case_match; [by intros ?%give_up_not_ok|]. intros (more & -> & Hm & Hall)%IH.
    exists (l :: more). rewrite <- app_assoc. split; [done|]. split; [simpl; by rewrite Hi, Hm|by constructor].
Qed.

(** Locks are released only where none of them is held by this node. *)
Lemma release_lock_local a i s s' :
  release_lock a i s = (Ok (), s') → local_locks s !! i ≠ Some a ∧ local_locks s' = local_locks s.
Proof.
  unfold release_lock. rewrite gets_bind, fail_if_bind. destruct (local_locks s !! i) as [x|] eqn:Hx; [destruct (Z.eqb_spec x a)|]; [done| |];
    (intros [= <-]; split; [congruence|done]).
Qed.

Lemma release_locks_err ls s e s' : release_locks ls s = (Err e, s') → e = Blocked.
Proof.
  unfold release_locks. revert s. induction ls as [|l ls IH]; intros s; simpl; [done|].
  intros [([] & s1 & _ & Hk)|(e' & Hr & [= ->])]%bindM_cases; [by eapply IH|].
  unfold release_lock in Hr. rewrite gets_bind, fail_if_bind in Hr. case_match; [by injection Hr as <- _|done].
Qed.

Lemma release_locks_local ls a s s' :
  Forall (λ l, lk_atomic_id l = a) ls → release_locks ls s = (Ok (), s') →
  local_locks s' = local_locks s ∧ ∀ i, i ∈ map lk_shard_id ls → local_locks s !! i ≠ Some a.
Proof.
  intros Hall. unfold release_locks. revert s. induction Hall as [|l ls Hl Hall IH]; intros s; simpl.
  - intros [= <-]. split; [done|]. by intros i ?%not_elem_of_nil.
  - intros [([] & s1 & Hr & Hk)|(e & _ & ?)]%bindM_cases; [|done]. apply IH in Hk as [Hk Hno].
    apply release_lock_local in Hr as [Hn He]. rewrite He in Hk, Hno. split; [done|].
    intros i [->|Hin]%elem_of_cons; [by rewrite <- Hl|by apply Hno].
Qed.

Lemma speculate_ok a ops acc s :
  speculate a ops acc s =
    (Ok (acc ++ map (λ o, mkPrepared (op_shard_id o) (expected_state_root o) (op_transactions o) true) ops), s).
Proof.
  revert acc. induction ops as [|o ops IH]; intros acc; simpl; [by rewrite app_nil_r|]. rewrite IH. by rewrite <- app_assoc.
Qed.

Definition prepared (o : ShardOperation) : PreparedState :=
  mkPrepared (op_shard_id o) (expected_state_root o) (op_transactions o) true.

Lemma consistency_ok ops : verify_cross_shard_consistency (map prepared ops) = Ok ().
Proof.
  unfold verify_cross_shard_consistency. assert (existsb (λ st, negb (ps_success st)) (map prepared ops) = false) as ->; [|done].
  induction ops; simpl; done.
Qed.

(** The prepare phase: an error leaves the core as it was, success records a lock
    for every shard. *)
Lemma prepare_spec sched a ops s :
  let '(r, s') := prepare_phase sha3_256 verify sign my_address sched a ops s in
  same_core s s' ∧
  match r with
  | Ok states => states = map prepared ops ∧ ∃ ls, locks s' !! a = Some ls ∧
      Forall (λ l, lk_atomic_id l = a) ls ∧ map lk_shard_id ls = lock_order ops
  | Err (Failed _) => True
  | Err Blocked => ∃ i x, local_locks s' !! i = Some x
  end.
Proof.
  unfold prepare_phase, acquire_all. unfold bindM at 1 2 3.
  pose proof (acquire_loop_framed sched a (lock_order ops) [] s) as [[Hf _] Hb].
  destruct (acquire_loop _ _ _ _ _ _ _ _ s) as [[ls|e] s1] eqn:Hl; simpl in *.
  2: { split; [done|]. destruct e; [done|]. by apply Hb. }
  unfold bindM, modify, returns, lift. rewrite speculate_ok. simpl.
  change (map _ ops) with (map prepared ops). rewrite consistency_ok.
  apply acquire_loop_locks in Hl as (more & -> & Hm & Hall). split.
  - etrans; [exact Hf|]. by repeat split.
  - split; [done|]. exists more. simpl. by rewrite lookup_insert_eq.
Qed.

(** ** The commit phase *)

(** The vertices of the first operations have been added. *)
Lemma commit_one_spec now st s :
  let '(r, s') := commit_one sha3_256 sign my_address now st s in
  s' = set_dag (dag s') s ∧
  match r with
  | Ok h => ∃ v, vhash v = h ∧ sd_add v (dag s) = (Ok (), dag s') ∧ transactions v = ps_transactions st ∧
      vshard_id v = ps_shard_id st ∧ state_root v = ps_state_root st ∧ creator v = my_address ∧
      sign (signing_data v) = Ok (vsignature v)
  | Err e => e ≠ Blocked
  end.
Proof.
  unfold commit_one. rewrite gets_bind. unfold bindM, lift, failing, id.
  destruct (shard_vertex sha3_256 sign my_address now s st) as [v|e] eqn:Hv; [|by destruct s].
  destruct (sd_add v (dag s)) as [[[]|e] d] eqn:Ha; simpl; [|done]. split; [done|]. exists v. split; [done|]. split; [done|].
  unfold shard_vertex in Hv. case_match; [|done]. unfold Vertex.new in Hv. case_match eqn:Hnew; [|done].
  destruct (MAX_TRANSACTIONS_PER_VERTEX <? _); [done|]. injection Hnew as <-.
  destruct (sign (signing_data _)) as [sig|] eqn:Hs; [|done]. injection Hv as <-. simpl. by rewrite <- Hs.
Qed.

(** A vertex of an operation, added to the graph. *)
Definition vertex_of (o : ShardOperation) (v : DAGVertex) : Prop :=
  transactions v = op_transactions o ∧ vshard_id v = op_shard_id o ∧ state_root v = expected_state_root o ∧
  creator v = my_address ∧ sign (signing_data v) = Ok (vsignature v).

Lemma commit_loop_spec `{!ShardDagLaws D} now ops shards hs s :
  let '(r, s') := commit_loop sha3_256 sign my_address now (map prepared ops) shards hs s in
  s' = set_dag (dag s') s ∧ (∀ h, sd_has (dag s) h → sd_has (dag s') h) ∧
  match r with
  | Ok (shards', _) => shards' = shards ++ map op_shard_id ops ∧
      ∃ vs, Forall2 vertex_of ops vs ∧ ∀ v, v ∈ vs → sd_has (dag s') (vhash v)
  | Err e => e ≠ Blocked
  end.
Proof.
  revert shards hs s. induction ops as [|o ops IH]; intros shards hs s; simpl.
  - split; [by destruct s|]. split; [done|]. split; [by rewrite app_nil_r|]. exists []. split; [constructor|].
    by intros v ?%not_elem_of_nil.
  - unfold bindM at 1. pose proof (commit_one_spec now (prepared o) s) as Hc.
    assert (Hkeep : ∀ h, sd_has (dag s) h → sd_has (dag (commit_one sha3_256 sign my_address now (prepared o) s).2) h).
    { intros h Hh. unfold commit_one. rewrite gets_bind. unfold bindM, lift, failing, id.
      destruct (shard_vertex _ _ _ _ _ _) as [v|e]; [|done]. pose proof (sd_add_keeps v (dag s) h Hh).
      by destruct (sd_add v (dag s)) as [[[]|e] d]. }
    destruct (commit_one _ _ _ _ _ s) as [[h|e] s1]; simpl in Hkeep; destruct Hc as [Hs1 Hc]; [|done].
    destruct Hc as (v & Hvh & Hadd & Hv).
    specialize (IH (shards ++ [op_shard_id o]) (hs ++ [h]) s1).
    change (ps_shard_id (prepared o)) with (op_shard_id o).
    destruct (commit_loop _ _ _ _ _ _ _ s1) as [r s2]. destruct IH as (Hs2 & Hk2 & Hr).
    split; [by rewrite Hs2, Hs1|]. split; [intros x Hx; by apply Hk2, Hkeep|].
    destruct r as [[sh hs']|e]; [|done]. destruct Hr as (-> & vs & Hvs & Hin). rewrite <- app_assoc. split; [done|].
    exists (v :: vs). split; [by constructor|]. intros w [->|Hw]%elem_of_cons; [|by apply Hin].
    apply Hk2. by eapply sd_add_has.
Qed.

(** ** Rollback without checkpoints *)

(** An operation has something to roll back. *)
Definition has_transactions (ops : list ShardOperation) : bool :=
  existsb (λ o, match op_transactions o with [] => false | _ => true end) ops.

Lemma rollback_finds_nothing a ops s :
  checkpoints s = ∅ → has_transactions ops = true → rollback_all a ops s = (Err (Failed CheckpointNotFound), s).
Proof.
  intros Hc Ht. unfold rollback_all. unfold bindM at 1.
  assert (for_each ops (λ o, rollback_shard (op_shard_id o) (op_transactions o)) s = (Err (Failed CheckpointNotFound), s)) as ->; [|done].
  induction ops as [|o ops IH]; simpl in *; [done|]. unfold rollback_shard, bindM.
  destruct (op_transactions o) as [|tx txs]; [by apply IH|]. unfold gets. simpl. by rewrite Hc, lookup_empty.
Qed.

Abbreviation execute := (execute_atomic sha3_256 verify sign my_address prove_cross_shard).

(** What an execution does, branch by branch, when there are no checkpoints. *)
Lemma atomic_execute_spec `{!ShardDagLaws D} now sched a ops s :
  checkpoints s = ∅ → has_transactions ops = true →
  let '(r, s') := execute now sched a ops s in
  checkpoints s' = ∅ ∧ (network_tx s = None → network_tx s' = None) ∧ local_locks s ⊆ local_locks s' ∧
  match r with
  | Ok res => (length ops ≤ 8)%nat ∧ committed_shards res = map op_shard_id ops ∧ res_atomic_id res = a ∧
      get_status s' a = Some Committed ∧ locks s' !! a = None ∧
      (∀ i, i ∈ map op_shard_id ops → local_locks s' !! i ≠ Some a) ∧
      ∃ vs, Forall2 vertex_of ops vs ∧ ∀ v, v ∈ vs → sd_has (dag s') (vhash v)
  | Err (Failed e) => (e = TooManyShards ∧ (8 < length ops)%nat ∧ s' = s) ∨
      e = CheckpointNotFound ∧ get_status s' a = Some Preparing ∧ state_manager s' = state_manager s
  | Err Blocked => get_status s' a = Some Preparing ∧ ∃ i x, local_locks s' !! i = Some x
  end.
Proof.
  intros Hc Ht. unfold execute_atomic. rewrite fail_if_bind, bool_decide_false by (by destruct ops).
  rewrite fail_if_bind. destruct (Z.ltb_spec MAX_ATOMIC_SHARDS (Z.of_nat (length ops))) as [Hbig|Hsmall].
  { split; [done|]. split; [done|]. split; [done|]. left. unfold MAX_ATOMIC_SHARDS in Hbig. split; [done|]. split; [lia|done]. }
  unfold MAX_ATOMIC_SHARDS in Hsmall. unfold bindM at 1, modify at 1. set (s0 := set_active _ s).
  assert (Hst0 : get_status s0 a = Some Preparing) by (unfold get_status; simpl; by rewrite lookup_insert_eq).
  pose proof (prepare_spec sched a ops s0) as Hp.
  destruct (prepare_phase _ _ _ _ _ _ _ s0) as [[states|e] s1]; destruct Hp as [Hcore Hp].
  2: { assert (Hst1 : get_status s1 a = Some Preparing) by (unfold get_status in *; by rewrite (core_active _ _ Hcore)).
       destruct e as [e|].
       - unfold bindM. rewrite rollback_finds_nothing; [|by rewrite (core_checkpoints _ _ Hcore)|done].
         split; [by rewrite (core_checkpoints _ _ Hcore)|]. split; [apply (core_network _ _ Hcore)|].
         split; [apply (core_locals _ _ Hcore)|]. right. split; [done|]. by rewrite (core_accounts _ _ Hcore).
       - split; [by rewrite (core_checkpoints _ _ Hcore)|]. split; [apply (core_network _ _ Hcore)|].
         split; [apply (core_locals _ _ Hcore)|]. done. }
  destruct Hp as (-> & ls & Hls & Hall & Hshards). unfold commit_phase. unfold bindM at 1, lift.
  destruct (aggregate _ _ _ _) as [proof|e]; cbn [failing].
  2: { unfold bindM. rewrite rollback_finds_nothing; [|by rewrite (core_checkpoints _ _ Hcore)|done].
       split; [by rewrite (core_checkpoints _ _ Hcore)|]. split; [apply (core_network _ _ Hcore)|].
       split; [apply (core_locals _ _ Hcore)|]. right.
       split; [done|]. unfold get_status. rewrite (core_active _ _ Hcore), (core_accounts _ _ Hcore). done. }
  unfold bindM at 1. pose proof (commit_loop_spec now ops [] [] s1) as Hl.
  destruct (commit_loop _ _ _ _ _ _ _ s1) as [[[shards hs]|e] s2]; destruct Hl as (Hs2 & _ & Hl).
  - destruct Hl as (-> & vs & Hvs & Hin). unfold bindM at 1, modify at 1. unfold bindM at 1, release_all. rewrite gets_bind.
    assert (locks (clear_checkpoints a s2) !! a = Some ls) as -> by (rewrite Hs2; simpl; done).
    unfold bindM at 1, modify at 1. set (s3 := set_locks _ _). pose proof (release_locks_framed ls s3) as [[Hr3 Hrl] Hblk].
    pose proof (release_locks_local ls a s3) as Hloc. destruct (release_locks ls s3) as [[[]|e] s4] eqn:Hrel; cbn [fst snd] in *.
    all: assert (Hch : checkpoints s4 = ∅) by (rewrite (core_checkpoints _ _ Hr3); simpl; rewrite Hs2; simpl;
      rewrite (core_checkpoints _ _ Hcore); simpl; rewrite Hc; apply delete_empty).
    all: assert (Hne : network_tx s = None → network_tx s4 = None)
      by (intros Hn; apply (core_network _ _ Hr3); simpl; rewrite Hs2; simpl; by apply (core_network _ _ Hcore)).
    all: assert (Hlo : local_locks s ⊆ local_locks s4)
      by (etrans; [|apply (core_locals _ _ Hr3)]; simpl; rewrite Hs2; simpl; apply (core_locals _ _ Hcore)).
    all: assert (Hac : active_operations s4 = active_operations s0)
      by (rewrite (core_active _ _ Hr3); simpl; rewrite Hs2; simpl; apply (core_active _ _ Hcore)).
    2: { rewrite (release_locks_err _ _ _ _ Hrel) in *. split_and!; try done; [|by apply Hblk]. unfold get_status in *. by rewrite Hac. }
    destruct (Hloc s4 Hall eq_refl) as [Heq Hno]. split_and!; try (done || lia).
    + unfold get_status, finalize_success, set_op_status. simpl. by rewrite lookup_alter_eq, Hac; simpl; rewrite lookup_insert_eq.
    + simpl. rewrite Hrl. apply lookup_delete_eq.
    + intros i Hi. simpl. rewrite Heq. apply Hno. rewrite Hshards. by apply lock_order_elem.
    + exists vs. split; [done|]. intros v Hv. simpl. rewrite (core_dag _ _ Hr3). simpl. by apply Hin.
  - destruct e as [e|]; [|done]. unfold bindM.
    assert (Hc2 : checkpoints s2 = ∅) by (rewrite Hs2; simpl; by rewrite (core_checkpoints _ _ Hcore)).
    rewrite rollback_finds_nothing by done. split; [done|]. split.
    { intros Hn. rewrite Hs2. simpl. by apply (core_network _ _ Hcore). }
    split; [rewrite Hs2; apply (core_locals _ _ Hcore)|].
    right. split; [done|]. unfold get_status. rewrite Hs2. simpl. rewrite (core_active _ _ Hcore), (core_accounts _ _ Hcore). done.
Qed.
End Facts.

(** ** The graph of vertices behind the interface *)

Lemma link_storage `{VertexStore St} v (g : DAGGraph St) : storage (link_vertex v g).2 = storage g.
Proof.
  set (P := λ g' : DAGGraph St, storage g' = storage g). change (P (link_vertex v g).2).
  unfold link_vertex. apply (bindM_inv P); [done|intros g0 g1 _ H1].
  apply (bindM_inv P); [done|intros _ g2 _ H2].
  apply (bindM_inv P).
  { unfold make_room, evict_old_vertices, gets, bindM, modify, fail_if. by repeat (case_match; simplify_eq; simpl in *). }
  intros _ g3 _ H3. apply (bindM_inv P); [done|intros _ g4 _ H4]. apply (bindM_inv P); [done|intros _ g5 _ H5].
  apply (bindM_inv P).
  { apply for_each_inv; [|done]. intros p g6 _ H6. unfold check_parent, gets, bindM, lift, fail_if, throw, returns, modify.
    by repeat (case_match; simplify_eq; simpl in *). }
  intros _ g7 _ H7. apply (bindM_inv P); [done|intros ts g8 _ H8]. apply (bindM_inv P); [done|intros _ g9 _ H9].
  apply for_each_inv; [|done]. intros p g10 _ H10. unfold push_child, gets, bindM, fail_if, modify, throw, returns.
  by repeat (case_match; simplify_eq; simpl in *).
Qed.

#[export] Instance graph_shard_dag_laws `{VertexStoreLaws St} : ShardDagLaws (DAGGraph St).
Proof.
  exists (λ g h, is_Some (stored g !! h)).
  - intros v g g' Hadd. simpl in Hadd. destruct (add_vertex_cases v g) as [(e & Ha)|[_ Ha]]; rewrite Ha in Hadd; [done|].
    injection Hadd as <-. rewrite inserted_stored, lookup_insert_eq. by eexists.
  - intros v g h Hh. simpl. destruct (add_vertex_cases v g) as [(e & ->)|[_ ->]]; simpl.
    + unfold stored. by rewrite link_storage.
    + rewrite inserted_stored. unfold stored. rewrite link_storage, lookup_insert. case_decide; [by eexists|done].
Defined.

(** ** Theorems *)

Section Theorems.
Context `{ShardDagLaws D, AccountBackend B}.
Context (sha3_256 : list Z → Hash) (verify : list Z → list Z → list Z → bool).
Context (sign : list Z → Result (list Z) string) (my_address : Address).
Context (prove_cross_shard : CrossShardInputs → list Hash → Result StarkProof string).
Implicit Types s : Csap D B.

(** The calls on a coordinator. *)
Inductive CsOp : Type :=
  | CMessage (m : ProtocolMessage)
  | CExecute (now : Z) (sched : Z → Schedule) (atomic_id : Hash) (ops : list ShardOperation)
  | CSetEpoch (e : Z)
  | CRegister (a : Address).

(** The state after a call, [None] when the call never returns. *)
Definition ended {A} (o : Result A Stop * Csap D B) : option (Csap D B) :=
  match o with (Err Blocked, _) => None | (_, s') => Some s' end.

Definition step s (o : CsOp) : option (Csap D B) :=
  match o with
  | CMessage m => ended (handle_message verify sign my_address m s)
  | CExecute now sched a ops => ended (execute_atomic sha3_256 verify sign my_address prove_cross_shard now sched a ops s)
  | CSetEpoch e => Some (set_epoch e s)
  | CRegister a => Some (register_validator_channel a s)
  end.

Fixpoint calls s (os : list CsOp) : option (Csap D B) :=
  match os with [] => Some s | o :: os' => s' ← step s o; calls s' os' end.

Record quiet s : Prop := {
  qt_checkpoints : checkpoints s = ∅;
  qt_network : network_tx s = None;
  qt_epoch : lm_epoch s = 0
}.

(** What every call keeps: a quiet coordinator and the local locks. *)
Definition steady s s' : Prop := quiet s' ∧ local_locks s ⊆ local_locks s'.

Lemma steady_core s s' : same_core s s' → quiet s → steady s s'.
Proof.
  intros [Hc _ _ _ _ _ [_ He] Hl Hn] [Q1 Q2 Q3]. split; [|done]. split; [by rewrite Hc|by apply Hn|by rewrite He].
Qed.

Lemma steady_refl s : quiet s → steady s s.
Proof. by split. Qed.

Lemma steady_trans s1 s2 s3 : steady s1 s2 → (quiet s2 → steady s2 s3) → steady s1 s3.
Proof. intros [Hq Hl] H2. destruct (H2 Hq) as [Hq3 Hl3]. split; [done|by etrans]. Qed.

Lemma bind_steady {A C} (m : M (Csap D B) Stop A) (k : A → M (Csap D B) Stop C) s :
  quiet s → steady s (m s).2 → (∀ a s', quiet s' → steady s' (k a s').2) → steady s (bindM m k s).2.
Proof.
  intros Hq Hm Hk. unfold bindM. destruct (m s) as [[a|e] s']; simpl in *; [|done]. eapply steady_trans; [exact Hm|apply Hk].
Qed.

Lemma release_all_steady a s : quiet s → steady s (release_all a s).2.
Proof.
  intros Hq. unfold release_all. rewrite gets_bind. case_match; [|by apply steady_refl].
  apply bind_steady; [done|by split; [destruct Hq|]|]. intros _ s' Hq'. apply steady_core; [apply release_locks_framed|done].
Qed.

Lemma rollback_steady a ops s : quiet s → steady s (rollback_all a ops s).2.
Proof.
  intros Hq. destruct (has_transactions ops) eqn:Ht; [rewrite rollback_finds_nothing; [by apply steady_refl|apply Hq|done]|].
  unfold rollback_all. apply bind_steady; [done| |].
  - assert (for_each ops (λ o, rollback_shard (op_shard_id o) (op_transactions o)) s = (Ok (), s)) as ->; [|by apply steady_refl].
    clear Hq. induction ops as [|o ops IH]; [done|]. simpl in Ht. apply orb_false_iff in Ht as [Ho Ht]. simpl. unfold bindM.
    destruct (op_transactions o); [|done]. by apply IH.
  - intros _ s' Hq'. apply bind_steady; [done|by apply release_all_steady|]. intros _ s'' [? ? ?]. by split.
Qed.

Lemma commit_steady now a ops s : quiet s → steady s (commit_phase sha3_256 sign my_address prove_cross_shard now a (map prepared ops) s).2.
Proof.
  intros Hq. unfold commit_phase. apply bind_steady; [done|by apply steady_refl|]. intros proof s1 Hq1. apply bind_steady; [done| |].
  - pose proof (commit_loop_spec sha3_256 sign my_address now ops [] [] s1) as Hl.
    destruct (commit_loop _ _ _ _ _ _ _ s1) as [r s2]. destruct Hl as [Hs2 _]. simpl. rewrite Hs2. by split; [destruct Hq1|].
  - intros c s2 Hq2. apply bind_steady; [done| |].
    + destruct Hq2 as [Hc Hn He]. split; [split; simpl; [|done|done]|done]. rewrite Hc. apply delete_empty.
    + intros _ s3 Hq3. apply bind_steady; [done|by apply release_all_steady|]. intros _ s4 Hq4. by apply steady_refl.
Qed.

Lemma execute_steady now sched a ops s :
  quiet s → steady s (execute_atomic sha3_256 verify sign my_address prove_cross_shard now sched a ops s).2.
Proof.
  intros Hq. unfold execute_atomic. rewrite fail_if_bind. case_match; [by apply steady_refl|].
  rewrite fail_if_bind. case_match; [by apply steady_refl|].
  unfold bindM at 1, modify at 1. set (s0 := set_active _ s). assert (Hq0 : steady s s0) by (by split; [destruct Hq|]).
  eapply steady_trans; [exact Hq0|]. intros Hq0'. pose proof (prepare_spec sha3_256 verify sign my_address sched a ops s0) as Hp.
  assert (Hroll : ∀ e s', quiet s' → steady s' ((rollback_all a ops ?; throw (Failed e)) s' : Result AtomicResult Stop * _).2).
  { intros e s' Hs'. apply bind_steady; [done|by apply rollback_steady|]. intros _ s'' Hs''. by apply steady_refl. }
  destruct (prepare_phase _ _ _ _ _ _ _ s0) as [[states|e] s1]; destruct Hp as [Hcore Hp];
    (eapply steady_trans; [by apply (steady_core _ _ Hcore)|intros Hq1]).
  - destruct Hp as [-> _]. pose proof (commit_steady now a ops s1 Hq1) as Hc.
    destruct (commit_phase _ _ _ _ _ _ _ s1) as [[r|[e|]] s2]; simpl in *.
    + eapply steady_trans; [exact Hc|]. intros [? ? ?]. by split.
    + eapply steady_trans; [exact Hc|apply Hroll].
    + exact Hc.
  - destruct e; [by apply Hroll|by apply steady_refl].
Qed.

Lemma step_steady s o s' : quiet s → step s o = Some s' → steady s s'.
Proof.
  intros Hq. assert (Hend : ∀ A (r : Result A Stop * Csap D B), steady s r.2 → ended r = Some s' → steady s s').
  { intros A [[x|[e|]] s1] Hs [= <-]; done. }
  destruct o as [m|now sched a ops|e|a]; simpl.
  - apply Hend. apply steady_core; [apply handle_message_framed|done].
  - apply Hend. by apply execute_steady.
  - intros [= <-]. by split; [destruct Hq|].
  - intros [= <-]. by split; [destruct Hq|].
Qed.

Lemma calls_steady os s s' : quiet s → calls s os = Some s' → steady s s'.
Proof.
  revert s. induction os as [|o os IH]; intros s Hq; simpl; [intros [= <-]; by apply steady_refl|].
  intros (s1 & Hs1 & Hs')%bind_Some. eapply steady_trans; [by eapply step_steady|]. intros Hq1. by apply IH.
Qed.

(** Waiting without votes for an operation leaves it without votes. *)
Definition silent (a : Hash) (polls : list (list ProtocolMessage)) : Prop :=
  ∀ ms v, ms ∈ polls → MLockVote v ∈ ms → lv_atomic_id v ≠ a.

Definition no_votes (a : Hash) s : Prop := ∀ i, votes_of s (a, i) = [].

Lemma release_no_votes a b i s : no_votes a s → no_votes a (release_lock b i s).2.
Proof.
  intros Hn j. unfold release_lock. rewrite gets_bind, fail_if_bind. case_match; [apply Hn|].
  unfold votes_of. simpl. rewrite lookup_delete. case_decide; [done|]. apply Hn.
Qed.

Lemma handle_no_votes a m s :
  (∀ v, m = MLockVote v → lv_atomic_id v ≠ a) → no_votes a s → no_votes a (handle_message verify sign my_address m s).2.
Proof.
  intros Hm Hn. assert (Hsame : ∀ s', pending_votes s' = pending_votes s → no_votes a s').
  { intros s' Heq i. unfold votes_of. rewrite Heq. apply Hn. }
  destruct m as [p|v|c|k|k]; simpl.
  - unfold handle_lock_prepare. rewrite gets_bind. destruct (get_committee_for_shard _ _ _); [|done].
    rewrite fail_if_bind. case_match; [done|]. rewrite fail_if_bind. case_match; [done|].
    unfold bindM, lift. destruct (sign_vote _ _ _ _); [|done]. unfold modify, send_to. simpl. apply Hsame. by case_match.
  - unfold handle_lock_vote. rewrite gets_bind. unfold bindM, lift. destruct (verify_vote_signature _ _ _); [|done].
    intros i. unfold votes_of, record_vote. simpl. rewrite lookup_insert_ne; [apply Hn|]. intros [= Heq _]. by apply (Hm v).
  - unfold handle_lock_commit. rewrite gets_bind. destruct (get_committee_for_shard _ _ _); [|done].
    rewrite fail_if_bind. case_match; [done|]. rewrite fail_if_bind. case_match; [done|].
    unfold apply_lock. unfold bindM, lift, gets, fail_if, modify, returns, send_to. apply Hsame. by repeat (case_match; simplify_eq; simpl in *).
  - unfold handle_lock_ack. rewrite gets_bind. unfold bindM, lift. destruct (verify_ack_signature _ _ _); by apply Hsame.
  - by apply release_no_votes.
Qed.

Lemma deliver_no_votes a ms s :
  (∀ v, MLockVote v ∈ ms → lv_atomic_id v ≠ a) → no_votes a s → no_votes a (deliver verify sign my_address ms s).2.
Proof.
  revert s. induction ms as [|m ms IH]; intros s Hms Hn; simpl; [done|].
  assert (Hh : no_votes a (handle_message verify sign my_address m s).2).
  { apply handle_no_votes; [|done]. intros v ->. apply Hms. left. }
  destruct (handle_message _ _ _ m s) as [[[]|[e|]] s']; simpl in *; try done; (apply IH; [intros v Hv; apply Hms; by right|done]).
Qed.

Lemma wait_no_votes a enough polls s :
  silent a polls → no_votes a s → no_votes a (wait verify sign my_address enough polls s).2.
Proof.
  revert s. induction polls as [|ms polls IH]; intros s Hs Hn; simpl; [done|]. rewrite gets_bind. destruct (enough s); [done|].
  apply (bindM_inv (no_votes a)); [apply deliver_no_votes; [intros v; apply Hs; left|done]|].
  intros _ s' _ Hn'. apply IH; [intros ms' v Hin; apply Hs; by right|done].
Qed.

(** ** Locks from forged votes *)

Lemma replicate_members c a i sh n :
  has_member c a = true →
  existsb (λ v, negb (has_member c (lv_validator v))) (replicate n (mkLockVote i sh a true [])) = false.
Proof. intros Hm. induction n as [|n IH]; simpl; [done|]. by rewrite Hm. Qed.

Lemma replicate_approved a i sh n : approved_count (replicate n (mkLockVote i sh a true [])) = Z.of_nat n.
Proof.
  unfold approved_count. f_equal. induction n as [|n IH]; [done|].
  cbn [replicate]. rewrite filter_cons_True by done. simpl. by rewrite IH.
Qed.

End Theorems.

(** C8. Outcome of an atomic operation.  After any calls on a new coordinator that returned, an
    operation with at least one transaction either succeeds, and then it had at most
    8 parts, every part's vertex (its transactions, shard and state root, signed by
    this node) is in the graph, the committed shards are those of the parts in order,
    the status is [Committed], and this node held no lock of the operation on any of
    its shards; or it is
    refused for its size without effect; or it fails with [CheckpointNotFound],
    whatever went wrong, with the status still [Preparing]: since nothing ever creates
    a checkpoint, the rollback fails before it undoes anything; or the call never returns, with the
    status still [Preparing], which takes a lock held by this node.  In no case does a local lock of this node go away:
    releasing one blocks for ever. *)
Theorem atomic_outcome `{ShardDagLaws D, AccountBackend B} sha3_256 verify sign my_address prove (d : D) (b : B) cm os now sched a ops s :
  has_transactions ops = true → calls sha3_256 verify sign my_address prove (new d b cm) os = Some s →
  let '(r, s') := execute_atomic sha3_256 verify sign my_address prove now sched a ops s in
  local_locks s ⊆ local_locks s' ∧
  match r with
  | Ok res => (length ops ≤ 8)%nat ∧ committed_shards res = map op_shard_id ops ∧
      get_status s' a = Some Committed ∧ locks s' !! a = None ∧
      (∀ i, i ∈ map op_shard_id ops → local_locks s' !! i ≠ Some a) ∧
      ∃ vs, Forall2 (vertex_of sign my_address) ops vs ∧ ∀ v, v ∈ vs → sd_has (dag s') (vhash v)
  | Err (Failed e) => (e = TooManyShards ∧ (8 < length ops)%nat ∧ s' = s) ∨
      e = CheckpointNotFound ∧ get_status s' a = Some Preparing
  | Err Blocked => get_status s' a = Some Preparing ∧ ∃ i x, local_locks s' !! i = Some x
  end.
Proof.
  intros Ht Hs. destruct (calls_steady sha3_256 verify sign my_address prove os (new d b cm) s) as [Hq _]; [by split|done|].
  pose proof (atomic_execute_spec sha3_256 verify sign my_address prove now sched a ops s (qt_checkpoints _ Hq) Ht) as He.
  destruct (execute_atomic _ _ _ _ _ _ _ _ _ s) as [[res|[e|]] s']; destruct He as (_ & _ & Hl & He); split; try done.
  - destruct He as (G1 & G2 & _ & G3 & G4 & G5 & G6). done.
  - destruct He as [He|(-> & He & _)]; [by left|by right].
Qed.

(** A lock this node has taken for an operation is never released: no call that returns removes it, and a message that asks to
    release it blocks its handler for ever. *)
Theorem held_lock_never_released `{ShardDagLaws D, AccountBackend B} sha3_256 verify sign my_address prove (d : D) (b : B) cm
    os os' s s' i a :
  calls sha3_256 verify sign my_address prove (new d b cm) os = Some s → local_locks s !! i = Some a →
  calls sha3_256 verify sign my_address prove s os' = Some s' →
  local_locks s' !! i = Some a ∧
  handle_message verify sign my_address (MLockAbort (mkAbort a i)) s' = (Err Blocked, s').
Proof.
  intros Hs Hi Hs'. destruct (calls_steady sha3_256 verify sign my_address prove os (new d b cm) s) as [Hq _]; [by split|done|].
  destruct (calls_steady sha3_256 verify sign my_address prove os' s s' Hq Hs') as [_ Hl].
  assert (Hi' : local_locks s' !! i = Some a) by (by eapply lookup_weaken). split; [done|].
  simpl. unfold handle_lock_abort, release_lock. rewrite gets_bind, fail_if_bind. simpl. by rewrite Hi', Z.eqb_refl.
Qed.

(** A failed commit is not atomic.  If the vertex of the first part is added
    and a later part fails, the whole call returns [CheckpointNotFound], the first
    part's vertex stays in the graph, the locks stay recorded and the status stays
    [Preparing]. *)
Theorem partial_commit_kept `{ShardDagLaws D, AccountBackend B} sha3_256 verify sign my_address prove now sched a o ops
    (s s1 s2 s3 : Csap D B) h e :
  let all := o :: ops in
  let s0 := set_active (<[a := mkAtomicOp a (list_to_set (map op_shard_id all)) all Preparing]> (active_operations s)) s in
  checkpoints s = ∅ → (length all ≤ 8)%nat → has_transactions all = true →
  prepare_phase sha3_256 verify sign my_address sched a all s0 = (Ok (map prepared all), s1) →
  is_ok (aggregate sha3_256 prove now (map prepared all)) = true →
  commit_one sha3_256 sign my_address now (prepared o) s1 = (Ok h, s2) →
  commit_loop sha3_256 sign my_address now (map prepared ops) [op_shard_id o] [h] s2 = (Err (Failed e), s3) →
  execute_atomic sha3_256 verify sign my_address prove now sched a all s = (Err (Failed CheckpointNotFound), s3) ∧
  sd_has (dag s3) h ∧ is_Some (locks s3 !! a) ∧ get_status s3 a = Some Preparing.
Proof.
  intros all s0 Hc Hlen Ht Hp Hag Hone Hrest.
  pose proof (prepare_spec sha3_256 verify sign my_address sched a all s0) as Hps. rewrite Hp in Hps.
  destruct Hps as [Hcore (_ & ls & Hls & _)].
  pose proof (commit_one_spec sha3_256 sign my_address now (prepared o) s1) as Hos. rewrite Hone in Hos.
  destruct Hos as [Hs2 (v & <- & Hadd & _)].
  pose proof (commit_loop_spec sha3_256 sign my_address now ops [op_shard_id o] [vhash v] s2) as Hl. rewrite Hrest in Hl.
  destruct Hl as (Hs3 & Hkeep & _).
  assert (Hc3 : checkpoints s3 = ∅) by (rewrite Hs3, Hs2; simpl; by rewrite (core_checkpoints _ _ Hcore)).
  split.
  - unfold execute_atomic. rewrite fail_if_bind, bool_decide_false by done. rewrite fail_if_bind.
    destruct (Z.ltb_spec MAX_ATOMIC_SHARDS (Z.of_nat (length all))) as [Hbig|_]; [unfold MAX_ATOMIC_SHARDS in Hbig; lia|].
    unfold bindM at 1, modify at 1. fold s0. rewrite Hp. unfold commit_phase. unfold bindM at 1, lift.
    destruct (aggregate _ _ _ _) as [proof|]; [|done]. unfold bindM at 1. simpl. unfold bindM at 1. rewrite Hone. simpl.
    change (ps_shard_id (prepared o)) with (op_shard_id o). rewrite Hrest.
    unfold bindM. by rewrite rollback_finds_nothing.
  - split; [apply Hkeep; by eapply sd_add_has|]. split.
    + rewrite Hs3, Hs2. simpl. by eexists.
    + unfold get_status. rewrite Hs3, Hs2. simpl. rewrite (core_active _ _ Hcore). simpl. by rewrite lookup_insert_eq.
Qed.

(** One commit message with unsigned votes locks a shard.  The handler neither
    verifies the signatures of the votes a commit message carries nor that they come
    from different members: as many copies of an unsigned vote of one member as the
    threshold asks for make the node lock the shard for any operation, after which it
    votes against every other one. *)
Theorem forged_commit_locks `{ShardDagLaws D, AccountBackend B} verify sign my_address (s : Csap D B) c member i sh sig :
  get_committee_for_shard (committee_manager s) (current_epoch s) sh = Some c → has_member c member = true →
  has_conflicting_lock s sh i = false → sign (ack_signing_payload i sh) = Ok sig →
  let votes := replicate (Z.to_nat (vote_threshold (member_count c))) (mkLockVote i sh member true []) in
  let '(r, s') := handle_message verify sign my_address (MLockCommit (mkCommit i sh votes)) s in
  r = Ok () ∧ local_locks s' !! sh = Some i ∧ ∀ j, j ≠ i → has_conflicting_lock s' sh j = true.
Proof.
  intros Hc Hm Hconf Hsig. cbv zeta. cbn [handle_message]. unfold handle_lock_commit. rewrite gets_bind. unfold id. cbn [cm_shard_id cm_atomic_id cm_votes]. rewrite Hc.
  assert (Hn : 0 ≤ vote_threshold (member_count c)).
  { unfold vote_threshold, member_count. pose proof (Z.div_pos (Z.of_nat (length (members c)) * 2) 3). lia. }
  rewrite fail_if_bind, (replicate_members c member i sh _ Hm), fail_if_bind.
  rewrite replicate_approved, Z2Nat.id by done. rewrite Z.ltb_irrefl.
  unfold apply_lock, sign_ack, sign_payload. rewrite Hsig. unfold bindM, gets, fail_if, modify, lift, failing, returns, id. rewrite Hconf.
  assert (Hend : ∀ s' : Csap D B, local_locks s' = <[sh := i]> (local_locks s) →
    Ok () = @Ok () Stop () ∧ local_locks s' !! sh = Some i ∧ ∀ j, j ≠ i → has_conflicting_lock s' sh j = true).
  { intros s' Heq. unfold has_conflicting_lock. rewrite Heq, lookup_insert_eq. split; [done|]. split; [done|].
    intros j Hj. apply negb_true_iff, Z.eqb_neq. congruence. }
  unfold send_to. destruct (Z.to_nat _) as [|n]; cbn [replicate head]; [by apply (Hend (set_local_locks _ s))|].
  case_match; by apply (Hend (set_local_locks _ s)) || by apply (Hend (set_channels _ (set_local_locks _ s))).
Qed.

(** The coordinator's lock requests go nowhere.  The lock manager of a
    coordinator never gets a network channel, so it sends nothing, and the requester
    it names is the all-zero address, which validators refuse.  An operation for which
    no vote arrives unasked therefore always fails. *)
Theorem lock_requests_unanswered `{ShardDagLaws D, AccountBackend B} sha3_256 verify sign my_address prove (d : D) (b : B) cm os now sched a ops s :
  has_transactions ops = true → calls sha3_256 verify sign my_address prove (new d b cm) os = Some s →
  no_votes a s → (∀ i, silent a (sc_votes (sched i))) →
  let '(r, s') := execute_atomic sha3_256 verify sign my_address prove now sched a ops s in
  is_ok r = false ∧ network_tx s' = None ∧
  ∀ (other : Csap D B) c i, get_committee_for_shard (committee_manager other) (current_epoch other) i = Some c →
    has_member c 0 = false →
    handle_message verify sign my_address (MLockPrepare (mkPrepare a i compute_node_id)) other = (Err (Failed UnauthorizedSender), other).
Proof.
  intros Ht Hs Hnv Hsil. destruct (calls_steady sha3_256 verify sign my_address prove os (new d b cm) s) as [Hq _]; [by split|done|].
  pose proof (atomic_execute_spec sha3_256 verify sign my_address prove now sched a ops s (qt_checkpoints _ Hq) Ht) as He.
  destruct (execute_atomic _ _ _ _ _ _ _ _ _ s) as [r s'] eqn:Hex. destruct He as (_ & Hnet & _).
  split; [|split; [by apply Hnet, Hq|]].
  - unfold execute_atomic in Hex. rewrite fail_if_bind in Hex. case_match; [by simplify_eq|].
    rewrite fail_if_bind in Hex. case_match; [by simplify_eq|]. unfold bindM at 1, modify at 1 in Hex.
    set (s0 := set_active _ s) in Hex.
    assert (Hfail : ∃ e s1, prepare_phase sha3_256 verify sign my_address sched a ops s0 = (Err e, s1)).
    { unfold prepare_phase, acquire_all. unfold bindM at 1 2 3.
      destruct (lock_order ops) as [|i shards] eqn:Hlo.
      { exfalso. destruct ops as [|o ops]; [done|]. assert (Hin : op_shard_id o ∈ lock_order (o :: ops)) by (rewrite lock_order_elem; simpl; left).
        rewrite Hlo in Hin. by apply not_elem_of_nil in Hin. }
      assert (Hgive : ∀ e (s' : Csap D B), ∃ e' s1, (release_locks [] ?; throw (Failed e)) s' = (Err e' : Result (list ShardLock) Stop, s1)) by (intros; by eexists _, _).
      simpl. destruct (LOCK_TIMEOUT <? sc_elapsed (sched i)); [by eexists _, _|].
      assert (Hacq : ∃ e s1, try_acquire_shard_lock sha3_256 verify sign my_address (sched i) a i s0 = (Err e, s1)).
      { unfold try_acquire_shard_lock, broadcast_prepare. unfold bindM at 1. rewrite gets_bind.
        destruct (get_committee_for_shard _ _ _) as [c|]; [|by eexists _, _]. unfold bindM at 1, modify at 1. unfold bindM at 1.
        pose proof (wait_no_votes verify sign my_address a
          (λ s', vote_threshold (member_count c) <=? Z.of_nat (length (votes_of s' (a, i)))) (sc_votes (sched i))
          (broadcast i (MLockPrepare (mkPrepare a i compute_node_id)) s0) (Hsil i)) as Hw.
        cbn [pr_shard_id pr_atomic_id] in *. destruct (wait _ _ _ _ _ _) as [[[]|e] s1]; [|by eexists _, _].
        simpl in *. rewrite Hw; [rewrite fail_if_bind; by eexists _, _|].
        intros j. unfold broadcast. simpl. rewrite (qt_network _ Hq). apply Hnv. }
      destruct Hacq as ([e|] & s1 & ->); by eexists _, _. }
    destruct Hfail as ([e|] & s1 & Hf); rewrite Hf in Hex; [|by simplify_eq]. unfold bindM, throw in Hex.
    destruct (rollback_all a ops s1) as [[[]|e'] s2]; by simplify_eq.
  - intros other c i Hc Hm. simpl. unfold handle_lock_prepare. rewrite gets_bind. unfold id. simpl. rewrite Hc, fail_if_bind.
    unfold compute_node_id. by rewrite Hm.
Qed.

(** ** Aggregation *)

(** For the numbers of shards an operation can have, padding stops at a power of two
    and the levels end with a single root. *)
Theorem aggregate_root_levels sha3_256 (proofs : list ShardProof) :
  proofs ≠ [] → Z.of_nat (length proofs) ≤ MAX_ATOMIC_SHARDS →
  let leaves := pad_leaves (length proofs) (map sp_state_root proofs) in
  is_power_of_two (length leaves) = true ∧ (length proofs ≤ length leaves < 2 * length proofs)%nat ∧
  length (aggregate_levels sha3_256 (length leaves) leaves) = 1%nat.
Proof.
  intros Hne Hlen. unfold MAX_ATOMIC_SHARDS in Hlen.
  do 9 (destruct proofs as [|? proofs]; [first [done|by vm_compute; repeat constructor]|]).
  simpl in Hlen. lia.
Qed.

(** ** Two shards *)

(** A backend without stored accounts, for examples. *)
#[export] Instance no_accounts : AccountBackend () := {|
  ab_get a b := (Ok (Account.new a), b);
  ab_restore a x b := (Ok (), b);
  ab_root b := 0
|}.

Module Shards.
Definition sha3 (l : list Z) : Hash := foldl (λ h b, (h * 31 + b) mod 1000003) 7 l + 10.
Definition verify (pk msg sig : list Z) : bool := true.
Definition sign (msg : list Z) : Result (list Z) string := Ok [1].
Definition prove (i : CrossShardInputs) (path : list Hash) : Result StarkProof string := Ok (mkStark 1 [] 0).
Definition member : Validator := mkValidator 5 [5] [] 100 500 true false 0 0 [].
Definition committee : Committee := mkCommittee 0 0 0 [member_of member] 100.
Definition manager : CommitteeManager := mkManager 0 {[(0, 0) := committee]} (mkValidatorSet [member] 100 0) 1 1.
(** Shard 0 has a genesis vertex, shard 7 has none; vertices need a parent. *)
Definition graph : DAGGraph (gmap Hash DAGVertex) :=
  foldl Dag.step (Dag.new ∅ 1 8) [OAddCreator 5; OAddVertex (plain_vertex 1 [] 0)].
Definition tx : SignedTransaction := mkSigned (Transaction.new 0 Transfer 1 2 5 0 0 None [] 0) 77 100.
Definition op0 : ShardOperation := mkOperation 0 [tx] 33.
Definition op7 : ShardOperation := mkOperation 7 [] 44.
Definition sched (i : Z) : Schedule :=
  mkSchedule 0 [[MLockVote (mkLockVote 9 i 5 true [])]] [[MLockAck (mkAck 9 i 5 true [])]] 0.
Definition start : Csap (DAGGraph (gmap Hash DAGVertex)) () := new graph () manager.
Definition run ops := execute_atomic sha3 verify sign 5 prove 100 sched 9 ops start.
(** The states after the prepare phase and after the first vertex. *)
Definition s0 := set_active (<[9 := mkAtomicOp 9 (list_to_set (map op_shard_id [op0; op7])) [op0; op7] Preparing]> (active_operations start)) start.
Definition s1 := (prepare_phase sha3 verify sign 5 sched 9 [op0; op7] s0).2.
Definition s2 := (commit_one sha3 sign 5 100 (prepared op0) s1).2.
Definition s3 := (commit_loop sha3 sign 5 100 [prepared op7] [0] [sha3 []] s2).2.
End Shards.

Lemma atomic_outcome_witness :
  ∃ res s', Shards.run [Shards.op0] = (Ok res, s') ∧ committed_shards res = [0] ∧
    get_status s' 9 = Some Committed ∧ locks s' !! 9 = None.
Proof.
  pose proof (atomic_outcome Shards.sha3 Shards.verify Shards.sign 5 Shards.prove Shards.graph () Shards.manager []
    100 Shards.sched 9 [Shards.op0] Shards.start eq_refl eq_refl) as Ht.
  assert (Hok : is_ok (Shards.run [Shards.op0]).1 = true) by (by vm_compute). unfold Shards.run in *.
  destruct (execute_atomic _ _ _ _ _ _ _ _ _ Shards.start) as [[res|e] s']; [|done]. exists res, s'.
  destruct Ht as (_ & _ & G1 & G2 & G3 & _). done.
Defined.

(** The coordinator is a member of the committee and took the lock itself: its own operation never returns. *)
Lemma held_lock_never_released_witness :
  let votes := replicate 1 (mkLockVote 9 0 5 true []) in
  let s := default Shards.start (calls Shards.sha3 Shards.verify Shards.sign 5 Shards.prove Shards.start [CMessage (MLockCommit (mkCommit 9 0 votes))]) in
  local_locks s !! 0 = Some 9 ∧
  handle_message Shards.verify Shards.sign 5 (MLockAbort (mkAbort 9 0)) s = (Err Blocked, s) ∧
  (execute_atomic Shards.sha3 Shards.verify Shards.sign 5 Shards.prove 100 Shards.sched 9 [Shards.op0] s).1 = Err Blocked.
Proof.
  intros votes s.
  destruct (held_lock_never_released Shards.sha3 Shards.verify Shards.sign 5 Shards.prove Shards.graph () Shards.manager
    [CMessage (MLockCommit (mkCommit 9 0 votes))] [] s s 0 9) as [H1 H2].
  - reflexivity.
  - reflexivity.
  - reflexivity.
  - split; [exact H1|]. split; [exact H2|]. vm_compute. reflexivity.
Defined.

Lemma partial_commit_kept_witness :
  ∃ h e s3, Shards.run [Shards.op0; Shards.op7] = (Err (Failed CheckpointNotFound), s3) ∧
    commit_loop Shards.sha3 Shards.sign 5 100 (map prepared [Shards.op7]) [0] [h] Shards.s2 = (Err (Failed e), s3) ∧
    sd_has (dag s3) h ∧ is_Some (locks s3 !! 9).
Proof.
  destruct (commit_one Shards.sha3 Shards.sign 5 100 (prepared Shards.op0) Shards.s1) as [[h|e] s2] eqn:H1.
  2: { exfalso. assert (Hok : is_ok (commit_one Shards.sha3 Shards.sign 5 100 (prepared Shards.op0) Shards.s1).1 = true) by (by vm_compute).
       by rewrite H1 in Hok. }
  assert (s2 = Shards.s2) as -> by (unfold Shards.s2; by rewrite H1).
  destruct (commit_loop Shards.sha3 Shards.sign 5 100 (map prepared [Shards.op7]) [0] [h] Shards.s2) as [[r|[e|]] s3] eqn:H2.
  { exfalso. assert (Hbad : is_ok (commit_loop Shards.sha3 Shards.sign 5 100 (map prepared [Shards.op7]) [0] [h] Shards.s2).1 = false) by (by vm_compute).
    by rewrite H2 in Hbad. }
  2: { exfalso. pose proof (commit_loop_spec Shards.sha3 Shards.sign 5 100 [Shards.op7] [0] [h] Shards.s2) as Hl.
       cbn [map] in *. rewrite H2 in Hl. by destruct Hl as (_ & _ & Hl). }
  exists h, e, s3.
  destruct (partial_commit_kept Shards.sha3 Shards.verify Shards.sign 5 Shards.prove 100 Shards.sched 9 Shards.op0 [Shards.op7]
    Shards.start Shards.s1 Shards.s2 s3 h e) as (G1 & G2 & G3 & _).
  - reflexivity.
  - simpl. lia.
  - by vm_compute.
  - by vm_compute.
  - by vm_compute.
  - exact H1.
  - exact H2.
  - split; [exact G1|]. split; [exact H2|]. split; [exact G2|exact G3].
Defined.

Lemma forged_commit_locks_witness :
  let '(r, s') := handle_message Shards.verify Shards.sign 5
    (MLockCommit (mkCommit 13 0 (replicate 1 (mkLockVote 13 0 5 true [])))) Shards.start in
  r = Ok () ∧ local_locks s' !! 0 = Some 13 ∧ ∀ j, j ≠ 13 → has_conflicting_lock s' 0 j = true.
Proof.
  apply (forged_commit_locks Shards.verify Shards.sign 5 Shards.start Shards.committee 5 13 0 [1]).
  - by vm_compute.
  - by vm_compute.
  - by vm_compute.
  - done.
Defined.

Lemma lock_requests_unanswered_witness :
  is_ok (execute_atomic Shards.sha3 Shards.verify Shards.sign 5 Shards.prove 100 (λ _, mkSchedule 0 [[]; []] [] 0) 9
    [Shards.op0] Shards.start).1 = false ∧ Shards.sha3 [] = 17.
Proof.
  pose proof (lock_requests_unanswered Shards.sha3 Shards.verify Shards.sign 5 Shards.prove Shards.graph () Shards.manager []
    100 (λ _, mkSchedule 0 [[]; []] [] 0) 9 [Shards.op0] Shards.start) as Ht.
  destruct (execute_atomic _ _ _ _ _ _ _ _ _ Shards.start) as [r s'].
  split; [|done]. destruct Ht as (Hr & _).
  - by vm_compute.
  - reflexivity.
  - done.
  - intros i ms v Hms Hv. simpl in Hms.
    do 2 (apply elem_of_cons in Hms as [->|Hms]; [by apply not_elem_of_nil in Hv|]). by apply not_elem_of_nil in Hms.
  - done.
Defined.
