(* ===== verification/Mvcc.v ===== *)
(** * Multi-version concurrency control

    Models [src/L1/src/vm/mvcc.rs]: version chains with their visibility and
    garbage collection, and the store with its transactions, validation and
    commit.

    A [BTreeMap] is a finite map whose entries are listed in the order of the
    keys.  Accounts and storage slots are two instances of one table of version
    chains.  The clock is an argument.  [commit] holds no lock across its parts: it
    is the composition of [prepare], [validate] and [publish], and other calls can
    run between them. *)

From stdpp Require Import sorting.
From S2P Require Import Prelude.

(** ** Version chains *)

Record Version (T : Type) : Type := mkVersion {
  vtime : Z;
  created_by : Z;
  value : T;
  prev_version : option Z;
  committed : bool
}.
Arguments mkVersion {T}. Arguments vtime {T}. Arguments created_by {T}. Arguments value {T}.
Arguments prev_version {T}. Arguments committed {T}.

Definition new_version {T} (timestamp txn : Z) (v : T) : Version T := mkVersion timestamp txn v None false.

Record VersionedValue (T : Type) : Type := mkVersioned {
  versions : gmap Z (Version T);
  latest_committed : option Z
}.
Arguments mkVersioned {T}. Arguments versions {T}. Arguments latest_committed {T}.

Definition new_versioned {T} : VersionedValue T := mkVersioned ∅ None.

(** The entries of a [BTreeMap] in the order of the keys. *)
Definition key_le {A} (x y : Z * A) : Prop := x.1 ≤ y.1.
#[local] Instance key_le_dec {A} : RelDecision (@key_le A).
Proof. intros x y. unfold key_le. apply _. Defined.

Definition entries {A} (m : gmap Z A) : list (Z * A) := merge_sort key_le (map_to_list m).

Section Chain.
Context {T : Type}.
Implicit Types (vv : VersionedValue T).

Definition add_version (v : Version T) vv : VersionedValue T :=
  mkVersioned
    (<[vtime v := mkVersion (vtime v) (created_by v) (value v) (latest_committed vv) (committed v)]> (versions vv))
    (latest_committed vv).

Fixpoint first_committed (l : list (Z * Version T)) : option T :=
  match l with
  | [] => None
  | (_, v) :: l' => if committed v then Some (value v) else first_committed l'
  end.

Definition get_visible vv (read_ts : Z) : option T :=
  first_committed (rev (List.filter (λ e, e.1 <=? read_ts) (entries (versions vv)))).

Definition get_by_txn vv (txn : Z) : option T :=
  (λ e, value e.2) <$> List.find (λ e, created_by e.2 =? txn) (entries (versions vv)).

Definition commit_version (timestamp : Z) vv : bool * VersionedValue T :=
  match versions vv !! timestamp with
  | Some v =>
      (true, mkVersioned
        (<[timestamp := mkVersion (vtime v) (created_by v) (value v) (prev_version v) true]> (versions vv))
        (Some timestamp))
  | None => (false, vv)
  end.

Definition abort_version (timestamp : Z) vv : VersionedValue T :=
  mkVersioned (delete timestamp (versions vv)) (latest_committed vv).

(** The old committed versions below the latest committed one. *)
Definition gc_candidates (min_active_ts : Z) vv : list Z :=
  map fst (List.filter
    (λ e, (e.1 <? min_active_ts) &&
          (committed e.2 && match latest_committed vv with None => true | Some l => e.1 <? l end))
    (entries (versions vv))).

Definition committed_count vv : nat :=
  length (List.filter (λ e, committed e.2) (entries (versions vv))).

Definition gc_chain (min_active_ts : Z) vv : VersionedValue T :=
  let to_remove := gc_candidates min_active_ts vv in
  if (1 <? committed_count vv)%nat then
    mkVersioned
      (foldl (λ m ts, delete ts m) (versions vv) (take (committed_count vv - 1) to_remove))
      (latest_committed vv)
  else vv.

(** A committed version in [start_ts .. commit_ts) by another transaction. *)
Definition chain_conflict (start_ts commit_ts txn : Z) vv : bool :=
  List.existsb
    (λ e, (start_ts <=? e.1) && (e.1 <? commit_ts) && (committed e.2 && negb (created_by e.2 =? txn)))
    (entries (versions vv)).

End Chain.

(** ** Tables of version chains *)

Section Table.
Context `{Countable K} {T : Type}.
Implicit Types (m : gmap K (VersionedValue T)).

Definition read_table m (k : K) (ts : Z) : option T :=
  match m !! k with Some vv => get_visible vv ts | None => None end.

Definition table_conflict m (k : K) (start_ts commit_ts txn : Z) : bool :=
  match m !! k with Some vv => chain_conflict start_ts commit_ts txn vv | None => false end.

(** The version that a commit writes. *)
Definition write_version (commit_ts txn : Z) (x : T) (vv : VersionedValue T) : VersionedValue T :=
  let v := new_version commit_ts txn x in
  mkVersioned
    (versions (add_version (mkVersion (vtime v) (created_by v) (value v) (prev_version v) true) vv))
    (Some commit_ts).

Definition write_table (commit_ts txn : Z) m (kx : K * T) : gmap K (VersionedValue T) :=
  <[kx.1 := write_version commit_ts txn kx.2 (default new_versioned (m !! kx.1))]> m.

Definition apply_table (writes : gmap K T) (commit_ts txn : Z) m : gmap K (VersionedValue T) :=
  foldl (write_table commit_ts txn) m (map_to_list writes).

(** Collect garbage in every chain; the number of versions removed. *)
Definition gc_table (min_active_ts : Z) m : gmap K (VersionedValue T) :=
  gc_chain min_active_ts <$> m.

Definition table_versions m : Z := map_sum (λ _ vv, Z.of_nat (size (versions vv))) m.

End Table.

(** ** The store *)

Record MVCCAccountState : Type := mkAccountState {
  as_address : Address;
  as_balance : Z;
  as_nonce : Z;
  as_code_hash : option Hash;
  as_storage_root : option Hash
}.

Inductive TransactionState : Type := Active | Validating | Committed | Aborted.

#[export] Instance TransactionState_eq_dec : EqDecision TransactionState.
Proof. solve_decision. Defined.

Record MVCCTransaction : Type := mkTxn {
  txn_id : Z;
  start_ts : Z;
  commit_ts : option Z;
  read_set : gset Address;
  write_set : gmap Address MVCCAccountState;
  storage_reads : gset (Address * Hash);
  storage_writes : gmap (Address * Hash) Hash;
  txn_state : TransactionState;
  started_at : Z
}.

Definition new_txn (now id start : Z) : MVCCTransaction := mkTxn id start None ∅ ∅ ∅ ∅ Active now.

Definition record_read (a : Address) (t : MVCCTransaction) : MVCCTransaction :=
  mkTxn (txn_id t) (start_ts t) (commit_ts t) ({[a]} ∪ read_set t) (write_set t)
    (storage_reads t) (storage_writes t) (txn_state t) (started_at t).
Definition record_write (a : Address) (s : MVCCAccountState) (t : MVCCTransaction) : MVCCTransaction :=
  mkTxn (txn_id t) (start_ts t) (commit_ts t) (read_set t) (<[a := s]> (write_set t))
    (storage_reads t) (storage_writes t) (txn_state t) (started_at t).
Definition record_storage_read (a : Address) (k : Hash) (t : MVCCTransaction) : MVCCTransaction :=
  mkTxn (txn_id t) (start_ts t) (commit_ts t) (read_set t) (write_set t)
    ({[(a, k)]} ∪ storage_reads t) (storage_writes t) (txn_state t) (started_at t).
Definition record_storage_write (a : Address) (k x : Hash) (t : MVCCTransaction) : MVCCTransaction :=
  mkTxn (txn_id t) (start_ts t) (commit_ts t) (read_set t) (write_set t)
    (storage_reads t) (<[(a, k) := x]> (storage_writes t)) (txn_state t) (started_at t).
Definition set_txn_state (s : TransactionState) (t : MVCCTransaction) : MVCCTransaction :=
  mkTxn (txn_id t) (start_ts t) (commit_ts t) (read_set t) (write_set t)
    (storage_reads t) (storage_writes t) s (started_at t).

Definition set_committed (ts : Z) (t : MVCCTransaction) : MVCCTransaction :=
  mkTxn (txn_id t) (start_ts t) (Some ts) (read_set t) (write_set t)
    (storage_reads t) (storage_writes t) Committed (started_at t).

Record MVCCStats : Type := mkStats {
  transactions_started : Z;
  transactions_committed : Z;
  transactions_aborted : Z;
  conflicts_detected : Z;
  gc_runs : Z;
  versions_collected : Z
}.

Record MVCCConfig : Type := mkConfig {
  max_active_txns : Z;
  txn_timeout : Z;
  gc_interval : Z;
  min_versions_per_key : Z
}.

(** Durations in milliseconds. *)
Definition default_config : MVCCConfig := mkConfig 10000 30000 60000 2.

Record MVCCStore : Type := mkStore {
  config : MVCCConfig;
  timestamp : Z;
  txn_counter : Z;
  accounts : gmap Address (VersionedValue MVCCAccountState);
  storage : gmap (Address * Hash) (VersionedValue Hash);
  active_txns : gmap Z MVCCTransaction;
  committed_txns : gmap Z Z;
  stats : MVCCStats
}.

Inductive MvccError : Type :=
  | TooManyActive        (* "Too many active transactions" *)
  | TxnNotFound          (* "Transaction not found" *)
  | TxnNotActive         (* "Transaction not active" *)
  | ConflictDetected.    (* "Conflict detected" *)

Abbreviation MV A := (M MVCCStore MvccError A).

Definition set_txns (f : gmap Z MVCCTransaction → gmap Z MVCCTransaction) (st : MVCCStore) : MVCCStore :=
  mkStore (config st) (timestamp st) (txn_counter st) (accounts st) (storage st)
    (f (active_txns st)) (committed_txns st) (stats st).
Definition set_stats (f : MVCCStats → MVCCStats) (st : MVCCStore) : MVCCStore :=
  mkStore (config st) (timestamp st) (txn_counter st) (accounts st) (storage st)
    (active_txns st) (committed_txns st) (f (stats st)).

(** [counter += 1] on a [u64]. *)
Definition succ64 (n : Z) : Z := wrapping_add u64_max n 1.

Definition count_started (s : MVCCStats) : MVCCStats :=
  mkStats (succ64 (transactions_started s)) (transactions_committed s) (transactions_aborted s)
    (conflicts_detected s) (gc_runs s) (versions_collected s).
Definition count_committed (s : MVCCStats) : MVCCStats :=
  mkStats (transactions_started s) (succ64 (transactions_committed s)) (transactions_aborted s)
    (conflicts_detected s) (gc_runs s) (versions_collected s).
Definition count_aborted (s : MVCCStats) : MVCCStats :=
  mkStats (transactions_started s) (transactions_committed s) (succ64 (transactions_aborted s))
    (conflicts_detected s) (gc_runs s) (versions_collected s).
Definition count_conflict (s : MVCCStats) : MVCCStats :=
  mkStats (transactions_started s) (transactions_committed s) (transactions_aborted s)
    (succ64 (conflicts_detected s)) (gc_runs s) (versions_collected s).
Definition count_gc (n : Z) (s : MVCCStats) : MVCCStats :=
  mkStats (transactions_started s) (transactions_committed s) (transactions_aborted s)
    (conflicts_detected s) (succ64 (gc_runs s)) (wrapping_add u64_max (versions_collected s) n).

Definition new (cfg : MVCCConfig) : MVCCStore :=
  mkStore cfg 1 1 ∅ ∅ ∅ ∅ (mkStats 0 0 0 0 0 0).

Definition begin_transaction (now : Z) : MV Z :=
  st <-? gets (λ st, st);
  fail_if (max_active_txns (config st) <=? Z.of_nat (size (active_txns st))) TooManyActive ?;
  let id := txn_counter st in
  modify (λ st, mkStore (config st) (timestamp st) (succ64 id) (accounts st) (storage st)
    (<[id := new_txn now id (timestamp st)]> (active_txns st)) (committed_txns st) (stats st)) ?;
  modify (set_stats count_started) ?;
  returns id.

(** [txns.get_mut(&txn_id).ok_or(...)?] *)
Definition find_txn (id : Z) : MV MVCCTransaction :=
  λ st, (ok_or (active_txns st !! id) TxnNotFound, st).

(** The transaction, when it is active. *)
Definition active_txn (id : Z) : MV MVCCTransaction :=
  t <-? find_txn id;
  fail_if (bool_decide (txn_state t ≠ Active)) TxnNotActive ?;
  returns t.

Definition put_txn (id : Z) (t : MVCCTransaction) : MV () := modify (set_txns <[id := t]>).

Definition read_account (id : Z) (a : Address) : MV (option MVCCAccountState) :=
  t <-? active_txn id;
  match write_set t !! a with
  | Some s => returns (Some s)
  | None =>
      put_txn id (record_read a t) ?;
      gets (λ st, read_table (accounts st) a (start_ts t))
  end.

Definition write_account (id : Z) (s : MVCCAccountState) : MV () :=
  t <-? active_txn id;
  put_txn id (record_write (as_address s) s t).

Definition read_storage (id : Z) (a : Address) (k : Hash) : MV (option Hash) :=
  t <-? find_txn id;
  match storage_writes t !! (a, k) with
  | Some x => returns (Some x)
  | None =>
      put_txn id (record_storage_read a k t) ?;
      gets (λ st, read_table (storage st) (a, k) (start_ts t))
  end.

Definition write_storage (id : Z) (a : Address) (k x : Hash) : MV () :=
  t <-? active_txn id;
  put_txn id (record_storage_write a k x t).

(** ** Commit *)

(** What a commit carries from its first part to the others. *)
Record Ticket : Type := mkTicket {
  ticket_id : Z;
  ticket_txn : MVCCTransaction;
  ticket_ts : Z
}.

(** Mark the transaction as validating and draw a commit timestamp. *)
Definition prepare (id : Z) : MV Ticket :=
  t <-? active_txn id;
  put_txn id (set_txn_state Validating t) ?;
  st <-? gets (λ st, st);
  modify (λ st, mkStore (config st) (succ64 (timestamp st)) (txn_counter st) (accounts st) (storage st)
    (active_txns st) (committed_txns st) (stats st)) ?;
  returns (mkTicket id t (timestamp st)).

Definition validate (k : Ticket) (st : MVCCStore) : bool :=
  let t := ticket_txn k in
  let clash_a := λ a, table_conflict (accounts st) a (start_ts t) (ticket_ts k) (ticket_id k) in
  let clash_s := λ x, table_conflict (storage st) x (start_ts t) (ticket_ts k) (ticket_id k) in
  if List.existsb clash_a (elements (read_set t)) then false
  else if List.existsb clash_a (map fst (map_to_list (write_set t))) then false
  else if List.existsb clash_s (elements (storage_reads t)) then false
  else if List.existsb clash_s (map fst (map_to_list (storage_writes t))) then false
  else true.

Definition apply_writes (k : Ticket) (st : MVCCStore) : MVCCStore :=
  mkStore (config st) (timestamp st) (txn_counter st)
    (apply_table (write_set (ticket_txn k)) (ticket_ts k) (ticket_id k) (accounts st))
    (apply_table (storage_writes (ticket_txn k)) (ticket_ts k) (ticket_id k) (storage st))
    (active_txns st) (committed_txns st) (stats st).

Definition abort (id : Z) : MV () :=
  modify (set_txns (delete id)) ?;
  modify (set_stats count_aborted).

(** What follows a validation: abort on a conflict, else write, record the commit
    and retire the transaction. *)
Definition publish (k : Ticket) (valid : bool) : MV Z :=
  if negb valid then
    abort (ticket_id k) ?;
    modify (set_stats count_conflict) ?;
    throw ConflictDetected
  else
    modify (apply_writes k) ?;
    modify (set_txns (alter (set_committed (ticket_ts k)) (ticket_id k))) ?;
    modify (λ st, mkStore (config st) (timestamp st) (txn_counter st) (accounts st) (storage st)
      (active_txns st) (<[ticket_ts k := ticket_id k]> (committed_txns st)) (stats st)) ?;
    modify (set_txns (delete (ticket_id k))) ?;
    modify (set_stats count_committed) ?;
    returns (ticket_ts k).

Definition commit (id : Z) : MV Z :=
  k <-? prepare id;
  valid <-? gets (validate k);
  publish k valid.

(** ** Maintenance *)

Definition min_active (st : MVCCStore) : Z :=
  match map_to_list (active_txns st) with
  | [] => timestamp st
  | (_, t) :: l => foldl (λ m e, Z.min m (start_ts e.2)) (start_ts t) l
  end.

Definition gc (st : MVCCStore) : MVCCStore :=
  let low := min_active st in
  let accounts' := gc_table low (accounts st) in
  let storage' := gc_table low (storage st) in
  let collected := (table_versions (accounts st) - table_versions accounts') +
                   (table_versions (storage st) - table_versions storage') in
  set_stats (count_gc collected)
    (mkStore (config st) (timestamp st) (txn_counter st) accounts' storage' (active_txns st)
      (filter (λ e, ¬ (e.1 < low)) (committed_txns st)) (stats st)).

Definition timed_out (now : Z) (st : MVCCStore) : list Z :=
  map fst (List.filter (λ e, txn_timeout (config st) <? now - started_at e.2) (map_to_list (active_txns st))).

Definition cleanup_timeouts (now : Z) (st : MVCCStore) : MVCCStore :=
  foldl (λ st id, (abort id st).2) st (timed_out now st).

Definition current_timestamp (st : MVCCStore) : Z := timestamp st.
Definition active_count (st : MVCCStore) : Z := Z.of_nat (size (active_txns st)).

(** ** Entries in order *)

Lemma key_le_total {A} : Total (@key_le A).
Proof. intros x y. unfold key_le. lia. Qed.

Lemma key_le_trans {A} : Transitive (@key_le A).
Proof. intros x y z. unfold key_le. lia. Qed.

Lemma entries_perm {A} (m : gmap Z A) : entries m ≡ₚ map_to_list m.
Proof. apply merge_sort_Permutation. Qed.

Lemma elem_of_entries {A} (m : gmap Z A) k x : (k, x) ∈ entries m ↔ m !! k = Some x.
Proof. by rewrite entries_perm, elem_of_map_to_list. Qed.

Lemma entries_sorted {A} (m : gmap Z A) : StronglySorted key_le (entries m).
Proof. apply StronglySorted_merge_sort; [apply key_le_trans|apply key_le_total]. Qed.

Lemma list_filter_b {A} (f : A → bool) (l : list A) x : x ∈ List.filter f l ↔ f x = true ∧ x ∈ l.
Proof. rewrite !list_elem_of_In, filter_In. tauto. Qed.

Lemma filter_b_sorted {A} (R : relation A) (f : A → bool) l :
  StronglySorted R l → StronglySorted R (List.filter f l).
Proof.
  induction 1 as [|x l Hs IH Hx]; simpl; [constructor|]. destruct (f x); [|done].
  constructor; [done|]. apply list.Forall_forall. intros y [_ Hy]%list_filter_b.
  by eapply list.Forall_forall in Hx.
Qed.

(** ** Visibility *)

Section Chains.
Context {T : Type}.
Implicit Types (vv : VersionedValue T).

(** The last committed entry of a list in ascending order. *)
Lemma first_committed_rev (l : list (Z * Version T)) :
  StronglySorted key_le l →
  match first_committed (rev l) with
  | Some x => ∃ k v, (k, v) ∈ l ∧ committed v = true ∧ value v = x ∧
                ∀ k' v', (k', v') ∈ l → committed v' = true → k' ≤ k
  | None => ∀ k v, (k, v) ∈ l → committed v = false
  end.
Proof.
  induction l as [|[k v] l IH] using rev_ind; intros Hs.
  - by intros k v ?%not_elem_of_nil.
  - rewrite rev_app_distr. simpl.
    assert (StronglySorted key_le l ∧ ∀ e, e ∈ l → key_le e (k, v)) as [Hl Hk].
    { clear IH. induction l as [|e l IHl]; [split; [constructor|by intros ? ?%not_elem_of_nil]|].
      simpl in Hs. apply StronglySorted_inv in Hs as [Hs He]. destruct (IHl Hs) as [H1 H2].
      apply list.Forall_app in He as [He1 He2]. split; [by constructor|].
      intros e' [->|?]%elem_of_cons; [by apply list.Forall_cons in He2 as [? _]|auto]. }
    destruct (committed v) eqn:Hc.
    + exists k, v. split_and!; [set_solver|done|done|]. intros k' v' [Hin|Hin]%elem_of_app _.
      * apply (Hk _ Hin).
      * apply list_elem_of_singleton in Hin. by injection Hin as -> ->.
    + specialize (IH Hl). destruct (first_committed (rev l)) as [x|].
      * destruct IH as (k0 & v0 & ? & ? & ? & Hmax). exists k0, v0. split_and!; [set_solver|done|done|].
        intros k' v' [Hin|Hin]%elem_of_app Hc'; [eauto|]. apply list_elem_of_singleton in Hin. simplify_eq. congruence.
      * intros k' v' [Hin|Hin]%elem_of_app; [eauto|]. apply list_elem_of_singleton in Hin. simplify_eq. congruence.
Qed.

Lemma get_visible_spec vv r :
  match get_visible vv r with
  | Some x => ∃ k v, versions vv !! k = Some v ∧ k ≤ r ∧ committed v = true ∧ value v = x ∧
                ∀ k' v', versions vv !! k' = Some v' → k' ≤ r → committed v' = true → k' ≤ k
  | None => ∀ k v, versions vv !! k = Some v → k ≤ r → committed v = false
  end.
Proof.
  unfold get_visible. set (l := List.filter (λ e, e.1 <=? r) (entries (versions vv))).
  assert (∀ k v, (k, v) ∈ l ↔ k ≤ r ∧ versions vv !! k = Some v) as Hin.
  { intros k v. unfold l. rewrite list_filter_b, elem_of_entries. simpl. by rewrite Z.leb_le. }
  assert (StronglySorted key_le l) as Hs by apply filter_b_sorted, entries_sorted.
  apply first_committed_rev in Hs. destruct (first_committed (rev l)) as [x|].
  - destruct Hs as (k & v & [? ?]%Hin & ? & ? & Hmax). exists k, v. split_and!; try done.
    intros k' v' ? ? ?. eapply Hmax; [apply Hin; done|done].
  - intros k v ? ?. apply (Hs k v), Hin. done.
Qed.

Lemma chain_conflict_spec s c id vv :
  chain_conflict s c id vv = true ↔
  ∃ k v, versions vv !! k = Some v ∧ s ≤ k < c ∧ committed v = true ∧ created_by v ≠ id.
Proof.
  unfold chain_conflict. rewrite existsb_exists. split.
  - intros ([k v] & Hin & Hb). simpl in Hb. exists k, v.
    rewrite <- list_elem_of_In, elem_of_entries in Hin. reflect_hyps. done.
  - intros (k & v & Hv & [? ?] & Hc & Hne). exists (k, v). rewrite <- list_elem_of_In, elem_of_entries. split; [done|].
    simpl. rewrite Hc, (proj2 (Z.leb_le _ _)), (proj2 (Z.ltb_lt _ _)), (proj2 (Z.eqb_neq _ _)) by done. done.
Qed.

(** ** Well-formed chains *)

(** Every version is committed and older than [bound]; the latest one is recorded. *)
Record chain_wf (bound : Z) vv : Prop := {
  chain_committed : ∀ k v, versions vv !! k = Some v → committed v = true ∧ k < bound;
  chain_latest : ∃ l, latest_committed vv = Some l ∧ is_Some (versions vv !! l) ∧
    ∀ k v, versions vv !! k = Some v → k ≤ l
}.

(** The value of the latest committed version. *)
Definition latest_value vv : option T :=
  match latest_committed vv with Some l => value <$> versions vv !! l | None => None end.

Lemma visible_latest b vv r :
  chain_wf b vv → (∀ k v, versions vv !! k = Some v → k ≤ r) → get_visible vv r = latest_value vv.
Proof.
  intros [Hc (l & Hl & [v Hv] & Hmax)] Hr. unfold latest_value. rewrite Hl, Hv. simpl.
  pose proof (get_visible_spec vv r) as Hs. destruct (get_visible vv r) as [x|].
  - destruct Hs as (k & v' & Hk & _ & _ & <- & Hm). assert (k = l) as ->; [|by simplify_eq].
    apply Z.le_antisymm; [by eapply Hmax|]. eapply Hm; [done|eauto|]. by apply Hc in Hv as [? _].
  - pose proof (Hs l v Hv (Hr l v Hv)). apply Hc in Hv as [? _]. congruence.
Qed.

Lemma chain_wf_mono b b' vv : chain_wf b vv → b ≤ b' → chain_wf b' vv.
Proof. intros [H1 H2] Hb. split; [|done]. intros k v [? ?]%H1. split; [done|lia]. Qed.

Lemma chain_wf_write b id x vv :
  (chain_wf b vv ∨ vv = new_versioned) → chain_wf (b + 1) (write_version b id x vv).
Proof.
  intros Hvv. assert (∀ k v, versions vv !! k = Some v → committed v = true ∧ k < b) as Hall.
  { destruct Hvv as [Hwf| ->]; [apply Hwf|]. intros k v Hk. simpl in Hk. by rewrite lookup_empty in Hk. }
  split; simpl.
  - intros k v. destruct (decide (k = b)) as [->|Hne].
    + rewrite lookup_insert_eq. intros [= <-]. simpl. split; [done|lia].
    + rewrite lookup_insert_ne by done. intros [? ?]%Hall. split; [done|lia].
  - exists b. split_and!; [done|rewrite lookup_insert_eq; eauto|]. intros k v.
    destruct (decide (k = b)) as [->|Hne]; [done|]. rewrite lookup_insert_ne by done. intros [? ?]%Hall. lia.
Qed.

Lemma latest_write b id x vv : latest_value (write_version b id x vv) = Some x.
Proof. unfold latest_value. simpl. by rewrite lookup_insert_eq. Qed.

(** ** Garbage collection *)

Lemma foldl_delete_lookup {A} (ks : list Z) (m : gmap Z A) k :
  foldl (λ m ts, delete ts m) m ks !! k = if decide (k ∈ ks) then None else m !! k.
Proof.
  revert m. induction ks as [|x ks IH]; intros m; simpl; [done|]. rewrite IH.
  destruct (decide (x = k)) as [->|Hne].
  - rewrite lookup_delete_eq, (decide_True (P := k ∈ k :: ks)) by left. by case_decide.
  - rewrite lookup_delete_ne by done. repeat case_decide; set_solver.
Qed.


(** Collection removes only versions below [low] and below the latest one. *)
Lemma gc_chain_lookup low vv l k :
  latest_committed vv = Some l →
  versions (gc_chain low vv) !! k = versions vv !! k ∨
  (versions (gc_chain low vv) !! k = None ∧ k < low ∧ k < l).
Proof.
  intros Hl. unfold gc_chain. destruct (1 <? committed_count vv)%nat; [|by left]. simpl.
  rewrite foldl_delete_lookup. case_decide as Hk; [right|by left]. split; [done|].
  apply elem_of_take in Hk as (i & Hi & _). apply list_elem_of_lookup_2 in Hi.
  unfold gc_candidates in Hi. apply list_elem_of_fmap in Hi as ([k' v] & -> & Hf).
  apply list_filter_b in Hf as [Hb _]. simpl in *. rewrite Hl in Hb. reflect_hyps. done.
Qed.

Lemma gc_chain_latest low vv : latest_committed (gc_chain low vv) = latest_committed vv.
Proof. unfold gc_chain. by destruct (1 <? committed_count vv)%nat. Qed.

Lemma chain_wf_gc b low vv : chain_wf b vv → chain_wf b (gc_chain low vv).
Proof.
  intros [Hc (l & Hl & Hsome & Hmax)].
  assert (∀ k v, versions (gc_chain low vv) !! k = Some v → versions vv !! k = Some v) as Hsub.
  { intros k v Hk. destruct (gc_chain_lookup low vv l k Hl) as [Heq|(Hn & _)]; congruence. }
  split; [eauto|]. exists l. rewrite gc_chain_latest. split_and!; [done| |eauto].
  destruct (gc_chain_lookup low vv l l Hl) as [->|(_ & _ & ?)]; [done|lia].
Qed.

Lemma latest_gc b low vv : chain_wf b vv → latest_value (gc_chain low vv) = latest_value vv.
Proof.
  intros [_ (l & Hl & _)]. unfold latest_value. rewrite gc_chain_latest, Hl.
  destruct (gc_chain_lookup low vv l l Hl) as [->|(_ & _ & ?)]; [done|lia].
Qed.

End Chains.

(** ** Tables *)

Section Tables.
Context `{Countable K} {T : Type}.
Implicit Types (m : gmap K (VersionedValue T)).

(** The committed value of a key. *)
Definition current m (k : K) : option T := m !! k ≫= latest_value.

Definition table_wf (bound : Z) m : Prop := ∀ k vv, m !! k = Some vv → chain_wf bound vv.

(** [id] wrote no version of the table. *)
Definition not_written_by (id : Z) m : Prop :=
  ∀ k vv ts v, m !! k = Some vv → versions vv !! ts = Some v → created_by v ≠ id.

(** Another transaction committed the key at [s] or later. *)
Definition newer m (k : K) (s id : Z) : Prop :=
  ∃ vv ts v, m !! k = Some vv ∧ versions vv !! ts = Some v ∧ s ≤ ts ∧ created_by v ≠ id.

Lemma table_conflict_newer b m k s id :
  table_wf b m → newer m k s id → table_conflict m k s b id = true.
Proof.
  intros Hwf (vv & ts & v & Hk & Hv & Hs & Hne). unfold table_conflict. rewrite Hk.
  apply chain_conflict_spec. exists ts, v. destruct (chain_committed _ _ (Hwf k vv Hk) ts v Hv). done.
Qed.

(** A snapshot read either is the current value or misses nothing but newer
    versions. *)
Lemma read_table_current b m k s id :
  table_wf b m → not_written_by id m → newer m k s id ∨ current m k = read_table m k s.
Proof.
  intros Hwf Hid. unfold read_table, current. destruct (m !! k) as [vv|] eqn:Hk; simpl; [|by right].
  pose proof (Hwf k vv Hk) as Hc. destruct (chain_latest _ _ Hc) as (l & Hl & [v Hv] & Hmax).
  destruct (decide (s ≤ l)) as [Hs|Hs].
  - left. exists vv, l, v. split_and!; [done|done|done|]. by eapply Hid.
  - right. symmetry. eapply visible_latest; [done|]. intros k' v' Hk'. specialize (Hmax k' v' Hk'). lia.
Qed.

Lemma foldl_write_lookup b id (l : list (K * T)) m k :
  NoDup l.*1 →
  foldl (write_table b id) m l !! k =
  match list_to_map (M := gmap K T) l !! k with
  | Some x => Some (write_version b id x (default new_versioned (m !! k)))
  | None => m !! k
  end.
Proof.
  revert m. induction l as [|[k0 x0] l IH]; intros m Hnd; simpl; [by rewrite lookup_empty|].
  apply list.NoDup_cons in Hnd as [Hk0 Hnd]. rewrite IH by done. unfold write_table. simpl.
  destruct (decide (k = k0)) as [->|Hne].
  - rewrite (not_elem_of_list_to_map_1 l k0) by done. by rewrite !lookup_insert_eq.
  - by rewrite !lookup_insert_ne by done.
Qed.

Lemma apply_table_lookup (w : gmap K T) b id m k :
  apply_table w b id m !! k =
  match w !! k with
  | Some x => Some (write_version b id x (default new_versioned (m !! k)))
  | None => m !! k
  end.
Proof.
  unfold apply_table. rewrite foldl_write_lookup by apply NoDup_fst_map_to_list.
  by rewrite list_to_map_to_list.
Qed.

Lemma apply_table_current (w : gmap K T) b id m k :
  current (apply_table w b id m) k = match w !! k with Some x => Some x | None => current m k end.
Proof.
  unfold current. rewrite apply_table_lookup. destruct (w !! k); [|done]. apply latest_write.
Qed.

Lemma apply_table_wf (w : gmap K T) b id m : table_wf b m → table_wf (b + 1) (apply_table w b id m).
Proof.
  intros Hwf k vv. rewrite apply_table_lookup. destruct (w !! k) as [x|].
  - intros [= <-]. apply chain_wf_write. destruct (m !! k) eqn:Hk; [left; by eapply Hwf|by right].
  - intros Hk. eapply chain_wf_mono; [by eapply Hwf|lia].
Qed.

Lemma apply_table_version (w : gmap K T) b id m k vv ts v :
  apply_table w b id m !! k = Some vv → versions vv !! ts = Some v →
  created_by v = id ∨ ∃ vv0, m !! k = Some vv0 ∧ versions vv0 !! ts = Some v.
Proof.
  rewrite apply_table_lookup. destruct (w !! k) as [x|]; [|intros Hk Hv; right; eauto].
  intros [= <-]. simpl. destruct (decide (ts = b)) as [->|Hne].
  - rewrite lookup_insert_eq. intros [= <-]. by left.
  - rewrite lookup_insert_ne by done. intros Hv. right. destruct (m !! k) as [vv0|]; [eauto|].
    simpl in Hv. by rewrite lookup_empty in Hv.
Qed.

Lemma apply_table_newer (w : gmap K T) b id m k s id' :
  table_wf b m → newer m k s id' → newer (apply_table w b id m) k s id'.
Proof.
  intros Hwf (vv & ts & v & Hk & Hv & Hs & Hne). unfold newer.
  setoid_rewrite apply_table_lookup. destruct (w !! k) as [x|]; [|by exists vv, ts, v].
  rewrite Hk. eexists _, ts, v. split_and!; [done| |done|done].
  destruct (chain_committed _ _ (Hwf k vv Hk) ts v Hv). simpl. by rewrite lookup_insert_ne by lia.
Qed.

Lemma apply_table_writes_newer (w : gmap K T) b id m k x s id' :
  w !! k = Some x → s ≤ b → id ≠ id' → newer (apply_table w b id m) k s id'.
Proof.
  intros Hw Hs Hne. unfold newer. setoid_rewrite apply_table_lookup. rewrite Hw.
  eexists _, b, _. split_and!; [done|simpl; apply lookup_insert_eq|done|done].
Qed.

Lemma gc_table_lookup low m k : gc_table low m !! k = gc_chain low <$> m !! k.
Proof. apply lookup_fmap. Qed.

Lemma gc_table_current b low m k : table_wf b m → current (gc_table low m) k = current m k.
Proof.
  intros Hwf. unfold current. rewrite gc_table_lookup. destruct (m !! k) as [vv|] eqn:Hk; simpl; [|done].
  eapply latest_gc. by eapply Hwf.
Qed.

Lemma gc_table_wf b low m : table_wf b m → table_wf b (gc_table low m).
Proof.
  intros Hwf k vv. rewrite gc_table_lookup. intros (vv0 & Hk & ->)%fmap_Some. apply chain_wf_gc. by eapply Hwf.
Qed.

Lemma gc_table_version b low m k vv ts v :
  table_wf b m → gc_table low m !! k = Some vv → versions vv !! ts = Some v →
  ∃ vv0, m !! k = Some vv0 ∧ versions vv0 !! ts = Some v.
Proof.
  intros Hwf. rewrite gc_table_lookup. intros (vv0 & Hk & ->)%fmap_Some Hv. exists vv0. split; [done|].
  destruct (chain_latest _ _ (Hwf k vv0 Hk)) as (l & Hl & _).
  destruct (gc_chain_lookup low vv0 l ts Hl) as [Heq|(Hn & _)]; congruence.
Qed.

Lemma gc_table_newer b low m k s id :
  table_wf b m → low ≤ s → newer m k s id → newer (gc_table low m) k s id.
Proof.
  intros Hwf Hlow (vv & ts & v & Hk & Hv & Hs & Hne). exists (gc_chain low vv), ts, v.
  rewrite gc_table_lookup, Hk. split_and!; [done| |done|done].
  destruct (chain_latest _ _ (Hwf k vv Hk)) as (l & Hl & _).
  destruct (gc_chain_lookup low vv l ts Hl) as [->|(_ & ? & _)]; [done|lia].
Qed.

End Tables.

(** ** The store as a state machine *)

Inductive Op : Type :=
  | OBegin (now : Z)
  | OReadAccount (id : Z) (a : Address)
  | OWriteAccount (id : Z) (s : MVCCAccountState)
  | OReadStorage (id : Z) (a : Address) (k : Hash)
  | OWriteStorage (id : Z) (a : Address) (k x : Hash)
  | OCommit (id : Z)
  | OAbort (id : Z)
  | OGc
  | OCleanup (now : Z).

Definition step (st : MVCCStore) (o : Op) : MVCCStore :=
  match o with
  | OBegin now => (begin_transaction now st).2
  | OReadAccount id a => (read_account id a st).2
  | OWriteAccount id s => (write_account id s st).2
  | OReadStorage id a k => (read_storage id a k st).2
  | OWriteStorage id a k x => (write_storage id a k x st).2
  | OCommit id => (commit id st).2
  | OAbort id => (abort id st).2
  | OGc => gc st
  | OCleanup now => cleanup_timeouts now st
  end.

(** The counters are far from the end of their range. *)
Definition room (n : nat) (st : MVCCStore) : Prop :=
  0 ≤ timestamp st ∧ timestamp st + Z.of_nat n ≤ u64_max ∧
  0 ≤ txn_counter st ∧ txn_counter st + Z.of_nat n ≤ u64_max.

Record store_wf (st : MVCCStore) : Prop := {
  wf_accounts : table_wf (timestamp st) (accounts st);
  wf_storage : table_wf (timestamp st) (storage st);
  wf_writers : ∀ id, is_Some (active_txns st !! id) ∨ txn_counter st ≤ id →
    not_written_by id (accounts st) ∧ not_written_by id (storage st);
  wf_active : ∀ id t, active_txns st !! id = Some t → start_ts t ≤ timestamp st ∧ id < txn_counter st
}.

(** The store has only the given transactions of another one, with the same
    snapshot and at least the reads. *)
Definition txns_le (txns' txns : gmap Z MVCCTransaction) : Prop :=
  ∀ id t', txns' !! id = Some t' → ∃ t, txns !! id = Some t ∧ start_ts t' = start_ts t ∧
    read_set t ⊆ read_set t' ∧ storage_reads t ⊆ storage_reads t'.

(** The ways in which an operation changes the store. *)
Inductive effect (st st' : MVCCStore) : Prop :=
  | EffTxns : accounts st' = accounts st → storage st' = storage st → timestamp st ≤ timestamp st' →
      txn_counter st' = txn_counter st → txns_le (active_txns st') (active_txns st) → effect st st'
  | EffBegin t : accounts st' = accounts st → storage st' = storage st → timestamp st' = timestamp st →
      txn_counter st' = txn_counter st + 1 → active_txns st' = <[txn_counter st := t]> (active_txns st) →
      start_ts t = timestamp st → effect st st'
  | EffCommit id t : active_txns st !! id = Some t → 
      accounts st' = apply_table (write_set t) (timestamp st) id (accounts st) →
      storage st' = apply_table (storage_writes t) (timestamp st) id (storage st) →
      timestamp st' = timestamp st + 1 → txn_counter st' = txn_counter st →
      active_txns st' = delete id (active_txns st) → effect st st'
  | EffGc low : (∀ id t, active_txns st !! id = Some t → low ≤ start_ts t) →
      accounts st' = gc_table low (accounts st) → storage st' = gc_table low (storage st) →
      timestamp st' = timestamp st → txn_counter st' = txn_counter st →
      active_txns st' = active_txns st → effect st st'.

Lemma succ64_room n : 0 ≤ n < u64_max → succ64 n = n + 1.
Proof. intros Hn. unfold succ64, wrapping_add, u64_max in *. apply Z.mod_small. lia. Qed.

Lemma txns_le_refl txns : txns_le txns txns.
Proof. intros id t Ht. exists t. done. Qed.

Lemma txns_le_delete txns id : txns_le (delete id txns) txns.
Proof. intros i t [_ Ht]%lookup_delete_Some. exists t. done. Qed.

Lemma txns_le_insert txns id t t' :
  txns !! id = Some t → start_ts t' = start_ts t → read_set t ⊆ read_set t' →
  storage_reads t ⊆ storage_reads t' → txns_le (<[id := t']> txns) txns.
Proof.
  intros Ht Hs H1 H2 i x. destruct (decide (i = id)) as [->|Hne].
  - rewrite lookup_insert_eq. intros [= <-]. by exists t.
  - rewrite lookup_insert_ne by done. intros Hx. by exists x.
Qed.

Lemma txns_le_trans t1 t2 t3 : txns_le t1 t2 → txns_le t2 t3 → txns_le t1 t3.
Proof.
  intros H12 H23 id x (y & Hy & ? & ? & ?)%H12. destruct (H23 id y Hy) as (z & ? & ? & ? & ?).
  exists z. split_and!; [done|congruence|set_solver|set_solver].
Qed.

Lemma effect_refl st : effect st st.
Proof. apply EffTxns; [done|done|lia|done|apply txns_le_refl]. Qed.

Lemma min_active_le st id t : active_txns st !! id = Some t → min_active st ≤ start_ts t.
Proof.
  intros Ht. apply elem_of_map_to_list in Ht. unfold min_active.
  destruct (map_to_list (active_txns st)) as [|[i x] l]; [by apply not_elem_of_nil in Ht|].
  assert (∀ (l : list (Z * MVCCTransaction)) z, foldl (λ m e, m `min` start_ts e.2) z l ≤ z ∧
    ∀ e, e ∈ l → foldl (λ m e, m `min` start_ts e.2) z l ≤ start_ts e.2) as Hf.
  { clear. induction l as [|e l IH]; intros z; simpl; [split; [lia|by intros ? ?%not_elem_of_nil]|].
    destruct (IH (z `min` start_ts e.2)) as [H1 H2]. split; [lia|].
    intros e' [->|He]%elem_of_cons; [lia|auto]. }
  destruct (Hf l (start_ts x)) as [H1 H2]. apply elem_of_cons in Ht as [[= -> ->]|Ht]; [done|].
  apply (H2 _ Ht).
Qed.

Lemma find_txn_bind {B} id (k : MVCCTransaction → MV B) st :
  bindM (find_txn id) k st =
  match active_txns st !! id with Some t => k t st | None => (Err TxnNotFound, st) end.
Proof. unfold bindM, find_txn, ok_or. by destruct (active_txns st !! id). Qed.

Lemma active_txn_bind {B} id (k : MVCCTransaction → MV B) st :
  bindM (active_txn id) k st =
  match active_txns st !! id with
  | Some t => if bool_decide (txn_state t ≠ Active) then (Err TxnNotActive, st) else k t st
  | None => (Err TxnNotFound, st)
  end.
Proof.
  unfold active_txn, bindM, find_txn, fail_if, returns, ok_or.
  destruct (active_txns st !! id) as [t|]; [|done]. by destruct (bool_decide (txn_state t ≠ Active)).
Qed.

Lemma put_txn_effect st id t t' :
  active_txns st !! id = Some t → start_ts t' = start_ts t → read_set t ⊆ read_set t' →
  storage_reads t ⊆ storage_reads t' → effect st (set_txns <[id := t']> st).
Proof. intros. apply EffTxns; [done|done|simpl; lia|done|]. by eapply txns_le_insert. Qed.

Lemma mvcc_prepare_spec id st :
  prepare id st =
  match active_txns st !! id with
  | None => (Err TxnNotFound, st)
  | Some t =>
      if bool_decide (txn_state t ≠ Active) then (Err TxnNotActive, st)
      else (Ok (mkTicket id t (timestamp st)),
            mkStore (config st) (succ64 (timestamp st)) (txn_counter st) (accounts st) (storage st)
              (<[id := set_txn_state Validating t]> (active_txns st)) (committed_txns st) (stats st))
  end.
Proof.
  unfold prepare. rewrite active_txn_bind. destruct (active_txns st !! id) as [t|]; [|done].
  by destruct (bool_decide (txn_state t ≠ Active)).
Qed.

(** The result of a commit on every branch. *)
Lemma mvcc_commit_spec id st :
  room 1 st →
  match active_txns st !! id with
  | None => commit id st = (Err TxnNotFound, st)
  | Some t =>
      if bool_decide (txn_state t ≠ Active) then commit id st = (Err TxnNotActive, st)
      else
        let valid := validate (mkTicket id t (timestamp st)) st in
        (commit id st).1 = (if valid then Ok (timestamp st) else Err ConflictDetected) ∧
        (commit id st).2 = mkStore (config st) (timestamp st + 1) (txn_counter st)
          (if valid then apply_table (write_set t) (timestamp st) id (accounts st) else accounts st)
          (if valid then apply_table (storage_writes t) (timestamp st) id (storage st) else storage st)
          (delete id (active_txns st))
          (if valid then <[timestamp st := id]> (committed_txns st) else committed_txns st)
          (if valid then count_committed (stats st) else count_conflict (count_aborted (stats st)))
  end.
Proof.
  intros (Hts & Hroom & _).
  assert (commit id st = match prepare id st with
    | (Ok k, st1) => publish k (validate k st1) st1 | (Err e, st1) => (Err e, st1) end) as ->.
  { unfold commit, bindM, gets. by destruct (prepare id st) as [[k|e] st1]. }
  rewrite mvcc_prepare_spec. destruct (active_txns st !! id) as [t|]; [|done].
  destruct (bool_decide (txn_state t ≠ Active)); [done|]. cbn zeta.
  change (validate (mkTicket id t (timestamp st)) (mkStore _ _ _ _ _ _ _ _))
    with (validate (mkTicket id t (timestamp st)) st).
  rewrite succ64_room by lia.
  unfold publish, abort, bindM, modify, returns, throw, set_txns, set_stats.
  destruct (validate (mkTicket id t (timestamp st)) st); simpl.
  all: split; [done|]; f_equal; apply map_eq; intros i;
    destruct (decide (i = id)) as [->|]; by simplify_map_eq.
Qed.

Lemma abort_effect id st : effect st (abort id st).2.
Proof. apply EffTxns; [done|done|simpl; lia|done|apply txns_le_delete]. Qed.

Lemma cleanup_effect now st : effect st (cleanup_timeouts now st).
Proof.
  unfold cleanup_timeouts.
  enough (∀ ids st0, accounts st0 = accounts st → storage st0 = storage st → timestamp st0 = timestamp st →
    txn_counter st0 = txn_counter st → txns_le (active_txns st0) (active_txns st) →
    effect st (foldl (λ st id, (abort id st).2) st0 ids)) as Hgen.
  { apply Hgen; try done. apply txns_le_refl. }
  induction ids as [|i ids IH]; intros st0 Ha Hs Ht Hc Hx; simpl; [apply EffTxns; try done; lia|].
  apply IH; [done..|]. eapply txns_le_trans; [|done]. apply txns_le_delete.
Qed.

Lemma commit_effect id st : room 1 st → effect st (commit id st).2.
Proof.
  intros Hroom. pose proof (mvcc_commit_spec id st Hroom) as Hc.
  destruct (active_txns st !! id) as [t|] eqn:Ht; [|rewrite Hc; apply effect_refl].
  destruct (bool_decide (txn_state t ≠ Active)); [rewrite Hc; apply effect_refl|].
  destruct Hc as [_ ->]. destruct (validate _ st).
  - by apply (EffCommit _ _ id t).
  - apply EffTxns; [done|done|simpl; lia|done|apply txns_le_delete].
Qed.

Lemma step_effect st o : room 1 st → effect st (step st o).
Proof.
  intros Hroom. destruct o as [now|id a|id s|id a k|id a k x|id|id| |now]; cbn [step].
  - unfold begin_transaction. rewrite gets_bind, fail_if_bind.
    destruct (_ <=? _); [apply effect_refl|]. unfold bindM, modify, returns. simpl.
    destruct Hroom as (_ & _ & ? & ?). eapply EffBegin; try done. simpl. apply succ64_room. lia.
  - unfold read_account. rewrite active_txn_bind. destruct (active_txns st !! id) as [t|] eqn:Ht; [|apply effect_refl].
    destruct (bool_decide _); [apply effect_refl|]. destruct (write_set t !! a); [apply effect_refl|].
    eapply put_txn_effect; [done|done|simpl; set_solver|done].
  - unfold write_account. rewrite active_txn_bind. destruct (active_txns st !! id) as [t|] eqn:Ht; [|apply effect_refl].
    destruct (bool_decide _); [apply effect_refl|]. by eapply put_txn_effect.
  - unfold read_storage. rewrite find_txn_bind. destruct (active_txns st !! id) as [t|] eqn:Ht; [|apply effect_refl].
    destruct (storage_writes t !! (a, k)); [apply effect_refl|].
    eapply put_txn_effect; [done|done|done|simpl; set_solver].
  - unfold write_storage. rewrite active_txn_bind. destruct (active_txns st !! id) as [t|] eqn:Ht; [|apply effect_refl].
    destruct (bool_decide _); [apply effect_refl|]. by eapply put_txn_effect.
  - by apply commit_effect.
  - apply abort_effect.
  - apply (EffGc _ _ (min_active st)); try done. intros i t. apply min_active_le.
  - apply cleanup_effect.
Qed.

(** ** The invariant *)

Lemma table_wf_mono `{Countable K} {T} b b' (m : gmap K (VersionedValue T)) :
  table_wf b m → b ≤ b' → table_wf b' m.
Proof. intros Hwf Hb k vv Hk. eapply chain_wf_mono; [by eapply Hwf|done]. Qed.

Lemma apply_table_not_written `{Countable K} {T} (w : gmap K T) b id m id' :
  not_written_by id' m → id ≠ id' → not_written_by id' (apply_table w b id m).
Proof.
  intros Hn Hne k vv ts v Hk Hv.
  destruct (apply_table_version _ _ _ _ _ _ _ _ Hk Hv) as [->|(vv0 & H1 & H2)]; [done|eauto].
Qed.

Lemma gc_table_not_written `{Countable K} {T} b low (m : gmap K (VersionedValue T)) id :
  table_wf b m → not_written_by id m → not_written_by id (gc_table low m).
Proof.
  intros Hwf Hn k vv ts v Hk Hv. destruct (gc_table_version _ _ _ _ _ _ _ Hwf Hk Hv) as (vv0 & H1 & H2). eauto.
Qed.

Lemma store_wf_effect st st' : store_wf st → effect st st' → store_wf st'.
Proof.
  intros [Ha Hs Hw Hx] [He1 He2 He3 He4 He5|t He1 He2 He3 He4 He5 He6|id t Ht He1 He2 He3 He4 He5|low _ He1 He2 He3 He4 He5].
  - split; rewrite ?He1, ?He2, ?He4; [by eapply table_wf_mono|by eapply table_wf_mono| |].
    + intros i [[t (t0 & Ht & _)%He5]|?]; apply Hw; [left; eauto|by right].
    + intros i t (t0 & Ht & -> & _)%He5. apply Hx in Ht. lia.
  - split; rewrite ?He1, ?He2, ?He3, ?He4, ?He5; [done|done| |].
    + intros i [Hi|?]; apply Hw; [|right; lia]. destruct (decide (i = txn_counter st)) as [->|Hne]; [by right|].
      rewrite lookup_insert_ne in Hi by done. by left.
    + intros i t'. destruct (decide (i = txn_counter st)) as [->|Hne].
      * rewrite lookup_insert_eq. intros [= <-]. lia.
      * rewrite lookup_insert_ne by done. intros Ht%Hx. lia.
  - split; rewrite ?He1, ?He2, ?He3, ?He4, ?He5; [by apply apply_table_wf|by apply apply_table_wf| |].
    + intros i Hi. assert (i ≠ id ∧ (is_Some (active_txns st !! i) ∨ txn_counter st ≤ i)) as [Hne Hi'].
      { destruct Hi as [[t' [? ?]%lookup_delete_Some]|Hi]; [split; [done|left; eauto]|].
        apply Hx in Ht. split; [lia|by right]. }
      apply Hw in Hi' as [? ?]. split; by apply apply_table_not_written.
    + intros i t' [_ Hi%Hx]%lookup_delete_Some. lia.
  - split; rewrite ?He1, ?He2, ?He3, ?He4, ?He5; [by apply gc_table_wf|by apply gc_table_wf| |done].
    intros i Hi%Hw. destruct Hi. split; by eapply gc_table_not_written.
Qed.

Lemma room_effect n st st' : effect st st' → timestamp st' ≤ timestamp st + 1 → room (S n) st → room n st'.
Proof.
  intros He Hle (H1 & H2 & H3 & H4). unfold room.
  destruct He as [_ _ ? Hc _|? _ _ ? Hc _ _|? ? _ _ _ ? Hc _|? _ _ _ ? Hc _]; rewrite Hc in *; split_and!; lia.
Qed.

Lemma cleanup_timestamp now st : timestamp (cleanup_timeouts now st) = timestamp st.
Proof.
  unfold cleanup_timeouts. generalize (timed_out now st). intros ids. revert st.
  induction ids as [|i ids IH]; intros st; simpl; [done|]. by rewrite IH.
Qed.

Lemma step_timestamp st o : room 1 st → timestamp (step st o) ≤ timestamp st + 1.
Proof.
  intros Hroom. destruct o as [now|id a|id s|id a k|id a k x|id|id| |now]; cbn [step].
  - unfold begin_transaction. rewrite gets_bind, fail_if_bind. destruct (_ <=? _); simpl; lia.
  - unfold read_account. rewrite active_txn_bind. repeat case_match; simpl; lia.
  - unfold write_account. rewrite active_txn_bind. repeat case_match; simpl; lia.
  - unfold read_storage. rewrite find_txn_bind. repeat case_match; simpl; lia.
  - unfold write_storage. rewrite active_txn_bind. repeat case_match; simpl; lia.
  - pose proof (mvcc_commit_spec id st Hroom) as Hc. destruct (active_txns st !! id) as [t|]; [|rewrite Hc; simpl; lia].
    destruct (bool_decide _); [rewrite Hc; simpl; lia|]. destruct Hc as [_ ->]. simpl. lia.
  - simpl. lia.
  - simpl. lia.
  - rewrite cleanup_timestamp. lia.
Qed.

Lemma room_le n m st : room n st → (m ≤ n)%nat → room m st.
Proof. unfold room. intros (? & ? & ? & ?) ?. split_and!; lia. Qed.

Lemma room_step n st o : room (S n) st → room n (step st o).
Proof.
  intros Hr. assert (room 1 st) as Hr1 by (eapply room_le; [done|lia]).
  eapply room_effect; [by apply step_effect|by apply step_timestamp|done].
Qed.

(** A property kept by every effect is kept by every run with room. *)
Lemma mvcc_run_inv (P : MVCCStore → Prop) n st ops :
  (∀ st st', store_wf st → effect st st' → P st → P st') →
  store_wf st → room (length ops + n) st → P st →
  store_wf (foldl step st ops) ∧ room n (foldl step st ops) ∧ P (foldl step st ops).
Proof.
  intros HP. revert st. induction ops as [|o ops IH]; intros st Hwf Hroom Hst; simpl in *; [done|].
  assert (effect st (step st o)) as He by (apply step_effect; eapply room_le; [done|lia]).
  apply IH; [by eapply store_wf_effect|by apply room_step|by eapply HP].
Qed.

Lemma new_wf cfg : store_wf (new cfg).
Proof.
  split; [intros k x Hk|intros k x Hk|intros i _; split; intros k x ts v Hk|intros k x Hk]; simpl in Hk;
    by rewrite lookup_empty in Hk.
Qed.

(** ** Reads of an open transaction *)

(** As long as [id] is open, the value [v] it read under [k] is the current one
    or its validation will fail. *)
Definition tracked `{Countable K} {T} (m : gmap K (VersionedValue T)) (k : K) (s id : Z) (v : option T) : Prop :=
  newer m k s id ∨ current m k = v.

Definition open_read (id s : Z) (P : MVCCStore → MVCCTransaction → Prop) (st : MVCCStore) : Prop :=
  id < txn_counter st ∧ ∀ t, active_txns st !! id = Some t → start_ts t = s ∧ P st t.

Section Track.
Context `{Countable K} {T : Type}.
Context (table : MVCCStore → gmap K (VersionedValue T)) (reads : MVCCTransaction → gset K).
Context (writes : MVCCTransaction → gmap K T).
Context (table_gc : ∀ st st' low, accounts st' = gc_table low (accounts st) →
  storage st' = gc_table low (storage st) → table st' = gc_table low (table st)).
Context (table_same : ∀ st st', accounts st' = accounts st → storage st' = storage st → table st' = table st).
Context (table_apply : ∀ st st' id t, accounts st' = apply_table (write_set t) (timestamp st) id (accounts st) →
  storage st' = apply_table (storage_writes t) (timestamp st) id (storage st) →
  table st' = apply_table (writes t) (timestamp st) id (table st)).
Context (table_ok : ∀ st, store_wf st → table_wf (timestamp st) (table st)).
Context (reads_le : ∀ txns' txns, txns_le txns' txns → ∀ id t', txns' !! id = Some t' →
  ∃ t, txns !! id = Some t ∧ start_ts t' = start_ts t ∧ reads t ⊆ reads t').

Lemma open_read_effect id s k v st st' :
  store_wf st → effect st st' →
  open_read id s (λ st t, k ∈ reads t ∧ tracked (table st) k s id v) st →
  open_read id s (λ st t, k ∈ reads t ∧ tracked (table st) k s id v) st'.
Proof.
  intros Hwf He [Hid Hopen]. pose proof (table_ok _ Hwf) as Hok. unfold open_read.
  destruct He as [He1 He2 He3 He4 He5|t0 He1 He2 He3 He4 He5 He6|id0 t0 Ht0 He1 He2 He3 He4 He5|low Hlow He1 He2 He3 He4 He5].
  - rewrite (table_same st st') by done. split; [lia|]. intros t Ht.
    destruct (reads_le _ _ He5 id t Ht) as (t0 & Ht0 & -> & Hsub). destruct (Hopen t0 Ht0) as (? & ? & ?). set_solver.
  - rewrite (table_same st st') by done. split; [lia|]. intros t. rewrite He5, lookup_insert_ne by lia. apply Hopen.
  - split; [lia|]. intros t. rewrite He5. intros [Hne Ht]%lookup_delete_Some.
    destruct (Hopen t Ht) as (Hs & Hr & Htr). split_and!; [done|done|].
    rewrite (table_apply st st' id0 t0) by done. destruct Htr as [Hn|Hcur]; [left; by apply apply_table_newer|].
    destruct (writes t0 !! k) as [x|] eqn:Hw.
    + left. eapply apply_table_writes_newer; [done| |done]. rewrite <- Hs. by eapply wf_active.
    + right. by rewrite apply_table_current, Hw.
  - split; [lia|]. intros t. rewrite He5. intros Ht. destruct (Hopen t Ht) as (Hs & Hr & Htr). split_and!; [done|done|].
    rewrite (table_gc st st' low) by done. destruct Htr as [Hn|Hcur].
    + left. eapply gc_table_newer; [done| |done]. rewrite <- Hs. by eapply Hlow.
    + right. by erewrite gc_table_current.
Qed.

End Track.

Lemma validate_reads k st :
  validate k st = true →
  (∀ a, a ∈ read_set (ticket_txn k) →
     table_conflict (accounts st) a (start_ts (ticket_txn k)) (ticket_ts k) (ticket_id k) = false) ∧
  (∀ x, x ∈ storage_reads (ticket_txn k) →
     table_conflict (storage st) x (start_ts (ticket_txn k)) (ticket_ts k) (ticket_id k) = false).
Proof.
  unfold validate. intros Hv.
  assert (∀ {A} (f : A → bool) l x, List.existsb f l = false → x ∈ l → f x = false) as Hex.
  { intros A f l x Hf Hx. apply not_true_iff_false. intros Ht. apply not_true_iff_false in Hf. apply Hf, existsb_exists.
    exists x. by rewrite <- list_elem_of_In. }
  repeat match type of Hv with context [if ?b then _ else _] => let E := fresh in destruct b eqn:E; [done|] end.
  split; intros x Hx%elem_of_elements;
    match goal with E : existsb ?f _ = false |- _ => exact (Hex _ f _ x E Hx) end.
Qed.

Lemma commit_ok id st ts st' :
  room 1 st → commit id st = (Ok ts, st') →
  ∃ t, active_txns st !! id = Some t ∧ ts = timestamp st ∧ validate (mkTicket id t ts) st = true ∧
    accounts st' = apply_table (write_set t) ts id (accounts st) ∧
    storage st' = apply_table (storage_writes t) ts id (storage st).
Proof.
  intros Hroom Hc. pose proof (mvcc_commit_spec id st Hroom) as Hs.
  destruct (active_txns st !! id) as [t|]; [|congruence]. exists t.
  destruct (bool_decide _); [congruence|]. rewrite Hc in Hs.
  destruct Hs as [H1 H2]. cbn [fst snd] in H1, H2. subst st'.
  destruct (validate _ st) eqn:Hv; [|done]. injection H1 as ->. done.
Qed.

Lemma account_read_tracked id a st v st1 t :
  store_wf st → active_txns st !! id = Some t → write_set t !! a = None →
  read_account id a st = (Ok v, st1) →
  open_read id (start_ts t) (λ st t', a ∈ read_set t' ∧ tracked (accounts st) a (start_ts t) id v) st1.
Proof.
  intros Hwf Ht Hw. unfold read_account. rewrite active_txn_bind, Ht, Hw.
  destruct (bool_decide _); [done|]. unfold bindM, put_txn, modify, gets. intros [= <- <-]. split; simpl.
  - by eapply wf_active.
  - intros t'. rewrite lookup_insert_eq. intros [= <-]. simpl. split_and!; [done|set_solver|].
    destruct (wf_writers _ Hwf id) as [Hn _]; [left; eauto|].
    eapply read_table_current; [by eapply wf_accounts|done].
Qed.

Lemma storage_read_tracked id a k st v st1 t :
  store_wf st → active_txns st !! id = Some t → storage_writes t !! (a, k) = None →
  read_storage id a k st = (Ok v, st1) →
  open_read id (start_ts t) (λ st t', (a, k) ∈ storage_reads t' ∧ tracked (storage st) (a, k) (start_ts t) id v) st1.
Proof.
  intros Hwf Ht Hw. unfold read_storage. rewrite find_txn_bind, Ht, Hw.
  unfold bindM, put_txn, modify, gets. intros [= <- <-]. split; simpl.
  - by eapply wf_active.
  - intros t'. rewrite lookup_insert_eq. intros [= <-]. simpl. split_and!; [done|set_solver|].
    destruct (wf_writers _ Hwf id) as [_ Hn]; [left; eauto|].
    eapply read_table_current; [by eapply wf_storage|done].
Qed.

Lemma account_open_read id s a v st st' :
  store_wf st → effect st st' →
  open_read id s (λ st t, a ∈ read_set t ∧ tracked (accounts st) a s id v) st →
  open_read id s (λ st t, a ∈ read_set t ∧ tracked (accounts st) a s id v) st'.
Proof.
  apply (open_read_effect accounts read_set write_set); try done.
  - intros st0 Hwf. apply Hwf.
  - intros txns' txns Hle i t' Ht'. destruct (Hle i t' Ht') as (t & ? & ? & ? & _). eauto.
Qed.

Lemma storage_open_read id s x v st st' :
  store_wf st → effect st st' →
  open_read id s (λ st t, x ∈ storage_reads t ∧ tracked (storage st) x s id v) st →
  open_read id s (λ st t, x ∈ storage_reads t ∧ tracked (storage st) x s id v) st'.
Proof.
  apply (open_read_effect storage storage_reads storage_writes); try done.
  - intros st0 Hwf. apply Hwf.
  - intros txns' txns Hle i t' Ht'. destruct (Hle i t' Ht') as (t & ? & ? & _ & ?). eauto.
Qed.

(** ** Abstract specification

    The committed accounts and storage slots, as functions. *)
Definition account_view (st : MVCCStore) (a : Address) : option MVCCAccountState := current (accounts st) a.
Definition storage_view (st : MVCCStore) (x : Address * Hash) : option Hash := current (storage st) x.

(** Overwrite a view with a set of writes. *)
Definition overwrite `{Countable K} {T} (w : gmap K T) (f : K → option T) (k : K) : option T :=
  match w !! k with Some x => Some x | None => f k end.

Lemma cleanup_tables now st :
  accounts (cleanup_timeouts now st) = accounts st ∧ storage (cleanup_timeouts now st) = storage st.
Proof.
  unfold cleanup_timeouts. generalize (timed_out now st). intros ids. revert st.
  induction ids as [|i ids IH]; intros st; [done|]. cbn [foldl]. destruct (IH (abort i st).2) as [-> ->]. done.
Qed.

(** Only commits and collections touch the tables. *)
Lemma step_tables st o :
  (∀ id, o ≠ OCommit id) → o ≠ OGc → accounts (step st o) = accounts st ∧ storage (step st o) = storage st.
Proof.
  intros Hc Hg. destruct o as [now|id a|id s|id a k|id a k x|id|id| |now]; cbn [step]; try done.
  - unfold begin_transaction. rewrite gets_bind, fail_if_bind. by destruct (_ <=? _).
  - unfold read_account. rewrite active_txn_bind. by repeat case_match.
  - unfold write_account. rewrite active_txn_bind. by repeat case_match.
  - unfold read_storage. rewrite find_txn_bind. by repeat case_match.
  - unfold write_storage. rewrite active_txn_bind. by repeat case_match.
  - by destruct (Hc id).
  - apply cleanup_tables.
Qed.

(** What one operation does to the committed state. *)
Lemma mvcc_step_view st o :
  store_wf st → room 1 st →
  (∀ a, account_view (step st o) a = account_view st a) ∧ (∀ x, storage_view (step st o) x = storage_view st x) ∨
  ∃ id t, o = OCommit id ∧ (commit id st).1 = Ok (timestamp st) ∧ active_txns st !! id = Some t ∧
    (∀ a, account_view (step st o) a = overwrite (write_set t) (account_view st) a) ∧
    (∀ x, storage_view (step st o) x = overwrite (storage_writes t) (storage_view st) x).
Proof.
  intros Hwf Hroom. unfold account_view, storage_view.
  destruct o as [now|id a|id s|id a k|id a k x|id|id| |now].
  6: { pose proof (mvcc_commit_spec id st Hroom) as Hc. cbn [step].
    destruct (active_txns st !! id) as [t|] eqn:Ht; [|left; by rewrite Hc].
    destruct (bool_decide _); [left; by rewrite Hc|]. destruct Hc as [Hc1 Hc2]. rewrite Hc2.
    destruct (validate _ st); [right|by left]. exists id, t. split_and!; [done|done|done| |];
      intros a; apply apply_table_current. }
  7: { left. split; intros a; eapply gc_table_current; apply Hwf. }
  all: left; match goal with |- context [step ?s ?o] => destruct (step_tables s o) as [-> ->] end; done.
Qed.

(** ** Claims *)

(** C12. Transactions are serializable in commit order.  Take any history of
    calls (reads, writes, commits, aborts, timeouts, garbage collections) in which
    a commit runs to its end before the next call.  Every operation leaves the
    committed accounts and slots as they are, except a successful commit, which
    overwrites them with the writes of the transaction.  And whatever an open
    transaction reads (outside its own writes), if it commits successfully after any
    further calls, the value it read is the committed one at the moment of its
    commit: the committed transactions could have run one after the other. *)
Theorem commits_serializable (cfg : MVCCConfig) (history : list Op)
    (Hroom : Z.of_nat (length history) + 2 ≤ u64_max) :
  let st := foldl step (new cfg) history in
  (∀ o, ((∀ a, account_view (step st o) a = account_view st a) ∧ (∀ x, storage_view (step st o) x = storage_view st x)) ∨
     ∃ id t, o = OCommit id ∧ (commit id st).1 = Ok (timestamp st) ∧ active_txns st !! id = Some t ∧
       (∀ a, account_view (step st o) a = overwrite (write_set t) (account_view st) a) ∧
       (∀ x, storage_view (step st o) x = overwrite (storage_writes t) (storage_view st) x)) ∧
  (∀ id t a v st1 ops ts st2, active_txns st !! id = Some t → write_set t !! a = None →
     read_account id a st = (Ok v, st1) → Z.of_nat (length (history ++ ops)) + 3 ≤ u64_max →
     commit id (foldl step st1 ops) = (Ok ts, st2) → account_view (foldl step st1 ops) a = v) ∧
  (∀ id t a k v st1 ops ts st2, active_txns st !! id = Some t → storage_writes t !! (a, k) = None →
     read_storage id a k st = (Ok v, st1) → Z.of_nat (length (history ++ ops)) + 3 ≤ u64_max →
     commit id (foldl step st1 ops) = (Ok ts, st2) → storage_view (foldl step st1 ops) (a, k) = v).
Proof.
  intros st.
  assert (∀ n, Z.of_nat (length history + n) + 1 ≤ u64_max → store_wf st ∧ room n st) as Hst.
  { intros n Hn. destruct (mvcc_run_inv (λ _, True) n (new cfg) history) as (? & ? & _);
      [done|apply new_wf|unfold room; simpl; split_and!; lia|done|done]. }
  split_and!.
  - intros o. destruct (Hst 1%nat) as [? ?]; [lia|]. by apply mvcc_step_view.
  - intros id t a v st1 ops ts st2 Ht Hw Hread Hlen Hcommit. rewrite length_app in Hlen.
    destruct (Hst (length ops + 2)%nat) as [Hwf Hr]; [lia|].
    pose proof (account_read_tracked _ _ _ _ _ _ Hwf Ht Hw Hread) as Htrack.
    assert (st1 = step st (OReadAccount id a)) as -> by (simpl; by rewrite Hread).
    assert (room 1 st) as Hr1 by (eapply room_le; [done|lia]).
    destruct (mvcc_run_inv _ 1 _ ops (λ s s', account_open_read id (start_ts t) a v s s')
      (store_wf_effect _ _ Hwf (step_effect st (OReadAccount id a) Hr1))) as (Hwf2 & Hr2 & Hopen); [|done|].
    { apply room_step. eapply room_le; [exact Hr|lia]. }
    destruct (commit_ok _ _ _ _ Hr2 Hcommit) as (t2 & Ht2 & -> & Hvalid & _).
    destruct (proj2 Hopen t2 Ht2) as (Hs & Hin & [Hnew|Hcur]); [|done].
    apply (proj1 (validate_reads _ _ Hvalid)) in Hin. cbn [ticket_txn ticket_ts ticket_id] in Hin. rewrite Hs in Hin.
    eapply table_conflict_newer in Hnew; [|by apply wf_accounts]. congruence.
  - intros id t a k v st1 ops ts st2 Ht Hw Hread Hlen Hcommit. rewrite length_app in Hlen.
    destruct (Hst (length ops + 2)%nat) as [Hwf Hr]; [lia|].
    pose proof (storage_read_tracked _ _ _ _ _ _ _ Hwf Ht Hw Hread) as Htrack.
    assert (st1 = step st (OReadStorage id a k)) as -> by (simpl; by rewrite Hread).
    assert (room 1 st) as Hr1 by (eapply room_le; [done|lia]).
    destruct (mvcc_run_inv _ 1 _ ops (λ s s', storage_open_read id (start_ts t) (a, k) v s s')
      (store_wf_effect _ _ Hwf (step_effect st (OReadStorage id a k) Hr1))) as (Hwf2 & Hr2 & Hopen); [|done|].
    { apply room_step. eapply room_le; [exact Hr|lia]. }
    destruct (commit_ok _ _ _ _ Hr2 Hcommit) as (t2 & Ht2 & -> & Hvalid & _).
    destruct (proj2 Hopen t2 Ht2) as (Hs & Hin & [Hnew|Hcur]); [|done].
    apply (proj2 (validate_reads _ _ Hvalid)) in Hin. cbn [ticket_txn ticket_ts ticket_id] in Hin. rewrite Hs in Hin.
    eapply table_conflict_newer in Hnew; [|by apply wf_storage]. congruence.
Qed.

(** An account with the given balance. *)
Definition sample_account (a balance : Z) : MVCCAccountState := mkAccountState a balance 0 None None.

(** Account 1 holds 1000; transactions 2 and 3 are open. *)
Definition sample_history : list Op :=
  [OBegin 0; OWriteAccount 1 (sample_account 1 1000); OCommit 1; OBegin 0; OBegin 0].

Lemma commits_serializable_witness :
  let st := foldl step (new default_config) sample_history in
  account_view st 1 = Some (sample_account 1 1000) ∧
  account_view (foldl step (read_account 2 1 st).2 [OWriteAccount 2 (sample_account 1 1500); OGc]) 1 =
    Some (sample_account 1 1000).
Proof.
  intros st. split; [vm_compute; reflexivity|].
  destruct (commits_serializable default_config sample_history) as (_ & Hread & _); [vm_compute; discriminate|].
  eapply (Hread 2 (new_txn 0 2 2) 1).
  - vm_compute. reflexivity.
  - reflexivity.
  - vm_compute. reflexivity.
  - vm_compute. discriminate.
  - vm_compute. reflexivity.
Defined.

(** Two commits whose validations both run before either of them writes. *)
Definition racing_commits (id1 id2 : Z) (st : MVCCStore)
    : option (Result Z MvccError * Result Z MvccError * MVCCStore) :=
  match prepare id1 st with
  | (Err _, _) => None
  | (Ok k1, st1) =>
      match prepare id2 st1 with
      | (Err _, _) => None
      | (Ok k2, st2) =>
          let valid1 := validate k1 st2 in
          let valid2 := validate k2 st2 in
          let '(r1, st3) := publish k1 valid1 st2 in
          let '(r2, st4) := publish k2 valid2 st3 in
          Some (r1, r2, st4)
      end
  end.

Lemma publish_valid k st :
  (publish k true st).1 = Ok (ticket_ts k) ∧
  accounts (publish k true st).2 = apply_table (write_set (ticket_txn k)) (ticket_ts k) (ticket_id k) (accounts st).
Proof. done. Qed.

Lemma validate_same k st st' :
  accounts st' = accounts st → storage st' = storage st → validate k st' = validate k st.
Proof. intros Ha Hs. unfold validate. by rewrite Ha, Hs. Qed.

(** Concurrent commits lose updates.  [commit] holds no lock between its
    validation and its writes.  Two open transactions that would each be valid now can
    both validate before either writes: then both report success and the writes of the
    second silently replace those of the first, even for an account which both read
    and changed.  Run one after the other, the second is refused as a conflict. *)
Theorem concurrent_commits_lose_update st id1 id2 t1 t2 a x
    (Hwf : store_wf st) (Hroom : room 3 st) (Hne : id1 ≠ id2)
    (Ht1 : active_txns st !! id1 = Some t1) (Ht2 : active_txns st !! id2 = Some t2)
    (Ha1 : txn_state t1 = Active) (Ha2 : txn_state t2 = Active)
    (Hv1 : validate (mkTicket id1 t1 (timestamp st)) st = true)
    (Hv2 : validate (mkTicket id2 t2 (timestamp st + 1)) st = true)
    (Hw : write_set t1 !! a = Some x) (Hr : a ∈ read_set t2) :
  (∃ st', racing_commits id1 id2 st = Some (Ok (timestamp st), Ok (timestamp st + 1), st') ∧
     ∀ b, account_view st' b = overwrite (write_set t2) (overwrite (write_set t1) (account_view st)) b) ∧
  (commit id1 st).1 = Ok (timestamp st) ∧ (commit id2 (commit id1 st).2).1 = Err ConflictDetected.
Proof.
  assert (∀ t : MVCCTransaction, txn_state t = Active → bool_decide (txn_state t ≠ Active) = false) as Hact.
  { intros t Ht. apply bool_decide_eq_false. tauto. }
  assert (succ64 (timestamp st) = timestamp st + 1) as Hsucc.
  { apply succ64_room. destruct Hroom. lia. }
  split.
  - unfold racing_commits. rewrite mvcc_prepare_spec, Ht1, (Hact t1 Ha1), mvcc_prepare_spec. cbn [active_txns].
    rewrite lookup_insert_ne by done. rewrite Ht2, (Hact t2 Ha2). cbn [timestamp]. rewrite Hsucc. cbn zeta.
    rewrite (validate_same (mkTicket id1 t1 (timestamp st)) st),
      (validate_same (mkTicket id2 t2 (timestamp st + 1)) st) by done. rewrite Hv1, Hv2.
    match goal with |- context [publish ?k true ?s] => destruct (publish_valid k s) as [H1 H2]; destruct (publish k true s) as [r1 s1] end.
    match goal with |- context [publish ?k true ?s] => destruct (publish_valid k s) as [H3 H4]; destruct (publish k true s) as [r2 s2] end.
    simpl in *. subst r1 r2. exists s2. split; [done|]. intros b. unfold account_view.
    rewrite H4, H2. rewrite !apply_table_current. done.
  - assert (room 1 st) as Hr1 by (eapply room_le; [done|lia]).
    pose proof (mvcc_commit_spec id1 st Hr1) as Hc. rewrite Ht1, (Hact t1 Ha1), Hv1 in Hc. destruct Hc as [Hc1 Hc2].
    split; [done|]. assert (store_wf (commit id1 st).2) as Hwf' by (eapply store_wf_effect; [done|by apply commit_effect]).
    assert (room 1 (commit id1 st).2) as Hr2 by (apply (room_step 1 st (OCommit id1)); by eapply room_le; [exact Hroom|lia]).
    pose proof (mvcc_commit_spec id2 _ Hr2) as Hs.
    assert (active_txns (commit id1 st).2 !! id2 = Some t2) as Ht2' by (rewrite Hc2; simpl; by rewrite lookup_delete_ne).
    rewrite Ht2', (Hact t2 Ha2) in Hs. destruct Hs as [-> _].
    destruct (validate _ (commit id1 st).2) eqn:Hv; [exfalso|done].
    apply validate_reads in Hv as [Hv _]. specialize (Hv a Hr). cbn [ticket_txn ticket_ts ticket_id] in Hv.
    assert (newer (accounts (commit id1 st).2) a (start_ts t2) id2) as Hnew.
    { rewrite Hc2. simpl. eapply apply_table_writes_newer; [done| |done]. by eapply wf_active. }
    eapply table_conflict_newer in Hnew; [|by apply wf_accounts]. congruence.
Qed.

(** Transactions 2 and 3 both read account 1 and add to it. *)
Definition racing_store : MVCCStore :=
  foldl step (new default_config) (sample_history ++
    [OReadAccount 2 1; OReadAccount 3 1; OWriteAccount 2 (sample_account 1 1100); OWriteAccount 3 (sample_account 1 1010)]).

Lemma racing_store_wf : store_wf racing_store ∧ room 3 racing_store.
Proof.
  destruct (mvcc_run_inv (λ _, True) 3 (new default_config) (sample_history ++
    [OReadAccount 2 1; OReadAccount 3 1; OWriteAccount 2 (sample_account 1 1100); OWriteAccount 3 (sample_account 1 1010)]))
    as (? & ? & _); [done|apply new_wf| |done|done].
  unfold room. simpl. split_and!; vm_compute; discriminate.
Qed.

Lemma concurrent_commits_lose_update_witness :
  (∃ st', racing_commits 2 3 racing_store = Some (Ok 2, Ok 3, st') ∧
     account_view st' 1 = Some (sample_account 1 1010)) ∧
  (commit 3 (commit 2 racing_store).2).1 = Err ConflictDetected.
Proof.
  destruct racing_store_wf as [Hwf Hroom].
  destruct (concurrent_commits_lose_update racing_store 2 3
    (record_write 1 (sample_account 1 1100) (record_read 1 (new_txn 0 2 2)))
    (record_write 1 (sample_account 1 1010) (record_read 1 (new_txn 0 3 2)))
    1 (sample_account 1 1100) Hwf Hroom) as [(st' & H1 & H2) [_ H3]].
  - discriminate.
  - vm_compute. reflexivity.
  - vm_compute. reflexivity.
  - reflexivity.
  - reflexivity.
  - vm_compute. reflexivity.
  - vm_compute. reflexivity.
  - reflexivity.
  - simpl. set_solver.
  - split; [|exact H3]. exists st'. split; [exact H1|]. rewrite (H2 1). vm_compute. reflexivity.
Defined.

(** Snapshots move.  A transaction that begins draws the timestamp that the
    next commit will get, and versions with that timestamp are visible to it: when
    another transaction then commits, an account it wrote changes under the eyes of
    the first, whose second read returns the new value. *)
Theorem snapshot_not_stable st id1 id2 t1 t2 a x ts st2
    (Hwf : store_wf st) (Hroom : room 1 st) (Hne : id1 ≠ id2)
    (Ht1 : active_txns st !! id1 = Some t1) (Ht2 : active_txns st !! id2 = Some t2)
    (Ha1 : txn_state t1 = Active) (Hstart : start_ts t1 = timestamp st)
    (Hw1 : write_set t1 !! a = None) (Hw2 : write_set t2 !! a = Some x)
    (Hcommit : commit id2 st = (Ok ts, st2)) :
  (read_account id1 a st).1 = Ok (account_view st a) ∧ (read_account id1 a st2).1 = Ok (Some x).
Proof.
  assert (bool_decide (txn_state t1 ≠ Active) = false) as Hact by (apply bool_decide_eq_false; tauto).
  destruct (commit_ok _ _ _ _ Hroom Hcommit) as (t & Ht & -> & _ & Hacc & _).
  rewrite Ht2 in Ht. injection Ht as <-.
  assert (active_txns st2 !! id1 = Some t1) as Ht1'.
  { pose proof (mvcc_commit_spec id2 st Hroom) as Hs. rewrite Ht2, Hcommit in Hs.
    destruct (bool_decide (txn_state t2 ≠ Active)); [done|]. destruct Hs as [_ Hs]. simpl in Hs. rewrite Hs. simpl.
    by rewrite lookup_delete_ne. }
  unfold read_account. rewrite !active_txn_bind, Ht1, Ht1', Hact, Hw1.
  unfold bindM, put_txn, modify, gets. simpl. rewrite Hstart. split; f_equal.
  - unfold read_table, account_view, current. destruct (accounts st !! a) as [vv|] eqn:Hvv; [|done]. simpl.
    pose proof (wf_accounts _ Hwf a vv Hvv) as Hc. eapply visible_latest; [done|].
    intros k v [_ ?]%(chain_committed _ _ Hc). lia.
  - unfold read_table. rewrite Hacc, apply_table_lookup, Hw2.
    assert (chain_wf (timestamp st + 1) (write_version (timestamp st) id2 x (default new_versioned (accounts st !! a)))) as Hc.
    { apply chain_wf_write. destruct (accounts st !! a) eqn:Hvv; [left; by eapply wf_accounts|by right]. }
    rewrite (visible_latest _ _ _ Hc); [apply latest_write|].
    intros k v [_ ?]%(chain_committed _ _ Hc). lia.
Qed.

(** The sequence of the test [test_snapshot_isolation]: transaction 2 reads 1000,
    transaction 3 commits 2000, transaction 2 reads again. *)
Lemma snapshot_not_stable_witness :
  let st := foldl step (new default_config) (sample_history ++ [OReadAccount 2 1; OWriteAccount 3 (sample_account 1 2000)]) in
  (read_account 2 1 st).1 = Ok (Some (sample_account 1 1000)) ∧
  (read_account 2 1 (commit 3 st).2).1 = Ok (Some (sample_account 1 2000)).
Proof.
  intros st.
  assert (store_wf st ∧ room 1 st) as [Hwf Hroom].
  { destruct (mvcc_run_inv (λ _, True) 1 (new default_config) (sample_history ++ [OReadAccount 2 1; OWriteAccount 3 (sample_account 1 2000)]))
      as (H1 & H2 & _); [done|apply new_wf|unfold room; simpl; split_and!; vm_compute; discriminate|done|].
    split; [exact H1|exact H2]. }
  destruct (snapshot_not_stable st 2 3 (record_read 1 (new_txn 0 2 2))
    (record_write 1 (sample_account 1 2000) (new_txn 0 3 2)) 1 (sample_account 1 2000) 2 (commit 3 st).2 Hwf Hroom) as [H1 H2].
  - discriminate.
  - vm_compute. reflexivity.
  - vm_compute. reflexivity.
  - reflexivity.
  - vm_compute. reflexivity.
  - reflexivity.
  - reflexivity.
  - vm_compute. reflexivity.
  - split; [rewrite H1; vm_compute; reflexivity|exact H2].
Defined.

(** Garbage collection hides what an open transaction should see.  When an
    account has exactly two committed versions and the oldest open transaction
    started between them, the version visible to that transaction is removed, because only
    versions below the latest one are counted as old: its read then finds nothing. *)
Theorem gc_hides_snapshot {T : Type} (vv : VersionedValue T) k1 k2 (v1 v2 : Version T) low s
    (Hvs : versions vv = {[k1 := v1; k2 := v2]}) (Hl : latest_committed vv = Some k2)
    (Hc : committed v1 = true ∧ committed v2 = true) (Hord : k1 < low ∧ low ≤ s ∧ s < k2) :
  get_visible vv s = Some (value v1) ∧ get_visible (gc_chain low vv) s = None.
Proof.
  destruct Hc as [Hc1 Hc2].
  assert (entries (versions vv) = [(k1, v1); (k2, v2)]) as He.
  { assert (entries (versions vv) ≡ₚ [(k1, v1); (k2, v2)]) as Hp.
    { rewrite entries_perm, Hvs. rewrite map_to_list_insert by (apply lookup_singleton_ne; lia).
      by rewrite map_to_list_singleton. }
    symmetry in Hp. apply Permutation_length_2_inv in Hp as [?|Hp]; [done|].
    pose proof (entries_sorted (versions vv)) as Hs. rewrite Hp in Hs.
    apply StronglySorted_inv in Hs as [_ [Hs _]%list.Forall_cons]. unfold key_le in Hs. simpl in Hs. lia. }
  assert (gc_chain low vv = mkVersioned {[k2 := v2]} (Some k2)) as ->.
  { unfold gc_chain, committed_count, gc_candidates. rewrite He, Hl. simpl. rewrite Hc1, Hc2. simpl.
    rewrite (proj2 (Z.ltb_lt k1 low)), (proj2 (Z.ltb_lt k1 k2)), (proj2 (Z.ltb_ge k2 low)) by lia. simpl.
    f_equal. rewrite Hvs. apply delete_insert_id, lookup_singleton_ne. lia. }
  split.
  - unfold get_visible. rewrite He. simpl. rewrite (proj2 (Z.leb_le k1 s)), (proj2 (Z.leb_gt k2 s)) by lia.
    simpl. by rewrite Hc1.
  - pose proof (get_visible_spec (mkVersioned {[k2 := v2]} (Some k2)) s) as Hs.
    destruct (get_visible _ s) as [x|]; [|done]. destruct Hs as (k & v & Hk & Hle & _). simpl in Hk.
    apply lookup_singleton_Some in Hk as [<- _]. lia.
Qed.

(** Transaction 2 is open while transactions 3 and 4 commit; after the
    collection it no longer finds account 1. *)
Lemma gc_hides_snapshot_witness :
  let v k x := mkVersion k 1 x None true in
  get_visible (gc_chain 2 (mkVersioned {[1 := v 1 5; 3 := v 3 6]} (Some 3))) 2 = None ∧
  let st := foldl step (new default_config) (sample_history ++
    [OWriteAccount 3 (sample_account 2 7); OCommit 3; OBegin 0; OWriteAccount 4 (sample_account 1 2000); OCommit 4]) in
  (read_account 2 1 st).1 = Ok (Some (sample_account 1 1000)) ∧ (read_account 2 1 (gc st)).1 = Ok None.
Proof.
  intros v. split.
  - apply (gc_hides_snapshot (mkVersioned {[1 := v 1 5; 3 := v 3 6]} (Some 3)) 1 3 (v 1 5) (v 3 6) 2 2); try done. 
  - vm_compute. split; reflexivity.
Defined.
