(* ===== verification/Stacc.v ===== *)
(** * Admission control

    Models the crate's STACC modules: [src/L1/src/stacc/activation.rs] (deposits
    and cooldowns), [quota.rs] (token buckets), [cu_metering.rs],
    [wfq_scheduler.rs] (weighted fair queueing) and [mempool.rs] (admission), with
    the errors of [src/L1/src/mempool/mod.rs].

    What the code computes in floating point is an argument: the age-scaled base
    quota, the stake share, the slowed refill, and the virtual times of the
    scheduler, a type [F] with a maximum, a comparison and the function that gives
    the finish time of a transaction.  The binary heap is a list with an argument
    that takes a greatest entry out. *)

From S2P Require Import Prelude Transaction.

(** ** Activation *)

Definition BASIC_TIER_STAKE : Z := 10.
Definition BUILDER_TIER_STAKE : Z := 100.
Definition ENTERPRISE_TIER_STAKE : Z := 1000.
Definition COOLDOWN_BLOCKS : Z := 50400.

Inductive StaccTier : Type := Basic | Builder | Enterprise.

Definition from_stake (stake : Z) : option StaccTier :=
  if ENTERPRISE_TIER_STAKE <=? stake then Some Enterprise
  else if BUILDER_TIER_STAKE <=? stake then Some Builder
  else if BASIC_TIER_STAKE <=? stake then Some Basic
  else None.

Definition tier_quota_base (t : StaccTier) : Z :=
  match t with Basic => 10000 | Builder => 30000 | Enterprise => 100000 end.

Record ActivationState : Type := mkActivation {
  activated_at_block : Z;
  cooldown_until_block : option Z
}.

Abbreviation ActivationLedger := (gmap Address ActivationState).

Definition is_active (l : ActivationLedger) (a : Address) : bool := bool_decide (is_Some (l !! a)).

Definition activate (a : Address) (now_block : Z) (l : ActivationLedger) : ActivationLedger :=
  match l !! a with Some _ => l | None => <[a := mkActivation now_block None]> l end.

Definition request_withdraw (a : Address) (now_block : Z) (l : ActivationLedger) : option Z * ActivationLedger :=
  match l !! a with
  | None => (None, l)
  | Some st =>
      let until := saturating_add u64_max now_block COOLDOWN_BLOCKS in
      (Some until, <[a := mkActivation (activated_at_block st) (Some until)]> l)
  end.

Definition finalize_withdraw (a : Address) (now_block : Z) (l : ActivationLedger) : bool * ActivationLedger :=
  match l !! a with
  | None => (false, l)
  | Some st =>
      match cooldown_until_block st with
      | None => (false, l)
      | Some until => if now_block <? until then (false, l) else (true, delete a l)
      end
  end.

(** ** Token buckets *)

Definition R_CHARGE_BASIC : Z := 10.
Definition R_CHARGE_BUILDER : Z := 100.
Definition R_CHARGE_ENTERPRISE : Z := 1000.
Definition BUCKET_SECONDS : Z := 3600.
Definition STAKE_BW_POOL : Z := 50000000.

Inductive QuotaError : Type := InsufficientQuota.

Record Bucket : Type := mkBucket {
  capacity : Z;
  tokens : Z;
  last_refill_block : Z
}.

Definition new_bucket (cap now_block : Z) : Bucket := mkBucket cap cap now_block.

Definition refill_to (cap refill now_block : Z) (b : Bucket) : Bucket :=
  if now_block <=? last_refill_block b then mkBucket cap (Z.min (tokens b) cap) (last_refill_block b)
  else mkBucket cap (Z.min (saturating_add u64_max (tokens b) refill) cap) now_block.

Definition bucket_try_consume (amount : Z) (b : Bucket) : Result () QuotaError * Bucket :=
  if tokens b <? amount then (Err InsufficientQuota, b)
  else (Ok (), mkBucket (capacity b) (tokens b - amount) (last_refill_block b)).

(** The stake and the floating-point parts of the quotas. *)
Class QuotaProvider : Type := {
  stake_of : Address → Z;
  total_stake : Z;
  scaled_base : Z → Address → Z → Z;   (* (base * anciennete_factor).round() *)
  stake_share : Z → Z → Z;             (* (ln(1+stake) / ln(1+total) * POOL).round() *)
  slowed : Z → Z → Z                   (* (refill / (1 + burns^2)).round() *)
}.

Record QuotaManager : Type := mkQuota {
  buckets : gmap Address Bucket;
  burns : gmap Address (Z * Z)
}.

Definition new_quota : QuotaManager := mkQuota ∅ ∅.

Section Quota.
Context `{QuotaProvider}.

Definition quota_base (a : Address) (now_block : Z) : Z :=
  match from_stake (stake_of a) with
  | None => 0
  | Some t => scaled_base (tier_quota_base t) a now_block
  end.

Definition quota_stake (a : Address) : Z :=
  if total_stake =? 0 then 0
  else if stake_of a =? 0 then 0
  else Z.min (stake_share (stake_of a) total_stake) STAKE_BW_POOL.

Definition quota_total (a : Address) (now_block : Z) : Z :=
  saturating_add u64_max (quota_base a now_block) (quota_stake a).

Definition cu_tx_max (a : Address) : Z :=
  match from_stake (stake_of a) with
  | Some Basic => 10000
  | Some Builder => 100000
  | Some Enterprise => 1000000
  | None => 10000
  end.

Definition refill_rate (a : Address) : Z :=
  match from_stake (stake_of a) with
  | Some Basic => R_CHARGE_BASIC
  | Some Builder => R_CHARGE_BUILDER
  | Some Enterprise => R_CHARGE_ENTERPRISE
  | None => R_CHARGE_BASIC
  end.

Definition bucket_capacity (a : Address) (now_block : Z) : Z :=
  Z.min (saturating_mul u128_max (saturating_mul u128_max 2 (refill_rate a)) BUCKET_SECONDS) u64_max.

(** One address of [refill_block]. *)
Definition refill_one (now_block : Z) (q : QuotaManager) (a : Address) : QuotaManager :=
  let refill := quota_total a now_block in
  let cap := bucket_capacity a now_block in
  let '(n, last_burn) := default (0, 0) (burns q !! a) in
  let buckets' := alter (refill_to cap (slowed refill n) now_block) a (buckets q) in
  let burns' :=
    if (0 <? n) && (BUCKET_SECONDS <? saturating_sub now_block last_burn)
    then <[a := (saturating_sub n 1, now_block)]> (burns q)
    else burns q in
  mkQuota buckets' burns'.

Definition refill_block (now_block : Z) (q : QuotaManager) : QuotaManager :=
  foldl (refill_one now_block) q (map fst (map_to_list (buckets q))).

Definition ensure_bucket (a : Address) (now_block : Z) (q : QuotaManager) : QuotaManager :=
  match buckets q !! a with
  | Some _ => q
  | None =>
      mkQuota (<[a := new_bucket (bucket_capacity a now_block) now_block]> (buckets q))
        (match burns q !! a with Some _ => burns q | None => <[a := (0, 0)]> (burns q) end)
  end.

(** Count a burn of at least nine tenths of the capacity. *)
Definition note_burn (a : Address) (cu cap now_block : Z) (bs : gmap Address (Z * Z)) : gmap Address (Z * Z) :=
  if saturating_mul u64_max cap 9 / 10 <=? cu then
    <[a := (saturating_add u32_max (default (0, now_block) (bs !! a)).1 1, now_block)]> bs
  else bs.

Definition try_consume (a : Address) (cu now_block : Z) : M QuotaManager QuotaError () :=
  modify (ensure_bucket a now_block) ?;
  let refill := quota_total a now_block in
  let cap := bucket_capacity a now_block in
  fail_if (cu_tx_max a <? cu) InsufficientQuota ?;
  λ q, match buckets q !! a with
       | None => (Ok (), q)
       | Some b =>
           let b1 := refill_to cap refill now_block b in
           let burns' := note_burn a cu cap now_block (burns q) in
           let '(r, b2) := bucket_try_consume cu b1 in
           (r, mkQuota (<[a := b2]> (buckets q)) burns')
       end.

End Quota.

(** ** Compute units *)

Definition DEFAULT_BLOCK_CU_LIMIT : Z := 300000000.

(** The limit from the environment: a positive number, or the default. *)
Definition block_cu_limit (env : option Z) : Z :=
  match env with
  | Some v => if 0 <? v then v else DEFAULT_BLOCK_CU_LIMIT
  | None => DEFAULT_BLOCK_CU_LIMIT
  end.

Definition clamp_tx_cu (limit max_compute_units : Z) : Z := Z.min max_compute_units limit.

(** ** Weighted fair queueing *)

Record ScheduledTx (F : Type) : Type := mkScheduled {
  stx : SignedTransaction;
  arrival_seq : Z;
  vstart : F;
  vfinish : F
}.
Arguments mkScheduled {F}. Arguments stx {F}. Arguments arrival_seq {F}. Arguments vstart {F}. Arguments vfinish {F}.

Record Flow (F : Type) : Type := mkFlow {
  queue : list (ScheduledTx F);
  last_finish : F
}.
Arguments mkFlow {F}. Arguments queue {F}. Arguments last_finish {F}.

Record HeapEntry (F : Type) : Type := mkEntry {
  efinish : F;
  eaddr : Address;
  eseq : Z
}.
Arguments mkEntry {F}. Arguments efinish {F}. Arguments eaddr {F}. Arguments eseq {F}.

(** Virtual times: [finish_time s tx now] is [s + cu / weight]. *)
Class VirtualTime (F : Type) : Type := {
  vzero : F;
  vmax : F → F → F;
  vcmp : F → F → comparison;            (* partial_cmp, equal when unordered *)
  finish_time : F → SignedTransaction → Z → F
}.

Record WfqScheduler (F : Type) : Type := mkWfq {
  virtual_clock : F;
  flows : gmap Address (Flow F);
  heap : list (HeapEntry F);
  next_seq : Z
}.
Arguments mkWfq {F}. Arguments virtual_clock {F}. Arguments flows {F}. Arguments heap {F}. Arguments next_seq {F}.

Section Wfq.
Context `{VirtualTime F}.
Implicit Types (s : WfqScheduler F).

(** [Ord::cmp] of heap entries: the earlier finish is the greater entry, then the
    earlier arrival, then the smaller address. *)
Definition entry_cmp (a b : HeapEntry F) : comparison :=
  match vcmp (efinish b) (efinish a) with
  | Eq => match eseq b ?= eseq a with Eq => eaddr b ?= eaddr a | c => c end
  | c => c
  end.

Definition new_scheduler : WfqScheduler F := mkWfq vzero ∅ [] 1.

Definition head_entry (a : Address) (h : ScheduledTx F) : HeapEntry F := mkEntry (vfinish h) a (arrival_seq h).

Definition push_head (a : Address) (q : list (ScheduledTx F)) (h : list (HeapEntry F)) : list (HeapEntry F) :=
  match q with [] => h | x :: _ => h ++ [head_entry a x] end.

Definition insert_tx (tx : SignedTransaction) (now_block : Z) s : WfqScheduler F :=
  let a := from (transaction tx) in
  let fl := default (mkFlow [] (virtual_clock s)) (flows s !! a) in
  let start := vmax (last_finish fl) (virtual_clock s) in
  let fin := finish_time start tx now_block in
  let q := queue fl ++ [mkScheduled tx (next_seq s) start fin] in
  mkWfq (virtual_clock s) (<[a := mkFlow q fin]> (flows s)) (push_head a q (heap s))
    (saturating_add u64_max (next_seq s) 1).

Context (pop : list (HeapEntry F) → option (HeapEntry F * list (HeapEntry F))).

Fixpoint pop_loop (fuel : nat) s : option SignedTransaction * WfqScheduler F :=
  match fuel with
  | O => (None, s)
  | S fuel' =>
      match pop (heap s) with
      | None => (None, s)
      | Some (e, h) =>
          match flows s !! eaddr e with
          | None => pop_loop fuel' (mkWfq (virtual_clock s) (flows s) h (next_seq s))
          | Some fl =>
              match queue fl with
              | [] => pop_loop fuel' (mkWfq (virtual_clock s) (delete (eaddr e) (flows s)) h (next_seq s))
              | x :: q =>
                  if negb (arrival_seq x =? eseq e)
                  then pop_loop fuel' (mkWfq (virtual_clock s) (flows s) h (next_seq s))
                  else
                    let clock := vmax (virtual_clock s) (vstart x) in
                    let flows' :=
                      match q with
                      | [] => delete (eaddr e) (flows s)
                      | _ => <[eaddr e := mkFlow q (last_finish fl)]> (flows s)
                      end in
                    (Some (stx x), mkWfq clock flows' (push_head (eaddr e) q h) (next_seq s))
              end
          end
      end
  end.

(** Every round takes an entry out of the heap. *)
Definition pop_next s : option SignedTransaction * WfqScheduler F := pop_loop (S (length (heap s))) s.

Definition sched_len s : Z := map_sum (λ _ fl, Z.of_nat (length (queue fl))) (flows s).

End Wfq.

(** ** Admission *)

Definition FLOOR_PENDING : Z := 10000.

Inductive MempoolError : Type :=
  | DuplicateTransaction
  | InvalidTransaction (e : string)
  | MempoolFull
  | NonceTooLow
  | NonceGap.

Record StaccAdmission (F : Type) : Type := mkAdmission {
  activation : ActivationLedger;
  quota : QuotaManager;
  scheduler : WfqScheduler F;
  require_activation : bool;
  enforce_quota : bool;
  pending_cu_by_addr : gmap Address Z;
  pending_cu_total : Z
}.
Arguments mkAdmission {F}. Arguments activation {F}. Arguments quota {F}. Arguments scheduler {F}.
Arguments require_activation {F}. Arguments enforce_quota {F}. Arguments pending_cu_by_addr {F}. Arguments pending_cu_total {F}.

Section Admission.
Context `{QuotaProvider} `{VirtualTime F}.
Context (limit : Z).
Implicit Types (s : StaccAdmission F).

Definition new_with_policy (l : ActivationLedger) (q : QuotaManager) (require enforce : bool) : StaccAdmission F :=
  mkAdmission l q new_scheduler require enforce ∅ 0.

Definition max_pending_cu : Z := wrapping_mul u64_max 10 limit.

Definition max_pending_for_addr (a : Address) (now_block : Z) : Z :=
  Z.max (wrapping_mul u64_max 2 (quota_total a now_block)) FLOOR_PENDING.

Definition set_quota (q : QuotaManager) s : StaccAdmission F :=
  mkAdmission (activation s) q (scheduler s) (require_activation s) (enforce_quota s)
    (pending_cu_by_addr s) (pending_cu_total s).

Definition tx_cu (tx : SignedTransaction) : Z := clamp_tx_cu limit (max_compute_units (transaction tx)).

(** The quota check of [admit_tx]. *)
Definition charge (a : Address) (cu now_block : Z) : M (StaccAdmission F) MempoolError () :=
  λ s, if enforce_quota s then
         let '(r, q) := try_consume a cu now_block (quota s) in
         (match r with
          | Ok u => Ok u
          | Err _ => Err (InvalidTransaction "STACC: insufficient CU quota")
          end, set_quota q s)
       else (Ok (), s).

(** The caps on pending compute units. *)
Definition check_caps (a : Address) (cu now_block : Z) : M (StaccAdmission F) MempoolError () :=
  λ s, if enforce_quota s then
         if max_pending_for_addr a now_block <? saturating_add u64_max (get0 (pending_cu_by_addr s) a) cu
         then (Err MempoolFull, s)
         else if max_pending_cu <? saturating_add u64_max (pending_cu_total s) cu
         then (Err MempoolFull, s)
         else (Ok (), s)
       else (Ok (), s).

Definition admit_tx (tx : SignedTransaction) (now_block : Z) : M (StaccAdmission F) MempoolError () :=
  let a := from (transaction tx) in
  s0 <-? gets (λ s, s);
  fail_if (require_activation s0 && negb (is_active (activation s0) a))
    (InvalidTransaction "STACC: address not activated") ?;
  let cu := tx_cu tx in
  charge a cu now_block ?;
  check_caps a cu now_block ?;
  modify (λ s, mkAdmission (activation s) (quota s) (insert_tx tx now_block (scheduler s))
    (require_activation s) (enforce_quota s)
    (<[a := saturating_add u64_max (get0 (pending_cu_by_addr s) a) cu]> (pending_cu_by_addr s))
    (saturating_add u64_max (pending_cu_total s) cu)).

Context (pop : list (HeapEntry F) → option (HeapEntry F * list (HeapEntry F))).

Definition admission_pop_next s : option SignedTransaction * StaccAdmission F :=
  let '(r, sched) := pop_next pop (scheduler s) in
  let s1 := mkAdmission (activation s) (quota s) sched (require_activation s) (enforce_quota s)
    (pending_cu_by_addr s) (pending_cu_total s) in
  match r with
  | None => (None, s1)
  | Some tx =>
      let cu := tx_cu tx in
      (Some tx,
       mkAdmission (activation s1) (quota s1) (scheduler s1) (require_activation s1) (enforce_quota s1)
         (alter (λ v, saturating_sub v cu) (from (transaction tx)) (pending_cu_by_addr s1))
         (saturating_sub (pending_cu_total s1) cu))
  end.

Definition pending_len s : Z := sched_len (scheduler s).

End Admission.

(** ** Token buckets limit the rate *)

(** The operations on the quotas. *)
Inductive QuotaOp : Type :=
  | QConsume (a : Address) (cu now_block : Z)
  | QRefill (now_block : Z).

Definition op_block (o : QuotaOp) : Z :=
  match o with QConsume _ _ now => now | QRefill now => now end.

Section QuotaSpec.
Context `{QuotaProvider}.

Definition quota_step (q : QuotaManager) (o : QuotaOp) : QuotaManager :=
  match o with
  | QConsume a cu now => (try_consume a cu now q).2
  | QRefill now => refill_block now q
  end.

(** The compute units that the operation grants to [a]. *)
Definition granted (a : Address) (q : QuotaManager) (o : QuotaOp) : Z :=
  match o with
  | QConsume a' cu now =>
      if (a' =? a) && is_ok (try_consume a' cu now q).1 then cu else 0
  | QRefill _ => 0
  end.

Fixpoint total_granted (a : Address) (q : QuotaManager) (os : list QuotaOp) : Z :=
  match os with
  | [] => 0
  | o :: os' => granted a q o + total_granted a (quota_step q o) os'
  end.

Lemma capacity_fits a now : 0 ≤ bucket_capacity a now ≤ u64_max.
Proof.
  unfold bucket_capacity, saturating_mul, refill_rate, BUCKET_SECONDS, u128_max, u64_max.
  destruct (from_stake (stake_of a)) as [[]|]; vm_compute; split; discriminate.
Qed.

Lemma capacity_constant a now now' : bucket_capacity a now = bucket_capacity a now'.
Proof. done. Qed.

(** What the bucket of [a] can still grant between the blocks [t0] and [t1], when a refill adds
    at most [r]: a bucket last refilled before [t0] has at most its capacity after its first refill
    in the window. *)
Definition potential (a : Address) (r t0 t1 : Z) (q : QuotaManager) : Z :=
  match buckets q !! a with
  | Some b => if last_refill_block b <? t0 then bucket_capacity a 0 + r * (t1 - t0) else tokens b + r * Z.max 0 (t1 - last_refill_block b)
  | None => bucket_capacity a 0 + r * (t1 - t0)
  end.

Definition bucket_ok (a : Address) (q : QuotaManager) : Prop :=
  match buckets q !! a with Some b => 0 ≤ tokens b ≤ bucket_capacity a 0 | None => True end.

Lemma refill_to_bounds cap refill now b : 0 ≤ tokens b → 0 ≤ cap → 0 ≤ refill → 0 ≤ tokens (refill_to cap refill now b) ≤ cap.
Proof.
  intros Ht Hc Hr. unfold refill_to, saturating_add, u64_max. destruct (now <=? last_refill_block b); simpl; lia.
Qed.

(** After a refill in the window the last refill is not before it. *)
Lemma refill_to_potential cap refill now b r t0 t1 :
  0 ≤ refill ≤ r → t0 ≤ now ≤ t1 →
  t0 ≤ last_refill_block (refill_to cap refill now b) ∧
  tokens (refill_to cap refill now b) + r * Z.max 0 (t1 - last_refill_block (refill_to cap refill now b)) ≤
  if last_refill_block b <? t0 then cap + r * (t1 - t0) else tokens b + r * Z.max 0 (t1 - last_refill_block b).
Proof.
  intros Hr Hn. unfold refill_to, saturating_add.
  destruct (Z.leb_spec now (last_refill_block b)), (Z.ltb_spec (last_refill_block b) t0); cbn [tokens last_refill_block]; split; try lia.
  - assert (r * Z.max 0 (t1 - now) ≤ r * (t1 - t0)) by nia. lia.
  - assert (r * Z.max 0 (t1 - now) + r ≤ r * Z.max 0 (t1 - last_refill_block b)) by nia. lia.
Qed.

Lemma ensure_bucket_ok a a' now q : bucket_ok a q → bucket_ok a (ensure_bucket a' now q).
Proof.
  intros Hok. unfold ensure_bucket. destruct (buckets q !! a') as [b|] eqn:Hb; [done|].
  unfold bucket_ok in *. simpl. destruct (decide (a' = a)) as [->|Hne].
  - rewrite lookup_insert_eq. simpl. rewrite (capacity_constant a now 0). pose proof (capacity_fits a 0). lia.
  - by rewrite lookup_insert_ne.
Qed.

Lemma ensure_bucket_potential a a' now r t0 t1 q :
  0 ≤ r → t0 ≤ now ≤ t1 → potential a r t0 t1 (ensure_bucket a' now q) ≤ potential a r t0 t1 q.
Proof.
  intros Hr Hn. unfold ensure_bucket. destruct (buckets q !! a') as [b|] eqn:Hb; [done|].
  unfold potential. simpl. destruct (decide (a' = a)) as [->|Hne].
  - rewrite lookup_insert_eq, Hb. simpl. rewrite (capacity_constant a now 0). destruct (Z.ltb_spec now t0); nia.
  - by rewrite lookup_insert_ne.
Qed.

Lemma ensure_bucket_some a now q : is_Some (buckets (ensure_bucket a now q) !! a).
Proof.
  unfold ensure_bucket. destruct (buckets q !! a) eqn:Hb; [by rewrite Hb|]. simpl. rewrite lookup_insert_eq. eauto.
Qed.

Lemma try_consume_eq a cu now q :
  try_consume a cu now q =
  let q1 := ensure_bucket a now q in
  if cu_tx_max a <? cu then (Err InsufficientQuota, q1)
  else
    match buckets q1 !! a with
    | None => (Ok (), q1)
    | Some b =>
        let '(r, b2) := bucket_try_consume cu (refill_to (bucket_capacity a now) (quota_total a now) now b) in
        (r, mkQuota (<[a := b2]> (buckets q1)) (note_burn a cu (bucket_capacity a now) now (burns q1)))
    end.
Proof. unfold try_consume, bindM, modify, fail_if. by destruct (cu_tx_max a <? cu). Qed.

Lemma try_consume_ok a a' cu now q :
  0 ≤ cu → 0 ≤ quota_total a now → bucket_ok a q → bucket_ok a (try_consume a' cu now q).2.
Proof.
  intros Hcu Hq Hok. pose proof (ensure_bucket_ok a a' now q Hok) as Hok1. rewrite try_consume_eq. cbn zeta.
  destruct (cu_tx_max a' <? cu); [done|]. destruct (ensure_bucket_some a' now q) as [b Hb]. rewrite Hb.
  set (b1 := refill_to _ _ _ b). unfold bucket_try_consume, bucket_ok in *. destruct (decide (a' = a)) as [->|Hne].
  - rewrite Hb in Hok1. assert (0 ≤ tokens b1 ≤ bucket_capacity a 0).
    { rewrite (capacity_constant a 0 now). apply refill_to_bounds; [lia|apply capacity_fits|done]. }
    destruct (Z.ltb_spec (tokens b1) cu); cbn [snd buckets]; rewrite lookup_insert_eq; cbn [tokens]; lia.
  - destruct (tokens b1 <? cu); cbn [snd buckets]; by rewrite lookup_insert_ne.
Qed.

Lemma try_consume_potential a a' cu now r t0 t1 q :
  0 ≤ cu → 0 ≤ quota_total a now ≤ r → t0 ≤ now ≤ t1 →
  potential a r t0 t1 (try_consume a' cu now q).2 + granted a q (QConsume a' cu now) ≤ potential a r t0 t1 q.
Proof.
  intros Hcu Hq Hn.
  pose proof (ensure_bucket_potential a a' now r t0 t1 q ltac:(lia) Hn) as Hp1.
  cbn [granted]. rewrite !try_consume_eq. cbn zeta.
  destruct (cu_tx_max a' <? cu); cbn [fst snd is_ok]; [rewrite andb_false_r; lia|].
  destruct (ensure_bucket_some a' now q) as [b Hb]. rewrite Hb.
  set (q1 := ensure_bucket a' now q) in *. set (b1 := refill_to (bucket_capacity a' now) (quota_total a' now) now b).
  unfold bucket_try_consume. destruct (decide (a' = a)) as [->|Hne].
  - rewrite Z.eqb_refl. cbn [andb]. unfold potential in Hp1 at 1. rewrite Hb in Hp1.
    destruct (refill_to_potential (bucket_capacity a now) (quota_total a now) now b r t0 t1) as (H1 & H2); [lia..|].
    fold b1 in H1, H2. rewrite (capacity_constant a 0 now) in Hp1.
    assert (Hlast : (last_refill_block b1 <? t0) = false) by (by apply Z.ltb_ge).
    destruct (Z.ltb_spec (tokens b1) cu); unfold potential at 1; cbn [fst snd is_ok buckets];
      rewrite lookup_insert_eq; cbn [tokens last_refill_block]; rewrite Hlast; lia.
  - rewrite (proj2 (Z.eqb_neq _ _)) by done. cbn [andb].
    unfold potential in *. destruct (tokens b1 <? cu); cbn [fst snd buckets]; rewrite lookup_insert_ne by done; lia.
Qed.

Lemma refill_one_other now q a a' : a ≠ a' → buckets (refill_one now q a') !! a = buckets q !! a.
Proof.
  intros Hne. unfold refill_one. destruct (default (0, 0) (burns q !! a')). simpl. by rewrite lookup_alter_ne.
Qed.

Lemma refill_one_ok a k now q : (∀ n, 0 ≤ slowed (quota_total a now) n) → bucket_ok a q → bucket_ok a (refill_one now q k).
Proof.
  intros Hs Hok. destruct (decide (a = k)) as [<-|Hne]; [|unfold bucket_ok; by rewrite refill_one_other].
  unfold bucket_ok, refill_one in *. destruct (default (0, 0) (burns q !! a)) as [n lb]. simpl.
  rewrite lookup_alter_eq. destruct (buckets q !! a) as [b|]; [|done]. simpl. rewrite (capacity_constant a 0 now).
  apply refill_to_bounds; [lia|apply capacity_fits|apply Hs].
Qed.

Lemma refill_one_potential a k now r t0 t1 q :
  (∀ n, 0 ≤ slowed (quota_total a now) n ≤ r) → t0 ≤ now ≤ t1 → potential a r t0 t1 (refill_one now q k) ≤ potential a r t0 t1 q.
Proof.
  intros Hs Hn. destruct (decide (a = k)) as [<-|Hne]; [|unfold potential; by rewrite refill_one_other].
  unfold potential, refill_one. destruct (default (0, 0) (burns q !! a)) as [n lb]. simpl.
  rewrite lookup_alter_eq. destruct (buckets q !! a) as [b|]; [|done]. cbn [fmap option_fmap option_map].
  destruct (refill_to_potential (bucket_capacity a now) (slowed (quota_total a now) n) now b r t0 t1) as (H1 & H2); [apply Hs|done|].
  rewrite (proj2 (Z.ltb_ge _ _) H1). by rewrite (capacity_constant a 0 now).
Qed.

Lemma refill_block_ok a now q : (∀ n, 0 ≤ slowed (quota_total a now) n) → bucket_ok a q → bucket_ok a (refill_block now q).
Proof.
  intros Hs. unfold refill_block. generalize (map fst (map_to_list (buckets q))). intros ks. revert q.
  induction ks as [|k ks IH]; intros q Hok; simpl; [done|]. by apply IH, refill_one_ok.
Qed.

Lemma refill_block_potential a now r t0 t1 q :
  (∀ n, 0 ≤ slowed (quota_total a now) n ≤ r) → t0 ≤ now ≤ t1 → potential a r t0 t1 (refill_block now q) ≤ potential a r t0 t1 q.
Proof.
  intros Hs Hn. unfold refill_block. generalize (map fst (map_to_list (buckets q))). intros ks. revert q.
  induction ks as [|k ks IH]; intros q; simpl; [done|].
  etrans; [apply IH|by apply refill_one_potential].
Qed.

(** The compute units of a call are not negative. *)
Definition op_cu_ok (o : QuotaOp) : Prop := match o with QConsume _ cu _ => 0 ≤ cu | _ => True end.

Lemma quota_run_ok a os q :
  (∀ now, 0 ≤ quota_total a now) → (∀ now n, 0 ≤ slowed (quota_total a now) n) →
  Forall op_cu_ok os → bucket_ok a q → bucket_ok a (foldl quota_step q os).
Proof.
  intros Hq Hs Hops. revert q. induction Hops as [|o os Ho _ IH]; intros q Hok; [done|]. cbn [foldl]. apply IH.
  destruct o; [by apply try_consume_ok|by apply refill_block_ok].
Qed.

Lemma total_granted_potential a r t0 t1 os q :
  t0 ≤ t1 → (∀ now, 0 ≤ quota_total a now ≤ r) → (∀ now n, 0 ≤ slowed (quota_total a now) n ≤ r) →
  Forall (λ o, t0 ≤ op_block o ≤ t1 ∧ op_cu_ok o) os →
  bucket_ok a q → total_granted a q os ≤ potential a r t0 t1 q.
Proof.
  intros H01 Hq Hs. revert q. induction os as [|o os IH]; intros q Hall Hok.
  - simpl. unfold potential, bucket_ok in *. specialize (Hq 0). pose proof (capacity_fits a 0).
    destruct (buckets q !! a) as [b|]; [destruct (_ <? _)|]; nia.
  - apply list.Forall_cons in Hall as [[Ho Hcu] Hall]. cbn [total_granted]. destruct o as [a' cu now|now].
    + pose proof (try_consume_potential a a' cu now r t0 t1 q Hcu (Hq now) Ho) as Hp1.
      specialize (IH _ Hall (try_consume_ok a a' cu now q Hcu (proj1 (Hq now)) Hok)). cbn [quota_step]. lia.
    + pose proof (refill_block_potential a now r t0 t1 q (Hs now) Ho) as Hp1.
      specialize (IH _ Hall (refill_block_ok a now q (λ n, proj1 (Hs now n)) Hok)). cbn [granted quota_step]. lia.
Qed.

(** No state grants more than a full bucket and its refills. *)
Lemma potential_bound a r t0 t1 q : 0 ≤ r → t0 ≤ t1 → bucket_ok a q → potential a r t0 t1 q ≤ bucket_capacity a 0 + r * (t1 - t0).
Proof.
  intros Hr H01 Hok. unfold potential, bucket_ok in *. destruct (buckets q !! a) as [b|]; [|done].
  destruct (Z.ltb_spec (last_refill_block b) t0); [done|]. nia.
Qed.

End QuotaSpec.

(** ** The scheduler serves every sender in order *)

Lemma NoDup_fmap_elem {A B} (f : A → B) (l : list A) x y :
  NoDup (f <$> l) → x ∈ l → y ∈ l → f x = f y → x = y.
Proof.
  induction l as [|z l IH]; intros Hnd Hx Hy Heq; [by apply not_elem_of_nil in Hx|].
  rewrite fmap_cons in Hnd. apply list.NoDup_cons in Hnd as [Hz Hnd].
  apply elem_of_cons in Hx as [->|Hx], Hy as [->|Hy]; [done| | |by apply IH].
  - destruct Hz. rewrite Heq. by apply list_elem_of_fmap_2.
  - destruct Hz. rewrite <- Heq. by apply list_elem_of_fmap_2.
Qed.

Section WfqSpec.
Context `{VirtualTime F}.
Implicit Types (s : WfqScheduler F).

(** Every flow has a transaction and its head is announced in the heap; entries
    that name a transaction of their flow carry its finish time. *)
Record sched_wf s : Prop := {
  flow_nonempty : ∀ a fl, flows s !! a = Some fl → queue fl ≠ [];
  flow_announced : ∀ a fl x q, flows s !! a = Some fl → queue fl = x :: q → head_entry a x ∈ heap s;
  entry_finish : ∀ e fl x, e ∈ heap s → flows s !! eaddr e = Some fl → x ∈ queue fl →
    arrival_seq x = eseq e → vfinish x = efinish e;
  flow_distinct : ∀ a fl, flows s !! a = Some fl → NoDup (arrival_seq <$> queue fl);
  flow_sender : ∀ a fl x, flows s !! a = Some fl → x ∈ queue fl →
    arrival_seq x < next_seq s ∧ from (transaction (stx x)) = a;
  entry_seq : ∀ e, e ∈ heap s → eseq e < next_seq s
}.

Lemma sched_wf_new : sched_wf new_scheduler.
Proof.
  split; [intros a fl Hf|intros a fl x q Hf|intros e fl x Hf|intros a fl Hf|intros a fl x Hf|intros e Hf];
    simpl in Hf; (by rewrite lookup_empty in Hf) || (by apply not_elem_of_nil in Hf).
Qed.

Lemma insert_tx_flows tx now s :
  ∃ x fl, x = mkScheduled tx (next_seq s) (vstart x) (vfinish x) ∧
    fl = default (mkFlow [] (virtual_clock s)) (flows s !! from (transaction tx)) ∧
    flows (insert_tx tx now s) = <[from (transaction tx) := mkFlow (queue fl ++ [x]) (vfinish x)]> (flows s) ∧
    heap (insert_tx tx now s) = push_head (from (transaction tx)) (queue fl ++ [x]) (heap s).
Proof.
  set (fl := default (mkFlow [] (virtual_clock s)) (flows s !! from (transaction tx))).
  set (st := vmax (last_finish fl) (virtual_clock s)).
  exists (mkScheduled tx (next_seq s) st (finish_time st tx now)), fl. done.
Qed.

Lemma elem_of_push_head a q (h : list (HeapEntry F)) e :
  e ∈ push_head a q h ↔ e ∈ h ∨ ∃ x q', q = x :: q' ∧ e = head_entry a x.
Proof.
  unfold push_head. destruct q as [|x q]; [set_solver|]. rewrite elem_of_app, list_elem_of_singleton. naive_solver.
Qed.

Lemma sched_wf_insert tx now s : sched_wf s → next_seq s < u64_max → sched_wf (insert_tx tx now s).
Proof.
  intros [W1 W2 W3 W4 W5 W6] Hseq. destruct (insert_tx_flows tx now s) as (x & fl & Hx & Hfl & Hflows & Hheap).
  assert (next_seq (insert_tx tx now s) = next_seq s + 1) as Hns.
  { simpl. unfold saturating_add. lia. }
  set (a := from (transaction tx)) in *.
  assert (∀ y, y ∈ queue fl → arrival_seq y < next_seq s ∧ from (transaction (stx y)) = a) as Hold.
  { intros y Hy. subst fl. destruct (flows s !! a) as [fl|] eqn:Hf; [eauto|]. by apply not_elem_of_nil in Hy. }
  assert (arrival_seq x = next_seq s) as Hxs by (by rewrite Hx).
  assert (NoDup (arrival_seq <$> queue fl ++ [x])) as Hnd.
  { rewrite fmap_app. apply list.NoDup_app. split_and!.
    - subst fl. destruct (flows s !! a) eqn:Hf; [eauto|constructor].
    - intros z (y & -> & Hy)%list_elem_of_fmap Hz. apply list_elem_of_singleton in Hz. apply Hold in Hy. lia.
    - apply NoDup_singleton. }
  split; rewrite ?Hflows, ?Hheap, ?Hns.
  - intros b fl'. destruct (decide (b = a)) as [->|Hne].
    + rewrite lookup_insert_eq. intros [= <-]. simpl. by destruct (queue fl).
    + rewrite lookup_insert_ne by done. apply W1.
  - intros b fl' y q. destruct (decide (b = a)) as [->|Hne].
    + rewrite lookup_insert_eq. intros [= <-]. simpl. intros Hq. apply elem_of_push_head. right. eauto.
    + rewrite lookup_insert_ne by done. intros Hf Hq. apply elem_of_push_head. left. eauto.
  - intros e fl' y He Hf Hy Hs. apply elem_of_push_head in He.
    destruct (decide (eaddr e = a)) as [Ha|Hne].
    + rewrite Ha, lookup_insert_eq in Hf. injection Hf as <-. simpl in Hy.
      destruct He as [He|(z & q' & Hq & ->)].
      * pose proof (W6 e He) as Hlt. apply elem_of_app in Hy as [Hy|Hy].
        { subst fl. destruct (flows s !! a) as [fl|] eqn:Hf; [|by apply not_elem_of_nil in Hy].
          eapply W3; [done| |done|done]. by rewrite Ha. }
        { apply list_elem_of_singleton in Hy as ->. lia. }
      * simpl in Hs |- *. assert (y = z) as ->; [|done].
        assert (z ∈ queue fl ++ [x]) as Hz by (rewrite Hq; left).
        by apply (NoDup_fmap_elem arrival_seq (queue fl ++ [x])).
    + rewrite lookup_insert_ne in Hf by done. destruct He as [He|(z & q' & _ & ->)]; [eauto|done].
  - intros b fl'. destruct (decide (b = a)) as [->|Hne].
    + rewrite lookup_insert_eq. intros [= <-]. done.
    + rewrite lookup_insert_ne by done. apply W4.
  - intros b fl' y. destruct (decide (b = a)) as [->|Hne].
    + rewrite lookup_insert_eq. intros [= <-]. simpl. intros [Hy%Hold| ->%list_elem_of_singleton]%elem_of_app; [split; [lia|tauto]|].
      rewrite Hx. simpl. split; [lia|done].
    + rewrite lookup_insert_ne by done. intros Hf Hy. specialize (W5 _ _ _ Hf Hy). split; [lia|tauto].
  - intros e He%elem_of_push_head. destruct He as [He%W6|(z & q' & Hq & ->)]; [lia|]. simpl.
    assert (z ∈ queue fl ++ [x]) as [Hz%Hold| ->%list_elem_of_singleton]%elem_of_app by (rewrite Hq; left); lia.
Qed.

(** A heap entry that announces no head can be dropped. *)
Lemma sched_wf_drop s e h :
  sched_wf s → heap s ≡ₚ e :: h →
  (∀ fl x q, flows s !! eaddr e = Some fl → queue fl = x :: q → arrival_seq x ≠ eseq e) →
  sched_wf (mkWfq (virtual_clock s) (flows s) h (next_seq s)).
Proof.
  intros [W1 W2 W3 W4 W5 W6] Hp Hstale.
  assert (∀ y, y ∈ h → y ∈ heap s) as Hsub by (intros y Hy; rewrite Hp; by right).
  split; simpl; eauto. intros a fl x q Hf Hq. pose proof (W2 _ _ _ _ Hf Hq) as Hin. rewrite Hp in Hin.
  apply elem_of_cons in Hin as [<-|Hin]; [|done]. exfalso. by eapply (Hstale fl x q).
Qed.

(** Serving the head of a flow. *)
Definition served (a : Address) (x : ScheduledTx F) (q : list (ScheduledTx F)) (fl : Flow F)
    (m : gmap Address (Flow F)) : gmap Address (Flow F) :=
  match q with [] => delete a m | _ => <[a := mkFlow q (last_finish fl)]> m end.

Lemma served_lookup a x q fl m b fl' :
  served a x q fl m !! b = Some fl' →
  (b = a ∧ queue fl' = q ∧ q ≠ []) ∨ (b ≠ a ∧ m !! b = Some fl').
Proof.
  unfold served. destruct (decide (b = a)) as [->|Hne].
  - destruct q as [|y q]; [by rewrite lookup_delete_eq|]. rewrite lookup_insert_eq. intros [= <-]. by left.
  - destruct q; [rewrite lookup_delete_ne by done|rewrite lookup_insert_ne by done]; by right.
Qed.

Lemma sched_wf_serve s e h fl x q clock :
  sched_wf s → heap s ≡ₚ e :: h → flows s !! eaddr e = Some fl → queue fl = x :: q → arrival_seq x = eseq e →
  sched_wf (mkWfq clock (served (eaddr e) x q fl (flows s)) (push_head (eaddr e) q h) (next_seq s)).
Proof.
  intros [W1 W2 W3 W4 W5 W6] Hp Hf Hq Hseq.
  assert (∀ y, y ∈ h → y ∈ heap s) as Hsub by (intros y Hy; rewrite Hp; by right).
  assert (NoDup (arrival_seq <$> x :: q)) as Hnd by (rewrite <- Hq; eauto).
  assert (∀ y, y ∈ q → y ∈ queue fl) as Hqs by (intros y Hy; rewrite Hq; by right).
  split; simpl.
  - intros b fl' Hb. apply served_lookup in Hb as [(-> & -> & ?)|[_ Hb]]; [done|eauto].
  - intros b fl' y q' Hb Hq'. apply elem_of_push_head. apply served_lookup in Hb as [(-> & Heq & _)|[Hne Hb]].
    + right. exists y, q'. split; [congruence|done].
    + left. pose proof (W2 _ _ _ _ Hb Hq') as Hin. rewrite Hp in Hin.
      apply elem_of_cons in Hin as [Heq|Hin]; [|done]. by rewrite <- Heq in Hne.
  - intros e' fl' y He Hb Hy Hs. apply elem_of_push_head in He.
    apply served_lookup in Hb as [(Ha & Heq & _)|[Hne Hb]].
    + rewrite Heq in Hy. destruct He as [He|(z & q' & -> & ->)].
      * eapply W3; [by apply Hsub| |by apply Hqs|done]. by rewrite Ha.
      * simpl in Hs |- *. assert (y = z) as ->; [|done].
        apply (NoDup_fmap_elem arrival_seq (z :: q')); [|done|left|done]. by apply list.NoDup_cons in Hnd as [_ ?].
    + destruct He as [He|(z & q' & -> & ->)]; [eauto|done].
  - intros b fl' Hb. apply served_lookup in Hb as [(-> & -> & _)|[_ Hb]]; [|eauto].
    by apply list.NoDup_cons in Hnd as [_ ?].
  - intros b fl' y Hb Hy. apply served_lookup in Hb as [(-> & Heq & _)|[_ Hb]]; [|eauto].
    rewrite Heq in Hy. eauto.
  - intros e' He%elem_of_push_head. destruct He as [He|(z & q' & -> & ->)]; [eauto|]. simpl.
    eapply W5; [done|]. apply Hqs. left.
Qed.

(** What taking the next transaction must do: nothing is left, or the earliest
    head of a flow is taken from its flow. *)
Definition pop_post s (r : option SignedTransaction) s' : Prop :=
  match r with
  | None => flows s = ∅ ∧ flows s' = ∅
  | Some tx => ∃ a fl x q, flows s !! a = Some fl ∧ queue fl = x :: q ∧ tx = stx x ∧
      from (transaction tx) = a ∧ flows s' = served a x q fl (flows s) ∧
      ∀ a' fl' x' q', flows s !! a' = Some fl' → queue fl' = x' :: q' →
        entry_cmp (head_entry a' x') (head_entry a x) ≠ Gt
  end.

Context (pop : list (HeapEntry F) → option (HeapEntry F * list (HeapEntry F))).

(** What a heap promises. *)
Definition earliest_first : Prop :=
  ∀ l, match pop l with
       | None => l = []
       | Some (e, r) => l ≡ₚ e :: r ∧ ∀ y, y ∈ l → entry_cmp y e ≠ Gt
       end.

Lemma pop_loop_spec fuel s :
  earliest_first → sched_wf s → (length (heap s) < fuel)%nat →
  sched_wf (pop_loop pop fuel s).2 ∧ next_seq (pop_loop pop fuel s).2 = next_seq s ∧
  pop_post s (pop_loop pop fuel s).1 (pop_loop pop fuel s).2.
Proof.
  intros Hpop. revert s. induction fuel as [|fuel IH]; intros s Hwf Hfuel; [lia|].
  cbn [pop_loop]. pose proof (Hpop (heap s)) as Hp. destruct (pop (heap s)) as [[e h]|].
  - destruct Hp as [Hperm Hmin]. assert (length h < fuel)%nat as Hh.
    { apply Permutation_length in Hperm. simpl in Hperm. lia. }
    destruct (flows s !! eaddr e) as [fl|] eqn:Hf.
    + destruct (queue fl) as [|x q] eqn:Hq; [by destruct (flow_nonempty s Hwf _ _ Hf)|].
      destruct (Z.eqb_spec (arrival_seq x) (eseq e)) as [Hs|Hs]; cbn [negb].
      * split_and!; [by apply (sched_wf_serve s e h fl x q)|done|].
        assert (head_entry (eaddr e) x = e) as Hhe.
        { assert (e ∈ heap s) as He by (rewrite Hperm; left).
          pose proof (entry_finish s Hwf e fl x He Hf) as Hfin. rewrite Hq in Hfin. specialize (Hfin (list_elem_of_here _ _) Hs).
          unfold head_entry. rewrite Hfin, Hs. by destruct e. }
        exists (eaddr e), fl, x, q. split_and!; [done|done|done| |done|].
        { eapply flow_sender; [done|done|rewrite Hq; left]. }
        { intros a' fl' x' q' Hf' Hq'. rewrite Hhe. apply Hmin. by eapply flow_announced. }
      * apply (IH (mkWfq (virtual_clock s) (flows s) h (next_seq s))); [|done].
        apply (sched_wf_drop s e h Hwf Hperm). intros fl' x' q' ? ?. simplify_eq. congruence.
    + apply (IH (mkWfq (virtual_clock s) (flows s) h (next_seq s))); [|done].
      apply (sched_wf_drop s e h Hwf Hperm). intros fl' x' q' ?. congruence.
  - split_and!; [done|done|]. assert (flows s = ∅) as He; [|done].
    apply map_empty. intros a. destruct (flows s !! a) as [fl|] eqn:Hf; [|done].
    destruct (queue fl) as [|x q] eqn:Hq; [by destruct (flow_nonempty s Hwf _ _ Hf)|].
    pose proof (flow_announced s Hwf _ _ _ _ Hf Hq) as Hin. rewrite Hp in Hin. by apply not_elem_of_nil in Hin.
Qed.

Inductive SchedOp : Type := SInsert (tx : SignedTransaction) (now_block : Z) | SPop.

Definition sched_step s (o : SchedOp) : WfqScheduler F :=
  match o with SInsert tx now => insert_tx tx now s | SPop => (pop_next pop s).2 end.

Lemma sched_run ops s :
  earliest_first → sched_wf s → 0 ≤ next_seq s → next_seq s + Z.of_nat (length ops) ≤ u64_max →
  sched_wf (foldl sched_step s ops) ∧ next_seq (foldl sched_step s ops) ≤ next_seq s + Z.of_nat (length ops).
Proof.
  intros Hpop. revert s. induction ops as [|o ops IH]; intros s Hwf H0 Hlen; cbn [foldl length] in *; [split; [done|lia]|].
  assert (sched_wf (sched_step s o) ∧ next_seq s ≤ next_seq (sched_step s o) ≤ next_seq s + 1) as (Hwf' & Hs).
  { destruct o as [tx now|]; cbn [sched_step].
    - split; [apply sched_wf_insert; [done|lia]|]. simpl. unfold saturating_add. lia.
    - destruct (pop_loop_spec (S (length (heap s))) s Hpop Hwf) as (H1 & H2 & _); [lia|]. unfold pop_next. split; [done|lia]. }
  destruct (IH _ Hwf') as [? ?]; [lia|lia|]. split; [done|lia].
Qed.

End WfqSpec.

(** ** Accounting of pending compute units *)

Section AdmissionSpec.
Context `{QuotaProvider} `{VirtualTime F}.
Context (limit : Z).
Implicit Types (s : StaccAdmission F).

Definition queue_cu (q : list (ScheduledTx F)) : Z := foldr (λ x acc, tx_cu limit (stx x) + acc) 0 q.

Lemma queue_cu_app q1 q2 : queue_cu (q1 ++ q2) = queue_cu q1 + queue_cu q2.
Proof. induction q1 as [|x q IH]; simpl; [done|]. rewrite IH. lia. Qed.

(** The counters are the compute units of the queued transactions. *)
Record pending_ok s : Prop := {
  pending_sched : sched_wf (scheduler s);
  pending_addr : ∀ a, get0 (pending_cu_by_addr s) a = from_option (λ fl, queue_cu (queue fl)) 0 (flows (scheduler s) !! a);
  pending_total : pending_cu_total s = map_sum (λ _ fl, queue_cu (queue fl)) (flows (scheduler s))
}.

Definition tx_ok (tx : SignedTransaction) : Prop := 0 ≤ max_compute_units (transaction tx).

Definition all_ok (m : gmap Address (Flow F)) : Prop :=
  ∀ a fl x, m !! a = Some fl → x ∈ queue fl → tx_ok (stx x).

Lemma tx_cu_nonneg tx : 0 ≤ limit → tx_ok tx → 0 ≤ tx_cu limit tx.
Proof. unfold tx_ok, tx_cu, clamp_tx_cu. lia. Qed.

Lemma queue_cu_nonneg q : 0 ≤ limit → (∀ x, x ∈ q → tx_ok (stx x)) → 0 ≤ queue_cu q.
Proof.
  intros Hl. induction q as [|x q IH]; intros Hq; simpl; [lia|].
  assert (0 ≤ tx_cu limit (stx x)) by (apply tx_cu_nonneg; [done|apply Hq; left]).
  assert (0 ≤ queue_cu q) by (apply IH; intros y Hy; apply Hq; by right). lia.
Qed.

(** The outcome of [admit_tx]: refused without a trace but in the quota, or queued
    and counted. *)
Lemma admit_cases tx now s r s' :
  admit_tx limit tx now s = (r, s') →
  (is_ok r = false ∧ scheduler s' = scheduler s ∧ pending_cu_by_addr s' = pending_cu_by_addr s ∧
     pending_cu_total s' = pending_cu_total s ∧ enforce_quota s' = enforce_quota s) ∨
  (r = Ok () ∧ scheduler s' = insert_tx tx now (scheduler s) ∧ enforce_quota s' = enforce_quota s ∧
     pending_cu_by_addr s' = <[from (transaction tx) :=
       saturating_add u64_max (get0 (pending_cu_by_addr s) (from (transaction tx))) (tx_cu limit tx)]> (pending_cu_by_addr s) ∧
     pending_cu_total s' = saturating_add u64_max (pending_cu_total s) (tx_cu limit tx) ∧
     (enforce_quota s = true →
        saturating_add u64_max (get0 (pending_cu_by_addr s) (from (transaction tx))) (tx_cu limit tx) ≤
          max_pending_for_addr (from (transaction tx)) now)).
Proof.
  unfold admit_tx. rewrite gets_bind, fail_if_bind.
  destruct (_ && _); [intros [= <- <-]; by left|].
  unfold bindM, charge, check_caps, modify. destruct (enforce_quota s) eqn:He.
  - destruct (try_consume _ _ _ _) as [[u|e] q]; [|intros [= <- <-]; by left].
    unfold set_quota. cbn [enforce_quota pending_cu_by_addr pending_cu_total]. rewrite ?He.
    destruct (Z.ltb_spec (max_pending_for_addr (from (transaction tx)) now)
      (saturating_add u64_max (get0 (pending_cu_by_addr s) (from (transaction tx))) (tx_cu limit tx))) as [|Hle].
    { intros [= <- <-]. by left. }
    destruct (_ <? _); intros [= <- <-]; [by left|by right].
  - rewrite ?He. intros [= <- <-]. by right.
Qed.

Lemma pending_ok_admit tx now s :
  0 ≤ limit → tx_ok tx → all_ok (flows (scheduler s)) → pending_ok s → next_seq (scheduler s) < u64_max →
  pending_cu_total s + tx_cu limit tx ≤ u64_max →
  pending_ok (admit_tx limit tx now s).2 ∧ all_ok (flows (scheduler (admit_tx limit tx now s).2)) ∧
  pending_cu_total (admit_tx limit tx now s).2 ≤ pending_cu_total s + tx_cu limit tx.
Proof.
  intros Hl Htx Hall [Hwf Ha Ht] Hseq Hsat. pose proof (tx_cu_nonneg tx Hl Htx) as Hpos.
  destruct (admit_tx limit tx now s) as [r s'] eqn:Hadm.
  destruct (admit_cases _ _ _ _ _ Hadm) as [(_ & Hs & Hb & Htot & _)|(_ & Hs & _ & Hb & Htot & _)]; simpl.
  { split_and!; [split|by rewrite Hs|lia]; rewrite ?Hs, ?Hb, ?Htot; done. }
  set (a := from (transaction tx)) in *.
  destruct (insert_tx_flows tx now (scheduler s)) as (x & fl & Hx & Hfl & Hflows & _). fold a in Hfl, Hflows.
  assert (from_option (λ fl, queue_cu (queue fl)) 0 (flows (scheduler s) !! a) = queue_cu (queue fl)) as Hfa.
  { subst fl. by destruct (flows (scheduler s) !! a). }
  assert (stx x = tx) as Hxt by (by rewrite Hx).
  assert (queue_cu (queue fl ++ [x]) = queue_cu (queue fl) + tx_cu limit tx) as Hcu.
  { rewrite queue_cu_app. simpl. rewrite Hxt. lia. }
  assert (0 ≤ get0 (pending_cu_by_addr s) a ≤ pending_cu_total s) as Hle.
  { rewrite Ha, Ht. assert (∀ k v, flows (scheduler s) !! k = Some v → 0 ≤ queue_cu (queue v)) as Hn.
    { intros k v Hk. apply queue_cu_nonneg; [done|]. eauto. }
    destruct (flows (scheduler s) !! a) as [fl0|] eqn:Hf; simpl; [split; [by eapply Hn|]|split; [done|by apply map_sum_nonneg]].
    by apply (map_sum_lookup_le (λ _ fl, queue_cu (queue fl)) _ a). }
  split_and!; [split| |].
  - rewrite Hs. by apply sched_wf_insert.
  - intros b. rewrite Hs, Hb, Hflows. destruct (decide (b = a)) as [->|Hne].
    + rewrite get0_insert_eq, lookup_insert_eq. simpl. rewrite Hcu, Ha, Hfa. unfold saturating_add.
      rewrite Ha, Hfa in Hle. lia.
    + rewrite get0_insert_ne, lookup_insert_ne by done. apply Ha.
  - rewrite Hs, Htot, Hflows, map_sum_insert, Hfa. simpl. rewrite Hcu, <- Ht. unfold saturating_add. lia.
  - rewrite Hs, Hflows. intros b fl' y. destruct (decide (b = a)) as [->|Hne].
    + rewrite lookup_insert_eq. intros [= <-]. simpl. intros [Hy| ->%list_elem_of_singleton]%elem_of_app; [|by rewrite Hxt].
      subst fl. destruct (flows (scheduler s) !! a) as [fl|] eqn:Hf; [eauto|]. by apply not_elem_of_nil in Hy.
    + rewrite lookup_insert_ne by done. apply Hall.
  - rewrite Htot. unfold saturating_add. lia.
Qed.

Context (pop : list (HeapEntry F) → option (HeapEntry F * list (HeapEntry F))).

Lemma pending_ok_pop s :
  earliest_first pop → 0 ≤ limit → all_ok (flows (scheduler s)) → pending_ok s →
  pending_ok (admission_pop_next limit pop s).2 ∧ all_ok (flows (scheduler (admission_pop_next limit pop s).2)) ∧
  next_seq (scheduler (admission_pop_next limit pop s).2) = next_seq (scheduler s) ∧
  pending_cu_total (admission_pop_next limit pop s).2 ≤ pending_cu_total s.
Proof.
  intros Hpop Hl Hall [Hwf Ha Ht]. unfold admission_pop_next.
  destruct (pop_loop_spec pop (S (length (heap (scheduler s)))) (scheduler s) Hpop Hwf) as (Hwf' & Hseq & Hpost); [lia|].
  fold (pop_next pop (scheduler s)) in Hwf', Hseq, Hpost. destruct (pop_next pop (scheduler s)) as [[tx|] sched]; simpl in *.
  - destruct Hpost as (a & fl & x & q & Hf & Hq & -> & Hfrom & Hflows & _).
    assert (queue_cu (queue fl) = tx_cu limit (stx x) + queue_cu q) as Hcu by by rewrite Hq.
    assert (0 ≤ tx_cu limit (stx x)) as Hx by (apply tx_cu_nonneg; [done|]; eapply Hall; [done|]; rewrite Hq; left).
    assert (0 ≤ queue_cu q) as Hqn.
    { apply queue_cu_nonneg; [done|]. intros y Hy. eapply Hall; [done|]. rewrite Hq. by right. }
    assert (get0 (pending_cu_by_addr s) a = tx_cu limit (stx x) + queue_cu q) as Hga by (rewrite Ha, Hf; done).
    assert (tx_cu limit (stx x) + queue_cu q ≤ pending_cu_total s) as Hle.
    { rewrite <- Hcu, Ht. apply (map_sum_lookup_le (λ _ fl, queue_cu (queue fl)) _ a); [|done].
      intros k v Hk. apply queue_cu_nonneg; [done|]. eauto. }
    split_and!; [split| | |]; simpl.
    + done.
    + intros b. rewrite Hflows, Hfrom. unfold get0 in *. destruct (decide (b = a)) as [->|Hne].
      * rewrite lookup_alter_eq. unfold served. destruct q as [|y q].
        { rewrite lookup_delete_eq. destruct (pending_cu_by_addr s !! a) as [n|];
            cbn [default from_option fmap option_fmap option_map id queue_cu foldr] in *; unfold saturating_sub; lia. }
        { rewrite lookup_insert_eq. destruct (pending_cu_by_addr s !! a) as [n|];
            cbn [default from_option fmap option_fmap option_map id queue] in *; unfold saturating_sub; lia. }
      * rewrite lookup_alter_ne by done. rewrite Ha. unfold served.
        destruct q; [by rewrite lookup_delete_ne|by rewrite lookup_insert_ne].
    + rewrite Hflows. unfold served, saturating_sub. destruct q as [|y q].
      * rewrite map_sum_delete, Hf. cbn [from_option]. rewrite Hcu, <- Ht. simpl in *. lia.
      * rewrite map_sum_insert, Hf. cbn [from_option queue]. rewrite Hcu, <- Ht. lia.
    + intros b fl' y Hb Hy. rewrite Hflows in Hb. apply served_lookup in Hb as [(-> & Hq' & _)|[_ Hb]]; [|eauto].
      eapply Hall; [done|]. rewrite Hq. right. by rewrite <- Hq'.
    + done.
    + unfold saturating_sub. lia.
  - destruct Hpost as [He1 He2]. split_and!; [split| | |]; simpl; rewrite ?He2 in *; rewrite ?He1 in *; try done; lia.
Qed.

(** ** Nothing is released without [pop_next] *)

Lemma max_pending_bound a now r :
  0 ≤ quota_total a now ≤ r → max_pending_for_addr a now ≤ Z.max (2 * r) FLOOR_PENDING ∧ max_pending_for_addr a now < u64_max.
Proof.
  intros Hq. unfold max_pending_for_addr, wrapping_mul. set (q := quota_total a now) in *.
  assert ((2 * q) mod (u64_max + 1) ≤ 2 * q) by (apply Z.mod_le; unfold u64_max; lia).
  split; [lia|]. unfold FLOOR_PENDING.
  assert ((2 * q) mod (u64_max + 1) = 2 * (q mod 9223372036854775808)) as ->.
  { change (u64_max + 1) with (2 * 9223372036854775808). apply Z.mul_mod_distr_l; lia. }
  pose proof (Z.mod_pos_bound q 9223372036854775808). unfold u64_max. lia.
Qed.

(** While quotas are enforced, the counter of a sender grows by every admitted
    transaction and never passes its cap. *)
Lemma admit_pending a r tx now s :
  0 ≤ limit → tx_ok tx → enforce_quota s = true → (∀ now, 0 ≤ quota_total a now ≤ r) →
  get0 (pending_cu_by_addr s) a ≤ Z.max (2 * r) FLOOR_PENDING →
  enforce_quota (admit_tx limit tx now s).2 = true ∧
  get0 (pending_cu_by_addr (admit_tx limit tx now s).2) a ≤ Z.max (2 * r) FLOOR_PENDING ∧
  get0 (pending_cu_by_addr (admit_tx limit tx now s).2) a =
    get0 (pending_cu_by_addr s) a +
    (if is_ok (admit_tx limit tx now s).1 && (from (transaction tx) =? a) then tx_cu limit tx else 0).
Proof.
  intros Hl Htx He Hq Hb. pose proof (tx_cu_nonneg tx Hl Htx) as Hpos.
  destruct (admit_tx limit tx now s) as [res s'] eqn:Hadm. cbn [fst snd].
  destruct (admit_cases _ _ _ _ _ Hadm) as [(Hr & _ & Hp & _ & He')|(-> & _ & He' & Hp & _ & Hcap)].
  - rewrite Hr, Hp, He'. cbn [andb]. split_and!; [done|done|lia].
  - rewrite He', Hp. cbn [is_ok andb]. specialize (Hcap He).
    destruct (Z.eqb_spec (from (transaction tx)) a) as [<-|Ha].
    + rewrite get0_insert_eq. destruct (max_pending_bound (from (transaction tx)) now r (Hq now)) as [H1 H2].
      unfold saturating_add in *. split_and!; [done|lia|lia].
    + rewrite get0_insert_ne by done. split_and!; [done|done|lia].
Qed.

End AdmissionSpec.

(** ** An instance *)

(** Senders without stake, as with [ZeroStakeProvider] and [FixedAgeProvider] of
    the node. *)
#[export] Instance no_stake : QuotaProvider := {
  stake_of _ := 0;
  total_stake := 0;
  scaled_base base _ _ := base;
  stake_share _ _ := 0;
  slowed refill _ := refill
}.

(** Virtual times as integers, all weights 1. *)
#[export] Instance integer_time : VirtualTime Z := {
  vzero := 0;
  vmax := Z.max;
  vcmp := Z.compare;
  finish_time start tx _ := start + max_compute_units (transaction tx)
}.

Fixpoint pop_greatest (l : list (HeapEntry Z)) : option (HeapEntry Z * list (HeapEntry Z)) :=
  match l with
  | [] => None
  | x :: l' =>
      match pop_greatest l' with
      | None => Some (x, [])
      | Some (y, r) => match entry_cmp y x with Gt => Some (y, x :: r) | _ => Some (x, l') end
      end
  end.

Lemma entry_cmp_spec (a b : HeapEntry Z) :
  entry_cmp a b ≠ Gt ↔
  efinish b < efinish a ∨ (efinish b = efinish a ∧ (eseq b < eseq a ∨ (eseq b = eseq a ∧ eaddr b ≤ eaddr a))).
Proof.
  unfold entry_cmp. simpl. destruct (Z.compare_spec (efinish b) (efinish a)); [|split; [intros _; lia|done]|split; [done|lia]].
  destruct (Z.compare_spec (eseq b) (eseq a)); [|split; [intros _; lia|done]|split; [done|lia]].
  destruct (Z.compare_spec (eaddr b) (eaddr a)); split; (done || lia).
Qed.

Lemma pop_greatest_earliest : earliest_first pop_greatest.
Proof.
  intros l. induction l as [|x l IH]; [done|]. cbn [pop_greatest].
  destruct (pop_greatest l) as [[y r]|].
  - destruct IH as [Hperm Hmax]. destruct (entry_cmp y x) eqn:Hyx.
    1,2: assert (entry_cmp y x ≠ Gt) as Hx by congruence; split; [done|]; intros z [->|Hz]%elem_of_cons;
      [apply entry_cmp_spec; lia|]; specialize (Hmax z Hz); rewrite entry_cmp_spec in Hmax, Hx |- *; lia.
    split; [by rewrite Hperm; apply Permutation_swap|]. intros z [->|Hz]%elem_of_cons; [|by apply Hmax].
    destruct (decide (entry_cmp x y = Gt)) as [Hxy|]; [exfalso|done].
    assert (¬ entry_cmp y x ≠ Gt) as H1 by (intros Hn; by apply Hn).
    assert (¬ entry_cmp x y ≠ Gt) as H2 by (intros Hn; by apply Hn).
    rewrite entry_cmp_spec in H1, H2. lia.
  - subst. split; [done|]. intros z ->%list_elem_of_singleton. apply entry_cmp_spec. lia.
Qed.

(** A transaction of sender [a] with nonce [n] and [cu] compute units. *)
Definition cu_tx (a n cu : Z) : SignedTransaction :=
  mkSigned (mkTransaction Transfer a 9 1 n cu None Qvm [] 0 0 [] [] 1) n 0.

(** ** Claims *)

(** C27. Token buckets limit the rate in every window.  After any history of [try_consume] calls
    and refills for all senders, whatever the order of the calls and refills that follow at
    blocks between [t0] and [t1], a sender is granted at most one full bucket and one refill
    per elapsed block, where [r] bounds its quota: an idle sender saves up no more than a bucket.  The stake
    of the sender does not change meanwhile. *)
Theorem quota_rate_limit `{QuotaProvider} (a : Address) (history os : list QuotaOp) r t0 t1
    (Htime : t0 ≤ t1)
    (Hquota : ∀ now, 0 ≤ quota_total a now ≤ r) (Hslow : ∀ now n, 0 ≤ slowed (quota_total a now) n ≤ r)
    (Hhistory : Forall op_cu_ok history)
    (Hops : Forall (λ o, t0 ≤ op_block o ≤ t1 ∧ op_cu_ok o) os) :
  total_granted a (foldl quota_step new_quota history) os ≤ bucket_capacity a 0 + r * (t1 - t0).
Proof.
  assert (Hok : bucket_ok a (foldl quota_step new_quota history)).
  { apply quota_run_ok; [intros now; by apply Hquota|intros now n; by apply Hslow|done|done]. }
  etrans; [by apply total_granted_potential|]. apply potential_bound; [|done..]. specialize (Hquota 0). lia.
Qed.

(** Every sender of the basic tier, with 10000 units per block. *)
Definition basic_stake : QuotaProvider := {|
  stake_of _ := 10;
  total_stake := 0;
  scaled_base base _ _ := base;
  stake_share _ _ := 0;
  slowed refill _ := refill
|}.

(** A sender that used its bucket in block 1 and was idle for 50 refills has again one bucket, and in the
    blocks 60 to 62 is granted 92000 units. *)
Lemma quota_rate_limit_witness :
  let history := replicate 9 (QConsume 7 10000 1) ++ map (λ n, QRefill (Z.of_nat n)) (seq 2 50) in
  let os := replicate 9 (QConsume 7 10000 60) ++ [QRefill 61; QConsume 8 10 61; QConsume 7 10000 61; QConsume 7 10000 62; QConsume 7 2000 62; QConsume 7 10000 62] in
  total_granted (H := basic_stake) 7 (foldl (quota_step (H := basic_stake)) new_quota history) os = 92000 ∧
  total_granted (H := basic_stake) 7 (foldl (quota_step (H := basic_stake)) new_quota history) os ≤ bucket_capacity (H := basic_stake) 7 0 + 10000 * (62 - 60).
Proof.
  intros history os. split; [vm_compute; reflexivity|]. apply (quota_rate_limit (H := basic_stake)).
  - lia.
  - intros now. vm_compute. split; discriminate.
  - intros now n. vm_compute. split; discriminate.
  - unfold history. repeat (apply list.Forall_cons; split; [simpl; lia || exact I|]). apply list.Forall_nil. exact I.
  - unfold os. repeat (apply list.Forall_cons; split; [simpl; lia|]). apply list.Forall_nil. exact I.
Defined.

(** Fair queueing.  After any sequence of insertions and removals,
    [pop_next] ends, and returns nothing exactly when no transaction waits.
    Otherwise it removes the oldest transaction of one sender, leaves all others in
    place and in order, and no other sender's oldest transaction comes before it in
    the order of the heap (finish time, then arrival).  Stale heap entries do no
    harm.  Insertion appends to the queue of the sender. *)
Theorem scheduler_fifo_fair `{VirtualTime F} pop (ops : list SchedOp)
    (Hpop : earliest_first pop) (Hlen : Z.of_nat (length ops) + 1 ≤ u64_max) :
  let s := foldl (sched_step pop) new_scheduler ops in
  pop_post s (pop_next pop s).1 (pop_next pop s).2 ∧
  (flows s ≠ ∅ → is_Some (pop_next pop s).1) ∧
  ∀ tx now, let a := from (transaction tx) in
    ∃ x lf, stx x = tx ∧ flows (insert_tx tx now s) =
      <[a := mkFlow (from_option queue [] (flows s !! a) ++ [x]) lf]> (flows s).
Proof.
  intros s. destruct (sched_run pop ops new_scheduler Hpop sched_wf_new) as [Hwf _]; [done|simpl; lia|]. fold s in Hwf.
  destruct (pop_loop_spec pop (S (length (heap s))) s Hpop Hwf) as (_ & _ & Hpost); [lia|].
  fold (pop_next pop s) in Hpost. split_and!; [done| |].
  - intros Hne. destruct (pop_next pop s) as [[tx|] s']; [eauto|]. by destruct Hpost.
  - intros tx now a. destruct (insert_tx_flows tx now s) as (x & fl & Hx & -> & -> & _). exists x, (vfinish x).
    split; [by rewrite Hx|]. fold a. by destruct (flows s !! a).
Qed.

Lemma scheduler_fifo_fair_witness :
  let s := foldl (sched_step pop_greatest) new_scheduler
    [SInsert (cu_tx 1 0 50) 1; SInsert (cu_tx 1 1 50) 1; SInsert (cu_tx 2 0 10) 1; SPop; SInsert (cu_tx 2 1 90) 1] in
  (pop_next pop_greatest s).1 = Some (cu_tx 1 0 50) ∧ is_Some (pop_next pop_greatest s).1.
Proof.
  intros s. split; [vm_compute; reflexivity|].
  destruct (scheduler_fifo_fair pop_greatest
    [SInsert (cu_tx 1 0 50) 1; SInsert (cu_tx 1 1 50) 1; SInsert (cu_tx 2 0 10) 1; SPop; SInsert (cu_tx 2 1 90) 1])
    as (_ & H1 & _).
  - exact pop_greatest_earliest.
  - vm_compute. discriminate.
  - apply H1. intros He. apply (f_equal (lookup 1)) in He. vm_compute in He. discriminate.
Defined.

(** The operations of the admission and the compute units they can add. *)
Inductive AdmitOp : Type := AAdmit (tx : SignedTransaction) (now_block : Z) | APop.

Definition admit_step `{QuotaProvider} `{VirtualTime F} (limit : Z) pop (s : StaccAdmission F) (o : AdmitOp) : StaccAdmission F :=
  match o with
  | AAdmit tx now => (admit_tx limit tx now s).2
  | APop => (admission_pop_next limit pop s).2
  end.

Definition op_cu (limit : Z) (o : AdmitOp) : Z :=
  match o with AAdmit tx _ => tx_cu limit tx | APop => 0 end.

Lemma admit_run `{QuotaProvider} `{VirtualTime F} limit pop ops (s : StaccAdmission F) :
  earliest_first pop → 0 ≤ limit →
  Forall (λ o, match o with AAdmit tx _ => tx_ok tx | APop => True end) ops →
  pending_ok limit s → all_ok (flows (scheduler s)) → 0 ≤ next_seq (scheduler s) →
  next_seq (scheduler s) + Z.of_nat (length ops) ≤ u64_max →
  pending_cu_total s + foldr (λ o acc, op_cu limit o + acc) 0 ops ≤ u64_max →
  pending_ok limit (foldl (admit_step limit pop) s ops).
Proof.
  intros Hpop Hl. revert s. induction ops as [|o ops IH]; intros s Hok Hp Hall Hpos Hseq Hcu; [done|].
  apply list.Forall_cons in Hok as [Ho Hok]. cbn [foldl foldr length] in *. destruct o as [tx now|].
  - assert (0 ≤ foldr (λ o acc, op_cu limit o + acc) 0 ops) as Hrest.
    { clear -Hok Hl. induction ops as [|o ops IH]; simpl; [lia|]. apply list.Forall_cons in Hok as [Ho Hok].
      specialize (IH Hok). destruct o; simpl; [|lia]. pose proof (tx_cu_nonneg limit tx Hl Ho). lia. }
    cbn [op_cu] in Hcu. destruct (pending_ok_admit limit tx now s Hl Ho Hall Hp) as (H1 & H2 & H3); [lia|lia|].
    destruct (admit_cases limit tx now s (admit_tx limit tx now s).1 (admit_tx limit tx now s).2) as
      [(_ & Hs & _)|(_ & Hs & _)]; [by destruct (admit_tx limit tx now s)| |].
    + apply IH; cbn [admit_step]; try done; rewrite ?Hs; lia.
    + apply IH; cbn [admit_step]; try done; rewrite ?Hs; simpl; unfold saturating_add; lia.
  - destruct (pending_ok_pop limit pop s Hpop Hl Hall Hp) as (H1 & H2 & H3 & H4). cbn [op_cu] in Hcu.
    apply IH; cbn [admit_step]; try done; rewrite ?H3; lia.
Qed.

(** Pending compute units are accounted for.  After any sequence of
    admissions (refused ones included) and removals, as long as the sum of all
    compute units fits a [u64], the counter of every sender and the total are
    exactly the compute units of the queued transactions. *)
Theorem pending_accounted `{QuotaProvider} `{VirtualTime F} limit pop ledger q require enforce (ops : list AdmitOp)
    (Hpop : earliest_first pop) (Hl : 0 ≤ limit)
    (Hok : Forall (λ o, match o with AAdmit tx _ => tx_ok tx | APop => True end) ops)
    (Hlen : Z.of_nat (length ops) + 1 ≤ u64_max)
    (Hcu : foldr (λ o acc, op_cu limit o + acc) 0 ops ≤ u64_max) :
  let s := foldl (admit_step limit pop) (new_with_policy ledger q require enforce) ops in
  (∀ a, get0 (pending_cu_by_addr s) a = from_option (λ fl, queue_cu limit (queue fl)) 0 (flows (scheduler s) !! a)) ∧
  pending_cu_total s = map_sum (λ _ fl, queue_cu limit (queue fl)) (flows (scheduler s)).
Proof.
  intros s. destruct (admit_run limit pop ops (new_with_policy ledger q require enforce) Hpop Hl Hok)
    as [_ Hc1 Hc2]; [| |simpl; lia|simpl; lia|simpl; lia|done].
  - split; [apply sched_wf_new| |done]. intros a. simpl. unfold get0. by rewrite !lookup_empty.
  - intros a fl x Hf. simpl in Hf. by rewrite lookup_empty in Hf.
Qed.

Lemma pending_accounted_witness :
  let s := foldl (admit_step 100 pop_greatest) (new_with_policy (activate 1 0 ∅) new_quota true true)
    [AAdmit (cu_tx 1 0 50) 1; AAdmit (cu_tx 2 0 10) 1; AAdmit (cu_tx 1 1 70) 1; APop] in
  pending_cu_total s = 70 ∧ get0 (pending_cu_by_addr s) 1 = from_option (λ fl, queue_cu 100 (queue fl)) 0 (flows (scheduler s) !! 1).
Proof.
  intros s. split; [vm_compute; reflexivity|].
  apply (pending_accounted 100 pop_greatest (activate 1 0 ∅) new_quota true true
    [AAdmit (cu_tx 1 0 50) 1; AAdmit (cu_tx 2 0 10) 1; AAdmit (cu_tx 1 1 70) 1; APop]).
  - exact pop_greatest_earliest.
  - lia.
  - repeat (apply list.Forall_cons; split; [unfold tx_ok; simpl; try exact I; lia|]). apply list.Forall_nil. exact I.
  - vm_compute. discriminate.
  - vm_compute. discriminate.
Defined.

(** A bucket whose numbers are [u64] and whose tokens fit its capacity. *)
Definition bucket_typed (b : Bucket) : Prop :=
  0 ≤ tokens b ≤ capacity b ∧ capacity b ≤ u64_max ∧ fits u64_max (last_refill_block b).

(** A count of burns is a [u32] and its block a [u64]. *)
Definition burns_typed (e : Z * Z) : Prop := fits u32_max e.1 ∧ fits u64_max e.2.

Definition quota_typed (q : QuotaManager) : Prop :=
  map_Forall (λ _, bucket_typed) (buckets q) ∧ map_Forall (λ _, burns_typed) (burns q).

Definition op_typed (o : QuotaOp) : Prop :=
  fits u64_max (op_block o) ∧ match o with QConsume _ cu _ => fits u64_max cu | QRefill _ => True end.

Section Typed.
Context `{QuotaProvider}.
Context (Hrefill : ∀ a now, 0 ≤ quota_total a now) (Hslowed : ∀ r n, 0 ≤ r → 0 ≤ slowed r n).

Lemma refill_to_typed a refill now b :
  bucket_typed b → 0 ≤ refill → fits u64_max now → bucket_typed (refill_to (bucket_capacity a now) refill now b).
Proof.
  intros [Ht [Hc Hl]] Hr Hn. pose proof (capacity_fits a now). unfold refill_to, saturating_add, bucket_typed.
  destruct (_ <=? _); simpl; split_and!; try done; lia.
Qed.

Lemma ensure_bucket_typed a now q : fits u64_max now → quota_typed q → quota_typed (ensure_bucket a now q).
Proof.
  intros Hn [Hb Hu]. unfold ensure_bucket. destruct (buckets q !! a); [done|]. split; simpl.
  - apply map_Forall_insert_2; [|done]. pose proof (capacity_fits a now). unfold bucket_typed. simpl. split_and!; try done; lia.
  - destruct (burns q !! a); [done|]. apply map_Forall_insert_2; [|done]. split; vm_compute; split; discriminate.
Qed.

Lemma note_burn_typed a cu cap now bs :
  fits u64_max now → map_Forall (λ _, burns_typed) bs → map_Forall (λ _, burns_typed) (note_burn a cu cap now bs).
Proof.
  intros Hn Hb. unfold note_burn. destruct (_ <=? _); [|done]. apply map_Forall_insert_2; [|done].
  split; [|done]. simpl. apply saturating_add_fits; [done| |done]. destruct (bs !! a) as [e|] eqn:He; [|done].
  by apply Hb in He as [[? _] _].
Qed.

Lemma refill_one_typed now q a : fits u64_max now → quota_typed q → quota_typed (refill_one now q a).
Proof.
  intros Hn [Hb Hu]. unfold refill_one. destruct (default (0, 0) (burns q !! a)) as [n lb] eqn:Hd. split; simpl.
  - intros k b. destruct (decide (k = a)) as [->|Hne].
    + rewrite lookup_alter_eq. intros (b0 & Hb0 & ->)%fmap_Some. apply refill_to_typed; [by eapply Hb|auto|done].
    + rewrite lookup_alter_ne by done. apply Hb.
  - destruct (Z.ltb_spec 0 n); cbn [andb]; [|done]. destruct (_ <? _); [|done]. apply map_Forall_insert_2; [|done].
    split; [|done]. simpl. destruct (burns q !! a) as [e|] eqn:He; simpl in Hd; [subst e|simplify_eq; lia].
    apply Hu in He as [[? ?] _]. simpl in *. unfold fits, saturating_sub. lia.
Qed.

Lemma quota_step_typed q o : op_typed o → quota_typed q → quota_typed (quota_step q o).
Proof.
  intros [Hn Hcu] Hq. destruct o as [a cu now|now]; cbn [quota_step op_block] in *.
  - rewrite try_consume_eq. cbn zeta. destruct (ensure_bucket_typed a now q Hn Hq) as [Hb Hu].
    destruct (_ <? _); [done|]. destruct (buckets (ensure_bucket a now q) !! a) as [b|] eqn:Hba; [|done].
    pose proof (refill_to_typed a (quota_total a now) now b (Hb a b Hba) (Hrefill a now) Hn) as Ht.
    unfold bucket_try_consume. set (b1 := refill_to _ _ _ b) in *. pose proof Hcu as [Hc0 _].
    destruct (Z.ltb_spec (tokens b1) cu); (split; [apply map_Forall_insert_2; [|done]|by apply note_burn_typed]); [done|].
    destruct Ht as [? [? ?]]. unfold bucket_typed. simpl. split_and!; try done; lia.
  - unfold refill_block. generalize (map fst (map_to_list (buckets q))). intros ks. revert q Hq.
    induction ks as [|k ks IH]; intros q Hq; simpl; [done|]. apply IH. by apply refill_one_typed.
Qed.

End Typed.

(** C30. The quotas keep their types.  After any sequence of calls with [u64]
    arguments every bucket holds between 0 and its capacity of tokens, the
    subtraction in [try_consume] never wraps, capacities and blocks are [u64] and
    burn counts [u32]. *)
Theorem quotas_well_typed `{QuotaProvider} (os : list QuotaOp)
    (Hrefill : ∀ a now, 0 ≤ quota_total a now) (Hslowed : ∀ r n, 0 ≤ r → 0 ≤ slowed r n)
    (Hops : Forall op_typed os) :
  let q := foldl quota_step new_quota os in
  map_Forall (λ _ b, 0 ≤ tokens b ≤ capacity b ∧ capacity b ≤ u64_max ∧ fits u64_max (last_refill_block b)) (buckets q) ∧
  map_Forall (λ _ e, fits u32_max e.1 ∧ fits u64_max e.2) (burns q).
Proof.
  enough (∀ q, quota_typed q → quota_typed (foldl quota_step q os)) as Hrun.
  { apply Hrun. split; apply map_Forall_empty. }
  induction Hops as [|o os Ho Hops IH]; intros q Hq; [done|]. apply IH. by apply quota_step_typed.
Qed.

Lemma quotas_well_typed_witness :
  let q := foldl quota_step new_quota [QConsume 7 9000 1; QConsume 8 20000 1; QRefill 2; QConsume 7 500 3] in
  tokens <$> buckets q !! 7 = Some 62500 ∧
  map_Forall (λ _ e, fits u32_max e.1 ∧ fits u64_max e.2) (burns q).
Proof.
  intros q. split; [vm_compute; reflexivity|].
  apply (quotas_well_typed [QConsume 7 9000 1; QConsume 8 20000 1; QRefill 2; QConsume 7 500 3]).
  - intros a now. vm_compute. discriminate.
  - intros r n Hr. exact Hr.
  - repeat (apply list.Forall_cons; split; [split; [vm_compute; split; discriminate|try exact I; vm_compute; split; discriminate]|]).
    apply list.Forall_nil. exact I.
Defined.
