(* ===== verification/Ingress.v ===== *)
(** * Transaction ingress and vertex assembly

    Models [src/L1/src/network/prefilter.rs] (the filter in front of signature
    checks) and [src/L1/src/dag/ingress.rs] (the buffer of incoming transactions and
    the builder that turns it into the payload of a vertex), on top of the admission
    of Stacc.v.

    The filter is one object for the whole process; the model keeps it in the buffer.
    bincode, SHA3-256, the signature check, the nonce in the state, and the
    floating-point parts of the admission are arguments.  Calls are sequential: each
    atomic counter is changed together with its channel. *)

From S2P Require Import Prelude Bytes Transaction Stacc.

#[local] Arguments Nat.div : simpl never.
#[local] Arguments Nat.modulo : simpl never.

(** ** The filter *)

Record Prefilter : Type := mkPrefilter {
  bits : list Z;
  size_bits : Z
}.

Definition new_prefilter (size : Z) : Prefilter := mkPrefilter (replicate (Z.to_nat ((size + 63) / 64)) 0) size.

Definition bit_index (p : Prefilter) (h : Z) : Z := h mod size_bits p.

Definition insert_hash (h : Z) (p : Prefilter) : Prefilter :=
  let idx := bit_index p h in
  let w := Z.to_nat (idx / 64) in
  mkPrefilter (<[w := Z.lor (default 0 (bits p !! w)) (Z.shiftl 1 (idx mod 64))]> (bits p)) (size_bits p).

Definition contains_hash (p : Prefilter) (h : Z) : bool :=
  let idx := bit_index p h in
  negb (Z.land (default 0 (bits p !! Z.to_nat (idx / 64))) (Z.shiftl 1 (idx mod 64)) =? 0).

(** Eight different bytes among the first 64. *)
Fixpoint distinct_bytes (bs : list Z) (seen : gset Z) (distinct : Z) : bool :=
  match bs with
  | [] => false
  | b :: bs' =>
      if bool_decide (b ∈ seen) then distinct_bytes bs' seen distinct
      else if 8 <=? distinct + 1 then true
      else distinct_bytes bs' ({[b]} ∪ seen) (distinct + 1)
  end.

Definition entropy_ok (data : list Z) : bool :=
  if Z.of_nat (length data) <? 8 then false else distinct_bytes (take 64 data) ∅ 0.

(** The first eight bytes of the hash. *)
Definition short_hash (sha3 : list Z → Hash) (payload : list Z) : Z :=
  of_le_bytes (take 8 (hash_bytes (sha3 payload))).

Definition check_transaction_bytes (sha3 : list Z → Hash) (payload : list Z) : M Prefilter string () :=
  fail_if (Z.of_nat (length payload) <? 64) "payload too small" ?;
  fail_if (256 * 1024 <? Z.of_nat (length payload)) "payload too large" ?;
  let short := short_hash sha3 payload in
  p <-? gets (λ p, p);
  fail_if (contains_hash p short) "duplicate or repeated payload" ?;
  fail_if (negb (entropy_ok payload)) "low entropy payload" ?;
  modify (insert_hash short).

Definition PREFILTER : Prefilter := new_prefilter 65536.

(** ** The ingress buffer *)

Definition INGRESS_BUFFER_SIZE : Z := 10000.

Record TxIngressBuffer : Type := mkIngress {
  shards : gmap Z (list SignedTransaction);
  nonce_cache : gmap Address Z;
  pubkey_cache : gmap Address (list Z);
  total_pending : Z;
  pending_by_shard : gmap Z Z;
  prefilter : Prefilter
}.

Definition shard_ids (num_shards : Z) : list Z := map Z.of_nat (seq 0 (Z.to_nat num_shards)).

Definition new_ingress (num_shards : Z) : TxIngressBuffer :=
  mkIngress (list_to_map (map (λ i, (i, [])) (shard_ids num_shards))) ∅ ∅ 0
    (list_to_map (map (λ i, (i, 0)) (shard_ids num_shards))) PREFILTER.

Definition set_prefilter (p : Prefilter) (b : TxIngressBuffer) : TxIngressBuffer :=
  mkIngress (shards b) (nonce_cache b) (pubkey_cache b) (total_pending b) (pending_by_shard b) p.
Definition set_pubkeys (m : gmap Address (list Z)) (b : TxIngressBuffer) : TxIngressBuffer :=
  mkIngress (shards b) (nonce_cache b) m (total_pending b) (pending_by_shard b) (prefilter b).
Definition set_nonces (m : gmap Address Z) (b : TxIngressBuffer) : TxIngressBuffer :=
  mkIngress (shards b) m (pubkey_cache b) (total_pending b) (pending_by_shard b) (prefilter b).

Section Ingress.
Context (serialize : SignedTransaction → option (list Z)).
Context (sha3 : list Z → Hash).
Context (verify : list Z → list Z → list Z → bool).
Context (get_nonce : Address → option Z).

(** A step of [ingest]: [Err] is the early [return false]. *)
Abbreviation IN A := (M TxIngressBuffer () A).

Definition run_prefilter (payload : list Z) : IN () :=
  λ b, match check_transaction_bytes sha3 payload (prefilter b) with
       | (Ok _, p) => (Ok (), set_prefilter p b)
       | (Err _, p) => (Err (), set_prefilter p b)
       end.

(** The key to verify with: the one attached, which is also cached, or the cached
    one. *)
Definition find_key (tx : Transaction) : IN (list Z) :=
  match public_key tx with
  | [] => λ b, (ok_or (pubkey_cache b !! from tx) (), b)
  | pk => modify (λ b, set_pubkeys (<[from tx := pk]> (pubkey_cache b)) b) ?; returns pk
  end.

Definition check_nonce (tx : Transaction) : IN () :=
  b <-? gets (λ b, b);
  if nonce tx =? get0 (nonce_cache b) (from tx) then returns ()
  else
    let state_nonce := default 0 (get_nonce (from tx)) in
    fail_if (negb (nonce tx =? state_nonce)) () ?;
    modify (λ b, set_nonces (<[from tx := state_nonce]> (nonce_cache b)) b).

(** [try_send] on the channel of the shard, and the counters. *)
Definition route (tx : SignedTransaction) : IN () :=
  b <-? gets (λ b, b);
  let shard := shard_id (transaction tx) in
  match shards b !! shard with
  | None => throw ()
  | Some q =>
      fail_if (INGRESS_BUFFER_SIZE <=? Z.of_nat (length q)) () ?;
      modify (λ b, mkIngress (<[shard := q ++ [tx]]> (shards b)) (nonce_cache b) (pubkey_cache b)
        (wrapping_add u64_max (total_pending b) 1)
        (alter (λ n, wrapping_add u64_max n 1) shard (pending_by_shard b)) (prefilter b))
  end.

Definition ingest_steps (tx : SignedTransaction) : IN () :=
  tx_bytes <-? lift (ok_or (serialize tx) ());
  run_prefilter tx_bytes ?;
  pk <-? find_key (transaction tx);
  fail_if (negb (verify pk (signing_data (transaction tx)) (signature (transaction tx)))) () ?;
  check_nonce (transaction tx) ?;
  route tx.

Definition ingest (tx : SignedTransaction) (b : TxIngressBuffer) : bool * TxIngressBuffer :=
  let '(r, b') := ingest_steps tx b in (is_ok r, b').

(** [try_recv] while fewer than [limit] transactions are taken. *)
Definition drain_shard (shard limit : Z) (b : TxIngressBuffer) : list SignedTransaction * TxIngressBuffer :=
  match shards b !! shard with
  | None => ([], b)
  | Some q =>
      let txs := take (Z.to_nat limit) q in
      let n := Z.of_nat (length txs) in
      (txs, mkIngress (<[shard := drop (Z.to_nat limit) q]> (shards b)) (nonce_cache b) (pubkey_cache b)
        (wrapping_sub u64_max (total_pending b) n)
        (alter (λ c, wrapping_sub u64_max c n) shard (pending_by_shard b)) (prefilter b))
  end.

Definition shard_count (b : TxIngressBuffer) : Z := Z.of_nat (size (shards b)).
Definition pending_for_shard (b : TxIngressBuffer) (shard : Z) : Z := get0 (pending_by_shard b) shard.
Definition get_pending_for_shard (b : TxIngressBuffer) (shard limit : Z) : list SignedTransaction := [].

End Ingress.

(** ** Assembling a vertex *)

Definition priority_score (tx : SignedTransaction) : Z :=
  let fee := amount (transaction tx) in
  let cu := Z.max (max_compute_units (transaction tx)) 1 in
  let boosted := match boost (transaction tx) with Some b => locked_tokens b | None => 0 end in
  saturating_mul u128_max
    (saturating_add u128_max (saturating_mul u128_max boosted 10) (saturating_mul u128_max fee 2)) 1000000 / cu.

(** [sort_by(|a, b| b.1.cmp(&a.1))]: stable, highest score first. *)
Fixpoint insert_scored (tx : SignedTransaction) (l : list SignedTransaction) : list SignedTransaction :=
  match l with
  | [] => [tx]
  | y :: l' => if priority_score y <=? priority_score tx then tx :: y :: l' else y :: insert_scored tx l'
  end.

Definition sort_scored (l : list SignedTransaction) : list SignedTransaction := foldr insert_scored [] l.

Record Selection : Type := mkSelection {
  selected : list SignedTransaction;
  expected_nonce : gmap Address Z;
  account_locks : gset Address;
  resource_locks : gset Hash
}.

Definition no_selection : Selection := mkSelection [] ∅ ∅ ∅.

Section Builder.
Context `{QuotaProvider} `{VirtualTime F}.
Context (limit : Z).
Context (sha3 : list Z → Hash).
Context (encode : Address → Address → list Z → list Z).
Context (get_nonce : Address → option Z).

Definition resource_conflict_key (tx : SignedTransaction) : Hash :=
  sha3 (encode (from (transaction tx)) (to (transaction tx)) (data (transaction tx))).

(** The choice for one admitted transaction. *)
Definition select_one (tx : SignedTransaction) (sel : Selection) : Selection :=
  let sender := from (transaction tx) in
  let exp := match expected_nonce sel !! sender with Some n => n | None => default 0 (get_nonce sender) end in
  let sel1 := mkSelection (selected sel) (<[sender := exp]> (expected_nonce sel)) (account_locks sel) (resource_locks sel) in
  if negb (nonce (transaction tx) =? exp) then sel1
  else
    let receiver := to (transaction tx) in
    if bool_decide (sender ∈ account_locks sel) || bool_decide (receiver ∈ account_locks sel) then sel1
    else
      let rkey := resource_conflict_key tx in
      if bool_decide (rkey ∈ resource_locks sel) then sel1
      else
        mkSelection (selected sel ++ [tx]) (<[sender := wrapping_add u64_max exp 1]> (expected_nonce sel1))
          ({[receiver]} ∪ ({[sender]} ∪ account_locks sel)) ({[rkey]} ∪ resource_locks sel).

Definition consider (now_block : Z) (acc : Selection * StaccAdmission F) (tx : SignedTransaction)
    : Selection * StaccAdmission F :=
  let '(r, stacc') := admit_tx limit tx now_block acc.2 in
  match r with
  | Err _ => (acc.1, stacc')
  | Ok _ => (select_one tx acc.1, stacc')
  end.

Record VertexBuilder : Type := mkBuilder {
  ingress : TxIngressBuffer;
  stacc : StaccAdmission F;
  batch_size : Z
}.

Definition new_builder (b : TxIngressBuffer) (s : StaccAdmission F) : VertexBuilder := mkBuilder b s 10000.

Definition build_vertex_payload (shard now_block : Z) (vb : VertexBuilder) : list SignedTransaction * VertexBuilder :=
  let '(raw_txs, ingress') := drain_shard shard (batch_size vb) (ingress vb) in
  let '(sel, stacc') := foldl (consider now_block) (no_selection, stacc vb) (sort_scored raw_txs) in
  (selected sel, mkBuilder ingress' stacc' (batch_size vb)).

End Builder.
Arguments VertexBuilder : clear implicits.
Arguments mkBuilder {F}. Arguments ingress {F}. Arguments stacc {F}. Arguments batch_size {F}.

(** ** The filter forgets nothing *)

Record prefilter_wf (p : Prefilter) : Prop := {
  pf_size : 0 < size_bits p;
  pf_words : Z.of_nat (length (bits p)) = (size_bits p + 63) / 64
}.

Lemma new_prefilter_wf size : 0 < size → prefilter_wf (new_prefilter size).
Proof.
  intros Hs. split; [done|]. simpl. rewrite length_replicate, Z2Nat.id; [done|].
  apply Z.div_pos; lia.
Qed.

(** The mark at an index. *)
Definition marked_at (p : Prefilter) (i : Z) : bool :=
  Z.testbit (default 0 (bits p !! Z.to_nat (i / 64))) (i mod 64).

Lemma land_bit w k : 0 ≤ k → (Z.land w (Z.shiftl 1 k) =? 0) = negb (Z.testbit w k).
Proof.
  intros Hk. rewrite Z.shiftl_1_l. destruct (Z.eqb_spec (Z.land w (2 ^ k)) 0) as [H0|H0]; symmetry.
  - apply negb_true_iff. assert (Z.testbit (Z.land w (2 ^ k)) k = false) as Ht by (rewrite H0; apply Z.bits_0).
    rewrite Z.land_spec, Z.pow2_bits_true in Ht by done. by rewrite andb_true_r in Ht.
  - apply negb_false_iff. destruct (Z.testbit w k) eqn:Ht; [done|]. destruct H0. apply Z.bits_inj. intros n.
    rewrite Z.land_spec, Z.bits_0, Z.pow2_bits_eqb by done.
    destruct (Z.eqb_spec k n) as [<-|]; [by rewrite Ht|apply andb_false_r].
Qed.

Lemma contains_marked p h : contains_hash p h = marked_at p (bit_index p h).
Proof.
  unfold contains_hash, marked_at. rewrite land_bit by (apply Z.mod_pos_bound; lia). apply negb_involutive.
Qed.

Lemma marked_insert p h i :
  prefilter_wf p → 0 ≤ i < size_bits p →
  marked_at (insert_hash h p) i = bool_decide (i = bit_index p h) || marked_at p i.
Proof.
  intros [Hs Hw] Hi. unfold marked_at, insert_hash. cbn [bits].
  set (j := bit_index p h). assert (0 ≤ j < size_bits p) as Hj by (apply Z.mod_pos_bound; lia).
  assert (∀ x, 0 ≤ x < size_bits p → (Z.to_nat (x / 64) < length (bits p))%nat) as Hlt.
  { intros x Hx. apply Nat2Z.inj_lt. rewrite Hw, Z2Nat.id by (apply Z.div_pos; lia).
    apply Z.div_lt_upper_bound; [lia|]. pose proof (Z.mul_succ_div_gt (size_bits p + 63) 64). lia. }
  pose proof (Z.div_mod i 64). pose proof (Z.div_mod j 64).
  pose proof (Z.mod_pos_bound i 64). pose proof (Z.mod_pos_bound j 64).
  assert (0 ≤ i / 64 ∧ 0 ≤ j / 64) as [? ?] by (split; apply Z.div_pos; lia).
  destruct (decide (i / 64 = j / 64)) as [Heq|Hne].
  - rewrite Heq. rewrite list_lookup_insert_eq by (apply Hlt; lia). cbn [default from_option id].
    rewrite Z.lor_spec, Z.shiftl_1_l, Z.pow2_bits_eqb, orb_comm by lia. f_equal.
    destruct (Z.eqb_spec (j mod 64) (i mod 64)), (bool_decide_reflect (i = j)); try done; lia.
  - rewrite list_lookup_insert_ne by lia. rewrite bool_decide_eq_false_2; [done|]. intros ->. done.
Qed.

(** The marked indices. *)
Definition marks (p : Prefilter) : gset Z :=
  list_to_set (filter (λ i, marked_at p i = true) (seqZ 0 (size_bits p))).

Lemma elem_of_marks p i : i ∈ marks p ↔ 0 ≤ i < size_bits p ∧ marked_at p i = true.
Proof. unfold marks. rewrite elem_of_list_to_set, list_elem_of_filter, elem_of_seqZ. lia || naive_solver lia. Qed.

Lemma marks_bound p : 0 ≤ size_bits p → Z.of_nat (size (marks p)) ≤ size_bits p.
Proof.
  intros Hs. unfold marks.
  assert (size (list_to_set (filter (λ i, marked_at p i = true) (seqZ 0 (size_bits p))) : gset Z) ≤
    length (seqZ 0 (size_bits p)))%nat as Hle.
  { rewrite size_list_to_set by (apply list.NoDup_filter, NoDup_seqZ). apply length_filter. }
  rewrite length_seqZ in Hle. lia.
Qed.

Lemma insert_hash_marks p h :
  prefilter_wf p → prefilter_wf (insert_hash h p) ∧ size_bits (insert_hash h p) = size_bits p ∧
  marks (insert_hash h p) = {[bit_index p h]} ∪ marks p.
Proof.
  intros Hwf. split_and!; [|done|].
  - destruct Hwf as [H1 H2]. split; [done|]. simpl. by rewrite length_insert.
  - apply set_eq. intros i. rewrite elem_of_union, elem_of_singleton, !elem_of_marks.
    change (size_bits (insert_hash h p)) with (size_bits p). split.
    + intros [Hi Hm]. rewrite marked_insert in Hm by done. apply orb_true_iff in Hm as [Hm%bool_decide_eq_true|Hm]; auto.
    + intros [->|[Hi Hm]].
      * assert (0 ≤ bit_index p h < size_bits p) as Hj by (apply Z.mod_pos_bound; apply Hwf). split; [done|].
        rewrite marked_insert by done. by rewrite bool_decide_eq_true_2.
      * split; [done|]. rewrite marked_insert by done. rewrite Hm. apply orb_true_r.
Qed.

(** The filter either refuses and stays as it is, or marks a new index. *)
Lemma check_bytes_marks sha3 payload p :
  prefilter_wf p →
  let '(r, p') := check_transaction_bytes sha3 payload p in
  prefilter_wf p' ∧ size_bits p' = size_bits p ∧ marks p ⊆ marks p' ∧
  match r with
  | Ok _ => bit_index p (short_hash sha3 payload) ∈ marks p' ∧ size (marks p') = S (size (marks p))
  | Err _ => p' = p
  end.
Proof.
  intros Hwf. unfold check_transaction_bytes. rewrite fail_if_bind.
  destruct (_ <? 64); [done|]. rewrite fail_if_bind. destruct (_ <? _); [done|]. rewrite gets_bind, fail_if_bind.
  destruct (contains_hash p (short_hash sha3 payload)) eqn:Hc; [done|]. rewrite fail_if_bind.
  destruct (negb (entropy_ok payload)); [done|]. unfold modify.
  destruct (insert_hash_marks p (short_hash sha3 payload) Hwf) as (H1 & H2 & H3). rewrite H3.
  split_and!; [done|done|set_solver|set_solver|].
  rewrite size_union by (rewrite disjoint_singleton_l, elem_of_marks, <- contains_marked, Hc; naive_solver).
  by rewrite size_singleton.
Qed.

(** A payload whose index is marked is refused. *)
Lemma marked_refused sha3 payload p :
  prefilter_wf p → bit_index p (short_hash sha3 payload) ∈ marks p →
  is_ok (check_transaction_bytes sha3 payload p).1 = false.
Proof.
  intros Hwf [_ Hm]%elem_of_marks. unfold check_transaction_bytes. rewrite fail_if_bind.
  destruct (_ <? 64); [done|]. rewrite fail_if_bind. destruct (_ <? _); [done|]. rewrite gets_bind, fail_if_bind.
  by rewrite contains_marked, Hm.
Qed.

(** ** Counters *)

Record ingress_ok (b : TxIngressBuffer) : Prop := {
  ing_prefilter : prefilter_wf (prefilter b);
  ing_shards : Z.of_nat (size (shards b)) ≤ u16_max + 1;
  ing_full : ∀ i q, shards b !! i = Some q → Z.of_nat (length q) ≤ INGRESS_BUFFER_SIZE;
  ing_counter : ∀ i, pending_by_shard b !! i = (λ q, Z.of_nat (length q)) <$> shards b !! i;
  ing_total : total_pending b = map_sum (λ _ q, Z.of_nat (length q)) (shards b)
}.

Lemma map_sum_le_size `{Countable K} {V} (f : V → Z) (m : gmap K V) c :
  (∀ k v, m !! k = Some v → f v ≤ c) → map_sum (λ _, f) m ≤ c * Z.of_nat (size m).
Proof.
  induction m as [|k v m Hk IH] using map_ind; intros Hc; [rewrite map_sum_empty, map_size_empty; lia|].
  rewrite map_sum_insert_fresh, map_size_insert_None by done.
  assert (f v ≤ c) by (apply (Hc k), lookup_insert_eq).
  assert (map_sum (λ _, f) m ≤ c * Z.of_nat (size m)); [|lia].
  apply IH. intros k' v' Hk'. apply (Hc k'). rewrite lookup_insert_ne; [done|congruence].
Qed.

Lemma drain_ok shard limit b : ingress_ok b → ingress_ok (drain_shard shard limit b).2.
Proof.
  intros [Hwf Hn Hf Hc Ht]. unfold drain_shard. destruct (shards b !! shard) as [q|] eqn:Hq; [|done].
  cbn [snd]. set (k := Z.to_nat limit).
  assert (length (take k q) + length (drop k q) = length q)%nat as Hsplit by (rewrite <- length_app, take_drop; done).
  pose proof (Hf shard q Hq) as Hlen.
  assert (Z.of_nat (length q) ≤ map_sum (λ _ q, Z.of_nat (length q)) (shards b)) as Hle.
  { apply (map_sum_lookup_le (λ _ q, Z.of_nat (length q)) _ shard); [intros; lia|done]. }
  assert (map_sum (λ _ q, Z.of_nat (length q)) (shards b) ≤ 10000 * 65536) as Hsum.
  { pose proof (map_sum_le_size (λ q, Z.of_nat (length q)) (shards b) INGRESS_BUFFER_SIZE Hf).
    unfold INGRESS_BUFFER_SIZE, u16_max in *. lia. }
  split; cbn [shards pending_by_shard total_pending prefilter]; [done| | | |].
  - rewrite map_size_insert_Some by eauto. done.
  - intros i q'. destruct (decide (i = shard)) as [->|Hne].
    + rewrite lookup_insert_eq. intros [= <-]. lia.
    + rewrite lookup_insert_ne by done. apply Hf.
  - intros i. destruct (decide (i = shard)) as [->|Hne].
    + rewrite lookup_alter_eq, lookup_insert_eq, Hc, Hq. cbn. f_equal.
      unfold wrapping_sub, INGRESS_BUFFER_SIZE, u64_max in *. rewrite Z.mod_small; lia.
    + by rewrite lookup_alter_ne, lookup_insert_ne.
  - rewrite Ht, map_sum_insert, Hq. cbn [from_option].
    unfold wrapping_sub, u64_max. rewrite Z.mod_small; lia.
Qed.

Lemma new_ingress_ok n : 0 ≤ n ≤ u16_max → ingress_ok (new_ingress n).
Proof.
  intros Hn.
  assert (∀ {A} (a : A) i, (list_to_map (map (λ i, (i, a)) (shard_ids n)) : gmap Z A) !! i =
    if decide (i ∈ shard_ids n) then Some a else None) as Hl.
  { intros A a i. generalize (shard_ids n). intros ids. induction ids as [|j ids IH]; simpl; [by rewrite lookup_empty|].
    destruct (decide (i = j)) as [->|Hne].
    - rewrite lookup_insert_eq, decide_True by left. done.
    - rewrite lookup_insert_ne, IH by done. repeat case_decide; set_solver. }
  split; cbn [new_ingress shards pending_by_shard total_pending prefilter].
  - by apply new_prefilter_wf.
  - assert (size (list_to_map (map (λ i, (i, [])) (shard_ids n)) : gmap Z (list SignedTransaction)) ≤ length (shard_ids n))%nat as Hs.
    { generalize (shard_ids n). intros ids. induction ids as [|j ids IH]; simpl; [by rewrite map_size_empty|].
      rewrite map_size_insert. case_match; unfold id; lia. }
    assert (length (shard_ids n) = Z.to_nat n) as Hids by (unfold shard_ids; by rewrite length_map, length_seq).
    rewrite Hids in Hs. unfold u16_max in *. lia.
  - intros i q. rewrite Hl. case_decide; [|done]. intros [= <-]. simpl. unfold INGRESS_BUFFER_SIZE. lia.
  - intros i. rewrite !Hl. by case_decide.
  - symmetry. generalize (shard_ids n). intros ids. induction ids as [|j ids IH]; simpl; [apply map_sum_empty|].
    rewrite map_sum_insert, IH. simpl. destruct (_ !! j) as [q|] eqn:Hj; [|done]. simpl.
    enough (q = []) as -> by done. clear -Hj. induction ids as [|k ids IH]; simpl in Hj; [by rewrite lookup_empty in Hj|].
    apply lookup_insert_Some in Hj as [[_ <-]|[_ Hj]]; eauto.
Qed.

Lemma drain_prefilter shard limit b : prefilter (drain_shard shard limit b).2 = prefilter b.
Proof. unfold drain_shard. by destruct (shards b !! shard). Qed.

(** ** The buffer *)

Section IngressSpec.
Context (serialize : SignedTransaction → option (list Z)).
Context (sha3 : list Z → Hash).
Context (verify : list Z → list Z → list Z → bool).
Context (get_nonce : Address → option Z).

Abbreviation receive := (ingest serialize sha3 verify get_nonce).

(** What every step of [ingest] before the routing keeps. *)
Definition same_queues (b b' : TxIngressBuffer) : Prop :=
  shards b' = shards b ∧ total_pending b' = total_pending b ∧ pending_by_shard b' = pending_by_shard b.

Lemma find_key_cases tx b :
  ∃ r b', find_key tx b = (r, b') ∧ same_queues b b' ∧ prefilter b' = prefilter b ∧ nonce_cache b' = nonce_cache b ∧
    (public_key tx ≠ [] → r = Ok (public_key tx) ∧ pubkey_cache b' !! from tx = Some (public_key tx)) ∧
    (public_key tx = [] → r = ok_or (pubkey_cache b !! from tx) () ∧ pubkey_cache b' = pubkey_cache b).
Proof.
  unfold find_key. destruct (public_key tx) as [|x pk].
  - eexists _, b. split_and!; try done.
  - unfold bindM, modify, returns. eexists _, _. split; [done|]. simpl. rewrite lookup_insert_eq. split_and!; try done.
Qed.

Lemma check_nonce_same tx b :
  same_queues b (check_nonce get_nonce tx b).2 ∧ prefilter (check_nonce get_nonce tx b).2 = prefilter b ∧
  pubkey_cache (check_nonce get_nonce tx b).2 = pubkey_cache b.
Proof.
  unfold check_nonce. rewrite gets_bind. destruct (_ =? _); [done|]. rewrite fail_if_bind. by destruct (negb _).
Qed.

Lemma route_cases tx b :
  let shard := shard_id (transaction tx) in
  route tx b = (Err (), b) ∨
  ∃ q, shards b !! shard = Some q ∧ Z.of_nat (length q) < INGRESS_BUFFER_SIZE ∧
    route tx b = (Ok (), mkIngress (<[shard := q ++ [tx]]> (shards b)) (nonce_cache b) (pubkey_cache b)
      (wrapping_add u64_max (total_pending b) 1)
      (alter (λ n, wrapping_add u64_max n 1) shard (pending_by_shard b)) (prefilter b)).
Proof.
  unfold route. rewrite gets_bind. destruct (shards b !! shard_id (transaction tx)) as [q|]; [|by left].
  rewrite fail_if_bind. destruct (Z.leb_spec INGRESS_BUFFER_SIZE (Z.of_nat (length q))); [by left|].
  right. exists q. done.
Qed.

(** The outcome of [ingest]: refused with the queues unchanged, or appended to the
    queue of its shard. *)
Lemma ingest_cases tx b :
  prefilter_wf (prefilter b) →
  let shard := shard_id (transaction tx) in
  let '(ok, b') := receive tx b in
  prefilter_wf (prefilter b') ∧ size_bits (prefilter b') = size_bits (prefilter b) ∧
  ((ok = false ∧ same_queues b b' ∧ (size (marks (prefilter b)) ≤ size (marks (prefilter b')))%nat) ∨
   (ok = true ∧ size (marks (prefilter b')) = S (size (marks (prefilter b))) ∧
    ∃ q, shards b !! shard = Some q ∧ Z.of_nat (length q) < INGRESS_BUFFER_SIZE ∧
      shards b' = <[shard := q ++ [tx]]> (shards b) ∧
      total_pending b' = wrapping_add u64_max (total_pending b) 1 ∧
      pending_by_shard b' = alter (λ n, wrapping_add u64_max n 1) shard (pending_by_shard b))).
Proof.
  intros Hwf shard. unfold ingest, ingest_steps. unfold bindM at 1, lift.
  destruct (serialize tx) as [payload|]; cbn [ok_or]; [|split_and!; [done|done|left; split_and!; done]].
  unfold bindM at 1, run_prefilter. pose proof (check_bytes_marks sha3 payload (prefilter b) Hwf) as Hp.
  destruct (check_transaction_bytes sha3 payload (prefilter b)) as [[[]|e] p'].
  2: { destruct Hp as (H1 & H2 & _ & ->). split_and!; [done|done|left; split_and!; done]. }
  destruct Hp as (H1 & H2 & _ & _ & H3). set (b1 := set_prefilter p' b).
  destruct (find_key_cases (transaction tx) b1) as (r & b2 & Hk & Hq2 & Hp2 & _ & _).
  unfold bindM at 1. rewrite Hk. destruct r as [pk|e].
  2: { split_and!; [by rewrite Hp2|by rewrite Hp2|]. left. split_and!; [done|apply Hq2..|rewrite Hp2; simpl; lia]. }
  rewrite fail_if_bind. destruct (negb _).
  { split_and!; [by rewrite Hp2|by rewrite Hp2|]. left. split_and!; [done|apply Hq2..|rewrite Hp2; simpl; lia]. }
  unfold bindM. destruct (check_nonce_same (transaction tx) b2) as (Hq3 & Hp3 & _).
  destruct (check_nonce get_nonce (transaction tx) b2) as [[[]|e] b3]; cbn [fst snd] in *.
  2: { rewrite Hp3, Hp2. split_and!; [done|done|]. left. split_and!; [done|..]; [|simpl; lia].
    destruct Hq2 as (? & ? & ?), Hq3 as (? & ? & ?). unfold same_queues. simpl in *. split_and!; congruence. }
  destruct Hq2 as (Q1 & Q2 & Q3), Hq3 as (R1 & R2 & R3). rewrite Q1 in R1. rewrite Q2 in R2. rewrite Q3 in R3.
  destruct (route_cases tx b3) as [->|(q & Hsq & Hlen & ->)]; cbn [is_ok prefilter].
  - rewrite Hp3, Hp2. split_and!; [done|done|]. left. split_and!; [done|done|simpl; lia].
  - rewrite Hp3, Hp2. split_and!; [done|done|]. right. split_and!; [done|done|]. exists q.
    cbn [shards total_pending pending_by_shard]. rewrite R1, R2, R3. rewrite R1 in Hsq. done.
Qed.

Inductive IngressOp : Type := IIngest (tx : SignedTransaction) | IDrain (shard limit : Z).

Definition ingress_step (b : TxIngressBuffer) (o : IngressOp) : TxIngressBuffer :=
  match o with
  | IIngest tx => (receive tx b).2
  | IDrain shard limit => (drain_shard shard limit b).2
  end.

(** The number of transactions that a history accepts. *)
Fixpoint accepted (b : TxIngressBuffer) (ops : list IngressOp) : Z :=
  match ops with
  | [] => 0
  | o :: ops' =>
      (match o with IIngest tx => if (receive tx b).1 then 1 else 0 | IDrain _ _ => 0 end)
      + accepted (ingress_step b o) ops'
  end.

Lemma accepted_bound ops b :
  prefilter_wf (prefilter b) →
  Z.of_nat (size (marks (prefilter b))) + accepted b ops ≤ size_bits (prefilter b).
Proof.
  revert b. induction ops as [|o ops IH]; intros b Hwf; cbn [accepted].
  - pose proof (marks_bound (prefilter b)). destruct Hwf. lia.
  - destruct o as [tx|shard limit]; cbn [ingress_step].
    + pose proof (ingest_cases tx b Hwf) as Hi. destruct (receive tx b) as [ok b']; cbn [fst snd].
      destruct Hi as (Hwf' & Hs & [(-> & _ & Hle)|(-> & Hle & _)]); specialize (IH b' Hwf'); lia.
    + specialize (IH (drain_shard shard limit b).2). rewrite drain_prefilter in IH. specialize (IH Hwf). lia.
Qed.

Lemma ingest_ok tx b : ingress_ok b → ingress_ok (receive tx b).2.
Proof.
  intros [Hwf Hn Hf Hc Ht]. pose proof (ingest_cases tx b Hwf) as Hi. destruct (receive tx b) as [ok b']; cbn [snd].
  destruct Hi as (Hwf' & Hs & [(_ & (S1 & S2 & S3) & _)|(_ & _ & q & Hq & Hlen & S1 & S2 & S3)]).
  { split; rewrite ?S1, ?S2, ?S3; done. }
  assert (map_sum (λ _ q, Z.of_nat (length q)) (shards b) ≤ 10000 * 65536) as Hsum.
  { pose proof (map_sum_le_size (λ q, Z.of_nat (length q)) (shards b) INGRESS_BUFFER_SIZE Hf).
    unfold INGRESS_BUFFER_SIZE, u16_max in *. lia. }
  assert (0 ≤ map_sum (λ _ q, Z.of_nat (length q)) (shards b)) as Hpos by (apply map_sum_nonneg; intros; lia).
  set (shard := shard_id (transaction tx)) in *.
  split; rewrite ?S1, ?S2, ?S3; [done| | | |].
  - rewrite map_size_insert_Some by eauto. done.
  - intros i q'. destruct (decide (i = shard)) as [->|Hne].
    + rewrite lookup_insert_eq. intros [= <-]. rewrite length_app. simpl. lia.
    + rewrite lookup_insert_ne by done. apply Hf.
  - intros i. destruct (decide (i = shard)) as [->|Hne].
    + rewrite lookup_alter_eq, lookup_insert_eq, Hc, Hq. cbn. f_equal. rewrite length_app. simpl.
      unfold wrapping_add, INGRESS_BUFFER_SIZE, u64_max in *. rewrite Z.mod_small; lia.
    + by rewrite lookup_alter_ne, lookup_insert_ne.
  - rewrite Ht, map_sum_insert, Hq. cbn [from_option]. rewrite length_app. simpl.
    unfold wrapping_add, u64_max. rewrite Z.mod_small; lia.
Qed.

End IngressSpec.

(** ** The payload of a vertex *)

Lemma insert_scored_perm tx l : insert_scored tx l ≡ₚ tx :: l.
Proof.
  induction l as [|y l IH]; simpl; [done|]. destruct (_ <=? _); [done|]. rewrite IH. apply Permutation_swap.
Qed.

Lemma sort_scored_perm l : sort_scored l ≡ₚ l.
Proof. induction l as [|x l IH]; simpl; [done|]. by rewrite insert_scored_perm, IH. Qed.

(** The accounts a transaction locks. *)
Definition touched (tx : SignedTransaction) : gset Address := {[from (transaction tx); to (transaction tx)]}.

(** Transactions of a list touch different accounts. *)
Definition independent (l : list SignedTransaction) : Prop :=
  ∀ i j x y, l !! i = Some x → l !! j = Some y → i ≠ j → touched x ## touched y.

Lemma independent_snoc l tx :
  independent l → (∀ x, x ∈ l → touched x ## touched tx) → independent (l ++ [tx]).
Proof.
  intros Hl Htx i j x y Hi Hj Hne. apply lookup_snoc_Some in Hi, Hj.
  destruct Hi as [[_ Hi]|[-> <-]], Hj as [[_ Hj]|[-> <-]]; [by eapply Hl| | |done].
  - apply Htx. by eapply list_elem_of_lookup_2.
  - symmetry. apply Htx. by eapply list_elem_of_lookup_2.
Qed.

Section BuilderSpec.
Context `{QuotaProvider} `{VirtualTime F}.
Context (limit : Z) (sha3 : list Z → Hash) (encode : Address → Address → list Z → list Z).
Context (get_nonce : Address → option Z).

Record selection_ok (cands : list SignedTransaction) (sel : Selection) : Prop := {
  sel_independent : independent (selected sel);
  sel_locked : ∀ x, x ∈ selected sel → touched x ⊆ account_locks sel;
  sel_nonce : ∀ x, x ∈ selected sel → nonce (transaction x) = default 0 (get_nonce (from (transaction x)));
  sel_expected : ∀ a n, expected_nonce sel !! a = Some n → a ∉ account_locks sel → n = default 0 (get_nonce a);
  sel_cands : ∀ x, x ∈ selected sel → x ∈ cands
}.

(** [select_one] adds the transaction or leaves the choice as it is. *)
Lemma select_one_ok cands tx sel :
  selection_ok cands sel → tx ∈ cands →
  selection_ok cands (select_one sha3 encode get_nonce tx sel) ∧
  (selected (select_one sha3 encode get_nonce tx sel) = selected sel ∨
   selected (select_one sha3 encode get_nonce tx sel) = selected sel ++ [tx]).
Proof.
  intros [S1 S2 S3 S4 S5] Htx. unfold select_one.
  set (a := from (transaction tx)). set (b := to (transaction tx)).
  set (exp := match expected_nonce sel !! a with Some n => n | None => default 0 (get_nonce a) end).
  set (sel1 := mkSelection (selected sel) (<[a := exp]> (expected_nonce sel)) (account_locks sel) (resource_locks sel)).
  assert (a ∉ account_locks sel → exp = default 0 (get_nonce a)) as Hexp.
  { intros Ha. unfold exp. destruct (expected_nonce sel !! a) as [n|] eqn:Hn; [by apply S4|done]. }
  assert (selection_ok cands sel1 ∧ (selected sel1 = selected sel ∨ selected sel1 = selected sel ++ [tx])) as Hsel1.
  { split; [|by left]. split; simpl; try done. intros c n. destruct (decide (c = a)) as [->|Hne].
    - rewrite lookup_insert_eq. intros [= <-]. apply Hexp.
    - rewrite lookup_insert_ne by done. apply S4. }
  destruct (Z.eqb_spec (nonce (transaction tx)) exp) as [Hn|]; cbn [negb]; [|done].
  destruct (bool_decide_reflect (a ∈ account_locks sel)) as [|Ha]; cbn [orb]; [done|].
  destruct (bool_decide_reflect (b ∈ account_locks sel)) as [|Hb]; [done|].
  case_bool_decide as Hr; [done|]. split; [|by right]. split; simpl.
  - apply independent_snoc; [done|]. intros x Hx%S2. unfold touched. fold a b. set_solver.
  - intros x [Hx%S2| ->%list_elem_of_singleton]%elem_of_app; [set_solver|]. unfold touched. fold a b. set_solver.
  - intros x [Hx| ->%list_elem_of_singleton]%elem_of_app; [auto|]. rewrite Hn. by apply Hexp.
  - intros c n Hc Hnl. rewrite lookup_insert_ne, lookup_insert_ne in Hc by set_solver. apply S4 in Hc; [done|set_solver].
  - intros x [Hx| ->%list_elem_of_singleton]%elem_of_app; auto.
Qed.

Lemma no_selection_ok cands : selection_ok cands no_selection.
Proof.
  split; simpl; try (intros x Hx; by apply not_elem_of_nil in Hx).
  - intros i j x y Hi. by rewrite lookup_nil in Hi.
  - intros a n Hn. by rewrite lookup_empty in Hn.
Qed.

Lemma consider_all_ok cands now txs acc :
  selection_ok cands acc.1 → (∀ x, x ∈ txs → x ∈ cands) →
  selection_ok cands (foldl (consider limit sha3 encode get_nonce now) acc txs).1.
Proof.
  revert acc. induction txs as [|tx txs IH]; intros acc Hsel Hin; [done|]. cbn [foldl]. apply IH.
  - unfold consider. destruct (admit_tx limit tx now acc.2) as [[[]|e] s']; [|done].
    apply select_one_ok; [done|]. apply Hin. left.
  - intros x Hx. apply Hin. by right.
Qed.

Lemma build_payload_ok shard now vb :
  selection_ok (default [] (shards (ingress vb) !! shard))
    (mkSelection (build_vertex_payload limit sha3 encode get_nonce shard now vb).1
       (expected_nonce (foldl (consider limit sha3 encode get_nonce now) (no_selection, stacc vb)
          (sort_scored (drain_shard shard (batch_size vb) (ingress vb)).1)).1)
       (account_locks (foldl (consider limit sha3 encode get_nonce now) (no_selection, stacc vb)
          (sort_scored (drain_shard shard (batch_size vb) (ingress vb)).1)).1)
       (resource_locks (foldl (consider limit sha3 encode get_nonce now) (no_selection, stacc vb)
          (sort_scored (drain_shard shard (batch_size vb) (ingress vb)).1)).1)).
Proof.
  unfold build_vertex_payload.
  assert (∀ x, x ∈ sort_scored (drain_shard shard (batch_size vb) (ingress vb)).1 →
    x ∈ default [] (shards (ingress vb) !! shard)) as Hin.
  { intros x. rewrite sort_scored_perm. unfold drain_shard. destruct (shards (ingress vb) !! shard) as [q|]; [|done].
    simpl. intros (i & Hi & _)%elem_of_take. by eapply list_elem_of_lookup_2. }
  destruct (drain_shard shard (batch_size vb) (ingress vb)) as [raw ing]. cbn [fst] in Hin |- *.
  pose proof (consider_all_ok _ now (sort_scored raw) (no_selection, stacc vb) (no_selection_ok _) Hin) as Hok.
  destruct (foldl _ _ _) as [sel s']. cbn [fst] in *. by destruct sel.
Qed.

(** ** Admitted compute units are never released *)

Definition list_cu (a : Address) (l : list SignedTransaction) : Z :=
  foldr (λ tx acc, (if from (transaction tx) =? a then tx_cu limit tx else 0) + acc) 0 l.

Lemma list_cu_app a l1 l2 : list_cu a (l1 ++ l2) = list_cu a l1 + list_cu a l2.
Proof. induction l1 as [|x l IH]; simpl; [done|]. rewrite IH. lia. Qed.

Lemma consider_cu a r now tx acc :
  0 ≤ limit → tx_ok tx → enforce_quota acc.2 = true → (∀ now, 0 ≤ quota_total a now ≤ r) →
  get0 (pending_cu_by_addr acc.2) a ≤ Z.max (2 * r) FLOOR_PENDING →
  let acc' := consider limit sha3 encode get_nonce now acc tx in
  enforce_quota acc'.2 = true ∧ get0 (pending_cu_by_addr acc'.2) a ≤ Z.max (2 * r) FLOOR_PENDING ∧
  list_cu a (selected acc'.1) - list_cu a (selected acc.1) ≤
    get0 (pending_cu_by_addr acc'.2) a - get0 (pending_cu_by_addr acc.2) a.
Proof.
  intros Hl Htx He Hq Hb. pose proof (tx_cu_nonneg limit tx Hl Htx) as Hpos.
  destruct (admit_pending limit a r tx now acc.2 Hl Htx He Hq Hb) as (H1 & H2 & H3).
  unfold consider. destruct (admit_tx limit tx now acc.2) as [[[]|e] s']; cbn [fst snd is_ok andb] in *.
  - split_and!; [done|done|]. rewrite H3.
    assert (list_cu a (selected (select_one sha3 encode get_nonce tx acc.1)) ≤
      list_cu a (selected acc.1) + (if from (transaction tx) =? a then tx_cu limit tx else 0)) as Hsel; [|lia].
    unfold select_one. repeat case_match; cbn [selected]; rewrite ?list_cu_app; simpl; repeat case_match; lia.
  - split_and!; [done|done|lia].
Qed.

Lemma consider_all_cu a r now txs acc :
  0 ≤ limit → Forall tx_ok txs → enforce_quota acc.2 = true → (∀ now, 0 ≤ quota_total a now ≤ r) →
  get0 (pending_cu_by_addr acc.2) a ≤ Z.max (2 * r) FLOOR_PENDING →
  let acc' := foldl (consider limit sha3 encode get_nonce now) acc txs in
  enforce_quota acc'.2 = true ∧ get0 (pending_cu_by_addr acc'.2) a ≤ Z.max (2 * r) FLOOR_PENDING ∧
  list_cu a (selected acc'.1) - list_cu a (selected acc.1) ≤
    get0 (pending_cu_by_addr acc'.2) a - get0 (pending_cu_by_addr acc.2) a.
Proof.
  intros Hl Htx. revert acc. induction Htx as [|tx txs Ht Htx IH]; intros acc He Hq Hb; cbn [foldl]; [split_and!; [done|done|lia]|].
  destruct (consider_cu a r now tx acc Hl Ht He Hq Hb) as (H1 & H2 & H3).
  destruct (IH _ H1 Hq H2) as (H4 & H5 & H6). split_and!; [done|done|]. cbn zeta in *. lia.
Qed.

End BuilderSpec.

(** ** The node: transactions arrive and vertices are built *)

Section Node.
Context `{QuotaProvider} `{VirtualTime F}.
Context (limit : Z) (serialize : SignedTransaction → option (list Z)) (sha3 : list Z → Hash).
Context (verify : list Z → list Z → list Z → bool) (encode : Address → Address → list Z → list Z).
Context (get_nonce : Address → option Z).

Inductive NodeOp : Type := NIngest (tx : SignedTransaction) | NBuild (shard now_block : Z).

Definition node_step (vb : VertexBuilder F) (o : NodeOp) : VertexBuilder F :=
  match o with
  | NIngest tx => mkBuilder (ingest serialize sha3 verify get_nonce tx (ingress vb)).2 (stacc vb) (batch_size vb)
  | NBuild shard now => (build_vertex_payload limit sha3 encode get_nonce shard now vb).2
  end.

(** The compute units of the sender in the vertices of a history. *)
Fixpoint payload_cu (a : Address) (vb : VertexBuilder F) (ops : list NodeOp) : Z :=
  match ops with
  | [] => 0
  | o :: ops' =>
      (match o with
       | NIngest _ => 0
       | NBuild shard now => list_cu limit a (build_vertex_payload limit sha3 encode get_nonce shard now vb).1
       end) + payload_cu a (node_step vb o) ops'
  end.

Definition queues_ok (b : TxIngressBuffer) : Prop := ∀ i q, shards b !! i = Some q → Forall tx_ok q.

Lemma ingest_queues tx b :
  prefilter_wf (prefilter b) → tx_ok tx → queues_ok b →
  queues_ok (ingest serialize sha3 verify get_nonce tx b).2 ∧
  prefilter_wf (prefilter (ingest serialize sha3 verify get_nonce tx b).2).
Proof.
  intros Hwf Htx Hq. pose proof (ingest_cases serialize sha3 verify get_nonce tx b Hwf) as Hi.
  destruct (ingest serialize sha3 verify get_nonce tx b) as [ok b']; cbn [snd].
  destruct Hi as (Hwf' & _ & [(_ & (S1 & _) & _)|(_ & _ & q & Hs & _ & S1 & _)]); split; try done.
  - intros i q. rewrite S1. apply Hq.
  - intros i q'. rewrite S1. destruct (decide (i = shard_id (transaction tx))) as [->|Hne].
    + rewrite lookup_insert_eq. intros [= <-]. apply list.Forall_app. split; [by eapply Hq|by apply Forall_singleton].
    + rewrite lookup_insert_ne by done. apply Hq.
Qed.

Lemma payload_cu_bound a r ops vb :
  0 ≤ limit → (∀ now, 0 ≤ quota_total a now ≤ r) → prefilter_wf (prefilter (ingress vb)) → queues_ok (ingress vb) →
  Forall (λ o, match o with NIngest tx => tx_ok tx | NBuild _ _ => True end) ops →
  enforce_quota (stacc vb) = true → get0 (pending_cu_by_addr (stacc vb)) a ≤ Z.max (2 * r) FLOOR_PENDING →
  get0 (pending_cu_by_addr (stacc vb)) a + payload_cu a vb ops ≤ Z.max (2 * r) FLOOR_PENDING.
Proof.
  intros Hl Hq. revert vb. induction ops as [|o ops IH]; intros vb Hwf Hqs Hok He Hb; [simpl; lia|].
  apply list.Forall_cons in Hok as [Ho Hok]. cbn [payload_cu]. destruct o as [tx|shard now].
  - destruct (ingest_queues tx (ingress vb) Hwf Ho Hqs) as [H1 H2].
    specialize (IH (node_step vb (NIngest tx)) H2 H1 Hok He Hb). cbn [node_step stacc] in *. lia.
  - unfold build_vertex_payload at 1. cbn [node_step] in *. unfold build_vertex_payload in IH |- *.
    assert (Forall tx_ok (sort_scored (drain_shard shard (batch_size vb) (ingress vb)).1) ∧
      queues_ok (drain_shard shard (batch_size vb) (ingress vb)).2) as [Hraw Hqs'].
    { rewrite sort_scored_perm. unfold drain_shard. destruct (shards (ingress vb) !! shard) as [q|] eqn:Hs; [|done].
      specialize (Hqs shard q Hs) as Hqq. split; [by apply Forall_take|]. intros i q'. cbn [snd shards].
      destruct (decide (i = shard)) as [->|Hne]; [rewrite lookup_insert_eq; intros [= <-]; by apply Forall_drop|].
      rewrite lookup_insert_ne by done. apply Hqs. }
    pose proof (drain_prefilter shard (batch_size vb) (ingress vb)) as Hpf.
    destruct (drain_shard shard (batch_size vb) (ingress vb)) as [raw ing]. cbn [fst snd] in *.
    destruct (consider_all_cu limit sha3 encode get_nonce a r now (sort_scored raw) (no_selection, stacc vb) Hl Hraw He Hq Hb)
      as (H1 & H2 & H3).
    destruct (foldl _ _ _) as [sel s']. cbn [fst snd] in *.
    specialize (IH (mkBuilder ing s' (batch_size vb))). cbn [ingress stacc] in IH. rewrite Hpf in IH.
    specialize (IH Hwf Hqs' Hok H1 H2). simpl in H3. lia.
Qed.

End Node.

(** ** Claims *)

(** The ingress closes after 65536 transactions.  The filter in front of the
    buffer marks one of 65536 bits for every payload it lets through, refuses
    payloads whose bit is marked and never clears a bit: whatever arrives and
    however often the buffer is drained, a node accepts at most 65536 transactions
    before it must be restarted. *)
Theorem ingress_exhausted serialize sha3 verify get_nonce num_shards (ops : list IngressOp) :
  accepted serialize sha3 verify get_nonce (new_ingress num_shards) ops ≤ 65536.
Proof.
  pose proof (accepted_bound serialize sha3 verify get_nonce ops (new_ingress num_shards)) as Hb.
  cbn [new_ingress prefilter] in Hb. specialize (Hb (new_prefilter_wf 65536 eq_refl)).
  change (size_bits PREFILTER) with 65536 in Hb. lia.
Qed.

(** The counters of the buffer are exact.  For a node with at most 65535
    shards, after any sequence of arrivals and drains the channel of a shard holds
    at most 10000 transactions, its counter is its length, and the total is the sum
    over the shards: the counters never wrap around. *)
Theorem ingress_counters serialize sha3 verify get_nonce num_shards (ops : list IngressOp)
    (Hn : 0 ≤ num_shards ≤ u16_max) :
  let b := foldl (ingress_step serialize sha3 verify get_nonce) (new_ingress num_shards) ops in
  (∀ i q, shards b !! i = Some q → Z.of_nat (length q) ≤ INGRESS_BUFFER_SIZE ∧ pending_for_shard b i = Z.of_nat (length q)) ∧
  total_pending b = map_sum (λ _ q, Z.of_nat (length q)) (shards b).
Proof.
  assert (∀ ops b, ingress_ok b → ingress_ok (foldl (ingress_step serialize sha3 verify get_nonce) b ops)) as Hrun.
  { clear. induction ops as [|o ops IH]; intros b Hb; [done|]. apply IH. destruct o; [by apply ingest_ok|by apply drain_ok]. }
  intros b. destruct (Hrun ops _ (new_ingress_ok num_shards Hn)) as [_ _ H1 H2 H3]. split; [|done].
  intros i q Hq. split; [by eapply H1|]. unfold pending_for_shard, get0. subst b. rewrite H2, Hq. done.
Qed.

(** Example arguments: the payload is the identity of the transaction in 64
    bytes, the hash adds up bytes, and every signature equal to the key is valid. *)
Definition sample_payload (tx : SignedTransaction) : option (list Z) :=
  Some (tx_hash tx :: map Z.of_nat (seq 0 63)).
Definition sample_sha3 (bs : list Z) : Hash := foldr Z.add 0 bs mod 256 * 2 ^ 248.
Definition sample_verify (pk data sig : list Z) : bool := bool_decide (pk = sig).

(** A transaction with a key and a signature. *)
Definition keyed_tx (a n id : Z) (pk sig : list Z) : SignedTransaction :=
  mkSigned (mkTransaction Transfer a 9 1 n 50 None Qvm [] 0 0 sig pk 1) id 0.

Lemma ingress_counters_witness :
  let b := foldl (ingress_step sample_payload sample_sha3 sample_verify (λ _, None)) (new_ingress 2)
    [IIngest (keyed_tx 1 0 100 [5] [5]); IIngest (keyed_tx 2 0 101 [6] [6]); IIngest (keyed_tx 2 0 102 [6] [7]); IDrain 0 1] in
  total_pending b = 1 ∧ total_pending b = map_sum (λ _ q, Z.of_nat (length q)) (shards b).
Proof.
  intros b. split; [vm_compute; reflexivity|].
  apply (ingress_counters sample_payload sample_sha3 sample_verify (λ _, None) 2
    [IIngest (keyed_tx 1 0 100 [5] [5]); IIngest (keyed_tx 2 0 101 [6] [6]); IIngest (keyed_tx 2 0 102 [6] [7]); IDrain 0 1]).
  vm_compute. split; discriminate.
Defined.

(** Anyone can shut a sender out.  [ingest] stores the key attached to a
    transaction for its sender before it checks the signature, and nothing ties a key
    to an address.  Once a transaction in the name of the sender with some other key
    has passed the filter, valid or not, a transaction of the sender that
    relies on the stored key is refused unless the other key verifies it. *)
Theorem foreign_key_blocks_sender serialize sha3 verify get_nonce b tx1 tx2 payload
    (Hbytes : serialize tx1 = Some payload)
    (Hpass : is_ok (check_transaction_bytes sha3 payload (prefilter b)).1 = true)
    (Hkey1 : public_key (transaction tx1) ≠ []) (Hkey2 : public_key (transaction tx2) = [])
    (Hsender : from (transaction tx2) = from (transaction tx1))
    (Hother : verify (public_key (transaction tx1)) (signing_data (transaction tx2)) (signature (transaction tx2)) = false) :
  (ingest serialize sha3 verify get_nonce tx2 (ingest serialize sha3 verify get_nonce tx1 b).2).1 = false.
Proof.
  assert (pubkey_cache (ingest serialize sha3 verify get_nonce tx1 b).2 !! from (transaction tx1) =
    Some (public_key (transaction tx1))) as Hcache.
  { unfold ingest, ingest_steps. unfold bindM at 1, lift. rewrite Hbytes. cbn [ok_or].
    unfold bindM at 1, run_prefilter. destruct (check_transaction_bytes sha3 payload (prefilter b)) as [[[]|e] p]; [|done].
    destruct (find_key_cases (transaction tx1) (set_prefilter p b)) as (r & b2 & Hk & _ & _ & _ & Hne & _).
    destruct (Hne Hkey1) as [-> Hc]. unfold bindM at 1. rewrite Hk, fail_if_bind. destruct (negb _); [done|].
    unfold bindM. destruct (check_nonce_same get_nonce (transaction tx1) b2) as (_ & _ & Hc3). rewrite <- Hc3 in Hc.
    destruct (check_nonce get_nonce (transaction tx1) b2) as [[[]|e] b3]; cbn [snd] in *; [|done].
    destruct (route_cases tx1 b3) as [->|(q & _ & _ & ->)]; done. }
  set (b1 := (ingest serialize sha3 verify get_nonce tx1 b).2) in *. clearbody b1.
  unfold ingest, ingest_steps. unfold bindM at 1, lift. destruct (serialize tx2) as [payload2|]; [|done]. cbn [ok_or].
  unfold bindM at 1, run_prefilter. destruct (check_transaction_bytes sha3 payload2 (prefilter b1)) as [[[]|e] p]; [|done].
  destruct (find_key_cases (transaction tx2) (set_prefilter p b1)) as (r & b2 & Hk & _ & _ & _ & _ & He).
  destruct (He Hkey2) as [-> _]. unfold bindM at 1. rewrite Hk, Hsender. cbn [set_prefilter pubkey_cache]. rewrite Hcache.
  cbn [ok_or]. rewrite fail_if_bind, Hother. done.
Qed.

Lemma foreign_key_blocks_sender_witness :
  let b := (ingest sample_payload sample_sha3 sample_verify (λ _, None) (keyed_tx 1 0 100 [5] [5]) (new_ingress 1)).2 in
  (ingest sample_payload sample_sha3 sample_verify (λ _, None) (keyed_tx 1 0 101 [] [5]) b).1 = true ∧
  (ingest sample_payload sample_sha3 sample_verify (λ _, None) (keyed_tx 1 0 101 [] [5])
     (ingest sample_payload sample_sha3 sample_verify (λ _, None) (keyed_tx 1 0 102 [7] [8]) b).2).1 = false.
Proof.
  intros b. split; [vm_compute; reflexivity|].
  apply (foreign_key_blocks_sender _ _ _ _ b (keyed_tx 1 0 102 [7] [8]) (keyed_tx 1 0 101 [] [5]) (102 :: map Z.of_nat (seq 0 63))).
  - reflexivity.
  - vm_compute. reflexivity.
  - discriminate.
  - reflexivity.
  - reflexivity.
  - reflexivity.
Defined.

(** The payload of a vertex has no conflicts.  The transactions that
    [build_vertex_payload] selects come from the buffer of the shard, no two of them
    touch a common account as sender or receiver, and each carries the nonce that the
    state expects of its sender. *)
Theorem payload_independent `{QuotaProvider} `{VirtualTime F} limit sha3 encode get_nonce shard now (vb : VertexBuilder F) :
  let payload := (build_vertex_payload limit sha3 encode get_nonce shard now vb).1 in
  independent payload ∧
  (∀ tx, tx ∈ payload → nonce (transaction tx) = default 0 (get_nonce (from (transaction tx)))) ∧
  (∀ tx, tx ∈ payload → tx ∈ default [] (shards (ingress vb) !! shard)).
Proof. destruct (build_payload_ok limit sha3 encode get_nonce shard now vb) as [H1 _ H2 _ H3]. done. Qed.

(** Senders run dry.  [VertexBuilder] admits transactions but never takes them
    out of the admission's scheduler, so pending compute units only grow.  With
    quotas enforced, all transactions of a sender in all vertices that a node builds,
    over its whole life, have together at most twice the largest quota of the sender or
    10000 compute units, whichever is more; after that everything it sends is refused. *)
Theorem admission_lifetime_cap `{QuotaProvider} `{VirtualTime F} limit serialize sha3 verify encode get_nonce
    (a : Address) r num_shards ledger q require (ops : list NodeOp)
    (Hl : 0 ≤ limit) (Hquota : ∀ now, 0 ≤ quota_total a now ≤ r)
    (Hok : Forall (λ o, match o with NIngest tx => tx_ok tx | NBuild _ _ => True end) ops) :
  payload_cu limit serialize sha3 verify encode get_nonce a
    (new_builder (new_ingress num_shards) (new_with_policy ledger q require true)) ops ≤ Z.max (2 * r) FLOOR_PENDING.
Proof.
  pose proof (payload_cu_bound limit serialize sha3 verify encode get_nonce a r ops
    (new_builder (new_ingress num_shards) (new_with_policy ledger q require true)) Hl Hquota) as Hb.
  cbn [new_builder ingress stacc new_with_policy pending_cu_by_addr enforce_quota] in Hb. unfold get0 in Hb.
  rewrite lookup_empty in Hb. cbn [default from_option id] in Hb.
  assert (0 ≤ Z.max (2 * r) FLOOR_PENDING) as Hpos by (unfold FLOOR_PENDING; lia).
  specialize (Hb (new_prefilter_wf 65536 eq_refl)).
  assert (queues_ok (new_ingress num_shards)) as Hqs.
  { intros i x. cbn [new_ingress shards]. generalize (shard_ids num_shards). intros ids.
    induction ids as [|j ids IH]; simpl; [by rewrite lookup_empty|].
    intros [[_ <-]|[_ Hx]]%lookup_insert_Some; [constructor|auto]. }
  specialize (Hb Hqs Hok eq_refl Hpos). lia.
Qed.

(** Sender 1 sends transactions of 6000 compute units with increasing nonces; the
    second one is refused although its bucket holds 72000. *)
Definition heavy_tx (n id : Z) : SignedTransaction :=
  mkSigned (mkTransaction Transfer 1 9 1 n 6000 None Qvm [] 0 0 [5] [5] 1) id 0.

Lemma admission_lifetime_cap_witness :
  let ops := [NIngest (heavy_tx 0 100); NBuild 0 0; NIngest (heavy_tx 0 101); NBuild 0 0; NIngest (heavy_tx 0 102); NBuild 0 0] in
  let vb := new_builder (new_ingress 1) (new_with_policy (activate 1 0 ∅) new_quota true true) in
  payload_cu 300000000 sample_payload sample_sha3 sample_verify (λ _ _ _, []) (λ _, None) 1 vb ops = 6000 ∧
  payload_cu 300000000 sample_payload sample_sha3 sample_verify (λ _ _ _, []) (λ _, None) 1 vb ops ≤ Z.max (2 * 0) FLOOR_PENDING.
Proof.
  intros ops vb. split; [vm_compute; reflexivity|]. apply admission_lifetime_cap.
  - lia.
  - intros now. vm_compute. split; discriminate.
  - repeat (apply list.Forall_cons; split; [simpl; unfold tx_ok; simpl; try exact I; lia|]). apply list.Forall_nil. exact I.
Defined.
