(* ===== verification/Air.v ===== *)
(** * The arithmetization of state transitions

    Models the second half of [src/L1/src/zk/mod.rs]: execution traces, the table
    built from a trace, the algebraic intermediate representation
    [StateTransitionAir] with its constraints and assertions, and the public inputs
    of prover and verifier.

    The field of Winterfell is a class of operations; its laws (a commutative ring,
    injective on 64-bit integers, without zero divisors) are classes of their own.
    [evaluate_transition] is generic in the field as in the source, which allows to
    evaluate it on polynomials and read off the degrees.  A table is the list of its
    rows, 16 elements each. *)

From Stdlib Require Import Ring Ring_theory.
From S2P Require Import Prelude Bytes Transaction.

(** ** Errors and configuration *)

Inductive ZkError : Type :=
  | TraceGenerationFailed (msg : string)
  | ProofGenerationFailed (msg : string)
  | VerificationFailed (msg : string)
  | DeserializationError (msg : string)
  | EmptyProofList
  | InvalidProofFormat.

Record ZkConfig : Type := mkZkConfig {
  fri_folding_factor : Z;
  blowup_factor : Z;
  num_queries : Z;
  grinding_factor : Z;
  max_trace_length : Z
}.

Definition default_zk_config : ZkConfig := mkZkConfig 8 8 28 16 (Z.shiftl 1 20).

Record StateTransitionInputs : Type := mkStateInputs {
  prev_state_root : Hash;
  new_state_root : Hash;
  tx_root : Hash;
  tx_count : Z;
  sti_shard_id : Z;
  sti_height : Z
}.

(** ** Execution traces *)

Inductive TraceOpType : Type := OpState | OpTransaction | OpHash | OpMerkle.

Record TraceStep : Type := mkTraceStep {
  ts_index : Z;
  state_hash : Hash;
  op_type : TraceOpType
}.

Record ExecutionTrace : Type := mkTrace {
  steps : list TraceStep;
  max_length : Z;
  truncated : bool
}.

Definition new_trace (max_length : Z) : ExecutionTrace := mkTrace [] max_length false.

Definition was_truncated (t : ExecutionTrace) : bool := truncated t.

Definition trace_len (t : ExecutionTrace) : Z := Z.of_nat (length (steps t)).

(** The body the four [add_*_step] methods share; they differ in the operation and
    the first words of the message. *)
Definition add_step (op : TraceOpType) (words : string) (h : Hash) (index : Z) : M ExecutionTrace ZkError () :=
  λ t,
    if max_length t <=? trace_len t then
      (Err (TraceGenerationFailed (words +:+ pretty index +:+ ": max length " +:+ pretty (max_length t) +:+ " exceeded")),
       mkTrace (steps t) (max_length t) true)
    else (Ok (), mkTrace (steps t ++ [mkTraceStep index h op]) (max_length t) (truncated t)).

Definition add_state_step (state_root : Hash) (index : Z) : M ExecutionTrace ZkError () :=
  add_step OpState "Trace truncated at step " state_root index.
Definition add_transaction_step (tx : SignedTransaction) (index : Z) : M ExecutionTrace ZkError () :=
  add_step OpTransaction "Transaction step truncated at index " (tx_hash tx) index.
Definition add_hash_step (hash : Hash) (index : Z) : M ExecutionTrace ZkError () :=
  add_step OpHash "Hash step truncated at index " hash index.
Definition add_merkle_step (sibling : Hash) (index : Z) : M ExecutionTrace ZkError () :=
  add_step OpMerkle "Merkle step truncated at index " sibling index.

Definition compute_commitment (sha3 : list Z → Hash) (t : ExecutionTrace) : Hash :=
  sha3 (concat (map (λ s, hash_bytes (state_hash s) ++ le_bytes 8 (ts_index s)) (steps t))).

(** [usize::next_power_of_two]; without overflow checks a result beyond the type is 0. *)
Definition next_power_of_two (x : Z) : Z :=
  let p := 2 ^ Z.log2_up x in if p <=? u64_max then p else 0.

(** ** Field elements *)

Class FieldElement (E : Type) : Type := {
  fzero : E;
  fone : E;
  fadd : E → E → E;
  fsub : E → E → E;
  fmul : E → E → E;
  from_u64 : Z → E;
  as_int : E → Z
}.

Definition TRACE_WIDTH : nat := 16.
Definition STATE_ROOT_START : nat := 0.
Definition TX_HASH_START : nat := 4.
Definition NEXT_STATE_START : nat := 8.
Definition STEP_COUNTER : nat := 12.
Definition OP_TYPE : nat := 13.
Definition MERKLE_ACC : nat := 14.
Definition VALID_FLAG : nat := 15.

Definition OP_INIT : Z := 0.
Definition OP_TRANSACTION : Z := 1.
Definition OP_FINALIZE : Z := 2.

Definition RESCUE_ROUND_CONSTANTS : list Z :=
  [0x243f6a8885a308d3; 0x13198a2e03707344; 0xa4093822299f31d0; 0x082efa98ec4e6c89;
   0x452821e638d01377; 0xbe5466cf34e90c6c; 0xc0ac29b7c97c50dd; 0x3f84d5b5b5470917;
   0x9216d5d98979fb1b; 0xd1310ba698dfb5ac; 0x2ffd72dbd01adfb7; 0xb8e1afed6a267e96;
   0xba7c9045f12c7f99; 0x24a19947b3916cf7; 0x0801f2e2858efc16; 0x636920d871574e69].

Section Elements.
Context `{FieldElement E}.

(** The four 8-byte windows of a hash. *)
Definition hash_to_field_elements (h : Hash) : list E :=
  map (λ i, from_u64 (of_le_bytes (take 8 (drop (i * 8) (hash_bytes h))))) [0; 1; 2; 3]%nat.

Definition field_elements_to_hash (elements : list E) : Hash :=
  of_be_bytes (concat (map (λ e, take 8 (le_bytes 16 (as_int e))) elements)).

(** [algebraic_hash] and [algebraic_hash_e] have the same body. *)
Definition algebraic_hash (a b : E) (round : nat) : E :=
  let rc := from_u64 (default 0 (RESCUE_ROUND_CONSTANTS !! (round mod 16)%nat)) in
  let sum := fadd (fadd a b) rc in
  let x2 := fmul sum sum in
  let x4 := fmul x2 x2 in
  fmul x4 sum.

(** [row[i]]; the rows have [TRACE_WIDTH] elements. *)
Definition cell (row : list E) (i : nat) : E := default fzero (row !! i).

(** ** Public inputs *)

Record StateTransitionPublicInputs : Type := mkPublic {
  prev_state : list E;
  new_state : list E;
  tx_root_elements : list E;
  pub_tx_count : Z;
  trace_length : Z
}.

Definition from_inputs (inputs : StateTransitionInputs) : StateTransitionPublicInputs :=
  mkPublic (hash_to_field_elements (prev_state_root inputs)) (hash_to_field_elements (new_state_root inputs))
    (hash_to_field_elements (tx_root inputs)) (tx_count inputs)
    (Z.max (next_power_of_two (wrapping_add u64_max (tx_count inputs) 2)) 8).

Definition to_elements (p : StateTransitionPublicInputs) : list E :=
  prev_state p ++ new_state p ++ tx_root_elements p ++ [from_u64 (pub_tx_count p); from_u64 (trace_length p)].

(** ** The constraints *)

(** The declared degrees of the twelve constraints and the declared number of
    assertions. *)
Definition declared_degrees : list nat := replicate 4 1%nat ++ replicate 4 5%nat ++ [1; 2; 5; 1]%nat.
Definition declared_assertions : nat := 12.

Definition state_continuity (current next : list E) (i : nat) : E :=
  fsub (cell next (STATE_ROOT_START + i)) (cell current (NEXT_STATE_START + i)).

Definition is_tx_flag (current : list E) : E :=
  let is_tx := fsub (cell current OP_TYPE) (from_u64 OP_TRANSACTION) in
  fmul is_tx (fsub is_tx fone).

Definition hash_chain (current : list E) (i : nat) : E :=
  let expected_next := algebraic_hash (cell current (STATE_ROOT_START + i)) (cell current (TX_HASH_START + i)) i in
  fmul (fsub expected_next (cell current (NEXT_STATE_START + i))) (fsub fone (is_tx_flag current)).

Definition step_monotone (current next : list E) : E :=
  fsub (fsub (cell next STEP_COUNTER) (cell current STEP_COUNTER)) fone.

Definition op_validity (current : list E) : E :=
  let op := cell current OP_TYPE in
  fmul (fmul op (fsub op fone)) (fsub op (from_u64 2)).

Definition merkle_accumulator (current next : list E) : E :=
  fmul (fsub (algebraic_hash (cell current MERKLE_ACC) (cell current TX_HASH_START) 0) (cell next MERKLE_ACC))
    (fsub fone (is_tx_flag current)).

Definition valid_flag (current : list E) : E := fsub (cell current VALID_FLAG) fone.

Definition evaluate_transition (current next : list E) : list E :=
  map (state_continuity current next) [0; 1; 2; 3]%nat ++
  map (hash_chain current) [0; 1; 2; 3]%nat ++
  [step_monotone current next; op_validity current; merkle_accumulator current next; valid_flag current].

(** [Assertion::single(column, step, value)] *)
Record Assertion : Type := single {
  a_column : nat;
  a_step : nat;
  a_value : E
}.

Definition get_assertions (p : StateTransitionPublicInputs) (trace_length : nat) : list Assertion :=
  let last_step := (trace_length - 1)%nat in
  map (λ i, single (STATE_ROOT_START + i) 0 (cell (prev_state p) i)) [0; 1; 2; 3]%nat ++
  [single STEP_COUNTER 0 fzero; single OP_TYPE 0 (from_u64 OP_INIT); single MERKLE_ACC 0 fzero; single VALID_FLAG 0 fone] ++
  map (λ i, single (NEXT_STATE_START + i) last_step (cell (new_state p) i)) [0; 1; 2; 3]%nat ++
  [single OP_TYPE last_step (from_u64 OP_FINALIZE); single VALID_FLAG last_step fone].

(** ** The table of a trace *)

(** One row: current state, transaction hash, next state, step counter, operation,
    accumulator and flag, in the order of the columns. *)
Definition mk_row (state tx next : list E) (row : nat) (op acc flag : E) : list E :=
  state ++ tx ++ next ++ [from_u64 (Z.of_nat row); op; acc; flag].

Definition row_op (op : TraceOpType) (row : nat) : E :=
  match op with
  | OpState => match row with O => from_u64 OP_INIT | _ => from_u64 OP_FINALIZE end
  | _ => from_u64 OP_TRANSACTION
  end.

Definition hash_state (state tx : list E) : list E :=
  map (λ i, algebraic_hash (cell state i) (cell tx i) i) [0; 1; 2; 3]%nat.

Fixpoint fill_rows (l : list TraceStep) (row : nat) (state : list E) (acc : E) : list (list E) :=
  match l with
  | [] => []
  | s :: l' =>
      let tx := hash_to_field_elements (state_hash s) in
      let next := hash_state state tx in
      mk_row state tx next row (row_op (op_type s) row) acc fone ::
      fill_rows l' (S row) next (algebraic_hash acc (cell tx 0) 0)
  end.

(** A padding row: the last row of the trace with its own counter, the claimed new
    state and the final operation. *)
Definition pad_row (last new : list E) (row : nat) : list E :=
  mk_row (take 4 last) (take 4 (drop 4 last)) new row (from_u64 OP_FINALIZE) (cell last MERKLE_ACC) (cell last VALID_FLAG).

Definition padded_len (t : ExecutionTrace) : Z := Z.max (next_power_of_two (trace_len t)) 8.

Definition build_winterfell_trace (config : ZkConfig) (t : ExecutionTrace) (inputs : StateTransitionInputs)
  : Result (list (list E)) ZkError :=
  if max_trace_length config <? padded_len t then
    Err (TraceGenerationFailed ("Padded trace length " +:+ pretty (padded_len t) +:+ " exceeds max " +:+ pretty (max_trace_length config)))
  else
    let rows := fill_rows (steps t) 0 (hash_to_field_elements (prev_state_root inputs)) fzero in
    let last := default (replicate TRACE_WIDTH fzero) (list.last rows) in
    Ok (rows ++ map (pad_row last (hash_to_field_elements (new_state_root inputs)))
                  (seq (length rows) (Z.to_nat (padded_len t) - length rows))).

(** [get_pub_inputs] reads the public inputs off the table. *)
Definition get_pub_inputs (table : list (list E)) : StateTransitionPublicInputs :=
  let first := default [] (head table) in
  let last := default [] (list.last table) in
  mkPublic (map (cell first) [0; 1; 2; 3]%nat) (map (cell last) [0; 1; 2; 3]%nat)
    (map (λ i, cell last (4 + i)) [0; 1; 2; 3]%nat) (Z.of_nat (length table)) (Z.of_nat (length table)).

(** ** What a proof attests

    A STARK attests that a table exists on which every transition constraint
    vanishes on all rows but the last and every assertion holds. *)
Definition air_holds (p : StateTransitionPublicInputs) (table : list (list E)) : Prop :=
  Forall (λ row, length row = TRACE_WIDTH) table ∧
  (∀ r current next, table !! r = Some current → table !! S r = Some next →
     Forall (λ v, v = fzero) (evaluate_transition current next)) ∧
  Forall (λ a, cell (default [] (table !! a_step a)) (a_column a) = a_value a) (get_assertions p (length table)).

(** The transaction hashes of a table. *)
Definition row_tx (row : list E) : list E := take 4 (drop TX_HASH_START row).

(** The state after hashing a list of transactions. *)
Definition chain (state : list E) (txs : list (list E)) : list E := foldl hash_state state txs.

End Elements.
Arguments StateTransitionPublicInputs E : clear implicits.
Arguments Assertion E : clear implicits.

(** ** Laws of the field *)

Class FieldLaws (E : Type) `{FieldElement E} : Prop := {
  field_ring : ring_theory fzero fone fadd fmul fsub (fsub fzero) eq;
  from_u64_zero : from_u64 0 = fzero;
  from_u64_succ n : 0 ≤ n < u64_max → from_u64 (n + 1) = fadd (from_u64 n) fone
}.

Class IntegralDomain (E : Type) `{FieldElement E} : Prop :=
  mul_zero : ∀ a b : E, fmul a b = fzero → a = fzero ∨ b = fzero.

Class FromU64Inj (E : Type) `{FieldElement E} : Prop :=
  as_int_from_u64 x : fits u64_max x → as_int (from_u64 x) = x.

Lemma from_u64_inj `{FromU64Inj E} x y :
  fits u64_max x → fits u64_max y → from_u64 x = from_u64 (E:=E) y → x = y.
Proof. intros Hx Hy Heq. by rewrite <- (as_int_from_u64 x), <- (as_int_from_u64 y), Heq. Qed.

Section Laws.
Context `{FieldLaws E}.
Add Ring field_ring_E : field_ring.

Lemma from_u64_one : from_u64 1 = fone.
Proof. change 1 with (0 + 1). rewrite from_u64_succ by done. rewrite from_u64_zero. ring. Qed.

Lemma from_u64_two : from_u64 2 = fadd fone fone.
Proof. change 2 with (1 + 1). rewrite from_u64_succ by done. by rewrite from_u64_one. Qed.

Lemma from_u64_S n : Z.of_nat (S n) ≤ u64_max → from_u64 (Z.of_nat (S n)) = fadd (from_u64 (Z.of_nat n)) fone.
Proof. intros Hn. rewrite <- from_u64_succ by lia. f_equal. lia. Qed.

Lemma sub_zero_eq a b : fsub a b = fzero → a = b.
Proof. intros Hab. replace a with (fadd (fsub a b) b) by ring. rewrite Hab. ring. Qed.

Lemma len4_inv {A} (l : list A) : length l = 4%nat → ∃ a b c d, l = [a; b; c; d].
Proof. intros Hl. destruct l as [|a [|b [|c [|d [|]]]]]; simpl in Hl; try lia. eauto. Qed.

Lemma hash_state_length (s t : list E) : length (hash_state s t) = 4%nat.
Proof. done. Qed.

(** Two rows linked the way the trace builder links them satisfy every constraint. *)
Lemma linked_rows_ok (state tx tx' next' : list E) row op op' acc flag' :
  length state = 4%nat → length tx = 4%nat → length tx' = 4%nat → length next' = 4%nat →
  Z.of_nat (S row) ≤ u64_max →
  op = from_u64 OP_INIT ∨ op = from_u64 OP_TRANSACTION ∨ op = from_u64 OP_FINALIZE →
  Forall (λ v, v = fzero)
    (evaluate_transition (mk_row state tx (hash_state state tx) row op acc fone)
       (mk_row (hash_state state tx) tx' next' (S row) op' (algebraic_hash acc (cell tx 0) 0) flag')).
Proof.
  intros (a & b & c & d & ->)%len4_inv (x & y & z & w & ->)%len4_inv (x' & y' & z' & w' & ->)%len4_inv
    (u & v & k & l & ->)%len4_inv Hrow Hop.
  unfold evaluate_transition, mk_row.
  unfold state_continuity, hash_chain, step_monotone, op_validity, merkle_accumulator, valid_flag.
  unfold hash_state, cell.
  cbn [map app lookup list_lookup default from_option id STATE_ROOT_START TX_HASH_START NEXT_STATE_START STEP_COUNTER
       OP_TYPE MERKLE_ACC VALID_FLAG Nat.add].
  rewrite (from_u64_S row Hrow).
  repeat constructor; try ring.
  unfold OP_INIT, OP_TRANSACTION, OP_FINALIZE in Hop. rewrite from_u64_two.
  destruct Hop as [-> |[-> | ->]]; rewrite ?from_u64_zero, ?from_u64_one, ?from_u64_two; ring.
Qed.

(** ** A table for any pair of states *)

Fixpoint forge_rows (new : list E) (txs : list (list E)) (row : nat) (state : list E) (acc : E) : list (list E) :=
  match txs with
  | [] => []
  | tx :: txs' =>
      match txs' with
      | [] => [mk_row state tx new row (from_u64 OP_FINALIZE) acc fone]
      | _ =>
          mk_row state tx (hash_state state tx) row (row_op match row with O => OpState | _ => OpTransaction end row) acc fone ::
          forge_rows new txs' (S row) (hash_state state tx) (algebraic_hash acc (cell tx 0) 0)
      end
  end.

Definition forge (prev new : list E) (txs : list (list E)) : list (list E) := forge_rows new txs 0 prev fzero.

Lemma forge_rows_length new txs row state acc : length (forge_rows new txs row state acc) = length txs.
Proof.
  revert row state acc. induction txs as [|tx [|tx' txs] IH]; intros row state acc; [done..|].
  cbn [forge_rows length]. f_equal. apply IH.
Qed.

(** The first row has the given state, accumulator and a transaction. *)
Lemma forge_rows_head new tx txs row state acc :
  length new = 4%nat →
  ∃ next op rest, length next = 4%nat ∧
    forge_rows new (tx :: txs) row state acc = mk_row state tx next row op acc fone :: rest ∧
    (row = O → txs ≠ [] → op = from_u64 OP_INIT).
Proof.
  intros Hnew. destruct txs as [|tx' txs]; cbn [forge_rows].
  { by eexists _, _, _. }
  eexists _, _, _. split; [apply hash_state_length|]. split; [done|]. by intros -> _.
Qed.

Lemma forge_rows_transitions new txs row state acc :
  length new = 4%nat → length state = 4%nat → Forall (λ tx, length tx = 4%nat) txs →
  Z.of_nat (row + length txs) ≤ u64_max →
  ∀ r current next, forge_rows new txs row state acc !! r = Some current →
    forge_rows new txs row state acc !! S r = Some next →
    Forall (λ v, v = fzero) (evaluate_transition current next).
Proof.
  intros Hnew. revert row state acc. induction txs as [|tx [|tx' txs] IH]; intros row state acc Hstate Htxs Hrow r current next; [done|done|].
  apply list.Forall_cons in Htxs as [Htx Htxs].
  destruct (forge_rows_head new tx' txs (S row) (hash_state state tx) (algebraic_hash acc (cell tx 0) 0) Hnew) as (next' & op' & rest & Hnext' & Hhead & _).
  change (forge_rows new (tx :: tx' :: txs) row state acc) with
    (mk_row state tx (hash_state state tx) row (row_op match row with O => OpState | _ => OpTransaction end row) acc fone ::
     forge_rows new (tx' :: txs) (S row) (hash_state state tx) (algebraic_hash acc (cell tx 0) 0)).
  destruct r as [|r]; cbn [lookup list_lookup].
  - rewrite Hhead. intros [= <-] [= <-]. apply list.Forall_cons in Htxs as [Htx' _].
    apply linked_rows_ok; try done; [simpl in Hrow; lia|]. destruct row; simpl; auto.
  - apply IH; [done|done|simpl in *; lia].
Qed.

Lemma forge_rows_last new txs row state acc :
  length state = 4%nat → Forall (λ tx, length tx = 4%nat) txs → txs ≠ [] →
  ∃ s t k a, length s = 4%nat ∧ length t = 4%nat ∧
    forge_rows new txs row state acc !! (length txs - 1)%nat = Some (mk_row s t new k (from_u64 OP_FINALIZE) a fone).
Proof.
  revert row state acc. induction txs as [|tx [|tx' txs] IH]; intros row state acc Hs Htxs Hne; [done|..];
    apply list.Forall_cons in Htxs as [Htx Htxs].
  - by exists state, tx, row, acc.
  - destruct (IH (S row) (hash_state state tx) (algebraic_hash acc (cell tx 0) 0)) as (s & t & k & a & Hls & Hlt & Hl); [done..|].
    exists s, t, k, a. split_and!; [done..|]. rewrite <- Hl. cbn [length].
    replace (S (S (length txs)) - 1)%nat with (S (S (length txs) - 1)) by lia. done.
Qed.

Lemma forge_rows_width new txs row state acc :
  length new = 4%nat → length state = 4%nat → Forall (λ tx, length tx = 4%nat) txs →
  Forall (λ r, length r = TRACE_WIDTH) (forge_rows new txs row state acc).
Proof.
  intros Hnew. revert row state acc. induction txs as [|tx [|tx' txs] IH]; intros row state acc Hs Htxs; [by constructor|..];
    apply list.Forall_cons in Htxs as [Htx Htxs]; cbn [forge_rows]; (constructor; [unfold mk_row; rewrite !length_app, Hs, Htx, ?Hnew; done|]);
    [constructor|by apply IH].
Qed.

Lemma forge_holds p txs :
  length (prev_state p) = 4%nat → length (new_state p) = 4%nat → Forall (λ tx, length tx = 4%nat) txs →
  (2 ≤ length txs)%nat → Z.of_nat (length txs) ≤ u64_max →
  air_holds p (forge (prev_state p) (new_state p) txs).
Proof.
  intros Hp Hn Htxs H2 Hmax. unfold forge, air_holds. split_and!.
  - by apply forge_rows_width.
  - by apply forge_rows_transitions.
  - rewrite forge_rows_length.
    destruct (forge_rows_last (new_state p) txs 0 (prev_state p) fzero) as (s & t & k & a & Hs & Ht & Hlast); [done|done|intros ->; simpl in H2; lia|].
    destruct txs as [|tx [|tx' txs]]; [simpl in H2; lia..|].
    destruct (forge_rows_head (new_state p) tx (tx' :: txs) 0 (prev_state p) fzero Hn) as (next & op & rest & Hnext & Hhead & Hop).
    apply list.Forall_cons in Htxs as [Htx _]. rewrite Hop in Hhead by done.
    apply len4_inv in Hp as (a1 & a2 & a3 & a4 & Hp), Hn as (n1 & n2 & n3 & n4 & Hn), Htx as (t1 & t2 & t3 & t4 & ->).
    apply len4_inv in Hs as (s1 & s2 & s3 & s4 & ->), Ht as (u1 & u2 & u3 & u4 & ->), Hnext as (x1 & x2 & x3 & x4 & ->).
    unfold get_assertions. rewrite Hp, Hn in *.
    repeat (apply list.Forall_cons; split); try apply list.Forall_nil; try done; cbn [a_step a_column a_value];
      first [rewrite Hlast; reflexivity | rewrite Hhead; reflexivity | rewrite Hhead; apply from_u64_zero].
Qed.

Lemma forge_rows_txs new txs row state acc :
  length state = 4%nat → Forall (λ tx, length tx = 4%nat) txs → map row_tx (forge_rows new txs row state acc) = txs.
Proof.
  revert row state acc. induction txs as [|tx [|tx' txs] IH]; intros row state acc Hs Htxs; [done|..];
    apply list.Forall_cons in Htxs as [Htx Htxs]; apply len4_inv in Hs as (a & b & c & d & ->), Htx as (x & y & z & w & ->).
  - done.
  - cbn [forge_rows map]. f_equal. by apply IH.
Qed.

(** *** What the constraints enforce *)

Context `{!IntegralDomain E}.

Lemma tx_flag_cases (row : list E) x :
  op_validity row = fzero → fmul x (fsub fone (is_tx_flag row)) = fzero → x = fzero.
Proof.
  unfold op_validity, is_tx_flag, OP_TRANSACTION. set (op := cell row OP_TYPE). rewrite from_u64_one, from_u64_two.
  intros [[-> | ->%sub_zero_eq]%mul_zero| ->%sub_zero_eq]%mul_zero Hx.
  - transitivity (fsub fzero (fmul x (fsub fone (fmul (fsub fzero fone) (fsub (fsub fzero fone) fone))))); [ring|]. rewrite Hx. ring.
  - rewrite <- Hx. ring.
  - rewrite <- Hx. ring.
Qed.

(** One step: the next row's state is the hash of the current one, its counter is
    one more and the accumulator absorbs the transaction. *)
Lemma transition_sound current next :
  length current = TRACE_WIDTH → length next = TRACE_WIDTH →
  Forall (λ v, v = fzero) (evaluate_transition current next) →
  take 4 next = hash_state (take 4 current) (row_tx current) ∧
  cell next STEP_COUNTER = fadd (cell current STEP_COUNTER) fone ∧
  cell next MERKLE_ACC = algebraic_hash (cell current MERKLE_ACC) (cell (row_tx current) 0) 0.
Proof.
  intros Hc Hn. unfold evaluate_transition. cbn [map app].
  rewrite !list.Forall_cons. intros (C0 & C1 & C2 & C3 & H0' & H1 & H2 & H3 & Hstep & Hop & Hacc & Hv & _).
  unfold hash_chain in *. unfold merkle_accumulator in Hacc.
  apply (tx_flag_cases current _ Hop), sub_zero_eq in H0'.
  apply (tx_flag_cases current _ Hop), sub_zero_eq in H1.
  apply (tx_flag_cases current _ Hop), sub_zero_eq in H2.
  apply (tx_flag_cases current _ Hop), sub_zero_eq in H3.
  apply (tx_flag_cases current _ Hop), sub_zero_eq in Hacc.
  unfold state_continuity in *. apply sub_zero_eq in C0, C1, C2, C3.
  do 16 (destruct current as [|? current]; [done|]). destruct current; [|done].
  do 16 (destruct next as [|? next]; [done|]). destruct next; [|done].
  unfold cell in *. cbn in C0, C1, C2, C3, H0', H1, H2, H3, Hacc |- *. subst.
  split_and!; [done| |done].
  unfold step_monotone, cell in Hstep. cbn in Hstep. apply sub_zero_eq in Hstep.
  apply (f_equal (λ x, fadd x e11)) in Hstep. transitivity (fadd (fsub e27 e11) e11); [ring|]. rewrite Hstep. ring.
Qed.
End Laws.

(** ** Hashes as field elements *)

Lemma take_le_bytes n m x : (n ≤ m)%nat → take n (le_bytes m x) = le_bytes n x.
Proof. revert m x. induction n as [|n IH]; intros [|m] x Hnm; simpl; [done|done|lia|]. f_equal. apply IH. lia. Qed.

Lemma of_be_hash_bytes h : 0 ≤ h < 2 ^ 256 → of_be_bytes (hash_bytes h) = h.
Proof. intros Hh. unfold of_be_bytes, hash_bytes, be_bytes. rewrite reverse_involutive. apply of_le_le_bytes. exact Hh. Qed.

Lemma hash_bytes_length h : length (hash_bytes h) = 32%nat.
Proof. apply be_bytes_length. Qed.

Lemma hash_bytes_byte h : Forall byte (hash_bytes h).
Proof. unfold hash_bytes, be_bytes. rewrite list.Forall_reverse. apply le_bytes_byte. Qed.

(** A window of eight bytes survives the passage through an element. *)
Lemma window_roundtrip `{FromU64Inj E} (l : list Z) :
  length l = 8%nat → Forall byte l → take 8 (le_bytes 16 (as_int (from_u64 (E:=E) (of_le_bytes l)))) = l.
Proof.
  intros Hl Hb. pose proof (of_le_bytes_range l Hb) as Hr. rewrite Hl in Hr.
  rewrite as_int_from_u64 by (unfold fits, u64_max; change (256 ^ Z.of_nat 8) with (18446744073709551615 + 1) in Hr; lia).
  rewrite take_le_bytes by lia. by apply le_of_le_bytes_n.
Qed.

(** ** The table of an honest trace *)

Section Honest.
Context `{FieldElement E}.

Lemma hash_to_field_elements_length (h : Hash) : length (hash_to_field_elements (E:=E) h) = 4%nat.
Proof. done. Qed.

Lemma fill_rows_length l row (state : list E) acc : length (fill_rows l row state acc) = length l.
Proof. revert row state acc. induction l as [|s l IH]; intros; simpl; [done|]. by rewrite IH. Qed.

(** Every filled row goes from its state to the hash of state and transaction. *)
Lemma fill_rows_lookup l row (state : list E) acc r current :
  length state = 4%nat → fill_rows l row state acc !! r = Some current →
  length current = TRACE_WIDTH ∧
  map (λ i, cell current (NEXT_STATE_START + i)) [0; 1; 2; 3]%nat = hash_state (take 4 current) (row_tx current).
Proof.
  revert row state acc r. induction l as [|s l IH]; intros row state acc r Hs; [done|].
  destruct r as [|r]; cbn [fill_rows lookup list_lookup].
  - apply len4_inv in Hs as (a & b & c & d & ->). by intros [= <-].
  - apply IH, hash_state_length.
Qed.

Lemma pad_row_state (last new : list E) row : length last = TRACE_WIDTH → take 4 (pad_row last new row) = take 4 last.
Proof. intros Hl. do 4 (destruct last as [|? last]; [done|]). done. Qed.

Lemma take_cells (row : list E) : length row = TRACE_WIDTH → take 4 row = map (λ i, cell row (STATE_ROOT_START + i)) [0; 1; 2; 3]%nat.
Proof. intros Hl. do 4 (destruct row as [|? row]; [done|]). done. Qed.
End Honest.

(** ** Polynomials as field elements, to measure degrees *)

Module Poly.

Fixpoint padd (p q : list Z) : list Z :=
  match p, q with
  | [], _ => q
  | _, [] => p
  | a :: p', b :: q' => a + b :: padd p' q'
  end.

Definition pscale (c : Z) (p : list Z) : list Z := map (Z.mul c) p.

Fixpoint pmul (p q : list Z) : list Z :=
  match p with
  | [] => []
  | a :: p' => padd (pscale a q) (0 :: pmul p' q)
  end.

#[export] Instance poly_element : FieldElement (list Z) := {
  fzero := [];
  fone := [1];
  fadd := padd;
  fsub p q := padd p (pscale (-1) q);
  fmul := pmul;
  from_u64 n := [n];
  as_int p := default 0 (head p)
}.

(** The position of the last coefficient that is not 0. *)
Definition degree (p : list Z) : nat :=
  foldr (λ '(i, c) d, if c =? 0 then d else Nat.max i d) O (imap pair p).

(** Every cell of the frame is a different linear polynomial. *)
Definition linear_row (k : Z) : list (list Z) := map (λ i, [1; k + Z.of_nat i]) (seq 0 TRACE_WIDTH).

Definition constraint_degrees : list nat := map degree (evaluate_transition (linear_row 1) (linear_row 101)).

End Poly.

(** Integers are an instance of all laws. *)
Module IntegerField.

#[export] Instance Z_element : FieldElement Z := {
  fzero := 0; fone := 1; fadd := Z.add; fsub := Z.sub; fmul := Z.mul; from_u64 n := n; as_int x := x
}.

#[export] Instance Z_laws : FieldLaws Z.
Proof. split; [constructor; simpl; intros; ring|done|done]. Qed.

#[export] Instance Z_integral : IntegralDomain Z.
Proof. intros a b. simpl. apply Z.mul_eq_0. Qed.

#[export] Instance Z_from_u64 : FromU64Inj Z.
Proof. by intros x. Qed.

End IntegerField.

(** ** Theorems *)

(** The constraints tie the new state root to nothing: for any two states, any
    transaction root and counter, and any list of at least two transaction hashes,
    there is a table with these transactions on which all constraints and
    assertions hold. *)
Theorem air_accepts_any_transition `{FieldLaws E} (p : StateTransitionPublicInputs E) (txs : list (list E)) :
  length (prev_state p) = 4%nat → length (new_state p) = 4%nat → Forall (λ tx, length tx = 4%nat) txs →
  (2 ≤ length txs)%nat → Z.of_nat (length txs) ≤ u64_max →
  ∃ table, map row_tx table = txs ∧ air_holds p table.
Proof.
  intros Hp Hn Htxs H2 Hmax. exists (forge (prev_state p) (new_state p) txs).
  split; [by apply forge_rows_txs|by apply forge_holds].
Qed.

(** What the constraints do enforce: the state of every row of a satisfying
    table is the hash chain of the earlier transactions from the previous state, its
    counter is the row number and its accumulator has absorbed these transactions. *)
Theorem air_enforces_hash_chain `{FieldLaws E, !IntegralDomain E} (p : StateTransitionPublicInputs E) table r row :
  air_holds p table → length (prev_state p) = 4%nat → Z.of_nat (length table) ≤ u64_max →
  table !! r = Some row →
  take 4 row = chain (prev_state p) (map row_tx (take r table)) ∧
  cell row STEP_COUNTER = from_u64 (Z.of_nat r) ∧
  cell row MERKLE_ACC = foldl (λ acc tx, algebraic_hash acc (cell tx 0) 0) fzero (map row_tx (take r table)).
Proof.
  intros (Hw & Htr & Has) Hp Hmax. revert row. induction r as [|r IH]; intros row Hr.
  - unfold get_assertions in Has. cbn [map app] in Has. rewrite !list.Forall_cons in Has.
    destruct Has as (A0 & A1 & A2 & A3 & As & _ & Aa & _). cbn [a_step a_column a_value] in *. rewrite Hr in *. simpl in *.
    pose proof (list.Forall_lookup_1 _ _ _ _ Hw Hr) as Hlen.
    apply len4_inv in Hp as (a & b & c & d & Hp). rewrite Hp in *.
    rewrite take_cells by done. cbn [map]. unfold STATE_ROOT_START in *. simpl in *. rewrite A0, A1, A2, A3. cbn.
    by rewrite from_u64_zero.
  - assert (Hlt : (r < length table)%nat) by (apply lookup_lt_Some in Hr; lia).
    apply lookup_lt_is_Some in Hlt as [current Hc]. destruct (IH current Hc) as (IHs & IHc & IHa).
    pose proof (list.Forall_lookup_1 _ _ _ _ Hw Hr) as Hl1. pose proof (list.Forall_lookup_1 _ _ _ _ Hw Hc) as Hl2.
    destruct (transition_sound current row Hl2 Hl1 (Htr r _ _ Hc Hr)) as (Hs & Hstep & Hacc).
    rewrite (take_S_r _ _ _ Hc), map_app. unfold chain in *. rewrite !foldl_app. cbn [foldl map]. rewrite <- IHs, <- IHa.
    split_and!; [done| |done]. rewrite Hstep, IHc, from_u64_S; [done|]. apply lookup_lt_Some in Hr. lia.
Qed.

(** The public inputs a proof is made for are never the ones it is checked
    against: whatever the table and the inputs, the two lists of field elements
    differ, because the prover puts the table length in place of both the transaction
    count and the trace length. *)
Theorem public_inputs_never_match `{FromU64Inj E} (table : list (list E)) inputs :
  fits u64_max (tx_count inputs) → Z.of_nat (length table) ≤ u64_max →
  to_elements (get_pub_inputs table) ≠ to_elements (from_inputs inputs).
Proof.
  intros Hc Hl Heq. unfold to_elements, get_pub_inputs, from_inputs, hash_to_field_elements in Heq.
  cbn [prev_state new_state tx_root_elements pub_tx_count trace_length map app] in Heq.
  injection Heq as _ _ _ _ _ _ _ _ _ _ _ _ H1 H2. unfold fits in Hc.
  apply from_u64_inj in H1; [|unfold fits; lia..].
  set (c := tx_count inputs) in *. set (w := wrapping_add u64_max c 2) in *.
  assert (Hw : 0 ≤ w ≤ u64_max) by (unfold w, wrapping_add; pose proof (Z.mod_pos_bound (c + 2) (u64_max + 1)); lia).
  assert (Hpow : 0 ≤ next_power_of_two w ≤ u64_max).
  { unfold next_power_of_two. destruct (Z.leb_spec (2 ^ Z.log2_up w) u64_max); [|unfold u64_max; lia]. split; [|done]. apply Z.pow_nonneg. lia. }
  apply from_u64_inj in H2; [|unfold fits; unfold u64_max in *; lia..]. rewrite H1 in H2.
  destruct (decide (c + 2 ≤ u64_max)) as [Hsmall|Hbig].
  - assert (w = c + 2) as Hweq by (unfold w, wrapping_add; apply Z.mod_small; lia).
    unfold next_power_of_two in *. rewrite Hweq in *.
    pose proof (Z.log2_up_spec (c + 2)) as Hlog.
    destruct (Z.leb_spec (2 ^ Z.log2_up (c + 2)) u64_max) as [_|Hbig]; [lia|].
    assert (Hcases : c = 8) by (simpl in H2; lia). by rewrite Hcases in Hbig.
  - assert (Hwsmall : w = c + 2 - (u64_max + 1)).
    { unfold w, wrapping_add. symmetry. apply (Z.mod_unique _ _ 1); [left; unfold u64_max in *; lia|lia]. }
    assert (Hw01 : w = 0 ∨ w = 1) by (unfold u64_max in *; lia).
    clearbody w. clearbody c. destruct Hw01 as [Hw01|Hw01]; rewrite Hw01 in H2; vm_compute in H2; unfold u64_max in *; lia.
Qed.

(** Converting a hash to field elements and back gives the hash. *)
Theorem field_elements_roundtrip `{FromU64Inj E} (h : Hash) :
  0 ≤ h < 2 ^ 256 → field_elements_to_hash (hash_to_field_elements (E:=E) h) = h.
Proof.
  intros Hh. rewrite <- (of_be_hash_bytes h Hh) at 2. unfold field_elements_to_hash, hash_to_field_elements. f_equal.
  pose proof (hash_bytes_length h) as Hl. pose proof (hash_bytes_byte h) as Hb. rewrite map_map. cbn [map concat].
  set (l := hash_bytes h) in *. rewrite !window_roundtrip;
    try (rewrite length_take, length_drop; lia); try by apply list.Forall_take, list.Forall_drop.
  do 32 (destruct l as [|? l]; [done|]). by destruct l.
Qed.

(** The table built for an honest trace violates the constraints wherever the
    trace is padded, unless the algebraic hash maps the state of the last row to itself:
    the first padding row repeats that state instead of the one after it. *)
Theorem honest_padding_breaks_air `{FieldLaws E} config t inputs (p : StateTransitionPublicInputs E) table last :
  build_winterfell_trace config t inputs = Ok table →
  steps t ≠ [] → trace_len t < padded_len t →
  table !! (length (steps t) - 1)%nat = Some last →
  hash_state (take 4 last) (row_tx last) ≠ take 4 last → ¬ air_holds p table.
Proof.
  unfold build_winterfell_trace. destruct (max_trace_length config <? padded_len t); [done|]. intros [= <-] Hne Hpad Hlast Hfix (_ & Htr & _). apply Hfix. clear Hfix.
  set (rows := fill_rows _ _ _ _) in *. assert (Hlen : length rows = length (steps t)) by apply fill_rows_length.
  assert (Hpos : (0 < length (steps t))%nat) by (destruct (steps t); simpl; [done|lia]).
  assert (Hl : rows !! (length (steps t) - 1)%nat = Some last) by (rewrite lookup_app_l in Hlast by lia; done).
  destruct (fill_rows_lookup _ _ _ _ _ _ (hash_to_field_elements_length _) Hl) as [Hw Hnext].
  specialize (Htr (length (steps t) - 1)%nat). rewrite Hlast in Htr.
  rewrite last_lookup, Hlen in Htr. replace (pred (length (steps t))) with (length (steps t) - 1)%nat in Htr by lia. rewrite Hl in Htr.
  rewrite lookup_app_r in Htr by lia. rewrite Hlen in Htr. replace (S (length (steps t) - 1) - length (steps t))%nat with 0%nat in Htr by lia.
  unfold trace_len in Hpad. destruct (Z.to_nat (padded_len t) - length (steps t))%nat as [|k] eqn:Hk; [lia|].
  cbn [seq map lookup list_lookup] in Htr. specialize (Htr _ _ eq_refl eq_refl).
  unfold evaluate_transition in Htr. cbn [map app default from_option id] in Htr. rewrite !list.Forall_cons in Htr.
  destruct Htr as (C0 & C1 & C2 & C3 & _). unfold state_continuity in *. apply sub_zero_eq in C0, C1, C2, C3.
  set (pr := pad_row _ _ _) in *. rewrite <- Hnext. cbn [map]. rewrite <- C0, <- C1, <- C2, <- C3.
  do 16 (destruct last as [|? last]; [done|]). destruct last; done.
Qed.

(** The declarations of the arithmetization disagree with its constraints: the
    four hash constraints, the operation constraint and the accumulator constraint
    have degrees 7, 3 and 7 instead of the declared 5, 2 and 5, and fourteen assertions
    are made where twelve are declared. *)
Theorem air_declarations_disagree :
  Poly.constraint_degrees = [1; 1; 1; 1; 7; 7; 7; 7; 1; 3; 7; 1]%nat ∧
  declared_degrees = [1; 1; 1; 1; 5; 5; 5; 5; 1; 2; 5; 1]%nat ∧
  ∀ `{FieldElement E} (p : StateTransitionPublicInputs E) n,
    length (get_assertions p n) = 14%nat ∧ declared_assertions = 12%nat.
Proof. split_and!; [by vm_compute|done|done]. Qed.

(** ** Witnesses *)

Import IntegerField.

Module AirExample.

Definition public : StateTransitionPublicInputs Z := mkPublic [1; 2; 3; 4] [5; 6; 7; 8] [0; 0; 0; 0] 3 8.
Definition txs : list (list Z) := replicate 3 [9; 9; 9; 9].
Definition inputs : StateTransitionInputs := mkStateInputs 1 2 3 1 0 0.
Definition trace : ExecutionTrace := mkTrace [mkTraceStep 0 1 OpState; mkTraceStep 1 2 OpState] 10 false.
Definition table : list (list Z) :=
  match build_winterfell_trace default_zk_config trace inputs with Ok t => t | Err _ => [] end.

End AirExample.

Lemma air_accepts_any_transition_witness :
  length AirExample.txs = 3%nat ∧ ∃ table, map row_tx table = AirExample.txs ∧ air_holds AirExample.public table.
Proof.
  split; [done|].
  apply (air_accepts_any_transition (E:=Z) AirExample.public AirExample.txs); try done; [by repeat constructor|simpl; lia].
Defined.

Lemma air_enforces_hash_chain_witness :
  length (forge [1; 2; 3; 4] [5; 6; 7; 8] AirExample.txs) = 3%nat ∧
  ∀ row, forge [1; 2; 3; 4] [5; 6; 7; 8] AirExample.txs !! 1%nat = Some row → cell row STEP_COUNTER = 1.
Proof.
  split; [done|]. intros row Hrow.
  assert (Hh : air_holds AirExample.public (forge [1; 2; 3; 4] [5; 6; 7; 8] AirExample.txs)).
  { apply (forge_holds AirExample.public AirExample.txs); try done; [by repeat constructor|simpl; lia]. }
  by destruct (air_enforces_hash_chain (E:=Z) AirExample.public _ 1 row Hh eq_refl ltac:(done) Hrow) as (_ & Hc & _).
Defined.

Lemma public_inputs_never_match_witness :
  length AirExample.table = 8%nat ∧ to_elements (get_pub_inputs AirExample.table) ≠ to_elements (from_inputs AirExample.inputs).
Proof. split; [by vm_compute|]. apply (public_inputs_never_match (E:=Z)); [done|by vm_compute]. Defined.

Lemma honest_padding_breaks_air_witness :
  length AirExample.table = 8%nat ∧ ¬ air_holds (from_inputs AirExample.inputs) AirExample.table.
Proof.
  split; [by vm_compute|].
  eapply (honest_padding_breaks_air (E:=Z) default_zk_config AirExample.trace AirExample.inputs); try done; by vm_compute.
Defined.

Lemma field_elements_roundtrip_witness : 0 ≤ 258 < 2 ^ 256 ∧ field_elements_to_hash (hash_to_field_elements (E:=Z) 258) = 258.
Proof. split; [done|]. apply (field_elements_roundtrip (E:=Z)). done. Defined.
