(* ===== verification/Zk.v ===== *)
(** * The proving system

    Models the first half of [src/L1/src/zk/mod.rs]: the proofs the node makes and
    checks (state transitions, cross-shard messages and batches, validator
    transitions, private transfers) and the aggregation of proofs.  [Air] holds the
    arithmetization they share.

    Winterfell and bincode are classes of operations.  The elapsed time of a proof is
    an argument.  The mutable state of the prover is its metrics; the cache of proving
    keys is never read.  A batch of cross-shard transactions is the list of their ids,
    the only field the code uses.  Where the code can panic the result is an [option],
    [None] being the panic. *)

From S2P Require Import Prelude Bytes Transaction Merkle Air.

Definition MAX_TRANSACTIONS_PER_PROOF : Z := 10000.
Definition MAX_PUBLIC_INPUTS_SIZE : Z := 1024 * 1024.

(** ** Data *)

Inductive ProofType : Type :=
  | StateTransition | CrossShard | Aggregated | Recursive | ValidatorTransition | PrivateTransfer.

Record StarkProof : Type := mkStarkProof {
  proof_id : Hash;
  proof_type : ProofType;
  proof_data : list Z;
  public_inputs : list Z;
  proof_size : Z;
  generation_time_ms : Z;
  verification_time_us : Z
}.

Record CrossShardInputs : Type := mkCrossInputs {
  source_shard : Z;
  dest_shard : Z;
  message_hash : Hash;
  source_state_root : Hash;
  sender : Address;
  recipient : Address;
  xs_amount : Z;
  xs_nonce : Z
}.

Record PublicInputs : Type := mkPublicInputs {
  pi_data : list Z;
  pi_shard_id : option Z;
  pi_epoch : option Z;
  pi_state_root : option Hash
}.

Record Commitment : Type := mkCommitment { commitment_data : Hash }.
Record Nullifier : Type := mkNullifier { nullifier_data : Hash }.

Record PrivateNote : Type := mkPrivateNote {
  note_id : Hash;
  owner : Address;
  commitment : Commitment;
  encrypted_value : list Z
}.

Record PrivateTransferInputs : Type := mkPrivateInputs {
  input_nullifiers : list Nullifier;
  input_commitments : list Commitment;
  output_commitments : list Commitment;
  fee_commitment : Commitment;
  note_set_root : Hash;
  pt_state_root : Hash
}.

Record ProverMetrics : Type := mkMetrics {
  proofs_generated : Z;
  proofs_verified : Z;
  avg_generation_time_ms : Z;
  avg_verification_time_us : Z;
  total_proof_bytes : Z
}.

Definition new_prover : ProverMetrics := mkMetrics 0 0 0 0 0.

(** ** Third-party code *)

Record ProofOptions : Type := mkOptions {
  opt_queries : Z;
  opt_blowup : Z;
  opt_grinding : Z;
  opt_folding : Z;
  opt_remainder_degree : Z
}.

Class Winterfell (E : Type) : Type := {
  WProof : Type;
  winter_prove : ProofOptions → StateTransitionPublicInputs E → list (list E) → Result (list Z) string;
  winter_from_bytes : list Z → Result WProof string;
  winter_verify : WProof → StateTransitionPublicInputs E → Z → Result () string
}.

Class Bincode : Type := {
  ser_state : StateTransitionInputs → option (list Z);
  de_state : list Z → Result StateTransitionInputs string;
  ser_cross : CrossShardInputs → option (list Z);
  de_cross : list Z → Result CrossShardInputs string;
  ser_private : PrivateTransferInputs → option (list Z);
  de_private : list Z → Result PrivateTransferInputs string;
  ser_list : list (list Z) → option (list Z)
}.

(** ** Helpers on bytes *)

(** [l[a..b]] *)
Definition slice {A} (a b : nat) (l : list A) : list A := take (b - a) (drop a l).

(** [l.chunks(n)]; every round takes at least one element, so the length is enough fuel. *)
Fixpoint chunks_fuel {A} (fuel n : nat) (l : list A) : list (list A) :=
  match fuel, l with
  | O, _ | _, [] => []
  | S fuel', _ => take n l :: chunks_fuel fuel' n (drop n l)
  end.

Definition chunks {A} (n : nat) (l : list A) : list (list A) := chunks_fuel (length l) n l.

Definition QVT : list Z := [0x51; 0x56; 0x54; 0x01].
Definition QPT : list Z := [0x51; 0x50; 0x54; 0x01].
Definition QBT : list Z := [0x51; 0x42; 0x54; 0x01].
Definition QXS : list Z := [0x51; 0x58; 0x53; 0x01].
Definition QAG : list Z := [0x51; 0x41; 0x47; 0x01].

Section Prover.
Context (sha3 : list Z → Hash).

(** ** Commitments and nullifiers *)

Definition new_commitment (value : Z) (blinding_factor : Hash) : Commitment :=
  mkCommitment (sha3 (le_bytes 8 value ++ hash_bytes blinding_factor)).

Definition verify_commitment (c : Commitment) (value : Z) (blinding_factor : Hash) : bool :=
  commitment_data c =? commitment_data (new_commitment value blinding_factor).

Definition new_nullifier (note_id secret_key : Hash) : Nullifier :=
  mkNullifier (sha3 (hash_bytes note_id ++ hash_bytes secret_key)).

(** ** Merkle trees *)

Definition build_merkle_levels (leaves : list Hash) : list (list Hash) := tree_levels sha3 (length leaves) leaves.

Definition compute_merkle_root (leaves : list Hash) : Hash :=
  match leaves with
  | [] => 0
  | [h] => h
  | _ => match list.last (build_merkle_levels leaves) with Some l => default 0 (head l) | None => 0 end
  end.

Definition compute_merkle_path (leaves : list Hash) (index : nat) : list Hash :=
  if (length leaves <=? 1)%nat then []
  else
    let levels := build_merkle_levels leaves in
    proof_siblings (take (length levels - 1) levels) index.

(** ** Estimates, ids and metrics *)

Definition estimate_verification_time (size : Z) : Z := 100 + size / 1024 * 50.

Definition compute_proof_id (data : list Z) (inputs : StateTransitionInputs) : Hash :=
  sha3 (data ++ hash_bytes (prev_state_root inputs) ++ hash_bytes (new_state_root inputs)).

Definition compute_cross_shard_proof_id (inputs : CrossShardInputs) : Hash :=
  sha3 (le_bytes 2 (source_shard inputs) ++ le_bytes 2 (dest_shard inputs) ++ hash_bytes (message_hash inputs)).

(** The mean moves by a truncated division in [i128]. *)
Definition update_metrics (proof : StarkProof) (m : ProverMetrics) : ProverMetrics :=
  let count := proofs_generated m in
  let avg :=
    if count =? 0 then generation_time_ms proof
    else
      let old_avg := avg_generation_time_ms m in
      let delta := Z.quot (generation_time_ms proof - old_avg) (count + 1) in
      (old_avg + delta) mod (u64_max + 1) in
  mkMetrics (wrapping_add u64_max count 1) (proofs_verified m) avg (avg_verification_time_us m)
    (saturating_add u64_max (total_proof_bytes m) (proof_size proof)).

(** The proof record around the data; all provers build it the same way. *)
Definition package (id : Hash) (ty : ProofType) (data : list Z) (inputs : option (list Z)) (elapsed : Z) : StarkProof :=
  let size := Z.of_nat (length data) in
  mkStarkProof id ty data (default [] inputs) size elapsed (estimate_verification_time size).

Definition finish (proof : StarkProof) : M ProverMetrics ZkError StarkProof :=
  modify (update_metrics proof) ?; returns proof.

(** ** Winterfell proofs *)

Context `{FieldElement E} `{!Winterfell E} `{Bincode}.
Context (config : ZkConfig).

Definition proof_options : ProofOptions :=
  mkOptions (num_queries config) (blowup_factor config) (grinding_factor config) (fri_folding_factor config) 31.

Definition generate_winterfell_proof (t : ExecutionTrace) (inputs : StateTransitionInputs) : Result (list Z) ZkError :=
  match build_winterfell_trace (E:=E) config t inputs with
  | Err e => Err e
  | Ok table =>
      match winter_prove proof_options (get_pub_inputs table) table with
      | Err msg => Err (ProofGenerationFailed msg)
      | Ok bytes => Ok bytes
      end
  end.

Definition verify_winterfell_proof (data : list Z) (inputs : StateTransitionInputs) : Result bool ZkError :=
  match winter_from_bytes data with
  | Err msg => Err (VerificationFailed ("Failed to deserialize proof: " +:+ msg))
  | Ok proof =>
      match winter_verify proof (from_inputs inputs) 96 with
      | Ok _ => Ok true
      | Err _ => Ok false
      end
  end.

(** Run the construction of a trace. *)
Definition run_trace (max : Z) (m : M ExecutionTrace ZkError ()) : Result ExecutionTrace ZkError :=
  let '(r, t) := m (new_trace max) in match r with Ok _ => Ok t | Err e => Err e end.

Definition next_index (i : nat) (msg : string) : M ExecutionTrace ZkError Z :=
  lift (ok_or (checked_add u64_max (Z.of_nat i) 1) (TraceGenerationFailed msg)).

(** ** State transitions *)

Definition build_state_transition_trace (transactions : list SignedTransaction) (inputs : StateTransitionInputs)
  : Result ExecutionTrace ZkError :=
  run_trace (max_trace_length config) (
    add_state_step (prev_state_root inputs) 0 ?;
    for_each (imap pair transactions) (λ '(i, tx),
      index <-? next_index i "Transaction index overflow" ;
      add_transaction_step tx index) ?;
    final_index <-? next_index (length transactions) "Final state index overflow" ;
    add_state_step (new_state_root inputs) final_index).

Definition prove_state_transition (transactions : list SignedTransaction) (inputs : StateTransitionInputs) (elapsed : Z)
  : M ProverMetrics ZkError StarkProof :=
  let n := Z.of_nat (length transactions) in
  fail_if (MAX_TRANSACTIONS_PER_PROOF <? n)
    (TraceGenerationFailed ("Too many transactions: " +:+ pretty n +:+ " > " +:+ pretty MAX_TRANSACTIONS_PER_PROOF)) ?;
  t <-? lift (build_state_transition_trace transactions inputs) ;
  fail_if (was_truncated t)
    (TraceGenerationFailed ("Trace truncated: " +:+ pretty n +:+ " transactions exceed max trace length " +:+ pretty (max_trace_length config))) ?;
  data <-? lift (generate_winterfell_proof t inputs) ;
  finish (package (compute_proof_id data inputs) StateTransition data (ser_state inputs) elapsed).

(** ** Cross-shard messages *)

Definition MAX_SHARD_ID : Z := 10000.

Definition build_cross_shard_trace (inputs : CrossShardInputs) (merkle_proof : list Hash) : Result ExecutionTrace ZkError :=
  run_trace (Z.of_nat (length merkle_proof) + 10) (
    add_hash_step (message_hash inputs) 0 ?;
    for_each (imap pair merkle_proof) (λ '(i, sibling), add_merkle_step sibling (Z.of_nat i + 1))).

(** The statement of a cross-shard proof, for the prover and for the verifier. *)
Definition cross_state_inputs (inputs : CrossShardInputs) : StateTransitionInputs :=
  mkStateInputs (source_state_root inputs) (source_state_root inputs) (message_hash inputs) 1 (source_shard inputs) 0.

Definition generate_cross_shard_stark_proof (t : ExecutionTrace) (inputs : CrossShardInputs) : Result (list Z) ZkError :=
  match generate_winterfell_proof t (cross_state_inputs inputs) with
  | Err e => Err e
  | Ok w => Ok (QXS ++ le_bytes 2 (source_shard inputs) ++ le_bytes 2 (dest_shard inputs) ++ hash_bytes (message_hash inputs) ++ w)
  end.

Definition prove_cross_shard (inputs : CrossShardInputs) (merkle_proof : list Hash) (elapsed : Z) : M ProverMetrics ZkError StarkProof :=
  fail_if ((MAX_SHARD_ID <? source_shard inputs) || (MAX_SHARD_ID <? dest_shard inputs))
    (TraceGenerationFailed ("Invalid shard ID: source=" +:+ pretty (source_shard inputs) +:+ ", dest=" +:+ pretty (dest_shard inputs)
      +:+ " (max=" +:+ pretty MAX_SHARD_ID +:+ ")")) ?;
  fail_if (source_shard inputs =? dest_shard inputs)
    (TraceGenerationFailed "Source and destination shard must differ for cross-shard proof") ?;
  t <-? lift (build_cross_shard_trace inputs merkle_proof) ;
  data <-? lift (generate_cross_shard_stark_proof t inputs) ;
  finish (package (compute_cross_shard_proof_id inputs) CrossShard data (ser_cross inputs) elapsed).

Definition verify_cross_shard_proof (data : list Z) (inputs : CrossShardInputs) : Result bool ZkError :=
  if (length data <? 40)%nat then Ok false
  else if negb (bool_decide (slice 0 4 data = QXS)) then Ok false
  else
    let source := of_le_bytes (slice 4 6 data) in
    let dest := of_le_bytes (slice 6 8 data) in
    if negb (source =? source_shard inputs) || negb (dest =? dest_shard inputs) then Ok false
    else if negb (bool_decide (slice 8 40 data = hash_bytes (message_hash inputs))) then Ok false
    else
      match drop 40 data with
      | [] => Ok false
      | w => verify_winterfell_proof w (cross_state_inputs inputs)
      end.

(** ** Batches *)

Definition generate_batch_stark_proof (t : ExecutionTrace) (pi : PublicInputs) : Result (list Z) ZkError :=
  let state_root := default 0 (pi_state_root pi) in
  let inputs := mkStateInputs state_root state_root (sha3 (pi_data pi)) 1 (default 0 (pi_shard_id pi)) 0 in
  match generate_winterfell_proof t inputs with
  | Err e => Err e
  | Ok w =>
      Ok (QBT ++ match pi_shard_id pi with Some s => le_bytes 2 s | None => [0; 0] end ++ hash_bytes state_root ++ w)
  end.

Definition prove_cross_shard_batch (batch_id : Hash) (transactions : list Hash) (pi : PublicInputs) (elapsed : Z)
  : M ProverMetrics ZkError StarkProof :=
  let n := Z.of_nat (length transactions) in
  fail_if (MAX_TRANSACTIONS_PER_PROOF <? n)
    (TraceGenerationFailed ("Too many transactions in batch: " +:+ pretty n +:+ " > " +:+ pretty MAX_TRANSACTIONS_PER_PROOF)) ?;
  t <-? lift (run_trace (max_trace_length config) (
    match pi_state_root pi with Some r => add_state_step r 0 | None => returns () end ?;
    for_each (imap pair transactions) (λ '(i, tx), add_state_step tx (Z.of_nat i + 1)))) ;
  data <-? lift (generate_batch_stark_proof t pi) ;
  finish (package batch_id CrossShard data (Some (pi_data pi)) elapsed).

(** ** Validator transitions *)

Definition prove_validator_transition (old_root new_root : Hash) (changes : list (Address * bool)) (elapsed : Z)
  : M ProverMetrics ZkError StarkProof :=
  t <-? lift (run_trace (max_trace_length config) (
    add_state_step old_root 0 ?;
    for_each (imap pair changes) (λ '(i, (addr, _)),
      index <-? next_index i "Validator index overflow" ;
      add_state_step (sha3 (hash_bytes addr)) index) ?;
    final_index <-? next_index (length changes) "Final index overflow" ;
    add_state_step new_root final_index)) ;
  let inputs := mkStateInputs old_root new_root (sha3 (hash_bytes old_root ++ hash_bytes new_root)) (Z.of_nat (length changes)) 0 0 in
  w <-? lift (generate_winterfell_proof t inputs) ;
  let data := QVT ++ hash_bytes old_root ++ hash_bytes new_root ++ w in
  finish (package (sha3 data) ValidatorTransition data (ser_state inputs) elapsed).

Definition verify_validator_transition_proof (data : list Z) : Result bool ZkError :=
  if (length data <? 68)%nat then Ok false
  else if negb (bool_decide (slice 0 4 data = QVT)) then Ok false
  else
    match drop 68 data with
    | [] => Ok false
    | w =>
        verify_winterfell_proof w
          (mkStateInputs (of_be_bytes (slice 4 36 data)) (of_be_bytes (slice 36 68 data)) (sha3 (slice 4 68 data)) 1 0 0)
    end.

(** ** Private transfers *)

Definition u128_sum (l : list Z) : Z := foldl (wrapping_add u128_max) 0 l.

(** The check of the openings: values, blinding factors and commitments are walked
    together and the shorter of the first two lists ends the loop. *)
Fixpoint check_openings (what : string) (i : nat) (values blindings : list Z) (cs : list Commitment) : Result () ZkError :=
  match values, blindings, cs with
  | v :: values', bf :: blindings', c :: cs' =>
      if negb (verify_commitment c v bf)
      then Err (TraceGenerationFailed (what +:+ " commitment " +:+ pretty (Z.of_nat i) +:+ " does not match value/blinding"))
      else check_openings what (S i) values' blindings' cs'
  | _, _, _ => Ok ()
  end.

Definition check_transfer (inputs : PrivateTransferInputs) (input_values : list Z) (input_blindings : list Hash)
    (output_values : list Z) (output_blindings : list Hash) (fee_value : Z) (fee_blinding : Hash) : Result () ZkError :=
  if negb (length input_values =? length (input_commitments inputs))%nat
  then Err (TraceGenerationFailed "Input values count mismatch with commitments")
  else if negb (length output_values =? length (output_commitments inputs))%nat
  then Err (TraceGenerationFailed "Output values count mismatch with commitments")
  else if negb (u128_sum input_values =? wrapping_add u128_max (u128_sum output_values) fee_value)
  then Err (TraceGenerationFailed "Balance conservation violated: inputs != outputs + fee")
  else match check_openings "Input" 0 input_values input_blindings (input_commitments inputs) with
  | Err e => Err e
  | Ok _ =>
  match check_openings "Output" 0 output_values output_blindings (output_commitments inputs) with
  | Err e => Err e
  | Ok _ =>
      if negb (verify_commitment (fee_commitment inputs) fee_value fee_blinding)
      then Err (TraceGenerationFailed "Fee commitment does not match value/blinding")
      else Ok ()
  end end.

(** [trace.add_..(h, step_idx)?; step_idx += 1] on the trace and the counter. *)
Definition push (add : Hash → Z → M ExecutionTrace ZkError ()) (h : Hash) : M (ExecutionTrace * Z) ZkError () :=
  λ '(t, idx),
    let '(r, t') := add h idx t in
    match r with
    | Ok _ => (Ok (), (t', wrapping_add u64_max idx 1))
    | Err e => (Err e, (t', idx))
    end.

Definition bit_hash (value : Z) (bit_pos : nat) : Hash :=
  if Z.land (Z.shiftr value (Z.of_nat bit_pos)) 1 =? 1 then sha3 [1] else sha3 [0].

(** The trace of a private transfer and the index of its last step. *)
Definition transfer_trace (inputs : PrivateTransferInputs) (input_values output_values : list Z) (proofs : list (list Hash))
  : Result (ExecutionTrace * Z) ZkError :=
  let '(r, (t, idx)) :=
    (push add_state_step (note_set_root inputs) ?;
     for_each (imap pair (input_nullifiers inputs)) (λ '(i, n),
       push add_hash_step (nullifier_data n) ?;
       for_each (default [] (proofs !! i)) (push add_merkle_step)) ?;
     for_each (input_values ++ output_values) (λ v,
       for_each (seq 0 64) (λ bit, push add_hash_step (bit_hash v bit))) ?;
     push add_state_step (sha3 (le_bytes 16 (u128_sum input_values)))) (new_trace (max_trace_length config), 0) in
  match r with
  | Err e => Err e
  | Ok _ =>
      match add_state_step (pt_state_root inputs) idx t with
      | (Ok _, t') => Ok (t', idx)
      | (Err e, _) => Err e
      end
  end.

Definition transfer_tx_root (inputs : PrivateTransferInputs) : Hash :=
  sha3 (concat (map (λ n, hash_bytes (nullifier_data n)) (input_nullifiers inputs))).

Definition prove_private_transfer (inputs : PrivateTransferInputs) (input_values : list Z) (input_blindings : list Hash)
    (output_values : list Z) (output_blindings : list Hash) (fee_value : Z) (fee_blinding : Hash)
    (note_merkle_proofs : list (list Hash)) (elapsed : Z) : M ProverMetrics ZkError StarkProof :=
  lift (check_transfer inputs input_values input_blindings output_values output_blindings fee_value fee_blinding) ?;
  ti <-? lift (transfer_trace inputs input_values output_values note_merkle_proofs) ;
  let state_inputs := mkStateInputs (note_set_root inputs) (pt_state_root inputs) (transfer_tx_root inputs) ti.2 0 0 in
  w <-? lift (generate_winterfell_proof ti.1 state_inputs) ;
  let data := QPT ++ hash_bytes (note_set_root inputs) ++ hash_bytes (pt_state_root inputs) ++ w in
  finish (package (sha3 data) PrivateTransfer data (ser_private inputs) elapsed).

Definition verify_private_transfer_proof (data : list Z) (inputs : PrivateTransferInputs) : Result bool ZkError :=
  if (length data <? 68)%nat then Ok false
  else if negb (bool_decide (slice 0 4 data = QPT)) then Ok false
  else if negb (bool_decide (slice 4 36 data = hash_bytes (note_set_root inputs))) then Ok false
  else if negb (bool_decide (slice 36 68 data = hash_bytes (pt_state_root inputs))) then Ok false
  else
    match input_nullifiers inputs, output_commitments inputs with
    | [], _ => Ok false
    | _, [] => Ok false
    | _, _ =>
        match drop 68 data with
        | [] => Ok false
        | w => verify_winterfell_proof w (mkStateInputs (note_set_root inputs) (pt_state_root inputs) (transfer_tx_root inputs) 1 0 0)
        end
    end.

(** ** Aggregation *)

Definition CHUNK : nat := 1024.

(** One entry: the hash of a chunk, the length of its path as a [u8], the path. *)
Definition chunk_entry (hashes : list Hash) (i : nat) (h : Hash) : list Z :=
  let path := compute_merkle_path hashes i in
  hash_bytes h ++ [Z.of_nat (length path) mod 256] ++ concat (map hash_bytes path).

Definition generate_aggregated_proof (combined_data : list Z) : list Z :=
  let hashes := map sha3 (chunks CHUNK combined_data) in
  QAG ++ le_bytes 8 (Z.of_nat (length combined_data)) ++ hash_bytes (compute_merkle_root hashes) ++
  le_bytes 4 (Z.of_nat (length hashes)) ++ concat (imap (chunk_entry hashes) hashes) ++ combined_data.

Definition aggregate_proofs (proofs : list StarkProof) (elapsed : Z) : Result StarkProof ZkError :=
  match proofs with
  | [] => Err EmptyProofList
  | _ =>
      let data := generate_aggregated_proof (concat (map proof_data proofs)) in
      Ok (package (sha3 data) Aggregated data (ser_list (map public_inputs proofs)) elapsed)
  end.

Definition MAX_MERKLE_PATH_DEPTH : Z := 64.

(** The loop over the entries: the offset behind them and the hashes, or [None] when
    the data is too short. *)
Fixpoint read_entries (n : nat) (data : list Z) (offset : nat) (acc : list Hash) : Result (option (nat * list Hash)) ZkError :=
  match n with
  | O => Ok (Some (offset, acc))
  | S n' =>
      if (length data <? offset + 33)%nat then Ok None
      else
        let h := of_be_bytes (slice offset (offset + 32) data) in
        let path_len := default 0 (data !! (offset + 32)%nat) in
        if MAX_MERKLE_PATH_DEPTH <? path_len then
          Err (VerificationFailed ("Merkle path length " +:+ pretty path_len +:+ " exceeds max " +:+ pretty MAX_MERKLE_PATH_DEPTH))
        else
          let new_offset := (offset + 33 + Z.to_nat path_len * 32)%nat in
          if (length data <? new_offset)%nat then Ok None
          else read_entries n' data new_offset (acc ++ [h])
  end.

(** [offset + combined_size] wraps around, and a range that ends before it begins
    panics. *)
Definition verify_aggregated_proof (data : list Z) : option (Result bool ZkError) :=
  if (length data <? 48)%nat then Some (Ok false)
  else if negb (bool_decide (slice 0 4 data = QAG)) then Some (Ok false)
  else
    let combined_size := of_le_bytes (slice 4 12 data) in
    let claimed_root := of_be_bytes (slice 12 44 data) in
    let num_proofs := of_le_bytes (slice 44 48 data) in
    if num_proofs =? 0 then Some (Ok false)
    else
      match read_entries (Z.to_nat num_proofs) data 48 [] with
      | Err e => Some (Err e)
      | Ok None => Some (Ok false)
      | Ok (Some (offset, chunk_hashes)) =>
          if negb (compute_merkle_root chunk_hashes =? claimed_root) then Some (Ok false)
          else
            let stop := wrapping_add u64_max (Z.of_nat offset) combined_size in
            if Z.of_nat (length data) <? stop then Some (Ok false)
            else if stop <? Z.of_nat offset then None
            else
              let combined_data := slice offset (Z.to_nat stop) data in
              let actual_chunks := map sha3 (chunks CHUNK combined_data) in
              Some (Ok (bool_decide (actual_chunks = chunk_hashes)))
      end.

(** ** Verification *)

Definition de_err {A} (r : Result A string) : Result A ZkError :=
  match r with Ok a => Ok a | Err msg => Err (DeserializationError msg) end.

(** The verdict before the metrics are updated. *)
Definition check_proof (proof : StarkProof) : option (Result bool ZkError) :=
  if MAX_PUBLIC_INPUTS_SIZE <? Z.of_nat (length (public_inputs proof)) then
    Some (Err (DeserializationError ("Public inputs too large: " +:+ pretty (Z.of_nat (length (public_inputs proof))) +:+ " > "
      +:+ pretty MAX_PUBLIC_INPUTS_SIZE)))
  else
    match proof_type proof with
    | StateTransition =>
        Some (match de_err (de_state (public_inputs proof)) with
              | Err e => Err e
              | Ok inputs => verify_winterfell_proof (proof_data proof) inputs
              end)
    | CrossShard =>
        Some (match de_err (de_cross (public_inputs proof)) with
              | Err e => Err e
              | Ok inputs => verify_cross_shard_proof (proof_data proof) inputs
              end)
    | Aggregated | Recursive => verify_aggregated_proof (proof_data proof)
    | ValidatorTransition => Some (verify_validator_transition_proof (proof_data proof))
    | PrivateTransfer =>
        Some (match de_err (de_private (public_inputs proof)) with
              | Err e => Err e
              | Ok inputs => verify_private_transfer_proof (proof_data proof) inputs
              end)
    end.

Definition verify (proof : StarkProof) (m : ProverMetrics) : option (Result bool ZkError * ProverMetrics) :=
  match check_proof proof with
  | None => None
  | Some (Err e) => Some (Err e, m)
  | Some (Ok valid) =>
      Some (Ok valid, mkMetrics (proofs_generated m) (wrapping_add u64_max (proofs_verified m) 1)
                        (avg_generation_time_ms m) (avg_verification_time_us m) (total_proof_bytes m))
  end.

End Prover.

(** ** Chunks and slices *)

Lemma chunks_fuel_concat {A} f n (l : list A) : (0 < n)%nat → (length l ≤ f)%nat → concat (chunks_fuel f n l) = l.
Proof.
  intros Hn. revert l. induction f as [|f IH]; intros [|x l] Hl; try done; [simpl in Hl; lia|].
  cbn [chunks_fuel concat]. rewrite IH, take_drop; [done|]. rewrite length_drop. simpl in *. lia.
Qed.

Lemma chunks_concat {A} n (l : list A) : (0 < n)%nat → concat (chunks n l) = l.
Proof. intros Hn. by apply chunks_fuel_concat. Qed.

Lemma chunks_nonempty {A} n (l : list A) : l ≠ [] → chunks n l ≠ [].
Proof. by destruct l. Qed.

Lemma chunks_fuel_length {A} f n (l : list A) : (length (chunks_fuel f n l) ≤ f)%nat.
Proof. revert l. induction f as [|f IH]; intros [|x l]; cbn [chunks_fuel length]; try lia. specialize (IH (drop n (x :: l))). lia. Qed.

Lemma slice_mid {A} (a b c : list A) n m :
  length a = n → m = (n + length b)%nat → slice n m (a ++ b ++ c) = b.
Proof.
  intros <- ->. unfold slice. rewrite drop_app_length.
  replace (length a + length b - length a)%nat with (length b) by lia. apply take_app_length.
Qed.

(** ** Merkle trees *)

Section MerkleFacts.
Context (sha3 : list Z → Hash).

Lemma compute_merkle_root_eq leaves : compute_merkle_root sha3 leaves = merkle_root sha3 leaves.
Proof.
  destruct leaves as [|a [|b leaves]]; [done..|]. unfold compute_merkle_root, build_merkle_levels.
  by rewrite (proj2 (build_root sha3 (a :: b :: leaves) ltac:(done))).
Qed.

(** The path of a position leads from its leaf to the root. *)
Lemma compute_merkle_path_correct leaves i x :
  leaves !! i = Some x → fold_proof sha3 (compute_merkle_path sha3 leaves i) x i = compute_merkle_root sha3 leaves.
Proof.
  intros Hi. rewrite compute_merkle_root_eq. unfold compute_merkle_path.
  destruct (Nat.leb_spec (length leaves) 1) as [Hle|Hgt].
  - destruct leaves as [|a [|b leaves]]; [done| |simpl in Hle; lia]. destruct i; [by injection Hi as ->|done].
  - unfold build_merkle_levels. destruct (tree_levels sha3 (length leaves) leaves) as [|l ls] eqn:Hlv;
      [by destruct leaves|]. rewrite take_but_last, <- Hlv.
    apply fold_proof_complete; [lia|done|]. apply build_root. by intros ->.
Qed.

Lemma tree_levels_depth f l k : (length l ≤ 2 ^ k)%nat → (length (tree_levels sha3 f l) ≤ S k)%nat.
Proof.
  revert l k. induction f as [|f IH]; intros l k Hl; cbn [tree_levels]; simpl; [lia|].
  destruct (Nat.leb_spec (length l) 1) as [Hle|Hgt]; simpl; [lia|].
  destruct k as [|k]; [simpl in Hl; lia|]. cut (length (tree_levels sha3 f (next_level sha3 l)) ≤ S k)%nat; [lia|].
  apply IH. rewrite next_level_length. pose proof (div2_half (S (length l))). rewrite Nat.pow_succ_r' in Hl. lia.
Qed.

Lemma proof_siblings_length levels i : length (proof_siblings levels i) = length levels.
Proof. revert i. induction levels as [|l levels IH]; intros i; simpl; [done|]. by rewrite IH. Qed.

Lemma compute_merkle_path_length leaves i k : (length leaves ≤ 2 ^ k)%nat → (length (compute_merkle_path sha3 leaves i) ≤ k)%nat.
Proof.
  intros Hk. unfold compute_merkle_path. destruct (length leaves <=? 1)%nat; [simpl; lia|].
  rewrite proof_siblings_length, length_take. pose proof (tree_levels_depth (length leaves) leaves k Hk).
  unfold build_merkle_levels. lia.
Qed.

(** ** Reading what was written *)

Definition entry_bytes (e : Hash * list Hash) : list Z :=
  hash_bytes e.1 ++ [Z.of_nat (length e.2) mod 256] ++ concat (map hash_bytes e.2).

Lemma path_bytes_length path : length (concat (map hash_bytes path)) = (length path * 32)%nat.
Proof. induction path as [|h path IH]; [done|]. cbn [map concat]. rewrite length_app, IH, hash_bytes_length. simpl. lia. Qed.

Lemma entry_bytes_length e : length (entry_bytes e) = (33 + length e.2 * 32)%nat.
Proof. unfold entry_bytes. rewrite !length_app, path_bytes_length, hash_bytes_length. simpl. lia. Qed.

Lemma read_entries_ok (es : list (Hash * list Hash)) pre rest acc :
  Forall (λ e, is_hash e.1 ∧ (length e.2 ≤ 64)%nat) es →
  read_entries (length es) (pre ++ concat (map entry_bytes es) ++ rest) (length pre) acc =
  Ok (Some ((length pre + length (concat (map entry_bytes es)))%nat, acc ++ map fst es)).
Proof.
  intros Hes. revert pre acc. induction Hes as [|e es [Hh Hp] Hes IH]; intros pre acc.
  { simpl. by rewrite Nat.add_0_r, app_nil_r. }
  pose proof (entry_bytes_length e) as Hel. cbn [length map concat read_entries].
  rewrite <- (app_assoc (entry_bytes e)). set (tail := concat (map entry_bytes es) ++ rest) in *.
  assert (Hlen : length (pre ++ entry_bytes e ++ tail) = (length pre + (33 + length e.2 * 32) + length tail)%nat)
    by (rewrite !length_app; lia).
  rewrite Hlen, (proj2 (Nat.ltb_ge _ _)) by lia.
  assert (Hslice : slice (length pre) (length pre + 32) (pre ++ entry_bytes e ++ tail) = hash_bytes e.1).
  { unfold entry_bytes. rewrite <- !app_assoc. apply slice_mid; [done|]. by rewrite hash_bytes_length. }
  rewrite Hslice, of_be_hash_bytes by done.
  assert (Hpl : (pre ++ entry_bytes e ++ tail) !! (length pre + 32)%nat = Some (Z.of_nat (length e.2))).
  { rewrite lookup_app_r by lia. unfold entry_bytes. rewrite <- !app_assoc. rewrite lookup_app_r by (rewrite hash_bytes_length; lia).
    rewrite hash_bytes_length. replace (length pre + 32 - length pre - 32)%nat with 0%nat by lia. simpl. f_equal. apply Z.mod_small. lia. }
  rewrite Hpl. cbn [default from_option id]. rewrite (proj2 (Z.ltb_ge _ _)) by (unfold MAX_MERKLE_PATH_DEPTH; lia).
  rewrite Nat2Z.id, (proj2 (Nat.ltb_ge _ _)) by lia.
  specialize (IH (pre ++ entry_bytes e) (acc ++ [e.1])).
  rewrite length_app, entry_bytes_length, <- app_assoc in IH. fold tail in IH.
  replace (length pre + 33 + length e.2 * 32)%nat with (length pre + (33 + length e.2 * 32))%nat by lia.
  rewrite IH, <- app_assoc. do 3 f_equal. rewrite length_app, entry_bytes_length. lia.
Qed.

Lemma read_entries_hashes n data off acc off' hs :
  read_entries n data off acc = Ok (Some (off', hs)) → (off ≤ off')%nat ∧ length hs = (length acc + n)%nat.
Proof.
  revert off acc. induction n as [|n IH]; intros off acc; cbn [read_entries].
  { intros [= <- <-]. lia. }
  destruct (_ <? _)%nat; [done|]. destruct (_ <? _); [done|]. destruct (_ <? _)%nat; [done|].
  intros [Hle Hl]%IH. rewrite length_app in Hl. simpl in Hl. lia.
Qed.

End MerkleFacts.

(** ** Aggregated proofs *)

Section AggregationFacts.
Context (sha3 : list Z → Hash) (sha3_hash : ∀ m, is_hash (sha3 m)).

Lemma climb_is_hash f l : Forall is_hash l → Forall is_hash (climb sha3 f l).
Proof.
  revert l. induction f as [|f IH]; intros l Hl; simpl; [done|]. destruct (1 <? length l)%nat; [|done].
  apply IH. unfold next_level. apply list.Forall_fmap, list.Forall_forall. intros m _. apply sha3_hash.
Qed.

Lemma compute_merkle_root_is_hash l : Forall is_hash l → is_hash (compute_merkle_root sha3 l).
Proof.
  intros Hl. rewrite compute_merkle_root_eq. destruct l as [|a [|b l]]; [done|by apply list.Forall_cons in Hl as [? _]|].
  unfold merkle_root. pose proof (climb_is_hash (length (a :: b :: l)) _ Hl) as Hc.
  destruct (climb _ _ _); [done|]. by apply list.Forall_cons in Hc as [? _].
Qed.

Lemma aggregated_entries hashes :
  concat (imap (chunk_entry sha3 hashes) hashes) =
  concat (map entry_bytes (imap (λ i h, (h, compute_merkle_path sha3 hashes i)) hashes)).
Proof. f_equal. symmetry. exact (fmap_imap _ entry_bytes hashes). Qed.

Lemma entries_ok l : Forall is_hash l → Z.of_nat (length l) ≤ u32_max →
  Forall (λ e, is_hash e.1 ∧ (length e.2 ≤ 64)%nat) (imap (λ i h, (h, compute_merkle_path sha3 l i)) l).
Proof.
  intros Hl Hlen. apply list.Forall_lookup. intros i e. rewrite list_lookup_imap. intros (h & Hi & ->)%fmap_Some. simpl.
  split; [by eapply list.Forall_lookup_1|].
  assert (Hk : (length l ≤ 2 ^ 32)%nat).
  { apply Nat2Z.inj_le. rewrite Nat2Z.inj_pow. unfold u32_max in Hlen. change (Z.of_nat 2 ^ Z.of_nat 32) with 4294967296. lia. }
  pose proof (compute_merkle_path_length sha3 l i 32 Hk). lia.
Qed.

(** What the header of an aggregated proof says. *)
Lemma header_fields size root num rest :
  length size = 8%nat → length root = 32%nat → length num = 4%nat →
  slice 0 4 (QAG ++ size ++ root ++ num ++ rest) = QAG ∧ slice 4 12 (QAG ++ size ++ root ++ num ++ rest) = size ∧
  slice 12 44 (QAG ++ size ++ root ++ num ++ rest) = root ∧ slice 44 48 (QAG ++ size ++ root ++ num ++ rest) = num.
Proof.
  intros Hl1 Hl2 Hl3. split_and!.
  - done.
  - apply slice_mid; simpl; lia.
  - rewrite (app_assoc QAG). apply slice_mid; rewrite ?length_app; simpl; lia.
  - rewrite (app_assoc QAG), (app_assoc (QAG ++ size)). apply slice_mid; rewrite ?length_app; simpl; lia.
Qed.

(** The verifier on data with a well-formed header and entries. *)
Lemma verify_layout size root hashes paths rest :
  0 ≤ size ≤ u64_max → is_hash root → 0 < Z.of_nat (length hashes) ≤ u32_max → length paths = length hashes →
  Forall (λ e, is_hash e.1 ∧ (length e.2 ≤ 64)%nat) (zip hashes paths) →
  let entries := concat (map entry_bytes (zip hashes paths)) in
  let data := QAG ++ le_bytes 8 size ++ hash_bytes root ++ le_bytes 4 (Z.of_nat (length hashes)) ++ entries ++ rest in
  let offset := (48 + length entries)%nat in
  verify_aggregated_proof sha3 data =
  if negb (compute_merkle_root sha3 hashes =? root) then Some (Ok false)
  else
    let stop := wrapping_add u64_max (Z.of_nat offset) size in
    if Z.of_nat (length data) <? stop then Some (Ok false)
    else if stop <? Z.of_nat offset then None
    else Some (Ok (bool_decide (map sha3 (chunks CHUNK (slice offset (Z.to_nat stop) data)) = hashes))).
Proof.
  intros Hs Hr Hn Hp Hes entries data offset.
  destruct (header_fields (le_bytes 8 size) (hash_bytes root) (le_bytes 4 (Z.of_nat (length hashes))) (entries ++ rest)) as (S1 & S2 & S3 & S4);
    [apply le_bytes_length|apply hash_bytes_length|apply le_bytes_length|].
  fold data in S1, S2, S3, S4. unfold verify_aggregated_proof.
  assert (Hlen : (48 ≤ length data)%nat).
  { unfold data. rewrite !length_app, !le_bytes_length, hash_bytes_length. simpl. lia. }
  rewrite (proj2 (Nat.ltb_ge _ _)) by done. rewrite S1, bool_decide_eq_true_2 by done. cbn [negb].
  rewrite S2, S3, S4, !of_le_le_bytes, of_be_hash_bytes by (try done; unfold u32_max, u64_max in *; lia).
  rewrite (proj2 (Z.eqb_neq _ _)) by lia. rewrite Nat2Z.id.
  assert (Hre : read_entries (length hashes) data 48 [] = Ok (Some (offset, hashes))); [|by rewrite Hre].
  pose proof (read_entries_ok (zip hashes paths) (QAG ++ le_bytes 8 size ++ hash_bytes root ++ le_bytes 4 (Z.of_nat (length hashes))) rest [] Hes) as Hok.
  rewrite length_zip_with, Hp, Nat.min_id, !length_app, !le_bytes_length, hash_bytes_length, <- !app_assoc in Hok.
  unfold data. etransitivity; [exact Hok|]. do 3 f_equal.
  change (map fst (zip hashes paths)) with (fst <$> zip hashes paths). apply fst_zip. lia.
Qed.

Lemma imap_zip {A B} (f : nat → A → B) l : imap (λ i x, (x, f i x)) l = zip l (imap f l).
Proof. revert f. induction l as [|x l IH]; intros f; simpl; [done|]. f_equal. apply IH. Qed.

Lemma verify_generated data :
  data ≠ [] → Z.of_nat (length (chunks CHUNK data)) ≤ u32_max →
  Z.of_nat (length (generate_aggregated_proof sha3 data)) ≤ u64_max →
  verify_aggregated_proof sha3 (generate_aggregated_proof sha3 data) = Some (Ok true).
Proof.
  intros Hne Hn Htotal. unfold generate_aggregated_proof in *. cbv zeta in *.
  set (hashes := map sha3 (chunks CHUNK data)) in *.
  assert (Hlh : length hashes = length (chunks CHUNK data)) by apply length_map.
  assert (Hpos : (0 < length hashes)%nat).
  { rewrite Hlh. pose proof (chunks_nonempty CHUNK data Hne). destruct (chunks CHUNK data); [done|simpl; lia]. }
  assert (Hhash : Forall is_hash hashes) by (apply list.Forall_fmap, list.Forall_forall; intros; apply sha3_hash).
  pose proof (entries_ok hashes Hhash ltac:(lia)) as Hes.
  rewrite aggregated_entries, imap_zip in *. set (paths := imap _ hashes) in *.
  rewrite !length_app, !le_bytes_length, hash_bytes_length in Htotal. simpl in Htotal.
  rewrite verify_layout; try done; [|lia|by apply compute_merkle_root_is_hash|lia|unfold paths; by rewrite length_imap].
  rewrite Z.eqb_refl. cbn [negb]. cbv zeta.
  set (entries := concat _) in *.
  assert (Hstop : wrapping_add u64_max (Z.of_nat (48 + length entries)) (Z.of_nat (length data)) = Z.of_nat (48 + length entries + length data)).
  { unfold wrapping_add. rewrite Z.mod_small; lia. }
  rewrite Hstop, !length_app, !le_bytes_length, hash_bytes_length. simpl length.
  rewrite (proj2 (Z.ltb_ge _ _)) by lia. rewrite (proj2 (Z.ltb_ge _ _)) by lia.
  rewrite Nat2Z.id. do 2 f_equal. apply bool_decide_eq_true_2. unfold hashes. do 2 f_equal.
  match goal with |- slice _ _ ?l = _ =>
    replace l with ((QAG ++ le_bytes 8 (Z.of_nat (length data)) ++ hash_bytes (compute_merkle_root sha3 hashes) ++
      le_bytes 4 (Z.of_nat (length hashes)) ++ entries) ++ data ++ []) by (by rewrite app_nil_r, <- !app_assoc) end.
  apply slice_mid; [|done]. rewrite !length_app, !le_bytes_length, hash_bytes_length. simpl. lia.
Qed.

(** A size field that makes the end of the data wrap around. *)
Lemma verify_wrapped h : is_hash h →
  verify_aggregated_proof sha3 (QAG ++ le_bytes 8 u64_max ++ hash_bytes h ++ le_bytes 4 1 ++ hash_bytes h ++ [0]) = None.
Proof.
  intros Hh. pose proof (verify_layout u64_max h [h] [[]] []) as Hv. cbv zeta in Hv.
  cbn [length zip zip_with map concat] in Hv. unfold entry_bytes in Hv. cbn [fst snd length map concat] in Hv. rewrite !app_nil_r in Hv.
  change (Z.of_nat 0 mod 256) with 0 in Hv. change (Z.of_nat 1) with 1 in Hv. rewrite Hv; try done; [|apply list.Forall_singleton; split; [exact Hh|simpl; lia]].
  change (compute_merkle_root sha3 [h]) with h. rewrite Z.eqb_refl. cbn [negb].
  rewrite !length_app, !le_bytes_length, hash_bytes_length. done.
Qed.
End AggregationFacts.

(** ** Traces stay within their capacity *)

Definition within (max : Z) (t : ExecutionTrace) : Prop := max_length t = max ∧ trace_len t ≤ max.

Create HintDb zk discriminated.

Lemma add_step_within max op words h i t : within max t → within max (add_step op words h i t).2.
Proof.
  intros [Hm Hl]. unfold add_step. destruct (Z.leb_spec (max_length t) (trace_len t)); simpl; [by split|].
  split; [done|]. unfold trace_len in *. simpl. rewrite length_app. simpl. lia.
Qed.

Lemma next_index_within max i msg t : within max t → within max (next_index i msg t).2.
Proof. done. Qed.

Lemma for_each_within {A S E} (P : S → Prop) (l : list A) (body : A → M S E ()) s :
  (∀ x s, P s → P (body x s).2) → P s → P (for_each l body s).2.
Proof. intros Hb. apply for_each_inv. auto. Qed.

Lemma bindM_within {A B S E} (P : S → Prop) (m : M S E A) (k : A → M S E B) s :
  (∀ s, P s → P (m s).2) → (∀ a s, P s → P (k a s).2) → P s → P (bindM m k s).2.
Proof. intros Hm Hk Hs. apply bindM_inv; auto. Qed.

#[export] Hint Resolve add_step_within next_index_within : zk.

Ltac within :=
  repeat first
    [ progress intros
    | apply for_each_within
    | apply bindM_within
    | match goal with
      | |- within _ (match ?x with _ => _ end _).2 => destruct x
      end
    | solve [eauto with zk] ].

Lemma run_trace_within max m t :
  0 ≤ max → (∀ t, within max t → within max (m t).2) → run_trace max m = Ok t → within max t.
Proof.
  intros Hmax Hm. unfold run_trace. specialize (Hm (new_trace max) (conj eq_refl Hmax)).
  destruct (m (new_trace max)) as [[[]|e] t']; [|done]. by intros [= <-].
Qed.

Lemma push_within max add h s :
  (∀ h i t, within max t → within max (add h i t).2) → within max s.1 → within max (push add h s).2.1.
Proof.
  intros Hadd Hs. destruct s as [t idx]. unfold push. specialize (Hadd h idx t Hs).
  by destruct (add h idx t) as [[[]|e] t'].
Qed.

Section Rejection.
Context (sha3 : list Z → Hash) `{FieldElement E} `{!Winterfell E} `{Bincode} (config : ZkConfig).
Context (Hconfig : fits u64_max (max_trace_length config)).

Lemma state_trace_within transactions inputs t :
  build_state_transition_trace config transactions inputs = Ok t → trace_len t ≤ u64_max.
Proof.
  unfold fits in Hconfig. unfold build_state_transition_trace. intros Ht.
  apply run_trace_within in Ht as [_ Hl]; [lia|lia|]. unfold add_state_step, add_transaction_step. within.
Qed.

Lemma cross_trace_within inputs merkle_proof t :
  Z.of_nat (length merkle_proof) + 10 ≤ u64_max →
  build_cross_shard_trace inputs merkle_proof = Ok t → trace_len t ≤ u64_max.
Proof.
  unfold build_cross_shard_trace. intros Hm Ht. apply run_trace_within in Ht as [_ Hl]; [lia|lia|].
  unfold add_hash_step, add_merkle_step. within.
Qed.

Lemma transfer_trace_within inputs vi vo proofs t idx :
  transfer_trace sha3 config inputs vi vo proofs = Ok (t, idx) → trace_len t ≤ u64_max.
Proof.
  unfold fits in Hconfig. unfold transfer_trace.
  match goal with |- context [let '(_, _) := ?m (?t0, 0) in _] => set (body := m); set (start := t0) end.
  set (P := λ s : ExecutionTrace * Z, within (max_trace_length config) s.1).
  assert (Hp : ∀ op words h s, P s → P (push (add_step op words) h s).2).
  { intros. apply push_within; [|done]. intros. by apply add_step_within. }
  assert (Hb : P (body (start, 0)).2).
  { unfold body. clear body. unfold add_state_step, add_hash_step, add_merkle_step.
    repeat first [progress intros | done | apply (for_each_within P) | apply (bindM_within P)
      | match goal with |- P (match ?x with _ => _ end _).2 => destruct x end | solve [by apply Hp] ].
    unfold P, start. simpl. split; [done|]. unfold trace_len. simpl. lia. }
  destruct (body (start, 0)) as [[[]|e] [t' idx']]; [|done]. unfold P in Hb. simpl in Hb.
  pose proof (add_step_within _ OpState "Trace truncated at step " (pt_state_root inputs) idx' t' Hb) as Ha.
  unfold add_state_step. destruct (add_step _ _ _ _ _) as [[[]|e] t'']; [|done]. intros [= <- <-]. destruct Ha as [_ Ha]. simpl in Ha. lia.
Qed.

Lemma table_length t inputs (table : list (list E)) :
  build_winterfell_trace config t inputs = Ok table → trace_len t ≤ u64_max → Z.of_nat (length table) ≤ u64_max.
Proof.
  unfold fits in Hconfig. unfold build_winterfell_trace. destruct (Z.ltb_spec (max_trace_length config) (padded_len t)); [done|].
  intros [= <-] Ht. rewrite length_app, length_map, length_seq, fill_rows_length. unfold trace_len in Ht. lia.
Qed.

(** A proof is accepted only for the public inputs it was made for: they seed the
    random coin that prover and verifier share. *)
Class WinterfellBinding : Prop :=
  winterfell_binding : ∀ opts pub (table : list (list E)) bytes proof pub' security,
    winter_prove opts pub table = Ok bytes → winter_from_bytes bytes = Ok proof →
    winter_verify proof pub' security = Ok () → to_elements pub' = to_elements pub.

Context `{!WinterfellBinding} `{!FromU64Inj E}.

Lemma winterfell_rejected t inputs inputs' w :
  generate_winterfell_proof config t inputs = Ok w → trace_len t ≤ u64_max → fits u64_max (tx_count inputs') →
  verify_winterfell_proof w inputs' ≠ Ok true.
Proof.
  unfold generate_winterfell_proof, verify_winterfell_proof. intros Hg Ht Hc.
  destruct (build_winterfell_trace config t inputs) as [table|] eqn:Hb; [|done].
  destruct (winter_prove _ _ table) as [bytes|] eqn:Hp; [|done]. injection Hg as <-.
  destruct (winter_from_bytes bytes) as [proof|] eqn:Hf; [|done].
  destruct (winter_verify proof _ 96) as [[]|] eqn:Hv; [|done]. intros _.
  pose proof (winterfell_binding _ _ _ _ _ _ _ Hp Hf Hv) as Heq. symmetry in Heq.
  exact (public_inputs_never_match table inputs' Hc (table_length _ _ _ Hb Ht) Heq).
Qed.

(** A proof with its header in front, checked behind the header. *)
Lemma drop_header (h w : list Z) n : length h = n → drop n (h ++ w) = w.
Proof. intros <-. apply drop_app_length. Qed.
End Rejection.

Class BincodeLaws `{Bincode} : Prop :=
  de_state_fits data inputs : de_state data = Ok inputs → fits u64_max (tx_count inputs).

(** ** Proofs the node makes *)

Section Honest.
Context (sha3 : list Z → Hash) `{FieldElement E} `{!Winterfell E} `{Bincode} (config : ZkConfig).

Inductive honest : StarkProof → Prop :=
  | honest_state transactions inputs elapsed m m' p :
      prove_state_transition sha3 config transactions inputs elapsed m = (Ok p, m') → honest p
  | honest_cross inputs merkle_proof elapsed m m' p :
      Z.of_nat (length merkle_proof) + 10 ≤ u64_max →
      prove_cross_shard sha3 config inputs merkle_proof elapsed m = (Ok p, m') → honest p
  | honest_batch batch_id transactions inputs elapsed m m' p :
      prove_cross_shard_batch sha3 config batch_id transactions inputs elapsed m = (Ok p, m') → honest p
  | honest_validator old_root new_root changes elapsed m m' p :
      prove_validator_transition sha3 config old_root new_root changes elapsed m = (Ok p, m') → honest p
  | honest_private inputs vi bi vo bo fee fee_bf proofs elapsed m m' p :
      prove_private_transfer sha3 config inputs vi bi vo bo fee fee_bf proofs elapsed m = (Ok p, m') → honest p.

(** *** The shape of their data *)

Ltac open_prover H := unfold finish, fail_if, bindM, lift, modify, returns in H; split_hyp H.

Lemma prove_state_shape transactions inputs elapsed m m' p :
  prove_state_transition sha3 config transactions inputs elapsed m = (Ok p, m') →
  ∃ t, build_state_transition_trace config transactions inputs = Ok t ∧
    generate_winterfell_proof config t inputs = Ok (proof_data p) ∧ proof_type p = StateTransition.
Proof. unfold prove_state_transition. intros Hp. open_prover Hp. eauto. Qed.

Lemma prove_cross_shape inputs merkle_proof elapsed m m' p :
  prove_cross_shard sha3 config inputs merkle_proof elapsed m = (Ok p, m') →
  ∃ t w, build_cross_shard_trace inputs merkle_proof = Ok t ∧
    generate_winterfell_proof config t (cross_state_inputs inputs) = Ok w ∧ proof_type p = CrossShard ∧
    proof_data p = QXS ++ le_bytes 2 (source_shard inputs) ++ le_bytes 2 (dest_shard inputs) ++ hash_bytes (message_hash inputs) ++ w.
Proof.
  unfold prove_cross_shard, generate_cross_shard_stark_proof. intros Hp. open_prover Hp. eauto 10.
Qed.

Lemma prove_batch_shape batch_id transactions inputs elapsed m m' p :
  prove_cross_shard_batch sha3 config batch_id transactions inputs elapsed m = (Ok p, m') →
  ∃ rest, proof_type p = CrossShard ∧ proof_data p = QBT ++ rest.
Proof.
  unfold prove_cross_shard_batch, generate_batch_stark_proof, fail_if, bindM, lift. intros Hp.
  destruct (_ <? _); [done|]. destruct (run_trace _ _) as [t|]; [|done].
  destruct (generate_winterfell_proof _ _ _) as [w|]; [|done]. injection Hp as <- _. by eexists.
Qed.

Lemma prove_validator_shape old_root new_root changes elapsed m m' p :
  fits u64_max (max_trace_length config) →
  prove_validator_transition sha3 config old_root new_root changes elapsed m = (Ok p, m') →
  ∃ t inputs w, trace_len t ≤ u64_max ∧ generate_winterfell_proof config t inputs = Ok w ∧
    proof_type p = ValidatorTransition ∧ proof_data p = QVT ++ hash_bytes old_root ++ hash_bytes new_root ++ w.
Proof.
  unfold prove_validator_transition, fits. intros Hc Hp. unfold lift at 1 in Hp. unfold bindM at 1 in Hp.
  destruct (run_trace _ _) as [t|] eqn:Ht; [|done].
  apply run_trace_within in Ht as [_ Hl]; [|lia|unfold add_state_step; within].
  open_prover Hp. eexists t, _, _. split_and!; [lia|done..].
Qed.

Lemma prove_private_shape inputs vi bi vo bo fee fee_bf proofs elapsed m m' p :
  prove_private_transfer sha3 config inputs vi bi vo bo fee fee_bf proofs elapsed m = (Ok p, m') →
  check_transfer sha3 inputs vi bi vo bo fee fee_bf = Ok () ∧
  ∃ t idx state_inputs w, transfer_trace sha3 config inputs vi vo proofs = Ok (t, idx) ∧
    generate_winterfell_proof config t state_inputs = Ok w ∧ proof_type p = PrivateTransfer ∧
    proof_data p = QPT ++ hash_bytes (note_set_root inputs) ++ hash_bytes (pt_state_root inputs) ++ w.
Proof.
  unfold prove_private_transfer. intros Hp. unfold lift, bindM in Hp.
  destruct (check_transfer _ _ _ _ _ _ _ _) as [[]|]; [|done]. split; [done|].
  destruct (transfer_trace _ _ _ _ _ _) as [[t idx]|]; [|done]. cbn [fst snd] in Hp.
  destruct (generate_winterfell_proof _ _ _) as [w|] eqn:Hw; [|done]. injection Hp as <- _.
  by eexists _, _, _, _.
Qed.

(** *** None is accepted *)

Context (Hconfig : fits u64_max (max_trace_length config)) `{!WinterfellBinding} `{!FromU64Inj E} `{!BincodeLaws}.

Lemma honest_rejected p : honest p → check_proof sha3 p ≠ Some (Ok true).
Proof.
  intros Hp. unfold check_proof. destruct (_ <? _); [done|]. destruct Hp as
    [transactions inputs elapsed m m' p Hp|inputs path elapsed m m' p Hlen Hp|id transactions inputs elapsed m m' p Hp
    |old_root new_root changes elapsed m m' p Hp|inputs vi bi vo bo fee fee_bf proofs elapsed m m' p Hp].
  - apply prove_state_shape in Hp as (t & Ht & Hg & ->). intros [= Hv].
    destruct (de_state (public_inputs p)) as [inputs'|] eqn:Hd; [|done].
    revert Hv. eapply (winterfell_rejected config Hconfig t); [exact Hg|by eapply state_trace_within|by eapply de_state_fits].
  - apply prove_cross_shape in Hp as (t & w & Ht & Hg & -> & Hdata). intros [= Hv].
    destruct (de_cross (public_inputs p)) as [inputs'|] eqn:Hd; [|done]. simpl in Hv.
    unfold verify_cross_shard_proof in Hv. rewrite Hdata in Hv. rewrite !app_assoc in Hv.
    rewrite (drop_header _ w 40) in Hv by (rewrite !length_app, !le_bytes_length, hash_bytes_length; done).
    destruct (_ <? _)%nat; [done|]. destruct (negb _); [done|]. cbv zeta in Hv. destruct (_ || _); [done|].
    destruct (negb _); [done|]. destruct w; [done|].
    revert Hv. by eapply (winterfell_rejected config Hconfig t); [exact Hg|eapply cross_trace_within|].
  - apply prove_batch_shape in Hp as (rest & -> & Hdata). intros [= Hv].
    destruct (de_cross (public_inputs p)) as [inputs'|] eqn:Hd; [|done]. simpl in Hv.
    unfold verify_cross_shard_proof in Hv. rewrite Hdata in Hv. destruct (_ <? _)%nat; [done|].
    rewrite bool_decide_eq_false_2 in Hv; done.
  - apply prove_validator_shape in Hp as (t & inputs & w & Ht & Hg & -> & Hdata); [|done]. intros [= Hv].
    unfold verify_validator_transition_proof in Hv. rewrite Hdata in Hv. rewrite !app_assoc in Hv.
    rewrite (drop_header _ w 68) in Hv by (rewrite !length_app, !hash_bytes_length; done).
    destruct (_ <? _)%nat; [done|]. destruct (negb _); [done|]. destruct w; [done|].
    revert Hv. by eapply (winterfell_rejected config Hconfig t); [exact Hg|..].
  - apply prove_private_shape in Hp as (_ & t & idx & si & w & Ht & Hg & -> & Hdata). intros [= Hv].
    destruct (de_private (public_inputs p)) as [inputs'|] eqn:Hd; [|done]. simpl in Hv.
    unfold verify_private_transfer_proof in Hv. rewrite Hdata in Hv. rewrite !app_assoc in Hv.
    rewrite (drop_header _ w 68) in Hv by (rewrite !length_app, !hash_bytes_length; done).
    destruct (_ <? _)%nat; [done|]. do 3 (destruct (negb _); [done|]). destruct (input_nullifiers _); [done|].
    destruct (output_commitments _); [done|]. destruct w; [done|].
    revert Hv. by eapply (winterfell_rejected config Hconfig t); [exact Hg|eapply transfer_trace_within|].
Qed.
End Honest.

(** ** Private transfers *)

Section Transfers.
Context (sha3 : list Z → Hash).

Lemma check_openings_sound what i values blindings cs :
  check_openings sha3 what i values blindings cs = Ok () →
  ∀ k v b c, values !! k = Some v → blindings !! k = Some b → cs !! k = Some c → c = new_commitment sha3 v b.
Proof.
  revert i blindings cs. induction values as [|v values IH]; intros i [|b blindings] [|c cs] Hok k v' b' c'; try done.
  cbn [check_openings] in Hok. destruct (verify_commitment sha3 c v b) eqn:Hv; [|done]. cbn [negb] in Hok.
  destruct k as [|k]; [|exact (IH _ _ _ Hok k v' b' c')]. intros [= <-] [= <-] [= <-].
  unfold verify_commitment in Hv. apply Z.eqb_eq in Hv. destruct c as [d]. simpl in Hv. by rewrite Hv.
Qed.

Lemma check_openings_nil what i values cs : check_openings sha3 what i values [] cs = Ok ().
Proof. by destruct values. Qed.

Lemma u128_sum_exact l :
  Forall (fits u64_max) l → Z.of_nat (length l) ≤ u64_max →
  u128_sum l = foldr Z.add 0 l ∧ 0 ≤ foldr Z.add 0 l ≤ u64_max * u64_max.
Proof.
  intros Hl Hn. assert (Hb : 0 ≤ foldr Z.add 0 l ≤ Z.of_nat (length l) * u64_max).
  { clear Hn. induction Hl as [|x l Hx Hl IH]; simpl; [done|]. unfold fits in Hx. lia. }
  assert (Hle : Z.of_nat (length l) * u64_max ≤ u64_max * u64_max) by (apply Z.mul_le_mono_nonneg_r; unfold u64_max in *; lia).
  split; [|lia]. unfold u128_sum.
  pose proof (foldl_wrapping_add (λ x : Z, x) u128_max l 0) as Hf.
  change (0 mod (u128_max + 1)) with 0 in Hf. etransitivity; [exact Hf|].
  rewrite Z.add_0_l. apply Z.mod_small. unfold u64_max, u128_max in *. change (foldr (λ x acc, x + acc) 0 l) with (foldr Z.add 0 l). lia.
Qed.

End Transfers.

(** ** Theorems *)

(** No proof that the node itself makes passes its own verification: for every
    state transition, cross-shard message, batch, validator transition and private
    transfer that the prover proves, [check_proof] does not answer that the proof is
    valid. *)
Theorem honest_proofs_rejected (sha3 : list Z → Hash) `{FieldElement E} `{!Winterfell E} `{Bincode}
    `{!WinterfellBinding} `{!FromU64Inj E} `{!BincodeLaws} config p m :
  fits u64_max (max_trace_length config) → honest sha3 config p → ∀ m', verify sha3 p m ≠ Some (Ok true, m').
Proof.
  intros Hc Hp m' Hv. apply (honest_rejected sha3 config Hc p Hp).
  unfold verify in Hv. destruct (check_proof sha3 p) as [[b|e]|]; [|done|done]. by injection Hv as -> _.
Qed.

(** An aggregate of any proofs, valid or not, is accepted: whatever the data of
    the proofs (at least one byte in all), aggregating them succeeds and the
    verification of the aggregate answers [true]. *)
Theorem aggregation_accepts_anything (sha3 : list Z → Hash) `{FieldElement E} `{!Winterfell E} `{Bincode} proofs elapsed :
  (∀ m, is_hash (sha3 m)) →
  concat (map proof_data proofs) ≠ [] →
  Z.of_nat (length (chunks CHUNK (concat (map proof_data proofs)))) ≤ u32_max →
  Z.of_nat (length (generate_aggregated_proof sha3 (concat (map proof_data proofs)))) ≤ u64_max →
  Z.of_nat (length (default [] (ser_list (map public_inputs proofs)))) ≤ MAX_PUBLIC_INPUTS_SIZE →
  ∃ p, aggregate_proofs sha3 proofs elapsed = Ok p ∧ check_proof sha3 p = Some (Ok true).
Proof.
  intros Hsha Hne Hchunks Htotal Hsize. unfold aggregate_proofs. destruct proofs as [|q qs] eqn:Hq; [done|]. rewrite <- Hq in *.
  eexists. split; [done|]. unfold check_proof, package. cbn [public_inputs proof_type proof_data].
  rewrite (proj2 (Z.ltb_ge _ _)) by done. by apply verify_generated.
Qed.

(** What an accepted aggregate does say: its Merkle root is the root over the
    hashes of the 1024-byte chunks of the data it carries. *)
Theorem aggregated_root_binds sha3 data :
  verify_aggregated_proof sha3 data = Some (Ok true) →
  ∃ offset stop, (48 ≤ offset ≤ stop)%nat ∧ (stop ≤ length data)%nat ∧
    of_be_bytes (slice 12 44 data) = compute_merkle_root sha3 (map sha3 (chunks CHUNK (slice offset stop data))).
Proof.
  unfold verify_aggregated_proof. destruct (_ <? _)%nat; [done|]. destruct (negb _); [done|]. destruct (_ =? 0); [done|].
  destruct (read_entries _ _ _ _) as [[[offset hs]|]|] eqn:Hre; [|done|done].
  destruct (negb _) eqn:Hroot; [done|]. cbv zeta.
  destruct (Z.ltb_spec (Z.of_nat (length data)) (wrapping_add u64_max (Z.of_nat offset) (of_le_bytes (slice 4 12 data)))) as [|Hle]; [done|].
  destruct (Z.ltb_spec (wrapping_add u64_max (Z.of_nat offset) (of_le_bytes (slice 4 12 data))) (Z.of_nat offset)) as [|Hge]; [done|].
  set (stop := wrapping_add _ _ _) in *. intros [= Hb%bool_decide_eq_true_1].
  apply read_entries_hashes in Hre as [Hoff _]. apply negb_false_iff, Z.eqb_eq in Hroot.
  exists offset, (Z.to_nat stop). split_and!; [lia..|]. by rewrite Hb, Hroot.
Qed.

(** A short message makes the verifier panic: with the greatest size in its size
    field the end of the data wraps around to a point before its beginning. *)
Theorem aggregated_verify_panics (sha3 : list Z → Hash) `{FieldElement E} `{!Winterfell E} `{Bincode} h id inputs m :
  is_hash h → Z.of_nat (length inputs) ≤ MAX_PUBLIC_INPUTS_SIZE →
  verify sha3 (mkStarkProof id Aggregated
    (QAG ++ le_bytes 8 u64_max ++ hash_bytes h ++ le_bytes 4 1 ++ hash_bytes h ++ [0]) inputs 81 0 0) m = None.
Proof.
  intros Hh Hi. unfold verify, check_proof. cbn [public_inputs proof_type proof_data].
  rewrite (proj2 (Z.ltb_ge _ _)) by done. by rewrite verify_wrapped.
Qed.

(** When a blinding factor is given for every value, a private transfer that
    passes the checks opens every commitment and conserves value exactly. *)
Theorem transfer_checks_sound sha3 inputs vi bi vo bo fee fee_bf :
  check_transfer sha3 inputs vi bi vo bo fee fee_bf = Ok () →
  length bi = length vi → length bo = length vo →
  Forall (fits u64_max) vi → Forall (fits u64_max) vo → fits u64_max fee →
  Z.of_nat (length vi) ≤ u64_max → Z.of_nat (length vo) ≤ u64_max →
  input_commitments inputs = zip_with (new_commitment sha3) vi bi ∧
  output_commitments inputs = zip_with (new_commitment sha3) vo bo ∧
  fee_commitment inputs = new_commitment sha3 fee fee_bf ∧
  foldr Z.add 0 vi = foldr Z.add 0 vo + fee.
Proof.
  unfold check_transfer. intros Hok Hbi Hbo Hvi Hvo Hfee Hli Hlo.
  destruct (Nat.eqb_spec (length vi) (length (input_commitments inputs))) as [Hci|]; [|done].
  destruct (Nat.eqb_spec (length vo) (length (output_commitments inputs))) as [Hco|]; [|done]. cbn [negb] in Hok.
  destruct (Z.eqb_spec (u128_sum vi) (wrapping_add u128_max (u128_sum vo) fee)) as [Hsum|]; [|done]. cbn [negb] in Hok.
  destruct (check_openings sha3 "Input" 0 vi bi (input_commitments inputs)) as [[]|] eqn:Ho1; [|done].
  destruct (check_openings sha3 "Output" 0 vo bo (output_commitments inputs)) as [[]|] eqn:Ho2; [|done].
  destruct (verify_commitment sha3 (fee_commitment inputs) fee fee_bf) eqn:Hf; [|done].
  pose proof (check_openings_sound sha3 _ _ _ _ _ Ho1) as S1. pose proof (check_openings_sound sha3 _ _ _ _ _ Ho2) as S2.
  assert (Hzip : ∀ (vs bs : list Z) cs, length bs = length vs → length vs = length cs →
    (∀ k v b c, vs !! k = Some v → bs !! k = Some b → cs !! k = Some c → c = new_commitment sha3 v b) →
    cs = zip_with (new_commitment sha3) vs bs).
  { intros vs bs cs Hl1 Hl2 Hs. apply list_eq_same_length with (length cs); [rewrite length_zip_with; lia|done|].
    intros k c c' Hk Hc Hz. apply lookup_zip_with_Some in Hz as (v & b & -> & Hv & Hb). by eapply Hs. }
  split_and!; [by apply Hzip|by apply Hzip| |].
  - unfold verify_commitment in Hf. apply Z.eqb_eq in Hf. destruct (fee_commitment inputs) as [d]. simpl in Hf. by rewrite Hf.
  - destruct (u128_sum_exact vi Hvi Hli) as [H1 B1]. destruct (u128_sum_exact vo Hvo Hlo) as [H2 B2].
    rewrite H1, H2 in Hsum. unfold wrapping_add in Hsum. rewrite Z.mod_small in Hsum; [done|].
    unfold fits, u64_max, u128_max in *. lia.
Qed.

(** The verification of a private transfer does not depend on the commitments: two
    transfers with the same nullifiers and roots, whatever their inputs, outputs and
    fees, get the same verdict for the same proof. *)
Theorem private_verification_ignores_commitments (sha3 : list Z → Hash) `{FieldElement E} `{!Winterfell E} data inputs inputs' :
  input_nullifiers inputs = input_nullifiers inputs' → note_set_root inputs = note_set_root inputs' →
  pt_state_root inputs = pt_state_root inputs' →
  output_commitments inputs ≠ [] → output_commitments inputs' ≠ [] →
  verify_private_transfer_proof sha3 data inputs = verify_private_transfer_proof sha3 data inputs'.
Proof.
  intros Hn Hr Hs Ho Ho'. unfold verify_private_transfer_proof, transfer_tx_root. rewrite Hn, Hr, Hs.
  destruct (output_commitments inputs); [done|]. by destruct (output_commitments inputs').
Qed.

(** ** Witnesses *)

Import IntegerField.

Module ZkExample.

(** A proof system that writes the public inputs it is given and compares them. *)
#[export] Instance transcript : Winterfell Z := {
  WProof := list Z;
  winter_prove _ pub _ := Ok (to_elements pub);
  winter_from_bytes bytes := Ok bytes;
  winter_verify proof pub _ := if bool_decide (proof = to_elements pub) then Ok () else Err "InconsistentPublicInputs"
}.

(** A codec for one value of each type. *)
Definition state_inputs : StateTransitionInputs := mkStateInputs 1 2 3 0 0 0.
Definition cross_inputs : CrossShardInputs := mkCrossInputs 1 2 3 4 5 6 7 8.
Definition private_inputs : PrivateTransferInputs := mkPrivateInputs [] [] [] (mkCommitment 0) 0 0.

#[export] Instance codec : Bincode := {
  ser_state _ := Some [1]; de_state _ := Ok state_inputs;
  ser_cross _ := Some [2]; de_cross _ := Ok cross_inputs;
  ser_private _ := Some [3]; de_private _ := Ok private_inputs;
  ser_list l := Some (concat l)
}.

#[export] Instance transcript_binding : WinterfellBinding.
Proof.
  intros opts pub table bytes proof pub' sec. simpl. intros [= <-] [= <-]. case_bool_decide; [by rewrite H|done].
Defined.

#[export] Instance codec_laws : BincodeLaws.
Proof. intros data inputs. simpl. by intros [= <-]. Defined.

Definition hash (l : list Z) : Hash := foldr Z.add 0 l.

Definition constant (_ : list Z) : Hash := 0.

Definition proof : StarkProof :=
  match (prove_state_transition hash default_zk_config [] state_inputs 5 new_prover).1 with
  | Ok p => p | Err _ => mkStarkProof 0 StateTransition [] [] 0 0 0 end.

Definition junk : StarkProof := mkStarkProof 0 StateTransition [1; 2; 3] [] 3 0 0.

Definition transfer : PrivateTransferInputs :=
  mkPrivateInputs [mkNullifier 1] [new_commitment hash 5 9] [new_commitment hash 3 9] (new_commitment hash 2 9) 7 8.

End ZkExample.
Import ZkExample.

Lemma honest_proofs_rejected_witness :
  proof_data ZkExample.proof ≠ [] ∧ ∀ m', verify ZkExample.hash ZkExample.proof new_prover ≠ Some (Ok true, m').
Proof.
  split; [by vm_compute|].
  apply (honest_proofs_rejected (E:=Z) ZkExample.hash default_zk_config ZkExample.proof new_prover); [done|].
  apply (honest_state _ _ [] ZkExample.state_inputs 5 new_prover
    (prove_state_transition ZkExample.hash default_zk_config [] ZkExample.state_inputs 5 new_prover).2).
  vm_compute. reflexivity.
Defined.

Lemma aggregation_accepts_anything_witness :
  check_proof ZkExample.hash ZkExample.junk = Some (Ok false) ∧
  ∃ p, aggregate_proofs ZkExample.constant [ZkExample.junk] 5 = Ok p ∧ check_proof ZkExample.constant p = Some (Ok true).
Proof.
  split; [by vm_compute|]. apply (aggregation_accepts_anything (E:=Z) ZkExample.constant); by try vm_compute.
Defined.

Lemma aggregated_root_binds_witness :
  generate_aggregated_proof ZkExample.constant (proof_data ZkExample.junk) ≠ [] ∧
  ∃ offset stop, (48 ≤ offset ≤ stop)%nat ∧ (stop ≤ length (generate_aggregated_proof ZkExample.constant (proof_data ZkExample.junk)))%nat ∧
    of_be_bytes (slice 12 44 (generate_aggregated_proof ZkExample.constant (proof_data ZkExample.junk))) =
    compute_merkle_root ZkExample.constant (map ZkExample.constant (chunks CHUNK (slice offset stop (generate_aggregated_proof ZkExample.constant (proof_data ZkExample.junk))))).
Proof. split; [done|]. apply (aggregated_root_binds ZkExample.constant). by vm_compute. Defined.

Lemma aggregated_verify_panics_witness :
  verify ZkExample.hash (mkStarkProof 0 Aggregated
    (QAG ++ le_bytes 8 u64_max ++ hash_bytes 7 ++ le_bytes 4 1 ++ hash_bytes 7 ++ [0]) [] 81 0 0) new_prover = None.
Proof. apply (aggregated_verify_panics (E:=Z) ZkExample.hash 7 0 [] new_prover); [unfold is_hash; lia|done]. Defined.

Lemma transfer_checks_sound_witness :
  check_transfer ZkExample.hash ZkExample.transfer [5] [9] [3] [9] 2 9 = Ok () ∧
  input_commitments ZkExample.transfer = zip_with (new_commitment ZkExample.hash) [5] [9].
Proof.
  split; [by vm_compute|].
  apply (transfer_checks_sound ZkExample.hash ZkExample.transfer [5] [9] [3] [9] 2 9);
    [by vm_compute|done|done|by apply list.Forall_singleton|by apply list.Forall_singleton|done|done|done].
Defined.

Lemma private_verification_ignores_commitments_witness :
  ZkExample.transfer ≠ mkPrivateInputs [mkNullifier 1] [] [mkCommitment 1000] (mkCommitment 0) 7 8 ∧
  verify_private_transfer_proof ZkExample.hash QPT ZkExample.transfer =
  verify_private_transfer_proof ZkExample.hash QPT (mkPrivateInputs [mkNullifier 1] [] [mkCommitment 1000] (mkCommitment 0) 7 8).
Proof. split; [done|]. by apply (private_verification_ignores_commitments (E:=Z) ZkExample.hash QPT). Defined.
