(* ===== verification/Privacy.v ===== *)
(** * Confidential mode

    Models [src/L1/src/privacy/]: the shielded pool and its notes, stealth
    addresses, confidential contract storage, the confidential token registry and
    confidential cross-chain payloads, with the key encapsulation of
    [src/L1/src/crypto/kyber_kem.rs] they use and the private transfers of [Zk].

    Kyber768, AES-256-GCM, HKDF and SHA3-256 are operations of a class; random numbers
    are arguments.  Keys, secrets and ciphertexts are byte strings.  The ordered map of
    storage slots is a finite map whose values are listed by key. *)

From stdpp Require Import sorting.
From S2P Require Import Prelude Bytes Transaction Merkle Air Zk.

(** ** Configuration and errors *)

Inductive PrivacyMode : Type := Transparent | Confidential.

Record PrivacyConfig : Type := mkPrivacyConfig {
  enabled : bool;
  default_mode : PrivacyMode;
  shield_amounts : bool;
  shield_balances : bool;
  stealth_addresses : bool;
  confidential_contract_state : bool;
  confidential_token_registry : bool;
  confidential_l0_payload : bool;
  note_tree_depth : Z
}.

Definition default_privacy_config : PrivacyConfig :=
  mkPrivacyConfig false Transparent false false false false false false 32.
Definition all_enabled : PrivacyConfig := mkPrivacyConfig true Confidential true true true true true true 32.

Inductive PrivacyError : Type :=
  | Disabled
  | CryptoFailure (msg : string)
  | Zk (msg : string)
  | DoubleSpend
  | NoteNotFound
  | BalanceViolation
  | TreeFull
  | DecryptionFailed
  | InvalidCommitment.

Definition ensure_enabled (c : PrivacyConfig) : Result () PrivacyError := if enabled c then Ok () else Err Disabled.

Definition DOMAIN_STEALTH : list Z := ascii_bytes "QUANTOS_PRIVACY_STEALTH_V1".
Definition DOMAIN_NOTE_ENC : list Z := ascii_bytes "QUANTOS_PRIVACY_NOTE_ENC_V1".
Definition DOMAIN_CONF_STATE : list Z := ascii_bytes "QUANTOS_PRIVACY_CONF_STATE_V1".
Definition DOMAIN_CONF_L0 : list Z := ascii_bytes "QUANTOS_PRIVACY_CONF_L0_V1".

(** [ZkError::to_string] *)
Definition zk_error_string (e : ZkError) : string :=
  match e with
  | TraceGenerationFailed m => "Trace generation failed: " +:+ m
  | ProofGenerationFailed m => "Proof generation failed: " +:+ m
  | VerificationFailed m => "Proof verification failed: " +:+ m
  | DeserializationError m => "Deserialization error: " +:+ m
  | EmptyProofList => "Cannot aggregate empty proof list"
  | InvalidProofFormat => "Invalid proof format"
  end.

(** ** Cryptography *)

Class PrivacyCrypto : Type := {
  kyber_pk_bytes : nat;
  kyber_sk_bytes : nat;
  kyber_pk_ok : list Z → bool;                        (* PublicKey::from_bytes succeeds *)
  kyber_sk_ok : list Z → bool;
  kyber_ct_ok : list Z → bool;
  kyber_keypair : Z → list Z * list Z;                (* seeded by the random argument *)
  kyber_encapsulate : Z → list Z → list Z * list Z;   (* shared secret, ciphertext *)
  kyber_decapsulate : list Z → list Z → list Z;
  aes_encrypt : list Z → list Z → list Z → option (list Z);
  aes_decrypt : list Z → list Z → list Z → option (list Z);
  hkdf_expand : list Z → list Z → list Z → option (list Z)  (* salt, secret, info *)
}.

Record KemKeypair : Type := mkKem {
  kem_public : list Z;
  kem_secret : list Z
}.

Record ConfidentialSlot : Type := mkSlot {
  slot_key : Hash;
  value_commitment : Hash;
  slot_encrypted_value : list Z
}.

Abbreviation ConfidentialContractState := (gmap Hash ConfidentialSlot).

Section Crypto.
Context `{PrivacyCrypto}.

Definition kem_generate (rnd : Z) : KemKeypair := let '(pk, sk) := kyber_keypair rnd in mkKem pk sk.

Definition kem_from_storage (pk sk : list Z) : Result KemKeypair string :=
  if negb (length pk =? kyber_pk_bytes)%nat || negb (length sk =? kyber_sk_bytes)%nat then Err "Invalid private key"
  else if negb (kyber_pk_ok pk) then Err "Invalid public key"
  else if negb (kyber_sk_ok sk) then Err "Invalid private key"
  else Ok (mkKem pk sk).

Definition encapsulate (rnd : Z) (pk : list Z) : Result (list Z * list Z) string :=
  if kyber_pk_ok pk then Ok (kyber_encapsulate rnd pk) else Err "Invalid public key".

Definition decapsulate (k : KemKeypair) (ct : list Z) : Result (list Z) string :=
  if negb (kyber_sk_ok (kem_secret k)) then Err "Invalid private key"
  else if negb (kyber_ct_ok ct) then Err "Invalid KEM ciphertext"
  else Ok (kyber_decapsulate ct (kem_secret k)).

Definition derive_channel_key (shared_secret transcript : list Z) : Result (list Z) string :=
  ok_or (hkdf_expand DOMAIN_PQ_KEM_HANDSHAKE shared_secret transcript) "Hash error: HKDF expand failed".

Definition kem_handshake_transcript (role : Z) (i_sig r_sig i_kem r_kem ct : list Z) : list Z :=
  with_domain DOMAIN_PQ_KEM_HANDSHAKE (role :: i_sig ++ r_sig ++ i_kem ++ r_kem ++ ct).

(** [map_err(|e| PrivacyError::Crypto(e.to_string()))] *)
Definition crypto {A} (r : Result A string) : Result A PrivacyError :=
  match r with Ok a => Ok a | Err e => Err (CryptoFailure e) end.

(** The random nonce of 12 bytes goes in front of the ciphertext. *)
Definition aead_seal (nonce key plaintext : list Z) : Result (list Z) PrivacyError :=
  match aes_encrypt key nonce plaintext with
  | Some ct => Ok (nonce ++ ct)
  | None => Err (CryptoFailure "AEAD seal failed")
  end.

Definition aead_open (key data : list Z) : Result (list Z) PrivacyError :=
  if (length data <? 12)%nat then Err DecryptionFailed
  else ok_or (aes_decrypt key (take 12 data) (drop 12 data)) DecryptionFailed.

(** ** Stealth addresses *)

Record StealthMetaAddress : Type := mkMeta {
  scan_public_key : list Z;
  spend_pubkey_hash : Hash
}.

Record StealthKeys : Type := mkStealthKeys {
  scan : KemKeypair;
  sk_spend_pubkey_hash : Hash
}.

Record StealthPayment : Type := mkPayment {
  one_time_address : Address;
  ephemeral_ciphertext : list Z;
  view_tag : Z
}.

Context (sha3 : list Z → Hash).

Definition generate (rnd : Z) (spend : Hash) : Result StealthKeys PrivacyError := Ok (mkStealthKeys (kem_generate rnd) spend).

Definition from_storage (pk sk : list Z) (spend : Hash) : Result StealthKeys PrivacyError :=
  match crypto (kem_from_storage pk sk) with Ok k => Ok (mkStealthKeys k spend) | Err e => Err e end.

Definition meta_address (k : StealthKeys) : StealthMetaAddress := mkMeta (kem_public (scan k)) (sk_spend_pubkey_hash k).

Definition derive_one_time_address (shared_secret : list Z) (meta : StealthMetaAddress) : Address :=
  sha3 (DOMAIN_STEALTH ++ shared_secret ++ hash_bytes (spend_pubkey_hash meta)).

(** The first byte of the hash. *)
Definition view_tag_from_secret (shared_secret : list Z) : Z :=
  default 0 (head (hash_bytes (sha3 (DOMAIN_STEALTH ++ ascii_bytes "VIEWTAG" ++ shared_secret)))).

Definition scan_payment (k : StealthKeys) (p : StealthPayment) : Result (option Address) PrivacyError :=
  match crypto (decapsulate (scan k) (ephemeral_ciphertext p)) with
  | Err e => Err e
  | Ok ss =>
      if negb (view_tag_from_secret ss =? view_tag p) then Ok None
      else
        let derived := derive_one_time_address ss (meta_address k) in
        if derived =? one_time_address p then Ok (Some derived) else Ok None
  end.

Definition recover_shared_secret (k : StealthKeys) (p : StealthPayment) : Result (list Z) PrivacyError :=
  crypto (decapsulate (scan k) (ephemeral_ciphertext p)).

Definition create_stealth_payment (rnd : Z) (meta : StealthMetaAddress) : Result (StealthPayment * list Z) PrivacyError :=
  match crypto (encapsulate rnd (scan_public_key meta)) with
  | Err e => Err e
  | Ok (ss, ct) => Ok (mkPayment (derive_one_time_address ss meta) ct (view_tag_from_secret ss), ss)
  end.

(** ** Notes *)

Definition note_key (shared_secret : list Z) : Result (list Z) PrivacyError :=
  crypto (derive_channel_key shared_secret DOMAIN_NOTE_ENC).

Definition seal_note (nonce shared_secret : list Z) (owner : Address) (value : Z) (blinding : Hash) : Result PrivateNote PrivacyError :=
  let c := new_commitment sha3 value blinding in
  match note_key shared_secret with
  | Err e => Err e
  | Ok key =>
      match aead_seal nonce key (le_bytes 8 value ++ hash_bytes blinding) with
      | Err e => Err e
      | Ok enc => Ok (mkPrivateNote (sha3 (hash_bytes owner ++ hash_bytes (commitment_data c))) owner c enc)
      end
  end.

(** The value and the blinding factor in a plaintext of 40 bytes. *)
Definition split_plaintext (plaintext : list Z) : option (Z * Hash) :=
  if (length plaintext =? 40)%nat then Some (of_le_bytes (take 8 plaintext), of_be_bytes (slice 8 40 plaintext)) else None.

Definition open_note (shared_secret : list Z) (note : PrivateNote) : Result (Z * Hash) PrivacyError :=
  match note_key shared_secret with
  | Err e => Err e
  | Ok key =>
      match aead_open key (encrypted_value note) with
      | Err e => Err e
      | Ok plaintext =>
          match split_plaintext plaintext with
          | None => Err DecryptionFailed
          | Some (value, blinding) =>
              if negb (verify_commitment sha3 (commitment note) value blinding) then Err InvalidCommitment else Ok (value, blinding)
          end
      end
  end.

(** ** The shielded pool *)

Record ShieldedPool : Type := mkPool {
  leaves : list Hash;
  nullifiers : gset Hash;
  max_leaves : Z
}.

Definition new_pool (tree_depth : Z) : ShieldedPool := mkPool [] ∅ (Z.shiftl 1 (Z.min tree_depth 40)).

Definition insert_commitment (c : Commitment) : M ShieldedPool PrivacyError Z :=
  λ p,
    let n := Z.of_nat (length (leaves p)) in
    if max_leaves p <=? n then (Err TreeFull, p)
    else (Ok n, mkPool (leaves p ++ [commitment_data c]) (nullifiers p) (max_leaves p)).

(** [merkle_root]: a loop that ends with one node. *)
Definition pool_merkle_root (l : list Hash) : Hash :=
  match l with [] => 0 | _ => default 0 (head (climb sha3 (length l) l)) end.

Definition root (p : ShieldedPool) : Hash := pool_merkle_root (leaves p).

Definition is_spent (n : Nullifier) (p : ShieldedPool) : bool := bool_decide (nullifier_data n ∈ nullifiers p).

Definition mark_spent (n : Nullifier) : M ShieldedPool PrivacyError () :=
  λ p,
    let p' := mkPool (leaves p) ({[nullifier_data n]} ∪ nullifiers p) (max_leaves p) in
    if is_spent n p then (Err DoubleSpend, p') else (Ok (), p').

Definition num_notes (p : ShieldedPool) : Z := Z.of_nat (length (leaves p)).
Definition num_spent (p : ShieldedPool) : Z := Z.of_nat (size (nullifiers p)).

(** ** Confidential transfers *)

Context `{FieldElement E} `{!Winterfell E} `{Bincode} (config : ZkConfig).

(** The private witness of a transfer. *)
Record TransferWitness : Type := mkWitness {
  w_input_values : list Z;
  w_input_blindings : list Hash;
  w_output_values : list Z;
  w_output_blindings : list Hash;
  w_fee_value : Z;
  w_fee_blinding : Hash;
  w_merkle_proofs : list (list Hash)
}.

(** [for n in input_nullifiers { mark_spent(n)? }] and the outputs likewise. *)
Definition apply_transfer (inputs : PrivateTransferInputs) : M ShieldedPool PrivacyError () :=
  for_each (input_nullifiers inputs) mark_spent ?;
  for_each (output_commitments inputs) (λ c, insert_commitment c ?; returns ()).

(** The pool and the metrics of the prover change. *)
Definition prove_and_apply (inputs : PrivateTransferInputs) (w : TransferWitness) (elapsed : Z)
  : M (ShieldedPool * ProverMetrics) PrivacyError StarkProof :=
  λ '(p, m),
    if existsb (λ n, is_spent n p) (input_nullifiers inputs) then (Err DoubleSpend, (p, m))
    else
      match prove_private_transfer sha3 config inputs (w_input_values w) (w_input_blindings w) (w_output_values w)
              (w_output_blindings w) (w_fee_value w) (w_fee_blinding w) (w_merkle_proofs w) elapsed m with
      | (Err e, m') => (Err (Zk (zk_error_string e)), (p, m'))
      | (Ok proof, m') =>
          match apply_transfer inputs p with
          | (Ok _, p') => (Ok proof, (p', m'))
          | (Err e, p') => (Err e, (p', m'))
          end
      end.

(** ** Confidential contract storage *)

Definition commit_slot (key : Hash) (value : Z) (blinding : Hash) : Hash :=
  sha3 (DOMAIN_CONF_STATE ++ hash_bytes key ++ le_bytes 8 value ++ hash_bytes blinding).

Definition set_slot (nonce viewing_key : list Z) (key : Hash) (value : Z) (blinding : Hash)
  : M ConfidentialContractState PrivacyError () :=
  λ s,
    match aead_seal nonce viewing_key (le_bytes 8 value ++ hash_bytes blinding) with
    | Err e => (Err e, s)
    | Ok enc => (Ok (), <[key := mkSlot key (commit_slot key value blinding) enc]> s)
    end.

Definition get_slot (viewing_key : list Z) (key : Hash) (s : ConfidentialContractState) : Result (option Z) PrivacyError :=
  match s !! key with
  | None => Ok None
  | Some slot =>
      match aead_open viewing_key (slot_encrypted_value slot) with
      | Err e => Err e
      | Ok plaintext =>
          match split_plaintext plaintext with
          | None => Err DecryptionFailed
          | Some (value, blinding) =>
              if negb (commit_slot key value blinding =? value_commitment slot) then Err InvalidCommitment else Ok (Some value)
          end
      end
  end.

(** The values of the ordered map. *)
Definition slot_values (s : ConfidentialContractState) : list ConfidentialSlot :=
  omap (λ k, s !! k) (merge_sort Z.le (elements (dom s))).

Definition storage_root (s : ConfidentialContractState) : Hash :=
  pool_merkle_root (map (λ x, sha3 (hash_bytes (slot_key x) ++ hash_bytes (value_commitment x))) (slot_values s)).

Definition transition_digest (prev_root : Hash) (s : ConfidentialContractState) : Hash :=
  sha3 (DOMAIN_CONF_STATE ++ hash_bytes prev_root ++ hash_bytes (storage_root s)).

(** ** Confidential tokens *)

Record ConfidentialTokenRegistry : Type := mkRegistry {
  token_id : Hash;
  public_total_supply : Z;
  pool : ShieldedPool
}.

Definition new_registry (id : Hash) (tree_depth : Z) : ConfidentialTokenRegistry := mkRegistry id 0 (new_pool tree_depth).

Definition shielded_mint (c : Commitment) (value : Z) : M ConfidentialTokenRegistry PrivacyError Z :=
  λ r,
    match checked_add u64_max (public_total_supply r) value with
    | None => (Err BalanceViolation, r)
    | Some new_supply =>
        match insert_commitment c (pool r) with
        | (Err e, p') => (Err e, mkRegistry (token_id r) (public_total_supply r) p')
        | (Ok index, p') => (Ok index, mkRegistry (token_id r) new_supply p')
        end
    end.

Definition shielded_burn (n : Nullifier) (value : Z) : M ConfidentialTokenRegistry PrivacyError () :=
  λ r,
    match checked_sub (public_total_supply r) value with
    | None => (Err BalanceViolation, r)
    | Some new_supply =>
        match mark_spent n (pool r) with
        | (Err e, p') => (Err e, mkRegistry (token_id r) (public_total_supply r) p')
        | (Ok _, p') => (Ok (), mkRegistry (token_id r) new_supply p')
        end
    end.

Definition shielded_transfer (inputs : PrivateTransferInputs) (w : TransferWitness) (elapsed : Z)
  : M (ConfidentialTokenRegistry * ProverMetrics) PrivacyError StarkProof :=
  λ '(r, m),
    let '(res, (p', m')) := prove_and_apply inputs w elapsed (pool r, m) in
    (res, (mkRegistry (token_id r) (public_total_supply r) p', m')).

(** ** Confidential cross-chain payloads *)

Record ConfidentialL0Payload : Type := mkL0 {
  payload_commitment : Hash;
  l0_ephemeral_ciphertext : list Z;
  encrypted_payload : list Z
}.

Definition commit_payload (payload : list Z) (blinding : Hash) : Hash :=
  sha3 (DOMAIN_CONF_L0 ++ payload ++ hash_bytes blinding).

Definition seal (rnd : Z) (nonce recipient_kem_pk payload : list Z) (blinding : Hash) : Result ConfidentialL0Payload PrivacyError :=
  match crypto (encapsulate rnd recipient_kem_pk) with
  | Err e => Err e
  | Ok (ss, ct) =>
      match crypto (derive_channel_key ss DOMAIN_CONF_L0) with
      | Err e => Err e
      | Ok key =>
          match aead_seal nonce key payload with
          | Err e => Err e
          | Ok enc => Ok (mkL0 (commit_payload payload blinding) ct enc)
          end
      end
  end.

Definition open (recipient : KemKeypair) (blinding : Hash) (x : ConfidentialL0Payload) : Result (list Z) PrivacyError :=
  match crypto (decapsulate recipient (l0_ephemeral_ciphertext x)) with
  | Err e => Err e
  | Ok ss =>
      match crypto (derive_channel_key ss DOMAIN_CONF_L0) with
      | Err e => Err e
      | Ok key =>
          match aead_open key (encrypted_payload x) with
          | Err e => Err e
          | Ok payload =>
              if negb (commit_payload payload blinding =? payload_commitment x) then Err InvalidCommitment else Ok payload
          end
      end
  end.

(** The smaller node first. *)
Definition sorted_pair (acc sibling : Hash) : list Z :=
  if acc <=? sibling then hash_bytes acc ++ hash_bytes sibling else hash_bytes sibling ++ hash_bytes acc.

Definition verify_finalized (state_root : Hash) (merkle_path : list Hash) (x : ConfidentialL0Payload) : bool :=
  foldl (λ acc sibling, sha3 (sorted_pair acc sibling)) (payload_commitment x) merkle_path =? state_root.

End Crypto.

(** ** Laws of the cryptography *)

Class PrivacyCryptoLaws `{PrivacyCrypto} : Prop := {
  keypair_valid seed :
    kyber_pk_ok (kyber_keypair seed).1 = true ∧ kyber_sk_ok (kyber_keypair seed).2 = true;
  kem_correct seed rnd :
    let c := kyber_encapsulate rnd (kyber_keypair seed).1 in
    kyber_ct_ok c.2 = true ∧ kyber_decapsulate c.2 (kyber_keypair seed).2 = c.1;
  aes_correct key nonce plaintext ct :
    aes_encrypt key nonce plaintext = Some ct → aes_decrypt key nonce ct = Some plaintext
}.

(** ** Encryption round trips *)

Section CryptoFacts.
Context `{PrivacyCryptoLaws} (sha3 : list Z → Hash).

Lemma aead_roundtrip nonce key plaintext data :
  length nonce = 12%nat → aead_seal nonce key plaintext = Ok data → aead_open key data = Ok plaintext.
Proof.
  intros Hn. unfold aead_seal, aead_open. destruct (aes_encrypt key nonce plaintext) as [ct|] eqn:He; [|done]. intros [= <-].
  rewrite length_app, (proj2 (Nat.ltb_ge _ _)) by lia. rewrite <- Hn, take_app_length, drop_app_length.
  by rewrite (aes_correct _ _ _ _ He).
Qed.

Lemma split_plaintext_app value blinding :
  fits u64_max value → is_hash blinding → split_plaintext (le_bytes 8 value ++ hash_bytes blinding) = Some (value, blinding).
Proof.
  intros Hv Hb. unfold split_plaintext. rewrite length_app, le_bytes_length, hash_bytes_length. cbn [Nat.eqb Nat.add].
  pose proof (take_app_length (le_bytes 8 value) (hash_bytes blinding)) as Ht. rewrite le_bytes_length in Ht. rewrite Ht.
  rewrite of_le_le_bytes by (unfold fits, u64_max in Hv; lia).
  rewrite <- (app_nil_r (hash_bytes blinding)), (slice_mid _ _ _ 8 40).
  - by rewrite of_be_hash_bytes.
  - apply le_bytes_length.
  - by rewrite hash_bytes_length.
Qed.

Lemma decapsulate_encapsulate seed rnd ss ct :
  encapsulate rnd (kem_public (kem_generate seed)) = Ok (ss, ct) → decapsulate (kem_generate seed) ct = Ok ss.
Proof.
  unfold encapsulate, decapsulate, kem_generate. destruct (keypair_valid seed) as [Hpk Hsk].
  destruct (kem_correct seed rnd) as [Hct Hdec]. destruct (kyber_keypair seed) as [pk sk]. simpl in *.
  rewrite Hpk, Hsk. intros [= Hc]. rewrite Hc in Hct, Hdec. simpl in *. by rewrite Hct, Hdec.
Qed.

Lemma verify_new_commitment value blinding : verify_commitment sha3 (new_commitment sha3 value blinding) value blinding = true.
Proof. apply Z.eqb_refl. Qed.

(** A sealed note opens with the secret it was sealed with. *)
Lemma note_roundtrip nonce ss a value blinding note :
  length nonce = 12%nat → fits u64_max value → is_hash blinding →
  seal_note sha3 nonce ss a value blinding = Ok note → open_note sha3 ss note = Ok (value, blinding).
Proof.
  intros Hn Hv Hb. unfold seal_note, open_note. destruct (note_key ss) as [key|]; [|done].
  destruct (aead_seal _ _ _) as [enc|] eqn:He; [|done]. intros [= <-]. cbn [encrypted_value commitment].
  by rewrite (aead_roundtrip _ _ _ _ Hn He), split_plaintext_app, verify_new_commitment by done.
Qed.

End CryptoFacts.

(** ** The pool *)

Section PoolFacts.

Lemma mark_all_fresh (ns : list Nullifier) p :
  NoDup (map nullifier_data ns) → (∀ n, n ∈ ns → is_spent n p = false) →
  for_each ns mark_spent p = (Ok (), mkPool (leaves p) (list_to_set (map nullifier_data ns) ∪ nullifiers p) (max_leaves p)).
Proof.
  revert p. induction ns as [|n ns IH]; intros p Hnd Hf.
  { simpl. unfold returns. rewrite union_empty_l_L. by destruct p. }
  cbn [map] in Hnd. apply list.NoDup_cons in Hnd as [Hnot Hnd]. cbn [for_each]. unfold bindM, mark_spent at 1.
  rewrite (Hf n) by apply list_elem_of_here. rewrite IH; [|done|].
  - cbn [leaves nullifiers max_leaves map list_to_set]. do 2 f_equal. set_solver.
  - intros n' Hn'. apply bool_decide_eq_false_2. cbn [nullifiers].
    assert (Hold : is_spent n' p = false) by (apply Hf; by apply list_elem_of_further). apply bool_decide_eq_false_1 in Hold.
    intros [Heq%elem_of_singleton|]%elem_of_union; [|done]. apply Hnot. rewrite <- Heq. by apply (list_elem_of_fmap_2 nullifier_data).
Qed.

(** Otherwise the loop fails; what it marked before stays marked. *)
Lemma mark_all_dup (ns : list Nullifier) p :
  (¬ NoDup (map nullifier_data ns) ∨ ∃ n, n ∈ ns ∧ is_spent n p = true) →
  ∃ marked, marked ⊆ list_to_set (map nullifier_data ns) ∧ (∀ n, head ns = Some n → nullifier_data n ∈ marked) ∧
    for_each ns mark_spent p = (Err DoubleSpend, mkPool (leaves p) (marked ∪ nullifiers p) (max_leaves p)).
Proof.
  revert p. induction ns as [|n ns IH]; intros p Hbad.
  { destruct Hbad as [Hnd|(n & Hn & _)]; [destruct Hnd; constructor|by apply not_elem_of_nil in Hn]. }
  cbn [for_each]. unfold bindM, mark_spent at 1. destruct (is_spent n p) eqn:Hs.
  - exists {[nullifier_data n]}. split_and!; [set_solver|by intros n' [= <-]; set_solver|done].
  - destruct (IH (mkPool (leaves p) ({[nullifier_data n]} ∪ nullifiers p) (max_leaves p))) as (marked & Hsub & _ & ->).
    { destruct Hbad as [Hnd|(n' & Hn' & Hs')].
      - destruct (decide (nullifier_data n ∈ map nullifier_data ns)) as [Hin|Hnin].
        + right. apply list_elem_of_fmap in Hin as (n' & Heq & Hin). exists n'. split; [done|].
          apply bool_decide_eq_true_2. cbn [nullifiers]. set_solver.
        + left. intros Hnd'. apply Hnd. by constructor.
      - apply elem_of_cons in Hn' as [-> |Hn']; [congruence|]. right. exists n'. split; [done|].
        apply bool_decide_eq_true_1 in Hs'. apply bool_decide_eq_true_2. cbn [nullifiers]. set_solver. }
    exists (marked ∪ {[nullifier_data n]}). split_and!; [set_solver|intros n' [= <-]; set_solver|].
    cbn [leaves nullifiers max_leaves]. do 2 f_equal. set_solver.
Qed.

(** The outputs are inserted as long as there is room. *)
Lemma insert_all (cs : list Commitment) p :
  num_notes p ≤ max_leaves p →
  let room := Z.to_nat (max_leaves p - num_notes p) in
  for_each cs (λ c, insert_commitment c ?; returns ()) p =
  (if (length cs <=? room)%nat then Ok () else Err TreeFull,
   mkPool (leaves p ++ take room (map commitment_data cs)) (nullifiers p) (max_leaves p)).
Proof.
  unfold num_notes. revert p. induction cs as [|c cs IH]; intros p Hp; cbv zeta.
  { simpl. rewrite take_nil, app_nil_r. by destruct p. }
  cbn [for_each]. unfold bindM, insert_commitment at 1.
  destruct (Z.leb_spec (max_leaves p) (Z.of_nat (length (leaves p)))) as [Hfull|Hroom].
  - replace (Z.to_nat (max_leaves p - Z.of_nat (length (leaves p)))) with 0%nat by lia. simpl. rewrite app_nil_r. by destruct p.
  - cbn [returns]. unfold returns. rewrite IH by (cbn [leaves max_leaves]; rewrite length_app; simpl; lia). cbn [leaves nullifiers max_leaves].
    rewrite length_app. cbn [length map].
    replace (Z.to_nat (max_leaves p - Z.of_nat (length (leaves p)))) with
      (S (Z.to_nat (max_leaves p - Z.of_nat (length (leaves p) + 1)))) by lia.
    cbn [take Nat.leb]. by rewrite <- app_assoc.
Qed.

(** Reachable pools. *)
Inductive pool_step (p : ShieldedPool) : ShieldedPool → Prop :=
  | step_insert c r p' : insert_commitment c p = (r, p') → pool_step p p'
  | step_mark n r p' : mark_spent n p = (r, p') → pool_step p p'
  | step_transfer inputs r p' : apply_transfer inputs p = (r, p') → pool_step p p'.

Definition extends (p p' : ShieldedPool) : Prop :=
  leaves p `prefix_of` leaves p' ∧ nullifiers p ⊆ nullifiers p' ∧ max_leaves p' = max_leaves p ∧
  (num_notes p ≤ max_leaves p → num_notes p' ≤ max_leaves p').

#[export] Instance extends_preorder : PreOrder extends.
Proof.
  split; [by intros p; split_and!|]. intros p q r (A1 & A2 & A3 & A4) (B1 & B2 & B3 & B4).
  split_and!; [by etrans|by etrans|congruence|auto].
Qed.

Lemma insert_extends c p : extends p (insert_commitment c p).2.
Proof.
  unfold insert_commitment. destruct (Z.leb_spec (max_leaves p) (Z.of_nat (length (leaves p)))); [done|].
  split_and!; simpl; [by apply prefix_app_r|done|done|]. unfold num_notes. simpl. rewrite length_app. simpl. lia.
Qed.

Lemma mark_extends n p : extends p (mark_spent n p).2.
Proof. unfold mark_spent. destruct (is_spent n p); split_and!; simpl; set_solver. Qed.

Lemma for_each_extends {A} (l : list A) body p : (∀ x p, extends p (body x p).2) → extends p (for_each (E:=PrivacyError) l body p).2.
Proof. intros Hb. apply (for_each_inv (extends p)); [|done]. intros x q _ Hq. etrans; [exact Hq|apply Hb]. Qed.

Lemma apply_extends inputs p : extends p (apply_transfer inputs p).2.
Proof.
  unfold apply_transfer. apply (bindM_inv (extends p)); [apply for_each_extends, mark_extends|].
  intros _ q _ Hq. etrans; [exact Hq|]. apply for_each_extends. intros c q'. unfold bindM.
  pose proof (insert_extends c q') as Hi. by destruct (insert_commitment c q') as [[|] ?].
Qed.

Lemma reachable_extends p p' : rtc pool_step p p' → extends p p'.
Proof.
  induction 1 as [p|p q r Hstep _ IH]; [done|]. etrans; [|exact IH]. destruct Hstep as [c r' q Hq|n r' q Hq|i r' q Hq].
  - pose proof (insert_extends c p) as Hx. by rewrite Hq in Hx.
  - pose proof (mark_extends n p) as Hx. by rewrite Hq in Hx.
  - pose proof (apply_extends i p) as Hx. by rewrite Hq in Hx.
Qed.
End PoolFacts.

(** ** Traces that fit are built *)

Section Cost.

(** The computation adds [k] steps when they fit. *)
Definition costs (k : Z) (m : M (ExecutionTrace * Z) ZkError ()) : Prop :=
  ∀ t idx, trace_len t + k ≤ max_length t →
    ∃ t' idx', m (t, idx) = (Ok (), (t', idx')) ∧ trace_len t' = trace_len t + k ∧ max_length t' = max_length t.

Lemma costs_push op words h : costs 1 (push (add_step op words) h).
Proof.
  intros t idx Hk. unfold push, add_step. rewrite (proj2 (Z.leb_gt _ _)) by lia.
  eexists _, _. split; [done|]. unfold trace_len. simpl. rewrite length_app. simpl. split; [lia|done].
Qed.

Lemma costs_bind k1 k2 m1 m2 : 0 ≤ k2 → costs k1 m1 → costs k2 m2 → costs (k1 + k2) (m1 ?; m2).
Proof.
  intros Hk2 H1 H2 t idx Hk. destruct (H1 t idx) as (t1 & i1 & E1 & L1 & M1); [lia|].
  destruct (H2 t1 i1) as (t2 & i2 & E2 & L2 & M2); [lia|]. exists t2, i2. unfold bindM. rewrite E1, E2. split; [done|lia].
Qed.

Lemma costs_for_each {A} (l : list A) k body :
  0 ≤ k → (∀ x, x ∈ l → costs k (body x)) → costs (Z.of_nat (length l) * k) (for_each l body).
Proof.
  intros Hk. induction l as [|x l IH]; intros Hb.
  { intros t idx _. exists t, idx. split; [done|]. simpl. lia. }
  cbn [for_each length]. replace (Z.of_nat (S (length l)) * k) with (k + Z.of_nat (length l) * k) by lia.
  apply costs_bind; [lia|apply Hb, list_elem_of_here|]. apply IH. intros y Hy. apply Hb. by apply list_elem_of_further.
Qed.

Lemma transfer_trace_fits sha3 config inputs vi vo n :
  input_nullifiers inputs = [n] →
  68 + 64 * Z.of_nat (length (vi ++ vo)) ≤ max_trace_length config →
  ∃ t idx, transfer_trace sha3 config inputs vi vo [] = Ok (t, idx) ∧ trace_len t = 4 + 64 * Z.of_nat (length (vi ++ vo)).
Proof.
  intros Hn Hmax. unfold transfer_trace. rewrite Hn.
  match goal with |- context [let '(_, _) := ?m (?t0, 0) in _] => set (body := m); set (start := t0) end.
  assert (Hc : costs (1 + (Z.of_nat (length [n]) * 1 + (Z.of_nat (length (vi ++ vo)) * (Z.of_nat (length (seq 0 64)) * 1) + 1))) body).
  { unfold body, add_state_step, add_hash_step, add_merkle_step. rewrite length_seq.
    apply costs_bind; [simpl; lia|apply costs_push|]. apply costs_bind; [lia| |].
    - change (length [n]) with (length (imap pair [n])). apply costs_for_each; [lia|]. intros [i x] _.
      replace 1 with (1 + 0) by lia. apply costs_bind; [lia|apply costs_push|].
      rewrite lookup_nil. intros t idx _. exists t, idx. split; [done|lia].
    - apply costs_bind; [lia| |apply costs_push]. apply costs_for_each; [lia|]. intros v _.
      rewrite <- (length_seq 64 0). apply costs_for_each; [lia|]. intros b _. apply costs_push. }
  rewrite length_seq in Hc. destruct (Hc start 0) as (t & idx & -> & Hl & Hm); [unfold start, new_trace, trace_len; simpl; lia|].
  assert (Hs : trace_len start = 0 ∧ max_length start = max_trace_length config) by done. destruct Hs as [Hs1 Hs2].
  unfold add_state_step, add_step. rewrite (proj2 (Z.leb_gt _ _)) by (simpl in Hl; lia).
  eexists _, _. split; [done|]. unfold trace_len in *. simpl in *. rewrite length_app. simpl. lia.
Qed.
End Cost.

(** The prover always returns a proof. *)
Class WinterfellTotal (E : Type) `{FieldElement E} `{!Winterfell E} : Prop :=
  winterfell_total opts pub (table : list (list E)) : ∃ bytes, winter_prove opts pub table = Ok bytes.

Section TransferFacts.
Context (sha3 : list Z → Hash) `{FieldElement E} `{!Winterfell E} `{Bincode} (config : ZkConfig).

(** A transfer of [v] from a note nobody inserted. *)
Definition phantom_inputs (n : Hash) (v : Z) (b : Hash) (r s : Hash) : PrivateTransferInputs :=
  mkPrivateInputs [mkNullifier n] [new_commitment sha3 v b] [new_commitment sha3 v b] (new_commitment sha3 0 b) r s.

Definition phantom_witness (v : Z) (b : Hash) : TransferWitness := mkWitness [v] [b] [v] [b] 0 b [].

Lemma phantom_checks n v b r s : fits u64_max v → check_transfer sha3 (phantom_inputs n v b r s) [v] [b] [v] [b] 0 b = Ok ().
Proof.
  intros Hv. unfold check_transfer, phantom_inputs. cbn [input_commitments output_commitments fee_commitment length Nat.eqb negb].
  unfold u128_sum, wrapping_add. cbn [foldl]. rewrite Z.add_0_r, Z.mod_mod, Z.eqb_refl by done.
  cbn [negb check_openings]. by rewrite !verify_new_commitment.
Qed.

Lemma padded_132 t : trace_len t = 132 → padded_len t = 256.
Proof. intros Ht. unfold padded_len. by rewrite Ht. Qed.

Lemma phantom_proved `{!WinterfellTotal E} n v b r s elapsed m :
  fits u64_max v → 256 ≤ max_trace_length config →
  ∃ proof m', prove_private_transfer sha3 config (phantom_inputs n v b r s) [v] [b] [v] [b] 0 b [] elapsed m = (Ok proof, m').
Proof.
  intros Hv Hmax. unfold prove_private_transfer, lift, bindM. rewrite phantom_checks by done.
  destruct (transfer_trace_fits sha3 config (phantom_inputs n v b r s) [v] [v] (mkNullifier n) eq_refl) as (t & idx & -> & Hl).
  { simpl. lia. }
  unfold generate_winterfell_proof, build_winterfell_trace. cbn [fst snd]. rewrite padded_132 by (simpl in Hl; lia).
  rewrite (proj2 (Z.ltb_ge _ _)) by lia.
  match goal with |- context [winter_prove ?o ?p ?tb] => destruct (winterfell_total o p tb) as [w ->] end. by eexists _, _.
Qed.
End TransferFacts.

(** ** Tokens *)

Section TokenFacts.
Context (sha3 : list Z → Hash) `{FieldElement E} `{!Winterfell E} `{Bincode} (config : ZkConfig).

(** Runs of a registry with what was minted and burned. *)
Inductive registry_run (id : Hash) (depth : Z) : Z → Z → ConfidentialTokenRegistry → Prop :=
  | run_new : registry_run id depth 0 0 (new_registry id depth)
  | run_mint minted burned r c v i r' :
      registry_run id depth minted burned r → fits u64_max v →
      shielded_mint c v r = (Ok i, r') → registry_run id depth (minted + v) burned r'
  | run_mint_err minted burned r c v e r' :
      registry_run id depth minted burned r → shielded_mint c v r = (Err e, r') → registry_run id depth minted burned r'
  | run_burn minted burned r n v r' :
      registry_run id depth minted burned r → fits u64_max v →
      shielded_burn n v r = (Ok (), r') → registry_run id depth minted (burned + v) r'
  | run_burn_err minted burned r n v e r' :
      registry_run id depth minted burned r → shielded_burn n v r = (Err e, r') → registry_run id depth minted burned r'
  | run_transfer minted burned r inputs w elapsed m m' res r' :
      registry_run id depth minted burned r →
      shielded_transfer sha3 config inputs w elapsed (r, m) = (res, (r', m')) → registry_run id depth minted burned r'.

Lemma transfer_extends inputs w elapsed p m res p' m' :
  prove_and_apply sha3 config inputs w elapsed (p, m) = (res, (p', m')) → extends p p'.
Proof.
  unfold prove_and_apply. destruct (existsb _ _); [by intros [= _ <- _]|].
  destruct (prove_private_transfer _ _ _ _ _ _ _ _ _ _ _ _) as [[proof|e] m1]; [|by intros [= _ <- _]].
  pose proof (apply_extends inputs p) as Hx. destruct (apply_transfer inputs p) as [[[]|e] p1]; by intros [= _ <- _].
Qed.

End TokenFacts.

(** ** Theorems *)

(** C20. A stealth payment reaches its recipient: the holder of the scan key detects the
    payment, recovers the shared secret, and opens with it the note sealed for the
    one-time address, getting the value and the blinding factor of the payer. *)
Theorem payment_end_to_end `{PrivacyCryptoLaws} sha3 seed spend keys rnd payment ss nonce value blinding note :
  generate seed spend = Ok keys →
  create_stealth_payment sha3 rnd (meta_address keys) = Ok (payment, ss) →
  length nonce = 12%nat → fits u64_max value → is_hash blinding →
  seal_note sha3 nonce ss (one_time_address payment) value blinding = Ok note →
  scan_payment sha3 keys payment = Ok (Some (one_time_address payment)) ∧
  recover_shared_secret keys payment = Ok ss ∧ open_note sha3 ss note = Ok (value, blinding).
Proof.
  unfold generate. intros [= <-] Hp Hn Hv Hb Hs. unfold create_stealth_payment, meta_address in Hp. cbn [scan_public_key scan sk_spend_pubkey_hash] in Hp.
  destruct (encapsulate rnd _) as [[ss' ct]|] eqn:He; [|done]. cbn [crypto] in Hp. injection Hp as <- <-.
  apply decapsulate_encapsulate in He. split_and!; [| |by eapply note_roundtrip].
  - unfold scan_payment. cbn [scan ephemeral_ciphertext view_tag one_time_address]. rewrite He. cbn [crypto]. unfold meta_address. cbn [scan sk_spend_pubkey_hash]. by rewrite !Z.eqb_refl.
  - unfold recover_shared_secret. cbn [scan ephemeral_ciphertext]. by rewrite He.
Qed.

(** What a note opens to is fixed by its commitment: two successful openings, with
    any secrets, give the same value and blinding factor unless the hash of the two
    openings collides. *)
Theorem note_opening_unique `{PrivacyCrypto} sha3 ss1 ss2 note v1 b1 v2 b2 :
  open_note sha3 ss1 note = Ok (v1, b1) → open_note sha3 ss2 note = Ok (v2, b2) →
  fits u64_max v1 → fits u64_max v2 → is_hash b1 → is_hash b2 →
  no_collision sha3 [le_bytes 8 v1 ++ hash_bytes b1; le_bytes 8 v2 ++ hash_bytes b2] → v1 = v2 ∧ b1 = b2.
Proof.
  intros H1 H2 Hv1 Hv2 Hb1 Hb2 Hnc.
  assert (Hop : ∀ ss v b, open_note sha3 ss note = Ok (v, b) → commitment_data (commitment note) = sha3 (le_bytes 8 v ++ hash_bytes b)).
  { intros ss v b. unfold open_note. destruct (note_key ss); [|done]. destruct (aead_open _ _); [|done].
    destruct (split_plaintext _) as [[v' b']|]; [|done]. destruct (verify_commitment sha3 (commitment note) v' b') eqn:Hc; [|done].
    intros [= <- <-]. by apply Z.eqb_eq in Hc. }
  apply Hop in H1, H2. assert (Heq : le_bytes 8 v1 ++ hash_bytes b1 = le_bytes 8 v2 ++ hash_bytes b2).
  { apply Hnc; [set_solver|set_solver|congruence]. }
  apply le_app_inj in Heq as [-> Heq]; [|unfold fits, u64_max in *; lia..]. split; [done|].
  apply (hash_app_inj b1 b2 [] []); [done|done|]. by rewrite Heq.
Qed.

(** Confidential storage is a map: a slot that was set reads back its value with the
    viewing key, and no other slot changes. *)
Theorem slot_roundtrip `{PrivacyCryptoLaws} sha3 nonce vk key value blinding s s' :
  length nonce = 12%nat → fits u64_max value → is_hash blinding →
  set_slot sha3 nonce vk key value blinding s = (Ok (), s') →
  get_slot sha3 vk key s' = Ok (Some value) ∧ ∀ vk' key', key' ≠ key → get_slot sha3 vk' key' s' = get_slot sha3 vk' key' s.
Proof.
  intros Hn Hv Hb. unfold set_slot. destruct (aead_seal _ _ _) as [enc|] eqn:He; [|done]. intros [= <-]. split.
  - unfold get_slot. rewrite lookup_insert_eq. cbn [slot_encrypted_value value_commitment].
    by rewrite (aead_roundtrip _ _ _ _ Hn He), split_plaintext_app, Z.eqb_refl by done.
  - intros vk' key' Hne. unfold get_slot. by rewrite lookup_insert_ne.
Qed.

(** A confidential cross-chain payload opens for its recipient, and whoever opens
    it under the same blinding factor gets the committed payload unless the hash
    collides. *)
Theorem payload_roundtrip `{PrivacyCryptoLaws} sha3 seed rnd nonce payload blinding x :
  length nonce = 12%nat → seal sha3 rnd nonce (kem_public (kem_generate seed)) payload blinding = Ok x →
  open sha3 (kem_generate seed) blinding x = Ok payload ∧
  ∀ k payload', open sha3 k blinding x = Ok payload' →
    no_collision sha3 [DOMAIN_CONF_L0 ++ payload ++ hash_bytes blinding; DOMAIN_CONF_L0 ++ payload' ++ hash_bytes blinding] →
    payload' = payload.
Proof.
  intros Hn. unfold seal. destruct (encapsulate rnd _) as [[ss ct]|] eqn:He; [|done]. cbn [crypto].
  destruct (derive_channel_key ss DOMAIN_CONF_L0) as [key|] eqn:Hk; [|done]. cbn [crypto].
  destruct (aead_seal _ _ _) as [enc|] eqn:Ha; [|done]. intros [= <-]. split.
  - unfold open. cbn [l0_ephemeral_ciphertext encrypted_payload payload_commitment].
    rewrite (decapsulate_encapsulate _ _ _ _ He). cbn [crypto]. rewrite Hk. cbn [crypto].
    by rewrite (aead_roundtrip _ _ _ _ Hn Ha), Z.eqb_refl.
  - intros k payload' Ho Hnc. unfold open in Ho. cbn [payload_commitment] in Ho.
    destruct (crypto (decapsulate _ _)); [|done]. destruct (crypto (derive_channel_key _ _)); [|done]. destruct (aead_open _ _); [|done].
    destruct (Z.eqb_spec (commit_payload sha3 a1 blinding) (commit_payload sha3 payload blinding)) as [Hc|]; [|done].
    injection Ho as <-. apply Hnc in Hc; [|set_solver..]. by apply app_inv_head, app_inv_tail in Hc.
Qed.

(** The outcomes of a confidential transfer: a spent nullifier or a failing prover
    leaves the pool as it was; distinct fresh nullifiers and enough room spend and
    insert everything; otherwise the call fails but keeps what it did before, the first
    nullifier spent in the case of a repeated one, all nullifiers spent and as many
    outputs inserted as there is room in the case of a full tree. *)
Theorem transfer_outcomes sha3 `{FieldElement E} `{!Winterfell E} `{Bincode} config inputs w elapsed p m res p' m' :
  num_notes p ≤ max_leaves p →
  prove_and_apply sha3 config inputs w elapsed (p, m) = (res, (p', m')) →
  let ns := map nullifier_data (input_nullifiers inputs) in
  let room := Z.to_nat (max_leaves p - num_notes p) in
  (∃ n, n ∈ input_nullifiers inputs ∧ is_spent n p = true) ∧ res = Err DoubleSpend ∧ p' = p ∧ m' = m
  ∨ (∃ e, res = Err (Zk e)) ∧ p' = p
  ∨ NoDup ns ∧ (length (output_commitments inputs) ≤ room)%nat ∧ (∃ proof, res = Ok proof) ∧
    p' = mkPool (leaves p ++ map commitment_data (output_commitments inputs)) (list_to_set ns ∪ nullifiers p) (max_leaves p)
  ∨ NoDup ns ∧ (room < length (output_commitments inputs))%nat ∧ res = Err TreeFull ∧
    p' = mkPool (leaves p ++ take room (map commitment_data (output_commitments inputs))) (list_to_set ns ∪ nullifiers p) (max_leaves p)
  ∨ ¬ NoDup ns ∧ res = Err DoubleSpend ∧ leaves p' = leaves p ∧ (∀ n, head (input_nullifiers inputs) = Some n → is_spent n p' = true).
Proof.
  intros Hp Ht ns room. unfold prove_and_apply in Ht. destruct (existsb _ _) eqn:Hex.
  { left. injection Ht as <- <- <-. split; [|done]. apply existsb_exists in Hex as (n & Hn%list_elem_of_In & Hs). eauto. }
  right. destruct (prove_private_transfer _ _ _ _ _ _ _ _ _ _ _ _) as [[proof|e] m1]; [|left; injection Ht as <- <- <-; eauto].
  right. assert (Hfresh : ∀ n, n ∈ input_nullifiers inputs → is_spent n p = false).
  { intros n Hn. destruct (is_spent n p) eqn:Hs; [|done]. rewrite <- Hex. symmetry. apply existsb_exists. exists n. by rewrite <- list_elem_of_In. }
  unfold apply_transfer, bindM in Ht. destruct (decide (NoDup ns)) as [Hnd|Hnd].
  - rewrite mark_all_fresh in Ht by done.
    rewrite insert_all in Ht by done. unfold num_notes in Ht. cbn [leaves nullifiers max_leaves] in Ht. fold (num_notes p) in Ht. fold room in Ht. fold ns in Ht.
    destruct (Nat.leb_spec (length (output_commitments inputs)) room) as [Hle|Hgt]; injection Ht as <- <- <-.
    + left. split_and!; eauto. rewrite take_ge by (rewrite length_map; lia). done.
    + right. left. by split_and!.
  - right. right. destruct (mark_all_dup (input_nullifiers inputs) p (or_introl Hnd)) as (marked & _ & Hhead & Hfe).
    rewrite Hfe in Ht. injection Ht as <- <- <-. split_and!; [done..|]. intros n Hn. apply bool_decide_eq_true_2. cbn [nullifiers]. set_solver.
Qed.

(** C19. Nothing is spent twice: whatever the pool goes through afterwards, a transfer
    that names a spent nullifier is refused with the pool and the metrics unchanged, and
    notes and nullifiers are only ever added, within the capacity of the tree. *)
Theorem no_double_spend sha3 `{FieldElement E} `{!Winterfell E} `{Bincode} config n p p' inputs w elapsed m :
  is_spent n p = true → num_notes p ≤ max_leaves p → rtc pool_step p p' → n ∈ input_nullifiers inputs →
  prove_and_apply sha3 config inputs w elapsed (p', m) = (Err DoubleSpend, (p', m)) ∧
  leaves p `prefix_of` leaves p' ∧ nullifiers p ⊆ nullifiers p' ∧ num_notes p' ≤ max_leaves p'.
Proof.
  intros Hs Hcap Hr Hn. destruct (reachable_extends p p' Hr) as (Hl & Hnl & _ & Hc). split_and!; [|done|done|auto].
  unfold prove_and_apply. replace (existsb _ _) with true; [done|]. symmetry. apply existsb_exists. exists n.
  rewrite <- list_elem_of_In. split; [done|]. apply bool_decide_eq_true_1 in Hs. apply bool_decide_eq_true_2. set_solver.
Qed.

(** Value appears from nothing: whatever the notes in the pool, a transfer whose
    input note was never inserted, with a made-up nullifier and roots, is proved and
    applied, and adds a note over any 64-bit value. *)
Theorem phantom_note_spent sha3 `{FieldElement E} `{!Winterfell E} `{Bincode} `{!WinterfellTotal E} config p n v b r s elapsed m :
  fits u64_max v → 256 ≤ max_trace_length config → num_notes p < max_leaves p → n ∉ nullifiers p →
  ∃ proof m', prove_and_apply sha3 config (phantom_inputs sha3 n v b r s) (phantom_witness v b) elapsed (p, m) =
    (Ok proof, (mkPool (leaves p ++ [commitment_data (new_commitment sha3 v b)]) ({[n]} ∪ nullifiers p) (max_leaves p), m')).
Proof.
  intros Hv Hmax Hroom Hn. destruct (phantom_proved sha3 config n v b r s elapsed m Hv Hmax) as (proof & m' & Hproof).
  exists proof, m'. unfold prove_and_apply. cbn [existsb input_nullifiers phantom_inputs]. unfold is_spent at 1.
  rewrite bool_decide_eq_false_2 by done. cbn [orb phantom_witness w_input_values w_input_blindings w_output_values w_output_blindings w_fee_value w_fee_blinding w_merkle_proofs].
  fold (phantom_inputs sha3 n v b r s). rewrite Hproof. unfold apply_transfer, phantom_inputs. cbn [input_nullifiers output_commitments for_each].
  unfold bindM, mark_spent, is_spent. cbn [nullifier_data]. rewrite bool_decide_eq_false_2 by done. unfold returns, insert_commitment. cbn [leaves nullifiers max_leaves].
  unfold num_notes in Hroom. by rewrite (proj2 (Z.leb_gt _ _)) by lia.
Qed.

(** The public supply of a confidential token is what was minted less what was
    burned, never leaves its 64 bits, and the notes stay within the capacity, on every
    run of mints, burns and transfers, failed ones included. *)
Theorem token_supply_accounted sha3 `{FieldElement E} `{!Winterfell E} `{Bincode} config id depth minted burned r :
  0 ≤ depth → registry_run sha3 config id depth minted burned r →
  token_id r = id ∧ public_total_supply r = minted - burned ∧ fits u64_max (public_total_supply r) ∧
  num_notes (pool r) ≤ max_leaves (pool r) ∧ max_leaves (pool r) = 2 ^ Z.min depth 40.
Proof.
  intros Hd. assert (Hcap : 2 ^ Z.min depth 40 = Z.shiftl 1 (Z.min depth 40)) by (rewrite Z.shiftl_1_l; done).
  induction 1 as [|minted burned r c v i r' _ IH Hv Hm|minted burned r c v e r' _ IH Hm|minted burned r n v r' _ IH Hv Hb
    |minted burned r n v e r' _ IH Hb|minted burned r inputs w elapsed m m' res r' _ IH Ht];
    [|destruct IH as (Hi & Hs & Hf & Hn & Hmax)..].
  - split_and!; [done|done|done| |]; unfold new_registry, new_pool, num_notes; simpl; rewrite <- Hcap; [|done]. pose proof (Z.pow_nonneg 2 (Z.min depth 40)). lia.
  - unfold shielded_mint in Hm. pose proof (insert_extends c (pool r)) as (_ & _ & He1 & He2).
    destruct (checked_add _ _ _) as [ns|] eqn:Hc; [|done]. destruct (insert_commitment c (pool r)) as [[j|e] p']; [|done].
    injection Hm as -> <-. reflect_hyps. unfold fits in *. simpl in *. rewrite He1. split_and!; try done; try lia; rewrite <- He1; auto.
  - unfold shielded_mint in Hm. pose proof (insert_extends c (pool r)) as (_ & _ & He1 & He2).
    destruct (checked_add _ _ _) as [ns|] eqn:Hc; [|by injection Hm as _ <-]. destruct (insert_commitment c (pool r)) as [[j|e'] p']; [done|].
    injection Hm as _ <-. simpl in *. split_and!; try done; [auto|congruence].
  - unfold shielded_burn in Hb. pose proof (mark_extends n (pool r)) as (_ & _ & He1 & He2).
    destruct (checked_sub _ _) as [ns|] eqn:Hc; [|done]. destruct (mark_spent n (pool r)) as [[[]|e] p']; [|done].
    injection Hb as <-. reflect_hyps. unfold fits in *. simpl in *. rewrite He1. split_and!; try done; try lia; rewrite <- He1; auto.
  - unfold shielded_burn in Hb. pose proof (mark_extends n (pool r)) as (_ & _ & He1 & He2).
    destruct (checked_sub _ _) as [ns|] eqn:Hc; [|by injection Hb as _ <-]. destruct (mark_spent n (pool r)) as [[[]|e'] p']; [done|].
    injection Hb as _ <-. simpl in *. split_and!; try done; [auto|congruence].
  - unfold shielded_transfer in Ht. destruct (prove_and_apply _ _ _ _ _ _) as [res' [p' m1]] eqn:Hp. injection Ht as _ <- _.
    destruct (transfer_extends _ _ _ _ _ _ _ _ _ _ Hp) as (_ & _ & He1 & He2). simpl. split_and!; try done; [auto|congruence].
Qed.

(** Burning needs no note and no proof: any nullifier that was not used before
    reduces the public supply by any amount up to all of it. *)
Theorem burn_without_note r n v :
  nullifier_data n ∉ nullifiers (pool r) → 0 ≤ v ≤ public_total_supply r →
  ∃ r', shielded_burn n v r = (Ok (), r') ∧ public_total_supply r' = public_total_supply r - v ∧ leaves (pool r') = leaves (pool r).
Proof.
  intros Hn Hv. unfold shielded_burn, checked_sub. rewrite (proj2 (Z.ltb_ge _ _)) by lia.
  unfold mark_spent, is_spent. rewrite bool_decide_eq_false_2 by done. eauto.
Qed.

(** ** Witnesses *)

Import IntegerField ZkExample.

Module PrivacyExample.

(** Toy cryptography with the laws: the ciphertext is the message. *)
#[export] Instance toy : PrivacyCrypto := {
  kyber_pk_bytes := 1; kyber_sk_bytes := 1; kyber_pk_ok _ := true; kyber_sk_ok _ := true; kyber_ct_ok _ := true;
  kyber_keypair seed := ([seed], [seed]);
  kyber_encapsulate rnd _ := ([rnd], [rnd]);
  kyber_decapsulate ct _ := ct;
  aes_encrypt _ _ m := Some m;
  aes_decrypt _ _ c := Some c;
  hkdf_expand _ secret _ := Some secret
}.

#[export] Instance toy_laws : PrivacyCryptoLaws.
Proof. split; [done|done|]. by intros key nonce m c [= ->]. Qed.

#[export] Instance transcript_total : WinterfellTotal Z.
Proof. intros opts pub table. by eexists. Qed.

Definition nonce : list Z := replicate 12 0.
Definition payment : StealthPayment * list Z :=
  match create_stealth_payment ZkExample.hash 5 (mkMeta [7] 9) with Ok x => x | Err _ => (mkPayment 0 [] 0, []) end.
Definition note : PrivateNote :=
  match seal_note ZkExample.hash nonce [5] (one_time_address payment.1) 42 11 with
  | Ok x => x | Err _ => mkPrivateNote 0 0 (mkCommitment 0) [] end.
Definition slot_state : ConfidentialContractState := (set_slot ZkExample.hash nonce [1] 3 42 11 ∅).2.
Definition sealed : ConfidentialL0Payload :=
  match seal ZkExample.hash 5 nonce [7] [1; 2; 3] 11 with Ok x => x | Err _ => mkL0 0 [] [] end.
Definition spent_pool : ShieldedPool := mkPool [8] {[1]} 4.
Definition transfer_result := prove_and_apply ZkExample.hash default_zk_config ZkExample.transfer (mkWitness [5] [9] [3] [9] 2 9 []) 0 (spent_pool, new_prover).
Definition minted : ConfidentialTokenRegistry := (shielded_mint (mkCommitment 8) 100 (new_registry 1 2)).2.

End PrivacyExample.
Import PrivacyExample.

Lemma payment_end_to_end_witness :
  scan_payment ZkExample.hash (mkStealthKeys (mkKem [7] [7]) 9) payment.1 = Ok (Some (one_time_address payment.1)) ∧
  recover_shared_secret (mkStealthKeys (mkKem [7] [7]) 9) payment.1 = Ok [5] ∧ open_note ZkExample.hash [5] note = Ok (42, 11).
Proof.
  apply (payment_end_to_end ZkExample.hash 7 9 (mkStealthKeys (mkKem [7] [7]) 9) 5 payment.1 [5] nonce 42 11 note);
    [done|by vm_compute|done|done|unfold is_hash; lia|by vm_compute].
Defined.

Lemma note_opening_unique_witness : 42 = 42 ∧ 11 = 11.
Proof.
  apply (note_opening_unique ZkExample.hash [5] [5] note 42 11 42 11); try by vm_compute; try (unfold is_hash; lia).
  intros m m' Hm Hm' _. set_solver.
Defined.

Lemma slot_roundtrip_witness :
  slot_state !! 3 ≠ None ∧ get_slot ZkExample.hash [1] 3 slot_state = Ok (Some 42).
Proof.
  split; [by vm_compute|].
  refine (proj1 (slot_roundtrip ZkExample.hash nonce [1] 3 42 11 ∅ slot_state _ _ _ _)); try done; unfold is_hash; lia.
Defined.

Lemma payload_roundtrip_witness :
  encrypted_payload sealed ≠ [] ∧ open ZkExample.hash (mkKem [7] [7]) 11 sealed = Ok [1; 2; 3].
Proof. split; [by vm_compute|]. by refine (proj1 (payload_roundtrip ZkExample.hash 7 5 nonce [1; 2; 3] 11 sealed _ _)). Defined.

Lemma transfer_outcomes_witness :
  is_ok transfer_result.1 = false ∧
  (let ns := map nullifier_data (input_nullifiers ZkExample.transfer) in
   let room := Z.to_nat (max_leaves spent_pool - num_notes spent_pool) in
  (∃ n, n ∈ input_nullifiers ZkExample.transfer ∧ is_spent n spent_pool = true) ∧ transfer_result.1 = Err DoubleSpend ∧ transfer_result.2.1 = spent_pool ∧ transfer_result.2.2 = new_prover
  ∨ (∃ e, transfer_result.1 = Err (Zk e)) ∧ transfer_result.2.1 = spent_pool
  ∨ NoDup ns ∧ (length (output_commitments ZkExample.transfer) ≤ room)%nat ∧ (∃ proof, transfer_result.1 = Ok proof) ∧
    transfer_result.2.1 = mkPool (leaves spent_pool ++ map commitment_data (output_commitments ZkExample.transfer)) (list_to_set ns ∪ nullifiers spent_pool) (max_leaves spent_pool)
  ∨ NoDup ns ∧ (room < length (output_commitments ZkExample.transfer))%nat ∧ transfer_result.1 = Err TreeFull ∧
    transfer_result.2.1 = mkPool (leaves spent_pool ++ take room (map commitment_data (output_commitments ZkExample.transfer))) (list_to_set ns ∪ nullifiers spent_pool) (max_leaves spent_pool)
  ∨ ¬ NoDup ns ∧ transfer_result.1 = Err DoubleSpend ∧ leaves transfer_result.2.1 = leaves spent_pool ∧
    (∀ n, head (input_nullifiers ZkExample.transfer) = Some n → is_spent n transfer_result.2.1 = true)).
Proof.
  split; [by vm_compute|].
  apply (transfer_outcomes ZkExample.hash default_zk_config ZkExample.transfer (mkWitness [5] [9] [3] [9] 2 9 []) 0 spent_pool new_prover); [done|].
  unfold transfer_result. by destruct (prove_and_apply _ _ _ _ _ _) as [? [? ?]].
Defined.

Lemma no_double_spend_witness :
  prove_and_apply ZkExample.hash default_zk_config ZkExample.transfer (mkWitness [5] [9] [3] [9] 2 9 []) 0 (spent_pool, new_prover) =
    (Err DoubleSpend, (spent_pool, new_prover)) ∧ num_notes spent_pool = 1.
Proof.
  split; [|done].
  refine (proj1 (no_double_spend ZkExample.hash default_zk_config (mkNullifier 1) spent_pool spent_pool ZkExample.transfer
    (mkWitness [5] [9] [3] [9] 2 9 []) 0 new_prover _ _ _ _)); try done. apply list_elem_of_here.
Defined.

Lemma phantom_note_spent_witness :
  num_notes (new_pool 2) = 0 ∧
  ∃ proof m', prove_and_apply ZkExample.hash default_zk_config (phantom_inputs ZkExample.hash 1 1000 9 0 0) (phantom_witness 1000 9) 0 (new_pool 2, new_prover) =
    (Ok proof, (mkPool (leaves (new_pool 2) ++ [commitment_data (new_commitment ZkExample.hash 1000 9)]) ({[1]} ∪ nullifiers (new_pool 2)) (max_leaves (new_pool 2)), m')).
Proof.
  split; [done|].
  by apply (phantom_note_spent ZkExample.hash default_zk_config (new_pool 2) 1 1000 9 0 0 0 new_prover).
Defined.

Lemma token_supply_accounted_witness :
  token_id minted = 1 ∧ public_total_supply minted = 100 - 0 ∧ fits u64_max (public_total_supply minted) ∧
  num_notes (pool minted) ≤ max_leaves (pool minted) ∧ max_leaves (pool minted) = 2 ^ Z.min 2 40.
Proof.
  apply (token_supply_accounted ZkExample.hash default_zk_config 1 2 (0 + 100) 0 minted); [done|].
  by eapply (run_mint _ _ _ _ 0 0 (new_registry 1 2) (mkCommitment 8) 100 0); [constructor|done|].
Defined.

Lemma burn_without_note_witness :
  leaves (pool minted) = [8] ∧
  ∃ r', shielded_burn (mkNullifier 55) 100 minted = (Ok (), r') ∧ public_total_supply r' = public_total_supply minted - 100 ∧ leaves (pool r') = leaves (pool minted).
Proof. split; [done|]. apply (burn_without_note minted (mkNullifier 55) 100); [by vm_compute|by vm_compute]. Defined.
