(* ===== verification/RelayBond.v ===== *)
(** * Relay bonds

    Models [src/L1/src/l0/relay_bond.rs]: the registry of relay operators with its
    bonds, unbonding delays, slashing and jailing.  The clock is an argument.

    [withdraw] on a relay that has already withdrawn removes the record while it still
    holds the guard of the entry, which blocks forever: its result is an [option],
    [None] being a call that never returns. *)

From S2P Require Import Prelude.

Definition MIN_BOND_QTS : Z := 10000 * 10 ^ 18.
Definition UNBONDING_PERIOD_SECONDS : Z := 7 * 24 * 3600.

Inductive RelayBondError : Type :=
  | InsufficientBond (required provided : Z)
  | AlreadyRegistered (a : Address)
  | NotRegistered (a : Address)
  | UnbondingInProgress
  | UnbondingNotElapsed (unbonded_at now : Z)
  | JailedError
  | NothingToWithdraw
  | SelfSlash.

Inductive RelayBondStatus : Type :=
  | Active
  | Unbonding (request_time : Z)
  | Withdrawable
  | Jailed.

Record RelayRecord : Type := mkRelay {
  relay_address : Address;
  relay_bond : Z;
  relay_status : RelayBondStatus;
  successful_relays : Z;
  fraud_count : Z;
  last_activity : Z
}.

Abbreviation RelayBondRegistry := (gmap Address RelayRecord).

Definition set_status (st : RelayBondStatus) (r : RelayRecord) : RelayRecord :=
  mkRelay (relay_address r) (relay_bond r) st (successful_relays r) (fraud_count r) (last_activity r).

(** ** Operations *)

Definition bond (address : Address) (amount now : Z) : M RelayBondRegistry RelayBondError () :=
  fail_if (amount <? MIN_BOND_QTS) (InsufficientBond MIN_BOND_QTS amount) ?;
  known <-? gets (λ m : RelayBondRegistry, bool_decide (is_Some (m !! address))) ;
  fail_if known (AlreadyRegistered address) ?;
  modify <[address := mkRelay address amount Active 0 0 now]>.

Definition unbond (address : Address) (now : Z) : M RelayBondRegistry RelayBondError () :=
  λ m,
    match m !! address with
    | None => (Err (NotRegistered address), m)
    | Some r =>
        match relay_status r with
        | Active => (Ok (), <[address := set_status (Unbonding now) r]> m)
        | Unbonding _ => (Err UnbondingInProgress, m)
        | Withdrawable => (Err NothingToWithdraw, m)
        | Jailed => (Err JailedError, m)
        end
    end.

Definition withdraw (address : Address) (now : Z) (m : RelayBondRegistry) : option (Result Z RelayBondError * RelayBondRegistry) :=
  match m !! address with
  | None => Some (Err (NotRegistered address), m)
  | Some r =>
      match relay_status r with
      | Unbonding request_time =>
          if now <? wrapping_add u64_max request_time UNBONDING_PERIOD_SECONDS
          then Some (Err (UnbondingNotElapsed request_time now), m)
          else Some (Ok (relay_bond r),
                 <[address := mkRelay (relay_address r) 0 Withdrawable (successful_relays r) (fraud_count r) (last_activity r)]> m)
      | Withdrawable => None
      | _ => Some (Err NothingToWithdraw, m)
      end
  end.

Definition slash_bond (address : Address) (penalty : Z) (beneficiary : Address) : M RelayBondRegistry RelayBondError Z :=
  λ m,
    match m !! address with
    | None => (Err (NotRegistered address), m)
    | Some r =>
        let current := relay_bond r in
        let actual_penalty := if current <? penalty then current else penalty in
        let rest := saturating_sub current actual_penalty in
        let status := if rest <? MIN_BOND_QTS then Jailed else relay_status r in
        (Ok actual_penalty,
         <[address := mkRelay (relay_address r) rest status (successful_relays r) (wrapping_add u64_max (fraud_count r) 1) (last_activity r)]> m)
    end.

Definition jail (address : Address) : M RelayBondRegistry RelayBondError () :=
  λ m,
    match m !! address with
    | None => (Err (NotRegistered address), m)
    | Some r => (Ok (), <[address := set_status Jailed r]> m)
    end.

Definition unjail (address : Address) (required_bond : Z) : M RelayBondRegistry RelayBondError () :=
  λ m,
    match m !! address with
    | None => (Err (NotRegistered address), m)
    | Some r =>
        if relay_bond r <? required_bond then (Err (InsufficientBond required_bond (relay_bond r)), m)
        else (Ok (), <[address := set_status Active r]> m)
    end.

Definition is_whitelisted (address : Address) (m : RelayBondRegistry) : bool :=
  match m !! address with
  | Some r => match relay_status r with Active => MIN_BOND_QTS <=? relay_bond r | _ => false end
  | None => false
  end.

Definition record_success (address : Address) (now : Z) (m : RelayBondRegistry) : RelayBondRegistry :=
  match m !! address with
  | Some r =>
      <[address := mkRelay (relay_address r) (relay_bond r) (relay_status r)
                     (wrapping_add u64_max (successful_relays r) 1) (fraud_count r) now]> m
  | None => m
  end.

(** ** Runs

    A run keeps the books: what was deposited, withdrawn and slashed in all, and the
    unbonding requests with their times. *)

Record Books : Type := mkBooks {
  deposited : Z;
  withdrawn : Z;
  slashed : Z;
  requests : list (Address * Z)
}.

Inductive relay_step : Books * RelayBondRegistry → Books * RelayBondRegistry → Prop :=
  | step_bond b m a v now m' : 0 ≤ v → bond a v now m = (Ok (), m') →
      relay_step (b, m) (mkBooks (deposited b + v) (withdrawn b) (slashed b) (requests b), m')
  | step_unbond b m a now m' : 0 ≤ now → unbond a now m = (Ok (), m') →
      relay_step (b, m) (mkBooks (deposited b) (withdrawn b) (slashed b) ((a, now) :: requests b), m')
  | step_withdraw b m a now v m' : withdraw a now m = Some (Ok v, m') →
      relay_step (b, m) (mkBooks (deposited b) (withdrawn b + v) (slashed b) (requests b), m')
  | step_slash b m a p ben v m' : 0 ≤ p → slash_bond a p ben m = (Ok v, m') →
      relay_step (b, m) (mkBooks (deposited b) (withdrawn b) (slashed b + v) (requests b), m')
  | step_jail b m a m' : jail a m = (Ok (), m') → relay_step (b, m) (b, m')
  | step_unjail b m a v m' : unjail a v m = (Ok (), m') → relay_step (b, m) (b, m')
  | step_success b m a now : relay_step (b, m) (b, record_success a now m).

Definition start : Books * RelayBondRegistry := (mkBooks 0 0 0 [], ∅).

Definition total_bond (m : RelayBondRegistry) : Z := map_sum (λ _ r, relay_bond r) m.

(** What every reachable registry satisfies. *)
Record relay_inv (s : Books * RelayBondRegistry) : Prop := {
  inv_books : deposited s.1 = withdrawn s.1 + slashed s.1 + total_bond s.2;
  inv_bonds a r : s.2 !! a = Some r → 0 ≤ relay_bond r ∧ relay_address r = a;
  inv_requests a r t : s.2 !! a = Some r → relay_status r = Unbonding t → (a, t) ∈ requests s.1;
  inv_times p : p ∈ requests s.1 → 0 ≤ p.2
}.

Lemma total_bond_insert m a r :
  total_bond (<[a := r]> m) = total_bond m - from_option relay_bond 0 (m !! a) + relay_bond r.
Proof. apply (map_sum_insert (λ _ r, relay_bond r)). Qed.

Lemma inv_start : relay_inv start.
Proof. split; [done|..]; simpl; [intros a r; by rewrite lookup_empty..|]. intros p Hp. by apply not_elem_of_nil in Hp. Qed.

(** One record changes: the books move with it and its new status is accounted for. *)
Lemma relay_inv_update b m b' a r r' :
  relay_inv (b, m) → m !! a = Some r →
  deposited b' - withdrawn b' - slashed b' = deposited b - withdrawn b - slashed b + (relay_bond r' - relay_bond r) →
  0 ≤ relay_bond r' → relay_address r' = a → (∀ p, p ∈ requests b → p ∈ requests b') → (∀ p, p ∈ requests b' → p ∈ requests b ∨ 0 ≤ p.2) →
  (∀ t, relay_status r' = Unbonding t → (a, t) ∈ requests b') → relay_inv (b', <[a := r']> m).
Proof.
  intros [Hb Hbd Hr Ht] Ha Hbooks Hpos Haddr Hsub Hnew Hreq. simpl in *. split; simpl.
  - rewrite total_bond_insert, Ha. simpl. lia.
  - intros a' x. destruct (decide (a' = a)) as [-> |Hne]; [rewrite lookup_insert_eq; by intros [= <-]|].
    rewrite lookup_insert_ne by done. apply Hbd.
  - intros a' x t. destruct (decide (a' = a)) as [-> |Hne]; [rewrite lookup_insert_eq; intros [= <-]; apply Hreq|].
    rewrite lookup_insert_ne by done. eauto.
  - intros p [Hp|Hp]%Hnew; auto.
Qed.

Lemma relay_step_inv s s' : relay_inv s → relay_step s s' → relay_inv s'.
Proof.
  intros Hi Hs.
  destruct Hs as [b m a v now m' Hv H|b m a now m' Hn H|b m a now v m' H|b m a p ben v m' Hp H|b m a m' H|b m a v m' H|b m a now].
  - unfold bond in H. rewrite fail_if_bind in H. destruct (_ <? _); [done|]. rewrite gets_bind, fail_if_bind in H.
    destruct (bool_decide _) eqn:Hk; [done|]. injection H as <-. apply bool_decide_eq_false_1, eq_None_not_Some in Hk.
    destruct Hi as [Hb Hbd Hr Ht]. simpl in *. split; simpl; [..|done].
    + rewrite total_bond_insert, Hk. simpl. lia.
    + intros a' r. destruct (decide (a' = a)) as [-> |Hne]; [rewrite lookup_insert_eq; by intros [= <-]|].
      rewrite lookup_insert_ne by done. apply Hbd.
    + intros a' r t. destruct (decide (a' = a)) as [-> |Hne]; [rewrite lookup_insert_eq; by intros [= <-]|].
      rewrite lookup_insert_ne by done. eauto.
  - unfold unbond in H. destruct (m !! a) as [r|] eqn:Ha; [|done]. destruct (relay_status r); try done. injection H as <-.
    destruct (inv_bonds _ Hi a r Ha). eapply relay_inv_update; [done|done|simpl; lia|done|done|set_solver| |].
    { intros p [-> |Hp]%elem_of_cons; [by right|by left]. }
    intros t [= <-]. simpl. set_solver.
  - unfold withdraw in H. destruct (m !! a) as [r|] eqn:Ha; [|done]. destruct (relay_status r); try done. destruct (_ <? _); [done|].
    injection H as <- <-. destruct (inv_bonds _ Hi a r Ha). eapply relay_inv_update; [done|done|simpl; lia|done|done|done|by left|done].
  - unfold slash_bond in H. destruct (m !! a) as [r|] eqn:Ha; [|done]. injection H as <- <-. destruct (inv_bonds _ Hi a r Ha) as [Hpos Haddr].
    eapply relay_inv_update; [done|done| | |done|done|by left|]; simpl.
    + unfold saturating_sub. destruct (Z.ltb_spec (relay_bond r) p); lia.
    + unfold saturating_sub. lia.
    + intros t. destruct (_ <? MIN_BOND_QTS); [done|]. exact (inv_requests _ Hi a r t Ha).
  - unfold jail in H. destruct (m !! a) as [r|] eqn:Ha; [|done]. injection H as <-.
    destruct (inv_bonds _ Hi a r Ha). eapply relay_inv_update; [done|done|simpl; lia|done|done|done|by left|done].
  - unfold unjail in H. destruct (m !! a) as [r|] eqn:Ha; [|done]. destruct (_ <? _); [done|]. injection H as <-.
    destruct (inv_bonds _ Hi a r Ha). eapply relay_inv_update; [done|done|simpl; lia|done|done|done|by left|done].
  - unfold record_success. destruct (m !! a) as [r|] eqn:Ha; [|done].
    destruct (inv_bonds _ Hi a r Ha). eapply relay_inv_update; [done|done|simpl; lia|done|done|done|by left|]. intros t. exact (inv_requests _ Hi a r t Ha).
Qed.

Lemma reachable_relay_inv s : rtc relay_step start s → relay_inv s.
Proof.
  intros Hr. remember start as s0 eqn:Hs0. assert (Hi : relay_inv s0) by (subst; apply inv_start). clear Hs0.
  induction Hr as [|s s' s'' Hstep _ IH]; [done|]. apply IH. by eapply relay_step_inv.
Qed.

(** Addresses are never removed. *)
Lemma relay_step_dom s s' : relay_step s s' → dom s.2 ⊆ dom s'.2.
Proof.
  destruct 1 as [b m a v now m' Hv H|b m a now m' Hn H|b m a now v m' H|b m a p ben v m' Hp H|b m a m' H|b m a v m' H|b m a now]; simpl.
  - unfold bond in H. rewrite fail_if_bind in H. destruct (_ <? _); [done|]. rewrite gets_bind, fail_if_bind in H.
    destruct (bool_decide _); [done|]. injection H as <-. set_solver.
  - unfold unbond in H. split_hyp H. set_solver.
  - unfold withdraw in H. destruct (m !! a) as [r|]; [|done]. destruct (relay_status r); try done. destruct (_ <? _); [done|].
    injection H as _ <-. set_solver.
  - unfold slash_bond in H. destruct (m !! a) as [r|]; [|done]. injection H as _ <-. set_solver.
  - unfold jail in H. destruct (m !! a) as [r|]; [|done]. injection H as <-. set_solver.
  - unfold unjail in H. destruct (m !! a) as [r|]; [|done]. destruct (_ <? _); [done|]. injection H as <-. set_solver.
  - unfold record_success. destruct (m !! a) as [r|]; [|done]. set_solver.
Qed.

Lemma reachable_dom s s' : rtc relay_step s s' → dom s.2 ⊆ dom s'.2.
Proof. induction 1 as [|x y z Hxy _ IH]; [done|]. etrans; [by apply relay_step_dom|done]. Qed.

(** ** Theorems *)

(** Bonds are accounted for on every run: what was deposited is what was withdrawn,
    what was slashed and what the registry holds, and no bond is negative. *)
Theorem bonds_accounted b m :
  rtc relay_step start (b, m) →
  deposited b = withdrawn b + slashed b + total_bond m ∧ ∀ a r, m !! a = Some r → 0 ≤ relay_bond r.
Proof. intros Hr%reachable_relay_inv. split; [apply (inv_books _ Hr)|]. intros a r Ha. by destruct (inv_bonds _ Hr a r Ha). Qed.

(** Money leaves the registry only after the unbonding delay: a withdrawal that pays
    was requested by the relay at least seven days before. *)
Theorem withdrawal_delayed b m a now v m' :
  rtc relay_step start (b, m) → withdraw a now m = Some (Ok v, m') →
  ∃ t, (a, t) ∈ requests b ∧ (t + UNBONDING_PERIOD_SECONDS ≤ u64_max → t + UNBONDING_PERIOD_SECONDS ≤ now).
Proof.
  intros Hr%reachable_relay_inv Hw. unfold withdraw in Hw. destruct (m !! a) as [r|] eqn:Ha; [|done].
  destruct (relay_status r) as [|t| |] eqn:Hst; try done. destruct (Z.ltb_spec now (wrapping_add u64_max t UNBONDING_PERIOD_SECONDS)) as [|Hle]; [done|].
  pose proof (inv_requests _ Hr a r t Ha Hst) as Hreq. pose proof (inv_times _ Hr (a, t) Hreq) as Hpos. simpl in Hpos.
  exists t. split; [done|]. intros Ht. unfold wrapping_add in Hle. rewrite Z.mod_small in Hle; [done|]. unfold UNBONDING_PERIOD_SECONDS in *. lia.
Qed.

(** A relay that has withdrawn can never come back: its record stays, so it cannot
    register again whatever happens afterwards; unbonding is refused, and a second
    withdrawal, which is meant to remove the record, never returns. *)
Theorem withdrawn_relay_stuck b m a now v m1 :
  withdraw a now m = Some (Ok v, m1) →
  withdraw a now m1 = None ∧ (∀ t, unbond a t m1 = (Err NothingToWithdraw, m1)) ∧
  ∀ b' m', rtc relay_step (b, m1) (b', m') →
    ∀ amount t, MIN_BOND_QTS ≤ amount → bond a amount t m' = (Err (AlreadyRegistered a), m').
Proof.
  unfold withdraw. destruct (m !! a) as [r|] eqn:Ha; [|done]. destruct (relay_status r); try done. destruct (_ <? _); [done|].
  intros [= <- <-]. rewrite lookup_insert_eq. split_and!; [done|intros t; unfold unbond; by rewrite lookup_insert_eq|].
  intros b' m' Hr amount t Hm. assert (Hin : a ∈ dom m').
  { apply (reachable_dom _ _ Hr). simpl. set_solver. }
  unfold bond. rewrite fail_if_bind, (proj2 (Z.ltb_ge _ _)) by done. rewrite gets_bind, fail_if_bind.
  by rewrite bool_decide_eq_true_2 by (by apply elem_of_dom).
Qed.

(** [unjail] does not look at the status: it makes a relay active that is waiting to
    withdraw, cancelling the request, and one whose bond is below the minimum, when the
    caller requires less. *)
Theorem unjail_ignores_status a r m required :
  m !! a = Some r → required ≤ relay_bond r →
  ∃ m', unjail a required m = (Ok (), m') ∧ relay_status <$> m' !! a = Some Active ∧
    (is_whitelisted a m' = true ↔ MIN_BOND_QTS ≤ relay_bond r) ∧
    ∀ now, withdraw a now m' = Some (Err NothingToWithdraw, m').
Proof.
  intros Ha Hr. unfold unjail. rewrite Ha, (proj2 (Z.ltb_ge _ _)) by lia. eexists. split; [done|].
  rewrite lookup_insert_eq. split_and!; [done| |].
  - unfold is_whitelisted. rewrite lookup_insert_eq. simpl. apply Z.leb_le.
  - intros now. unfold withdraw. by rewrite lookup_insert_eq.
Qed.

(** Only active relays with the minimum bond are whitelisted, and jailing, slashing
    below the minimum and unbonding take a relay off the list at once. *)
Theorem delisting m a :
  (is_whitelisted a m = true ↔ ∃ r, m !! a = Some r ∧ relay_status r = Active ∧ MIN_BOND_QTS ≤ relay_bond r) ∧
  (∀ m', jail a m = (Ok (), m') → is_whitelisted a m' = false) ∧
  (∀ now m', unbond a now m = (Ok (), m') → is_whitelisted a m' = false) ∧
  (∀ r p ben v m', m !! a = Some r → relay_bond r - p < MIN_BOND_QTS → slash_bond a p ben m = (Ok v, m') → is_whitelisted a m' = false).
Proof.
  split_and!.
  - unfold is_whitelisted. split.
    + destruct (m !! a) as [r|]; [|done]. destruct (relay_status r) eqn:Hs; try done. intros Hle%Z.leb_le. eauto.
    + intros (r & -> & -> & Hle). by apply Z.leb_le.
  - unfold jail, is_whitelisted. intros m'. destruct (m !! a) as [r|]; [|done]. intros [= <-]. by rewrite lookup_insert_eq.
  - unfold unbond, is_whitelisted. intros now m'. destruct (m !! a) as [r|]; [|done]. destruct (relay_status r); try done.
    intros [= <-]. by rewrite lookup_insert_eq.
  - unfold slash_bond, is_whitelisted. intros r p ben v m' -> Hp. intros [= _ <-]. rewrite lookup_insert_eq. cbn [relay_status].
    rewrite (proj2 (Z.ltb_lt _ _)); [done|]. unfold saturating_sub, MIN_BOND_QTS in *. destruct (Z.ltb_spec (relay_bond r) p); lia.
Qed.

(** ** Witnesses *)

Module RelayExample.

Definition minimum : Z := MIN_BOND_QTS.
Definition bonded : RelayBondRegistry := (bond 1 minimum 100 ∅).2.
Definition leaving : RelayBondRegistry := (unbond 1 200 bonded).2.
Definition books : Books := mkBooks (0 + minimum) 0 0 [(1, 200)].
Definition left : RelayBondRegistry := match withdraw 1 1000000 leaving with Some (_, m) => m | None => ∅ end.

End RelayExample.
Import RelayExample.

Lemma example_run : rtc relay_step start (books, leaving).
Proof.
  eapply rtc_l; [by apply (step_bond (mkBooks 0 0 0 []) ∅ 1 minimum 100 bonded)|].
  eapply rtc_l; [by apply (step_unbond _ bonded 1 200 leaving)|]. apply rtc_refl.
Qed.

Lemma bonds_accounted_witness :
  deposited books = withdrawn books + slashed books + total_bond leaving ∧ ∀ a r, leaving !! a = Some r → 0 ≤ relay_bond r.
Proof. apply (bonds_accounted books leaving). apply example_run. Defined.

Lemma withdrawal_delayed_witness :
  ∃ t, (1, t) ∈ requests books ∧ (t + UNBONDING_PERIOD_SECONDS ≤ u64_max → t + UNBONDING_PERIOD_SECONDS ≤ 1000000).
Proof. apply (withdrawal_delayed books leaving 1 1000000 minimum left); [apply example_run|by vm_compute]. Defined.

Lemma withdrawn_relay_stuck_witness :
  left !! 1 ≠ None ∧ withdraw 1 1000000 left = None.
Proof. split; [by vm_compute|]. refine (proj1 (withdrawn_relay_stuck books leaving 1 1000000 minimum left _)). by vm_compute. Defined.

Lemma unjail_ignores_status_witness :
  (∃ r, leaving !! 1 = Some r ∧ relay_status r = Unbonding 200) ∧
  ∃ m', unjail 1 0 leaving = (Ok (), m') ∧ relay_status <$> m' !! 1 = Some Active ∧
    (is_whitelisted 1 m' = true ↔ MIN_BOND_QTS ≤ minimum) ∧ ∀ now, withdraw 1 now m' = Some (Err NothingToWithdraw, m').
Proof.
  split; [exists (mkRelay 1 minimum (Unbonding 200) 0 0 100); by vm_compute|].
  apply (unjail_ignores_status 1 (mkRelay 1 minimum (Unbonding 200) 0 0 100) leaving 0); by vm_compute.
Defined.
