(* ===== verification/Sidechain.v ===== *)
(** * Sidechains

    Models [src/L1/src/sidechain/mod.rs]: the registry of sidechains with its
    operators and state commitments, and the bridge with its escrow.

    SHA3-256, the signature check, the validity of JSON and the Unicode class of
    letters and digits are arguments, as are clocks and random bytes.  A sidechain id is
    the number of its eight bytes; names are lists of code points.  The deposit of the
    bridge reads the escrow and writes it under two different guards: the two parts are
    definitions of their own and can be interleaved. *)

From S2P Require Import Prelude Bytes.

Definition MAX_COMMITMENTS_PER_SIDECHAIN : nat := Z.to_nat 10000.
Definition MAX_COMPLETED_TRANSFERS : nat := Z.to_nat 100000.
Definition MIN_REGISTRATION_STAKE : Z := 100000000000000000000.
Definition MIN_BLOCK_TIME_MS : Z := 100.
Definition MAX_CUSTOM_PARAMS_LEN : Z := 4096.
Definition MAX_OPERATORS_PER_SIDECHAIN : nat := 200.
Definition MAX_SIDECHAIN_NAME_LEN : Z := 128.
Definition MAX_SLASH_COUNT : Z := 3.

Abbreviation SidechainId := Z (only parsing).

Inductive SidechainError : Type :=
  | MaxSidechainsReached (n : Z)
  | AlreadyExists (id : SidechainId)
  | NotFound (id : SidechainId)
  | SidechainInactive (id : SidechainId)
  | InsufficientStake
  | InsufficientSignatures (required got : nat)
  | TransferNotFound (id : Hash)
  | DisputeWindowActive
  | Unauthorized
  | InvalidSignature (msg : string)
  | OperatorAlreadyRegistered
  | MaxOperatorsReached
  | InsufficientOperators
  | OperatorNotFound
  | InsufficientRegistrationStake
  | InvalidConfig (msg : string)
  | AssetsNotLocked
  | InsufficientLockedAssets
  | ArithmeticOverflow.

Record SidechainConfig : Type := mkConfig {
  sc_id : SidechainId;
  sc_name : list Z;
  sc_description : list Z;
  block_time_ms : Z;
  max_tx_per_block : Z;
  min_operator_stake : Z;
  required_operators : Z;
  commitment_interval : Z;
  dispute_window : Z;
  sc_active : bool;
  genesis_timestamp : Z;
  custom_params : list Z
}.

Definition default_sidechain_config : SidechainConfig :=
  mkConfig 0 (ascii_bytes "Unnamed Sidechain") [] 1000 10000 1000000000000000000 5 100 1000 false 0 (ascii_bytes "{}").

Record Sidechain : Type := mkSidechain {
  sc_config : SidechainConfig;
  creator : Address;
  registered_at : Z;
  state_root : Hash;
  latest_height : Z;
  total_locked : Z;
  active_users : Z
}.

Record SidechainOperator : Type := mkOperator {
  op_address : Address;
  op_stake : Z;
  op_public_key : list Z;
  op_active : bool;
  slash_count : Z;
  op_registered_at : Z
}.

Inductive AssetType : Type := Native | TokenAsset (a : Address) | NFT (a : Address).

Record OperatorSignature : Type := mkOpSig {
  sig_operator : Address;
  sig_signature : list Z
}.

Record StateCommitment : Type := mkStateCommitment {
  sc_height : Z;
  sc_state_root : Hash;
  sc_tx_root : Hash;
  sc_signatures : list OperatorSignature;
  sc_timestamp : Z;
  l1_block : Z
}.

Record SidechainRegistry : Type := mkRegistry {
  max_sidechains : Z;
  sidechains : gmap SidechainId Sidechain;
  operators : gmap SidechainId (list SidechainOperator);
  commitments : gmap SidechainId (list StateCommitment);
  auth_token : list Z;
  nonce_counter : Z;
  registration_stakes : gmap Address Z
}.

Definition new_registry (max : Z) (token : list Z) : SidechainRegistry := mkRegistry max ∅ ∅ ∅ token 1 ∅.

Definition set_sidechains (f : gmap SidechainId Sidechain → gmap SidechainId Sidechain) (r : SidechainRegistry) : SidechainRegistry :=
  mkRegistry (max_sidechains r) (f (sidechains r)) (operators r) (commitments r) (auth_token r) (nonce_counter r) (registration_stakes r).
Definition set_operators (f : gmap SidechainId (list SidechainOperator) → gmap SidechainId (list SidechainOperator)) (r : SidechainRegistry) : SidechainRegistry :=
  mkRegistry (max_sidechains r) (sidechains r) (f (operators r)) (commitments r) (auth_token r) (nonce_counter r) (registration_stakes r).
Definition set_commitments (f : gmap SidechainId (list StateCommitment) → gmap SidechainId (list StateCommitment)) (r : SidechainRegistry) : SidechainRegistry :=
  mkRegistry (max_sidechains r) (sidechains r) (operators r) (f (commitments r)) (auth_token r) (nonce_counter r) (registration_stakes r).

(** ** Text *)

(** The UTF-8 bytes of a code point. *)
Definition utf8 (c : Z) : list Z :=
  if c <? 128 then [c]
  else if c <? 2048 then [192 + c / 64; 128 + c mod 64]
  else if c <? 65536 then [224 + c / 4096; 128 + c / 64 mod 64; 128 + c mod 64]
  else [240 + c / 262144; 128 + c / 4096 mod 64; 128 + c / 64 mod 64; 128 + c mod 64].

Definition text_bytes (s : list Z) : list Z := concat (map utf8 s).
Definition text_len (s : list Z) : Z := Z.of_nat (length (text_bytes s)).

Definition hex_digit (d : Z) : Z := if d <? 10 then 48 + d else 87 + d.
(** [hex::encode] *)
Definition hex_encode (bs : list Z) : list Z := concat (map (λ b, [hex_digit (b / 16); hex_digit (b mod 16)]) bs).

Section Registry.
Context (sha3 : list Z → Hash) (verify : list Z → list Z → list Z → bool).
Context (is_alphanumeric : Z → bool) (valid_json : list Z → bool).

(** The entropy of one call: random bytes, nanoseconds and two readings of the clock. *)
Record Entropy : Type := mkEntropy {
  random_bytes : list Z;
  nanos : Z;
  now_genesis : Z;
  now_registered : Z
}.

(** ** Registration *)

Definition deposit_registration_stake (c : Address) (amount : Z) (r : SidechainRegistry) : SidechainRegistry :=
  let v := match registration_stakes r !! c with Some a => wrapping_add u128_max a amount | None => amount end in
  mkRegistry (max_sidechains r) (sidechains r) (operators r) (commitments r) (auth_token r) (nonce_counter r)
    (<[c := v]> (registration_stakes r)).

Definition name_char (c : Z) : bool :=
  is_alphanumeric c || (c =? 32) || (c =? 45) || (c =? 95) || (c =? 46).

Definition id_message (name : list Z) (c : Address) (nonce : Z) (e : Entropy) : list Z :=
  text_bytes name ++ hash_bytes c ++ le_bytes 8 nonce ++ random_bytes e ++ le_bytes 8 (nanos e).

(** The first eight bytes of the hash; the nonce moves on. *)
Definition generate_id (name : list Z) (c : Address) (e : Entropy) : M SidechainRegistry SidechainError SidechainId :=
  λ r,
    (Ok (of_be_bytes (take 8 (hash_bytes (sha3 (id_message name c (nonce_counter r) e))))),
     mkRegistry (max_sidechains r) (sidechains r) (operators r) (commitments r) (auth_token r)
       (wrapping_add u64_max (nonce_counter r) 1) (registration_stakes r)).

Definition check_config (c : SidechainConfig) : M SidechainRegistry SidechainError () :=
  fail_if (match sc_name c with [] => true | _ => false end) (InvalidConfig "name cannot be empty") ?;
  fail_if (MAX_SIDECHAIN_NAME_LEN <? text_len (sc_name c))
    (InvalidConfig ("name too long (" +:+ pretty (text_len (sc_name c)) +:+ " > " +:+ pretty MAX_SIDECHAIN_NAME_LEN +:+ " bytes)")) ?;
  fail_if (negb (forallb name_char (sc_name c)))
    (InvalidConfig "name contains invalid characters (only alphanumeric, space, dash, underscore, dot allowed)") ?;
  fail_if (block_time_ms c <? MIN_BLOCK_TIME_MS) (InvalidConfig "block_time_ms too small") ?;
  fail_if (max_tx_per_block c =? 0) (InvalidConfig "max_tx_per_block cannot be zero") ?;
  fail_if (dispute_window c =? 0) (InvalidConfig "dispute_window cannot be zero") ?;
  fail_if (required_operators c =? 0) (InvalidConfig "required_operators cannot be zero") ?;
  fail_if (MAX_CUSTOM_PARAMS_LEN <? text_len (custom_params c)) (InvalidConfig "custom_params too large") ?;
  fail_if (negb (match custom_params c with [] => true | _ => false end) && negb (valid_json (custom_params c)))
    (InvalidConfig "custom_params is not valid JSON").

Definition register (c : SidechainConfig) (who : Address) (e : Entropy) : M SidechainRegistry SidechainError SidechainId :=
  n <-? gets (λ r, Z.of_nat (size (sidechains r))) ;
  max <-? gets max_sidechains ;
  fail_if (max <=? n) (MaxSidechainsReached max) ?;
  stake <-? gets (λ r, default 0 (registration_stakes r !! who)) ;
  fail_if (stake <? MIN_REGISTRATION_STAKE) InsufficientRegistrationStake ?;
  check_config c ?;
  id <-? generate_id (sc_name c) who e ;
  known <-? gets (λ r, bool_decide (is_Some (sidechains r !! id))) ;
  fail_if known (AlreadyExists id) ?;
  let c' := mkConfig id (sc_name c) (sc_description c) (block_time_ms c) (max_tx_per_block c) (min_operator_stake c)
              (required_operators c) (commitment_interval c) (dispute_window c) (sc_active c) (now_genesis e) (custom_params c) in
  modify (set_sidechains <[id := mkSidechain c' who (now_registered e) 0 0 0 0]>) ?;
  modify (set_operators <[id := []]>) ?;
  returns id.

(** ** Operators *)

Definition operator_message (id : SidechainId) (a : Address) : list Z :=
  ascii_bytes "register_operator:" ++ hex_encode (be_bytes 8 id) ++ ascii_bytes ":" ++ hex_encode (hash_bytes a).

Definition active_operators (ops : list SidechainOperator) : nat := length (filter (λ o, op_active o = true) ops).

Definition set_active (s : Sidechain) : Sidechain :=
  let c := sc_config s in
  mkSidechain (mkConfig (sc_id c) (sc_name c) (sc_description c) (block_time_ms c) (max_tx_per_block c) (min_operator_stake c)
    (required_operators c) (commitment_interval c) (dispute_window c) true (genesis_timestamp c) (custom_params c))
    (creator s) (registered_at s) (state_root s) (latest_height s) (total_locked s) (active_users s).

Definition check_activation (id : SidechainId) (r : SidechainRegistry) : SidechainRegistry :=
  match sidechains r !! id, operators r !! id with
  | Some s, Some ops =>
      if required_operators (sc_config s) <=? Z.of_nat (active_operators ops)
      then if sc_active (sc_config s) then r else set_sidechains <[id := set_active s]> r
      else r
  | _, _ => r
  end.

Definition register_operator (id : SidechainId) (o : SidechainOperator) (caller : Address) (signature : list Z)
  : M SidechainRegistry SidechainError () :=
  s <-? (λ r, match sidechains r !! id with Some s => (Ok s, r) | None => (Err (NotFound id), r) end) ;
  fail_if (negb (caller =? creator s)) Unauthorized ?;
  fail_if (length signature <? 64)%nat (InvalidSignature "Operator consent signature required") ?;
  fail_if (negb (verify (op_public_key o) (operator_message id (op_address o)) signature))
    (InvalidSignature "Operator signature verification failed") ?;
  fail_if (op_stake o <? min_operator_stake (sc_config s)) InsufficientStake ?;
  ops <-? gets (λ r, operators r !! id) ;
  match ops with
  | Some l =>
      fail_if (existsb (λ x, op_address x =? op_address o) l) OperatorAlreadyRegistered ?;
      fail_if (MAX_OPERATORS_PER_SIDECHAIN <=? length l)%nat MaxOperatorsReached
  | None => returns ()
  end ?;
  modify (set_operators (λ m, <[id := default [] (m !! id) ++ [o]]> m)) ?;
  modify (check_activation id).

Definition slashed_operator (o : SidechainOperator) : SidechainOperator :=
  let n := wrapping_add u32_max (slash_count o) 1 in
  mkOperator (op_address o) (op_stake o) (op_public_key o) (if MAX_SLASH_COUNT <=? n then false else op_active o) n (op_registered_at o).

(** The first operator with the address. *)
Fixpoint slash_first (a : Address) (ops : list SidechainOperator) : option (list SidechainOperator) :=
  match ops with
  | [] => None
  | o :: ops' => if op_address o =? a then Some (slashed_operator o :: ops') else cons o <$> slash_first a ops'
  end.

Definition slash_operator (id : SidechainId) (a : Address) (token : list Z) : M SidechainRegistry SidechainError () :=
  λ r,
    if negb (bool_decide (auth_token r = token)) then (Err Unauthorized, r)
    else
      match operators r !! id with
      | None => (Err (NotFound id), r)
      | Some ops =>
          match slash_first a ops with
          | None => (Err OperatorNotFound, r)
          | Some ops' => (Ok (), set_operators <[id := ops']> r)
          end
      end.

(** ** State commitments *)

Definition build_commitment_message (id : SidechainId) (c : StateCommitment) : list Z :=
  be_bytes 8 id ++ le_bytes 8 (sc_height c) ++ hash_bytes (sc_state_root c) ++ hash_bytes (sc_tx_root c) ++
  le_bytes 8 (sc_timestamp c) ++ le_bytes 8 (l1_block c).

Definition signature_valid (ops : list SidechainOperator) (message : list Z) (s : OperatorSignature) : bool :=
  match List.find (λ o, (op_address o =? sig_operator s) && op_active o) ops with
  | None => false
  | Some o => negb (length (sig_signature s) <? 64)%nat && verify (op_public_key o) message (sig_signature s)
  end.

Definition valid_signatures (ops : list SidechainOperator) (id : SidechainId) (c : StateCommitment) : nat :=
  length (filter (λ s, signature_valid ops (build_commitment_message id c) s = true) (sc_signatures c)).

Definition required_sigs (ops : list SidechainOperator) : nat := (active_operators ops * 2 / 3 + 1)%nat.

(** Keep the last commitments. *)
Definition push_bounded {A} (max : nat) (x : A) (l : list A) : list A :=
  (if (max <=? length l)%nat then tail l else l) ++ [x].

Definition commit_state (c : StateCommitment) (s : Sidechain) : Sidechain :=
  mkSidechain (sc_config s) (creator s) (registered_at s) (sc_state_root c) (sc_height c) (total_locked s) (active_users s).

Definition submit_commitment (id : SidechainId) (c : StateCommitment) : M SidechainRegistry SidechainError () :=
  λ r,
    match sidechains r !! id with
    | None => (Err (NotFound id), r)
    | Some s =>
    match operators r !! id with
    | None => (Err (NotFound id), r)
    | Some ops =>
        if match ops with [] => true | _ => false end then (Err InsufficientOperators, r)
        else if Z.of_nat (active_operators ops) <? required_operators (sc_config s) then (Err InsufficientOperators, r)
        else if (length (sc_signatures c) <? required_sigs ops)%nat
        then (Err (InsufficientSignatures (required_sigs ops) (length (sc_signatures c))), r)
        else if (valid_signatures ops id c <? required_sigs ops)%nat
        then (Err (InsufficientSignatures (required_sigs ops) (valid_signatures ops id c)), r)
        else (Ok (), set_commitments (λ m, <[id := push_bounded MAX_COMMITMENTS_PER_SIDECHAIN c (default [] (m !! id))]> m)
                       (set_sidechains <[id := commit_state c s]> r))
    end end.

Definition active_count (r : SidechainRegistry) : nat := length (filter (λ p, sc_active (sc_config p.2) = true) (map_to_list (sidechains r))).

(** ** The bridge *)

Inductive TransferStatus : Type := Pending | Confirmed | Completed | Disputed | Failed (msg : string).

Record PendingDeposit : Type := mkDeposit {
  d_id : Hash;
  d_sidechain : SidechainId;
  d_sender : Address;
  d_recipient : Address;
  d_amount : Z;
  d_asset : AssetType;
  d_l1_tx_hash : Hash;
  d_timestamp : Z;
  d_status : TransferStatus
}.

Record PendingWithdrawal : Type := mkWithdrawal {
  w_id : Hash;
  w_sidechain : SidechainId;
  w_sender : Address;
  w_recipient : Address;
  w_amount : Z;
  w_asset : AssetType;
  w_tx_hash : Hash;
  w_timestamp : Z;
  w_status : TransferStatus;
  dispute_deadline : Z
}.

Inductive TransferDirection : Type := Deposit (id : SidechainId) | Withdrawal (id : SidechainId).

Record CompletedTransfer : Type := mkCompleted {
  ct_id : Hash;
  direction : TransferDirection;
  ct_amount : Z;
  completed_at : Z
}.

Record SidechainBridge : Type := mkBridge {
  pending_deposits : gmap Hash PendingDeposit;
  pending_withdrawals : gmap Hash PendingWithdrawal;
  completed_transfers : list CompletedTransfer;
  locked_assets : gmap SidechainId (gmap Address Z);
  transfer_nonce : Z
}.

Definition new_bridge : SidechainBridge := mkBridge ∅ ∅ [] ∅ 1.

Definition set_locked (f : gmap SidechainId (gmap Address Z) → gmap SidechainId (gmap Address Z)) (b : SidechainBridge) : SidechainBridge :=
  mkBridge (pending_deposits b) (pending_withdrawals b) (completed_transfers b) (f (locked_assets b)) (transfer_nonce b).
Definition set_deposits (f : gmap Hash PendingDeposit → gmap Hash PendingDeposit) (b : SidechainBridge) : SidechainBridge :=
  mkBridge (f (pending_deposits b)) (pending_withdrawals b) (completed_transfers b) (locked_assets b) (transfer_nonce b).
Definition set_withdrawals (f : gmap Hash PendingWithdrawal → gmap Hash PendingWithdrawal) (b : SidechainBridge) : SidechainBridge :=
  mkBridge (pending_deposits b) (f (pending_withdrawals b)) (completed_transfers b) (locked_assets b) (transfer_nonce b).
Definition push_completed (t : CompletedTransfer) (b : SidechainBridge) : SidechainBridge :=
  mkBridge (pending_deposits b) (pending_withdrawals b) (push_bounded MAX_COMPLETED_TRANSFERS t (completed_transfers b)) (locked_assets b) (transfer_nonce b).

(** What an account holds in the escrow of a sidechain. *)
Definition locked_of (id : SidechainId) (a : Address) (b : SidechainBridge) : Z :=
  get0 (default ∅ (locked_assets b !! id)) a.

Definition set_balance (id : SidechainId) (a : Address) (v : Z) : gmap SidechainId (gmap Address Z) → gmap SidechainId (gmap Address Z) :=
  λ m, <[id := <[a := v]> (default ∅ (m !! id))]> m.

(** The entry is created before the sum is checked. *)
Definition lock_assets (id : SidechainId) (a : Address) (amount : Z) : M SidechainBridge SidechainError () :=
  λ b,
    let v := locked_of id a b in
    match checked_add u128_max v amount with
    | None => (Err ArithmeticOverflow, set_locked (set_balance id a v) b)
    | Some v' => (Ok (), set_locked (set_balance id a v') b)
    end.

Definition unlock_assets (id : SidechainId) (a : Address) (amount : Z) : M SidechainBridge SidechainError () :=
  λ b,
    match locked_assets b !! id with
    | None => (Err InsufficientLockedAssets, b)
    | Some m =>
        match m !! a with
        | None => (Err InsufficientLockedAssets, b)
        | Some v => if v <? amount then (Err InsufficientLockedAssets, b) else (Ok (), set_locked (set_balance id a (v - amount)) b)
        end
    end.

Definition transfer_message (s t : Address) (amount nonce : Z) (random : list Z) : list Z :=
  hash_bytes s ++ hash_bytes t ++ le_bytes 16 amount ++ le_bytes 8 nonce ++ random.

Definition generate_transfer_id (s t : Address) (amount : Z) (random : list Z) : M SidechainBridge SidechainError Hash :=
  λ b,
    (Ok (sha3 (transfer_message s t amount (transfer_nonce b) random)),
     mkBridge (pending_deposits b) (pending_withdrawals b) (completed_transfers b) (locked_assets b)
       (wrapping_add u64_max (transfer_nonce b) 1)).

(** First part of [initiate_deposit]: the checks, under a read guard. *)
Definition check_deposit (r : SidechainRegistry) (id : SidechainId) (s : Address) (amount : Z) : M SidechainBridge SidechainError () :=
  λ b,
    match sidechains r !! id with
    | None => (Err (NotFound id), b)
    | Some sc =>
        if negb (sc_active (sc_config sc)) then (Err (SidechainInactive id), b)
        else
          match locked_assets b !! id with
          | None => (Err AssetsNotLocked, b)
          | Some m => if get0 m s <? amount then (Err InsufficientLockedAssets, b) else (Ok (), b)
          end
    end.

(** Second part: the subtraction, which wraps around, and the pending deposit. *)
Definition book_deposit (id : SidechainId) (s t : Address) (amount : Z) (asset : AssetType) (tx : Hash) (random : list Z) (now : Z)
  : M SidechainBridge SidechainError Hash :=
  modify (set_locked (λ m,
    match m !! id with
    | Some a => match a !! s with Some v => <[id := <[s := wrapping_sub u128_max v amount]> a]> m | None => m end
    | None => m
    end)) ?;
  i <-? generate_transfer_id s t amount random ;
  modify (set_deposits <[i := mkDeposit i id s t amount asset tx now Pending]>) ?;
  returns i.

Definition initiate_deposit (r : SidechainRegistry) (id : SidechainId) (s t : Address) (amount : Z) (asset : AssetType) (tx : Hash)
    (random : list Z) (now : Z) : M SidechainBridge SidechainError Hash :=
  check_deposit r id s amount ?;
  book_deposit id s t amount asset tx random now.

Definition initiate_withdrawal (r : SidechainRegistry) (id : SidechainId) (s t : Address) (amount : Z) (asset : AssetType) (tx : Hash)
    (block : Z) (random : list Z) (now : Z) : M SidechainBridge SidechainError Hash :=
  match sidechains r !! id with
  | None => throw (NotFound id)
  | Some sc =>
      i <-? generate_transfer_id s t amount random ;
      deadline <-? lift (ok_or (checked_add u64_max block (dispute_window (sc_config sc))) ArithmeticOverflow) ;
      modify (set_withdrawals <[i := mkWithdrawal i id s t amount asset tx now Pending deadline]>) ?;
      returns i
  end.

Definition complete_deposit (i : Hash) (now : Z) : M SidechainBridge SidechainError () :=
  λ b,
    match pending_deposits b !! i with
    | None => (Err (TransferNotFound i), b)
    | Some d => (Ok (), push_completed (mkCompleted (d_id d) (Deposit (d_sidechain d)) (d_amount d) now) (set_deposits (delete i) b))
    end.

Definition fail_deposit (i : Hash) : M SidechainBridge SidechainError () :=
  λ b,
    match pending_deposits b !! i with
    | None => (Err (TransferNotFound i), b)
    | Some d => lock_assets (d_sidechain d) (d_sender d) (d_amount d) (set_deposits (delete i) b)
    end.

Definition finalize_withdrawal (i : Hash) (block now : Z) : M SidechainBridge SidechainError () :=
  λ b,
    match pending_withdrawals b !! i with
    | None => (Err (TransferNotFound i), b)
    | Some w =>
        if block <? dispute_deadline w then (Err DisputeWindowActive, b)
        else
          match unlock_assets (w_sidechain w) (w_recipient w) (w_amount w) (set_withdrawals (delete i) b) with
          | (Err e, b') => (Err e, b')
          | (Ok _, b') => (Ok (), push_completed (mkCompleted (w_id w) (Withdrawal (w_sidechain w)) (w_amount w) now) b')
          end
    end.

End Registry.

(** ** The escrow *)

Definition escrow_total (b : SidechainBridge) : Z := map_sum (λ _ m, map_sum (λ _ v, v) m) (locked_assets b).
Definition pending_total (b : SidechainBridge) : Z := map_sum (λ _ d, d_amount d) (pending_deposits b).

Lemma set_balance_total id a v m :
  map_sum (λ _ x, map_sum (λ _ y, y) x) (set_balance id a v m) =
  map_sum (λ _ x, map_sum (λ _ y, y) x) m - get0 (default ∅ (m !! id)) a + v.
Proof.
  unfold set_balance. rewrite map_sum_insert, map_sum_insert, from_option_id_get0. destruct (m !! id) as [x|]; simpl; [lia|].
  rewrite map_sum_empty. lia.
Qed.

Lemma locked_of_set_balance id a v b id' a' :
  locked_of id' a' (set_locked (set_balance id a v) b) = if decide (id' = id ∧ a' = a) then v else locked_of id' a' b.
Proof.
  unfold locked_of, set_locked, set_balance. cbn [locked_assets].
  destruct (decide (id' = id)) as [-> |Hid].
  - rewrite lookup_insert_eq. simpl. destruct (decide (a' = a)) as [-> |Ha].
    + rewrite get0_insert_eq. by rewrite decide_True.
    + rewrite get0_insert_ne by done. by rewrite decide_False by naive_solver.
  - rewrite lookup_insert_ne by done. by rewrite decide_False by naive_solver.
Qed.

(** Balances are amounts. *)
Definition escrow_ok (b : SidechainBridge) : Prop :=
  (∀ id a, 0 ≤ locked_of id a b) ∧ (∀ i d, pending_deposits b !! i = Some d → 0 ≤ d_amount d).

Lemma locked_lookup b id m a v : locked_assets b !! id = Some m → m !! a = Some v → locked_of id a b = v.
Proof. unfold locked_of, get0. intros -> Hv. simpl. by rewrite Hv. Qed.

Lemma escrow_inner_nonneg b id m : escrow_ok b → locked_assets b !! id = Some m → ∀ a v, m !! a = Some v → 0 ≤ v.
Proof. intros [Hb _] Hm a v Hv. specialize (Hb id a). by rewrite (locked_lookup b id m a v Hm Hv) in Hb. Qed.

Lemma locked_le_total b id a : escrow_ok b → locked_of id a b ≤ escrow_total b.
Proof.
  intros Hok. unfold escrow_total, locked_of.
  assert (Hpos : ∀ (k : Z) m, locked_assets b !! k = Some m → 0 ≤ map_sum (λ _ v, v) m).
  { intros k m Hm. apply map_sum_nonneg. by apply (escrow_inner_nonneg b k m). }
  destruct (locked_assets b !! id) as [m|] eqn:Hm; simpl.
  - etrans; [|apply (map_sum_lookup_le (λ _ m, map_sum (λ _ v, v) m) _ id m Hpos Hm)].
    unfold get0. destruct (m !! a) as [v|] eqn:Hv; simpl.
    + apply (map_sum_lookup_le (λ _ v, v) m a v); [by apply (escrow_inner_nonneg b id m)|done].
    + by apply (Hpos id).
  - unfold get0. rewrite lookup_empty. simpl. apply (map_sum_nonneg (λ _ m, map_sum (λ _ v, v) m)). done.
Qed.

Section BridgeRuns.
Context (sha3 : list Z → Hash).

(** Runs of the bridge with what came in by [lock_assets], what completed deposits took
    to sidechains and what withdrawals released.  Identifiers of deposits are new. *)
Inductive bridge_run : Z → Z → Z → SidechainBridge → Prop :=
  | br_new : bridge_run 0 0 0 new_bridge
  | br_lock inn out rel b id a v b' : bridge_run inn out rel b → 0 ≤ v →
      lock_assets id a v b = (Ok (), b') → bridge_run (inn + v) out rel b'
  | br_lock_err inn out rel b id a v e b' : bridge_run inn out rel b →
      lock_assets id a v b = (Err e, b') → bridge_run inn out rel b'
  | br_deposit inn out rel b r id s t v asset tx random now i b' : bridge_run inn out rel b → 0 ≤ v →
      initiate_deposit sha3 r id s t v asset tx random now b = (Ok i, b') → pending_deposits b !! i = None →
      bridge_run inn out rel b'
  | br_deposit_err inn out rel b r id s t v asset tx random now e b' : bridge_run inn out rel b →
      initiate_deposit sha3 r id s t v asset tx random now b = (Err e, b') → bridge_run inn out rel b'
  | br_withdraw inn out rel b r id s t v asset tx block random now res b' : bridge_run inn out rel b →
      initiate_withdrawal sha3 r id s t v asset tx block random now b = (res, b') → 0 ≤ v → bridge_run inn out rel b'
  | br_complete inn out rel b i now d b' : bridge_run inn out rel b → pending_deposits b !! i = Some d →
      complete_deposit i now b = (Ok (), b') → bridge_run inn (out + d_amount d) rel b'
  | br_fail inn out rel b i res b' : bridge_run inn out rel b →
      fail_deposit i b = (res, b') → bridge_run inn out rel b'
  | br_finalize inn out rel b i block now w b' : bridge_run inn out rel b → pending_withdrawals b !! i = Some w →
      finalize_withdrawal i block now b = (Ok (), b') → bridge_run inn out (rel + w_amount w) b'
  | br_finalize_err inn out rel b i block now e b' : bridge_run inn out rel b →
      finalize_withdrawal i block now b = (Err e, b') → bridge_run inn out rel b'.

Record bridge_inv (inn out rel : Z) (b : SidechainBridge) : Prop := {
  bi_ok : escrow_ok b;
  bi_withdrawals i w : pending_withdrawals b !! i = Some w → 0 ≤ w_amount w;
  bi_out : 0 ≤ out ∧ 0 ≤ rel;
  bi_books : inn = escrow_total b + pending_total b + out + rel
}.

Lemma pending_nonneg b : escrow_ok b → 0 ≤ pending_total b.
Proof. intros [_ Hp]. by apply (map_sum_nonneg (λ _ d, d_amount d)). Qed.

Lemma set_balance_inv inn out rel inn' out' rel' b id a v :
  bridge_inv inn out rel b → 0 ≤ v → 0 ≤ out' → 0 ≤ rel' →
  inn' - out' - rel' = inn - out - rel + v - locked_of id a b →
  bridge_inv inn' out' rel' (set_locked (set_balance id a v) b).
Proof.
  intros [[Hb Hp] Hw Hout Hbooks] Hv Ho Hr Heq. split; [split| | |].
  - intros id' a'. rewrite locked_of_set_balance. destruct (decide _); [done|apply Hb].
  - exact Hp.
  - exact Hw.
  - done.
  - unfold escrow_total, pending_total in *. unfold locked_of in Heq. simpl. rewrite set_balance_total. lia.
Qed.

Lemma delete_deposit_inv inn out rel b i d :
  bridge_inv inn out rel b → pending_deposits b !! i = Some d → bridge_inv (inn - d_amount d) out rel (set_deposits (delete i) b).
Proof.
  intros [[Hb Hp] Hw Hout Hbooks] Hd. split; [split| | |].
  - exact Hb.
  - intros j x. cbn [set_deposits pending_deposits]. intros [_ Hj]%lookup_delete_Some. by eapply Hp.
  - exact Hw.
  - done.
  - unfold escrow_total, pending_total in *. simpl. rewrite map_sum_delete, Hd. simpl. lia.
Qed.

(** Records that carry no escrow do not matter. *)
Lemma bridge_inv_same inn out rel b b' :
  bridge_inv inn out rel b → pending_deposits b' = pending_deposits b → locked_assets b' = locked_assets b →
  (∀ i w, pending_withdrawals b' !! i = Some w → 0 ≤ w_amount w) → bridge_inv inn out rel b'.
Proof.
  intros [[Hb Hp] Hw Hout Hbooks] Hd Hl Hw'. split; [split| | |]; try done.
  - intros id a. specialize (Hb id a). unfold locked_of in *. by rewrite Hl.
  - intros i d. rewrite Hd. apply Hp.
  - unfold escrow_total, pending_total in *. by rewrite Hd, Hl.
Qed.

Lemma lock_inv inn out rel b id a v res b' :
  bridge_inv inn out rel b → 0 ≤ v → lock_assets id a v b = (res, b') →
  bridge_inv (if is_ok res then inn + v else inn) out rel b'.
Proof.
  intros Hi Hv. pose proof (bi_out _ _ _ _ Hi) as [Ho Hr]. pose proof (proj1 (bi_ok _ _ _ _ Hi) id a) as Hl. unfold lock_assets.
  destruct (checked_add _ _ _) as [v'|] eqn:Hc; intros [= <- <-]; simpl; reflect_hyps; subst;
    (eapply set_balance_inv; [exact Hi|lia|lia|lia|lia]).
Qed.

Lemma deposit_inv inn out rel b r id s t v asset tx random now res b' :
  bridge_inv inn out rel b → 0 ≤ v → inn ≤ u128_max →
  initiate_deposit sha3 r id s t v asset tx random now b = (res, b') →
  (∀ i, res = Ok i → pending_deposits b !! i = None) → bridge_inv inn out rel b'.
Proof.
  intros Hi Hv Hmax. unfold initiate_deposit, check_deposit, bindM.
  destruct (sidechains r !! id) as [sc|]; [|by intros [= _ <-]]. destruct (negb _); [by intros [= _ <-]|].
  destruct (locked_assets b !! id) as [m|] eqn:Hm; [|by intros [= _ <-]].
  destruct (Z.ltb_spec (get0 m s) v) as [|Hle]; [by intros [= _ <-]|].
  unfold book_deposit, bindM, modify, generate_transfer_id, returns. cbn [locked_assets set_locked]. rewrite Hm. intros [= <- <-] Hfresh.
  pose proof (bi_ok _ _ _ _ Hi) as Hok. pose proof (locked_le_total b id s Hok) as Hlt. pose proof (pending_nonneg b Hok) as Hpn.
  pose proof (bi_books _ _ _ _ Hi) as Hbk. pose proof (bi_out _ _ _ _ Hi) as [Ho Hr].
  specialize (Hfresh _ eq_refl). cbn [set_locked transfer_nonce] in Hfresh.
  set (i := sha3 _) in *.
  assert (Hsum : ∃ b1, bridge_inv (inn - v) out rel b1 ∧ pending_deposits b1 = pending_deposits b ∧ pending_withdrawals b1 = pending_withdrawals b ∧
    locked_assets b1 = match m !! s with Some x => <[id := <[s := wrapping_sub u128_max x v]> m]> (locked_assets b) | None => locked_assets b end).
  { unfold get0 in Hle. destruct (m !! s) as [x|] eqn:Hx; simpl in Hle.
    - pose proof (locked_lookup b id m s x Hm Hx) as Hlx.
      assert (Hws : wrapping_sub u128_max x v = x - v) by (unfold wrapping_sub; apply Z.mod_small; lia).
      exists (set_locked (set_balance id s (x - v)) b). split; [|split_and!; try done].
      + eapply set_balance_inv; [exact Hi|lia|lia|lia|lia].
      + unfold set_locked, set_balance. simpl. by rewrite Hm, Hws.
    - exists b. replace v with 0 in * by lia. rewrite Z.sub_0_r. done. }
  destruct Hsum as (b1 & [[Hb1 Hp1] Hw1 Ho1 Hbk1] & Hd1 & Hw1' & Hl1). split; [split| | |]; cbn [set_deposits pending_deposits pending_withdrawals].
  - intros id' a'. specialize (Hb1 id' a'). unfold locked_of in *. rewrite Hl1 in Hb1. simpl. by destruct (m !! s).
  - intros j d. destruct (decide (j = i)) as [-> |Hne]; [rewrite lookup_insert_eq; by intros [= <-]|].
    rewrite lookup_insert_ne by done. rewrite <- Hd1. apply Hp1.
  - rewrite <- Hw1'. apply Hw1.
  - done.
  - unfold escrow_total, pending_total in *. cbn [set_deposits locked_assets pending_deposits]. rewrite map_sum_insert_fresh by done. cbn [d_amount].
    rewrite <- Hd1. assert (Hlk : locked_assets b1 = match m !! s with Some v0 => <[id:=<[s:=wrapping_sub u128_max v0 v]> m]> (locked_assets b) | None => locked_assets b end) by done.
    rewrite <- Hlk. lia.
Qed.

Lemma withdraw_same r id s t v asset tx block random now b res b' :
  initiate_withdrawal sha3 r id s t v asset tx block random now b = (res, b') →
  pending_deposits b' = pending_deposits b ∧ locked_assets b' = locked_assets b ∧
  (∀ i w, pending_withdrawals b' !! i = Some w → pending_withdrawals b !! i = Some w ∨ w_amount w = v).
Proof.
  unfold initiate_withdrawal, bindM, generate_transfer_id, throw, lift, modify, returns.
  destruct (sidechains r !! id) as [sc|]; [|intros [= _ <-]; auto].
  destruct (checked_add _ _ _) as [d|]; cbn [ok_or]; intros [= _ <-]; cbn; [|auto].
  split_and!; try done. intros i w [[_ <-]|[_ Hw]]%lookup_insert_Some; auto.
Qed.

Lemma fail_deposit_inv inn out rel b i res b' :
  bridge_inv inn out rel b → inn ≤ u128_max → fail_deposit i b = (res, b') → bridge_inv inn out rel b'.
Proof.
  intros Hi Hmax. unfold fail_deposit. destruct (pending_deposits b !! i) as [d|] eqn:Hd; [|by intros [= _ <-]].
  intros H. pose proof (proj2 (bi_ok _ _ _ _ Hi) i d Hd) as Hv. pose proof (delete_deposit_inv _ _ _ _ _ _ Hi Hd) as Hi'.
  pose proof (lock_inv _ _ _ _ _ _ _ _ _ Hi' Hv H) as Hi2. destruct res as [u|e]; simpl in Hi2; [by rewrite Z.sub_add in Hi2|].
  exfalso. unfold lock_assets in H. destruct (checked_add _ _ _) as [x|] eqn:Hc; [done|]. reflect_hyps.
  pose proof (bi_ok _ _ _ _ Hi') as Hok. pose proof (locked_le_total _ (d_sidechain d) (d_sender d) Hok) as Hlt.
  pose proof (pending_nonneg _ Hok) as Hpn. pose proof (bi_books _ _ _ _ Hi') as Hbk. pose proof (bi_out _ _ _ _ Hi') as [Ho Hr]. lia.
Qed.

Lemma finalize_inv inn out rel b i block now res b' :
  bridge_inv inn out rel b → finalize_withdrawal i block now b = (res, b') →
  bridge_inv inn out (match res with Ok _ => rel + from_option w_amount 0 (pending_withdrawals b !! i) | Err _ => rel end) b'.
Proof.
  intros Hi. unfold finalize_withdrawal. destruct (pending_withdrawals b !! i) as [w|] eqn:Hw; [|by intros [= <- <-]].
  destruct (_ <? _); [by intros [= <- <-]|].
  assert (Hi' : bridge_inv inn out rel (set_withdrawals (delete i) b)).
  { eapply bridge_inv_same; [exact Hi|done|done|]. cbn. intros j x [_ Hx]%lookup_delete_Some. by eapply (bi_withdrawals _ _ _ _ Hi). }
  pose proof (bi_withdrawals _ _ _ _ Hi i w Hw) as Hv. pose proof (bi_out _ _ _ _ Hi) as [Ho Hr].
  unfold unlock_assets. cbn [locked_assets set_withdrawals].
  destruct (locked_assets b !! w_sidechain w) as [m|] eqn:Hm; [|by intros [= <- <-]].
  destruct (m !! w_recipient w) as [x|] eqn:Hx; [|by intros [= <- <-]].
  destruct (Z.ltb_spec x (w_amount w)) as [|Hle]; intros [= <- <-]; [done|]. simpl.
  pose proof (locked_lookup (set_withdrawals (delete i) b) _ m _ x Hm Hx) as Hl.
  eapply bridge_inv_same; [eapply (set_balance_inv _ _ _ inn out (rel + w_amount w) _ (w_sidechain w) (w_recipient w) (x - w_amount w) Hi'); lia|done|done|].
  cbn. intros j y [_ Hy]%lookup_delete_Some. by eapply (bi_withdrawals _ _ _ _ Hi).
Qed.

Lemma deposit_err_same r id s t v asset tx random now b e b' :
  initiate_deposit sha3 r id s t v asset tx random now b = (Err e, b') → b' = b.
Proof.
  unfold initiate_deposit, check_deposit, book_deposit, bindM, generate_transfer_id, modify, returns.
  repeat case_match; intros; simplify_eq; done.
Qed.

Lemma complete_deposit_inv inn out rel b i now d b' :
  bridge_inv inn out rel b → pending_deposits b !! i = Some d → complete_deposit i now b = (Ok (), b') →
  bridge_inv inn (out + d_amount d) rel b'.
Proof.
  intros Hi Hd. unfold complete_deposit. rewrite Hd. intros [= <-].
  pose proof (proj2 (bi_ok _ _ _ _ Hi) i d Hd) as Hv. pose proof (delete_deposit_inv _ _ _ _ _ _ Hi Hd) as Hi'.
  destruct Hi' as [Hok Hw [Ho Hr] Hb]. split; [exact Hok|exact Hw|lia|].
  unfold escrow_total, pending_total in *. simpl in *. lia.
Qed.

Lemma bridge_inv_new : bridge_inv 0 0 0 new_bridge.
Proof.
  split; [split| | |]; try done.
Qed.

Lemma lock_err_same id a v b e b' : lock_assets id a v b = (Err e, b') → b' = set_locked (set_balance id a (locked_of id a b)) b.
Proof. unfold lock_assets. by destruct (checked_add _ _ _); intros [= _ <-]. Qed.

Lemma bridge_run_inv inn out rel b : bridge_run inn out rel b → inn ≤ u128_max → bridge_inv inn out rel b.
Proof.
  induction 1 as [|inn out rel b id a v b' Hrun IH Hv H|inn out rel b id a v e b' Hrun IH H
    |inn out rel b r id s t v asset tx random now i b' Hrun IH Hv H Hf|inn out rel b r id s t v asset tx random now e b' Hrun IH H
    |inn out rel b r id s t v asset tx block random now res b' Hrun IH H Hv|inn out rel b i now d b' Hrun IH Hd H
    |inn out rel b i res b' Hrun IH H|inn out rel b i block now w b' Hrun IH Hw H|inn out rel b i block now e b' Hrun IH H]; intros Hmax.
  - exact bridge_inv_new.
  - apply (lock_inv _ _ _ _ _ _ _ _ _ (IH ltac:(lia)) Hv H).
  - rewrite (lock_err_same _ _ _ _ _ _ H). specialize (IH Hmax). pose proof (bi_out _ _ _ _ IH) as [Ho Hr].
    eapply set_balance_inv; [exact IH|apply (bi_ok _ _ _ _ IH)|lia|lia|lia].
  - apply (deposit_inv _ _ _ _ _ _ _ _ _ _ _ _ _ _ _ (IH Hmax) Hv Hmax H). by intros j [= <-].
  - rewrite (deposit_err_same _ _ _ _ _ _ _ _ _ _ _ _ H). auto.
  - destruct (withdraw_same _ _ _ _ _ _ _ _ _ _ _ _ _ H) as (Hd & Hl & Hws). eapply bridge_inv_same; [exact (IH Hmax)|done|done|].
    intros i w [Hw| ->]%Hws; [by eapply (bi_withdrawals _ _ _ _ (IH Hmax))|done].
  - eapply complete_deposit_inv; [exact (IH Hmax)|exact Hd|exact H].
  - eapply fail_deposit_inv; [exact (IH Hmax)|exact Hmax|exact H].
  - pose proof (finalize_inv _ _ _ _ _ _ _ _ _ (IH Hmax) H) as HH. by rewrite Hw in HH.
  - apply (finalize_inv _ _ _ _ _ _ _ _ _ (IH Hmax) H).
Qed.
End BridgeRuns.

(** ** Properties of the bridge *)

(** On every run of the bridge on which no more than 2^128 - 1 ever came in, what came
    in by locks is what is in escrow, plus what waits in pending deposits, plus what
    completed deposits took out, plus what withdrawals released; and every balance
    of the escrow is an amount that fits its type. *)
Theorem escrow_conserved sha3 inn out rel b :
  bridge_run sha3 inn out rel b → inn ≤ u128_max →
  inn = escrow_total b + pending_total b + out + rel ∧ ∀ id a, 0 ≤ locked_of id a b ≤ u128_max.
Proof.
  intros Hrun Hmax. destruct (bridge_run_inv _ _ _ _ _ Hrun Hmax) as [Hok _ [Ho Hr] Hb]. split; [done|].
  intros id a. pose proof (locked_le_total b id a Hok). pose proof (pending_nonneg b Hok). split; [apply Hok|lia].
Qed.

(** A registry with one active sidechain. *)
Definition demo_sidechain : Sidechain :=
  mkSidechain (mkConfig 7 (ascii_bytes "games") [] 1000 10 5 1 100 20 true 0 []) 1 0 0 0 0 0.
Definition demo_registry : SidechainRegistry := mkRegistry 10 {[7 := demo_sidechain]} {[7 := []]} ∅ [] 2 ∅.

Lemma escrow_conserved_witness :
  ∃ b, bridge_run (λ _, 99) 50 30 15 b ∧ 50 = escrow_total b + pending_total b + 30 + 15 ∧ locked_of 7 4 b = 5.
Proof.
  pose proof (br_lock (λ _, 99) 0 0 0 _ 7 4 50 _ (br_new _) ltac:(lia) eq_refl) as H1.
  pose proof (br_deposit (λ _, 99) _ 0 0 _ demo_registry 7 4 8 30 Native 0 [] 0 _ _ H1 ltac:(lia) eq_refl eq_refl) as H2.
  pose proof (br_complete (λ _, 99) _ 0 0 _ 99 0 _ _ H2 eq_refl eq_refl) as H3.
  pose proof (br_withdraw (λ _, 99) _ _ 0 _ demo_registry 7 8 4 15 Native 0 10 [] 0 _ _ H3 eq_refl ltac:(lia)) as H4.
  pose proof (br_finalize (λ _, 99) _ _ 0 _ 99 30 0 _ _ H4 eq_refl eq_refl) as H5.
  eexists. split; [exact H5|]. split; [|reflexivity].
  apply (escrow_conserved _ _ _ _ _ H5). vm_compute. discriminate.
Defined.

(** What a deposit does to the escrow. *)
Lemma deposit_locked sha3 r id s t v asset tx random now b i b' :
  initiate_deposit sha3 r id s t v asset tx random now b = (Ok i, b') → 0 ≤ v → locked_of id s b ≤ u128_max →
  locked_of id s b' = locked_of id s b - v ∧ pending_deposits b' !! i = Some (mkDeposit i id s t v asset tx now Pending) ∧
  pending_withdrawals b' = pending_withdrawals b.
Proof.
  unfold initiate_deposit, check_deposit, bindM.
  destruct (sidechains r !! id) as [sc|]; [|done]. destruct (negb _); [done|].
  destruct (locked_assets b !! id) as [m|] eqn:Hm; [|done].
  destruct (Z.ltb_spec (get0 m s) v) as [|Hle]; [done|].
  unfold book_deposit, bindM, modify, generate_transfer_id, returns. cbn [locked_assets set_locked set_deposits]. rewrite Hm.
  intros [= <- <-] Hv Hmax. cbn [pending_deposits pending_withdrawals]. split; [|split; [apply lookup_insert_eq|done]].
  unfold locked_of in *. cbn [locked_assets]. rewrite Hm in *. simpl in Hmax |- *. destruct (m !! s) as [x|] eqn:Hx.
  all: assert (Hg : get0 m s = default 0 (m !! s)) by done; rewrite Hx in Hg; simpl in Hg.
  - rewrite lookup_insert_eq. simpl. rewrite get0_insert_eq, Hg. unfold wrapping_sub. apply Z.mod_small. lia.
  - rewrite Hm. simpl. lia.
Qed.

(** A withdrawal of more than its recipient holds fails when it is finalized, and is gone. *)
Lemma finalize_short b j w block now :
  pending_withdrawals b !! j = Some w → dispute_deadline w ≤ block → locked_of (w_sidechain w) (w_recipient w) b < w_amount w →
  finalize_withdrawal j block now b = (Err InsufficientLockedAssets, set_withdrawals (delete j) b).
Proof.
  intros Hj Hd Hl. unfold finalize_withdrawal. rewrite Hj. destruct (Z.ltb_spec block (dispute_deadline w)) as [|_]; [lia|].
  unfold unlock_assets. cbn [locked_assets set_withdrawals].
  destruct (locked_assets b !! w_sidechain w) as [m|] eqn:Hm; [|done]. destruct (m !! w_recipient w) as [x|] eqn:Hx; [|done].
  rewrite (locked_lookup b _ m _ x Hm Hx) in Hl. by destruct (Z.ltb_spec x (w_amount w)); [|lia].
Qed.

Lemma withdrawal_opened sha3 r sc id s t v asset tx block random now b j b' :
  sidechains r !! id = Some sc →
  initiate_withdrawal sha3 r id s t v asset tx block random now b = (Ok j, b') →
  pending_withdrawals b' !! j = Some (mkWithdrawal j id s t v asset tx now Pending (block + dispute_window (sc_config sc))).
Proof.
  intros Hsc. unfold initiate_withdrawal, bindM, generate_transfer_id, lift, modify, returns. rewrite Hsc.
  destruct (checked_add _ _ _) as [d|] eqn:Hd; cbn [ok_or]; intros [= <- <-]. reflect_hyps. subst. simpl. by rewrite lookup_insert_eq.
Qed.

(** A withdrawal is paid out of what its recipient still holds in escrow, and a
    deposit takes away exactly that: after an account has moved its whole locked amount to a
    sidechain, a withdrawal of any positive amount back to it can be opened and outlives its dispute
    window, but its finalization fails for lack of locked assets and drops the withdrawal. *)
Theorem deposit_withdraw_loses sha3 r sc id a t v w asset tx random now block b1 i b2 b3 j b4 later :
  sidechains r !! id = Some sc → locked_of id a b1 = v → 0 ≤ v ≤ u128_max → 0 < w →
  initiate_deposit sha3 r id a t v asset tx random now b1 = (Ok i, b2) →
  complete_deposit i now b2 = (Ok (), b3) →
  initiate_withdrawal sha3 r id t a w asset tx block random now b3 = (Ok j, b4) →
  block + dispute_window (sc_config sc) ≤ later →
  ∃ b5, finalize_withdrawal j later now b4 = (Err InsufficientLockedAssets, b5) ∧ pending_withdrawals b5 !! j = None ∧
        escrow_total b5 = escrow_total b4.
Proof.
  intros Hsc Hl Hv Hw Hdep Hc Hwd Hlater.
  destruct (deposit_locked _ _ _ _ _ _ _ _ _ _ _ _ _ Hdep ltac:(lia) ltac:(lia)) as (Hl2 & Hp2 & _).
  unfold complete_deposit in Hc. rewrite Hp2 in Hc. injection Hc as <-.
  destruct (withdraw_same _ _ _ _ _ _ _ _ _ _ _ _ _ _ Hwd) as (_ & Hl4 & _).
  pose proof (withdrawal_opened _ _ _ _ _ _ _ _ _ _ _ _ _ _ _ Hsc Hwd) as Hj.
  assert (Hla : locked_of id a b4 = 0) by (unfold locked_of in *; rewrite Hl4; simpl; lia).
  eexists. split; [apply (finalize_short _ _ _ _ _ Hj Hlater); simpl; lia|]. simpl. split; [apply lookup_delete_eq|done].
Qed.

Lemma deposit_withdraw_loses_witness :
  ∃ b4 b5, finalize_withdrawal 99 30 0 b4 = (Err InsufficientLockedAssets, b5) ∧ pending_withdrawals b5 !! 99 = None ∧ escrow_total b5 = escrow_total b4.
Proof.
  eexists. refine (deposit_withdraw_loses (λ _, 99) demo_registry demo_sidechain 7 4 8 50 50 Native 0 [] 0 10
    (lock_assets 7 4 50 new_bridge).2 99 _ _ 99 _ 30 eq_refl eq_refl _ _ eq_refl eq_refl eq_refl _); vm_compute; split || (by auto).
  all: discriminate.
Defined.

(** Two deposits of the same account whose checks both run before either is booked both
    succeed although together they take more than there is, and the balance of the account
    wraps around by 2^128. *)
Theorem concurrent_deposits_wrap sha3 r id s t v w asset tx random now m x b :
  locked_assets b !! id = Some m → m !! s = Some x → x ≤ u128_max → v ≤ x → w ≤ x → x < v + w → 0 ≤ v → 0 ≤ w →
  check_deposit r id s v b = (Ok (), b) → check_deposit r id s w b = (Ok (), b) →
  ∃ i b1 j b2, book_deposit sha3 id s t v asset tx random now b = (Ok i, b1) ∧
    book_deposit sha3 id s t w asset tx random now b1 = (Ok j, b2) ∧
    locked_of id s b2 = x - v - w + (u128_max + 1).
Proof.
  intros Hm Hx Hmax Hv Hw Hlt Hv0 Hw0 _ _. eexists _, _, _, _. split; [reflexivity|]. split; [reflexivity|].
  unfold set_deposits, locked_of, set_locked. cbn [locked_assets]. rewrite Hm, Hx, lookup_insert_eq, lookup_insert_eq, lookup_insert_eq. simpl.
  rewrite get0_insert_eq. unfold wrapping_sub. rewrite (Z.mod_small (x - v) (u128_max + 1)) by lia.
  replace ((x - v - w) mod (u128_max + 1)) with (x - v - w + (u128_max + 1)); [done|]. apply (Z.mod_unique (x - v - w) (u128_max + 1) (-1)); lia.
Qed.

Lemma concurrent_deposits_wrap_witness :
  ∃ i b1 j b2, book_deposit (λ _, 99) 7 4 8 50 Native 0 [] 0 (lock_assets 7 4 50 new_bridge).2 = (Ok i, b1) ∧
    book_deposit (λ _, 99) 7 4 8 1 Native 0 [] 0 b1 = (Ok j, b2) ∧ locked_of 7 4 b2 = u128_max.
Proof.
  apply (concurrent_deposits_wrap (λ _, 99) demo_registry 7 4 8 50 1 Native 0 [] 0 {[4 := 50]} 50);
    try reflexivity; vm_compute; discriminate.
Defined.

(** ** Properties of the registry *)

Section RegistryProperties.
Context (sha3 : list Z → Hash) (verify : list Z → list Z → list Z → bool).
Context (is_alphanumeric : Z → bool) (valid_json : list Z → bool).

(** The operations of the registry, with whatever they return. *)
Inductive registry_step : SidechainRegistry → SidechainRegistry → Prop :=
  | rs_stake r c amount : registry_step r (deposit_registration_stake c amount r)
  | rs_register r c who e res r' : register sha3 is_alphanumeric valid_json c who e r = (res, r') → registry_step r r'
  | rs_operator r id o caller signature res r' : register_operator verify id o caller signature r = (res, r') → registry_step r r'
  | rs_slash r id a token res r' : slash_operator id a token r = (res, r') → registry_step r r'
  | rs_commit r id c res r' : submit_commitment verify id c r = (res, r') → registry_step r r'.

Definition registry_reachable (max : Z) (token : list Z) : SidechainRegistry → Prop := rtc registry_step (new_registry max token).

Definition sidechain_ok (id : SidechainId) (s : Sidechain) : Prop :=
  sc_id (sc_config s) = id ∧ sc_name (sc_config s) ≠ [] ∧ text_len (sc_name (sc_config s)) ≤ MAX_SIDECHAIN_NAME_LEN ∧
  MIN_BLOCK_TIME_MS ≤ block_time_ms (sc_config s) ∧ max_tx_per_block (sc_config s) ≠ 0 ∧
  dispute_window (sc_config s) ≠ 0 ∧ required_operators (sc_config s) ≠ 0 ∧ total_locked s = 0 ∧ active_users s = 0.

Definition operators_ok (ops : list SidechainOperator) : Prop :=
  NoDup (map op_address ops) ∧ (length ops ≤ MAX_OPERATORS_PER_SIDECHAIN)%nat.

(** The invariant of the registry. *)
Record registry_inv (max : Z) (token : list Z) (r : SidechainRegistry) : Prop := {
  ri_max : max_sidechains r = max;
  ri_token : auth_token r = token;
  ri_size : sidechains r ≠ ∅ → Z.of_nat (size (sidechains r)) ≤ max;
  ri_sidechains id s : sidechains r !! id = Some s → sidechain_ok id s ∧ is_Some (operators r !! id);
  ri_operators id ops : operators r !! id = Some ops → operators_ok ops ∧ is_Some (sidechains r !! id);
  ri_commitments id cs : commitments r !! id = Some cs →
    (length cs ≤ MAX_COMMITMENTS_PER_SIDECHAIN)%nat ∧ ∃ s c, sidechains r !! id = Some s ∧ list.last cs = Some c ∧
      state_root s = sc_state_root c ∧ latest_height s = sc_height c
}.

Lemma registry_inv_new max token : registry_inv max token (new_registry max token).
Proof. by split. Qed.

(** A replacement of one sidechain that keeps its head and its identity. *)
Lemma set_sidechain_inv max token r id s s' :
  registry_inv max token r → sidechains r !! id = Some s → sidechain_ok id s' →
  state_root s' = state_root s → latest_height s' = latest_height s →
  registry_inv max token (set_sidechains <[id := s']> r).
Proof.
  intros [H1 H2 H3 H4 H5 H6] Hs Hok Hroot Hh. split; simpl; try done.
  - intros _. rewrite map_size_insert_Some by done. apply H3. intros He. by rewrite He in Hs.
  - intros i x [[<- <-]|[_ Hx]]%lookup_insert_Some; [|by apply H4]. split; [done|by apply (H4 id s)].
  - intros i ops Hops. destruct (H5 i ops Hops) as [? Hi]. split; [done|]. by apply lookup_insert_is_Some'; right.
  - intros i cs Hcs. destruct (H6 i cs Hcs) as (Hlen & x & c & Hx & Hlast & Hr & Hhh). split; [done|].
    destruct (decide (i = id)) as [-> |Hne].
    + exists s', c. rewrite lookup_insert_eq. simplify_eq. split_and!; congruence.
    + exists x, c. by rewrite lookup_insert_ne.
Qed.

Lemma set_operators_inv max token r id ops :
  registry_inv max token r → operators_ok ops → is_Some (sidechains r !! id) → registry_inv max token (set_operators <[id := ops]> r).
Proof.
  intros [H1 H2 H3 H4 H5 H6] Hok His. split; simpl; try done.
  - intros i x Hx. split; [by apply H4|]. apply lookup_insert_is_Some'. right. by apply (H4 i x).
  - intros i x [[<- <-]|[_ Hx]]%lookup_insert_Some; [done|by apply H5].
Qed.

Lemma check_config_ok c (r r' : SidechainRegistry) res :
  check_config is_alphanumeric valid_json c r = (res, r') →
  r' = r ∧ (res = Ok () → sc_name c ≠ [] ∧ text_len (sc_name c) ≤ MAX_SIDECHAIN_NAME_LEN ∧ MIN_BLOCK_TIME_MS ≤ block_time_ms c ∧
  max_tx_per_block c ≠ 0 ∧ dispute_window c ≠ 0 ∧ required_operators c ≠ 0).
Proof.
  unfold check_config. rewrite fail_if_bind. destruct (sc_name c) as [|x n] eqn:Hn; [by intros [= <- <-]|]. rewrite <- Hn.
  rewrite fail_if_bind. destruct (Z.ltb_spec MAX_SIDECHAIN_NAME_LEN (text_len (sc_name c))) as [|Hlen]; [by intros [= <- <-]|].
  rewrite fail_if_bind. destruct (negb _); [by intros [= <- <-]|].
  rewrite fail_if_bind. destruct (Z.ltb_spec (block_time_ms c) MIN_BLOCK_TIME_MS) as [|Hbt]; [by intros [= <- <-]|].
  rewrite fail_if_bind. destruct (Z.eqb_spec (max_tx_per_block c) 0) as [|Hmt]; [by intros [= <- <-]|].
  rewrite fail_if_bind. destruct (Z.eqb_spec (dispute_window c) 0) as [|Hdw]; [by intros [= <- <-]|].
  rewrite fail_if_bind. destruct (Z.eqb_spec (required_operators c) 0) as [|Hro]; [by intros [= <- <-]|].
  rewrite fail_if_bind. destruct (MAX_CUSTOM_PARAMS_LEN <? _); [by intros [= <- <-]|].
  unfold fail_if. intros [= _ <-]. split; [done|]. intros _. split_and!; try done. by rewrite Hn.
Qed.

Lemma nonce_inv max token r n :
  registry_inv max token r →
  registry_inv max token (mkRegistry (max_sidechains r) (sidechains r) (operators r) (commitments r) (auth_token r) n (registration_stakes r)).
Proof. by intros [H1 H2 H3 H4 H5 H6]; split. Qed.

Lemma register_inv max token c who e r res r' :
  registry_inv max token r → register sha3 is_alphanumeric valid_json c who e r = (res, r') → registry_inv max token r'.
Proof.
  intros Hi. unfold register. unfold bindM at 1 2, gets at 1 2. rewrite fail_if_bind. cbn beta iota.
  destruct (Z.leb_spec (max_sidechains r) (Z.of_nat (size (sidechains r)))) as [|Hsize]; [by intros [= _ <-]|].
  unfold bindM at 1, gets at 1. rewrite fail_if_bind. destruct (_ <? MIN_REGISTRATION_STAKE); [by intros [= _ <-]|].
  unfold bindM at 1. destruct (check_config _ _ c r) as [res0 r0] eqn:Hc. destruct (check_config_ok c r r0 res0 Hc) as [-> Hok].
  destruct res0 as [[]|err]; [|by intros [= _ <-]]. specialize (Hok eq_refl) as (Hn & Hlen & Hbt & Hmt & Hdw & Hro).
  unfold bindM at 1. unfold generate_id. set (id := of_be_bytes _). set (r1 := mkRegistry _ _ _ _ _ _ _).
  assert (Hi1 : registry_inv max token r1) by by apply nonce_inv. unfold bindM at 1, gets at 1. rewrite fail_if_bind.
  case_bool_decide as Hk; [by intros [= _ <-]|]. apply eq_None_not_Some in Hk.
  unfold bindM, modify, returns. intros [= _ <-]. destruct Hi1 as [H1 H2 H3 H4 H5 H6]. split; cbn [set_operators set_sidechains max_sidechains sidechains operators commitments auth_token]; try done.
  - intros _. rewrite map_size_insert_None by done. change (sidechains r1) with (sidechains r). rewrite <- H1. change (max_sidechains r1) with (max_sidechains r). lia.
  - intros i s [[<- <-]|[Hne Hs]]%lookup_insert_Some.
    + rewrite lookup_insert_eq. split; [|done]. unfold sidechain_ok. by split_and!.
    + rewrite lookup_insert_ne by done. by apply H4.
  - intros i ops [[<- <-]|[Hne Hs]]%lookup_insert_Some.
    + rewrite lookup_insert_eq. split; [|done]. split; [apply base.NoDup_nil_2|]. cbn [length]. unfold MAX_OPERATORS_PER_SIDECHAIN. lia.
    + rewrite lookup_insert_ne by done. by apply H5.
  - intros i cs Hcs. destruct (H6 i cs Hcs) as (Hl & s & x & Hs & Hrest). split; [done|]. exists s, x.
    rewrite lookup_insert_ne; [done|]. intros <-. by rewrite Hk in Hs.
Qed.

Lemma check_activation_inv max token id r : registry_inv max token r → registry_inv max token (check_activation id r).
Proof.
  intros Hi. unfold check_activation. destruct (sidechains r !! id) as [s|] eqn:Hs; [|done]. destruct (operators r !! id); [|done].
  destruct (_ <=? _); [|done]. destruct (sc_active _); [done|]. eapply set_sidechain_inv; [done|done| |done|done].
  exact (proj1 (ri_sidechains _ _ _ Hi id s Hs)).
Qed.

Lemma operators_ok_app ops o :
  operators_ok ops → existsb (λ x, op_address x =? op_address o) ops = false → (length ops < MAX_OPERATORS_PER_SIDECHAIN)%nat →
  operators_ok (ops ++ [o]).
Proof.
  intros [Hnd _] Hex Hlen. split; [|rewrite length_app; simpl; lia]. rewrite map_app. apply list.NoDup_app. split; [done|]. split; [|apply NoDup_singleton].
  intros x Hx Hin. apply list_elem_of_singleton in Hin as ->. apply list_elem_of_fmap in Hx as (y & Hy & Hin).
  apply not_true_iff_false in Hex. apply Hex, existsb_exists. exists y. split; [by apply list_elem_of_In|]. by apply Z.eqb_eq.
Qed.

Lemma register_operator_inv max token id o caller signature r res r' :
  registry_inv max token r → register_operator verify id o caller signature r = (res, r') → registry_inv max token r'.
Proof.
  intros Hi. unfold register_operator. unfold bindM at 1. destruct (sidechains r !! id) as [s|] eqn:Hs; [|by intros [= _ <-]].
  do 4 (rewrite fail_if_bind; match goal with |- context [if ?b then (Err _, r) else _] => destruct b; [by intros [= _ <-]|] end).
  destruct (proj2 (ri_sidechains _ _ _ Hi id s Hs)) as [ops Hops]. destruct (proj1 (ri_operators _ _ _ Hi id ops Hops)) as [Hnd Hlen].
  unfold bindM at 1, gets at 1. rewrite Hops. unfold bindM at 1. rewrite fail_if_bind. destruct (existsb _ ops) eqn:Hex; [by intros [= _ <-]|].
  unfold fail_if. destruct (Nat.leb_spec MAX_OPERATORS_PER_SIDECHAIN (length ops)) as [|Hlt]; [by intros [= _ <-]|].
  unfold bindM, modify. intros [= _ <-]. apply check_activation_inv.
  replace (set_operators _ r) with (set_operators <[id := ops ++ [o]]> r) by (unfold set_operators; by rewrite Hops).
  apply set_operators_inv; [done|by apply operators_ok_app|by eexists].
Qed.

Lemma slash_first_addresses a ops ops' : slash_first a ops = Some ops' → map op_address ops' = map op_address ops.
Proof.
  revert ops'. induction ops as [|o ops IH]; intros ops'; simpl; [done|]. destruct (_ =? a); [by intros [= <-]|].
  intros (l & Hl & ->)%fmap_Some. simpl. by rewrite (IH l Hl).
Qed.

Lemma slash_operator_inv max token id a tok r res r' :
  registry_inv max token r → slash_operator id a tok r = (res, r') → registry_inv max token r'.
Proof.
  intros Hi. unfold slash_operator. destruct (negb _); [by intros [= _ <-]|].
  destruct (operators r !! id) as [ops|] eqn:Hops; [|by intros [= _ <-]]. destruct (slash_first a ops) as [ops'|] eqn:Hf; [|by intros [= _ <-]].
  intros [= _ <-]. destruct (ri_operators _ _ _ Hi id ops Hops) as [[Hnd Hlen] His]. pose proof (slash_first_addresses _ _ _ Hf) as Ha.
  apply set_operators_inv; [done| |done]. split; [by rewrite Ha|]. by rewrite <- (length_map op_address ops'), Ha, length_map.
Qed.

Lemma push_bounded_length {A} n (x : A) l : (0 < n)%nat → (length l ≤ n)%nat → (length (push_bounded n x l) ≤ n)%nat.
Proof. intros Hn Hl. unfold push_bounded. rewrite length_app. destruct (Nat.leb_spec n (length l)); destruct l; simpl in *; lia. Qed.

Lemma submit_commitment_inv max token id c r res r' :
  registry_inv max token r → submit_commitment verify id c r = (res, r') → registry_inv max token r'.
Proof.
  intros Hi. unfold submit_commitment. destruct (sidechains r !! id) as [s|] eqn:Hs; [|by intros [= _ <-]].
  destruct (operators r !! id) as [ops|] eqn:Hops; [|by intros [= _ <-]].
  do 4 (match goal with |- (if ?b then _ else _) = _ → _ => destruct b; [by intros [= _ <-]|] end).
  intros [= _ <-]. destruct Hi as [H1 H2 H3 H4 H5 H6]. split; cbn [set_commitments set_sidechains max_sidechains sidechains operators commitments auth_token]; try done.
  - intros _. rewrite map_size_insert_Some by done. apply H3. intros He. by rewrite He in Hs.
  - intros i x [[<- <-]|[_ Hx]]%lookup_insert_Some; [exact (H4 id s Hs)|by apply H4].
  - intros i l Hl. destruct (H5 i l Hl) as [? Hi]. split; [done|]. by apply lookup_insert_is_Some'; right.
  - intros i cs [[<- <-]|[Hne Hcs]]%lookup_insert_Some.
    + split.
      * apply push_bounded_length; [unfold MAX_COMMITMENTS_PER_SIDECHAIN; lia|]. destruct (commitments r !! id) as [l|] eqn:Hl; simpl; [by apply (H6 id l Hl)|lia].
      * exists (commit_state c s), c. rewrite lookup_insert_eq. unfold push_bounded. by rewrite last_snoc.
    + rewrite lookup_insert_ne by done. by apply H6.
Qed.

Lemma registry_step_inv max token r r' : registry_step r r' → registry_inv max token r → registry_inv max token r'.
Proof.
  destruct 1 as [r c amount|r c who e res r' H|r id o caller signature res r' H|r id a tok res r' H|r id c res r' H]; intros Hi.
  - by destruct Hi as [H1 H2 H3 H4 H5 H6]; split.
  - by eapply register_inv.
  - by eapply register_operator_inv.
  - by eapply slash_operator_inv.
  - by eapply submit_commitment_inv.
Qed.

(** Every registry that deposits of stake, registrations, operators, slashings and
    commitments can produce, failed calls included, holds: at most the configured number of
    sidechains; each under its own id, with a valid configuration and its list of operators; no operator
    address twice in a sidechain and at most 200 of them; and at most 10000 commitments, the newest
    of which is the head recorded for the sidechain. *)
Theorem registry_invariant max token r : registry_reachable max token r → registry_inv max token r.
Proof.
  intros Hr. cut (∀ r0, registry_inv max token r0 → rtc registry_step r0 r → registry_inv max token r).
  { intros H. eapply H; [apply registry_inv_new|exact Hr]. }
  intros r0 Hi Hs. induction Hs as [|r0 r1 r2 Hstep Hs IH]; [done|]. by apply IH, (registry_step_inv _ _ _ _ Hstep).
Qed.

End RegistryProperties.

(** A registry in which a staked creator has registered a sidechain with one operator. *)
Definition demo_operator : SidechainOperator := mkOperator 5 9 [1] true 0 0.
Definition demo_config : SidechainConfig := mkConfig 0 (ascii_bytes "games") [] 1000 10 5 1 100 20 false 0 [].
Definition demo_hash : Hash := 7 * 2 ^ 192.

Definition demo_registered : SidechainRegistry :=
  (register (λ _, demo_hash) (λ _, true) (λ _, true) demo_config 1 (mkEntropy [] 0 3 4)
    (deposit_registration_stake 1 MIN_REGISTRATION_STAKE (new_registry 10 [6]))).2.
Definition demo_operated : SidechainRegistry :=
  (register_operator (λ _ _ _, true) 7 demo_operator 1 (replicate 64 0) demo_registered).2.

Lemma registry_invariant_witness :
  registry_inv 10 [6] demo_operated ∧ sc_active ∘ sc_config <$> sidechains demo_operated !! 7 = Some true.
Proof.
  split; [|vm_compute; reflexivity].
  apply (registry_invariant (λ _, demo_hash) (λ _ _ _, true) (λ _, true) (λ _, true) 10 [6]).
  eapply rtc_l; [apply (rs_stake _ _ _ _ _ 1 MIN_REGISTRATION_STAKE)|].
  eapply rtc_l; [apply (rs_register _ _ _ _ _ demo_config 1 (mkEntropy [] 0 3 4) _ _ (surjective_pairing _))|].
  eapply rtc_l; [apply (rs_operator _ _ _ _ _ 7 demo_operator 1 (replicate 64 0) _ _ (surjective_pairing _))|].
  apply rtc_refl.
Defined.

(** A commitment is accepted exactly when the sidechain and its operators are known, there
    are as many active operators as it requires, and more than two thirds of the number of active
    operators of its signatures verify; acceptance makes its root and height the head of the
    sidechain, whatever they were before. *)
Theorem commitment_accepted_iff verify id c r s ops :
  sidechains r !! id = Some s → operators r !! id = Some ops → 0 < required_operators (sc_config s) →
  (submit_commitment verify id c r).1 = Ok () ↔
    required_operators (sc_config s) ≤ Z.of_nat (active_operators ops) ∧
    (2 * active_operators ops < 3 * valid_signatures verify ops id c)%nat ∧
    sidechains (submit_commitment verify id c r).2 !! id = Some (commit_state c s).
Proof.
  intros Hs Hops Hreq. unfold submit_commitment. rewrite Hs, Hops.
  assert (Hlen : (valid_signatures verify ops id c ≤ length (sc_signatures c))%nat) by apply length_filter.
  assert (Hthird : ∀ n, (required_sigs ops ≤ n ↔ 2 * active_operators ops < 3 * n)%nat).
  { intros n. unfold required_sigs. pose proof (Nat.div_mod (active_operators ops * 2) 3). pose proof (Nat.mod_upper_bound (active_operators ops * 2) 3). lia. }
  assert (Hnil : ops = [] → active_operators ops = 0%nat) by by intros ->.
  specialize (Hthird (valid_signatures verify ops id c)).
  destruct (match ops with [] => true | _ => false end) eqn:He; simpl.
  { destruct ops; [|done]. split; [done|]. rewrite Hnil by done. lia. }
  destruct (Z.ltb_spec (Z.of_nat (active_operators ops)) (required_operators (sc_config s))); simpl; [split; [done|lia]|].
  destruct (Nat.ltb_spec (length (sc_signatures c)) (required_sigs ops)); simpl; [split; [done|lia]|].
  destruct (Nat.ltb_spec (valid_signatures verify ops id c) (required_sigs ops)); simpl; [split; [done|lia]|].
  rewrite lookup_insert_eq. split; [|done]. intros _. split_and!; [lia|by apply Hthird|done].
Qed.

Definition demo_commitment (n : nat) (h root : Z) : StateCommitment :=
  mkStateCommitment h root 0 (replicate n (mkOpSig 5 (replicate 64 0))) 0 0.

Lemma commitment_accepted_iff_witness :
  (submit_commitment (λ _ _ _, true) 7 (demo_commitment 1 3 44) demo_operated).1 = Ok ().
Proof.
  refine (proj2 (commitment_accepted_iff (λ _ _ _, true) 7 (demo_commitment 1 3 44) demo_operated
    (set_active (mkSidechain (mkConfig 7 (ascii_bytes "games") [] 1000 10 5 1 100 20 false 3 []) 1 4 0 0 0 0)) [demo_operator] _ _ _) _).
  - vm_compute. reflexivity.
  - vm_compute. reflexivity.
  - vm_compute. reflexivity.
  - split; [vm_compute; discriminate|]. split; [vm_compute; lia|vm_compute; reflexivity].
Defined.

Lemma valid_signatures_replicate verify ops id c n s :
  sc_signatures c = replicate n s → signature_valid verify ops (build_commitment_message id c) s = true →
  valid_signatures verify ops id c = n.
Proof.
  intros Hc Hv. unfold valid_signatures. rewrite Hc. clear Hc. induction n as [|n IH]; [done|]. simpl.
  rewrite list.filter_cons_True by done. simpl. by rewrite IH.
Qed.

(** Signatures are counted, not signers: one active operator among any number of them, whose
    one signature is repeated, has its commitment accepted by the two-thirds rule, at any height. *)
Theorem one_operator_commits verify id r s ops o sig h root tx now block :
  sidechains r !! id = Some s → operators r !! id = Some ops → NoDup (map op_address ops) →
  0 < required_operators (sc_config s) ≤ Z.of_nat (active_operators ops) →
  o ∈ ops → op_active o = true → (64 ≤ length sig)%nat →
  let c := mkStateCommitment h root tx (replicate (required_sigs ops) (mkOpSig (op_address o) sig)) now block in
  verify (op_public_key o) (build_commitment_message id c) sig = true →
  (submit_commitment verify id c r).1 = Ok () ∧
  sidechains (submit_commitment verify id c r).2 !! id = Some (commit_state c s).
Proof.
  intros Hs Hops Hnd Hreq Ho Hact Hlen c Hv.
  assert (Hfind : List.find (λ x, (op_address x =? op_address o) && op_active x) ops = Some o).
  { clear Hops Hreq Hv c. induction ops as [|x ops IH]; [by apply not_elem_of_nil in Ho|]. simpl in *. apply list.NoDup_cons in Hnd as [Hx Hnd].
    apply elem_of_cons in Ho as [<-|Ho]; [by rewrite Z.eqb_refl, Hact|]. destruct (Z.eqb_spec (op_address x) (op_address o)) as [He|]; [|by apply IH].
    destruct Hx. rewrite He. by apply list_elem_of_fmap_2. }
  assert (Hvs : valid_signatures verify ops id c = required_sigs ops).
  { eapply valid_signatures_replicate; [reflexivity|]. unfold signature_valid. cbn [sig_operator sig_signature]. rewrite Hfind, Hv.
    by destruct (Nat.ltb_spec (length sig) 64); [lia|]. }
  unfold submit_commitment. rewrite Hs, Hops. destruct ops as [|x ops']; [by apply not_elem_of_nil in Ho|]. set (ops := x :: ops') in *.
  destruct (Z.ltb_spec (Z.of_nat (active_operators ops)) (required_operators (sc_config s))); [lia|].
  rewrite Hvs. replace (length (sc_signatures c)) with (required_sigs ops) by (symmetry; apply length_replicate).
  rewrite Nat.ltb_irrefl. simpl. by rewrite lookup_insert_eq.
Qed.

Definition demo_crowd : list SidechainOperator := [demo_operator; mkOperator 6 9 [2] true 0 0; mkOperator 8 9 [3] true 0 0].

Lemma one_operator_commits_witness :
  (submit_commitment (λ pk _ _, bool_decide (pk = [1])) 7 (demo_commitment 3 1 44)
     (set_operators <[7 := demo_crowd]> demo_operated)).1 = Ok ().
Proof.
  refine (proj1 (one_operator_commits (λ pk _ _, bool_decide (pk = [1])) 7 (set_operators <[7 := demo_crowd]> demo_operated)
    (set_active (mkSidechain (mkConfig 7 (ascii_bytes "games") [] 1000 10 5 1 100 20 false 3 []) 1 4 0 0 0 0))
    demo_crowd demo_operator (replicate 64 0) 1 44 0 0 0 _ _ _ _ _ _ _ _)).
  - vm_compute. reflexivity.
  - vm_compute. reflexivity.
  - apply (bool_decide_unpack _). vm_compute. exact I.
  - vm_compute. split; discriminate || reflexivity.
  - by apply list_elem_of_here.
  - reflexivity.
  - simpl. lia.
  - reflexivity.
Defined.

(** The stake that a registration asks for is only looked at: registering leaves every deposit of stake
    as it was, so one deposit of the minimum opens as many sidechains as the registry has room
    for.  Registration fails only with the documented errors, and on failure of the first
    checks nothing changes. *)
Theorem registration_stake_reused sha3 alnum json c who e r res r' :
  register sha3 alnum json c who e r = (res, r') →
  registration_stakes r' = registration_stakes r ∧
  (is_ok res = true → MIN_REGISTRATION_STAKE ≤ default 0 (registration_stakes r' !! who)) ∧
  (is_ok res = false → sidechains r' = sidechains r ∧ operators r' = operators r).
Proof.
  unfold register. unfold bindM at 1 2, gets at 1 2. rewrite fail_if_bind. cbn beta iota.
  destruct (_ <=? _); [by intros [= <- <-]|].
  unfold bindM at 1, gets at 1. rewrite fail_if_bind.
  destruct (Z.ltb_spec (default 0 (registration_stakes r !! who)) MIN_REGISTRATION_STAKE) as [|Hst]; [by intros [= <- <-]|].
  unfold bindM at 1. destruct (check_config _ _ c r) as [res0 r0] eqn:Hc. destruct (check_config_ok _ _ c r r0 res0 Hc) as [-> _].
  destruct res0 as [[]|err]; [|by intros [= <- <-]].
  unfold bindM at 1, generate_id. set (id := of_be_bytes _). unfold bindM at 1, gets at 1. rewrite fail_if_bind.
  case_bool_decide; [by intros [= <- <-]|]. unfold bindM, modify, returns. by intros [= <- <-].
Qed.

Lemma registration_stake_reused_witness :
  registration_stakes demo_registered =
  registration_stakes (deposit_registration_stake 1 MIN_REGISTRATION_STAKE (new_registry 10 [6])).
Proof.
  exact (proj1 (registration_stake_reused (λ _, demo_hash) (λ _, true) (λ _, true) demo_config 1 (mkEntropy [] 0 3 4)
    (deposit_registration_stake 1 MIN_REGISTRATION_STAKE (new_registry 10 [6])) _ demo_registered (surjective_pairing _))).
Defined.
