(* ===== verification/Chains.v ===== *)
(** * External chains

    Models [src/L1/src/l0/external.rs] (the chains a checkpoint can come from, the
    proofs submitted with it, its digest) and [src/L1/src/l0/registry.rs] (the registry of
    target chains).  A [String] is the list of its UTF-8 bytes, held in a
    [string]; texts of target chains are lists of code points, since trimming looks at
    characters.  Bincode and SHA3-256 are arguments. *)

From S2P Require Import Prelude Bytes.

(** ** Families and chains *)

Inductive ChainFamily : Type :=
  | FamEvm | FamSvm | FamTvm | FamStellar | FamMove | FamCosmos | FamNear | FamTon | FamBitcoin | FamSubstrate
  | FamCardano | FamTezos | FamRipple | FamIcp | FamAlgorand | FamHedera | FamCanton | FamCustom.

#[export] Instance ChainFamily_eq_dec : EqDecision ChainFamily.
Proof. solve_decision. Defined.

Inductive ChainId : Type :=
  | Ethereum | EthereumSepolia | Base | BaseSepolia | Arbitrum | ArbitrumSepolia | Optimism | OptimismSepolia
  | Polygon | PolygonAmoy | Avalanche | AvalancheFuji | BinanceSmartChain | BscTestnet | Moonbeam | Berachain
  | Hyperliquid | Monad | Somnia
  | Solana | SolanaDevnet | Near | NearTestnet | Aptos | AptosTestnet | Sui | SuiTestnet | Ton | TonTestnet
  | Bitcoin | BitcoinTestnet | Stellar | StellarTestnet | Polkadot | PolkadotTestnet | Tron | TronShasta
  | Cosmos | CosmosTestnet | Cardano | CardanoTestnet | Tezos | TezosTestnet | Ripple | RippleTestnet
  | InternetComputer | Algorand | Hedera | Canton
  | Custom (s : string).

(** Every chain that has a constructor of its own. *)
Definition named_chains : list ChainId :=
  [Ethereum; EthereumSepolia; Base; BaseSepolia; Arbitrum; ArbitrumSepolia; Optimism; OptimismSepolia;
   Polygon; PolygonAmoy; Avalanche; AvalancheFuji; BinanceSmartChain; BscTestnet; Moonbeam; Berachain;
   Hyperliquid; Monad; Somnia;
   Solana; SolanaDevnet; Near; NearTestnet; Aptos; AptosTestnet; Sui; SuiTestnet; Ton; TonTestnet;
   Bitcoin; BitcoinTestnet; Stellar; StellarTestnet; Polkadot; PolkadotTestnet; Tron; TronShasta;
   Cosmos; CosmosTestnet; Cardano; CardanoTestnet; Tezos; TezosTestnet; Ripple; RippleTestnet;
   InternetComputer; Algorand; Hedera; Canton].

Definition as_str (c : ChainId) : string :=
  match c with
  | Ethereum => "ethereum" | EthereumSepolia => "ethereum-sepolia" | Base => "base" | BaseSepolia => "base-sepolia"
  | Arbitrum => "arbitrum" | ArbitrumSepolia => "arbitrum-sepolia" | Optimism => "optimism" | OptimismSepolia => "optimism-sepolia"
  | Polygon => "polygon" | PolygonAmoy => "polygon-amoy" | Avalanche => "avalanche" | AvalancheFuji => "avalanche-fuji"
  | BinanceSmartChain => "bsc" | BscTestnet => "bsc-testnet" | Moonbeam => "moonbeam" | Berachain => "berachain"
  | Hyperliquid => "hyperliquid" | Monad => "monad" | Somnia => "somnia"
  | Solana => "solana" | SolanaDevnet => "solana-devnet" | Near => "near" | NearTestnet => "near-testnet"
  | Aptos => "aptos" | AptosTestnet => "aptos-testnet" | Sui => "sui" | SuiTestnet => "sui-testnet"
  | Ton => "ton" | TonTestnet => "ton-testnet" | Bitcoin => "bitcoin" | BitcoinTestnet => "bitcoin-testnet"
  | Stellar => "stellar" | StellarTestnet => "stellar-testnet" | Polkadot => "polkadot" | PolkadotTestnet => "polkadot-testnet"
  | Tron => "tron" | TronShasta => "tron-shasta" | Cosmos => "cosmos" | CosmosTestnet => "cosmos-testnet"
  | Cardano => "cardano" | CardanoTestnet => "cardano-testnet" | Tezos => "tezos" | TezosTestnet => "tezos-testnet"
  | Ripple => "ripple" | RippleTestnet => "ripple-testnet" | InternetComputer => "icp" | Algorand => "algorand"
  | Hedera => "hedera" | Canton => "canton"
  | Custom s => s
  end.

Definition chain_family (c : ChainId) : ChainFamily :=
  match c with
  | Ethereum | EthereumSepolia | Base | BaseSepolia | Arbitrum | ArbitrumSepolia | Optimism | OptimismSepolia
  | Polygon | PolygonAmoy | Avalanche | AvalancheFuji | BinanceSmartChain | BscTestnet | Moonbeam | Berachain | Hyperliquid
  | Monad | Somnia => FamEvm
  | Solana | SolanaDevnet => FamSvm
  | Aptos | AptosTestnet | Sui | SuiTestnet => FamMove
  | Near | NearTestnet => FamNear
  | Ton | TonTestnet => FamTon
  | Bitcoin | BitcoinTestnet => FamBitcoin
  | Stellar | StellarTestnet => FamStellar
  | Polkadot | PolkadotTestnet => FamSubstrate
  | Tron | TronShasta => FamTvm
  | Cosmos | CosmosTestnet => FamCosmos
  | Cardano | CardanoTestnet => FamCardano
  | Tezos | TezosTestnet => FamTezos
  | Ripple | RippleTestnet => FamRipple
  | InternetComputer => FamIcp
  | Algorand => FamAlgorand
  | Hedera => FamHedera
  | Canton => FamCanton
  | Custom _ => FamCustom
  end.

(** A chain as its name and whether it is custom; named chains are told apart by name. *)
Definition chain_tag (c : ChainId) : bool * string := (match c with Custom _ => true | _ => false end, as_str c).
Definition chain_of_tag (t : bool * string) : option ChainId :=
  if t.1 then Some (Custom t.2) else List.find (λ c, bool_decide (as_str c = t.2)) named_chains.

Lemma chain_of_chain_tag c : chain_of_tag (chain_tag c) = Some c.
Proof. destruct c; vm_compute; reflexivity. Qed.

Lemma chain_tag_inj c d : chain_tag c = chain_tag d → c = d.
Proof. intros He. pose proof (chain_of_chain_tag c) as Hc. rewrite He, chain_of_chain_tag in Hc. congruence. Qed.

#[export] Instance ChainId_eq_dec : EqDecision ChainId.
Proof.
  intros c d. destruct (decide (chain_tag c = chain_tag d)) as [He|Hne].
  - left. by apply chain_tag_inj.
  - right. by intros ->.
Defined.

#[export] Instance ChainId_countable : Countable ChainId := inj_countable chain_tag chain_of_tag chain_of_chain_tag.

(** ** Proofs of external chains *)

Inductive SignatureScheme : Type := Ed25519 | Bls12381 | EcdsaSecp256k1.

Inductive ChainProof : Type :=
  | ProofEvm (block_header_rlp : list Z) (sync_committee_signature : option (list Z)) (execution_payload_hash : option Hash)
  | ProofBitcoin (block_header : list Z) (confirmations : Z) (tx_merkle_proof : option (list Hash)) (block_height : Z)
      (tx_hash : option Hash) (tx_index : option Z)
  | ProofSolana (ledger_entry : list Z) (vote_signatures : list (list Z)) (bank_hash : Hash)
  | ProofMove (ledger_info : list Z) (validator_signatures validator_pubkeys : list (list Z))
  | ProofNear (block_header : list Z) (approval_signatures producer_pubkeys : list (list Z))
  | ProofCosmos (block_header : list Z) (commit_signatures validator_pubkeys : list (list Z)) (signed_power_bps : Z)
  | ProofCardano (block_header vrf_proof : list Z) (pool_signatures : list (list Z))
  | ProofTon (block_header : list Z) (validator_signatures validator_pubkeys : list (list Z))
  | ProofTron (block_header : list Z) (producer_signatures producer_pubkeys : list (list Z))
  | ProofPolkadot (grandpa_vote : list Z) (validator_signatures validator_pubkeys : list (list Z))
  | ProofStellar (scp_statement : list Z) (node_signatures node_pubkeys : list (list Z))
  | ProofTezos (endorsement : list Z) (baker_signatures baker_pubkeys : list (list Z))
  | ProofRipple (ledger_header : list Z) (validator_signatures validator_pubkeys : list (list Z)) (signed_power_bps : Z)
  | ProofIcp (block_header threshold_signature subnet_public_key : list Z)
  | ProofAlgorand (block_header : list Z) (participation_signatures participation_pubkeys : list (list Z)) (signed_power_bps : Z)
  | ProofHedera (block_header : list Z) (council_signatures council_pubkeys : list (list Z)) (signed_power_bps : Z)
  | ProofCanton (sync_event : list Z) (participant_signatures participant_pubkeys : list (list Z))
  | ProofGeneric (proof_bytes : list Z) (signer_pubkeys signatures : list (list Z)) (signature_scheme : SignatureScheme).

Definition proof_family (p : ChainProof) : ChainFamily :=
  match p with
  | ProofEvm _ _ _ => FamEvm
  | ProofBitcoin _ _ _ _ _ _ => FamBitcoin
  | ProofSolana _ _ _ => FamSvm
  | ProofMove _ _ _ => FamMove
  | ProofNear _ _ _ => FamNear
  | ProofCosmos _ _ _ _ => FamCosmos
  | ProofCardano _ _ _ => FamCardano
  | ProofTon _ _ _ => FamTon
  | ProofTron _ _ _ => FamTvm
  | ProofPolkadot _ _ _ => FamSubstrate
  | ProofStellar _ _ _ => FamStellar
  | ProofTezos _ _ _ => FamTezos
  | ProofRipple _ _ _ _ => FamRipple
  | ProofIcp _ _ _ => FamIcp
  | ProofAlgorand _ _ _ _ => FamAlgorand
  | ProofHedera _ _ _ _ => FamHedera
  | ProofCanton _ _ _ => FamCanton
  | ProofGeneric _ _ _ _ => FamCustom
  end.

Record ExternalCheckpoint : Type := mkExternal {
  chain_id : ChainId;
  block_number : Z;
  block_hash : Hash;
  ext_state_root : Hash;
  parent_block_hash : Hash;
  chain_work : Z;
  timestamp_ms : Z;
  proof : ChainProof;
  metadata : option string
}.

(** Why a checkpoint is refused: the text of the code, with its numbers. *)
Inductive Reason : Type :=
  | Text (s : string)
  | HeaderLength (got : Z)
  | Confirmations (got : Z)
  | ClaimedPower (chain : string) (bps : Z)
  | ValidatorCount (in_set in_proof : Z)
  | SignedPower (chain : string) (bps threshold : Z) (errors : list string)
  | SignerQuorum (valid signers quorum : Z) (errors : list string)
  | ThresholdSignature (error : string)
  | NoLightClient (c : ChainId)
  | BrokenParent (expected got : Hash)
  | WorkNotAdvanced (got last : Z).

(** [error.rs] *)
Inductive L0Error : Type :=
  | InvalidCheckpoint (r : Reason)
  | InsufficientStake (signed required : Z)
  | SignatureFailed (s : string)
  | UnknownValidatorSet (s : string)
  | Encoding (s : string)
  | UnsupportedVersion (v : Z)
  | AlreadyRelayed (id : list Z)
  | Config (s : string)
  | AdapterMissing (id : list Z)
  | Transport (s : string)
  | PermanentRelay (s : string).

Record VerificationResult : Type := mkVerification {
  vr_valid : bool;
  vr_reason : option Reason;
  confidence_bps : Z
}.

Definition valid : VerificationResult := mkVerification true None 10000.
Definition invalid (reason : Reason) : VerificationResult := mkVerification false (Some reason) 0.
Definition partial (bps : Z) : VerificationResult := mkVerification (6667 <=? bps) None bps.

Section Digest.
Context (sha3 : list Z → Hash) (bincode : ChainProof → option (list Z)).

Definition to_bytes (p : ChainProof) : list Z := default [] (bincode p).

Definition digest_message (c : ExternalCheckpoint) : list Z :=
  ascii_bytes (as_str (chain_id c)) ++ be_bytes 8 (block_number c) ++ hash_bytes (block_hash c) ++ hash_bytes (ext_state_root c) ++
  hash_bytes (parent_block_hash c) ++ be_bytes 16 (chain_work c) ++ be_bytes 8 (timestamp_ms c) ++ to_bytes (proof c).

Definition digest (c : ExternalCheckpoint) : Hash := sha3 (digest_message c).
End Digest.

(** ** Target chains *)

(** The characters [str::trim] removes: the Unicode property White_Space. *)
Definition is_whitespace (c : Z) : bool :=
  ((9 <=? c) && (c <=? 13)) || (c =? 32) || (c =? 133) || (c =? 160) || (c =? 5760) || ((8192 <=? c) && (c <=? 8202)) ||
  (c =? 8232) || (c =? 8233) || (c =? 8239) || (c =? 8287) || (c =? 12288).

Fixpoint trim_start (s : list Z) : list Z :=
  match s with
  | c :: s' => if is_whitespace c then trim_start s' else s
  | [] => []
  end.

Definition trim (s : list Z) : list Z := reverse (trim_start (reverse (trim_start s))).
Definition to_ascii_lowercase (c : Z) : Z := if (65 <=? c) && (c <=? 90) then c + 32 else c.

Definition new_target (raw : list Z) : list Z := map to_ascii_lowercase (trim raw).

Record ChainAdapter : Type := mkAdapter {
  adapter_id : list Z;
  adapter_family : ChainFamily;
  chain_magic : Z;
  display_name : string;
  endpoint : string;
  receiver_address : option string;
  stark_verifier_address : option string;
  enabled : bool
}.

Definition is_live (a : ChainAdapter) : bool := enabled a && negb (bool_decide (endpoint a = "")).

Inductive RegistryError : Type := Missing (id : list Z) | Duplicate (id : list Z).

Definition from_registry_error (e : RegistryError) : L0Error :=
  match e with
  | Missing id => AdapterMissing id
  | Duplicate id => Config "duplicate adapter"
  end.

Abbreviation ChainRegistry := (gmap (list Z) ChainAdapter) (only parsing).

Definition register_adapter (a : ChainAdapter) : M ChainRegistry RegistryError () :=
  known <-? gets (λ r, bool_decide (is_Some (r !! adapter_id a))) ;
  fail_if known (Duplicate (adapter_id a)) ?;
  modify <[adapter_id a := a]>.

Definition upsert (a : ChainAdapter) (r : ChainRegistry) : ChainRegistry := <[adapter_id a := a]> r.
Definition remove_adapter (id : list Z) (r : ChainRegistry) : ChainRegistry := delete id r.
Definition get_adapter (id : list Z) (r : ChainRegistry) : Result ChainAdapter RegistryError := ok_or (r !! id) (Missing id).
Definition live_targets (r : ChainRegistry) : list ChainAdapter := filter (λ a, is_live a = true) (map snd (map_to_list r)).

Definition mk (id : string) (f : ChainFamily) (magic : Z) (name : string) (on : bool) : ChainAdapter :=
  mkAdapter (new_target (ascii_bytes id)) f magic name "" None None on.

Definition default_adapters : list ChainAdapter :=
  [mk "ethereum" FamEvm 1 "Ethereum" false; mk "monad" FamEvm 41454 "Monad" false;
   mk "hyperliquid-evm" FamEvm 999 "Hyperliquid EVM" false; mk "arbitrum" FamEvm 42161 "Arbitrum One" false;
   mk "base" FamEvm 8453 "Base" false; mk "polygon" FamEvm 137 "Polygon" false; mk "optimism" FamEvm 10 "Optimism" false;
   mk "berachain" FamEvm 80082 "Berachain" false; mk "bsc" FamEvm 56 "Binance Smart Chain" true;
   mk "bsc-testnet" FamEvm 97 "BSC Testnet" false; mk "solana" FamSvm 5459788 "Solana" true;
   mk "tron" FamTvm 728126428 "Tron" true; mk "stellar" FamStellar 5461068 "Stellar" true;
   mk "aptos" FamMove 4280404 "Aptos" true; mk "sui" FamMove 5461321 "Sui" true;
   mk "cosmoshub" FamCosmos 4411219 "Cosmos Hub" true; mk "near" FamNear 5129537 "NEAR Protocol" true;
   mk "bitcoin-stacks" FamBitcoin 4346947 "Bitcoin (Stacks)" true; mk "ton" FamTon 5525326 "TON" true;
   mk "polkadot" FamSubstrate 5263180 "Polkadot" true; mk "cardano" FamCardano 4407634 "Cardano" true;
   mk "tezos" FamTezos 5527642 "Tezos" true; mk "tezos-testnet" FamTezos 5527642 "Tezos Ghostnet" false;
   mk "ripple" FamRipple 1381519436 "Ripple" true; mk "ripple-testnet" FamRipple 1381519444 "Ripple Testnet" false;
   mk "icp" FamIcp 4801360 "Internet Computer" true; mk "algorand" FamAlgorand 1095518031 "Algorand" true;
   mk "hedera" FamHedera 4736324 "Hedera" true; mk "canton" FamCanton 4407630 "Canton Network" true].

(** Errors of single registrations are ignored. *)
Definition registry_with_defaults : ChainRegistry :=
  foldl (λ r a, (register_adapter a r).2) ∅ default_adapters.

(** ** Lemmas *)

(** A fixed-width big-endian field at the front of an encoding. *)
Lemma be_app_inj n x y c d :
  0 ≤ x < 256 ^ Z.of_nat n → 0 ≤ y < 256 ^ Z.of_nat n →
  be_bytes n x ++ c = be_bytes n y ++ d → x = y ∧ c = d.
Proof.
  intros Hx Hy [Heq ->]%(app_fixed_inj n); try apply be_bytes_length. split; [|done]. by eapply be_bytes_inj.
Qed.

Lemma ascii_bytes_length s : length (ascii_bytes s) = String.length s.
Proof. unfold ascii_bytes. rewrite length_map. induction s as [|a s IH]; simpl; [done|]. by rewrite IH. Qed.

Lemma list_ascii_inj s t : String.list_ascii_of_string s = String.list_ascii_of_string t → s = t.
Proof. intros He. by rewrite <- (String.string_of_list_ascii_of_string s), He, String.string_of_list_ascii_of_string. Qed.

Lemma ascii_bytes_inj s t : ascii_bytes s = ascii_bytes t → s = t.
Proof.
  unfold ascii_bytes. intros He. apply list_ascii_inj. revert He. generalize (String.list_ascii_of_string s), (String.list_ascii_of_string t).
  intros l. induction l as [|a l IH]; intros [|b k] He; try done. cbn [map] in He. injection He as Ha He.
  f_equal; [|by apply IH]. apply N2Z.inj in Ha. by rewrite <- (Ascii.ascii_N_embedding a), Ha, Ascii.ascii_N_embedding.
Qed.

(** The integer fields of a checkpoint fit their types. *)
Definition checkpoint_fits (c : ExternalCheckpoint) : Prop :=
  fits u64_max (block_number c) ∧ fits (2 ^ 256 - 1) (block_hash c) ∧ fits (2 ^ 256 - 1) (ext_state_root c) ∧
  fits (2 ^ 256 - 1) (parent_block_hash c) ∧ fits u128_max (chain_work c) ∧ fits u64_max (timestamp_ms c).

(** The bytes behind the digest of a checkpoint determine every field of it but its
    metadata: two checkpoints with names of the same length and equal bytes agree on the chain's
    name, number, hash, state root, parent, work, time and the serialized proof. *)
Theorem digest_message_binds bincode c d :
  checkpoint_fits c → checkpoint_fits d → String.length (as_str (chain_id c)) = String.length (as_str (chain_id d)) →
  digest_message bincode c = digest_message bincode d →
  as_str (chain_id c) = as_str (chain_id d) ∧ block_number c = block_number d ∧ block_hash c = block_hash d ∧
  ext_state_root c = ext_state_root d ∧ parent_block_hash c = parent_block_hash d ∧ chain_work c = chain_work d ∧
  timestamp_ms c = timestamp_ms d ∧ to_bytes bincode (proof c) = to_bytes bincode (proof d).
Proof.
  intros (H1 & H2 & H3 & H4 & H5 & H6) (G1 & G2 & G3 & G4 & G5 & G6) Hlen. unfold digest_message, fits in *.
  assert (E8 : 256 ^ Z.of_nat 8 = u64_max + 1) by reflexivity. assert (E16 : 256 ^ Z.of_nat 16 = u128_max + 1) by reflexivity.
  intros [Hs He]%(app_fixed_inj (String.length (as_str (chain_id c)))); [|by rewrite ascii_bytes_length..].
  apply be_app_inj in He as [Hn He]; [|lia..]. apply hash_app_inj in He as [Hh He]; [|lia..]. apply hash_app_inj in He as [Hr He]; [|lia..].
  apply hash_app_inj in He as [Hp He]; [|lia..]. apply be_app_inj in He as [Hw He]; [|lia..]. apply be_app_inj in He as [Ht He]; [|lia..].
  split_and!; try done. by apply ascii_bytes_inj.
Qed.

Definition demo_checkpoint (h : Hash) : ExternalCheckpoint :=
  mkExternal Near 7 h 2 3 0 9 (ProofNear [1] [[2]] [[3]]) None.

Lemma digest_message_binds_witness :
  block_hash (demo_checkpoint 5) = block_hash (mkExternal (Custom "near") 7 5 2 3 0 9 (ProofNear [1] [[2]] [[3]]) (Some "m")).
Proof.
  apply (digest_message_binds (λ _, Some [1])); [..|reflexivity].
  - repeat split; vm_compute; discriminate.
  - repeat split; vm_compute; discriminate.
  - reflexivity.
Defined.

Lemma trim_start_fixed s : (∀ c s', s = c :: s' → is_whitespace c = false) → trim_start s = s.
Proof. destruct s as [|c s]; [done|]. intros H. simpl. by rewrite (H c s eq_refl). Qed.

Lemma trim_start_head s c s' : trim_start s = c :: s' → is_whitespace c = false.
Proof. induction s as [|d s IH]; simpl; [done|]. destruct (is_whitespace d) eqn:Hd; [done|]. by intros [= -> ->]. Qed.

Lemma trim_start_suffix s : ∃ p, s = p ++ trim_start s ∧ forallb is_whitespace p = true.
Proof.
  induction s as [|c s (p & Hp & Hw)]; [by exists []|]. simpl. destruct (is_whitespace c) eqn:Hc.
  - exists (c :: p). simpl. by rewrite Hc, <- Hp.
  - by exists [].
Qed.

(** Trimmed texts begin and end with a character that is kept. *)
Lemma trim_head s c s' : trim s = c :: s' → is_whitespace c = false.
Proof.
  unfold trim. destruct (trim_start_suffix (reverse (trim_start s))) as (p & Hp & _). intros He.
  assert (Hs : trim_start s = c :: s' ++ reverse p).
  { rewrite <- (reverse_involutive (trim_start s)), Hp, reverse_app, He. done. }
  by eapply trim_start_head.
Qed.

Lemma trim_fixed s :
  (∀ c s', s = c :: s' → is_whitespace c = false) → (∀ c s', reverse s = c :: s' → is_whitespace c = false) → trim s = s.
Proof. intros Hh Ht. unfold trim. rewrite (trim_start_fixed s Hh), (trim_start_fixed (reverse s) Ht). apply reverse_involutive. Qed.

Lemma lowercase_whitespace c : is_whitespace (to_ascii_lowercase c) = is_whitespace c.
Proof.
  unfold to_ascii_lowercase. destruct ((65 <=? c) && (c <=? 90)) eqn:Hc; [|done]. reflect_hyps.
  assert (Hf : ∀ d, 65 ≤ d ≤ 122 → is_whitespace d = false); [|by rewrite !Hf by lia].
  intros d Hd. unfold is_whitespace. rewrite !orb_false_iff, !andb_false_iff, !Z.eqb_neq, !Z.leb_gt. lia.
Qed.

Lemma lowercase_idem c : to_ascii_lowercase (to_ascii_lowercase c) = to_ascii_lowercase c.
Proof.
  unfold to_ascii_lowercase. destruct ((65 <=? c) && (c <=? 90)) eqn:Hc; [|by rewrite Hc]. reflect_hyps.
  destruct ((65 <=? c + 32) && (c + 32 <=? 90)) eqn:Hd; [|done]. reflect_hyps. lia.
Qed.

(** The identifier of a target chain is in normal form: normalizing it again changes nothing, and texts
    that differ in the case of letters or in surrounding white space have one identifier. *)
Theorem target_id_normal raw p q :
  new_target (new_target raw) = new_target raw ∧
  new_target (map to_ascii_lowercase raw) = new_target raw ∧
  (forallb is_whitespace p = true → forallb is_whitespace q = true → new_target (p ++ raw ++ q) = new_target raw).
Proof.
  assert (Hmap : ∀ s, trim_start (map to_ascii_lowercase s) = map to_ascii_lowercase (trim_start s)).
  { induction s as [|c s IH]; simpl; [done|]. rewrite lowercase_whitespace. by destruct (is_whitespace c). }
  assert (Hrev : ∀ s : list Z, reverse (map to_ascii_lowercase s) = map to_ascii_lowercase (reverse s)) by (intros; symmetry; apply fmap_reverse).
  assert (Htrim : ∀ s, trim (map to_ascii_lowercase s) = map to_ascii_lowercase (trim s)).
  { intros s. unfold trim. by rewrite Hmap, Hrev, Hmap, Hrev. }
  assert (Hidem : ∀ s, map to_ascii_lowercase (map to_ascii_lowercase s) = map to_ascii_lowercase s).
  { intros s. rewrite map_map. apply map_ext. apply lowercase_idem. }
  assert (Htt : trim (trim raw) = trim raw).
  { apply trim_fixed; [apply trim_head|]. unfold trim. rewrite reverse_involutive. apply trim_start_head. }
  assert (Hskip : ∀ w s, forallb is_whitespace w = true → trim_start (w ++ s) = trim_start s).
  { intros w s. induction w as [|c w IH]; simpl; [done|]. intros [-> Hw]%andb_true_iff. by apply IH. }
  split; [|split].
  - unfold new_target. by rewrite Htrim, Htt, Hidem.
  - unfold new_target. by rewrite Htrim, Hidem.
  - intros Hp Hq. unfold new_target. f_equal. unfold trim. rewrite Hskip by done.
    destruct (trim_start_suffix raw) as (w & Hw & Hww). rewrite Hw at 1. rewrite <- app_assoc, Hskip by done.
    assert (Hqr : forallb is_whitespace (reverse q) = true).
    { apply forallb_forall. intros x Hx. rewrite forallb_forall in Hq. apply Hq. apply list_elem_of_In, elem_of_reverse. by apply list_elem_of_In in Hx. }
    destruct (trim_start raw) as [|c s] eqn:Hs.
    + simpl. rewrite <- (app_nil_r q), Hskip by done. done.
    + assert (Hc : is_whitespace c = false) by by eapply trim_start_head.
      simpl. rewrite Hc. change (c :: s ++ q) with ((c :: s) ++ q). by rewrite reverse_app, Hskip.
Qed.

Lemma target_id_normal_witness : new_target (ascii_bytes "  Ethereum ") = ascii_bytes "ethereum".
Proof.
  rewrite (proj2 (proj2 (target_id_normal (ascii_bytes "Ethereum") (ascii_bytes "  ") (ascii_bytes " "))) eq_refl eq_refl : new_target (ascii_bytes "  Ethereum ") = _).
  reflexivity.
Defined.

Lemma defaults_size : size registry_with_defaults = length default_adapters.
Proof. vm_compute. reflexivity. Qed.

Lemma defaults_not_live : live_targets registry_with_defaults = [].
Proof. vm_compute. reflexivity. Qed.

Lemma live_targets_spec r x : x ∈ live_targets r ↔ is_live x = true ∧ ∃ i, r !! i = Some x.
Proof.
  unfold live_targets. rewrite list_elem_of_filter, list_elem_of_fmap. f_equiv. split.
  - intros ([i y] & -> & Hi). exists i. by apply elem_of_map_to_list.
  - intros [i Hi]. exists (i, x). split; [done|]. by apply elem_of_map_to_list.
Qed.

(** A registry is a finite map: registration succeeds exactly for new identifiers and leaves others
    alone; an adapter can be looked up until it is removed.  The default registry has all
    the adapters of its list and none that is live, since their endpoints are empty. *)
Theorem registry_correct a r id :
  (is_ok (register_adapter a r).1 = true ↔ r !! adapter_id a = None) ∧
  (is_ok (register_adapter a r).1 = false → (register_adapter a r).2 = r) ∧
  (is_ok (register_adapter a r).1 = true → get_adapter (adapter_id a) (register_adapter a r).2 = Ok a) ∧
  get_adapter (adapter_id a) (upsert a r) = Ok a ∧
  (id ≠ adapter_id a → get_adapter id (register_adapter a r).2 = get_adapter id r) ∧
  get_adapter id (remove_adapter id r) = Err (Missing id) ∧
  (∀ x, x ∈ live_targets r ↔ is_live x = true ∧ ∃ i, r !! i = Some x) ∧
  size registry_with_defaults = length default_adapters ∧ live_targets registry_with_defaults = [].
Proof.
  unfold register_adapter, get_adapter, upsert, remove_adapter, bindM, gets, fail_if, modify.
  assert (Hup : ok_or (<[adapter_id a := a]> r !! adapter_id a) (Missing (adapter_id a)) = Ok a) by by rewrite lookup_insert_eq.
  assert (Hrm : ok_or (delete id r !! id) (Missing id) = Err (Missing id)) by by rewrite lookup_delete_eq.
  pose proof defaults_size as Hd. pose proof defaults_not_live as Hl. case_bool_decide as Hk; cbn [fst snd is_ok].
  - split; [split; [done|]; intros Hn; rewrite Hn in Hk; by destruct Hk|]. split; [done|]. split; [done|]. split; [exact Hup|]. split; [done|].
    split; [exact Hrm|]. split; [apply live_targets_spec|]. by split.
  - split; [split; [|done]; intros _; by apply eq_None_not_Some|]. split; [done|]. split; [by intros _|]. split; [exact Hup|].
    split; [intros Hne; by rewrite lookup_insert_ne|]. split; [exact Hrm|]. split; [apply live_targets_spec|]. by split.
Qed.
