(* ===== verification/LightClient.v ===== *)
(** * Light clients of external chains

    Models [src/L1/src/l0/light_client.rs]: the RLP decoder, the verification of
    a checkpoint for each family of chains, the registries of validator sets and of
    light clients.  The primitives of the classical signature schemes and the hash
    functions are an interface, [ChainCrypto].  A failed [assert!] is [None]. *)

From S2P Require Import Prelude Bytes Chains.

(** ** RLP *)

(** [data.get(n..)] and [data.get(..n)] *)
Definition get_from (n : Z) (d : list Z) : option (list Z) :=
  if n <=? Z.of_nat (length d) then Some (drop (Z.to_nat n) d) else None.
Definition get_to (n : Z) (d : list Z) : option (list Z) :=
  if n <=? Z.of_nat (length d) then Some (take (Z.to_nat n) d) else None.

Definition and_then {A B E} (r : Result A E) (k : A → Result B E) : Result B E :=
  match r with Ok a => k a | Err e => Err e end.
Notation "x <-! r ; k" := (and_then r (λ x, k)) (at level 100, r at next level, k at level 200, right associativity).

Fixpoint btou_loop (b : list Z) (r : Z) : Result Z string :=
  match b with
  | [] => Ok r
  | x :: b' =>
      match checked_mul u64_max r 256 with
      | None => Err "length field overflow"
      | Some v => match checked_add u64_max v x with None => Err "length field overflow" | Some r' => btou_loop b' r' end
      end
  end.

Definition btou (b : list Z) : Result Z string :=
  if (8 <? length b)%nat then Err "length field too wide" else btou_loop b 0.

(** The payload of an item and the bytes it takes; nested lists keep their encoding. *)
Definition item (d : list Z) : Result (list Z * Z) string :=
  match d with
  | [] => Err "empty item"
  | f :: _ =>
      if f <? 128 then Ok ([f], 1)
      else if f <? 184 then
        let l := f - 128 in
        bytes <-! ok_or (get_from 1 d ≫= get_to l) "truncated short string" ;
        Ok (bytes, 1 + l)
      else if f <? 192 then
        let lb := f - 183 in
        len_bytes <-! ok_or (get_from 1 d ≫= get_to lb) "truncated long-string length field" ;
        l <-! btou len_bytes ;
        start <-! ok_or (checked_add u64_max 1 lb) "length overflow" ;
        bytes <-! ok_or (get_from start d ≫= get_to l) "truncated long string" ;
        total <-! ok_or (checked_add u64_max start l) "length overflow" ;
        Ok (bytes, total)
      else if f <? 248 then
        let l := f - 192 in
        total <-! ok_or (checked_add u64_max 1 l) "length overflow" ;
        bytes <-! ok_or (get_to total d) "truncated short list item" ;
        Ok (bytes, total)
      else
        let lb := f - 247 in
        len_bytes <-! ok_or (get_from 1 d ≫= get_to lb) "truncated long-list-item length field" ;
        l <-! btou len_bytes ;
        start <-! ok_or (checked_add u64_max 1 lb) "length overflow" ;
        total <-! ok_or (checked_add u64_max start l) "length overflow" ;
        bytes <-! ok_or (get_to total d) "truncated long list item" ;
        Ok (bytes, total)
  end.

(** The loop on the rest of the input; every round takes at least a byte. *)
Fixpoint parse_loop (fuel : nat) (c : list Z) : option (Result (list (list Z)) string) :=
  match c, fuel with
  | [], _ => Some (Ok [])
  | _, O => None
  | _, S fuel' =>
      match item c with
      | Err e => Some (Err e)
      | Ok (it, n) =>
          if n =? 0 then Some (Err "zero-length item advance")
          else match parse_loop fuel' (drop (Z.to_nat n) c) with
               | None => None
               | Some (Err e) => Some (Err e)
               | Some (Ok items) => Some (Ok (it :: items))
               end
      end
  end.

Definition parse (c : list Z) : Result (list (list Z)) string :=
  default (Err "out of fuel") (parse_loop (length c) c).

Definition decode_list (data : list Z) : Result (list (list Z)) string :=
  match data with
  | [] => Err "empty"
  | first :: _ =>
      if (192 <=? first) && (first <=? 247) then
        let len := first - 192 in
        body <-! ok_or (get_from 1 data ≫= get_to len) "truncated short list" ;
        parse body
      else if 248 <=? first then
        let lb := first - 247 in
        len_bytes <-! ok_or (get_from 1 data ≫= get_to lb) "truncated long-list length field" ;
        len <-! btou len_bytes ;
        start <-! ok_or (checked_add u64_max 1 lb) "length overflow" ;
        body <-! ok_or (get_from start data ≫= get_to len) "truncated long list body" ;
        parse body
      else Err "not a list"
  end.

(** ** Primitives of other chains *)

Class ChainCrypto := {
  keccak256 : list Z → Hash;
  sha256 : list Z → list Z;
  sha256_length d : length (sha256 d) = 32%nat;
  EdKey : Type;
  ed_key_from_bytes : list Z → Result EdKey string;
  ed_verify_strict : EdKey → list Z → list Z → Result () string;
  BlsKey : Type;
  BlsSig : Type;
  bls_key_from_bytes : list Z → Result BlsKey string;
  bls_key_validate : BlsKey → Result () string;
  bls_sig_from_bytes : list Z → Result BlsSig string;
  bls_sig_validate : BlsSig → Result () string;
  bls_verify : BlsSig → list Z → BlsKey → Result () string;
  EcdsaKey : Type;
  EcdsaSig : Type;
  ecdsa_key_from_sec1 : list Z → Result EcdsaKey string;
  ecdsa_sig_from_slice : list Z → Result EcdsaSig string;
  ecdsa_verify : EcdsaKey → list Z → EcdsaSig → Result () string
}.

Record ValidatorSet : Type := mkValidatorSet {
  pubkeys : list (list Z);
  stakes : list Z;
  threshold_bps : Z
}.

Abbreviation L0Result := (Result VerificationResult L0Error) (only parsing).

Section LightClients.
Context `{ChainCrypto}.

Definition double_sha256 (data : list Z) : list Z := sha256 (sha256 data).

Definition map_err {A} (prefix : string) (r : Result A string) : Result A string :=
  match r with Ok a => Ok a | Err e => Err (prefix +:+ e) end.

Definition verify_ed25519 (pubkey message sig : list Z) : Result () string :=
  if negb (length pubkey =? 32)%nat then Err ("Ed25519 pubkey length " +:+ pretty (length pubkey) +:+ " != 32")
  else if negb (length sig =? 64)%nat then Err ("Ed25519 signature length " +:+ pretty (length sig) +:+ " != 64")
  else
    vk <-! map_err "Ed25519 invalid pubkey: " (ed_key_from_bytes pubkey) ;
    map_err "Ed25519 verify failed: " (ed_verify_strict vk message sig).

Definition verify_bls (pubkey message sig : list Z) : Result () string :=
  pk <-! map_err "BLS invalid pubkey: " (bls_key_from_bytes pubkey) ;
  _ <-! map_err "BLS pubkey validation failed: " (bls_key_validate pk) ;
  s <-! map_err "BLS invalid signature: " (bls_sig_from_bytes sig) ;
  _ <-! map_err "BLS signature validation failed: " (bls_sig_validate s) ;
  map_err "BLS verify failed: " (bls_verify s message pk).

Definition verify_ecdsa (pubkey message sig : list Z) : Result () string :=
  vk <-! map_err "ECDSA invalid pubkey: " (ecdsa_key_from_sec1 pubkey) ;
  s <-! map_err "ECDSA invalid signature: " (ecdsa_sig_from_slice sig) ;
  map_err "ECDSA verify failed: " (ecdsa_verify vk message s).

(** A loop over pairs of keys and signatures: the number of valid ones and the errors. *)
Fixpoint tally (verify : list Z → list Z → list Z → Result () string) (label : nat → string) (i : nat)
    (pks sigs : list (list Z)) (message : list Z) : nat * list string :=
  match pks, sigs with
  | pk :: pks', sig :: sigs' =>
      let t := tally verify label (S i) pks' sigs' message in
      match verify pk message sig with
      | Ok _ => (S t.1, t.2)
      | Err e => (t.1, (label i +:+ e) :: t.2)
      end
  | _, _ => (O, [])
  end.

Definition sig_label (i : nat) : string := "sig " +:+ pretty i +:+ ": ".

(** All messages are the same; the assertions compare the numbers of keys and signatures. *)
Definition verify_ed25519_batch (pks : list (list Z)) (message : list Z) (sigs : list (list Z)) : option (nat * list string) :=
  if (length pks =? length sigs)%nat then Some (tally verify_ed25519 (λ _, "") 0 pks sigs message) else None.

(** [((valid as u64 * 10000) / n as u64) as u16] *)
Definition power_bps (v n : nat) : Z := wrapping_mul u64_max (Z.of_nat v) 10000 / Z.of_nat n mod 65536.

Definition is_empty {A} (l : list A) : bool := match l with [] => true | _ => false end.

Definition refuse (s : string) : option L0Result := Some (Ok (invalid (Text s))).

(** The threshold of the registered set on the counted signatures. *)
Definition check_power (chain : string) (t : nat * list string) (n : nat) (set : ValidatorSet) : option L0Result :=
  let bps := power_bps t.1 n in
  if bps <? threshold_bps set then Some (Ok (invalid (SignedPower chain bps (threshold_bps set) t.2))) else Some (Ok valid).

(** ** Ethereum-like chains *)

Definition verify_evm (cp : ExternalCheckpoint) : option L0Result :=
  match proof cp with
  | ProofEvm block_header_rlp sync_committee_signature execution_payload_hash =>
      if negb (keccak256 block_header_rlp =? block_hash cp) then refuse "EVM header hash mismatch"
      else
        match decode_list block_header_rlp with
        | Err e => Some (Err (InvalidCheckpoint (Text ("RLP: " +:+ e))))
        | Ok items =>
            if (length items <? 4)%nat then refuse "EVM header too short"
            else
              let sr := nth 3 items [] in
              if negb (length sr =? 32)%nat then refuse "EVM state_root len != 32"
              else if negb (of_be_bytes sr =? ext_state_root cp) then refuse "EVM state_root mismatch"
              else
                let pr := nth 0 items [] in
                if negb (length pr =? 32)%nat then refuse "EVM parent_hash len != 32"
                else if negb (of_be_bytes pr =? parent_block_hash cp) then refuse "EVM parent_hash mismatch"
                else if match execution_payload_hash with
                        | Some ep => negb (keccak256 block_header_rlp =? ep)
                        | None => false
                        end then refuse "EVM execution_payload_hash mismatch"
                else
                  match sync_committee_signature with
                  | Some sig =>
                      if is_empty sig then refuse "EVM sync_committee_signature empty"
                      else refuse "EVM sync_committee_signature present but no sync committee pubkey registered"
                  | None => Some (Ok valid)
                  end
        end
  | _ => refuse "Expected EVM ChainProof"
  end.

(** ** Bitcoin *)

(** One level of the walk from a leaf to the root. *)
Fixpoint merkle_walk (current : list Z) (idx : Z) (siblings : list Hash) : list Z :=
  match siblings with
  | [] => current
  | s :: siblings' =>
      let combined := if Z.land idx 1 =? 0 then current ++ hash_bytes s else hash_bytes s ++ current in
      merkle_walk (double_sha256 combined) (Z.shiftr idx 1) siblings'
  end.

Definition verify_bitcoin (cp : ExternalCheckpoint) : option L0Result :=
  match proof cp with
  | ProofBitcoin block_header confirmations tx_merkle_proof block_height tx_hash tx_index =>
      if negb (length block_header =? 80)%nat then Some (Ok (invalid (HeaderLength (Z.of_nat (length block_header)))))
      else if negb (of_be_bytes (reverse (double_sha256 block_header)) =? block_hash cp) then refuse "Bitcoin header hash mismatch"
      else if confirmations <? 6 then Some (Ok (invalid (Confirmations confirmations)))
      else if negb (block_height =? block_number cp) then refuse "Bitcoin height mismatch"
      else
        match tx_merkle_proof, tx_hash, tx_index with
        | Some proof_nodes, Some txid, Some tx_pos =>
            let merkle_root_bytes := take 32 (drop 36 block_header) in
            let current := merkle_walk (double_sha256 (hash_bytes txid)) tx_pos proof_nodes in
            if negb (bool_decide (reverse current = merkle_root_bytes))
            then refuse "Bitcoin SPV Merkle proof invalid: computed root does not match header"
            else Some (Ok valid)
        | _, _, _ => Some (Ok valid)
        end
  | _ => refuse "Expected Bitcoin ChainProof"
  end.

(** ** Chains with a registered validator set *)

(** Ed25519 signatures by the keys of the set, position by position. *)
Definition verify_set (chain : string) (message : list Z) (sigs : list (list Z)) (set : ValidatorSet) : option L0Result :=
  match verify_ed25519_batch (pubkeys set) message sigs with
  | None => None
  | Some t => check_power chain t (Nat.max (length (pubkeys set)) 1) set
  end.

Definition verify_solana_production (cp : ExternalCheckpoint) (validator_set : option ValidatorSet) : option L0Result :=
  match proof cp with
  | ProofSolana ledger_entry vote_signatures bank_hash =>
      if is_empty ledger_entry then refuse "Solana ledger empty"
      else if is_empty vote_signatures then refuse "Solana votes empty"
      else if negb (bank_hash =? ext_state_root cp) then refuse "Solana bank_hash mismatch"
      else
        match validator_set with
        | None => refuse "Solana: no validator set registered"
        | Some set =>
            if negb (length (pubkeys set) =? length vote_signatures)%nat
            then Some (Ok (invalid (ValidatorCount (Z.of_nat (length (pubkeys set))) (Z.of_nat (length vote_signatures)))))
            else
              match verify_ed25519_batch (pubkeys set) ledger_entry vote_signatures with
              | None => None
              | Some t => check_power "Solana" t (length (pubkeys set)) set
              end
        end
  | _ => refuse "Expected Solana ChainProof"
  end.

(** The keys come from the proof; the set gives the number and the threshold. *)
Definition verify_move_production (cp : ExternalCheckpoint) (validator_set : option ValidatorSet) : option L0Result :=
  match proof cp with
  | ProofMove ledger_info validator_signatures validator_pubkeys =>
      if is_empty ledger_info then refuse "Move ledger empty"
      else if is_empty validator_signatures then refuse "Move sigs empty"
      else if negb (length validator_pubkeys =? length validator_signatures)%nat then refuse "Move pubkey/sig count mismatch"
      else
        match validator_set with
        | None => refuse "Move: no validator set registered"
        | Some set =>
            check_power "Move" (tally verify_bls sig_label 0 validator_pubkeys validator_signatures ledger_info)
              (Nat.max (length (pubkeys set)) 1) set
        end
  | _ => refuse "Expected Move ChainProof"
  end.

Definition verify_near_production (cp : ExternalCheckpoint) (validator_set : option ValidatorSet) : option L0Result :=
  match proof cp with
  | ProofNear block_header approval_signatures producer_pubkeys =>
      if is_empty block_header then refuse "NEAR header empty"
      else if is_empty approval_signatures then refuse "NEAR approvals empty"
      else if negb (length producer_pubkeys =? length approval_signatures)%nat then refuse "NEAR pubkey/sig count mismatch"
      else match validator_set with
           | None => refuse "NEAR: no validator set registered"
           | Some set => verify_set "NEAR" block_header approval_signatures set
           end
  | _ => refuse "Expected NEAR ChainProof"
  end.

Definition verify_cosmos_production (cp : ExternalCheckpoint) (validator_set : option ValidatorSet) : option L0Result :=
  match proof cp with
  | ProofCosmos block_header commit_signatures validator_pubkeys signed_power_bps =>
      if is_empty block_header then refuse "Cosmos header empty"
      else if is_empty commit_signatures then refuse "Cosmos commits empty"
      else if negb (length validator_pubkeys =? length commit_signatures)%nat then refuse "Cosmos pubkey/sig count mismatch"
      else if signed_power_bps <? 6667 then Some (Ok (invalid (ClaimedPower "Cosmos" signed_power_bps)))
      else match validator_set with
           | None => refuse "Cosmos: no validator set registered"
           | Some set => verify_set "Cosmos" block_header commit_signatures set
           end
  | _ => refuse "Expected Cosmos ChainProof"
  end.

Definition verify_cardano_production (cp : ExternalCheckpoint) (validator_set : option ValidatorSet) : option L0Result :=
  match proof cp with
  | ProofCardano block_header vrf_proof pool_signatures =>
      if is_empty block_header then refuse "Cardano header empty"
      else if is_empty vrf_proof then refuse "Cardano VRF empty"
      else if is_empty pool_signatures then refuse "Cardano pool sigs empty"
      else match validator_set with
           | None => refuse "Cardano: no validator set registered"
           | Some set => verify_set "Cardano" block_header pool_signatures set
           end
  | _ => refuse "Expected Cardano ChainProof"
  end.

Definition verify_ton (cp : ExternalCheckpoint) (validator_set : option ValidatorSet) : option L0Result :=
  match proof cp with
  | ProofTon block_header validator_signatures validator_pubkeys =>
      if is_empty block_header then refuse "TON block_header empty"
      else if is_empty validator_signatures then refuse "TON validator_signatures empty"
      else if negb (length validator_pubkeys =? length validator_signatures)%nat then refuse "TON pubkey/sig count mismatch"
      else match validator_set with
           | None => refuse "TON: no validator set registered"
           | Some set => verify_set "TON" block_header validator_signatures set
           end
  | _ => refuse "Expected TON ChainProof"
  end.

Definition verify_polkadot (cp : ExternalCheckpoint) (validator_set : option ValidatorSet) : option L0Result :=
  match proof cp with
  | ProofPolkadot grandpa_vote validator_signatures validator_pubkeys =>
      if is_empty grandpa_vote then refuse "Polkadot grandpa_vote empty"
      else if is_empty validator_signatures then refuse "Polkadot validator_signatures empty"
      else if negb (length validator_pubkeys =? length validator_signatures)%nat then refuse "Polkadot pubkey/sig count mismatch"
      else match validator_set with
           | None => refuse "Polkadot: no validator set registered"
           | Some set => verify_set "Polkadot" grandpa_vote validator_signatures set
           end
  | _ => refuse "Expected Polkadot ChainProof"
  end.

Definition verify_stellar (cp : ExternalCheckpoint) (validator_set : option ValidatorSet) : option L0Result :=
  match proof cp with
  | ProofStellar scp_statement node_signatures node_pubkeys =>
      if is_empty scp_statement then refuse "Stellar scp_statement empty"
      else if is_empty node_signatures then refuse "Stellar node_signatures empty"
      else if negb (length node_pubkeys =? length node_signatures)%nat then refuse "Stellar pubkey/sig count mismatch"
      else match validator_set with
           | None => refuse "Stellar: no validator set registered"
           | Some set => verify_set "Stellar" scp_statement node_signatures set
           end
  | _ => refuse "Expected Stellar ChainProof"
  end.

Definition verify_tezos (cp : ExternalCheckpoint) (validator_set : option ValidatorSet) : option L0Result :=
  match proof cp with
  | ProofTezos endorsement baker_signatures baker_pubkeys =>
      if is_empty endorsement then refuse "Tezos endorsement empty"
      else if is_empty baker_signatures then refuse "Tezos baker_signatures empty"
      else if negb (length baker_pubkeys =? length baker_signatures)%nat then refuse "Tezos pubkey/sig count mismatch"
      else match validator_set with
           | None => refuse "Tezos: no validator set registered"
           | Some set => verify_set "Tezos" endorsement baker_signatures set
           end
  | _ => refuse "Expected Tezos ChainProof"
  end.

Definition verify_ripple (cp : ExternalCheckpoint) (validator_set : option ValidatorSet) : option L0Result :=
  match proof cp with
  | ProofRipple ledger_header validator_signatures validator_pubkeys _ =>
      if is_empty ledger_header then refuse "Ripple ledger_header empty"
      else if is_empty validator_signatures then refuse "Ripple validator_signatures empty"
      else if negb (length validator_pubkeys =? length validator_signatures)%nat then refuse "Ripple pubkey/sig count mismatch"
      else match validator_set with
           | None => refuse "Ripple: no validator set registered"
           | Some set => verify_set "Ripple" ledger_header validator_signatures set
           end
  | _ => refuse "Expected Ripple ChainProof"
  end.

Definition verify_algorand (cp : ExternalCheckpoint) (validator_set : option ValidatorSet) : option L0Result :=
  match proof cp with
  | ProofAlgorand block_header participation_signatures participation_pubkeys _ =>
      if is_empty block_header then refuse "Algorand block_header empty"
      else if is_empty participation_signatures then refuse "Algorand participation_signatures empty"
      else if negb (length participation_pubkeys =? length participation_signatures)%nat then refuse "Algorand pubkey/sig count mismatch"
      else match validator_set with
           | None => refuse "Algorand: no validator set registered"
           | Some set => verify_set "Algorand" block_header participation_signatures set
           end
  | _ => refuse "Expected Algorand ChainProof"
  end.

Definition verify_hedera (cp : ExternalCheckpoint) (validator_set : option ValidatorSet) : option L0Result :=
  match proof cp with
  | ProofHedera block_header council_signatures council_pubkeys _ =>
      if is_empty block_header then refuse "Hedera block_header empty"
      else if is_empty council_signatures then refuse "Hedera council_signatures empty"
      else if negb (length council_pubkeys =? length council_signatures)%nat then refuse "Hedera pubkey/sig count mismatch"
      else match validator_set with
           | None => refuse "Hedera: no validator set registered"
           | Some set => verify_set "Hedera" block_header council_signatures set
           end
  | _ => refuse "Expected Hedera ChainProof"
  end.

Definition verify_canton (cp : ExternalCheckpoint) (validator_set : option ValidatorSet) : option L0Result :=
  match proof cp with
  | ProofCanton sync_event participant_signatures participant_pubkeys =>
      if is_empty sync_event then refuse "Canton sync_event empty"
      else if is_empty participant_signatures then refuse "Canton participant_signatures empty"
      else if negb (length participant_pubkeys =? length participant_signatures)%nat then refuse "Canton pubkey/sig count mismatch"
      else match validator_set with
           | None => refuse "Canton: no validator set registered"
           | Some set => verify_set "Canton" sync_event participant_signatures set
           end
  | _ => refuse "Expected Canton ChainProof"
  end.

(** ECDSA; positions without a counterpart are dropped. *)
Definition verify_tron (cp : ExternalCheckpoint) (validator_set : option ValidatorSet) : option L0Result :=
  match proof cp with
  | ProofTron block_header producer_signatures producer_pubkeys =>
      if is_empty block_header then refuse "Tron block_header empty"
      else if is_empty producer_signatures then refuse "Tron producer_signatures empty"
      else if negb (length producer_pubkeys =? length producer_signatures)%nat then refuse "Tron pubkey/sig count mismatch"
      else match validator_set with
           | None => refuse "Tron: no validator set registered"
           | Some set =>
               check_power "Tron" (tally verify_ecdsa sig_label 0 (pubkeys set) producer_signatures block_header)
                 (Nat.max (length (pubkeys set)) 1) set
           end
  | _ => refuse "Expected Tron ChainProof"
  end.

(** The key comes from the proof. *)
Definition verify_icp (cp : ExternalCheckpoint) : option L0Result :=
  match proof cp with
  | ProofIcp block_header threshold_signature subnet_public_key =>
      if is_empty block_header then refuse "ICP block_header empty"
      else if is_empty threshold_signature then refuse "ICP threshold_signature empty"
      else if is_empty subnet_public_key then refuse "ICP subnet_public_key empty"
      else match verify_bls subnet_public_key block_header threshold_signature with
           | Ok _ => Some (Ok valid)
           | Err e => Some (Ok (invalid (ThresholdSignature e)))
           end
  | _ => refuse "Expected ICP ChainProof"
  end.

Definition scheme_tally (scheme : SignatureScheme) (pks sigs : list (list Z)) (message : list Z) : option (nat * list string) :=
  match scheme with
  | Ed25519 => verify_ed25519_batch pks message sigs
  | Bls12381 => Some (tally verify_bls sig_label 0 pks sigs message)
  | EcdsaSecp256k1 => Some (tally verify_ecdsa sig_label 0 pks sigs message)
  end.

Definition verify_generic (cp : ExternalCheckpoint) (validator_set : option ValidatorSet) : option L0Result :=
  match proof cp with
  | ProofGeneric proof_bytes signer_pubkeys signatures signature_scheme =>
      if is_empty proof_bytes then refuse "Generic proof empty"
      else if is_empty signatures then refuse "Generic sigs empty"
      else if negb (length signer_pubkeys =? length signatures)%nat then refuse "Generic pubkey/sig count mismatch"
      else
        match scheme_tally signature_scheme signer_pubkeys signatures proof_bytes with
        | None => None
        | Some t =>
            let quorum := (length signer_pubkeys * 2 / 3 + 1)%nat in
            if (t.1 <? quorum)%nat
            then Some (Ok (invalid (SignerQuorum (Z.of_nat t.1) (Z.of_nat (length signer_pubkeys)) (Z.of_nat quorum) t.2)))
            else match validator_set with
                 | Some set => check_power "Generic" (t.1, []) (Nat.max (length (pubkeys set)) 1) set
                 | None => Some (Ok valid)
                 end
        end
  | _ => refuse "Expected Generic ChainProof"
  end.

(** ** The clients *)

Inductive ClientKind : Type :=
  | EVMLightClient | BitcoinLightClient | SolanaLightClient | MoveLightClient | NearLightClient | CosmosLightClient
  | CardanoLightClient | TonLightClient | TronLightClient | PolkadotLightClient | StellarLightClient | TezosLightClient
  | RippleLightClient | IcpLightClient | AlgorandLightClient | HederaLightClient | CantonLightClient | GenericLightClient.

#[export] Instance ClientKind_eq_dec : EqDecision ClientKind.
Proof. solve_decision. Defined.

Definition kind_family (k : ClientKind) : ChainFamily :=
  match k with
  | EVMLightClient => FamEvm | BitcoinLightClient => FamBitcoin | SolanaLightClient => FamSvm | MoveLightClient => FamMove
  | NearLightClient => FamNear | CosmosLightClient => FamCosmos | CardanoLightClient => FamCardano | TonLightClient => FamTon
  | TronLightClient => FamTvm | PolkadotLightClient => FamSubstrate | StellarLightClient => FamStellar
  | TezosLightClient => FamTezos | RippleLightClient => FamRipple | IcpLightClient => FamIcp | AlgorandLightClient => FamAlgorand
  | HederaLightClient => FamHedera | CantonLightClient => FamCanton | GenericLightClient => FamCustom
  end.

Record Client : Type := mkClient { kind : ClientKind; client_chain : ChainId }.

#[export] Instance Client_eq_dec : EqDecision Client.
Proof. solve_decision. Defined.

(** The constructors assert the family, but for [GenericLightClient]. *)
Definition new_client (k : ClientKind) (c : ChainId) : option Client :=
  match k with
  | GenericLightClient => Some (mkClient k c)
  | _ => if bool_decide (chain_family c = kind_family k) then Some (mkClient k c) else None
  end.

Record LightClientRegistry : Type := mkClients {
  clients : gmap ChainId Client;
  validator_registry : gmap ChainId ValidatorSet
}.

Definition client_verify (sets : gmap ChainId ValidatorSet) (c : Client) (cp : ExternalCheckpoint) : option L0Result :=
  let set := sets !! client_chain c in
  match kind c with
  | EVMLightClient => verify_evm cp
  | BitcoinLightClient => verify_bitcoin cp
  | SolanaLightClient => verify_solana_production cp set
  | MoveLightClient => verify_move_production cp set
  | NearLightClient => verify_near_production cp set
  | CosmosLightClient => verify_cosmos_production cp set
  | CardanoLightClient => verify_cardano_production cp set
  | TonLightClient => verify_ton cp set
  | TronLightClient => verify_tron cp set
  | PolkadotLightClient => verify_polkadot cp set
  | StellarLightClient => verify_stellar cp set
  | TezosLightClient => verify_tezos cp set
  | RippleLightClient => verify_ripple cp set
  | IcpLightClient => verify_icp cp
  | AlgorandLightClient => verify_algorand cp set
  | HederaLightClient => verify_hedera cp set
  | CantonLightClient => verify_canton cp set
  | GenericLightClient => verify_generic cp set
  end.

Definition verify_checkpoint (r : LightClientRegistry) (cp : ExternalCheckpoint) : option L0Result :=
  match clients r !! chain_id cp with
  | None => Some (Ok (invalid (NoLightClient (chain_id cp))))
  | Some c =>
      if negb (bool_decide (proof_family (proof cp) = chain_family (chain_id cp))) then refuse "Proof family mismatch"
      else client_verify (validator_registry r) c cp
  end.

Definition register_client (c : Client) (r : LightClientRegistry) : LightClientRegistry :=
  mkClients (<[client_chain c := c]> (clients r)) (validator_registry r).

Definition insert_set (c : ChainId) (set : ValidatorSet) (r : LightClientRegistry) : LightClientRegistry :=
  mkClients (clients r) (<[c := set]> (validator_registry r)).

Definition default_clients : list (ClientKind * list ChainId) :=
  [(EVMLightClient, [Ethereum; EthereumSepolia; Base; BaseSepolia; Arbitrum; ArbitrumSepolia; Optimism; OptimismSepolia;
      Polygon; PolygonAmoy; Avalanche; AvalancheFuji; BinanceSmartChain; BscTestnet; Moonbeam; Berachain; Hyperliquid; Monad; Somnia]);
   (BitcoinLightClient, [Bitcoin; BitcoinTestnet]); (SolanaLightClient, [Solana; SolanaDevnet]);
   (MoveLightClient, [Aptos; AptosTestnet; Sui; SuiTestnet]); (NearLightClient, [Near; NearTestnet]);
   (CosmosLightClient, [Cosmos; CosmosTestnet]); (CardanoLightClient, [Cardano; CardanoTestnet]); (TonLightClient, [Ton; TonTestnet]);
   (TronLightClient, [Tron; TronShasta]); (PolkadotLightClient, [Polkadot; PolkadotTestnet]);
   (StellarLightClient, [Stellar; StellarTestnet]); (TezosLightClient, [Tezos; TezosTestnet]);
   (RippleLightClient, [Ripple; RippleTestnet]); (IcpLightClient, [InternetComputer]); (AlgorandLightClient, [Algorand]);
   (HederaLightClient, [Hedera]); (CantonLightClient, [Canton])].

Definition add_default (k : ClientKind) (m : option (gmap ChainId Client)) (c : ChainId) : option (gmap ChainId Client) :=
  match m, new_client k c with Some m, Some x => Some (<[c := x]> m) | _, _ => None end.

(** [None] if a constructor's assertion fails. *)
Definition with_defaults : option LightClientRegistry :=
  (λ m, mkClients m ∅) <$> foldl (λ m p, foldl (add_default p.1) m p.2) (Some ∅) default_clients.

End LightClients.

(** ** The decoder of RLP *)

(** Reference encoder: byte strings, and a list of byte strings. *)
Definition len_bytes (n : nat) : list Z := be_bytes (S (Z.to_nat (Z.log2 (Z.of_nat n) / 8))) (Z.of_nat n).

Definition encode_string (s : list Z) : list Z :=
  if match s with [b] => b <? 128 | _ => false end then s
  else if (length s <? 56)%nat then (128 + Z.of_nat (length s)) :: s
  else (183 + Z.of_nat (length (len_bytes (length s)))) :: len_bytes (length s) ++ s.

Definition encode_body (items : list (list Z)) : list Z := concat (map encode_string items).

Definition encode_list (items : list (list Z)) : list Z :=
  let body := encode_body items in
  if (length body <? 56)%nat then (192 + Z.of_nat (length body)) :: body
  else (247 + Z.of_nat (length (len_bytes (length body)))) :: len_bytes (length body) ++ body.

Lemma of_le_bytes_app a b : of_le_bytes (a ++ b) = of_le_bytes a + 256 ^ Z.of_nat (length a) * of_le_bytes b.
Proof.
  induction a as [|x a IH]; [cbn [app length of_le_bytes]; change (256 ^ Z.of_nat 0) with 1; lia|].
  cbn [app length of_le_bytes]. rewrite IH, Nat2Z.inj_succ, Z.pow_succ_r by lia. ring.
Qed.

Lemma of_be_bytes_cons x b : of_be_bytes (x :: b) = x * 256 ^ Z.of_nat (length b) + of_be_bytes b.
Proof. unfold of_be_bytes. rewrite reverse_cons, of_le_bytes_app, length_reverse. cbn [of_le_bytes]. lia. Qed.

Lemma of_be_bytes_range b : Forall byte b → 0 ≤ of_be_bytes b < 256 ^ Z.of_nat (length b).
Proof. intros Hb. unfold of_be_bytes. rewrite <- length_reverse. apply of_le_bytes_range. by apply list.Forall_reverse. Qed.

Lemma btou_loop_spec b r :
  Forall byte b → 0 ≤ r → r * 256 ^ Z.of_nat (length b) + of_be_bytes b ≤ u64_max →
  btou_loop b r = Ok (r * 256 ^ Z.of_nat (length b) + of_be_bytes b).
Proof.
  intros Hb. revert r. induction Hb as [|x b Hx Hb IH]; intros r Hr Hle.
  - cbn [btou_loop length]. unfold of_be_bytes. change (256 ^ Z.of_nat 0) with 1. simpl. f_equal. lia.
  - rewrite of_be_bytes_cons in Hle |- *. cbn [length] in Hle |- *. rewrite Nat2Z.inj_succ, Z.pow_succ_r in Hle |- * by lia.
    pose proof (of_be_bytes_range b Hb) as Hrange. unfold byte in Hx. assert (Hpow : 0 < 256 ^ Z.of_nat (length b)) by (apply Z.pow_pos_nonneg; lia).
    cbn [btou_loop]. unfold checked_mul, checked_add. assert (Hrx : r * 256 + x ≤ u64_max) by nia.
    destruct (Z.leb_spec (r * 256) u64_max); [|lia]. destruct (Z.leb_spec (r * 256 + x) u64_max); [|lia].
    rewrite IH by nia. f_equal. ring.
Qed.

Lemma be_bytes_byte k n : Forall byte (be_bytes k n).
Proof. unfold be_bytes. apply list.Forall_reverse. apply le_bytes_byte. Qed.

(** Lengths that an encoding can carry. *)
Lemma len_bytes_spec n :
  (0 < n)%nat → Z.of_nat n ≤ u64_max → (1 ≤ length (len_bytes n) ≤ 8)%nat ∧ btou (len_bytes n) = Ok (Z.of_nat n).
Proof.
  intros Hn Hmax. unfold len_bytes. set (k := Z.to_nat (Z.log2 (Z.of_nat n) / 8)).
  assert (Hlog : Z.log2 (Z.of_nat n) ≤ 63) by (pose proof (Z.log2_lt_pow2 (Z.of_nat n) 64); change (2 ^ 64) with (u64_max + 1) in *; lia).
  assert (Hk : Z.of_nat k = Z.log2 (Z.of_nat n) / 8) by (unfold k; rewrite Z2Nat.id; [done|]; apply Z.div_pos; [apply Z.log2_nonneg|lia]).
  assert (Hk8 : (k ≤ 7)%nat) by (assert (Z.log2 (Z.of_nat n) / 8 < 8) by (apply Z.div_lt_upper_bound; lia); lia).
  assert (Hfit : Z.of_nat n < 256 ^ Z.of_nat (S k)).
  { pose proof (Z.log2_spec (Z.of_nat n) ltac:(lia)) as [_ Hup]. eapply Z.lt_le_trans; [exact Hup|].
    change 256 with (2 ^ 8). rewrite <- Z.pow_mul_r by lia. apply Z.pow_le_mono_r; [lia|].
    pose proof (Z.div_mod (Z.log2 (Z.of_nat n)) 8 ltac:(lia)). pose proof (Z.mod_pos_bound (Z.log2 (Z.of_nat n)) 8 ltac:(lia)). lia. }
  rewrite be_bytes_length. split; [lia|]. unfold btou. rewrite be_bytes_length.
  destruct (Nat.ltb_spec 8 (S k)); [lia|]. rewrite btou_loop_spec; [|apply be_bytes_byte|lia|rewrite of_be_be_bytes by lia; lia].
  by rewrite of_be_be_bytes by lia.
Qed.

Lemma get_from_cons_1 x d : get_from 1 (x :: d) = Some d.
Proof. unfold get_from. destruct (Z.leb_spec 1 (Z.of_nat (length (x :: d)))) as [|Hlt]; [done|cbn [length] in Hlt; lia]. Qed.

Lemma get_to_app (a b : list Z) n : n = Z.of_nat (length a) → get_to n (a ++ b) = Some a.
Proof.
  intros ->. unfold get_to. rewrite length_app, Nat2Z.id. destruct (Z.leb_spec (Z.of_nat (length a)) (Z.of_nat (length a + length b))); [|lia].
  by rewrite take_app_length.
Qed.

Lemma get_from_app (a b : list Z) n : n = Z.of_nat (length a) → get_from n (a ++ b) = Some b.
Proof.
  intros ->. unfold get_from. rewrite length_app, Nat2Z.id. destruct (Z.leb_spec (Z.of_nat (length a)) (Z.of_nat (length a + length b))); [|lia].
  by rewrite drop_app_length.
Qed.

Lemma item_encode s rest :
  Forall byte s → Z.of_nat (length s) ≤ u64_max - 9 →
  item (encode_string s ++ rest) = Ok (s, Z.of_nat (length (encode_string s))).
Proof.
  intros Hb Hmax. unfold encode_string. destruct (match s with [b] => b <? 128 | _ => false end) eqn:H1.
  { destruct s as [|b [|]]; try done. cbn [app item]. by rewrite H1. }
  assert (Hs : length s = 1%nat → ∃ b, s = [b] ∧ 128 ≤ b < 256).
  { destruct s as [|b [|]]; try done. intros _. exists b. split; [done|]. apply list.Forall_cons_1 in Hb as [Hb _]. unfold byte in Hb. reflect_hyps. lia. }
  destruct (Nat.ltb_spec (length s) 56) as [Hlt|Hge].
  - cbn [app item length]. set (f := 128 + Z.of_nat (length s)).
    destruct (Z.ltb_spec f 128) as [|_]; [lia|]. destruct (Z.ltb_spec f 184) as [_|]; [|lia].
    change (f :: s ++ rest) with (f :: (s ++ rest)). rewrite get_from_cons_1. cbn [mbind option_bind].
    rewrite get_to_app by lia. cbn [ok_or and_then]. do 2 f_equal. lia.
  - destruct (len_bytes_spec (length s)) as [Hl Hbt]; [lia|lia|]. set (lb := len_bytes (length s)) in *.
    cbn [app item length]. set (f := 183 + Z.of_nat (length lb)).
    destruct (Z.ltb_spec f 128) as [|_]; [lia|]. destruct (Z.ltb_spec f 184) as [|_]; [lia|]. destruct (Z.ltb_spec f 192) as [_|]; [|lia].
    rewrite <- app_assoc, get_from_cons_1. cbn [mbind option_bind]. rewrite get_to_app by lia. cbn [ok_or and_then]. rewrite Hbt. cbn [and_then].
    unfold checked_add. destruct (Z.leb_spec (1 + (f - 183)) u64_max); [|lia]. cbn [ok_or and_then].
    change (f :: lb ++ s ++ rest) with ((f :: lb) ++ (s ++ rest)). rewrite get_from_app by (cbn [length]; lia). cbn [mbind option_bind].
    rewrite get_to_app by done. cbn [ok_or and_then]. destruct (Z.leb_spec (1 + (f - 183) + Z.of_nat (length s)) u64_max); [|lia]. cbn [ok_or and_then].
    do 2 f_equal. rewrite length_app. lia.
Qed.

Lemma encode_string_nonempty s : (0 < length (encode_string s))%nat.
Proof.
  unfold encode_string. destruct s as [|b [|c s]]; [simpl; lia| |].
  - destruct (b <? 128); simpl; lia.
  - destruct (_ <? 56)%nat; cbn [length]; lia.
Qed.

Lemma parse_encode items fuel :
  Forall (λ s, Forall byte s ∧ Z.of_nat (length s) ≤ u64_max - 9) items → (length (encode_body items) ≤ fuel)%nat →
  parse_loop fuel (encode_body items) = Some (Ok items).
Proof.
  intros Hall. revert fuel. induction Hall as [|s items [Hb Hmax] Hall IH]; intros fuel Hf; [by destruct fuel|].
  unfold encode_body in *. cbn [map concat] in *. pose proof (encode_string_nonempty s) as Hne. rewrite length_app in Hf.
  pose proof (item_encode s (concat (map encode_string items)) Hb Hmax) as Hi.
  destruct fuel as [|fuel]; [lia|]. remember (encode_string s ++ concat (map encode_string items)) as c eqn:Hc.
  destruct c as [|x c]; [apply (f_equal length) in Hc; rewrite length_app in Hc; simpl in Hc; lia|]. cbn [parse_loop]. rewrite Hi.
  destruct (Z.eqb_spec (Z.of_nat (length (encode_string s))) 0) as [|_]; [lia|].
  rewrite Nat2Z.id, Hc, drop_app_length, IH by lia. done.
Qed.

Lemma decode_encode items junk :
  Forall (λ s, Forall byte s ∧ Z.of_nat (length s) ≤ u64_max - 9) items → Z.of_nat (length (encode_body items)) ≤ u64_max →
  decode_list (encode_list items ++ junk) = Ok items.
Proof.
  intros Hall Hmax. unfold encode_list. set (body := encode_body items) in *.
  assert (Hp : parse body = Ok items) by (unfold parse, body; by rewrite parse_encode).
  destruct (Nat.ltb_spec (length body) 56) as [Hlt|Hge].
  - cbn [app decode_list]. set (f := 192 + Z.of_nat (length body)).
    destruct (Z.leb_spec 192 f) as [_|]; [|lia]. destruct (Z.leb_spec f 247) as [_|]; [|lia]. cbn [andb].
    rewrite get_from_cons_1. cbn [mbind option_bind]. rewrite get_to_app by lia. exact Hp.
  - destruct (len_bytes_spec (length body)) as [Hl Hbt]; [lia|lia|]. set (lb := len_bytes (length body)) in *.
    cbn [app decode_list]. set (f := 247 + Z.of_nat (length lb)).
    destruct (Z.leb_spec f 247) as [|_]; [lia|]. rewrite andb_false_r. destruct (Z.leb_spec 248 f) as [_|]; [|lia].
    rewrite <- app_assoc, get_from_cons_1. cbn [mbind option_bind]. rewrite get_to_app by lia. cbn [ok_or and_then]. rewrite Hbt. cbn [and_then].
    unfold checked_add. destruct (Z.leb_spec (1 + (f - 247)) u64_max); [|lia]. cbn [ok_or and_then].
    change (f :: lb ++ body ++ junk) with ((f :: lb) ++ (body ++ junk)). rewrite get_from_app by (cbn [length]; lia). cbn [mbind option_bind].
    rewrite get_to_app by done. exact Hp.
Qed.

Lemma btou_loop_nonneg b r n : Forall byte b → 0 ≤ r → btou_loop b r = Ok n → 0 ≤ n.
Proof.
  intros Hb. revert r. induction Hb as [|x b Hx Hb IH]; intros r Hr; cbn [btou_loop]; [by intros [= <-]|].
  destruct (checked_mul _ _ _) as [v|] eqn:Hm; [|done]. destruct (checked_add _ _ _) as [r'|] eqn:Ha; [|done]. unfold checked_mul in Hm. unfold byte in Hx.
  destruct (_ <=? _) in Hm; [|done]. injection Hm as <-. reflect_hyps. subst. apply IH. lia.
Qed.

Lemma get_to_byte n d b : get_to n d = Some b → Forall byte d → Forall byte b.
Proof. unfold get_to. destruct (_ <=? _); [|done]. intros [= <-]. apply list.Forall_take. Qed.

Lemma get_from_byte n d b : get_from n d = Some b → Forall byte d → Forall byte b.
Proof. unfold get_from. destruct (_ <=? _); [|done]. intros [= <-]. apply list.Forall_drop. Qed.

Lemma len_field_nonneg n d l :
  Forall byte d → (b <-! ok_or (get_from 1 d ≫= get_to n) "x" ; btou b) = Ok l → 0 ≤ l.
Proof.
  intros Hd. destruct (get_from 1 d) as [d'|] eqn:H1; [|done]. cbn [mbind option_bind]. destruct (get_to n d') as [b|] eqn:H2; [|done]. cbn [ok_or and_then].
  unfold btou. destruct (_ <? _)%nat; [done|]. apply btou_loop_nonneg; [|done]. eapply get_to_byte; [done|]. by eapply get_from_byte.
Qed.

(** Every item takes at least its first byte. *)
Lemma item_advances d it n : Forall byte d → item d = Ok (it, n) → 1 ≤ n.
Proof.
  intros Hd. destruct d as [|f d'] eqn:Hdd; [done|]. cbn [item]. rewrite <- Hdd in *.
  assert (Hlf : ∀ m (e : string) b l, ok_or (get_from 1 d ≫= get_to m) e = Ok b → btou b = Ok l → 0 ≤ l).
  { intros m e b l Hg Hbt. apply (len_field_nonneg m d); [done|]. destruct (get_from 1 d ≫= get_to m); [|done]. simpl in *. by injection Hg as ->. }
  destruct (Z.ltb_spec f 128); [intros Hi; injection Hi as _ <-; lia|]. destruct (Z.ltb_spec f 184).
  { destruct (ok_or _ _); [|done]. cbn [and_then]. intros [= _ <-]. lia. }
  destruct (Z.ltb_spec f 192).
  { destruct (ok_or (get_from 1 d ≫= get_to (f - 183)) _) as [b|] eqn:Hb; [|done]. cbn [and_then]. destruct (btou b) as [l|] eqn:Hbt; [|done]. cbn [and_then].
    pose proof (Hlf _ _ _ _ Hb Hbt). destruct (checked_add u64_max 1 _) as [st|] eqn:Ha; [|done]. cbn [ok_or and_then]. destruct (get_from st d ≫= get_to l); [|done]. cbn [ok_or and_then].
    destruct (checked_add u64_max st l) as [t|] eqn:Ht; [|done]. cbn [ok_or and_then]. intros [= _ <-]. reflect_hyps. lia. }
  destruct (Z.ltb_spec f 248).
  { destruct (checked_add u64_max 1 _) as [t|] eqn:Ha; [|done]. cbn [ok_or and_then]. destruct (get_to t d); [|done]. cbn [ok_or and_then]. intros [= _ <-]. reflect_hyps. lia. }
  destruct (ok_or (get_from 1 d ≫= get_to (f - 247)) _) as [b|] eqn:Hb; [|done]. cbn [and_then]. destruct (btou b) as [l|] eqn:Hbt; [|done]. cbn [and_then].
  pose proof (Hlf _ _ _ _ Hb Hbt). destruct (checked_add u64_max 1 _) as [st|] eqn:Ha; [|done]. cbn [ok_or and_then].
  destruct (checked_add u64_max st l) as [t|] eqn:Ht; [|done]. cbn [ok_or and_then]. destruct (get_to t d); [|done]. cbn [ok_or and_then]. intros [= _ <-]. reflect_hyps. lia.
Qed.

Lemma parse_loop_ends fuel c : Forall byte c → (length c ≤ fuel)%nat → parse_loop fuel c ≠ None.
Proof.
  revert c. induction fuel as [|fuel IH]; intros c Hb Hf; [destruct c; [done|simpl in Hf; lia]|]. destruct c as [|x c]; [done|]. cbn [parse_loop].
  destruct (item (x :: c)) as [[it n]|e] eqn:Hi; [|done]. pose proof (item_advances _ _ _ Hb Hi) as Hn. destruct (Z.eqb_spec n 0); [done|].
  pose proof (IH (drop (Z.to_nat n) (x :: c)) (list.Forall_drop _ _ _ Hb)) as Hd. rewrite length_drop in Hd. cbn [length] in Hd, Hf.
  destruct (parse_loop fuel _) as [[|]|] eqn:Hp; [done|done|]. exfalso. apply Hd; [lia|done].
Qed.

(** The decoder inverts the RLP encoding of a list of byte strings, whatever follows it, up to the
    lengths a [usize] can hold; and on any bytes it ends: the loop is never cut off, one round
    per byte of the body being enough. *)
Theorem rlp_decoder_correct items junk c :
  (Forall (λ s, Forall byte s ∧ Z.of_nat (length s) ≤ u64_max - 9) items → Z.of_nat (length (encode_body items)) ≤ u64_max →
   decode_list (encode_list items ++ junk) = Ok items) ∧
  (Forall byte c → ∃ r, parse_loop (length c) c = Some r ∧ parse c = r ∧ ∀ fuel, (length c ≤ fuel)%nat → parse_loop fuel c ≠ None).
Proof.
  split; [apply decode_encode|]. intros Hc. destruct (parse_loop (length c) c) as [r|] eqn:Hp; [|by apply parse_loop_ends in Hp].
  exists r. split; [done|]. unfold parse. rewrite Hp. split; [done|]. intros fuel Hf. by apply parse_loop_ends.
Qed.

Lemma rlp_decoder_correct_witness : decode_list [197; 128; 1; 130; 2; 3] = Ok [[]; [1]; [2; 3]].
Proof.
  refine (proj1 (rlp_decoder_correct [[]; [1]; [2; 3]] [] []) _ _); [|vm_compute; discriminate].
  repeat constructor; vm_compute; discriminate.
Defined.

(** ** What the clients accept *)

Section ClientProperties.
Context `{ChainCrypto}.

(** Positions whose key verifies the signature at the same position. *)
Definition signed_positions (verify : list Z → list Z → list Z → Result () string) (pks : list (list Z)) (message : list Z)
    (sigs : list (list Z)) : nat :=
  length (filter (λ p, is_ok (verify p.1 message p.2) = true) (zip pks sigs)).

Lemma tally_count verify label i pks sigs message : (tally verify label i pks sigs message).1 = signed_positions verify pks message sigs.
Proof.
  unfold signed_positions. revert i sigs. induction pks as [|pk pks IH]; intros i [|sig sigs]; try done. cbn [tally zip zip_with].
  destruct (verify pk message sig) as [u|e] eqn:Hv; cbn [fst].
  - rewrite list.filter_cons_True by (simpl; by rewrite Hv). cbn [length]. by rewrite IH.
  - rewrite list.filter_cons_False by (simpl; by rewrite Hv). by rewrite IH.
Qed.

Lemma signed_positions_le verify pks message sigs : (signed_positions verify pks message sigs ≤ length pks)%nat.
Proof. unfold signed_positions. etrans; [apply length_filter|]. rewrite length_zip_with. lia. Qed.

(** Message, signatures and scheme of the families whose keys come from the registry. *)
Definition signed_part (p : ChainProof) : option (list Z * list (list Z) * (list Z → list Z → list Z → Result () string)) :=
  match p with
  | ProofSolana m s _ | ProofNear m s _ | ProofCosmos m s _ _ | ProofCardano m _ s | ProofTon m s _ | ProofPolkadot m s _
  | ProofStellar m s _ | ProofTezos m s _ | ProofRipple m s _ _ | ProofAlgorand m s _ _ | ProofHedera m s _ _
  | ProofCanton m s _ => Some (m, s, verify_ed25519)
  | ProofTron m s _ => Some (m, s, verify_ecdsa)
  | _ => None
  end.

(** Clients sit under their chain and their kind fits it. *)
Definition clients_ok (r : LightClientRegistry) : Prop :=
  ∀ id c, clients r !! id = Some c → new_client (kind c) id = Some c.

Lemma check_power_valid chain t n set :
  check_power chain t n set = Some (Ok valid) → (t.1 ≤ n)%nat → (0 < n)%nat → Z.of_nat n < 2 ^ 50 →
  threshold_bps set * Z.of_nat n ≤ 10000 * Z.of_nat t.1.
Proof.
  unfold check_power. destruct (Z.ltb_spec (power_bps t.1 n) (threshold_bps set)) as [|Hle]; [done|]. intros _ Hle' Hn Hmax.
  unfold power_bps, wrapping_mul in Hle. change (2 ^ 50) with 1125899906842624 in Hmax. change (u64_max + 1) with 18446744073709551616 in Hle.
  rewrite (Z.mod_small (_ * 10000)) in Hle by lia.
  assert (Hq : 0 ≤ Z.of_nat t.1 * 10000 / Z.of_nat n ≤ 10000).
  { split; [apply Z.div_pos; lia|]. apply Z.div_le_upper_bound; lia. }
  rewrite Z.mod_small in Hle by lia. pose proof (Z.mul_div_le (Z.of_nat t.1 * 10000) (Z.of_nat n)). nia.
Qed.

Lemma max_one_valid chain verify message sigs set label :
  check_power chain (tally verify label 0 (pubkeys set) sigs message) (Nat.max (length (pubkeys set)) 1) set = Some (Ok valid) →
  Z.of_nat (length (pubkeys set)) < 2 ^ 50 → 0 ≤ threshold_bps set →
  threshold_bps set * Z.of_nat (length (pubkeys set)) ≤ 10000 * Z.of_nat (signed_positions verify (pubkeys set) message sigs).
Proof.
  intros Hv Hmax Hth. pose proof (signed_positions_le verify (pubkeys set) message sigs) as Hle. rewrite <- (tally_count verify label 0) in Hle |- *.
  change (2 ^ 50) with 1125899906842624 in Hmax.
  assert (threshold_bps set * Z.of_nat (Nat.max (length (pubkeys set)) 1) ≤ 10000 * Z.of_nat (tally verify label 0 (pubkeys set) sigs message).1); [|nia].
  apply (check_power_valid chain); [done|lia|lia|change (2 ^ 50) with 1125899906842624; lia].
Qed.

Lemma verify_set_valid chain message sigs set :
  verify_set chain message sigs set = Some (Ok valid) → Z.of_nat (length (pubkeys set)) < 2 ^ 50 → 0 ≤ threshold_bps set →
  threshold_bps set * Z.of_nat (length (pubkeys set)) ≤ 10000 * Z.of_nat (signed_positions verify_ed25519 (pubkeys set) message sigs).
Proof.
  unfold verify_set, verify_ed25519_batch. destruct (_ =? _)%nat; [|done]. intros Hv. by eapply max_one_valid.
Qed.

Lemma solana_valid cp set m s b :
  proof cp = ProofSolana m s b → verify_solana_production cp (Some set) = Some (Ok valid) →
  Z.of_nat (length (pubkeys set)) < 2 ^ 50 →
  threshold_bps set * Z.of_nat (length (pubkeys set)) ≤ 10000 * Z.of_nat (signed_positions verify_ed25519 (pubkeys set) m s).
Proof.
  intros Hp. unfold verify_solana_production. rewrite Hp. destruct (is_empty m); [done|]. destruct (is_empty s) eqn:Hs; [done|].
  destruct (negb _); [done|]. destruct (Nat.eqb_spec (length (pubkeys set)) (length s)) as [Hl|]; [|done]. cbn [negb].
  unfold verify_ed25519_batch. destruct (_ =? _)%nat; [|done]. intros Hv Hmax. rewrite <- (tally_count verify_ed25519 (λ _, "") 0).
  apply (check_power_valid "Solana"); [done| |rewrite Hl; destruct s; [done|simpl; lia]|done].
  rewrite tally_count. apply signed_positions_le.
Qed.

(** Split the guards of a verification. *)
Ltac pass_guards Hv := repeat (match type of Hv with (if ?b then _ else _) = _ => destruct b; [done|] end).

Lemma quorum_of_accepted r cp message sigs verify :
  clients_ok r → verify_checkpoint r cp = Some (Ok valid) → signed_part (proof cp) = Some (message, sigs, verify) →
  (∀ set, validator_registry r !! chain_id cp = Some set → Z.of_nat (length (pubkeys set)) < 2 ^ 50 ∧ 0 ≤ threshold_bps set) →
  ∃ set, validator_registry r !! chain_id cp = Some set ∧
    threshold_bps set * Z.of_nat (length (pubkeys set)) ≤ 10000 * Z.of_nat (signed_positions verify (pubkeys set) message sigs).
Proof.
  intros Hok Hv Hp Hsets. unfold verify_checkpoint in Hv. destruct (clients r !! chain_id cp) as [c|] eqn:Hc; [|done].
  destruct (negb _); [done|]. pose proof (Hok _ _ Hc) as Hnew.
  assert (Hcc : client_chain c = chain_id cp).
  { destruct c as [k ch]; cbn [kind] in Hnew. unfold new_client in Hnew. destruct k; try (case_bool_decide; [|done]); by injection Hnew as <-. }
  unfold client_verify in Hv. rewrite Hcc in Hv.
  destruct (validator_registry r !! chain_id cp) as [set|] eqn:Hset.
  2:{ exfalso. destruct (kind c); unfold verify_evm, verify_bitcoin, verify_solana_production, verify_move_production, verify_near_production,
        verify_cosmos_production, verify_cardano_production, verify_ton, verify_tron, verify_polkadot, verify_stellar, verify_tezos, verify_ripple,
        verify_icp, verify_algorand, verify_hedera, verify_canton, verify_generic in Hv; destruct (proof cp); try done; pass_guards Hv; done. }
  destruct (Hsets set eq_refl) as [Hmax Hth]. exists set. split; [done|].
  destruct (kind c); unfold verify_evm, verify_bitcoin, verify_move_production, verify_near_production,
    verify_cosmos_production, verify_cardano_production, verify_ton, verify_tron, verify_polkadot, verify_stellar, verify_tezos, verify_ripple,
    verify_icp, verify_algorand, verify_hedera, verify_canton, verify_generic in Hv; destruct (proof cp) eqn:Hpf; try done;
    simpl in Hp; injection Hp as <- <- <-.
  all: try (pass_guards Hv; first [by eapply verify_set_valid | by eapply max_one_valid]).
  all: try (by eapply solana_valid).
  all: unfold verify_solana_production in Hv; rewrite Hpf in Hv; done.
Qed.

(** C17. A checkpoint whose proof is of one of the thirteen kinds with signatures checked against the
    registered keys (Solana, NEAR, Cosmos, Cardano, TON, Tron, Polkadot, Stellar, Tezos, Ripple, Algorand,
    Hedera, Canton) is accepted only if a set is registered for its chain and so many positions of
    the set carry a valid signature on the message of the proof that their share reaches the threshold of
    the set.  Sets have fewer than 2^50 keys.  Nothing of the kind holds of the Ethereum-like, Bitcoin, Move,
    Internet Computer and generic proofs, see [evm_accepts_any_state], [bitcoin_accepts_any_header],
    [keys_from_proof_trusted] and [generic_accepts_own_keys]. *)
Theorem accepted_has_quorum r cp message sigs verify :
  clients_ok r → verify_checkpoint r cp = Some (Ok valid) → signed_part (proof cp) = Some (message, sigs, verify) →
  (∀ set, validator_registry r !! chain_id cp = Some set → Z.of_nat (length (pubkeys set)) < 2 ^ 50 ∧ 0 ≤ threshold_bps set) →
  ∃ set, validator_registry r !! chain_id cp = Some set ∧
    threshold_bps set * Z.of_nat (length (pubkeys set)) ≤ 10000 * Z.of_nat (signed_positions verify (pubkeys set) message sigs).
Proof. apply quorum_of_accepted. Qed.


(** A checkpoint with other contents and the same proof. *)
Definition relabel (number : Z) (hash root parent : Hash) (work : Z) (cp : ExternalCheckpoint) : ExternalCheckpoint :=
  mkExternal (chain_id cp) number hash root parent work (timestamp_ms cp) (proof cp) (metadata cp).

(** The same for Solana, whose proof carries the state root next to the signed entry. *)
Definition relabel_solana (number : Z) (hash root parent : Hash) (work : Z) (cp : ExternalCheckpoint) : ExternalCheckpoint :=
  mkExternal (chain_id cp) number hash root parent work (timestamp_ms cp)
    (match proof cp with ProofSolana m s _ => ProofSolana m s root | p => p end) (metadata cp).

(** The signed message is never compared with the checkpoint: outside Ethereum-like chains and Bitcoin,
    an accepted checkpoint stays accepted, with the same signatures, when its number, block hash, state root,
    parent and work are replaced by anything (for Solana the unsigned bank hash is replaced
    with the root). *)
Theorem signed_checkpoint_relabelled r cp number hash root parent work :
  proof_family (proof cp) ≠ FamEvm → proof_family (proof cp) ≠ FamBitcoin → verify_checkpoint r cp = Some (Ok valid) →
  verify_checkpoint r (relabel_solana number hash root parent work cp) = Some (Ok valid) ∧
  (proof_family (proof cp) ≠ FamSvm → verify_checkpoint r (relabel number hash root parent work cp) = Some (Ok valid)).
Proof.
  intros He Hb Hv.
  assert (Hs : verify_checkpoint r (relabel_solana number hash root parent work cp) = Some (Ok valid)).
  { unfold verify_checkpoint in Hv |- *. change (chain_id (relabel_solana number hash root parent work cp)) with (chain_id cp).
    destruct (clients r !! chain_id cp) as [c|] eqn:Hc; [|done]. unfold relabel_solana. cbn [proof].
    destruct (proof cp) eqn:Hp; cbn [proof_family] in *; try (destruct (negb _); [done|]); unfold client_verify in Hv |- *;
      unfold verify_evm, verify_bitcoin, verify_solana_production, verify_move_production, verify_near_production,
        verify_cosmos_production, verify_cardano_production, verify_ton, verify_tron, verify_polkadot, verify_stellar, verify_tezos, verify_ripple,
        verify_icp, verify_algorand, verify_hedera, verify_canton, verify_generic in Hv |- *; rewrite Hp in Hv; cbn [proof ext_state_root]; try done.
    destruct (kind c); try done. destruct (is_empty ledger_entry); [done|]. destruct (is_empty vote_signatures); [done|].
    rewrite Z.eqb_refl. cbn [negb]. by destruct (negb (bank_hash =? _)) in Hv. }
  split; [done|]. intros Hsvm. rewrite <- Hs. unfold relabel, relabel_solana. f_equal. f_equal. by destruct (proof cp).
Qed.

(** The header of an Ethereum-like chain is its own and only proof: for every state root and
    every parent there is a header, of four fields, with which the client of any such chain
    accepts them, at any height and without a signature. *)
Theorem evm_accepts_any_state r c id root parent number work :
  clients r !! id = Some c → kind c = EVMLightClient → chain_family id = FamEvm →
  0 ≤ root < 2 ^ 256 → 0 ≤ parent < 2 ^ 256 →
  ∃ header, verify_checkpoint r (mkExternal id number (keccak256 header) root parent work 0 (ProofEvm header None None) None) = Some (Ok valid).
Proof.
  intros Hc Hk Hf Hr Hp. exists (encode_list [hash_bytes parent; []; []; hash_bytes root]).
  unfold verify_checkpoint. cbn [chain_id proof proof_family]. rewrite Hc, Hf. rewrite bool_decide_eq_true_2 by done. cbn [negb].
  unfold client_verify. rewrite Hk. unfold verify_evm. cbn [proof block_hash]. rewrite Z.eqb_refl. cbn [negb].
  assert (Hlen : ∀ h, length (hash_bytes h) = 32%nat) by (intros; apply be_bytes_length).
  assert (Hbyte : ∀ h, Forall byte (hash_bytes h)) by (intros; apply be_bytes_byte).
  assert (Hof : ∀ h, 0 ≤ h < 2 ^ 256 → of_be_bytes (hash_bytes h) = h).
  { intros h Hh. apply of_be_be_bytes. change (256 ^ Z.of_nat 32) with (2 ^ 256). done. }
  pose proof (decode_encode [hash_bytes parent; []; []; hash_bytes root] []) as Hd. rewrite app_nil_r in Hd. rewrite Hd.
  - cbn [length Nat.ltb Nat.leb nth]. rewrite !Hlen. cbn [Nat.eqb negb ext_state_root parent_block_hash]. rewrite !Hof by done. rewrite !Z.eqb_refl. done.
  - assert (Hok : ∀ h, Forall byte (hash_bytes h) ∧ Z.of_nat (length (hash_bytes h)) ≤ u64_max - 9) by (intros h; rewrite Hlen; split; [apply Hbyte|vm_compute; discriminate]).
    assert (Hnil : Forall byte [] ∧ Z.of_nat (length (@nil Z)) ≤ u64_max - 9) by (split; [apply list.Forall_nil_2|vm_compute; discriminate]).
    apply list.Forall_cons_2; [apply Hok|]. apply list.Forall_cons_2; [exact Hnil|]. apply list.Forall_cons_2; [exact Hnil|].
    apply list.Forall_cons_2; [apply Hok|]. apply list.Forall_nil_2.
  - unfold encode_body, encode_string. cbn [map concat]. rewrite !length_app.
    assert (Hm : ∀ h, match hash_bytes h with [b] => b <? 128 | _ => false end = false).
    { intros h. pose proof (Hlen h) as Hl. by destruct (hash_bytes h) as [|? [|]]. }
    rewrite !Hm, !Hlen. cbn [length Nat.ltb Nat.leb]. rewrite !Hlen. cbn. done.
Qed.

(** Bitcoin headers are not checked for work: every 80 bytes pass as the header of the block with
    their hash, at any height, with a claimed number of confirmations of at least six. *)
Theorem bitcoin_accepts_any_header r c id header confs number root parent work :
  clients r !! id = Some c → kind c = BitcoinLightClient → chain_family id = FamBitcoin → length header = 80%nat → 6 ≤ confs →
  verify_checkpoint r (mkExternal id number (of_be_bytes (reverse (double_sha256 header))) root parent work 0
    (ProofBitcoin header confs None number None None) None) = Some (Ok valid).
Proof.
  intros Hc Hk Hf Hl Hn. unfold verify_checkpoint. cbn [chain_id proof proof_family]. rewrite Hc, Hf. rewrite bool_decide_eq_true_2 by done. cbn [negb].
  unfold client_verify. rewrite Hk. unfold verify_bitcoin. cbn [proof block_hash block_number]. rewrite Hl, Z.eqb_refl. cbn [Nat.eqb negb].
  destruct (Z.ltb_spec confs 6); [lia|]. by rewrite Z.eqb_refl.
Qed.

(** Keys out of the proof are trusted: the verdict on a Move checkpoint depends on the registered set only by its
    size and threshold, and the verdict on an Internet Computer checkpoint not at all. *)
Theorem keys_from_proof_trusted cp set set' :
  length (pubkeys set) = length (pubkeys set') → threshold_bps set = threshold_bps set' →
  verify_move_production cp (Some set) = verify_move_production cp (Some set') ∧
  ∀ sets sets' c, kind c = IcpLightClient → client_verify sets c cp = client_verify sets' c cp.
Proof.
  intros Hl Ht. split.
  - unfold verify_move_production, check_power. by rewrite Hl, Ht.
  - intros sets sets' c Hk. unfold client_verify. by rewrite Hk.
Qed.

(** The generic client takes its keys from the proof as well: when no set is registered, one key of the
    prover's choice with its own signature is accepted, and a registered set is used only by its size
    and threshold. *)
Theorem generic_accepts_own_keys cp m pk sig :
  proof cp = ProofGeneric m [pk] [sig] Ed25519 → m ≠ [] → verify_ed25519 pk m sig = Ok () →
  verify_generic cp None = Some (Ok valid) ∧
  ∀ set set', length (pubkeys set) = length (pubkeys set') → threshold_bps set = threshold_bps set' →
    verify_generic cp (Some set) = verify_generic cp (Some set').
Proof.
  intros Hp Hm Hv. unfold verify_generic. rewrite Hp. destruct m as [|x m]; [done|]. cbn [is_empty length Nat.eqb negb]. split.
  - unfold scheme_tally, verify_ed25519_batch. cbn [length Nat.eqb tally]. rewrite Hv. done.
  - intros set set' Hl Ht. destruct (scheme_tally _ _ _ _) as [t|]; [|done]. destruct (_ <? _)%nat; [done|]. unfold check_power. by rewrite Hl, Ht.
Qed.

(** A proof with another number of signatures than the registered set has keys is not refused: the
    assertion of the batch verification fails and the task panics (NEAR; the same code serves
    eleven families). *)
Theorem count_mismatch_panics r c cp header sigs keys set :
  clients r !! chain_id cp = Some c → kind c = NearLightClient → client_chain c = chain_id cp → chain_family (chain_id cp) = FamNear →
  proof cp = ProofNear header sigs keys → header ≠ [] → sigs ≠ [] → length keys = length sigs →
  validator_registry r !! chain_id cp = Some set → length (pubkeys set) ≠ length sigs →
  verify_checkpoint r cp = None.
Proof.
  intros Hc Hk Hcc Hf Hp Hh Hs Hl Hset Hne. unfold verify_checkpoint. rewrite Hc, Hp, Hf. cbn [proof_family]. rewrite bool_decide_eq_true_2 by done. cbn [negb].
  unfold client_verify. rewrite Hk, Hcc, Hset. unfold verify_near_production. rewrite Hp.
  destruct header; [done|]. destruct sigs; [done|]. cbn [is_empty]. rewrite Hl, Nat.eqb_refl. cbn [negb].
  unfold verify_set, verify_ed25519_batch. by destruct (Nat.eqb_spec (length (pubkeys set)) (length (l :: sigs))).
Qed.

(** Clients fit their chains, every named chain has one, no set is registered. *)
Definition defaults_good (r : LightClientRegistry) : bool :=
  forallb (λ p, bool_decide (new_client (kind p.2) p.1 = Some p.2)) (map_to_list (clients r)) &&
  forallb (λ c, match clients r !! c with Some x => bool_decide (kind_family (kind x) = chain_family c) | None => false end) named_chains &&
  (size (validator_registry r) =? 0)%nat.

Lemma with_defaults_check : match with_defaults with Some r => defaults_good r | None => false end = true.
Proof. vm_compute. reflexivity. Qed.

(** The default registry is built without a failed assertion; each of its clients sits under its
    chain and fits the family of it, and every chain with a name of its own has one.  No
    validator set is registered, so the families that need one refuse everything at first;
    chains without a client are refused. *)
Theorem default_clients_complete :
  ∃ r, with_defaults = Some r ∧ clients_ok r ∧
    (∀ c, (∀ s, c ≠ Custom s) → ∃ x, clients r !! c = Some x ∧ kind_family (kind x) = chain_family c) ∧
    (∀ cp, is_Some (signed_part (proof cp)) → verify_checkpoint r cp ≠ Some (Ok valid)) ∧
    (∀ cp, clients r !! chain_id cp = None → verify_checkpoint r cp = Some (Ok (invalid (NoLightClient (chain_id cp))))).
Proof.
  pose proof with_defaults_check as Hg. destruct with_defaults as [r|]; [|done]. exists r. split; [done|].
  unfold defaults_good in Hg. apply andb_true_iff in Hg as [[H1 H2]%andb_true_iff H3].
  assert (Hok : clients_ok r).
  { intros id c Hc. rewrite forallb_forall in H1. specialize (H1 (id, c)). apply elem_of_map_to_list, list_elem_of_In in Hc. by apply H1, bool_decide_eq_true in Hc. }
  split; [exact Hok|]. split; [|split].
  - intros c Hc. rewrite forallb_forall in H2. assert (Hin : In c named_chains).
    { destruct c; try (exfalso; by eapply Hc); apply list_elem_of_In; apply (bool_decide_unpack _); vm_compute; exact I. }
    specialize (H2 c Hin). destruct (clients r !! c) as [x|]; [|done]. exists x. split; [done|]. by apply bool_decide_eq_true in H2.
  - intros cp [[[m s] v] Hs] Hv. apply Nat.eqb_eq in H3. apply map_size_empty_inv in H3.
    destruct (quorum_of_accepted r cp m s v Hok Hv Hs) as (set & Hset & _); [|by rewrite H3 in Hset]. intros set. by rewrite H3.
  - intros cp Hc. unfold verify_checkpoint. by rewrite Hc.
Qed.

End ClientProperties.

(** ** A concrete instance *)

(** Keys verify signatures that begin with their first byte. *)
Definition toy_verify (pk m sig : list Z) : Result () string := if bool_decide (head pk = head sig) then Ok () else Err "bad".

#[export] Program Instance toy_crypto : ChainCrypto := {|
  keccak256 := λ d, foldl (λ a x, (a * 257 + x) mod 2 ^ 256) 1 d;
  sha256 := λ d, hash_bytes (foldl (λ a x, (a * 257 + x) mod 2 ^ 256) 1 d);
  EdKey := list Z; ed_key_from_bytes := Ok; ed_verify_strict := toy_verify;
  BlsKey := list Z; BlsSig := list Z; bls_key_from_bytes := Ok; bls_key_validate := λ _, Ok (); bls_sig_from_bytes := Ok;
  bls_sig_validate := λ _, Ok (); bls_verify := λ s m k, toy_verify k m s;
  EcdsaKey := list Z; EcdsaSig := list Z; ecdsa_key_from_sec1 := Ok; ecdsa_sig_from_slice := Ok; ecdsa_verify := toy_verify
|}.
Next Obligation. intros d. apply be_bytes_length. Qed.

Definition toy_key (x : Z) : list Z := replicate 32 x.
Definition toy_sig (x : Z) : list Z := replicate 64 x.
Definition toy_set : ValidatorSet := mkValidatorSet [toy_key 1; toy_key 2; toy_key 3] [5; 5; 5] 6666.
Definition toy_registry : LightClientRegistry :=
  mkClients {[Near := mkClient NearLightClient Near; Ethereum := mkClient EVMLightClient Ethereum; Bitcoin := mkClient BitcoinLightClient Bitcoin]} {[Near := toy_set]}.
Definition toy_checkpoint : ExternalCheckpoint :=
  mkExternal Near 7 8 9 10 0 0 (ProofNear [42] [toy_sig 1; toy_sig 2; toy_sig 0] [[]; []; []]) None.

Lemma accepted_has_quorum_witness :
  6666 * 3 ≤ 10000 * Z.of_nat (signed_positions verify_ed25519 (pubkeys toy_set) [42] [toy_sig 1; toy_sig 2; toy_sig 0]).
Proof.
  destruct (accepted_has_quorum toy_registry toy_checkpoint [42] [toy_sig 1; toy_sig 2; toy_sig 0] verify_ed25519) as (set & Hset & Hq).
  - intros id c Hc. unfold toy_registry in Hc. cbn [clients] in Hc. rewrite !lookup_insert_Some, lookup_singleton_Some in Hc.
    destruct Hc as [[<- <-]|[_ [[<- <-]|[_ [<- <-]]]]]; vm_compute; reflexivity.
  - vm_compute. reflexivity.
  - reflexivity.
  - intros set Hset. assert (set = toy_set) as -> by (vm_compute in Hset; injection Hset as <-; reflexivity). vm_compute. split; [reflexivity|discriminate].
  - assert (set = toy_set) as -> by (vm_compute in Hset; injection Hset as <-; reflexivity). exact Hq.
Defined.

Lemma signed_checkpoint_relabelled_witness :
  verify_checkpoint toy_registry (relabel 100 1 2 3 4 toy_checkpoint) = Some (Ok valid).
Proof.
  refine (proj2 (signed_checkpoint_relabelled toy_registry toy_checkpoint 100 1 2 3 4 _ _ _) _); try discriminate; vm_compute; reflexivity.
Defined.

Lemma evm_accepts_any_state_witness :
  ∃ header, verify_checkpoint toy_registry (mkExternal Ethereum 1000 (keccak256 header) 77 78 0 0 (ProofEvm header None None) None) = Some (Ok valid).
Proof.
  apply (evm_accepts_any_state toy_registry (mkClient EVMLightClient Ethereum) Ethereum 77 78 1000 0); try reflexivity; vm_compute; split; discriminate || reflexivity.
Defined.

Lemma bitcoin_accepts_any_header_witness :
  verify_checkpoint toy_registry (mkExternal Bitcoin 5 (of_be_bytes (reverse (double_sha256 (replicate 80 0)))) 1 2 0 0
    (ProofBitcoin (replicate 80 0) 6 None 5 None None) None) = Some (Ok valid).
Proof.
  apply (bitcoin_accepts_any_header toy_registry (mkClient BitcoinLightClient Bitcoin) Bitcoin (replicate 80 0) 6 5 1 2 0); try reflexivity; vm_compute; discriminate.
Defined.

Lemma keys_from_proof_trusted_witness :
  verify_move_production (mkExternal Aptos 1 2 3 4 0 0 (ProofMove [42] [[7]; [7]] [[7]; [7]]) None) (Some toy_set) =
  verify_move_production (mkExternal Aptos 1 2 3 4 0 0 (ProofMove [42] [[7]; [7]] [[7]; [7]]) None) (Some (mkValidatorSet [[]; []; []] [] 6666)).
Proof. apply keys_from_proof_trusted; reflexivity. Defined.

Lemma generic_accepts_own_keys_witness :
  verify_generic (mkExternal (Custom "x") 1 2 3 4 0 0 (ProofGeneric [42] [toy_key 7] [toy_sig 7] Ed25519) None) None = Some (Ok valid).
Proof.
  refine (proj1 (generic_accepts_own_keys (mkExternal (Custom "x") 1 2 3 4 0 0 (ProofGeneric [42] [toy_key 7] [toy_sig 7] Ed25519) None) [42] (toy_key 7) (toy_sig 7) _ _ _)); [reflexivity|discriminate|vm_compute; reflexivity].
Defined.

Lemma count_mismatch_panics_witness :
  verify_checkpoint toy_registry (mkExternal Near 7 8 9 10 0 0 (ProofNear [42] [toy_sig 1] [[]]) None) = None.
Proof.
  apply (count_mismatch_panics toy_registry (mkClient NearLightClient Near) (mkExternal Near 7 8 9 10 0 0 (ProofNear [42] [toy_sig 1] [[]]) None)
    [42] [toy_sig 1] [[]] toy_set); try reflexivity; discriminate.
Defined.
