(* ===== verification/SetDelta.v ===== *)
(** * Deltas of validator sets

    Models [src/L1/src/l0/validator_set_delta.rs]: the difference of two validator sets of
    an external chain, its application and its wire format.  An index out of range
    of the stakes panics: [None]. *)

From stdpp Require Import sorting.
From S2P Require Import Prelude Bytes Chains LightClient.

Record ValidatorSetDelta : Type := mkDelta {
  added_pubkeys : list (list Z);
  added_stakes : list Z;
  removed_indices : list nat;
  delta_threshold : option Z
}.

(** ** Computing a difference *)

Fixpoint base_map_loop (i : nat) (pks : list (list Z)) (stakes : list Z) (m : gmap (list Z) (nat * Z)) : option (gmap (list Z) (nat * Z)) :=
  match pks with
  | [] => Some m
  | pk :: pks' => match stakes with
                  | [] => None
                  | s :: stakes' => base_map_loop (S i) pks' stakes' (<[pk := (i, s)]> m)
                  end
  end.

(** What the loop over the new set has collected. *)
Record Diff : Type := mkDiff {
  df_map : gmap (list Z) (nat * Z);
  df_pubkeys : list (list Z);
  df_stakes : list Z;
  df_removed : list nat
}.

Definition diff_step (d : Diff) (pk : list Z) (s : Z) : Diff :=
  match df_map d !! pk with
  | Some (idx, old) =>
      if old =? s then mkDiff (delete pk (df_map d)) (df_pubkeys d) (df_stakes d) (df_removed d)
      else mkDiff (delete pk (df_map d)) (df_pubkeys d ++ [pk]) (df_stakes d ++ [s]) (df_removed d ++ [idx])
  | None => mkDiff (df_map d) (df_pubkeys d ++ [pk]) (df_stakes d ++ [s]) (df_removed d)
  end.

Fixpoint diff_loop (pks : list (list Z)) (stakes : list Z) (d : Diff) : option Diff :=
  match pks with
  | [] => Some d
  | pk :: pks' => match stakes with [] => None | s :: stakes' => diff_loop pks' stakes' (diff_step d pk s) end
  end.

(** [b.cmp(a)] *)
Definition descending (a b : nat) : Prop := (b ≤ a)%nat.

#[export] Instance descending_dec : RelDecision descending.
Proof. unfold descending. intros a b. apply _. Defined.
#[export] Instance descending_total : Total descending.
Proof. intros a b. unfold descending. lia. Qed.
#[export] Instance descending_trans : Transitive descending.
Proof. intros a b c. unfold descending. lia. Qed.

Definition compute (base new : ValidatorSet) : option ValidatorSetDelta :=
  match base_map_loop 0 (pubkeys base) (stakes base) ∅ with
  | None => None
  | Some m =>
      match diff_loop (pubkeys new) (stakes new) (mkDiff m [] [] []) with
      | None => None
      | Some d =>
          let removed := df_removed d ++ map (λ p, p.2.1) (map_to_list (df_map d)) in
          Some (mkDelta (df_pubkeys d) (df_stakes d) (merge_sort descending removed)
                  (if threshold_bps base =? threshold_bps new then None else Some (threshold_bps new)))
      end
  end.

(** ** Applying it *)

(** [Vec::swap_remove]: the last element takes the place of the removed one. *)
Definition swap_remove {A} (i : nat) (l : list A) : option (list A) :=
  match list.last l with
  | Some x => if (i <? length l)%nat then Some (take (length l - 1) (<[i := x]> l)) else None
  | None => None
  end.

Fixpoint remove_loop (ix : list nat) (pks : list (list Z)) (stakes : list Z) : option (list (list Z) * list Z) :=
  match ix with
  | [] => Some (pks, stakes)
  | i :: ix' =>
      if (i <? length pks)%nat
      then match swap_remove i pks, swap_remove i stakes with
           | Some pks', Some stakes' => remove_loop ix' pks' stakes'
           | _, _ => None
           end
      else remove_loop ix' pks stakes
  end.

Definition apply_delta (d : ValidatorSetDelta) (base : ValidatorSet) : option ValidatorSet :=
  match remove_loop (removed_indices d) (pubkeys base) (stakes base) with
  | None => None
  | Some (pks, stakes) =>
      let added := zip (added_pubkeys d) (added_stakes d) in
      Some (mkValidatorSet (pks ++ map fst added) (stakes ++ map snd added) (default (threshold_bps base) (delta_threshold d)))
  end.

Definition delta_is_empty (d : ValidatorSetDelta) : bool :=
  is_empty (added_pubkeys d) && is_empty (removed_indices d) && match delta_threshold d with None => true | Some _ => false end.

(** ** Wire format *)

(** [x as u16] *)
Definition as_u16 (x : Z) : Z := x mod 65536.

Definition encode_added (p : list Z * Z) : list Z :=
  le_bytes 2 (as_u16 (Z.of_nat (length p.1))) ++ p.1 ++ le_bytes 8 p.2.

Definition encode (d : ValidatorSetDelta) : list Z :=
  [match delta_threshold d with Some _ => 1 | None => 0 end] ++
  le_bytes 2 (as_u16 (Z.of_nat (length (removed_indices d)))) ++
  concat (map (λ i, le_bytes 2 (as_u16 (Z.of_nat i))) (removed_indices d)) ++
  le_bytes 2 (as_u16 (Z.of_nat (length (added_pubkeys d)))) ++
  concat (map encode_added (zip (added_pubkeys d) (added_stakes d))) ++
  match delta_threshold d with Some th => le_bytes 2 th | None => [] end.

(** The next bytes of the input, if there are so many. *)
Definition read (n : nat) (bs : list Z) : option (list Z * list Z) :=
  if (n <=? length bs)%nat then Some (take n bs, drop n bs) else None.

Definition read_int (n : nat) (bs : list Z) : option (Z * list Z) :=
  match read n bs with Some (x, rest) => Some (of_le_bytes x, rest) | None => None end.

Fixpoint read_indices (n : nat) (bs : list Z) : option (list nat * list Z) :=
  match n with
  | O => Some ([], bs)
  | S n' =>
      match read_int 2 bs with
      | None => None
      | Some (x, rest) => match read_indices n' rest with None => None | Some (xs, rest') => Some (Z.to_nat x :: xs, rest') end
      end
  end.

Fixpoint read_added (n : nat) (bs : list Z) : option (list (list Z * Z) * list Z) :=
  match n with
  | O => Some ([], bs)
  | S n' =>
      match read_int 2 bs with
      | None => None
      | Some (len, r1) =>
          match read (Z.to_nat len) r1 with
          | None => None
          | Some (pk, r2) =>
              match read_int 8 r2 with
              | None => None
              | Some (stake, r3) => match read_added n' r3 with None => None | Some (xs, r4) => Some ((pk, stake) :: xs, r4) end
              end
          end
      end
  end.

Definition decode (bytes : list Z) : option ValidatorSetDelta :=
  match bytes with
  | [] => None
  | flags :: r0 =>
      match read_int 2 r0 with
      | None => None
      | Some (removed_count, r1) =>
          match read_indices (Z.to_nat removed_count) r1 with
          | None => None
          | Some (removed, r2) =>
              match read_int 2 r2 with
              | None => None
              | Some (added_count, r3) =>
                  match read_added (Z.to_nat added_count) r3 with
                  | None => None
                  | Some (added, r4) =>
                      if Z.land flags 1 =? 0 then Some (mkDelta (map fst added) (map snd added) removed None)
                      else match read_int 2 r4 with
                           | None => None
                           | Some (th, _) => Some (mkDelta (map fst added) (map snd added) removed (Some th))
                           end
                  end
              end
          end
      end
  end.

Definition estimated_wire_size (d : ValidatorSetDelta) : nat :=
  1 + 2 + length (removed_indices d) * 2 + 2 + foldr (λ pk n, 2 + length pk + 8 + n)%nat 0%nat (added_pubkeys d) +
  match delta_threshold d with Some _ => 2 | None => 0 end.

(** ** Round trip of the wire format *)

Lemma read_app (a b : list Z) n : n = length a → read n (a ++ b) = Some (a, b).
Proof.
  intros ->. unfold read. rewrite length_app. destruct (Nat.leb_spec (length a) (length a + length b)); [|lia].
  by rewrite take_app_length, drop_app_length.
Qed.

Lemma read_int_le n x rest : 0 ≤ x < 256 ^ Z.of_nat n → read_int n (le_bytes n x ++ rest) = Some (x, rest).
Proof. intros Hx. unfold read_int. rewrite read_app by by rewrite le_bytes_length. by rewrite of_le_le_bytes. Qed.

Lemma as_u16_small x : 0 ≤ x < 65536 → as_u16 x = x.
Proof. intros Hx. unfold as_u16. by apply Z.mod_small. Qed.

Lemma read_indices_encode ix rest :
  Forall (λ i, Z.of_nat i < 65536) ix →
  read_indices (length ix) (concat (map (λ i, le_bytes 2 (as_u16 (Z.of_nat i))) ix) ++ rest) = Some (ix, rest).
Proof.
  induction 1 as [|i ix Hi His IH]; [done|]. cbn [map concat length read_indices]. rewrite <- app_assoc, as_u16_small by lia.
  rewrite read_int_le by (change (256 ^ Z.of_nat 2) with 65536; lia). by rewrite IH, Nat2Z.id.
Qed.

Definition added_fits (p : list Z * Z) : Prop := Z.of_nat (length p.1) < 65536 ∧ 0 ≤ p.2 ≤ u64_max.

Lemma read_added_encode ps rest :
  Forall added_fits ps → read_added (length ps) (concat (map encode_added ps) ++ rest) = Some (ps, rest).
Proof.
  induction 1 as [|[pk s] ps [Hl Hs] Hps IH]; [done|]. cbn [map concat length read_added]. unfold encode_added at 1. cbn [fst snd] in *.
  rewrite <- !app_assoc, as_u16_small by lia. rewrite read_int_le by (change (256 ^ Z.of_nat 2) with 65536; lia).
  rewrite Nat2Z.id, read_app by done. rewrite read_int_le by (change (256 ^ Z.of_nat 8) with (u64_max + 1); lia). by rewrite IH.
Qed.

(** Deltas the wire format can carry. *)
Definition delta_fits (d : ValidatorSetDelta) : Prop :=
  length (added_pubkeys d) = length (added_stakes d) ∧ Z.of_nat (length (removed_indices d)) < 65536 ∧
  Z.of_nat (length (added_pubkeys d)) < 65536 ∧ Forall (λ i, Z.of_nat i < 65536) (removed_indices d) ∧
  Forall added_fits (zip (added_pubkeys d) (added_stakes d)) ∧ (∀ th, delta_threshold d = Some th → 0 ≤ th < 65536).

Lemma zip_fst {A B} (l : list A) (k : list B) : length l = length k → map fst (zip l k) = l.
Proof. intros Hl. apply fst_zip. lia. Qed.
Lemma zip_snd {A B} (l : list A) (k : list B) : length l = length k → map snd (zip l k) = k.
Proof. intros Hl. apply snd_zip. lia. Qed.

Lemma decode_encode_delta d : delta_fits d → decode (encode d) = Some d.
Proof.
  intros (Hlen & Hr & Ha & Hi & Hadd & Hth). unfold encode. cbn [app decode].
  assert (E2 : 256 ^ Z.of_nat 2 = 65536) by reflexivity.
  rewrite (as_u16_small (Z.of_nat (length (removed_indices d)))), (as_u16_small (Z.of_nat (length (added_pubkeys d)))) by lia.
  rewrite read_int_le by lia. rewrite Nat2Z.id, read_indices_encode by done. rewrite read_int_le by lia. rewrite Nat2Z.id.
  replace (length (added_pubkeys d)) with (length (zip (added_pubkeys d) (added_stakes d))) by (rewrite length_zip_with; lia).
  rewrite read_added_encode by done. rewrite zip_fst, zip_snd by done. destruct d as [pks sts ix [th|]]; cbn [delta_threshold added_pubkeys added_stakes removed_indices].
  - change (Z.land 1 1 =? 0) with false. cbv iota. specialize (Hth th eq_refl). by rewrite <- (app_nil_r (le_bytes 2 th)), read_int_le by lia.
  - done.
Qed.

(** A delta whose counts, indices and key lengths are below 65536 survives the wire: decoding its
    encoding gives it back, and the encoding is as long as estimated. *)
Theorem delta_wire_roundtrip d :
  delta_fits d → decode (encode d) = Some d ∧ length (encode d) = estimated_wire_size d.
Proof.
  intros Hd. split; [by apply decode_encode_delta|]. destruct Hd as (Hlen & _). unfold encode, estimated_wire_size.
  rewrite !length_app, !le_bytes_length.
  assert (H1 : length (concat (map (λ i, le_bytes 2 (as_u16 (Z.of_nat i))) (removed_indices d))) = (length (removed_indices d) * 2)%nat).
  { induction (removed_indices d) as [|i ix IH]; [done|]. cbn [map concat length]. rewrite length_app, le_bytes_length, IH. lia. }
  assert (H2 : length (concat (map encode_added (zip (added_pubkeys d) (added_stakes d)))) = foldr (λ pk n, 2 + length pk + 8 + n)%nat 0%nat (added_pubkeys d)).
  { revert Hlen. generalize (added_stakes d). induction (added_pubkeys d) as [|pk pks IH]; intros [|s sts] Hlen; try done.
    cbn [zip zip_with map concat foldr]. unfold encode_added at 1. rewrite !length_app, !le_bytes_length, IH by (simpl in Hlen; lia). cbn [fst]. lia. }
  rewrite H1, H2. destruct (delta_threshold d); rewrite ?le_bytes_length; cbn [length]; lia.
Qed.

Lemma delta_wire_roundtrip_witness : decode (encode (mkDelta [[1; 2]; []] [7; 8] [3; 1]%nat (Some 6667))) = Some (mkDelta [[1; 2]; []] [7; 8] [3; 1]%nat (Some 6667)).
Proof.
  apply (delta_wire_roundtrip (mkDelta [[1; 2]; []] [7; 8] [3; 1]%nat (Some 6667))). unfold delta_fits, added_fits. cbn [added_pubkeys added_stakes removed_indices delta_threshold].
  split_and!; [reflexivity|vm_compute; reflexivity|vm_compute; reflexivity| | |intros th [= <-]; lia].
  - apply (bool_decide_unpack _). vm_compute. exact I.
  - repeat constructor; vm_compute; try reflexivity; discriminate.
Defined.

(** Larger indices are cut to 16 bits: the encoding of a delta that removes the validator at [i + 65536] is the
    encoding of the one that removes the validator at [i]. *)
Theorem delta_wire_truncates d i ix :
  removed_indices d = (i + Z.to_nat 65536)%nat :: ix →
  encode d = encode (mkDelta (added_pubkeys d) (added_stakes d) (i :: ix) (delta_threshold d)).
Proof.
  intros Hd. unfold encode. cbn [added_pubkeys added_stakes removed_indices delta_threshold]. rewrite Hd. cbn [map concat length].
  assert (Hi : as_u16 (Z.of_nat (i + Z.to_nat 65536)) = as_u16 (Z.of_nat i)) by (unfold as_u16; rewrite Nat2Z.inj_add, Z2Nat.id by lia; change 65536 with (1 * 65536) at 1; by rewrite Z_mod_plus_full).
  by rewrite Hi.
Qed.

Lemma delta_wire_truncates_witness : encode (mkDelta [] [] [Z.to_nat 65541] None) = encode (mkDelta [] [] [5%nat] None).
Proof. apply (delta_wire_truncates (mkDelta [] [] [Z.to_nat 65541] None) 5 []). reflexivity. Defined.

(** ** Applying a computed delta *)

Lemma swap_remove_spec {A} i (l : list A) x :
  l !! i = Some x →
  ∃ l', swap_remove i l = Some l' ∧ l' ++ [x] ≡ₚ l ∧ length l' = (length l - 1)%nat ∧ ∀ j, (j < i)%nat → l' !! j = l !! j.
Proof.
  intros Hi. assert (Hlt : (i < length l)%nat) by by eapply lookup_lt_Some.
  destruct (exists_last (l := l)) as (k & y & ->); [by intros ->|]. unfold swap_remove. rewrite last_snoc.
  destruct (Nat.ltb_spec i (length (k ++ [y]))) as [_|]; [|lia]. rewrite length_app in Hlt |- *. cbn [length] in *.
  eexists. split; [reflexivity|]. replace (length k + 1 - 1)%nat with (length k) by lia.
  assert (Htake : take (length k) (<[i := y]> (k ++ [y])) = <[i := y]> k).
  { destruct (decide (i < length k)%nat) as [Hk|Hk].
    - rewrite insert_app_l by done. rewrite take_app_length' by by rewrite length_insert. done.
    - rewrite (list_insert_ge k) by lia. rewrite take_insert_ge by lia. by rewrite take_app_length. }
  rewrite Htake, length_insert. split; [|split; [done|]].
  - destruct (decide (i < length k)%nat) as [Hk|Hk].
    + rewrite lookup_app_l in Hi by done. rewrite (insert_take_drop k i y) by done.
      rewrite <- (take_drop_middle k i x Hi) at 3. rewrite <- !app_assoc. cbn [app]. apply Permutation_app_head.
      rewrite (Permutation_app_comm _ [x]), (Permutation_app_comm _ [y]). apply Permutation_swap.
    + assert (i = length k) as -> by lia. rewrite list_lookup_middle in Hi by done. injection Hi as <-. by rewrite list_insert_ge by lia.
  - intros j Hj. rewrite list_lookup_insert_ne by lia. by rewrite lookup_app_l by lia.
Qed.

Lemma swap_remove_fmap {A B} (f : A → B) i l l' : swap_remove i l = Some l' → swap_remove i (map f l) = Some (map f l').
Proof.
  unfold swap_remove. change (map f) with (fmap (M := list) f). rewrite fmap_last. destruct (list.last l) as [x|]; [|done]. simpl. rewrite length_fmap.
  destruct (_ <? _)%nat; [|done]. intros [= <-]. by rewrite fmap_take, list_fmap_insert.
Qed.

(** Keys and stakes lose the same positions. *)
Lemma remove_loop_spec ix (ps : list (list Z * Z)) :
  StronglySorted descending ix → base.NoDup ix → Forall (λ i, (i < length ps)%nat) ix →
  ∃ ps', remove_loop ix (map fst ps) (map snd ps) = Some (map fst ps', map snd ps') ∧ ps' ++ omap (ps !!.) ix ≡ₚ ps.
Proof.
  revert ps. induction ix as [|i ix IH]; intros ps Hs Hnd Hall.
  { exists ps. simpl. by rewrite app_nil_r. }
  apply list.Forall_cons_1 in Hall as [Hi Hall]. apply list.NoDup_cons in Hnd as [Hni Hnd]. apply StronglySorted_inv in Hs as [Hs Hsi].
  assert (Hlt : Forall (λ j, (j < i)%nat) ix).
  { apply list.Forall_forall. intros j Hj. rewrite list.Forall_forall in Hsi. specialize (Hsi j Hj). unfold descending in Hsi.
    destruct (decide (j = i)) as [-> |]; [done|lia]. }
  destruct (lookup_lt_is_Some_2 ps i Hi) as [x Hx]. destruct (swap_remove_spec i ps x Hx) as (l & Hl & Hperm & Hlen & Hsame).
  destruct (IH l Hs Hnd) as (ps' & Hr & Hp).
  { rewrite list.Forall_forall in Hlt |- *. intros j Hj. specialize (Hlt j Hj). lia. }
  exists ps'. split.
  - cbn [remove_loop]. rewrite length_map. destruct (Nat.ltb_spec i (length ps)); [|lia].
    by rewrite (swap_remove_fmap fst _ _ _ Hl), (swap_remove_fmap snd _ _ _ Hl).
  - assert (Hcons : omap (ps !!.) (i :: ix) = x :: omap (ps !!.) ix) by (simpl; by rewrite Hx). rewrite Hcons. etrans; [|exact Hperm]. etrans; [|apply Permutation_app_tail; exact Hp].
    assert (Hom : omap (l !!.) ix = omap (ps !!.) ix).
    { clear -Hlt Hsame. induction Hlt as [|j ix Hj Hix IH]; [done|]. simpl. rewrite Hsame by done. destruct (ps !! j); [f_equal|]; exact IH. }
    rewrite Hom. rewrite <- app_assoc. apply Permutation_app_head. apply Permutation_cons_append.
Qed.

(** ** What a computed delta contains *)

Section Compute.
Context (bs : list (list Z * Z)) (Hbs : base.NoDup (map fst bs)).

(** Position and stake of a key of the base. *)
Definition base_at (m : gmap (list Z) (nat * Z)) (seen : list Z → Prop) : Prop :=
  ∀ pk i s, m !! pk = Some (i, s) ↔ bs !! i = Some (pk, s) ∧ ¬ seen pk.

Lemma base_map_loop_spec l k m :
  bs = k ++ l → (∀ pk i s, m !! pk = Some (i, s) ↔ k !! i = Some (pk, s)) →
  ∃ m', base_map_loop (length k) (map fst l) (map snd l) m = Some m' ∧ ∀ pk i s, m' !! pk = Some (i, s) ↔ bs !! i = Some (pk, s).
Proof.
  revert k m. induction l as [|[pk s] l IH]; intros k m Hk Hm.
  { exists m. rewrite app_nil_r in Hk. subst k. split; [done|]. exact Hm. }
  cbn [map base_map_loop fst snd]. destruct (IH (k ++ [(pk, s)]) (<[pk := (length k, s)]> m)) as (m' & H1 & H2).
  - by rewrite <- app_assoc.
  - intros pk' i s'. rewrite lookup_insert_Some, lookup_snoc_Some. split.
    + intros [[<- [= <- <-]]|[Hne Hl]]; [by right|]. left. apply Hm in Hl. split; [by eapply lookup_lt_Some|done].
    + intros [[Hi Hl]|[-> [= <- <-]]]; [|by left]. right. split; [|by apply Hm]. intros <-.
      rewrite Hk, map_app in Hbs. apply list.NoDup_app in Hbs as (_ & Hdisj & _). apply (Hdisj pk); [|by left].
      apply list_elem_of_fmap. exists (pk, s'). split; [done|]. by eapply list_elem_of_lookup_2.
  - rewrite length_app in H1. cbn [length] in H1. rewrite Nat.add_1_r in H1. by exists m'.
Qed.

(** Positions of the base whose entry is not in the new set. *)
Definition gone (new : list (list Z * Z)) (i : nat) : Prop := ∃ p, bs !! i = Some p ∧ p ∉ new.

Record diff_inv (done : list (list Z * Z)) (d : Diff) : Prop := {
  di_map : base_at (df_map d) (λ pk, pk ∈ map fst done);
  di_added : zip (df_pubkeys d) (df_stakes d) = filter (λ p, p ∉ bs) done;
  di_len : length (df_pubkeys d) = length (df_stakes d);
  di_nodup : base.NoDup (df_removed d);
  di_removed i : i ∈ df_removed d ↔ ∃ pk s s', bs !! i = Some (pk, s) ∧ (pk, s') ∈ done ∧ s ≠ s'
}.

Lemma diff_step_inv done d pk s :
  diff_inv done d → pk ∉ map fst done → diff_inv (done ++ [(pk, s)]) (diff_step d pk s).
Proof.
  intros [Hm Ha Hl Hnd Hr] Hpk. unfold diff_step.
  assert (Hmap : base_at (delete pk (df_map d)) (λ k, k ∈ map fst (done ++ [(pk, s)]))).
  { intros k i s'. rewrite lookup_delete_Some, (Hm k i s'), map_app, elem_of_app. cbn [map fst]. rewrite list_elem_of_singleton. naive_solver. }
  assert (Hin : ∀ i s', bs !! i = Some (pk, s') → df_map d !! pk = Some (i, s')) by (intros i s' Hi; by apply Hm).
  assert (Hfil : filter (λ p, p ∉ bs) (done ++ [(pk, s)]) = filter (λ p, p ∉ bs) done ++ (if decide ((pk, s) ∉ bs) then [(pk, s)] else [])).
  { by rewrite list.filter_app. }
  assert (Hnew : ∀ i k x x', bs !! i = Some (k, x) → (k, x') ∈ done ++ [(pk, s)] → x ≠ x' →
    (∃ pk0 s0 s', bs !! i = Some (pk0, s0) ∧ (pk0, s') ∈ done ∧ s0 ≠ s') ∨ (k = pk ∧ x' = s)).
  { intros i k x x' Hi Hin' Hne. apply elem_of_app in Hin' as [Hd|Hd]; [left; eauto 10|right]. apply list_elem_of_singleton in Hd. by injection Hd as -> ->. }
  destruct (df_map d !! pk) as [[idx old]|] eqn:Hk.
  - pose proof (proj1 (Hm pk idx old) Hk) as [Hidx _]. destruct (Z.eqb_spec old s) as [-> |Hold].
    + split; cbn [df_map df_pubkeys df_stakes df_removed]; try done.
      * rewrite Hfil, decide_False, app_nil_r; [done|]. intros Hn. apply Hn. by eapply list_elem_of_lookup_2.
      * intros i. rewrite Hr. split; [intros (k & x & x' & H1 & H2 & H3); exists k, x, x'; rewrite elem_of_app; auto|].
        intros (k & x & x' & H1 & H2 & H3). destruct (Hnew i k x x' H1 H2 H3) as [?|[-> ->]]; [done|].
        apply Hin in H1. simplify_eq.
    + split; cbn [df_map df_pubkeys df_stakes df_removed]; try done.
      * rewrite zip_with_app by done. rewrite Ha, Hfil, decide_True; [done|]. intros [i Hi]%list_elem_of_lookup_1. apply Hin in Hi. simplify_eq.
      * rewrite !length_app, Hl. done.
      * apply list.NoDup_app. split; [done|]. split; [|apply NoDup_singleton]. intros i Hi ->%list_elem_of_singleton.
        apply Hr in Hi as (k & x & x' & H1 & H2 & _). rewrite Hidx in H1. injection H1 as <- <-. apply Hpk. apply list_elem_of_fmap. by exists (pk, x').
      * intros i. rewrite elem_of_app, list_elem_of_singleton, Hr. split.
        { intros [(k & x & x' & H1 & H2 & H3)| ->]; [exists k, x, x'; rewrite elem_of_app; auto|].
          exists pk, old, s. rewrite elem_of_app, list_elem_of_singleton. auto. }
        intros (k & x & x' & H1 & H2 & H3). destruct (Hnew i k x x' H1 H2 H3) as [?|[-> ->]]; [by left|]. right. apply Hin in H1. by simplify_eq.
  - assert (Hno : ∀ i x, bs !! i ≠ Some (pk, x)) by (intros i x Hi; apply Hin in Hi; done).
    split; cbn [df_map df_pubkeys df_stakes df_removed]; try done.
    + intros k i s'. rewrite (Hm k i s'), map_app, elem_of_app. cbn [map fst]. rewrite list_elem_of_singleton. split; [|naive_solver].
      intros [H1 H2]. split; [done|]. intros [?| ->]; [done|]. by apply Hno in H1.
    + rewrite zip_with_app by done. rewrite Ha, Hfil, decide_True; [done|]. intros [i Hi]%list_elem_of_lookup_1. by apply Hno in Hi.
    + rewrite !length_app, Hl. done.
    + intros i. rewrite Hr. split; [intros (k & x & x' & H1 & H2 & H3); exists k, x, x'; rewrite elem_of_app; auto|].
      intros (k & x & x' & H1 & H2 & H3). destruct (Hnew i k x x' H1 H2 H3) as [?|[-> ->]]; [done|]. by apply Hno in H1.
Qed.

Lemma diff_loop_spec l seen d :
  diff_inv seen d → base.NoDup (map fst (seen ++ l)) →
  ∃ d', diff_loop (map fst l) (map snd l) d = Some d' ∧ diff_inv (seen ++ l) d'.
Proof.
  revert seen d. induction l as [|[pk s] l IH]; intros seen d Hd Hnd.
  { exists d. by rewrite app_nil_r. }
  cbn [map diff_loop fst snd]. change ((pk, s) :: l) with ([(pk, s)] ++ l) in *. rewrite app_assoc in Hnd |- *.
  apply IH; [|done]. apply diff_step_inv; [done|]. rewrite !map_app in Hnd. apply list.NoDup_app in Hnd as [Hnd _].
  apply list.NoDup_app in Hnd as (_ & Hdisj & _). intros Hin. apply (Hdisj pk Hin). by left.
Qed.
End Compute.

Lemma diff_inv_start bs m : (∀ pk i s, m !! pk = Some (i, s) ↔ bs !! i = Some (pk, s)) → diff_inv bs [] (mkDiff m [] [] []).
Proof.
  intros Hm. split; cbn [df_map df_pubkeys df_stakes df_removed]; try done.
  - intros pk i s. rewrite Hm. split; [intros; split; [done|apply not_elem_of_nil]|by intros [? _]].
  - apply base.NoDup_nil_2.
  - intros i. split; [by intros ?%not_elem_of_nil|]. by intros (k & x & x' & _ & ?%not_elem_of_nil & _).
Qed.

(** The positions left in the map at the end. *)
Lemma rest_positions (bs ns : list (list Z * Z)) d i :
  base.NoDup (map fst bs) → base_at bs (df_map d) (λ pk, pk ∈ map fst ns) →
  i ∈ map (λ p : list Z * (nat * Z), p.2.1) (map_to_list (df_map d)) ↔ ∃ pk s, bs !! i = Some (pk, s) ∧ pk ∉ map fst ns.
Proof.
  intros Hnd Hm. rewrite list_elem_of_fmap. split.
  - intros ([pk [j s]] & -> & Hin). apply elem_of_map_to_list, Hm in Hin. by exists pk, s.
  - intros (pk & s & Hi & Hpk). exists (pk, (i, s)). split; [done|]. by apply elem_of_map_to_list, Hm.
Qed.

Lemma rest_nodup (bs ns : list (list Z * Z)) d :
  base_at bs (df_map d) (λ pk, pk ∈ map fst ns) → base.NoDup (map (λ p : list Z * (nat * Z), p.2.1) (map_to_list (df_map d))).
Proof.
  intros Hm. apply NoDup_fmap_2_strong; [|apply NoDup_map_to_list].
  intros [pk [i s]] [pk' [i' s']] H1 H2 Heq. simpl in Heq. subst i'. apply elem_of_map_to_list, Hm in H1 as [H1 _].
  apply elem_of_map_to_list, Hm in H2 as [H2 _]. rewrite H1 in H2. by injection H2 as -> ->.
Qed.

Lemma removed_gone (bs ns : list (list Z * Z)) d i :
  base.NoDup (map fst bs) → base.NoDup (map fst ns) → diff_inv bs ns d →
  i ∈ df_removed d ++ map (λ p : list Z * (nat * Z), p.2.1) (map_to_list (df_map d)) ↔ gone bs ns i.
Proof.
  intros Hb Hn [Hm _ _ _ Hr]. rewrite elem_of_app, Hr, (rest_positions bs ns) by done. unfold gone. split.
  - intros [(pk & s & s' & Hi & Hin & Hne)|(pk & s & Hi & Hpk)]; exists (pk, s); (split; [done|]).
    + intros Hin'. apply list_elem_of_lookup_1 in Hin as [j Hj]. apply list_elem_of_lookup_1 in Hin' as [k Hk].
      assert (j = k) as <-; [|rewrite Hj in Hk; by injection Hk as ->].
      eapply (list.NoDup_lookup (map fst ns)); [done| |]; rewrite list_lookup_fmap; [by rewrite Hj|by rewrite Hk].
    + intros Hin. apply Hpk. apply list_elem_of_fmap. by exists (pk, s).
  - intros ([pk s] & Hi & Hno). destruct (decide (pk ∈ map fst ns)) as [Hin|Hni]; [|right; by exists pk, s].
    left. apply list_elem_of_fmap in Hin as ([pk' s'] & Heq & Hin). simpl in Heq. subst pk'. exists pk, s, s'. split_and!; [done|done|]. by intros ->.
Qed.

(** Positions of the base, read off, are the entries that are gone. *)
Lemma gone_entries (bs ns : list (list Z * Z)) ix :
  base.NoDup bs → base.NoDup ix → (∀ i, i ∈ ix ↔ gone bs ns i) → omap (bs !!.) ix ≡ₚ filter (λ p, p ∉ ns) bs.
Proof.
  intros Hb Hix Hg. apply NoDup_Permutation.
  - clear Hg. induction Hix as [|i ix Hni Hix IH]; simpl; [apply base.NoDup_nil_2|]. destruct (bs !! i) as [x|] eqn:Hi; [|exact IH].
    apply list.NoDup_cons. split; [|exact IH]. intros Hin. apply list_elem_of_omap in Hin as (j & Hj & Hj'). apply Hni.
    rewrite (list.NoDup_lookup bs i j x Hb Hi Hj'). done.
  - by apply list.NoDup_filter.
  - intros p. rewrite list_elem_of_omap, list_elem_of_filter. split.
    + intros (i & Hi & Hp). apply Hg in Hi as (q & Hq & Hno). rewrite Hp in Hq. injection Hq as <-. split; [done|]. by eapply list_elem_of_lookup_2.
    + intros [Hno [i Hi]%list_elem_of_lookup_1]. exists i. split; [|done]. apply Hg. by exists p.
Qed.

(** Leaving out what is gone and adding what is new. *)
Lemma exchange_perm (bs ns : list (list Z * Z)) ps :
  base.NoDup bs → base.NoDup ns → ps ++ filter (λ p, p ∉ ns) bs ≡ₚ bs → ps ++ filter (λ p, p ∉ bs) ns ≡ₚ ns.
Proof.
  intros Hb Hn Hp. apply (Permutation_app_inv_r (filter (λ p, p ∉ ns) bs)).
  rewrite <- app_assoc, (Permutation_app_comm (filter (λ p, p ∉ bs) ns)), app_assoc, Hp. apply NoDup_Permutation.
  - apply list.NoDup_app. split; [done|]. split; [|by apply list.NoDup_filter]. intros p H1 [H2 _]%list_elem_of_filter. done.
  - apply list.NoDup_app. split; [done|]. split; [|by apply list.NoDup_filter]. intros p H1 [H2 _]%list_elem_of_filter. done.
  - intros p. rewrite !elem_of_app, !list_elem_of_filter. destruct (decide (p ∈ bs)), (decide (p ∈ ns)); tauto.
Qed.

(** For sets with one stake per key and no key twice, the delta of two sets can be computed and applied, without
    a panic, to the first, and gives the second one: the same keys with the same stakes and
    the same threshold, up to the order of the validators. *)
Theorem delta_applies b n :
  length (pubkeys b) = length (stakes b) → length (pubkeys n) = length (stakes n) → base.NoDup (pubkeys b) → base.NoDup (pubkeys n) →
  ∃ d r, compute b n = Some d ∧ apply_delta d b = Some r ∧ length (pubkeys r) = length (stakes r) ∧
    zip (pubkeys r) (stakes r) ≡ₚ zip (pubkeys n) (stakes n) ∧ threshold_bps r = threshold_bps n.
Proof.
  intros Hlb Hln Hb Hn. set (bs := zip (pubkeys b) (stakes b)). set (ns := zip (pubkeys n) (stakes n)).
  assert (Eb : pubkeys b = map fst bs ∧ stakes b = map snd bs) by (split; symmetry; [by apply zip_fst|by apply zip_snd]).
  assert (En : pubkeys n = map fst ns ∧ stakes n = map snd ns) by (split; symmetry; [by apply zip_fst|by apply zip_snd]).
  destruct Eb as [Eb1 Eb2], En as [En1 En2]. rewrite Eb1 in Hb. rewrite En1 in Hn.
  destruct (base_map_loop_spec bs Hb bs [] ∅ eq_refl) as (m & Hm & Hm'); [done|].
  destruct (diff_loop_spec bs ns [] (mkDiff m [] [] []) (diff_inv_start bs m Hm') Hn) as (d & Hd & Hinv). cbn [app] in Hinv.
  cbn [length] in Hm. unfold compute. rewrite Eb1, Eb2, En1, En2, Hm, Hd. set (rem := df_removed d ++ _).
  assert (Hrem : ∀ i, i ∈ rem ↔ gone bs ns i) by (intros i; by apply removed_gone).
  assert (Hnd : base.NoDup rem).
  { apply list.NoDup_app. split; [apply (di_nodup _ _ _ Hinv)|]. split; [|eapply rest_nodup, (di_map _ _ _ Hinv)].
    intros i H1 H2. apply (di_removed _ _ _ Hinv) in H1 as (pk & s & s' & Hi & Hin & _).
    apply (rest_positions bs ns d i Hb (di_map _ _ _ Hinv)) in H2 as (pk' & s'' & Hi' & Hno). rewrite Hi in Hi'. injection Hi' as <- <-.
    apply Hno, list_elem_of_fmap. by exists (pk, s'). }
  pose proof (merge_sort_Permutation descending rem) as Hsp. set (ix := merge_sort descending rem) in *.
  destruct (remove_loop_spec ix bs) as (ps & Hr & Hperm).
  { apply (StronglySorted_merge_sort descending). }
  { by rewrite Hsp. }
  { apply list.Forall_forall. intros i Hi. rewrite Hsp, Hrem in Hi. destruct Hi as (p & Hp & _). by eapply lookup_lt_Some. }
  eexists _, _. split; [reflexivity|]. unfold apply_delta. cbn [removed_indices added_pubkeys added_stakes delta_threshold]. rewrite Eb1, Eb2, Hr.
  split; [reflexivity|]. cbn [pubkeys stakes threshold_bps]. rewrite (di_added _ _ _ Hinv). split; [by rewrite !length_app, !length_map|]. split.
  - rewrite <- !map_app, zip_fst_snd. apply exchange_perm; [by eapply NoDup_fmap_1|by eapply NoDup_fmap_1|]. rewrite <- Hperm at 2. apply Permutation_app_head.
    symmetry. apply gone_entries; [by eapply NoDup_fmap_1|by rewrite Hsp|]. intros i. by rewrite Hsp.
  - by destruct (Z.eqb_spec (threshold_bps b) (threshold_bps n)).
Qed.

Definition demo_base : ValidatorSet := mkValidatorSet [[1]; [2]; [3]] [100; 200; 300] 6666.
Definition demo_new : ValidatorSet := mkValidatorSet [[1]; [4]; [3]] [100; 400; 300] 7500.

Lemma delta_applies_witness : ∃ d r, compute demo_base demo_new = Some d ∧ apply_delta d demo_base = Some r ∧ threshold_bps r = 7500.
Proof.
  destruct (delta_applies demo_base demo_new) as (d & r & H1 & H2 & _ & _ & H3); [reflexivity|reflexivity| | |by exists d, r].
  all: apply (bool_decide_unpack _); vm_compute; exact I.
Defined.

(** The order is not kept: when the middle one of three validators is replaced by another, the set that the receiver of
    the delta computes lists the new validator last. *)
Theorem delta_reorders a b c x s t u v th :
  base.NoDup [a; b; c; x] →
  let old := mkValidatorSet [a; b; c] [s; t; u] th in
  let new := mkValidatorSet [a; x; c] [s; v; u] th in
  ∃ d, compute old new = Some d ∧ apply_delta d old = Some (mkValidatorSet [a; c; x] [s; u; v] th) ∧ removed_indices d = [1%nat].
Proof.
  intros Hnd old new. rewrite !list.NoDup_cons, !not_elem_of_cons in Hnd. destruct Hnd as ((Hab & Hac & Hax & _) & (Hbc & Hbx & _) & (Hcx & _) & _ & _).
  unfold compute, old, new. cbn [pubkeys stakes base_map_loop diff_loop threshold_bps]. rewrite Z.eqb_refl.
  set (m := <[c := (2%nat, u)]> _).
  assert (E1 : diff_step (mkDiff m [] [] []) a s = mkDiff (delete a m) [] [] []).
  { unfold diff_step, m. cbn [df_map]. rewrite (lookup_insert_ne _ c a), (lookup_insert_ne _ b a), lookup_insert_eq by done. by rewrite Z.eqb_refl. }
  assert (E2 : diff_step (mkDiff (delete a m) [] [] []) x v = mkDiff (delete a m) [x] [v] []).
  { unfold diff_step, m. cbn [df_map]. by rewrite lookup_delete_ne, !lookup_insert_ne, lookup_empty by done. }
  assert (E3 : diff_step (mkDiff (delete a m) [x] [v] []) c u = mkDiff (delete c (delete a m)) [x] [v] []).
  { unfold diff_step, m. cbn [df_map]. rewrite lookup_delete_ne, lookup_insert_eq by done. by rewrite Z.eqb_refl. }
  rewrite E1, E2, E3. cbn [df_map df_pubkeys df_stakes df_removed app].
  assert (Hm : delete c (delete a m) = {[b := (1%nat, t)]}).
  { unfold m. rewrite (delete_insert_ne _ a c), (delete_insert_ne _ a b), (delete_insert_eq _ a), delete_insert_eq, delete_empty by done. by rewrite (delete_insert_ne _ c b), delete_empty by done. }
  rewrite Hm, map_to_list_singleton. eexists. split; [reflexivity|]. split; reflexivity.
Qed.

Lemma delta_reorders_witness :
  ∃ d, compute demo_base (mkValidatorSet [[1]; [4]; [3]] [100; 400; 300] 6666) = Some d ∧
       apply_delta d demo_base = Some (mkValidatorSet [[1]; [3]; [4]] [100; 300; 400] 6666) ∧ removed_indices d = [1%nat].
Proof. apply (delta_reorders [1] [2] [3] [4] 100 200 300 400 6666). apply (bool_decide_unpack _). vm_compute. exact I. Defined.
