(* ===== verification/BatchProof.v ===== *)
(** * Batch proofs of signatures

    Models [src/L1/src/l0/stark_prover.rs]: the circuit that sums up the stake of the
    signers of an L0 proof, its table, and the commitments.  The field and the Winterfell
    prover and verifier are arguments, SHA3-256 too. *)

From S2P Require Import Prelude Bytes Air.

Definition BATCH_WIDTH : nat := 7.
Definition COL_IS_SIGNER : nat := 0.
Definition COL_STAKE : nat := 1.
Definition COL_SIG_C0 : nat := 2.
Definition COL_SIG_C1 : nat := 3.
Definition COL_SIG_C2 : nat := 4.
Definition COL_SIG_C3 : nat := 5.
Definition COL_ACC : nat := 6.

Record SignerInput : Type := mkSigner {
  si_index : Z;
  si_stake : Z;
  sig_commitment : Hash;
  is_signer : bool
}.

Record BatchPublicInputs : Type := mkBatchInputs {
  bp_validator_set_root : Hash;
  message_hash : Hash;
  bp_signed_stake : Z;
  bp_stake_threshold : Z;
  signer_count : Z
}.

Record StarkBatchProof : Type := mkStark {
  sb_proof_bytes : list Z;
  commitment : Hash;
  sb_public_inputs : BatchPublicInputs
}.

(** [BaseElement::new] on a [u128]: the residue class, so additive. *)
Class FromU128 (E : Type) `{FieldElement E} : Type := {
  from_u128 : Z → E;
  from_u128_zero : from_u128 0 = fzero;
  from_u128_one : from_u128 1 = fone;
  from_u128_add a b : 0 ≤ a → 0 ≤ b → from_u128 (a + b) = fadd (from_u128 a) (from_u128 b)
}.

Record BatchOptions : Type := mkBatchOptions { queries : Z; blowup : Z; grinding : Z; folding : Z; max_remainder : Z }.

(** Prover and verifier of Winterfell for this circuit. *)
Class BatchWinterfell (E : Type) : Type := {
  BProof : Type;
  batch_prove : BatchOptions → BatchPublicInputs → list (list E) → Result (list Z) string;
  batch_from_bytes : list Z → Result BProof string;
  batch_verify : BProof → BatchPublicInputs → Z → Result () string
}.

Section Batch.
Context (sha3 : list Z → Hash) `{FromU128 E} `{BatchWinterfell E}.

Definition build_commitment (pubkey message raw_sig : list Z) : Hash := sha3 (pubkey ++ message ++ raw_sig).

(** The 8-byte little-endian chunks of a hash. *)
Definition hash_chunks (h : Hash) : list E :=
  map (λ i, from_u128 (of_le_bytes (take 8 (drop (i * 8) (hash_bytes h))))) [0; 1; 2; 3]%nat.

Definition batch_elements (p : BatchPublicInputs) : list E :=
  hash_chunks (bp_validator_set_root p) ++ hash_chunks (message_hash p) ++
  [from_u128 (bp_signed_stake p); from_u128 (bp_stake_threshold p); from_u128 (signer_count p)].

Definition compute_stark_commitment (bytes : list Z) (p : BatchPublicInputs) : Hash :=
  sha3 (bytes ++ hash_bytes (bp_validator_set_root p) ++ hash_bytes (message_hash p) ++ be_bytes 16 (bp_signed_stake p) ++ be_bytes 16 (bp_stake_threshold p)).

(** ** The table *)

Definition signer_row (s : SignerInput) (acc : Z) : list E :=
  from_u128 (if is_signer s then 1 else 0) :: from_u128 (si_stake s) :: hash_chunks (sig_commitment s) ++ [from_u128 acc].

Definition padding_row (acc : Z) : list E := replicate 6 fzero ++ [from_u128 acc].

(** The rows from the given accumulated stake on; [n] rows in all. *)
Fixpoint batch_rows (n : nat) (signers : list SignerInput) (acc : Z) : list (list E) :=
  match n with
  | O => []
  | S n' =>
      match signers with
      | s :: signers' =>
          signer_row s acc :: batch_rows n' signers' (if is_signer s then wrapping_add u128_max acc (si_stake s) else acc)
      | [] => padding_row acc :: batch_rows n' [] acc
      end
  end.

Definition batch_length (signers : list SignerInput) : nat :=
  Nat.max (Z.to_nat (2 ^ Z.log2_up (Z.of_nat (length signers) + 1))) 8.

Definition build_trace (signers : list SignerInput) : list (list E) := batch_rows (batch_length signers) signers 0.

(** ** Constraints *)

Definition col (i : nat) (row : list E) : E := nth i row fzero.

Definition evaluate_batch (cur nxt : list E) : list E :=
  let s := col COL_IS_SIGNER cur in
  let stake := col COL_STAKE cur in
  let acc := col COL_ACC cur in
  [fmul s (fsub fone s); fsub (col COL_ACC nxt) (fadd acc (fmul s stake))].

(** Column, row and value of each assertion. *)
Definition batch_assertions (p : BatchPublicInputs) (len : nat) : list (nat * nat * E) :=
  [(COL_ACC, 0%nat, fzero); (COL_ACC, (len - 1)%nat, from_u128 (bp_signed_stake p))].

(** What a proof attests: the constraints on every pair of rows and the assertions. *)
Definition batch_holds (p : BatchPublicInputs) (table : list (list E)) : Prop :=
  (∀ i cur nxt, table !! i = Some cur → table !! S i = Some nxt → Forall (λ x, x = fzero) (evaluate_batch cur nxt)) ∧
  Forall (λ '(c, i, v), col c (nth i table []) = v) (batch_assertions p (length table)).

(** ** Proving and verifying *)

Definition prove_batch (signers : list SignerInput) (p : BatchPublicInputs) : Result StarkBatchProof string :=
  match batch_prove (mkBatchOptions 28 8 16 8 31) p (build_trace signers) with
  | Err e => Err ("STARK prove: " +:+ e)
  | Ok bytes => Ok (mkStark bytes (compute_stark_commitment bytes p) p)
  end.

Definition verify_batch (s : StarkBatchProof) : Result bool string :=
  match batch_from_bytes (sb_proof_bytes s) with
  | Err e => Err ("STARK deserialize: " +:+ e)
  | Ok proof => match batch_verify proof (sb_public_inputs s) 96 with Ok _ => Ok true | Err _ => Ok false end
  end.

(** ** What the circuit means *)

Context `{!FieldLaws E}.
Add Ring batch_ring : field_ring.

Definition signed_stake_of (signers : list SignerInput) : Z := foldr (λ s a, (if is_signer s then si_stake s else 0) + a) 0 signers.

Lemma batch_rows_length n signers acc : length (batch_rows n signers acc) = n.
Proof. revert signers acc. induction n as [|n IH]; intros [|s signers] acc; simpl; try done; by rewrite IH. Qed.

Lemma batch_length_enough signers : (length signers < batch_length signers)%nat.
Proof.
  unfold batch_length. pose proof (Z.log2_up_spec (Z.of_nat (length signers) + 1)) as Hl.
  destruct signers as [|s signers]; [simpl; lia|]. specialize (Hl ltac:(cbn [length]; lia)). lia.
Qed.

Lemma col_acc_signer s acc : col COL_ACC (signer_row s acc) = from_u128 acc.
Proof. done. Qed.

(** The accumulated stake at the beginning of a row. *)
Lemma batch_rows_acc n signers acc i row :
  0 ≤ acc → acc + signed_stake_of signers ≤ u128_max → Forall (λ s, 0 ≤ si_stake s) signers → batch_rows n signers acc !! i = Some row →
  col COL_ACC row = from_u128 (acc + signed_stake_of (take i signers)).
Proof.
  revert signers acc i. induction n as [|n IH]; intros signers acc i Ha Hle Hst Hi; [done|]. destruct signers as [|s signers]; cbn [batch_rows] in Hi.
  - destruct i as [|i]; cbn [lookup list_lookup] in Hi.
    + injection Hi as <-. rewrite take_nil. simpl. by rewrite Z.add_0_r.
    + rewrite take_nil. apply (IH [] acc i) in Hi; [|done|done|done]. by rewrite take_nil in Hi.
  - apply list.Forall_cons_1 in Hst as [Hs Hst]. destruct i as [|i]; cbn [lookup list_lookup] in Hi.
    + injection Hi as <-. cbn [take signed_stake_of foldr]. by rewrite Z.add_0_r.
    + cbn [take signed_stake_of foldr] in Hle |- *. fold (signed_stake_of signers) in Hle. fold (signed_stake_of (take i signers)).
      assert (Hnn : 0 ≤ signed_stake_of signers).
      { clear -Hst. induction Hst as [|x l Hx Hl IH]; [done|]. cbn [signed_stake_of foldr]. fold (signed_stake_of l). destruct (is_signer x); lia. }
      assert (Hw : (if is_signer s then wrapping_add u128_max acc (si_stake s) else acc) = acc + (if is_signer s then si_stake s else 0)).
      { destruct (is_signer s); [|lia]. unfold wrapping_add. apply Z.mod_small. lia. }
      rewrite Hw in Hi. apply IH in Hi; [|destruct (is_signer s); lia|lia|done]. rewrite Hi. f_equal. lia.
Qed.

Lemma batch_rows_lookup n signers acc i row :
  batch_rows n signers acc !! i = Some row →
  ∃ a, match signers !! i with Some s => row = signer_row s a | None => row = padding_row a end.
Proof.
  revert signers acc i. induction n as [|n IH]; intros [|s signers] acc [|i]; cbn [batch_rows lookup list_lookup]; try done.
  - intros [= <-]. by exists acc.
  - intros Hi. apply IH in Hi. by rewrite lookup_nil in Hi.
  - intros [= <-]. by exists acc.
  - intros Hi. apply IH in Hi. exact Hi.
Qed.

Lemma signed_take_S signers i :
  signed_stake_of (take (S i) signers) = signed_stake_of (take i signers) + match signers !! i with Some s => if is_signer s then si_stake s else 0 | None => 0 end.
Proof.
  revert i. induction signers as [|s signers IH]; intros i.
  - by rewrite !take_nil, lookup_nil.
  - destruct i as [|i]; [simpl; destruct (is_signer s); lia|].
    specialize (IH i). change ((s :: signers) !! S i) with (signers !! i).
    change (signed_stake_of (take (S (S i)) (s :: signers))) with ((if is_signer s then si_stake s else 0) + signed_stake_of (take (S i) signers)).
    change (signed_stake_of (take (S i) (s :: signers))) with ((if is_signer s then si_stake s else 0) + signed_stake_of (take i signers)). lia.
Qed.

Lemma honest_trace_ok signers p :
  Forall (λ s, 0 ≤ si_stake s) signers → signed_stake_of signers ≤ u128_max → bp_signed_stake p = signed_stake_of signers →
  batch_holds p (build_trace signers).
Proof.
  intros Hst Hmax Hp. unfold build_trace. pose proof (batch_length_enough signers) as Hlen. split.
  - intros i cur nxt Hc Hn. pose proof (batch_rows_acc (batch_length signers) signers 0 i cur ltac:(done) ltac:(lia) Hst Hc) as Ac. pose proof (batch_rows_acc (batch_length signers) signers 0 (S i) nxt ltac:(done) ltac:(lia) Hst Hn) as An.
    destruct (batch_rows_lookup _ _ _ _ _ Hc) as (a & Ha). rewrite signed_take_S in An. unfold evaluate_batch. rewrite Ac, An, !Z.add_0_l.
    assert (Hpos : 0 ≤ signed_stake_of (take i signers)).
    { apply (list.Forall_take _ i) in Hst. clear -Hst. induction Hst as [|x l Hx Hl IH]; [done|]. cbn [signed_stake_of foldr]. fold (signed_stake_of l). destruct (is_signer x); lia. }
    destruct (signers !! i) as [s|] eqn:Hi; subst cur.
    + assert (Hs : 0 ≤ si_stake s) by (rewrite list.Forall_forall in Hst; apply Hst; by eapply list_elem_of_lookup_2).
      rewrite from_u128_add by (done || destruct (is_signer s); lia). unfold col, signer_row. cbn [nth COL_IS_SIGNER COL_STAKE].
      destruct (is_signer s); rewrite ?from_u128_one, ?from_u128_zero; repeat apply list.Forall_cons_2; try apply list.Forall_nil_2; ring.
    + rewrite Z.add_0_r. unfold col, padding_row. cbn [replicate app nth COL_IS_SIGNER COL_STAKE]. repeat apply list.Forall_cons_2; try apply list.Forall_nil_2; ring.
  - unfold batch_assertions. rewrite batch_rows_length. destruct (lookup_lt_is_Some_2 (batch_rows (batch_length signers) signers 0) 0) as [r0 L0]; [rewrite batch_rows_length; lia|].
    destruct (lookup_lt_is_Some_2 (batch_rows (batch_length signers) signers 0) (batch_length signers - 1)) as [r1 L1]; [rewrite batch_rows_length; lia|].
    pose proof (batch_rows_acc (batch_length signers) signers 0 0%nat r0 ltac:(done) ltac:(lia) Hst L0) as A0. pose proof (batch_rows_acc (batch_length signers) signers 0 (batch_length signers - 1)%nat r1 ltac:(done) ltac:(lia) Hst L1) as A1.
    rewrite (take_ge signers) in A1 by lia. repeat apply list.Forall_cons_2; try apply list.Forall_nil_2.
    + rewrite (nth_lookup_Some _ _ _ _ L0), A0. simpl. by rewrite from_u128_zero.
    + rewrite (nth_lookup_Some _ _ _ _ L1), A1, Hp. by f_equal.
Qed.

(** The table the prover builds satisfies the circuit: when the stakes of the signers sum up to the claimed signed stake
    without overflow, every constraint holds on every pair of rows and so do the assertions. *)
Theorem honest_batch_holds signers p :
  Forall (λ s, 0 ≤ si_stake s) signers → signed_stake_of signers ≤ u128_max → bp_signed_stake p = signed_stake_of signers →
  batch_holds p (build_trace signers).
Proof. apply honest_trace_ok. Qed.

(** The sum a table computes. *)
Fixpoint weighted (rows : list (list E)) : E :=
  match rows with [] => fzero | r :: rows' => fadd (fmul (col COL_IS_SIGNER r) (col COL_STAKE r)) (weighted rows') end.

Lemma chain_sum rows first :
  (∀ i cur nxt, (first :: rows) !! i = Some cur → (first :: rows) !! S i = Some nxt → Forall (λ x, x = fzero) (evaluate_batch cur nxt)) →
  col COL_ACC (default first (list.last rows)) = fadd (col COL_ACC first) (weighted (take (length rows) (first :: rows))).
Proof.
  revert first. induction rows as [|r rows IH]; intros first Hc.
  - simpl. ring.
  - assert (Hr : col COL_ACC (default r (list.last rows)) = fadd (col COL_ACC r) (weighted (take (length rows) (r :: rows)))).
    { apply IH. intros i cur nxt L1 L2. by apply (Hc (S i)). }
    assert (Hl : default first (list.last (r :: rows)) = default r (list.last rows)).
    { destruct rows as [|q rows]; [done|]. change (list.last (r :: q :: rows)) with (list.last (q :: rows)).
      destruct (list.last (q :: rows)) eqn:He; [done|]. by apply last_None in He. }
    rewrite Hl, Hr. cbn [length take weighted]. specialize (Hc 0%nat first r eq_refl eq_refl). unfold evaluate_batch in Hc.
    apply list.Forall_cons_1 in Hc as [_ Hc]. apply list.Forall_cons_1 in Hc as [Hc _]. apply sub_zero_eq in Hc. rewrite Hc. ring.
Qed.

(** What a satisfying table proves: every signer flag but the last is 0 or 1, and the claimed stake is, in the
    field, the sum of the stakes of the flagged rows. *)
Theorem batch_circuit_sound `{!IntegralDomain E} p first rows :
  batch_holds p (first :: rows) →
  from_u128 (bp_signed_stake p) = weighted (take (length rows) (first :: rows)) ∧
  ∀ i row, (i < length rows)%nat → (first :: rows) !! i = Some row → col COL_IS_SIGNER row = fzero ∨ col COL_IS_SIGNER row = fone.
Proof.
  intros [Hc Ha]. split.
  - pose proof (chain_sum rows first Hc) as Hs. unfold batch_assertions in Ha. apply list.Forall_cons_1 in Ha as [L0 Ha]. apply list.Forall_cons_1 in Ha as [L1 _].
    cbn [nth] in L0. cbn [length] in L1. rewrite Nat.sub_succ, Nat.sub_0_r in L1. rewrite L0 in Hs.
    assert (Hl : nth (length rows) (first :: rows) [] = default first (list.last rows)).
    { destruct rows as [|r rows _] using rev_ind; [done|]. rewrite last_snoc, length_app. cbn [length default]. rewrite Nat.add_1_r. cbn [nth].
      rewrite app_nth2, Nat.sub_diag by lia. done. }
    rewrite Hl, Hs in L1. rewrite <- L1. ring.
  - intros i row Hi Hr. destruct (lookup_lt_is_Some_2 (first :: rows) (S i)) as [nxt Hn]; [simpl; lia|].
    specialize (Hc i row nxt Hr Hn). unfold evaluate_batch in Hc. apply list.Forall_cons_1 in Hc as [Hc _].
    apply mul_zero in Hc as [?|Hc]; [by left|]. right. apply sub_zero_eq in Hc. done.
Qed.

(** Stakes and signatures are not tied to the validator set: for every claimed stake, set root, message and
    commitment there is a table, of one signer, that satisfies the circuit. *)
Theorem batch_accepts_any_stake p c :
  0 ≤ bp_signed_stake p ≤ u128_max →
  batch_holds p (build_trace [mkSigner 0 (bp_signed_stake p) c true]).
Proof.
  intros Hp. apply honest_trace_ok.
  - apply list.Forall_cons_2; [simpl; lia|apply list.Forall_nil_2].
  - cbn [signed_stake_of foldr is_signer si_stake]. lia.
  - cbn [signed_stake_of foldr is_signer si_stake]. lia.
Qed.

(** The commitment stored on other chains leaves out the number of signers. *)
Lemma commitment_ignores_count bytes root m s t n n' :
  compute_stark_commitment bytes (mkBatchInputs root m s t n) = compute_stark_commitment bytes (mkBatchInputs root m s t n').
Proof. done. Qed.

End Batch.

(** ** A concrete instance *)

Section BatchInstance.
Import IntegerField.

#[export] Program Instance Z_from_u128 : FromU128 Z := {| from_u128 x := x |}.
Solve All Obligations with done.

Definition demo_signers : list SignerInput := [mkSigner 0 100 5 true; mkSigner 1 200 6 true; mkSigner 2 150 0 false; mkSigner 3 50 7 true].

Lemma honest_batch_holds_witness : batch_holds (mkBatchInputs 1 2 350 200 3) (build_trace demo_signers).
Proof.
  apply (honest_batch_holds demo_signers (mkBatchInputs 1 2 350 200 3)); [|vm_compute; discriminate|reflexivity].
  unfold demo_signers. repeat apply list.Forall_cons_2; try apply list.Forall_nil_2; simpl; lia.
Defined.

Lemma batch_circuit_sound_witness :
  (350 : Z) = weighted (take 1 [[1; 350; 0; 0; 0; 0; 0]; [0; 0; 0; 0; 0; 0; 350]]).
Proof.
  refine (proj1 (batch_circuit_sound (mkBatchInputs 1 2 350 200 3) [1; 350; 0; 0; 0; 0; 0] [[0; 0; 0; 0; 0; 0; 350]] _)).
  split.
  - intros [|[|i]] cur nxt; simpl; intros H1 H2; try done. injection H1 as <-. injection H2 as <-. repeat apply list.Forall_cons_2; try apply list.Forall_nil_2; reflexivity.
  - repeat apply list.Forall_cons_2; try apply list.Forall_nil_2; reflexivity.
Defined.

Lemma batch_accepts_any_stake_witness : batch_holds (mkBatchInputs 1 2 1000000 1000000 1) (build_trace [mkSigner 0 1000000 99 true]).
Proof. apply (batch_accepts_any_stake (mkBatchInputs 1 2 1000000 1000000 1) 99). vm_compute. split; discriminate. Defined.

End BatchInstance.
