(* ===== verification/L0Hub.v ===== *)
(** * The L0 finality hub

    Models [src/L1/src/l0/config.rs] (stake thresholds), [src/L1/src/l0/proof.rs] (the
    proof and the bytes it is signed and identified by), [src/L1/src/l0/verifier.rs] and
    [src/L1/src/l0/hub.rs] (building proofs of own and external checkpoints).  The signature check,
    SHA3-256, the batch prover and the clock are arguments. *)

From S2P Require Import Prelude Bytes Checkpoint Chains BatchProof.

(** ** Configuration *)

Record RelayBackoff : Type := mkBackoff { initial_ms : Z; max_ms : Z; max_retries : Z }.

Record TargetChainConfig : Type := mkTarget { target_id : list Z; target_enabled : bool; target_backoff : option RelayBackoff }.

Record L0Config : Type := mkL0Config {
  l0_enabled : bool;
  stake_threshold_num : Z;
  stake_threshold_den : Z;
  attestation_interval_slots : Z;
  default_backoff : RelayBackoff;
  targets : list TargetChainConfig;
  archive_proofs : bool;
  archive_capacity : Z
}.

Definition default_l0_config : L0Config := mkL0Config false 2 3 32 (mkBackoff 250 30000 8) [] true 1024.

Definition validate (c : L0Config) : Result () string :=
  if stake_threshold_den c =? 0 then Err "stake_threshold_den must be non-zero"
  else if (stake_threshold_num c =? 0) || (stake_threshold_den c <? stake_threshold_num c)
  then Err "stake_threshold_num must be within (0, stake_threshold_den]"
  else if attestation_interval_slots c =? 0 then Err "attestation_interval_slots must be > 0"
  else if (archive_capacity c =? 0) && archive_proofs c then Err "archive_capacity must be > 0 when archive_proofs is enabled"
  else Ok ().

Definition required_stake (c : L0Config) (total : Z) : Z :=
  let den := Z.max (stake_threshold_den c) 1 in
  saturating_add u128_max (saturating_mul u128_max total (stake_threshold_num c)) (den - 1) / den.

(** ** Proofs *)

Definition L0_PROOF_VERSION : Z := 1.

Inductive PqcSignatureAlgo : Type := MlDsa65.
Definition algo_byte (a : PqcSignatureAlgo) : Z := match a with MlDsa65 => 1 end.

Record L0ProofHeader : Type := mkHeader {
  version : Z;
  external_chain : option ChainId;
  h_epoch : Z;
  h_slot : Z;
  previous_proof_hash : Hash;
  h_state_root : Hash;
  h_dag_root : Hash;
  h_parent_block_hash : Hash;
  h_chain_work : Z;
  validator_set_root : Hash;
  total_stake : Z;
  h_stake_threshold : Z;
  emitted_at_ms : Z;
  stark_commitment : Hash;
  checkpoint_hash : Hash
}.

Definition set_stark_commitment (c : Hash) (h : L0ProofHeader) : L0ProofHeader :=
  mkHeader (version h) (external_chain h) (h_epoch h) (h_slot h) (previous_proof_hash h) (h_state_root h) (h_dag_root h) (h_parent_block_hash h)
    (h_chain_work h) (validator_set_root h) (total_stake h) (h_stake_threshold h) (emitted_at_ms h) c (checkpoint_hash h).

Record ValidatorRecord : Type := mkRecord { vr_address : Address; vr_public_key : list Z; vr_stake : Z }.

Record ProofSignature : Type := mkProofSig { validator_index : Z; algo : PqcSignatureAlgo; ps_signature : list Z }.

Record L0FinalityProof : Type := mkL0Proof {
  header : L0ProofHeader;
  validators : list ValidatorRecord;
  signatures : list ProofSignature;
  stark_proof : option StarkBatchProof
}.

Record ValidatorSetSnapshot : Type := mkSnapshot { root : Hash; snap_validators : list ValidatorRecord }.

Definition sum_stakes (vs : list ValidatorRecord) : Z := foldl (λ acc v, saturating_add u128_max acc (vr_stake v)) 0 vs.

Definition snapshot_stake (s : ValidatorSetSnapshot) : Z := sum_stakes (snap_validators s).

(** The position of the first element that satisfies a test. *)
Fixpoint position {A} (p : A → bool) (l : list A) : option nat :=
  match l with [] => None | x :: l' => if p x then Some O else S <$> position p l' end.

Definition position_of (s : ValidatorSetSnapshot) (a : Address) : option nat := position (λ v, vr_address v =? a) (snap_validators s).

Definition record_bytes (v : ValidatorRecord) : list Z :=
  hash_bytes (vr_address v) ++ be_bytes 4 (Z.of_nat (length (vr_public_key v))) ++ vr_public_key v ++ be_bytes 16 (vr_stake v).

Record VerificationReport : Type := mkReport {
  r_signed_stake : Z;
  r_stake_threshold : Z;
  valid_signatures : nat;
  invalid_signatures : nat
}.

Definition is_final (r : VerificationReport) : bool :=
  (invalid_signatures r =? 0)%nat && (r_stake_threshold r <=? r_signed_stake r).

Section Proofs.
Context (sha3 : list Z → Hash) (verify_sig : list Z → list Z → list Z → bool).

Definition compute_root (records : list ValidatorRecord) : Hash := sha3 (concat (map record_bytes records)).

Definition digest_bytes (h : L0ProofHeader) (vs : list ValidatorRecord) : list Z :=
  be_bytes 2 (version h) ++
  match external_chain h with Some c => 1 :: ascii_bytes (as_str c) | None => [0] end ++
  be_bytes 8 (h_epoch h) ++ be_bytes 8 (h_slot h) ++ hash_bytes (previous_proof_hash h) ++ hash_bytes (h_state_root h) ++
  hash_bytes (h_dag_root h) ++ hash_bytes (h_parent_block_hash h) ++ be_bytes 16 (h_chain_work h) ++ hash_bytes (validator_set_root h) ++
  be_bytes 16 (total_stake h) ++ be_bytes 16 (h_stake_threshold h) ++ be_bytes 8 (emitted_at_ms h) ++ hash_bytes (checkpoint_hash h) ++
  concat (map record_bytes vs).

Definition signing_digest (p : L0FinalityProof) : Hash := sha3 (digest_bytes (header p) (validators p)).

Definition sig_bytes (s : ProofSignature) : list Z :=
  be_bytes 4 (validator_index s) ++ [algo_byte (algo s)] ++ be_bytes 4 (Z.of_nat (length (ps_signature s))) ++ ps_signature s.

Definition proof_hash (p : L0FinalityProof) : Hash :=
  sha3 (hash_bytes (signing_digest p) ++ concat (map sig_bytes (signatures p)) ++ hash_bytes (stark_commitment (header p))).

Definition signed_message (p : L0FinalityProof) : list Z :=
  if match external_chain (header p) with None => negb (checkpoint_hash (header p) =? 0) | Some _ => false end
  then with_domain DOMAIN_CHECKPOINT (hash_bytes (checkpoint_hash (header p)))
  else hash_bytes (signing_digest p).

Definition validator_at (vs : list ValidatorRecord) (s : ProofSignature) : option ValidatorRecord := vs !! Z.to_nat (validator_index s).

Definition signed_stake (p : L0FinalityProof) : Z := sum_stakes (omap (validator_at (validators p)) (signatures p)).

Definition meets_threshold (p : L0FinalityProof) : bool := h_stake_threshold (header p) <=? signed_stake p.

(** ** The external verifier *)

Definition check_one (p : L0FinalityProof) (message : list Z) (r : VerificationReport) (s : ProofSignature) : VerificationReport :=
  match validator_at (validators p) s with
  | None => mkReport (r_signed_stake r) (r_stake_threshold r) (valid_signatures r) (S (invalid_signatures r))
  | Some v =>
      if verify_sig (vr_public_key v) message (ps_signature s)
      then mkReport (saturating_add u128_max (r_signed_stake r) (vr_stake v)) (r_stake_threshold r) (S (valid_signatures r)) (invalid_signatures r)
      else mkReport (r_signed_stake r) (r_stake_threshold r) (valid_signatures r) (S (invalid_signatures r))
  end.

Definition verify (p : L0FinalityProof) (s : ValidatorSetSnapshot) : Result VerificationReport L0Error :=
  if negb (version (header p) =? L0_PROOF_VERSION) then Err (UnsupportedVersion (version (header p)))
  else if negb (validator_set_root (header p) =? root s) then Err (UnknownValidatorSet "root mismatch")
  else if negb (length (validators p) =? length (snap_validators s))%nat then Err (UnknownValidatorSet "validator set length mismatch")
  else if negb (total_stake (header p) =? snapshot_stake s) then Err (InvalidCheckpoint (Text "total_stake mismatch with snapshot"))
  else Ok (foldl (check_one p (signed_message p)) (mkReport 0 (h_stake_threshold (header p)) 0 0) (signatures p)).

(** ** The hub *)

Record SignatureContribution : Type := mkContribution { c_validator : Address; c_algo : PqcSignatureAlgo; c_signature : list Z }.

Record EquivocationTracker : Type := mkTracker {
  signed_blocks : gmap Hash (gmap string Hash);
  offenders : list Hash
}.

(** Whether this is an equivocation. *)
Definition record_block (v : Hash) (key : string) (block : Hash) (t : EquivocationTracker) : bool * EquivocationTracker :=
  let entry := default ∅ (signed_blocks t !! v) in
  match entry !! key with
  | Some existing =>
      if existing =? block then (false, mkTracker (<[v := entry]> (signed_blocks t)) (offenders t))
      else (true, mkTracker (<[v := entry]> (signed_blocks t))
                    (if bool_decide (v ∈ offenders t) then offenders t else offenders t ++ [v]))
  | None => (false, mkTracker (<[v := <[key := block]> entry]> (signed_blocks t)) (offenders t))
  end.

Record HubMetrics : Type := mkMetrics { proofs_produced : Z; proofs_failed : Z; archived_proofs : Z }.

Record FinalityHub : Type := mkHub {
  config : L0Config;
  metrics : HubMetrics;
  last_proof_hash : Hash;
  archive : list L0FinalityProof;
  equivocations : EquivocationTracker;
  last_block_by_chain : gmap string Hash
}.

Definition new_hub (c : L0Config) : Result FinalityHub L0Error :=
  match validate c with
  | Err e => Err (Config e)
  | Ok _ => Ok (mkHub c (mkMetrics 0 0 0) 0 [] (mkTracker ∅ []) ∅)
  end.

Definition update_config (c : L0Config) : M FinalityHub L0Error () := λ h,
  match validate c with
  | Err e => (Err (Config e), h)
  | Ok _ => (Ok (), mkHub c (metrics h) (last_proof_hash h) (archive h) (equivocations h) (last_block_by_chain h))
  end.

Definition failed (h : FinalityHub) : FinalityHub :=
  mkHub (config h) (mkMetrics (proofs_produced (metrics h)) (saturating_add u64_max (proofs_failed (metrics h)) 1) (archived_proofs (metrics h)))
    (last_proof_hash h) (archive h) (equivocations h) (last_block_by_chain h).

(** Remember a finished proof. *)
Definition finish (p : L0FinalityProof) (h : FinalityHub) : FinalityHub :=
  let a := if archive_proofs (config h)
           then (if archive_capacity (config h) <=? Z.of_nat (length (archive h)) then tail (archive h) else archive h) ++ [p]
           else archive h in
  mkHub (config h)
    (mkMetrics (saturating_add u64_max (proofs_produced (metrics h)) 1) (proofs_failed (metrics h))
       (if archive_proofs (config h) then Z.of_nat (length a) else archived_proofs (metrics h)))
    (proof_hash p) a (equivocations h) (last_block_by_chain h).

Definition as_u32 (i : nat) : Z := Z.of_nat i mod 4294967296.

Definition already_signed (index : nat) (sigs : list ProofSignature) : bool :=
  existsb (λ s, (Z.to_nat (validator_index s) =? index)%nat) sigs.

(** What a loop over contributions has collected. *)
Record Tally : Type := mkTally { t_sigs : list ProofSignature; t_inputs : list SignerInput; t_stake : Z }.

Definition signer_entry (i : nat) (v : ValidatorRecord) : SignerInput := mkSigner (as_u32 i) (vr_stake v) 0 false.

Definition collect (s : ValidatorSetSnapshot) (message : list Z) (t : Tally) (c : SignatureContribution) : Tally :=
  match position_of s (c_validator c) with
  | None => t
  | Some index =>
      match snap_validators s !! index with
      | None => t
      | Some v =>
          if negb (verify_sig (vr_public_key v) message (c_signature c)) then t
          else if already_signed index (t_sigs t) then t
          else
            mkTally (t_sigs t ++ [mkProofSig (as_u32 index) (c_algo c) (c_signature c)])
              (alter (λ si, mkSigner (si_index si) (si_stake si) (build_commitment sha3 (vr_public_key v) message (c_signature c)) true) index (t_inputs t))
              (saturating_add u128_max (t_stake t) (vr_stake v))
      end
  end.

Context (prove_batch : list SignerInput → BatchPublicInputs → Result StarkBatchProof string).

(** A batch proof that cannot be made is left out. *)
Definition attach_stark (inputs : list SignerInput) (pub : BatchPublicInputs) (p : L0FinalityProof) : L0FinalityProof :=
  match prove_batch inputs pub with
  | Ok s => mkL0Proof (set_stark_commitment (commitment s) (header p)) (validators p) (signatures p) (Some s)
  | Err _ => p
  end.

Definition build_proof (c : Checkpoint) (s : ValidatorSetSnapshot) (contributions : list SignatureContribution) (now : Z)
  : M FinalityHub L0Error L0FinalityProof := λ h,
  if negb (l0_enabled (config h)) then (Err (Config "L0 hub is disabled"), h)
  else if (Checkpoint.slot c =? 0) && (Checkpoint.epoch c =? 0) then (Err (InvalidCheckpoint (Text "genesis checkpoint cannot be promoted")), h)
  else if match snap_validators s with [] => true | _ => false end then (Err (UnknownValidatorSet "snapshot has no validators"), h)
  else
    let total := snapshot_stake s in
    let required := required_stake (config h) total in
    let hd := mkHeader L0_PROOF_VERSION None (Checkpoint.epoch c) (Checkpoint.slot c) (last_proof_hash h) (Checkpoint.state_root c)
                (Checkpoint.dag_root c) (Checkpoint.previous_checkpoint c) 0 (root s) total required now 0 (Checkpoint.hash sha3 c) in
    let message := Checkpoint.signing_data sha3 c in
    let t := foldl (collect s message) (mkTally [] (imap signer_entry (snap_validators s)) 0) contributions in
    if t_stake t <? required then (Err (InsufficientStake (t_stake t) required), failed h)
    else
      let pub := mkBatchInputs (root s) (Checkpoint.hash sha3 c) (t_stake t) required (as_u32 (length (t_sigs t))) in
      let p := attach_stark (t_inputs t) pub (mkL0Proof hd (snap_validators s) (t_sigs t) None) in
      (Ok p, finish p h).

Definition latest (h : FinalityHub) : option L0FinalityProof := list.last (archive h).
Definition lookup_proof (x : Hash) (h : FinalityHub) : option L0FinalityProof := List.find (λ p, proof_hash p =? x) (reverse (archive h)).

(** ** External checkpoints *)

Definition epoch_key (c : ExternalCheckpoint) : string := as_str (chain_id c) +:+ ":" +:+ pretty (block_number c).

Record ExtTally : Type := mkExtTally { e_sigs : list ProofSignature; e_stake : Z; e_tracker : EquivocationTracker; e_done : bool }.

(** One contribution; once the threshold is met the loop is left. *)
Definition collect_external (s : ValidatorSetSnapshot) (message : list Z) (key : string) (block : Hash) (required : Z) (t : ExtTally)
    (c : SignatureContribution) : ExtTally :=
  if e_done t then t
  else
    match position_of s (c_validator c) with
    | None => t
    | Some index =>
        match snap_validators s !! index with
        | None => t
        | Some v =>
            if bool_decide (c_validator c ∈ offenders (e_tracker t)) then t
            else if negb (verify_sig (vr_public_key v) message (c_signature c)) then t
            else if already_signed index (e_sigs t) then t
            else
              let '(equivocates, tracker) := record_block (c_validator c) key block (e_tracker t) in
              if equivocates then mkExtTally (e_sigs t) (e_stake t) tracker false
              else
                let stake := saturating_add u128_max (e_stake t) (vr_stake v) in
                mkExtTally (e_sigs t ++ [mkProofSig (as_u32 index) (c_algo c) (c_signature c)]) stake tracker (required <=? stake)
        end
    end.

Definition ext_signer_input (vs : list ValidatorRecord) (message : list Z) (sg : ProofSignature) : option SignerInput :=
  v ← validator_at vs sg;
  Some (mkSigner (validator_index sg) (vr_stake v) (build_commitment sha3 (vr_public_key v) message (ps_signature sg)) true).

Definition set_tracker (t : EquivocationTracker) (h : FinalityHub) : FinalityHub :=
  mkHub (config h) (metrics h) (last_proof_hash h) (archive h) t (last_block_by_chain h).

Definition set_chain_head (k : string) (b : Hash) (h : FinalityHub) : FinalityHub :=
  mkHub (config h) (metrics h) (last_proof_hash h) (archive h) (equivocations h) (<[k := b]> (last_block_by_chain h)).

(** The previous proof of the archive, if it is of the same chain and has no less work. *)
Definition work_not_advanced (h : FinalityHub) (c : ExternalCheckpoint) : option Z :=
  match list.last (archive h) with
  | Some prev =>
      if bool_decide (external_chain (header prev) = Some (chain_id c)) && (chain_work c <=? h_chain_work (header prev))
      then Some (h_chain_work (header prev)) else None
  | None => None
  end.

Definition build_external_proof (c : ExternalCheckpoint) (s : ValidatorSetSnapshot) (contributions : list SignatureContribution)
    (v : VerificationResult) (now : Z) : M FinalityHub L0Error L0FinalityProof := λ h,
  if negb (vr_valid v) then (Err (InvalidCheckpoint (default (Text "Invalid external checkpoint") (vr_reason v))), h)
  else if match snap_validators s with [] => true | _ => false end then (Err (UnknownValidatorSet "snapshot has no validators"), h)
  else
    let total := snapshot_stake s in
    let required := required_stake (config h) total in
    let chain_key := as_str (chain_id c) in
    let broken := match last_block_by_chain h !! chain_key with
    | Some last => if negb (parent_block_hash c =? last) then Some last else None
    | None => None
    end in
    match broken with
    | Some last => (Err (InvalidCheckpoint (BrokenParent last (parent_block_hash c))), h)
    | None =>
    match work_not_advanced h c with
    | Some w => (Err (InvalidCheckpoint (WorkNotAdvanced (chain_work c) w)), h)
    | None =>
        let hd := mkHeader L0_PROOF_VERSION (Some (chain_id c)) (block_number c) 0 (last_proof_hash h) (ext_state_root c) (block_hash c)
                    (parent_block_hash c) (chain_work c) (root s) total required now 0 0 in
        let message := hash_bytes (sha3 (digest_bytes hd (snap_validators s))) in
        let t := foldl (collect_external s message (epoch_key c) (block_hash c) required) (mkExtTally [] 0 (equivocations h) false) contributions in
        let h1 := set_tracker (e_tracker t) h in
        if e_stake t <? required then (Err (InsufficientStake (e_stake t) required), failed h1)
        else
          let inputs := omap (ext_signer_input (snap_validators s) message) (e_sigs t) in
          let pub := mkBatchInputs (root s) (sha3 (digest_bytes hd (snap_validators s))) (e_stake t) required (as_u32 (length inputs)) in
          let p := attach_stark inputs pub (mkL0Proof hd (snap_validators s) (e_sigs t) None) in
          (Ok p, finish p (set_chain_head chain_key (block_hash c) h1))
    end end.

End Proofs.

(** ** Thresholds *)

(** Without saturation the threshold is the fraction of the total stake, rounded up, and the configuration checks keep it
    between 1 and the total; but the product saturates: with two thirds and all of the
    128-bit range as total stake, one third is enough. *)
Theorem required_stake_bounds c total :
  validate c = Ok () → 0 < stake_threshold_num c → 0 < stake_threshold_den c → 0 < total ≤ u128_max →
  (total * stake_threshold_num c + stake_threshold_den c - 1 ≤ u128_max →
   total * stake_threshold_num c ≤ required_stake c total * stake_threshold_den c < total * stake_threshold_num c + stake_threshold_den c ∧
   0 < required_stake c total ≤ total) ∧
  required_stake default_l0_config u128_max = u128_max / 3.
Proof.
  intros Hv Hnum Hden Ht. split; [|vm_compute; reflexivity]. intros Hmax. unfold required_stake, saturating_add, saturating_mul.
  rewrite (Z.max_l (stake_threshold_den c) 1) by lia. rewrite (Z.min_r u128_max (total * _)) by nia. rewrite Z.min_r by lia.
  set (n := stake_threshold_num c) in *. set (d := stake_threshold_den c) in *.
  assert (Hnd : n ≤ d).
  { unfold validate in Hv. fold d n in Hv. destruct (d =? 0); [done|]. destruct (Z.ltb_spec d n); [|lia]. by rewrite orb_true_r in Hv. }
  pose proof (Z.div_mod (total * n + (d - 1)) d ltac:(lia)) as Hdm. pose proof (Z.mod_pos_bound (total * n + (d - 1)) d ltac:(lia)) as Hm.
  set (q := (total * n + (d - 1)) / d) in *. split; [lia|]. split; nia.
Qed.

Lemma required_stake_bounds_witness : 0 < required_stake default_l0_config 100 ≤ 100.
Proof.
  refine (proj2 (proj1 (required_stake_bounds default_l0_config 100 eq_refl _ _ _) _)); vm_compute; try split; discriminate || reflexivity.
Defined.

(** ** Sums of stakes *)

Lemma sum_stakes_acc vs acc :
  0 ≤ acc ≤ u128_max → Forall (λ v, 0 ≤ vr_stake v) vs →
  foldl (λ acc v, saturating_add u128_max acc (vr_stake v)) acc vs = Z.min u128_max (acc + foldr (λ v a, vr_stake v + a) 0 vs).
Proof.
  intros Ha Hs. revert acc Ha. induction Hs as [|v vs Hv Hs IH]; intros acc Ha; cbn [foldl foldr]; [lia|].
  rewrite IH by (unfold saturating_add; lia). unfold saturating_add.
  assert (0 ≤ foldr (λ v a, vr_stake v + a) 0 vs) by (clear -Hs; induction Hs; simpl; lia). lia.
Qed.

Definition total_of (vs : list ValidatorRecord) : Z := foldr (λ v a, vr_stake v + a) 0 vs.

Lemma sum_stakes_min vs : Forall (λ v, 0 ≤ vr_stake v) vs → sum_stakes vs = Z.min u128_max (total_of vs).
Proof. intros Hs. unfold sum_stakes. rewrite sum_stakes_acc by done. f_equal. Qed.

Lemma sum_stakes_snoc vs v : sum_stakes (vs ++ [v]) = saturating_add u128_max (sum_stakes vs) (vr_stake v).
Proof. unfold sum_stakes. by rewrite foldl_app. Qed.

Lemma position_spec {A} (p : A → bool) l i : position p l = Some i → ∃ x, l !! i = Some x ∧ p x = true ∧ ∀ j y, (j < i)%nat → l !! j = Some y → p y = false.
Proof.
  revert i. induction l as [|x l IH]; intros i; cbn [position]; [done|]. destruct (p x) eqn:Hx.
  - intros [= <-]. exists x. split_and!; [done|done|lia].
  - intros (j & Hj & ->)%fmap_Some. destruct (IH j Hj) as (y & Hy & Hpy & Hb). exists y. split_and!; [done|done|].
    intros [|k] z Hk Hz; [by injection Hz as <-|]. apply (Hb k z); [lia|done].
Qed.

Section HubProperties.
Context (sha3 : list Z → Hash) (verify_sig : list Z → list Z → list Z → bool).
Context (prove_batch : list SignerInput → BatchPublicInputs → Result StarkBatchProof string).

Abbreviation build_proof := (build_proof sha3 verify_sig prove_batch).
Abbreviation build_external_proof := (build_external_proof sha3 verify_sig prove_batch).
Abbreviation verify := (verify sha3 verify_sig).
Abbreviation proof_hash := (proof_hash sha3).

(** Signatures of different validators, all valid, with the given stake. *)
Record good_sigs (vs : list ValidatorRecord) (message : list Z) (sigs : list ProofSignature) (stake : Z) : Prop := {
  gs_nodup : base.NoDup (map validator_index sigs);
  gs_valid : Forall (λ s, ∃ v, validator_at vs s = Some v ∧ 0 ≤ validator_index s ∧ verify_sig (vr_public_key v) message (ps_signature s) = true) sigs;
  gs_stake : stake = sum_stakes (omap (validator_at vs) sigs)
}.

Lemma good_sigs_nil vs message : good_sigs vs message [] 0.
Proof. split; [apply base.NoDup_nil_2|apply list.Forall_nil_2|done]. Qed.

Lemma as_u32_small i : Z.of_nat i < 4294967296 → as_u32 i = Z.of_nat i.
Proof. intros Hi. unfold as_u32. apply Z.mod_small. lia. Qed.

Lemma good_sigs_snoc vs message sigs stake index v a sg :
  good_sigs vs message sigs stake → Z.of_nat (length vs) < 4294967296 → vs !! index = Some v →
  verify_sig (vr_public_key v) message sg = true → already_signed index sigs = false →
  good_sigs vs message (sigs ++ [mkProofSig (as_u32 index) a sg]) (saturating_add u128_max stake (vr_stake v)).
Proof.
  intros [Hnd Hv Hst] Hlen Hi Hver Hal. assert (Hlt : (index < length vs)%nat) by by eapply lookup_lt_Some.
  rewrite as_u32_small by lia. assert (Hat : validator_at vs (mkProofSig (Z.of_nat index) a sg) = Some v) by (unfold validator_at; simpl; by rewrite Nat2Z.id).
  split.
  - rewrite map_app. apply list.NoDup_app. split; [done|]. split; [|apply NoDup_singleton]. intros x Hx Hin. cbn [map] in Hin. apply list_elem_of_singleton in Hin. simpl in Hin. subst x.
    apply list_elem_of_fmap in Hx as (s & Hs & Hin). apply not_true_iff_false in Hal. apply Hal, existsb_exists. exists s.
    split; [by apply list_elem_of_In|]. rewrite <- Hs, Nat2Z.id. apply Nat.eqb_refl.
  - apply list.Forall_app. split; [done|]. apply list.Forall_singleton. exists v. split_and!; [done|simpl; lia|done].
  - rewrite omap_app. cbn [omap list_omap]. rewrite Hat, sum_stakes_snoc, Hst. done.
Qed.

Lemma collect_good s message t c :
  Z.of_nat (length (snap_validators s)) < 4294967296 → good_sigs (snap_validators s) message (t_sigs t) (t_stake t) →
  let t' := collect sha3 verify_sig s message t c in good_sigs (snap_validators s) message (t_sigs t') (t_stake t').
Proof.
  intros Hlen Hg. unfold collect. destruct (position_of s (c_validator c)) as [index|]; [|done]. destruct (snap_validators s !! index) as [v|] eqn:Hi; [|done].
  destruct (verify_sig _ _ _) eqn:Hv; [|done]. cbn [negb]. destruct (already_signed index (t_sigs t)) eqn:Ha; [done|]. cbn [t_sigs t_stake]. by apply good_sigs_snoc.
Qed.

Lemma collect_all_good s message cs t :
  Z.of_nat (length (snap_validators s)) < 4294967296 → good_sigs (snap_validators s) message (t_sigs t) (t_stake t) →
  let t' := foldl (collect sha3 verify_sig s message) t cs in good_sigs (snap_validators s) message (t_sigs t') (t_stake t').
Proof. revert t. induction cs as [|c cs IH]; intros t Hlen Hg; [done|]. cbn [foldl]. apply IH; [done|]. by apply collect_good. Qed.

Lemma collect_external_good s message key block required t c :
  Z.of_nat (length (snap_validators s)) < 4294967296 → good_sigs (snap_validators s) message (e_sigs t) (e_stake t) →
  let t' := collect_external verify_sig s message key block required t c in good_sigs (snap_validators s) message (e_sigs t') (e_stake t').
Proof.
  intros Hlen Hg. unfold collect_external. destruct (e_done t); [done|]. destruct (position_of s (c_validator c)) as [index|]; [|done].
  destruct (snap_validators s !! index) as [v|] eqn:Hi; [|done]. destruct (bool_decide _); [done|]. destruct (verify_sig _ _ _) eqn:Hv; [|done]. cbn [negb].
  destruct (already_signed index (e_sigs t)) eqn:Ha; [done|]. destruct (record_block _ _ _ _) as [[] tracker]; [done|]. cbn [e_sigs e_stake]. by apply good_sigs_snoc.
Qed.

Lemma collect_external_all_good s message key block required cs t :
  Z.of_nat (length (snap_validators s)) < 4294967296 → good_sigs (snap_validators s) message (e_sigs t) (e_stake t) →
  let t' := foldl (collect_external verify_sig s message key block required) t cs in good_sigs (snap_validators s) message (e_sigs t') (e_stake t').
Proof. revert t. induction cs as [|c cs IH]; intros t Hlen Hg; [done|]. cbn [foldl]. apply IH; [done|]. by apply collect_external_good. Qed.

(** A proof made of good signatures. *)
Definition well_signed (p : L0FinalityProof) (s : ValidatorSetSnapshot) : Prop :=
  version (header p) = L0_PROOF_VERSION ∧ validators p = snap_validators s ∧ validator_set_root (header p) = root s ∧
  total_stake (header p) = snapshot_stake s ∧
  good_sigs (validators p) (signed_message sha3 p) (signatures p) (signed_stake p) ∧ h_stake_threshold (header p) ≤ signed_stake p.

Lemma check_all_good p r sigs :
  Forall (λ s, ∃ v, validator_at (validators p) s = Some v ∧ 0 ≤ validator_index s ∧ verify_sig (vr_public_key v) (signed_message sha3 p) (ps_signature s) = true) sigs →
  foldl (check_one verify_sig p (signed_message sha3 p)) r sigs =
  mkReport (foldl (λ acc v, saturating_add u128_max acc (vr_stake v)) (r_signed_stake r) (omap (validator_at (validators p)) sigs))
    (r_stake_threshold r) (valid_signatures r + length sigs) (invalid_signatures r).
Proof.
  intros Hall. revert r. induction Hall as [|s sigs (v & Hat & _ & Hver) Hall IH]; intros r; [destruct r; simpl; f_equal; lia|].
  cbn [foldl]. rewrite IH. unfold check_one. rewrite Hat, Hver. simpl. rewrite Hat. simpl. f_equal. lia.
Qed.

Lemma well_signed_final p s : well_signed p s → ∃ r, verify p s = Ok r ∧ is_final r = true ∧ r_signed_stake r = signed_stake p ∧ valid_signatures r = length (signatures p).
Proof.
  intros (Hver & Hvs & Hroot & Htot & [Hnd Hv Hst] & Hth). unfold L0Hub.verify. rewrite Hver, Hroot, Hvs, Htot, !Z.eqb_refl, Nat.eqb_refl. cbn [negb].
  eexists. split; [reflexivity|]. rewrite check_all_good by done. unfold is_final. simpl. split; [|done].
  change (foldl _ 0 (omap (validator_at (validators p)) (signatures p))) with (signed_stake p). by apply Z.leb_le.
Qed.

Lemma attach_stark_keeps inputs pub p :
  let p' := attach_stark prove_batch inputs pub p in
  validators p' = validators p ∧ signatures p' = signatures p ∧ (∃ c, header p' = set_stark_commitment c (header p)) ∧
  signed_message sha3 p' = signed_message sha3 p ∧ signed_stake p' = signed_stake p ∧ signing_digest sha3 p' = signing_digest sha3 p.
Proof.
  unfold attach_stark. destruct (prove_batch inputs pub) as [st|e]; cbn [validators signatures header].
  - split_and!; try done. by exists (commitment st).
  - split_and!; try done. exists (stark_commitment (header p)). by destruct (header p).
Qed.

Lemma attach_stark_signed inputs pub p s : well_signed p s → well_signed (attach_stark prove_batch inputs pub p) s.
Proof.
  destruct (attach_stark_keeps inputs pub p) as (Hv & Hs & (c & Hh) & Hm & Hst & _). unfold well_signed. rewrite Hh, Hv, Hs, Hm, Hst. by destruct (header p).
Qed.

Lemma build_proof_signed c s cs now h p h' :
  build_proof c s cs now h = (Ok p, h') → Checkpoint.hash sha3 c ≠ 0 → Z.of_nat (length (snap_validators s)) < 4294967296 →
  well_signed p s ∧ h' = finish sha3 p h ∧ previous_proof_hash (header p) = last_proof_hash h ∧ external_chain (header p) = None.
Proof.
  unfold L0Hub.build_proof. destruct (negb _); [done|]. destruct (_ && _); [done|]. destruct (match snap_validators s with [] => true | _ => false end); [done|].
  set (hd := mkHeader _ _ _ _ _ _ _ _ _ _ _ _ _ _ _). set (t := foldl _ _ cs). destruct (Z.ltb_spec (t_stake t) (required_stake (config h) (snapshot_stake s))) as [|Hle]; [done|].
  set (pub := mkBatchInputs _ _ _ _ _). set (p0 := mkL0Proof hd (snap_validators s) (t_sigs t) None). intros [= <- <-] Hne Hlen.
  assert (Hg : good_sigs (snap_validators s) (Checkpoint.signing_data sha3 c) (t_sigs t) (t_stake t)) by (apply collect_all_good; [done|apply good_sigs_nil]).
  assert (Hst : signed_stake p0 = t_stake t) by (rewrite (gs_stake _ _ _ _ Hg); done).
  assert (Hm : signed_message sha3 p0 = Checkpoint.signing_data sha3 c).
  { unfold signed_message, p0, hd. cbn [header external_chain checkpoint_hash]. destruct (Z.eqb_spec (Checkpoint.hash sha3 c) 0); [done|]. done. }
  destruct (attach_stark_keeps (t_inputs t) pub p0) as (_ & _ & (x & Hh) & _). split; [|by rewrite Hh].
  apply attach_stark_signed. unfold well_signed. rewrite Hm, Hst. split_and!; done.
Qed.

Lemma build_external_signed c s cs v now h p h' :
  build_external_proof c s cs v now h = (Ok p, h') → Z.of_nat (length (snap_validators s)) < 4294967296 →
  well_signed p s ∧ previous_proof_hash (header p) = last_proof_hash h ∧ external_chain (header p) = Some (chain_id c) ∧
  h_epoch (header p) = block_number c ∧ h_dag_root (header p) = block_hash c ∧ h_state_root (header p) = ext_state_root c ∧
  ∃ message required, let t := foldl (collect_external verify_sig s message (epoch_key c) (block_hash c) required) (mkExtTally [] 0 (equivocations h) false) cs in
    signatures p = e_sigs t ∧ h' = finish sha3 p (set_chain_head (as_str (chain_id c)) (block_hash c) (set_tracker (e_tracker t) h)).
Proof.
  unfold L0Hub.build_external_proof. destruct (negb _); [done|]. destruct (match snap_validators s with [] => true | _ => false end); [done|].
  destruct (match last_block_by_chain h !! _ with Some _ => _ | None => _ end); [done|]. destruct (work_not_advanced h c); [done|].
  set (hd := mkHeader _ _ _ _ _ _ _ _ _ _ _ _ _ _ _). set (message := hash_bytes _). set (required := required_stake _ _). set (t := foldl _ _ cs).
  destruct (Z.ltb_spec (e_stake t) required) as [|Hle]; [done|].
  set (pub := mkBatchInputs _ _ _ _ _). set (p0 := mkL0Proof hd (snap_validators s) (e_sigs t) None). intros [= <- <-] Hlen.
  assert (Hg : good_sigs (snap_validators s) message (e_sigs t) (e_stake t)) by (apply collect_external_all_good; [done|apply good_sigs_nil]).
  assert (Hst : signed_stake p0 = e_stake t) by (rewrite (gs_stake _ _ _ _ Hg); done).
  destruct (attach_stark_keeps (omap (ext_signer_input sha3 (snap_validators s) message) (e_sigs t)) pub p0) as (_ & Hs & (x & Hh) & _). rewrite Hh, Hs.
  split; [|split_and!; try done; by exists message, required].
  apply attach_stark_signed. unfold well_signed. rewrite Hst. split_and!; done.
Qed.

(** C16. Every proof the hub builds passes the external verifier with the snapshot it was built for: the signatures it
    carries are by different validators of the snapshot, all valid on the message the
    verifier reconstructs, and their stake reaches the threshold.  Snapshots have fewer than
    2^32 validators and the checkpoint hash is not zero. *)
Theorem built_proofs_verify s cs now h p h' :
  Z.of_nat (length (snap_validators s)) < 4294967296 →
  (∃ c, build_proof c s cs now h = (Ok p, h') ∧ Checkpoint.hash sha3 c ≠ 0) ∨ (∃ c v, build_external_proof c s cs v now h = (Ok p, h')) →
  base.NoDup (map validator_index (signatures p)) ∧ h_stake_threshold (header p) = required_stake (config h) (snapshot_stake s) ∧
  ∃ r, verify p s = Ok r ∧ is_final r = true ∧ r_signed_stake r = signed_stake p ∧ valid_signatures r = length (signatures p).
Proof.
  intros Hlen Hb. assert (Hw : well_signed p s ∧ h_stake_threshold (header p) = required_stake (config h) (snapshot_stake s)).
  { destruct Hb as [(c & Hb & Hne)|(c & v & Hb)].
    - split; [by apply (build_proof_signed _ _ _ _ _ _ _ Hb)|]. revert Hb. unfold L0Hub.build_proof.
      destruct (negb _); [done|]. destruct (_ && _); [done|]. destruct (match snap_validators s with [] => true | _ => false end); [done|].
      destruct (_ <? _); [done|]. match goal with |- (Ok (attach_stark _ ?i ?b ?q), _) = _ → _ => destruct (attach_stark_keeps i b q) as (_ & _ & (x & Hh) & _) end.
      intros [= <- _]. by rewrite Hh.
    - split; [by apply (build_external_signed _ _ _ _ _ _ _ _ Hb)|]. revert Hb. unfold L0Hub.build_external_proof.
      destruct (negb _); [done|]. destruct (match snap_validators s with [] => true | _ => false end); [done|].
      destruct (match last_block_by_chain h !! _ with Some _ => _ | None => _ end); [done|]. destruct (work_not_advanced h c); [done|].
      destruct (_ <? _); [done|]. match goal with |- (Ok (attach_stark _ ?i ?b ?q), _) = _ → _ => destruct (attach_stark_keeps i b q) as (_ & _ & (x & Hh) & _) end.
      intros [= <- _]. by rewrite Hh. }
  destruct Hw as [Hw Hth]. split; [|split; [done|by apply well_signed_final]]. apply Hw.
Qed.

End HubProperties.

Section HubSafety.
Context (sha3 : list Z → Hash) (verify_sig : list Z → list Z → list Z → bool).
Context (prove_batch : list SignerInput → BatchPublicInputs → Result StarkBatchProof string).

Abbreviation build_proof := (build_proof sha3 verify_sig prove_batch).
Abbreviation build_external_proof := (build_external_proof sha3 verify_sig prove_batch).
Abbreviation verify := (verify sha3 verify_sig).
Abbreviation proof_hash := (proof_hash sha3).

(** The verifier takes the keys out of the proof: for any snapshot with a validator, and any state, slot and
    epoch, whoever has a single key of their own, in no relation to the snapshot,
    makes a proof that is reported final. *)
Theorem verifier_accepts_foreign_keys s pk sign epoch slot state_root dag_root threshold :
  (∀ m, verify_sig pk m (sign m) = true) → snap_validators s ≠ [] → 0 ≤ threshold ≤ u128_max →
  ∃ p r, h_epoch (header p) = epoch ∧ h_slot (header p) = slot ∧ h_state_root (header p) = state_root ∧ h_dag_root (header p) = dag_root ∧
    h_stake_threshold (header p) = threshold ∧ Forall (λ v, vr_public_key v = pk) (validators p) ∧ length (signatures p) = 1%nat ∧
    verify p s = Ok r ∧ is_final r = true.
Proof.
  intros Hsign Hne Hth. set (hd := mkHeader L0_PROOF_VERSION None epoch slot 0 state_root dag_root 0 0 (root s) (snapshot_stake s) threshold 0 0 1).
  set (vs := replicate (length (snap_validators s)) (mkRecord 0 pk threshold)).
  set (m := with_domain DOMAIN_CHECKPOINT (hash_bytes 1)).
  set (p := mkL0Proof hd vs [mkProofSig 0 MlDsa65 (sign m)] None). exists p.
  assert (Hat : validator_at vs (mkProofSig 0 MlDsa65 (sign m)) = Some (mkRecord 0 pk threshold)).
  { unfold validator_at, vs. cbn [validator_index]. change (Z.to_nat 0) with 0%nat. destruct (snap_validators s); [done|]. done. }
  assert (Hcheck : foldl (check_one verify_sig p (signed_message sha3 p)) (mkReport 0 threshold 0 0) (signatures p) = mkReport threshold threshold 1 0).
  { rewrite check_all_good.
    - change (omap (validator_at (validators p)) (signatures p)) with (omap (validator_at vs) [mkProofSig 0 MlDsa65 (sign m)]).
      cbn [omap list_omap]. rewrite Hat. cbn. f_equal. unfold saturating_add. lia.
    - apply list.Forall_singleton. exists (mkRecord 0 pk threshold). split_and!; [exact Hat|done|apply Hsign]. }
  exists (mkReport threshold threshold 1 0). split_and!; try done.
  - by apply list.Forall_replicate.
  - unfold L0Hub.verify. change (length (validators p)) with (length vs). unfold vs. rewrite length_replicate, Nat.eqb_refl. cbn [p header hd version validator_set_root total_stake].
    rewrite !Z.eqb_refl. cbn [negb]. f_equal. exact Hcheck.
  - unfold is_final. cbn. by rewrite Z.leb_refl.
Qed.

(** Validators sign the digest of a checkpoint, the hub checks signatures on the digest of the proof, which
    covers its time and the previous proof: if the given signatures verify on nothing but the first and the two
    differ, no external proof is ever built. *)
Theorem external_signatures_rejected c s cs v now h digest :
  (∀ x pk m, x ∈ cs → verify_sig pk m (c_signature x) = true → m = hash_bytes digest) →
  (∀ hd, hash_bytes (sha3 (digest_bytes hd (snap_validators s))) ≠ hash_bytes digest) →
  0 < required_stake (config h) (snapshot_stake s) →
  is_ok (build_external_proof c s cs v now h).1 = false ∧ archive (build_external_proof c s cs v now h).2 = archive h.
Proof.
  intros Hsig Hdig Hreq. unfold L0Hub.build_external_proof. destruct (negb _); [done|]. destruct (match snap_validators s with [] => true | _ => false end); [done|].
  destruct (match last_block_by_chain h !! _ with Some _ => _ | None => _ end); [done|]. destruct (work_not_advanced h c); [done|].
  set (hd := mkHeader _ _ _ _ _ _ _ _ _ _ _ _ _ _ _). set (message := hash_bytes _). set (required := required_stake _ _) in *.
  assert (Hfold : ∀ l t, (∀ x, x ∈ l → x ∈ cs) → foldl (collect_external verify_sig s message (epoch_key c) (block_hash c) required) t l = t).
  { induction l as [|x l IH]; intros t Hin; [done|]. cbn [foldl]. rewrite IH by (intros y Hy; apply Hin; by right).
    unfold collect_external. destruct (e_done t); [done|]. destruct (position_of s _) as [i|]; [|done]. destruct (snap_validators s !! i) as [vr|]; [|done].
    destruct (bool_decide _); [done|]. destruct (verify_sig (vr_public_key vr) message (c_signature x)) eqn:Hv; [|done].
    exfalso. apply (Hdig hd). eapply Hsig; [|exact Hv]. apply Hin. by left. }
  rewrite Hfold by done. cbn [e_stake]. destruct (Z.ltb_spec 0 required); [done|lia].
Qed.

(** ** Counting stakes *)

Lemma total_of_app l k : total_of (l ++ k) = total_of l + total_of k.
Proof. unfold total_of. induction l as [|v l IH]; cbn [app foldr]; lia. Qed.

Lemma total_of_nonneg vs : Forall (λ v, 0 ≤ vr_stake v) vs → 0 ≤ total_of vs.
Proof. unfold total_of. induction 1; cbn [foldr]; lia. Qed.

#[local] Instance total_of_proper : Proper ((≡ₚ) ==> eq) total_of.
Proof. unfold total_of. induction 1; cbn [foldr]; lia. Qed.

Lemma omap_lookup_seq (vs : list ValidatorRecord) : omap (λ i, vs !! i) (seq 0 (length vs)) = vs.
Proof.
  induction vs as [|v vs IH] using rev_ind; [done|]. rewrite length_app, Nat.add_comm. cbn [length Nat.add]. rewrite seq_S, omap_app. cbn [Nat.add omap list_omap].
  rewrite list_lookup_middle by done. f_equal. transitivity (omap (λ i, vs !! i) (seq 0 (length vs))); [|done].
  apply list_omap_ext, list.Forall2_same_length_lookup_2; [done|]. intros i x y Hx Hy. rewrite Hx in Hy. injection Hy as <-.
  apply lookup_seq in Hx as [-> Hlt]. by rewrite lookup_app_l by done.
Qed.

(** Distinct positions hold at most the total. *)
Lemma positions_total (vs : list ValidatorRecord) (idx : list nat) : Forall (λ v, 0 ≤ vr_stake v) vs → base.NoDup idx → Forall (λ i, (i < length vs)%nat) idx → total_of (omap (λ i, vs !! i) idx) ≤ total_of vs.
Proof.
  intros Hpos Hnd Hlt. assert (Hsub : idx ⊆+ seq 0 (length vs)).
  { apply NoDup_submseteq; [done|]. intros i Hi. apply elem_of_seq. split; [lia|]. by apply (proj1 (list.Forall_forall _ _) Hlt). }
  apply submseteq_Permutation in Hsub as [rest Hp]. assert (Hvs : vs ≡ₚ omap (λ i, vs !! i) idx ++ omap (λ i, vs !! i) rest).
  { rewrite <- omap_app, <- Hp. by rewrite omap_lookup_seq. }
  pose proof (total_of_proper _ _ Hvs) as Ht. rewrite total_of_app in Ht. pose proof Hpos as Hrest. rewrite Hvs in Hrest.
  apply list.Forall_app in Hrest as [_ Hrest]. pose proof (total_of_nonneg _ Hrest). lia.
Qed.

Definition positions (sigs : list ProofSignature) : list nat := map (λ s, Z.to_nat (validator_index s)) sigs.

Lemma positions_validators vs sigs : omap (validator_at vs) sigs = omap (λ i, vs !! i) (positions sigs).
Proof. induction sigs as [|s sigs IH]; [done|]. cbn [omap list_omap positions map]. change (validator_at vs s) with (vs !! Z.to_nat (validator_index s)). destruct (vs !! _); [f_equal; exact IH|exact IH]. Qed.

Lemma good_positions vs m sigs st : good_sigs verify_sig vs m sigs st → base.NoDup (positions sigs) ∧ Forall (λ i, (i < length vs)%nat) (positions sigs).
Proof.
  intros [Hnd Hv _]. split.
  - revert Hnd Hv. unfold positions. induction sigs as [|s sigs IH]; intros Hnd Hv; [apply base.NoDup_nil_2|]. cbn [map] in *. apply list.NoDup_cons in Hnd as [Hni Hnd].
    apply list.Forall_cons in Hv as [(v & _ & Hp & _) Hv]. apply list.NoDup_cons. split; [|by apply IH]. intros (x & Hx & Hin)%list_elem_of_fmap.
    destruct (proj1 (list.Forall_forall _ _) Hv x Hin) as (_ & _ & Hpx & _). apply Hni, list_elem_of_fmap. exists x. split; [lia|done].
  - apply list.Forall_fmap. eapply list.Forall_impl; [exact Hv|]. intros s (v & Hat & _). by eapply lookup_lt_Some.
Qed.

Lemma omap_stakes vs sigs : Forall (λ v, 0 ≤ vr_stake v) vs → Forall (λ v, 0 ≤ vr_stake v) (omap (validator_at vs) sigs).
Proof.
  intros Hpos. apply list.Forall_forall. intros v (s & _ & Hv)%list_elem_of_omap. apply (proj1 (list.Forall_forall _ _) Hpos). by eapply list_elem_of_lookup_2.
Qed.

Lemma disjoint_stakes vs m1 m2 sigs1 sigs2 st1 st2 :
  Forall (λ v, 0 ≤ vr_stake v) vs → good_sigs verify_sig vs m1 sigs1 st1 → good_sigs verify_sig vs m2 sigs2 st2 →
  (∀ a, a ∈ map vr_address (omap (validator_at vs) sigs1) → a ∈ map vr_address (omap (validator_at vs) sigs2) → False) →
  sum_stakes (omap (validator_at vs) sigs1) + sum_stakes (omap (validator_at vs) sigs2) ≤ total_of vs.
Proof.
  intros Hpos Hg1 Hg2 Hdis. destruct (good_positions _ _ _ _ Hg1) as [Hnd1 Hlt1], (good_positions _ _ _ _ Hg2) as [Hnd2 Hlt2].
  assert (Hp : total_of (omap (λ i, vs !! i) (positions sigs1 ++ positions sigs2)) ≤ total_of vs).
  { apply positions_total; [done| |by apply list.Forall_app]. apply list.NoDup_app. split_and!; [done| |done]. intros i Hi1 Hi2.
    destruct (lookup_lt_is_Some_2 vs i) as [v Hv]; [by apply (proj1 (list.Forall_forall _ _) Hlt1)|].
    apply (Hdis (vr_address v)); apply list_elem_of_fmap; exists v; rewrite positions_validators; (split; [done|]); apply list_elem_of_omap; by exists i. }
  rewrite omap_app, total_of_app, <- !positions_validators in Hp.
  rewrite !sum_stakes_min by (apply omap_stakes; done). lia.
Qed.

(** ** Runs of a hub *)

(** The proofs made so far, newest last, with the snapshots they were made for. *)
Inductive hub_run : FinalityHub → list (L0FinalityProof * ValidatorSetSnapshot) → Prop :=
  | hr_new c h : new_hub c = Ok h → hub_run h []
  | hr_config c h r h' ps : hub_run h ps → update_config c h = (r, h') → hub_run h' ps
  | hr_native c s cs now h p h' ps : hub_run h ps → Z.of_nat (length (snap_validators s)) < 4294967296 → Checkpoint.hash sha3 c ≠ 0 →
      build_proof c s cs now h = (Ok p, h') → hub_run h' (ps ++ [(p, s)])
  | hr_native_err c s cs now h e h' ps : hub_run h ps → build_proof c s cs now h = (Err e, h') → hub_run h' ps
  | hr_external c s cs v now h p h' ps : hub_run h ps → Z.of_nat (length (snap_validators s)) < 4294967296 →
      build_external_proof c s cs v now h = (Ok p, h') → hub_run h' (ps ++ [(p, s)])
  | hr_external_err c s cs v now h e h' ps : hub_run h ps → build_external_proof c s cs v now h = (Err e, h') → hub_run h' ps.

(** ** Equivocation *)

Definition signed_block (t : EquivocationTracker) (a : Hash) (k : string) : option Hash := m ← signed_blocks t !! a; m !! k.

(** A block that is recorded stays recorded. *)
Definition tracker_le (t t' : EquivocationTracker) : Prop := ∀ a k b, signed_block t a k = Some b → signed_block t' a k = Some b.

#[local] Instance tracker_le_refl : Reflexive tracker_le.
Proof. by intros t a k b. Qed.
#[local] Instance tracker_le_trans : Transitive tracker_le.
Proof. intros t1 t2 t3 H1 H2 a k b H. by apply H2, H1. Qed.

Lemma record_block_spec a k b t :
  tracker_le t (record_block a k b t).2 ∧
  ((record_block a k b t).1 = false → signed_block (record_block a k b t).2 a k = Some b).
Proof.
  unfold record_block. set (entry := default ∅ (signed_blocks t !! a)).
  assert (Hentry : ∀ k', signed_block t a k' = entry !! k').
  { intros k'. unfold signed_block, entry. destruct (signed_blocks t !! a); [done|]. simpl. by rewrite lookup_empty. }
  assert (Hkeep : ∀ os, tracker_le t (mkTracker (<[a := entry]> (signed_blocks t)) os)).
  { intros os a' k' b' Hb. unfold signed_block. cbn [signed_blocks]. destruct (decide (a' = a)) as [-> |Hne].
    - rewrite lookup_insert_eq. simpl. by rewrite <- Hentry.
    - by rewrite lookup_insert_ne by done. }
  destruct (entry !! k) as [x|] eqn:Hk.
  - destruct (Z.eqb_spec x b) as [-> |Hne]; cbn [fst snd]; split; try apply Hkeep; [|done]. intros _. unfold signed_block. cbn [signed_blocks]. by rewrite lookup_insert_eq.
  - cbn [fst snd]. split.
    + intros a' k' b' Hb. unfold signed_block. cbn [signed_blocks]. destruct (decide (a' = a)) as [-> |Hne]; [|by rewrite lookup_insert_ne by done].
      rewrite lookup_insert_eq. simpl. rewrite Hentry in Hb. rewrite lookup_insert_ne; [done|]. intros <-. by rewrite Hk in Hb.
    + intros _. unfold signed_block. cbn [signed_blocks]. rewrite lookup_insert_eq. simpl. apply lookup_insert_eq.
Qed.

(** Signatures counted for a block are recorded for it. *)
Definition recorded (vs : list ValidatorRecord) (t : EquivocationTracker) (k : string) (b : Hash) (sigs : list ProofSignature) : Prop :=
  Forall (λ s, ∃ v, validator_at vs s = Some v ∧ signed_block t (vr_address v) k = Some b) sigs.

Lemma recorded_le vs t t' k b sigs : recorded vs t k b sigs → tracker_le t t' → recorded vs t' k b sigs.
Proof. intros Hr Hle. unfold recorded in *. eapply list.Forall_impl; [exact Hr|]. intros s (v & Hv & Hb). exists v. split; [done|by apply Hle]. Qed.

Lemma collect_external_le s message k b required t c : tracker_le (e_tracker t) (e_tracker (collect_external verify_sig s message k b required t c)).
Proof.
  unfold collect_external. destruct (e_done t); [done|]. destruct (position_of s (c_validator c)) as [i|]; [|done].
  destruct (snap_validators s !! i) as [v|]; [|done]. destruct (bool_decide _); [done|]. destruct (negb _); [done|]. destruct (already_signed _ _); [done|].
  pose proof (record_block_spec (c_validator c) k b (e_tracker t)) as [Hle _]. by destruct (record_block _ _ _ _) as [[] tr].
Qed.

Lemma collect_external_recorded s message k b required t c :
  Z.of_nat (length (snap_validators s)) < 4294967296 → recorded (snap_validators s) (e_tracker t) k b (e_sigs t) →
  let t' := collect_external verify_sig s message k b required t c in
  recorded (snap_validators s) (e_tracker t') k b (e_sigs t') ∧ tracker_le (e_tracker t) (e_tracker t').
Proof.
  intros Hlen Hr. unfold collect_external. destruct (e_done t); [done|]. destruct (position_of s (c_validator c)) as [i|] eqn:Hp; [|done].
  destruct (snap_validators s !! i) as [v|] eqn:Hi; [|done]. destruct (bool_decide _); [done|]. destruct (negb _); [done|]. destruct (already_signed _ _); [done|].
  pose proof (record_block_spec (c_validator c) k b (e_tracker t)) as [Hle Hrec]. destruct (record_block _ _ _ _) as [[] tr]; cbn [fst snd] in *; cbn [e_sigs e_tracker].
  - split; [by eapply recorded_le|done].
  - split; [|done]. apply list.Forall_app. split; [by eapply recorded_le|]. apply list.Forall_singleton. exists v.
    assert (Hlt : (i < length (snap_validators s))%nat) by by eapply lookup_lt_Some. rewrite as_u32_small by lia. split; [unfold validator_at; simpl; by rewrite Nat2Z.id|].
    destruct (position_spec _ _ _ Hp) as (v' & Hv' & Hadr & _). rewrite Hi in Hv'. injection Hv' as <-. apply Z.eqb_eq in Hadr. rewrite Hadr. by apply Hrec.
Qed.

Lemma collect_all_recorded s message k b required cs t :
  Z.of_nat (length (snap_validators s)) < 4294967296 → recorded (snap_validators s) (e_tracker t) k b (e_sigs t) →
  let t' := foldl (collect_external verify_sig s message k b required) t cs in
  recorded (snap_validators s) (e_tracker t') k b (e_sigs t') ∧ tracker_le (e_tracker t) (e_tracker t').
Proof.
  revert t. induction cs as [|c cs IH]; intros t Hlen Hr; [done|]. cbn [foldl].
  destruct (collect_external_recorded s message k b required t c Hlen Hr) as [Hr1 Hle1]. destruct (IH _ Hlen Hr1) as [Hr2 Hle2].
  split; [done|]. by etrans.
Qed.

(** The key a proof of an external chain is recorded under. *)
Definition proof_key (p : L0FinalityProof) (c : ChainId) : string := as_str c +:+ ":" +:+ pretty (h_epoch (header p)).

Definition hub_inv (h : FinalityHub) (ps : list (L0FinalityProof * ValidatorSetSnapshot)) : Prop :=
  Forall (λ q, well_signed sha3 verify_sig q.1 q.2 ∧
    ∀ c, external_chain (header q.1) = Some c → recorded (validators q.1) (equivocations h) (proof_key q.1 c) (h_dag_root (header q.1)) (signatures q.1)) ps.

Lemma hub_inv_le h h' ps : hub_inv h ps → tracker_le (equivocations h) (equivocations h') → hub_inv h' ps.
Proof.
  intros Hi Hle. unfold hub_inv in *. eapply list.Forall_impl; [exact Hi|]. intros q [Hw Hr]. split; [done|]. intros c Hc. eapply recorded_le; [by apply Hr|done].
Qed.

Lemma collect_all_le s message k b required cs t :
  tracker_le (e_tracker t) (e_tracker (foldl (collect_external verify_sig s message k b required) t cs)).
Proof. revert t. induction cs as [|c cs IH]; intros t; [done|]. cbn [foldl]. etrans; [apply collect_external_le|apply IH]. Qed.

Lemma external_tracker_le c s cs v now h r h' : build_external_proof c s cs v now h = (r, h') → tracker_le (equivocations h) (equivocations h').
Proof.
  unfold L0Hub.build_external_proof. destruct (negb _); [by intros [= _ <-]|]. destruct (match snap_validators s with [] => true | _ => false end); [by intros [= _ <-]|].
  destruct (match last_block_by_chain h !! _ with Some _ => _ | None => _ end); [by intros [= _ <-]|]. destruct (work_not_advanced h c); [by intros [= _ <-]|].
  set (message := hash_bytes _). set (required := required_stake _ _).
  pose proof (collect_all_le s message (epoch_key c) (block_hash c) required cs (mkExtTally [] 0 (equivocations h) false)) as Hle.
  destruct (_ <? _); intros [= _ <-]; exact Hle.
Qed.

Lemma native_tracker c s cs now h r h' : build_proof c s cs now h = (r, h') → equivocations h' = equivocations h.
Proof.
  unfold L0Hub.build_proof. destruct (negb _); [by intros [= _ <-]|]. destruct (_ && _); [by intros [= _ <-]|].
  destruct (match snap_validators s with [] => true | _ => false end); [by intros [= _ <-]|]. by destruct (_ <? _); intros [= _ <-].
Qed.

Lemma native_err_keeps c s cs now h e h' : build_proof c s cs now h = (Err e, h') → last_proof_hash h' = last_proof_hash h.
Proof.
  unfold L0Hub.build_proof. destruct (negb _); [by intros [= _ <-]|]. destruct (_ && _); [by intros [= _ <-]|].
  destruct (match snap_validators s with [] => true | _ => false end); [by intros [= _ <-]|]. by destruct (_ <? _); intros [= _ <-].
Qed.

Lemma external_err_keeps c s cs v now h e h' : build_external_proof c s cs v now h = (Err e, h') → last_proof_hash h' = last_proof_hash h.
Proof.
  unfold L0Hub.build_external_proof. destruct (negb _); [by intros [= _ <-]|]. destruct (match snap_validators s with [] => true | _ => false end); [by intros [= _ <-]|].
  destruct (match last_block_by_chain h !! _ with Some _ => _ | None => _ end); [by intros [= _ <-]|]. destruct (work_not_advanced h c); [by intros [= _ <-]|].
  by destruct (_ <? _); intros [= _ <-].
Qed.

Lemma hub_run_inv h ps : hub_run h ps → hub_inv h ps.
Proof.
  induction 1 as [c h Hn|c h r h' ps _ IH Hu|c s cs now h p h' ps _ IH Hlen Hne Hb|c s cs now h e h' ps _ IH Hb|c s cs v now h p h' ps _ IH Hlen Hb|c s cs v now h e h' ps _ IH Hb].
  - apply list.Forall_nil_2.
  - eapply hub_inv_le; [exact IH|]. unfold update_config in Hu. by destruct (validate c); injection Hu as <- <-.
  - apply list.Forall_app. split; [eapply hub_inv_le; [exact IH|by rewrite (native_tracker _ _ _ _ _ _ _ Hb)]|]. apply list.Forall_singleton.
    destruct (build_proof_signed _ _ _ _ _ _ _ _ _ _ Hb Hne Hlen) as (Hw & _ & _ & Hnone). split; [done|]. cbn [fst]. rewrite Hnone. done.
  - eapply hub_inv_le; [exact IH|by rewrite (native_tracker _ _ _ _ _ _ _ Hb)].
  - apply list.Forall_app. split; [eapply hub_inv_le; [exact IH|by eapply external_tracker_le]|]. apply list.Forall_singleton.
    destruct (build_external_signed _ _ _ _ _ _ _ _ _ _ _ Hb Hlen) as (Hw & _ & Hc & He & Hd & _ & message & required & Hs & ->). split; [done|]. cbn [fst].
    intros c' Hc'. rewrite Hc in Hc'. injection Hc' as <-. unfold proof_key. rewrite He, Hd, Hs. cbn [finish set_chain_head set_tracker equivocations].
    destruct Hw as (_ & -> & _). apply collect_all_recorded; [done|]. apply list.Forall_nil_2.
  - eapply hub_inv_le; [exact IH|by eapply external_tracker_le].
Qed.

(** The proofs of a hub form one hash chain: each carries the hash of the one before it, of
    its own or of an external chain, the first one zero, and the hub remembers the hash of the last. *)
Theorem proofs_chained h ps :
  hub_run h ps → map (λ q, previous_proof_hash (header q.1)) ps ++ [last_proof_hash h] = 0 :: map (λ q, proof_hash q.1) ps.
Proof.
  assert (Hsnoc : ∀ ps h p s h', map (λ q : L0FinalityProof * ValidatorSetSnapshot, previous_proof_hash (header q.1)) ps ++ [last_proof_hash h] = 0 :: map (λ q, proof_hash q.1) ps →
    previous_proof_hash (header p) = last_proof_hash h → last_proof_hash h' = proof_hash p →
    map (λ q, previous_proof_hash (header q.1)) (ps ++ [(p, s)]) ++ [last_proof_hash h'] = 0 :: map (λ q, proof_hash q.1) (ps ++ [(p, s)])).
  { intros ps' h0 p s h' IH Hp Hl. rewrite !map_app. cbn [map fst]. rewrite Hp, Hl, IH. done. }
  induction 1 as [c h Hn|c h r h' ps _ IH Hu|c s cs now h p h' ps _ IH Hlen Hne Hb|c s cs now h e h' ps _ IH Hb|c s cs v now h p h' ps _ IH Hlen Hb|c s cs v now h e h' ps _ IH Hb].
  - unfold new_hub in Hn. destruct (validate c); [|done]. by injection Hn as <-.
  - unfold update_config in Hu. by destruct (validate c); injection Hu as <- <-.
  - destruct (build_proof_signed _ _ _ _ _ _ _ _ _ _ Hb Hne Hlen) as (_ & -> & Hp & _). by eapply Hsnoc.
  - rewrite (native_err_keeps _ _ _ _ _ _ _ Hb). exact IH.
  - destruct (build_external_signed _ _ _ _ _ _ _ _ _ _ _ Hb Hlen) as (_ & Hp & _ & _ & _ & _ & message & required & _ & ->). by eapply Hsnoc.
  - rewrite (external_err_keeps _ _ _ _ _ _ _ _ Hb). exact IH.
Qed.

(** The addresses that signed a proof. *)
Definition signers (p : L0FinalityProof) : list Address := map vr_address (omap (validator_at (validators p)) (signatures p)).

Lemma signers_recorded vs t k b sigs a :
  recorded vs t k b sigs → a ∈ map vr_address (omap (validator_at vs) sigs) → signed_block t a k = Some b.
Proof.
  intros Hr (v & -> & (s & Hs & Hv)%list_elem_of_omap)%list_elem_of_fmap.
  destruct (proj1 (list.Forall_forall _ _) Hr s Hs) as (v' & Hv' & Hb). rewrite Hv in Hv'. by injection Hv' as <-.
Qed.

Lemma conflicting_signers_disjoint h ps q1 q2 c1 c2 :
  hub_run h ps → q1 ∈ ps → q2 ∈ ps → external_chain (header q1.1) = Some c1 → external_chain (header q2.1) = Some c2 → as_str c1 = as_str c2 →
  h_epoch (header q1.1) = h_epoch (header q2.1) → h_dag_root (header q1.1) ≠ h_dag_root (header q2.1) → ∀ a, a ∈ signers q1.1 → a ∈ signers q2.1 → False.
Proof.
  intros Hrun Hin1 Hin2 Hc1 Hc2 Hc He Hne a Ha1 Ha2. pose proof (proj1 (list.Forall_forall _ _) (hub_run_inv _ _ Hrun)) as Hinv.
  destruct (Hinv _ Hin1) as [_ Hr1], (Hinv _ Hin2) as [_ Hr2]. pose proof (signers_recorded _ _ _ _ _ _ (Hr1 _ Hc1) Ha1) as E1.
  pose proof (signers_recorded _ _ _ _ _ _ (Hr2 _ Hc2) Ha2) as E2. unfold proof_key in E1, E2. rewrite Hc, He in E1. rewrite E1 in E2. by injection E2.
Qed.

(** C15. One hub never certifies two conflicting blocks of a chain: along any run, two proofs of an external chain at the
    same height, made for the same validators with thresholds that together exceed the total stake (two thirds each, say),
    are of the same block, since a validator counted for one block is never counted for the other. *)
Theorem external_no_conflict h ps p1 p2 s c1 c2 :
  hub_run h ps → (p1, s) ∈ ps → (p2, s) ∈ ps → external_chain (header p1) = Some c1 → external_chain (header p2) = Some c2 → as_str c1 = as_str c2 →
  h_epoch (header p1) = h_epoch (header p2) →
  Forall (λ v, 0 ≤ vr_stake v) (snap_validators s) →
  total_of (snap_validators s) < h_stake_threshold (header p1) + h_stake_threshold (header p2) →
  h_dag_root (header p1) = h_dag_root (header p2).
Proof.
  intros Hrun Hin1 Hin2 Hc1 Hc2 Hc He Hpos Hth. destruct (decide (h_dag_root (header p1) = h_dag_root (header p2))) as [|Hne]; [done|exfalso].
  pose proof (conflicting_signers_disjoint _ _ _ _ _ _ Hrun Hin1 Hin2 Hc1 Hc2 Hc He Hne) as Hdis. cbn [fst] in Hdis.
  pose proof (proj1 (list.Forall_forall _ _) (hub_run_inv _ _ Hrun)) as Hinv. destruct (Hinv _ Hin1) as [Hw1 _], (Hinv _ Hin2) as [Hw2 _]. cbn [fst snd] in *.
  destruct Hw1 as (_ & Hv1 & _ & _ & Hg1 & Ht1), Hw2 as (_ & Hv2 & _ & _ & Hg2 & Ht2).
  rewrite Hv1 in Hg1. rewrite Hv2 in Hg2. unfold signers in Hdis. rewrite Hv1, Hv2 in Hdis. unfold signed_stake in Ht1, Ht2. rewrite Hv1 in Ht1. rewrite Hv2 in Ht2.
  pose proof (disjoint_stakes _ _ _ _ _ _ _ Hpos Hg1 Hg2 Hdis). lia.
Qed.

End HubSafety.

(** ** A concrete hub *)

Definition ex_sha3 (l : list Z) : Hash := 1 + foldl (λ a b, (31 * a + b) mod 1000003) 7 l.
Definition ex_verify (pk m sg : list Z) : bool := bool_decide (sg = pk).
Definition ex_prove (i : list SignerInput) (b : BatchPublicInputs) : Result StarkBatchProof string := Err "off".
Definition ex_snapshot : ValidatorSetSnapshot := mkSnapshot 9 [mkRecord 1 [1] 10; mkRecord 2 [2] 10; mkRecord 3 [3] 10].
Definition ex_contribution (i : Z) : SignatureContribution := mkContribution i MlDsa65 [i].
Definition ex_hub : FinalityHub := mkHub (mkL0Config true 2 3 32 (mkBackoff 250 30000 8) [] true 1024) (mkMetrics 0 0 0) 0 [] (mkTracker ∅ []) ∅.
Definition ex_external (parent work : Z) : ExternalCheckpoint := mkExternal Bitcoin 5 7 8 parent work 0 (ProofBitcoin [] 6 None 5 None None) None.
Definition ex_build (parent work : Z) (cs : list Z) : M FinalityHub L0Error L0FinalityProof :=
  build_external_proof ex_sha3 ex_verify ex_prove (ex_external parent work) ex_snapshot (map ex_contribution cs) valid 1000.

Lemma built_proofs_verify_witness :
  ∃ p h', ex_build 0 1 [1; 3] ex_hub = (Ok p, h') ∧ base.NoDup (map validator_index (signatures p)) ∧
    ∃ r, verify ex_sha3 ex_verify p ex_snapshot = Ok r ∧ is_final r = true.
Proof.
  destruct (ex_build 0 1 [1; 3] ex_hub) as [[p|e] h'] eqn:E.
  - exists p, h'. split; [done|]. destruct (built_proofs_verify ex_sha3 ex_verify ex_prove ex_snapshot (map ex_contribution [1; 3]) 1000 ex_hub p h') as (H1 & _ & r & Hr & Hf & _).
    + vm_compute. reflexivity.
    + right. exists (ex_external 0 1), valid. exact E.
    + split; [exact H1|]. by exists r.
  - exfalso. assert (is_ok (ex_build 0 1 [1; 3] ex_hub).1 = true) as Hok by (vm_compute; reflexivity). rewrite E in Hok. discriminate.
Defined.

Lemma verifier_accepts_foreign_keys_witness :
  ∃ p r, Forall (λ v, vr_public_key v = [66]) (validators p) ∧ verify ex_sha3 ex_verify p ex_snapshot = Ok r ∧ is_final r = true.
Proof.
  destruct (verifier_accepts_foreign_keys ex_sha3 ex_verify ex_snapshot [66] (λ _, [66]) 4 5 123 456 20) as (p & r & _ & _ & _ & _ & _ & Hk & _ & Hv & Hf).
  - intros m. apply bool_decide_eq_true_2. reflexivity.
  - discriminate.
  - vm_compute. split; discriminate.
  - exists p, r. split; [exact Hk|]. split; [exact Hv|exact Hf].
Defined.

Lemma external_signatures_rejected_witness :
  is_ok (build_external_proof (λ _, 1) (λ _ m sg, bool_decide (m = sg)) ex_prove (ex_external 0 1) ex_snapshot
    [mkContribution 1 MlDsa65 (hash_bytes 2); mkContribution 2 MlDsa65 (hash_bytes 2); mkContribution 3 MlDsa65 (hash_bytes 2)] valid 1000 ex_hub).1 = false.
Proof.
  refine (proj1 (external_signatures_rejected (λ _, 1) (λ _ m sg, bool_decide (m = sg)) ex_prove (ex_external 0 1) ex_snapshot _ valid 1000 ex_hub 2 _ _ _)).
  - intros x pk m Hin Hm. apply bool_decide_eq_true_1 in Hm. rewrite Hm. rewrite !elem_of_cons in Hin. by destruct Hin as [-> |[-> |[-> |?%not_elem_of_nil]]].
  - intros hd Hc. assert (bool_decide (hash_bytes 1 = hash_bytes 2) = true) as Hb by by apply bool_decide_eq_true_2. vm_compute in Hb. discriminate.
  - vm_compute. reflexivity.
Defined.

Lemma external_no_conflict_witness :
  ∃ p1 p2 h1 h2, ex_build 0 1 [1; 3] ex_hub = (Ok p1, h1) ∧ ex_build 7 2 [2; 3] h1 = (Ok p2, h2) ∧ h_dag_root (header p1) = h_dag_root (header p2).
Proof.
  destruct (ex_build 0 1 [1; 3] ex_hub) as [[p1|e] h1] eqn:E1.
  2: { exfalso. assert (is_ok (ex_build 0 1 [1; 3] ex_hub).1 = true) as Hok by (vm_compute; reflexivity). rewrite E1 in Hok. discriminate. }
  destruct (ex_build 7 2 [2; 3] h1) as [[p2|e] h2] eqn:E2.
  2: { exfalso. assert (is_ok (ex_build 7 2 [2; 3] (ex_build 0 1 [1; 3] ex_hub).2).1 = true) as Hok by (vm_compute; reflexivity).
       rewrite E1 in Hok. cbn [snd] in Hok. rewrite E2 in Hok. discriminate. }
  exists p1, p2, h1, h2. split; [reflexivity|]. split; [exact E2|].
  assert (Hlen : Z.of_nat (length (snap_validators ex_snapshot)) < 4294967296) by (vm_compute; reflexivity).
  assert (Hrun : hub_run ex_sha3 ex_verify ex_prove h2 ([] ++ [(p1, ex_snapshot)] ++ [(p2, ex_snapshot)])).
  { rewrite app_assoc. eapply hr_external; [eapply hr_external; [apply (hr_new _ _ _ (config ex_hub) ex_hub); reflexivity|exact Hlen|exact E1]|exact Hlen|exact E2]. }
  destruct (build_external_signed _ _ _ _ _ _ _ _ _ _ _ E1 Hlen) as (_ & _ & Hc1 & He1 & _).
  destruct (build_external_signed _ _ _ _ _ _ _ _ _ _ _ E2 Hlen) as (_ & _ & Hc2 & He2 & _).
  assert (Ht1 : h_stake_threshold (header p1) = 20) by (assert (match (ex_build 0 1 [1; 3] ex_hub).1 with Ok p => h_stake_threshold (header p) | Err _ => 0 end = 20) as Hx by (vm_compute; reflexivity); rewrite E1 in Hx; exact Hx).
  assert (Ht2 : h_stake_threshold (header p2) = 20) by (assert (match (ex_build 7 2 [2; 3] (ex_build 0 1 [1; 3] ex_hub).2).1 with Ok p => h_stake_threshold (header p) | Err _ => 0 end = 20) as Hx by (vm_compute; reflexivity); rewrite E1 in Hx; cbn [snd] in Hx; rewrite E2 in Hx; exact Hx).
  apply (external_no_conflict ex_sha3 ex_verify ex_prove h2 _ p1 p2 ex_snapshot Bitcoin Bitcoin Hrun).
  - left.
  - right. left.
  - exact Hc1.
  - exact Hc2.
  - reflexivity.
  - rewrite He1, He2. reflexivity.
  - repeat (apply list.Forall_cons; split; [cbn; lia|]). apply list.Forall_nil_2.
  - rewrite Ht1, Ht2. cbn. lia.
Defined.

Lemma proofs_chained_witness : map (λ q, previous_proof_hash (header q.1)) ([] : list (L0FinalityProof * ValidatorSetSnapshot)) ++ [last_proof_hash ex_hub] = [0].
Proof. apply (proofs_chained ex_sha3 ex_verify ex_prove ex_hub []). apply (hr_new _ _ _ (config ex_hub) ex_hub). reflexivity. Defined.
