(* ===== verification/Executor.v ===== *)
(** * Executors

    Models [src/L1/src/state/executor.rs]: the parallel executor, and the optimistic executor
    of the fast path, which prepares a vertex when it is created or received and writes the
    prepared accounts back when it is confirmed.  What they need of the state manager is
    the interface [StateOps], which [State.v] implements; a panic, which the executor catches,
    is [None].  The order in which the threads of [execute_parallel_shards] run is an argument. *)

From S2P Require Import Prelude Bytes Account Validators Smt Transaction Vertex State StateLedger StateBlocks Merkle.

(** ** What the executors use of the state manager *)

Class StateOps (SM : Type) : Type := {
  st_prepare : list SignedTransaction → M SM StateError StateExecution;
  st_simulate : list SignedTransaction → M SM StateError StateExecution;
  st_atomically : list SignedTransaction → M SM StateError StateExecution;
  st_commit : StateExecution → M SM StateError ();
  st_apply : SignedTransaction → SM → option (Result TransactionReceipt StateError) * SM;
  st_commit_pending : Z → M SM StateError Hash
}.

(** What the executors rely on: receipts name their transaction, and atomic execution is preparing and committing. *)
Class StateOpsLaws (SM : Type) `{StateOps SM} : Type := {
  st_apply_hash : ∀ tx s r, (st_apply tx s).1 = Some (Ok r) → r_tx_hash r = tx_hash tx;
  st_atomically_split : ∀ txs s, st_atomically txs s = (e <-? st_prepare txs; st_commit e ?; returns e) s
}.

(** ** The parallel executor *)

Record ShardState : Type := mkShardState { pending_accounts : gmap Address Z; pending_nonces : gmap Address Z }.

Record ParallelExecutor (SM : Type) : Type := mkParallel {
  pe_state : SM;
  pe_num_shards : Z;
  shard_states : gmap Z ShardState
}.
Arguments mkParallel {SM}. Arguments pe_state {SM}. Arguments pe_num_shards {SM}. Arguments shard_states {SM}.

Section Parallel.
Context {SM : Type} `{!StateOps SM} (sha3 : list Z → Hash).

Definition new_parallel (s : SM) (num_shards : Z) : ParallelExecutor SM :=
  mkParallel s num_shards (foldl (λ m i, <[Z.of_nat i := mkShardState ∅ ∅]> m) ∅ (seq 0 (Z.to_nat num_shards))).

(** Run an operation of the state manager. *)
Definition on_state {E A} (m : M SM E A) : M (ParallelExecutor SM) E A := λ x,
  let '(r, s) := m (pe_state x) in (r, mkParallel s (pe_num_shards x) (shard_states x)).

Definition execute_vertex (v : DAGVertex) : M (ParallelExecutor SM) StateError (Hash * list TransactionReceipt) :=
  e <-? on_state (st_atomically (transactions v));
  returns (ex_state_root e, ex_receipts e).

Definition execute_vertex_speculative (v : DAGVertex) : M (ParallelExecutor SM) StateError (Hash * list TransactionReceipt) :=
  e <-? on_state (st_simulate (transactions v));
  returns (ex_state_root e, ex_receipts e).

Definition prepare_vertex (v : DAGVertex) : M (ParallelExecutor SM) StateError StateExecution := on_state (st_prepare (transactions v)).
Definition pe_commit_execution (e : StateExecution) : M (ParallelExecutor SM) StateError () := on_state (st_commit e).

(** The transactions that touch each address, in order. *)
Definition touch (a : Address) (i : nat) (m : gmap Address (list nat)) : gmap Address (list nat) := <[a := default [] (m !! a) ++ [i]]> m.

Fixpoint index_addresses (i : nat) (txs : list SignedTransaction) (m : gmap Address (list nat)) : gmap Address (list nat) :=
  match txs with
  | [] => m
  | tx :: txs' =>
      let m1 := touch (from (transaction tx)) i m in
      let m2 := if from (transaction tx) =? to (transaction tx) then m1 else touch (to (transaction tx)) i m1 in
      index_addresses (S i) txs' m2
  end.

(** All but the first transaction of an address conflict. *)
Definition conflicting_indices (txs : list SignedTransaction) : gset nat :=
  map_fold (λ _ l acc, list_to_set (tail l) ∪ acc) ∅ (index_addresses 0 txs ∅).

Definition detect_conflicts (txs : list SignedTransaction) : list SignedTransaction * list SignedTransaction :=
  let c := conflicting_indices txs in
  let tagged := imap (λ i tx, (i, tx)) txs in
  ((filter (λ p, p.1 ∉ c) tagged).*2, (filter (λ p, p.1 ∈ c) tagged).*2).

(** A panic is caught. *)
Definition execute_transaction (tx : SignedTransaction) (s : SM) : Result TransactionReceipt StateError * SM :=
  match st_apply tx s with
  | (Some r, s') => (r, s')
  | (None, s') => (Err (ExecutionError TransactionPanicked), s')
  end.

Definition shard_receipt (tx : SignedTransaction) (s : SM) : TransactionReceipt * SM :=
  match execute_transaction tx s with
  | (Ok r, s') => (r, s')
  | (Err e, s') => (failure_receipt tx e, s')
  end.

(** A shard, the transactions it has left and its receipts. *)
Definition Worker : Type := Z * list SignedTransaction * list TransactionReceipt.

Fixpoint finish_worker (txs : list SignedTransaction) (rs : list TransactionReceipt) (s : SM) : list TransactionReceipt * SM :=
  match txs with
  | [] => (rs, s)
  | tx :: txs' => let '(r, s') := shard_receipt tx s in finish_worker txs' (rs ++ [r]) s'
  end.

Fixpoint finish_workers (ws : list Worker) (s : SM) : list (Z * list TransactionReceipt) * SM :=
  match ws with
  | [] => ([], s)
  | (shard, txs, rs) :: ws' =>
      let '(rs', s1) := finish_worker txs rs s in
      let '(out, s2) := finish_workers ws' s1 in
      ((shard, rs') :: out, s2)
  end.

(** The schedule names the shard that runs its next transaction; what it leaves is run in order. *)
Fixpoint run_workers (schedule : list nat) (ws : list Worker) (s : SM) : list (Z * list TransactionReceipt) * SM :=
  match schedule with
  | [] => finish_workers ws s
  | i :: schedule' =>
      match ws !! i with
      | Some (shard, tx :: txs, rs) => let '(r, s') := shard_receipt tx s in run_workers schedule' (<[i := (shard, txs, rs ++ [r])]> ws) s'
      | _ => run_workers schedule' ws s
      end
  end.

Definition execute_parallel_shards (schedule : list nat) (shard_txs : list (Z * list SignedTransaction)) (x : ParallelExecutor SM)
  : list (Z * Hash * list TransactionReceipt) * ParallelExecutor SM :=
  let '(out, s) := run_workers schedule (map (λ p, (p.1, p.2, [])) shard_txs) (pe_state x) in
  (map (λ p, (p.1, merkle_root sha3 (map r_tx_hash p.2), p.2)) out, mkParallel s (pe_num_shards x) (shard_states x)).

Definition rollback_shard (shard : Z) (x : ParallelExecutor SM) : ParallelExecutor SM :=
  match shard_states x !! shard with
  | Some _ => mkParallel (pe_state x) (pe_num_shards x) (<[shard := mkShardState ∅ ∅]> (shard_states x))
  | None => x
  end.

Definition commit_shard (shard : Z) (token : Z) : M (ParallelExecutor SM) StateError () := on_state (st_commit_pending token) ?; returns ().

End Parallel.

(** ** The optimistic executor *)

Record SpeculativeResult : Type := mkSpeculative {
  sp_vertex : DAGVertex;
  sp_vertex_hash : Hash;
  sp_execution : StateExecution;
  sp_conflicts : list Hash
}.

Record OptimisticExecutor (SM : Type) : Type := mkOptimistic {
  executor : ParallelExecutor SM;
  speculative_results : gmap Hash SpeculativeResult
}.
Arguments mkOptimistic {SM}. Arguments executor {SM}. Arguments speculative_results {SM}.

Section Optimistic.
Context {SM : Type} `{!StateOps SM}.

Definition new_optimistic (s : SM) (num_shards : Z) : OptimisticExecutor SM := mkOptimistic (new_parallel s num_shards) ∅.

Definition oe_state (x : OptimisticExecutor SM) : SM := pe_state (executor x).

Definition speculative_execute (v : DAGVertex) : M (OptimisticExecutor SM) StateError Hash := λ x,
  match prepare_vertex v (executor x) with
  | (Err e, p) => (Err e, mkOptimistic p (speculative_results x))
  | (Ok e, p) => (Ok (ex_state_root e), mkOptimistic p (<[vhash v := mkSpeculative v (vhash v) e []]> (speculative_results x)))
  end.

Definition confirm_execution (h : Hash) (x : OptimisticExecutor SM) : option (Hash * list TransactionReceipt) * OptimisticExecutor SM :=
  match speculative_results x !! h with
  | None => (None, x)
  | Some r =>
      match pe_commit_execution (sp_execution r) (executor x) with
      | (Ok _, p) => (Some (ex_state_root (sp_execution r), ex_receipts (sp_execution r)), mkOptimistic p (delete h (speculative_results x)))
      | (Err _, p) => (None, mkOptimistic p (delete h (speculative_results x)))
      end
  end.

Definition rollback_execution (h : Hash) (x : OptimisticExecutor SM) : OptimisticExecutor SM :=
  mkOptimistic (executor x) (delete h (speculative_results x)).

Definition get_speculative_result (h : Hash) (x : OptimisticExecutor SM) : option Hash :=
  r ← speculative_results x !! h; Some (ex_state_root (sp_execution r)).

End Optimistic.

(** ** The state manager implements the interface *)

Section Implementation.
Context `{AccountStore St} {CM EV : Type}.
Context (hash_data : list Z → Hash) (verify : list Z → list Z → list Z → bool).
Context (deploy_contract : list Z → list Z → Address → Z → Z → Z → CM → Result (Address * list Log) string * CM).
Context (execute_contract : Address → Address → list Z → Z → Z → CM → Result (bool * list Z * list Log) string * CM).
Context (simulate_contract : Address → Address → list Z → Z → Z → CM → Result (bool * list Z * list Log) string).
Context (evm_deploy : Address → Z → Z → list Z → Z → Z → EV → Result (option Address * option (list Z) * list Log) string * EV).
Context (evm_call : Address → Address → Z → list Z → Z → Z → EV → Result (bool * list Z * list Log) string * EV).
Context (clock : option Z).
(** The order in which the groups of a block are visited. *)
Context (order : list SignedTransaction → list Address).

Definition manager_ops : StateOps (StateManager St CM EV) := {|
  st_prepare txs := prepare_transactions hash_data verify deploy_contract execute_contract simulate_contract clock txs (order txs);
  st_simulate txs := simulate_transactions hash_data verify deploy_contract execute_contract simulate_contract clock txs (order txs);
  st_atomically txs := apply_transactions_atomically hash_data verify deploy_contract execute_contract simulate_contract clock txs (order txs);
  st_commit := commit_execution hash_data;
  st_apply tx s := let '(r, s') := apply_transaction hash_data verify deploy_contract execute_contract evm_deploy evm_call clock tx s in (Some r, s');
  st_commit_pending := commit_pending hash_data
|}.

End Implementation.

(** ** Conflicts between transactions *)

Definition touches (tx : SignedTransaction) (a : Address) : Prop := a = from (transaction tx) ∨ a = to (transaction tx).

#[export] Instance touches_dec tx a : Decision (touches tx a).
Proof. unfold touches. apply _. Defined.

(** The positions, from [i] on, of the transactions that touch an address. *)
Definition touching (i : nat) (txs : list SignedTransaction) (a : Address) : list nat :=
  (filter (λ p, touches p.2 a) (imap (λ j tx, ((i + j)%nat, tx)) txs)).*1.

Lemma touching_cons i tx txs a :
  touching i (tx :: txs) a = (if decide (touches tx a) then [i] else []) ++ touching (S i) txs a.
Proof.
  unfold touching. rewrite imap_cons. assert (Himap : imap ((λ j tx, ((i + j)%nat, tx)) ∘ S) txs = imap (λ j tx, ((S i + j)%nat, tx)) txs).
  { apply imap_ext. intros j x _. simpl. f_equal. lia. }
  rewrite Himap, Nat.add_0_r. destruct (decide (touches tx a)).
  - by rewrite list.filter_cons_True.
  - by rewrite list.filter_cons_False.
Qed.

Lemma lookup_touch a b i m : default [] (touch a i m !! b) = default [] (m !! b) ++ (if decide (b = a) then [i] else []).
Proof.
  unfold touch. destruct (decide (b = a)) as [-> |Hne]; [by rewrite lookup_insert_eq|]. by rewrite lookup_insert_ne, app_nil_r by done.
Qed.

Lemma index_addresses_spec txs : ∀ i m a, default [] (index_addresses i txs m !! a) = default [] (m !! a) ++ touching i txs a.
Proof.
  induction txs as [|tx txs IH]; intros i m a; [by rewrite app_nil_r|]. cbn [index_addresses]. rewrite IH, touching_cons, app_assoc. f_equal.
  destruct (Z.eqb_spec (from (transaction tx)) (to (transaction tx))) as [Heq|Hne]; rewrite !lookup_touch, <- ?app_assoc; f_equal;
    repeat destruct (decide _); unfold touches in *; try done; naive_solver.
Qed.

Lemma elem_of_conflicting txs i : i ∈ conflicting_indices txs ↔ ∃ a, i ∈ tail (touching 0 txs a).
Proof.
  unfold conflicting_indices. transitivity (∃ a l, index_addresses 0 txs ∅ !! a = Some l ∧ i ∈ tail l).
  - generalize (index_addresses 0 txs ∅). intros m. induction m as [|a l m Ha IH] using map_ind.
    + rewrite map_fold_empty. split; [set_solver|]. intros (a & l & Hl & _). by rewrite lookup_empty in Hl.
    + rewrite map_fold_insert_L; [|set_solver|done]. rewrite elem_of_union, IH, elem_of_list_to_set. split.
      * intros [Hi|(b & k & Hb & Hi)]; [exists a, l; by rewrite lookup_insert_eq|]. exists b, k. rewrite lookup_insert_ne; [done|congruence].
      * intros (b & k & Hb & Hi). destruct (decide (b = a)) as [-> |Hne]; [rewrite lookup_insert_eq in Hb; left; naive_solver|].
        rewrite lookup_insert_ne in Hb by done. right. eauto.
  - pose proof (index_addresses_spec txs 0 ∅) as Hs. split.
    + intros (a & l & Hl & Hi). exists a. specialize (Hs a). rewrite Hl, lookup_empty in Hs. simpl in Hs. by subst l.
    + intros (a & Hi). specialize (Hs a). rewrite lookup_empty in Hs. simpl in Hs. destruct (index_addresses 0 txs ∅ !! a) as [l|] eqn:Hl; simpl in Hs.
      * exists a, l. split; [done|by rewrite Hs].
      * rewrite <- Hs in Hi. by apply not_elem_of_nil in Hi.
Qed.

Lemma elem_of_touching i txs a k : k ∈ touching i txs a ↔ ∃ j tx, k = (i + j)%nat ∧ txs !! j = Some tx ∧ touches tx a.
Proof.
  unfold touching. rewrite list_elem_of_fmap. split.
  - intros ([k' tx] & -> & [Ht Hin]%list_elem_of_filter). apply elem_of_lookup_imap in Hin as (j & x & [= -> ->] & Hj). by exists j, x.
  - intros (j & tx & -> & Hj & Ht). exists ((i + j)%nat, tx). split; [done|]. apply list_elem_of_filter. split; [done|]. apply elem_of_lookup_imap. by exists j, tx.
Qed.

(** Positions come in order: the later of two is in the tail. *)
Lemma later_in_tail i txs a j k : j ∈ touching i txs a → k ∈ touching i txs a → (j < k)%nat → k ∈ tail (touching i txs a).
Proof.
  revert i. induction txs as [|tx txs IH]; intros i; [by intros ?%not_elem_of_nil|]. rewrite touching_cons. destruct (decide (touches tx a)); simpl.
  - intros [-> |Hj]%elem_of_cons [-> |Hk]%elem_of_cons Hlt; try done; [lia|]. apply elem_of_touching in Hj as (? & ? & -> & _). lia.
  - apply IH.
Qed.

Lemma in_tail_earlier i txs a k : k ∈ tail (touching i txs a) → ∃ j, j ∈ touching i txs a ∧ (j < k)%nat.
Proof.
  revert i. induction txs as [|tx txs IH]; intros i; [by intros ?%not_elem_of_nil|]. rewrite touching_cons. destruct (decide (touches tx a)); simpl.
  - intros Hk. exists i. split; [left|]. apply elem_of_touching in Hk as (? & ? & -> & _). lia.
  - intros Hk. apply IH in Hk. exact Hk.
Qed.

(** Conflict detection: the transactions set aside for parallel execution share no account with each other, each of
    the others shares one with an earlier transaction of the block, and every transaction of the block is in one of the two lists. *)
Theorem detect_conflicts_correct txs :
  let '(parallel, serial) := detect_conflicts txs in
  (∀ j k x y a, parallel !! j = Some x → parallel !! k = Some y → j ≠ k → touches x a → touches y a → False) ∧
  (∀ y, y ∈ serial → ∃ j k x a, (j < k)%nat ∧ txs !! j = Some x ∧ txs !! k = Some y ∧ touches x a ∧ touches y a) ∧
  parallel ++ serial ≡ₚ txs.
Proof.
  unfold detect_conflicts. set (c := conflicting_indices txs). set (tagged := imap (λ i tx, (i, tx)) txs).
  assert (Htag : ∀ p, p ∈ tagged ↔ txs !! p.1 = Some p.2).
  { intros [i tx]. unfold tagged. rewrite elem_of_lookup_imap. naive_solver. }
  assert (Hnd : base.NoDup tagged.*1).
  { unfold tagged. rewrite fmap_imap. assert (Hsame : imap (λ i tx, (i, tx).1) txs = seq 0 (length txs)); [|setoid_rewrite Hsame; apply NoDup_seq].
    clear. apply list_eq. intros i. rewrite list_lookup_imap. destruct (txs !! i) eqn:E; simpl.
    - symmetry. apply lookup_seq. split; [lia|]. by eapply lookup_lt_Some.
    - symmetry. apply lookup_seq_ge. by apply lookup_ge_None. }
  split_and!.
  - intros j k x y a Hj Hk Hne Hx Hy. apply list_lookup_fmap_Some in Hj as ([i1 x'] & -> & Hj). apply list_lookup_fmap_Some in Hk as ([i2 y'] & -> & Hk). simpl in *.
    pose proof (list_elem_of_lookup_2 _ _ _ Hj) as [Hc1 Ht1]%list_elem_of_filter. pose proof (list_elem_of_lookup_2 _ _ _ Hk) as [Hc2 Ht2]%list_elem_of_filter.
    apply Htag in Ht1, Ht2. simpl in *.
    assert (Hi : i1 ≠ i2).
    { intros <-. apply Hne. assert (Hndf : base.NoDup (filter (λ p : nat * SignedTransaction, p.1 ∉ c) tagged).*1).
      { eapply sublist_NoDup; [exact Hnd|]. apply fmap_sublist. apply sublist_filter. }
      eapply (list.NoDup_lookup _ j k i1); [exact Hndf| |]; apply list_lookup_fmap_Some; [by exists (i1, x')|by exists (i1, y')]. }
    assert (H1 : i1 ∈ touching 0 txs a) by (apply elem_of_touching; by exists i1, x'). assert (H2 : i2 ∈ touching 0 txs a) by (apply elem_of_touching; by exists i2, y').
    destruct (Nat.lt_ge_cases i1 i2); [apply Hc2|apply Hc1]; apply elem_of_conflicting; exists a; eapply later_in_tail; [exact H1|exact H2|lia|exact H2|exact H1|lia].
  - intros y ([k y'] & -> & [Hc Ht]%list_elem_of_filter)%list_elem_of_fmap. apply Htag in Ht. simpl in *. apply elem_of_conflicting in Hc as (a & Hk).
    destruct (in_tail_earlier _ _ _ _ Hk) as (j & Hj & Hlt). apply elem_of_touching in Hj as (j' & x & -> & Hx & Htx).
    assert (Hk' : k ∈ touching 0 txs a) by (destruct (touching 0 txs a); [done|by right]). apply elem_of_touching in Hk' as (k' & y2 & -> & Hy & Hty).
    simpl in *. exists j', k', x, a. split_and!; try done. congruence.
  - rewrite <- fmap_app. transitivity tagged.*2; [|unfold tagged; rewrite fmap_imap; apply reflexive_eq, list_eq; intros i; rewrite list_lookup_imap; by destruct (txs !! i)].
    apply fmap_Permutation. clear. induction tagged as [|p l IH]; [done|]. destruct (decide (p.1 ∈ c)).
    + rewrite (list.filter_cons_False (λ p, p.1 ∉ c)), (list.filter_cons_True (λ p, p.1 ∈ c)) by naive_solver. by rewrite <- Permutation_middle, IH.
    + rewrite (list.filter_cons_True (λ p, p.1 ∉ c)), (list.filter_cons_False (λ p, p.1 ∈ c)) by naive_solver. simpl. by rewrite IH.
Qed.

(** ** Shards in parallel *)

Section Schedules.
Context {SM : Type} `{StateOpsLaws SM} (sha3 : list Z → Hash).

Lemma shard_receipt_hash tx s : r_tx_hash (shard_receipt tx s).1 = tx_hash tx.
Proof.
  unfold shard_receipt, execute_transaction. pose proof (st_apply_hash tx s) as Hh. destruct (st_apply tx s) as [[[r|e]|] s']; [by apply Hh|done|done].
Qed.

(** The hashes of the receipts a worker has and of the transactions it has left. *)
Definition worker_hashes (w : Worker) : Z * list Hash := (w.1.1, map r_tx_hash w.2 ++ map tx_hash w.1.2).

Lemma finish_worker_hashes txs : ∀ rs s, map r_tx_hash (finish_worker txs rs s).1 = map r_tx_hash rs ++ map tx_hash txs.
Proof.
  induction txs as [|tx txs IH]; intros rs s; cbn [finish_worker map]; [by rewrite app_nil_r|]. pose proof (shard_receipt_hash tx s) as Hr.
  destruct (shard_receipt tx s) as [r s']. rewrite IH, map_app, <- app_assoc. simpl in *. by rewrite Hr.
Qed.

Lemma finish_workers_hashes ws : ∀ s, map (λ p, (p.1, map r_tx_hash p.2)) (finish_workers ws s).1 = map worker_hashes ws.
Proof.
  induction ws as [|[[shard txs] rs] ws IH]; intros s; [done|]. cbn [finish_workers map]. pose proof (finish_worker_hashes txs rs s) as Hw.
  destruct (finish_worker txs rs s) as [rs' s1]. specialize (IH s1). destruct (finish_workers ws s1) as [out s2]. simpl in *. by rewrite Hw, IH.
Qed.

Lemma run_workers_hashes schedule : ∀ ws s, map (λ p, (p.1, map r_tx_hash p.2)) (run_workers schedule ws s).1 = map worker_hashes ws.
Proof.
  induction schedule as [|i schedule IH]; intros ws s; cbn [run_workers]; [apply finish_workers_hashes|].
  destruct (ws !! i) as [[[shard [|tx txs]] rs]|] eqn:Hi; [apply IH| |apply IH]. pose proof (shard_receipt_hash tx s) as Hr. destruct (shard_receipt tx s) as [r s']. rewrite IH.
  rewrite <- (list_insert_id _ _ _ Hi) at 2. rewrite !list_fmap_insert. f_equal. unfold worker_hashes. simpl in *. f_equal. by rewrite map_app, <- app_assoc, <- Hr.
Qed.

(** However the shards are interleaved, every shard gets one receipt per transaction, in order, and the
    root reported for it is the Merkle root of the transaction hashes: it depends on the transactions
    only, not on what executing them did to the state. *)
Theorem parallel_shards_receipts schedule shard_txs x :
  let out := (execute_parallel_shards sha3 schedule shard_txs x).1 in
  map (λ r, (r.1.1, map r_tx_hash r.2)) out = map (λ p, (p.1, map tx_hash p.2)) shard_txs ∧
  map (λ r, r.1.2) out = map (λ p, merkle_root sha3 (map tx_hash p.2)) shard_txs.
Proof.
  unfold execute_parallel_shards. set (ws := map (λ p, (p.1, p.2, [])) shard_txs). pose proof (run_workers_hashes schedule ws (pe_state x)) as Hw.
  destruct (run_workers schedule ws (pe_state x)) as [out s]. cbn [fst] in *. assert (Hws : map worker_hashes ws = map (λ p, (p.1, map tx_hash p.2)) shard_txs).
  { unfold ws. rewrite map_map. apply map_ext. by intros [i txs]. }
  rewrite Hws in Hw. rewrite !map_map. cbn [fst snd]. split; [done|].
  transitivity (map (λ q : Z * list Hash, merkle_root sha3 q.2) (map (λ p, (p.1, map r_tx_hash p.2)) out)); [by rewrite map_map|]. rewrite Hw, map_map. done.
Qed.

End Schedules.

(** ** Speculation on the state manager *)

Section Speculation.
Context `{AccountStoreLaws St} {CM EV : Type}.
Context (hash_data : list Z → Hash) (verify : list Z → list Z → list Z → bool).
Context (deploy_contract : list Z → list Z → Address → Z → Z → Z → CM → Result (Address * list Log) string * CM).
Context (execute_contract : Address → Address → list Z → Z → Z → CM → Result (bool * list Z * list Log) string * CM).
Context (simulate_contract : Address → Address → list Z → Z → Z → CM → Result (bool * list Z * list Log) string).
Context (evm_deploy : Address → Z → Z → list Z → Z → Z → EV → Result (option Address * option (list Z) * list Log) string * EV).
Context (evm_call : Address → Address → Z → list Z → Z → Z → EV → Result (bool * list Z * list Log) string * EV).
Context (clock : option Z) (order : list SignedTransaction → list Address).
(** The store can be listed and written. *)
Context (Hrel : store_reliable St).

#[local] Instance the_ops : StateOps (StateManager St CM EV) :=
  manager_ops hash_data verify deploy_contract execute_contract simulate_contract evm_deploy evm_call clock order.

#[local] Instance manager_laws : StateOpsLaws (StateManager St CM EV).
Proof.
  split; [|done]. intros tx s r. cbn [st_apply the_ops manager_ops]. unfold apply_transaction.
  destruct (bindM _ _ s) as [r' s'] eqn:E. cbn [fst]. intros [= ->].
  apply bindM_cases in E as [(? & s1 & _ & E)|(e & _ & He)]; [|done]. apply bindM_cases in E as [(sd & s2 & _ & E)|(e & _ & He)]; [|done].
  apply bindM_cases in E as [(rc & s3 & _ & E)|(e & _ & He)]; [|done]. apply bindM_cases in E as [([[sd' rc'] logs] & s4 & _ & E)|(e & _ & He)]; [|done].
  apply bindM_cases in E as [(sd2 & s5 & _ & E)|(e & _ & He)]; [|done]. apply bindM_cases in E as [(? & s6 & _ & E)|(e & _ & He)]; [|done].
  by injection E as <- _.
Qed.

Abbreviation OE := (OptimisticExecutor (StateManager St CM EV)).
Abbreviation atomically txs := (apply_transactions_atomically (EV := EV) hash_data verify deploy_contract execute_contract simulate_contract clock txs (order txs)).
Implicit Types (x : OE) (s : StateManager St CM EV).

(** Preparing a block: an overlay over a store that stays as it is. *)
Lemma manager_prepare_spec txs s :
  settled hash_data s → block_fine (txs, order txs) →
  ∃ rs o s1, st_prepare txs s = (Ok (mkExecution (root_of hash_data (ledger o s)) rs (sort_by_address (map_to_list o).*2)), s1) ∧ keyed o ∧
    run_result hash_data verify txs rs (stored s) (ledger o s) ∧ storage s1 = storage s ∧ settled hash_data s1.
Proof.
  intros [Hc Hi Hl] Hb. destruct (execution_spec hash_data verify deploy_contract execute_contract simulate_contract clock
    txs (order txs) true s Hc Hl Hb) as (rs & o & s1 & Hk & Hr & Hex). cbn [st_prepare the_ops manager_ops]. unfold prepare_transactions. rewrite Hex. unfold bindM.
  pose proof (adv_ok _ _ _ (run_advanced _ _ _ _ _ _ Hr)) as Hok.
  assert (Ho : keyed o) by (intros a y Ha; apply (lok_address _ Hok); unfold ledger; by apply lookup_union_Some_l).
  destruct (root_with_overlay_spec hash_data o s1 Hrel) as (s2 & -> & Hst2 & Hc2 & Hi2).
  { rewrite (kept_stored _ _ Hk). exact (lok_address _ Hl). } { done. } { by eapply kept_index_ok. } { by apply Hk. }
  rewrite (ledger_kept o s s1 Hk). exists rs, o, s2. split; [done|]. split_and!; try done.
  - rewrite Hst2. apply Hk.
  - split; [done|done|]. unfold stored. rewrite Hst2. rewrite (proj1 (proj1 Hk)). exact Hl.
Qed.

Inductive SpecOp : Type := SpecExecute (v : DAGVertex) | SpecRollback (h : Hash).

Definition spec_step x (o : SpecOp) : OE :=
  match o with SpecExecute v => (speculative_execute v x).2 | SpecRollback h => rollback_execution h x end.

Definition spec_hash (o : SpecOp) : Hash := match o with SpecExecute v => vhash v | SpecRollback h => h end.

Definition op_fine (o : SpecOp) : Prop := match o with SpecExecute v => block_fine (transactions v, order (transactions v)) | SpecRollback _ => True end.

Lemma speculative_execute_spec v x :
  settled hash_data (oe_state x) → block_fine (transactions v, order (transactions v)) →
  ∃ rs o x1, keyed o ∧ run_result hash_data verify (transactions v) rs (stored (oe_state x)) (ledger o (oe_state x)) ∧
    let e := mkExecution (root_of hash_data (ledger o (oe_state x))) rs (sort_by_address (map_to_list o).*2) in
    speculative_execute v x = (Ok (ex_state_root e), x1) ∧ speculative_results x1 = <[vhash v := mkSpeculative v (vhash v) e []]> (speculative_results x) ∧
    storage (oe_state x1) = storage (oe_state x) ∧ settled hash_data (oe_state x1) ∧ (st_prepare (transactions v) (oe_state x)).1 = Ok e.
Proof.
  intros Hs Hb. destruct (manager_prepare_spec (transactions v) (oe_state x) Hs Hb) as (rs & o & s1 & Hp & Ho & Hr & Hst & Hs1).
  unfold speculative_execute, prepare_vertex, on_state. unfold oe_state in *. rewrite Hp. exists rs, o. eexists. split; [done|]. split; [done|]. cbn zeta. by split_and!.
Qed.

Lemma spec_step_keeps x o :
  settled hash_data (oe_state x) → op_fine o →
  settled hash_data (oe_state (spec_step x o)) ∧ storage (oe_state (spec_step x o)) = storage (oe_state x) ∧
  ∀ h, h ≠ spec_hash o → speculative_results (spec_step x o) !! h = speculative_results x !! h.
Proof.
  intros Hs Ho. destruct o as [v|h]; cbn [spec_step spec_hash].
  - destruct (speculative_execute_spec v x Hs Ho) as (rs & o & x1 & _ & _ & -> & Hres & Hst & Hs1 & _). cbn [snd]. split_and!; [done|done|].
    intros h Hne. by rewrite Hres, lookup_insert_ne.
  - split_and!; [done|done|]. intros h' Hne. cbn. by rewrite lookup_delete_ne.
Qed.

Lemma spec_run_keeps ops : ∀ x, settled hash_data (oe_state x) → Forall op_fine ops →
  let x' := foldl spec_step x ops in
  settled hash_data (oe_state x') ∧ storage (oe_state x') = storage (oe_state x) ∧
  ∀ h, Forall (λ o, h ≠ spec_hash o) ops → speculative_results x' !! h = speculative_results x !! h.
Proof.
  induction ops as [|o ops IH]; intros x Hs Ho; [done|]. apply list.Forall_cons in Ho as [Ho1 Ho]. cbn [foldl].
  destruct (spec_step_keeps x o Hs Ho1) as (Hs1 & Hst1 & Hr1). destruct (IH _ Hs1 Ho) as (Hs2 & Hst2 & Hr2). split_and!; [done|congruence|].
  intros h [Hh1 Hh]%list.Forall_cons. by rewrite Hr2, Hr1.
Qed.

Lemma st_commit_spec root rs o s :
  keyed o → index_ok hash_data s → coherent s →
  ∃ s', st_commit (mkExecution root rs (sort_by_address (map_to_list o).*2)) s = (Ok (), s') ∧ stored s' = ledger o s ∧ coherent s' ∧ index_ok hash_data s'.
Proof. intros Ho Hi Hc. destruct (commit_spec hash_data root rs o s Hrel Ho Hi Hc) as (s' & Hcm & Hst & Hc' & Hi' & _). by exists s'. Qed.

(** Confirming writes the overlay over whatever is stored. *)
Lemma confirm_spec h v rs root o x :
  speculative_results x !! h = Some (mkSpeculative v h (mkExecution root rs (sort_by_address (map_to_list o).*2)) []) → keyed o →
  coherent (oe_state x) → index_ok hash_data (oe_state x) →
  ∃ x', confirm_execution h x = (Some (root, rs), x') ∧ stored (oe_state x') = ledger o (oe_state x) ∧ coherent (oe_state x') ∧ index_ok hash_data (oe_state x') ∧
    speculative_results x' = delete h (speculative_results x).
Proof.
  intros Hr Ho Hc Hi. unfold confirm_execution. rewrite Hr. unfold pe_commit_execution, on_state. cbn [sp_execution].
  destruct (st_commit_spec root rs o (oe_state x) Ho Hi Hc) as (s' & Hcm & Hst & Hc' & Hi'). unfold oe_state in *. rewrite Hcm. eexists. split; [done|]. by split_and!.
Qed.

(** C33. Speculation refines atomic execution of the accounts, over a store that does not fail: a vertex that is prepared,
    then confirmed after any number of other vertices were prepared or rolled back, stores the same accounts and returns the same root
    and receipts as executing it at once, and preparing and rolling back store no account.  When no other vertex was prepared in
    between, the whole state of the manager (contracts, validator set, cache, index) is that of executing it at once; otherwise
    contract calls and validator registrations of the other vertices stay, even of those rolled back. *)
Theorem speculation_refines_atomic v ops x :
  settled hash_data (oe_state x) → block_fine (transactions v, order (transactions v)) → Forall op_fine ops → Forall (λ o, vhash v ≠ spec_hash o) ops →
  let '(r1, x1) := speculative_execute v x in
  let x2 := foldl spec_step x1 ops in
  let '(r2, x3) := confirm_execution (vhash v) x2 in
  stored (oe_state x2) = stored (oe_state x) ∧
  ∃ e s', atomically (transactions v) (oe_state x) = (Ok e, s') ∧ r1 = Ok (ex_state_root e) ∧ r2 = Some (ex_state_root e, ex_receipts e) ∧
    stored (oe_state x3) = stored s' ∧ ex_state_root e = root_of hash_data (stored (oe_state x3)) ∧ settled hash_data (oe_state x3) ∧
    (ops = [] → oe_state x3 = s').
Proof.
  intros Hs Hb Hops Hne. destruct (speculative_execute_spec v x Hs Hb) as (rs & o & x1 & Ho & Hrun & Hex & Hres & Hst & Hs1 & Hprep). rewrite Hex. cbv zeta.
  destruct (spec_run_keeps ops x1 Hs1 Hops) as ([Hc2 Hi2 Hl2] & Hst2 & Hr2). set (x2 := foldl spec_step x1 ops) in *.
  assert (Hst' : stored (oe_state x2) = stored (oe_state x)) by (unfold stored; by rewrite Hst2, Hst).
  destruct (confirm_spec (vhash v) v rs (root_of hash_data (ledger o (oe_state x))) o x2) as (x3 & Hcf & Hst3 & Hc3 & Hi3 & _); [|done..|].
  { rewrite Hr2 by done. by rewrite Hres, lookup_insert_eq. }
  rewrite Hcf. assert (Hled : ledger o (oe_state x2) = ledger o (oe_state x)) by (unfold ledger; by rewrite Hst').
  split; [done|]. destruct (atomically_spec hash_data verify deploy_contract execute_contract simulate_contract clock (transactions v) (order (transactions v)) (oe_state x) Hrel Hs Hb)
    as (e & s' & Hat & Hs' & _ & Hroot & Heq). exists e, s'. pose proof (st_atomically_split (transactions v) (oe_state x)) as Hsplit. cbn [st_atomically the_ops manager_ops] in Hsplit.
  rewrite Hat in Hsplit. unfold bindM in Hsplit. destruct (st_prepare (transactions v) (oe_state x)) as [re sp] eqn:Hp. cbn [fst] in Hprep. subst re.
  destruct (st_commit _ sp) as [[[]|er] sc] eqn:Hcm; [|done]. injection Hsplit as -> ->.
  destruct (manager_prepare_spec (transactions v) (oe_state x) Hs Hb) as (rs' & o' & s1 & Hp' & Ho' & _ & Hstp & [Hcp Hip _]). rewrite Hp in Hp'. injection Hp' as Hroot' -> Hsort ->.
  destruct (st_commit_spec (root_of hash_data (ledger o (oe_state x))) rs' o s1 Ho Hip Hcp) as (s2 & Hcm2 & Hst4 & _).
  rewrite Hcm in Hcm2. injection Hcm2 as <-. assert (Hfin : stored sc = ledger o (oe_state x)) by (rewrite Hst4; unfold ledger, stored; by rewrite Hstp).
  split; [exact Hat|]. split; [reflexivity|]. split; [reflexivity|]. split; [by rewrite Hst3, Hled, Hfin|]. split; [by rewrite Hst3, Hled|].
  split; [split; [exact Hc3|exact Hi3|]; rewrite Hst3, Hled, <- Hfin; apply Hs'|].
  intros ->. cbn [foldl] in x2. subst x2. unfold confirm_execution in Hcf. rewrite Hres, lookup_insert_eq in Hcf. cbn [sp_execution] in Hcf.
  assert (Hx1 : pe_state (executor x1) = s1).
  { unfold speculative_execute, prepare_vertex, on_state in Hex. unfold oe_state in Hp. rewrite Hp in Hex. injection Hex as <-. reflexivity. }
  unfold pe_commit_execution, on_state in Hcf. rewrite Hx1, Hcm in Hcf. by injection Hcf as <-.
Qed.

(** Vertices prepared from the same state overwrite each other: when two are prepared before
    either is confirmed, every account the second touches ends as if the first had never run, and only the accounts the second does not
    touch show the first. *)
Theorem stale_confirmation_overwrites v1 v2 x :
  settled hash_data (oe_state x) → block_fine (transactions v1, order (transactions v1)) → block_fine (transactions v2, order (transactions v2)) → vhash v1 ≠ vhash v2 →
  ∃ rs1 rs2 o1 o2 root1 root2 x1 x2 x3 x4, speculative_execute v1 x = (Ok root1, x1) ∧ speculative_execute v2 x1 = (Ok root2, x2) ∧
    confirm_execution (vhash v1) x2 = (Some (root1, rs1), x3) ∧ confirm_execution (vhash v2) x3 = (Some (root2, rs2), x4) ∧
    run_result hash_data verify (transactions v1) rs1 (stored (oe_state x)) (o1 ∪ stored (oe_state x)) ∧
    run_result hash_data verify (transactions v2) rs2 (stored (oe_state x)) (o2 ∪ stored (oe_state x)) ∧
    root2 = root_of hash_data (o2 ∪ stored (oe_state x)) ∧ stored (oe_state x4) = o2 ∪ (o1 ∪ stored (oe_state x)).
Proof.
  intros Hs Hb1 Hb2 Hne. destruct (speculative_execute_spec v1 x Hs Hb1) as (rs1 & o1 & x1 & Ho1 & Hrun1 & Hex1 & Hres1 & Hst1 & Hs1 & _).
  destruct (speculative_execute_spec v2 x1 Hs1 Hb2) as (rs2 & o2 & x2 & Ho2 & Hrun2 & Hex2 & Hres2 & Hst2 & [Hc2 Hi2 _] & _).
  assert (E1 : stored (oe_state x1) = stored (oe_state x)) by (unfold stored; by rewrite Hst1).
  assert (E2 : stored (oe_state x2) = stored (oe_state x)) by (unfold stored; by rewrite Hst2, Hst1).
  destruct (confirm_spec (vhash v1) v1 rs1 (root_of hash_data (ledger o1 (oe_state x))) o1 x2) as (x3 & Hcf1 & Hst3 & Hc3 & Hi3 & Hres3); [|done..|].
  { by rewrite Hres2, lookup_insert_ne, Hres1, lookup_insert_eq by done. }
  destruct (confirm_spec (vhash v2) v2 rs2 (root_of hash_data (ledger o2 (oe_state x1))) o2 x3) as (x4 & Hcf2 & Hst4 & _); [|done..|].
  { by rewrite Hres3, lookup_delete_ne, Hres2, lookup_insert_eq by done. }
  unfold ledger in *. rewrite E1 in Hrun2. exists rs1, rs2, o1, o2. do 6 eexists. split; [exact Hex1|]. split; [exact Hex2|]. split; [exact Hcf1|]. split; [exact Hcf2|].
  split_and!; [done|done|simpl; by rewrite E1|]. by rewrite Hst4, Hst3, E2.
Qed.

End Speculation.

(** ** Concrete runs *)

Definition demo_state : StateManager (gmap Address Account) () () :=
  mkState (list_to_map [(1, mkAccount 1 100 0 None 0 0 false); (2, mkAccount 2 100 0 None 0 0 false); (3, mkAccount 3 0 0 None 0 0 false)]) ∅ ∅ 0 None 0 0 (Some ()) None None.

Definition demo_pay (sender v : Z) : SignedTransaction := mkSigned (mkTransaction Transfer sender 3 v 0 1000 None Qvm [] 0 0 [] (replicate (Z.to_nat sender) 7) 1) (10 + sender) 0.
Definition demo_order (txs : list SignedTransaction) : list Address := remove_dups (map (λ stx, from (transaction stx)) txs).
Definition demo_vertex (h : Hash) (txs : list SignedTransaction) : DAGVertex := mkVertex h [] txs 0 0 9 [] 0 1 VPending [] 0.

#[local] Instance demo_ops : StateOps (StateManager (gmap Address Account) () ()) :=
  manager_ops Sample.hash_data Sample.verify Sample.deploy_contract Sample.execute_contract Sample.simulate_contract Sample.evm_deploy Sample.evm_call None demo_order.

Lemma demo_settled : settled Sample.hash_data demo_state.
Proof.
  assert (Hacc : ∀ a x, storage demo_state !! a = Some x → x ∈ [mkAccount 1 100 0 None 0 0 false; mkAccount 2 100 0 None 0 0 false; mkAccount 3 0 0 None 0 0 false] ∧ a = Account.address x).
  { intros a x Hx. unfold demo_state in Hx. cbn [storage] in Hx. apply elem_of_list_to_map_2 in Hx. rewrite !elem_of_cons in Hx. destruct Hx as [[= -> ->]|[[= -> ->]|[[= -> ->]|Hx]]]; [..|by apply not_elem_of_nil in Hx]; (split; [|done]); set_solver. }
  split; [intros a x; cbn [account_cache demo_state]; by rewrite lookup_empty|done|]. split; [..|by vm_compute]; intros a x Hx; apply Hacc in Hx as [Hin ->]; [done|..];
    rewrite !elem_of_cons in Hin; destruct Hin as [-> |[-> |[-> |?%not_elem_of_nil]]]; by vm_compute.
Qed.

Lemma demo_fine txs : Forall tx_fine txs → block_fine (txs, demo_order txs).
Proof. intros Hf. split; [done|apply NoDup_remove_dups|]. intros a. apply elem_of_remove_dups. Qed.

Definition demo_v1 : DAGVertex := demo_vertex 101 [demo_pay 1 30].
Definition demo_v2 : DAGVertex := demo_vertex 102 [demo_pay 2 50].
Definition demo_executor : OptimisticExecutor (StateManager (gmap Address Account) () ()) := new_optimistic demo_state 4.

Lemma demo_v_fine i v : 0 ≤ v ≤ u64_max → block_fine ([demo_pay i v], demo_order [demo_pay i v]).
Proof. intros Hv. apply demo_fine. apply list.Forall_singleton. unfold tx_fine, fits, u128_max. cbn. unfold u64_max in Hv. lia. Qed.

Lemma speculation_refines_atomic_witness :
  let '(r1, x1) := speculative_execute demo_v1 demo_executor in
  let x2 := rollback_execution 102 (speculative_execute demo_v2 x1).2 in
  let '(r2, x3) := confirm_execution 101 x2 in
  stored (oe_state x2) = storage demo_state ∧ (∃ root rs, r1 = Ok root ∧ r2 = Some (root, rs)) ∧ settled Sample.hash_data (oe_state x3).
Proof.
  pose proof (speculation_refines_atomic Sample.hash_data Sample.verify Sample.deploy_contract Sample.execute_contract Sample.simulate_contract Sample.evm_deploy Sample.evm_call
    None demo_order map_store_reliable demo_v1 [SpecExecute demo_v2; SpecRollback 102] demo_executor demo_settled (demo_v_fine 1 30 ltac:(vm_compute; split; discriminate))) as Hw.
  unfold the_ops in Hw. fold demo_ops in Hw. destruct (speculative_execute demo_v1 demo_executor) as [r1 x1]. cbv zeta in Hw |- *. cbn [foldl spec_step] in Hw.
  unfold the_ops in Hw. fold demo_ops in Hw. change (vhash demo_v1) with 101 in Hw. destruct (confirm_execution 101 _) as [r2 x3].
  destruct Hw as (Hst & e & s' & _ & H1 & H2 & _ & _ & Hs & _).
  - apply list.Forall_cons. split; [apply (demo_v_fine 2 50); vm_compute; split; discriminate|]. apply list.Forall_singleton. exact I.
  - apply list.Forall_cons. split; [discriminate|]. apply list.Forall_singleton. discriminate.
  - split; [exact Hst|]. split; [|exact Hs]. exists (ex_state_root e), (ex_receipts e). split; [exact H1|exact H2].
Defined.

(** Thirty paid to account 3 are gone. *)
Lemma stale_confirmation_overwrites_witness :
  (∃ o2 o1 (x4 : OptimisticExecutor (StateManager (gmap Address Account) () ())), stored (oe_state x4) = o2 ∪ (o1 ∪ storage demo_state)) ∧
  (let x2 := (speculative_execute demo_v2 (speculative_execute demo_v1 demo_executor).2).2 in
   let x4 := (confirm_execution 102 (confirm_execution 101 x2).2).2 in
   map (λ a, Account.balance <$> storage (oe_state x4) !! a) [1; 2; 3] = [Some 70; Some 50; Some 50]).
Proof.
  split.
  - destruct (stale_confirmation_overwrites Sample.hash_data Sample.verify Sample.deploy_contract Sample.execute_contract Sample.simulate_contract Sample.evm_deploy Sample.evm_call
      None demo_order map_store_reliable demo_v1 demo_v2 demo_executor demo_settled (demo_v_fine 1 30 ltac:(vm_compute; split; discriminate)) (demo_v_fine 2 50 ltac:(vm_compute; split; discriminate))) as (rs1 & rs2 & o1 & o2 & root1 & root2 & x1 & x2 & x3 & x4 & _ & _ & _ & _ & _ & _ & _ & Hst).
    + discriminate.
    + exists o2, o1, x4. exact Hst.
  - unfold speculative_execute, prepare_vertex, st_prepare, demo_ops, manager_ops, prepare_transactions, execute_transactions_overlay,
      execute_transactions_overlay_sequential, compute_state_root_with_overlay. generalize (state_smt_root Sample.hash_data). intros root. vm_compute. reflexivity.
Defined.

(** A registration that was prepared and rolled back stays in the validator set, though no stake was locked for it. *)
Example rolled_back_registration_stays :
  let reg := mkSigned (mkTransaction ValidatorRegister 1 1 60 0 1000 None Qvm (replicate 32 1) 0 0 [] [7] 1) 11 0 in
  let x := new_optimistic (set_committee (Some empty_set) demo_state) 4 in
  let x' := rollback_execution 103 (speculative_execute (demo_vertex 103 [reg]) x).2 in
  (map Validators.address ∘ validators <$> committee_set (oe_state x')) = Some [1] ∧
  storage (oe_state x') = storage demo_state ∧ speculative_results x' = ∅.
Proof.
  unfold speculative_execute, prepare_vertex, st_prepare, demo_ops, manager_ops, prepare_transactions, execute_transactions_overlay,
    execute_transactions_overlay_sequential, compute_state_root_with_overlay. generalize (state_smt_root Sample.hash_data). intros root. vm_compute.
  split_and!; reflexivity.
Qed.
