(* ===== verification/FastPath.v ===== *)
(** * The fast path

    Models [src/L1/src/consensus/fast_path.rs]: vertices are built from the ingress buffer or received,
    executed speculatively, collect committee votes and, with a quorum of stake, are confirmed: the prepared state is
    written and the vertex joins the graph.  The transactions come from an interface [PayloadSource], which the ingress buffer
    and the vertex builder implement; the graph is that of [Dag.v], the executor that of
    [Executor.v].  Signing, the signature check, clocks and the texts of errors are arguments. *)

From S2P Require Import Prelude Bytes Consensus Account Validators Transaction Vertex Committee Dag Stacc Ingress State StateLedger StateBlocks Executor.

Definition MAX_PENDING_VERTICES : Z := 100000.
Definition MAX_VERTEX_PAYLOAD_SIZE : Z := 2097152.
Definition CLEANUP_INTERVAL_SECS : Z := 3.
Definition MAX_PENDING_AGE_SECS : Z := 30.
Definition MLDSA65_PK_SIZE : nat := Z.to_nat 1952.

(** ** Where transactions come from *)

Class PayloadSource (B : Type) : Type := {
  ps_ingest : SignedTransaction → B → bool * B;
  ps_build : Z → Z → B → list SignedTransaction * B;
  ps_pending : Z → B → Z
}.

(** What building a payload does to the queue of a shard: it takes transactions off its front, and the payload
    is made of these. *)
Class PayloadLaws (B : Type) `{PayloadSource B} : Type := {
  ps_queue : Z → B → list SignedTransaction;
  ps_build_takes : ∀ shard now b, ∃ taken, ps_queue shard b = taken ++ ps_queue shard (ps_build shard now b).2 ∧
    ∀ tx, tx ∈ (ps_build shard now b).1 → tx ∈ taken
}.

Definition builder_source `{QuotaProvider} `{VirtualTime F} (limit : Z) (serialize : SignedTransaction → option (list Z)) (sha3 : list Z → Hash)
    (verify : list Z → list Z → list Z → bool) (encode : Address → Address → list Z → list Z) (get_nonce : Address → option Z)
    : PayloadSource (VertexBuilder F) := {|
  ps_ingest tx vb := let '(ok, b) := ingest serialize sha3 verify get_nonce tx (ingress vb) in (ok, mkBuilder b (stacc vb) (batch_size vb));
  ps_build shard now_block vb := build_vertex_payload limit sha3 encode get_nonce shard now_block vb;
  ps_pending shard vb := pending_for_shard (ingress vb) shard
|}.

Definition shard_queue {F} (shard : Z) (vb : VertexBuilder F) : list SignedTransaction := default [] (shards (ingress vb) !! shard).

Lemma builder_takes `{QuotaProvider} `{VirtualTime F} limit sha3 encode get_nonce shard now (vb : VertexBuilder F) :
  let '(txs, vb') := build_vertex_payload limit sha3 encode get_nonce shard now vb in
  ∃ taken, shard_queue shard vb = taken ++ shard_queue shard vb' ∧ ∀ tx, tx ∈ txs → tx ∈ taken.
Proof.
  assert (Hd : shard_queue shard vb = (drain_shard shard (batch_size vb) (ingress vb)).1 ++ default [] (shards (drain_shard shard (batch_size vb) (ingress vb)).2 !! shard)).
  { unfold shard_queue, drain_shard. destruct (shards (ingress vb) !! shard) as [q|] eqn:Hq; cbn [fst snd shards]; [|by rewrite Hq]. rewrite lookup_insert_eq. cbn. by rewrite take_drop. }
  unfold build_vertex_payload. destruct (drain_shard shard (batch_size vb) (ingress vb)) as [raw ing]. cbn [fst snd] in Hd.
  pose proof (consider_all_ok limit sha3 encode get_nonce raw now (sort_scored raw) (no_selection, stacc vb) (no_selection_ok get_nonce raw)) as Hok.
  destruct (foldl _ _ _) as [sel s']. exists raw. split; [exact Hd|]. intros tx Htx. by apply (sel_cands _ _ _ (Hok ltac:(intros x; by rewrite sort_scored_perm))).
Qed.

#[export] Instance builder_laws `{QuotaProvider} `{VirtualTime F} limit serialize sha3 verify encode get_nonce :
  @PayloadLaws (VertexBuilder F) (builder_source limit serialize sha3 verify encode get_nonce).
Proof.
  refine (Build_PayloadLaws (VertexBuilder F) (builder_source limit serialize sha3 verify encode get_nonce) shard_queue _).
  intros shard now vb. pose proof (builder_takes limit sha3 encode get_nonce shard now vb) as Ht. cbn [ps_build builder_source].
  by destruct (build_vertex_payload _ _ _ _ _ _ _).
Defined.

(** ** State *)

Record PendingVertex : Type := mkPendingVertex {
  pv_vertex : DAGVertex;
  pv_votes : list CommitteeVote;
  pv_received_at : Z;
  pre_confirmed : bool
}.

(** The channel to the network: [None] when its receiver is gone. *)
Definition CHANNEL_CAPACITY : Z := 10000.
Definition try_send (v : DAGVertex) (ch : option (list DAGVertex)) : option (list DAGVertex) :=
  match ch with
  | Some q => Some (if Z.of_nat (length q) <? CHANNEL_CAPACITY then q ++ [v] else q)
  | None => None
  end.

Record FastPath (SM St B : Type) : Type := mkFast {
  fp_dag : DAGGraph St;
  fp_source : B;
  fp_executor : OptimisticExecutor SM;
  committee_manager : CommitteeManager;
  pending_vertices : gmap Hash PendingVertex;
  confirmed_vertices : gmap Hash DAGVertex;
  vertex_sender : option (list DAGVertex);
  pending_count : Z
}.
Arguments mkFast {SM St B}. Arguments fp_dag {SM St B}. Arguments fp_source {SM St B}. Arguments fp_executor {SM St B}.
Arguments committee_manager {SM St B}. Arguments pending_vertices {SM St B}. Arguments confirmed_vertices {SM St B}.
Arguments vertex_sender {SM St B}. Arguments pending_count {SM St B}.

Section FastPath.
Context {SM St B : Type} `{!StateOps SM} `{!VertexStore St} `{!PayloadSource B}.
Context (hash_data : list Z → Hash) (verify_sig : list Z → list Z → list Z → Result bool string).
Context (sign : list Z → list Z → Result (list Z) string).
Context (show_dag : DAGError → string) (show_state : StateError → string) (show_consensus : ConsensusError → string).

Abbreviation FP := (FastPath SM St B).
Abbreviation OP A := (M FP ConsensusError A).

Definition new_fast_path (dag : DAGGraph St) (source : B) (x : OptimisticExecutor SM) (cm : CommitteeManager) (ch : option (list DAGVertex)) : FP :=
  mkFast dag source x cm ∅ ∅ ch 0.

Definition set_dag (d : DAGGraph St) (p : FP) : FP :=
  mkFast d (fp_source p) (fp_executor p) (committee_manager p) (pending_vertices p) (confirmed_vertices p) (vertex_sender p) (pending_count p).
Definition set_source (b : B) (p : FP) : FP :=
  mkFast (fp_dag p) b (fp_executor p) (committee_manager p) (pending_vertices p) (confirmed_vertices p) (vertex_sender p) (pending_count p).
Definition set_executor (x : OptimisticExecutor SM) (p : FP) : FP :=
  mkFast (fp_dag p) (fp_source p) x (committee_manager p) (pending_vertices p) (confirmed_vertices p) (vertex_sender p) (pending_count p).
Definition set_pending_vertices (m : gmap Hash PendingVertex) (n : Z) (p : FP) : FP :=
  mkFast (fp_dag p) (fp_source p) (fp_executor p) (committee_manager p) m (confirmed_vertices p) (vertex_sender p) n.
Definition add_confirmed (v : DAGVertex) (p : FP) : FP :=
  mkFast (fp_dag p) (fp_source p) (fp_executor p) (committee_manager p) (pending_vertices p) (<[vhash v := v]> (confirmed_vertices p)) (vertex_sender p) (pending_count p).
Definition send_vertex (v : DAGVertex) (p : FP) : FP :=
  mkFast (fp_dag p) (fp_source p) (fp_executor p) (committee_manager p) (pending_vertices p) (confirmed_vertices p) (try_send v (vertex_sender p)) (pending_count p).

(** The committee manager is shared with the engine, which rotates committees and changes the validator set. *)
Definition set_manager (cm : CommitteeManager) (p : FP) : FP :=
  mkFast (fp_dag p) (fp_source p) (fp_executor p) cm (pending_vertices p) (confirmed_vertices p) (vertex_sender p) (pending_count p).

(** ** The cleanup task *)

Definition is_stale (now : Z) (p : PendingVertex) : bool := MAX_PENDING_AGE_SECS * 1000 <? now - pv_received_at p.

Definition drop_pending (h : Hash) (p : FP) : FP :=
  set_executor (rollback_execution h (fp_executor p))
    (set_pending_vertices (delete h (pending_vertices p)) (wrapping_sub u64_max (pending_count p) 1) p).

Definition cleanup (now : Z) (p : FP) : FP :=
  foldl (λ p h, drop_pending h p) p (filter (λ kv, is_stale now kv.2 = true) (map_to_list (pending_vertices p))).*1.

(** ** Vertices *)

Definition process_transaction (tx : SignedTransaction) : OP () := λ p,
  let '(ok, b) := ps_ingest tx (fp_source p) in
  (if ok then Ok () else Err (Consensus.InvalidVertex "Transaction rejected by ingress buffer"), set_source b p).

(** An operation of the graph, its error turned into text. *)
Definition on_dag {A} (f : string → ConsensusError) (m : M (DAGGraph St) DAGError A) : OP A := λ p,
  match m (fp_dag p) with
  | (Ok a, d) => (Ok a, set_dag d p)
  | (Err e, d) => (Err (f (show_dag e)), set_dag d p)
  end.

Definition speculate (v : DAGVertex) : OP Hash := λ p,
  match speculative_execute v (fp_executor p) with
  | (Ok r, x) => (Ok r, set_executor x p)
  | (Err e, x) => (Err (Consensus.InvalidVertex (show_state e)), set_executor x p)
  end.

Definition add_pending (instant : Z) (v : DAGVertex) (p : FP) : FP :=
  set_pending_vertices (<[vhash v := mkPendingVertex v [] instant false]> (pending_vertices p)) (wrapping_add u64_max (pending_count p) 1) p.

Definition take_payload (shard : Z) : OP (list SignedTransaction) := λ p,
  let '(txs, b) := ps_build shard 0 (fp_source p) in (Ok txs, set_source b p).

Definition create_vertex (now instant : Z) (shard : Z) (creator : Address) (secret_key : list Z) : OP DAGVertex :=
  txs <-? take_payload shard;
  fail_if (match txs with [] => true | _ => false end) (Consensus.InvalidVertex "No transactions") ?;
  v <-? (λ p, (match Dag.create_vertex hash_data now (fp_dag p) shard txs creator with
               | Ok v => Ok v | Err e => Err (Consensus.InvalidVertex (show_dag e)) end, p));
  state_root <-? speculate v;
  let v := Vertex.set_state_root state_root v in
  signature <-? lift (match sign secret_key (Vertex.signing_data v) with Ok s => Ok s | Err e => Err (CryptoError e) end);
  let v := Vertex.set_signature_unchecked signature v in
  n <-? gets pending_count;
  fail_if (MAX_PENDING_VERTICES <=? n) (ResourceExhausted "Pending vertices limit reached") ?;
  modify (add_pending instant v) ?;
  modify (send_vertex v) ?;
  returns v.

(** The shards in the order the threads finish. *)
Fixpoint create_vertices_parallel (now instant : Z) (shards : list Z) (creator : Address) (secret_key : list Z) (p : FP)
  : list (Result DAGVertex ConsensusError) * FP :=
  match shards with
  | [] => ([], p)
  | sh :: shards' =>
      let '(r, p1) := create_vertex now instant sh creator secret_key p in
      let '(rs, p2) := create_vertices_parallel now instant shards' creator secret_key p1 in
      (r :: rs, p2)
  end.

Definition payload_size (v : DAGVertex) : Z :=
  sumZ (map (λ tx, Z.of_nat (length (data (transaction tx))) + Z.of_nat (length (signature (transaction tx))) + 128) (transactions v)).

Definition check_known (h : Hash) : OP () := λ p,
  (match get_vertex (fp_dag p) h with
   | Err e => Err (Consensus.StorageError (show_dag e))
   | Ok None => Err (Consensus.InvalidVertex "Missing parent")
   | Ok (Some _) => Ok ()
   end, p).

Definition roll_back (h : Hash) : OP () := modify (λ p, set_executor (rollback_execution h (fp_executor p)) p).

Definition receive_vertex (instant : Z) (v : DAGVertex) : OP () := λ p,
  if bool_decide (is_Some (pending_vertices p !! vhash v)) then (Ok (), p)
  else
    (fail_if (MAX_VERTEX_PAYLOAD_SIZE <? payload_size v) (ResourceExhausted "Vertex payload too large") ?;
     for_each (parents v) check_known ?;
     state_root <-? speculate v;
     if negb (state_root =? Vertex.state_root v)
     then roll_back (vhash v) ?; throw (Consensus.InvalidVertex "State root mismatch")
     else
       n <-? gets pending_count;
       if MAX_PENDING_VERTICES <=? n
       then roll_back (vhash v) ?; throw (ResourceExhausted "Pending vertices limit reached")
       else modify (add_pending instant v)) p.

(** ** Confirmation *)

Definition confirm_vertex (v : DAGVertex) : OP (option (Hash * list TransactionReceipt)) :=
  result <-? (λ p, let '(r, x) := confirm_execution (vhash v) (fp_executor p) in (Ok r, set_executor x p));
  on_dag Consensus.StorageError (add_vertex v) ?;
  modify (add_confirmed v) ?;
  on_dag Consensus.StorageError (update_vertex_status_internal (vhash v) VConfirmed) ?;
  returns result.

Definition take_pending (h : Hash) (p : FP) : FP :=
  match pending_vertices p !! h with
  | Some _ => set_pending_vertices (delete h (pending_vertices p)) (wrapping_sub u64_max (pending_count p) 1) p
  | None => p
  end.

Definition confirm_vertex_direct (v : DAGVertex) : OP (option (Hash * list TransactionReceipt)) :=
  modify (take_pending (vhash v)) ?; confirm_vertex v.

Fixpoint confirm_vertices_batch_direct (vs : list DAGVertex) : OP (list (Hash * list TransactionReceipt * list SignedTransaction)) :=
  match vs with
  | [] => returns []
  | v :: vs' =>
      c <-? confirm_vertex_direct v;
      rest <-? confirm_vertices_batch_direct vs';
      returns (match c with Some (root, rs) => (root, rs, transactions v) :: rest | None => rest end)
  end.

(** ** Votes *)

Definition approve_stake (set : ValidatorSet) (votes : list CommitteeVote) : Z :=
  sum_u128 (map effective_stake (omap (λ v, get_validator set (validator v)) (filter (λ v, approve v = true) votes))).

(** What a vote has to pass. *)
Definition check_vote (cm : CommitteeManager) (c : Committee) (votes : list CommitteeVote) (vote : CommitteeVote) : Result () ConsensusError :=
  if negb (has_member c (validator vote)) then Err NotCommitteeMember
  else if existsb (λ w, validator w =? validator vote) votes then Err (InvalidVote "duplicate vote from validator")
  else
    match get_validator (validator_set cm) (validator vote) with
    | None => Err (InvalidValidator "Validator not found")
    | Some info =>
        match verify_sig (Validators.public_key info) (vote_signing_data vote) (vote_signature vote) with
        | Err e => Err (CryptoError e)
        | Ok false => Err (InvalidVote "invalid vote signature")
        | Ok true => Ok ()
        end
    end.

Definition set_pending_entry (h : Hash) (e : PendingVertex) (p : FP) : FP := set_pending_vertices (<[h := e]> (pending_vertices p)) (pending_count p) p.

Definition receive_vote (vote : CommitteeVote) : OP (option (Hash * list TransactionReceipt)) := λ p,
  let cm := committee_manager p in
  match pending_vertices p !! vertex_hash vote with
  | None => (Ok None, p)
  | Some e =>
      match get_committee_for_shard cm (current_epoch cm) (vshard_id (pv_vertex e)) with
      | None => (Err NotCommitteeMember, p)
      | Some c =>
          match check_vote cm c (pv_votes e) vote with
          | Err err => (Err err, p)
          | Ok _ =>
              let votes := pv_votes e ++ [vote] in
              let e1 := mkPendingVertex (pv_vertex e) votes (pv_received_at e) (pre_confirmed e) in
              let p1 := set_pending_entry (vertex_hash vote) e1 p in
              match quorum_threshold c with
              | Err err => (Err (Consensus.InvalidVertex (show_consensus err)), p1)
              | Ok quorum =>
                  if (quorum <=? approve_stake (validator_set cm) votes) && negb (pre_confirmed e) then
                    let v := Vertex.set_status VPreConfirmed (pv_vertex e) in
                    confirm_vertex v (set_pending_entry (vertex_hash vote) (mkPendingVertex v votes (pv_received_at e) true) p)
                  else (Ok None, p1)
              end
          end
      end
  end.

Definition create_vote (now : Z) (vertex_hash : Hash) (validator : Address) (approve : bool) (stake_weight : Z) (secret_key : list Z)
  : Result CommitteeVote ConsensusError :=
  let vote := new_vote now validator vertex_hash approve stake_weight in
  match sign secret_key (vote_signing_data vote) with
  | Err e => Err (CryptoError e)
  | Ok s =>
      if (length secret_key <? MLDSA65_PK_SIZE)%nat then Err (CryptoError "ML-DSA-65 secret key is too short to derive public key")
      else Ok (set_vote_signature_unchecked s vote)
  end.

Definition get_pending_vertex (h : Hash) (p : FP) : option DAGVertex := pv_vertex <$> pending_vertices p !! h.
Definition get_confirmed_vertex (h : Hash) (p : FP) : option DAGVertex := confirmed_vertices p !! h.
Definition confirmed_count (p : FP) : Z := vertex_count (fp_dag p).

(** The key of a creator that is not a validator is empty. *)
Definition key_or_empty (set : ValidatorSet) (a : Address) : list Z := from_option Validators.public_key [] (get_validator set a).

Definition batch_verify_vertices (verify_batch : list (list Z * list Z * list Z) → list bool) (p : FP) (vs : list DAGVertex) : list bool :=
  match vs with
  | [] => []
  | _ => verify_batch (map (λ v, (key_or_empty (validator_set (committee_manager p)) (creator v), Vertex.signing_data v, vsignature v)) vs)
  end.

(** [votes[0]] panics on no votes. *)
Definition aggregate_committee_signatures {G} (aggregate : list (list Z) → list (list Z) → list Z → Result G string) (p : FP) (votes : list CommitteeVote)
  : option (Result G ConsensusError) :=
  match votes with
  | [] => None
  | v0 :: _ =>
      Some (match aggregate (map vote_signature votes) (map (λ v, key_or_empty (validator_set (committee_manager p)) (validator v)) votes) (hash_bytes (vertex_hash v0)) with
            | Ok g => Ok g
            | Err e => Err (CryptoError e)
            end)
  end.

End FastPath.

(** ** Aggregated votes *)

Record AggregatedSignature : Type := mkAggregated {
  ag_vertex_hash : Hash;
  ag_committee_id : Z;
  ag_validators : list Address;
  ag_sig : list Z;
  ag_bitmap : list Z;
  ag_total_stake : Z
}.

Abbreviation VotesByVertex := (gmap Hash (list CommitteeVote)).

Definition add_vote (vote : CommitteeVote) (m : VotesByVertex) : VotesByVertex := <[vertex_hash vote := default [] (m !! vertex_hash vote) ++ [vote]]> m.

(** [bitmap[i / 8] |= 1 << (i % 8)] *)
Definition set_bit (i : nat) (bm : list Z) : list Z := alter (λ b, Z.lor b (Z.shiftl 1 (Z.of_nat (i mod 8)))) (i / 8)%nat bm.

Fixpoint fill_bitmap (i : nat) (votes : list CommitteeVote) (bm : list Z) : list Z :=
  match votes with
  | [] => bm
  | v :: votes' => fill_bitmap (S i) votes' (if approve v then set_bit i bm else bm)
  end.

Definition aggregate_votes (h : Hash) (committee_id : Z) (m : VotesByVertex) : option AggregatedSignature :=
  votes ← m !! h;
  let yes := filter (λ v, approve v = true) votes in
  match yes with
  | [] => None
  | _ =>
      Some (mkAggregated h committee_id (map validator yes) (concat (map vote_signature yes))
              (fill_bitmap 0 votes (replicate ((length votes + 7) / 8)%nat 0)) (foldl (wrapping_add u64_max) 0 (map stake_weight yes)))
  end.

Definition clear_vertex (h : Hash) (m : VotesByVertex) : VotesByVertex := delete h m.

(** ** Invariants *)

Lemma wrapping_add_small max a b : 0 ≤ a + b ≤ max → wrapping_add max a b = a + b.
Proof. intros Hab. unfold wrapping_add. apply Z.mod_small. lia. Qed.

Lemma wrapping_sub_small max a b : 0 ≤ a - b ≤ max → wrapping_sub max a b = a - b.
Proof. intros Hab. unfold wrapping_sub. apply Z.mod_small. lia. Qed.

Section Invariants.
Context {SM St B : Type} `{!StateOps SM} `{!VertexStore St} `{!PayloadSource B}.
Context (hash_data : list Z → Hash) (verify_sig : list Z → list Z → list Z → Result bool string).
Context (sign : list Z → list Z → Result (list Z) string).
Context (show_dag : DAGError → string) (show_state : StateError → string) (show_consensus : ConsensusError → string).

Abbreviation FP := (FastPath SM St B).
Abbreviation create_vertex := (create_vertex hash_data sign show_dag show_state).
Abbreviation receive_vertex := (receive_vertex show_dag show_state).
Abbreviation receive_vote := (receive_vote verify_sig show_dag show_consensus).
Abbreviation confirm_vertex := (confirm_vertex show_dag).
Abbreviation confirm_vertex_direct := (confirm_vertex_direct show_dag).
Implicit Types (p : FP).

(** A vote by a member of the committee of the shard, signed with its registered key. *)
Definition valid_vote (cm : CommitteeManager) (h : Hash) (shard : Z) (vote : CommitteeVote) : Prop :=
  vertex_hash vote = h ∧ ∃ c info, get_committee_for_shard cm (current_epoch cm) shard = Some c ∧ has_member c (validator vote) = true ∧
    get_validator (validator_set cm) (validator vote) = Some info ∧
    verify_sig (Validators.public_key info) (vote_signing_data vote) (vote_signature vote) = Ok true.

(** A vote that was valid when one of the managers was in force. *)
Definition valid_once (cms : list CommitteeManager) (h : Hash) (shard : Z) (vote : CommitteeVote) : Prop := ∃ cm, cm ∈ cms ∧ valid_vote cm h shard vote.

Record entry_ok (cms : list CommitteeManager) (h : Hash) (e : PendingVertex) : Prop := {
  en_hash : vhash (pv_vertex e) = h;
  en_nodup : base.NoDup (map validator (pv_votes e));
  en_votes : Forall (valid_once cms h (vshard_id (pv_vertex e))) (pv_votes e)
}.

Record fp_ok (cms : list CommitteeManager) p : Prop := {
  ok_entries : map_Forall (entry_ok cms) (pending_vertices p);
  ok_count : Z.of_nat (size (pending_vertices p)) ≤ pending_count p ≤ MAX_PENDING_VERTICES
}.

(** A confirmed vertex and the votes that confirmed it, of which the last came when [cm] was the manager and
    the others then or before. *)
Definition certified (cms : list CommitteeManager) (h : Hash) (v : DAGVertex) : Prop :=
  vhash v = h ∧ ∃ cm past c q votes vote, (cm :: past) `suffix_of` cms ∧
    get_committee_for_shard cm (current_epoch cm) (vshard_id v) = Some c ∧ quorum_threshold c = Ok q ∧
    base.NoDup (map validator (votes ++ [vote])) ∧ Forall (valid_once (cm :: past) h (vshard_id v)) votes ∧ valid_vote cm h (vshard_id v) vote ∧
    q ≤ approve_stake (validator_set cm) (votes ++ [vote]).

Lemma valid_once_mono cms cms' h shard votes : cms `suffix_of` cms' → Forall (valid_once cms h shard) votes → Forall (valid_once cms' h shard) votes.
Proof. intros [k ->] Hv. eapply list.Forall_impl; [exact Hv|]. intros vote (cm & Hcm & Hx). exists cm. split; [apply elem_of_app; by right|done]. Qed.

Lemma fp_ok_mono cms cms' p : cms `suffix_of` cms' → fp_ok cms p → fp_ok cms' p.
Proof. intros Hs [He Hc]. split; [|done]. intros h e Hh. destruct (He h e Hh) as [? ? ?]. split; [done..|]. by eapply valid_once_mono. Qed.

Lemma certified_mono cms cms' h v : cms `suffix_of` cms' → certified cms h v → certified cms' h v.
Proof. intros Hs (Hh & cm & past & c & q & votes & vote & Hp & Hr). split; [done|]. exists cm, past, c, q, votes, vote. split; [by etrans|done]. Qed.

(** What only the votes and confirmations change. *)
Definition same_pool p p' : Prop :=
  committee_manager p' = committee_manager p ∧ pending_vertices p' = pending_vertices p ∧ confirmed_vertices p' = confirmed_vertices p ∧ pending_count p' = pending_count p.

Lemma same_pool_ok cms p p' : same_pool p p' → fp_ok cms p → fp_ok cms p'.
Proof. intros (_ & Hp & _ & Hn) [He Hc]. split; by rewrite ?Hp, ?Hn. Qed.

Lemma add_pending_ok cms instant v p : fp_ok cms p → pending_count p < MAX_PENDING_VERTICES → fp_ok cms (add_pending instant v p).
Proof.
  intros [He Hc] Hlt. split; cbn [add_pending set_pending_vertices committee_manager pending_vertices pending_count].
  - apply map_Forall_insert_2; [|done]. split; [done|apply base.NoDup_nil_2|apply list.Forall_nil_2].
  - rewrite wrapping_add_small by (unfold MAX_PENDING_VERTICES, u64_max in *; lia). rewrite map_size_insert. destruct (pending_vertices p !! vhash v); cbn [id]; lia.
Qed.

Lemma drop_pending_ok cms h p : fp_ok cms p → is_Some (pending_vertices p !! h) → fp_ok cms (set_pending_vertices (delete h (pending_vertices p)) (wrapping_sub u64_max (pending_count p) 1) p).
Proof.
  intros [He Hc] Hh. pose proof (map_size_delete_Some _ _ Hh) as Hsz. assert (size (pending_vertices p) ≠ 0%nat).
  { intros Hz. apply map_size_empty_inv in Hz. rewrite Hz in Hh. by destruct Hh as [? Hh%lookup_empty_Some]. }
  split; cbn [set_pending_vertices committee_manager pending_vertices pending_count]; [by apply map_Forall_delete|].
  rewrite wrapping_sub_small by (unfold MAX_PENDING_VERTICES, u64_max in *; lia). lia.
Qed.

Lemma take_pending_ok cms h p : fp_ok cms p → fp_ok cms (take_pending h p).
Proof. intros Hp. unfold take_pending. destruct (pending_vertices p !! h) eqn:E; [|done]. apply drop_pending_ok; [done|by rewrite E]. Qed.

(** The cleanup removes each stale vertex once. *)
Lemma cleanup_frame cms now p :
  fp_ok cms p → fp_ok cms (cleanup now p) ∧ committee_manager (cleanup now p) = committee_manager p ∧ confirmed_vertices (cleanup now p) = confirmed_vertices p.
Proof.
  unfold cleanup. set (hs := (filter _ _).*1). intros Hp. assert (Hin : Forall (λ h, is_Some (pending_vertices p !! h)) hs).
  { apply list.Forall_forall. intros h ([k e] & -> & [_ Hin]%list_elem_of_filter)%list_elem_of_fmap. apply elem_of_map_to_list in Hin. by exists e. }
  assert (Hnd : base.NoDup hs).
  { eapply sublist_NoDup; [apply (NoDup_fst_map_to_list (pending_vertices p))|]. apply fmap_sublist, sublist_filter. }
  clearbody hs. revert p Hp Hin. induction hs as [|h hs IH]; intros p Hp Hin; [done|]. apply list.NoDup_cons in Hnd as [Hni Hnd]. apply list.Forall_cons in Hin as [Hh Hin]. cbn [foldl].
  destruct (IH Hnd (drop_pending h p)) as (Hok & Hcm & Hcf); [|eapply list.Forall_impl; [apply list.Forall_forall; intros x Hx; exact (conj Hx (proj1 (list.Forall_forall _ _) Hin x Hx))|]|done].
  - eapply same_pool_ok; [|by apply (drop_pending_ok cms h p)]. by split_and!.
  - intros x [Hx1 Hx2]. cbn. rewrite lookup_delete_ne; [done|]. by intros <-.
Qed.

(** What holds of every state an operation other than a confirmation leaves. *)
Definition pool_step cms p p' : Prop := fp_ok cms p' ∧ committee_manager p' = committee_manager p ∧ confirmed_vertices p' = confirmed_vertices p.

Lemma pool_step_same cms p0 p p' : pool_step cms p0 p → same_pool p p' → pool_step cms p0 p'.
Proof. intros (Hok & Hcm & Hcf) Hs. split; [by eapply same_pool_ok|]. destruct Hs as (-> & _ & -> & _). done. Qed.

Lemma pool_step_add cms p0 p instant v : pool_step cms p0 p → pending_count p < MAX_PENDING_VERTICES → pool_step cms p0 (add_pending instant v p).
Proof. intros (Hok & Hcm & Hcf) Hlt. split; [by apply add_pending_ok|done]. Qed.

Lemma speculate_same v p : same_pool p (speculate show_state v p).2.
Proof. unfold speculate. by destruct (speculative_execute v (fp_executor p)) as [[]]. Qed.

Lemma create_vertex_ok cms now instant shard c sk p : fp_ok cms p → pool_step cms p (create_vertex now instant shard c sk p).2.
Proof.
  intros Hp. unfold FastPath.create_vertex. apply bindM_inv.
  { unfold take_payload. destruct (ps_build _ _ _). by apply (pool_step_same cms p p). }
  intros txs p1 _ Hp1. apply bindM_inv; [done|]. intros [] p2 E Hp2. injection E as _ <-. apply bindM_inv; [done|]. intros v p3 E Hp3. injection E as _ <-.
  apply bindM_inv. { eapply pool_step_same; [done|]. apply speculate_same. }
  intros root p4 _ Hp4. apply bindM_inv; [done|]. intros sg p5 E Hp5. injection E as _ <-. apply bindM_inv; [done|]. intros n p6 E Hp6. injection E as <- <-.
  apply bindM_inv; [done|]. intros [] p7 E Hp7. unfold fail_if in E. destruct (Z.leb_spec MAX_PENDING_VERTICES (pending_count p4)) as [|Hlt]; [done|]. injection E as <-.
  apply bindM_inv. { by apply pool_step_add. } intros [] p8 E Hp8. apply bindM_inv; [by apply (pool_step_same cms _ p8)|]. intros [] p9 _ Hp9. done.
Qed.

Lemma receive_vertex_ok cms instant v p : fp_ok cms p → pool_step cms p (receive_vertex instant v p).2.
Proof.
  intros Hp. unfold FastPath.receive_vertex. destruct (bool_decide _); [done|]. apply bindM_inv; [done|]. intros [] p1 E _. injection E as _ <-.
  apply bindM_inv. { apply for_each_inv; [|done]. done. }
  intros [] p2 _ Hp2. apply bindM_inv. { eapply pool_step_same; [done|]. apply speculate_same. }
  intros root p3 _ Hp3. destruct (negb _). { apply bindM_inv; [by apply (pool_step_same cms _ p3)|done]. }
  apply bindM_inv; [done|]. intros n p4 E _. injection E as <- <-. destruct (Z.leb_spec MAX_PENDING_VERTICES (pending_count p3)).
  { apply bindM_inv; [by apply (pool_step_same cms _ p3)|done]. } by apply pool_step_add.
Qed.

(** Confirming keeps the pool and confirms at most that vertex. *)
Lemma confirm_vertex_frame v p :
  let p' := (confirm_vertex v p).2 in
  committee_manager p' = committee_manager p ∧ pending_vertices p' = pending_vertices p ∧ pending_count p' = pending_count p ∧
  (confirmed_vertices p' = confirmed_vertices p ∨ confirmed_vertices p' = <[vhash v := v]> (confirmed_vertices p)).
Proof.
  assert (Hdag : ∀ f A (m : M (DAGGraph St) DAGError A) q, same_pool q (on_dag show_dag f m q).2).
  { intros f A m q. unfold on_dag. by destruct (m (fp_dag q)) as [[]]. }
  unfold FastPath.confirm_vertex, bindM. cbn beta. destruct (confirm_execution (vhash v) (fp_executor p)) as [r x].
  pose proof (Hdag Consensus.StorageError _ (add_vertex v) (set_executor x p)) as H1. destruct (on_dag show_dag _ (add_vertex v) (set_executor x p)) as [[[]|e] p1].
  2: { destruct H1 as (? & ? & ? & ?). by split_and!; [..|left]. }
  pose proof (Hdag Consensus.StorageError _ (update_vertex_status_internal (vhash v) VConfirmed) (add_confirmed v p1)) as H2. cbn [modify].
  destruct (on_dag show_dag _ (update_vertex_status_internal (vhash v) VConfirmed) (add_confirmed v p1)) as [[[]|e] p2]; cbn [snd returns] in *;
    destruct H1 as (? & ? & Hc1 & ?), H2 as (? & ? & Hc2 & ?); (split_and!; [by etrans..|]); right; rewrite Hc2; cbn; by rewrite Hc1.
Qed.

Lemma check_vote_valid cm c h shard votes vote :
  get_committee_for_shard cm (current_epoch cm) shard = Some c → check_vote verify_sig cm c votes vote = Ok () → vertex_hash vote = h →
  base.NoDup (map validator votes) → valid_vote cm h shard vote ∧ base.NoDup (map validator (votes ++ [vote])).
Proof.
  intros Hc Hv Hh Hnd. unfold check_vote in Hv. destruct (has_member c (validator vote)) eqn:Hm; [|done]. cbn [negb] in Hv. destruct (existsb _ votes) eqn:Hdup; [done|].
  destruct (get_validator (validator_set cm) (validator vote)) as [info|] eqn:Hi; [|done]. destruct (verify_sig _ _ _) as [[]|] eqn:Hs; [|done|done]. split.
  - split; [done|]. by exists c, info.
  - rewrite map_app. apply list.NoDup_app. split_and!; [done| |apply NoDup_singleton]. intros a (w & -> & Hw)%list_elem_of_fmap Ha. apply list_elem_of_singleton in Ha.
    apply not_true_iff_false in Hdup. apply Hdup, existsb_exists. exists w. split; [by apply list_elem_of_In|]. by apply Z.eqb_eq.
Qed.

Lemma receive_vote_ok past vote p (cms := committee_manager p :: past) :
  fp_ok cms p → let p' := (receive_vote vote p).2 in
  fp_ok cms p' ∧ committee_manager p' = committee_manager p ∧
  (confirmed_vertices p' = confirmed_vertices p ∨
   ∃ v, certified cms (vhash v) v ∧ confirmed_vertices p' = <[vhash v := v]> (confirmed_vertices p)).
Proof.
  intros Hp. unfold FastPath.receive_vote. set (cm := committee_manager p) in *. destruct (pending_vertices p !! vertex_hash vote) as [e|] eqn:He; [|by split_and!; [..|left]].
  destruct (get_committee_for_shard cm (current_epoch cm) (vshard_id (pv_vertex e))) as [c|] eqn:Hc; [|by split_and!; [..|left]].
  destruct (check_vote verify_sig cm c (pv_votes e) vote) as [[]|err] eqn:Hv; [|by split_and!; [..|left]].
  pose proof (ok_entries cms p Hp _ _ He) as [Hh Hnd Hvs]. destruct (check_vote_valid cm c _ _ _ vote Hc Hv eq_refl Hnd) as [Hval Hnd'].
  assert (Hall : Forall (valid_once cms (vertex_hash vote) (vshard_id (pv_vertex e))) (pv_votes e ++ [vote])).
  { apply list.Forall_app. split; [done|]. apply list.Forall_singleton. exists cm. split; [left|done]. }
  assert (Hset : ∀ v b, vhash v = vertex_hash vote → vshard_id v = vshard_id (pv_vertex e) →
    fp_ok cms (set_pending_entry (vertex_hash vote) (mkPendingVertex v (pv_votes e ++ [vote]) (pv_received_at e) b) p)).
  { intros v b Hvh Hsh. destruct Hp as [Hen Hcnt]. split; cbn [set_pending_entry set_pending_vertices committee_manager pending_vertices pending_count].
    - apply map_Forall_insert_2; [|done]. split; [done|done|]. cbn. by rewrite Hsh.
    - by rewrite map_size_insert_Some by (by rewrite He). }
  destruct (quorum_threshold c) as [q|err] eqn:Hq; [|split_and!; [by apply Hset|done|by left]].
  destruct (Z.leb_spec q (approve_stake (validator_set cm) (pv_votes e ++ [vote]))) as [Hge|]; [|split_and!; [by apply Hset|done|by left]].
  destruct (pre_confirmed e); cbn [negb andb]; [split_and!; [by apply Hset|done|by left]|].
  set (v := Vertex.set_status VPreConfirmed (pv_vertex e)). set (p1 := set_pending_entry _ _ p). pose proof (confirm_vertex_frame v p1) as (Hcm' & Hpe & Hn & Hcf).
  destruct (confirm_vertex v p1) as [r p2]. cbn [snd] in *. assert (Hp1 : fp_ok cms p1) by by apply Hset.
  split_and!; [|done|].
  - destruct Hp1 as [Hen Hcnt]. split; [by rewrite Hpe|by rewrite Hpe, Hn].
  - destruct Hcf as [Hcf|Hcf]; [by left|]. right. exists v. split; [|done]. change (vhash v) with (vhash (pv_vertex e)). rewrite Hh. split; [done|].
    exists cm, past, c, q, (pv_votes e), vote. by split_and!.
Qed.

(** ** Runs *)

(** Calls of the fast path, and of the committee manager it shares with the engine. *)
Inductive FpOp : Type :=
  | OpSubmit (tx : SignedTransaction)
  | OpCreate (now instant shard : Z) (creator : Address) (secret_key : list Z)
  | OpReceive (instant : Z) (v : DAGVertex)
  | OpVote (vote : CommitteeVote)
  | OpDirect (v : DAGVertex)
  | OpCleanup (now : Z)
  | OpRotate (fuel : nat) (epoch slot : Z) (randomness : Hash)
  | OpAddValidator (v : Validator)
  | OpRemoveValidator (a : Address)
  | OpVrfKey (a : Address) (key : list Z)
  | OpFinalityKey (a : Address) (key : list Z).

(** A rotation whose sampling takes more than [fuel] draws has not returned. *)
Definition fp_step p (o : FpOp) : FP :=
  match o with
  | OpSubmit tx => (process_transaction tx p).2
  | OpCreate now instant shard c sk => (create_vertex now instant shard c sk p).2
  | OpReceive instant v => (receive_vertex instant v p).2
  | OpVote vote => (receive_vote vote p).2
  | OpDirect v => (confirm_vertex_direct v p).2
  | OpCleanup now => cleanup now p
  | OpRotate fuel epoch slot randomness =>
      match rotate_committees hash_data fuel epoch slot randomness (committee_manager p) with Some cm => set_manager cm p | None => p end
  | OpAddValidator v => set_manager (cm_add_validator v (committee_manager p)).2 p
  | OpRemoveValidator a => set_manager (cm_remove_validator a (committee_manager p)) p
  | OpVrfKey a key => set_manager (update_validator_vrf a key (committee_manager p)) p
  | OpFinalityKey a key => set_manager (update_validator_finality_key a key (committee_manager p)) p
  end.

Definition by_votes (o : FpOp) : Prop := match o with OpDirect _ => False | _ => True end.

(** The managers in force during a run, the last one first, after those of [past]. *)
Fixpoint managers (past : list CommitteeManager) p (ops : list FpOp) : list CommitteeManager :=
  match ops with
  | [] => committee_manager p :: past
  | o :: ops' => managers (committee_manager p :: past) (fp_step p o) ops'
  end.

Lemma direct_ok cms v p : fp_ok cms p → fp_ok cms (confirm_vertex_direct v p).2.
Proof.
  intros Hp. unfold FastPath.confirm_vertex_direct. change (bindM _ _ p) with (confirm_vertex v (take_pending (vhash v) p)).
  pose proof (take_pending_ok cms (vhash v) p Hp) as [He Hc]. pose proof (confirm_vertex_frame v (take_pending (vhash v) p)) as (_ & Hpe & Hn & _).
  split; by rewrite ?Hpe, ?Hn.
Qed.

Lemma fp_step_ok past p o (cms := committee_manager p :: past) : fp_ok cms p → fp_ok cms (fp_step p o).
Proof.
  intros Hp. destruct o as [tx|now instant shard c sk|instant v|vote|v|now|fuel ep sl rnd|v|a|a k|a k]; cbn [fp_step].
  - unfold process_transaction. destruct (ps_ingest tx (fp_source p)) as [ok b]. by apply (same_pool_ok cms p).
  - by destruct (create_vertex_ok cms now instant shard c sk p Hp) as (? & _).
  - by destruct (receive_vertex_ok cms instant v p Hp) as (? & _).
  - by destruct (receive_vote_ok past vote p Hp) as (? & _).
  - by apply direct_ok.
  - by destruct (cleanup_frame cms now p Hp) as (? & _).
  - destruct (rotate_committees _ _ _ _ _ _); [|done]. by destruct Hp.
  - by destruct Hp.
  - by destruct Hp.
  - by destruct Hp.
  - by destruct Hp.
Qed.

Lemma fp_step_certified past p o (cms := committee_manager p :: past) :
  fp_ok cms p → by_votes o → map_Forall (certified cms) (confirmed_vertices p) → map_Forall (certified cms) (confirmed_vertices (fp_step p o)).
Proof.
  intros Hp Hby Hc. destruct o as [tx|now instant shard c sk|instant v|vote|v|now|fuel ep sl rnd|v|a|a k|a k]; cbn [fp_step]; try done.
  - unfold process_transaction. by destruct (ps_ingest tx (fp_source p)).
  - destruct (create_vertex_ok cms now instant shard c sk p Hp) as (_ & _ & ->). done.
  - destruct (receive_vertex_ok cms instant v p Hp) as (_ & _ & ->). done.
  - destruct (receive_vote_ok past vote p Hp) as (_ & _ & [-> |(v & Hv & ->)]); [done|]. by apply map_Forall_insert_2.
  - destruct (cleanup_frame cms now p Hp) as (_ & _ & ->). done.
  - by destruct (rotate_committees _ _ _ _ _ _).
Qed.

Lemma suffix_snoc_manager past p p' : (committee_manager p :: past) `suffix_of` (committee_manager p' :: committee_manager p :: past).
Proof. by exists [committee_manager p']. Qed.

Lemma fp_run_ok ops : ∀ past p, fp_ok (committee_manager p :: past) p → fp_ok (managers past p ops) (foldl fp_step p ops).
Proof.
  induction ops as [|o ops IH]; intros past p Hp; [done|]. cbn [foldl managers]. apply IH. eapply fp_ok_mono; [apply suffix_snoc_manager|]. by apply fp_step_ok.
Qed.

Lemma fp_run_certified ops : Forall by_votes ops → ∀ past p, fp_ok (committee_manager p :: past) p →
  map_Forall (certified (committee_manager p :: past)) (confirmed_vertices p) →
  map_Forall (certified (managers past p ops)) (confirmed_vertices (foldl fp_step p ops)).
Proof.
  induction 1 as [|o ops Ho Hops IH]; intros past p Hp Hc; [done|]. cbn [foldl managers]. apply IH.
  - eapply fp_ok_mono; [apply suffix_snoc_manager|]. by apply fp_step_ok.
  - intros h v Hv. eapply certified_mono; [apply suffix_snoc_manager|]. by apply (fp_step_certified past p o Hp Ho Hc).
Qed.

Lemma new_fast_path_ok cms dag source x cm ch : fp_ok cms (new_fast_path dag source x cm ch).
Proof. split; [apply map_Forall_empty|]. cbn. rewrite map_size_empty. unfold MAX_PENDING_VERTICES. lia. Qed.

(** On every run of the fast path, in any order of submissions, vertices, votes, direct confirmations, cleanups, rotations and changes of
    the validator set: the pool of pending vertices is bounded by its counter, the counter by the limit, and the votes of a
    pending vertex are by different validators, all on that vertex, each by a member of the committee of the shard when it
    arrived and signed with the key registered then. *)
Theorem fast_path_bounded dag source x cm ch ops :
  let p0 := new_fast_path dag source x cm ch in let p := foldl fp_step p0 ops in
  Z.of_nat (size (pending_vertices p)) ≤ pending_count p ≤ MAX_PENDING_VERTICES ∧
  ∀ h e, pending_vertices p !! h = Some e → vhash (pv_vertex e) = h ∧ base.NoDup (map validator (pv_votes e)) ∧
    Forall (valid_once (managers [] p0 ops) h (vshard_id (pv_vertex e))) (pv_votes e).
Proof.
  destruct (fp_run_ok ops [] _ (new_fast_path_ok _ dag source x cm ch)) as [He Hc]. cbv zeta. split; [done|]. intros h e Hh. by destruct (He h e Hh).
Qed.

(** C31. Every vertex confirmed by votes had a quorum of stake.  On every run without direct confirmations, from any committee
    manager, with committees rotated and validators added, removed and given keys at any time: for each confirmed vertex
    there is the manager in force when it was confirmed, a committee of that manager for its shard, and votes on
    its hash by different validators, each a member of the committee of the shard under that manager or an earlier one, when the vote
    arrived, and signed with the key registered then, the last one under that manager, such that the stake that
    the validator set of that manager gives to the approving ones reaches the quorum of the committee.  So votes of earlier
    committees count towards the quorum of the new one, see [old_committee_votes_count]; when the manager does not change, all
    votes are by members of the one committee. *)
Theorem confirmed_by_quorum dag source x cm ch ops :
  Forall by_votes ops → let p0 := new_fast_path dag source x cm ch in
  map_Forall (certified (managers [] p0 ops)) (confirmed_vertices (foldl fp_step p0 ops)).
Proof. intros Hby. apply fp_run_certified; [done|apply new_fast_path_ok|apply map_Forall_empty]. Qed.

(** ** What is not checked *)

(** A received vertex is accepted or refused without regard to its signature and its creator, and one that is pending under the
    same hash is never replaced: whoever is first to announce a hash decides which vertex it names. *)
Theorem receive_vertex_unauthenticated instant v sg cr p :
  let v' := mkVertex (vhash v) (parents v) (transactions v) (vtimestamp v) (vshard_id v) cr sg (weight v) (height v) (status v) (committee_votes v) (Vertex.state_root v) in
  (receive_vertex instant v' p).1 = (receive_vertex instant v p).1 ∧
  ∀ w e, vhash w = vhash v → pending_vertices p !! vhash v = Some e → receive_vertex instant w p = (Ok (), p).
Proof.
  intros v'. split; [|intros w e Hw He; unfold FastPath.receive_vertex; by rewrite Hw, He].
  unfold FastPath.receive_vertex. change (vhash v') with (vhash v). destruct (bool_decide _); [done|].
  change (payload_size v') with (payload_size v). change (parents v') with (parents v). change (Vertex.state_root v') with (Vertex.state_root v).
  unfold bindM. destruct (fail_if _ _ p) as [[[]|e] p1]; [|done]. destruct (for_each (parents v) _ p1) as [[[]|e] p2]; [|done].
  unfold speculate, speculative_execute. change (prepare_vertex v' (executor (fp_executor p2))) with (prepare_vertex v (executor (fp_executor p2))).
  destruct (prepare_vertex v (executor (fp_executor p2))) as [[e|e] x]; [|done]. destruct (negb _); [done|]. cbn. by destruct (_ <=? _).
Qed.

Context `{!PayloadLaws B}.

(** The graph, the pool, the confirmed vertices and the channel. *)
Definition same_vertices p p' : Prop :=
  fp_dag p' = fp_dag p ∧ pending_vertices p' = pending_vertices p ∧ confirmed_vertices p' = confirmed_vertices p ∧ vertex_sender p' = vertex_sender p.

Lemma failed_creation now instant shard c sk p :
  is_ok (create_vertex now instant shard c sk p).1 = false →
  let p' := (create_vertex now instant shard c sk p).2 in fp_source p' = (ps_build shard 0 (fp_source p)).2 ∧ same_vertices p p'.
Proof.
  unfold FastPath.create_vertex, bindM, take_payload. destruct (ps_build shard 0 (fp_source p)) as [txs b]. unfold fail_if. destruct txs as [|tx txs]; [done|]. cbn [set_source fp_dag].
  destruct (Dag.create_vertex _ _ _ _ _ _) as [v|e]; [|done]. unfold speculate.
  match goal with |- context [speculative_execute v ?x] => destruct (speculative_execute v x) as [[root|e] x1] end; [|done].
  unfold lift. destruct (sign sk _); [|done]. unfold gets. cbn [set_executor pending_count]. by destruct (_ <=? _).
Qed.

(** C40. Building a vertex takes its transactions out of the ingress buffer first.  When the creation then fails, for whatever
    reason (the creator is not authorized, the graph refuses the vertex, its execution or its signature fails, the pool is
    full), the transactions of the payload have left the queue of the shard, and no vertex was added to the
    pool, the graph, the confirmed vertices or the channel: they are lost (the admission scheduler has a copy that is never
    taken out).  A creator that is not authorized makes the creation fail. *)
Theorem refused_vertex_loses_transactions now instant shard c sk p :
  let '(r, p') := create_vertex now instant shard c sk p in
  (is_authorized_creator (fp_dag p) c = false → is_ok r = false) ∧
  (is_ok r = false →
   (∃ taken, ps_queue shard (fp_source p) = taken ++ ps_queue shard (fp_source p') ∧ ∀ tx, tx ∈ (ps_build shard 0 (fp_source p)).1 → tx ∈ taken) ∧
   fp_dag p' = fp_dag p ∧ pending_vertices p' = pending_vertices p ∧ confirmed_vertices p' = confirmed_vertices p ∧ vertex_sender p' = vertex_sender p).
Proof.
  pose proof (failed_creation now instant shard c sk p) as Hf.
  destruct (create_vertex now instant shard c sk p) as [r p'] eqn:E. cbn [fst snd] in Hf. split.
  - intros Hc. revert E. unfold FastPath.create_vertex, bindM, take_payload. destruct (ps_build shard 0 (fp_source p)) as [txs b]. unfold fail_if.
    destruct txs as [|tx txs]; [by intros [= <- _]|]. unfold Dag.create_vertex. cbn [set_source fp_dag]. rewrite Hc. cbn [negb]. by intros [= <- _].
  - intros Hr. destruct (Hf Hr) as [Hs Hv]. split; [|done]. rewrite Hs. apply ps_build_takes.
Qed.

End Invariants.

(** ** Aggregated votes *)

Definition bit (j : nat) (bm : list Z) : bool := match bm !! (j / 8)%nat with Some b => Z.testbit b (Z.of_nat (j mod 8)) | None => false end.

Lemma set_vote_bit_spec i j bm : (i / 8 < length bm)%nat → bit j (set_bit i bm) = bit j bm || (i =? j)%nat.
Proof.
  intros Hi. unfold bit, set_bit. destruct (decide (i / 8 = j / 8)%nat) as [Heq|Hne].
  - rewrite <- Heq, list_lookup_alter_eq. destruct (lookup_lt_is_Some_2 bm (i / 8) Hi) as [b ->]. cbn [fmap option_fmap option_map]. rewrite Z.lor_spec, Z.shiftl_spec by lia. f_equal.
    pose proof (Nat.div_mod i 8 ltac:(lia)). pose proof (Nat.div_mod j 8 ltac:(lia)).
    destruct (Nat.eqb_spec i j) as [-> |Hij].
    + by rewrite Z.sub_diag.
    + change 1 with (2 ^ 0). rewrite Z.pow2_bits_false; [done|]. intros Hz. apply Hij. lia.
  - rewrite list_lookup_alter_ne by done. destruct (Nat.eqb_spec i j) as [-> |]; [done|]. by rewrite orb_false_r.
Qed.

Lemma fill_bitmap_spec votes : ∀ i j bm, (i + length votes ≤ 8 * length bm)%nat →
  bit j (fill_bitmap i votes bm) = bit j bm || ((i <=? j)%nat && match votes !! (j - i)%nat with Some v => approve v | None => false end).
Proof.
  induction votes as [|v votes IH]; intros i j bm Hlen; cbn [fill_bitmap]; [by rewrite andb_false_r, orb_false_r|]. cbn [length] in Hlen.
  assert (Hi : (i / 8 < length bm)%nat) by (apply Nat.Div0.div_lt_upper_bound; lia).
  assert (Hlen' : length (if approve v then set_bit i bm else bm) = length bm) by (destruct (approve v); [apply length_alter|done]).
  rewrite IH by (rewrite Hlen'; lia). assert (Hb : bit j (if approve v then set_bit i bm else bm) = bit j bm || (approve v && (i =? j)%nat)).
  { destruct (approve v); [by apply set_vote_bit_spec|by rewrite orb_false_r]. }
  rewrite Hb, <- orb_assoc. f_equal. destruct (Nat.eqb_spec i j) as [-> |Hne].
  - rewrite Nat.sub_diag, Nat.leb_refl, andb_true_r. rewrite (proj2 (Nat.leb_gt (S j) j)) by lia. cbn. by rewrite orb_false_r.
  - rewrite andb_false_r. cbn [orb]. destruct (Nat.leb_spec i j).
    + rewrite (proj2 (Nat.leb_le (S i) j)) by lia. replace (j - i)%nat with (S (j - S i)) by lia. done.
    + by rewrite (proj2 (Nat.leb_gt (S i) j)) by lia.
Qed.

Lemma bit_zeros j n : bit j (replicate n 0) = false.
Proof. unfold bit. destruct (replicate n 0 !! (j / 8)%nat) eqn:E; [|done]. apply lookup_replicate in E as [-> _]. apply Z.testbit_0_l. Qed.

(** An aggregate of votes names exactly the approving validators in order, carries their signatures one after the other, and the
    [i]-th bit of its bitmap says whether the [i]-th vote approves; there is none without an approving vote. *)
Theorem aggregate_votes_correct h id m :
  match aggregate_votes h id m with
  | None => ∀ votes v, m !! h = Some votes → v ∈ votes → approve v = false
  | Some a =>
      ∃ votes, m !! h = Some votes ∧ ag_vertex_hash a = h ∧ ag_committee_id a = id ∧ ag_validators a = map validator (filter (λ v, approve v = true) votes) ∧
        ag_sig a = concat (map vote_signature (filter (λ v, approve v = true) votes)) ∧ ag_validators a ≠ [] ∧
        ∀ j, bit j (ag_bitmap a) = match votes !! j with Some v => approve v | None => false end
  end.
Proof.
  unfold aggregate_votes. destruct (m !! h) as [votes|]; cbn [mbind option_bind]; [|done]. cbv zeta. destruct (filter (λ v, approve v = true) votes) as [|w yes] eqn:E.
  - intros votes' v [= <-] Hv. apply not_true_iff_false. intros Ha. assert (Hin : v ∈ filter (λ v, approve v = true) votes) by (by apply list_elem_of_filter).
    rewrite E in Hin. by apply not_elem_of_nil in Hin.
  - exists votes. rewrite E. cbn [ag_vertex_hash ag_committee_id ag_validators ag_sig ag_bitmap]. split_and!; try done. intros j. rewrite fill_bitmap_spec.
    + by rewrite bit_zeros, Nat.sub_0_r.
    + rewrite length_replicate. pose proof (Nat.div_mod (length votes + 7) 8 ltac:(lia)). pose proof (Nat.mod_upper_bound (length votes + 7) 8 ltac:(lia)). lia.
Qed.

(** ** Concrete runs *)

(** A state manager that counts what is committed. *)
#[local] Instance counting_ops : StateOps Z := {|
  st_prepare txs := λ n, (Ok (mkExecution 5 [] []), n);
  st_simulate txs := λ n, (Ok (mkExecution 5 [] []), n);
  st_atomically txs := λ n, (Ok (mkExecution 5 [] []), n + 1);
  st_commit e := λ n, (Ok (), n + 1);
  st_apply tx n := (Some (Ok (success_receipt tx [] 0)), n + 1);
  st_commit_pending t := λ n, (Ok 0, n)
|}.

#[local] Instance queue_source : PayloadSource (list SignedTransaction) := {|
  ps_ingest tx q := (true, q ++ [tx]);
  ps_build shard now q := (q, []);
  ps_pending shard q := Z.of_nat (length q)
|}.

Definition key_check (pk m sg : list Z) : Result bool string := Ok (bool_decide (pk = sg)).
Definition fresh_dag : DAGGraph (gmap Hash DAGVertex) := Dag.new ∅ 0 4.

(** A node starts without committees and validators. *)
Definition fresh_path : FastPath Z (gmap Hash DAGVertex) (list SignedTransaction) := new_fast_path fresh_dag [] (new_optimistic 0 1) (Committee.new None 1 2) None.
Definition run_path : list FpOp → FastPath Z (gmap Hash DAGVertex) (list SignedTransaction) :=
  foldl (fp_step Committee.Trio.hash_data key_check (λ _ _, Ok []) (λ _, "dag") (λ _, "state") (λ _, "consensus")) fresh_path.
Definition signed_vote (a : Address) (h : Hash) : CommitteeVote := mkVote a h true 1 [a] 0.
Definition some_vertex : DAGVertex := mkVertex 77 [] [] 0 0 GENESIS_CREATOR [] 0 0 VPending [] 5.

(** The validators 1 to 4 join and a rotation of epoch 1 makes the committee of 1 and 2, one of epoch 2 that of 2 and 3. *)
Definition four_join : list FpOp := map (λ a, OpAddValidator (Committee.Trio.val a 30)) [1; 2; 3; 4].
Definition voted_run : list FpOp :=
  [OpReceive 0 some_vertex; OpVote (signed_vote 1 77)] ++ four_join ++
  [OpRotate 10 1 32 7; OpVote (signed_vote 1 77); OpVote (signed_vote 1 77); OpVote (signed_vote 3 77); OpVote (signed_vote 2 77)].

Lemma confirmed_by_quorum_witness :
  map_Forall (certified key_check (managers Committee.Trio.hash_data key_check (λ _ _, Ok []) (λ _, "dag") (λ _, "state") (λ _, "consensus") [] fresh_path voted_run))
    (confirmed_vertices (run_path voted_run)) ∧
  size (confirmed_vertices (run_path voted_run)) = 1%nat ∧ oe_state (fp_executor (run_path voted_run)) = 1 ∧
  (map (λ v, validator v) ∘ pv_votes) <$> pending_vertices (run_path voted_run) !! 77 = Some [1; 2].
Proof.
  split.
  - apply (confirmed_by_quorum Committee.Trio.hash_data key_check (λ _ _, Ok []) (λ _, "dag") (λ _, "state") (λ _, "consensus") fresh_dag [] (new_optimistic 0 1) (Committee.new None 1 2) None voted_run).
    repeat (apply list.Forall_cons; split; [exact I|]). apply list.Forall_nil_2.
  - vm_compute. split_and!; reflexivity.
Defined.

(** The vote of 1 came before the rotation to the committee of 2 and 3, whose quorum is 41 of 60: with the vote of 2 alone, 30 of 60, the
    vertex is confirmed. *)
Definition rotated_run : list FpOp :=
  [OpReceive 0 some_vertex] ++ four_join ++ [OpRotate 10 1 32 7; OpVote (signed_vote 1 77); OpRotate 10 2 64 7; OpVote (signed_vote 2 77)].

Example old_committee_votes_count :
  let p := run_path rotated_run in let cm := committee_manager p in
  is_Some (confirmed_vertices p !! 77) ∧
  (map m_address ∘ members) <$> get_committee_for_shard cm (current_epoch cm) 0 = Some [2; 3] ∧
  quorum_threshold <$> get_committee_for_shard cm (current_epoch cm) 0 = Some (Ok 41) ∧
  (map (λ v, validator v) ∘ pv_votes) <$> pending_vertices p !! 77 = Some [1; 2].
Proof. vm_compute. split_and!; try reflexivity. by eexists. Qed.

(** A builder over an ingress buffer with one transaction for shard 0; the creator 9 is not authorized. *)
Definition lost_tx : SignedTransaction := mkSigned (mkTransaction Transfer 1 2 3 0 1000 None Qvm [] 0 0 [] [7] 1) 5 0.
Definition filled_builder : VertexBuilder Z :=
  let b := Ingress.new_ingress 1 in
  new_builder (Ingress.mkIngress (<[0 := [lost_tx]]> (shards b)) (nonce_cache b) (pubkey_cache b) 1 (<[0 := 1]> (pending_by_shard b)) (prefilter b))
    (new_with_policy ∅ new_quota false false).
Definition demo_source : PayloadSource (VertexBuilder Z) := builder_source 100000 sample_payload sample_sha3 sample_verify (λ _ _ d, d) (λ _, None).

Lemma refused_vertex_loses_transactions_witness :
  let p := new_fast_path (SM := Z) fresh_dag filled_builder (new_optimistic 0 1) (Committee.new None 1 2) None in
  let '(r, p') := create_vertex (PayloadSource0 := demo_source) (λ _, 0) (λ _ _, Ok []) (λ _, "dag") (λ _, "state") 0 0 0 9 [] p in
  is_ok r = false ∧ default [] (shards (ingress (fp_source p)) !! 0) = [lost_tx] ∧ default [] (shards (ingress (fp_source p')) !! 0) = [] ∧ pending_vertices p' = ∅.
Proof.
  intros p. pose proof (refused_vertex_loses_transactions (PayloadSource0 := demo_source) (PayloadLaws0 := builder_laws _ _ _ _ _ _) (λ _, 0) (λ _ _, Ok []) (λ _, "dag") (λ _, "state") 0 0 0 9 [] p) as Hw.
  assert (Hb : (ps_build (PayloadSource := demo_source) 0 0 filled_builder).1 = [lost_tx]) by (vm_compute; reflexivity).
  destruct (create_vertex _ _ _ _ _ _ _ _ _ p) as [r p']. destruct Hw as [Hr Hw]. assert (Hf : is_ok r = false) by (apply Hr; vm_compute; reflexivity).
  destruct (Hw Hf) as ((taken & Ht & Hin) & _ & Hp & _). split_and!; [exact Hf|reflexivity| |exact Hp].
  change (fp_source p) with filled_builder in Ht, Hin. rewrite Hb in Hin. specialize (Hin lost_tx (list_elem_of_here _ _)).
  assert (Ht' : [lost_tx] = taken ++ default [] (shards (ingress (fp_source p')) !! 0)) by exact Ht. clear Ht. rename Ht' into Ht. destruct taken as [|t taken]; [by apply not_elem_of_nil in Hin|]. injection Ht as _ Ht. symmetry in Ht. by apply app_eq_nil in Ht as [_ ?].
Defined.
