(* ===== verification/F64.v ===== *)
(** * Floating point

    Rust's [f64]: IEEE 754 binary64 with rounding to nearest even, as specified by the
    Standard Library's [SpecFloat] (executable, on [Z]), with Rust's conversions, [clamp], [min],
    [max] and [round], and the facts about signs and ranges the components need.  A literal such as
    [0.3] is the quotient of two integers, which rounds to the same number. *)

From Stdlib Require Import SpecFloat.
From S2P Require Import Prelude.

Declare Scope f64_scope.
Delimit Scope f64_scope with f64.

Abbreviation f64 := spec_float.

Definition of_Z (z : Z) : f64 := binary_normalize 53 1024 z 0 false.
Definition fadd : f64 → f64 → f64 := SFadd 53 1024.
Definition fsub : f64 → f64 → f64 := SFsub 53 1024.
Definition fmul : f64 → f64 → f64 := SFmul 53 1024.
Definition fdiv : f64 → f64 → f64 := SFdiv 53 1024.
Definition fltb : f64 → f64 → bool := SFltb.
Definition fleb : f64 → f64 → bool := SFleb.

Infix "+" := fadd : f64_scope.
Infix "-" := fsub : f64_scope.
Infix "*" := fmul : f64_scope.
Infix "/" := fdiv : f64_scope.

(** The literal with the value [n / d]. *)
Definition lit (n d : Z) : f64 := fdiv (of_Z n) (of_Z d).

Definition fzero : f64 := S754_zero false.
Definition fone : f64 := of_Z 1.

Definition is_nan (x : f64) : bool := match x with S754_nan => true | _ => false end.

(** [x.clamp(lo, hi)] *)
Definition clamp (lo hi x : f64) : f64 :=
  let x := if fltb x lo then lo else x in
  if fltb hi x then hi else x.

(** [f64::max] and [f64::min] ignore a NaN. *)
Definition fmax (x y : f64) : f64 := if is_nan x then y else if is_nan y then x else if fltb x y then y else x.
Definition fmin (x y : f64) : f64 := if is_nan x then y else if is_nan y then x else if fltb y x then y else x.

(** The integer part of a finite magnitude, and whether the rest is at least a half or not zero. *)
Definition int_part (m : positive) (e : Z) : Z := if 0 <=? e then Z.shiftl (Zpos m) e else Z.shiftr (Zpos m) (- e).
Definition half_up (m : positive) (e : Z) : bool := (e <? 0) && Z.testbit (Zpos m) (- e - 1).
Definition has_fraction (m : positive) (e : Z) : bool := (e <? 0) && negb (Z.shiftl (Z.shiftr (Zpos m) (- e)) (- e) =? Zpos m).

(** [x as uN]: towards zero, saturating, 0 for a NaN. *)
Definition to_uint (max : Z) (x : f64) : Z :=
  match x with
  | S754_zero _ | S754_nan => 0
  | S754_infinity s => if s then 0 else max
  | S754_finite s m e => if s then 0 else Z.min max (int_part m e)
  end.

Definition signed (s : bool) (z : Z) : f64 := if z =? 0 then S754_zero s else if s then of_Z (- z) else of_Z z.

(** [x.round()]: halves away from zero. *)
Definition fround (x : f64) : f64 :=
  match x with S754_finite s m e => signed s (int_part m e + (if half_up m e then 1 else 0)) | _ => x end.

Definition fceil (x : f64) : f64 :=
  match x with S754_finite s m e => signed s (int_part m e + (if has_fraction m e && negb s then 1 else 0)) | _ => x end.

Definition ffloor (x : f64) : f64 :=
  match x with S754_finite s m e => signed s (int_part m e + (if has_fraction m e && s then 1 else 0)) | _ => x end.

(** ** Signs *)

(** Zero or positive, infinity included, and not a NaN. *)
Definition nonneg (x : f64) : Prop :=
  match x with S754_zero _ | S754_infinity false | S754_finite false _ _ => True | _ => False end.

(** Neither infinite nor a NaN. *)
Definition is_finite (x : f64) : Prop := match x with S754_zero _ | S754_finite _ _ _ => True | _ => False end.

Lemma shr_1_nonneg r : 0 ≤ shr_m r → 0 ≤ shr_m (shr_1 r).
Proof. destruct r as [m r s]. cbn. destruct m as [|[p|p|]|[p|p|]]; cbn; lia. Qed.

Lemma shr_iter_nonneg n : ∀ r, 0 ≤ shr_m r → 0 ≤ shr_m (SpecFloat.iter_pos shr_1 n r).
Proof. induction n as [n IH|n IH|]; intros r Hr; cbn [SpecFloat.iter_pos]; [by do 2 apply IH; apply shr_1_nonneg|by do 2 apply IH|by apply shr_1_nonneg]. Qed.

Lemma shr_fexp_nonneg m e l : 0 ≤ m → 0 ≤ shr_m (shr_fexp 53 1024 m e l).1.
Proof.
  intros Hm. unfold shr_fexp, shr. assert (Hr : 0 ≤ shr_m (shr_record_of_loc m l)) by (by destruct l as [|[]]).
  destruct (_ - e); [done|by apply shr_iter_nonneg|done].
Qed.

(** Rounding a magnitude keeps the sign. *)
Lemma round_sign s m e l : 0 ≤ m → ∃ x, binary_round_aux 53 1024 s m e l = x ∧
  match x with S754_zero s' | S754_infinity s' | S754_finite s' _ _ => s' = s | S754_nan => False end.
Proof.
  intros Hm. unfold binary_round_aux. pose proof (shr_fexp_nonneg m e l Hm) as H1. destruct (shr_fexp 53 1024 m e l) as [r1 e1]. cbn [fst] in H1.
  assert (H2 : 0 ≤ round_nearest_even (shr_m r1) (loc_of_shr_record r1)).
  { unfold round_nearest_even. destruct (loc_of_shr_record r1) as [|[]]; [done| |done|]; [destruct (Z.even _)|]; lia. }
  pose proof (shr_fexp_nonneg _ e1 loc_Exact H2) as H3. destruct (shr_fexp 53 1024 _ e1 loc_Exact) as [r2 e2]. cbn [fst] in H3.
  destruct (shr_m r2) as [|p|p]; [by eexists|destruct (e2 <=? _); by eexists|lia].
Qed.

Lemma round_nonneg m e l : 0 ≤ m → nonneg (binary_round_aux 53 1024 false m e l).
Proof. intros Hm. destruct (round_sign false m e l Hm) as (x & -> & Hx). by destruct x as [[]|[]| |[]]. Qed.

Lemma normalize_nonneg z e : 0 ≤ z → nonneg (binary_normalize 53 1024 z e false).
Proof.
  intros Hz. unfold binary_normalize. destruct z as [|p|p]; [done| |lia]. unfold binary_round. destruct (shl_align _ _ _). by apply round_nonneg.
Qed.

Lemma of_Z_nonneg z : 0 ≤ z → nonneg (of_Z z).
Proof. apply normalize_nonneg. Qed.

Lemma fadd_nonneg x y : nonneg x → nonneg y → nonneg (fadd x y).
Proof.
  intros Hx Hy. unfold fadd, SFadd. destruct x as [sx|[]| |[] mx ex], y as [sy|[]| |[] my ey]; cbn in Hx, Hy; try done; [by destruct sx, sy|].
  cbn [cond_Zopp]. apply normalize_nonneg. lia.
Qed.

Lemma fmul_nonneg x y : nonneg x → nonneg y → is_finite x → is_finite y → nonneg (fmul x y).
Proof.
  intros Hx Hy Fx Fy. unfold fmul, SFmul. destruct x as [sx|[]| |[] mx ex], y as [sy|[]| |[] my ey]; cbn in *; try done. by apply round_nonneg.
Qed.

Lemma fdiv_nonneg x y : nonneg x → nonneg y → is_finite y → (∀ s, y ≠ S754_zero s) → nonneg (fdiv x y).
Proof.
  intros Hx Hy Fy Hz. unfold fdiv, SFdiv. destruct x as [sx|[]| |[] mx ex], y as [sy|[]| |[] my ey]; cbn [nonneg is_finite] in *; try done; try (by destruct (Hz sy)).
  unfold SFdiv_core_binary. set (m' := match _ with Z0 => _ | Zpos _ => _ | Zneg _ => _ end).
  assert (Hm' : 0 ≤ m') by (unfold m'; destruct (ex - ey - _); [done|rewrite Z.shiftl_nonneg; done|done]). clearbody m'.
  pose proof (Z_div_mod m' (Z.pos my) ltac:(lia)) as Hdiv. destruct (Z.div_eucl m' (Z.pos my)) as [q r]. destruct Hdiv as [Hq Hr]. apply round_nonneg. nia.
Qed.

(** ** Ranges *)

Lemma fltb_nan_l y : fltb S754_nan y = false.
Proof. done. Qed.

(** What is clamped to [0, 1] and is not a NaN is finite, not negative and not above 1. *)
Lemma clamp_unit x : is_nan x = false → let y := clamp fzero fone x in nonneg y ∧ is_finite y ∧ fltb fone y = false ∧ fltb y fzero = false.
Proof.
  intros Hn. assert (H1 : fone = S754_finite false 4503599627370496 (-52)) by (by vm_compute). unfold clamp. rewrite !H1.
  destruct x as [s|[]| |[] m e]; cbn [is_nan] in Hn; try done.
  change (fltb (S754_finite false m e) fzero) with false. cbv iota. destruct (fltb (S754_finite false 4503599627370496 (-52)) (S754_finite false m e)) eqn:E; [done|].
  by split_and!.
Qed.

Lemma nonneg_not_nan x : nonneg x → is_nan x = false.
Proof. by destruct x. Qed.

(** ** Integers that are in range stay finite *)

Lemma digits_log2 p : Zpos (digits2_pos p) = Z.log2 (Zpos p) + 1.
Proof.
  induction p as [p IH|p IH|]; cbn [digits2_pos]; [| |done]; rewrite Pos2Z.inj_succ, IH.
  - rewrite Pos2Z.inj_xI, Z.log2_succ_double by lia. lia.
  - rewrite Pos2Z.inj_xO, Z.log2_double by lia. lia.
Qed.

Lemma Zdigits_le m k : 0 ≤ m < 2 ^ k → 0 ≤ k → 0 ≤ Zdigits2 m ≤ k.
Proof.
  intros Hm Hk. destruct m as [|p|p]; cbn [Zdigits2]; [lia| |lia]. rewrite digits_log2. pose proof (Z.log2_nonneg (Zpos p)).
  assert (Z.log2 (Zpos p) < k) by (apply Z.log2_lt_pow2; lia). lia.
Qed.

Lemma shr_1_div r : 0 ≤ shr_m r → shr_m (shr_1 r) = shr_m r / 2.
Proof.
  destruct r as [m r s]. cbn. intros Hm. destruct m as [|[p|p|]|p]; cbn [shr_m]; try done; try lia.
  - rewrite Pos2Z.inj_xI. rewrite Z.mul_comm, Z.div_add_l by lia. change (1 / 2) with 0. lia.
  - rewrite Pos2Z.inj_xO. rewrite Z.mul_comm, Z.div_mul by lia. done.
Qed.

Lemma shr_iter_div n : ∀ r, 0 ≤ shr_m r → shr_m (SpecFloat.iter_pos shr_1 n r) = shr_m r / 2 ^ Zpos n.
Proof.
  induction n as [n IH|n IH|]; intros r Hr; cbn [SpecFloat.iter_pos].
  - rewrite !IH; try (try apply shr_iter_nonneg; by apply shr_1_nonneg). rewrite shr_1_div by done. rewrite !Z.div_div by lia. f_equal.
    rewrite (Pos2Z.inj_xI n). replace (2 * Zpos n + 1) with (1 + Zpos n + Zpos n) by lia. rewrite !Z.pow_add_r by lia. lia.
  - rewrite !IH; try (by apply shr_iter_nonneg); try done. rewrite Z.div_div by lia. f_equal. rewrite (Pos2Z.inj_xO n). replace (2 * Zpos n) with (Zpos n + Zpos n) by lia. by rewrite Z.pow_add_r by lia.
  - by apply shr_1_div.
Qed.

(** Shifting into the precision: what remains and its exponent. *)
Lemma shr_fexp_spec m e l : 0 ≤ m →
  let n := Z.max 0 (fexp 53 1024 (Zdigits2 m + e) - e) in
  shr_m (shr_fexp 53 1024 m e l).1 = m / 2 ^ n ∧ (shr_fexp 53 1024 m e l).2 = e + n.
Proof.
  intros Hm. unfold shr_fexp, shr. assert (Hr : shr_m (shr_record_of_loc m l) = m) by (by destruct l as [|[]]).
  destruct (fexp 53 1024 (Zdigits2 m + e) - e) as [|p|p] eqn:E; cbn [fst snd].
  - rewrite Hr. change (2 ^ Z.max 0 0) with 1. rewrite Z.div_1_r. split; [done|lia].
  - rewrite shr_iter_div by (by rewrite Hr). rewrite Hr. replace (Z.max 0 (Zpos p)) with (Zpos p) by lia. done.
  - rewrite Hr. replace (Z.max 0 (Zneg p)) with 0 by lia. change (2 ^ 0) with 1. rewrite Z.div_1_r. split; [done|lia].
Qed.

(** A magnitude of at least 53 bits rounds to a finite number that is not zero. *)
Lemma round_finite s m e l : 2 ^ 52 ≤ m < 2 ^ 300 → -60 ≤ e ≤ 200 → ∃ m' e', binary_round_aux 53 1024 s m e l = S754_finite s m' e'.
Proof.
  intros Hm He. unfold binary_round_aux. pose proof (shr_fexp_spec m e l ltac:(lia)) as [H1 H1e]. destruct (shr_fexp 53 1024 m e l) as [r1 e1]. cbn [fst snd] in *.
  pose proof (Zdigits_le m 300 ltac:(lia) ltac:(lia)) as Hd. assert (Hd53 : 53 ≤ Zdigits2 m).
  { destruct m as [|p|p]; [lia| |lia]. cbn [Zdigits2]. rewrite digits_log2. assert (52 ≤ Z.log2 (Zpos p)) by (apply Z.log2_le_pow2; lia). lia. }
  set (n := Z.max 0 (fexp 53 1024 (Zdigits2 m + e) - e)) in *. assert (Hn : n = Zdigits2 m - 53) by (unfold n, fexp, emin; lia).
  assert (Hr1 : 2 ^ 52 ≤ shr_m r1 < 2 ^ 300).
  { rewrite H1. split.
    - apply Z.div_le_lower_bound; [lia|]. rewrite Hn. destruct m as [|p|p]; [lia| |lia]. cbn [Zdigits2]. rewrite digits_log2.
      replace (Z.log2 (Zpos p) + 1 - 53) with (Z.log2 (Zpos p) - 52) by lia. rewrite <- Z.pow_add_r by (cbn [Zdigits2] in Hd53; rewrite digits_log2 in Hd53; lia).
      replace (Z.log2 (Zpos p) - 52 + 52) with (Z.log2 (Zpos p)) by lia. apply Z.log2_spec. lia.
    - apply (Z.le_lt_trans _ m); [|lia]. apply Z.div_le_upper_bound; [lia|]. assert (1 ≤ 2 ^ n) by (apply (Z.pow_le_mono_r 2 0); lia). nia. }
  set (m2 := round_nearest_even (shr_m r1) (loc_of_shr_record r1)). assert (Hm2 : 2 ^ 52 ≤ m2 < 2 ^ 301).
  { assert (shr_m r1 ≤ m2 ≤ shr_m r1 + 1) by (unfold m2, round_nearest_even; destruct (loc_of_shr_record r1) as [|[]]; [lia|destruct (Z.even _); lia|lia|lia]).
    assert (2 ^ 301 = 2 * 2 ^ 300) by (by rewrite <- Z.pow_succ_r). lia. }
  clearbody m2. pose proof (shr_fexp_spec m2 e1 loc_Exact ltac:(lia)) as [H2 H2e]. destruct (shr_fexp 53 1024 m2 e1 loc_Exact) as [r2 e2]. cbn [fst snd] in *.
  pose proof (Zdigits_le m2 301 ltac:(lia) ltac:(lia)) as Hd2. set (n2 := Z.max 0 (fexp 53 1024 (Zdigits2 m2 + e1) - e1)) in *.
  assert (Hn2 : 0 ≤ n2 ≤ Z.max 0 (Zdigits2 m2 - 53)) by (unfold n2, fexp, emin; lia).
  assert (Hr2 : 0 < shr_m r2).
  { rewrite H2. apply Z.div_str_pos. split; [lia|]. destruct m2 as [|p|p]; [lia| |lia]. cbn [Zdigits2] in *. rewrite digits_log2 in *. pose proof (Z.log2_nonneg (Zpos p)).
    apply (Z.le_trans _ (2 ^ Z.log2 (Zpos p))); [apply Z.pow_le_mono_r; lia|]. apply Z.log2_spec. lia. }
  destruct (shr_m r2) as [|p|p]; [lia| |lia]. rewrite (proj2 (Z.leb_le e2 (1024 - 53))) by lia. by eexists _, _.
Qed.

Lemma digits_iter m d : Zpos (Pos.iter xO m d) = Zpos m * 2 ^ Zpos d.
Proof. induction d as [|d IH] using Pos.peano_ind; [cbn; lia|]. rewrite Pos.iter_succ, Pos2Z.inj_xO, IH, Pos2Z.inj_succ, Z.pow_succ_r by lia. lia. Qed.

(** Positive integers of up to 200 bits are finite positive numbers. *)
Lemma of_Z_positive z : 0 < z < 2 ^ 200 → ∃ m e, of_Z z = S754_finite false m e.
Proof.
  intros Hz. unfold of_Z, binary_normalize. destruct z as [|p|p]; [lia| |lia]. unfold binary_round, shl_align. rewrite Z.add_0_r.
  pose proof (digits_log2 p) as Hd. pose proof (Z.log2_nonneg (Zpos p)). pose proof (Z.log2_spec (Zpos p) ltac:(lia)) as [Hl Hu].
  assert (Hlt : Z.log2 (Zpos p) < 200) by (apply Z.log2_lt_pow2; lia).
  destruct (fexp 53 1024 (Z.pos (digits2_pos p)) - 0) as [|d|d] eqn:E.
  - apply round_finite; [|lia]. unfold fexp, emin in E. assert (Z.log2 (Zpos p) = 52) as Hlog by lia. rewrite Hlog in *. split; [lia|]. apply (Z.lt_trans _ (2 ^ 200)); [lia|]. by apply Z.pow_lt_mono_r.
  - apply round_finite; [|lia]. unfold fexp, emin in E. split; [apply (Z.le_trans _ (2 ^ Z.log2 (Zpos p))); [apply Z.pow_le_mono_r; lia|lia]|]. apply (Z.lt_trans _ (2 ^ 200)); [lia|]. by apply Z.pow_lt_mono_r.
  - unfold fexp, emin in E |- *. assert (Hdv : Zpos d = 52 - Z.log2 (Zpos p)) by lia. apply round_finite; [|lia]. rewrite digits_iter, Hdv. split.
    + replace 52 with (Z.log2 (Zpos p) + (52 - Z.log2 (Zpos p))) at 1 by lia. rewrite Z.pow_add_r by lia. apply Z.mul_le_mono_nonneg_r; lia.
    + assert (2 ^ (52 - Z.log2 (Zpos p)) ≤ 2 ^ 52) by (apply Z.pow_le_mono_r; lia). assert (2 ^ Z.succ (Z.log2 (Zpos p)) ≤ 2 ^ 52) by (apply Z.pow_le_mono_r; lia).
      apply (Z.le_lt_trans _ (2 ^ 52 * 2 ^ 52)); [apply Z.mul_le_mono_nonneg; lia|]. rewrite <- Z.pow_add_r by lia. by apply Z.pow_lt_mono_r.
Qed.

Lemma of_Z_finite z : 0 ≤ z < 2 ^ 200 → is_finite (of_Z z).
Proof. intros Hz. destruct (decide (z = 0)) as [-> |Hne]; [done|]. destruct (of_Z_positive z ltac:(lia)) as (m & e & ->). done. Qed.

Lemma of_Z_nonzero z : 0 < z < 2 ^ 200 → ∀ s, of_Z z ≠ S754_zero s.
Proof. intros Hz s. by destruct (of_Z_positive z Hz) as (m & e & ->). Qed.

(** ** Rounding adds little *)

(** Rounding an exact magnitude raises it by at most one part in [2 ^ 52]. *)
Lemma round_upper s m e m' e' : 0 ≤ m → -1074 ≤ e → binary_round_aux 53 1024 s m e loc_Exact = S754_finite s m' e' →
  e ≤ e' ∧ Zpos m' * 2 ^ (e' - e) * 2 ^ 52 ≤ m * (2 ^ 52 + 1).
Proof.
  intros Hm He. unfold binary_round_aux. pose proof (shr_fexp_spec m e loc_Exact Hm) as [H1 H1e]. destruct (shr_fexp 53 1024 m e loc_Exact) as [r1 e1] eqn:Hs1. cbn [fst snd] in *.
  set (n := Z.max 0 (fexp 53 1024 (Zdigits2 m + e) - e)) in *. assert (Hn : n = Z.max 0 (Zdigits2 m - 53)) by (unfold n, fexp, emin; lia).
  assert (Hpow : 0 < 2 ^ n) by (apply Z.pow_pos_nonneg; lia).
  set (m2 := round_nearest_even (shr_m r1) (loc_of_shr_record r1)). assert (Hm2 : 0 ≤ m2 ≤ shr_m r1 + (if n =? 0 then 0 else 1)).
  { pose proof (Z.div_pos m (2 ^ n) Hm Hpow). unfold m2, round_nearest_even. destruct (Z.eqb_spec n 0) as [Hz|_].
    - assert (Hloc : loc_of_shr_record r1 = loc_Exact); [|rewrite Hloc; lia].
      unfold shr_fexp, shr in Hs1. unfold n in Hz. destruct (fexp 53 1024 (Zdigits2 m + e) - e) as [|p|p]; [|lia|]; by injection Hs1 as <- _.
    - destruct (loc_of_shr_record r1) as [|[]]; [lia|destruct (Z.even _); lia|lia|lia]. }
  clearbody m2. pose proof (shr_fexp_spec m2 e1 loc_Exact ltac:(lia)) as [H2 H2e]. destruct (shr_fexp 53 1024 m2 e1 loc_Exact) as [r2 e2]. cbn [fst snd] in *.
  set (n2 := Z.max 0 (fexp 53 1024 (Zdigits2 m2 + e1) - e1)) in *. assert (Hn2 : 0 ≤ n2) by (unfold n2; lia). assert (Hpow2 : 0 < 2 ^ n2) by (apply Z.pow_pos_nonneg; lia).
  destruct (shr_m r2) as [|p|p] eqn:Hr2; [done| |done]. destruct (e2 <=? 1024 - 53); [|done]. intros [= -> ->]. subst e1 e'. split; [lia|].
  replace (e + n + n2 - e) with (n2 + n) by lia. rewrite Z.pow_add_r by lia. rewrite H1 in Hm2.
  assert (Ha : Zpos m' * 2 ^ n2 ≤ m2) by (rewrite H2, Z.mul_comm; apply Z.mul_div_le; lia).
  assert (Hb : m / 2 ^ n * 2 ^ n ≤ m) by (rewrite Z.mul_comm; apply Z.mul_div_le; lia).
  assert (Hc : (if n =? 0 then 0 else 2 ^ n) * 2 ^ 52 ≤ m).
  { destruct (Z.eqb_spec n 0); [lia|]. rewrite <- Z.pow_add_r by lia. destruct m as [|q|q]; [cbn [Zdigits2] in Hn; lia| |lia]. cbn [Zdigits2] in Hn. rewrite digits_log2 in Hn.
    replace (n + 52) with (Z.log2 (Zpos q)) by lia. apply Z.log2_spec. lia. }
  assert (Hd : m2 * 2 ^ n ≤ m + (if n =? 0 then 0 else 2 ^ n)) by (destruct (n =? 0); nia). clear H1 H2 Hm2 Hr2. nia.
Qed.

(** Magnitudes in range do not round to infinity. *)
Lemma round_range s m e l : 0 ≤ m < 2 ^ 300 → -1074 ≤ e ≤ 200 →
  binary_round_aux 53 1024 s m e l = S754_zero s ∨ ∃ m' e', binary_round_aux 53 1024 s m e l = S754_finite s m' e'.
Proof.
  intros Hm He. unfold binary_round_aux. pose proof (shr_fexp_spec m e l ltac:(lia)) as [H1 H1e]. destruct (shr_fexp 53 1024 m e l) as [r1 e1]. cbn [fst snd] in *.
  pose proof (Zdigits_le m 300 ltac:(lia) ltac:(lia)) as Hd. set (n := Z.max 0 (fexp 53 1024 (Zdigits2 m + e) - e)) in *. assert (Hn : 0 ≤ n ≤ 247) by (unfold n, fexp, emin; lia).
  assert (Hr1 : 0 ≤ shr_m r1 < 2 ^ 300).
  { rewrite H1. split; [apply Z.div_pos; lia|]. apply (Z.le_lt_trans _ m); [|lia]. apply Z.div_le_upper_bound; [lia|]. assert (1 ≤ 2 ^ n) by (apply (Z.pow_le_mono_r 2 0); lia). nia. }
  set (m2 := round_nearest_even (shr_m r1) (loc_of_shr_record r1)). assert (Hm2 : 0 ≤ m2 < 2 ^ 301).
  { assert (shr_m r1 ≤ m2 ≤ shr_m r1 + 1) by (unfold m2, round_nearest_even; destruct (loc_of_shr_record r1) as [|[]]; [lia|destruct (Z.even _); lia|lia|lia]).
    assert (2 ^ 301 = 2 * 2 ^ 300) by (by rewrite <- Z.pow_succ_r). lia. }
  clearbody m2. pose proof (shr_fexp_spec m2 e1 loc_Exact ltac:(lia)) as [H2 H2e]. destruct (shr_fexp 53 1024 m2 e1 loc_Exact) as [r2 e2]. cbn [fst snd] in *.
  pose proof (Zdigits_le m2 301 ltac:(lia) ltac:(lia)) as Hd2. set (n2 := Z.max 0 (fexp 53 1024 (Zdigits2 m2 + e1) - e1)) in *.
  assert (Hn2 : 0 ≤ n2 ≤ 248) by (unfold n2, fexp, emin; lia). assert (Hr2 : 0 ≤ shr_m r2) by (rewrite H2; apply Z.div_pos; lia).
  destruct (shr_m r2) as [|p|p]; [by left| |lia]. right. rewrite (proj2 (Z.leb_le e2 (1024 - 53))) by lia. by eexists _, _.
Qed.

(** The value of an integer as [f64], from above. *)
Lemma of_Z_upper z : 0 < z < 2 ^ 200 →
  ∃ m e, of_Z z = S754_finite false m e ∧ -52 ≤ e ∧ Zpos m * 2 ^ (e + 52) ≤ z * (2 ^ 52 + 1).
Proof.
  intros Hz. destruct (of_Z_positive z Hz) as (m & e & Hof). exists m, e. split; [done|]. unfold of_Z, binary_normalize in Hof. destruct z as [|p|p]; [lia| |lia].
  unfold binary_round in Hof. destruct (shl_align p 0 _) as [mz ez] eqn:Hs.
  assert (Hsh : -52 ≤ ez ≤ 0 ∧ Zpos mz = Zpos p * 2 ^ (- ez)).
  { unfold shl_align in Hs. rewrite Z.add_0_r in Hs. destruct (fexp 53 1024 (Z.pos (digits2_pos p)) - 0) as [|d|d] eqn:E.
    - injection Hs as <- <-. change (2 ^ - 0) with 1. lia.
    - injection Hs as <- <-. change (2 ^ - 0) with 1. lia.
    - injection Hs as <- <-. rewrite digits_iter. unfold fexp, emin in *. pose proof (digits_log2 p) as Hd. pose proof (Z.log2_nonneg (Zpos p)). split; [lia|].
      f_equal. f_equal. lia. }
  destruct Hsh as [Hez Hmz]. destruct (round_upper false (Zpos mz) ez m e ltac:(lia) ltac:(lia) Hof) as [He Hle]. split; [lia|].
  assert (Hp : 2 ^ (e + 52) = 2 ^ (e - ez) * 2 ^ (ez + 52)) by (rewrite <- Z.pow_add_r by lia; f_equal; lia).
  assert (Hp2 : 2 ^ (- ez) * 2 ^ (ez + 52) = 2 ^ 52) by (rewrite <- Z.pow_add_r by lia; f_equal; lia).
  rewrite Hp. assert (Hpos : 0 < 2 ^ (ez + 52)) by (apply Z.pow_pos_nonneg; lia). rewrite Hmz in Hle.
  apply (Z.mul_le_mono_pos_r _ _ (2 ^ 52)); [lia|]. replace (Z.pos m * (2 ^ (e - ez) * 2 ^ (ez + 52)) * 2 ^ 52) with (Z.pos m * 2 ^ (e - ez) * 2 ^ 52 * 2 ^ (ez + 52)) by ring.
  replace (Z.pos p * (2 ^ 52 + 1) * 2 ^ 52) with (Z.pos p * 2 ^ (- ez) * (2 ^ 52 + 1) * 2 ^ (ez + 52)) by (rewrite <- Hp2; ring). apply Z.mul_le_mono_nonneg_r; lia.
Qed.

(** Rounding to an integer adds at most a half. *)
Lemma round_int m e : 0 ≤ int_part m e + (if half_up m e then 1 else 0) ∧
  (0 ≤ e → int_part m e + (if half_up m e then 1 else 0) = Zpos m * 2 ^ e) ∧
  (e < 0 → 2 * (int_part m e + (if half_up m e then 1 else 0)) * 2 ^ (- e) ≤ 2 * Zpos m + 2 ^ (- e)).
Proof.
  unfold int_part, half_up. destruct (Z.leb_spec 0 e).
  - rewrite (proj2 (Z.ltb_ge e 0)) by lia. cbn [andb]. rewrite Z.shiftl_mul_pow2 by lia. assert (0 < 2 ^ e) by (apply Z.pow_pos_nonneg; lia). split_and!; lia.
  - rewrite (proj2 (Z.ltb_lt e 0)) by lia. cbn [andb]. rewrite Z.shiftr_div_pow2 by lia. set (k := - e). assert (Hk : 0 < 2 ^ k) by (apply Z.pow_pos_nonneg; lia).
    pose proof (Z.div_mod (Zpos m) (2 ^ k) ltac:(lia)) as Hdm. pose proof (Z.mod_pos_bound (Zpos m) (2 ^ k) Hk). pose proof (Z.div_pos (Zpos m) (2 ^ k) ltac:(lia) Hk).
    destruct (Z.testbit (Zpos m) (k - 1)) eqn:Hb; [|split_and!; nia]. split; [lia|]. split; [lia|]. intros _.
    assert (Hhalf : 2 ^ (k - 1) ≤ Zpos m mod 2 ^ k).
    { apply Z.le_ngt. intros Hlt. assert (Hf : Z.testbit (Zpos m mod 2 ^ k) (k - 1) = false).
      { destruct (Z.eq_dec (Zpos m mod 2 ^ k) 0) as [-> |Hne]; [apply Z.testbit_0_l|]. apply Z.bits_above_log2; [lia|]. apply Z.log2_lt_pow2; lia. }
      rewrite Z.mod_pow2_bits_low in Hf by lia. congruence. }
    assert (H2 : 2 ^ k = 2 * 2 ^ (k - 1)) by (rewrite <- Z.pow_succ_r by lia; f_equal; lia). nia.
Qed.

Lemma to_uint_upper max z : 0 ≤ z < 2 ^ 200 → 0 ≤ max → 0 ≤ to_uint max (signed false z) ∧ to_uint max (signed false z) * 2 ^ 52 ≤ z * (2 ^ 52 + 1).
Proof.
  intros Hz Hmax. unfold signed. destruct (Z.eqb_spec z 0) as [-> |Hne]; [cbn; lia|]. destruct (of_Z_upper z ltac:(lia)) as (m & e & -> & He & Hle). cbn [to_uint].
  assert (Hint : 0 ≤ int_part m e ∧ int_part m e * 2 ^ 52 ≤ Zpos m * 2 ^ (e + 52)).
  { unfold int_part. destruct (Z.leb_spec 0 e).
    - rewrite Z.shiftl_mul_pow2, Z.pow_add_r by lia. assert (0 < 2 ^ e) by (apply Z.pow_pos_nonneg; lia). split; lia.
    - rewrite Z.shiftr_div_pow2 by lia. assert (Hk : 0 < 2 ^ (- e)) by (apply Z.pow_pos_nonneg; lia). split; [apply Z.div_pos; lia|].
      replace (2 ^ 52) with (2 ^ (- e) * 2 ^ (e + 52)) by (rewrite <- Z.pow_add_r by lia; f_equal; lia). pose proof (Z.mul_div_le (Zpos m) (2 ^ - e) Hk).
      assert (0 < 2 ^ (e + 52)) by (apply Z.pow_pos_nonneg; lia). nia. }
  split; [lia|]. transitivity (int_part m e * 2 ^ 52); [|lia]. apply Z.mul_le_mono_nonneg_r; lia.
Qed.

(** A fifth of an amount, rounded, is at most the amount. *)
Lemma fifth_le max d : 0 ≤ d < 2 ^ 128 → 0 ≤ max → 0 ≤ to_uint max (fround (fmul (of_Z d) (lit 2 10))) ≤ d.
Proof.
  intros Hd Hmax. assert (Hlit : lit 2 10 = S754_finite false 7205759403792794 (-55)) by (by vm_compute). rewrite Hlit.
  destruct (Z.eq_dec d 0) as [-> |Hne]; [cbn; lia|].
  destruct (of_Z_upper d) as (m & e & -> & He & Hle). { split; [lia|]. apply (Z.lt_trans _ (2 ^ 128)); [lia|]. by apply Z.pow_lt_mono_r. }
  set (L := 7205759403792794%positive) in *. assert (He2 : e ≤ 150).
  { apply Z.le_ngt. intros Hbig. assert (2 ^ 202 ≤ 2 ^ (e + 52)) by (apply Z.pow_le_mono_r; lia). assert (d * (2 ^ 52 + 1) < 2 ^ 128 * (2 ^ 52 + 1)) by (apply Z.mul_lt_mono_pos_r; lia).
    assert (2 ^ 128 * (2 ^ 52 + 1) < 2 ^ 202) by (by vm_compute). nia. }
  assert (Hm : Zpos m < 2 ^ 200).
  { assert (1 ≤ 2 ^ (e + 52)) by (apply (Z.pow_le_mono_r 2 0); lia). assert (d * (2 ^ 52 + 1) < 2 ^ 128 * (2 ^ 52 + 1)) by (apply Z.mul_lt_mono_pos_r; lia).
    assert (2 ^ 128 * (2 ^ 52 + 1) < 2 ^ 200) by (by vm_compute). nia. }
  unfold fmul, SFmul. cbn [xorb]. assert (HmL : 0 ≤ Zpos (m * L) < 2 ^ 300).
  { split; [lia|]. rewrite Pos2Z.inj_mul. assert (Zpos L < 2 ^ 60) by (by vm_compute). assert (2 ^ 200 * 2 ^ 60 < 2 ^ 300) by (by vm_compute). nia. }
  destruct (round_range false (Zpos (m * L)) (e + -55) loc_Exact HmL ltac:(lia)) as [Hz|(m2 & e2 & Hr)]; [rewrite Hz; cbn; lia|]. rewrite Hr.
  destruct (round_upper false (Zpos (m * L)) (e + -55) m2 e2 (proj1 HmL) ltac:(lia) Hr) as [Hee Hup]. cbn [fround]. destruct (round_int m2 e2) as (Hr0 & Hge & Hlt).
  set (r := int_part m2 e2 + (if half_up m2 e2 then 1 else 0)) in *.
  (* the product is below a quarter of the amount *)
  assert (Hq : Zpos m2 * 2 ^ (e2 + 110) * 4 ≤ d * 2 ^ 110).
  { assert (Hp1 : 2 ^ (e2 + 110) = 2 ^ (e2 - (e + -55)) * 2 ^ (e + 55)) by (rewrite <- Z.pow_add_r by lia; f_equal; lia).
    assert (Hp2 : 2 ^ (e + 55) = 8 * 2 ^ (e + 52)) by (change 8 with (2 ^ 3); rewrite <- Z.pow_add_r by lia; f_equal; lia). rewrite Pos2Z.inj_mul in Hup.
    assert (Hpos : 0 < 2 ^ (e + 52)) by (apply Z.pow_pos_nonneg; lia). rewrite Hp1, Hp2.
    assert (Hup' : Z.pos m2 * 2 ^ (e2 - (e + -55)) * 2 ^ (e + 52) * 2 ^ 52 ≤ (Z.pos m * 2 ^ (e + 52)) * Z.pos L * (2 ^ 52 + 1)).
    { replace (Z.pos m2 * 2 ^ (e2 - (e + -55)) * 2 ^ (e + 52) * 2 ^ 52) with (Z.pos m2 * 2 ^ (e2 - (e + -55)) * 2 ^ 52 * 2 ^ (e + 52)) by ring.
      replace (Z.pos m * 2 ^ (e + 52) * Z.pos L * (2 ^ 52 + 1)) with (Z.pos m * Z.pos L * (2 ^ 52 + 1) * 2 ^ (e + 52)) by ring. apply Z.mul_le_mono_nonneg_r; lia. }
    assert (Hbound : (Z.pos m * 2 ^ (e + 52)) * Z.pos L * (2 ^ 52 + 1) ≤ d * (2 ^ 52 + 1) * Z.pos L * (2 ^ 52 + 1)).
    { apply Z.mul_le_mono_nonneg_r; [lia|]. apply Z.mul_le_mono_nonneg_r; lia. }
    assert (Hconst : (2 ^ 52 + 1) * Z.pos L * (2 ^ 52 + 1) * 32 ≤ 2 ^ 162) by (by vm_compute).
    apply (Z.mul_le_mono_pos_r _ _ (2 ^ 52)); [lia|]. replace (Z.pos m2 * (2 ^ (e2 - (e + -55)) * (8 * 2 ^ (e + 52))) * 4 * 2 ^ 52) with (Z.pos m2 * 2 ^ (e2 - (e + -55)) * 2 ^ (e + 52) * 2 ^ 52 * 32) by ring.
    replace (d * 2 ^ 110 * 2 ^ 52) with (d * 2 ^ 162) by (change (2 ^ 162) with (2 ^ 110 * 2 ^ 52); ring). nia. }
  assert (Hr4 : 4 * r ≤ d + 2).
  { destruct (Z.lt_ge_cases e2 0) as [Hneg|Hnn].
    - specialize (Hlt Hneg). assert (Hp : 2 ^ 110 = 2 ^ (- e2) * 2 ^ (e2 + 110)) by (rewrite <- Z.pow_add_r by lia; f_equal; lia). assert (Hpos : 0 < 2 ^ (e2 + 110)) by (apply Z.pow_pos_nonneg; lia).
      assert (Hpos2 : 0 < 2 ^ (- e2)) by (apply Z.pow_pos_nonneg; lia). rewrite Hp in Hq. assert (Zpos m2 * 4 ≤ d * 2 ^ (- e2)) by nia. nia.
    - rewrite (Hge Hnn). rewrite Z.pow_add_r in Hq by lia. assert (0 < 2 ^ 110) by lia. nia. }
  assert (Hr200 : 0 ≤ r < 2 ^ 200) by (split; [lia|]; apply (Z.lt_trans _ (2 ^ 128)); [lia|by apply Z.pow_lt_mono_r]).
  destruct (to_uint_upper max r Hr200 Hmax) as [Hlo Hhi]. split; [done|].
  destruct (Z.le_gt_cases d 1) as [H1|H1]; [assert (r = 0) by lia; assert (Hz : r = 0) by lia; rewrite Hz in *; nia|]. nia.
Qed.
