(* ===== verification/Economics.v ===== *)
(** * Rewards, rent and spam control

    Models [src/L1/src/consensus/validator_performance.rs] (per-epoch metrics of validators), [src/L1/src/stacc/tokenomics.rs] (supply, inflation and the
    distribution of rewards), [src/L1/src/stacc/state_rent.rs] (storage rent) and [src/L1/src/stacc/anti_spam.rs] (sliding windows).
    Floating point is [F64.v]; [f64::exp] and the clock are arguments.  Atomic counters wrap around. *)

From Stdlib Require Import SpecFloat Sorted.
From S2P Require Import Prelude F64.

(** ** Validator performance *)

Record EpochMetrics : Type := mkMetrics {
  blocks_proposed : Z;
  votes_cast : Z;
  votes_expected : Z;
  total_inclusion_latency_ms : Z;
  latency_samples : Z;
  total_cu_proposed : Z;
  checkpoint_signatures : Z
}.

Definition no_metrics : EpochMetrics := mkMetrics 0 0 0 0 0 0 0.

Definition uptime (m : EpochMetrics) : f64 :=
  if votes_expected m =? 0 then fzero else clamp fzero fone (of_Z (votes_cast m) / of_Z (votes_expected m))%f64.

Definition avg_inclusion_latency_ms (m : EpochMetrics) : f64 :=
  if latency_samples m =? 0 then fzero else (of_Z (total_inclusion_latency_ms m) / of_Z (latency_samples m))%f64.

Definition cu_utilization (m : EpochMetrics) : f64 :=
  if blocks_proposed m =? 0 then fzero
  else clamp fzero fone (of_Z (total_cu_proposed m) / of_Z (blocks_proposed m) / of_Z 10000)%f64.

Definition performance_score (m : EpochMetrics) : f64 :=
  let latency_score := clamp fzero fone (fone - avg_inclusion_latency_ms m / of_Z 2000)%f64 in
  clamp fzero fone (lit 1 2 * uptime m + lit 3 10 * cu_utilization m + lit 2 10 * latency_score)%f64.

Record ValidatorPerformanceRecord : Type := mkPerformance {
  p_epoch : Z;
  p_validator : Address;
  p_blocks_proposed : Z;
  p_votes_cast : Z;
  p_votes_expected : Z;
  p_avg_inclusion_latency_ms : f64;
  p_total_cu_proposed : Z;
  p_checkpoint_signatures : Z;
  p_performance_score : f64;
  p_uptime : f64;
  p_epoch_reward : Z
}.

Definition from_metrics (epoch : Z) (v : Address) (m : EpochMetrics) (reward : Z) : ValidatorPerformanceRecord :=
  mkPerformance epoch v (blocks_proposed m) (votes_cast m) (votes_expected m) (avg_inclusion_latency_ms m) (total_cu_proposed m)
    (checkpoint_signatures m) (performance_score m) (uptime m) reward.

Record ValidatorPerformanceTracker : Type := mkTracker { pt_epoch : Z; pt_metrics : gmap Address EpochMetrics }.

Definition new_tracker : ValidatorPerformanceTracker := mkTracker 0 ∅.

(** [entry(v).or_default()] and a change. *)
Definition update_metrics (v : Address) (f : EpochMetrics → EpochMetrics) (t : ValidatorPerformanceTracker) : ValidatorPerformanceTracker :=
  mkTracker (pt_epoch t) (<[v := f (default no_metrics (pt_metrics t !! v))]> (pt_metrics t)).

(** The completed metrics, in the order the map drains, and the tracker of the new epoch. *)
Definition finalize_epoch (new_epoch : Z) (t : ValidatorPerformanceTracker) : list (Address * EpochMetrics) * ValidatorPerformanceTracker :=
  (map_to_list (pt_metrics t), mkTracker new_epoch ∅).

Definition record_block_proposed (v : Address) (cu : Z) : ValidatorPerformanceTracker → ValidatorPerformanceTracker :=
  update_metrics v (λ m, mkMetrics (wrapping_add u64_max (blocks_proposed m) 1) (votes_cast m) (votes_expected m) (total_inclusion_latency_ms m)
    (latency_samples m) (saturating_add u64_max (total_cu_proposed m) cu) (checkpoint_signatures m)).

Definition record_vote (v : Address) : ValidatorPerformanceTracker → ValidatorPerformanceTracker :=
  update_metrics v (λ m, mkMetrics (blocks_proposed m) (wrapping_add u64_max (votes_cast m) 1) (votes_expected m) (total_inclusion_latency_ms m)
    (latency_samples m) (total_cu_proposed m) (checkpoint_signatures m)).

Definition record_vote_expected (v : Address) : ValidatorPerformanceTracker → ValidatorPerformanceTracker :=
  update_metrics v (λ m, mkMetrics (blocks_proposed m) (votes_cast m) (wrapping_add u64_max (votes_expected m) 1) (total_inclusion_latency_ms m)
    (latency_samples m) (total_cu_proposed m) (checkpoint_signatures m)).

Definition record_inclusion_latency (v : Address) (latency : Z) : ValidatorPerformanceTracker → ValidatorPerformanceTracker :=
  update_metrics v (λ m, mkMetrics (blocks_proposed m) (votes_cast m) (votes_expected m) (saturating_add u64_max (total_inclusion_latency_ms m) latency)
    (wrapping_add u64_max (latency_samples m) 1) (total_cu_proposed m) (checkpoint_signatures m)).

Definition record_checkpoint_signature (v : Address) : ValidatorPerformanceTracker → ValidatorPerformanceTracker :=
  update_metrics v (λ m, mkMetrics (blocks_proposed m) (votes_cast m) (votes_expected m) (total_inclusion_latency_ms m)
    (latency_samples m) (total_cu_proposed m) (wrapping_add u64_max (checkpoint_signatures m) 1)).

Definition get_metrics (v : Address) (t : ValidatorPerformanceTracker) : option EpochMetrics := pt_metrics t !! v.

(** ** Tokenomics *)

Definition INITIAL_SUPPLY : Z := 1000000000.
Definition TARGET_STAKING_RATE : f64 := lit 67 100.
Definition MAX_ANNUAL_INFLATION : f64 := lit 5 100.
Definition MIN_ANNUAL_INFLATION : f64 := lit 1 100.
Definition RENT_BURN_RATIO : f64 := lit 2 10.
Definition SLASH_VALIDATOR_SHARE : f64 := lit 8 10.
Definition SLASH_BURN_RATIO : f64 := lit 2 10.
Definition EPOCHS_PER_YEAR : Z := 3652.

Definition annual_inflation_rate (staking_rate : f64) : f64 :=
  fmax (MAX_ANNUAL_INFLATION * (fone - fmin (staking_rate / TARGET_STAKING_RATE) fone))%f64 MIN_ANNUAL_INFLATION.

Definition epoch_inflation_emission (total_supply : Z) (staking_rate : f64) : Z :=
  to_uint u128_max (fround (of_Z total_supply * annual_inflation_rate staking_rate)%f64) / EPOCHS_PER_YEAR.

Record EpochReward : Type := mkReward {
  inflation_emission : Z;
  rent_share : Z;
  slash_share : Z;
  rw_total_burned : Z;
  inflation_rate : f64
}.

Definition total_validator_reward (r : EpochReward) : Z :=
  saturating_add u128_max (saturating_add u128_max (inflation_emission r) (rent_share r)) (slash_share r).

Record ValidatorEpochReward : Type := mkValidatorReward { vr_validator : Address; vr_stake_weight : f64; vr_performance : f64; vr_reward : Z }.

Record TokenomicsEngine : Type := mkTokenomics {
  total_supply : Z;
  total_staked : Z;
  tk_current_epoch : Z;
  total_burned_all_time : Z
}.

Definition new_tokenomics (initial_supply initial_staked : Z) : TokenomicsEngine := mkTokenomics initial_supply initial_staked 0 0.

Definition staking_rate (t : TokenomicsEngine) : f64 :=
  if total_supply t =? 0 then fzero else fmin (of_Z (total_staked t) / of_Z (total_supply t))%f64 fone.

Definition compute_epoch_reward (rent_collected_cu slash_amount : Z) (cu_to_qts : f64) (t : TokenomicsEngine) : EpochReward :=
  let rate := staking_rate t in
  let rent_qts := to_uint u128_max (of_Z rent_collected_cu * cu_to_qts)%f64 in
  let rent_burned := to_uint u128_max (fround (of_Z rent_qts * RENT_BURN_RATIO)%f64) in
  let slash_burned := to_uint u128_max (fround (of_Z slash_amount * SLASH_BURN_RATIO)%f64) in
  mkReward (epoch_inflation_emission (total_supply t) rate) (Z.max 0 (rent_qts - rent_burned))
    (to_uint u128_max (fround (of_Z slash_amount * SLASH_VALIDATOR_SHARE)%f64)) (saturating_add u128_max rent_burned slash_burned) (annual_inflation_rate rate).

Definition stake_weight (stake total_stake : Z) : f64 := if total_stake =? 0 then fzero else (of_Z stake / of_Z total_stake)%f64.

Definition validator_reward (total_reward total_stake : Z) (v : Address * Z * f64) : ValidatorEpochReward :=
  let '(addr, stake, performance) := v in
  let w := stake_weight stake total_stake in
  mkValidatorReward addr w performance (to_uint u128_max (fround (of_Z total_reward * w * clamp fzero fone performance)%f64)).

Definition distribute_epoch_reward (r : EpochReward) (validators : list (Address * Z * f64)) (total_stake : Z) : list ValidatorEpochReward :=
  map (validator_reward (total_validator_reward r) total_stake) validators.

Definition as_u64 (x : Z) : Z := x mod 18446744073709551616.

Definition apply_epoch (r : EpochReward) (t : TokenomicsEngine) : TokenomicsEngine :=
  let minted := wrapping_add u64_max (total_supply t) (as_u64 (inflation_emission r)) in
  let burn := as_u64 (rw_total_burned r) in
  mkTokenomics (Z.max 0 (minted - burn)) (total_staked t) (wrapping_add u64_max (tk_current_epoch t) 1) (wrapping_add u64_max (total_burned_all_time t) burn).

Definition update_total_staked (staked : Z) (t : TokenomicsEngine) : TokenomicsEngine :=
  mkTokenomics (total_supply t) staked (tk_current_epoch t) (total_burned_all_time t).

Record SustainabilityReport : Type := mkSustainability {
  sr_annual_inflation : f64;
  sr_staking_rate : f64;
  rent_coverage : f64;
  net_annual_change_pct : f64;
  years_to_rent_parity : option f64
}.

Definition compute_report (inflation rent slash burned : Z) (rate : f64) (supply : Z) : SustainabilityReport :=
  let total_reward := wrapping_add u128_max (wrapping_add u128_max inflation rent) slash in
  let coverage := if total_reward =? 0 then fzero else (of_Z (wrapping_add u128_max rent slash) / of_Z total_reward)%f64 in
  let annual := annual_inflation_rate rate in
  let net := ((of_Z supply * annual - of_Z burned * of_Z EPOCHS_PER_YEAR) / of_Z supply)%f64 in
  let years :=
    if fleb (lit 1 2) coverage then Some fzero
    else if 0 <? rent then Some (fmax ((lit 1 2 - coverage) / (of_Z rent / of_Z inflation * lit 3 10))%f64 fzero)
    else None in
  mkSustainability annual rate coverage (net * of_Z 100)%f64 years.

(** ** State rent *)

Definition RENT_RATE_PER_SLOT_PER_BYTE : Z := 1.
Definition N_EXPIRE_SLOTS : Z := 172800.
Definition MIN_BALANCE_EXEMPT_BYTES : Z := 128.
Definition RESTORE_COST_PER_BYTE : Z := 100.
Definition BURN_RATIO : f64 := lit 2 10.

Record StorageRecord : Type := mkStorage {
  storage_bytes : Z;
  last_rent_slot : Z;
  zero_quota_slots : Z;
  archived : bool;
  archive_root : option Hash
}.

Definition new_storage_record (bytes slot : Z) : StorageRecord := mkStorage bytes slot 0 false None.

Inductive RentResult : Type := Collected (cu_deducted : Z) | Archived | Exempt | AlreadyArchived.

Record StateRentManager : Type := mkRent {
  records : gmap Address StorageRecord;
  total_rent_collected : Z;
  rm_total_burned : Z
}.

Definition new_rent_manager : StateRentManager := mkRent ∅ 0 0.

Definition update_storage (a : Address) (bytes slot : Z) (m : StateRentManager) : StateRentManager :=
  let r := match records m !! a with
           | Some r => mkStorage bytes (last_rent_slot r) (zero_quota_slots r) (archived r) (archive_root r)
           | None => new_storage_record bytes slot
           end in
  mkRent (<[a := r]> (records m)) (total_rent_collected m) (rm_total_burned m).

Definition due_for (r : StorageRecord) (slot : Z) : Z :=
  saturating_mul u64_max (saturating_mul u64_max (storage_bytes r) RENT_RATE_PER_SLOT_PER_BYTE) (Z.max 0 (slot - last_rent_slot r)).

Definition rent_due (a : Address) (slot : Z) (m : StateRentManager) : Z :=
  match records m !! a with
  | None => 0
  | Some r => if archived r then 0 else if storage_bytes r <=? MIN_BALANCE_EXEMPT_BYTES then 0 else due_for r slot
  end.

Definition burned_part (amount : Z) : Z := to_uint u64_max (fround (of_Z amount * BURN_RATIO)%f64).

(** Book a deduction: a fifth is burned, the rest goes to the validators. *)
Definition book_rent (a : Address) (r : StorageRecord) (amount : Z) (m : StateRentManager) : StateRentManager :=
  mkRent (<[a := r]> (records m)) (wrapping_add u64_max (total_rent_collected m) (wrapping_sub u64_max amount (burned_part amount)))
    (wrapping_add u64_max (rm_total_burned m) (burned_part amount)).

Definition collect_rent (a : Address) (available_quota slot : Z) (m : StateRentManager) : RentResult * StateRentManager :=
  match records m !! a with
  | None => (Exempt, m)
  | Some r =>
      if archived r then (AlreadyArchived, m)
      else if storage_bytes r <=? MIN_BALANCE_EXEMPT_BYTES then (Exempt, m)
      else
        let due := due_for r slot in
        if due =? 0 then (Exempt, m)
        else if due <=? available_quota then
          (Collected due, book_rent a (mkStorage (storage_bytes r) slot 0 (archived r) (archive_root r)) due m)
        else
          let zero := wrapping_add u64_max (zero_quota_slots r) 1 in
          if N_EXPIRE_SLOTS <=? zero then
            (Archived, mkRent (<[a := mkStorage (storage_bytes r) (last_rent_slot r) zero true (archive_root r)]> (records m)) (total_rent_collected m) (rm_total_burned m))
          else
            let partial := Z.min available_quota due in
            (Collected partial, book_rent a (mkStorage (storage_bytes r) slot zero (archived r) (archive_root r)) partial m)
  end.

Inductive StateRentError : Type := AccountNotFound | NotArchived | InsufficientQuota (need have : Z) | InvalidArchiveRoot.

Definition restore_account (a : Address) (available_quota : Z) (root : Hash) (slot : Z) : M StateRentManager StateRentError Z := λ m,
  match records m !! a with
  | None => (Err AccountNotFound, m)
  | Some r =>
      if negb (archived r) then (Err NotArchived, m)
      else
        let cost := saturating_mul u64_max (storage_bytes r) RESTORE_COST_PER_BYTE in
        if available_quota <? cost then (Err (InsufficientQuota cost available_quota), m)
        else if match archive_root r with Some stored => negb (stored =? root) | None => false end then (Err InvalidArchiveRoot, m)
        else (Ok cost, mkRent (<[a := mkStorage (storage_bytes r) slot 0 false None]> (records m)) (total_rent_collected m) (rm_total_burned m))
  end.

Definition reset_epoch (m : StateRentManager) : StateRentManager := mkRent (records m) 0 0.
Definition archived_accounts (m : StateRentManager) : list Address := (filter (λ kv, archived kv.2 = true) (map_to_list (records m))).*1.

(** ** Spam control *)

Definition WINDOW_MS : Z := 60000.
Definition DECAY_LAMBDA : f64 := lit 1 10.
Definition MAX_WINDOW_ENTRIES : nat := Z.to_nat 10000.
Definition MIN_QUOTA_RATIO : f64 := lit 5 100.

Record TxEvent : Type := mkEvent { ev_timestamp : Z; ev_cu : Z }.

Record WindowState : Type := mkWindow { events : list TxEvent; window_cu : Z; window_tx_count : Z }.

Definition new_window : WindowState := mkWindow [] 0 0.

Definition forget (e : TxEvent) (w : WindowState) (rest : list TxEvent) : WindowState :=
  mkWindow rest (Z.max 0 (window_cu w - ev_cu e)) (Z.max 0 (window_tx_count w - 1)).

Fixpoint evict_loop (cutoff : Z) (es : list TxEvent) (w : WindowState) : WindowState :=
  match es with
  | e :: es' => if ev_timestamp e <? cutoff then evict_loop cutoff es' (forget e w es') else w
  | [] => w
  end.

Definition evict_old (now : Z) (w : WindowState) : WindowState := evict_loop (now - WINDOW_MS) (events w) w.

(** The clock is read twice: for the eviction and for the event's time stamp. *)
Definition record_event (evict_at now cu : Z) (w : WindowState) : WindowState :=
  let w := evict_old evict_at w in
  let w := if (MAX_WINDOW_ENTRIES <=? length (events w))%nat
           then match events w with e :: es => forget e w es | [] => w end else w in
  mkWindow (events w ++ [mkEvent now cu]) (saturating_add u64_max (window_cu w) cu) (wrapping_add u64_max (window_tx_count w) 1).

Section Spam.
Context (exp : f64 → f64).

Definition ratio_of (w : WindowState) : f64 := fmax (exp (SFopp DECAY_LAMBDA * of_Z (window_tx_count w))%f64) MIN_QUOTA_RATIO.

Abbreviation Windows := (gmap Address WindowState).

Definition effective_quota (a : Address) (quota_base now : Z) (ws : Windows) : Z * Windows :=
  let w := evict_old now (default new_window (ws !! a)) in
  (to_uint u64_max (fround (of_Z quota_base * ratio_of w)%f64), <[a := w]> ws).

Definition record_tx (a : Address) (cu evict_at now : Z) (ws : Windows) : Windows :=
  <[a := record_event evict_at now cu (default new_window (ws !! a))]> ws.

Definition tx_count_of (a : Address) (ws : Windows) : Z := from_option window_tx_count 0 (ws !! a).

Definition effective_ratio (a : Address) (now : Z) (ws : Windows) : f64 * Windows :=
  match ws !! a with
  | Some w => let w' := evict_old now w in (ratio_of w', <[a := w']> ws)
  | None => (fone, ws)
  end.

Definition suspected_spammers (threshold now : Z) (ws : Windows) : list (Address * Z) * Windows :=
  let ws' := evict_old now <$> ws in
  (map (λ kv, (kv.1, window_tx_count kv.2)) (filter (λ kv, threshold < window_tx_count kv.2) (map_to_list ws')), ws').

End Spam.

(** ** The score is a number between 0 and 1 *)

Lemma round_not_nan s p e : is_nan (binary_round 53 1024 s p e) = false.
Proof. unfold binary_round. destruct (shl_align _ _ _) as [m' e']. destruct (round_sign s (Zpos m') e' loc_Exact ltac:(lia)) as (x & -> & Hs). by destruct x. Qed.

Lemma sub_not_nan x y : is_finite x → nonneg y → is_nan (x - y)%f64 = false.
Proof.
  intros Hx Hy. unfold fsub, SFsub. destruct x as [[]| | |[] mx ex], y as [[]|[]| |[] my ey]; cbn [is_finite nonneg] in *; try done.
  all: unfold binary_normalize; destruct (_ - _); [done|apply round_not_nan..].
Qed.

Lemma ratio_nonneg a b : 0 ≤ a → 0 < b ≤ u64_max → nonneg (of_Z a / of_Z b)%f64.
Proof.
  intros Ha Hb. assert (Hb' : 0 < b < 2 ^ 200) by (split; [lia|]; apply (Z.le_lt_trans _ u64_max); [lia|by vm_compute]).
  apply fdiv_nonneg; [by apply of_Z_nonneg|apply of_Z_nonneg; lia|apply of_Z_finite; lia|by apply of_Z_nonzero].
Qed.

Definition metrics_u64 (m : EpochMetrics) : Prop :=
  Forall (λ z, 0 ≤ z ≤ u64_max) [blocks_proposed m; votes_cast m; votes_expected m; total_inclusion_latency_ms m; latency_samples m; total_cu_proposed m; checkpoint_signatures m].

(** Not a NaN, not below 0 and not above 1. *)
Definition unit_interval (x : f64) : Prop := nonneg x ∧ is_finite x ∧ fltb fone x = false ∧ fltb x fzero = false.

Lemma zero_unit : unit_interval fzero.
Proof. by split_and!. Qed.

Lemma nonneg_unit x : nonneg x → unit_interval (clamp fzero fone x).
Proof. intros Hx. apply clamp_unit. by apply nonneg_not_nan. Qed.

Lemma uptime_unit m : metrics_u64 m → unit_interval (uptime m).
Proof.
  intros Hm. unfold uptime. destruct (Z.eqb_spec (votes_expected m) 0); [apply zero_unit|]. repeat (apply list.Forall_cons in Hm as [? Hm]).
  apply nonneg_unit, ratio_nonneg; lia.
Qed.

Lemma latency_nonneg m : metrics_u64 m → nonneg (avg_inclusion_latency_ms m).
Proof.
  intros Hm. unfold avg_inclusion_latency_ms. destruct (Z.eqb_spec (latency_samples m) 0); [done|]. repeat (apply list.Forall_cons in Hm as [? Hm]).
  apply ratio_nonneg; lia.
Qed.

Lemma small_divisor x n : nonneg x → 0 < n ≤ u64_max → nonneg (x / of_Z n)%f64.
Proof.
  intros Hx Hn. assert (Hn' : 0 < n < 2 ^ 200) by (split; [lia|]; apply (Z.le_lt_trans _ u64_max); [lia|by vm_compute]).
  apply fdiv_nonneg; [done|apply of_Z_nonneg; lia|apply of_Z_finite; lia|by apply of_Z_nonzero].
Qed.

Lemma cu_utilization_unit m : metrics_u64 m → unit_interval (cu_utilization m).
Proof.
  intros Hm. unfold cu_utilization. destruct (Z.eqb_spec (blocks_proposed m) 0); [apply zero_unit|]. repeat (apply list.Forall_cons in Hm as [? Hm]).
  apply nonneg_unit, small_divisor; [apply ratio_nonneg; lia|by vm_compute].
Qed.

(** For every metrics record of u64 counters the performance score is a number: not a NaN, not
    infinite, at least 0 and at most 1; so are the uptime and the CU utilization it is made of. *)
Theorem score_in_unit_interval m : metrics_u64 m →
  unit_interval (performance_score m) ∧ unit_interval (uptime m) ∧ unit_interval (cu_utilization m).
Proof.
  intros Hm. pose proof (uptime_unit m Hm) as Hu. pose proof (cu_utilization_unit m Hm) as Hc. split; [|done]. unfold performance_score.
  assert (Hl : unit_interval (clamp fzero fone (fone - avg_inclusion_latency_ms m / of_Z 2000)%f64)).
  { apply clamp_unit, sub_not_nan; [done|]. apply small_divisor; [by apply latency_nonneg|by vm_compute]. }
  destruct Hu as (Hu & Fu & _), Hc as (Hc & Fc & _), Hl as (Hl & Fl & _). apply nonneg_unit. repeat apply fadd_nonneg; by apply fmul_nonneg.
Qed.

Definition sample_metrics : EpochMetrics := mkMetrics 10 95 100 50000 100 80000 1.

(** Applied to a validator that voted 95 of 100 times. *)
Lemma score_in_unit_interval_witness : unit_interval (performance_score sample_metrics) ∧ unit_interval (uptime sample_metrics) ∧ unit_interval (cu_utilization sample_metrics).
Proof. apply (score_in_unit_interval sample_metrics). unfold metrics_u64. repeat constructor; vm_compute; congruence. Defined.

(** ** Rent *)

Inductive RentOp : Type :=
  | UpdateStorage (a : Address) (bytes slot : Z)
  | CollectRent (a : Address) (quota slot : Z)
  | RestoreAccount (a : Address) (quota : Z) (root : Hash) (slot : Z)
  | ResetEpoch.

(** One call, and the rent deducted so far in the epoch as its callers see it. *)
Definition rent_step (s : StateRentManager * Z) (op : RentOp) : StateRentManager * Z :=
  let '(m, d) := s in
  match op with
  | UpdateStorage a b slot => (update_storage a b slot m, d)
  | CollectRent a q slot => let '(r, m') := collect_rent a q slot m in (m', match r with Collected cu => d + cu | _ => d end)
  | RestoreAccount a q root slot => ((restore_account a q root slot m).2, d)
  | ResetEpoch => (reset_epoch m, 0)
  end.

Definition run_rent (ops : list RentOp) : StateRentManager * Z := fold_left rent_step ops (new_rent_manager, 0).

Definition rent_op_u64 (op : RentOp) : Prop :=
  match op with
  | UpdateStorage _ b slot => 0 ≤ b ≤ u64_max ∧ 0 ≤ slot ≤ u64_max
  | CollectRent _ q slot => 0 ≤ q ≤ u64_max ∧ 0 ≤ slot ≤ u64_max
  | RestoreAccount _ q _ slot => 0 ≤ q ≤ u64_max ∧ 0 ≤ slot ≤ u64_max
  | ResetEpoch => True
  end.

Definition storage_ok (r : StorageRecord) : Prop :=
  0 ≤ storage_bytes r ≤ u64_max ∧ archive_root r = None ∧ (archived r = true → N_EXPIRE_SLOTS ≤ zero_quota_slots r).

Definition rent_ok (s : StateRentManager * Z) : Prop :=
  map_Forall (λ _ r, storage_ok r) (records s.1) ∧ 0 ≤ total_rent_collected s.1 ≤ u64_max ∧ 0 ≤ rm_total_burned s.1 ≤ u64_max ∧ 0 ≤ s.2 ∧
  (s.2 ≤ u64_max → total_rent_collected s.1 + rm_total_burned s.1 = s.2).

Lemma burned_part_le d : 0 ≤ d ≤ u64_max → 0 ≤ burned_part d ≤ d.
Proof. intros Hd. apply fifth_le; [|by vm_compute]. split; [lia|]. apply (Z.le_lt_trans _ u64_max); [lia|by vm_compute]. Qed.

Lemma due_range r slot : 0 ≤ storage_bytes r → 0 ≤ due_for r slot ≤ u64_max.
Proof. intros Hr. unfold due_for, saturating_mul, RENT_RATE_PER_SLOT_PER_BYTE, u64_max in *. nia. Qed.

Lemma book_rent_ok a r due m d : 0 ≤ due ≤ u64_max → storage_ok r → rent_ok (m, d) → rent_ok (book_rent a r due m, d + due).
Proof.
  intros Hdue Hr (Hm & Hc & Hb & Hd & Hsum). cbn [fst snd] in *. pose proof (burned_part_le due Hdue) as Hp. unfold rent_ok, book_rent. cbn [fst snd records total_rent_collected rm_total_burned].
  split; [by apply map_Forall_insert_2|]. unfold wrapping_add, wrapping_sub. change (u64_max + 1) with (18446744073709551616).
  assert (Hmod : ∀ x, 0 ≤ x mod 18446744073709551616 ≤ u64_max) by (intros x; pose proof (Z.mod_pos_bound x 18446744073709551616 ltac:(lia)); change u64_max with 18446744073709551615; lia).
  split_and!; try apply Hmod; [lia|]. intros Hle. specialize (Hsum ltac:(lia)). change u64_max with 18446744073709551615 in *. rewrite (Z.mod_small (due - burned_part due)) by lia. rewrite !Z.mod_small; lia.
Qed.

Lemma collect_cases a q slot m : (collect_rent a q slot m).2 = m ∧ (∀ cu, (collect_rent a q slot m).1 ≠ Collected cu) ∨
  ∃ r, records m !! a = Some r ∧ archived r = false ∧
    ((collect_rent a q slot m = (Archived, mkRent (<[a := mkStorage (storage_bytes r) (last_rent_slot r) (wrapping_add u64_max (zero_quota_slots r) 1) true (archive_root r)]> (records m)) (total_rent_collected m) (rm_total_burned m)) ∧
        N_EXPIRE_SLOTS ≤ wrapping_add u64_max (zero_quota_slots r) 1) ∨
     ∃ cu zero, collect_rent a q slot m = (Collected cu, book_rent a (mkStorage (storage_bytes r) slot zero false (archive_root r)) cu m) ∧
        cu = Z.min q (due_for r slot) ∧ (zero = 0 ∨ zero = wrapping_add u64_max (zero_quota_slots r) 1)).
Proof.
  unfold collect_rent. destruct (records m !! a) as [r|] eqn:Hr; [|by left]. destruct (archived r) eqn:Ha; [by left|].
  destruct (Z.leb_spec (storage_bytes r) MIN_BALANCE_EXEMPT_BYTES); [by left|]. destruct (Z.eqb_spec (due_for r slot) 0); [by left|].
  right. exists r. split_and!; [done..|]. destruct (Z.leb_spec (due_for r slot) q); [right; eexists _, 0; split_and!; [done|lia|by left]|].
  destruct (Z.leb_spec N_EXPIRE_SLOTS (wrapping_add u64_max (zero_quota_slots r) 1)); [by left|]. right. eexists _, _. split_and!; [done|done|by right].
Qed.

Lemma rent_step_ok s op : rent_op_u64 op → rent_ok s → rent_ok (rent_step s op).
Proof.
  destruct s as [m d]. intros Hop Hok. pose proof Hok as (Hm & Hc & Hb & Hd & Hsum). destruct op as [a b slot|a q slot|a q root slot|]; cbn [rent_step rent_op_u64] in *.
  - split; [|done]. cbn [fst records update_storage]. apply map_Forall_insert_2; [|done]. destruct (records m !! a) as [r|] eqn:Hr; [|unfold storage_ok; cbn; split_and!; [lia|lia|done|done]].
    destruct (Hm _ _ Hr) as (_ & ? & ?). unfold storage_ok; cbn; split_and!; [lia|lia|done|done].
  - destruct (collect_cases a q slot m) as [[Heq Hno]|(r & Hr & Ha & [[Heq Hz]|(cu & z & Heq & Hcu & _)])].
    + destruct (collect_rent a q slot m) as [res m']. cbn [fst snd] in *. subst m'. destruct res; try done. by destruct (Hno cu_deducted).
    + rewrite Heq. split; [|done]. apply map_Forall_insert_2; [|done]. destruct (Hm _ _ Hr) as (? & ? & _). by unfold storage_ok.
    + rewrite Heq. destruct (Hm _ _ Hr) as (Hs & ? & _). apply book_rent_ok; [|by unfold storage_ok|done]. pose proof (due_range r slot ltac:(lia)). lia.
  - unfold restore_account. destruct (records m !! a) as [r|] eqn:Hr; [|done]. destruct (negb _); [done|]. destruct (q <? _); [done|]. destruct (Hm _ _ Hr) as (? & Hroot & _). rewrite Hroot.
    split; [|done]. apply map_Forall_insert_2; [|done]. by unfold storage_ok.
  - by unfold rent_ok.
Qed.

Lemma run_rent_ok ops : Forall rent_op_u64 ops → rent_ok (run_rent ops).
Proof.
  intros Hops. unfold run_rent. assert (Hi : rent_ok (new_rent_manager, 0)) by (split; [apply map_Forall_empty|by vm_compute]). revert Hi. generalize (new_rent_manager, 0).
  induction Hops as [|op ops Hop _ IH]; intros s Hs; [done|]. cbn. by apply IH, rent_step_ok.
Qed.

(** C34. Rent is neither created nor lost: after any sequence of calls, what validators are owed and
    what is burned add up to exactly the rent deducted since the last epoch reset, although the
    burned fifth is computed in floating point (while the sum fits in 64 bits). *)
Theorem rent_conserved ops : Forall rent_op_u64 ops → let '(m, deducted) := run_rent ops in
  deducted ≤ u64_max → total_rent_collected m + rm_total_burned m = deducted.
Proof. intros Hops. pose proof (run_rent_ok ops Hops) as H. destruct (run_rent ops) as [m d]. apply H. Qed.

Definition sample_ops : list RentOp := [UpdateStorage 1 1000 0; CollectRent 1 50000 7; CollectRent 1 10 8].

(** Applied to a full collection of 7000 and a partial one of 10. *)
Lemma rent_conserved_witness : total_rent_collected (run_rent sample_ops).1 + rm_total_burned (run_rent sample_ops).1 = 7010.
Proof.
  assert (Hops : Forall rent_op_u64 sample_ops) by (repeat constructor; vm_compute; congruence).
  pose proof (rent_conserved sample_ops Hops) as H. vm_compute in H. vm_compute. apply H. congruence.
Defined.

(** No account has a stored archive root, so restoring never checks the one the caller gives:
    [InvalidArchiveRoot] is never returned and any two roots give the same outcome. *)
Theorem archive_root_unchecked ops a q root root' slot : Forall rent_op_u64 ops → let m := (run_rent ops).1 in
  restore_account a q root slot m = restore_account a q root' slot m ∧ (restore_account a q root slot m).1 ≠ Err InvalidArchiveRoot.
Proof.
  intros Hops m. pose proof (run_rent_ok ops Hops) as (Hm & _). subst m. unfold restore_account. destruct (records _ !! a) as [r|] eqn:Hr; [|done].
  destruct (Hm _ _ Hr) as (_ & -> & _). destruct (negb _); [done|]. by destruct (q <? _).
Qed.

(** Applied to an account that is not archived. *)
Lemma archive_root_unchecked_witness : restore_account 1 5 111 9 (run_rent sample_ops).1 = restore_account 1 5 222 9 (run_rent sample_ops).1.
Proof. apply (archive_root_unchecked sample_ops 1 5 111 222 9). repeat constructor; vm_compute; congruence. Defined.

Definition asks (a : Address) (op : RentOp) : bool := match op with CollectRent b _ _ => b =? a | _ => false end.

(** The number of times rent was asked of an account. *)
Definition collections (a : Address) (ops : list RentOp) : nat := length (filter (λ op, asks a op = true) ops).

(** C0. An account is archived only after rent was asked of it at least [N_EXPIRE_SLOTS] times. *)
Theorem archived_after_expiry ops a r : Forall rent_op_u64 ops → records (run_rent ops).1 !! a = Some r → archived r = true →
  N_EXPIRE_SLOTS ≤ Z.of_nat (collections a ops).
Proof.
  intros Hops. assert (Hinv : ∀ b s, records (run_rent ops).1 !! b = Some s → 0 ≤ zero_quota_slots s ≤ Z.of_nat (collections b ops)); [|].
  2: { intros Hr Ha. pose proof (run_rent_ok ops Hops) as (Hm & _). destruct (Hm _ _ Hr) as (_ & _ & Hz). specialize (Hz Ha). apply Hinv in Hr. lia. }
  clear Hops a r. unfold run_rent. induction ops as [|op ops IH] using rev_ind; [done|]. rewrite fold_left_app. cbn [fold_left]. destruct (fold_left rent_step ops _) as [m d]. cbn [fst] in IH.
  intros b s Hs. unfold collections. rewrite list.filter_app, length_app. fold (collections b ops).
  enough (Henough : (∃ s0, records m !! b = Some s0 ∧ zero_quota_slots s0 = zero_quota_slots s) ∨ zero_quota_slots s = 0 ∨
            ∃ s0 q slot, op = CollectRent b q slot ∧ records m !! b = Some s0 ∧ zero_quota_slots s = wrapping_add u64_max (zero_quota_slots s0) 1).
  { destruct Henough as [(s0 & Hs0 & <-)|[->|(s0 & q & slot & -> & Hs0 & ->)]]; [apply IH in Hs0; lia|lia|].
    rewrite list.filter_cons_True by (cbn; lia). cbn [length]. apply IH in Hs0. unfold wrapping_add. change (u64_max + 1) with 18446744073709551616.
    pose proof (Z.mod_pos_bound (zero_quota_slots s0 + 1) 18446744073709551616 ltac:(lia)). pose proof (Z.mod_le (zero_quota_slots s0 + 1) 18446744073709551616 ltac:(lia) ltac:(lia)). lia. }
  destruct op as [a bytes slot|a q slot|a q root slot|]; cbn [rent_step fst] in Hs.
  - cbn [records update_storage] in Hs. destruct (decide (a = b)) as [-> |Hne]; [|rewrite lookup_insert_ne in Hs by done; by left; eauto].
    rewrite lookup_insert_eq in Hs. injection Hs as <-. destruct (records m !! b) as [s0|]; [left; by eexists|by right; left].
  - destruct (collect_cases a q slot m) as [[Heq _]|(r & Hr & _ & [[Heq _]|(cu & z & Heq & _ & Hz)])].
    + destruct (collect_rent a q slot m) as [res m']. cbn [fst snd] in *. subst m'. left. by eexists.
    + rewrite Heq in Hs. cbn [fst records] in Hs. destruct (decide (a = b)) as [-> |Hne]; [|rewrite lookup_insert_ne in Hs by done; by left; eauto].
      rewrite lookup_insert_eq in Hs. injection Hs as <-. right. right. by eexists _, _, _.
    + rewrite Heq in Hs. cbn [fst records book_rent] in Hs. destruct (decide (a = b)) as [-> |Hne]; [|rewrite lookup_insert_ne in Hs by done; by left; eauto].
      rewrite lookup_insert_eq in Hs. injection Hs as <-. destruct Hz as [-> | ->]; [by right; left|right; right; by eexists _, _, _].
  - unfold restore_account in Hs. destruct (records m !! a) as [r|] eqn:Hr; [|by left; eauto]. destruct (negb _); [by left; eauto|]. destruct (q <? _); [by left; eauto|].
    destruct (match archive_root r with Some _ => _ | None => _ end); [by left; eauto|]. cbn [snd records] in Hs.
    destruct (decide (a = b)) as [-> |Hne]; [|rewrite lookup_insert_ne in Hs by done; by left; eauto]. rewrite lookup_insert_eq in Hs. injection Hs as <-. by right; left.
  - left. by eexists.
Qed.

(** ** Tokenomics *)

(** At the target staking rate and above, inflation is at its minimum of 1%; with nothing staked
    it is 5%; whatever the staking rate (infinities and a NaN included) it is at least the minimum. *)
Theorem inflation_bounds (r : f64) : annual_inflation_rate fzero = MAX_ANNUAL_INFLATION ∧ annual_inflation_rate TARGET_STAKING_RATE = MIN_ANNUAL_INFLATION ∧
  fltb (annual_inflation_rate r) MIN_ANNUAL_INFLATION = false ∧ is_nan (annual_inflation_rate r) = false.
Proof.
  assert (Hmin : is_nan MIN_ANNUAL_INFLATION = false ∧ fltb MIN_ANNUAL_INFLATION MIN_ANNUAL_INFLATION = false) by (by vm_compute). destruct Hmin as [Hn Hl].
  split_and!; [by vm_compute..| |]; unfold annual_inflation_rate, fmax; generalize (MAX_ANNUAL_INFLATION * (fone - fmin (r / TARGET_STAKING_RATE) fone))%f64; intros x;
    rewrite Hn; destruct (is_nan x) eqn:Hx; try done; by destruct (fltb x MIN_ANNUAL_INFLATION) eqn:Hlt.
Qed.

(** The 80/20 split of a slashed amount is computed in two independent roundings: for
    2^53 + 3 the two parts do not add up to the amount. *)
Theorem slash_split_inexact : let slash := 2 ^ 53 + 3 in
  let r := compute_epoch_reward 0 slash fzero (new_tokenomics INITIAL_SUPPLY 0) in
  slash_share r + rw_total_burned r ≠ slash.
Proof. by vm_compute. Qed.

(** The shares of a reward are rounded one by one: two equal validators with perfect
    performance are paid 2 out of a reward of 1. *)
Theorem distribution_exceeds_reward : let r := mkReward 1 0 0 0 fzero in
  let paid := distribute_epoch_reward r [(1, 50, fone); (2, 50, fone)] 100 in
  total_validator_reward r = 1 ∧ map vr_reward paid = [1; 1].
Proof. by vm_compute. Qed.

(** ** Windows *)

Definition sum_cu (es : list TxEvent) : Z := foldr (λ e s, ev_cu e + s) 0 es.

(** The counters are what the events say. *)
Definition window_ok (max_cu : Z) (w : WindowState) : Prop :=
  Forall (λ e, 0 ≤ ev_cu e ≤ max_cu) (events w) ∧ (length (events w) ≤ MAX_WINDOW_ENTRIES)%nat ∧
  window_tx_count w = Z.of_nat (length (events w)) ∧ window_cu w = sum_cu (events w).

Lemma sum_cu_range B es : Forall (λ e, 0 ≤ ev_cu e ≤ B) es → 0 ≤ sum_cu es ≤ B * Z.of_nat (length es).
Proof. induction 1 as [|e es ? _ IH]; cbn [sum_cu foldr length] in *; [lia|]. fold (sum_cu es) in *. lia. Qed.

Lemma sum_cu_app es es' : sum_cu (es ++ es') = sum_cu es + sum_cu es'.
Proof. induction es as [|e es IH]; [done|]. cbn [app sum_cu foldr]. fold (sum_cu (es ++ es')) (sum_cu es). lia. Qed.

Lemma forget_ok B e es w : events w = e :: es → window_ok B w → window_ok B (forget e w es).
Proof.
  intros He (Hf & Hl & Hc & Hs). rewrite He in *. apply list.Forall_cons in Hf as [? Hf]. cbn [length sum_cu foldr] in *. fold (sum_cu es) in *.
  pose proof (sum_cu_range B es Hf). unfold window_ok, forget. cbn [events window_cu window_tx_count]. split_and!; [done|lia|lia|lia].
Qed.

Lemma evict_loop_ok B cutoff es w : events w = es → window_ok B w → window_ok B (evict_loop cutoff es w) ∧
  ∃ gone, es = gone ++ events (evict_loop cutoff es w) ∧ Forall (λ e, ev_timestamp e < cutoff) gone ∧
    match events (evict_loop cutoff es w) with e :: _ => cutoff ≤ ev_timestamp e | [] => True end.
Proof.
  revert w. induction es as [|e es IH]; intros w He Hw; cbn [evict_loop]; [split; [done|]; exists []; by rewrite He|].
  destruct (Z.ltb_spec (ev_timestamp e) cutoff); [|split; [done|]; exists []; by rewrite He].
  destruct (IH (forget e w es) eq_refl ltac:(by apply forget_ok)) as (Hok & gone & Hes & Hg & Hfront). split; [done|]. exists (e :: gone). cbn [app]. rewrite <- Hes. split_and!; [done|by constructor|done].
Qed.

Abbreviation is_fresh c := (λ e : TxEvent, c ≤ ev_timestamp e).
Abbreviation is_old c := (λ e : TxEvent, ev_timestamp e < c).
Abbreviation oldest_first := (StronglySorted (λ e e', ev_timestamp e ≤ ev_timestamp e')).

Definition old_count (c : Z) (es : list TxEvent) : nat := length (filter (is_old c) es).

Lemma all_fresh c es : Forall (is_fresh c) es → filter (is_fresh c) es = es ∧ old_count c es = 0%nat.
Proof.
  induction 1 as [|e es ? _ [IH1 IH2]]; [done|]. unfold old_count in *. rewrite list.filter_cons_True, list.filter_cons_False by lia. by rewrite IH1.
Qed.

Lemma fresh_after c e es : oldest_first (e :: es) → c ≤ ev_timestamp e → Forall (is_fresh c) es.
Proof. intros Hs Hc. apply StronglySorted_inv in Hs as [_ Hs]. eapply list.Forall_impl; [exact Hs|]. cbn. lia. Qed.

(** In a list sorted by time the old events are a prefix. *)
Lemma fresh_is_drop c k es : oldest_first es → filter (is_fresh c) (drop k es) = drop (Nat.max k (old_count c es)) es.
Proof.
  revert k. induction es as [|e es IH]; intros k Hs; [by rewrite !drop_nil|]. pose proof (fresh_after c e es Hs) as Hafter. apply StronglySorted_inv in Hs as [Hs _]. assert (IHk := λ k, IH k Hs). clear IH.
  destruct (Z.lt_ge_cases (ev_timestamp e) c) as [Hlt|Hge].
  - assert (Hcount : old_count c (e :: es) = S (old_count c es)) by (unfold old_count; by rewrite list.filter_cons_True by done). rewrite Hcount.
    destruct k as [|k]; cbn [drop]; [rewrite list.filter_cons_False by lia; apply (IHk 0%nat)|]. rewrite <- Nat.succ_max_distr. apply IHk.
  - destruct (all_fresh c es (Hafter Hge)) as [Hf Hz]. assert (Hcount : old_count c (e :: es) = 0%nat) by (unfold old_count in *; by rewrite list.filter_cons_False by lia). rewrite Hcount, Nat.max_0_r.
    destruct k as [|k]; cbn [drop]; [by rewrite list.filter_cons_True, Hf by lia|]. rewrite IHk, Hz. by rewrite Nat.max_0_r.
Qed.

Lemma old_count_mono c c' es es' : c ≤ c' → (old_count c es ≤ old_count c' (es ++ es'))%nat.
Proof.
  intros Hc. unfold old_count. rewrite list.filter_app, length_app. enough (length (filter (is_old c) es) ≤ length (filter (is_old c') es))%nat by lia.
  induction es as [|e es IH]; [done|]. rewrite !list.filter_cons. destruct (decide (ev_timestamp e < c)), (decide (ev_timestamp e < c')); cbn [length]; lia.
Qed.

Lemma old_count_le c es : (old_count c es ≤ length es)%nat.
Proof. apply length_filter. Qed.

Lemma sorted_snoc es e : oldest_first es → Forall (λ e', ev_timestamp e' ≤ ev_timestamp e) es → oldest_first (es ++ [e]).
Proof.
  induction es as [|e' es IH]; intros Hs Hf; [by repeat constructor|]. apply StronglySorted_inv in Hs as [Hs Hall]. apply list.Forall_cons in Hf as [? Hf].
  cbn. constructor; [by apply IH|]. apply list.Forall_app. by split; [|constructor].
Qed.

(** Evicting from a sorted window keeps exactly the fresh events. *)
Lemma evict_keeps_fresh B now w : window_ok B w → oldest_first (events w) →
  window_ok B (evict_old now w) ∧ events (evict_old now w) = filter (is_fresh (now - WINDOW_MS)) (events w).
Proof.
  intros Hw Hs. unfold evict_old. destruct (evict_loop_ok B (now - WINDOW_MS) (events w) w eq_refl Hw) as (Hok & gone & Hes & Hg & Hfront). split; [done|].
  set (rest := events (evict_loop _ _ w)) in *. clearbody rest. rewrite Hes in *. clear Hes Hw Hok. rewrite list.filter_app.
  assert (Hgone : filter (is_fresh (now - WINDOW_MS)) gone = []).
  { clear -Hg. induction Hg as [|e es ? _ IH]; [done|]. by rewrite list.filter_cons_False by lia. }
  rewrite Hgone. cbn [app]. clear Hgone Hg. induction gone as [|g gone IH]; [|apply StronglySorted_inv in Hs as [Hs _]; by apply IH].
  destruct rest as [|e rest]; [done|]. symmetry. apply all_fresh. constructor; [done|]. by eapply fresh_after.
Qed.

(** A sequence of recorded transactions: when the window was evicted, the time stamp and the CU. *)
Definition run_window (ops : list (Z * Z * Z)) : WindowState := fold_left (λ w '(t, now, cu), record_event t now cu w) ops new_window.
Definition recorded (ops : list (Z * Z * Z)) : list TxEvent := map (λ '(_, now, cu), mkEvent now cu) ops.

(** The clock does not go backwards. *)
Fixpoint clock_ok (last : Z) (ops : list (Z * Z * Z)) : Prop :=
  match ops with (t, now, _) :: ops => last ≤ t ∧ t ≤ now ∧ clock_ok now ops | [] => True end.

Definition tracks (B last : Z) (rec : list TxEvent) (w : WindowState) : Prop :=
  oldest_first rec ∧ Forall (λ e, ev_timestamp e ≤ last) rec ∧ window_ok B w ∧
  ∃ k, events w = drop k rec ∧ (k ≤ length rec)%nat ∧ (length rec - MAX_WINDOW_ENTRIES ≤ k)%nat ∧
       (k ≤ Nat.max (old_count (last - WINDOW_MS) rec) (length rec - MAX_WINDOW_ENTRIES))%nat.

Lemma max_entries_pos : (0 < MAX_WINDOW_ENTRIES)%nat.
Proof. unfold MAX_WINDOW_ENTRIES. lia. Qed.

Lemma drop_sorted k es : oldest_first es → oldest_first (drop k es).
Proof. revert k. induction es as [|e es IH]; intros [|k] Hs; try done. apply StronglySorted_inv in Hs as [Hs _]. by apply IH. Qed.

(** The event is appended to the live part of the window, which the cap keeps short. *)
Lemma record_live B last rec w t : tracks B last rec w → last ≤ t →
  ∃ w1 k, window_ok B w1 ∧ (length (events w1) < MAX_WINDOW_ENTRIES)%nat ∧ events w1 = drop k rec ∧ (k ≤ length rec)%nat ∧
    (S (length rec) - MAX_WINDOW_ENTRIES ≤ k)%nat ∧ (k ≤ Nat.max (old_count (t - WINDOW_MS) rec) (S (length rec) - MAX_WINDOW_ENTRIES))%nat ∧
    ∀ now cu, record_event t now cu w = mkWindow (events w1 ++ [mkEvent now cu]) (saturating_add u64_max (window_cu w1) cu) (wrapping_add u64_max (window_tx_count w1) 1).
Proof.
  intros (Hs & _ & Hw & k & Hk & Hle & Hlo & Hhi) Ht. pose proof (drop_sorted k rec Hs) as Hsk. rewrite <- Hk in Hsk.
  destruct (evict_keeps_fresh B t w Hw Hsk) as [Hw1 He]. rewrite Hk, fresh_is_drop in He by done. unfold record_event.
  set (w1 := evict_old t w) in *. clearbody w1. set (c := t - WINDOW_MS) in *. set (k1 := Nat.max k (old_count c rec)) in *. pose proof (old_count_le c rec) as Hoc.
  pose proof (old_count_mono (last - WINDOW_MS) c rec [] ltac:(lia)) as Hmono. rewrite app_nil_r in Hmono. pose proof max_entries_pos as Hpos.
  assert (Hlen : length (events w1) = (length rec - k1)%nat) by (by rewrite He, length_drop).
  destruct (Nat.leb_spec MAX_WINDOW_ENTRIES (length (events w1))) as [Hfull|Hroom]; [|exists w1, k1; split_and!; [done|lia|done|lia|lia|lia|done]].
  destruct (events w1) as [|e es] eqn:Hev; [cbn in *; lia|]. exists (forget e w1 es), (S k1). pose proof (forget_ok B e es w1 Hev Hw1) as Hok.
  destruct Hw1 as (_ & Hmax & _). rewrite Hev in Hmax. cbn [length] in *. cbn [events forget]. split_and!; [done|lia| |lia|lia|lia|done].
  replace (S k1) with (k1 + 1)%nat by lia. rewrite <- drop_drop, <- He. by destruct es.
Qed.

Lemma tracks_step B last rec w t now cu : B * Z.of_nat MAX_WINDOW_ENTRIES ≤ u64_max → 0 ≤ cu ≤ B → tracks B last rec w → last ≤ t → t ≤ now →
  tracks B now (rec ++ [mkEvent now cu]) (record_event t now cu w).
Proof.
  intros HB Hcu Htr Ht Hnow. destruct (record_live B last rec w t Htr Ht) as (w1 & k & Hw1 & Hroom & He & Hk & Hlo & Hhi & ->). destruct Htr as (Hs & Hf & _ & _).
  assert (Hf' : Forall (λ e, ev_timestamp e ≤ now) rec) by (eapply list.Forall_impl; [exact Hf|cbn; lia]).
  split; [by apply sorted_snoc|]. split; [apply list.Forall_app; split; [done|]; by repeat constructor|]. split.
  - destruct Hw1 as (Hcus & Hl & Hc & Hsum). pose proof (sum_cu_range B _ Hcus) as Hr. unfold window_ok. cbn [events window_cu window_tx_count]. rewrite length_app, sum_cu_app. cbn [length sum_cu foldr ev_cu].
    split_and!; [apply list.Forall_app; split; [done|]; by apply list.Forall_singleton|lia| |].
    + rewrite Hc. unfold wrapping_add. rewrite Z.mod_small; [lia|]. unfold MAX_WINDOW_ENTRIES, u64_max in *. lia.
    + unfold saturating_add. rewrite Hsum. nia.
  - exists k. cbn [events]. rewrite length_app. cbn [length]. split_and!; [by rewrite drop_app_le, He by lia|lia|lia|].
    pose proof (old_count_mono (t - WINDOW_MS) (now - WINDOW_MS) rec [mkEvent now cu] ltac:(lia)). lia.
Qed.

Lemma run_tracks B ops : B * Z.of_nat MAX_WINDOW_ENTRIES ≤ u64_max → ∀ last rec w, Forall (λ op, 0 ≤ op.2 ≤ B) ops → clock_ok last ops → tracks B last rec w →
  ∃ last', (∀ now, Forall (λ op, op.1.2 ≤ now) ops → last ≤ now → last' ≤ now) ∧ tracks B last' (rec ++ recorded ops) (fold_left (λ w '(t, now, cu), record_event t now cu w) ops w).
Proof.
  intros HB. induction ops as [|[[t now] cu] ops IH]; intros last rec w Hcu Hclock Htr; [exists last; by rewrite app_nil_r|].
  apply list.Forall_cons in Hcu as [Hc Hcu]. destruct Hclock as (Ht & Hn & Hclock). cbn [fold_left recorded map].
  destruct (IH now (rec ++ [mkEvent now cu]) (record_event t now cu w) Hcu Hclock ltac:(by eapply tracks_step)) as (last' & Hl & Htr').
  exists last'. rewrite <- app_assoc in Htr'. split; [|done]. intros now' Hall Hle. apply list.Forall_cons in Hall as [? Hall]. by apply Hl.
Qed.

(** The sliding window is what it means to be: after any transactions of at most [B] CU each
    (10000 B fitting in 64 bits) under a clock that does not go backwards, the window evicted at
    [now] holds exactly those of the last 10000 transactions that are at most 60 seconds old, and
    its two counters are their number and the sum of their CU. *)
Theorem window_is_recent_events B ops now : B * Z.of_nat MAX_WINDOW_ENTRIES ≤ u64_max → Forall (λ op, 0 ≤ op.2 ≤ B) ops → clock_ok 0 ops →
  Forall (λ op, op.1.2 ≤ now) ops → 0 ≤ now → let w := evict_old now (run_window ops) in
  events w = filter (λ e, now - WINDOW_MS ≤ ev_timestamp e) (drop (length ops - MAX_WINDOW_ENTRIES) (recorded ops)) ∧
  window_tx_count w = Z.of_nat (length (events w)) ∧ window_cu w = sum_cu (events w).
Proof.
  intros HB Hcu Hclock Hnow H0 w. assert (Hinit : tracks B 0 [] new_window) by (split_and!; [constructor|done|by split_and!; cbn; [|lia|..]|exists 0%nat; split_and!; cbn; try done; lia]).
  destruct (run_tracks B ops HB 0 [] new_window Hcu Hclock Hinit) as (last & Hlast & Hs & _ & Hw & k & Hk & Hle & Hlo & Hhi). specialize (Hlast now Hnow H0). cbn [app] in *.
  fold (run_window ops) in *. pose proof (drop_sorted k _ Hs) as Hsk. rewrite <- Hk in Hsk. destruct (evict_keeps_fresh B now (run_window ops) Hw Hsk) as [(_ & _ & Hc & Hsum) He].
  split; [|done]. subst w. rewrite He, Hk, !fresh_is_drop by done. assert (Hn : length (recorded ops) = length ops) by apply length_map. rewrite Hn in *.
  pose proof (old_count_mono (last - WINDOW_MS) (now - WINDOW_MS) (recorded ops) [] ltac:(lia)) as Hmono. rewrite app_nil_r in Hmono. f_equal. lia.
Qed.

Definition sample_window : list (Z * Z * Z) := [(1000, 1000, 21); (30000, 30001, 500); (70000, 70000, 7)].

(** Applied at 70 seconds, when the first transaction has left the window. *)
Lemma window_is_recent_events_witness : window_tx_count (evict_old 70000 (run_window sample_window)) = 2 ∧ window_cu (evict_old 70000 (run_window sample_window)) = 507.
Proof.
  assert (Hcu : Forall (λ op : Z * Z * Z, 0 ≤ op.2 ≤ 1000) sample_window) by (repeat constructor; cbn; lia).
  assert (Hnow : Forall (λ op : Z * Z * Z, op.1.2 ≤ 70000) sample_window) by (repeat constructor; cbn; lia).
  destruct (window_is_recent_events 1000 sample_window 70000 ltac:(by vm_compute) Hcu ltac:(cbn; lia) Hnow ltac:(lia)) as (_ & Hc & Hs). split; [etransitivity; [exact Hc|]|etransitivity; [exact Hs|]]; by vm_compute.
Defined.
