(* ===== verification/Storage.v ===== *)
(** * Durable storage

    Models [src/L1/src/storage/keys.rs] (the layout of keys) and [src/L1/src/storage/rocks.rs]
    ([Storage]: typed tables, contract storage with its counters, pruning and maintenance).  RocksDB is the interface [Rocks]
    (column families of byte strings, atomic batches, ordered iteration) and bincode the
    interface [Codec]; that every column family of the list given to [open] exists
    afterwards is built in.  Backups, compaction and statistics only call RocksDB. *)

From Stdlib Require Import Sorted.
From S2P Require Import Prelude QN4 QN8 Bytes Account Validators Transaction Vertex Checkpoint State.

(** ** Keys *)

Definition PREFIX_SEPARATOR : Z := 255.
Definition STORAGE_COUNT_PREFIX : Z := 20.

Definition validate_no_prefix_collision (data : list Z) : bool :=
  match data with [] => true | b :: _ => (STORAGE_COUNT_PREFIX <? b) || (b =? 0) end.

Definition CF_ACCOUNTS : string := "accounts".
Definition CF_VERTICES : string := "vertices".
Definition CF_TRANSACTIONS : string := "transactions".
Definition CF_RECEIPTS : string := "receipts".
Definition CF_CHECKPOINTS : string := "checkpoints".
Definition CF_VALIDATORS : string := "validators".
Definition CF_STATE : string := "state".
Definition CF_DAG_TIPS : string := "dag_tips".
Definition CF_DAG_HEIGHTS : string := "dag_heights".
Definition CF_METADATA : string := "metadata".
Definition CF_CONTRACTS : string := "contracts".
Definition CF_CONTRACT_STORAGE : string := "contract_storage".
Definition CF_QN8_COLLECTIONS : string := "qn8_collections".
Definition CF_QN8_OWNER_TOKENS : string := "qn8_owner_tokens".
Definition CF_QN4_TOKENS : string := "qn4_tokens".
Definition CF_QN4_OWNER_BALANCES : string := "qn4_owner_balances".
Definition CF_VALIDATOR_PERFORMANCE : string := "validator_performance".

Definition tagged (tag : Z) (rest : list Z) : list Z := tag :: PREFIX_SEPARATOR :: rest.

Definition account_key (a : Address) : list Z := tagged 1 (hash_bytes a).
Definition vertex_key (h : Hash) : list Z := tagged 2 (hash_bytes h).
Definition vertex_by_height_key (shard height : Z) : list Z := tagged 3 (be_bytes 2 shard ++ be_bytes 8 height).
Definition transaction_key (h : Hash) : list Z := tagged 4 (hash_bytes h).
Definition receipt_key (h : Hash) : list Z := tagged 5 (hash_bytes h).
Definition checkpoint_key (epoch slot : Z) : list Z := tagged 6 (be_bytes 8 epoch ++ be_bytes 8 slot).
Definition checkpoint_by_hash_key (h : Hash) : list Z := tagged 7 (hash_bytes h).
Definition validator_key (a : Address) : list Z := tagged 8 (hash_bytes a).
Definition dag_tip_key (shard : Z) : list Z := tagged 9 (be_bytes 2 shard).
Definition state_root_key (slot : Z) : list Z := tagged 10 (be_bytes 8 slot).
Definition latest_checkpoint_key : list Z := tagged 11 [1].
Definition latest_finalized_slot_key : list Z := tagged 11 [2].
Definition validator_set_key (epoch : Z) : list Z := tagged 12 (be_bytes 8 epoch).
Definition nonce_key (a : Address) : list Z := tagged 13 (hash_bytes a).
Definition committee_key (epoch id : Z) : list Z := tagged 14 (be_bytes 8 epoch ++ be_bytes 2 id).
Definition vertex_children_key (h : Hash) : list Z := tagged 15 (hash_bytes h).
Definition pending_tx_key (h : Hash) : list Z := tagged 16 (hash_bytes h).
Definition contract_bytecode_key (a : Address) : list Z := tagged 17 (hash_bytes a).
Definition contract_metadata_key (a : Address) : list Z := tagged 18 (hash_bytes a).
Definition contract_storage_key (a : Address) (k : list Z) : list Z := tagged 19 (hash_bytes a ++ PREFIX_SEPARATOR :: k).
Definition contract_storage_prefix (a : Address) : list Z := tagged 19 (hash_bytes a ++ [PREFIX_SEPARATOR]).
Definition validated_contract_storage_key (a : Address) (k : list Z) : Result (list Z) string := Ok (contract_storage_key a k).
Definition storage_count_key (a : Address) : list Z := tagged STORAGE_COUNT_PREFIX (hash_bytes a).
Definition qn8_collection_key (a : Address) : list Z := tagged 21 (hash_bytes a).
Definition qn8_owner_tokens_key (o c : Address) : list Z := tagged 22 (hash_bytes o ++ PREFIX_SEPARATOR :: hash_bytes c).
Definition qn8_owner_prefix (o : Address) : list Z := tagged 22 (hash_bytes o ++ [PREFIX_SEPARATOR]).
Definition qn8_collections_prefix : list Z := tagged 21 [].
Definition qn4_token_key (a : Address) : list Z := tagged 23 (hash_bytes a).
Definition qn4_owner_balance_key (o t : Address) : list Z := tagged 24 (hash_bytes o ++ PREFIX_SEPARATOR :: hash_bytes t).
Definition qn4_owner_prefix (o : Address) : list Z := tagged 24 (hash_bytes o ++ [PREFIX_SEPARATOR]).
Definition qn4_tokens_prefix : list Z := tagged 23 [].
Definition validator_performance_key (epoch : Z) (v : Address) : list Z := tagged 25 (be_bytes 8 epoch ++ hash_bytes v).
Definition validator_performance_epoch_prefix (epoch : Z) : list Z := tagged 25 (be_bytes 8 epoch).
Definition validator_performance_validator_prefix (v : Address) : list Z := tagged 25 [].

(** ** The database *)

Inductive BatchOp : Type := Put (cf : string) (key value : list Z) | Delete (cf : string) (key : list Z).

Class Rocks (D : Type) : Type := {
  db_get : string → list Z → D → Result (option (list Z)) string;
  db_write : list BatchOp → D → Result () string * D;
  (** the entries of a column family from a key on *)
  db_iter : string → list Z → D → list (Result (list Z * list Z) string)
}.

Class Codec (A : Type) : Type := { serialize : A → Result (list Z) string; deserialize : list Z → Result A string }.

Inductive StorageError : Type :=
  | DatabaseError (e : string)
  | SerializationError (e : string)
  | KeyNotFound (e : string)
  | Corruption (e : string)
  | StorageExhaustion (e : string)
  | InvalidInput (e : string)
  | Unauthorized (e : string)
  | PrefixCollision (e : string).

Record PruningConfig : Type := mkPruning { keep_last_blocks : Z; auto_prune : bool; prune_interval : Z }.
Definition default_pruning : PruningConfig := mkPruning 100000 true 1000.

Definition MAX_STORAGE_KEY_SIZE : Z := 1024.
Definition MAX_STORAGE_VALUE_SIZE : Z := 1048576.
Definition MAX_STORAGE_ENTRIES_PER_CONTRACT : Z := 100000.
Definition MAX_SHARDS_TO_PRUNE : Z := 100.
Definition MAX_HEIGHTS_PER_SHARD : Z := 1000.
Definition MAX_STORAGE_READ_BYTES : Z := 52428800.

Record DeployedContract : Type := mkDeployed {
  dc_address : Address;
  dc_deployer : Address;
  dc_deployed_at : Z;
  dc_deployed_height : Z;
  dc_bytecode_size : Z;
  dc_bytecode_hash : Hash;
  dc_version : string;
  dc_abi : option string
}.

(** A [Vec<u64>]: token ids, as opposed to hashes. *)
Record TokenIds : Type := mkIds { ids : list Z }.

Record Storage (D : Type) : Type := mkStorage {
  db : D;
  pruning_config : PruningConfig;
  contract_storage_counts : gmap Address Z;
  st_auth_token : Z;
  latest_known_slot : Z
}.
Arguments mkStorage {D}. Arguments db {D}. Arguments pruning_config {D}. Arguments contract_storage_counts {D}.
Arguments st_auth_token {D}. Arguments latest_known_slot {D}.

(** [key.starts_with(prefix)] *)
Fixpoint starts_with (prefix key : list Z) : bool :=
  match prefix, key with
  | [], _ => true
  | p :: ps, k :: ks => (p =? k) && starts_with ps ks
  | _ :: _, [] => false
  end.

(** Sorting with [sort_by], which keeps the order of equal elements. *)
Fixpoint insert_by {A} (le : A → A → bool) (x : A) (l : list A) : list A :=
  match l with [] => [x] | y :: l' => if le x y then x :: l else y :: insert_by le x l' end.
Definition sort_by {A} (le : A → A → bool) (l : list A) : list A := foldr (insert_by le) [] l.

(** The loop over an iterator: it ends at the first key without the prefix; an entry gives an error, nothing or a result. *)
Fixpoint scan {A} (prefix : list Z) (f : list Z → list Z → Result (option A) StorageError) (items : list (Result (list Z * list Z) string))
  : Result (list A) StorageError :=
  match items with
  | [] => Ok []
  | Err e :: _ => Err (DatabaseError e)
  | Ok (key, value) :: items' =>
      if negb (starts_with prefix key) then Ok []
      else match f key value with
           | Err e => Err e
           | Ok r => match scan prefix f items' with
                     | Err e => Err e
                     | Ok l => Ok (match r with Some a => a :: l | None => l end)
                     end
           end
  end.

Definition decode_value {A} `{Codec A} (value : list Z) : Result A StorageError :=
  match deserialize value with Ok a => Ok a | Err e => Err (SerializationError e) end.

Definition decoded {A} `{Codec A} (_ value : list Z) : Result (option A) StorageError :=
  match decode_value value with Ok a => Ok (Some a) | Err e => Err e end.

(** The 32 bytes of a key after the prefix; entries with shorter keys are skipped. *)
Definition key_tail (prefix key : list Z) : option Address :=
  if (length prefix + 32 <=? length key)%nat then Some (of_be_bytes (take 32 (drop (length prefix) key))) else None.

Section Storage.
Context `{Rocks D}.
Abbreviation S_ := (Storage D).
Abbreviation OP A := (M S_ StorageError A).

Definition set_db (d : D) (s : S_) : S_ := mkStorage d (pruning_config s) (contract_storage_counts s) (st_auth_token s) (latest_known_slot s).
Definition set_counts (c : gmap Address Z) (s : S_) : S_ := mkStorage (db s) (pruning_config s) c (st_auth_token s) (latest_known_slot s).

Definition write (ops : list BatchOp) : OP () := λ s,
  match db_write ops (db s) with
  | (Ok _, d) => (Ok (), set_db d s)
  | (Err e, d) => (Err (DatabaseError e), set_db d s)
  end.

(** [get_cf] and [deserialize] *)
Definition read {A} `{Codec A} (cf : string) (key : list Z) (s : S_) : Result (option A) StorageError :=
  match db_get cf key (db s) with
  | Err e => Err (DatabaseError e)
  | Ok None => Ok None
  | Ok (Some data) => match deserialize data with Ok a => Ok (Some a) | Err e => Err (SerializationError e) end
  end.

Definition read_bytes (cf : string) (key : list Z) (s : S_) : Result (option (list Z)) StorageError :=
  match db_get cf key (db s) with Err e => Err (DatabaseError e) | Ok data => Ok data end.

Definition serialized {A} `{Codec A} (a : A) : OP (list Z) :=
  lift (match serialize a with Ok data => Ok data | Err e => Err (SerializationError e) end).

(** [serialize] and [put_cf] *)
Definition store {A} `{Codec A} (cf : string) (key : list Z) (a : A) : OP () :=
  data <-? serialized a; write [Put cf key data].

(** The operations of a batch, in order. *)
Fixpoint batch_puts {A} `{Codec A} (cf : string) (key : A → list Z) (l : list A) : OP (list BatchOp) :=
  match l with
  | [] => returns []
  | a :: l' => data <-? serialized a; ops <-? batch_puts cf key l'; returns (Put cf (key a) data :: ops)
  end.

Definition verify_auth (token : Z) : OP () := λ s,
  (if negb (token =? st_auth_token s) then Err (Unauthorized "Invalid auth token") else Ok (), s).
Definition bootstrap_auth_token (s : S_) : Z := st_auth_token s.

Definition update_latest_slot (slot : Z) (s : S_) : S_ :=
  mkStorage (db s) (pruning_config s) (contract_storage_counts s) (st_auth_token s) (Z.max (latest_known_slot s) slot).

(** Entries that cannot be read are skipped. *)
Fixpoint reload_loop (prefix : list Z) (items : list (Result (list Z * list Z) string)) (counts : gmap Address Z) : gmap Address Z :=
  match items with
  | [] => counts
  | Err _ :: items' => reload_loop prefix items' counts
  | Ok (key, value) :: items' =>
      if negb (starts_with prefix key) then counts
      else reload_loop prefix items'
             match key_tail prefix key with
             | Some a => if (8 <=? length value)%nat then <[a := of_le_bytes (take 8 value)]> counts else counts
             | None => counts
             end
  end.

Definition reload_storage_counts (s : S_) : S_ :=
  let prefix := tagged STORAGE_COUNT_PREFIX [] in
  set_counts (reload_loop prefix (db_iter CF_METADATA prefix (db s)) (contract_storage_counts s)) s.

(** [token] is the random authorization token, [d] the opened database. *)
Definition new_with_pruning (d : D) (token : Z) (c : PruningConfig) : S_ := reload_storage_counts (mkStorage d c ∅ token 0).
Definition new_storage (d : D) (token : Z) : S_ := new_with_pruning d token default_pruning.

Definition persist_storage_count (a : Address) (count : Z) : OP () := write [Put CF_METADATA (storage_count_key a) (le_bytes 8 count)].

(** ** Typed tables *)

Context `{!Codec Account} `{!Codec DAGVertex} `{!Codec SignedTransaction} `{!Codec TransactionReceipt} `{!Codec Checkpoint} `{!Codec Validator}
  `{!Codec ValidatorSet} `{!Codec (list Hash)} `{!Codec TokenIds} `{!Codec DeployedContract} `{!Codec QN8.QN8Token} `{!Codec QN4.QN4Token} `{!Codec Z}.

Definition get_account (a : Address) : S_ → Result (option Account) StorageError := read CF_ACCOUNTS (account_key a).
Definition put_account (x : Account) : OP () := store CF_ACCOUNTS (account_key (Account.address x)) x.
Definition put_accounts_batch (l : list Account) : OP () :=
  ops <-? batch_puts CF_ACCOUNTS (λ x, account_key (Account.address x)) l; write ops.

Definition iter_accounts (s : S_) : Result (list Account) StorageError :=
  let prefix := tagged 1 [] in
  match scan prefix decoded (db_iter CF_ACCOUNTS prefix (db s)) with
  | Err e => Err e
  | Ok l => Ok (sort_by (λ a b, Account.address a <=? Account.address b) l)
  end.

Definition st_get_vertex (h : Hash) : S_ → Result (option DAGVertex) StorageError := read CF_VERTICES (vertex_key h).
Definition st_put_vertex (v : DAGVertex) : OP () :=
  data <-? serialized v;
  write [Put CF_VERTICES (vertex_key (vhash v)) data; Put CF_DAG_HEIGHTS (vertex_by_height_key (vshard_id v) (height v)) (hash_bytes (vhash v))].

Definition get_transaction (h : Hash) : S_ → Result (option SignedTransaction) StorageError := read CF_TRANSACTIONS (transaction_key h).
Definition put_transaction (tx : SignedTransaction) : OP () := store CF_TRANSACTIONS (transaction_key (tx_hash tx)) tx.
Definition put_transactions_batch (l : list SignedTransaction) : OP () :=
  ops <-? batch_puts CF_TRANSACTIONS (λ tx, transaction_key (tx_hash tx)) l; write ops.

(** Receipts that do not decode are skipped. *)
Definition readable_receipt (keep : TransactionReceipt → bool) (_ value : list Z) : Result (option TransactionReceipt) StorageError :=
  match deserialize value with
  | Ok r => Ok (if keep r then Some r else None)
  | Err _ => Ok None
  end.

Definition get_recent_receipts (limit : nat) (s : S_) : Result (list TransactionReceipt) StorageError :=
  let prefix := tagged 5 [] in
  match scan prefix (readable_receipt (λ _, true)) (db_iter CF_RECEIPTS prefix (db s)) with
  | Err e => Err e
  | Ok l => Ok (take limit (sort_by (λ a b, r_slot b <=? r_slot a) l))
  end.

Definition get_receipts_since_slot (since : Z) (limit : nat) (s : S_) : Result (list TransactionReceipt) StorageError :=
  let prefix := tagged 5 [] in
  match scan prefix (readable_receipt (λ r, since <=? r_slot r)) (db_iter CF_RECEIPTS prefix (db s)) with
  | Err e => Err e
  | Ok l => Ok (take limit (sort_by (λ a b, r_slot a <=? r_slot b) l))
  end.

Definition get_receipt (h : Hash) : S_ → Result (option TransactionReceipt) StorageError := read CF_RECEIPTS (receipt_key h).
Definition put_receipt (r : TransactionReceipt) : OP () := store CF_RECEIPTS (receipt_key (r_tx_hash r)) r.
Definition put_receipts_batch (l : list TransactionReceipt) : OP () :=
  ops <-? batch_puts CF_RECEIPTS (λ r, receipt_key (r_tx_hash r)) l; write ops.

Definition put_finalized_batch (receipts : list TransactionReceipt) (txs : list SignedTransaction) : OP () :=
  a <-? batch_puts CF_RECEIPTS (λ r, receipt_key (r_tx_hash r)) receipts;
  b <-? batch_puts CF_TRANSACTIONS (λ tx, transaction_key (tx_hash tx)) txs;
  write (a ++ b).

Definition st_get_checkpoint (epoch slot : Z) : S_ → Result (option Checkpoint) StorageError := read CF_CHECKPOINTS (checkpoint_key epoch slot).
Definition st_put_checkpoint (hash_data : list Z → Hash) (c : Checkpoint) : OP () :=
  data <-? serialized c;
  write [Put CF_CHECKPOINTS (checkpoint_key (Checkpoint.epoch c) (Checkpoint.slot c)) data; Put CF_CHECKPOINTS (checkpoint_by_hash_key (Checkpoint.hash hash_data c)) data;
         Put CF_METADATA latest_checkpoint_key data].
Definition get_latest_checkpoint : S_ → Result (option Checkpoint) StorageError := read CF_METADATA latest_checkpoint_key.

Definition st_get_validator (a : Address) : S_ → Result (option Validator) StorageError := read CF_VALIDATORS (validator_key a).
Definition put_validator (v : Validator) : OP () := store CF_VALIDATORS (validator_key (Validators.address v)) v.
Definition get_validator_set (epoch : Z) : S_ → Result (option ValidatorSet) StorageError := read CF_VALIDATORS (validator_set_key epoch).
Definition put_validator_set (epoch : Z) (v : ValidatorSet) : OP () := store CF_VALIDATORS (validator_set_key epoch) v.

(** Nothing stored reads as the empty list. *)
Definition get_dag_tips (shard : Z) (s : S_) : Result (list Hash) StorageError :=
  match read CF_DAG_TIPS (dag_tip_key shard) s with Ok (Some l) => Ok l | Ok None => Ok [] | Err e => Err e end.
Definition put_dag_tips (shard : Z) (tips : list Hash) : OP () := store CF_DAG_TIPS (dag_tip_key shard) tips.

Definition get_state_root (slot : Z) (s : S_) : Result (option Hash) StorageError :=
  match db_get CF_STATE (state_root_key slot) (db s) with
  | Ok (Some data) => if (length data =? 32)%nat then Ok (Some (of_be_bytes data)) else Err (Corruption "Invalid hash length")
  | Ok None => Ok None
  | Err e => Err (DatabaseError e)
  end.
Definition put_state_root (slot : Z) (root : Hash) : OP () := write [Put CF_STATE (state_root_key slot) (hash_bytes root)].

Definition put_deployed_contract (m : DeployedContract) : OP () := store CF_CONTRACTS (contract_metadata_key (dc_address m)) m.
Definition delete_deployed_contract (a : Address) : OP () := write [Delete CF_CONTRACTS (contract_metadata_key a)].
Definition get_deployed_contract (a : Address) : S_ → Result (option DeployedContract) StorageError := read CF_CONTRACTS (contract_metadata_key a).
Definition put_contract_bytecode (a : Address) (code : list Z) : OP () := write [Put CF_CONTRACTS (contract_bytecode_key a) code].
Definition delete_contract_bytecode (a : Address) : OP () := write [Delete CF_CONTRACTS (contract_bytecode_key a)].
Definition get_contract_bytecode (a : Address) : S_ → Result (option (list Z)) StorageError := read_bytes CF_CONTRACTS (contract_bytecode_key a).

(** Address and raw value. *)
Definition addressed (prefix key value : list Z) : Result (option (Address * list Z)) StorageError :=
  Ok (a ← key_tail prefix key; Some (a, value)).

Definition get_all_contracts (s : S_) : Result (list (Address * list Z)) StorageError :=
  let prefix := tagged 17 [] in scan prefix (addressed prefix) (db_iter CF_CONTRACTS prefix (db s)).

(** ** Tokens *)

(** Address and decoded value. *)
Definition addressed_value {A} `{Codec A} (prefix key value : list Z) : Result (option (Address * A)) StorageError :=
  match key_tail prefix key with
  | None => Ok None
  | Some a => match decode_value value with Ok v => Ok (Some (a, v)) | Err e => Err e end
  end.

Definition put_qn8_collection (a : Address) (t : QN8.QN8Token) : OP () := store CF_QN8_COLLECTIONS (qn8_collection_key a) t.
Definition get_qn8_collection (a : Address) : S_ → Result (option QN8.QN8Token) StorageError := read CF_QN8_COLLECTIONS (qn8_collection_key a).
Definition put_qn8_owner_tokens (o c : Address) (ids : list Z) : OP () := store CF_QN8_OWNER_TOKENS (qn8_owner_tokens_key o c) (mkIds ids).
Definition get_qn8_owner_tokens (o c : Address) (s : S_) : Result (list Z) StorageError :=
  match read CF_QN8_OWNER_TOKENS (qn8_owner_tokens_key o c) s with Ok (Some l) => Ok (ids l) | Ok None => Ok [] | Err e => Err e end.

(** Empty lists are left out. *)
Definition owned_ids (prefix key value : list Z) : Result (option (Address * list Z)) StorageError :=
  match addressed_value prefix key value with
  | Ok (Some (a, l)) => Ok (match ids l with [] => None | ids => Some (a, ids) end)
  | Ok None => Ok None
  | Err e => Err e
  end.
Definition get_qn8_owner_all_tokens (o : Address) (s : S_) : Result (list (Address * list Z)) StorageError :=
  let prefix := qn8_owner_prefix o in scan prefix (owned_ids prefix) (db_iter CF_QN8_OWNER_TOKENS prefix (db s)).
Definition list_qn8_collections (s : S_) : Result (list (Address * QN8.QN8Token)) StorageError :=
  scan qn8_collections_prefix (addressed_value qn8_collections_prefix) (db_iter CF_QN8_COLLECTIONS qn8_collections_prefix (db s)).

Definition put_qn4_token (a : Address) (t : QN4.QN4Token) : OP () := store CF_QN4_TOKENS (qn4_token_key a) t.
Definition get_qn4_token (a : Address) : S_ → Result (option QN4.QN4Token) StorageError := read CF_QN4_TOKENS (qn4_token_key a).
Definition put_qn4_owner_balance (o t : Address) (balance : Z) : OP () :=
  if balance =? 0 then write [Delete CF_QN4_OWNER_BALANCES (qn4_owner_balance_key o t)]
  else store CF_QN4_OWNER_BALANCES (qn4_owner_balance_key o t) balance.
Definition get_qn4_owner_balance (o t : Address) (s : S_) : Result Z StorageError :=
  match read CF_QN4_OWNER_BALANCES (qn4_owner_balance_key o t) s with Ok (Some b) => Ok b | Ok None => Ok 0 | Err e => Err e end.

Definition positive_balance (prefix key value : list Z) : Result (option (Address * Z)) StorageError :=
  match addressed_value prefix key value with
  | Ok (Some (a, b)) => Ok (if 0 <? b then Some (a, b) else None)
  | r => r
  end.
Definition get_qn4_owner_all_balances (o : Address) (s : S_) : Result (list (Address * Z)) StorageError :=
  let prefix := qn4_owner_prefix o in scan prefix (positive_balance prefix) (db_iter CF_QN4_OWNER_BALANCES prefix (db s)).
Definition list_qn4_tokens (s : S_) : Result (list (Address * QN4.QN4Token)) StorageError :=
  scan qn4_tokens_prefix (addressed_value qn4_tokens_prefix) (db_iter CF_QN4_TOKENS qn4_tokens_prefix (db s)).

(** ** Validator performance *)

Definition put_validator_performance (key value : list Z) : OP () := write [Put CF_VALIDATOR_PERFORMANCE key value].
Definition get_validator_performance (epoch : Z) (v : Address) : S_ → Result (option (list Z)) StorageError :=
  read_bytes CF_VALIDATOR_PERFORMANCE (validator_performance_key epoch v).
Definition get_epoch_validator_performances (epoch : Z) (s : S_) : Result (list (Address * list Z)) StorageError :=
  let prefix := validator_performance_epoch_prefix epoch in scan prefix (addressed prefix) (db_iter CF_VALIDATOR_PERFORMANCE prefix (db s)).

Definition performance_of (v : Address) (key value : list Z) : Result (option (Z * list Z)) StorageError :=
  Ok (if (42 <=? length key)%nat && bool_decide (take 32 (drop 10 key) = hash_bytes v) then Some (of_be_bytes (take 8 (drop 2 key)), value) else None).
Definition get_validator_all_performances (v : Address) (s : S_) : Result (list (Z * list Z)) StorageError :=
  let prefix := validator_performance_validator_prefix v in scan prefix (performance_of v) (db_iter CF_VALIDATOR_PERFORMANCE prefix (db s)).

(** ** Contract storage *)

(** The loop of [get_contract_storage]: entries and bytes read so far are limited. *)
Fixpoint storage_loop (prefix : list Z) (items : list (Result (list Z * list Z) string)) (count bytes : Z) (m : gmap (list Z) (list Z))
  : Result (gmap (list Z) (list Z)) StorageError :=
  match items with
  | [] => Ok m
  | Err e :: _ => Err (DatabaseError e)
  | Ok (key, value) :: items' =>
      if negb (starts_with prefix key) then Ok m
      else
        let count := count + 1 in
        if MAX_STORAGE_ENTRIES_PER_CONTRACT <? count then Err (StorageExhaustion "Contract exceeds maximum storage entries")
        else
          let bytes := saturating_add u64_max (saturating_add u64_max bytes (Z.of_nat (length key))) (Z.of_nat (length value)) in
          if MAX_STORAGE_READ_BYTES <? bytes then Err (StorageExhaustion "Contract storage read exceeds memory limit")
          else storage_loop prefix items' count bytes (<[drop (length prefix) key := value]> m)
  end.

Definition get_contract_storage (a : Address) (s : S_) : Result (gmap (list Z) (list Z)) StorageError :=
  let prefix := contract_storage_prefix a in storage_loop prefix (db_iter CF_CONTRACT_STORAGE prefix (db s)) 0 0 ∅.

Definition check_entry (e : list Z * list Z) : Result () StorageError :=
  if MAX_STORAGE_KEY_SIZE <? Z.of_nat (length e.1) then Err (InvalidInput "Storage key too large")
  else if MAX_STORAGE_VALUE_SIZE <? Z.of_nat (length e.2) then Err (InvalidInput "Storage value too large")
  else Ok ().

Fixpoint check_entries (l : list (list Z * list Z)) : Result () StorageError :=
  match l with [] => Ok () | e :: l' => match check_entry e with Ok _ => check_entries l' | Err x => Err x end end.

Definition projected_count (current : Z) (writes deletes : nat) : Z :=
  let net := Z.of_nat writes - Z.of_nat deletes in
  if 0 <=? net then saturating_add u64_max current net else Z.max 0 (current - - net).

(** The writes and deletes of one contract; the pairs of [writes] are in the order of the map. *)
Definition storage_ops (a : Address) (writes : list (list Z * list Z)) (deletes : list (list Z)) : list BatchOp :=
  map (λ e, Put CF_CONTRACT_STORAGE (contract_storage_key a e.1) e.2) writes ++ map (λ k, Delete CF_CONTRACT_STORAGE (contract_storage_key a k)) deletes.

Definition update_contract_storage (a : Address) (writes : gmap (list Z) (list Z)) (deletes : list (list Z)) : OP () :=
  let ws := map_to_list writes in
  lift (check_entries ws) ?;
  current <-? gets (λ s, default 0 (contract_storage_counts s !! a));
  modify (λ s, set_counts (<[a := current]> (contract_storage_counts s)) s) ?;
  let projected := projected_count current (length ws) (length deletes) in
  fail_if (MAX_STORAGE_ENTRIES_PER_CONTRACT <? projected) (StorageExhaustion "Contract would exceed maximum storage entries") ?;
  write (storage_ops a ws deletes) ?;
  modify (λ s, set_counts (<[a := projected]> (contract_storage_counts s)) s) ?;
  persist_storage_count a projected.

(** ** Many contracts at once *)

Definition deletes_of (m : gmap Address (list (list Z))) (a : Address) : list (list Z) := default [] (m !! a).
Definition writes_of (m : gmap Address (gmap (list Z) (list Z))) (a : Address) : list (list Z * list Z) := map_to_list (default ∅ (m !! a)).

(** The addresses of both maps, in order. *)
Definition all_addresses (ws : gmap Address (gmap (list Z) (list Z))) (ds : gmap Address (list (list Z))) : list Address :=
  sort_by Z.leb (elements (dom ws ∪ dom ds)).

Fixpoint project_counts (ws : gmap Address (gmap (list Z) (list Z))) (ds : gmap Address (list (list Z))) (counts : gmap Address Z) (l : list Address)
  : Result (list (Address * Z)) StorageError :=
  match l with
  | [] => Ok []
  | a :: l' =>
      match check_entries (writes_of ws a) with
      | Err e => Err e
      | Ok _ =>
          let projected := projected_count (default 0 (counts !! a)) (length (writes_of ws a)) (length (deletes_of ds a)) in
          if MAX_STORAGE_ENTRIES_PER_CONTRACT <? projected then Err (StorageExhaustion "Contract would exceed maximum storage entries")
          else match project_counts ws ds counts l' with Err e => Err e | Ok r => Ok ((a, projected) :: r) end
      end
  end.

Definition update_multiple_contract_storages (ws : gmap Address (gmap (list Z) (list Z))) (ds : gmap Address (list (list Z))) : OP () :=
  counts <-? gets contract_storage_counts;
  projected <-? lift (project_counts ws ds counts (all_addresses ws ds));
  write (concat (map (λ p, map (λ e, Put CF_CONTRACT_STORAGE (contract_storage_key p.1 e.1) e.2) (map_to_list p.2)) (map_to_list ws)) ++
         concat (map (λ p, map (λ k, Delete CF_CONTRACT_STORAGE (contract_storage_key p.1 k)) p.2) (map_to_list ds)) ++
         map (λ p, Put CF_METADATA (storage_count_key p.1) (le_bytes 8 p.2)) projected) ?;
  modify (λ s, set_counts (foldl (λ m p, <[p.1 := p.2]> m) (contract_storage_counts s) projected) s).

Definition get_contract_storage_value (a : Address) (k : list Z) : S_ → Result (option (list Z)) StorageError :=
  read_bytes CF_CONTRACT_STORAGE (contract_storage_key a k).

Definition delete_contract_storage_all (a : Address) : OP () := λ s,
  let prefix := contract_storage_prefix a in
  match scan prefix (λ key _, Ok (Some (Delete CF_CONTRACT_STORAGE key))) (db_iter CF_CONTRACT_STORAGE prefix (db s)) with
  | Err e => (Err e, s)
  | Ok [] => (Ok (), s)
  | Ok ops => (write ops ?; modify (λ s, set_counts (<[a := 0]> (contract_storage_counts s)) s)) s
  end.

(** ** Pruning *)

(** [a..b] *)
Definition range (a b : Z) : list Z := map (λ i, a + Z.of_nat i) (seq 0 (Z.to_nat (b - a))).

(** One height of one shard; a failed read is skipped. *)
Definition prune_height (shard h : Z) : M (S_ * Z) StorageError () := λ '(s, n),
  match db_get CF_DAG_HEIGHTS (vertex_by_height_key shard h) (db s) with
  | Ok (Some hash) =>
      if negb (length hash =? 32)%nat then (Err (Corruption "Invalid vertex hash"), (s, n))
      else
        let '(r, s1) := write [Delete CF_VERTICES (vertex_key (of_be_bytes hash))] s in
        match r with
        | Err e => (Err e, (s1, n))
        | Ok _ =>
            let '(r, s2) := write [Delete CF_DAG_HEIGHTS (vertex_by_height_key shard h)] s1 in
            match r with Err e => (Err e, (s2, n)) | Ok _ => (Ok (), (s2, wrapping_add u64_max n 1)) end
        end
  | _ => (Ok (), (s, n))
  end.

Definition prune_old_data (current_slot max_shards token : Z) : OP Z :=
  verify_auth token ?;
  s <-? gets id;
  if current_slot <? keep_last_blocks (pruning_config s) then returns 0
  else
    let latest := latest_known_slot s in
    fail_if ((0 <? latest) && (saturating_add u64_max latest 1000 <? current_slot)) (InvalidInput "Pruning slot is too far ahead of latest known slot") ?;
    let before := current_slot - keep_last_blocks (pruning_config s) in
    let start := if MAX_HEIGHTS_PER_SHARD <? before then before - MAX_HEIGHTS_PER_SHARD else 0 in
    n <-? (λ s, let '(r, (s', n)) := for_each (range 0 (Z.min max_shards MAX_SHARDS_TO_PRUNE))
                                        (λ shard, for_each (range start before) (prune_height shard)) (s, 0) in
                (match r with Ok _ => Ok n | Err e => Err e end, s'));
    for_each (range start before) (λ slot, write [Delete CF_STATE (state_root_key slot)]) ?;
    returns n.

Definition prune_old_data_batch (current_slot shard_start shard_count token : Z) : OP Z := prune_old_data current_slot shard_count token.

End Storage.

(** ** Keys never collide *)

Inductive StorageKey : Type :=
  | KAccount (a : Address) | KVertex (h : Hash) | KHeight (shard height : Z) | KTransaction (h : Hash) | KReceipt (h : Hash) | KCheckpoint (epoch slot : Z)
  | KCheckpointHash (h : Hash) | KValidator (a : Address) | KTip (shard : Z) | KStateRoot (slot : Z) | KLatestCheckpoint | KLatestSlot | KValidatorSet (epoch : Z)
  | KNonce (a : Address) | KCommittee (epoch id : Z) | KChildren (h : Hash) | KPending (h : Hash) | KBytecode (a : Address) | KMetadata (a : Address)
  | KContract (a : Address) (k : list Z) | KCount (a : Address) | KCollection (a : Address) | KOwnerTokens (o c : Address) | KToken (a : Address)
  | KOwnerBalance (o t : Address) | KPerformance (epoch : Z) (v : Address).

Definition key_bytes (k : StorageKey) : list Z :=
  match k with
  | KAccount a => account_key a | KVertex h => vertex_key h | KHeight s h => vertex_by_height_key s h | KTransaction h => transaction_key h
  | KReceipt h => receipt_key h | KCheckpoint e s => checkpoint_key e s | KCheckpointHash h => checkpoint_by_hash_key h | KValidator a => validator_key a
  | KTip s => dag_tip_key s | KStateRoot s => state_root_key s | KLatestCheckpoint => latest_checkpoint_key | KLatestSlot => latest_finalized_slot_key
  | KValidatorSet e => validator_set_key e | KNonce a => nonce_key a | KCommittee e i => committee_key e i | KChildren h => vertex_children_key h
  | KPending h => pending_tx_key h | KBytecode a => contract_bytecode_key a | KMetadata a => contract_metadata_key a | KContract a k => contract_storage_key a k
  | KCount a => storage_count_key a | KCollection a => qn8_collection_key a | KOwnerTokens o c => qn8_owner_tokens_key o c | KToken a => qn4_token_key a
  | KOwnerBalance o t => qn4_owner_balance_key o t | KPerformance e v => validator_performance_key e v
  end.

Abbreviation is_hash h := (0 ≤ h < 256 ^ 32).
Abbreviation is_u64 n := (0 ≤ n < 256 ^ 8).
Abbreviation is_u16 n := (0 ≤ n < 256 ^ 2).

Definition key_ok (k : StorageKey) : Prop :=
  match k with
  | KAccount a | KVertex a | KTransaction a | KReceipt a | KCheckpointHash a | KValidator a | KNonce a | KChildren a | KPending a | KBytecode a | KMetadata a
  | KContract a _ | KCount a | KCollection a | KToken a => is_hash a
  | KHeight s h => is_u16 s ∧ is_u64 h
  | KCheckpoint e s => is_u64 e ∧ is_u64 s
  | KTip s => is_u16 s
  | KStateRoot s => is_u64 s
  | KLatestCheckpoint | KLatestSlot => True
  | KValidatorSet e => is_u64 e
  | KCommittee e i => is_u64 e ∧ is_u16 i
  | KOwnerTokens a b | KOwnerBalance a b => is_hash a ∧ is_hash b
  | KPerformance e v => is_u64 e ∧ is_hash v
  end.

Lemma be_prefix_inj n N x y c d : N = 256 ^ Z.of_nat n → 0 ≤ x < N → 0 ≤ y < N → be_bytes n x ++ c = be_bytes n y ++ d → x = y ∧ c = d.
Proof. intros -> Hx Hy [Heq ->]%(app_fixed_inj n); [|apply be_bytes_length..]. split; [|done]. by eapply be_bytes_inj. Qed.

Lemma be_inj n N x y : N = 256 ^ Z.of_nat n → 0 ≤ x < N → 0 ≤ y < N → be_bytes n x = be_bytes n y → x = y.
Proof. intros ->. apply be_bytes_inj. Qed.

Lemma tagged_inj t t' r r' : tagged t r = tagged t' r' → t = t' ∧ r = r'.
Proof. by intros [= -> ->]. Qed.

Lemma cons_tail_inj {A} (x y : A) l l' : x :: l = y :: l' → l = l'.
Proof. by intros [= _ ->]. Qed.

(** Take equal keys of one kind apart. *)
Ltac split_key Hk Hk' Heq :=
  repeat match type of Heq with
  | be_bytes ?n _ ++ _ = be_bytes ?n _ ++ _ => apply (be_prefix_inj n _ _ _ _ _ eq_refl) in Heq as [-> Heq]; [|tauto..]
  | be_bytes ?n _ = be_bytes ?n _ => apply (be_inj n _ _ _ eq_refl) in Heq as ->; [|tauto..]
  | hash_bytes _ ++ _ = hash_bytes _ ++ _ => apply (be_prefix_inj 32 _ _ _ _ _ eq_refl) in Heq as [-> Heq]; [|tauto..]
  | hash_bytes _ = hash_bytes _ => apply (be_inj 32 _ _ _ eq_refl) in Heq as ->; [|tauto..]
  | _ :: _ = _ :: _ => apply cons_tail_inj in Heq
  end.

(** Keys of two entries, of whatever table, are equal only for the same entry. *)
Theorem storage_keys_injective k k' : key_ok k → key_ok k' → key_bytes k = key_bytes k' → k = k'.
Proof.
  intros Hk Hk' Heq. destruct k, k'; cbn [key_bytes key_ok] in *;
    unfold account_key, vertex_key, vertex_by_height_key, transaction_key, receipt_key, checkpoint_key, checkpoint_by_hash_key, validator_key, dag_tip_key,
      state_root_key, latest_checkpoint_key, latest_finalized_slot_key, validator_set_key, nonce_key, committee_key, vertex_children_key, pending_tx_key,
      contract_bytecode_key, contract_metadata_key, contract_storage_key, storage_count_key, qn8_collection_key, qn8_owner_tokens_key, qn4_token_key,
      qn4_owner_balance_key, validator_performance_key, STORAGE_COUNT_PREFIX in Heq;
    apply tagged_inj in Heq as [Htag Heq]; first [discriminate Htag | reflexivity | discriminate Heq | split_key Hk Hk' Heq; reflexivity | split_key Hk Hk' Heq; congruence].
Qed.

(** ** A database that does not fail *)

(** Keys are compared byte by byte. *)
Fixpoint key_leb (k k' : list Z) : bool :=
  match k, k' with
  | [], _ => true
  | _ :: _, [] => false
  | a :: k, b :: k' => (a <? b) || (a =? b) && key_leb k k'
  end.

Definition apply_op (m : gmap (string * list Z) (list Z)) (o : BatchOp) : gmap (string * list Z) (list Z) :=
  match o with Put cf k v => <[(cf, k) := v]> m | Delete cf k => delete (cf, k) m end.

Class RocksLaws (D : Type) `{Rocks D} : Type := {
  db_view : D → gmap (string * list Z) (list Z);
  db_get_view : ∀ cf k d, db_get cf k d = Ok (db_view d !! (cf, k));
  db_write_ok : ∀ ops d, (db_write ops d).1 = Ok ();
  db_write_view : ∀ ops d, db_view (db_write ops d).2 = foldl apply_op (db_view d) ops;
  db_iter_view : ∀ cf from d, ∃ l, db_iter cf from d = map Ok l ∧ StronglySorted (λ k k', key_leb k k' = true) l.*1 ∧ NoDup l.*1 ∧
    ∀ k v, (k, v) ∈ l ↔ db_view d !! (cf, k) = Some v ∧ key_leb from k = true
}.

Class CodecLaws (A : Type) `{Codec A} : Prop := { decode_encode : ∀ a b, serialize a = Ok b → deserialize b = Ok a }.

Section Tables.
Context `{RocksLaws D}.
Implicit Types s : Storage D.

Definition content s : gmap (string * list Z) (list Z) := db_view (db s).

Lemma write_spec ops s : ∃ s', write ops s = (Ok (), s') ∧ content s' = foldl apply_op (content s) ops ∧ contract_storage_counts s' = contract_storage_counts s ∧
  st_auth_token s' = st_auth_token s ∧ pruning_config s' = pruning_config s ∧ latest_known_slot s' = latest_known_slot s.
Proof.
  unfold write. pose proof (db_write_ok ops (db s)) as Hok. pose proof (db_write_view ops (db s)) as Hv. destruct (db_write ops (db s)) as [r d]. cbn in Hok, Hv. subst r.
  eexists. split; [done|]. by split_and!.
Qed.

Lemma read_content {A} `{Codec A} cf k s : read (A := A) cf k s =
  match content s !! (cf, k) with
  | None => Ok None
  | Some b => match deserialize b with Ok a => Ok (Some a) | Err e => Err (SerializationError e) end
  end.
Proof. unfold read. rewrite db_get_view. fold (content s). by destruct (content s !! (cf, k)). Qed.
End Tables.

Abbreviation Content := (gmap (string * list Z) (list Z)).

(** A table of a column family holds the map [t] on the keys of [P]. *)
Definition holds {K A} `{Countable K} `{Codec A} (cf : string) (key : K → list Z) (P : K → Prop) (t : gmap K A) (m : Content) : Prop :=
  ∀ k, P k → match m !! (cf, key k) with Some b => ∃ a, deserialize b = Ok a ∧ t !! k = Some a | None => t !! k = None end.

Definition key_inj {K} (P : K → Prop) (key : K → list Z) : Prop := ∀ k k', P k → P k' → key k = key k' → k = k'.

Section Holds.
Context `{Countable K} `{CodecLaws A} (cf : string) (key : K → list Z) (P : K → Prop).
Implicit Types t : gmap K A.

Lemma holds_insert t m k a data : key_inj P key → P k → serialize a = Ok data → holds cf key P t m → holds cf key P (<[k := a]> t) (<[(cf, key k) := data]> m).
Proof.
  intros Hinj Hk Hser Hm k' Hk'. destruct (decide (k' = k)) as [-> |Hne].
  - rewrite !lookup_insert_eq. exists a. split; [by eapply decode_encode|done].
  - rewrite !lookup_insert_ne; [by apply Hm|done|]. intros [= Heq]. by apply Hne, Hinj.
Qed.

Lemma holds_other t m p data : (∀ k, P k → p ≠ (cf, key k)) → holds cf key P t m → holds cf key P t (<[p := data]> m).
Proof. intros Hp Hm k Hk. rewrite lookup_insert_ne by auto. by apply Hm. Qed.

Lemma holds_delete_other t m p : (∀ k, P k → p ≠ (cf, key k)) → holds cf key P t m → holds cf key P t (delete p m).
Proof. intros Hp Hm k Hk. rewrite lookup_delete_ne by auto. by apply Hm. Qed.

Definition op_point (o : BatchOp) : string * list Z := match o with Put cf k _ => (cf, k) | Delete cf k => (cf, k) end.

Lemma holds_untouched t ops m : (∀ o, o ∈ ops → ∀ k, P k → op_point o ≠ (cf, key k)) → holds cf key P t m → holds cf key P t (foldl apply_op m ops).
Proof.
  revert m. induction ops as [|o ops IH]; intros m Ho Hm; [done|]. cbn [foldl]. apply IH; [intros o' Ho'; apply Ho; by right|]. specialize (Ho o (list_elem_of_here _ _)).
  destruct o; [by apply holds_other|by apply holds_delete_other].
Qed.

(** The operations of a batch of values that serialize. *)
Definition puts_of (k_of : A → K) (l : list A) : list BatchOp := omap (λ a, match serialize a with Ok b => Some (Put cf (key (k_of a)) b) | Err _ => None end) l.

Lemma holds_batch k_of l t m : key_inj P key → Forall (λ a, P (k_of a) ∧ is_ok (serialize a) = true) l → holds cf key P t m →
  holds cf key P (foldl (λ t a, <[k_of a := a]> t) t l) (foldl apply_op m (puts_of k_of l)).
Proof.
  intros Hinj Hl. revert t m. induction Hl as [|a l [Hk Hs] _ IH]; intros t m Hm; [done|]. cbn [foldl puts_of omap list_omap]. destruct (serialize a) as [b|e] eqn:Hb; [|done].
  cbn [foldl apply_op]. by apply IH, holds_insert.
Qed.

Lemma batch_puts_spec `{Rocks D} k_of l (s : Storage D) : Forall (λ a, is_ok (serialize a) = true) l → batch_puts cf (λ a, key (k_of a)) l s = (Ok (puts_of k_of l), s).
Proof.
  induction 1 as [|a l Ha _ IH]; [done|]. cbn [batch_puts puts_of omap list_omap]. unfold bindM, serialized, lift. destruct (serialize a) as [b|e]; [|done]. by rewrite IH.
Qed.

Lemma puts_of_points k_of l o : o ∈ puts_of k_of l → ∃ a, a ∈ l ∧ op_point o = (cf, key (k_of a)).
Proof.
  intros Ho. apply list_elem_of_omap in Ho as (a & Ha & Ho). exists a. split; [done|]. destruct (serialize a); [|done]. by injection Ho as <-.
Qed.
End Holds.

(** ** The storage as typed tables *)

Record Tables : Type := mkTables {
  t_accounts : gmap Address Account;
  t_vertices : gmap Hash DAGVertex;
  t_transactions : gmap Hash SignedTransaction;
  t_receipts : gmap Hash TransactionReceipt;
  t_checkpoints : gmap (Z * Z) Checkpoint;
  t_latest : gmap () Checkpoint;
  t_validators : gmap Address Validator;
  t_sets : gmap Z ValidatorSet;
  t_tips : gmap Z (list Hash);
  t_roots : gmap Z Hash
}.

Definition empty_tables : Tables := mkTables ∅ ∅ ∅ ∅ ∅ ∅ ∅ ∅ ∅ ∅.

Inductive TableOp : Type :=
  | OpAccount (a : Account)
  | OpAccounts (l : list Account)
  | OpVertex (v : DAGVertex)
  | OpTransaction (x : SignedTransaction)
  | OpTransactions (l : list SignedTransaction)
  | OpReceipt (r : TransactionReceipt)
  | OpReceipts (l : list TransactionReceipt)
  | OpFinalized (receipts : list TransactionReceipt) (txs : list SignedTransaction)
  | OpCheckpoint (c : Checkpoint)
  | OpValidator (v : Validator)
  | OpSet (epoch : Z) (v : ValidatorSet)
  | OpTips (shard : Z) (tips : list Hash)
  | OpRoot (slot : Z) (root : Hash)
  | OpContract (a : Address) (writes : gmap (list Z) (list Z)) (deletes : list (list Z)).

(** A list of values entered in order: the last one of a key wins. *)
Definition enter_all {K A} `{Countable K} (k_of : A → K) (l : list A) (m : gmap K A) : gmap K A := foldl (λ m a, <[k_of a := a]> m) m l.

Definition enter_accounts (l : list Account) (t : Tables) : Tables :=
  mkTables (enter_all Account.address l (t_accounts t)) (t_vertices t) (t_transactions t) (t_receipts t) (t_checkpoints t) (t_latest t) (t_validators t) (t_sets t) (t_tips t) (t_roots t).
Definition enter_finalized (rs : list TransactionReceipt) (txs : list SignedTransaction) (t : Tables) : Tables :=
  mkTables (t_accounts t) (t_vertices t) (enter_all tx_hash txs (t_transactions t)) (enter_all r_tx_hash rs (t_receipts t)) (t_checkpoints t) (t_latest t) (t_validators t) (t_sets t) (t_tips t) (t_roots t).

Definition abstract_step (t : Tables) (o : TableOp) : Tables :=
  match o with
  | OpAccount a => enter_accounts [a] t
  | OpAccounts l => enter_accounts l t
  | OpVertex v => mkTables (t_accounts t) (<[vhash v := v]> (t_vertices t)) (t_transactions t) (t_receipts t) (t_checkpoints t) (t_latest t) (t_validators t) (t_sets t) (t_tips t) (t_roots t)
  | OpTransaction x => enter_finalized [] [x] t
  | OpTransactions l => enter_finalized [] l t
  | OpReceipt r => enter_finalized [r] [] t
  | OpReceipts l => enter_finalized l [] t
  | OpFinalized rs txs => enter_finalized rs txs t
  | OpCheckpoint c => mkTables (t_accounts t) (t_vertices t) (t_transactions t) (t_receipts t) (<[(Checkpoint.epoch c, Checkpoint.slot c) := c]> (t_checkpoints t)) (<[() := c]> (t_latest t)) (t_validators t) (t_sets t) (t_tips t) (t_roots t)
  | OpValidator v => mkTables (t_accounts t) (t_vertices t) (t_transactions t) (t_receipts t) (t_checkpoints t) (t_latest t) (<[Validators.address v := v]> (t_validators t)) (t_sets t) (t_tips t) (t_roots t)
  | OpSet e v => mkTables (t_accounts t) (t_vertices t) (t_transactions t) (t_receipts t) (t_checkpoints t) (t_latest t) (t_validators t) (<[e := v]> (t_sets t)) (t_tips t) (t_roots t)
  | OpTips sh l => mkTables (t_accounts t) (t_vertices t) (t_transactions t) (t_receipts t) (t_checkpoints t) (t_latest t) (t_validators t) (t_sets t) (<[sh := l]> (t_tips t)) (t_roots t)
  | OpRoot slot r => mkTables (t_accounts t) (t_vertices t) (t_transactions t) (t_receipts t) (t_checkpoints t) (t_latest t) (t_validators t) (t_sets t) (t_tips t) (<[slot := r]> (t_roots t))
  | OpContract _ _ _ => t
  end.

(** [is_hash] and the like as predicates. *)
Definition hash_range (h : Hash) : Prop := is_hash h.
Definition u64_range (n : Z) : Prop := is_u64 n.
Definition u16_range (n : Z) : Prop := is_u16 n.

(** State roots are stored as their 32 bytes. *)
Definition root_codec : Codec Hash := {|
  serialize r := if bool_decide (hash_range r) then Ok (hash_bytes r) else Err "range";
  deserialize d := if (length d =? 32)%nat then Ok (of_be_bytes d) else Err "Invalid hash length"
|}.

Lemma root_codec_laws : @CodecLaws Hash root_codec.
Proof.
  split. intros r b. unfold serialize, deserialize, root_codec. case_bool_decide as Hr; [|done]. intros [= <-]. unfold hash_bytes. rewrite be_bytes_length. by rewrite Nat.eqb_refl, of_be_be_bytes.
Qed.

Section Refinement.
Context `{RocksLaws D} (hash_data : list Z → Hash).
Context `{CodecLaws Account} `{CodecLaws DAGVertex} `{CodecLaws SignedTransaction} `{CodecLaws TransactionReceipt} `{CodecLaws Checkpoint} `{CodecLaws Validator}
  `{CodecLaws ValidatorSet} `{CodecLaws (list Hash)}.

Definition concrete_op (o : TableOp) : M (Storage D) StorageError () :=
  match o with
  | OpAccount a => put_account a
  | OpAccounts l => put_accounts_batch l
  | OpVertex v => st_put_vertex v
  | OpTransaction x => put_transaction x
  | OpTransactions l => put_transactions_batch l
  | OpReceipt r => put_receipt r
  | OpReceipts l => put_receipts_batch l
  | OpFinalized rs txs => put_finalized_batch rs txs
  | OpCheckpoint c => st_put_checkpoint hash_data c
  | OpValidator v => put_validator v
  | OpSet e v => put_validator_set e v
  | OpTips sh l => put_dag_tips sh l
  | OpRoot slot r => put_state_root slot r
  | OpContract a w d => update_contract_storage a w d
  end.

Abbreviation ok x := (is_ok (serialize x) = true).

(** Fields fit their widths, and the values serialize. *)
Definition op_ok (o : TableOp) : Prop :=
  match o with
  | OpAccount a => hash_range (Account.address a) ∧ ok a
  | OpAccounts l => Forall (λ a, hash_range (Account.address a) ∧ ok a) l
  | OpVertex v => hash_range (vhash v) ∧ ok v
  | OpTransaction x => hash_range (tx_hash x) ∧ ok x
  | OpTransactions l => Forall (λ x, hash_range (tx_hash x) ∧ ok x) l
  | OpReceipt r => hash_range (r_tx_hash r) ∧ ok r
  | OpReceipts l => Forall (λ r, hash_range (r_tx_hash r) ∧ ok r) l
  | OpFinalized rs txs => Forall (λ r, hash_range (r_tx_hash r) ∧ ok r) rs ∧ Forall (λ x, hash_range (tx_hash x) ∧ ok x) txs
  | OpCheckpoint c => (u64_range (Checkpoint.epoch c) ∧ u64_range (Checkpoint.slot c)) ∧ ok c
  | OpValidator v => hash_range (Validators.address v) ∧ ok v
  | OpSet e v => u64_range e ∧ ok v
  | OpTips sh l => u16_range sh ∧ ok l
  | OpRoot slot r => u64_range slot ∧ hash_range r
  | OpContract _ _ _ => True
  end.

Record represents (t : Tables) (m : Content) : Prop := {
  rep_accounts : holds CF_ACCOUNTS account_key hash_range (t_accounts t) m;
  rep_vertices : holds CF_VERTICES vertex_key hash_range (t_vertices t) m;
  rep_transactions : holds CF_TRANSACTIONS transaction_key hash_range (t_transactions t) m;
  rep_receipts : holds CF_RECEIPTS receipt_key hash_range (t_receipts t) m;
  rep_checkpoints : holds CF_CHECKPOINTS (λ p, checkpoint_key p.1 p.2) (λ p, u64_range p.1 ∧ u64_range p.2) (t_checkpoints t) m;
  rep_latest : holds CF_METADATA (λ _ : (), latest_checkpoint_key) (λ _, True) (t_latest t) m;
  rep_validators : holds CF_VALIDATORS validator_key hash_range (t_validators t) m;
  rep_sets : holds CF_VALIDATORS validator_set_key u64_range (t_sets t) m;
  rep_tips : holds CF_DAG_TIPS dag_tip_key u16_range (t_tips t) m;
  rep_roots : @holds Z Hash _ _ root_codec CF_STATE state_root_key u64_range (t_roots t) m
}.

Lemma account_key_inj : key_inj hash_range account_key.
Proof. intros a b Ha Hb [_ Heq]%tagged_inj. by apply (be_inj 32 _ _ _ eq_refl) in Heq. Qed.
Lemma vertex_key_inj : key_inj hash_range vertex_key.
Proof. intros a b Ha Hb [_ Heq]%tagged_inj. by apply (be_inj 32 _ _ _ eq_refl) in Heq. Qed.
Lemma transaction_key_inj : key_inj hash_range transaction_key.
Proof. intros a b Ha Hb [_ Heq]%tagged_inj. by apply (be_inj 32 _ _ _ eq_refl) in Heq. Qed.
Lemma receipt_key_inj : key_inj hash_range receipt_key.
Proof. intros a b Ha Hb [_ Heq]%tagged_inj. by apply (be_inj 32 _ _ _ eq_refl) in Heq. Qed.
Lemma checkpoint_key_inj : key_inj (λ p, u64_range p.1 ∧ u64_range p.2) (λ p, checkpoint_key p.1 p.2).
Proof.
  intros [a b] [a' b'] [Ha Hb] [Ha' Hb'] [_ Heq]%tagged_inj. cbn [fst snd] in *. apply (be_prefix_inj 8 _ _ _ _ _ eq_refl) in Heq as [-> Heq]; [|done..].
  by apply (be_inj 8 _ _ _ eq_refl) in Heq as ->.
Qed.
Lemma latest_key_inj : key_inj (λ _, True) (λ _ : (), latest_checkpoint_key).
Proof. by intros [] []. Qed.
Lemma validator_key_inj : key_inj hash_range validator_key.
Proof. intros a b Ha Hb [_ Heq]%tagged_inj. by apply (be_inj 32 _ _ _ eq_refl) in Heq. Qed.
Lemma validator_set_key_inj : key_inj u64_range validator_set_key.
Proof. intros a b Ha Hb [_ Heq]%tagged_inj. by apply (be_inj 8 _ _ _ eq_refl) in Heq. Qed.
Lemma dag_tip_key_inj : key_inj u16_range dag_tip_key.
Proof. intros a b Ha Hb [_ Heq]%tagged_inj. by apply (be_inj 2 _ _ _ eq_refl) in Heq. Qed.

Lemma state_root_key_inj : key_inj u64_range state_root_key.
Proof. intros a b Ha Hb [_ Heq]%tagged_inj. by apply (be_inj 8 _ _ _ eq_refl) in Heq. Qed.

Lemma point_ne (cf cf' : string) (t t' : Z) r r' : cf ≠ cf' ∨ t ≠ t' → (cf, tagged t r) ≠ (cf', tagged t' r').
Proof. intros Hd [= <- Ht _]. by destruct Hd. Qed.

(** Points of different column families or tags differ. *)
Ltac other_point := intros; apply point_ne; first [left; discriminate | right; discriminate].

(** Keep a table over puts elsewhere. *)
Ltac keep_table := first [assumption | apply holds_other; [other_point|keep_table]].

(** Storing one value. *)
Lemma store_spec {A} `{Codec A} cf key (a : A) (s : Storage D) : ok a → ∃ data s', serialize a = Ok data ∧ store cf key a s = (Ok (), s') ∧ content s' = <[(cf, key) := data]> (content s).
Proof.
  intros Ha. unfold store, bindM, serialized, lift. destruct (serialize a) as [data|e]; [|done]. destruct (write_spec [Put cf key data] s) as (s' & -> & Hc & _). by exists data, s'.
Qed.

Lemma update_contract_content a w d (s : Storage D) : let '(r, s') := update_contract_storage a w d s in
  (∀ e, r = Err e → content s' = content s) ∧ ∃ ops, content s' = foldl apply_op (content s) ops ∧
    ∀ o, o ∈ ops → (op_point o).1 = CF_CONTRACT_STORAGE ∨ op_point o = (CF_METADATA, storage_count_key a).
Proof.
  unfold update_contract_storage, bindM, lift, gets, modify, fail_if. destruct (check_entries _) as [u|e]; [|split; [done|]; exists []; split; [done|]; intros o Ho; by apply elem_of_nil in Ho].
  destruct (MAX_STORAGE_ENTRIES_PER_CONTRACT <? _); [split; [done|]; exists []; split; [done|]; intros o Ho; by apply elem_of_nil in Ho|].
  match goal with |- context [write ?ops ?s0] => destruct (write_spec ops s0) as (s1 & -> & Hc1 & _) end. unfold persist_storage_count.
  match goal with |- context [write ?ops ?s0] => destruct (write_spec ops s0) as (s2 & -> & Hc2 & _) end. split; [done|].
  exists (storage_ops a (map_to_list w) d ++ [Put CF_METADATA (storage_count_key a) (le_bytes 8 (projected_count (default 0 (contract_storage_counts s !! a)) (length (map_to_list w)) (length d)))]).
  split; [by rewrite foldl_app, Hc2; unfold content in *; cbn [set_counts db] in *; rewrite Hc1|]. intros o Ho. apply elem_of_app in Ho as [Ho|Ho].
  - left. unfold storage_ops in Ho. apply elem_of_app in Ho as [Ho|Ho]; apply list_elem_of_fmap in Ho as (x & -> & _); done.
  - apply list_elem_of_singleton in Ho as ->. by right.
Qed.

Lemma metadata_kept t m ops a : represents t m → (∀ o, o ∈ ops → (op_point o).1 = CF_CONTRACT_STORAGE ∨ op_point o = (CF_METADATA, storage_count_key a)) →
  represents t (foldl apply_op m ops).
Proof.
  intros [] Hops. split; apply holds_untouched; try done; intros o Ho k _ Heq; destruct (Hops o Ho) as [Hp|Hp]; rewrite Heq in Hp; try discriminate Hp.
Qed.

Ltac one_put := match goal with Ha : ok ?a |- context [store ?cf ?key ?a ?s] => destruct (store_spec cf key a s Ha) as (data & s' & Hser & -> & Hcont) end.

(** One operation on the database is one on the tables. *)
Lemma step_refines t (s : Storage D) o : op_ok o → represents t (content s) → represents (abstract_step t o) (content (concrete_op o s).2).
Proof.
  intros Ho Hrep. destruct o as [x|l|v|x|l|r|l|rs txs|c|v|e v|sh l|slot r|a w d]; cbn [concrete_op abstract_step op_ok] in *.
  - unfold put_account. destruct Ho as [Hh Hs]. one_put. cbn [snd]. rewrite Hcont. destruct Hrep. split; cbn; try keep_table. by apply holds_insert; [apply account_key_inj|..].
  - unfold put_accounts_batch, bindM. rewrite (batch_puts_spec CF_ACCOUNTS account_key Account.address) by (eapply list.Forall_impl; [exact Ho|by intros ? []]).
    destruct (write_spec (puts_of CF_ACCOUNTS account_key Account.address l) s) as (s' & -> & Hc & _). cbn [snd]. rewrite Hc. destruct Hrep.
    split; cbn; [by apply holds_batch; [apply account_key_inj|..]|..]; apply holds_untouched; try done; intros o' (x & _ & ->)%puts_of_points k _; other_point.
  - unfold st_put_vertex, bindM, serialized, lift. destruct Ho as [Hh Hs]. destruct (serialize v) as [data|] eqn:Hser; [|done].
    match goal with |- context [write ?ops ?s0] => destruct (write_spec ops s0) as (s1 & -> & Hc & _) end. cbn [snd]. rewrite Hc. cbn [foldl apply_op]. destruct Hrep.
    split; cbn; try keep_table. apply holds_other; [other_point|]. by apply holds_insert; [apply vertex_key_inj|..].
  - unfold put_transaction. destruct Ho as [Hh Hs]. one_put. cbn [snd]. rewrite Hcont. destruct Hrep. split; cbn; try keep_table. by apply holds_insert; [apply transaction_key_inj|..].
  - unfold put_transactions_batch, bindM. rewrite (batch_puts_spec CF_TRANSACTIONS transaction_key tx_hash) by (eapply list.Forall_impl; [exact Ho|by intros ? []]).
    destruct (write_spec (puts_of CF_TRANSACTIONS transaction_key tx_hash l) s) as (s' & -> & Hc & _). cbn [snd]. rewrite Hc. destruct Hrep.
    split; cbn; [..|by apply holds_batch; [apply transaction_key_inj|..]| | | | | | |]; apply holds_untouched; try done; intros o' (x & _ & ->)%puts_of_points k _; other_point.
  - unfold put_receipt. destruct Ho as [Hh Hs]. one_put. cbn [snd]. rewrite Hcont. destruct Hrep. split; cbn; try keep_table. by apply holds_insert; [apply receipt_key_inj|..].
  - unfold put_receipts_batch, bindM. rewrite (batch_puts_spec CF_RECEIPTS receipt_key r_tx_hash) by (eapply list.Forall_impl; [exact Ho|by intros ? []]).
    destruct (write_spec (puts_of CF_RECEIPTS receipt_key r_tx_hash l) s) as (s' & -> & Hc & _). cbn [snd]. rewrite Hc. destruct Hrep.
    split; cbn; [..|by apply holds_batch; [apply receipt_key_inj|..]| | | | | |]; apply holds_untouched; try done; intros o' (x & _ & ->)%puts_of_points k _; other_point.
  - destruct Ho as [Hr Hx]. unfold put_finalized_batch, bindM.
    rewrite (batch_puts_spec CF_RECEIPTS receipt_key r_tx_hash) by (eapply list.Forall_impl; [exact Hr|by intros ? []]).
    rewrite (batch_puts_spec CF_TRANSACTIONS transaction_key tx_hash) by (eapply list.Forall_impl; [exact Hx|by intros ? []]).
    match goal with |- context [write ?ops ?s0] => destruct (write_spec ops s0) as (s1 & -> & Hc & _) end. cbn [snd]. rewrite Hc, foldl_app. destruct Hrep.
    split; cbn; [apply holds_untouched; [|apply holds_untouched]|apply holds_untouched; [|apply holds_untouched]| | |apply holds_untouched; [|apply holds_untouched]..]; try done;
      try (intros o' (x & _ & ->)%puts_of_points k _; other_point).
    + apply holds_batch; [apply transaction_key_inj|done|]. apply holds_untouched; [|done]. intros o' (x & _ & ->)%puts_of_points k _; other_point.
    + apply holds_untouched; [intros o' (x & _ & ->)%puts_of_points k _; other_point|]. by apply holds_batch; [apply receipt_key_inj|..].
  - unfold st_put_checkpoint, bindM, serialized, lift. destruct Ho as [Hh Hs]. destruct (serialize c) as [data|] eqn:Hser; [|done].
    match goal with |- context [write ?ops ?s0] => destruct (write_spec ops s0) as (s1 & -> & Hc & _) end. cbn [snd]. rewrite Hc. cbn [foldl apply_op]. destruct Hrep.
    split; cbn; try keep_table.
    + do 2 (apply holds_other; [other_point|]). by apply (holds_insert CF_CHECKPOINTS (λ p, checkpoint_key p.1 p.2) (λ p, u64_range p.1 ∧ u64_range p.2) _ _ (Checkpoint.epoch c, Checkpoint.slot c)); [apply checkpoint_key_inj|..].
    + apply (holds_insert CF_METADATA (λ _ : (), latest_checkpoint_key) (λ _, True) _ _ ()); [apply latest_key_inj|done|done|]. keep_table.
  - unfold put_validator. destruct Ho as [Hh Hs]. one_put. cbn [snd]. rewrite Hcont. destruct Hrep. split; cbn; try keep_table. by apply holds_insert; [apply validator_key_inj|..].
  - unfold put_validator_set. destruct Ho as [Hh Hs]. one_put. cbn [snd]. rewrite Hcont. destruct Hrep. split; cbn; try keep_table. by apply holds_insert; [apply validator_set_key_inj|..].
  - unfold put_dag_tips. destruct Ho as [Hh Hs]. one_put. cbn [snd]. rewrite Hcont. destruct Hrep. split; cbn; try keep_table. by apply holds_insert; [apply dag_tip_key_inj|..].
  - unfold put_state_root. match goal with |- context [write ?ops ?s0] => destruct (write_spec ops s0) as (s1 & -> & Hc & _) end. cbn [snd]. rewrite Hc. cbn [foldl apply_op]. destruct Hrep, Ho as [Hslot Hr].
    split; cbn; try keep_table. apply (@holds_insert Z _ _ Hash root_codec root_codec_laws CF_STATE state_root_key u64_range); [apply state_root_key_inj|done| |done]. unfold serialize, root_codec. by rewrite bool_decide_true.
  - pose proof (update_contract_content a w d s) as Hu. destruct (update_contract_storage a w d s) as [r s']. destruct Hu as (_ & ops & Hc & Hops). cbn [snd]. rewrite Hc. by eapply metadata_kept.
Qed.

Lemma holds_read {K A} `{Countable K} `{Codec A} cf key (P : K → Prop) (t : gmap K A) (s : Storage D) k : holds cf key P t (content s) → P k → read cf (key k) s = Ok (t !! k).
Proof. intros Hm Hk. rewrite read_content. specialize (Hm k Hk). destruct (content s !! (cf, key k)); [|by rewrite Hm]. by destruct Hm as (a & -> & ->). Qed.

Definition run_tables (ops : list TableOp) (s : Storage D) : Storage D := foldl (λ s o, (concrete_op o s).2) s ops.

Lemma run_refines ops t s : Forall op_ok ops → represents t (content s) → represents (foldl abstract_step t ops) (content (run_tables ops s)).
Proof. intros Hops. revert t s. induction Hops as [|o ops Ho _ IH]; intros t s Hrep; [done|]. cbn. by apply IH, step_refines. Qed.

Lemma empty_represents : represents empty_tables ∅.
Proof. split; intros k _; by rewrite lookup_empty. Qed.

Lemma root_read slot (s : Storage D) (t : gmap Z Hash) :
  @holds Z Hash _ _ root_codec CF_STATE state_root_key u64_range t (content s) → u64_range slot → get_state_root slot s = Ok (t !! slot).
Proof.
  intros Hm Hs. specialize (Hm slot Hs). unfold get_state_root. rewrite db_get_view. fold (content s). destruct (content s !! (CF_STATE, state_root_key slot)) as [d|]; [|by rewrite Hm].
  destruct Hm as (r & Hd & ->). unfold deserialize, root_codec in Hd. destruct (length d =? 32)%nat; [|done]. by injection Hd as ->.
Qed.

(** C22. On an empty database that does not fail the storage is a set of typed tables: after any sequence of
    writes (one account, transaction or receipt or a batch of them, a vertex, a finalized batch, a
    checkpoint, a validator, a validator set, tips, a state root, contract storage) of values that
    serialize and keys of their widths, every read of the ten tables, state roots included, returns what
    the corresponding map holds, and writes to one table leave the others alone. *)
Theorem storage_refines_tables ops (s : Storage D) : content s = ∅ → Forall op_ok ops → let s' := run_tables ops s in let t := foldl abstract_step empty_tables ops in
  (∀ a, hash_range a → get_account a s' = Ok (t_accounts t !! a) ∧ st_get_validator a s' = Ok (t_validators t !! a)) ∧
  (∀ h, hash_range h → st_get_vertex h s' = Ok (t_vertices t !! h) ∧ get_transaction h s' = Ok (t_transactions t !! h) ∧ get_receipt h s' = Ok (t_receipts t !! h)) ∧
  (∀ e sl, u64_range e → u64_range sl → st_get_checkpoint e sl s' = Ok (t_checkpoints t !! (e, sl))) ∧
  get_latest_checkpoint s' = Ok (t_latest t !! ()) ∧
  (∀ e, u64_range e → get_validator_set e s' = Ok (t_sets t !! e)) ∧
  (∀ sh, u16_range sh → get_dag_tips sh s' = Ok (default [] (t_tips t !! sh))) ∧
  (∀ slot, u64_range slot → get_state_root slot s' = Ok (t_roots t !! slot)).
Proof.
  intros Hs Hops s' t. pose proof empty_represents as H0'. rewrite <- Hs in H0'. assert (Hrep : represents t (content s')) by exact (run_refines ops empty_tables s Hops H0'). clearbody s' t. destruct Hrep. split_and!.
  - intros a Ha. split; [by apply (holds_read CF_ACCOUNTS account_key hash_range)|by apply (holds_read CF_VALIDATORS validator_key hash_range)].
  - intros h Hh. split_and!; [by apply (holds_read CF_VERTICES vertex_key hash_range)|by apply (holds_read CF_TRANSACTIONS transaction_key hash_range)|by apply (holds_read CF_RECEIPTS receipt_key hash_range)].
  - intros e sl He Hsl. by apply (holds_read CF_CHECKPOINTS (λ p, checkpoint_key p.1 p.2) (λ p, u64_range p.1 ∧ u64_range p.2) _ _ (e, sl)).
  - by apply (holds_read CF_METADATA (λ _ : (), latest_checkpoint_key) (λ _, True) _ _ ()).
  - intros e He. by apply (holds_read CF_VALIDATORS validator_set_key u64_range).
  - intros sh Hsh. unfold get_dag_tips. rewrite (holds_read CF_DAG_TIPS dag_tip_key u16_range (t_tips t)) by done. by destruct (t_tips t !! sh).
  - intros slot Hslot. by apply root_read.
Qed.
End Refinement.

(** ** Prefix scans *)

Lemma starts_with_app p k : starts_with p k = true ↔ ∃ r, k = p ++ r.
Proof.
  revert k. induction p as [|a p IH]; intros k; cbn; [split; [by eexists|done]|]. destruct k as [|b k]; [by split; [|intros [r Hr]]|].
  rewrite andb_true_iff, Z.eqb_eq, IH. split; [intros [-> [r ->]]; by exists r|intros [r [= -> ->]]; eauto].
Qed.

(** Past the last key with the prefix there is no other. *)
Lemma prefix_contiguous p k k' : key_leb p k = true → starts_with p k = false → key_leb k k' = true → starts_with p k' = false.
Proof.
  revert k k'. induction p as [|a p IH]; intros k k'; [done|]. destruct k as [|b k]; [done|]. destruct k' as [|c k']; [done|]. cbn. intros H1 H2 H3.
  apply orb_true_iff in H1. apply orb_true_iff in H3. rewrite !andb_true_iff, !Z.ltb_lt, !Z.eqb_eq in *. destruct (Z.eqb_spec a b) as [-> |Hab].
  - cbn in H2. destruct (Z.eqb_spec b c) as [-> |Hbc]; [|done]. cbn. destruct H1 as [?|[_ H1]]; [lia|]. destruct H3 as [?|[_ H3]]; [lia|]. by eapply IH.
  - destruct (Z.eqb_spec a c) as [-> |Hac]; [|done]. destruct H1 as [?|[? _]]; [|done]. destruct H3 as [?|[? _]]; lia.
Qed.

Lemma prefix_le p r : key_leb p (p ++ r) = true.
Proof. induction p as [|a p IH]; [by destruct r|]. cbn. rewrite IH, Z.eqb_refl. by rewrite orb_true_r. Qed.

Abbreviation key_sorted := (StronglySorted (λ k k', key_leb k k' = true)).

(** What the loops see of an iterator: the entries with the prefix. *)
Fixpoint with_prefix {V} (p : list Z) (l : list (list Z * V)) : list (list Z * V) :=
  match l with [] => [] | e :: l' => if starts_with p e.1 then e :: with_prefix p l' else [] end.

Lemma with_prefix_elem {V} p (l : list (list Z * V)) e : key_sorted l.*1 → Forall (λ e, key_leb p e.1 = true) l → e ∈ with_prefix p l ↔ e ∈ l ∧ starts_with p e.1 = true.
Proof.
  induction l as [|x l IH]; intros Hs Hp; cbn; [split; [by intros ?%elem_of_nil|by intros [?%elem_of_nil _]]|]. apply StronglySorted_inv in Hs as [Hs Hx]. apply list.Forall_cons in Hp as [Hpx Hp].
  destruct (starts_with p x.1) eqn:Hst.
  - rewrite !elem_of_cons, IH by done. split; [intros [-> |[? ?]]; eauto|intros [[-> |?] ?]; eauto].
  - split; [by intros ?%elem_of_nil|]. intros [He Hse]. apply elem_of_cons in He as [-> |He]; [congruence|]. rewrite list.Forall_forall in Hx.
    assert (Hle : key_leb x.1 e.1 = true) by (apply Hx; apply list_elem_of_fmap; eauto). by rewrite (prefix_contiguous p x.1 e.1) in Hse.
Qed.

Abbreviation Slots := (gmap (list Z) (list Z)).

Section Contracts.
Context `{RocksLaws D}.
Implicit Types s : Storage D.

Lemma storage_loop_spec p l n b m m' : storage_loop p (map Ok l) n b m = Ok m' →
  m' = foldl (λ m e, <[drop (length p) e.1 := e.2]> m) m (with_prefix p l) ∧ n + Z.of_nat (length (with_prefix p l)) ≤ Z.max n MAX_STORAGE_ENTRIES_PER_CONTRACT.
Proof.
  revert n b m. induction l as [|[k v] l IH]; intros n b m; cbn [map storage_loop with_prefix fst]; [intros [= ->]; split; [done|cbn; lia]|].
  destruct (starts_with p k); cbn [negb]; [|intros [= ->]; split; [done|cbn; lia]]. destruct (Z.ltb_spec MAX_STORAGE_ENTRIES_PER_CONTRACT (n + 1)); [done|]. destruct (_ <? _); [done|].
  intros Heq. apply IH in Heq as [-> Hn]. split; [done|]. cbn [length]. lia.
Qed.

(** The map of distinct suffixes. *)
Lemma suffix_map (p : list Z) (l : list (list Z * list Z)) (m : Slots) (k : list Z) : NoDup l.*1 → Forall (λ e, starts_with p e.1 = true) l →
  foldl (λ m e, <[drop (length p) e.1 := e.2]> m) m l !! k = match (list_to_map l : Slots) !! (p ++ k) with Some v => Some v | None => m !! k end.
Proof.
  revert m. induction l as [|[k' v] l IH]; intros m Hnd Hp; [by rewrite list_to_map_nil, lookup_empty|]. rewrite list_to_map_cons. cbn [foldl fst snd]. apply list.NoDup_cons in Hnd as [Hni Hnd].
  apply list.Forall_cons in Hp as [Hk' Hp]. rewrite IH by done. cbn in Hk'. apply starts_with_app in Hk' as [r ->]. rewrite drop_app_length.
  destruct (decide (k = r)) as [-> |Hne].
  - rewrite !lookup_insert_eq. assert (Hnone : (list_to_map l : Slots) !! (p ++ r) = None) by (by apply not_elem_of_list_to_map_1). by rewrite Hnone.
  - rewrite (lookup_insert_ne m), (lookup_insert_ne (list_to_map l)); [done|intros Heq%app_inv_head; congruence|congruence].
Qed.

Lemma with_prefix_keys {V} p (l : list (list Z * V)) : NoDup l.*1 → NoDup (with_prefix p l).*1 ∧ Forall (λ e, starts_with p e.1 = true) (with_prefix p l).
Proof.
  intros Hnd. assert (Htake : ∃ n, with_prefix p l = take n l).
  { clear Hnd. induction l as [|x l [n IH]]; [by exists 0%nat|]. cbn. destruct (starts_with p x.1); [exists (S n); by rewrite IH|by exists 0%nat]. }
  split; [|clear; induction l as [|x l IH]; [constructor|]; cbn; destruct (starts_with p x.1) eqn:E; constructor; auto].
  destruct Htake as [n ->]. rewrite fmap_take. eapply sublist_NoDup; [exact Hnd|apply sublist_take].
Qed.

(** Reading a contract's storage finds every entry stored under its address, and nothing else. *)
Lemma get_contract_storage_spec a s m : get_contract_storage a s = Ok m →
  (∀ k, m !! k = content s !! (CF_CONTRACT_STORAGE, contract_storage_key a k)) ∧ Z.of_nat (size m) ≤ MAX_STORAGE_ENTRIES_PER_CONTRACT.
Proof.
  unfold get_contract_storage. assert (Hkey : ∀ k, contract_storage_key a k = contract_storage_prefix a ++ k).
  { intros k. unfold contract_storage_prefix, contract_storage_key, tagged. by rewrite <- !app_comm_cons, <- app_assoc. }
  revert Hkey. generalize (contract_storage_prefix a). intros p Hkey. destruct (db_iter_view CF_CONTRACT_STORAGE p (db s)) as (l & -> & Hs & Hnd & Hl). intros Heq.
  apply storage_loop_spec in Heq as [-> Hn]. destruct (with_prefix_keys p l Hnd) as [Hnd' Hp].
  assert (Hlook : ∀ k, foldl (λ (m : Slots) e, <[drop (length p) e.1:=e.2]> m) ∅ (with_prefix p l) !! k = content s !! (CF_CONTRACT_STORAGE, p ++ k)).
  { intros k. rewrite suffix_map by done. rewrite lookup_empty. fold (content s) in Hl.
    assert (Hmem : ∀ v, (list_to_map (with_prefix p l) : Slots) !! (p ++ k) = Some v ↔ content s !! (CF_CONTRACT_STORAGE, p ++ k) = Some v).
    { intros v. rewrite <- elem_of_list_to_map by done. rewrite with_prefix_elem; [|done|apply list.Forall_forall; intros [k' v'] He; cbn; by apply Hl in He as [_ ?]].
      rewrite Hl. cbn [fst]. split; [tauto|]. intros Hv. split_and!; [done|apply prefix_le|apply starts_with_app; eauto]. }
    apply option_eq in Hmem. rewrite <- Hmem. by destruct ((list_to_map (with_prefix p l) : Slots) !! (p ++ k)). }
  split.
  - intros k. by rewrite Hlook, Hkey.
  - assert (Hsz : ∀ (l' : list (list Z * list Z)) (m0 : gmap (list Z) (list Z)), (size (foldl (λ m e, <[drop (length p) e.1:=e.2]> m) m0 l') ≤ size m0 + length l')%nat).
    { induction l' as [|e l' IH]; intros m0; cbn; [lia|]. etransitivity; [apply IH|]. pose proof (map_size_insert (drop (length p) e.1) e.2 m0). destruct (m0 !! _); cbn in *; lia. }
    specialize (Hsz (with_prefix p l) ∅). rewrite map_size_empty in Hsz. unfold MAX_STORAGE_ENTRIES_PER_CONTRACT in *. lia.
Qed.
End Contracts.

Lemma storage_key_inj a a' k k' : hash_range a → hash_range a' → contract_storage_key a k = contract_storage_key a' k' → a = a' ∧ k = k'.
Proof.
  intros Ha Ha' [_ Heq]%tagged_inj. apply (be_prefix_inj 32 _ _ _ _ _ eq_refl) in Heq as [-> Heq]; [|done..]. by apply cons_tail_inj in Heq.
Qed.

Lemma put_slots (a : Address) (l : list (list Z * list Z)) (m : Content) (a' : Address) (k : list Z) : hash_range a → hash_range a' → NoDup l.*1 →
  foldl apply_op m (map (λ e, Put CF_CONTRACT_STORAGE (contract_storage_key a e.1) e.2) l) !! (CF_CONTRACT_STORAGE, contract_storage_key a' k) =
  match (if decide (a' = a) then (list_to_map l : Slots) !! k else None) with Some v => Some v | None => m !! (CF_CONTRACT_STORAGE, contract_storage_key a' k) end.
Proof.
  intros Ha Ha'. revert m. induction l as [|[k0 v] l IH]; intros m Hnd.
  { rewrite list_to_map_nil. by destruct (decide (a' = a)); rewrite ?lookup_empty. }
  apply list.NoDup_cons in Hnd as [Hni Hnd]. rewrite list_to_map_cons. cbn [map foldl apply_op fst snd]. rewrite IH by done. destruct (decide (a' = a)) as [-> |Hne].
  - destruct (decide (k = k0)) as [-> |Hk].
    + rewrite !lookup_insert_eq. assert (Hnone : (list_to_map l : Slots) !! k0 = None) by (by apply not_elem_of_list_to_map_1). by rewrite Hnone.
    + rewrite (lookup_insert_ne (list_to_map l)) by congruence. destruct ((list_to_map l : Slots) !! k); [done|]. rewrite lookup_insert_ne; [done|].
      intros Heq. apply pair_equal_spec in Heq as [_ Heq]. apply storage_key_inj in Heq as [_ ?]; [congruence|done..].
  - rewrite lookup_insert_ne; [done|]. intros Heq. apply pair_equal_spec in Heq as [_ Heq]. apply storage_key_inj in Heq as [? _]; [congruence|done..].
Qed.

Lemma delete_slots (a : Address) (ds : list (list Z)) (m : Content) (a' : Address) (k : list Z) : hash_range a → hash_range a' →
  foldl apply_op m (map (λ k, Delete CF_CONTRACT_STORAGE (contract_storage_key a k)) ds) !! (CF_CONTRACT_STORAGE, contract_storage_key a' k) =
  if decide (a' = a ∧ k ∈ ds) then None else m !! (CF_CONTRACT_STORAGE, contract_storage_key a' k).
Proof.
  intros Ha Ha'. revert m. induction ds as [|k0 ds IH]; intros m; cbn [map foldl apply_op].
  { destruct (decide (a' = a ∧ k ∈ [])) as [[_ ?%elem_of_nil]|]; done. }
  rewrite IH. destruct (decide (a' = a ∧ k ∈ ds)) as [[-> Hk]|Hno]; [by rewrite decide_True by (split; [done|by right])|]. destruct (decide (a' = a ∧ k = k0)) as [[-> ->]|Hne].
  - rewrite lookup_delete_eq, decide_True; [done|]. split; [done|left].
  - rewrite lookup_delete_ne, decide_False; [done| |].
    + intros [-> [-> |?]%elem_of_cons]; [by apply Hne|by apply Hno].
    + intros Heq. apply pair_equal_spec in Heq as [_ Heq]. apply Hne. apply storage_key_inj in Heq as [-> ->]; done.
Qed.

Section Updates.
Context `{RocksLaws D}.
Implicit Types s : Storage D.

Definition projected_of (a : Address) (w : Slots) (ds : list (list Z)) s : Z :=
  projected_count (default 0 (contract_storage_counts s !! a)) (length (map_to_list w)) (length ds).

(** When an update succeeds, and what it then does. *)
Lemma update_spec a w ds s : check_entries (map_to_list w) = Ok () → projected_of a w ds s ≤ MAX_STORAGE_ENTRIES_PER_CONTRACT →
  ∃ s', update_contract_storage a w ds s = (Ok (), s') ∧
    content s' = <[(CF_METADATA, storage_count_key a) := le_bytes 8 (projected_of a w ds s)]> (foldl apply_op (content s) (storage_ops a (map_to_list w) ds)) ∧
    contract_storage_counts s' = <[a := projected_of a w ds s]> (contract_storage_counts s).
Proof.
  intros Hc Hp. unfold update_contract_storage, bindM, lift, gets, modify, fail_if. rewrite Hc. fold (projected_of a w ds s). rewrite (proj2 (Z.ltb_ge _ _)) by done.
  match goal with |- context [write ?ops ?s0] => destruct (write_spec ops s0) as (s1 & -> & Hc1 & Hn1 & _) end. unfold persist_storage_count.
  match goal with |- context [write ?ops ?s0] => destruct (write_spec ops s0) as (s2 & -> & Hc2 & Hn2 & _) end. exists s2. split; [done|].
  split; [rewrite Hc2; unfold content in *; cbn [set_counts db foldl apply_op] in *; by rewrite Hc1|]. rewrite Hn2. cbn [set_counts contract_storage_counts]. rewrite Hn1. cbn. by rewrite insert_insert_eq.
Qed.

Lemma update_fails a w ds s : check_entries (map_to_list w) ≠ Ok () ∨ MAX_STORAGE_ENTRIES_PER_CONTRACT < projected_of a w ds s →
  is_ok (update_contract_storage a w ds s).1 = false.
Proof.
  intros Hf. unfold update_contract_storage, bindM, lift, gets, modify, fail_if. destruct (check_entries (map_to_list w)) as [[]|e]; [|done]. fold (projected_of a w ds s).
  destruct Hf as [Hf|Hf]; [done|]. by rewrite (proj2 (Z.ltb_lt _ _)).
Qed.

(** C28. Contract storage is a map per contract: after a successful update the slots of the contract
    are the old ones with the writes over them and the deletes removed, the slots of every other
    contract are unchanged, and reading a whole contract returns exactly its slots. *)
Theorem contract_storage_correct a w ds s s' a' k : hash_range a → hash_range a' → update_contract_storage a w ds s = (Ok (), s') →
  get_contract_storage_value a' k s' = (if decide (a' = a) then if decide (k ∈ ds) then Ok None else match w !! k with Some v => Ok (Some v) | None => get_contract_storage_value a' k s end
                                        else get_contract_storage_value a' k s) ∧
  ∀ m, get_contract_storage a' s' = Ok m → get_contract_storage_value a' k s' = Ok (m !! k).
Proof.
  intros Ha Ha' Heq. unfold get_contract_storage_value, read_bytes. rewrite !db_get_view. fold (content s) (content s').
  split; [|intros m Hm; destruct (get_contract_storage_spec a' s' m Hm) as [-> _]; done].
  assert (Hdec : check_entries (map_to_list w) = Ok () ∨ check_entries (map_to_list w) ≠ Ok ()) by (destruct (check_entries _) as [[]|]; [by left|by right]).
  destruct Hdec as [Hc|Hc]; [|pose proof (update_fails a w ds s (or_introl Hc)) as Hf; by rewrite Heq in Hf].
  destruct (Z.le_gt_cases (projected_of a w ds s) MAX_STORAGE_ENTRIES_PER_CONTRACT) as [Hp|Hp]; [|pose proof (update_fails a w ds s (or_intror Hp)) as Hf; by rewrite Heq in Hf].
  destruct (update_spec a w ds s Hc Hp) as (s2 & Hs2 & Hcont & _). rewrite Heq in Hs2. injection Hs2 as <-. rewrite Hcont, lookup_insert_ne by done. unfold storage_ops.
  rewrite foldl_app, delete_slots, put_slots by (done || apply NoDup_fst_map_to_list). rewrite list_to_map_to_list. destruct (decide (a' = a)) as [-> |Hne].
  - destruct (decide (k ∈ ds)); [by rewrite decide_True|]. rewrite decide_False by tauto. by destruct (w !! k).
  - by rewrite decide_False by tauto.
Qed.

(** ** The limit on the entries of a contract *)

Definition slot_key (i : nat) : list Z := le_bytes 8 (Z.of_nat i).

(** Write a new slot and delete one that is not there. *)
Definition bypass_step (a : Address) s (i : nat) : Storage D := (update_contract_storage a {[slot_key i := [1]]} [[]] s).2.

(** The limit of 100000 entries per contract does not hold: the counter is changed by the number of
    writes less the number of deletes, whether or not the deleted slots exist, so any number of
    updates that add one slot each succeed with the counter at 0; past the limit the contract can
    no longer be read. *)
Theorem storage_limit_bypassed a s n : hash_range a → contract_storage_counts s !! a = None → Z.of_nat n < 2 ^ 64 → let s' := foldl (bypass_step a) s (seq 0 n) in
  default 0 (contract_storage_counts s' !! a) = 0 ∧ (∀ i, (i < n)%nat → get_contract_storage_value a (slot_key i) s' = Ok (Some [1])) ∧
  (MAX_STORAGE_ENTRIES_PER_CONTRACT < Z.of_nat n → is_ok (get_contract_storage a s') = false).
Proof.
  intros Ha Hn0 Hn s'. assert (Hinv : default 0 (contract_storage_counts s' !! a) = 0 ∧ ∀ i, (i < n)%nat → content s' !! (CF_CONTRACT_STORAGE, contract_storage_key a (slot_key i)) = Some [1]).
  { subst s'. clear Hn. induction n as [|n IH]; [cbn; rewrite Hn0; split; [done|intros; lia]|]. rewrite seq_S, foldl_app. cbn [foldl]. destruct IH as [IHc IHs]. rewrite Nat.add_0_l.
    set (s1 := foldl (bypass_step a) s (seq 0 n)) in *. clearbody s1. unfold bypass_step. assert (Hproj : projected_of a {[slot_key n := [1]]} [[]] s1 = 0).
    { unfold projected_of. by rewrite IHc, map_to_list_singleton. }
    destruct (update_spec a {[slot_key n := [1]]} [[]] s1) as (s2 & -> & Hc & Hcount); [by rewrite map_to_list_singleton|by rewrite Hproj|]. cbn [snd]. rewrite Hcount, lookup_insert_eq, Hproj. split; [done|].
    intros i Hi. rewrite Hc, lookup_insert_ne by done. unfold storage_ops. rewrite foldl_app, delete_slots, put_slots by (done || apply NoDup_fst_map_to_list).
    rewrite decide_False by (intros [_ Hk]; apply list_elem_of_singleton in Hk; by apply (f_equal length) in Hk; unfold slot_key in Hk; rewrite le_bytes_length in Hk).
    rewrite decide_True, list_to_map_to_list by done. destruct (decide (slot_key i = slot_key n)) as [-> |Hne]; [by rewrite lookup_singleton_eq|].
    rewrite lookup_singleton_ne by congruence. apply IHs. assert (i ≠ n) by (intros ->; done). lia. }
  destruct Hinv as [Hcount Hslots]. split_and!; [done| |].
  - intros i Hi. unfold get_contract_storage_value, read_bytes. rewrite db_get_view. fold (content s'). by rewrite Hslots.
  - intros Hbig. destruct (get_contract_storage a s') as [m|] eqn:Hm; [|done]. destruct (get_contract_storage_spec a s' m Hm) as [Hlook Hsize].
    assert (Hsub : (n ≤ size m)%nat); [|lia]. rewrite <- size_dom. transitivity (size (list_to_set (map slot_key (seq 0 n)) : gset (list Z))).
    + rewrite size_list_to_set; [by rewrite length_map, length_seq|]. apply NoDup_fmap_2_strong; [|apply NoDup_seq]. intros i j Hi Hj. apply elem_of_seq in Hi, Hj. intros Heq.
      apply Nat2Z.inj. apply (le_bytes_inj 8) in Heq; [done|change (256 ^ Z.of_nat 8) with (2 ^ 64); lia..].
    + apply subseteq_size. intros k Hk. apply elem_of_list_to_set, list_elem_of_fmap in Hk as (i & -> & Hi). apply elem_of_seq in Hi. apply elem_of_dom. exists [1]. rewrite Hlook. apply Hslots. lia.
Qed.
End Updates.

(** ** Pruning *)

(** What pruning before [before] may change. *)
Record pruned (before : Z) (m m' : Content) : Prop := {
  pr_other : ∀ cf k, cf ∉ [CF_VERTICES; CF_DAG_HEIGHTS; CF_STATE] → m' !! (cf, k) = m !! (cf, k);
  pr_roots : ∀ slot, u64_range slot → before ≤ slot → m' !! (CF_STATE, state_root_key slot) = m !! (CF_STATE, state_root_key slot);
  pr_heights : ∀ shard h, u16_range shard → u64_range h → before ≤ h → m' !! (CF_DAG_HEIGHTS, vertex_by_height_key shard h) = m !! (CF_DAG_HEIGHTS, vertex_by_height_key shard h);
  pr_index : ∀ k v, m' !! (CF_DAG_HEIGHTS, k) = Some v → m !! (CF_DAG_HEIGHTS, k) = Some v;
  pr_vertices : ∀ k, m' !! (CF_VERTICES, k) = m !! (CF_VERTICES, k) ∨
    ∃ shard h hash, u16_range shard ∧ u64_range h ∧ h < before ∧ m !! (CF_DAG_HEIGHTS, vertex_by_height_key shard h) = Some hash ∧ k = vertex_key (of_be_bytes hash)
}.

Lemma pruned_refl before m : pruned before m m.
Proof. split; try done. intros k. by left. Qed.

Lemma in_range_elem a b i : i ∈ range a b ↔ a ≤ i < b.
Proof.
  unfold range. rewrite list_elem_of_fmap. split.
  - intros (j & -> & Hj%elem_of_seq). lia.
  - intros Hi. exists (Z.to_nat (i - a)). split; [lia|]. apply elem_of_seq. lia.
Qed.

Lemma not_pruned_cf cf : cf ∉ [CF_VERTICES; CF_DAG_HEIGHTS; CF_STATE] → cf ≠ CF_VERTICES ∧ cf ≠ CF_DAG_HEIGHTS ∧ cf ≠ CF_STATE.
Proof. intros Hcf. split_and!; intros ->; apply Hcf; set_solver. Qed.

Section Pruning.
Context `{RocksLaws D}.
Implicit Types s : Storage D.

Lemma prune_height_inv before m shard h s n : 0 ≤ before ≤ u64_max → u16_range shard → 0 ≤ h < before → pruned before m (content s) → pruned before m (content (prune_height shard h (s, n)).2.1).
Proof.
  intros Hb Hsh Hh Hm. unfold prune_height. rewrite db_get_view. fold (content s). destruct (content s !! _) as [hash|] eqn:Hx; [|done]. destruct (negb _); [done|].
  destruct (write_spec [Delete CF_VERTICES (vertex_key (of_be_bytes hash))] s) as (s1 & -> & Hc1 & _).
  destruct (write_spec [Delete CF_DAG_HEIGHTS (vertex_by_height_key shard h)] s1) as (s2 & -> & Hc2 & _). cbn [fst snd]. rewrite Hc2, Hc1. cbn [foldl apply_op].
  destruct Hm as [Ho Hr Hi Hix Hv]. split.
  - intros cf k Hcf. destruct (not_pruned_cf cf Hcf) as (? & ? & ?). rewrite !lookup_delete_ne by congruence. by apply Ho.
  - intros slot Hs Hle. rewrite !lookup_delete_ne by done. by apply Hr.
  - intros shard' h' Hsh' Hh' Hle. rewrite lookup_delete_ne, lookup_delete_ne; [by apply Hi|done|]. intros Heq. apply pair_equal_spec in Heq as [_ Heq]. apply tagged_inj in Heq as [_ Heq].
    apply (be_prefix_inj 2 _ _ _ _ _ eq_refl) in Heq as [_ Heq]; [|done..]. apply (be_inj 8 _ _ _ eq_refl) in Heq; [lia| |done]. split; [lia|]. change (256 ^ Z.of_nat 8) with (u64_max + 1). lia.
  - intros k v Hk. apply Hix. apply lookup_delete_Some in Hk as [_ Hk]. by apply lookup_delete_Some in Hk as [_ Hk].
  - intros k. rewrite lookup_delete_ne by done. destruct (decide (k = vertex_key (of_be_bytes hash))) as [-> |Hne].
    + right. exists shard, h, hash. split; [done|]. split; [split; [lia|change (256 ^ 8) with (u64_max + 1); lia]|]. split; [lia|]. split; [by apply Hix|done].
    + rewrite lookup_delete_ne by congruence. apply Hv.
Qed.

Lemma prune_root_inv before m slot s : 0 ≤ before ≤ u64_max → 0 ≤ slot < before → pruned before m (content s) → pruned before m (content (write [Delete CF_STATE (state_root_key slot)] s).2).
Proof.
  intros Hb Hs Hm. destruct (write_spec [Delete CF_STATE (state_root_key slot)] s) as (s1 & -> & Hc1 & _). cbn [snd]. rewrite Hc1. cbn [foldl apply_op]. destruct Hm as [Ho Hr Hi Hix Hv]. split.
  - intros cf k Hcf. destruct (not_pruned_cf cf Hcf) as (? & ? & ?). rewrite lookup_delete_ne by congruence. by apply Ho.
  - intros slot' Hs' Hle. rewrite lookup_delete_ne; [by apply Hr|]. intros Heq. apply pair_equal_spec in Heq as [_ Heq]. apply tagged_inj in Heq as [_ Heq].
    apply (be_inj 8 _ _ _ eq_refl) in Heq; [lia| |done]. split; [lia|]. change (256 ^ Z.of_nat 8) with (u64_max + 1). lia.
  - intros. rewrite lookup_delete_ne by done. by apply Hi.
  - intros k v Hk. rewrite lookup_delete_ne in Hk by done. by apply Hix.
  - intros k. rewrite lookup_delete_ne by done. apply Hv.
Qed.

(** C29. Pruning only removes old data: whatever it is asked and however it ends, it keeps every entry of
    the other tables, every state root and height from [current_slot - keep_last_blocks] on, and
    removes a vertex only when the height index names it at a smaller height; without the token
    nothing changes. *)
Theorem prune_keeps_recent current_slot max_shards token s : 0 ≤ current_slot ≤ u64_max → 0 ≤ max_shards ≤ u16_max → 0 ≤ keep_last_blocks (pruning_config s) →
  let s' := (prune_old_data current_slot max_shards token s).2 in
  pruned (Z.max 0 (current_slot - keep_last_blocks (pruning_config s))) (content s) (content s') ∧ (token ≠ st_auth_token s → s' = s).
Proof.
  intros Hcur Hsh Hkeep s'. subst s'. unfold prune_old_data, verify_auth, bindM, gets, id, fail_if. destruct (Z.eqb_spec token (st_auth_token s)) as [-> |Hne]; cbn [negb]; [|split; [apply pruned_refl|done]].
  split; [|done]. destruct (Z.ltb_spec current_slot (keep_last_blocks (pruning_config s))) as [Hlt|Hge]; [apply pruned_refl|]. destruct (_ && _); [apply pruned_refl|].
  set (before := current_slot - keep_last_blocks (pruning_config s)). rewrite Z.max_r by (unfold before; lia). set (start := if MAX_HEIGHTS_PER_SHARD <? before then _ else 0).
  assert (Hstart : 0 ≤ start) by (unfold start, MAX_HEIGHTS_PER_SHARD; destruct (Z.ltb_spec 1000 before); lia). assert (Hb : 0 ≤ before ≤ u64_max) by (unfold before; lia). clearbody start before.
  set (loop := for_each (range 0 (Z.min max_shards MAX_SHARDS_TO_PRUNE)) _).
  assert (Hloop : pruned before (content s) (content (loop (s, 0)).2.1)).
  { apply (for_each_inv (λ p, pruned before (content s) (content p.1))); [|apply pruned_refl]. intros shard p Hshard Hp. apply in_range_elem in Hshard.
    apply (for_each_inv (λ p, pruned before (content s) (content p.1))); [|done]. intros h [s1 n] Hh Hp1. apply in_range_elem in Hh. apply prune_height_inv; [done| |lia|done].
    unfold u16_range, MAX_SHARDS_TO_PRUNE, u16_max in *. lia. }
  destruct (loop (s, 0)) as [r [s1 n]]. cbn [fst snd] in Hloop. destruct r as [[]|e]; [|done].
  assert (Hroots : pruned before (content s) (content (for_each (range start before) (λ slot, write [Delete CF_STATE (state_root_key slot)]) s1).2)).
  { apply (for_each_inv (λ s1, pruned before (content s) (content s1))); [|done]. intros slot s2 Hslot Hp. apply in_range_elem in Hslot. apply prune_root_inv; [done|lia|done]. }
  by destruct (for_each (range start before) _ s1) as [[[]|e] s2].
Qed.
End Pruning.

(** ** A database in memory *)

Lemma insert_by_perm {A} le (x : A) l : insert_by le x l ≡ₚ x :: l.
Proof. induction l as [|y l IH]; [done|]. cbn. destruct (le x y); [done|]. rewrite IH. apply Permutation_swap. Qed.

Lemma sort_by_perm {A} le (l : list A) : sort_by le l ≡ₚ l.
Proof. induction l as [|x l IH]; [done|]. cbn. by rewrite insert_by_perm, IH. Qed.

Lemma sort_by_sorted {A} (le : A → A → bool) (l : list A) : (∀ x y, le x y = true ∨ le y x = true) → (∀ x y z, le x y = true → le y z = true → le x z = true) →
  StronglySorted (λ x y, le x y = true) (sort_by le l).
Proof.
  intros Htot Htrans. induction l as [|x l IH]; [constructor|]. change (sort_by le (x :: l)) with (insert_by le x (sort_by le l)). revert IH. generalize (sort_by le l). clear l. induction l as [|y l IHl]; intros Hs; [by repeat constructor|]. cbn.
  apply StronglySorted_inv in Hs as [Hs Hy]. destruct (le x y) eqn:Hxy.
  - constructor; [by constructor|]. constructor; [done|]. eapply list.Forall_impl; [exact Hy|]. intros z Hz. by eapply Htrans.
  - constructor; [by apply IHl|]. rewrite insert_by_perm. constructor; [|done]. destruct (Htot x y); [congruence|done].
Qed.

Lemma key_leb_total k k' : key_leb k k' = true ∨ key_leb k' k = true.
Proof.
  revert k'. induction k as [|a k IH]; intros [|b k']; cbn; eauto. destruct (Z.lt_trichotomy a b) as [Hl|[-> |Hl]]; [left|destruct (IH k') as [Hi|Hi]; [left|right]|right]; 
    rewrite ?Z.eqb_refl, ?Hi, ?orb_true_r; try done; by rewrite (proj2 (Z.ltb_lt _ _)).
Qed.

Lemma key_leb_trans k k' k'' : key_leb k k' = true → key_leb k' k'' = true → key_leb k k'' = true.
Proof.
  revert k' k''. induction k as [|a k IH]; intros [|b k'] [|c k'']; cbn; try done. rewrite !orb_true_iff, !andb_true_iff, !Z.ltb_lt, !Z.eqb_eq.
  intros [?|[-> ?]] [?|[-> ?]]; [left; lia|left; lia|left; lia|right; split; [done|by eapply IH]].
Qed.

Definition entries_from (cf : string) (from : list Z) (m : Content) : list (list Z * list Z) :=
  filter (λ e, key_leb from e.1 = true) (omap (λ '((c, k), v), if decide (c = cf) then Some (k, v) else None) (map_to_list m)).

#[export] Instance memory_db : Rocks Content := {
  db_get cf k m := Ok (m !! (cf, k));
  db_write ops m := (Ok (), foldl apply_op m ops);
  db_iter cf from m := map Ok (sort_by (λ a b, key_leb a.1 b.1) (entries_from cf from m))
}.

Lemma entries_elem cf from m k v : (k, v) ∈ entries_from cf from m ↔ m !! (cf, k) = Some v ∧ key_leb from k = true.
Proof.
  unfold entries_from. rewrite list_elem_of_filter. cbn [fst]. rewrite (and_comm (m !! _ = _)). apply and_iff_compat_l. rewrite list_elem_of_omap. split.
  - intros ([[c k'] v'] & He & Heq). destruct (decide (c = cf)) as [-> |]; [|done]. injection Heq as -> ->. by apply elem_of_map_to_list.
  - intros Hk. exists ((cf, k), v). rewrite decide_True by done. by apply elem_of_map_to_list in Hk.
Qed.

Lemma omap_keys_nodup cf (l : list ((string * list Z) * list Z)) : NoDup l.*1 → NoDup (omap (λ '((c, k), v), if decide (c = cf) then Some (k, v) else None) l).*1.
Proof.
  induction l as [|[[c k] v] l IH]; intros Hnd; [constructor|]. cbn [fmap list_fmap fst] in Hnd. apply list.NoDup_cons in Hnd as [Hni Hnd]. cbn [omap list_omap]. destruct (decide (c = cf)) as [-> |]; [|by apply IH].
  cbn. constructor; [|by apply IH]. intros Hin. apply Hni. apply list_elem_of_fmap in Hin as ([k' v'] & -> & Hin). apply list_elem_of_omap in Hin as ([[c' k''] v''] & Hin & Heq).
  destruct (decide (c' = cf)) as [-> |]; [|done]. injection Heq as -> ->. apply list_elem_of_fmap. by exists ((cf, k'), v').
Qed.

#[export] Instance memory_db_laws : RocksLaws Content.
Proof.
  refine {| db_view m := m |}; [done..|]. intros cf from m. exists (sort_by (λ a b, key_leb a.1 b.1) (entries_from cf from m)). split; [done|].
  assert (Hs : StronglySorted (λ x y, key_leb x.1 y.1 = true) (sort_by (λ a b, key_leb a.1 b.1) (entries_from cf from m)))
    by (apply sort_by_sorted; [intros; apply key_leb_total|intros x y z; apply key_leb_trans]).
  split_and!; [| |intros k v; by rewrite sort_by_perm, entries_elem].
  - clear -Hs. induction Hs as [|x l _ IH Hx]; [constructor|]. cbn. constructor; [done|]. by apply list.Forall_fmap.
  - rewrite sort_by_perm. unfold entries_from. eapply sublist_NoDup; [apply (omap_keys_nodup cf (map_to_list m)), NoDup_fst_map_to_list|].
    generalize (omap (λ '((c, k), v), if decide (c = cf) then Some (k, v) else None) (map_to_list m)). induction l as [|e l IH]; [done|]. rewrite list.filter_cons.
    destruct (decide _); cbn; by constructor.
Defined.

Module StorageDemo.
(** A value with a [Countable] instance is stored as the number of its encoding. *)
Definition counted {A} `{Countable A} : Codec A := {|
  serialize a := Ok [Z.pos (encode a)];
  deserialize b := match b with [Z.pos p] => match decode p with Some a => Ok a | None => Err "decode" end | _ => Err "decode" end
|}.
#[local] Instance counted_laws {A} `{Countable A} : @CodecLaws A counted.
Proof. split. intros a b [= <-]. cbn. by rewrite countable.decode_encode. Qed.

#[local] Instance account_countable : Countable Account :=
  inj_countable' (λ '(mkAccount a b n c r s v), (a, b, n, c, r, s, v)) (λ '(a, b, n, c, r, s, v), mkAccount a b n c r s v) ltac:(by intros []).
#[local] Instance type_countable : Countable TransactionType :=
  inj_countable type_byte (λ z, nth_error [Transfer; Stake; Unstake; StakeTransfer; ValidatorRegister; ValidatorExit; ContractCall; ContractDeploy] (Z.to_nat z)) ltac:(by intros []).
#[local] Instance vm_countable : Countable VmKind := inj_countable' (λ k, bool_decide (k = Evm)) (λ b : bool, if b then Evm else Qvm) ltac:(by intros []).
#[local] Instance boost_eq_dec : EqDecision PriorityBoost.
Proof. solve_decision. Defined.
#[local] Instance boost_countable : Countable PriorityBoost := inj_countable' (λ '(mkBoost a b), (a, b)) (λ '(a, b), mkBoost a b) ltac:(by intros []).
#[local] Instance transaction_eq_dec : EqDecision Transaction.
Proof. solve_decision. Defined.
#[local] Instance transaction_countable : Countable Transaction :=
  inj_countable' (λ '(mkTransaction a b c d e f g h i j k l m n), (a, (b, c, d, e), (f, g, h), i, (j, k), l, m, n))
    (λ '(a, (b, c, d, e), (f, g, h), i, (j, k), l, m, n), mkTransaction a b c d e f g h i j k l m n) ltac:(by intros []).
#[local] Instance signed_eq_dec : EqDecision SignedTransaction.
Proof. solve_decision. Defined.
#[local] Instance signed_countable : Countable SignedTransaction := inj_countable' (λ '(mkSigned a b c), (a, b, c)) (λ '(a, b, c), mkSigned a b c) ltac:(by intros []).
#[local] Instance status_countable : Countable VertexStatus :=
  inj_countable (λ s, match s with VPending => 0 | VPreConfirmed => 1 | VConfirmed => 2 | VFinalized => 3 | VOrphaned => 4 end)
    (λ z, nth_error [VPending; VPreConfirmed; VConfirmed; VFinalized; VOrphaned] (Z.to_nat z)) ltac:(by intros []).
#[local] Instance vote_eq_dec : EqDecision CommitteeVote.
Proof. solve_decision. Defined.
#[local] Instance vote_countable : Countable CommitteeVote :=
  inj_countable' (λ '(mkVote a b c d e f), (a, b, c, d, e, f)) (λ '(a, b, c, d, e, f), mkVote a b c d e f) ltac:(by intros []).
#[local] Instance vertex_eq_dec : EqDecision DAGVertex.
Proof. solve_decision. Defined.
#[local] Instance vertex_countable : Countable DAGVertex :=
  inj_countable' (λ '(mkVertex a b c d e f g h i j k l), (a, (b, c), (d, e, f), g, (h, i, j), k, l))
    (λ '(a, (b, c), (d, e, f), g, (h, i, j), k, l), mkVertex a b c d e f g h i j k l) ltac:(by intros []).
#[local] Instance checkpoint_eq_dec : EqDecision Checkpoint.
Proof. solve_decision. Defined.
#[local] Instance checkpoint_countable : Countable Checkpoint :=
  inj_countable' (λ '(mkCheckpoint a b c d e f g h i j), (a, b, c, d, (e, f), g, h, i, j)) (λ '(a, b, c, d, (e, f), g, h, i, j), mkCheckpoint a b c d e f g h i j) ltac:(by intros []).
#[local] Instance validator_eq_dec' : EqDecision Validator.
Proof. solve_decision. Defined.
#[local] Instance validator_countable : Countable Validator :=
  inj_countable' (λ '(mkValidator a b c d e f g h i j), (a, b, c, d, (e, f), g, h, i, j)) (λ '(a, b, c, d, (e, f), g, h, i, j), mkValidator a b c d e f g h i j) ltac:(by intros []).
#[local] Instance set_eq_dec : EqDecision ValidatorSet.
Proof. solve_decision. Defined.
#[local] Instance set_countable : Countable ValidatorSet := inj_countable' (λ '(mkValidatorSet a b c), (a, b, c)) (λ '(a, b, c), mkValidatorSet a b c) ltac:(by intros []).

(** Statuses: the messages of failures are strings and byte lists. *)
#[local] Instance verror_eq_dec : EqDecision ValidatorError.
Proof. solve_decision. Defined.
Definition verrors : list ValidatorError :=
  [InvalidVrfKeySize; ZeroVrfKey; SlashTooLarge; CommissionTooLarge; ValidatorSetFull; ValidatorExists; TotalStakeOverflow; ValidatorNotFound; ZeroStake; StakeTooLarge].
#[local] Instance verror_countable : Countable ValidatorError.
Proof. by refine (inj_countable (λ e, default 0%nat (fst <$> list_find (λ x, x = e) verrors)) (λ n, nth_error verrors n) _); intros []. Defined.
#[local] Instance exec_eq_dec : EqDecision ExecFailure.
Proof. solve_decision. Defined.
Definition exec_tag (e : ExecFailure) : Z * string * list Z * option ValidatorError :=
  match e with
  | NoContractManager => (0, "", [], None) | NoEvmEngine => (1, "", [], None) | InvalidDeployPayload => (2, "", [], None) | EmptyBytecode => (3, "", [], None)
  | DeployFailed e => (4, e, [], None) | CallFailed e => (5, e, [], None) | CallReverted d => (6, "", d, None) | EvmDeployFailed e => (7, e, [], None)
  | EvmMissingAddress => (8, "", [], None) | EvmCallFailed e => (9, e, [], None) | NeedVrfKey => (10, "", [], None) | RegistrationFailed e => (11, "", [], Some e)
  | NoStakeToRemove => (12, "", [], None) | TransactionPanicked => (13, "", [], None)
  end.
Definition exec_of_tag (t : Z * string * list Z * option ValidatorError) : option ExecFailure :=
  let '(n, e, d, v) := t in
  nth_error [NoContractManager; NoEvmEngine; InvalidDeployPayload; EmptyBytecode; DeployFailed e; CallFailed e; CallReverted d; EvmDeployFailed e; EvmMissingAddress;
    EvmCallFailed e; NeedVrfKey; RegistrationFailed (default ZeroStake v); NoStakeToRemove; TransactionPanicked] (Z.to_nat n).
#[local] Instance exec_countable : Countable ExecFailure := inj_countable exec_tag exec_of_tag ltac:(by intros []).
#[local] Instance state_error_eq_dec : EqDecision StateError.
Proof. solve_decision. Defined.
Definition error_tag (e : StateError) : Z * string * (Z * Z) * option ExecFailure :=
  match e with
  | AccountNotFound e => (0, e, (0, 0), None) | InsufficientBalance => (1, "", (0, 0), None) | InvalidNonce a b => (2, "", (a, b), None) | InvalidSignature => (3, "", (0, 0), None)
  | State.StorageError e => (4, e, (0, 0), None) | ExecutionError e => (5, "", (0, 0), Some e) | State.Unauthorized => (6, "", (0, 0), None) | InvalidAmount => (7, "", (0, 0), None)
  | ArithmeticOverflow => (8, "", (0, 0), None)
  end.
Definition error_of_tag (t : Z * string * (Z * Z) * option ExecFailure) : option StateError :=
  let '(n, e, p, x) := t in
  nth_error [AccountNotFound e; InsufficientBalance; InvalidNonce p.1 p.2; InvalidSignature; State.StorageError e; ExecutionError (default NeedVrfKey x); State.Unauthorized; InvalidAmount;
    ArithmeticOverflow] (Z.to_nat n).
#[local] Instance state_error_countable : Countable StateError := inj_countable error_tag error_of_tag ltac:(by intros []).
#[local] Instance tx_status_eq_dec : EqDecision (TransactionStatus StateError).
Proof. solve_decision. Defined.
#[local] Instance tx_status_countable : Countable (TransactionStatus StateError) :=
  inj_countable (λ s, match s with Pending => (0, None) | Included => (1, None) | PreConfirmed => (2, None) | Finalized => (3, None) | Failed e => (4, Some e) end)
    (λ '(n, e), nth_error [Pending; Included; PreConfirmed; Finalized; Failed (default InvalidAmount e)] (Z.to_nat n)) ltac:(by intros []).
#[local] Instance log_eq_dec : EqDecision Log.
Proof. solve_decision. Defined.
#[local] Instance log_countable : Countable Log := inj_countable' (λ '(mkLog a b c), (a, b, c)) (λ '(a, b, c), mkLog a b c) ltac:(by intros []).
#[local] Instance receipt_eq_dec : EqDecision TransactionReceipt.
Proof. solve_decision. Defined.
#[local] Instance receipt_countable : Countable TransactionReceipt :=
  inj_countable' (λ '(mkReceipt a b c d e f g h i j), (a, b, c, d, (e, f), g, h, i, j)) (λ '(a, b, c, d, (e, f), g, h, i, j), mkReceipt a b c d e f g h i j) ltac:(by intros []).

#[local] Instance account_codec : Codec Account := counted.
#[local] Instance vertex_codec : Codec DAGVertex := counted.
#[local] Instance transaction_codec : Codec SignedTransaction := counted.
#[local] Instance receipt_codec : Codec TransactionReceipt := counted.
#[local] Instance checkpoint_codec : Codec Checkpoint := counted.
#[local] Instance validator_codec : Codec Validator := counted.
#[local] Instance set_codec : Codec ValidatorSet := counted.
#[local] Instance hashes_codec : Codec (list Hash) := counted.

Definition empty_storage : Storage Content := new_storage ∅ 42.
Definition account (a b : Z) : Account := mkAccount a b 0 None 0 0 false.
Definition transfer (h : Hash) : SignedTransaction := mkSigned (mkTransaction Transfer 1 2 30 0 0 (Some (mkBoost 1 2)) Evm [7] 0 9 [] [] 1) h 100.
Definition receipt (h : Hash) (st : TransactionStatus StateError) : TransactionReceipt := mkReceipt h st 5 6 0 [mkLog 1 [2] [3]] 7 1 2 true.
Definition vertex (h : Hash) : DAGVertex := mkVertex h [1] [transfer 50] 2 3 4 [] 5 6 VConfirmed [mkVote 1 h true 5 [] 0] 9.
Definition checkpoint (e s : Z) : Checkpoint := mkCheckpoint e s 1 2 3 4 [5] [] 6 7.
Definition validator (a : Address) : Validator := mkValidator a [1] [2] 1000 0 true false 0 0 [].
Definition history : list TableOp :=
  [OpAccount (account 1 10); OpAccounts [account 2 20; account 1 11; account 3 30]; OpAccount (account 3 31); OpVertex (vertex 70); OpTransaction (transfer 80);
   OpReceipt (receipt 80 Included); OpTransactions [transfer 81]; OpReceipts [receipt 81 Pending]; OpFinalized [receipt 80 (Failed (InvalidNonce 3 4))] [transfer 82]; OpCheckpoint (checkpoint 1 32);
   OpCheckpoint (checkpoint 2 64); OpValidator (validator 1); OpSet 2 (mkValidatorSet [validator 1] 1000 2); OpTips 3 [7; 8]; OpRoot 32 500; OpTips 3 [9]; OpRoot 33 501; OpRoot 32 502;
   OpContract 1 {[ [5] := [6] ]} []].

(** Applied to a history that writes every table. *)
Lemma storage_refines_tables_witness :
  let s' := run_tables (λ _, 0) history empty_storage in
  get_account 1 s' = Ok (Some (account 1 11)) ∧ get_account 3 s' = Ok (Some (account 3 31)) ∧ get_account 4 s' = Ok None ∧ st_get_validator 1 s' = Ok (Some (validator 1)) ∧
  st_get_vertex 70 s' = Ok (Some (vertex 70)) ∧ get_transaction 81 s' = Ok (Some (transfer 81)) ∧ get_receipt 80 s' = Ok (Some (receipt 80 (Failed (InvalidNonce 3 4)))) ∧
  st_get_checkpoint 1 32 s' = Ok (Some (checkpoint 1 32)) ∧ get_latest_checkpoint s' = Ok (Some (checkpoint 2 64)) ∧ get_dag_tips 3 s' = Ok [9] ∧
  get_state_root 32 s' = Ok (Some 502) ∧ get_state_root 33 s' = Ok (Some 501) ∧ get_state_root 34 s' = Ok None.
Proof.
  assert (Hr : ∀ z, 0 ≤ z < 100 → hash_range z) by (intros z Hz; split; [lia|]; apply (Z.lt_trans _ 100); [lia|by vm_compute]).
  assert (Hu : ∀ z, 0 ≤ z < 100 → u64_range z) by (intros z Hz; split; [lia|]; apply (Z.lt_trans _ 100); [lia|by vm_compute]).
  assert (Hops : Forall op_ok history).
  { unfold history. repeat (apply list.Forall_cons_2 || apply list.Forall_nil_2); cbn [op_ok]; unfold u16_range, u64_range, hash_range;
      repeat first [split | apply list.Forall_cons_2 | apply list.Forall_nil_2]; first [reflexivity | vm_compute; congruence]. }
  destruct (storage_refines_tables (λ _, 0) history empty_storage ltac:(by vm_compute) Hops) as (Ha & Hh & Hc & Hl & _ & Ht & Hs).
  cbv zeta. split_and!;
    [rewrite (proj1 (Ha 1 (Hr 1 ltac:(lia))))|rewrite (proj1 (Ha 3 (Hr 3 ltac:(lia))))|rewrite (proj1 (Ha 4 (Hr 4 ltac:(lia))))|rewrite (proj2 (Ha 1 (Hr 1 ltac:(lia))))
    |rewrite (proj1 (Hh 70 (Hr 70 ltac:(lia))))|rewrite (proj1 (proj2 (Hh 81 (Hr 81 ltac:(lia)))))|rewrite (proj2 (proj2 (Hh 80 (Hr 80 ltac:(lia)))))
    |rewrite (Hc 1 32 (Hu 1 ltac:(lia)) (Hu 32 ltac:(lia)))|rewrite Hl|rewrite (Ht 3)|rewrite (Hs 32 (Hu 32 ltac:(lia)))|rewrite (Hs 33 (Hu 33 ltac:(lia)))|rewrite (Hs 34 (Hu 34 ltac:(lia)))];
    first [reflexivity | vm_compute; reflexivity | vm_compute; split; congruence].
Defined.

(** Applied to two accounts. *)
Lemma storage_keys_injective_witness : KAccount 7 = KAccount (3 + 4).
Proof. apply (storage_keys_injective (KAccount 7) (KAccount (3 + 4))); [vm_compute; split; congruence..|reflexivity]. Defined.

Definition one_write : Storage Content := (update_contract_storage 7 {[ [1; 2] := [9] ]} [] empty_storage).2.

(** Applied to one slot written to contract 7. *)
Lemma contract_storage_correct_witness : get_contract_storage_value 7 [1; 2] one_write = Ok (Some [9]) ∧ get_contract_storage_value 8 [1; 2] one_write = get_contract_storage_value 8 [1; 2] empty_storage.
Proof.
  assert (Hr : ∀ z, 0 ≤ z < 100 → hash_range z) by (intros z Hz; split; [lia|]; apply (Z.lt_trans _ 100); [lia|by vm_compute]).
  assert (Hu : update_contract_storage 7 {[ [1; 2] := [9] ]} [] empty_storage = (Ok (), one_write)).
  { destruct (update_spec 7 {[ [1; 2] := [9] ]} [] empty_storage) as (s' & Heq & _); [by rewrite map_to_list_singleton|unfold projected_of; rewrite map_to_list_singleton; by vm_compute|].
    unfold one_write. by rewrite Heq. }
  destruct (contract_storage_correct 7 _ _ _ _ 7 [1; 2] (Hr 7 ltac:(lia)) (Hr 7 ltac:(lia)) Hu) as [H7 _].
  destruct (contract_storage_correct 7 _ _ _ _ 8 [1; 2] (Hr 7 ltac:(lia)) (Hr 8 ltac:(lia)) Hu) as [H8 _].
  split; [rewrite H7|rewrite H8]; [|done]. rewrite decide_True, decide_False by (done || apply not_elem_of_nil). by rewrite lookup_singleton_eq.
Defined.

(** Applied to 100001 updates. *)
Lemma storage_limit_bypassed_witness : is_ok (get_contract_storage 7 (foldl (bypass_step 7) empty_storage (seq 0 (Z.to_nat 100001)))) = false.
Proof.
  assert (Hr : hash_range 7) by (vm_compute; split; congruence). assert (Hn : Z.of_nat (Z.to_nat 100001) = 100001) by (by rewrite Z2Nat.id).
  apply (storage_limit_bypassed 7 empty_storage (Z.to_nat 100001) Hr eq_refl); rewrite Hn; by vm_compute.
Defined.

(** Vertices at heights 3 and 12 and state roots of slots 3 and 12; with 100000 slots kept, pruning at
    slot 100010 ends below slot 10. *)
Definition filled : Storage Content :=
  (write [Put CF_VERTICES (vertex_key 70) [1]; Put CF_DAG_HEIGHTS (vertex_by_height_key 0 3) (hash_bytes 70);
          Put CF_VERTICES (vertex_key 71) [2]; Put CF_DAG_HEIGHTS (vertex_by_height_key 0 12) (hash_bytes 71);
          Put CF_STATE (state_root_key 3) (hash_bytes 5); Put CF_STATE (state_root_key 12) (hash_bytes 6); Put CF_ACCOUNTS (account_key 1) [9]] empty_storage).2.

(** Applied to the filled storage, where the old vertex and root go and the others stay. *)
Lemma prune_keeps_recent_witness :
  let s' := (prune_old_data 100010 1 42 filled).2 in
  pruned 10 (content filled) (content s') ∧
  content s' !! (CF_VERTICES, vertex_key 70) = None ∧ content s' !! (CF_VERTICES, vertex_key 71) = Some [2] ∧
  content s' !! (CF_STATE, state_root_key 3) = None ∧ content s' !! (CF_STATE, state_root_key 12) = Some (hash_bytes 6) ∧
  content s' !! (CF_ACCOUNTS, account_key 1) = Some [9].
Proof.
  intros s'. split; [|split_and!; vm_compute; reflexivity].
  apply (prune_keeps_recent 100010 1 42 filled); vm_compute; (split; congruence) || congruence.
Defined.
End StorageDemo.
