(* ===== verification/Genesis.v ===== *)
(** * Genesis

    Models [src/L1/src/genesis/mod.rs]: the configuration of a network, its validation, hash and
    supply, the built-in networks, and the builder that derives the initial balances and
    validators.  The crates [hex] and [serde_json] and key generation are arguments; the JSON
    value of a configuration is written out as its derived serialization makes it.  Reading and
    writing files is left out apart from the path check. *)

From stdpp Require Import sorting.
From S2P Require Import Prelude Bytes Validators Chains Storage.

Definition MAX_COMMISSION_BPS : Z := 10000.

Inductive NetworkId : Type := Mainnet | Testnet | Devnet | Custom (id : Z).

Definition chain_id (n : NetworkId) : Z := match n with Mainnet => 1 | Testnet => 2 | Devnet => 3 | Custom id => id end.
Definition from_chain_id (id : Z) : NetworkId := if id =? 1 then Mainnet else if id =? 2 then Testnet else if id =? 3 then Devnet else Custom id.
Definition network_name (n : NetworkId) : string := match n with Mainnet => "mainnet" | Testnet => "testnet" | Devnet => "devnet" | Custom _ => "custom" end.

Record GenesisValidator : Type := mkGenesisValidator {
  gv_address : string;
  gv_public_key : string;
  gv_stake : Z;
  gv_name : option string;
  gv_commission_bps : Z
}.

Record VestingSchedule : Type := mkVesting { start_time : Z; cliff_seconds : Z; duration_seconds : Z; initial_unlock_percent : Z }.

Record GenesisAllocation : Type := mkAllocation {
  ga_address : string;
  ga_balance : Z;
  ga_vesting : option VestingSchedule;
  ga_label : option string
}.

Record ChainConfig : Type := mkChain {
  cc_chain_id : Z;
  block_time_ms : Z;
  max_tx_per_block : Z;
  max_block_size : Z;
  max_cu_per_tx : Z;
  block_cu_limit : Z;
  min_validator_stake : Z;
  max_validators_per_committee : Z;
  initial_shards : Z;
  epoch_length : Z;
  double_sign_slash_bps : Z;
  downtime_slash_bps : Z;
  unbonding_period_seconds : Z;
  dynamic_sharding : bool;
  min_shards : Z;
  max_shards : Z
}.

Definition default_chain : ChainConfig :=
  mkChain 2 200 10000 10485760 100000000 30000000 (100000 * 10 ^ 18) 21 4 32 500 100 604800 true 1 10000.

Record SystemContract : Type := mkSystemContract { sc_name : string; sc_address : string; sc_bytecode : string; sc_storage : list (string * string) }.

Record GenesisConfig : Type := mkGenesis {
  network : NetworkId;
  genesis_time : Z;
  chain : ChainConfig;
  gc_validators : list GenesisValidator;
  allocations : list GenesisAllocation;
  system_contracts : list SystemContract;
  extra_data : option string
}.

Inductive GenesisError : Type := IoError (e : string) | ParseError (e : string) | ValidationError (e : string).

Definition TESTNET : Z := 1769904000.
Definition DEVNET : Z := 1767225600.
Definition MAINNET : Z := 0.

(** The components of a path; [".."] is refused. *)
Definition validate_path (components : list string) : Result () GenesisError :=
  if existsb (String.eqb "..") components then Err (IoError "Path traversal sequences ('..') are not allowed") else Ok ().

(** ** Validation *)

Definition check_validator (c : ChainConfig) (v : GenesisValidator) : Result () GenesisError :=
  if gv_stake v <? min_validator_stake c then Err (ValidationError "stake is below minimum")
  else if MAX_COMMISSION_BPS <? gv_commission_bps v then Err (ValidationError "commission exceeds maximum")
  else Ok ().

Definition check_allocation (a : GenesisAllocation) : Result () GenesisError :=
  if negb (String.length (ga_address a) =? 64)%nat then Err (ValidationError "Invalid address length for allocation")
  else match ga_vesting a with
       | Some v => if 100 <? initial_unlock_percent v then Err (ValidationError "initial_unlock_percent > 100") else Ok ()
       | None => Ok ()
       end.

Fixpoint check_all {A} (check : A → Result () GenesisError) (l : list A) : Result () GenesisError :=
  match l with [] => Ok () | x :: l' => match check x with Ok _ => check_all check l' | Err e => Err e end end.

Definition and_then {A B} (r : Result A GenesisError) (k : A → Result B GenesisError) : Result B GenesisError := match r with Ok a => k a | Err e => Err e end.

Definition validate_genesis (c : GenesisConfig) : Result () GenesisError :=
  if match gc_validators c with [] => true | _ => false end then Err (ValidationError "Genesis must have at least one validator")
  else if max_validators_per_committee (chain c) <? Z.of_nat (length (gc_validators c)) then Err (ValidationError "too many validators")
  else and_then (check_all (check_validator (chain c)) (gc_validators c)) (λ _,
       and_then (check_all check_allocation (allocations c)) (λ _,
       if negb (cc_chain_id (chain c) =? chain_id (network c)) then Err (ValidationError "Chain ID doesn't match network") else Ok ())).

(** ** Supply *)

Fixpoint checked_total (l : list Z) (acc : Z) : option Z :=
  match l with [] => Some acc | x :: l' => acc ← checked_add u128_max acc x; checked_total l' acc end.

Definition total_supply_of (c : GenesisConfig) : Result Z GenesisError :=
  and_then (ok_or (checked_total (map ga_balance (allocations c)) 0) (ValidationError "Overflow in allocation total supply calculation")) (λ a,
  and_then (ok_or (checked_total (map gv_stake (gc_validators c)) 0) (ValidationError "Overflow in validator total supply calculation")) (λ v,
  ok_or (checked_add u128_max a v) (ValidationError "Overflow in combined total supply calculation"))).

Section Genesis.
Context (hash_data : list Z → Hash) (hex_encode : list Z → string) (hex_decode : string → Result (list Z) string).

Definition parse_address (s : string) : Result Address GenesisError :=
  match hex_decode s with
  | Err e => Err (ParseError e)
  | Ok bytes => if negb (length bytes =? 32)%nat then Err (ParseError "Invalid address length") else Ok (of_be_bytes bytes)
  end.

Definition derive_allocation_address (id : Z) (label : string) : Hash :=
  hash_data (ascii_bytes "quantos:" ++ le_bytes 8 id ++ ascii_bytes ":" ++ ascii_bytes label).

(** ** The initial state *)

Definition parsed {A} (f : A → string) (g : A → Z) (l : list A) : list (Address * Z) :=
  omap (λ x, match parse_address (f x) with Ok a => Some (a, g x) | Err _ => None end) l.

Definition get_initial_balances (c : GenesisConfig) : list (Address * Z) :=
  parsed ga_address ga_balance (allocations c) ++ parsed gv_address gv_stake (gc_validators c).

Definition get_validators (c : GenesisConfig) : list (Address * list Z * Z) :=
  omap (λ v, match parse_address (gv_address v), hex_decode (gv_public_key v) with
             | Ok a, Ok k => Some (a, k, gv_stake v) | _, _ => None end) (gc_validators c).

Definition build (c : GenesisConfig) : Result GenesisConfig GenesisError := and_then (validate_genesis c) (λ _, Ok c).

(** ** Built-in networks; [keys] are the generated public keys with their addresses. *)

Definition genesis_validator (commission : Z) (p : Address * list Z * string) : GenesisValidator :=
  mkGenesisValidator (hex_encode (hash_bytes p.1.1)) (hex_encode p.1.2) (1000000 * 10 ^ 18) (Some p.2) commission.

Definition testnet (version : string) (k1 k2 k3 k4 : Address * list Z) : GenesisConfig :=
  let allocation label balance vesting name := mkAllocation (hex_encode (hash_bytes (derive_allocation_address 2 label))) balance vesting (Some name) in
  mkGenesis Testnet TESTNET
    (mkChain 2 200 (max_tx_per_block default_chain) (max_block_size default_chain) (max_cu_per_tx default_chain) (block_cu_limit default_chain) (10000 * 10 ^ 18)
      (max_validators_per_committee default_chain) 4 (epoch_length default_chain) (double_sign_slash_bps default_chain) (downtime_slash_bps default_chain)
      (unbonding_period_seconds default_chain) true 1 10000)
    (map (genesis_validator 500) [(k1, "Testnet Validator 1"); (k2, "Testnet Validator 2"); (k3, "Testnet Validator 3"); (k4, "Testnet Validator 4")]%string)
    [allocation "foundation" (100000000 * 10 ^ 18) None "Foundation"; allocation "community" (50000000 * 10 ^ 18) None "Community Pool";
     allocation "dev-fund" (25000000 * 10 ^ 18) (Some (mkVesting TESTNET 7776000 63072000 10)) "Development Fund"]%string
    [] (Some (String.append "Quantos Testnet Genesis v" version)).

Definition devnet (k : Address * list Z) : GenesisConfig :=
  mkGenesis Devnet DEVNET
    (mkChain 3 200 (max_tx_per_block default_chain) (max_block_size default_chain) (max_cu_per_tx default_chain) (block_cu_limit default_chain) (1000 * 10 ^ 18)
      (max_validators_per_committee default_chain) 2 16 (double_sign_slash_bps default_chain) (downtime_slash_bps default_chain) 300 true 1 1000)
    [genesis_validator 0 (k, "Devnet Validator"%string)] [] [] (Some "Quantos Devnet"%string).

(** ** The genesis hash *)

Inductive Json : Type := JNull | JBool (b : bool) | JNumber (n : Z) | JString (s : string) | JArray (l : list Json) | JObject (l : list (string * Json)).

(** [serde_json::to_string] of a leaf and of a key, and the JSON number of a [u128], if there is one. *)
Context (leaf_string : Json → string) (key_string : string → string) (json_u128 : Z → option Json).

Fixpoint join (sep : string) (l : list string) : string :=
  match l with [] => "" | [x] => x | x :: l' => String.append x (String.append sep (join sep l')) end.

Definition key_le (a b : string * string) : bool := key_leb (ascii_bytes a.1) (ascii_bytes b.1).

Fixpoint canonical_json (v : Json) : string :=
  match v with
  | JObject l =>
      let entries := sort_by key_le ((fix go (l : list (string * Json)) := match l with [] => [] | (k, x) :: l' => (k, canonical_json x) :: go l' end) l) in
      String.append "{" (String.append (join "," (map (λ e, String.append (key_string e.1) (String.append ":" e.2)) entries)) "}")
  | JArray l => String.append "[" (String.append (join "," ((fix go (l : list Json) := match l with [] => [] | x :: l' => canonical_json x :: go l' end) l)) "]")
  | _ => leaf_string v
  end.

Definition json_option {A} (f : A → option Json) (o : option A) : option Json := match o with Some a => f a | None => Some JNull end.
Definition json_list {A} (f : A → option Json) (l : list A) : option Json := JArray <$> mapM f l.
Definition json_string (s : string) : option Json := Some (JString s).
Definition json_u64 (n : Z) : option Json := Some (JNumber n).

(** The fields of a struct; one that fails makes the whole fail. *)
Definition json_struct (fields : list (string * option Json)) : option Json := JObject <$> mapM (λ f, j ← f.2; Some (f.1, j)) fields.

Definition network_json (n : NetworkId) : option Json :=
  match n with Custom id => Some (JObject [("custom"%string, JNumber id)]) | n => Some (JString (network_name n)) end.

Definition chain_json (c : ChainConfig) : option Json := json_struct [
  ("chain_id", json_u64 (cc_chain_id c)); ("block_time_ms", json_u64 (block_time_ms c)); ("max_tx_per_block", json_u64 (max_tx_per_block c));
  ("max_block_size", json_u64 (max_block_size c)); ("max_cu_per_tx", json_u64 (max_cu_per_tx c)); ("block_cu_limit", json_u64 (block_cu_limit c));
  ("min_validator_stake", json_u128 (min_validator_stake c)); ("max_validators_per_committee", json_u64 (max_validators_per_committee c));
  ("initial_shards", json_u64 (initial_shards c)); ("epoch_length", json_u64 (epoch_length c)); ("double_sign_slash_bps", json_u64 (double_sign_slash_bps c));
  ("downtime_slash_bps", json_u64 (downtime_slash_bps c)); ("unbonding_period_seconds", json_u64 (unbonding_period_seconds c));
  ("dynamic_sharding", Some (JBool (dynamic_sharding c))); ("min_shards", json_u64 (min_shards c)); ("max_shards", json_u64 (max_shards c))]%string.

Definition validator_json (v : GenesisValidator) : option Json := json_struct [
  ("address", json_string (gv_address v)); ("public_key", json_string (gv_public_key v)); ("stake", json_u128 (gv_stake v)); ("name", json_option json_string (gv_name v));
  ("commission_bps", json_u64 (gv_commission_bps v))]%string.

Definition vesting_json (v : VestingSchedule) : option Json := json_struct [
  ("start_time", json_u64 (start_time v)); ("cliff_seconds", json_u64 (cliff_seconds v)); ("duration_seconds", json_u64 (duration_seconds v));
  ("initial_unlock_percent", json_u64 (initial_unlock_percent v))]%string.

Definition allocation_json (a : GenesisAllocation) : option Json := json_struct [
  ("address", json_string (ga_address a)); ("balance", json_u128 (ga_balance a)); ("vesting", json_option vesting_json (ga_vesting a)); ("label", json_option json_string (ga_label a))]%string.

Definition contract_json (c : SystemContract) : option Json := json_struct [
  ("name", json_string (sc_name c)); ("address", json_string (sc_address c)); ("bytecode", json_string (sc_bytecode c));
  ("storage", Some (JObject (map (λ e, (e.1, JString e.2)) (sc_storage c))))]%string.

Definition to_value (c : GenesisConfig) : option Json := json_struct [
  ("network", network_json (network c)); ("genesis_time", json_u64 (genesis_time c)); ("chain", chain_json (chain c)); ("validators", json_list validator_json (gc_validators c));
  ("allocations", json_list allocation_json (allocations c)); ("system_contracts", json_list contract_json (system_contracts c)); ("extra_data", json_option json_string (extra_data c))]%string.

Definition genesis_hash (c : GenesisConfig) : Hash := hash_data (ascii_bytes (canonical_json (default JNull (to_value c)))).

(** ** Properties *)

Lemma json_struct_fails fields : Exists (λ f, f.2 = None) fields → json_struct fields = None.
Proof.
  intros Hf. unfold json_struct. rewrite (proj2 (mapM_None _ _)); [done|]. eapply Exists_impl; [|exact Hf]. intros [n j] Hj. cbn in *. by rewrite Hj.
Qed.

(** JSON numbers do not hold 128-bit integers above [u64::MAX], and serializing one is an error,
    which [genesis_hash] replaces by null: every configuration with such a minimum stake, the
    defaults and the built-in networks included, has the same genesis hash. *)
Theorem genesis_hash_constant c : (∀ n, u64_max < n → json_u128 n = None) → u64_max < min_validator_stake (chain c) → genesis_hash c = hash_data (ascii_bytes (leaf_string JNull)).
Proof.
  intros Hjson Hmin. assert (Hchain : chain_json (chain c) = None).
  { unfold chain_json. apply json_struct_fails. do 6 right. left. cbn. by apply Hjson. }
  assert (Hval : to_value c = None) by (unfold to_value; apply json_struct_fails; do 2 right; left; done). unfold genesis_hash. by rewrite Hval.
Qed.

Lemma entries_map l : (fix go (l : list (string * Json)) := match l with [] => [] | (k, x) :: l' => (k, canonical_json x) :: go l' end) l = map (λ e, (e.1, canonical_json e.2)) l.
Proof. induction l as [|[k x] l IH]; [done|]. cbn [map fst snd]. by rewrite <- IH. Qed.

Lemma key_leb_antisym k k' : key_leb k k' = true → key_leb k' k = true → k = k'.
Proof.
  revert k'. induction k as [|a k IH]; intros [|b k']; cbn; try done. rewrite !orb_true_iff, !andb_true_iff, !Z.ltb_lt, !Z.eqb_eq. intros [?|[-> ?]] [?|[? ?]]; try lia.
  f_equal. by apply IH.
Qed.

(** The canonical text of an object does not depend on the order of its entries. *)
Theorem canonical_json_unordered l l' : l ≡ₚ l' → NoDup l.*1 → canonical_json (JObject l) = canonical_json (JObject l').
Proof.
  intros Hp Hnd. cbn [canonical_json]. rewrite !entries_map. do 4 f_equal. 
  set (e := map (λ e : string * Json, (e.1, canonical_json e.2)) l). set (e' := map (λ e : string * Json, (e.1, canonical_json e.2)) l'). assert (Hpe : e ≡ₚ e') by (by apply Permutation_map).
  assert (Hke : NoDup e.*1).
  { assert (Heq : e.*1 = l.*1) by (unfold e; clear; induction l as [|[k x] l IH]; [done|]; cbn; by f_equal). by rewrite Heq. }
  assert (Hsort : ∀ x, StronglySorted (λ x y, key_le x y = true) (sort_by key_le x)) by (intros x; apply sort_by_sorted; [intros; apply key_leb_total|intros a b d; apply key_leb_trans]).
  apply (StronglySorted_unique_strong (λ x y, key_le x y = true)); [|apply Hsort..|by rewrite !sort_by_perm].
  intros [k1 v1] [k2 v2] H1 H2 Hle Hle'. unfold key_le in *. cbn [fst] in *. assert (k1 = k2) as -> by (by apply ascii_bytes_inj, key_leb_antisym).
  rewrite sort_by_perm in H1, H2. rewrite <- Hpe in H2. apply list_elem_of_lookup in H1 as [i Hi], H2 as [j Hj].
  assert (i = j) as -> by (eapply (list.NoDup_lookup e.*1); [exact Hke|by rewrite list_lookup_fmap, Hi|by rewrite list_lookup_fmap, Hj]). congruence.
Qed.
End Genesis.

(** ** Supply *)

Lemma checked_total_spec l acc t : checked_total l acc = Some t → t = acc + sumZ l.
Proof.
  revert acc. induction l as [|x l IH]; intros acc; cbn [checked_total]; [intros [= <-]; change (sumZ []) with 0; lia|]. change (sumZ (x :: l)) with (x + sumZ l).
  destruct (checked_add u128_max acc x) as [a|] eqn:Ha; [|done]. cbn. intros Ht. apply IH in Ht. apply checked_add_Some in Ha as [-> _]. lia.
Qed.

Definition unreadable {A} (hex_decode : string → Result (list Z) string) (f : A → string) (g : A → Z) (l : list A) : list Z :=
  omap (λ x, if is_ok (parse_address hex_decode (f x)) then None else Some (g x)) l.

Lemma sumZ_cons x l : sumZ (x :: l) = x + sumZ l.
Proof. done. Qed.

Lemma parsed_sum {A} hex_decode (f : A → string) g l : sumZ (map snd (parsed hex_decode f g l)) + sumZ (unreadable hex_decode f g l) = sumZ (map g l).
Proof.
  unfold parsed, unreadable. induction l as [|x l IH]; [done|]. cbn [omap list_omap map]. change (sumZ (g x :: map g l)) with (g x + sumZ (map g l)). destruct (parse_address hex_decode (f x)) as [a|e]; cbn [is_ok map snd].
  - rewrite (sumZ_cons (g x)). lia.
  - rewrite (sumZ_cons (g x)). lia.
Qed.

Lemma initial_balances_total hex_decode c t : total_supply_of c = Ok t →
  sumZ (map snd (get_initial_balances hex_decode c)) + sumZ (unreadable hex_decode ga_address ga_balance (allocations c)) +
  sumZ (unreadable hex_decode gv_address gv_stake (gc_validators c)) = t.
Proof.
  unfold total_supply_of. destruct (checked_total (map ga_balance _) 0) as [a|] eqn:Ha; [|done]. cbn [ok_or and_then]. destruct (checked_total (map gv_stake _) 0) as [v|] eqn:Hv; [|done]. cbn [ok_or and_then].
  destruct (checked_add u128_max a v) as [t'|] eqn:Ht; [|done]. intros [= <-]. apply checked_total_spec in Ha, Hv. apply checked_add_Some in Ht as [-> _].
  unfold get_initial_balances. rewrite map_app. pose proof (parsed_sum hex_decode ga_address ga_balance (allocations c)). pose proof (parsed_sum hex_decode gv_address gv_stake (gc_validators c)).
  rewrite sumZ_app. lia.
Qed.

(** The initial balances add up to the total supply, less the balances and stakes of entries whose
    address does not parse, which are left out silently. *)
Theorem initial_balances_supply hex_decode c t : total_supply_of c = Ok t →
  sumZ (map snd (get_initial_balances hex_decode c)) + sumZ (unreadable hex_decode ga_address ga_balance (allocations c)) +
  sumZ (unreadable hex_decode gv_address gv_stake (gc_validators c)) = t.
Proof. apply initial_balances_total. Qed.

(** ** Validation *)

Lemma check_all_spec {A} check (l : list A) : check_all check l = Ok () ↔ Forall (λ x, check x = Ok ()) l.
Proof.
  induction l as [|x l IH]; cbn; [by split|]. rewrite list.Forall_cons, <- IH. destruct (check x) as [[]|e]; [tauto|]. by split; [|intros [? _]].
Qed.

(** A configuration is accepted exactly when it has between one validator and the committee
    size, every stake reaches the minimum with a commission of at most 100%, every allocation has an
    address of 64 characters and an unlock of at most 100%, and the chain id is the network's. *)
Theorem validate_genesis_iff c : validate_genesis c = Ok () ↔
  (1 ≤ Z.of_nat (length (gc_validators c)) ≤ max_validators_per_committee (chain c)) ∧
  Forall (λ v, min_validator_stake (chain c) ≤ gv_stake v ∧ gv_commission_bps v ≤ MAX_COMMISSION_BPS) (gc_validators c) ∧
  Forall (λ a, String.length (ga_address a) = 64%nat ∧ match ga_vesting a with Some v => initial_unlock_percent v ≤ 100 | None => True end) (allocations c) ∧
  cc_chain_id (chain c) = chain_id (network c).
Proof.
  assert (Hv : Forall (λ v, check_validator (chain c) v = Ok ()) (gc_validators c) ↔ Forall (λ v, min_validator_stake (chain c) ≤ gv_stake v ∧ gv_commission_bps v ≤ MAX_COMMISSION_BPS) (gc_validators c)).
  { apply Forall_proper; [|done]. intros v. unfold check_validator. destruct (Z.ltb_spec (gv_stake v) (min_validator_stake (chain c))); [split; [done|lia]|].
    destruct (Z.ltb_spec MAX_COMMISSION_BPS (gv_commission_bps v)); [split; [done|lia]|split; [lia|done]]. }
  assert (Ha : Forall (λ a, check_allocation a = Ok ()) (allocations c) ↔
    Forall (λ a, String.length (ga_address a) = 64%nat ∧ match ga_vesting a with Some v => initial_unlock_percent v ≤ 100 | None => True end) (allocations c)).
  { apply Forall_proper; [|done]. intros a. unfold check_allocation. destruct (Nat.eqb_spec (String.length (ga_address a)) 64) as [He|He]; cbn [negb]; [|split; [done|tauto]].
    destruct (ga_vesting a) as [v|]; [|tauto]. destruct (Z.ltb_spec 100 (initial_unlock_percent v)); [split; [done|lia]|tauto]. }
  rewrite <- Hv, <- Ha, <- !check_all_spec. unfold validate_genesis. destruct (Nat.eq_dec (length (gc_validators c)) 0%nat) as [H0|H0]; [apply length_zero_iff_nil in H0; rewrite H0; split; [done|cbn; lia]|].
  assert (Hne : match gc_validators c with [] => true | _ :: _ => false end = false) by (by destruct (gc_validators c)). rewrite Hne.
  destruct (Z.ltb_spec (max_validators_per_committee (chain c)) (Z.of_nat (length (gc_validators c)))) as [Hlt|Hge]; [split; [done|lia]|].
  destruct (check_all (check_validator (chain c)) (gc_validators c)) as [[]|e]; cbn [and_then]; [|split; [done|by intros (_ & ? & _)]].
  destruct (check_all check_allocation (allocations c)) as [[]|e]; cbn [and_then]; [|split; [done|by intros (_ & _ & ? & _)]].
  destruct (Z.eqb_spec (cc_chain_id (chain c)) (chain_id (network c))) as [He|He]; cbn [negb]; [|split; [done|tauto]]. split; [intros _|done]. split_and!; try done; lia.
Qed.

(** ** Built-in networks *)

Section BuiltIn.
Context (hash_data : list Z → Hash) (hex_encode : list Z → string) (hex_decode : string → Result (list Z) string).
Context (hex_length : ∀ b, String.length (hex_encode b) = (2 * length b)%nat) (hex_roundtrip : ∀ b, Forall byte b → hex_decode (hex_encode b) = Ok b).

Lemma hash_bytes_are_bytes a : Forall byte (hash_bytes a).
Proof. unfold hash_bytes, be_bytes. rewrite reverse_Permutation. apply le_bytes_byte. Qed.

Lemma parse_encoded a : ∃ b, parse_address hex_decode (hex_encode (hash_bytes a)) = Ok b.
Proof. unfold parse_address. rewrite hex_roundtrip by apply hash_bytes_are_bytes. unfold hash_bytes. rewrite be_bytes_length. by eexists. Qed.

(** The built-in networks pass validation, whatever keys were generated, and all of their supply
    reaches the initial balances: 179 million tokens on the test network, a million on the local one. *)
Theorem built_in_networks version k1 k2 k3 k4 k :
  let t := testnet hash_data hex_encode version k1 k2 k3 k4 in let d := devnet hex_encode k in
  validate_genesis t = Ok () ∧ validate_genesis d = Ok () ∧
  sumZ (map snd (get_initial_balances hex_decode t)) = 179000000 * 10 ^ 18 ∧ sumZ (map snd (get_initial_balances hex_decode d)) = 1000000 * 10 ^ 18.
Proof.
  intros t d. assert (Hlen : ∀ a, String.length (hex_encode (hash_bytes a)) = 64%nat) by (intros a; rewrite hex_length; unfold hash_bytes; by rewrite be_bytes_length).
  assert (Hparse : ∀ A (f : A → string) g l, Forall (λ x, ∃ a, f x = hex_encode (hash_bytes a)) l → unreadable hex_decode f g l = []).
  { intros A f g l Hl. induction Hl as [|x l [a Ha] _ IH]; [done|]. cbn [unreadable omap list_omap]. rewrite Ha. destruct (parse_encoded a) as [b ->]. exact IH. }
  assert (Halloc : ∀ a b v n, match v with Some w => initial_unlock_percent w <=? 100 | None => true end = true → check_allocation (mkAllocation (hex_encode (hash_bytes a)) b v n) = Ok ()).
  { intros a b v n Hv. unfold check_allocation. cbn [ga_address ga_vesting]. rewrite Hlen. cbn [negb Nat.eqb]. destruct v as [w|]; [|done]. apply Z.leb_le in Hv. by rewrite (proj2 (Z.ltb_ge _ _)). }
  assert (Hall : check_all check_allocation (allocations t) = Ok ()) by (apply check_all_spec; repeat (apply list.Forall_cons; split; [by apply Halloc|]); by apply list.Forall_nil).
  split_and!; [unfold validate_genesis; rewrite Hall; vm_compute; reflexivity|vm_compute; reflexivity| |].
  - pose proof (initial_balances_total hex_decode t (179000000 * 10 ^ 18) ltac:(by vm_compute)) as Hs. rewrite !Hparse in Hs; [change (sumZ []) with 0 in Hs; lia|repeat constructor; by eexists..].
  - pose proof (initial_balances_total hex_decode d (1000000 * 10 ^ 18) ltac:(by vm_compute)) as Hs. rewrite !Hparse in Hs; [change (sumZ []) with 0 in Hs; lia|repeat constructor; by eexists..].
Qed.

(** Parsing the hexadecimal form of an address gives the address. *)
Theorem parse_address_roundtrip a : hash_range a → parse_address hex_decode (hex_encode (hash_bytes a)) = Ok a.
Proof.
  intros Ha. unfold parse_address. rewrite hex_roundtrip by apply hash_bytes_are_bytes. unfold hash_bytes at 1. rewrite be_bytes_length. cbn [negb Nat.eqb]. unfold of_be_bytes, hash_bytes, be_bytes. rewrite reverse_involutive. f_equal. by apply of_le_le_bytes.
Qed.
End BuiltIn.

Module GenesisDemo.
(** A hexadecimal codec with one letter per half byte, from [a] on. *)
Definition digit (d : Z) : Ascii.ascii := Ascii.ascii_of_N (Z.to_N (97 + d)).
Fixpoint encode (b : list Z) : string := match b with [] => "" | x :: b' => String (digit (x / 16)) (String (digit (x mod 16)) (encode b')) end.
Definition value (a : Ascii.ascii) : Z := Z.of_N (Ascii.N_of_ascii a) - 97.
Fixpoint decode (s : string) : Result (list Z) string :=
  match s with
  | EmptyString => Ok []
  | String a (String b s') =>
      if (0 <=? value a) && (value a <? 16) && (0 <=? value b) && (value b <? 16) then match decode s' with Ok l => Ok (16 * value a + value b :: l) | Err e => Err e end
      else Err "invalid character"
  | String _ EmptyString => Err "odd length"
  end.

Lemma value_digit d : 0 ≤ d < 16 → value (digit d) = d.
Proof. intros Hd. unfold value, digit. rewrite Ascii.N_ascii_embedding by lia. lia. Qed.

Lemma decode_encode_hex b : Forall byte b → decode (encode b) = Ok b.
Proof.
  induction 1 as [|x b Hx _ IH]; [done|]. unfold byte in Hx. cbn [encode decode]. pose proof (Z.mod_pos_bound x 16 ltac:(lia)). assert (0 ≤ x / 16 < 16) by (split; [apply Z.div_pos; lia|apply Z.div_lt_upper_bound; lia]).
  rewrite !value_digit by lia. rewrite !(proj2 (Z.leb_le _ _)), !(proj2 (Z.ltb_lt _ _)) by lia. cbn [andb]. rewrite IH. f_equal. f_equal. pose proof (Z.div_mod x 16). lia.
Qed.

Lemma encode_length b : String.length (encode b) = (2 * length b)%nat.
Proof. induction b as [|x b IH]; [done|]. cbn [encode String.length length]. rewrite IH. lia. Qed.

(** Numbers up to [u64::MAX]. *)
Definition number (n : Z) : option Json := if n <=? u64_max then Some (JNumber n) else None.
Definition leaf (j : Json) : string := match j with JNull => "null" | JString s => s | _ => "" end.
Definition keys : Address * list Z := (7, [1; 2; 3]).
Definition size_hash (l : list Z) : Hash := Z.of_nat (length l).

(** Applied to the two built-in networks: their genesis hashes agree. *)
Lemma genesis_hash_constant_witness :
  genesis_hash size_hash leaf (λ s, s) number (testnet size_hash encode "1" keys keys keys keys) = genesis_hash size_hash leaf (λ s, s) number (devnet encode keys).
Proof.
  assert (Hn : ∀ n, u64_max < n → number n = None) by (intros n Hn; unfold number; by rewrite (proj2 (Z.leb_gt _ _))).
  rewrite (genesis_hash_constant size_hash leaf (λ s, s) number (testnet size_hash encode "1" keys keys keys keys) Hn) by (by vm_compute).
  rewrite (genesis_hash_constant size_hash leaf (λ s, s) number (devnet encode keys) Hn) by (by vm_compute). reflexivity.
Defined.

(** Applied to an object with two entries. *)
Lemma canonical_json_unordered_witness : canonical_json leaf (λ s, s) (JObject [("b", JNull); ("a", JNull)]%string) = canonical_json leaf (λ s, s) (JObject [("a", JNull); ("b", JNull)]%string).
Proof. apply (canonical_json_unordered leaf (λ s, s)); [apply Permutation_swap|]. apply (bool_decide_eq_true_1 (NoDup _)). by vm_compute. Defined.

(** A test network whose first allocation is 64 characters that are not hexadecimal. *)
Definition spoiled : GenesisConfig :=
  let t := testnet size_hash encode "1" keys keys keys keys in
  mkGenesis (network t) (genesis_time t) (chain t) (gc_validators t) (mkAllocation (String.concat "" (replicate 64 "z"%string)) (10 ^ 26) None None :: allocations t) [] None.

(** Applied to the spoiled network, which passes validation. *)
Lemma initial_balances_supply_witness : validate_genesis spoiled = Ok () ∧ sumZ (map snd (get_initial_balances decode spoiled)) + 10 ^ 26 = 179000000 * 10 ^ 18 + 10 ^ 26.
Proof.
  split; [by vm_compute|]. pose proof (initial_balances_supply decode spoiled (179000000 * 10 ^ 18 + 10 ^ 26) ltac:(by vm_compute)) as H. vm_compute in H. vm_compute. exact H.
Defined.

(** Applied to the codec above. *)
Lemma built_in_networks_witness : validate_genesis (testnet size_hash encode "1" keys keys keys keys) = Ok ().
Proof. apply (built_in_networks size_hash encode decode encode_length decode_encode_hex "1" keys keys keys keys keys). Defined.

Lemma parse_address_roundtrip_witness : parse_address decode (encode (hash_bytes 7)) = Ok 7.
Proof. apply (parse_address_roundtrip encode decode decode_encode_hex 7). vm_compute. split; congruence. Defined.
End GenesisDemo.
