(* ===== verification/Engine.v ===== *)
(** * The consensus engine

    Models [QuantosConsensus] of [src/L1/src/consensus/quantos.rs]: the slot loop that rotates the committees, produces vertices
    through the fast path, creates and signs checkpoints through the finality layer and hands finalized ones to the L0 hub,
    and the entry points of the network and of clients.

    The Rust components share the graph, the committee manager and the state manager behind [Arc]s.  Here the fast path holds
    the graph and the committee manager; an operation of the finality layer runs on the fast path's graph and validator
    set and its graph is put back ([on_finality]), and after every operation of the fast path the validator set is
    the one the state manager's transactions left ([sync]).  The checkpoints, the finalized receipts and transactions and the
    performance records are tables of one database whose keys never collide ([Storage.v]); the model keeps the
    checkpoints with the finality layer and the rest in a store of its own.  A task spawned for the L0 hub is queued and
    runs at any later time.  Signing, clocks, the VRF and the provers are arguments; log output is left out. *)

From S2P Require Import Prelude Bytes CrossShard Finality Chains BatchProof L0Hub F64 Economics Storage Genesis Consensus Account Validators Transaction Vertex Checkpoint Committee Dag State Executor FastPath.

(** ** Configuration and keys *)

(** The fields of the node's configuration the engine reads. *)
Record NodeConfig : Type := mkNodeConfig {
  nc_num_committees : Z;
  nc_validators_per_committee : nat;
  nc_num_shards : Z;
  nc_checkpoint_interval : Z;
  nc_max_dag_parents : Z;
  nc_min_dag_parents : Z;
  nc_l0_config : L0Config
}.

Record ValidatorKeys : Type := mkKeys {
  signing_secret : list Z;
  signing_public : list Z;
  vrf_secret : list Z;
  vrf_public : list Z;
  finality_secret : list Z;
  finality_public : list Z;
  key_address : Address
}.

(** The validator set the state manager shares with the committee manager. *)
Class SharedSet (SM : Type) : Type := {
  sm_set : SM → option ValidatorSet;
  sm_put_set : ValidatorSet → SM → SM
}.

#[export] Instance state_shared_set {St CM EV} : SharedSet (StateManager St CM EV) := {|
  sm_set := committee_set;
  sm_put_set v := set_committee (Some v)
|}.

(** The cross-shard protocol, run on the shared graph, state and committees. *)
Class AtomicProtocol (P SM St : Type) : Type := {
  ap_execute : Hash → list ShardOperation → P * DAGGraph St * SM * CommitteeManager → Result AtomicResult string * (P * DAGGraph St * SM * CommitteeManager);
  ap_status : Hash → P → option AtomicStatus
}.

(** ** State *)

Record QuantosConsensus (SM St B CS D P : Type) : Type := mkEngine {
  eg_config : NodeConfig;
  eg_storage : Storage D;
  fast_path : FastPath SM St B;
  finality : FinalityLayer (DAGGraph St) CS;
  current_slot : Z;
  validator_keys : option ValidatorKeys;
  csap : P;
  finality_hub : option FinalityHub;
  performance_tracker : ValidatorPerformanceTracker;
  (** what the spawned L0 tasks captured, and the proofs handed to the relay dispatcher *)
  l0_tasks : list (FinalizedCheckpoint * ValidatorSet);
  dispatched : list L0FinalityProof
}.
Arguments mkEngine {SM St B CS D P}. Arguments eg_config {SM St B CS D P}. Arguments eg_storage {SM St B CS D P}. Arguments fast_path {SM St B CS D P}.
Arguments finality {SM St B CS D P}. Arguments current_slot {SM St B CS D P}. Arguments validator_keys {SM St B CS D P}. Arguments csap {SM St B CS D P}.
Arguments finality_hub {SM St B CS D P}. Arguments performance_tracker {SM St B CS D P}. Arguments l0_tasks {SM St B CS D P}. Arguments dispatched {SM St B CS D P}.

Section Engine.
Context {SM St B CS D P : Type} `{!StateOps SM} `{!VertexStore St} `{!PayloadSource B} `{!CheckpointStore CS} `{!Rocks D} `{!SharedSet SM} `{!AtomicProtocol P SM St}.
Context `{!Codec SignedTransaction} `{!Codec TransactionReceipt} `{!Codec ValidatorPerformanceRecord} `{!Codec (list ShardOperation)}.
Context (hash_data : list Z → Hash) (verify_sig : list Z → list Z → list Z → Result bool string) (sign : list Z → list Z → Result (list Z) string).
Context (verify : list Z → list Z → list Z → bool) (aggregate : list (list Z) → list (list Z) → list Z → list nat → nat → option (list Z)).
Context (vrf_prove : list Z → Hash → Result Hash string) (prove_batch : list SignerInput → BatchPublicInputs → Result StarkBatchProof string).
Context (show_dag : DAGError → string) (show_state : StateError → string) (show_consensus : ConsensusError → string) (show_validator : ValidatorError → string).
Context (hex_encode : list Z → string) (hex_decode : string → Result (list Z) string) (same_text : string → string → bool).

Abbreviation FP := (FastPath SM St B).
Abbreviation E := (QuantosConsensus SM St B CS D P).
Abbreviation OP A := (M E ConsensusError A).

Definition engine_dag : FinalizableDag (DAGGraph St) := graph_dag show_dag.
#[local] Existing Instance engine_dag.

Definition set_fast (p : FP) (e : E) : E :=
  mkEngine (eg_config e) (eg_storage e) p (finality e) (current_slot e) (validator_keys e) (csap e) (finality_hub e) (performance_tracker e) (l0_tasks e) (dispatched e).
Definition set_finality (f : FinalityLayer (DAGGraph St) CS) (e : E) : E :=
  mkEngine (eg_config e) (eg_storage e) (fast_path e) f (current_slot e) (validator_keys e) (csap e) (finality_hub e) (performance_tracker e) (l0_tasks e) (dispatched e).
Definition set_store (s : Storage D) (e : E) : E :=
  mkEngine (eg_config e) s (fast_path e) (finality e) (current_slot e) (validator_keys e) (csap e) (finality_hub e) (performance_tracker e) (l0_tasks e) (dispatched e).
Definition set_slot (n : Z) (e : E) : E :=
  mkEngine (eg_config e) (eg_storage e) (fast_path e) (finality e) n (validator_keys e) (csap e) (finality_hub e) (performance_tracker e) (l0_tasks e) (dispatched e).
Definition set_tracker (t : ValidatorPerformanceTracker) (e : E) : E :=
  mkEngine (eg_config e) (eg_storage e) (fast_path e) (finality e) (current_slot e) (validator_keys e) (csap e) (finality_hub e) t (l0_tasks e) (dispatched e).
Definition set_keys (k : option ValidatorKeys) (e : E) : E :=
  mkEngine (eg_config e) (eg_storage e) (fast_path e) (finality e) (current_slot e) k (csap e) (finality_hub e) (performance_tracker e) (l0_tasks e) (dispatched e).
Definition set_csap (c : P) (e : E) : E :=
  mkEngine (eg_config e) (eg_storage e) (fast_path e) (finality e) (current_slot e) (validator_keys e) c (finality_hub e) (performance_tracker e) (l0_tasks e) (dispatched e).
Definition set_l0 (h : option FinalityHub) (ts : list (FinalizedCheckpoint * ValidatorSet)) (ps : list L0FinalityProof) (e : E) : E :=
  mkEngine (eg_config e) (eg_storage e) (fast_path e) (finality e) (current_slot e) (validator_keys e) (csap e) h (performance_tracker e) ts ps.

(** ** Shared components *)

Definition with_state (f : SM → SM) (p : FP) : FP :=
  let x := fp_executor p in
  FastPath.set_executor (mkOptimistic (mkParallel (f (pe_state (executor x))) (pe_num_shards (executor x)) (shard_states (executor x))) (speculative_results x)) p.

(** Transactions changed the validator set through the state manager. *)
Definition sync (p : FP) : FP :=
  match sm_set (oe_state (fp_executor p)) with
  | Some set => set_manager (Committee.set_validator_set set (committee_manager p)) p
  | None => p
  end.

Definition on_fast {A} (m : FP → A * FP) (e : E) : A * E := let '(r, p) := m (fast_path e) in (r, set_fast (sync p) e).

Definition manager (e : E) : CommitteeManager := committee_manager (fast_path e).
Definition get_validator_set (e : E) : ValidatorSet := Committee.validator_set (manager e).

(** The committee manager changed its set, which the state manager sees. *)
Definition put_manager (cm : CommitteeManager) (e : E) : E :=
  set_fast (with_state (sm_put_set (Committee.validator_set cm)) (set_manager cm (fast_path e))) e.

(** The finality layer as it sees the shared graph and validators. *)
Definition layer (e : E) : FinalityLayer (DAGGraph St) CS :=
  Finality.set_validator_set (get_validator_set e) (Finality.set_dag (fp_dag (fast_path e)) (finality e)).

Definition on_finality {A} (m : M (FinalityLayer (DAGGraph St) CS) ConsensusError A) : OP A := λ e,
  let '(r, f) := m (layer e) in (r, set_fast (FastPath.set_dag (Finality.dag f) (fast_path e)) (set_finality f e)).

(** ** Construction *)

(** The receiver of the vertex channel is dropped at the end of [new]: the sender stays with a closed channel. *)
Definition new_engine (config : NodeConfig) (state : SM) (store : Storage D) (vertices : St) (checkpoints : CS) (source : B) (c : P) (loaded : option ValidatorSet)
  : Result E ConsensusError :=
  let dag := Dag.new vertices (nc_min_dag_parents config) (nc_max_dag_parents config) in
  let shards := nc_num_shards config mod 65536 in
  let cm := Committee.new loaded (nc_num_committees config mod 65536) (nc_validators_per_committee config) in
  let state := sm_put_set (Committee.validator_set cm) state in
  let p := new_fast_path dag source (new_optimistic state shards) cm None in
  let f := Finality.new checkpoints dag (Committee.validator_set cm) (nc_checkpoint_interval config) (Z.to_nat shards) in
  let e hub := mkEngine config store p f 0 None c hub new_tracker [] [] in
  if l0_enabled (nc_l0_config config) then
    match new_hub (nc_l0_config config) with
    | Err _ => Err (InvalidData "L0 hub init")
    | Ok h => Ok (e (Some h))
    end
  else Ok (e None).

(** A validator of the genesis file; its other keys come later. *)
Definition genesis_entry (gv : GenesisValidator) : option Validator :=
  match parse_address hex_decode (gv_address gv), hex_decode (gv_public_key gv) with
  | Ok a, Ok k => Some (mkValidator a k [] (gv_stake gv) (gv_commission_bps gv) true false 0 0 [])
  | _, _ => None
  end.

(** A refused registration is logged. *)
Definition register_logged (v : Validator) (cm : CommitteeManager) : CommitteeManager := (cm_add_validator v cm).2.

Definition authorize (a : Address) (e : E) : E :=
  set_fast (FastPath.set_dag (add_authorized_creator a (fp_dag (fast_path e))).2 (fast_path e)) e.

Definition EPHEMERAL_STAKE : Z := 10000000000000000000000000.

Definition set_validator_keys (genesis : GenesisConfig) (k : ValidatorKeys) (e : E) : E :=
  let cm := foldl (λ cm v, register_logged v cm) (manager e) (omap genesis_entry (gc_validators genesis)) in
  let me := key_address k in
  let listed := existsb (λ gv, same_text (gv_address gv) (hex_encode (hash_bytes me))) (gc_validators genesis) in
  let cm1 := if listed then update_validator_finality_key me (finality_public k) (update_validator_vrf me (vrf_public k) cm) else cm in
  let e1 := put_manager cm1 e in
  let e2 := if listed then authorize me e1 else e1 in
  let known := listed && negb (bool_decide (vrf_public k = [])) in
  let e3 :=
    if known then e2
    else match cm_add_validator (mkValidator me (signing_public k) (finality_public k) EPHEMERAL_STAKE 0 true false 0 0 (vrf_public k)) (manager e2) with
         | (Ok _, cm') => authorize me (put_manager cm' e2)
         | (Err _, cm') => put_manager cm' e2
         end in
  set_keys (Some k) e3.

(** ** Genesis *)

Definition add_genesis (now : Z) (shard : Z) : OP () := λ e,
  match genesis_vertex hash_data now shard with
  | Err x => (Err (Consensus.InvalidVertex (show_dag x)), e)
  | Ok v =>
      let '(r, d) := add_vertex v (fp_dag (fast_path e)) in
      (match r with Ok _ => Ok () | Err x => Err (Consensus.StorageError (show_dag x)) end, set_fast (FastPath.set_dag d (fast_path e)) e)
  end.

Definition initialize_genesis (now : Z) : OP () :=
  c <-? gets eg_config;
  for_each (range 0 (nc_num_shards c mod 65536)) (add_genesis now) ?;
  on_finality (store_checkpoint Checkpoint.genesis).

(** ** Epochs *)

Definition BASE_REWARD : Z := 1000000000.

Definition performance_record (set : ValidatorSet) (total prev_epoch : Z) (p : Address * EpochMetrics) : ValidatorPerformanceRecord :=
  let stake := match List.find (λ v, address v =? p.1) (Validators.validators set) with Some v => effective_stake v | None => 0 end in
  let reward := to_uint u128_max (fround (of_Z BASE_REWARD * Economics.stake_weight stake total * performance_score p.2)%f64) in
  from_metrics prev_epoch p.1 p.2 reward.

(** A record that cannot be serialized or stored is logged. *)
Definition persist_record (prev_epoch : Z) (s : Storage D) (r : ValidatorPerformanceRecord) : Storage D :=
  match serialize r with
  | Ok value => (put_validator_performance (validator_performance_key prev_epoch (p_validator r)) value s).2
  | Err _ => s
  end.

Definition epoch_records (prev_epoch : Z) (e : E) : list ValidatorPerformanceRecord :=
  let set := get_validator_set e in
  map (performance_record set (sum_u128 (map effective_stake (Validators.validators set))) prev_epoch) (Economics.finalize_epoch 0 (performance_tracker e)).1.

Definition finalize_and_persist_epoch (prev_epoch new_epoch : Z) (e : E) : E :=
  set_store (foldl (persist_record prev_epoch) (eg_storage e) (epoch_records prev_epoch e))
    (set_tracker (Economics.finalize_epoch new_epoch (performance_tracker e)).2 e).

Definition compute_epoch_randomness (e : E) (epoch : Z) : Hash :=
  let seed := hash_data (le_bytes 8 epoch ++ match get_latest_finalized_checkpoint (finality e) with
                                             | Some c => hash_bytes (Checkpoint.hash hash_data c) | None => [] end) in
  match validator_keys e with
  | Some k => match vrf_prove (vrf_secret k) seed with Ok output => output | Err _ => seed end
  | None => seed
  end.

(** ** Producing vertices *)

Definition fix_receipt (slot : Z) (h : Hash) (r : TransactionReceipt) : TransactionReceipt :=
  mkReceipt (r_tx_hash r) (r_status r) (r_cu_used r) h (r_shard_id r) (r_logs r) slot (r_from r) (r_to r) (r_success r).

Definition AUTO_CONFIRM_MAX : Z := 5.

Definition may_produce (e : E) (k : ValidatorKeys) (epoch shard : Z) : bool :=
  let total := total_validators (manager e) in
  (total <=? 1) || (total <=? AUTO_CONFIRM_MAX) || is_committee_member (manager e) epoch (shard mod (nc_num_committees (eg_config e) mod 65536)) (key_address k).

Definition active_shards (e : E) (k : ValidatorKeys) (epoch : Z) : list Z :=
  filter (λ shard, (may_produce e k epoch shard && (0 <? ps_pending shard (fp_source (fast_path e)))) = true) (range 0 (nc_num_shards (eg_config e) mod 65536)).

(** The threads work in any [order] on the shards; the results are in the order of the shards. *)
Definition in_shard_order {A} (shards order : list Z) (results : list A) : list A :=
  omap (λ shard, snd <$> List.find (λ p, p.1 =? shard) (zip order results)) shards.

(** Receipts, transactions and the number of vertices committed in a slot. *)
Definition Committed : Type := list TransactionReceipt * list SignedTransaction * Z.

(** Vertices and confirmation results side by side, as [zip] pairs them. *)
Definition collect_batch (slot : Z) (vs : list DAGVertex) (batch : list (Hash * list TransactionReceipt * list SignedTransaction)) : Committed :=
  let pairs := zip vs batch in
  (concat (map (λ p, map (fix_receipt slot (vhash p.1)) p.2.1.2) pairs), concat (map (λ p, p.2.2) pairs), Z.of_nat (length pairs)).

(** One vote of the validator's own per vertex. *)
Fixpoint vote_loop (now slot : Z) (k : ValidatorKeys) (results : list (Result DAGVertex ConsensusError)) (acc : Committed) : M FP ConsensusError Committed :=
  match results with
  | [] => returns acc
  | Err _ :: results' => vote_loop now slot k results' acc
  | Ok v :: results' =>
      vote <-? lift (create_vote sign now (vhash v) (key_address k) true 1 (signing_secret k));
      r <-? receive_vote verify_sig show_dag show_consensus vote;
      modify sync ?;
      vote_loop now slot k results'
        match r with
        | Some (_, rs) => (acc.1.1 ++ map (fix_receipt slot (vhash v)) rs, acc.1.2 ++ transactions v, acc.2 + 1)
        | None => acc
        end
  end.

(** The created vertices that succeeded. *)
Definition created (results : list (Result DAGVertex ConsensusError)) : list DAGVertex := omap (λ r, match r with Ok v => Some v | Err _ => None end) results.

Definition confirm_created (now slot : Z) (auto : bool) (k : ValidatorKeys) (results : list (Result DAGVertex ConsensusError)) : M FP ConsensusError Committed :=
  if auto then
    match created results with
    | [] => returns ([], [], 0)
    | vs => batch <-? confirm_vertices_batch_direct show_dag vs; returns (collect_batch slot vs batch)
    end
  else vote_loop now slot k results ([], [], 0).

(** A failed write is logged. *)
Definition persist_committed (c : Committed) (e : E) : E :=
  if 0 <? c.2 then set_store (put_finalized_batch c.1.1 c.1.2 (eg_storage e)).2 e else e.

Definition try_produce_vertices_static (now instant : Z) (order : list Z → list Z) (k : ValidatorKeys) (slot : Z) : OP () := λ e,
  let auto := total_validators (manager e) <=? AUTO_CONFIRM_MAX in
  match active_shards e k (slot / 32) with
  | [] => (Ok (), e)
  | shards =>
      let produce (p : FP) :=
        let '(results, p1) := create_vertices_parallel hash_data sign show_dag show_state now instant (order shards) (key_address k) (signing_secret k) p in
        confirm_created now slot auto k (in_shard_order shards (order shards) results) (sync p1) in
      let '(r, e1) := on_fast produce e in
      match r with
      | Err x => (Err x, e1)
      | Ok c => (Ok (), persist_committed c e1)
      end
  end.

Definition try_produce_vertices (now instant : Z) (order : list Z → list Z) (k : ValidatorKeys) (slot : Z) : OP () :=
  try_produce_vertices_static now instant order k slot ?;
  modify (λ e, if existsb (λ v, address v =? key_address k) (Validators.validators (get_validator_set e))
               then set_tracker (record_block_proposed (key_address k) 0 (performance_tracker e)) e else e).

(** ** Checkpoints *)

Definition spawn_l0 (f : FinalizedCheckpoint) (e : E) : E := set_l0 (finality_hub e) (l0_tasks e ++ [(f, get_validator_set e)]) (dispatched e) e.

(** Signing and reception errors are logged. *)
Definition sign_own (now : Z) (k : ValidatorKeys) (c : Checkpoint) (e : E) : E :=
  let h := Checkpoint.hash hash_data c in
  match on_finality (sign_checkpoint hash_data now h (key_address k) (finality_public k) (sign (finality_secret k))) e with
  | (Err _, e1) => e1
  | (Ok sg, e1) =>
      let e2 := set_tracker (record_checkpoint_signature (key_address k) (performance_tracker e1)) e1 in
      match on_finality (receive_checkpoint_signature hash_data verify aggregate h sg) e2 with
      | (Ok (Some f), e3) => spawn_l0 f e3
      | (_, e3) => e3
      end
  end.

Definition checkpoint_step (now slot : Z) : OP () :=
  c <-? on_finality (maybe_create_checkpoint hash_data now slot);
  modify (λ e, match c, validator_keys e with Some c, Some k => sign_own now k c e | _, _ => e end).

(** ** The slot tick *)

(** The rotation's sampling loops end within [fuel] turns, or the tick hangs. *)
Definition rotate (fuel : nat) (epoch slot : Z) (e : E) : option E :=
  cm ← rotate_committees hash_data fuel epoch slot (compute_epoch_randomness e epoch) (manager e);
  Some (set_fast (set_manager cm (fast_path e)) e).

Definition epoch_boundary (fuel : nat) (slot : Z) (e : E) : option E :=
  let epoch := slot / 32 in
  if slot mod 32 =? 0 then
    let prev := pt_epoch (performance_tracker e) in
    let e1 := if (0 <? slot) && negb (prev =? epoch) then finalize_and_persist_epoch prev epoch e else e in
    rotate fuel epoch slot e1
  else Some e.

Definition on_slot_tick (fuel : nat) (now instant : Z) (order : list Z → list Z) (e : E) : option (Result () ConsensusError * E) :=
  let slot := wrapping_add u64_max (current_slot e) 1 in
  e1 ← epoch_boundary fuel slot (set_slot slot e);
  Some ((match validator_keys e1 with Some k => try_produce_vertices now instant order k slot | None => returns () end ?;
         checkpoint_step now slot) e1).

(** ** L0 proofs *)

Definition l0_record (v : Validator) : ValidatorRecord := mkRecord (address v) (Validators.finality_public_key v) (effective_stake v).
Definition snapshot_of (records : list ValidatorRecord) : ValidatorSetSnapshot := mkSnapshot (compute_root hash_data records) records.
Definition contribution_of (s : ValidatorSignature) : SignatureContribution := mkContribution (signer s) MlDsa65 (sig_bytes s).

(** A spawned task; a proof that cannot be built is logged. *)
Definition run_l0_task (now : Z) (e : E) : E :=
  match l0_tasks e with
  | [] => e
  | (f, set) :: tasks =>
      match finality_hub e with
      | None => set_l0 None tasks (dispatched e) e
      | Some h =>
          let '(r, h') := build_proof hash_data verify prove_batch (fc_checkpoint f) (snapshot_of (map l0_record (Validators.validators set)))
                            (map contribution_of (fc_signatures f)) now h in
          set_l0 (Some h') tasks (dispatched e ++ match r with Ok p => [p] | Err _ => [] end) e
      end
  end.

(** ** Entry points *)

Definition submit_transaction (tx : SignedTransaction) : OP Hash := λ e,
  let '(r, e1) := on_fast (process_transaction tx) e in (match r with Ok _ => Ok (tx_hash tx) | Err x => Err x end, e1).

Fixpoint submit_transactions_batch (txs : list SignedTransaction) (e : E) : list (Result Hash ConsensusError) * E :=
  match txs with
  | [] => ([], e)
  | tx :: txs' =>
      let '(ok, b) := ps_ingest tx (fp_source (fast_path e)) in
      let '(rs, e1) := submit_transactions_batch txs' (set_fast (FastPath.set_source b (fast_path e)) e) in
      ((if ok then Ok (tx_hash tx) else Err (Consensus.InvalidVertex "Transaction rejected by ingress buffer")) :: rs, e1)
  end.

Definition execute_atomic_swap (ops : list ShardOperation) : OP AtomicResult := λ e,
  match serialize ops with
  | Err _ => (Err (InvalidData "Failed to serialize operations"), e)
  | Ok data =>
      let p := fast_path e in
      let '(r, (c, dag, state, cm)) := ap_execute (hash_data data) ops (csap e, fp_dag p, oe_state (fp_executor p), committee_manager p) in
      (match r with Ok a => Ok a | Err x => Err (Consensus.InvalidVertex x) end,
       set_csap c (set_fast (sync (set_manager cm (with_state (λ _, state) (FastPath.set_dag dag p)))) e))
  end.

Definition get_atomic_status (id : Hash) (e : E) : option AtomicStatus := ap_status id (csap e).

Definition engine_receive_vertex (instant : Z) (v : DAGVertex) : OP () := on_fast (receive_vertex show_dag show_state instant v).

(** The vote is counted before it is checked. *)
Definition engine_receive_vote (vote : CommitteeVote) : OP () := λ e,
  let '(r, e1) := on_fast (receive_vote verify_sig show_dag show_consensus vote) (set_tracker (record_vote (Vertex.validator vote) (performance_tracker e)) e) in
  (match r with Ok _ => Ok () | Err x => Err x end, e1).

Definition engine_get_vertex (h : Hash) (e : E) : option DAGVertex :=
  match get_confirmed_vertex h (fast_path e) with Some v => Some v | None => get_pending_vertex h (fast_path e) end.

Definition engine_epoch (e : E) : Z := current_slot e / 32.
Definition engine_finalized_slot (e : E) : Z := finalized_slot (finality e).

Definition engine_register_validator (v : Validator) (e : E) : Result () string * E :=
  let '(r, cm) := cm_add_validator v (manager e) in
  (match r with Ok _ => Ok () | Err x => Err (show_validator x) end, put_manager cm e).

(** Signing keys and full stakes of the active validators. *)
Definition get_validator_snapshot (e : E) : option ValidatorSetSnapshot :=
  match active_validators (get_validator_set e) with
  | [] => None
  | vs => Some (snapshot_of (map (λ v, mkRecord (address v) (Validators.public_key v) (stake v)) vs))
  end.

Definition sign_external_checkpoint (digest : Hash) (e : E) : option SignatureContribution :=
  k ← validator_keys e;
  match sign (finality_secret k) (hash_bytes digest) with
  | Ok s => Some (mkContribution (key_address k) MlDsa65 s)
  | Err _ =>
      match sign (signing_secret k) (hash_bytes digest) with
      | Ok s => Some (mkContribution (key_address k) MlDsa65 s)
      | Err _ => None
      end
  end.

Record ConsensusMetrics : Type := mkConsensusMetrics {
  cm_current_slot : Z;
  cm_current_epoch : Z;
  cm_finalized_slot : Z;
  cm_pending_vertices : Z;
  cm_confirmed_vertices : Z;
  cm_total_validators : Z
}.

Definition engine_metrics (e : E) : ConsensusMetrics :=
  mkConsensusMetrics (current_slot e) (engine_epoch e) (engine_finalized_slot e) (pending_count (fast_path e)) (confirmed_count (fast_path e))
    (total_validators (manager e)).

(** ** Histories *)

Inductive EngineEvent : Type :=
  | Tick (fuel : nat) (now instant : Z) (order : list Z → list Z)
  | L0Task (now : Z)
  | CleanUp (now : Z)
  | SubmitTx (tx : SignedTransaction)
  | SubmitBatch (txs : list SignedTransaction)
  | Swap (ops : list ShardOperation)
  | NetVertex (instant : Z) (v : DAGVertex)
  | NetVote (vote : CommitteeVote)
  | Register (v : Validator).

(** [None]: a tick that hangs.  Errors are logged and the loop goes on. *)
Definition engine_step (e : E) (ev : EngineEvent) : option E :=
  match ev with
  | Tick fuel now instant order => snd <$> on_slot_tick fuel now instant order e
  | L0Task now => Some (run_l0_task now e)
  | CleanUp now => Some (on_fast (λ p, ((), cleanup now p)) e).2
  | SubmitTx tx => Some (submit_transaction tx e).2
  | SubmitBatch txs => Some (submit_transactions_batch txs e).2
  | Swap ops => Some (execute_atomic_swap ops e).2
  | NetVertex instant v => Some (engine_receive_vertex instant v e).2
  | NetVote vote => Some (engine_receive_vote vote e).2
  | Register v => Some (engine_register_validator v e).2
  end.

(** [trace e evs]: the states after each event of a history that does not hang. *)
Fixpoint trace (e : E) (evs : list EngineEvent) : option (list E) :=
  match evs with
  | [] => Some []
  | ev :: evs' => e1 ← engine_step e ev; es ← trace e1 evs'; Some (e1 :: es)
  end.

(** ** What each operation leaves alone *)

(** The parts of the engine a step outside the checkpoint code keeps. *)
Definition same_core (e e' : E) : Prop := finality e' = finality e ∧ validator_keys e' = validator_keys e ∧ current_slot e' = current_slot e.

#[local] Instance same_core_preorder : PreOrder same_core.
Proof. split; [done|]. intros e1 e2 e3 (? & ? & ?) (? & ? & ?). split_and!; congruence. Qed.

Lemma on_fast_core {A} (m : FP → A * FP) e : same_core e (on_fast m e).2 ∧ performance_tracker (on_fast m e).2 = performance_tracker e.
Proof. unfold on_fast. by destruct (m (fast_path e)). Qed.

Lemma put_manager_core cm e : same_core e (put_manager cm e) ∧ performance_tracker (put_manager cm e) = performance_tracker e.
Proof. done. Qed.

Lemma submit_batch_core txs : ∀ e, same_core e (submit_transactions_batch txs e).2 ∧ performance_tracker (submit_transactions_batch txs e).2 = performance_tracker e.
Proof.
  induction txs as [|tx txs IH]; intros e; [done|]. cbn [submit_transactions_batch]. destruct (ps_ingest _ _) as [ok b].
  specialize (IH (set_fast (FastPath.set_source b (fast_path e)) e)). destruct (submit_transactions_batch txs _) as [rs e1]. exact IH.
Qed.

Lemma swap_core ops e : same_core e (execute_atomic_swap ops e).2 ∧ performance_tracker (execute_atomic_swap ops e).2 = performance_tracker e.
Proof. unfold execute_atomic_swap. destruct (serialize ops); [|done]. by destruct (ap_execute _ _ _) as [r [[[c d] s] cm]]. Qed.

Lemma l0_task_core now e : same_core e (run_l0_task now e) ∧ performance_tracker (run_l0_task now e) = performance_tracker e.
Proof. unfold run_l0_task. destruct (l0_tasks e) as [|[f set] tasks]; [done|]. destruct (finality_hub e); [|done]. by destruct (build_proof _ _ _ _ _ _ _ _). Qed.

Lemma static_core now instant order k slot e :
  same_core e (try_produce_vertices_static now instant order k slot e).2 ∧ performance_tracker (try_produce_vertices_static now instant order k slot e).2 = performance_tracker e.
Proof.
  unfold try_produce_vertices_static. destruct (active_shards _ _ _) as [|sh shs]; [done|]. set (m := λ p : FP, _).
  pose proof (on_fast_core m e) as H. destruct (on_fast m e) as [[c|x] e1]; [|done]. unfold persist_committed. by destruct (0 <? c.2).
Qed.

Lemma produce_core now instant order k slot e : same_core e (try_produce_vertices now instant order k slot e).2.
Proof.
  unfold try_produce_vertices, bindM. pose proof (proj1 (static_core now instant order k slot e)) as H.
  destruct (try_produce_vertices_static now instant order k slot e) as [[[]|x] e1]; [|done]. cbn in *. etrans; [exact H|]. by destruct (existsb _ _).
Qed.

Lemma rotate_core fuel epoch slot e e' : rotate fuel epoch slot e = Some e' → same_core e e' ∧ performance_tracker e' = performance_tracker e.
Proof. unfold rotate. destruct (rotate_committees _ _ _ _ _ _) as [cm|]; [|done]. cbn. by intros [= <-]. Qed.

Lemma boundary_core fuel slot e e' : epoch_boundary fuel slot e = Some e' → same_core e e'.
Proof.
  unfold epoch_boundary. destruct (slot mod 32 =? 0); [|by intros [= <-]]. intros [Hr _]%rotate_core. etrans; [|exact Hr]. by destruct (_ && _).
Qed.

(** ** The clock *)

Definition is_tick (ev : EngineEvent) : bool := match ev with Tick _ _ _ _ => true | _ => false end.

Lemma on_finality_rest {A} (m : M (FinalityLayer (DAGGraph St) CS) ConsensusError A) e :
  let e' := (on_finality m e).2 in current_slot e' = current_slot e ∧ validator_keys e' = validator_keys e ∧ performance_tracker e' = performance_tracker e.
Proof. unfold on_finality. by destruct (m (layer e)). Qed.

Lemma sign_own_rest now k c e : let e' := sign_own now k c e in current_slot e' = current_slot e ∧ validator_keys e' = validator_keys e ∧
  (performance_tracker e' = performance_tracker e ∨ performance_tracker e' = record_checkpoint_signature (key_address k) (performance_tracker e)).
Proof.
  unfold sign_own. set (m1 := sign_checkpoint _ _ _ _ _ _). pose proof (on_finality_rest m1 e) as (H1 & H2 & H3).
  destruct (on_finality m1 e) as [[sg|x] e1]; cbn [snd] in *; [|by split_and!; [..|left]]. set (e2 := set_tracker _ e1). set (m2 := receive_checkpoint_signature _ _ _ _ _).
  pose proof (on_finality_rest m2 e2) as (G1 & G2 & G3). destruct (on_finality m2 e2) as [[[f|]|x] e3]; cbn [snd] in *; (split_and!; [by etrans..|right; rewrite <- H3; exact G3]).
Qed.

Lemma checkpoint_step_rest now slot e : let e' := (checkpoint_step now slot e).2 in current_slot e' = current_slot e ∧ validator_keys e' = validator_keys e ∧
  (performance_tracker e' = performance_tracker e ∨ ∃ k, performance_tracker e' = record_checkpoint_signature (key_address k) (performance_tracker e)).
Proof.
  unfold checkpoint_step, bindM. set (m := maybe_create_checkpoint _ _ _). pose proof (on_finality_rest m e) as (H1 & H2 & H3).
  destruct (on_finality m e) as [[c|x] e1]; cbn [snd modify] in *; [|by split_and!; [..|left]]. destruct c as [c|]; [|by split_and!; [..|left]].
  destruct (validator_keys e1) as [k|] eqn:Hk; [|split_and!; [done|congruence|by left]]. pose proof (sign_own_rest now k c e1) as (G1 & G2 & G3).
  split_and!; [congruence|congruence|]. rewrite <- H3. destruct G3; [by left|right; by exists k].
Qed.

(** What a tick makes of the tracker: the end of an epoch, a proposal, a signature. *)
Lemma produce_tracker now instant order k slot e : let t := performance_tracker e in let t' := performance_tracker (try_produce_vertices now instant order k slot e).2 in
  t' = t ∨ t' = record_block_proposed (key_address k) 0 t.
Proof.
  unfold try_produce_vertices, bindM. pose proof (proj2 (static_core now instant order k slot e)) as H.
  destruct (try_produce_vertices_static now instant order k slot e) as [[[]|x] e1]; cbn [snd modify] in *; [|by left]. rewrite <- H. destruct (existsb _ _); [by right|by left].
Qed.

(** A predicate on trackers that every way of recording keeps. *)
Record tracker_inv (Q : ValidatorPerformanceTracker → Prop) : Prop := {
  ti_block : ∀ a t, Q t → Q (record_block_proposed a 0 t);
  ti_vote : ∀ a t, Q t → Q (record_vote a t);
  ti_sign : ∀ a t, Q t → Q (record_checkpoint_signature a t)
}.

Lemma tick_after_boundary Q now instant order slot e : tracker_inv Q → Q (performance_tracker e) →
  let e' := ((match validator_keys e with Some k => try_produce_vertices now instant order k slot | None => returns () end ?; checkpoint_step now slot) e).2 in
  Q (performance_tracker e') ∧ current_slot e' = current_slot e ∧ validator_keys e' = validator_keys e.
Proof.
  intros [Hb Hv Hs] HQ. unfold bindM. set (m := match validator_keys e with Some k => _ | None => _ end).
  assert (Hm : Q (performance_tracker (m e).2) ∧ current_slot (m e).2 = current_slot e ∧ validator_keys (m e).2 = validator_keys e).
  { unfold m. destruct (validator_keys e) as [k|] eqn:Hk; [|done]. pose proof (produce_core now instant order k slot e) as (_ & -> & ->).
    rewrite Hk. split; [|done]. destruct (produce_tracker now instant order k slot e) as [-> | ->]; auto. }
  destruct (m e) as [[[]|x] e1]; cbn [snd] in *; [|done]. destruct Hm as (HQ1 & H1 & H2). pose proof (checkpoint_step_rest now slot e1) as (G1 & G2 & G3).
  split; [|split; congruence]. destruct G3 as [-> |[k ->]]; auto.
Qed.

Lemma boundary_tracker fuel slot e e' : epoch_boundary fuel slot e = Some e' →
  performance_tracker e' = performance_tracker e ∧ (slot mod 32 ≠ 0 ∨ slot ≤ 0 ∨ pt_epoch (performance_tracker e) = slot / 32) ∨ performance_tracker e' = mkTracker (slot / 32) ∅.
Proof.
  unfold epoch_boundary. destruct (Z.eqb_spec (slot mod 32) 0) as [Hm|Hm]; [|intros [= <-]; left; split; [done|by left]]. intros [_ Hr]%rotate_core. rewrite Hr.
  destruct (Z.ltb_spec 0 slot) as [Hp|Hp]; [|left; split; [done|by right; left]]. destruct (Z.eqb_spec (pt_epoch (performance_tracker e)) (slot / 32)) as [He|He]; [left; split; [done|by right; right]|by right].
Qed.

(** A step other than a tick. *)
Lemma other_step_core e ev e' : engine_step e ev = Some e' → is_tick ev = false →
  same_core e e' ∧ (performance_tracker e' = performance_tracker e ∨ ∃ a, performance_tracker e' = record_vote a (performance_tracker e)).
Proof.
  intros Hs Ht. destruct ev as [| now| now|tx|txs|ops|instant v|vote|v]; [done|..]; cbn [engine_step] in Hs; injection Hs as <-.
  - destruct (l0_task_core now e); auto.
  - destruct (on_fast_core (λ p, ((), cleanup now p)) e); auto.
  - unfold submit_transaction. pose proof (on_fast_core (process_transaction tx) e) as [H1 H2]. destruct (on_fast (process_transaction tx) e); auto.
  - destruct (submit_batch_core txs e); auto.
  - destruct (swap_core ops e); auto.
  - unfold engine_receive_vertex. destruct (on_fast_core (receive_vertex show_dag show_state instant v) e); auto.
  - unfold engine_receive_vote. set (e0 := set_tracker _ e). pose proof (on_fast_core (receive_vote verify_sig show_dag show_consensus vote) e0) as [H1 H2].
    destruct (on_fast (receive_vote _ _ _ vote) e0) as [r e1]. split; [exact H1|]. right. by exists (Vertex.validator vote).
  - unfold engine_register_validator. destruct (cm_add_validator v (manager e)). split; [done|by left].
Qed.

Lemma trace_cons e ev evs es : trace e (ev :: evs) = Some es → ∃ e1 es1, engine_step e ev = Some e1 ∧ trace e1 evs = Some es1 ∧ es = e1 :: es1.
Proof. cbn [trace]. destruct (engine_step e ev) as [e1|]; [|done]. cbn. destruct (trace e1 evs) as [es1|] eqn:Ht; [|done]. cbn. intros [= <-]. by exists e1, es1. Qed.

Definition ticks (evs : list EngineEvent) : Z := Z.of_nat (length (filter (λ ev, is_tick ev = true) evs)).

Lemma tick_clock e fuel now instant order e' : engine_step e (Tick fuel now instant order) = Some e' → 0 ≤ current_slot e < u64_max → pt_epoch (performance_tracker e) = current_slot e / 32 →
  current_slot e' = current_slot e + 1 ∧ pt_epoch (performance_tracker e') = current_slot e' / 32 ∧ validator_keys e' = validator_keys e.
Proof.
  cbn [engine_step]. unfold on_slot_tick. set (slot := wrapping_add u64_max (current_slot e) 1). intros Hs Hr He.
  assert (Hslot : slot = current_slot e + 1) by (unfold slot, wrapping_add; apply Z.mod_small; lia). clearbody slot.
  destruct (epoch_boundary fuel slot (set_slot slot e)) as [e1|] eqn:Hb; [|done]. cbn in Hs. injection Hs as <-. pose proof (boundary_core _ _ _ _ Hb) as (_ & Hk1 & Hs1). cbn in Hk1, Hs1.
  assert (Hp1 : pt_epoch (performance_tracker e1) = slot / 32).
  { apply boundary_tracker in Hb as [[-> Hb]| ->]; [|done]. cbn in *. rewrite He. destruct Hb as [Hm|[Hb|Hb]]; [|lia|congruence]. subst slot.
    pose proof (Z.div_mod (current_slot e) 32 ltac:(lia)). pose proof (Z.div_mod (current_slot e + 1) 32 ltac:(lia)). pose proof (Z.mod_pos_bound (current_slot e) 32). pose proof (Z.mod_pos_bound (current_slot e + 1) 32). lia. }
  destruct (tick_after_boundary (λ t, pt_epoch t = slot / 32) now instant order slot e1) as (HQ & H1 & H2); [by split|done|]. rewrite H1, Hs1. split_and!; [done|exact HQ|congruence].
Qed.

(** The clock.  On every history shorter than 2^64 slots the slot counter is the number of ticks, failed ones included, and the
    performance tracker is in the epoch of that slot. *)
Theorem engine_clock e evs es e' : trace e evs = Some es → list.last (e :: es) = Some e' → current_slot e = 0 → pt_epoch (performance_tracker e) = 0 → ticks evs ≤ u64_max →
  current_slot e' = ticks evs ∧ pt_epoch (performance_tracker e') = ticks evs / 32.
Proof.
  intros Ht Hl H0 H1. assert (Hgen : ∀ n, 0 ≤ n → current_slot e = n → pt_epoch (performance_tracker e) = n / 32 → n + ticks evs ≤ u64_max →
    current_slot e' = n + ticks evs ∧ pt_epoch (performance_tracker e') = (n + ticks evs) / 32); [|intros Hle; by apply (Hgen 0)].
  clear H0 H1. revert e es Ht Hl. induction evs as [|ev evs IH]; intros e es Ht Hl n Hn H0 H1 Hle.
  { cbn in Ht. injection Ht as <-. injection Hl as <-. change (ticks []) with 0 in *. rewrite Z.add_0_r. done. }
  apply trace_cons in Ht as (e1 & es1 & Hs & Ht & ->). assert (Hl1 : list.last (e1 :: es1) = Some e') by done. destruct (is_tick ev) eqn:Hev.
  - assert (Hti : ticks (ev :: evs) = 1 + ticks evs) by (unfold ticks; rewrite filter_cons_True by done; cbn [length]; lia). rewrite Hti in *. destruct ev as [fuel now instant order| | | | | | | |]; try done.
    assert (0 ≤ ticks evs) by (unfold ticks; lia). destruct (tick_clock e fuel now instant order e1 Hs) as (Hc & Hp & _); [lia|congruence|].
    destruct (IH e1 es1 Ht Hl1 (n + 1)) as [-> ->]; [lia|lia|by rewrite Hp, Hc, H0|lia|]. split; [lia|by replace (n + 1 + ticks evs) with (n + (1 + ticks evs)) by lia].
  - assert (Hti : ticks (ev :: evs) = ticks evs) by (unfold ticks; by rewrite filter_cons_False by (by rewrite Hev)). rewrite Hti in *. destruct (other_step_core e ev e1 Hs Hev) as [(_ & _ & Hc) Hp].
    apply (IH e1 es1 Ht Hl1); [done|congruence| |done]. destruct Hp as [-> |[a ->]]; done.
Qed.

(** ** Broadcasting *)

Definition unsent (p : FP) : Prop := vertex_sender p = None.

Lemma speculate_unsent v p : unsent p → unsent (speculate show_state v p).2.
Proof. unfold speculate. by destruct (speculative_execute v (fp_executor p)) as [[]]. Qed.

Lemma on_dag_unsent {A} f (m : M (DAGGraph St) DAGError A) (p : FP) : unsent p → unsent (on_dag show_dag f m p).2.
Proof. unfold on_dag. by destruct (m (fp_dag p)) as [[]]. Qed.

(** Operations that touch the channel of no state. *)
Lemma create_unsent now instant shard c sk p : unsent p → unsent (create_vertex hash_data sign show_dag show_state now instant shard c sk p).2.
Proof.
  intros Hp. unfold FastPath.create_vertex. apply bindM_inv; [unfold take_payload; by destruct (ps_build _ _ _)|]. intros txs p1 _ H1. apply bindM_inv; [done|]. intros [] p2 E2 _. injection E2 as _ <-.
  apply bindM_inv; [done|]. intros v p3 E3 _. injection E3 as _ <-. apply bindM_inv; [by apply speculate_unsent|]. intros root p4 _ H4. apply bindM_inv; [done|]. intros sg p5 E5 _. injection E5 as _ <-.
  apply bindM_inv; [done|]. intros n p6 E6 _. injection E6 as _ <-. apply bindM_inv; [done|]. intros [] p7 E7 _. injection E7 as _ <-. apply bindM_inv; [done|]. intros [] p8 _ H8.
  apply bindM_inv; [unfold unsent in *; cbn; by rewrite H8|]. intros [] p9 _ H9. done.
Qed.

Lemma create_all_unsent now instant shards c sk : ∀ p, unsent p → unsent (create_vertices_parallel hash_data sign show_dag show_state now instant shards c sk p).2.
Proof.
  induction shards as [|sh shards IH]; intros p Hp; [done|]. cbn [create_vertices_parallel]. pose proof (create_unsent now instant sh c sk p Hp) as H1.
  destruct (create_vertex _ _ _ _ _ _ _ _ _ p) as [r p1]. specialize (IH p1 H1). by destruct (create_vertices_parallel _ _ _ _ _ _ _ _ _ p1).
Qed.

Lemma confirm_unsent v p : unsent p → unsent (confirm_vertex show_dag v p).2.
Proof.
  intros Hp. unfold FastPath.confirm_vertex. apply bindM_inv; [by destruct (confirm_execution _ _)|]. intros r p1 _ H1. apply bindM_inv; [by apply on_dag_unsent|]. intros [] p2 _ H2.
  apply bindM_inv; [done|]. intros [] p3 _ H3. apply bindM_inv; [by apply on_dag_unsent|]. by intros [] p4 _ H4.
Qed.

Lemma direct_all_unsent vs : ∀ p, unsent p → unsent (confirm_vertices_batch_direct show_dag vs p).2.
Proof.
  induction vs as [|v vs IH]; intros p Hp; [done|]. cbn [confirm_vertices_batch_direct]. apply bindM_inv.
  - unfold confirm_vertex_direct. apply bindM_inv; [unfold modify, take_pending; by destruct (pending_vertices p !! vhash v)|]. intros [] p1 _ H1. by apply confirm_unsent.
  - intros c p1 _ H1. apply bindM_inv; [by apply IH|]. by intros rest p2 _ H2.
Qed.

Lemma vote_unsent vote p : unsent p → unsent (receive_vote verify_sig show_dag show_consensus vote p).2.
Proof.
  intros Hp. unfold FastPath.receive_vote. destruct (pending_vertices p !! _) as [en|]; [|done]. destruct (get_committee_for_shard _ _ _) as [c|]; [|done]. destruct (check_vote _ _ _ _ _); [|done].
  destruct (quorum_threshold c); [|done]. destruct (_ && _); [|done]. by apply confirm_unsent.
Qed.

Lemma receive_unsent instant v p : unsent p → unsent (receive_vertex show_dag show_state instant v p).2.
Proof.
  intros Hp. unfold FastPath.receive_vertex. destruct (bool_decide _); [done|]. apply bindM_inv; [done|]. intros [] p1 E1 _. injection E1 as _ <-. apply bindM_inv; [by apply for_each_inv|].
  intros [] p2 _ H2. apply bindM_inv; [by apply speculate_unsent|]. intros root p3 _ H3. destruct (negb _). { apply bindM_inv; [done|]. by intros [] p4 _ H4. }
  apply bindM_inv; [done|]. intros n p4 E4 _. injection E4 as _ <-. destruct (_ <=? _); [|done]. apply bindM_inv; [done|]. by intros [] p5 _ H5.
Qed.

Lemma cleanup_unsent now p : unsent p → unsent (cleanup now p).
Proof. unfold cleanup. generalize ((filter (λ kv, is_stale now kv.2 = true) (map_to_list (pending_vertices p))).*1). intros hs. revert p. induction hs as [|h hs IH]; intros p Hp; [done|]. by apply IH. Qed.

Lemma sync_unsent p : unsent p → unsent (sync p).
Proof. unfold sync. by destruct (sm_set _). Qed.

Lemma votes_unsent now slot k results : ∀ acc p, unsent p → unsent (vote_loop now slot k results acc p).2.
Proof.
  induction results as [|[v|x] results IH]; intros acc p Hp; [done| |by apply IH]. cbn [vote_loop]. apply bindM_inv; [done|]. intros vote p1 E1 _. injection E1 as _ <-.
  apply bindM_inv; [by apply vote_unsent|]. intros r p2 _ H2. apply bindM_inv; [by apply sync_unsent|]. intros [] p3 _ H3. by apply IH.
Qed.

Lemma on_fast_unsent {A} (m : FP → A * FP) e : (∀ p, unsent p → unsent (m p).2) → unsent (fast_path e) → unsent (fast_path (on_fast m e).2).
Proof. intros Hm He. unfold on_fast. pose proof (Hm _ He) as H. destruct (m (fast_path e)) as [r p]. by apply sync_unsent. Qed.

Lemma static_unsent now instant order k slot e : unsent (fast_path e) → unsent (fast_path (try_produce_vertices_static now instant order k slot e).2).
Proof.
  intros He. unfold try_produce_vertices_static. destruct (active_shards _ _ _) as [|sh shs]; [done|]. set (m := λ p : FP, _).
  assert (Hm : unsent (fast_path (on_fast m e).2)).
  { apply on_fast_unsent; [|done]. intros p Hp. unfold m. pose proof (create_all_unsent now instant (order (sh :: shs)) (key_address k) (signing_secret k) p Hp) as H1.
    destruct (create_vertices_parallel _ _ _ _ _ _ _ _ _ p) as [results p1]. apply sync_unsent in H1. unfold confirm_created. destruct (_ <=? _); [|by apply votes_unsent].
    destruct (created _) as [|v vs]; [done|]. apply bindM_inv; [by apply direct_all_unsent|]. by intros batch p2 _ H2. }
  destruct (on_fast m e) as [[c|x] e1]; [|done]. unfold persist_committed. by destruct (0 <? c.2).
Qed.

Lemma on_finality_unsent {A} (m : M (FinalityLayer (DAGGraph St) CS) ConsensusError A) e : unsent (fast_path e) → unsent (fast_path (on_finality m e).2).
Proof. unfold on_finality. by destruct (m (layer e)). Qed.

Lemma checkpoint_unsent now slot e : unsent (fast_path e) → unsent (fast_path (checkpoint_step now slot e).2).
Proof.
  intros He. unfold checkpoint_step. apply (bindM_inv (λ e, unsent (fast_path e))); [by apply on_finality_unsent|]. intros [c|] e1 _ H1; [|done]. cbn. destruct (validator_keys e1) as [k|]; [|done].
  unfold sign_own. set (m1 := sign_checkpoint _ _ _ _ _ _). pose proof (on_finality_unsent m1 e1 H1) as H2. destruct (on_finality m1 e1) as [[sg|x] e2]; [|done]. set (e3 := set_tracker _ e2).
  set (m2 := receive_checkpoint_signature _ _ _ _ _). pose proof (on_finality_unsent m2 e3 H2) as H3. by destruct (on_finality m2 e3) as [[[f|]|x] e4].
Qed.

Lemma tick_unsent fuel now instant order e e' : engine_step e (Tick fuel now instant order) = Some e' → unsent (fast_path e) → unsent (fast_path e').
Proof.
  cbn [engine_step]. unfold on_slot_tick. set (slot := wrapping_add _ _ _). destruct (epoch_boundary fuel slot (set_slot slot e)) as [e1|] eqn:Hb; [|done]. cbn. intros [= <-] He.
  assert (H1 : unsent (fast_path e1)).
  { revert Hb. unfold epoch_boundary. destruct (_ =? 0); [|by intros [= <-]]. unfold rotate. set (e0 := if _ && _ then _ else _). assert (H0 : unsent (fast_path e0)) by (unfold e0; by destruct (_ && _)).
    destruct (rotate_committees _ _ _ _ _ _); [|done]. cbn. by intros [= <-]. }
  apply (bindM_inv (λ e, unsent (fast_path e))).
  - destruct (validator_keys e1) as [k|]; [|done]. unfold try_produce_vertices. apply (bindM_inv (λ e, unsent (fast_path e))); [by apply static_unsent|]. intros [] e2 _ H2. cbn. by destruct (existsb _ _).
  - intros [] e2 _ H2. by apply checkpoint_unsent.
Qed.

Lemma step_unsent e ev e' : engine_step e ev = Some e' → unsent (fast_path e) → unsent (fast_path e').
Proof.
  destruct ev as [fuel now instant order|now|now|tx|txs|ops|instant v|vote|v]; [apply tick_unsent|..]; cbn [engine_step]; intros Hs%(inj Some) He; subst e'.
  - unfold run_l0_task. destruct (l0_tasks e) as [|[f set] ts]; [done|]. destruct (finality_hub e); [|done]. by destruct (build_proof _ _ _ _ _ _ _ _).
  - apply on_fast_unsent; [|done]. intros p. apply cleanup_unsent.
  - unfold submit_transaction. assert (H : unsent (fast_path (on_fast (process_transaction tx) e).2)).
    { apply on_fast_unsent; [|done]. intros p Hp. unfold process_transaction. by destruct (ps_ingest _ _). } by destruct (on_fast (process_transaction tx) e).
  - revert e He. induction txs as [|tx txs IH]; intros e He; [done|]. cbn [submit_transactions_batch]. destruct (ps_ingest _ _) as [ok b].
    specialize (IH (set_fast (FastPath.set_source b (fast_path e)) e) He). by destruct (submit_transactions_batch txs _).
  - unfold execute_atomic_swap. destruct (serialize ops); [|done]. destruct (ap_execute _ _ _) as [r [[[c d] s] cm]]. by apply sync_unsent.
  - apply on_fast_unsent; [|done]. intros p. apply receive_unsent.
  - unfold engine_receive_vote. set (e0 := set_tracker _ e). assert (H : unsent (fast_path (on_fast (receive_vote verify_sig show_dag show_consensus vote) e0).2)).
    { apply on_fast_unsent; [|done]. intros p. apply vote_unsent. } by destruct (on_fast (receive_vote _ _ _ vote) e0).
  - unfold engine_register_validator. by destruct (cm_add_validator v (manager e)).
Qed.

(** No vertex leaves the node.  The engine's constructor keeps only the sending half of the vertex channel, and nothing reopens it:
    in every state of every history that starts from a new engine, before or after its keys are set, the channel is closed,
    so that no vertex the node creates is ever handed to the network. *)
Theorem engine_never_broadcasts config state store vertices checkpoints source c loaded e genesis k evs es e' :
  new_engine config state store vertices checkpoints source c loaded = Ok e → trace (set_validator_keys genesis k e) evs = Some es → e' ∈ set_validator_keys genesis k e :: es →
  vertex_sender (fast_path e') = None.
Proof.
  intros Hnew. assert (He : unsent (fast_path (set_validator_keys genesis k e))).
  { assert (Hu : unsent (fast_path e)) by (revert Hnew; unfold new_engine; destruct (l0_enabled _); [destruct (new_hub _)|]; congruence || by intros [= <-]).
    unfold set_validator_keys. set (listed := existsb _ (gc_validators genesis)). set (e2 := if listed then authorize _ _ else _).
    assert (H2 : unsent (fast_path e2)) by (unfold e2; by destruct listed). clearbody e2. destruct (_ && _); [exact H2|].
    destruct (cm_add_validator _ _) as [[[]|x] cm']; exact H2. }
  revert He. generalize (set_validator_keys genesis k e). clear Hnew. intros e0. revert e0 es. induction evs as [|ev evs IH]; intros e0 es He Ht Hin.
  - cbn in Ht. injection Ht as <-. apply list_elem_of_singleton in Hin as ->. exact He.
  - apply trace_cons in Ht as (e1 & es1 & Hs & Ht & ->). apply elem_of_cons in Hin as [-> |Hin]; [exact He|]. by apply (IH e1 es1 (step_unsent e0 ev e1 Hs He)).
Qed.

(** ** Finality *)

Abbreviation FL := (FinalityLayer (DAGGraph St) CS).

Lemma create_keeps_set now slot (s : FL) : Finality.validator_set (maybe_create_checkpoint hash_data now slot s).2 = Finality.validator_set s.
Proof.
  unfold maybe_create_checkpoint. apply (bindM_inv (λ s', Finality.validator_set s' = Finality.validator_set s)); [done|]. intros s1 s2 E1 H1. injection E1 as <- <-. destruct (_ <? _); [done|].
  apply (bindM_inv (λ s', Finality.validator_set s' = Finality.validator_set s)).
  - unfold create_checkpoint. apply (bindM_inv (λ s', Finality.validator_set s' = Finality.validator_set s)); [done|]. intros s3 s4 E3 H3. injection E3 as <- <-. destruct (stored_state_root _ _); [|done].
    apply (bindM_inv (λ s', Finality.validator_set s' = Finality.validator_set s)); [done|]. by intros [] s5 _ H5.
  - intros c s3 _ H3. apply (bindM_inv (λ s', Finality.validator_set s' = Finality.validator_set s)); [done|]. by intros [] s4 _ H4.
Qed.

Lemma sign_keeps now h a pk sg (s : FL) : (sign_checkpoint hash_data now h a pk sg s).2 = s ∧ ∀ x, (sign_checkpoint hash_data now h a pk sg s).1 = Ok x → signer x = a.
Proof.
  unfold sign_checkpoint, bindM, gets. cbn [id]. destruct (pending_checkpoints s !! h) as [p|]; [|done]. destruct (get_validator _ a) as [v|]; [|done].
  unfold fail_if. destruct (negb _); [done|]. destruct (sg _) as [b|x]; [|done]. split; [done|]. by intros ? [= <-].
Qed.

Lemma finalize_keeps_set h (s : FL) : Finality.validator_set (finalize_checkpoint hash_data aggregate h s).2 = Finality.validator_set s.
Proof.
  set (P1 := λ s' : FL, Finality.validator_set s' = Finality.validator_set s). change (P1 (finalize_checkpoint hash_data aggregate h s).2). unfold finalize_checkpoint.
  apply bindM_inv; [done|]. intros s1 s2 E1 _. injection E1 as <- <-. destruct (pending_checkpoints s !! h) as [p|]; [|done]. apply bindM_inv; [done|]. intros [] s3 _ H3.
  apply bindM_inv; [unfold store_checkpoint; by destruct (put_checkpoint _ _) as [[]]|]. intros [] s4 _ H4. apply bindM_inv; [done|]. intros [] s5 _ H5.
  apply bindM_inv; [unfold mark_vertices_finalized; by destruct (dag_finalize _ _) as [[]]|]. by intros [] s6 _ H6.
Qed.

Lemma modify_bind_eq {S X A} (f : S → S) (k : () → M S X A) s : bindM (modify f) k s = k () (f s).
Proof. done. Qed.

(** Reception, branch by branch. *)
Lemma receive_cases h sg (s : FL) : let s' := (receive_checkpoint_signature hash_data verify aggregate h sg s).2 in
  s' = s ∨ ∃ p v, pending_checkpoints s !! h = Some p ∧ signer sg ∉ pc_signers p ∧ get_validator (Finality.validator_set s) (signer sg) = Some v ∧
    let signed q := Finality.set_pending (<[h := mkPending (pc_checkpoint p) (pc_dag_tips p) (pc_signatures p ++ [sg]) ({[signer sg]} ∪ pc_signers p) q]> (pending_checkpoints s)) s in
    s' = signed (pc_stake_signed p) ∨ s' = signed (pc_stake_signed p + effective_stake v) ∨
    (quorum_of (total_active_stake (Finality.validator_set s)) ≤ pc_stake_signed p + effective_stake v ∧
     s' = (finalize_checkpoint hash_data aggregate h (signed (pc_stake_signed p + effective_stake v))).2).
Proof.
  unfold receive_checkpoint_signature. rewrite gets_bind. cbn [id]. destruct (pending_checkpoints s !! h) as [p|] eqn:Hp; [|by left]. case_bool_decide as Hin; [by left|].
  destruct (get_validator (Finality.validator_set s) (signer sg)) as [v|] eqn:Hv; [|by left]. rewrite !fail_if_bind. destruct (negb _ || _); [by left|]. destruct (bool_decide _); [by left|]. destruct (negb _); [by left|]. right. exists p, v. split_and!; [done..|]. unfold put_pending. rewrite !modify_bind_eq.
  destruct (checked_add u128_max _ _) as [q|] eqn:Hq; [|by left]. apply checked_add_Some in Hq as [-> _]. rewrite !modify_bind_eq. right. unfold Finality.set_pending. cbn [pending_checkpoints].
  rewrite !insert_insert_eq. cbn [Finality.storage Finality.dag Finality.validator_set finalized_checkpoints checkpoint_interval last_checkpoint_slot num_shards].
  destruct (Z.leb_spec (quorum_of (total_active_stake (Finality.validator_set s))) (pc_stake_signed p + effective_stake v)) as [Hge|Hlt]; [right|by left].
  split; [done|]. unfold bindM. by destruct (finalize_checkpoint _ _ _ _) as [[f|x] s3].
Qed.

Lemma receive_keeps_set h sg (s : FL) : Finality.validator_set (receive_checkpoint_signature hash_data verify aggregate h sg s).2 = Finality.validator_set s.
Proof. destruct (receive_cases h sg s) as [-> |(p & v & _ & _ & _ & [-> |[-> |[_ ->]]])]; try done. by rewrite finalize_keeps_set. Qed.

(** ** Finality on one's own *)

(** No checkpoint is final and only [me] signed the pending ones. *)
Definition solo (me : Address) (s : FL) : Prop :=
  finalized_checkpoints s = [] ∧ map_Forall (λ _ p, pc_signers p ⊆ {[me]} ∧ (pc_signers p = ∅ → pc_stake_signed p = 0)) (pending_checkpoints s).

Lemma create_solo me now slot (s : FL) : solo me s → solo me (maybe_create_checkpoint hash_data now slot s).2.
Proof.
  intros Hs. unfold maybe_create_checkpoint. apply bindM_inv; [done|]. intros s1 s2 E1 H1. injection E1 as <- <-. destruct (_ <? _); [done|]. apply bindM_inv.
  - unfold create_checkpoint. apply bindM_inv; [done|]. intros s3 s4 E3 H3. injection E3 as <- <-. destruct (stored_state_root _ _); [|done]. apply bindM_inv; [|by intros [] s5 _ H5].
    destruct Hs as [Hf Hp]. split; [done|]. apply map_Forall_insert_2; [|done]. split; [apply empty_subseteq|done].
  - intros c s3 _ H3. apply bindM_inv; [done|]. by intros [] s4 _ H4.
Qed.

Definition weight (set : ValidatorSet) (a : Address) : Z := match get_validator set a with Some v => effective_stake v | None => 0 end.

Lemma receive_solo me h sg (s : FL) : solo me s → signer sg = me → weight (Finality.validator_set s) me < quorum_of (total_active_stake (Finality.validator_set s)) →
  solo me (receive_checkpoint_signature hash_data verify aggregate h sg s).2.
Proof.
  intros [Hf Hp] Hsg Hw. destruct (receive_cases h sg s) as [-> |(p & v & Hlook & Hni & Hv & Hcase)]; [done|]. rewrite Hsg in *. destruct (Hp h p Hlook) as [Hsub Hzero].
  assert (Hempty : pc_signers p = ∅) by set_solver. unfold weight in Hw. rewrite Hv in Hw. rewrite (Hzero Hempty), Hempty in Hcase.
  assert (Hset : ∀ q, solo me (Finality.set_pending (<[h := mkPending (pc_checkpoint p) (pc_dag_tips p) (pc_signatures p ++ [sg]) ({[me]} ∪ ∅) q]> (pending_checkpoints s)) s)).
  { intros q. split; [done|]. apply map_Forall_insert_2; [|done]. cbn. split; [set_solver|]. intros He. exfalso. set_solver. }
  destruct Hcase as [-> |[-> |[Hge _]]]; [apply Hset..|lia].
Qed.

Lemma on_finality_layer {A} (m : M FL ConsensusError A) e : Finality.validator_set (m (layer e)).2 = get_validator_set e → layer (on_finality m e).2 = (m (layer e)).2.
Proof. unfold on_finality. destruct (m (layer e)) as [r f]. cbn [snd]. intros Hset. unfold layer, get_validator_set, manager in *. cbn. rewrite <- Hset. by destruct f. Qed.

Lemma layer_set e : Finality.validator_set (layer e) = get_validator_set e.
Proof. done. Qed.

Lemma on_finality_set {A} (m : M FL ConsensusError A) e : get_validator_set (on_finality m e).2 = get_validator_set e.
Proof. unfold on_finality. by destruct (m (layer e)). Qed.

(** What signing one's own checkpoint does to the layer. *)
Lemma sign_own_layer now k c e : get_validator_set (sign_own now k c e) = get_validator_set e ∧
  (layer (sign_own now k c e) = layer e ∨
   ∃ h sg, signer sg = key_address k ∧ layer (sign_own now k c e) = (receive_checkpoint_signature hash_data verify aggregate h sg (layer e)).2).
Proof.
  unfold sign_own. set (h := Checkpoint.hash hash_data c). set (m1 := sign_checkpoint _ _ _ _ _ _).
  pose proof (sign_keeps now h (key_address k) (finality_public k) (sign (finality_secret k)) (layer e)) as [Hsame Hsigner]. fold m1 in Hsame, Hsigner.
  pose proof (on_finality_layer m1 e ltac:(by rewrite Hsame)) as Hl1. pose proof (on_finality_set m1 e) as Hset1. rewrite Hsame in Hl1.
  assert (Hfst : (on_finality m1 e).1 = (m1 (layer e)).1) by (unfold on_finality; by destruct (m1 (layer e))). destruct (on_finality m1 e) as [[sg|x] e1]; cbn [fst snd] in *; [|split; [done|by left]].
  set (e2 := set_tracker _ e1). assert (Hl2 : layer e2 = layer e) by done. set (m2 := receive_checkpoint_signature _ _ _ _ _).
  pose proof (on_finality_layer m2 e2 (receive_keeps_set h sg (layer e2))) as Hl3. pose proof (on_finality_set m2 e2) as Hset3. rewrite Hl2 in Hl3.
  assert (Hset2 : get_validator_set e2 = get_validator_set e) by done.
  destruct (on_finality m2 e2) as [[[f|]|x] e3]; cbn [snd] in *; (split; [by etrans|right; exists h, sg; split; [by apply Hsigner|exact Hl3]]).
Qed.

(** What a checkpoint step does to the layer. *)
Lemma checkpoint_layer now slot e : get_validator_set (checkpoint_step now slot e).2 = get_validator_set e ∧
  let l := (maybe_create_checkpoint hash_data now slot (layer e)).2 in
  (layer (checkpoint_step now slot e).2 = l ∨
   ∃ k h sg, validator_keys e = Some k ∧ signer sg = key_address k ∧ layer (checkpoint_step now slot e).2 = (receive_checkpoint_signature hash_data verify aggregate h sg l).2).
Proof.
  unfold checkpoint_step, bindM. set (m := maybe_create_checkpoint _ _ _). pose proof (on_finality_layer m e (create_keeps_set now slot (layer e))) as Hl. pose proof (on_finality_set m e) as Hset.
  pose proof (on_finality_rest m e) as (_ & Hk & _). destruct (on_finality m e) as [[c|x] e1]; cbn [snd modify] in *; [|by split; [|left]]. destruct c as [c|]; [|by split; [|left]].
  destruct (validator_keys e1) as [k|] eqn:Hk1; [|by split; [|left]]. destruct (sign_own_layer now k c e1) as [Hset2 Hcase]. rewrite Hl in Hcase. split; [by etrans|].
  destruct Hcase as [-> |(h & sg & Hsg & ->)]; [by left|right]. exists k, h, sg. by rewrite <- Hk.
Qed.

(** What a step does to the layer, seen at the end of the step: the graph changes, and a tick makes at most a checkpoint and one signature
    by the node's own key. *)
Lemma step_layer e ev e' : engine_step e ev = Some e' → validator_keys e' = validator_keys e ∧
  let seen := Finality.set_validator_set (get_validator_set e') (finality e) in
  ∃ d, layer e' = Finality.set_dag d seen ∨
    ∃ now slot, let l := (maybe_create_checkpoint hash_data now slot (Finality.set_dag d seen)).2 in
      layer e' = l ∨ ∃ k h sg, validator_keys e = Some k ∧ signer sg = key_address k ∧ layer e' = (receive_checkpoint_signature hash_data verify aggregate h sg l).2.
Proof.
  destruct (is_tick ev) eqn:Hev.
  2: { intros Hs. destruct (other_step_core e ev e' Hs Hev) as [(Hf & Hk & _) _]. split; [done|]. exists (fp_dag (fast_path e')). left. unfold layer. by rewrite Hf. }
  destruct ev as [fuel now instant order| | | | | | | |]; try done. cbn [engine_step]. unfold on_slot_tick. set (slot := wrapping_add _ _ _).
  destruct (epoch_boundary fuel slot (set_slot slot e)) as [e1|] eqn:Hb; [|done]. cbn. intros [= <-]. pose proof (boundary_core _ _ _ _ Hb) as (Hf1 & Hk1 & _). cbn in Hf1, Hk1.
  set (m := match validator_keys e1 with Some k => _ | None => _ end). assert (Hm : same_core e1 (m e1).2) by (unfold m; destruct (validator_keys e1); [apply produce_core|done]).
  unfold bindM. destruct (m e1) as [[[]|x] e2]; cbn [snd] in *; destruct Hm as (Hf2 & Hk2 & _).
  2: { split; [congruence|]. exists (fp_dag (fast_path e2)). left. unfold layer. by rewrite Hf2, Hf1. }
  pose proof (checkpoint_step_rest now slot e2) as (_ & Hk3 & _). split; [congruence|]. destruct (checkpoint_layer now slot e2) as [Hset Hcase]. exists (fp_dag (fast_path e2)). right. exists now, slot.
  rewrite Hset, <- Hf1, <- Hf2. fold (layer e2). destruct Hcase as [Hc|(k & h & sg & Hk & Hsg & Hc)]; [by left|right]. exists k, h, sg. by rewrite <- Hk1, <- Hk2.
Qed.

(** C36. Finality needs every signature to reach the node, and none but its own does.  The engine receives no checkpoint signatures from the
    network: on a history in which its own validator's stake stays below the quorum after every event, no checkpoint
    is ever finalized, whatever the other validators sign. *)
Theorem no_finality_below_quorum e evs es k : trace e evs = Some es → validator_keys e = Some k → finalized_checkpoints (finality e) = [] → pending_checkpoints (finality e) = ∅ →
  Forall (λ e', weight (get_validator_set e') (key_address k) < quorum_of (total_active_stake (get_validator_set e'))) es →
  Forall (λ e', finalized_checkpoints (finality e') = []) (e :: es).
Proof.
  intros Ht Hk Hf Hp. assert (Hsolo : solo (key_address k) (finality e)) by (split; [done|]; rewrite Hp; apply map_Forall_empty). clear Hf Hp. revert e es Ht Hk Hsolo.
  induction evs as [|ev evs IH]; intros e es Ht Hk Hsolo Hw; (apply list.Forall_cons; split; [apply Hsolo|]).
  { cbn in Ht. injection Ht as <-. by apply list.Forall_nil. }
  apply trace_cons in Ht as (e1 & es1 & Hs & Ht & ->). apply list.Forall_cons in Hw as [Hw1 Hw]. destruct (step_layer e ev e1 Hs) as [Hk1 (d & Hcase)].
  apply (IH e1 es1 Ht); [congruence| |done]. change (solo (key_address k) (layer e1)). destruct Hcase as [-> |(now & slot & Hcase)]; [done|].
  set (l0 := Finality.set_dag d _) in Hcase. assert (Hl : solo (key_address k) (maybe_create_checkpoint hash_data now slot l0).2) by (by apply create_solo).
  destruct Hcase as [-> |(k' & h & sg & Hk' & Hsg & ->)]; [done|]. assert (k' = k) as -> by congruence. apply receive_solo; [done..|]. by rewrite create_keeps_set.
Qed.

(** ** The history of the finality layer *)

(** A tick up to the checkpoint step. *)
Definition before_checkpoint (fuel : nat) (now instant : Z) (order : list Z → list Z) (e : E) : option (Result () ConsensusError * E) :=
  let slot := wrapping_add u64_max (current_slot e) 1 in
  e1 ← epoch_boundary fuel slot (set_slot slot e);
  Some ((match validator_keys e1 with Some k => try_produce_vertices now instant order k slot | None => returns () end) e1).

(** The signature a node with keys gives when the layer [l] makes a checkpoint: one, on the hash of the checkpoint, made with its
    finality key, if it can sign. *)
Definition own_signature (now slot : Z) (keys : option ValidatorKeys) (l : FL) : list (Finality.Event (D := DAGGraph St)) :=
  match maybe_create_checkpoint hash_data now slot l, keys with
  | (Ok (Some c), l1), Some k =>
      let h := Checkpoint.hash hash_data c in
      match (sign_checkpoint hash_data now h (key_address k) (finality_public k) (sign (finality_secret k)) l1).1 with Ok sg => [EReceive h sg] | Err _ => [] end
  | _, _ => []
  end.

(** What an event of the engine is for the layer: a tick is the graph that production left and, unless production failed, a tick of the layer
    at the next slot and the node's own signature; any other event is a change of the graph. *)
Definition finality_events (e : E) (ev : EngineEvent) : list (Finality.Event (D := DAGGraph St)) :=
  match ev with
  | Tick fuel now instant order =>
      match before_checkpoint fuel now instant order e with
      | Some (Ok _, e1) =>
          let slot := wrapping_add u64_max (current_slot e) 1 in
          [EGraph (fp_dag (fast_path e1)); ETick now slot] ++ own_signature now slot (validator_keys e) (layer e1)
      | Some (Err _, e1) => [EGraph (fp_dag (fast_path e1))]
      | None => []
      end
  | _ => match engine_step e ev with Some e1 => [EGraph (fp_dag (fast_path e1))] | None => [] end
  end.

Fixpoint run_events (e : E) (evs : list EngineEvent) : list (Finality.Event (D := DAGGraph St)) :=
  match evs with
  | [] => []
  | ev :: evs' => finality_events e ev ++ match engine_step e ev with Some e1 => run_events e1 evs' | None => [] end
  end.

Lemma sign_own_exact now k c e (h := Checkpoint.hash hash_data c) :
  layer (sign_own now k c e) =
  match (sign_checkpoint hash_data now h (key_address k) (finality_public k) (sign (finality_secret k)) (layer e)).1 with
  | Ok sg => (receive_checkpoint_signature hash_data verify aggregate h sg (layer e)).2
  | Err _ => layer e
  end.
Proof.
  unfold sign_own. fold h. set (m1 := sign_checkpoint _ _ _ _ _ _).
  pose proof (sign_keeps now h (key_address k) (finality_public k) (sign (finality_secret k)) (layer e)) as [Hsame _]. fold m1 in Hsame.
  pose proof (on_finality_layer m1 e ltac:(by rewrite Hsame)) as Hl1. rewrite Hsame in Hl1.
  assert (Hfst : (on_finality m1 e).1 = (m1 (layer e)).1) by (unfold on_finality; by destruct (m1 (layer e))). rewrite <- Hfst. destruct (on_finality m1 e) as [[sg|x] e1]; cbn [fst snd] in *; [|done].
  set (e2 := set_tracker _ e1). assert (Hl2 : layer e2 = layer e) by done. set (m2 := receive_checkpoint_signature _ _ _ _ _).
  pose proof (on_finality_layer m2 e2 (receive_keeps_set h sg (layer e2))) as Hl3. rewrite Hl2 in Hl3. by destruct (on_finality m2 e2) as [[[f|]|x] e3].
Qed.

Lemma checkpoint_exact now slot e : get_validator_set (checkpoint_step now slot e).2 = get_validator_set e ∧
  layer (checkpoint_step now slot e).2 = foldl (Finality.step hash_data verify aggregate) (layer e) (ETick now slot :: own_signature now slot (validator_keys e) (layer e)).
Proof.
  split; [apply checkpoint_layer|]. unfold checkpoint_step, bindM, own_signature. cbn [foldl Finality.step]. set (m := maybe_create_checkpoint _ _ _).
  pose proof (on_finality_layer m e (create_keeps_set now slot (layer e))) as Hl. pose proof (on_finality_rest m e) as (_ & Hk & _).
  assert (Hfst : (on_finality m e).1 = (m (layer e)).1) by (unfold on_finality; by destruct (m (layer e))).
  destruct (on_finality m e) as [r e1]. destruct (m (layer e)) as [r' l1]. cbn [fst snd] in *. subst r' l1. destruct r as [c|x]; cbn [snd modify]; [|done]. rewrite Hk. destruct c as [c|]; [|done].
  destruct (validator_keys e) as [k|]; [|done]. rewrite sign_own_exact. by destruct (sign_checkpoint _ _ _ _ _ _ _).1.
Qed.

Lemma step_exact e ev e' : engine_step e ev = Some e' → get_validator_set e' = get_validator_set e →
  layer e' = foldl (Finality.step hash_data verify aggregate) (layer e) (finality_events e ev).
Proof.
  intros Hs Hset. destruct (is_tick ev) eqn:Hev.
  2: { destruct (other_step_core e ev e' Hs Hev) as [(Hf & _ & _) _]. assert (finality_events e ev = [EGraph (fp_dag (fast_path e'))]) as -> by (unfold finality_events; destruct ev; [done|by rewrite Hs..]).
       cbn. unfold layer. by rewrite Hf, Hset. }
  destruct ev as [fuel now instant order| | | | | | | |]; try done. cbn [engine_step finality_events] in *. unfold on_slot_tick in Hs. unfold before_checkpoint. set (slot := wrapping_add _ _ _) in *.
  destruct (epoch_boundary fuel slot (set_slot slot e)) as [e1|] eqn:Hb; [|done]. cbn in Hs |- *. injection Hs as <-. pose proof (boundary_core _ _ _ _ Hb) as (Hf1 & Hk1 & _). cbn in Hf1, Hk1.
  set (m := match validator_keys e1 with Some k => _ | None => _ end) in *.
  assert (Hm : same_core e1 (m e1).2) by (unfold m; destruct (validator_keys e1); [apply produce_core|done]).
  unfold bindM in *. destruct (m e1) as [[[]|x] e2]; cbn [snd] in *; destruct Hm as (Hf2 & Hk2 & _).
  - destruct (checkpoint_exact now slot e2) as [Hset2 Hl]. rewrite Hl, Hk2, Hk1. rewrite Hset2 in Hset. cbn [foldl app Finality.step].
    assert (Finality.set_dag (fp_dag (fast_path e2)) (layer e) = layer e2) as -> by (unfold layer; by rewrite Hf2, Hf1, <- Hset). done.
  - cbn. unfold layer. by rewrite Hf2, Hf1, Hset.
Qed.

(** C32. Refinement.  While the validator set does not change, the finality layer inside the engine, seen with the shared graph and validators, goes through
    exactly the history of the finality layer of [Finality.v] that [run_events] reads off the engine's events: each slot tick is the new
    graph, then, unless production failed, one tick of the layer at the next slot, then, when this makes a checkpoint and the node
    can sign, the reception of one signature, that of the node's own finality key on that checkpoint, under its hash; every other event only
    changes the graph.  What is proved in [Finality.v] of every history holds of the engine. *)
Theorem engine_refines_finality e evs es e' : trace e evs = Some es → Forall (λ e1, get_validator_set e1 = get_validator_set e) es → list.last (e :: es) = Some e' →
  layer e' = foldl (Finality.step hash_data verify aggregate) (layer e) (run_events e evs).
Proof.
  revert e es. induction evs as [|ev evs IH]; intros e es Ht Hset Hl.
  { cbn in Ht. injection Ht as <-. by injection Hl as <-. }
  apply trace_cons in Ht as (e1 & es1 & Hs & Ht & ->). apply list.Forall_cons in Hset as [Hset1 Hset]. cbn [run_events]. rewrite Hs, foldl_app, <- (step_exact e ev e1 Hs Hset1).
  apply (IH e1 es1 Ht); [|done]. eapply list.Forall_impl; [exact Hset|]. cbn. intros x ->. done.
Qed.

(** ** Performance records *)

(** The engine records proposals without CU, votes and checkpoint signatures, never the votes it expected nor a latency. *)
Definition unmeasured (m : EpochMetrics) : Prop := votes_expected m = 0 ∧ latency_samples m = 0 ∧ total_cu_proposed m = 0 ∧ 0 ≤ blocks_proposed m ≤ u64_max.

Lemma unmeasured_score m : unmeasured m → uptime m = fzero ∧ performance_score m = lit 2 10.
Proof.
  intros (He & Hl & Hc & Hb). split; [unfold uptime; by rewrite He|]. assert (Hu : uptime m = fzero) by (unfold uptime; by rewrite He).
  assert (Hlat : avg_inclusion_latency_ms m = fzero) by (unfold avg_inclusion_latency_ms; by rewrite Hl).
  assert (Hcu : cu_utilization m = fzero).
  { unfold cu_utilization. destruct (Z.eqb_spec (blocks_proposed m) 0) as [|Hne]; [done|]. rewrite Hc. destruct (of_Z_positive (blocks_proposed m)) as (x & y & ->); [|by vm_compute].
    split; [lia|]. apply (Z.le_lt_trans _ u64_max); [lia|by vm_compute]. }
  unfold performance_score. rewrite Hu, Hlat, Hcu. by vm_compute.
Qed.

Definition tracker_unmeasured (t : ValidatorPerformanceTracker) : Prop := map_Forall (λ _, unmeasured) (pt_metrics t).

Lemma tracker_unmeasured_inv : tracker_inv tracker_unmeasured.
Proof.
  assert (Hold : ∀ a t, tracker_unmeasured t → unmeasured (default no_metrics (pt_metrics t !! a))).
  { intros a t Ht. destruct (pt_metrics t !! a) as [m|] eqn:Hm; [by apply (Ht a)|]. cbn. unfold unmeasured, u64_max. cbn. lia. }
  assert (Hw : ∀ x, 0 ≤ wrapping_add u64_max x 1 ≤ u64_max).
  { intros x. unfold wrapping_add. pose proof (Z.mod_pos_bound (x + 1) (u64_max + 1) ltac:(by vm_compute)). lia. }
  split; intros a t Ht; specialize (Hold a t Ht); (apply map_Forall_insert_2; [|done]); destruct Hold as (He & Hl & Hc & Hb); unfold unmeasured; cbn; rewrite ?Hc; auto.
Qed.

Lemma step_tracker e ev e' : engine_step e ev = Some e' → tracker_unmeasured (performance_tracker e) → tracker_unmeasured (performance_tracker e').
Proof.
  intros Hs Ht. destruct (is_tick ev) eqn:Hev.
  - destruct ev as [fuel now instant order| | | | | | | |]; try done. revert Hs. cbn [engine_step]. unfold on_slot_tick. set (slot := wrapping_add _ _ _).
    destruct (epoch_boundary fuel slot (set_slot slot e)) as [e1|] eqn:Hb; [|done]. cbn. intros [= <-]. apply (tick_after_boundary tracker_unmeasured); [apply tracker_unmeasured_inv|].
    apply boundary_tracker in Hb as [[-> _]| ->]; [done|apply map_Forall_empty].
  - destruct (other_step_core e ev e' Hs Hev) as [_ [-> |[a ->]]]; [done|]. by apply (ti_vote _ tracker_unmeasured_inv).
Qed.

(** Rewards ignore votes.  In every state of every history that starts with an empty tracker, each performance record the end of an epoch would persist has
    uptime 0, score 0.2 and a reward that depends on the stakes alone: the engine never records an expected vote, a latency or CU. *)
Theorem performance_ignores_votes e evs es e' prev r : trace e evs = Some es → performance_tracker e = new_tracker → e' ∈ e :: es → r ∈ epoch_records prev e' →
  p_uptime r = fzero ∧ p_performance_score r = lit 2 10 ∧
  p_epoch_reward r = to_uint u128_max (fround (of_Z BASE_REWARD * Economics.stake_weight (match List.find (λ v, address v =? p_validator r) (Validators.validators (get_validator_set e')) with
    Some v => effective_stake v | None => 0 end) (sum_u128 (map effective_stake (Validators.validators (get_validator_set e')))) * lit 2 10)%f64).
Proof.
  intros Ht H0 Hin Hr. assert (He : tracker_unmeasured (performance_tracker e)) by (rewrite H0; apply map_Forall_empty). clear H0.
  assert (He' : tracker_unmeasured (performance_tracker e')).
  { revert e es Ht Hin He. induction evs as [|ev evs IH]; intros e es Ht Hin He.
    - cbn in Ht. injection Ht as <-. by apply list_elem_of_singleton in Hin as ->.
    - apply trace_cons in Ht as (e1 & es1 & Hs & Ht & ->). apply elem_of_cons in Hin as [-> |Hin]; [done|]. apply (IH e1 es1 Ht Hin). by apply (step_tracker e ev). }
  apply list_elem_of_fmap in Hr as ([a m] & -> & Hm). apply elem_of_map_to_list in Hm. destruct (unmeasured_score m (He' a m Hm)) as [Hu Hs].
  unfold performance_record, Economics.from_metrics. cbn [p_uptime p_performance_score p_epoch_reward p_validator fst snd]. rewrite Hu, Hs. done.
Qed.

(** ** Receipts *)

Lemma map_fix_labelled slot h rs : Forall (λ r, r_slot r = slot ∧ r_vertex_hash r = h) (map (fix_receipt slot h) rs).
Proof. apply list.Forall_forall. by intros r (r0 & -> & _)%list_elem_of_fmap. Qed.

Definition labelled (slot : Z) (vs : list DAGVertex) (r : TransactionReceipt) : Prop := r_slot r = slot ∧ ∃ v, v ∈ vs ∧ r_vertex_hash r = vhash v.

Lemma fix_labelled slot vs v rs : v ∈ vs → Forall (labelled slot vs) (map (fix_receipt slot (vhash v)) rs).
Proof. intros Hv. eapply list.Forall_impl; [apply map_fix_labelled|]. intros r [Hs Hh]. split; [done|]. by exists v. Qed.

Lemma collect_labelled slot vs batch : Forall (labelled slot vs) (collect_batch slot vs batch).1.1.
Proof.
  cbn. apply List.Forall_concat, list.Forall_forall. intros rs ([v b] & -> & Hin)%list_elem_of_fmap. apply fix_labelled. by apply elem_of_zip_l in Hin.
Qed.

Lemma votes_labelled now slot k vs results : ∀ acc p c p', created results ⊆ vs → Forall (labelled slot vs) acc.1.1 → vote_loop now slot k results acc p = (Ok c, p') →
  Forall (labelled slot vs) c.1.1 ∧ acc.2 ≤ c.2 ≤ acc.2 + Z.of_nat (length (created results)).
Proof.
  induction results as [|[v|x] results IH]; intros acc p c p' Hsub Hacc Hl.
  - cbn in Hl. injection Hl as <- <-. cbn. split; [done|lia].
  - cbn [vote_loop] in Hl. unfold bindM in Hl. destruct (lift _ p) as [[vote|x] p1]; [|done].
    destruct (receive_vote verify_sig show_dag show_consensus vote p1) as [[r|x] p2]; [|done]. cbn [modify] in Hl. change (created (Ok v :: results)) with (v :: created results) in *.
    assert (Hv : v ∈ vs) by (apply Hsub; left). apply IH in Hl as [Hc Hn]; [|intros w Hw; apply Hsub; by right|].
    + split; [done|]. cbn [length]. destruct r as [[root rs]|]; cbn in Hn; lia.
    + destruct r as [[root rs]|]; [|done]. cbn. apply list.Forall_app. split; [done|]. by apply fix_labelled.
  - by apply (IH acc p c p').
Qed.

(** Every receipt the engine persists for a slot carries the number of that slot and the hash of a vertex it created in that slot, and
    at most the created vertices count as committed, whether vertices are confirmed directly or by the node's own vote. *)
Theorem committed_receipts_labelled now slot auto k results p c p' : confirm_created now slot auto k results p = (Ok c, p') →
  Forall (labelled slot (created results)) c.1.1 ∧ 0 ≤ c.2 ≤ Z.of_nat (length (created results)).
Proof.
  unfold confirm_created. destruct auto.
  - destruct (created results) as [|v vs] eqn:Hc; [intros [= <- <-]; by split; [apply list.Forall_nil|]|]. rewrite <- Hc. unfold bindM. destruct (confirm_vertices_batch_direct _ _ p) as [[batch|x] p1]; [|done].
    intros [= <- <-]. split; [apply collect_labelled|]. cbn. rewrite length_zip_with. lia.
  - intros Hl. apply (votes_labelled now slot k (created results)) in Hl; [|done|by apply list.Forall_nil]. done.
Qed.

End Engine.

(** ** Examples *)

Module EngineDemo.
(** Nothing is serialized. *)
Definition silent {A} : Codec A := {| serialize _ := Err "no"%string; deserialize _ := Err "no"%string |}.

(** A node without transactions, whose state only holds the validator set. *)
#[local] Instance demo_state_ops : StateOps (option ValidatorSet) := {|
  st_prepare _ s := (Err InsufficientBalance, s);
  st_simulate _ s := (Err InsufficientBalance, s);
  st_atomically _ s := (Err InsufficientBalance, s);
  st_commit _ s := (Err InsufficientBalance, s);
  st_apply _ s := (None, s);
  st_commit_pending _ s := (Ok 0, s)
|}.
#[local] Instance demo_set : SharedSet (option ValidatorSet) := {| sm_set s := s; sm_put_set v _ := Some v |}.
#[local] Instance demo_source : PayloadSource () := {| ps_ingest _ b := (false, b); ps_build _ _ b := ([], b); ps_pending _ _ := 0 |}.
#[local] Instance demo_checkpoints : CheckpointStore () := {| put_checkpoint _ s := (Ok (), s); load_checkpoint _ _ _ := Ok None; stored_state_root _ _ := Ok None |}.
#[local] Instance demo_swaps : AtomicProtocol () (option ValidatorSet) (gmap Hash DAGVertex) := {| ap_execute _ _ s := (Err "none"%string, s); ap_status _ _ := None |}.
#[local] Instance demo_tx_codec : Codec SignedTransaction := silent.
#[local] Instance demo_receipt_codec : Codec TransactionReceipt := silent.
#[local] Instance demo_record_codec : Codec ValidatorPerformanceRecord := silent.
#[local] Instance demo_ops_codec : Codec (list ShardOperation) := silent.

Definition sum_hash (l : list Z) : Hash := sumZ l.
Definition check (pk m s : list Z) : bool := bool_decide (pk = s).
Definition check_r (pk m s : list Z) : Result bool string := Ok (check pk m s).
Definition make (sk m : list Z) : Result (list Z) string := Ok sk.
Definition no_aggregate (sigs keys : list (list Z)) (m : list Z) (positions : list nat) (n : nat) : option (list Z) := None.
Definition no_vrf (sk : list Z) (seed : Hash) : Result Hash string := Err "none".
Definition no_prover (l : list SignerInput) (p : BatchPublicInputs) : Result StarkBatchProof string := Err "none".
Definition show {A} (_ : A) : string := "error".

Abbreviation run_demo := (trace sum_hash check_r make check no_aggregate no_vrf no_prover show show show show).

Definition config : NodeConfig := mkNodeConfig 1 2 1 1 2 1 default_l0_config.
(** Two validators; the node is the one with a third of the stake. *)
Definition two : ValidatorSet := mkValidatorSet [mkValidator 1 [1] [1] 10 500 true false 0 0 [1]; mkValidator 2 [2] [2] 20 500 true false 0 0 [1]] 30 0.
Definition my_keys : ValidatorKeys := mkKeys [1] [1] [1] [1] [1] [1] 1.
Abbreviation DemoEngine := (QuantosConsensus (option ValidatorSet) (gmap Hash DAGVertex) () () Content ()).

Definition fresh (set : option ValidatorSet) : Result DemoEngine ConsensusError := new_engine config None (new_storage ∅ 42) ∅ () () () set.
Definition node (set : option ValidatorSet) : DemoEngine :=
  match fresh set with
  | Ok e => set_keys (Some my_keys) e
  | Err _ => set_keys None (mkEngine config (new_storage ∅ 42) (new_fast_path (Dag.new ∅ 1 2) () (new_optimistic None 1) (Committee.new None 1 2) None)
               (Finality.new () (Dag.new ∅ 1 2) empty_set 1 1) 0 None () None new_tracker [] [])
  end.

Definition tick (i : nat) : EngineEvent := Tick 100 (Z.of_nat i) 0 (λ l, l).
Definition forty : list EngineEvent := map tick (seq 0 40).
Definition last_of {A} (d : A) (l : list A) : A := default d (list.last l).

#[local] Instance validator_eq_dec : EqDecision Validator.
Proof. solve_decision. Defined.

Lemma demo_run (f : list DemoEngine → bool) : match run_demo (node (Some two)) forty with Some es => f es | None => false end = true →
  ∃ es, run_demo (node (Some two)) forty = Some es ∧ f es = true.
Proof. destruct (run_demo (node (Some two)) forty) as [es|]; [|done]. by exists es. Qed.

(** Applied to forty ticks: the slot is 40 and the tracker is in epoch 1. *)
Lemma engine_clock_witness : ∃ es e', run_demo (node (Some two)) forty = Some es ∧ list.last (node (Some two) :: es) = Some e' ∧ current_slot e' = 40 ∧ pt_epoch (performance_tracker e') = 1.
Proof.
  destruct (demo_run (λ _, true)) as (es & Ht & _); [vm_compute; reflexivity|]. destruct (list.last (node (Some two) :: es)) as [e'|] eqn:Hl; [|apply last_None in Hl; discriminate Hl]. exists es, e'.
  destruct (engine_clock sum_hash check_r make check no_aggregate no_vrf no_prover show show show show (node (Some two)) forty es e' Ht Hl) as [H1 H2]; [vm_compute; reflexivity|vm_compute; reflexivity|vm_compute; discriminate|].
  split_and!; [exact Ht|exact Hl|rewrite H1; vm_compute; reflexivity|rewrite H2; vm_compute; reflexivity].
Defined.

(** Applied to a node with a third of the stake: forty checkpoints, none final. *)
Lemma no_finality_below_quorum_witness : ∃ es, run_demo (node (Some two)) forty = Some es ∧ Forall (λ e', finalized_checkpoints (finality e') = []) (node (Some two) :: es) ∧
  existsb (λ e', last_checkpoint_slot (finality e') =? 40) es = true.
Proof.
  set (low := λ e' : DemoEngine, weight (get_validator_set e') 1 <? quorum_of (total_active_stake (get_validator_set e'))).
  destruct (demo_run (λ es, forallb low es && existsb (λ e', last_checkpoint_slot (finality e') =? 40) es)) as (es & Ht & Hf); [vm_compute; reflexivity|].
  apply andb_true_iff in Hf as [Hw Hs]. exists es. split_and!; [exact Ht| |exact Hs].
  apply (no_finality_below_quorum sum_hash check_r make check no_aggregate no_vrf no_prover show show show show (node (Some two)) forty es my_keys Ht); [vm_compute; reflexivity..|].
  apply list.Forall_forall. intros e' He'. apply Z.ltb_lt. apply (proj1 (forallb_forall low es) Hw). apply list_elem_of_In, He'.
Defined.

(** Applied to forty ticks, of which each makes a checkpoint the node signs. *)
Lemma engine_refines_finality_witness : ∃ es e' fes, run_demo (node (Some two)) forty = Some es ∧ list.last (node (Some two) :: es) = Some e' ∧
  layer e' = foldl (@Finality.step (DAGGraph (gmap Hash DAGVertex)) (engine_dag show) () _ sum_hash check no_aggregate) (layer (node (Some two))) fes ∧
  length (List.filter (λ f, match f with EReceive _ _ => true | _ => false end) fes) = 40%nat.
Proof.
  set (same := λ e' : DemoEngine, bool_decide (Validators.validators (get_validator_set e') = Validators.validators two) && (Validators.total_stake (get_validator_set e') =? 30) && (Validators.epoch (get_validator_set e') =? 0)).
  destruct (demo_run (forallb same)) as (es & Ht & Hf); [vm_compute; reflexivity|]. destruct (list.last (node (Some two) :: es)) as [e'|] eqn:Hl; [|apply last_None in Hl; discriminate Hl].
  pose proof (engine_refines_finality sum_hash check_r make check no_aggregate no_vrf no_prover show show show show (node (Some two)) forty es e' Ht) as Hr.
  eexists es, e', _. split_and!; [exact Ht|exact Hl|apply Hr; [|exact Hl]|vm_compute; reflexivity].
  apply list.Forall_forall. intros x Hx. apply list_elem_of_In in Hx. pose proof (proj1 (forallb_forall same es) Hf x Hx) as Hb'. apply andb_true_iff in Hb' as [[H1 H2]%andb_true_iff H3].
  apply bool_decide_eq_true in H1. apply Z.eqb_eq in H2, H3. change (get_validator_set (node (Some two))) with two. destruct (get_validator_set x) as [vs t ep]. cbn in H1, H2, H3. subst. reflexivity.
Defined.

(** Applied to the node after forty ticks, which has one record. *)
Lemma performance_ignores_votes_witness : ∃ es e' r, run_demo (node (Some two)) forty = Some es ∧ e' ∈ node (Some two) :: es ∧ r ∈ epoch_records 1 e' ∧ p_performance_score r = lit 2 10.
Proof.
  destruct (demo_run (λ es, match list.last es with Some e' => match epoch_records 1 e' with [_] => true | _ => false end | None => false end)) as (es & Ht & Hf); [vm_compute; reflexivity|].
  destruct (list.last es) as [e'|] eqn:Hl; [|discriminate Hf]. destruct (epoch_records 1 e') as [|r [|]] eqn:Hr; [discriminate Hf| |discriminate Hf].
  assert (Hin : e' ∈ node (Some two) :: es) by (right; exact (last_Some_elem_of _ _ Hl)). assert (Hrin : r ∈ epoch_records 1 e') by (rewrite Hr; apply list_elem_of_here).
  destruct (performance_ignores_votes sum_hash check_r make check no_aggregate no_vrf no_prover show show show show (node (Some two)) forty es e' 1 r Ht ltac:(vm_compute; reflexivity) Hin Hrin) as (_ & Hs & _).
  exists es, e', r. split_and!; [exact Ht|exact Hin|exact Hrin|exact Hs].
Defined.

(** Applied to a new node of the development network. *)
Lemma engine_never_broadcasts_witness : ∃ e, fresh (Some two) = Ok e ∧
  vertex_sender (fast_path (set_validator_keys GenesisDemo.encode GenesisDemo.decode String.eqb (devnet GenesisDemo.encode GenesisDemo.keys) my_keys e)) = None.
Proof.
  destruct (fresh (Some two)) as [e|x] eqn:He; [|exfalso; revert He; vm_compute; discriminate]. exists e. split; [reflexivity|].
  apply (engine_never_broadcasts sum_hash check_r make check no_aggregate no_vrf no_prover show show show show GenesisDemo.encode GenesisDemo.decode String.eqb
    config None (new_storage ∅ 42) ∅ () () () (Some two) e (devnet GenesisDemo.encode GenesisDemo.keys) my_keys [] [] _ He); [reflexivity|by left].
Defined.

(** Applied to a slot in which no vertex could be created. *)
Lemma committed_receipts_labelled_witness : ∃ c p', confirm_created (SM := option ValidatorSet) check_r make show show 0 7 false my_keys [Err QuorumNotReached] (fast_path (node (Some two))) = (Ok c, p') ∧
  Forall (labelled 7 []) c.1.1.
Proof.
  destruct (confirm_created check_r make show show 0 7 false my_keys [Err QuorumNotReached] (fast_path (node (Some two)))) as [[c|x] p'] eqn:Hc; [|by vm_compute in Hc]. exists c, p'. split; [reflexivity|].
  apply (committed_receipts_labelled check_r make show show 0 7 false my_keys [Err QuorumNotReached] (fast_path (node (Some two))) c p' Hc).
Defined.
End EngineDemo.
