(* ===== verification/ErasureCoding.v ===== *)
(** * Erasure coding

    Models [src/L1/src/network/erasure_coding.rs]: arithmetic in GF(2^8) by logarithm tables, the Reed-Solomon code
    that cuts a block into [k] data shards and adds parity shards, decoding by inverting a submatrix of the encoding
    matrix, its cache, and the collector of shards.  Bytes are integers below 256.  Elapsed time and the progress ratio of the
    collector are left out. *)

From S2P Require Import Prelude Bytes.

(** ** GF(2^8) *)

Definition GF_POLYNOMIAL : Z := 29.

Record GaloisField : Type := mkGF { exp_table : list Z; log_table : list Z }.

(** The loop over the powers of the generator; [x] is the current one. *)
Fixpoint table_loop (n i : nat) (x : Z) (g : GaloisField) : GaloisField :=
  match n with
  | O => g
  | S n' =>
      let e := <[(i + 255)%nat := x mod 256]> (<[i := x mod 256]> (exp_table g)) in
      let l := <[Z.to_nat x := Z.of_nat i mod 256]> (log_table g) in
      let x1 := Z.shiftl x 1 mod 65536 in
      table_loop n' (S i) (if negb (Z.land x1 256 =? 0) then Z.lxor x1 (Z.lor GF_POLYNOMIAL 256) else x1) (mkGF e l)
  end.

Definition new_field : GaloisField :=
  let g := table_loop 255 0 1 (mkGF (replicate 512 0) (replicate 256 0)) in
  mkGF (<[510%nat := 1]> (exp_table g)) (<[0%nat := 0]> (log_table g)).

Definition GF : GaloisField := new_field.

Definition gf_exp (i : nat) : Z := nth i (exp_table GF) 0.
Definition gf_log (a : Z) : nat := Z.to_nat (nth (Z.to_nat a) (log_table GF) 0).

Definition gf_mul (a b : Z) : Z := if (a =? 0) || (b =? 0) then 0 else gf_exp (gf_log a + gf_log b).

Inductive ErasureCodingError : Type :=
  | InvalidConfig (e : string)
  | InsufficientShards (have need : nat)
  | ShardSizeMismatch
  | InvalidShardIndex (i : nat)
  | EncodingFailed (e : string)
  | DecodingFailed (e : string).

Definition gf_div (a b : Z) : Result Z ErasureCodingError :=
  if a =? 0 then Ok 0
  else if b =? 0 then Err (DecodingFailed "Division by zero in GF(2^8)")
  else Ok (gf_exp (gf_log a + 255 - gf_log b)).

Definition gf_inv (a : Z) : Result Z ErasureCodingError :=
  if a =? 0 then Err (DecodingFailed "Inverse of zero in GF(2^8)") else Ok (gf_exp (255 - gf_log a)).

(** ** Configuration *)

Record ErasureCodingConfig : Type := mkErasureConfig { data_shards : nat; parity_shards : nat; shard_size : nat }.

Definition default_erasure : ErasureCodingConfig := mkErasureConfig 10 4 (Z.to_nat 65536).

Definition total_shards (c : ErasureCodingConfig) : nat := (data_shards c + parity_shards c)%nat.
Definition min_shards (c : ErasureCodingConfig) : nat := data_shards c.

Definition validate_erasure (c : ErasureCodingConfig) : Result () ErasureCodingError :=
  if (data_shards c =? 0)%nat then Err (InvalidConfig "data_shards must be > 0")
  else if (255 <? total_shards c)%nat then Err (InvalidConfig "total shards must be <= 255 for GF(2^8)")
  else Ok ().

Record CodedShard : Type := mkShard { cs_index : nat; cs_data : list Z; cs_block_hash : Hash; cs_original_size : nat }.

(** ** The codec *)

Abbreviation Matrix := (list (list Z)).

(** Identity rows for the data, powers of the generator for the parity. *)
Definition coefficient (cols i j : nat) : Z :=
  if (i <? cols)%nat then (if (i =? j)%nat then 1 else 0)
  else let row := (Z.of_nat (i - cols + 1)) mod 256 in let col := Z.of_nat j mod 256 in gf_exp (Z.to_nat ((row * col) mod 255)).

Definition build_vandermonde_matrix (rows cols : nat) : Matrix := map (λ i, map (coefficient cols i) (seq 0 cols)) (seq 0 rows).

Record ReedSolomonCodec : Type := mkCodec {
  rs_config : ErasureCodingConfig;
  encoding_matrix : Matrix;
  decoding_cache : gmap (list nat) Matrix
}.

Definition new_codec (c : ErasureCodingConfig) : Result ReedSolomonCodec ErasureCodingError :=
  match validate_erasure c with
  | Err e => Err e
  | Ok _ => Ok (mkCodec c (build_vandermonde_matrix (total_shards c) (data_shards c)) ∅)
  end.

(** [slice.chunks(size)] *)
Fixpoint chunks (fuel size : nat) (l : list Z) : list (list Z) :=
  match fuel, l with
  | S fuel', _ :: _ => take size l :: chunks fuel' size (drop size l)
  | _, _ => []
  end.

(** [for j in 0..n { value ^= f(j) }] from 0 *)
Fixpoint xsum (n : nat) (f : nat → Z) : Z := match n with O => 0 | S n' => Z.lxor (xsum n' f) (f n') end.

Definition entry (m : Matrix) (i j : nat) : Z := nth j (nth i m []) 0.

Definition parity_shard (m : Matrix) (k size : nat) (data : list (list Z)) (i : nat) : list Z :=
  map (λ b, xsum k (λ j, gf_mul (entry m i j) (entry data j b))) (seq 0 size).

(** [None]: [chunks(0)] panics, on an empty block. *)
Definition encode (c : ReedSolomonCodec) (data : list Z) (block_hash : Hash) : option (list CodedShard) :=
  let k := data_shards (rs_config c) in
  let n := total_shards (rs_config c) in
  let size := ((length data + k - 1) / k)%nat in
  let padded := take (size * k) data ++ replicate (size * k - length data) 0 in
  if (size =? 0)%nat then None
  else
    let ds := chunks (length padded) size padded in
    let shards := ds ++ map (parity_shard (encoding_matrix c) k size ds) (seq k (n - k)) in
    Some (imap (λ index data', mkShard index data' block_hash (length data)) shards).

(** ** Inverting a matrix *)

(** [[A|I]] *)
Definition augment (n : nat) (m : Matrix) : Matrix :=
  imap (λ i row, <[(n + i)%nat := 1]> (take (2 * n) row ++ replicate (2 * n - length row) 0)) m.

Fixpoint find_pivot (aug : Matrix) (col row fuel : nat) : option nat :=
  match fuel with
  | O => None
  | S fuel' => if negb (entry aug row col =? 0) then Some row else find_pivot aug col (S row) fuel'
  end.

Definition swap_rows (a b : nat) (m : Matrix) : Matrix := <[a := nth b m []]> (<[b := nth a m []]> m).
Definition scale_row (col : nat) (f : Z) (m : Matrix) : Matrix := <[col := map (λ x, gf_mul x f) (nth col m [])]> m.

(** Subtract the pivot row from every other row. *)
Definition eliminate (col : nat) (m : Matrix) : Matrix :=
  imap (λ row r, if negb (row =? col)%nat && negb (nth col r 0 =? 0) then zip_with (λ u v, Z.lxor u (gf_mul (nth col r 0) v)) r (nth col m []) else r) m.

Definition invert_column (n col : nat) (aug : Matrix) : Result Matrix ErasureCodingError :=
  match find_pivot aug col col (n - col) with
  | None => Err (DecodingFailed "Singular matrix")
  | Some pivot =>
      let aug := if (pivot =? col)%nat then aug else swap_rows col pivot aug in
      match gf_inv (entry aug col col) with
      | Err e => Err e
      | Ok pivot_inv => Ok (eliminate col (scale_row col pivot_inv aug))
      end
  end.

Fixpoint invert_columns (n : nat) (cols : list nat) (aug : Matrix) : Result Matrix ErasureCodingError :=
  match cols with
  | [] => Ok aug
  | col :: cols' => match invert_column n col aug with Ok aug' => invert_columns n cols' aug' | Err e => Err e end
  end.

Definition invert_matrix (m : Matrix) : Result Matrix ErasureCodingError :=
  let n := length m in
  match invert_columns n (seq 0 n) (augment n m) with
  | Ok aug => Ok (map (drop n) aug)
  | Err e => Err e
  end.

(** ** Decoding *)

Fixpoint submatrix (m : Matrix) (indices : list nat) : Result Matrix ErasureCodingError :=
  match indices with
  | [] => Ok []
  | i :: indices' =>
      if (length m <=? i)%nat then Err (InvalidShardIndex i)
      else match submatrix m indices' with Ok r => Ok (nth i m [] :: r) | Err e => Err e end
  end.

Definition get_decoding_matrix (indices : list nat) : M ReedSolomonCodec ErasureCodingError Matrix := λ c,
  match decoding_cache c !! indices with
  | Some m => (Ok m, c)
  | None =>
      match submatrix (encoding_matrix c) (take (data_shards (rs_config c)) indices) with
      | Err e => (Err e, c)
      | Ok sub =>
          match invert_matrix sub with
          | Err e => (Err e, c)
          | Ok inverted => (Ok inverted, mkCodec (rs_config c) (encoding_matrix c) (<[indices := inverted]> (decoding_cache c)))
          end
      end
  end.

Fixpoint find_all (shards : list CodedShard) (l : list nat) : Result (list Z) ErasureCodingError :=
  match l with
  | [] => Ok []
  | i :: l' =>
      match List.find (λ s, (cs_index s =? i)%nat) shards with
      | None => Err (InvalidShardIndex i)
      | Some s => match find_all shards l' with Ok r => Ok (cs_data s ++ r) | Err e => Err e end
      end
  end.

Definition decode (shards : list CodedShard) : M ReedSolomonCodec ErasureCodingError (list Z) := λ c,
  let k := data_shards (rs_config c) in
  if (length shards <? k)%nat then (Err (InsufficientShards (length shards) k), c)
  else
    let size := match shards with s :: _ => length (cs_data s) | [] => 0%nat end in
    let original := match shards with s :: _ => cs_original_size s | [] => 0%nat end in
    if existsb (λ s, negb (length (cs_data s) =? size)%nat) shards then (Err ShardSizeMismatch, c)
    else
      let indices := map cs_index (take k shards) in
      if forallb (λ i, (i <? k)%nat) indices && forallb (λ i, existsb (Nat.eqb i) indices) (seq 0 k) then
        (match find_all shards (seq 0 k) with Ok r => Ok (take original r) | Err e => Err e end, c)
      else
        match get_decoding_matrix indices c with
        | (Err e, c') => (Err e, c')
        | (Ok m, c') =>
            let data := map cs_data (take k shards) in
            (Ok (take original (concat (map (λ i, map (λ b, xsum k (λ j, gf_mul (entry m i j) (entry data j b))) (seq 0 size)) (seq 0 k)))), c')
        end.

(** ** Blocks and collectors *)

Record BlockErasureEncoder : Type := mkEncoder { codec : ReedSolomonCodec; max_block_size : nat }.

Definition new_encoder (c : ErasureCodingConfig) : Result BlockErasureEncoder ErasureCodingError :=
  match new_codec c with Ok x => Ok (mkEncoder x (shard_size c * data_shards c)) | Err e => Err e end.

Definition encode_block (e : BlockErasureEncoder) (data : list Z) (h : Hash) : option (Result (list CodedShard) ErasureCodingError) :=
  if (max_block_size e <? length data)%nat then Some (Err (EncodingFailed "Block size exceeds maximum"))
  else Ok <$> encode (codec e) data h.

Definition decode_block (shards : list CodedShard) (e : BlockErasureEncoder) : Result (list Z) ErasureCodingError * BlockErasureEncoder :=
  let '(r, c) := decode shards (codec e) in (r, mkEncoder c (max_block_size e)).

Record ShardCollector : Type := mkCollector { sc_block_hash : Hash; sc_shards : list CodedShard; sc_required : nat; sc_total : nat }.

Definition new_collector (h : Hash) (required total : nat) : ShardCollector := mkCollector h [] required total.

Definition add_shard (s : CodedShard) (c : ShardCollector) : bool * ShardCollector :=
  if negb (cs_block_hash s =? sc_block_hash c) then (false, c)
  else if existsb (λ x, (cs_index x =? cs_index s)%nat) (sc_shards c) then (false, c)
  else (true, mkCollector (sc_block_hash c) (sc_shards c ++ [s]) (sc_required c) (sc_total c)).

Definition is_complete (c : ShardCollector) : bool := (sc_required c <=? length (sc_shards c))%nat.

(** ** The field laws

    Multiplying by the generator is the shift [xtime]; multiplying by its [i]-th power is [i] shifts, which is linear. *)

Lemma ok_injective {A X} (a b : A) : @Ok A X a = Ok b → a = b.
Proof. congruence. Qed.

Definition is_byte (x : Z) : Prop := 0 ≤ x < 256.

Definition xtime (x : Z) : Z := Z.lxor (Z.shiftl x 1) (if Z.testbit x 7 then 285 else 0).

Definition steps (i : nat) (x : Z) : Z := Nat.iter i xtime x.

Definition all_bytes : list Z := map Z.of_nat (seq 0 256).

Lemma byte_in x : is_byte x → x ∈ all_bytes.
Proof. intros Hx. apply list_elem_of_fmap. exists (Z.to_nat x). split; [unfold is_byte in Hx; lia|]. apply elem_of_seq. unfold is_byte in Hx. lia. Qed.

(** A property of all bytes, by evaluation. *)
Lemma bytes_forall (f : Z → bool) x : forallb f all_bytes = true → is_byte x → f x = true.
Proof. intros Hf Hx. apply (proj1 (forallb_forall f all_bytes) Hf). by apply list_elem_of_In, byte_in. Qed.

Lemma nats_forall (f : nat → bool) n i : forallb f (seq 0 n) = true → (i < n)%nat → f i = true.
Proof. intros Hf Hi. apply (proj1 (forallb_forall f (seq 0 n)) Hf). apply in_seq. lia. Qed.

Lemma xtime_lxor x y : xtime (Z.lxor x y) = Z.lxor (xtime x) (xtime y).
Proof.
  unfold xtime. rewrite Z.shiftl_lxor, Z.lxor_spec. destruct (Z.testbit x 7), (Z.testbit y 7); cbn [xorb]; rewrite ?Z.lxor_0_r.
  - rewrite (Z.lxor_comm (Z.shiftl y 1)), Z.lxor_assoc, <- (Z.lxor_assoc 285), Z.lxor_nilpotent. by rewrite Z.lxor_0_l.
  - by rewrite !Z.lxor_assoc, (Z.lxor_comm (Z.shiftl y 1)).
  - by rewrite Z.lxor_assoc.
  - done.
Qed.

Lemma steps_lxor i x y : steps i (Z.lxor x y) = Z.lxor (steps i x) (steps i y).
Proof. induction i as [|i IH]; [done|]. unfold steps in *. rewrite !Nat.iter_succ, IH. apply xtime_lxor. Qed.

Lemma steps_add i j x : steps (i + j) x = steps i (steps j x).
Proof. unfold steps. apply Nat.iter_add. Qed.

Lemma steps_zero i : steps i 0 = 0.
Proof. induction i as [|i IH]; [done|]. unfold steps in *. by rewrite Nat.iter_succ, IH. Qed.

Lemma exp_step i : (i < 510)%nat → xtime (gf_exp i) = gf_exp (S i).
Proof. intros Hi. apply Z.eqb_eq. apply (nats_forall (λ i, xtime (gf_exp i) =? gf_exp (S i)) 510); [lazy; reflexivity|exact Hi]. Qed.

Lemma exp_steps i j : (i + j ≤ 510)%nat → steps i (gf_exp j) = gf_exp (i + j).
Proof. induction i as [|i IH]; intros Hij; [done|]. unfold steps in *. rewrite Nat.iter_succ, IH by lia. rewrite exp_step by lia. done. Qed.

Lemma exp_byte i : (i < 511)%nat → is_byte (gf_exp i) ∧ gf_exp i ≠ 0.
Proof.
  intros Hi. assert (H : (0 <? gf_exp i) && (gf_exp i <? 256) = true) by (apply (nats_forall (λ i, (0 <? gf_exp i) && (gf_exp i <? 256)) 511); [lazy; reflexivity|exact Hi]).
  apply andb_true_iff in H as [H1%Z.ltb_lt H2%Z.ltb_lt]. unfold is_byte. lia.
Qed.

Lemma exp_log x : is_byte x → x ≠ 0 → gf_exp (gf_log x) = x ∧ (gf_log x < 255)%nat.
Proof.
  intros Hx Hne. assert (H : (x =? 0) || (gf_exp (gf_log x) =? x) && (gf_log x <? 255)%nat = true) by (apply (bytes_forall (λ x, (x =? 0) || (gf_exp (gf_log x) =? x) && (gf_log x <? 255)%nat)); [lazy; reflexivity|exact Hx]).
  apply orb_true_iff in H as [H%Z.eqb_eq|H]; [contradiction|]. apply andb_true_iff in H as [H1%Z.eqb_eq H2%Nat.ltb_lt]. split; assumption.
Qed.

Lemma log_exp i : (i < 255)%nat → gf_log (gf_exp i) = i.
Proof. intros Hi. apply Nat.eqb_eq. apply (nats_forall (λ i, (gf_log (gf_exp i) =? i)%nat) 255); [lazy; reflexivity|exact Hi]. Qed.

Lemma exp_period i : (i ≤ 255)%nat → gf_exp (i + 255) = gf_exp i.
Proof. intros Hi. apply Z.eqb_eq. apply (nats_forall (λ i, gf_exp (i + 255) =? gf_exp i) 256); [lazy; reflexivity|lia]. Qed.

#[local] Opaque gf_exp gf_log GF.

(** The product as shifts. *)
Lemma mul_steps a b : is_byte a → is_byte b → a ≠ 0 → gf_mul a b = steps (gf_log a) b.
Proof.
  intros Ha Hb Hna. unfold gf_mul. rewrite (proj2 (Z.eqb_neq a 0)) by done. cbn [orb]. destruct (Z.eqb_spec b 0) as [-> |Hnb]; [by rewrite steps_zero|].
  destruct (exp_log a Ha Hna) as [_ Hla], (exp_log b Hb Hnb) as [Heb Hlb]. rewrite <- Heb at 2. by rewrite exp_steps by lia.
Qed.

Lemma mul_comm a b : gf_mul a b = gf_mul b a.
Proof. unfold gf_mul. rewrite orb_comm. by rewrite Nat.add_comm. Qed.

Lemma mul_0_l a : gf_mul 0 a = 0.
Proof. done. Qed.

Lemma mul_0_r a : gf_mul a 0 = 0.
Proof. by rewrite mul_comm. Qed.

Lemma mul_byte a b : is_byte a → is_byte b → is_byte (gf_mul a b).
Proof.
  intros Ha Hb. unfold gf_mul. destruct (Z.eqb_spec a 0); [done|]. destruct (Z.eqb_spec b 0); [done|]. cbn [orb]. apply exp_byte. destruct (exp_log a) as [_ ?], (exp_log b) as [_ ?]; [assumption..|]. lia.
Qed.

Lemma mul_nonzero a b : is_byte a → is_byte b → gf_mul a b = 0 → a = 0 ∨ b = 0.
Proof.
  intros Ha Hb Hm. destruct (decide (a = 0)); [by left|]. destruct (decide (b = 0)); [by right|]. exfalso. revert Hm. unfold gf_mul. rewrite !(proj2 (Z.eqb_neq _ _)) by done. cbn [orb].
  apply exp_byte. destruct (exp_log a) as [_ ?], (exp_log b) as [_ ?]; [assumption..|]. lia.
Qed.

Lemma mul_1_l a : is_byte a → gf_mul 1 a = a.
Proof. intros Ha. rewrite mul_steps by (done || lia). done. Qed.

Lemma mul_lxor_r a b c : is_byte a → is_byte b → is_byte c → is_byte (Z.lxor b c) → gf_mul a (Z.lxor b c) = Z.lxor (gf_mul a b) (gf_mul a c).
Proof. intros Ha Hb Hc Hbc. destruct (decide (a = 0)) as [-> |Hne]; [done|]. rewrite !mul_steps by done. apply steps_lxor. Qed.

(** 255 shifts are none. *)
Lemma steps_period i x : is_byte x → (i < 255)%nat → steps (i + 255) x = steps i x.
Proof.
  intros Hx Hi. destruct (decide (x = 0)) as [-> |Hne]; [by rewrite !steps_zero|]. destruct (exp_log x Hx Hne) as [He Hl]. rewrite <- He. generalize dependent (gf_log x). intros l _ Hl. rewrite steps_add, exp_steps by lia. f_equal.
  rewrite Nat.add_comm. apply exp_period. lia.
Qed.

Lemma mul_assoc a b c : is_byte a → is_byte b → is_byte c → gf_mul a (gf_mul b c) = gf_mul (gf_mul a b) c.
Proof.
  intros Ha Hb Hc. destruct (decide (a = 0)) as [-> |Hna]; [done|]. destruct (decide (b = 0)) as [-> |Hnb]; [rewrite (mul_0_l c), !mul_0_r, mul_0_l; reflexivity|].
  assert (Hab : gf_mul a b ≠ 0) by (intros H; destruct (mul_nonzero a b Ha Hb H); done). rewrite (mul_steps a (gf_mul b c)), (mul_steps b c), (mul_steps (gf_mul a b) c) by auto using mul_byte.
  rewrite <- steps_add. destruct (exp_log a Ha Hna) as [_ Hla], (exp_log b Hb Hnb) as [_ Hlb]. unfold gf_mul. rewrite !(proj2 (Z.eqb_neq _ _)) by done. cbn [orb].
  destruct (Nat.lt_ge_cases (gf_log a + gf_log b) 255) as [Hlt|Hge]; [by rewrite log_exp|]. replace (gf_log a + gf_log b)%nat with ((gf_log a + gf_log b - 255) + 255)%nat at 2 by lia.
  rewrite exp_period, log_exp by lia. replace (gf_log a + gf_log b)%nat with ((gf_log a + gf_log b - 255) + 255)%nat at 1 by lia. apply steps_period; [done|lia].
Qed.

Lemma inv_spec a b : is_byte a → gf_inv a = Ok b → is_byte b ∧ a ≠ 0 ∧ b ≠ 0 ∧ gf_mul a b = 1.
Proof.
  intros Ha. unfold gf_inv. destruct (Z.eqb_spec a 0) as [|Hne]; [discriminate|]. intros <-%ok_injective. destruct (exp_log a Ha Hne) as [Hea Hla]. destruct (exp_byte (255 - gf_log a) ltac:(lia)) as [Hb Hbn].
  split_and!; [assumption..|]. rewrite mul_steps by assumption. rewrite exp_steps by lia. replace (gf_log a + (255 - gf_log a))%nat with 255%nat by lia. vm_compute. reflexivity.
Qed.

Lemma inv_ok a : a ≠ 0 → ∃ b, gf_inv a = Ok b.
Proof. intros Hne. unfold gf_inv. rewrite (proj2 (Z.eqb_neq _ _)) by done. by eexists. Qed.

Lemma lxor_byte x y : is_byte x → is_byte y → is_byte (Z.lxor x y).
Proof.
  unfold is_byte. intros Hx Hy. split; [by apply Z.lxor_nonneg; lia|]. destruct (decide (Z.lxor x y = 0)) as [-> |Hne]; [lia|]. assert (0 ≤ Z.lxor x y) by (apply Z.lxor_nonneg; lia).
  change 256 with (2 ^ 8). apply Z.log2_lt_pow2; [lia|]. eapply Z.le_lt_trans; [apply Z.log2_lxor; lia|]. apply Z.max_lub_lt.
  - destruct (decide (x = 0)) as [-> |]; [done|]. apply Z.log2_lt_pow2; lia.
  - destruct (decide (y = 0)) as [-> |]; [done|]. apply Z.log2_lt_pow2; lia.
Qed.

Lemma mul_lxor_l a b c : is_byte a → is_byte b → is_byte c → gf_mul (Z.lxor a b) c = Z.lxor (gf_mul a c) (gf_mul b c).
Proof. intros Ha Hb Hc. rewrite !(mul_comm _ c). apply mul_lxor_r; auto using lxor_byte. Qed.

(** ** Sums and products of rows *)

#[local] Opaque gf_mul.

Lemma xsum_ext n f g : (∀ j, (j < n)%nat → f j = g j) → xsum n f = xsum n g.
Proof. induction n as [|n IH]; intros Hfg; [done|]. cbn. rewrite Hfg by lia. f_equal. apply IH. intros j Hj. apply Hfg. lia. Qed.

Lemma xsum_zero n : xsum n (λ _, 0) = 0.
Proof. induction n as [|n IH]; [done|]. cbn. by rewrite IH. Qed.

Lemma xsum_lxor n f g : xsum n (λ j, Z.lxor (f j) (g j)) = Z.lxor (xsum n f) (xsum n g).
Proof.
  induction n as [|n IH]; [done|]. cbn. rewrite IH. rewrite !Z.lxor_assoc. f_equal. rewrite <- !Z.lxor_assoc. f_equal. apply Z.lxor_comm.
Qed.

Lemma xsum_byte n f : (∀ j, (j < n)%nat → is_byte (f j)) → is_byte (xsum n f).
Proof. induction n as [|n IH]; intros Hf; [done|]. cbn. apply lxor_byte; [apply IH; intros; apply Hf; lia|apply Hf; lia]. Qed.

Lemma xsum_mul n c f : is_byte c → (∀ j, (j < n)%nat → is_byte (f j)) → gf_mul c (xsum n f) = xsum n (λ j, gf_mul c (f j)).
Proof.
  intros Hc. induction n as [|n IH]; intros Hf; [apply mul_0_r|]. cbn. assert (Hx : is_byte (xsum n f)) by (apply xsum_byte; intros; apply Hf; lia).
  rewrite mul_lxor_r by (auto using lxor_byte with lia). rewrite IH by (intros; apply Hf; lia). done.
Qed.

Lemma xsum_swap n m (f : nat → nat → Z) : xsum n (λ i, xsum m (f i)) = xsum m (λ j, xsum n (λ i, f i j)).
Proof. induction n as [|n IH]; cbn; [by rewrite xsum_zero|]. rewrite IH. by rewrite <- xsum_lxor. Qed.

Lemma xsum_single n i f : (i < n)%nat → (∀ j, (j < n)%nat → j ≠ i → f j = 0) → xsum n f = f i.
Proof.
  revert i. induction n as [|n IH]; intros i Hi Hf; [lia|]. cbn. destruct (decide (i = n)) as [-> |Hne].
  - rewrite (xsum_ext n f (λ _, 0)) by (intros j Hj; apply Hf; lia). by rewrite xsum_zero, Z.lxor_0_l.
  - rewrite (Hf n) by lia. rewrite Z.lxor_0_r. apply IH; [lia|]. intros j Hj. apply Hf. lia.
Qed.

Definition delta (i j : nat) : Z := if (i =? j)%nat then 1 else 0.

Lemma delta_byte i j : is_byte (delta i j).
Proof. unfold delta. by destruct (i =? j)%nat. Qed.

Lemma xsum_delta n i x : (i < n)%nat → (∀ j, (j < n)%nat → is_byte (x j)) → xsum n (λ j, gf_mul (delta i j) (x j)) = x i.
Proof.
  intros Hi Hx. rewrite (xsum_single n i); [|done|].
  - unfold delta. rewrite Nat.eqb_refl. apply mul_1_l. by apply Hx.
  - intros j Hj Hne. unfold delta. rewrite (proj2 (Nat.eqb_neq i j)) by done. apply mul_0_l.
Qed.

(** A row times a column. *)
Definition dot (n : nat) (u x : nat → Z) : Z := xsum n (λ j, gf_mul (u j) (x j)).

Lemma dot_byte n u x : (∀ j, is_byte (u j)) → (∀ j, is_byte (x j)) → is_byte (dot n u x).
Proof. intros Hu Hx. apply xsum_byte. intros j _. by apply mul_byte. Qed.

Lemma dot_lxor n u v x : (∀ j, is_byte (u j)) → (∀ j, is_byte (v j)) → (∀ j, is_byte (x j)) → dot n (λ j, Z.lxor (u j) (v j)) x = Z.lxor (dot n u x) (dot n v x).
Proof. intros Hu Hv Hx. unfold dot. rewrite <- xsum_lxor. apply xsum_ext. intros j _. by apply mul_lxor_l. Qed.

Lemma dot_scale n c u x : is_byte c → (∀ j, is_byte (u j)) → (∀ j, is_byte (x j)) → dot n (λ j, gf_mul c (u j)) x = gf_mul c (dot n u x).
Proof. intros Hc Hu Hx. unfold dot. rewrite xsum_mul by auto using mul_byte. apply xsum_ext. intros j _. by rewrite mul_assoc. Qed.

(** (R A) x = R (A x) *)
Lemma dot_assoc n m (r x : nat → Z) (a : nat → nat → Z) : (∀ j, is_byte (r j)) → (∀ i j, is_byte (a i j)) → (∀ j, is_byte (x j)) →
  dot n r (λ t, dot m (a t) x) = dot m (λ j, dot n r (λ t, a t j)) x.
Proof.
  intros Hr Ha Hx. unfold dot at 1. rewrite (xsum_ext n _ (λ t, xsum m (λ j, gf_mul (gf_mul (r t) (a t j)) (x j)))).
  - rewrite xsum_swap. apply xsum_ext. intros j _. unfold dot. rewrite (mul_comm (xsum _ _)), xsum_mul by auto using mul_byte. apply xsum_ext. intros t _. apply mul_comm.
  - intros t _. unfold dot. rewrite xsum_mul by auto using mul_byte. apply xsum_ext. intros j _. apply mul_assoc; auto.
Qed.

(** ** Elimination *)

Definition bytes_matrix (m : Matrix) : Prop := ∀ i j, is_byte (entry m i j).

(** What holds before column [c]: the left half is [c] columns of the identity, each left row is the combination of rows of
    [a] the right half names, and the left half has no more kernel than [a]. *)
Record reducing (n : nat) (a aug : Matrix) (c : nat) : Prop := {
  rd_rows : length aug = n;
  rd_cols : ∀ i, (i < n)%nat → length (nth i aug []) = (2 * n)%nat;
  rd_bytes : bytes_matrix aug;
  rd_comb : ∀ i j, (i < n)%nat → (j < n)%nat → entry aug i j = dot n (λ t, entry aug i (n + t)) (λ t, entry a t j);
  rd_unit : ∀ i j, (i < n)%nat → (j < c)%nat → entry aug i j = delta i j;
  rd_kernel : ∀ x, (∀ j, is_byte (x j)) → (∀ i, (i < n)%nat → dot n (entry aug i) x = 0) → ∀ i, (i < n)%nat → dot n (entry a i) x = 0
}.

Lemma nth_insert_row (m : Matrix) i k r : (i < length m)%nat → nth k (<[i := r]> m) [] = if (k =? i)%nat then r else nth k m [].
Proof.
  intros Hi. rewrite !nth_lookup. destruct (Nat.eqb_spec k i) as [-> |Hne]; [by rewrite list_lookup_insert_eq|by rewrite list_lookup_insert_ne].
Qed.

Lemma nth_map_zero (f : Z → Z) l j : f 0 = 0 → nth j (map f l) 0 = f (nth j l 0).
Proof. intros Hf. rewrite <- Hf at 1. apply map_nth. Qed.

Lemma nth_imap_row (f : nat → list Z → list Z) (m : Matrix) i : (i < length m)%nat → nth i (imap f m) [] = f i (nth i m []).
Proof. intros Hi. rewrite !nth_lookup, list_lookup_imap. destruct (lookup_lt_is_Some_2 m i Hi) as [r ->]. done. Qed.

Lemma nth_zip (f : Z → Z → Z) l k j : f 0 0 = 0 → length l = length k → nth j (zip_with f l k) 0 = f (nth j l 0) (nth j k 0).
Proof.
  intros Hf Hlen. rewrite !nth_lookup, lookup_zip_with. destruct (l !! j) as [x|] eqn:Hx; cbn.
  - destruct (lookup_lt_is_Some_2 k j) as [y ->]; [|done]. rewrite <- Hlen. by apply lookup_lt_Some in Hx.
  - apply lookup_ge_None in Hx. rewrite (lookup_ge_None_2 k j) by lia. done.
Qed.

Section Reduce.
Context (n : nat) (a : Matrix) (Ha : bytes_matrix a).

Lemma entry_out_row (m : Matrix) i j : (length m ≤ i)%nat → entry m i j = 0.
Proof. intros Hi. unfold entry. rewrite (nth_overflow m) by done. by destruct j. Qed.

Lemma row_bytes aug i : bytes_matrix aug → ∀ j, is_byte (entry aug i j).
Proof. auto. Qed.

(** Rows outside the matrix are empty, so that facts about all rows follow from the rows inside. *)
Lemma bytes_from_rows (m : Matrix) : (∀ i j, (i < length m)%nat → is_byte (entry m i j)) → bytes_matrix m.
Proof. intros H i j. destruct (Nat.lt_ge_cases i (length m)) as [Hi|Hi]; [by apply H|]. by rewrite entry_out_row. Qed.

Lemma swap_entry (m : Matrix) p q i j : (p < length m)%nat → (q < length m)%nat → entry (swap_rows p q m) i j = entry m (if (i =? p)%nat then q else if (i =? q)%nat then p else i) j.
Proof.
  intros Hp Hq. unfold entry, swap_rows. rewrite nth_insert_row by (by rewrite length_insert). destruct (i =? p)%nat; [done|]. rewrite nth_insert_row by done. by destruct (i =? q)%nat.
Qed.

Lemma reducing_swap aug c p : reducing n a aug c → (c ≤ p < n)%nat → reducing n a (swap_rows c p aug) c.
Proof.
  intros [Hr Hc Hb Hcomb Hu Hk] Hp. assert (Hcn : (c < n)%nat) by lia. set (s i := if (i =? c)%nat then p else if (i =? p)%nat then c else i).
  assert (Hs : ∀ i, (i < n)%nat → (s i < n)%nat) by (intros i Hi; unfold s; destruct (i =? c)%nat; [lia|]; destruct (i =? p)%nat; lia).
  assert (He : ∀ i j, entry (swap_rows c p aug) i j = entry aug (s i) j) by (intros i j; apply swap_entry; lia).
  assert (Hss : ∀ i, (i < n)%nat → s (s i) = i).
  { intros i Hi. unfold s. destruct (Nat.eqb_spec i c) as [-> |Hic]; [destruct (Nat.eqb_spec p c) as [-> |]; [done|by rewrite Nat.eqb_refl]|].
    destruct (Nat.eqb_spec i p) as [-> |Hip]; [by rewrite Nat.eqb_refl|]. by rewrite (proj2 (Nat.eqb_neq i c)), (proj2 (Nat.eqb_neq i p)). }
  split.
  - unfold swap_rows. by rewrite !length_insert.
  - intros i Hi. unfold swap_rows. rewrite nth_insert_row by (rewrite length_insert; lia). destruct (i =? c)%nat; [apply Hc; lia|]. rewrite nth_insert_row by lia. destruct (i =? p)%nat; apply Hc; lia.
  - intros i j. rewrite He. apply Hb.
  - intros i j Hi Hj. rewrite He, Hcomb by auto. apply xsum_ext. intros t _. by rewrite He.
  - intros i j Hi Hj. rewrite He, Hu by auto. unfold delta, s. destruct (Nat.eqb_spec i c) as [-> |Hic]; [by rewrite !(proj2 (Nat.eqb_neq _ j)) by lia|].
    destruct (Nat.eqb_spec i p) as [-> |Hip]; [by rewrite !(proj2 (Nat.eqb_neq _ j)) by lia|done].
  - intros x Hx H0. apply Hk; [done|]. intros i Hi. specialize (H0 (s i) (Hs i Hi)). rewrite <- H0. apply xsum_ext. intros j _. by rewrite He, Hss.
Qed.

Lemma scale_entry (m : Matrix) c f i j : (c < length m)%nat → entry (scale_row c f m) i j = if (i =? c)%nat then gf_mul f (entry m i j) else entry m i j.
Proof.
  intros Hc. unfold entry, scale_row. rewrite nth_insert_row by done. destruct (Nat.eqb_spec i c) as [-> |]; [|done]. rewrite nth_map_zero by apply mul_0_l. apply mul_comm.
Qed.

(** Scaling a row by a unit keeps everything but the unit columns from [c] on. *)
Lemma reducing_scale aug c f : reducing n a aug c → (c < n)%nat → is_byte f → f ≠ 0 → reducing n a (scale_row c f aug) c.
Proof.
  intros [Hr Hc Hb Hcomb Hu Hk] Hcn Hf Hf0. assert (He : ∀ i j, entry (scale_row c f aug) i j = if (i =? c)%nat then gf_mul f (entry aug i j) else entry aug i j) by (intros; apply scale_entry; lia).
  split.
  - unfold scale_row. by rewrite length_insert.
  - intros i Hi. unfold scale_row. rewrite nth_insert_row by lia. destruct (Nat.eqb_spec i c) as [-> |]; [rewrite length_map|]; by apply Hc.
  - intros i j. rewrite He. destruct (i =? c)%nat; auto using mul_byte.
  - intros i j Hi Hj. rewrite He. unfold dot. rewrite (xsum_ext n _ (λ t, gf_mul (if (i =? c)%nat then gf_mul f (entry aug i (n + t)) else entry aug i (n + t)) (entry a t j))) by (intros t _; by rewrite He).
    destruct (i =? c)%nat; [|by apply Hcomb]. rewrite Hcomb by done. symmetry. apply (dot_scale n f (λ t, entry aug i (n + t)) (λ t, entry a t j)); auto.
  - intros i j Hi Hj. rewrite He. destruct (Nat.eqb_spec i c) as [-> |]; [|by apply Hu]. rewrite Hu by done. unfold delta. rewrite (proj2 (Nat.eqb_neq c j)) by lia. apply mul_0_r.
  - intros x Hx H0. apply Hk; [done|]. intros i Hi. specialize (H0 i Hi). unfold dot in H0. rewrite (xsum_ext n _ (λ j, gf_mul (if (i =? c)%nat then gf_mul f (entry aug i j) else entry aug i j) (x j))) in H0 by (intros j _; by rewrite He).
    destruct (i =? c)%nat; [|done]. assert (H1 : gf_mul f (dot n (entry aug i) x) = 0) by (rewrite <- dot_scale; auto). apply mul_nonzero in H1 as [H1|H1]; [done|done|done|]. apply dot_byte; auto.
Qed.

Lemma eliminate_entry (m : Matrix) c i j : (i < length m)%nat → (c < length m)%nat → length (nth i m []) = length (nth c m []) →
  entry (eliminate c m) i j = if (i =? c)%nat then entry m i j else Z.lxor (entry m i j) (gf_mul (entry m i c) (entry m c j)).
Proof.
  intros Hi Hc Hlen. unfold entry, eliminate. rewrite nth_imap_row by done. destruct (Nat.eqb_spec i c) as [-> |Hne]; cbn [negb andb]; [done|].
  destruct (Z.eqb_spec (nth c (nth i m []) 0) 0) as [Hz|Hz]; cbn [negb].
  - by rewrite Hz, mul_0_l, Z.lxor_0_r.
  - rewrite nth_zip; [done| |done]. by rewrite mul_0_r.
Qed.

Lemma reducing_eliminate aug c : reducing n a aug c → (c < n)%nat → entry aug c c = 1 → reducing n a (eliminate c aug) (S c).
Proof.
  intros [Hr Hc Hb Hcomb Hu Hk] Hcn Hpiv.
  assert (He : ∀ i j, (i < n)%nat → entry (eliminate c aug) i j = if (i =? c)%nat then entry aug i j else Z.lxor (entry aug i j) (gf_mul (entry aug i c) (entry aug c j))).
  { intros i j Hi. apply eliminate_entry; [lia|lia|]. by rewrite !Hc. }
  assert (Hlen : length (eliminate c aug) = n) by (unfold eliminate; by rewrite length_imap). split.
  - done.
  - intros i Hi. unfold eliminate. rewrite nth_imap_row by lia. destruct (_ && _); [|by apply Hc]. rewrite length_zip_with, !Hc by done. lia.
  - apply bytes_from_rows. intros i j Hi. rewrite Hlen in Hi. rewrite He by done. destruct (i =? c)%nat; auto using lxor_byte, mul_byte.
  - intros i j Hi Hj. rewrite He by done. unfold dot. rewrite (xsum_ext n _ (λ t, gf_mul (if (i =? c)%nat then entry aug i (n + t) else Z.lxor (entry aug i (n + t)) (gf_mul (entry aug i c) (entry aug c (n + t)))) (entry a t j))) by (intros t _; by rewrite He).
    destruct (i =? c)%nat; [by apply Hcomb|]. symmetry. etrans; [apply (dot_lxor n (λ t, entry aug i (n + t)) (λ t, gf_mul (entry aug i c) (entry aug c (n + t))) (λ t, entry a t j)); auto using mul_byte|].
    rewrite <- Hcomb by done. f_equal. rewrite dot_scale by auto. by rewrite <- Hcomb.
  - intros i j Hi Hj. rewrite He by done. destruct (Nat.eqb_spec i c) as [-> |Hne].
    + destruct (decide (j = c)) as [-> |]; [unfold delta; by rewrite Nat.eqb_refl|]. apply Hu; lia.
    + destruct (decide (j = c)) as [-> |Hjc].
      * rewrite Hpiv, mul_comm, mul_1_l by auto. rewrite Z.lxor_nilpotent. unfold delta. by rewrite (proj2 (Nat.eqb_neq i c)).
      * rewrite (Hu c j) by lia. unfold delta at 1. rewrite (proj2 (Nat.eqb_neq c j)) by lia. rewrite mul_0_r, Z.lxor_0_r. apply Hu; lia.
  - intros x Hx H0. apply Hk; [done|]. intros i Hi. pose proof (H0 c Hcn) as Hcx. unfold dot in Hcx. rewrite (xsum_ext n _ (λ j, gf_mul (entry aug c j) (x j))) in Hcx by (intros j _; rewrite He by done; by rewrite Nat.eqb_refl).
    fold (dot n (entry aug c) x) in Hcx. specialize (H0 i Hi). unfold dot in H0.
    rewrite (xsum_ext n _ (λ j, gf_mul (if (i =? c)%nat then entry aug i j else Z.lxor (entry aug i j) (gf_mul (entry aug i c) (entry aug c j))) (x j))) in H0 by (intros j _; by rewrite He).
    destruct (Nat.eqb_spec i c) as [Heq|Hne]; [rewrite Heq; exact Hcx|]. assert (H1 : Z.lxor (dot n (entry aug i) x) (gf_mul (entry aug i c) (dot n (entry aug c) x)) = 0).
    { rewrite <- dot_scale by auto. rewrite <- dot_lxor by auto using mul_byte. exact H0. }
    by rewrite Hcx, mul_0_r, Z.lxor_0_r in H1.
Qed.

Lemma find_pivot_spec aug col : ∀ fuel row, match find_pivot aug col row fuel with
  | Some p => (row ≤ p < row + fuel)%nat ∧ entry aug p col ≠ 0
  | None => ∀ r, (row ≤ r < row + fuel)%nat → entry aug r col = 0 end.
Proof.
  induction fuel as [|fuel IH]; intros row; cbn [find_pivot]; [lia|]. destruct (Z.eqb_spec (entry aug row col) 0) as [Hz|Hz]; cbn [negb]; [|split; [lia|done]].
  specialize (IH (S row)). destruct (find_pivot aug col (S row) fuel) as [p|]; [destruct IH; split; [lia|done]|]. intros r Hr. destruct (decide (r = row)) as [-> |]; [done|]. apply IH. lia.
Qed.

(** A vector the matrix sends to zero. *)
Definition kernel_vector (m : Matrix) (x : nat → Z) : Prop :=
  (∀ j, is_byte (x j)) ∧ (∃ j, (j < n)%nat ∧ x j ≠ 0) ∧ ∀ i, (i < n)%nat → dot n (entry m i) x = 0.

Lemma dot_comm u x : dot n u x = dot n x u.
Proof. apply xsum_ext. intros j _. apply mul_comm. Qed.

Lemma stuck_kernel aug c : reducing n a aug c → (c < n)%nat → (∀ r, (c ≤ r < n)%nat → entry aug r c = 0) → ∃ x, kernel_vector aug x.
Proof.
  intros [Hr Hc Hb Hcomb Hu Hk] Hcn Hz. set (y j := if (j <? c)%nat then entry aug j c else 0). assert (Hy : ∀ j, is_byte (y j)) by (intros j; unfold y; by destruct (j <? c)%nat).
  exists (λ j, Z.lxor (y j) (delta c j)). split_and!.
  - intros j. auto using lxor_byte, delta_byte.
  - exists c. split; [done|]. unfold y, delta. rewrite Nat.ltb_irrefl, Nat.eqb_refl. done.
  - intros i Hi. rewrite dot_comm, dot_lxor by auto using delta_byte. rewrite (dot_comm y). assert (Hd : dot n (delta c) (entry aug i) = entry aug i c) by (apply xsum_delta; auto). rewrite Hd.
    destruct (Nat.lt_ge_cases i c) as [Hic|Hic].
    + assert (Hdy : dot n (entry aug i) y = entry aug i c); [|by rewrite Hdy, Z.lxor_nilpotent]. unfold dot. rewrite (xsum_single n i); [|done|].
      * rewrite Hu by done. unfold delta, y. rewrite Nat.eqb_refl, (proj2 (Nat.ltb_lt i c)) by done. apply mul_1_l. auto.
      * intros j Hj Hne. unfold y. destruct (Nat.ltb_spec j c) as [Hjc|]; [|apply mul_0_r]. rewrite Hu by done. unfold delta. rewrite (proj2 (Nat.eqb_neq i j)) by done. apply mul_0_l.
    + rewrite (Hz i) by lia. rewrite Z.lxor_0_r. unfold dot. rewrite (xsum_ext n _ (λ _, 0)); [apply xsum_zero|]. intros j Hj. unfold y. destruct (Nat.ltb_spec j c) as [Hjc|]; [|apply mul_0_r].
      rewrite Hu by done. unfold delta. rewrite (proj2 (Nat.eqb_neq i j)) by lia. apply mul_0_l.
Qed.

Lemma invert_column_spec aug c : reducing n a aug c → (c < n)%nat →
  match invert_column n c aug with Ok aug' => reducing n a aug' (S c) | Err _ => ∃ x, kernel_vector aug x end.
Proof.
  intros Hred Hcn. unfold invert_column. pose proof (find_pivot_spec aug c (n - c) c) as Hp. destruct (find_pivot aug c c (n - c)) as [p|].
  2: { apply (stuck_kernel aug c Hred Hcn). intros r Hr. apply Hp. lia. }
  destruct Hp as [Hp Hne]. set (aug1 := if (p =? c)%nat then aug else swap_rows c p aug).
  assert (H1 : reducing n a aug1 c ∧ entry aug1 c c ≠ 0).
  { unfold aug1. destruct (Nat.eqb_spec p c) as [-> |Hpc]; [done|]. split; [apply reducing_swap; [done|lia]|]. rewrite swap_entry by (rewrite (rd_rows _ _ _ _ Hred); lia). by rewrite Nat.eqb_refl. }
  destruct H1 as [H1 Hn1]. destruct (inv_ok _ Hn1) as [f Hf]. rewrite Hf. apply inv_spec in Hf as (Hfb & _ & Hf0 & Hm); [|apply (rd_bytes _ _ _ _ H1)].
  apply reducing_eliminate; [by apply reducing_scale|done|]. rewrite scale_entry by (rewrite (rd_rows _ _ _ _ H1); lia). rewrite Nat.eqb_refl, mul_comm. done.
Qed.

Lemma kernel_from aug c x : reducing n a aug c → kernel_vector aug x → kernel_vector a x.
Proof. intros Hred (Hx & Hne & Hz). split_and!; [done..|]. by apply (rd_kernel _ _ _ _ Hred). Qed.

Lemma invert_columns_spec m : ∀ c aug, reducing n a aug c → (c + m = n)%nat →
  match invert_columns n (seq c m) aug with Ok aug' => reducing n a aug' n | Err _ => ∃ x, kernel_vector a x end.
Proof.
  induction m as [|m IH]; intros c aug Hred Hcm; cbn [seq invert_columns]; [assert (Hc : c = n) by lia; rewrite Hc in Hred; exact Hred|]. pose proof (invert_column_spec aug c Hred ltac:(lia)) as Hs.
  destruct (invert_column n c aug) as [aug'|e]; [apply IH; [done|lia]|]. destruct Hs as [x Hx]. exists x. by apply (kernel_from aug c).
Qed.

Context (Hrows : length a = n) (Hcols : ∀ i, (i < n)%nat → length (nth i a []) = n).

Lemma augment_row i : (i < n)%nat → nth i (augment n a) [] = <[(n + i)%nat := 1]> (nth i a [] ++ replicate n 0).
Proof.
  intros Hi. unfold augment. rewrite nth_imap_row by lia. rewrite take_ge by (rewrite Hcols; lia). rewrite Hcols by done. by replace (2 * n - n)%nat with n by lia.
Qed.

Lemma augment_entry i j : (i < n)%nat → entry (augment n a) i j = if (j <? n)%nat then entry a i j else delta (n + i) j.
Proof.
  intros Hi. unfold entry. rewrite augment_row by done. set (r := nth i a [] ++ replicate n 0). assert (Hlr : length r = (2 * n)%nat) by (unfold r; rewrite length_app, Hcols, length_replicate by done; lia).
  rewrite nth_lookup. destruct (decide (j = n + i)%nat) as [-> |Hne].
  - rewrite list_lookup_insert_eq by lia. rewrite (proj2 (Nat.ltb_ge _ _)) by lia. unfold delta. by rewrite Nat.eqb_refl.
  - rewrite list_lookup_insert_ne by done. rewrite <- nth_lookup. unfold r. destruct (Nat.ltb_spec j n) as [Hj|Hj]; [by rewrite app_nth1 by (by rewrite Hcols)|].
    rewrite app_nth2 by (by rewrite Hcols). unfold delta. rewrite (proj2 (Nat.eqb_neq (n + i) j)) by lia. rewrite Hcols by done.
    rewrite nth_lookup. destruct (replicate n 0 !! (j - n)%nat) as [z|] eqn:Hz; [|done]. by apply lookup_replicate in Hz as [-> _].
Qed.

Lemma augment_reducing : reducing n a (augment n a) 0.
Proof.
  assert (Hlen : length (augment n a) = n) by (unfold augment; by rewrite length_imap). split.
  - done.
  - intros i Hi. rewrite augment_row by done. rewrite length_insert, length_app, Hcols, length_replicate by done. lia.
  - apply bytes_from_rows. intros i j Hi. rewrite augment_entry by lia. destruct (j <? n)%nat; auto using delta_byte.
  - intros i j Hi Hj. rewrite augment_entry by done. rewrite (proj2 (Nat.ltb_lt j n)) by done. symmetry. unfold dot. rewrite (xsum_ext n _ (λ t, gf_mul (delta i t) (entry a t j))).
    + by apply (xsum_delta n i (λ t, entry a t j)).
    + intros t Ht. rewrite augment_entry by done. rewrite (proj2 (Nat.ltb_ge (n + t) n)) by lia. unfold delta. destruct (Nat.eqb_spec i t) as [-> |Hne]; [by rewrite Nat.eqb_refl|].
      by rewrite (proj2 (Nat.eqb_neq (n + i) (n + t))) by lia.
  - lia.
  - intros x Hx H0 i Hi. rewrite <- (H0 i Hi). apply xsum_ext. intros j Hj. rewrite augment_entry by done. by rewrite (proj2 (Nat.ltb_lt j n)).
Qed.

(** Inverting a square matrix gives a left inverse, or there is a nonzero vector it sends to zero. *)
Lemma invert_matrix_spec : match invert_matrix a with
  | Ok r => length r = n ∧ bytes_matrix r ∧ ∀ i j, (i < n)%nat → (j < n)%nat → dot n (entry r i) (λ t, entry a t j) = delta i j
  | Err _ => ∃ x, kernel_vector a x end.
Proof.
  unfold invert_matrix. rewrite Hrows. pose proof (invert_columns_spec n 0 (augment n a) augment_reducing eq_refl) as Hs. destruct (invert_columns n (seq 0 n) (augment n a)) as [aug|e]; [|done].
  assert (He : ∀ i j, entry (map (drop n) aug) i j = entry aug i (n + j)).
  { intros i j. unfold entry. rewrite !nth_lookup, list_lookup_fmap. destruct (aug !! i) as [r|]; cbn; [by rewrite lookup_drop|by rewrite !lookup_nil]. }
  split_and!.
  - rewrite length_map. apply (rd_rows _ _ _ _ Hs).
  - intros i j. rewrite He. apply (rd_bytes _ _ _ _ Hs).
  - intros i j Hi Hj. rewrite <- (rd_unit _ _ _ _ Hs i j Hi Hj), (rd_comb _ _ _ _ Hs i j Hi Hj). apply xsum_ext. intros t _. by rewrite He.
Qed.
End Reduce.

(** ** Shards *)

Lemma chunks_spec size : (0 < size)%nat → ∀ k l, length l = (k * size)%nat → ∀ fuel, (length l ≤ fuel)%nat →
  chunks fuel size l = map (λ j, take size (drop (j * size) l)) (seq 0 k).
Proof.
  intros Hs. induction k as [|k IH]; intros l Hl fuel Hf.
  { apply nil_length_inv in Hl as ->. by destruct fuel. }
  destruct l as [|z l']; [cbn in Hl; lia|]. set (l := z :: l') in *. destruct fuel as [|fuel]; [cbn in Hf; lia|]. change (chunks (S fuel) size l) with (take size l :: chunks fuel size (drop size l)).
  cbn [seq map]. rewrite drop_0. f_equal. rewrite (IH (drop size l)); [|rewrite length_drop; lia|rewrite length_drop; lia].
  rewrite <- (seq_shift k 0), map_map. apply map_ext. intros j. rewrite drop_drop. f_equal.
Qed.

Lemma matrix_entry n k i j : (i < n)%nat → (j < k)%nat → entry (build_vandermonde_matrix n k) i j = coefficient k i j.
Proof.
  intros Hi Hj. unfold entry, build_vandermonde_matrix. rewrite !nth_lookup, list_lookup_fmap, lookup_seq_lt by done. cbn [fmap option_fmap option_map default from_option id Nat.add].
  by rewrite list_lookup_fmap, lookup_seq_lt by done.
Qed.

Lemma coefficient_data k i j : (i < k)%nat → coefficient k i j = delta i j.
Proof. intros Hi. unfold coefficient. by rewrite (proj2 (Nat.ltb_lt i k)). Qed.

Lemma coefficient_byte k i j : is_byte (coefficient k i j).
Proof.
  unfold coefficient. destruct (i <? k)%nat; [by destruct (i =? j)%nat|]. apply exp_byte. pose proof (Z.mod_pos_bound ((Z.of_nat (i - k + 1)) mod 256 * (Z.of_nat j mod 256)) 255). lia.
Qed.

Lemma matrix_dims n k : length (build_vandermonde_matrix n k) = n ∧ ∀ i, (i < n)%nat → length (nth i (build_vandermonde_matrix n k) []) = k.
Proof.
  unfold build_vandermonde_matrix. rewrite length_map, length_seq. split; [done|]. intros i Hi. rewrite nth_lookup, list_lookup_fmap, lookup_seq_lt by done. cbn. by rewrite length_map, length_seq.
Qed.

Lemma matrix_bytes n k : bytes_matrix (build_vandermonde_matrix n k).
Proof.
  destruct (matrix_dims n k) as [Hl Hc]. intros i j. destruct (Nat.lt_ge_cases i n) as [Hi|Hi]; [|by rewrite entry_out_row by lia].
  destruct (Nat.lt_ge_cases j k) as [Hj|Hj]; [|unfold entry; by rewrite (nth_overflow (nth i _ _)) by (rewrite Hc by done; lia)].
  rewrite matrix_entry by done. apply coefficient_byte.
Qed.

Section Code.
Context (k m : nat) (data : list Z) (h : Hash).
Context (Hk : (0 < k)%nat) (Hdata : data ≠ []) (Hbytes : Forall is_byte data).
Abbreviation n := (k + m)%nat.
Abbreviation enc := (build_vandermonde_matrix n k).

Definition block_shard_size : nat := ((length data + k - 1) / k)%nat.
Definition padded : list Z := data ++ replicate (block_shard_size * k - length data) 0.
Definition pieces : list (list Z) := map (λ j, take block_shard_size (drop (j * block_shard_size) padded)) (seq 0 k).
Definition shard_data (i : nat) : list Z := if (i <? k)%nat then nth i pieces [] else parity_shard enc k block_shard_size pieces i.
Definition shard (i : nat) : CodedShard := mkShard i (shard_data i) h (length data).

Lemma size_fits : (0 < block_shard_size)%nat ∧ (length data ≤ block_shard_size * k)%nat.
Proof.
  unfold block_shard_size. assert (0 < length data)%nat by (destruct data; [done|cbn; lia]). pose proof (Nat.div_mod (length data + k - 1) k ltac:(lia)). pose proof (Nat.mod_upper_bound (length data + k - 1) k ltac:(lia)).
  split; [apply Nat.div_str_pos; lia|nia].
Qed.

Lemma padded_length : length padded = (k * block_shard_size)%nat.
Proof. unfold padded. rewrite length_app, length_replicate. pose proof size_fits. lia. Qed.

Lemma piece_length i : (i < k)%nat → length (nth i pieces []) = block_shard_size.
Proof.
  intros Hi. unfold pieces. rewrite nth_lookup, list_lookup_fmap, lookup_seq_lt by done. cbn. rewrite length_take, length_drop, padded_length. assert (S i * block_shard_size ≤ k * block_shard_size)%nat by (apply Nat.mul_le_mono_r; lia). lia.
Qed.

Lemma padded_byte i : is_byte (nth i padded 0).
Proof.
  rewrite nth_lookup. destruct (padded !! i) as [z|] eqn:Hz; [|done]. cbn. assert (Hall : Forall is_byte padded) by (apply list.Forall_app; split; [done|]; apply list.Forall_replicate; done).
  exact (proj1 (list.Forall_lookup _ _) Hall i z Hz).
Qed.

Lemma piece_entry i b : (i < k)%nat → (b < block_shard_size)%nat → entry pieces i b = nth (i * block_shard_size + b) padded 0.
Proof.
  intros Hi Hb. unfold entry, pieces. rewrite !nth_lookup, list_lookup_fmap, lookup_seq_lt by done. cbn [fmap option_fmap option_map default from_option id Nat.add].
  by rewrite lookup_take_lt, lookup_drop by done.
Qed.

Lemma pieces_length : length pieces = k.
Proof. unfold pieces. by rewrite length_map, length_seq. Qed.

Lemma piece_byte i b : is_byte (entry pieces i b).
Proof.
  destruct (Nat.lt_ge_cases i k) as [Hi|Hi]; [|rewrite entry_out_row; [done|by rewrite pieces_length]]. destruct (Nat.lt_ge_cases b block_shard_size) as [Hb|Hb]; [rewrite piece_entry by done; apply padded_byte|].
  unfold entry. rewrite (nth_overflow (nth i _ _)); [done|]. by rewrite piece_length.
Qed.

Lemma shard_length i : (i < n)%nat → length (shard_data i) = block_shard_size.
Proof. intros Hi. unfold shard_data. destruct (Nat.ltb_spec i k); [by apply piece_length|]. unfold parity_shard. by rewrite length_map, length_seq. Qed.

(** Every shard, data or parity, is its row of the matrix times the data. *)
Lemma shard_dot i b : (i < n)%nat → (b < block_shard_size)%nat → nth b (shard_data i) 0 = dot k (entry enc i) (λ j, entry pieces j b).
Proof.
  intros Hi Hb. unfold shard_data. destruct (Nat.ltb_spec i k) as [Hik|Hik].
  - symmetry. unfold dot. rewrite (xsum_ext k _ (λ j, gf_mul (delta i j) (entry pieces j b))); [by apply (xsum_delta k i (λ j, entry pieces j b)); [|intros; apply piece_byte]|].
    intros j Hj. rewrite matrix_entry by lia. by rewrite coefficient_data.
  - unfold parity_shard. rewrite nth_lookup, list_lookup_fmap, lookup_seq_lt by done. done.
Qed.

Lemma concat_pieces : concat pieces = padded.
Proof.
  unfold pieces. assert (Hgen : ∀ q (l : list Z), length l = (q * block_shard_size)%nat → concat (map (λ j, take block_shard_size (drop (j * block_shard_size) l)) (seq 0 q)) = l); [|apply Hgen, padded_length].
  induction q as [|q IH]; intros l Hl; [by apply nil_length_inv in Hl as ->|]. cbn [seq map concat]. rewrite drop_0, <- (seq_shift q 0), map_map. etrans; [|apply (take_drop block_shard_size l)]. f_equal.
  rewrite <- (IH (drop block_shard_size l)) by (rewrite length_drop; lia). f_equal. apply map_ext. intros j. by rewrite drop_drop.
Qed.

Lemma take_padded : take (length data) padded = data.
Proof. unfold padded. by rewrite take_app_length. Qed.

(** What [encode] makes of the block. *)
Lemma encode_shards c : rs_config c = mkErasureConfig k m (shard_size (rs_config c)) → encoding_matrix c = enc → encode c data h = Some (map shard (seq 0 n)).
Proof.
  intros Hc He. unfold encode. rewrite Hc. cbn [data_shards total_shards parity_shards]. fold block_shard_size. pose proof size_fits as [Hpos Hfit]. rewrite (proj2 (Nat.eqb_neq _ 0)) by lia.
  rewrite take_ge by lia. fold padded. rewrite (chunks_spec _ Hpos k padded padded_length _ (le_n _)). fold pieces. f_equal. rewrite He. unfold total_shards. cbn [data_shards parity_shards]. replace (k + m - k)%nat with m by lia.
  apply list_eq. intros i. rewrite list_lookup_imap, list_lookup_fmap. destruct (Nat.lt_ge_cases i k) as [Hi|Hi].
  - rewrite lookup_app_l by (by rewrite pieces_length). rewrite lookup_seq_lt by lia. cbn [fmap option_fmap option_map Nat.add]. unfold shard, shard_data. rewrite (proj2 (Nat.ltb_lt i k)) by done.
    rewrite nth_lookup. destruct (lookup_lt_is_Some_2 pieces i) as [r ->]; [by rewrite pieces_length|]. done.
  - rewrite lookup_app_r by (by rewrite pieces_length). rewrite pieces_length. destruct (Nat.lt_ge_cases i n) as [Hin|Hin].
    + rewrite list_lookup_fmap, lookup_seq_lt by lia. rewrite lookup_seq_lt by lia. cbn [fmap option_fmap option_map Nat.add]. unfold shard, shard_data. rewrite (proj2 (Nat.ltb_ge i k)) by done.
      by replace (k + (i - k))%nat with i by lia.
    + rewrite list_lookup_fmap, !lookup_seq_ge by lia. done.
Qed.

(** ** Decoding what was encoded *)

Record codec_ok (c : ReedSolomonCodec) : Prop := {
  co_config : rs_config c = mkErasureConfig k m (shard_size (rs_config c));
  co_matrix : encoding_matrix c = enc;
  co_cache : ∀ idx r, decoding_cache c !! idx = Some r → ∃ s, submatrix enc (take k idx) = Ok s ∧ invert_matrix s = Ok r
}.

Lemma submatrix_spec (a : Matrix) idx : Forall (λ i, (i < length a)%nat) idx → submatrix a idx = Ok (map (λ i, nth i a []) idx).
Proof. induction 1 as [|i idx Hi _ IH]; [done|]. cbn [submatrix]. rewrite (proj2 (Nat.leb_gt _ _)) by done. by rewrite IH. Qed.

Definition rows_of (idx : list nat) : Matrix := map (λ i, nth i enc []) idx.

Lemma rows_entry idx t j : (t < length idx)%nat → entry (rows_of idx) t j = entry enc (nth t idx 0%nat) j.
Proof. intros Ht. unfold entry, rows_of. rewrite !nth_lookup, list_lookup_fmap. destruct (lookup_lt_is_Some_2 idx t Ht) as [i ->]. cbn. by rewrite nth_lookup. Qed.

Lemma rows_square idx : length idx = k → Forall (λ i, (i < n)%nat) idx → length (rows_of idx) = k ∧ (∀ t, (t < k)%nat → length (nth t (rows_of idx) []) = k) ∧ bytes_matrix (rows_of idx).
Proof.
  intros Hl Hall. assert (Hlen : length (rows_of idx) = k) by (unfold rows_of; by rewrite length_map). split_and!; [done| |].
  - intros t Ht. unfold rows_of. rewrite nth_lookup, list_lookup_fmap. destruct (lookup_lt_is_Some_2 idx t) as [i Hi]; [lia|]. rewrite Hi. cbn. apply matrix_dims. exact (proj1 (list.Forall_lookup _ _) Hall t i Hi).
  - apply bytes_from_rows. intros t j Ht. rewrite rows_entry by lia. apply matrix_bytes.
Qed.

Lemma get_matrix_spec c idx : codec_ok c → length idx = k → Forall (λ i, (i < n)%nat) idx →
  match get_decoding_matrix idx c with
  | (Ok r, c') => codec_ok c' ∧ bytes_matrix r ∧ ∀ i j, (i < k)%nat → (j < k)%nat → dot k (entry r i) (λ t, entry (rows_of idx) t j) = delta i j
  | (Err _, c') => codec_ok c' ∧ ∃ x, kernel_vector k (rows_of idx) x
  end.
Proof.
  intros Hc Hl Hall. destruct (rows_square idx Hl Hall) as (H1 & H2 & H3). pose proof (invert_matrix_spec k (rows_of idx) H3 H1 H2) as Hinv.
  assert (Hsub : submatrix enc (take k idx) = Ok (rows_of idx)).
  { rewrite take_ge by lia. rewrite submatrix_spec; [done|]. destruct (matrix_dims n k) as [-> _]. done. }
  unfold get_decoding_matrix. destruct (decoding_cache c !! idx) as [r|] eqn:Hcache.
  - destruct (co_cache c Hc idx r Hcache) as (s & Hs & Hr). rewrite Hsub in Hs. apply ok_injective in Hs as <-. rewrite Hr in Hinv. destruct Hinv as (_ & ? & ?). done.
  - rewrite (co_matrix c Hc), (co_config c Hc). cbn [data_shards]. rewrite Hsub. destruct (invert_matrix (rows_of idx)) as [r|e] eqn:Hr; [|done]. destruct Hinv as (_ & Hb & Hi). split; [|done].
    destruct Hc as [Hcf Hmx Hcc]. split; [done|done|]. cbn [decoding_cache]. intros idx' r' Hlook. destruct (decide (idx' = idx)) as [-> |Hne].
    + rewrite lookup_insert_eq in Hlook. injection Hlook as <-. by exists (rows_of idx).
    + rewrite lookup_insert_ne in Hlook by done. by apply Hcc.
Qed.

Lemma find_all_spec js : ∀ l, (∀ i, i ∈ l → i ∈ js) → find_all (map shard js) l = Ok (concat (map shard_data l)).
Proof.
  induction l as [|i l IH]; intros Hin; [done|]. cbn [find_all]. destruct (List.find (λ s, (cs_index s =? i)%nat) (map shard js)) as [s|] eqn:Hf.
  - apply List.find_some in Hf as [Hs Hi]. apply List.in_map_iff in Hs as (i' & <- & _). apply Nat.eqb_eq in Hi. cbn in Hi. subst i'. rewrite IH by (intros j Hj; apply Hin; by right). done.
  - exfalso. assert (Hi : i ∈ js) by (apply Hin; left). pose proof (List.find_none _ _ Hf (shard i)) as Hn. cbn in Hn. rewrite Nat.eqb_refl in Hn. specialize (Hn (List.in_map shard js i (proj1 (list_elem_of_In _ _) Hi))). discriminate Hn.
Qed.

(** The decoded bytes are the data. *)
Lemma decoded_piece (r : Matrix) idx i b : bytes_matrix r → length idx = k → Forall (λ i, (i < n)%nat) idx →
  (∀ i j, (i < k)%nat → (j < k)%nat → dot k (entry r i) (λ t, entry (rows_of idx) t j) = delta i j) → (i < k)%nat → (b < block_shard_size)%nat →
  xsum k (λ t, gf_mul (entry r i t) (entry (map cs_data (map shard idx)) t b)) = entry pieces i b.
Proof.
  intros Hr Hl Hall Hinv Hi Hb. rewrite (xsum_ext k _ (λ t, gf_mul (entry r i t) (dot k (entry (rows_of idx) t) (λ j, entry pieces j b)))).
  - change (dot k (entry r i) (λ t, dot k (entry (rows_of idx) t) (λ j, entry pieces j b)) = entry pieces i b). rewrite (dot_assoc k k (entry r i) (λ j, entry pieces j b) (entry (rows_of idx))); [|auto|apply (rows_square idx Hl Hall)|intros; apply piece_byte].
    unfold dot at 1. rewrite (xsum_ext k _ (λ j, gf_mul (delta i j) (entry pieces j b))) by (intros j Hj; by rewrite Hinv). apply (xsum_delta k i (λ j, entry pieces j b) Hi). intros; apply piece_byte.
  - intros t Ht. f_equal. unfold entry at 1. rewrite map_map, (nth_lookup (map _ _)), list_lookup_fmap. destruct (lookup_lt_is_Some_2 idx t) as [q Hq]; [lia|]. rewrite Hq. cbn [fmap option_fmap option_map default from_option id shard cs_data].
    rewrite shard_dot; [|exact (proj1 (list.Forall_lookup _ _) Hall t q Hq)|done]. apply xsum_ext. intros j _. rewrite rows_entry by lia. by rewrite nth_lookup, Hq.
Qed.

(** Decoding any [k] or more of the shards gives the block, unless the rows of the first [k] have a kernel. *)
Lemma decode_correct c js : codec_ok c → Forall (λ i, (i < n)%nat) js → (k ≤ length js)%nat →
  codec_ok (decode (map shard js) c).2 ∧ ((decode (map shard js) c).1 = Ok data ∨ ∃ x, kernel_vector k (rows_of (take k js)) x).
Proof.
  intros Hc Hall Hlen. unfold decode. rewrite (co_config c Hc). cbn [data_shards]. rewrite length_map, (proj2 (Nat.ltb_ge _ _)) by done.
  assert (Hhead : ∃ j0 js', js = j0 :: js') by (destruct js as [|j0 js']; [cbn in Hlen; lia|by exists j0, js']).
  assert (Hsz : match map shard js with s :: _ => length (cs_data s) | [] => 0%nat end = block_shard_size).
  { destruct Hhead as (j0 & js' & ->). cbn. apply shard_length. by apply list.Forall_cons in Hall as [? _]. }
  assert (Horig : match map shard js with s :: _ => cs_original_size s | [] => 0%nat end = length data) by (by destruct Hhead as (j0 & js' & ->)). rewrite Hsz, Horig.
  assert (Hsame : existsb (λ s, negb (length (cs_data s) =? block_shard_size)%nat) (map shard js) = false).
  { apply not_true_iff_false. intros (s & Hs & Hn)%existsb_exists. apply List.in_map_iff in Hs as (i & <- & Hi). cbn in Hn. rewrite shard_length, Nat.eqb_refl in Hn; [done|].
    apply (proj1 (list.Forall_forall _ _) Hall). by apply list_elem_of_In. }
  rewrite Hsame, firstn_map, (map_map shard cs_index). set (idx := take k js). change (map (λ x, cs_index (shard x)) idx) with (map (λ x, x) idx). rewrite map_id.
  assert (Hl : length idx = k) by (unfold idx; rewrite length_take; lia). assert (Hi : Forall (λ i, (i < n)%nat) idx) by (by apply list.Forall_take).
  destruct (forallb _ idx && forallb _ (seq 0 k)) eqn:Hfast.
  - apply andb_true_iff in Hfast as [_ Hf]. split; [done|left]. rewrite (find_all_spec js (seq 0 k)).
    + assert (Hmap : map shard_data (seq 0 k) = pieces); [|by rewrite Hmap, concat_pieces, take_padded].
      apply list_eq. intros i. rewrite list_lookup_fmap. destruct (Nat.lt_ge_cases i k) as [Hik|Hik].
      * rewrite lookup_seq_lt by done. cbn. unfold shard_data. rewrite (proj2 (Nat.ltb_lt i k)) by done. rewrite nth_lookup. destruct (lookup_lt_is_Some_2 pieces i) as [q ->]; [by rewrite pieces_length|done].
      * rewrite lookup_seq_ge by done. cbn. symmetry. apply lookup_ge_None. by rewrite pieces_length.
    + intros i Hik. apply list_elem_of_In in Hik. pose proof (proj1 (forallb_forall _ _) Hf i Hik) as He. apply existsb_exists in He as (x & Hx & ->%Nat.eqb_eq). apply list_elem_of_In in Hx. unfold idx in Hx.
      apply elem_of_take in Hx as (q & Hq & _). by apply list_elem_of_lookup_2 in Hq.
  - pose proof (get_matrix_spec c idx Hc Hl Hi) as Hg. destruct (get_decoding_matrix idx c) as [[r|e] c']; [|by split; [apply Hg|right; apply Hg]]. destruct Hg as (Hc' & Hb & Hinv). split; [done|left].
    cbn [fst]. f_equal. etrans; [|apply take_padded]. f_equal. etrans; [|apply concat_pieces]. f_equal. apply list_eq. intros i. rewrite list_lookup_fmap. destruct (Nat.lt_ge_cases i k) as [Hik|Hik].
    + rewrite lookup_seq_lt by done. cbn [fmap option_fmap option_map Nat.add]. destruct (lookup_lt_is_Some_2 pieces i) as [q Hq]; [by rewrite pieces_length|]. rewrite Hq. f_equal.
      assert (Hnq : nth i pieces [] = q) by (by rewrite nth_lookup, Hq). assert (Hlq : length q = block_shard_size) by (rewrite <- Hnq; by apply piece_length).
      apply list_eq. intros b. rewrite list_lookup_fmap. destruct (Nat.lt_ge_cases b block_shard_size) as [Hbs|Hbs].
      * rewrite lookup_seq_lt by done. cbn [fmap option_fmap option_map Nat.add]. rewrite (decoded_piece r idx) by done. unfold entry. rewrite Hnq, nth_lookup. destruct (lookup_lt_is_Some_2 q b) as [z ->]; [lia|done].
      * rewrite lookup_seq_ge by done. cbn. symmetry. apply lookup_ge_None. lia.
    + rewrite lookup_seq_ge by done. cbn. symmetry. apply lookup_ge_None. by rewrite pieces_length.
Qed.

(** ** Which shards suffice *)

(** The rows [s] and columns [t] of the parity part. *)
Definition minor (s t : list nat) : Matrix := map (λ i, map (coefficient k i) t) s.

Lemma minor_entry s t p q : (p < length s)%nat → (q < length t)%nat → entry (minor s t) p q = coefficient k (nth p s 0%nat) (nth q t 0%nat).
Proof.
  intros Hp Hq. unfold entry at 1, minor. rewrite (nth_lookup (map _ s)), list_lookup_fmap, (nth_lookup s). destruct (lookup_lt_is_Some_2 s p Hp) as [i ->]. cbn [fmap option_fmap option_map default from_option id].
  rewrite !nth_lookup, list_lookup_fmap. destruct (lookup_lt_is_Some_2 t q Hq) as [j ->]. done.
Qed.

Lemma minor_square s t : length s = length t → length (minor s t) = length t ∧ (∀ p, (p < length t)%nat → length (nth p (minor s t) []) = length t) ∧ bytes_matrix (minor s t).
Proof.
  intros Hl. assert (Hlen : length (minor s t) = length t) by (unfold minor; by rewrite length_map). split_and!; [done| |].
  - intros p Hp. unfold minor. rewrite nth_lookup, list_lookup_fmap. destruct (lookup_lt_is_Some_2 s p) as [i ->]; [lia|]. cbn. by rewrite length_map.
  - apply bytes_from_rows. intros p q Hp. destruct (Nat.lt_ge_cases q (length t)) as [Hq|Hq]; [rewrite minor_entry by lia; apply coefficient_byte|].
    unfold entry, minor. rewrite (nth_lookup (map _ s)), list_lookup_fmap. destruct (lookup_lt_is_Some_2 s p) as [i ->]; [lia|]. cbn [fmap option_fmap option_map default from_option id]. rewrite nth_overflow; [done|]. by rewrite length_map.
Qed.

(** A sum whose terms vanish outside a filter. *)
Lemma xsum_filter (P : nat → Prop) `{∀ j, Decision (P j)} f q : (∀ j, (j < q)%nat → ¬ P j → f j = 0) →
  xsum q f = xsum (length (filter P (seq 0 q))) (λ p, f (nth p (filter P (seq 0 q)) 0%nat)).
Proof.
  induction q as [|q IH]; intros Hf; [done|]. rewrite seq_S, list.filter_app, length_app. cbn [Nat.add xsum]. rewrite IH by (intros j Hj; apply Hf; lia). destruct (decide (P q)) as [Hq|Hq].
  - rewrite filter_cons_True, filter_nil by done. cbn [length]. rewrite Nat.add_1_r. cbn [xsum]. f_equal; [apply xsum_ext; intros p Hp; by rewrite app_nth1|].
    rewrite app_nth2 by lia. by rewrite Nat.sub_diag.
  - rewrite filter_cons_False, filter_nil by done. cbn [length]. rewrite Nat.add_0_r, app_nil_r, (Hf q) by (done || lia). apply Z.lxor_0_r.
Qed.

(** An invertible minor has no kernel. *)
Lemma minor_injective s t r x : length s = length t → invert_matrix (minor s t) = Ok r → (∀ p, is_byte (x p)) →
  (∀ p, (p < length t)%nat → dot (length t) (entry (minor s t) p) x = 0) → ∀ p, (p < length t)%nat → x p = 0.
Proof.
  intros Hl Hr Hx H0 p Hp. destruct (minor_square s t Hl) as (H1 & H2 & H3). pose proof (invert_matrix_spec (length t) (minor s t) H3 H1 H2) as Hs. rewrite Hr in Hs. destruct Hs as (_ & Hb & Hinv).
  rewrite <- (xsum_delta (length t) p x Hp) by auto. rewrite (xsum_ext _ _ (λ j, gf_mul (dot (length t) (entry r p) (λ q, entry (minor s t) q j)) (x j))) by (intros j Hj; by rewrite Hinv).
  change (dot (length t) (λ j, dot (length t) (entry r p) (λ q, entry (minor s t) q j)) x = 0). rewrite <- (dot_assoc (length t) (length t) (entry r p) x (entry (minor s t))) by auto.
  unfold dot at 1. rewrite (xsum_ext _ _ (λ _, 0)); [apply xsum_zero|]. intros q Hq. rewrite H0 by done. apply mul_0_r.
Qed.

Fixpoint sublists (l : list nat) : list (list nat) := match l with [] => [[]] | x :: l' => let r := sublists l' in map (cons x) r ++ r end.

Lemma filter_sublist (P : nat → Prop) `{∀ j, Decision (P j)} l : filter P l ∈ sublists l.
Proof.
  induction l as [|x l IH]; [by left|]. cbn [sublists]. apply elem_of_app. destruct (decide (P x)) as [Hx|Hx].
  - left. rewrite filter_cons_True by done. apply list_elem_of_fmap. by exists (filter P l).
  - right. by rewrite filter_cons_False.
Qed.

(** Every square minor of the parity part is invertible. *)
Definition mds : bool :=
  forallb (λ s, forallb (λ t, negb (length s =? length t)%nat || is_ok (invert_matrix (minor s t))) (sublists (seq 0 k))) (sublists (seq k m)).

(** Present parity rows and missing data columns are equally many. *)
Lemma missing_count idx : base.NoDup idx → length idx = k → Forall (λ i, (i < n)%nat) idx →
  length (filter (λ i, i ∈ idx) (seq k m)) = length (filter (λ j, j ∉ idx) (seq 0 k)).
Proof.
  intros Hnd Hl Hall. assert (Hperm : filter (λ i, i ∈ idx) (seq 0 n) ≡ₚ idx).
  { apply list.NoDup_Permutation; [apply list.NoDup_filter, NoDup_seq|done|]. intros i. rewrite list_elem_of_filter, elem_of_seq. split; [by intros [? _]|]. intros Hi. split; [done|].
    pose proof (proj1 (list.Forall_forall _ _) Hall i Hi). cbn in *. lia. }
  apply Permutation_length in Hperm. rewrite seq_app, list.filter_app, length_app, Nat.add_0_l in Hperm.
  assert (Hsplit : ∀ l, (length (filter (λ i, i ∈ idx) l) + length (filter (λ j, j ∉ idx) l) = length l)%nat).
  { intros l. induction l as [|x l IH]; [done|]. destruct (decide (x ∈ idx)) as [Hx|Hx].
    - rewrite filter_cons_True, filter_cons_False by auto. cbn. lia.
    - rewrite filter_cons_False, filter_cons_True by auto. cbn. lia. }
  specialize (Hsplit (seq 0 k)). rewrite length_seq in Hsplit.
  lia.
Qed.

Lemma mds_no_kernel idx x : mds = true → base.NoDup idx → length idx = k → Forall (λ i, (i < n)%nat) idx → ¬ kernel_vector k (rows_of idx) x.
Proof.
  intros Hmds Hnd Hl Hall (Hx & (j0 & Hj0 & Hne) & Hz). set (s := filter (λ i, i ∈ idx) (seq k m)). set (t := filter (λ j, j ∉ idx) (seq 0 k)).
  assert (Hst : length s = length t) by (by apply missing_count).
  assert (Hrow : ∀ i, i ∈ idx → dot k (entry enc i) x = 0).
  { intros i Hi. apply list_elem_of_lookup in Hi as [p Hp]. assert (Hpk : (p < k)%nat) by (apply lookup_lt_Some in Hp; lia). rewrite <- (Hz p Hpk). apply xsum_ext. intros j _.
    rewrite rows_entry by lia. by rewrite nth_lookup, Hp. }
  assert (Hpresent : ∀ j, (j < k)%nat → ¬ (j ∉ idx) → x j = 0).
  { intros j Hj Hin. apply dec_stable in Hin. rewrite <- (Hrow j Hin). symmetry. unfold dot. rewrite (xsum_ext k _ (λ q, gf_mul (delta j q) (x q))); [by apply xsum_delta; auto|].
    intros q Hq. rewrite matrix_entry by lia. by rewrite coefficient_data. }
  assert (Hok : ∃ r, invert_matrix (minor s t) = Ok r).
  { pose proof (proj1 (forallb_forall _ _) Hmds s (proj1 (list_elem_of_In _ _) (filter_sublist _ _))) as H1. pose proof (proj1 (forallb_forall _ _) H1 t (proj1 (list_elem_of_In _ _) (filter_sublist _ _))) as H2.
    rewrite Hst, Nat.eqb_refl in H2. cbn [negb orb] in H2. destruct (invert_matrix (minor s t)) as [r|e]; [by exists r|discriminate H2]. }
  destruct Hok as [r Hr]. assert (Hmiss : ∀ p, (p < length t)%nat → x (nth p t 0%nat) = 0).
  { apply (minor_injective s t r (λ p, x (nth p t 0%nat)) Hst Hr); [auto|]. intros p Hp. assert (Hps : (p < length s)%nat) by lia. destruct (lookup_lt_is_Some_2 s p Hps) as [i Hi].
    assert (Hin : i ∈ idx) by (apply list_elem_of_lookup_2 in Hi; by apply list_elem_of_filter in Hi as [? _]). rewrite <- (Hrow i Hin). symmetry. unfold dot.
    rewrite (xsum_filter (λ j, j ∉ idx) (λ j, gf_mul (entry enc i j) (x j)) k) by (intros j Hj Hn; rewrite (Hpresent j Hj Hn); apply mul_0_r). fold t. apply xsum_ext. intros q Hq.
    rewrite minor_entry by done. rewrite (nth_lookup s), Hi. cbn [default from_option id]. apply list_elem_of_lookup_2 in Hi. apply list_elem_of_filter in Hi as [_ Hi%elem_of_seq].
    assert (Hqt : nth q t 0%nat ∈ t) by (apply list_elem_of_In, nth_In; done). apply list_elem_of_filter in Hqt as [_ Hqt%elem_of_seq]. by rewrite matrix_entry by lia. }
  apply Hne. destruct (decide (j0 ∈ idx)) as [Hin|Hin]; [apply Hpresent; [done|tauto]|]. assert (Hj0t : j0 ∈ t) by (apply list_elem_of_filter; split; [done|]; apply elem_of_seq; lia).
  apply list_elem_of_lookup in Hj0t as [p Hp]. specialize (Hmiss p ltac:(by apply lookup_lt_Some in Hp)). by rewrite nth_lookup, Hp in Hmiss.
Qed.

(** Any [k] shards of a code whose parity minors are invertible. *)
Lemma any_shards_decode c js : mds = true → codec_ok c → base.NoDup js → Forall (λ i, (i < n)%nat) js → (k ≤ length js)%nat →
  (decode (map shard js) c).1 = Ok data ∧ codec_ok (decode (map shard js) c).2.
Proof.
  intros Hmds Hc Hnd Hall Hlen. destruct (decode_correct c js Hc Hall Hlen) as [Hc' [Hok|[x Hx]]]; [done|]. exfalso. revert Hx. apply mds_no_kernel; [done| | |by apply list.Forall_take].
  - eapply sublist_NoDup; [exact Hnd|]. apply sublist_take.
  - rewrite length_take. lia.
Qed.
End Code.

Lemma new_codec_ok cfg c : validate_erasure cfg = Ok () → new_codec cfg = Ok c → codec_ok (data_shards cfg) (parity_shards cfg) c ∧ decoding_cache c = ∅.
Proof.
  intros Hv. unfold new_codec. rewrite Hv. intros <-%ok_injective. split; [|reflexivity]. split; [by destruct cfg|reflexivity|]. intros idx r Hl. cbn [decoding_cache] in Hl. by rewrite lookup_empty in Hl.
Qed.

#[local] Transparent gf_exp gf_log GF gf_mul.

Lemma default_mds : mds 10 4 = true.
Proof. lazy. reflexivity. Qed.

#[local] Opaque gf_exp gf_log GF gf_mul.

(** A collector fed with shards of the block and with shards of other blocks. *)
Definition feed (c : ShardCollector) (l : list CodedShard) : ShardCollector := foldl (λ c s, (add_shard s c).2) c l.

Lemma feed_spec k m data h l : ∀ c js, sc_block_hash c = h → sc_shards c = map (shard k m data h) js → base.NoDup js → Forall (λ i, (i < k + m)%nat) js →
  Forall (λ s, cs_block_hash s = h → ∃ i, (i < k + m)%nat ∧ s = shard k m data h i) l →
  ∃ js', sc_shards (feed c l) = map (shard k m data h) js' ∧ base.NoDup js' ∧ Forall (λ i, (i < k + m)%nat) js' ∧ sc_required (feed c l) = sc_required c.
Proof.
  induction l as [|s l IH]; intros c js Hh Hs Hnd Hall Hl; [by exists js|]. apply list.Forall_cons in Hl as [Hs1 Hl]. cbn [feed foldl]. unfold add_shard.
  destruct (Z.eqb_spec (cs_block_hash s) (sc_block_hash c)) as [He|He]; cbn [negb]; [|by apply (IH c js)]. destruct (existsb _ (sc_shards c)) eqn:Hdup; [by apply (IH c js)|].
  destruct Hs1 as (i & Hi & ->); [congruence|]. cbn [snd]. apply (IH (mkCollector (sc_block_hash c) (sc_shards c ++ [shard k m data h i]) (sc_required c) (sc_total c)) (js ++ [i])); [done| | | |done].
  - cbn [sc_shards]. by rewrite Hs, map_app.
  - apply list.NoDup_app. split_and!; [done| |apply NoDup_singleton]. intros j Hj ->%list_elem_of_singleton. apply not_true_iff_false in Hdup. apply Hdup, existsb_exists. exists (shard k m data h i).
    rewrite Hs. split; [by apply List.in_map, list_elem_of_In|]. cbn. apply Nat.eqb_refl.
  - apply list.Forall_app. split; [done|]. by apply list.Forall_singleton.
Qed.

(** C21. Propagation.  With the default configuration of ten data and four parity shards, a block that is encoded, and any of whose shards reach a
    collector in any order, with duplicates and mixed with shards of other blocks, is decoded exactly as soon as
    the collector is complete: any ten different shards suffice. *)
Theorem any_ten_shards_suffice c0 data h arrived : new_codec default_erasure = Ok c0 → data ≠ [] → Forall is_byte data →
  ∃ shards, encode c0 data h = Some shards ∧ length shards = 14%nat ∧
    (Forall (λ s, cs_block_hash s = h → s ∈ shards) arrived →
     let c := feed (new_collector h (min_shards default_erasure) (total_shards default_erasure)) arrived in
     is_complete c = true → (decode (sc_shards c) c0).1 = Ok data).
Proof.
  intros Hnew Hne Hb. destruct (new_codec_ok default_erasure c0 eq_refl Hnew) as [Hc _]. change (codec_ok 10 4 c0) in Hc.
  exists (map (shard 10 4 data h) (seq 0 14)). split_and!; [apply (encode_shards 10 4 data h ltac:(lia) Hne Hb); apply Hc|by rewrite length_map, length_seq|].
  intros Harr c Hcomp. destruct (feed_spec 10 4 data h arrived (new_collector h 10 14) []) as (js & Hs & Hnd & Hall & Hreq); [done|done|by apply list.NoDup_nil|by apply list.Forall_nil| |].
  - eapply list.Forall_impl; [exact Harr|]. intros s Hs He. apply Hs in He. apply list_elem_of_fmap in He as (i & -> & Hi%elem_of_seq). exists i. split; [lia|done].
  - change (feed (new_collector h 10 14) arrived) with c in Hs, Hreq. unfold is_complete in Hcomp. apply Nat.leb_le in Hcomp. rewrite Hreq, Hs, length_map in Hcomp. cbn in Hcomp. rewrite Hs.
    by apply (any_shards_decode 10 4 data h ltac:(lia) Hne Hb c0 js default_mds Hc Hnd Hall).
Qed.

(** ** Configurations for which they do not *)

Definition wide : ErasureCodingConfig := mkErasureConfig 18 16 64.
(** All data shards but the first and the last, and the first and the last parity shard. *)
Definition survivors : list nat := seq 1 16 ++ [18; 33]%nat.

(** Not every accepted configuration is a code of its announced distance: with 18 data and 16 parity shards, which validation accepts,
    eighteen different shards are left of which no block can be decoded. *)
Theorem accepted_config_loses_blocks c0 data h : new_codec wide = Ok c0 → data ≠ [] → Forall is_byte data →
  base.NoDup survivors ∧ length survivors = min_shards wide ∧
  ∃ shards, encode c0 data h = Some shards ∧ (decode (omap (λ i, shards !! i) survivors) c0).1 = Err (DecodingFailed "Singular matrix").
Proof.
  intros Hnew Hne Hb. destruct (new_codec_ok wide c0 eq_refl Hnew) as [Hc Hcache]. change (codec_ok 18 16 c0) in Hc.
  split; [apply (bool_decide_eq_true_1 (base.NoDup survivors)); vm_compute; reflexivity|]. split; [reflexivity|]. exists (map (shard 18 16 data h) (seq 0 34)).
  split; [apply (encode_shards 18 16 data h ltac:(lia) Hne Hb); apply Hc|]. assert (Hall : Forall (λ i, (i < 34)%nat) survivors) by (apply (bool_decide_eq_true_1 (Forall _ survivors)); vm_compute; reflexivity).
  assert (Hsel : omap (λ i, map (shard 18 16 data h) (seq 0 34) !! i) survivors = map (shard 18 16 data h) survivors).
  { clear Hnew Hc. induction Hall as [|i l Hi _ IH]; [done|]. cbn [omap list_omap map]. rewrite list_lookup_fmap, lookup_seq_lt by done. cbn [fmap option_fmap option_map Nat.add]. by rewrite IH. }
  rewrite Hsel. unfold decode. rewrite (co_config _ _ _ Hc). cbn [data_shards]. rewrite length_map. change (length survivors <? 18)%nat with false. cbn iota.
  assert (Hsz : ∀ i, i ∈ survivors → length (shard_data 18 16 data i) = block_shard_size 18 data) by (intros i Hi; eapply shard_length; eauto with lia; by apply (proj1 (list.Forall_forall _ _) Hall)).
  assert (Hhd : match map (shard 18 16 data h) survivors with s :: _ => length (cs_data s) | [] => 0%nat end = block_shard_size 18 data) by (apply (Hsz 1%nat); left).
  rewrite Hhd. assert (Hsame : existsb (λ s, negb (length (cs_data s) =? block_shard_size 18 data)%nat) (map (shard 18 16 data h) survivors) = false).
  { apply not_true_iff_false. intros (s & Hs & Hn)%existsb_exists. apply List.in_map_iff in Hs as (i & <- & Hi). cbn [shard cs_data] in Hn. rewrite (Hsz i), Nat.eqb_refl in Hn; [discriminate Hn|]. by apply list_elem_of_In. }
  rewrite Hsame, firstn_map, (map_map (shard 18 16 data h) cs_index). change (map (λ x, cs_index (shard 18 16 data h x)) (take 18 survivors)) with survivors.
  change (forallb (λ i, (i <? 18)%nat) survivors) with false. cbn [andb]. unfold get_decoding_matrix.
  rewrite Hcache, lookup_empty, (co_matrix _ _ _ Hc), (co_config _ _ _ Hc). cbn [data_shards].
  assert (Hsub : (match submatrix (build_vandermonde_matrix 34 18) (take 18 survivors) with Ok s => match invert_matrix s with Ok _ => false | Err e => match e with DecodingFailed t => String.eqb t "Singular matrix" | _ => false end end | Err _ => false end) = true) by (lazy; reflexivity).
  change (18 + 16)%nat with 34%nat. destruct (submatrix (build_vandermonde_matrix 34 18) (take 18 survivors)) as [s|e]; [|discriminate Hsub]. destruct (invert_matrix s) as [r|e]; [discriminate Hsub|].
  destruct e; try discriminate Hsub. apply String.eqb_eq in Hsub. by rewrite Hsub.
Qed.

Module ErasureDemo.
Definition demo_codec : ReedSolomonCodec := mkCodec default_erasure (build_vandermonde_matrix 14 10) ∅.
Definition wide_codec : ReedSolomonCodec := mkCodec wide (build_vandermonde_matrix 34 18) ∅.

(** A block of three bytes of which the first four shards are lost. *)
Lemma any_ten_shards_suffice_witness : ∃ shards, encode demo_codec [1; 2; 3] 7 = Some shards ∧ (decode (sc_shards (feed (new_collector 7 10 14) (drop 4 shards))) demo_codec).1 = Ok [1; 2; 3].
Proof.
  destruct (any_ten_shards_suffice demo_codec [1; 2; 3] 7) with (arrived := @nil CodedShard) as (shards0 & He0 & _); [reflexivity|discriminate|repeat constructor; vm_compute; congruence|].
  destruct (any_ten_shards_suffice demo_codec [1; 2; 3] 7 (drop 4 shards0)) as (shards & He & _ & Hd); [reflexivity|discriminate|repeat constructor; vm_compute; congruence|].
  assert (shards0 = shards) as -> by congruence. exists shards. split; [exact He|]. apply Hd.
  - apply list.Forall_forall. intros s Hs _. apply list_elem_of_lookup in Hs as [i Hi]. rewrite lookup_drop in Hi. exact (list_elem_of_lookup_2 _ _ _ Hi).
  - assert (Hc : match encode demo_codec [1; 2; 3] 7 with Some s => is_complete (feed (new_collector 7 10 14) (drop 4 s)) | None => false end = true) by (vm_compute; reflexivity).
    rewrite He in Hc. exact Hc.
Defined.

Lemma accepted_config_loses_blocks_witness : ∃ shards, encode wide_codec [1; 2; 3] 7 = Some shards ∧ (decode (omap (λ i, shards !! i) survivors) wide_codec).1 = Err (DecodingFailed "Singular matrix").
Proof. apply (accepted_config_loses_blocks wide_codec [1; 2; 3] 7); [reflexivity|discriminate|repeat constructor; vm_compute; congruence]. Defined.
End ErasureDemo.
