(* ===== verification/Abi.v ===== *)
(** * Contract call data

    Models [src/L1/src/vm/abi.rs]: parameter types, the interface of a contract, function selectors, and the encoding and
    decoding of call data.  SHA3-256, the check of UTF-8 and the JSON parser are arguments; strings are their UTF-8 bytes.  A
    panic is [None]; sizes are 64-bit and wrap. *)

From S2P Require Import LightClient Prelude Bytes.

(** ** Types *)

Inductive ParamType : Type :=
  | Uint8 | Uint16 | Uint32 | Uint64 | Uint128 | Uint256
  | Int8 | Int16 | Int32 | Int64 | Int128 | Int256
  | PBool | PAddress | PBytes | PString | Bytes32
  | PArray (t : ParamType)
  | PTuple (ts : list ParamType).

Record AbiParam : Type := mkParam { ap_name : string; param_type : ParamType; ap_indexed : bool }.

Inductive StateMutability : Type := Pure | View | Nonpayable | Payable.

Record AbiFunction : Type := mkFunction {
  af_name : string;
  af_inputs : list AbiParam;
  af_outputs : list AbiParam;
  af_mutability : StateMutability
}.

Record AbiEvent : Type := mkAbiEvent { ae_name : string; ae_inputs : list AbiParam; ae_anonymous : bool }.

Inductive AbiEntry : Type :=
  | EFunction (f : AbiFunction)
  | EEvent (e : AbiEvent)
  | EConstructor (inputs : list AbiParam)
  | EFallback
  | EReceive.

Inductive AbiValue : Type :=
  | VUint (n : Z)
  | VInt (n : Z)
  | VBool (b : bool)
  | VAddress (a : list Z)
  | VBytes (b : list Z)
  | VString (s : list Z)
  | VArray (l : list AbiValue)
  | VTuple (l : list AbiValue).

Inductive AbiError : Type := InvalidAbi (e : string).

Record ContractAbi : Type := mkAbi {
  functions : gmap (list Z) AbiFunction;
  function_names : gmap string (list Z);
  events : list AbiEvent;
  constructor : option (list AbiParam);
  has_fallback : bool;
  has_receive : bool
}.

Definition default_abi : ContractAbi := mkAbi ∅ ∅ [] None false false.

(** ** Selectors *)

Fixpoint join_with (sep : string) (l : list string) : string :=
  match l with [] => "" | [x] => x | x :: l' => String.append x (String.append sep (join_with sep l')) end.

Fixpoint format_param_type (t : ParamType) : string :=
  match t with
  | Uint8 => "uint8" | Uint16 => "uint16" | Uint32 => "uint32" | Uint64 => "uint64" | Uint128 => "uint128" | Uint256 => "uint256"
  | Int8 => "int8" | Int16 => "int16" | Int32 => "int32" | Int64 => "int64" | Int128 => "int128" | Int256 => "int256"
  | PBool => "bool" | PAddress => "address" | PBytes => "bytes" | PString => "string" | Bytes32 => "bytes32"
  | PArray t' => String.append (format_param_type t') "[]"
  | PTuple ts => String.append "(" (String.append (join_with "," (map format_param_type ts)) ")")
  end.

Definition format_signature (name : string) (params : list AbiParam) : string :=
  String.append name (String.append "(" (String.append (join_with "," (map (λ p, format_param_type (param_type p)) params)) ")")).

Section Abi.
Context (sha3 : list Z → list Z) (utf8 : list Z → bool).

Definition compute_selector (name : string) (params : list AbiParam) : list Z := take 4 (sha3 (ascii_bytes (format_signature name params))).

Definition add_entry (abi : ContractAbi) (e : AbiEntry) : ContractAbi :=
  match e with
  | EFunction f =>
      let s := compute_selector (af_name f) (af_inputs f) in
      mkAbi (<[s := f]> (functions abi)) (<[af_name f := s]> (function_names abi)) (events abi) (constructor abi) (has_fallback abi) (has_receive abi)
  | EEvent ev => mkAbi (functions abi) (function_names abi) (events abi ++ [ev]) (constructor abi) (has_fallback abi) (has_receive abi)
  | EConstructor inputs => mkAbi (functions abi) (function_names abi) (events abi) (Some inputs) (has_fallback abi) (has_receive abi)
  | EFallback => mkAbi (functions abi) (function_names abi) (events abi) (constructor abi) true (has_receive abi)
  | EReceive => mkAbi (functions abi) (function_names abi) (events abi) (constructor abi) (has_fallback abi) true
  end.

Definition from_json (parse : string → Result (list AbiEntry) string) (json : string) : Result ContractAbi AbiError :=
  match parse json with
  | Err e => Err (InvalidAbi (String.append "Parse error: " e))
  | Ok entries => Ok (foldl add_entry default_abi entries)
  end.

Definition get_function (abi : ContractAbi) (s : list Z) : option AbiFunction := functions abi !! s.
Definition get_function_by_name (abi : ContractAbi) (name : string) : option AbiFunction := s ← function_names abi !! name; functions abi !! s.
Definition get_selector (abi : ContractAbi) (name : string) : option (list Z) := function_names abi !! name.
Definition is_read_only (abi : ContractAbi) (s : list Z) : bool :=
  match functions abi !! s with Some f => match af_mutability f with View | Pure => true | _ => false end | None => false end.

(** ** Encoding *)

Definition encode_dynamic_bytes (data : list Z) : list Z :=
  replicate 24 0 ++ be_bytes 8 (Z.of_nat (length data)) ++ data ++ replicate ((32 - length data mod 32) mod 32)%nat 0.

Definition is_uint (t : ParamType) : bool := match t with Uint8 | Uint16 | Uint32 | Uint64 | Uint128 | Uint256 => true | _ => false end.
Definition is_int (t : ParamType) : bool := match t with Int8 | Int16 | Int32 | Int64 | Int128 | Int256 => true | _ => false end.

(** [n.to_be_bytes()] of an [i128] is that of its residue. *)
Definition encode_value (t : ParamType) (v : AbiValue) : Result (list Z) AbiError :=
  match v with
  | VUint n => if is_uint t then Ok (replicate 16 0 ++ be_bytes 16 n) else Err (InvalidAbi "Type mismatch in encoding")
  | VInt n => if is_int t then Ok (replicate 16 0 ++ be_bytes 16 (n mod 2 ^ 128)) else Err (InvalidAbi "Type mismatch in encoding")
  | VBool b => match t with PBool => Ok (replicate 31 0 ++ [if b then 1 else 0]) | _ => Err (InvalidAbi "Type mismatch in encoding") end
  | VAddress a => match t with PAddress => Ok a | _ => Err (InvalidAbi "Type mismatch in encoding") end
  | VBytes b =>
      match t with
      | Bytes32 => if (length b =? 32)%nat then Ok b else Err (InvalidAbi "Type mismatch in encoding")
      | PBytes => Ok (encode_dynamic_bytes b)
      | _ => Err (InvalidAbi "Type mismatch in encoding")
      end
  | VString s => match t with PString => Ok (encode_dynamic_bytes s) | _ => Err (InvalidAbi "Type mismatch in encoding") end
  | VArray _ | VTuple _ => Err (InvalidAbi "Type mismatch in encoding")
  end.

Fixpoint encode_values (params : list AbiParam) (values : list AbiValue) : Result (list Z) AbiError :=
  match params, values with
  | p :: params', v :: values' =>
      match encode_value (param_type p) v with
      | Err e => Err e
      | Ok b => match encode_values params' values' with Ok r => Ok (b ++ r) | Err e => Err e end
      end
  | _, _ => Ok []
  end.

Definition encode_call (name : string) (params : list AbiParam) (values : list AbiValue) : Result (list Z) AbiError :=
  if negb (length params =? length values)%nat then Err (InvalidAbi "Parameter count mismatch")
  else match encode_values params values with Ok b => Ok (compute_selector name params ++ b) | Err e => Err e end.

(** ** Decoding *)

Definition MAX_DYNAMIC : Z := 1048576.

(** [data[a..b]]: panics when the bounds are out of order or beyond the end. *)
Definition slice_of (data : list Z) (a b : Z) : option (list Z) :=
  if (b <? a) || (Z.of_nat (length data) <? b) then None else Some (take (Z.to_nat (b - a)) (drop (Z.to_nat a) data)).

Definition from_be_i128 (b : list Z) : Z := let u := of_be_bytes b in if u <? 2 ^ 127 then u else u - 2 ^ 128.

Definition decode_dynamic (data : list Z) (text : bool) (chunk : list Z) : option (Result (AbiValue * nat) AbiError) :=
  let off := of_be_bytes (drop 24 chunk) in
  let len := Z.of_nat (length data) in
  if len <? wrapping_add u64_max off 32 then Some (Err (InvalidAbi "Invalid dynamic offset"))
  else
    at_offset ← slice_of data (wrapping_add u64_max off 24) (wrapping_add u64_max off 32);
    let length := of_be_bytes at_offset in
    if MAX_DYNAMIC <? length then Some (Err (InvalidAbi "Dynamic data too large (max 1MB)"))
    else
      match (e ← checked_add u64_max off 32; checked_add u64_max e length) with
      | None => Some (Err (InvalidAbi "Data offset overflow"))
      | Some data_end =>
          if len <? data_end then Some (Err (InvalidAbi "Dynamic data exceeds buffer"))
          else
            bytes ← slice_of data (wrapping_add u64_max off 32) data_end;
            Some (if text then (if utf8 bytes then Ok (VString bytes, 32%nat) else Err (InvalidAbi "Invalid UTF-8 string")) else Ok (VBytes bytes, 32%nat))
      end.

Definition decode_value (data : list Z) (offset : nat) (t : ParamType) : option (Result (AbiValue * nat) AbiError) :=
  if (length data <? offset + 32)%nat then Some (Err (InvalidAbi "Data too short"))
  else
    let chunk := take 32 (drop offset data) in
    match t with
    | Uint8 | Uint16 | Uint32 | Uint64 | Uint128 | Uint256 => Some (Ok (VUint (of_be_bytes (drop 16 chunk)), 32%nat))
    | Int8 | Int16 | Int32 | Int64 | Int128 | Int256 => Some (Ok (VInt (from_be_i128 (drop 16 chunk)), 32%nat))
    | PBool => Some (Ok (VBool (negb (nth 31 chunk 0 =? 0)), 32%nat))
    | PAddress => Some (Ok (VAddress chunk, 32%nat))
    | Bytes32 => Some (Ok (VBytes chunk, 32%nat))
    | PBytes => decode_dynamic data false chunk
    | PString => decode_dynamic data true chunk
    | PArray _ | PTuple _ => Some (Err (InvalidAbi "Unsupported type in decoding"))
    end.

Fixpoint decode_loop (data : list Z) (offset : nat) (params : list AbiParam) : option (Result (list AbiValue) AbiError) :=
  match params with
  | [] => Some (Ok [])
  | p :: params' =>
      r ← decode_value data offset (param_type p);
      match r with
      | Err e => Some (Err e)
      | Ok (v, consumed) =>
          rest ← decode_loop data (offset + consumed) params';
          Some (match rest with Ok vs => Ok (v :: vs) | Err e => Err e end)
      end
  end.

Definition decode_params (data : list Z) (params : list AbiParam) : option (Result (list AbiValue) AbiError) := decode_loop data 0 params.

Definition decode_call (data : list Z) (abi : ContractAbi) : option (Result (AbiFunction * list AbiValue) AbiError) :=
  if (length data <? 4)%nat then Some (Err (InvalidAbi "Data too short for selector"))
  else
    match get_function abi (take 4 data) with
    | None => Some (Err (InvalidAbi "Unknown function selector"))
    | Some f =>
        r ← decode_params (drop 4 data) (af_inputs f);
        Some (match r with Ok vs => Ok (f, vs) | Err e => Err e end)
    end.

(** ** Static types *)

(** A value of a type that takes one word. *)
Definition word_value (t : ParamType) (v : AbiValue) : Prop :=
  match v with
  | VUint n => is_uint t = true ∧ 0 ≤ n < 2 ^ 128
  | VInt n => is_int t = true ∧ - 2 ^ 127 ≤ n < 2 ^ 127
  | VBool _ => t = PBool
  | VAddress a => t = PAddress ∧ length a = 32%nat
  | VBytes b => t = Bytes32 ∧ length b = 32%nat
  | _ => False
  end.

Lemma word_read pre e post t : length e = 32%nat →
  decode_value (pre ++ e ++ post) (length pre) t =
  match t with
  | Uint8 | Uint16 | Uint32 | Uint64 | Uint128 | Uint256 => Some (Ok (VUint (of_be_bytes (drop 16 e)), 32%nat))
  | Int8 | Int16 | Int32 | Int64 | Int128 | Int256 => Some (Ok (VInt (from_be_i128 (drop 16 e)), 32%nat))
  | PBool => Some (Ok (VBool (negb (nth 31 e 0 =? 0)), 32%nat))
  | PAddress => Some (Ok (VAddress e, 32%nat))
  | Bytes32 => Some (Ok (VBytes e, 32%nat))
  | PBytes => decode_dynamic (pre ++ e ++ post) false e
  | PString => decode_dynamic (pre ++ e ++ post) true e
  | PArray _ | PTuple _ => Some (Err (InvalidAbi "Unsupported type in decoding"))
  end.
Proof.
  intros He. unfold decode_value. rewrite (proj2 (Nat.ltb_ge _ _)) by (rewrite !length_app; lia). rewrite drop_app_length.
  assert (Ht : take 32 (e ++ post) = e) by (rewrite <- He; apply take_app_length). by rewrite Ht.
Qed.

Lemma word_split n : length (replicate 16 0 ++ be_bytes 16 n) = 32%nat ∧ drop 16 (replicate 16 0 ++ be_bytes 16 n) = be_bytes 16 n.
Proof. rewrite length_app, length_replicate, be_bytes_length. split; [done|]. by apply (drop_app_length' (replicate 16 0)). Qed.

Lemma word_roundtrip t v : word_value t v → ∃ e, encode_value t v = Ok e ∧ length e = 32%nat ∧ ∀ pre post, decode_value (pre ++ e ++ post) (length pre) t = Some (Ok (v, 32%nat)).
Proof.
  intros Hv. destruct v as [n|n|b|a|b|s|l|l]; cbn [word_value] in Hv; [| | | | |done..].
  - destruct Hv as [Ht Hn]. destruct (word_split n) as [Hl Hd]. cbn [encode_value]. rewrite Ht. eexists. split_and!; [done|done|]. intros pre post. rewrite word_read by done. rewrite Hd, of_be_be_bytes by done. by destruct t.
  - destruct Hv as [Ht Hn]. set (u := n mod 2 ^ 128). destruct (word_split u) as [Hl Hd]. cbn [encode_value]. rewrite Ht. eexists. split_and!; [done|done|]. intros pre post. rewrite word_read by done. fold u. rewrite Hd.
    assert (Hu : from_be_i128 (be_bytes 16 u) = n); [|rewrite Hu; by destruct t]. assert (0 ≤ u < 2 ^ 128) by (apply Z.mod_pos_bound; lia). unfold from_be_i128. rewrite of_be_be_bytes by done. unfold u.
    destruct (Z.leb_spec 0 n) as [Hpos|Hneg].
    + rewrite Z.mod_small by lia. by rewrite (proj2 (Z.ltb_lt _ _)) by lia.
    + replace (n mod 2 ^ 128) with (n + 2 ^ 128) by (rewrite <- (Z.mod_add n 1) by lia; rewrite Z.mod_small; lia). rewrite (proj2 (Z.ltb_ge _ _)) by lia. lia.
  - subst t. cbn [encode_value]. eexists. split_and!; [done|done|]. intros pre post. rewrite word_read by done. by destruct b.
  - destruct Hv as [-> Ha]. eexists. split_and!; [done|done|]. intros pre post. by rewrite word_read.
  - destruct Hv as [-> Hb]. cbn [encode_value]. rewrite (proj2 (Nat.eqb_eq _ _) Hb). eexists. split_and!; [done|done|]. intros pre post. by rewrite word_read.
Qed.

Lemma words_roundtrip params values : Forall2 (λ p v, word_value (param_type p) v) params values →
  ∃ e, encode_values params values = Ok e ∧ ∀ pre post, decode_loop (pre ++ e ++ post) (length pre) params = Some (Ok values).
Proof.
  induction 1 as [|p v params values Hv _ (e & He & Hd)]; [by exists []|]. destruct (word_roundtrip _ _ Hv) as (w & Hw & Hl & Hr). exists (w ++ e). cbn [encode_values]. rewrite Hw, He. split; [done|].
  intros pre post. cbn [decode_loop]. rewrite <- app_assoc, Hr. cbn [mbind option_bind]. specialize (Hd (pre ++ w) post). rewrite <- app_assoc, length_app, Hl in Hd. by rewrite Hd.
Qed.

(** Call data of functions whose parameters take one word each, integers of any width, booleans, addresses and 32-byte strings, is decoded to the
    function and the values it was encoded from. *)
Theorem abi_word_roundtrip abi f values : (∀ l, length (sha3 l) = 32%nat) → functions abi !! compute_selector (af_name f) (af_inputs f) = Some f →
  Forall2 (λ p v, word_value (param_type p) v) (af_inputs f) values →
  ∃ data, encode_call (af_name f) (af_inputs f) values = Ok data ∧ decode_call data abi = Some (Ok (f, values)).
Proof.
  intros Hsha Hf Hv. destruct (words_roundtrip _ _ Hv) as (e & He & Hd). unfold encode_call. assert (Hlen := Hv); apply Forall2_length in Hlen; rewrite Hlen, Nat.eqb_refl. cbn [negb]. rewrite He. set (s := compute_selector _ _) in *.
  assert (Hs : length s = 4%nat) by (unfold s, compute_selector; rewrite length_take, Hsha; done). eexists. split; [done|]. unfold decode_call. rewrite (proj2 (Nat.ltb_ge _ _)) by (rewrite length_app; lia).
  rewrite take_app_length' by done. unfold get_function. rewrite Hf, drop_app_length' by done. specialize (Hd [] []). rewrite app_nil_r in Hd. cbn [app length] in Hd. unfold decode_params. by rewrite Hd.
Qed.

(** ** Dynamic types *)

Definition bytes_param : AbiParam := mkParam "data" PBytes false.

Lemma short_encoding b : (0 < length b < 32)%nat → encode_dynamic_bytes b = (replicate 24 0 ++ be_bytes 8 (Z.of_nat (length b))) ++ b ++ replicate (32 - length b)%nat 0.
Proof. intros Hb. unfold encode_dynamic_bytes. rewrite (Nat.mod_small (length b)) by lia. rewrite (Nat.mod_small (32 - length b)) by lia. by rewrite <- app_assoc. Qed.

(** The decoder takes the length for an offset, so that what it returns lies in the padding. *)
Lemma short_decoded b v n : (0 < length b < 32)%nat → decode_value (encode_dynamic_bytes b) 0 PBytes = Some (Ok (v, n)) → ∃ k, v = VBytes (replicate k 0).
Proof.
  intros Hb. rewrite short_encoding by done. set (head := replicate 24 0 ++ be_bytes 8 _). assert (Hh : length head = 32%nat) by (unfold head; by rewrite length_app, length_replicate, be_bytes_length).
  change 0%nat with (length (@nil Z)). rewrite <- (app_nil_l (head ++ _)), word_read by done. rewrite app_nil_l. unfold decode_dynamic. assert (Hoff : of_be_bytes (drop 24 head) = Z.of_nat (length b)).
  { unfold head. rewrite (drop_app_length' (replicate 24 0)) by done. apply of_be_be_bytes. change (256 ^ Z.of_nat 8) with 18446744073709551616. lia. }
  clearbody head. rewrite Hoff. assert (Hw : ∀ x, 0 ≤ x ≤ 64 → wrapping_add u64_max (Z.of_nat (length b)) x = Z.of_nat (length b) + x) by (intros x Hx; unfold wrapping_add; apply Z.mod_small; unfold u64_max; lia).
  rewrite !Hw by lia. destruct (_ <? _); [done|]. destruct (slice_of _ _ (Z.of_nat (length b) + 32)) as [l|]; [|done]. cbn [mbind option_bind]. destruct (_ <? _); [done|]. destruct (checked_add u64_max (Z.of_nat (length b)) 32) as [x|] eqn:Hx; [|done].
  apply checked_add_Some in Hx as [-> _]. cbn [mbind option_bind]. destruct (checked_add u64_max _ (of_be_bytes l)) as [data_end|] eqn:Hend; [|done]. destruct (_ <? data_end); [done|]. unfold slice_of. destruct (_ || _); [done|]. cbn [mbind option_bind].
  intros [= <- <-]. replace (Z.to_nat (Z.of_nat (length b) + 32)) with (length (head ++ b)) by (rewrite length_app; lia). rewrite app_assoc, drop_app_length, take_replicate. by eexists.
Qed.

(** Byte strings do not survive a call.  The encoder writes the length where the decoder expects an offset: for every function with one byte string parameter
    and every string of 1 to 31 bytes, decoding the encoded call does not give the string back. *)
Theorem abi_bytes_not_returned abi f b : (∀ l, length (sha3 l) = 32%nat) → functions abi !! compute_selector (af_name f) (af_inputs f) = Some f → af_inputs f = [bytes_param] → (0 < length b < 32)%nat →
  ∃ data, encode_call (af_name f) (af_inputs f) [VBytes b] = Ok data ∧ decode_call data abi ≠ Some (Ok (f, [VBytes b])).
Proof.
  intros Hsha Hf Hin Hb. unfold encode_call. rewrite Hin in *. cbn [length Nat.eqb negb encode_values param_type bytes_param encode_value]. rewrite app_nil_r. set (s := compute_selector _ _) in *.
  assert (Hs : length s = 4%nat) by (unfold s, compute_selector; rewrite length_take, Hsha; done). eexists. split; [done|]. unfold decode_call. rewrite (proj2 (Nat.ltb_ge _ _)) by (rewrite length_app; lia).
  rewrite take_app_length' by done. unfold get_function. rewrite Hf, drop_app_length' by done. unfold decode_params. rewrite Hin. cbn [decode_loop param_type bytes_param].
  destruct (decode_value (encode_dynamic_bytes b) 0 PBytes) as [[[v n]|e]|] eqn:Hd; cbn [mbind option_bind]; [|done|done]. intros [= Hv]. subst v. pose proof (short_decoded b _ n Hb Hd) as [k Hk]. injection Hk as Hk.
  assert (Hlk : k = length b) by (rewrite Hk; by rewrite length_replicate). subst k. rewrite Hk in Hd. revert Hd Hb. clear. generalize (length b). clear. intros L Hd HL.
  assert (Hall : forallb (λ L, match decode_value (encode_dynamic_bytes (replicate L 0)) 0 PBytes with Some (Ok (VBytes c, _)) => negb (length c =? L)%nat | _ => true end) (seq 1 31) = true) by (vm_compute; reflexivity).
  pose proof (proj1 (forallb_forall _ _) Hall L (proj2 (in_seq 31 1 L) ltac:(lia))) as Hc. cbv beta in Hc. rewrite Hd, length_replicate, Nat.eqb_refl in Hc. discriminate Hc.
Qed.

(** Call data can crash the decoder: an offset 28 below 2^64 wraps past the bounds check, and the slice that follows has its ends in the
    wrong order. *)
Theorem abi_offset_panics abi f s : length s = 4%nat → functions abi !! s = Some f → af_inputs f = [bytes_param] →
  decode_call (s ++ replicate 24 0 ++ be_bytes 8 (2 ^ 64 - 28)) abi = None.
Proof.
  intros Hs Hf Hin. unfold decode_call. rewrite (proj2 (Nat.ltb_ge _ _)) by (rewrite length_app; lia). rewrite take_app_length', drop_app_length' by done. unfold get_function. rewrite Hf. unfold decode_params. rewrite Hin.
  assert (Hd : decode_value (replicate 24 0 ++ be_bytes 8 (2 ^ 64 - 28)) 0 PBytes = None) by (vm_compute; reflexivity). cbn [decode_loop param_type bytes_param]. by rewrite Hd.
Qed.
End Abi.

Module AbiDemo.
Definition short_hash (l : list Z) : list Z := replicate 32 (Z.of_nat (length l) mod 256).
Definition any_text (l : list Z) : bool := true.
Definition pay : AbiFunction := mkFunction "pay" [mkParam "to" PAddress false; mkParam "amount" Uint64 false; mkParam "fast" PBool false; mkParam "delta" Int32 false] [] Payable.
Definition note : AbiFunction := mkFunction "note" [bytes_param] [] Nonpayable.
Definition abi : ContractAbi := foldl (add_entry short_hash) default_abi [EFunction pay; EFunction note].

Lemma short_hash_length l : length (short_hash l) = 32%nat.
Proof. apply length_replicate. Qed.

Lemma abi_word_roundtrip_witness : ∃ data, encode_call short_hash "pay" (af_inputs pay) [VAddress (replicate 32 7); VUint 500; VBool true; VInt (-3)] = Ok data ∧
  decode_call any_text data abi = Some (Ok (pay, [VAddress (replicate 32 7); VUint 500; VBool true; VInt (-3)])).
Proof.
  apply (abi_word_roundtrip short_hash any_text abi pay); [exact short_hash_length|vm_compute; reflexivity|].
  repeat constructor; vm_compute; congruence.
Defined.

Lemma abi_bytes_not_returned_witness : ∃ data, encode_call short_hash "note" [bytes_param] [VBytes [1; 2; 3]] = Ok data ∧ decode_call any_text data abi ≠ Some (Ok (note, [VBytes [1; 2; 3]])).
Proof. apply (abi_bytes_not_returned short_hash any_text abi note [1; 2; 3]); [exact short_hash_length|vm_compute; reflexivity|reflexivity|cbn; lia]. Defined.

Lemma abi_offset_panics_witness : decode_call any_text (compute_selector short_hash "note" [bytes_param] ++ replicate 24 0 ++ be_bytes 8 (2 ^ 64 - 28)) abi = None.
Proof. apply (abi_offset_panics any_text abi note); [reflexivity|vm_compute; reflexivity|reflexivity]. Defined.
End AbiDemo.
