(* ===== verification/Coordinator.v ===== *)
(** * Cross-shard transfers

    Models [src/L1/src/sharding/cross_shard.rs]: the coordinator of transfers between shards, its indexes, messages,
    confirmations, rejections and timeouts.

    Serialization ([bincode]), SHA3-256 and ML-DSA-65 are arguments, and so are the clock readings and the random token.  The
    channels of the shards are a store of named bounded queues, since a sender can be registered for several shards.  A send to a
    full queue waits: the call ends with [Waits], and the message stays in [blocked] until [deliver] completes the send; nothing
    but the return follows a send in the code.  Counters wrap.  Error texts are those of the code. *)

From S2P Require Import Prelude Bytes.

Definition MIN_TRANSFER_AMOUNT : Z := 1.
Definition MAX_TRANSFER_AMOUNT : Z := u128_max / 2.
Definition MAX_PENDING_PER_SENDER : Z := 100.

(** ** Data *)

Record CrossShardConfig : Type := mkConfig {
  max_pending_per_shard : Z;
  timeout_ms : Z;
  max_retries : Z;
  enable_zk_proofs : bool;
  batch_size : Z
}.

Definition default_config : CrossShardConfig := mkConfig 10000 10000 3 true 100.

Inductive CrossShardPhase : Type := Locked | Pending | Credited | Confirmed | Finalized | RolledBack | TimedOut.

#[export] Instance CrossShardPhase_eq_dec : EqDecision CrossShardPhase.
Proof. solve_decision. Defined.

Record CrossShardTransaction : Type := mkTx {
  id : Hash;
  source_shard : Z;
  dest_shard : Z;
  sender : Z;
  recipient : Z;
  amount : Z;
  data : list Z;
  tx_nonce : Z;
  timestamp : Z;
  phase : CrossShardPhase;
  source_state_root : Hash;
  proof : option (list Z);
  retries : Z
}.

Definition set_phase (p : CrossShardPhase) (t : CrossShardTransaction) : CrossShardTransaction :=
  mkTx (id t) (source_shard t) (dest_shard t) (sender t) (recipient t) (amount t) (data t) (tx_nonce t) (timestamp t) p (source_state_root t) (proof t) (retries t).
Definition set_proof (p : option (list Z)) (t : CrossShardTransaction) : CrossShardTransaction :=
  mkTx (id t) (source_shard t) (dest_shard t) (sender t) (recipient t) (amount t) (data t) (tx_nonce t) (timestamp t) (phase t) (source_state_root t) p (retries t).

Inductive CrossShardMessageType : Type :=
  | Transfer (tx : CrossShardTransaction)
  | Confirm (tx_id : Hash)
  | Reject (tx_id : Hash) (reason : string)
  | StateSync (from to : Z)
  | StateSyncResponse (d : list Z)
  | Heartbeat.

Record CrossShardMessage : Type := mkMessage {
  msg_type : CrossShardMessageType;
  m_source_shard : Z;
  m_dest_shard : Z;
  payload : list Z;
  merkle_proof : list Hash;
  state_root : Hash;
  committee_signature : list Z
}.

Definition set_signature (sig : list Z) (m : CrossShardMessage) : CrossShardMessage :=
  mkMessage (msg_type m) (m_source_shard m) (m_dest_shard m) (payload m) (merkle_proof m) (state_root m) sig.

Record CrossShardReceipt : Type := mkReceipt {
  r_tx_id : Hash;
  success : bool;
  r_source_shard : Z;
  r_dest_shard : Z;
  final_phase : CrossShardPhase;
  duration_ms : Z;
  cu_used : Z;
  error : option string
}.

Record CrossShardMetrics : Type := mkMetrics {
  tx_initiated : Z;
  tx_completed : Z;
  tx_failed : Z;
  avg_completion_time_ms : Z;
  messages_sent : Z;
  messages_received : Z;
  pending_count : Z
}.

Record MlDsa65Keypair : Type := mkKeypair { public_key : list Z; secret_key : list Z }.

Inductive CrossShardError : Type :=
  | SameShardTransfer
  | TooManyPending (shard : Z)
  | ShardNotRegistered (shard : Z)
  | ShardNotReachable (shard : Z)
  | TransactionNotFound (tx_id : Hash)
  | ProofGenerationFailed (e : string)
  | ProofVerificationFailed (e : string)
  | InvalidMessageFormat
  | Unauthorized
  | InvalidAmount (e : string)
  | TooManyPendingFromSender (sender : Z)
  | InternalError (e : string).

(** How a call can stop: with an error, or because a queue it sends to is full. *)
Inductive Stop : Type := Failed (e : CrossShardError) | Waits.

(** A [tokio::sync::mpsc] queue: whether the receiver exists, the capacity, and the messages sent and not yet received. *)
Record Channel : Type := mkChannel { ch_open : bool; capacity : nat; ch_queue : list CrossShardMessage }.

Record CrossShardCoordinator : Type := mkCoordinator {
  config : CrossShardConfig;
  pending : gmap Hash CrossShardTransaction;
  by_source_shard : gmap Z (list Hash);
  by_dest_shard : gmap Z (list Hash);
  receipts : gmap Hash CrossShardReceipt;
  zk_enabled : bool;
  shard_channels : gmap Z nat;
  metrics : CrossShardMetrics;
  auth_token : list Z;
  nonce_counter : Z;
  pending_per_sender : gmap Z Z;
  committee_keypair : option MlDsa65Keypair;
  channels : gmap nat Channel;
  blocked : list (nat * CrossShardMessage)
}.

Definition set_transfers (p : gmap Hash CrossShardTransaction) (bs bd : gmap Z (list Hash)) (s : CrossShardCoordinator) : CrossShardCoordinator :=
  mkCoordinator (config s) p bs bd (receipts s) (zk_enabled s) (shard_channels s) (metrics s) (auth_token s) (nonce_counter s) (pending_per_sender s) (committee_keypair s) (channels s) (blocked s).
Definition set_pending (p : gmap Hash CrossShardTransaction) (s : CrossShardCoordinator) : CrossShardCoordinator := set_transfers p (by_source_shard s) (by_dest_shard s) s.
Definition set_receipts (r : gmap Hash CrossShardReceipt) (s : CrossShardCoordinator) : CrossShardCoordinator :=
  mkCoordinator (config s) (pending s) (by_source_shard s) (by_dest_shard s) r (zk_enabled s) (shard_channels s) (metrics s) (auth_token s) (nonce_counter s) (pending_per_sender s) (committee_keypair s) (channels s) (blocked s).
Definition set_shard_channels (c : gmap Z nat) (s : CrossShardCoordinator) : CrossShardCoordinator :=
  mkCoordinator (config s) (pending s) (by_source_shard s) (by_dest_shard s) (receipts s) (zk_enabled s) c (metrics s) (auth_token s) (nonce_counter s) (pending_per_sender s) (committee_keypair s) (channels s) (blocked s).
Definition set_metrics (m : CrossShardMetrics) (s : CrossShardCoordinator) : CrossShardCoordinator :=
  mkCoordinator (config s) (pending s) (by_source_shard s) (by_dest_shard s) (receipts s) (zk_enabled s) (shard_channels s) m (auth_token s) (nonce_counter s) (pending_per_sender s) (committee_keypair s) (channels s) (blocked s).
Definition set_nonce_counter (n : Z) (s : CrossShardCoordinator) : CrossShardCoordinator :=
  mkCoordinator (config s) (pending s) (by_source_shard s) (by_dest_shard s) (receipts s) (zk_enabled s) (shard_channels s) (metrics s) (auth_token s) n (pending_per_sender s) (committee_keypair s) (channels s) (blocked s).
Definition set_per_sender (m : gmap Z Z) (s : CrossShardCoordinator) : CrossShardCoordinator :=
  mkCoordinator (config s) (pending s) (by_source_shard s) (by_dest_shard s) (receipts s) (zk_enabled s) (shard_channels s) (metrics s) (auth_token s) (nonce_counter s) m (committee_keypair s) (channels s) (blocked s).
Definition set_keypair (k : option MlDsa65Keypair) (s : CrossShardCoordinator) : CrossShardCoordinator :=
  mkCoordinator (config s) (pending s) (by_source_shard s) (by_dest_shard s) (receipts s) (zk_enabled s) (shard_channels s) (metrics s) (auth_token s) (nonce_counter s) (pending_per_sender s) k (channels s) (blocked s).
Definition set_queues (c : gmap nat Channel) (b : list (nat * CrossShardMessage)) (s : CrossShardCoordinator) : CrossShardCoordinator :=
  mkCoordinator (config s) (pending s) (by_source_shard s) (by_dest_shard s) (receipts s) (zk_enabled s) (shard_channels s) (metrics s) (auth_token s) (nonce_counter s) (pending_per_sender s) (committee_keypair s) c b.

(** ** Metrics *)

Definition incr (x : Z) : Z := wrapping_add u64_max x 1.
Definition count_initiated (m : CrossShardMetrics) : CrossShardMetrics :=
  mkMetrics (incr (tx_initiated m)) (tx_completed m) (tx_failed m) (avg_completion_time_ms m) (messages_sent m) (messages_received m) (incr (pending_count m)).
Definition count_sent (m : CrossShardMetrics) : CrossShardMetrics :=
  mkMetrics (tx_initiated m) (tx_completed m) (tx_failed m) (avg_completion_time_ms m) (incr (messages_sent m)) (messages_received m) (pending_count m).
Definition count_received (m : CrossShardMetrics) : CrossShardMetrics :=
  mkMetrics (tx_initiated m) (tx_completed m) (tx_failed m) (avg_completion_time_ms m) (messages_sent m) (incr (messages_received m)) (pending_count m).
Definition count_finalized (ok : bool) (duration : Z) (m : CrossShardMetrics) : CrossShardMetrics :=
  mkMetrics (tx_initiated m) (if ok then incr (tx_completed m) else tx_completed m) (if ok then tx_failed m else incr (tx_failed m))
    (wrapping_add u64_max (avg_completion_time_ms m) (wrapping_mul u64_max duration 1000) / 2)
    (messages_sent m) (messages_received m) (saturating_sub (pending_count m) 1).

Section Coordinator.
Context (ser : CrossShardTransaction → Result (list Z) string) (hash_data : list Z → Hash).
Context (sign_ml_dsa_65 : list Z → list Z → option (list Z)) (verify_ml_dsa_65 : list Z → list Z → list Z → bool).

Notation C := (M CrossShardCoordinator Stop).

Definition new (c : CrossShardConfig) (token : list Z) (cs : gmap nat Channel) : CrossShardCoordinator :=
  mkCoordinator c ∅ ∅ ∅ ∅ (enable_zk_proofs c) ∅ (mkMetrics 0 0 0 0 0 0 0) token 1 ∅ None cs [].

Definition set_committee_keypair (k : MlDsa65Keypair) (s : CrossShardCoordinator) : CrossShardCoordinator := set_keypair (Some k) s.

(** ** Signatures *)

Definition message_signing_data (m : CrossShardMessage) : list Z :=
  hash_bytes (hash_data (le_bytes 2 (m_source_shard m) ++ le_bytes 2 (m_dest_shard m) ++ hash_bytes (state_root m) ++ payload m)).

Definition sign_committee (s : CrossShardCoordinator) (m : CrossShardMessage) : list Z :=
  match committee_keypair s with
  | Some kp => match sign_ml_dsa_65 (secret_key kp) (message_signing_data m) with Some sig => sig | None => [] end
  | None => []
  end.

Definition verify_committee_signature (s : CrossShardCoordinator) (m : CrossShardMessage) : Result () CrossShardError :=
  match committee_signature m with
  | [] => Ok ()
  | _ =>
      match committee_keypair s with
      | Some kp => if verify_ml_dsa_65 (public_key kp) (message_signing_data m) (committee_signature m) then Ok () else Err InvalidMessageFormat
      | None => Ok ()
      end
  end.

Definition build_signed_control_message (s : CrossShardCoordinator) (t : CrossShardMessageType) (source dest : Z) (root : Hash) : CrossShardMessage :=
  let m := mkMessage t source dest [] [] root [] in set_signature (sign_committee s m) m.

Definition bootstrap_auth_token (s : CrossShardCoordinator) : list Z := auth_token s.

Definition register_shard (shard_id : Z) (ch : nat) (token : list Z) : C () :=
  s <-? gets (λ s, s);
  fail_if (negb (bool_decide (auth_token s = token))) (Failed Unauthorized) ?;
  modify (λ s, set_shard_channels (<[shard_id := ch]> (shard_channels s)) s).

(** ** Messages *)

Definition push (c : Channel) (m : CrossShardMessage) : Channel := mkChannel (ch_open c) (capacity c) (ch_queue c ++ [m]).

Definition send_to_shard (shard_id : Z) (m : CrossShardMessage) : C () :=
  s <-? gets (λ s, s);
  match shard_channels s !! shard_id with
  | None => throw (Failed (ShardNotRegistered shard_id))
  | Some ch =>
      match channels s !! ch with
      | Some c =>
          if ch_open c then
            if (length (ch_queue c) <? capacity c)%nat then
              modify (set_queues (<[ch := push c m]> (channels s)) (blocked s)) ?;
              modify (λ s, set_metrics (count_sent (metrics s)) s)
            else modify (set_queues (channels s) (blocked s ++ [(ch, m)])) ?; throw Waits
          else throw (Failed (ShardNotReachable shard_id))
      | None => throw (Failed (ShardNotReachable shard_id))
      end
  end.

(** The completion of the [i]th send that waits. *)
Definition deliver (i : nat) (s : CrossShardCoordinator) : CrossShardCoordinator :=
  match blocked s !! i with
  | Some (ch, m) =>
      match channels s !! ch with
      | Some c =>
          if ch_open c then
            if (length (ch_queue c) <? capacity c)%nat then set_metrics (count_sent (metrics s)) (set_queues (<[ch := push c m]> (channels s)) (delete i (blocked s)) s)
            else s
          else set_queues (channels s) (delete i (blocked s)) s
      | None => set_queues (channels s) (delete i (blocked s)) s
      end
  | None => s
  end.

(** [recv] at the other end of a queue. *)
Definition receive (ch : nat) (s : CrossShardCoordinator) : option (CrossShardMessage * CrossShardCoordinator) :=
  match channels s !! ch with
  | Some (mkChannel o cap (m :: q)) => Some (m, set_queues (<[ch := mkChannel o cap q]> (channels s)) (blocked s) s)
  | _ => None
  end.

Definition generate_tx_id (from to amt nanos : Z) : Hash :=
  hash_data (hash_bytes from ++ hash_bytes to ++ le_bytes 16 amt ++ le_bytes 8 (nanos mod 2 ^ 64)).

(** ** Transfers *)

Definition push_id (shard : Z) (h : Hash) (m : gmap Z (list Hash)) : gmap Z (list Hash) := <[shard := default [] (m !! shard) ++ [h]]> m.

Definition proof_input (root : Hash) (serialized : list Z) (t : CrossShardTransaction) : list Z :=
  hash_bytes root ++ serialized ++ hash_bytes (sender t) ++ hash_bytes (recipient t) ++ le_bytes 16 (amount t).

Definition make_proof (root : Hash) (serialized : list Z) (t : CrossShardTransaction) : list Z :=
  let proof_hash := hash_data (proof_input root serialized t) in
  hash_bytes proof_hash ++ hash_bytes (hash_data (hash_bytes proof_hash ++ hash_bytes root)) ++ hash_bytes root.

Definition serialized (context : string) (t : CrossShardTransaction) : C (list Z) :=
  match ser t with Ok b => returns b | Err e => throw (Failed (InternalError (String.append context e))) end.

Definition attach_proof (root : Hash) (t : CrossShardTransaction) : C CrossShardTransaction :=
  zk <-? gets zk_enabled;
  if zk then b <-? serialized "Serialization failed: " t; returns (set_proof (Some (make_proof root b t)) t) else returns t.

Definition initiate_transfer (source dest from to amt : Z) (root : Hash) (nanos now : Z) : C Hash :=
  fail_if (source =? dest) (Failed SameShardTransfer) ?;
  fail_if (amt <? MIN_TRANSFER_AMOUNT) (Failed (InvalidAmount "Amount too small")) ?;
  fail_if (MAX_TRANSFER_AMOUNT <? amt) (Failed (InvalidAmount "Amount too large")) ?;
  counts <-? gets pending_per_sender;
  fail_if (MAX_PENDING_PER_SENDER <=? get0 counts from) (Failed (TooManyPendingFromSender from)) ?;
  modify (set_per_sender (<[from := get0 counts from + 1]> counts)) ?;
  s <-? gets (λ s, s);
  fail_if (max_pending_per_shard (config s) <=? Z.of_nat (length (default [] (by_source_shard s !! source)))) (Failed (TooManyPending source)) ?;
  let tx_id := generate_tx_id from to amt nanos in
  modify (λ s, set_nonce_counter (incr (nonce_counter s)) s) ?;
  tx <-? attach_proof root (mkTx tx_id source dest from to amt [] (nonce_counter s) now Locked root None 0);
  modify (λ s, set_transfers (<[tx_id := tx]> (pending s)) (push_id source tx_id (by_source_shard s)) (push_id dest tx_id (by_dest_shard s)) s) ?;
  modify (λ s, set_metrics (count_initiated (metrics s)) s) ?;
  p <-? serialized "Failed to serialize tx: " tx;
  s <-? gets (λ s, s);
  let m := mkMessage (Transfer tx) source dest p [] root [] in
  send_to_shard dest (set_signature (sign_committee s m) m) ?;
  returns tx_id.

(** ** Completion *)

Definition release_sender (from : Z) (counts : gmap Z Z) : gmap Z Z :=
  match counts !! from with
  | Some c => let c' := saturating_sub c 1 in if c' =? 0 then delete from counts else <[from := c']> counts
  | None => counts
  end.

Definition remove_id (shard : Z) (h : Hash) (m : gmap Z (list Hash)) : gmap Z (list Hash) :=
  match m !! shard with
  | Some ids => match filter (λ x, x ≠ h) ids with [] => delete shard m | ids' => <[shard := ids']> m end
  | None => m
  end.

Definition finalize_transaction (tx_id : Hash) (ok : bool) (err : option string) (now : Z) : C () :=
  s <-? gets (λ s, s);
  match pending s !! tx_id with
  | None => throw (Failed (TransactionNotFound tx_id))
  | Some tx =>
      let duration := wrapping_sub u64_max now (timestamp tx) in
      modify (λ s, set_per_sender (release_sender (sender tx) (pending_per_sender s)) s) ?;
      modify (λ s, set_receipts (<[tx_id := mkReceipt tx_id ok (source_shard tx) (dest_shard tx) (if ok then Finalized else RolledBack)
        (wrapping_mul u64_max duration 1000) 21000 err]> (receipts s)) s) ?;
      modify (λ s, set_transfers (delete tx_id (pending s)) (remove_id (source_shard tx) tx_id (by_source_shard s)) (remove_id (dest_shard tx) tx_id (by_dest_shard s)) s) ?;
      modify (λ s, set_metrics (count_finalized ok duration (metrics s)) s)
  end.

Definition mark (tx_id : Hash) (p : CrossShardPhase) (s : CrossShardCoordinator) : CrossShardCoordinator :=
  match pending s !! tx_id with Some tx => set_pending (<[tx_id := set_phase p tx]> (pending s)) s | None => s end.

Definition handle_confirmation (tx_id : Hash) (now : Z) : C () :=
  s <-? gets (λ s, s);
  match pending s !! tx_id with
  | Some _ => modify (mark tx_id Confirmed) ?; finalize_transaction tx_id true None now
  | None => throw (Failed (TransactionNotFound tx_id))
  end.

Definition handle_rejection (tx_id : Hash) (reason : string) (now : Z) : C () :=
  modify (mark tx_id RolledBack) ?;
  finalize_transaction tx_id false (Some reason) now.

Definition handle_state_sync_request (from_shard from_height to_height : Z) : C () := returns ().
Definition handle_state_sync_response (from_shard : Z) (d : list Z) : C () := returns ().

Definition control (t : CrossShardMessageType) (tx : CrossShardTransaction) (root : Hash) : C () :=
  s <-? gets (λ s, s);
  send_to_shard (source_shard tx) (build_signed_control_message s t (dest_shard tx) (source_shard tx) root).

Definition reject (tx : CrossShardTransaction) (reason detail : string) : C () :=
  control (Reject (id tx) reason) tx 0 ?; throw (Failed (ProofVerificationFailed detail)).

Definition check_proof (tx : CrossShardTransaction) (root : Hash) : C () :=
  match proof tx with
  | Some p =>
      if (length p <? 96)%nat then reject tx "Invalid proof: too short" "Proof too short (expected 96 bytes)"
      else
        b <-? serialized "Serialization failed: " (set_proof None tx);
        if negb (bool_decide (take 32 p = hash_bytes (hash_data (proof_input root b tx)))) then reject tx "Proof verification failed" "Proof hash mismatch"
        else if negb (bool_decide (take 32 (drop 32 p) = hash_bytes (hash_data (take 32 p ++ hash_bytes root)))) then reject tx "Proof signature mismatch" "Proof signature mismatch"
        else fail_if (negb (bool_decide (take 32 (drop 64 p) = hash_bytes root))) (Failed (ProofVerificationFailed "State root mismatch in proof"))
  | None =>
      zk <-? gets zk_enabled;
      fail_if zk (Failed (ProofVerificationFailed "Missing required proof"))
  end.

Definition handle_incoming_transfer (tx : CrossShardTransaction) (root : Hash) : C () :=
  check_proof tx root ?;
  modify (mark (id tx) Credited) ?;
  control (Confirm (id tx)) tx root.

Definition process_message (m : CrossShardMessage) (now : Z) : C () :=
  modify (λ s, set_metrics (count_received (metrics s)) s) ?;
  s <-? gets (λ s, s);
  match verify_committee_signature s m with
  | Err e => throw (Failed e)
  | Ok _ =>
      match msg_type m with
      | Transfer tx => handle_incoming_transfer tx (state_root m)
      | Confirm tx_id => handle_confirmation tx_id now
      | Reject tx_id reason => handle_rejection tx_id reason now
      | StateSync from to => handle_state_sync_request (m_source_shard m) from to
      | StateSyncResponse d => handle_state_sync_response (m_source_shard m) d
      | Heartbeat => returns ()
      end
  end.

(** ** Timeouts and queries *)

Definition stale (threshold : Z) (tx : CrossShardTransaction) : bool := (timestamp tx <? threshold) && negb (bool_decide (phase tx = Finalized)).

Definition process_timeouts (now : Z) : C (list Hash) :=
  s <-? gets (λ s, s);
  let threshold := wrapping_sub u64_max now (timeout_ms (config s) / 1000) in
  let timed_out := map id (filter (λ tx, stale threshold tx) (map_to_list (pending s)).*2) in
  for_each timed_out (λ tx_id, modify (mark tx_id TimedOut) ?; finalize_transaction tx_id false (Some "Timeout") now) ?;
  returns timed_out.

Definition get_pending (s : CrossShardCoordinator) (tx_id : Hash) : option CrossShardTransaction := pending s !! tx_id.
Definition get_receipt (s : CrossShardCoordinator) (tx_id : Hash) : option CrossShardReceipt := receipts s !! tx_id.
Definition get_pending_for_shard (s : CrossShardCoordinator) (shard_id : Z) : list CrossShardTransaction :=
  omap (λ h, pending s !! h) (default [] (by_source_shard s !! shard_id)).
Definition get_metrics (s : CrossShardCoordinator) : CrossShardMetrics := metrics s.

(** ** Histories *)

Inductive Event : Type :=
  | EInitiate (source dest from to amt : Z) (root : Hash) (nanos now : Z)
  | EMessage (m : CrossShardMessage) (now : Z)
  | ETimeouts (now : Z)
  | ERegister (shard_id : Z) (ch : nat) (token : list Z)
  | EKeypair (k : MlDsa65Keypair)
  | EDeliver (i : nat)
  | EReceive (ch : nat).

Definition step (s : CrossShardCoordinator) (e : Event) : CrossShardCoordinator :=
  match e with
  | EInitiate source dest from to amt root nanos now => (initiate_transfer source dest from to amt root nanos now s).2
  | EMessage m now => (process_message m now s).2
  | ETimeouts now => (process_timeouts now s).2
  | ERegister shard ch token => (register_shard shard ch token s).2
  | EKeypair k => set_committee_keypair k s
  | EDeliver i => deliver i s
  | EReceive ch => match receive ch s with Some (_, s') => s' | None => s end
  end.

Definition exec (s : CrossShardCoordinator) (es : list Event) : CrossShardCoordinator := foldl step s es.

(** The identifier a transfer gets was not used before. *)
Definition fresh (s : CrossShardCoordinator) (e : Event) : Prop :=
  match e with
  | EInitiate _ _ from to amt _ nanos _ => pending s !! generate_tx_id from to amt nanos = None ∧ receipts s !! generate_tx_id from to amt nanos = None
  | _ => True
  end.

Fixpoint fresh_run (s : CrossShardCoordinator) (es : list Event) : Prop :=
  match es with [] => True | e :: es' => fresh s e ∧ fresh_run (step s e) es' end.

(** ** The ledger of transfers

    The part of the state the protocol is about, and the ways it can change. *)

Record Ledger : Type := mkLedger {
  l_config : CrossShardConfig;
  l_pending : gmap Hash CrossShardTransaction;
  l_source : gmap Z (list Hash);
  l_dest : gmap Z (list Hash);
  l_receipts : gmap Hash CrossShardReceipt;
  l_counts : gmap Z Z
}.

Definition ledger (s : CrossShardCoordinator) : Ledger :=
  mkLedger (config s) (pending s) (by_source_shard s) (by_dest_shard s) (receipts s) (pending_per_sender s).

Definition counted (a : Z) (l : Ledger) : Ledger :=
  mkLedger (l_config l) (l_pending l) (l_source l) (l_dest l) (l_receipts l) (<[a := get0 (l_counts l) a + 1]> (l_counts l)).
Definition added (tx : CrossShardTransaction) (l : Ledger) : Ledger :=
  mkLedger (l_config l) (<[id tx := tx]> (l_pending l)) (push_id (source_shard tx) (id tx) (l_source l)) (push_id (dest_shard tx) (id tx) (l_dest l)) (l_receipts l) (l_counts l).
Definition marked (h : Hash) (tx : CrossShardTransaction) (p : CrossShardPhase) (l : Ledger) : Ledger :=
  mkLedger (l_config l) (<[h := set_phase p tx]> (l_pending l)) (l_source l) (l_dest l) (l_receipts l) (l_counts l).
Definition completed (h : Hash) (tx : CrossShardTransaction) (r : CrossShardReceipt) (l : Ledger) : Ledger :=
  mkLedger (l_config l) (delete h (l_pending l)) (remove_id (source_shard tx) h (l_source l)) (remove_id (dest_shard tx) h (l_dest l))
    (<[h := r]> (l_receipts l)) (release_sender (sender tx) (l_counts l)).

Definition admissible (l : Ledger) (tx : CrossShardTransaction) : Prop :=
  source_shard tx ≠ dest_shard tx ∧ MIN_TRANSFER_AMOUNT ≤ amount tx ≤ MAX_TRANSFER_AMOUNT ∧ phase tx = Locked ∧
  Z.of_nat (length (default [] (l_source l !! source_shard tx))) < max_pending_per_shard (l_config l).

Inductive lstep : Ledger → Ledger → Prop :=
  | ls_refused l a : get0 (l_counts l) a < MAX_PENDING_PER_SENDER → lstep l (counted a l)
  | ls_initiated l tx : get0 (l_counts l) (sender tx) < MAX_PENDING_PER_SENDER → admissible l tx → l_pending l !! id tx = None → l_receipts l !! id tx = None →
      lstep l (added tx (counted (sender tx) l))
  | ls_marked l h tx p : l_pending l !! h = Some tx → p ≠ Finalized → lstep l (marked h tx p l)
  | ls_completed l h tx r : l_pending l !! h = Some tx → r_tx_id r = h ∧ r_source_shard r = source_shard tx ∧ r_dest_shard r = dest_shard tx → lstep l (completed h tx r l).

(** Sending does not touch the ledger. *)
Lemma send_ledger shard m s : ledger (send_to_shard shard m s).2 = ledger s.
Proof.
  unfold send_to_shard. rewrite gets_bind. destruct (shard_channels s !! shard) as [ch|]; [|done]. destruct (channels s !! ch) as [c|]; [|done].
  destruct (ch_open c); [|done]. by destruct (_ <? _)%nat.
Qed.

Lemma control_ledger t tx root s : ledger (control t tx root s).2 = ledger s.
Proof. apply send_ledger. Qed.

Lemma reject_ledger tx a b s : ledger (reject tx a b s).2 = ledger s.
Proof. unfold reject, bindM. pose proof (control_ledger (Reject (id tx) a) tx 0 s) as H. by destruct (control _ _ _ s) as [[]]. Qed.

Lemma serialized_state c t s r s' : serialized c t s = (r, s') → s' = s.
Proof. unfold serialized. destruct (ser t); by intros [= _ ->]. Qed.

Lemma check_proof_ledger tx root s : ledger (check_proof tx root s).2 = ledger s.
Proof.
  unfold check_proof. destruct (proof tx) as [p|]; [|done]. destruct (_ <? _)%nat; [apply reject_ledger|].
  unfold bindM. destruct (serialized _ _ s) as [[b|e] s1] eqn:Hs; apply serialized_state in Hs as ->; [|done].
  destruct (negb _); [apply reject_ledger|]. destruct (negb _); [apply reject_ledger|done].
Qed.

Lemma mark_ledger h p s : ledger (mark h p s) = match pending s !! h with Some tx => marked h tx p (ledger s) | None => ledger s end.
Proof. unfold mark. by destruct (pending s !! h). Qed.

Lemma mark_step h p s : p ≠ Finalized → rtc lstep (ledger s) (ledger (mark h p s)).
Proof. intros Hp. rewrite mark_ledger. destruct (pending s !! h) eqn:H; [|done]. apply rtc_once. by constructor. Qed.

Lemma finalize_eq h tx ok err now s : pending s !! h = Some tx → ∃ s', finalize_transaction h ok err now s = (Ok (), s') ∧
  ledger s' = completed h tx (mkReceipt h ok (source_shard tx) (dest_shard tx) (if ok then Finalized else RolledBack) (wrapping_mul u64_max (wrapping_sub u64_max now (timestamp tx)) 1000) 21000 err) (ledger s).
Proof. intros H. unfold finalize_transaction. rewrite gets_bind, H. by eexists. Qed.

Lemma finalize_simulated h ok err now s : rtc lstep (ledger s) (ledger (finalize_transaction h ok err now s).2).
Proof.
  destruct (pending s !! h) as [tx|] eqn:H.
  - destruct (finalize_eq h tx ok err now s H) as (s' & Hf & Hl). rewrite Hf. cbn [snd]. rewrite Hl. apply rtc_once. by constructor.
  - unfold finalize_transaction. by rewrite gets_bind, H.
Qed.

Lemma marked_finalize_step h p ok err now s : p ≠ Finalized → rtc lstep (ledger s) (ledger ((modify (mark h p) ?; finalize_transaction h ok err now) s).2).
Proof. intros Hp. etrans; [by apply (mark_step h p)|]. apply finalize_simulated. Qed.

Lemma attach_proof_cases root t s : ∃ r, attach_proof root t s = (r, s) ∧ match r with Ok t' => ∃ p, t' = set_proof p t | Err _ => True end.
Proof.
  unfold attach_proof. rewrite gets_bind. destruct (zk_enabled s); [|eexists; split; [done|]; exists (proof t); by destruct t].
  unfold bindM. destruct (serialized _ t s) as [[b|e] s1] eqn:Hs; apply serialized_state in Hs as ->; eexists; split; [done| |done|done]. by eexists.
Qed.

Lemma initiate_step source dest from to amt root nanos now s : fresh s (EInitiate source dest from to amt root nanos now) →
  rtc lstep (ledger s) (ledger (initiate_transfer source dest from to amt root nanos now s).2).
Proof.
  intros [Hp Hr]. unfold initiate_transfer. rewrite !fail_if_bind. destruct (Z.eqb_spec source dest); [done|]. destruct (Z.ltb_spec amt MIN_TRANSFER_AMOUNT); [done|].
  destruct (Z.ltb_spec MAX_TRANSFER_AMOUNT amt); [done|]. rewrite gets_bind, fail_if_bind. destruct (Z.leb_spec MAX_PENDING_PER_SENDER (get0 (pending_per_sender s) from)) as [|Hc]; [done|].
  set (counts := <[from := _]> _). change (bindM (modify (set_per_sender counts)) ?k s) with (k () (set_per_sender counts s)). cbv beta. rewrite gets_bind, fail_if_bind.
  assert (H1 : rtc lstep (ledger s) (ledger (set_per_sender counts s))) by (apply rtc_once; by apply (ls_refused (ledger s) from)).
  destruct (Z.leb_spec (max_pending_per_shard (config (set_per_sender counts s))) (Z.of_nat (length (default [] (by_source_shard (set_per_sender counts s) !! source))))) as [|Hn]; [done|].
  change (bindM (modify ?f) ?k ?s) with (k () (f s)). cbv beta. set (s1 := set_nonce_counter _ _). set (t0 := mkTx _ _ _ _ _ _ _ _ _ _ _ _ _).
  destruct (attach_proof_cases root t0 s1) as (r & Hatt & Hres). unfold bindM at 1. rewrite Hatt. destruct r as [tx|]; [|done]. destruct Hres as [p ->].
  change (bindM (modify ?f) ?k ?s) with (k () (f s)). cbv beta. change (bindM (modify ?f) ?k ?s) with (k () (f s)). cbv beta. set (s2 := set_metrics _ _).
  assert (H2 : rtc lstep (ledger s) (ledger s2)) by (apply rtc_once; by apply (ls_initiated (ledger s) (set_proof p t0))).
  unfold bindM at 1. destruct (serialized _ _ s2) as [[b|e] s3] eqn:Hs; apply serialized_state in Hs as ->; [|done]. rewrite gets_bind.
  unfold bindM. match goal with |- context [send_to_shard dest ?m s2] => pose proof (send_ledger dest m s2) as Hl; destruct (send_to_shard dest m s2) as [[] ?] end; cbn [snd returns] in Hl |- *; rewrite Hl; exact H2.
Qed.

Lemma message_step m now s : rtc lstep (ledger s) (ledger (process_message m now s).2).
Proof.
  unfold process_message. change (bindM (modify ?f) ?k ?s) with (k () (f s)). cbv beta. set (s1 := set_metrics _ _). rewrite gets_bind. change (ledger s) with (ledger s1).
  destruct (verify_committee_signature s1 m); [|done]. destruct (msg_type m) as [tx|h|h reason|from to|d|]; [| | |done..].
  - unfold handle_incoming_transfer, bindM. pose proof (check_proof_ledger tx (state_root m) s1) as Hc. destruct (check_proof tx _ s1) as [[[]|e] s2]; cbn in Hc; rewrite <- Hc; [|done].
    cbn [modify]. rewrite control_ledger. by apply mark_step.
  - unfold handle_confirmation. rewrite gets_bind. destruct (pending s1 !! h); [|done]. by apply marked_finalize_step.
  - by apply marked_finalize_step.
Qed.

Lemma timeouts_step now s : rtc lstep (ledger s) (ledger (process_timeouts now s).2).
Proof.
  unfold process_timeouts. rewrite gets_bind. unfold bindM at 1. set (l := map id _). set (body := λ h, _).
  pose proof (for_each_inv (λ s', rtc lstep (ledger s) (ledger s')) l body s) as H. destruct (for_each l body s) as [[[]|e] s']; cbn in *; (apply H; [|done]); intros h s1 _ H1; (etrans; [done|by apply marked_finalize_step]).
Qed.

Lemma step_simulated s e : fresh s e → rtc lstep (ledger s) (ledger (step s e)).
Proof.
  intros Hf. destruct e; cbn [step].
  - by apply initiate_step.
  - apply message_step.
  - apply timeouts_step.
  - unfold register_shard. rewrite gets_bind, fail_if_bind. by destruct (negb _).
  - done.
  - unfold deliver. destruct (blocked s !! i) as [[ch m]|]; [|done]. destruct (channels s !! ch) as [c|]; [|done]. destruct (ch_open c); [|done]. by destruct (_ <? _)%nat.
  - unfold receive. destruct (channels s !! ch) as [[o cap [|m q]]|]; done.
Qed.

Lemma exec_simulated s es : fresh_run s es → rtc lstep (ledger s) (ledger (exec s es)).
Proof. revert s. induction es as [|e es IH]; intros s; [done|]. intros [He Hes]. etrans; [by apply step_simulated|]. by apply IH. Qed.

(** ** Consistency *)

Definition index_ok (m : gmap Z (list Hash)) (key : CrossShardTransaction → Z) (p : gmap Hash CrossShardTransaction) : Prop :=
  ∀ shard, NoDup (default [] (m !! shard)) ∧ ∀ h, h ∈ default [] (m !! shard) ↔ ∃ tx, p !! h = Some tx ∧ key tx = shard.

Definition owned (a : Z) (p : gmap Hash CrossShardTransaction) : Z := map_sum (λ _ tx, if sender tx =? a then 1 else 0) p.

Record ledger_ok (l : Ledger) : Prop := {
  lo_valid : ∀ h tx, l_pending l !! h = Some tx → id tx = h ∧ source_shard tx ≠ dest_shard tx ∧ MIN_TRANSFER_AMOUNT ≤ amount tx ≤ MAX_TRANSFER_AMOUNT ∧ phase tx ≠ Finalized;
  lo_source : index_ok (l_source l) source_shard (l_pending l);
  lo_dest : index_ok (l_dest l) dest_shard (l_pending l);
  lo_apart : ∀ h tx, l_pending l !! h = Some tx → l_receipts l !! h = None;
  lo_receipt : ∀ h r, l_receipts l !! h = Some r → r_tx_id r = h;
  lo_counts : ∀ a, owned a (l_pending l) ≤ get0 (l_counts l) a ≤ MAX_PENDING_PER_SENDER;
  lo_bound : ∀ shard, Z.of_nat (length (default [] (l_source l !! shard))) ≤ Z.max 0 (max_pending_per_shard (l_config l))
}.

Lemma push_id_lookup shard h m s' : default [] (push_id shard h m !! s') = if decide (s' = shard) then default [] (m !! shard) ++ [h] else default [] (m !! s').
Proof. unfold push_id. destruct (decide (s' = shard)) as [->|Hne]; [by rewrite lookup_insert_eq|by rewrite lookup_insert_ne]. Qed.

Lemma remove_id_lookup shard h m s' : default [] (remove_id shard h m !! s') = if decide (s' = shard) then filter (λ x, x ≠ h) (default [] (m !! shard)) else default [] (m !! s').
Proof.
  unfold remove_id. destruct (m !! shard) as [ids|] eqn:Hm; destruct (decide (s' = shard)) as [->|Hne]; cbn [default from_option id].
  - destruct (filter _ ids) eqn:Hf; [by rewrite lookup_delete_eq|by rewrite lookup_insert_eq].
  - destruct (filter _ ids) eqn:Hf; [by rewrite lookup_delete_ne|by rewrite lookup_insert_ne].
  - by rewrite Hm.
  - done.
Qed.

Lemma index_push m key p h tx : index_ok m key p → p !! h = None → index_ok (push_id (key tx) h m) key (<[h := tx]> p).
Proof.
  intros Hi Hp shard. rewrite push_id_lookup. destruct (decide (shard = key tx)) as [->|Hne]; destruct (Hi shard) as [Hnd Hin] || destruct (Hi (key tx)) as [Hnd Hin].
  - split.
    + apply list.NoDup_app. split_and!; [done| |by apply list.NoDup_singleton]. intros x [t [Hx _]]%Hin ->%list_elem_of_singleton. by rewrite Hp in Hx.
    + intros x. rewrite elem_of_app, list_elem_of_singleton, Hin. destruct (decide (x = h)) as [->|Hx]; [rewrite lookup_insert_eq|rewrite lookup_insert_ne by done].
      * split; [|by right]. intros _. by exists tx.
      * split; [by intros [?|?]|by left].
  - split; [done|]. intros x. rewrite Hin. destruct (decide (x = h)) as [->|Hx]; [rewrite lookup_insert_eq, Hp|by rewrite lookup_insert_ne].
    split; intros (t & Ht & Hk); [done|]. injection Ht as <-. by rewrite Hk in Hne.
Qed.

Lemma index_update m key p h tx tx' : index_ok m key p → p !! h = Some tx → key tx' = key tx → index_ok m key (<[h := tx']> p).
Proof.
  intros Hi Hp Hk shard. destruct (Hi shard) as [Hnd Hin]. split; [done|]. intros x. rewrite Hin. destruct (decide (x = h)) as [->|Hx]; [|by rewrite lookup_insert_ne].
  rewrite lookup_insert_eq, Hp. split; intros (t & [= <-] & <-); eauto.
Qed.

Lemma index_remove m key p h tx : index_ok m key p → p !! h = Some tx → index_ok (remove_id (key tx) h m) key (delete h p).
Proof.
  intros Hi Hp shard. rewrite remove_id_lookup. destruct (decide (shard = key tx)) as [->|Hne].
  - destruct (Hi (key tx)) as [Hnd Hin]. split; [by apply list.NoDup_filter|]. intros x. rewrite list_elem_of_filter, Hin. destruct (decide (x = h)) as [->|Hx]; [rewrite lookup_delete_eq|rewrite lookup_delete_ne by done].
    + split; [by intros [? _]|by intros (? & ? & _)].
    + split; [by intros [_ ?]|by intros ?].
  - destruct (Hi shard) as [Hnd Hin]. split; [done|]. intros x. rewrite Hin. destruct (decide (x = h)) as [->|Hx]; [|by rewrite lookup_delete_ne]. rewrite Hp, lookup_delete_eq.
    split; intros (t & Ht & Hk); [|done]. injection Ht as <-. by rewrite Hk in Hne.
Qed.

Lemma owned_insert a p h tx : p !! h = None → owned a (<[h := tx]> p) = (if sender tx =? a then 1 else 0) + owned a p.
Proof. intros Hp. unfold owned. by rewrite map_sum_insert_fresh. Qed.

Lemma owned_delete a p h tx : p !! h = Some tx → owned a (delete h p) = owned a p - (if sender tx =? a then 1 else 0).
Proof. intros Hp. unfold owned. rewrite (map_sum_delete _ p h), Hp. done. Qed.

Lemma owned_update a p h tx tx' : p !! h = Some tx → sender tx' = sender tx → owned a (<[h := tx']> p) = owned a p.
Proof. intros Hp Hs. unfold owned. rewrite map_sum_insert, Hp. cbn [from_option]. rewrite Hs. lia. Qed.

Lemma owned_nonneg a p : 0 ≤ owned a p.
Proof. apply map_sum_nonneg. intros h tx _. destruct (_ =? _); lia. Qed.

Lemma release_get0 b counts a : get0 (release_sender b counts) a = if a =? b then match counts !! b with Some c => saturating_sub c 1 | None => 0 end else get0 counts a.
Proof.
  unfold release_sender. destruct (counts !! b) as [c|] eqn:Hc; destruct (Z.eqb_spec a b) as [->|Hne].
  - destruct (Z.eqb_spec (saturating_sub c 1) 0) as [->|]; [unfold get0; by rewrite lookup_delete_eq|apply get0_insert_eq].
  - destruct (_ =? 0); [unfold get0; by rewrite lookup_delete_ne|by apply get0_insert_ne].
  - unfold get0. by rewrite Hc.
  - done.
Qed.

Lemma lstep_ok l l' : ledger_ok l → lstep l l' → ledger_ok l'.
Proof.
  intros [Hv Hs Hd Ha Hr Hc Hb] Hst. destruct Hst as [l a Hlt|l tx Hlt (Hne & Hamt & Hph & Hn) Hp Hrc|l h tx p Hp Hph|l h tx r Hp (Hrid & _)]; cbn [counted added marked completed l_config l_pending l_source l_dest l_receipts l_counts].
  - split; [done..| |done]. intros b. cbn. specialize (Hc b). destruct (decide (a = b)) as [->|]; [rewrite get0_insert_eq; lia|by rewrite get0_insert_ne].
  - split; cbn.
    + intros h t. destruct (decide (h = id tx)) as [->|]; [rewrite lookup_insert_eq; intros [= <-]; rewrite Hph; done|rewrite lookup_insert_ne by done; apply Hv].
    + by apply index_push.
    + by apply index_push.
    + intros h t. destruct (decide (h = id tx)) as [->|]; [done|rewrite lookup_insert_ne by done; apply Ha].
    + done.
    + intros b. rewrite owned_insert by done. specialize (Hc b). destruct (Z.eqb_spec (sender tx) b) as [<-|]; [rewrite get0_insert_eq; lia|rewrite get0_insert_ne by done; lia].
    + intros shard. rewrite push_id_lookup. destruct (decide (shard = source_shard tx)) as [->|]; [|done]. rewrite length_app. cbn. lia.
  - split; cbn; [| | | |done| |done].
    + intros h' t. destruct (decide (h' = h)) as [->|]; [rewrite lookup_insert_eq; intros [= <-]; destruct (Hv h tx Hp) as (? & ? & ? & _); done|rewrite lookup_insert_ne by done; apply Hv].
    + by eapply index_update.
    + by eapply index_update.
    + intros h' t. destruct (decide (h' = h)) as [->|]; [intros _; by eapply Ha|rewrite lookup_insert_ne by done; apply Ha].
    + intros b. by rewrite (owned_update b _ h tx).
  - split; cbn.
    + intros h' t [_ Ht]%lookup_delete_Some. by apply Hv.
    + by apply index_remove.
    + by apply index_remove.
    + intros h' t [Hh Ht]%lookup_delete_Some. rewrite lookup_insert_ne by done. by eapply Ha.
    + intros h' r'. destruct (decide (h' = h)) as [->|]; [rewrite lookup_insert_eq; by intros [= <-]|rewrite lookup_insert_ne by done; apply Hr].
    + intros b. rewrite (owned_delete b _ h tx) by done. rewrite release_get0. specialize (Hc b). pose proof (owned_nonneg b (delete h (l_pending l))) as Hnn. rewrite (owned_delete b _ h tx) in Hnn by done.
      destruct (Z.eqb_spec b (sender tx)) as [->|Hne].
      * rewrite Z.eqb_refl in *. unfold get0 in Hc. destruct (l_counts l !! sender tx) as [c|]; cbn in Hc; [unfold saturating_sub; lia|lia].
      * rewrite (proj2 (Z.eqb_neq (sender tx) b)) by done. lia.
    + intros shard. rewrite remove_id_lookup. destruct (decide (shard = source_shard tx)) as [->|]; [|done]. specialize (Hb (source_shard tx)). pose proof (list.length_filter (λ x, x ≠ h) (default [] (l_source l !! source_shard tx))). lia.
Qed.

Lemma new_coordinator_ok c token cs : ledger_ok (ledger (new c token cs)).
Proof.
  split; cbn.
  - done.
  - intros shard. rewrite lookup_empty. split; [constructor|]. intros h. split; [by intros ?%not_elem_of_nil|by intros (? & ? & _)].
  - intros shard. rewrite lookup_empty. split; [constructor|]. intros h. split; [by intros ?%not_elem_of_nil|by intros (? & ? & _)].
  - done.
  - done.
  - intros a. unfold owned. rewrite map_sum_empty. unfold get0. rewrite lookup_empty. cbn. unfold MAX_PENDING_PER_SENDER. lia.
  - intros shard. rewrite lookup_empty. cbn. lia.
Qed.

Lemma lsteps_ok l l' : rtc lstep l l' → ledger_ok l → ledger_ok l'.
Proof. induction 1; eauto using lstep_ok. Qed.

Lemma exec_ok c token cs es : fresh_run (new c token cs) es → ledger_ok (ledger (exec (new c token cs) es)).
Proof. intros Hf. eapply lsteps_ok; [by apply exec_simulated|apply new_coordinator_ok]. Qed.

Lemma lstep_receipt l l' h r : ledger_ok l → lstep l l' → l_receipts l !! h = Some r → l_receipts l' !! h = Some r.
Proof.
  intros Hok Hst Hr. destruct Hst as [| | |l h' tx r' Hp]; cbn; [done..|]. rewrite lookup_insert_ne; [done|]. intros ->. pose proof (lo_apart l Hok h tx Hp). congruence.
Qed.

Lemma lsteps_receipt l l' h r : rtc lstep l l' → ledger_ok l → l_receipts l !! h = Some r → l_receipts l' !! h = Some r.
Proof. induction 1 as [|l l1 l' Hst _ IH]; [done|]. intros Hok Hr. apply IH; [by eapply lstep_ok|by eapply lstep_receipt]. Qed.

(** A transfer that is pending stays so, with the same parties and amount, or gets its receipt. *)
Definition same_transfer (t u : CrossShardTransaction) : Prop :=
  id t = id u ∧ source_shard t = source_shard u ∧ dest_shard t = dest_shard u ∧ sender t = sender u ∧ recipient t = recipient u ∧ amount t = amount u ∧ proof t = proof u.

Definition accounted (h : Hash) (tx : CrossShardTransaction) (l : Ledger) : Prop :=
  (∃ t, l_pending l !! h = Some t ∧ same_transfer t tx) ∨ ∃ r, l_receipts l !! h = Some r ∧ r_source_shard r = source_shard tx ∧ r_dest_shard r = dest_shard tx.

Lemma transfer_accounted_step h tx l l' : ledger_ok l → lstep l l' → accounted h tx l → accounted h tx l'.
Proof.
  intros Hok Hst [(t & Ht & Hsame)|(r & Hr & Hsh)]; [|right; exists r; split; [by eapply lstep_receipt|done]].
  destruct Hst as [l a _|l u _ _ Hp _|l h' u p Hp _|l h' u r Hp (_ & Hs & Hd)]; unfold accounted; cbn.
  - left. by exists t.
  - left. exists t. split; [|done]. rewrite lookup_insert_ne; [done|congruence].
  - left. destruct (decide (h' = h)) as [->|]; [|exists t; by rewrite lookup_insert_ne]. exists (set_phase p u). rewrite lookup_insert_eq. split; [done|]. by replace u with t by congruence.
  - destruct (decide (h' = h)) as [->|]; [|left; exists t; by rewrite lookup_delete_ne]. right. exists r. rewrite lookup_insert_eq. split; [done|].
    assert (u = t) as -> by congruence. destruct Hsame as (_ & <- & <- & _). done.
Qed.

Lemma accounted_steps h tx l l' : rtc lstep l l' → ledger_ok l → accounted h tx l → accounted h tx l'.
Proof. induction 1 as [|l l1 l' Hst _ IH]; [done|]. intros Hok Ha. apply IH; [by eapply lstep_ok|by eapply transfer_accounted_step]. Qed.

Lemma exec_config c token cs es : fresh_run (new c token cs) es → config (exec (new c token cs) es) = c.
Proof.
  intros Hf. pose proof (exec_simulated _ _ Hf) as Hsim. change (l_config (ledger (exec (new c token cs) es)) = l_config (ledger (new c token cs))). revert Hsim. clear.
  induction 1 as [|l l1 l' Hst _ IH]; [done|]. rewrite IH. by destruct Hst.
Qed.

Lemma omap_short {A B} (f : A → option B) l : (length (omap f l) ≤ length l)%nat.
Proof. induction l as [|x l IH]; cbn; [done|]. destruct (f x); cbn; lia. Qed.

Lemma exec_app s es1 es2 : exec s (es1 ++ es2) = exec (exec s es1) es2.
Proof. apply foldl_app. Qed.

Lemma fresh_run_app s es1 es2 : fresh_run s (es1 ++ es2) ↔ fresh_run s es1 ∧ fresh_run (exec s es1) es2.
Proof. revert s. induction es1 as [|e es1 IH]; intros s; cbn; [tauto|]. rewrite IH. tauto. Qed.

(** In every history in which transfer identifiers do not repeat, the coordinator is consistent: the pending transfers of a shard are exactly those its
    index lists, each once and no more than the limit; they go between different shards with an amount in range; no sender has more than a hundred; and a pending transfer has no receipt. *)
Theorem transfers_consistent c token cs es : fresh_run (new c token cs) es → 0 ≤ max_pending_per_shard c →
  let s := exec (new c token cs) es in
  (∀ shard tx, tx ∈ get_pending_for_shard s shard ↔ pending s !! id tx = Some tx ∧ source_shard tx = shard) ∧
  (∀ shard, NoDup (default [] (by_source_shard s !! shard)) ∧ Z.of_nat (length (get_pending_for_shard s shard)) ≤ max_pending_per_shard c) ∧
  (∀ h tx, pending s !! h = Some tx → id tx = h ∧ source_shard tx ≠ dest_shard tx ∧ MIN_TRANSFER_AMOUNT ≤ amount tx ≤ MAX_TRANSFER_AMOUNT ∧ get_receipt s h = None) ∧
  (∀ a, owned a (pending s) ≤ MAX_PENDING_PER_SENDER).
Proof.
  intros Hf Hmax s. pose proof (exec_ok c token cs es Hf) as Hok. fold s in Hok.
  assert (Hcfg : config s = c) by exact (exec_config c token cs es Hf).
  destruct Hok as [Hv Hs _ Ha _ Hc Hb]. cbn in *. split_and!.
  - intros shard tx. unfold get_pending_for_shard. rewrite list_elem_of_omap. destruct (Hs shard) as [_ Hin]. split.
    + intros (h & Hh & Hp). apply Hin in Hh as (t & Ht & Hk). assert (t = tx) as -> by congruence. destruct (Hv h tx Hp) as (-> & _). done.
    + intros [Hp Hk]. exists (id tx). split; [|done]. apply Hin. by exists tx.
  - intros shard. destruct (Hs shard) as [Hnd _]. split; [done|]. specialize (Hb shard). rewrite Hcfg in Hb. unfold get_pending_for_shard. pose proof (omap_short (λ h, pending s !! h) (default [] (by_source_shard s !! shard))). lia.
  - intros h tx Hp. destruct (Hv h tx Hp) as (? & ? & ? & _). split_and!; [done|done|lia|lia|by eapply Ha].
  - intros a. specialize (Hc a). lia.
Qed.

(** C23. A transfer has one outcome.  From the moment it is pending it either stays pending, with the parties and the amount it was initiated with, or has a receipt
    for its shards, never both; and a receipt does not change any more. *)
Theorem transfer_outcome_final c token cs es1 es2 h : fresh_run (new c token cs) (es1 ++ es2) →
  let s1 := exec (new c token cs) es1 in let s2 := exec s1 es2 in
  (∀ r, get_receipt s1 h = Some r → get_receipt s2 h = Some r ∧ get_pending s2 h = None) ∧
  (∀ tx, get_pending s1 h = Some tx →
    (∃ t, get_pending s2 h = Some t ∧ same_transfer t tx ∧ get_receipt s2 h = None) ∨
    (∃ r, get_receipt s2 h = Some r ∧ r_source_shard r = source_shard tx ∧ r_dest_shard r = dest_shard tx ∧ get_pending s2 h = None)).
Proof.
  intros [Hf1 Hf2]%fresh_run_app s1 s2. pose proof (exec_ok c token cs es1 Hf1) as Hok1. fold s1 in Hok1, Hf2. pose proof (exec_simulated s1 es2 Hf2) as Hsim. fold s2 in Hsim.
  pose proof (lsteps_ok _ _ Hsim Hok1) as Hok2. assert (Hap : ∀ r, receipts s2 !! h = Some r → pending s2 !! h = None).
  { intros r Hr. destruct (pending s2 !! h) as [t|] eqn:Ht; [|done]. pose proof (lo_apart _ Hok2 h t Ht) as Hn. cbn in Hn. congruence. }
  split.
  - intros r Hr. pose proof (lsteps_receipt _ _ h r Hsim Hok1 Hr) as Hr2. split; [exact Hr2|by eapply Hap].
  - intros tx Hp. assert (Hac : accounted h tx (ledger s2)) by (eapply accounted_steps; [done|done|left; by exists tx]). destruct Hac as [(t & Ht & Hsame)|(r & Hr & Hs & Hd)].
    + left. exists t. split_and!; [exact Ht|exact Hsame|by apply (lo_apart _ Hok2 h t)].
    + right. exists r. split_and!; [exact Hr|done|done|by eapply Hap].
Qed.

(** ** Refused transfers *)

Definition locked_out (a : Z) (l : Ledger) : Prop := get0 (l_counts l) a = MAX_PENDING_PER_SENDER ∧ owned a (l_pending l) = 0.

Lemma owned_pos a p h tx : p !! h = Some tx → sender tx = a → 1 ≤ owned a p.
Proof.
  intros Hp Hs. unfold owned. pose proof (map_sum_lookup_le (λ _ tx, if sender tx =? a then 1 else 0) p h tx) as H. cbv beta in H. rewrite Hs, Z.eqb_refl in H. apply H; [|done].
  intros k v _. destruct (_ =? _); lia.
Qed.

Lemma locked_out_step a l l' : lstep l l' → locked_out a l → locked_out a l'.
Proof.
  intros Hst [Hc Ho]. destruct Hst as [l b Hlt|l tx Hlt _ Hp _|l h tx p Hp _|l h tx r Hp _]; unfold locked_out; cbn.
  - split; [|done]. rewrite get0_insert_ne; [done|]. intros ->. lia.
  - assert (sender tx ≠ a) by (intros <-; lia). rewrite get0_insert_ne, owned_insert by done. rewrite (proj2 (Z.eqb_neq (sender tx) a)) by done. done.
  - by rewrite (owned_update a _ h tx).
  - assert (Hne : sender tx ≠ a) by (intros Hs; pose proof (owned_pos a _ h tx Hp Hs); lia). rewrite release_get0, (owned_delete a _ h tx) by done.
    rewrite (proj2 (Z.eqb_neq a (sender tx))), (proj2 (Z.eqb_neq (sender tx) a)) by done. split; [done|lia].
Qed.

(** A transfer request that is valid in itself. *)
Definition request (source from : Z) (e : Event) : Prop :=
  match e with EInitiate src dest f _ amt _ _ _ => src = source ∧ f = from ∧ src ≠ dest ∧ MIN_TRANSFER_AMOUNT ≤ amt ≤ MAX_TRANSFER_AMOUNT | _ => False end.

Definition full (source : Z) (s : CrossShardCoordinator) : Prop := max_pending_per_shard (config s) ≤ Z.of_nat (length (default [] (by_source_shard s !! source))).

Lemma refused_request source from e s : request source from e → full source s → get0 (pending_per_sender s) from < MAX_PENDING_PER_SENDER →
  step s e = set_per_sender (<[from := get0 (pending_per_sender s) from + 1]> (pending_per_sender s)) s.
Proof.
  intros Hr Hf Hc. destruct e as [src dest f to amt root nanos now| | | | | |]; cbn [request] in Hr; [|done..]. destruct Hr as (-> & -> & Hne & Hamt). cbn [step]. unfold initiate_transfer.
  rewrite !fail_if_bind, (proj2 (Z.eqb_neq _ _)) by done. rewrite (proj2 (Z.ltb_ge _ _)) by lia. rewrite (proj2 (Z.ltb_ge _ _)) by lia. rewrite gets_bind, fail_if_bind, (proj2 (Z.leb_gt _ _)) by lia.
  change (bindM (modify ?f) ?k ?s) with (k () (f s)). cbv beta. rewrite gets_bind, fail_if_bind, (proj2 (Z.leb_le _ _)) by exact Hf. done.
Qed.

Lemma refused_requests source from es s : Forall (request source from) es → full source s → get0 (pending_per_sender s) from + Z.of_nat (length es) = MAX_PENDING_PER_SENDER →
  get0 (pending_per_sender (exec s es)) from = MAX_PENDING_PER_SENDER ∧ pending (exec s es) = pending s.
Proof.
  intros Hes. revert s. induction Hes as [|e es He _ IH]; intros s Hf Hc; cbn [length exec foldl] in *; [split; [lia|done]|].
  rewrite (refused_request source from) by (done || lia). destruct (IH (set_per_sender (<[from := get0 (pending_per_sender s) from + 1]> (pending_per_sender s)) s)) as [H1 H2]; [done|cbn; rewrite get0_insert_eq; lia|]. split; [done|exact H2].
Qed.

Lemma locked_out_run a s es : fresh_run s es → locked_out a (ledger s) → locked_out a (ledger (exec s es)).
Proof. intros Hf Hl. pose proof (exec_simulated s es Hf) as Hsim. revert Hsim Hl. clear. generalize (ledger s), (ledger (exec s es)). induction 1 as [|l l1 l' Hst _ IH]; eauto using locked_out_step. Qed.

(** Requests that are refused because the source shard is full use up the sender's slots for good: a sender without pending transfers whose slots are used up
    by such requests is refused every transfer, from any shard and at any later time, whatever happens in between. *)
Theorem refused_sender_locked_out s source from attempts es src dest to amt root nanos now :
  full source s → owned from (pending s) = 0 → Forall (request source from) attempts → get0 (pending_per_sender s) from + Z.of_nat (length attempts) = MAX_PENDING_PER_SENDER →
  fresh_run (exec s attempts) es → src ≠ dest → MIN_TRANSFER_AMOUNT ≤ amt ≤ MAX_TRANSFER_AMOUNT →
  let s' := exec (exec s attempts) es in
  initiate_transfer src dest from to amt root nanos now s' = (Err (Failed (TooManyPendingFromSender from)), s').
Proof.
  intros Hf Ho Hat Hc Hfr Hne Hamt s'. destruct (refused_requests source from attempts s Hat Hf Hc) as [H1 H2].
  assert (Hl : locked_out from (ledger s')) by (apply locked_out_run; [done|]; split; cbn; [done|by rewrite H2]). destruct Hl as [Hl _]. cbn in Hl. unfold initiate_transfer.
  rewrite !fail_if_bind, (proj2 (Z.eqb_neq _ _)) by done. rewrite (proj2 (Z.ltb_ge _ _)) by lia. rewrite (proj2 (Z.ltb_ge _ _)) by lia. rewrite gets_bind, fail_if_bind, (proj2 (Z.leb_le _ _)) by lia. done.
Qed.

(** ** Timeouts *)

Definition timed_out_receipt (r : CrossShardReceipt) : Prop := success r = false ∧ final_phase r = RolledBack ∧ error r = Some "Timeout"%string.

Lemma timeout_one h now s : is_Some (pending s !! h) → ∃ s', (modify (mark h TimedOut) ?; finalize_transaction h false (Some "Timeout"%string) now) s = (Ok (), s') ∧
  pending s' = delete h (pending s) ∧ (∃ r, receipts s' = <[h := r]> (receipts s) ∧ timed_out_receipt r).
Proof.
  intros [tx Htx]. change (bindM (modify ?f) ?k ?s) with (k () (f s)). cbv beta. assert (Hp : pending (mark h TimedOut s) = <[h := set_phase TimedOut tx]> (pending s)) by (unfold mark; by rewrite Htx).
  assert (Hr : receipts (mark h TimedOut s) = receipts s) by (unfold mark; by rewrite Htx).
  destruct (finalize_eq h (set_phase TimedOut tx) false (Some "Timeout"%string) now (mark h TimedOut s)) as (s' & Hfin & Hl); [rewrite Hp; apply lookup_insert_eq|].
  exists s'. split; [done|]. split.
  - change (l_pending (ledger s') = delete h (pending s)). rewrite Hl. cbn [completed l_pending ledger]. rewrite Hp. apply delete_insert_eq.
  - eexists. split; [change (receipts s') with (l_receipts (ledger s')); rewrite Hl; cbn [completed l_receipts ledger]; rewrite Hr; reflexivity|done].
Qed.

Lemma timeout_all l now s : NoDup l → (∀ h, h ∈ l → is_Some (pending s !! h)) →
  ∃ s', for_each l (λ h, modify (mark h TimedOut) ?; finalize_transaction h false (Some "Timeout"%string) now) s = (Ok (), s') ∧
  (∀ h, pending s' !! h = if decide (h ∈ l) then None else pending s !! h) ∧
  (∀ h, h ∈ l → ∃ r, receipts s' !! h = Some r ∧ timed_out_receipt r) ∧ (∀ h, h ∉ l → receipts s' !! h = receipts s !! h).
Proof.
  intros Hnd. revert s. induction Hnd as [|h l Hh _ IH]; intros s Hall.
  - exists s. split_and!; [done| |by intros ? ?%not_elem_of_nil|done]. intros h. rewrite decide_False; [done|apply not_elem_of_nil].
  - destruct (timeout_one h now s) as (s1 & H1 & Hp1 & r1 & Hr1 & Ht1); [apply Hall, list_elem_of_here|]. destruct (IH s1) as (s' & H2 & Hp & Hr & Hrn).
    { intros x Hx. rewrite Hp1, lookup_delete_ne; [apply Hall; by apply list_elem_of_further|]. intros ->. done. }
    exists s'. split_and!.
    + cbn [for_each]. unfold bindM at 1. by rewrite H1.
    + intros x. rewrite Hp, Hp1. destruct (decide (x = h)) as [->|Hne].
      * rewrite (decide_True (P := h ∈ h :: l)) by apply list_elem_of_here. rewrite lookup_delete_eq. by destruct (decide (h ∈ l)).
      * rewrite lookup_delete_ne by done. destruct (decide (x ∈ l)) as [Hx|Hx]; [rewrite decide_True; [done|by apply list_elem_of_further]|]. rewrite decide_False; [done|]. rewrite elem_of_cons. tauto.
    + intros x [->|Hx]%elem_of_cons; [|by apply Hr]. rewrite Hrn, Hr1, lookup_insert_eq by done. by exists r1.
    + intros x Hx. apply not_elem_of_cons in Hx as [Hne Hx]. rewrite Hrn, Hr1, lookup_insert_ne by done. done.
Qed.

Lemma pending_ids s : ledger_ok (ledger s) → map id (map_to_list (pending s)).*2 = (map_to_list (pending s)).*1.
Proof.
  intros Hok. rewrite <- list_fmap_compose. apply list_fmap_ext. intros i [h tx] Hi. apply list_elem_of_lookup_2, elem_of_map_to_list in Hi. by destruct (lo_valid _ Hok h tx Hi) as (Hid & _).
Qed.

Lemma sublist_map {A B} (f : A → B) (l k : list A) : l `sublist_of` k → map f l `sublist_of` map f k.
Proof. induction 1; cbn; by constructor. Qed.

(** A timeout run after any history succeeds and ends exactly the transfers older than the timeout, each with a receipt that says so; the others stay pending, and
    their receipts and those of earlier transfers are unchanged. *)
Theorem timeouts_complete c token cs es now : fresh_run (new c token cs) es → timeout_ms c / 1000 ≤ now ≤ u64_max → 0 ≤ timeout_ms c →
  let s := exec (new c token cs) es in
  ∃ l s', process_timeouts now s = (Ok l, s') ∧
  (∀ h, h ∈ l ↔ ∃ tx, pending s !! h = Some tx ∧ timestamp tx < now - timeout_ms c / 1000) ∧
  (∀ h tx, pending s' !! h = Some tx ↔ pending s !! h = Some tx ∧ now - timeout_ms c / 1000 ≤ timestamp tx) ∧
  (∀ h, h ∈ l → ∃ r, get_receipt s' h = Some r ∧ timed_out_receipt r) ∧ (∀ h, h ∉ l → get_receipt s' h = get_receipt s h).
Proof.
  intros Hf Hnow Hto s. pose proof (exec_ok c token cs es Hf) as Hok. fold s in Hok. assert (Hcfg : config s = c) by exact (exec_config c token cs es Hf). unfold process_timeouts. rewrite gets_bind, Hcfg. unfold wrapping_sub. assert (Hpos : 0 ≤ timeout_ms c / 1000) by (apply Z.div_pos; lia).
  rewrite Z.mod_small by (unfold u64_max in *; lia). set (th := now - timeout_ms c / 1000). set (l := map id (filter (λ tx, stale th tx) (map_to_list (pending s)).*2)).
  assert (Hin : ∀ h, h ∈ l ↔ ∃ tx, pending s !! h = Some tx ∧ timestamp tx < th).
  { intros h. unfold l. rewrite list_elem_of_fmap. split.
    - intros (tx & -> & Htx). apply list_elem_of_filter in Htx as [Hst Htx]. apply list_elem_of_fmap in Htx as ([h tx'] & -> & Hh). apply elem_of_map_to_list in Hh. cbn [snd] in *. destruct (lo_valid _ Hok h tx' Hh) as (-> & _). exists tx'. split; [done|].
      unfold stale in Hst. apply Is_true_true, andb_true_iff in Hst as [Hst _]. by apply Z.ltb_lt.
    - intros (tx & Htx & Hlt). exists tx. destruct (lo_valid _ Hok h tx Htx) as (Hid & _ & _ & Hph). split; [done|]. apply list_elem_of_filter. split.
      + unfold stale. rewrite (proj2 (Z.ltb_lt _ _) Hlt), bool_decide_eq_false_2 by done. done.
      + apply list_elem_of_fmap. exists (h, tx). split; [done|]. by apply elem_of_map_to_list. }
  destruct (timeout_all l now s) as (s' & Hrun & Hp & Hr & Hrn).
  { eapply sublist_NoDup; [|apply sublist_map, sublist_filter]. rewrite pending_ids by done. apply NoDup_fst_map_to_list. }
  { intros h (tx & Htx & _)%Hin. by exists tx. }
  exists l, s'. split_and!; [|done| |done|done].
  - unfold bindM at 1. by rewrite Hrun.
  - intros h tx. rewrite Hp. destruct (decide (h ∈ l)) as [Hl|Hl]; rewrite Hin in Hl.
    + split; [done|]. intros [Htx Hle]. destruct Hl as (t & Ht & Hlt). assert (t = tx) as -> by congruence. lia.
    + split; [|tauto]. intros Htx. split; [done|]. destruct (Z.le_gt_cases th (timestamp tx)); [done|]. destruct Hl. by exists tx.
Qed.

(** ** Messages nobody signed *)

(** A confirmation needs no signature: whoever sends an unsigned confirmation for a pending transfer completes it, and its receipt reports success. *)
Theorem unsigned_confirmation_completes s h tx m now : pending s !! h = Some tx → msg_type m = Confirm h → committee_signature m = [] →
  ∃ s' r, process_message m now s = (Ok (), s') ∧ get_pending s' h = None ∧ get_receipt s' h = Some r ∧ success r = true ∧ final_phase r = Finalized.
Proof.
  intros Hp Ht Hsig. unfold process_message. change (bindM (modify ?f) ?k ?s) with (k () (f s)). cbv beta. set (s1 := set_metrics _ _). rewrite gets_bind. unfold verify_committee_signature. rewrite Hsig, Ht.
  unfold handle_confirmation. rewrite gets_bind. assert (Hp1 : pending s1 !! h = Some tx) by done. rewrite Hp1. change (bindM (modify ?f) ?k ?s) with (k () (f s)). cbv beta.
  destruct (finalize_eq h (set_phase Confirmed tx) true None now (mark h Confirmed s1)) as (s' & Hfin & Hl); [unfold mark; rewrite Hp1; apply lookup_insert_eq|].
  exists s'. eexists. split; [done|]. unfold get_pending, get_receipt. change (pending s') with (l_pending (ledger s')). change (receipts s') with (l_receipts (ledger s')). rewrite Hl. cbn [completed l_pending l_receipts]. rewrite lookup_delete_eq, lookup_insert_eq. done.
Qed.

(** ** A transfer from end to end *)

Definition sent (ch : nat) (c : Channel) (m : CrossShardMessage) (s : CrossShardCoordinator) : CrossShardCoordinator :=
  set_metrics (count_sent (metrics s)) (set_queues (<[ch := push c m]> (channels s)) (blocked s) s).

Lemma send_ok shard ch cap m s : shard_channels s !! shard = Some ch → channels s !! ch = Some (mkChannel true cap []) → (0 < cap)%nat →
  send_to_shard shard m s = (Ok (), sent ch (mkChannel true cap []) m s).
Proof. intros Hs Hc Hcap. unfold send_to_shard. rewrite gets_bind, Hs, Hc. cbn [ch_open ch_queue length capacity]. by rewrite (proj2 (Nat.ltb_lt _ _) Hcap). Qed.

Lemma receive_sent ch cap m s : receive ch (sent ch (mkChannel true cap []) m s) = Some (m, set_metrics (count_sent (metrics s)) (set_queues (<[ch := mkChannel true cap []]> (channels s)) (blocked s) s)).
Proof. unfold receive, sent, push. cbn [channels set_queues set_metrics ch_open capacity ch_queue app]. rewrite lookup_insert_eq, insert_insert_eq. done. Qed.

Lemma check_proof_ok tx root b s : ser (set_proof None tx) = Ok b → proof tx = Some (make_proof root b tx) → check_proof tx root s = (Ok (), s).
Proof.
  intros Hser Hp. assert (Hlen : ∀ h, length (hash_bytes h) = 32%nat) by (intros h; apply be_bytes_length). unfold check_proof. rewrite Hp. unfold make_proof. set (p1 := hash_bytes (hash_data (proof_input root b tx))). set (p2 := hash_bytes (hash_data (p1 ++ hash_bytes root))).
  assert (Hp1 : length p1 = 32%nat) by apply Hlen. assert (Hp2 : length p2 = 32%nat) by apply Hlen. pose proof (Hlen root) as Hr. set (p3 := hash_bytes root) in *. clearbody p3.
  rewrite (proj2 (Nat.ltb_ge _ _)) by (rewrite !length_app; lia). unfold bindM, serialized. rewrite Hser. cbn [returns].
  assert (H1 : take 32 (p1 ++ p2 ++ p3) = p1) by (by apply take_app_length'). assert (H2 : drop 32 (p1 ++ p2 ++ p3) = p2 ++ p3) by (by apply drop_app_length').
  assert (H3 : drop 64 (p1 ++ p2 ++ p3) = p3) by (rewrite app_assoc; apply drop_app_length'; rewrite length_app; lia).
  rewrite H1, H2, H3, (take_app_length' p2) by done. rewrite (take_ge p3) by lia. unfold fail_if. rewrite !bool_decide_eq_true_2 by done. done.
Qed.

Definition keys_ok (s : CrossShardCoordinator) : Prop :=
  ∀ kp d sig, committee_keypair s = Some kp → sign_ml_dsa_65 (secret_key kp) d = Some sig → verify_ml_dsa_65 (public_key kp) d sig = true.

Lemma signed_verifies s s' m : keys_ok s → committee_keypair s' = committee_keypair s → verify_committee_signature s' (set_signature (sign_committee s m) m) = Ok ().
Proof.
  intros Hk He. unfold verify_committee_signature, sign_committee. rewrite He. cbn [committee_signature set_signature]. destruct (committee_keypair s) as [kp|] eqn:Hkp; [|done].
  destruct (sign_ml_dsa_65 (secret_key kp) (message_signing_data m)) as [sig|] eqn:Hsig; [|done]. destruct sig as [|x sig]; [done|]. change (message_signing_data (set_signature (x :: sig) m)) with (message_signing_data m). by rewrite (Hk kp (message_signing_data m) (x :: sig)).
Qed.

Lemma initiate_ok s source dest from to amt root nanos now ch cap : (∀ t, ∃ b, ser t = Ok b) → request source from (EInitiate source dest from to amt root nanos now) → ¬ full source s →
  get0 (pending_per_sender s) from < MAX_PENDING_PER_SENDER → shard_channels s !! dest = Some ch → channels s !! ch = Some (mkChannel true cap []) → (0 < cap)%nat →
  let h := generate_tx_id from to amt nanos in
  ∃ tx p s1, initiate_transfer source dest from to amt root nanos now s = (Ok h, sent ch (mkChannel true cap []) (set_signature (sign_committee s (mkMessage (Transfer tx) source dest p [] root [])) (mkMessage (Transfer tx) source dest p [] root [])) s1) ∧
    id tx = h ∧ source_shard tx = source ∧ dest_shard tx = dest ∧ sender tx = from ∧ (∀ s', zk_enabled s' = zk_enabled s → check_proof tx root s' = (Ok (), s')) ∧
    ledger s1 = added tx (counted from (ledger s)) ∧ shard_channels s1 = shard_channels s ∧ channels s1 = channels s ∧ committee_keypair s1 = committee_keypair s ∧ zk_enabled s1 = zk_enabled s.
Proof.
  intros Hser (_ & _ & Hne & Hamt) Hfull Hc Hs Hch Hcap h. unfold initiate_transfer. rewrite !fail_if_bind, (proj2 (Z.eqb_neq _ _)) by done. rewrite (proj2 (Z.ltb_ge _ _)) by lia. rewrite (proj2 (Z.ltb_ge _ _)) by lia. rewrite gets_bind, fail_if_bind, (proj2 (Z.leb_gt _ _)) by lia.
  change (bindM (modify ?f) ?k ?s) with (k () (f s)). cbv beta. rewrite gets_bind, fail_if_bind. set (sa := set_per_sender _ s). unfold full in Hfull. rewrite (proj2 (Z.leb_gt _ _)) by (cbn; lia).
  change (bindM (modify ?f) ?k ?s) with (k () (f s)). cbv beta. fold h. set (sb := set_nonce_counter _ _). set (t0 := mkTx _ _ _ _ _ _ _ _ _ _ _ _ _).
  assert (Hatt : ∃ pr, attach_proof root t0 sb = (Ok (set_proof pr t0), sb) ∧ ∀ s', zk_enabled s' = zk_enabled s → check_proof (set_proof pr t0) root s' = (Ok (), s')).
  { unfold attach_proof. rewrite gets_bind. change (zk_enabled sb) with (zk_enabled s). destruct (zk_enabled s).
    - destruct (Hser t0) as [b Hb]. unfold bindM, serialized. rewrite Hb. eexists. split; [done|]. intros s' _. by apply (check_proof_ok _ root b).
    - exists None. split; [done|]. intros s' Hz. unfold check_proof. cbn [proof set_proof]. rewrite gets_bind, Hz. done. }
  destruct Hatt as (pr & Hatt & Hok). set (tx := set_proof pr t0) in *. unfold bindM at 1. rewrite Hatt. change (bindM (modify ?f) ?k ?s) with (k () (f s)). cbv beta. change (bindM (modify ?f) ?k ?s) with (k () (f s)). cbv beta. set (s1 := set_metrics _ _).
  destruct (Hser tx) as [p Hp]. unfold bindM at 1, serialized. rewrite Hp. cbn [returns]. rewrite gets_bind. change (sign_committee s1) with (sign_committee s). exists tx, p, s1. split; [|split_and!; done]. unfold bindM. by rewrite (send_ok dest ch cap) by done.
Qed.

Lemma mark_pending h tx p s : pending s !! h = Some tx → mark h p s = set_pending (<[h := set_phase p tx]> (pending s)) s.
Proof. intros H. unfold mark. by rewrite H. Qed.

Lemma incoming_ok m tx now s ch cap : verify_committee_signature s m = Ok () → msg_type m = Transfer tx → (∀ s', zk_enabled s' = zk_enabled s → check_proof tx (state_root m) s' = (Ok (), s')) →
  pending s !! id tx = Some tx → shard_channels s !! source_shard tx = Some ch → channels s !! ch = Some (mkChannel true cap []) → (0 < cap)%nat →
  let c := mkMessage (Confirm (id tx)) (dest_shard tx) (source_shard tx) [] [] (state_root m) [] in
  process_message m now s = (Ok (), sent ch (mkChannel true cap []) (set_signature (sign_committee s c) c) (set_pending (<[id tx := set_phase Credited tx]> (pending s)) (set_metrics (count_received (metrics s)) s))).
Proof.
  intros Hv Ht Hc Hp Hs Hch Hcap c. unfold process_message. change (bindM (modify ?f) ?k ?s) with (k () (f s)). cbv beta. set (s1 := set_metrics _ s). rewrite gets_bind. change (verify_committee_signature s1 m) with (verify_committee_signature s m). rewrite Hv, Ht.
  unfold handle_incoming_transfer. unfold bindM at 1. rewrite Hc by done. change (bindM (modify ?f) ?k ?s) with (k () (f s)). cbv beta. rewrite (mark_pending (id tx) tx) by exact Hp. unfold control. rewrite gets_bind. by rewrite (send_ok (source_shard tx) ch cap) by done.
Qed.

Lemma confirmed_ok m h tx now s : verify_committee_signature s m = Ok () → msg_type m = Confirm h → pending s !! h = Some tx →
  ∃ s' r, process_message m now s = (Ok (), s') ∧ success r = true ∧ final_phase r = Finalized ∧ ledger s' = completed h (set_phase Confirmed tx) r (marked h tx Confirmed (ledger s)).
Proof.
  intros Hv Ht Hp. unfold process_message. change (bindM (modify ?f) ?k ?s) with (k () (f s)). cbv beta. set (s1 := set_metrics _ s). rewrite gets_bind. change (verify_committee_signature s1 m) with (verify_committee_signature s m). rewrite Hv, Ht.
  assert (Hp1 : pending s1 !! h = Some tx) by done. unfold handle_confirmation. rewrite gets_bind, Hp1. change (bindM (modify ?f) ?k ?s) with (k () (f s)). cbv beta. rewrite (mark_pending h tx) by done.
  edestruct (finalize_eq h (set_phase Confirmed tx) true None now) as (s' & Hfin & Hl); [|exists s'; eexists; split; [exact Hfin|split_and!; [| |exact Hl]; done]]. apply lookup_insert_eq.
Qed.

(** A transfer completes.  When both shards are registered and their queues have room, initiating it, processing the message at the destination and processing
    the answer at the source succeed, whatever proof setting and keys are in use; the transfer then has a successful receipt, and the pending transfers and the sender's count are what they were before. *)
Theorem transfer_completes s source dest from to amt root nanos now1 now2 now3 a b ca cb :
  (∀ t, ∃ x, ser t = Ok x) → keys_ok s → request source from (EInitiate source dest from to amt root nanos now1) → ¬ full source s → 0 ≤ get0 (pending_per_sender s) from < MAX_PENDING_PER_SENDER →
  pending s !! generate_tx_id from to amt nanos = None → shard_channels s !! source = Some a → shard_channels s !! dest = Some b → a ≠ b →
  channels s !! a = Some (mkChannel true ca []) → channels s !! b = Some (mkChannel true cb []) → (0 < ca)%nat → (0 < cb)%nat →
  ∃ h s1 m1 s2 s3 m2 s4 s5 r,
    initiate_transfer source dest from to amt root nanos now1 s = (Ok h, s1) ∧ receive b s1 = Some (m1, s2) ∧ process_message m1 now2 s2 = (Ok (), s3) ∧
    receive a s3 = Some (m2, s4) ∧ process_message m2 now3 s4 = (Ok (), s5) ∧ get_receipt s5 h = Some r ∧ success r = true ∧ final_phase r = Finalized ∧
    pending s5 = pending s ∧ get0 (pending_per_sender s5) from = get0 (pending_per_sender s) from.
Proof.
  intros Hser Hk Hreq Hfull Hc Hfr Ha Hb Hab Hca Hcb Hla Hlb. set (h := generate_tx_id from to amt nanos).
  destruct (initiate_ok s source dest from to amt root nanos now1 b cb) as (tx & p & s1 & Hinit & Hid & Hsrc & Hdst & Hsend & Hchk & Hl & Hsc & Hch & Hkp & Hzk); [done|done|done|lia|done|done|done|]. fold h in Hinit, Hid.
  set (m1 := set_signature _ _) in Hinit. assert (Hp1 : pending s1 = <[h := tx]> (pending s)) by (change (l_pending (ledger s1) = <[h := tx]> (pending s)); rewrite Hl; cbn; by rewrite Hid).
  set (s2 := set_metrics (count_sent (metrics s1)) (set_queues (<[b := mkChannel true cb []]> (channels s1)) (blocked s1) s1)).
  assert (H2 : process_message m1 now2 s2 = (Ok (), sent a (mkChannel true ca []) (set_signature (sign_committee s (mkMessage (Confirm h) dest source [] [] root [])) (mkMessage (Confirm h) dest source [] [] root []))
     (set_pending (<[h := set_phase Credited tx]> (pending s2)) (set_metrics (count_received (metrics s2)) s2)))).
  { rewrite (incoming_ok m1 tx now2 s2 a ca); [| |done| | | | |done].
    - rewrite Hid, Hsrc, Hdst. unfold sign_committee. change (committee_keypair s2) with (committee_keypair s1). by rewrite Hkp.
    - by apply signed_verifies.
    - intros s' Hz. apply Hchk. by rewrite Hz.
    - change (pending s1 !! id tx = Some tx). rewrite Hp1, Hid. apply lookup_insert_eq.
    - change (shard_channels s1 !! source_shard tx = Some a). by rewrite Hsc, Hsrc.
    - change (<[b := mkChannel true cb []]> (channels s1) !! a = Some (mkChannel true ca [])). rewrite lookup_insert_ne, Hch by done. done. }
  set (m2 := set_signature _ _) in H2. set (s3 := set_pending _ _) in H2. set (s4 := set_metrics (count_sent (metrics s3)) (set_queues (<[a := mkChannel true ca []]> (channels s3)) (blocked s3) s3)).
  destruct (confirmed_ok m2 h (set_phase Credited tx) now3 s4) as (s5 & r & H3 & Hr1 & Hr2 & Hl5); [by apply signed_verifies|done|apply lookup_insert_eq|].
  exists h, (sent b (mkChannel true cb []) m1 s1), m1, s2, (sent a (mkChannel true ca []) m2 s3), m2, s4, s5, r. split_and!; [exact Hinit|apply receive_sent|exact H2|apply receive_sent|exact H3| |done|done| |].
  - unfold get_receipt. change (l_receipts (ledger s5) !! h = Some r). rewrite Hl5. apply lookup_insert_eq.
  - change (l_pending (ledger s5) = pending s). rewrite Hl5. cbn [completed marked l_pending]. change (l_pending (ledger s4)) with (<[h := set_phase Credited tx]> (pending s1)). rewrite Hp1, delete_insert_eq, delete_insert_eq, delete_insert_eq. by apply delete_id.
  - change (pending_per_sender s5) with (l_counts (ledger s5)). rewrite Hl5. cbn [completed marked l_counts]. change (l_counts (ledger s4)) with (l_counts (ledger s1)). rewrite Hl. cbn [added counted l_counts]. change (sender (set_phase Confirmed (set_phase Credited tx))) with (sender tx). rewrite Hsend, release_get0, Z.eqb_refl, lookup_insert_eq. unfold saturating_sub.
    change (l_counts (ledger s)) with (pending_per_sender s). lia.
Qed.

(** A signature does not bind the kind of a message: the signature of a rejection is a valid signature of the confirmation of the same transfer. *)
Theorem rejection_signs_confirmation s h reason source dest root :
  let m := build_signed_control_message s (Reject h reason) source dest root in
  keys_ok s → verify_committee_signature s (mkMessage (Confirm h) source dest [] [] root (committee_signature m)) = Ok ().
Proof. intros m Hk. exact (signed_verifies s s (mkMessage (Confirm h) source dest [] [] root []) Hk eq_refl). Qed.

(** A transfer nobody initiated is confirmed: the proof is a hash anyone can compute, so that an unsigned message with any parties, amount and state root is answered
    by a confirmation with the committee's own signature. *)
Theorem forged_transfer_confirmed s tx b root now ch cap : ser (set_proof None tx) = Ok b → pending s !! id tx = None → shard_channels s !! source_shard tx = Some ch → channels s !! ch = Some (mkChannel true cap []) → (0 < cap)%nat →
  let m := mkMessage (Transfer (set_proof (Some (make_proof root b tx)) tx)) (source_shard tx) (dest_shard tx) [] [] root [] in
  ∃ s' c s'', process_message m now s = (Ok (), s') ∧ receive ch s' = Some (c, s'') ∧ msg_type c = Confirm (id tx) ∧ committee_signature c = sign_committee s c.
Proof.
  intros Hser Hp Hs Hch Hcap m. set (tx' := set_proof _ tx) in m. unfold process_message. change (bindM (modify ?f) ?k ?s) with (k () (f s)). cbv beta. set (s1 := set_metrics _ s). rewrite gets_bind. change (verify_committee_signature s1 m) with (@Ok () CrossShardError ()). cbv beta match. change (msg_type m) with (Transfer tx'). cbv beta match.
  unfold handle_incoming_transfer. unfold bindM at 1. rewrite (check_proof_ok tx' root b) by done. change (bindM (modify ?f) ?k ?s) with (k () (f s)). cbv beta. assert (Hm : mark (id tx') Credited s1 = s1) by (unfold mark; change (id tx') with (id tx); change (pending s1) with (pending s); by rewrite Hp).
  rewrite Hm. unfold control. rewrite gets_bind, (send_ok (source_shard tx') ch cap) by done. eexists _, _, _. split; [reflexivity|]. split; [apply receive_sent|]. done.
Qed.
End Coordinator.

Module CoordinatorDemo.
Definition toy_hash (l : list Z) : Hash := foldl (λ a b, (a * 257 + b + 1) mod 2 ^ 61) 7 l.
Definition toy_ser (t : CrossShardTransaction) : Result (list Z) string := Ok [id t; amount t; tx_nonce t].
Definition toy_sign (sk d : list Z) : option (list Z) := Some (sk ++ d).
Definition toy_verify (pk d sig : list Z) : bool := bool_decide (sig = pk ++ d).
Definition small : CrossShardConfig := mkConfig 1 10000 3 true 100.
Definition queues : gmap nat Channel := <[1%nat := mkChannel true 8 []]> (<[2%nat := mkChannel true 8 []]> ∅).
Definition start : CrossShardCoordinator := new small [5] queues.
Definition setup : list Event := [ERegister 10 1 [5]; ERegister 11 2 [5]; EKeypair (mkKeypair [42] [42])].
Definition ready : CrossShardCoordinator := exec toy_ser toy_hash toy_sign toy_verify start setup.
Definition pay (from nanos : Z) : Event := EInitiate 10 11 from 77 500 9 nanos 1000.
Definition busy : CrossShardCoordinator := exec toy_ser toy_hash toy_sign toy_verify start (setup ++ [pay 1 100]).
Definition first_id : Hash := generate_tx_id toy_hash 1 77 500 100.

Lemma transfers_consistent_witness : owned 1 (pending busy) ≤ MAX_PENDING_PER_SENDER ∧ Z.of_nat (length (get_pending_for_shard busy 10)) ≤ 1.
Proof.
  destruct (transfers_consistent toy_ser toy_hash toy_sign toy_verify small [5] queues (setup ++ [pay 1 100])) as (_ & H2 & _ & H4); [vm_compute; repeat split; reflexivity|vm_compute; congruence|].
  split; [exact (H4 1)|exact (proj2 (H2 10))].
Defined.

Lemma transfer_outcome_final_witness : ∃ r, get_receipt (exec toy_ser toy_hash toy_sign toy_verify busy [ETimeouts 2000]) first_id = Some r ∧ get_pending (exec toy_ser toy_hash toy_sign toy_verify busy [ETimeouts 2000; ETimeouts 3000]) first_id = None.
Proof.
  assert (Hr : ∃ r, get_receipt (exec toy_ser toy_hash toy_sign toy_verify start ((setup ++ [pay 1 100]) ++ [ETimeouts 2000])) first_id = Some r) by (eexists; vm_compute; reflexivity). destruct Hr as [r Hr].
  destruct (transfer_outcome_final toy_ser toy_hash toy_sign toy_verify small [5] queues ((setup ++ [pay 1 100]) ++ [ETimeouts 2000]) [ETimeouts 3000] first_id) as [H1 _]; [vm_compute; repeat split; reflexivity|].
  exists r. split; [exact Hr|exact (proj2 (H1 r Hr))].
Defined.

Definition attempts : list Event := map (λ n, pay 2 (Z.of_nat n)) (seq 0 100).

Lemma refused_sender_locked_out_witness : (initiate_transfer toy_ser toy_hash toy_sign 12 13 2 77 500 9 5 4000 (exec toy_ser toy_hash toy_sign toy_verify (exec toy_ser toy_hash toy_sign toy_verify busy attempts) [ETimeouts 3000])).1 = Err (Failed (TooManyPendingFromSender 2)).
Proof.
  rewrite (refused_sender_locked_out toy_ser toy_hash toy_sign toy_verify busy 10 2 attempts [ETimeouts 3000] 12 13 77 500 9 5 4000); [reflexivity|vm_compute; congruence|vm_compute; reflexivity| |vm_compute; reflexivity|vm_compute; repeat split|lia|vm_compute; split; congruence].
  apply list.Forall_forall. intros e He. unfold attempts in He. apply list_elem_of_fmap in He as (n & -> & _). cbn. repeat split; (lia || (vm_compute; congruence)).
Defined.

Lemma timeouts_complete_witness : ∃ l s', process_timeouts 2000 busy = (Ok l, s') ∧ first_id ∈ l ∧ get_pending s' first_id = None.
Proof.
  destruct (timeouts_complete toy_ser toy_hash toy_sign toy_verify small [5] queues (setup ++ [pay 1 100]) 2000) as (l & s' & H & Hl & Hp & _); [vm_compute; repeat split; reflexivity|vm_compute; split; congruence|vm_compute; congruence|].
  assert (Hb : ∃ tx, pending busy !! first_id = Some tx ∧ timestamp tx < 2000 - timeout_ms small / 1000) by (eexists; split; vm_compute; reflexivity).
  exists l, s'. split; [exact H|]. split; [apply Hl; exact Hb|]. unfold get_pending. destruct (pending s' !! first_id) as [tx|] eqn:Htx; [|reflexivity]. apply Hp in Htx as [H1 H2]. destruct Hb as (t & Ht & Hlt).
  assert (Some t = Some tx) as [= ->] by (rewrite <- Ht; exact H1). exfalso. revert H2 Hlt. clear. intros. apply (Z.lt_irrefl (timestamp tx)). exact (Z.lt_le_trans _ _ _ Hlt H2).
Defined.

Lemma unsigned_confirmation_completes_witness : ∃ s' r, process_message toy_ser toy_hash toy_sign toy_verify (mkMessage (Confirm first_id) 3 4 [] [] 0 []) 1001 busy = (Ok (), s') ∧ get_pending s' first_id = None ∧ get_receipt s' first_id = Some r ∧ success r = true ∧ final_phase r = Finalized.
Proof.
  assert (Hb : ∃ tx, pending busy !! first_id = Some tx) by (eexists; vm_compute; reflexivity). destruct Hb as [tx Htx].
  exact (unsigned_confirmation_completes toy_ser toy_hash toy_sign toy_verify busy first_id tx (mkMessage (Confirm first_id) 3 4 [] [] 0 []) 1001 Htx eq_refl eq_refl).
Defined.

Lemma toy_keys s : (∀ kp, committee_keypair s = Some kp → public_key kp = secret_key kp) → keys_ok toy_sign toy_verify s.
Proof. intros H kp d sig Hkp [= <-]. unfold toy_verify. rewrite (H kp Hkp). by apply bool_decide_eq_true_2. Qed.

Lemma transfer_completes_witness : ∃ h s1 m1 s2 s3 m2 s4 s5 r,
  initiate_transfer toy_ser toy_hash toy_sign 10 11 1 77 500 9 100 1000 ready = (Ok h, s1) ∧ receive 2 s1 = Some (m1, s2) ∧ process_message toy_ser toy_hash toy_sign toy_verify m1 1001 s2 = (Ok (), s3) ∧
  receive 1 s3 = Some (m2, s4) ∧ process_message toy_ser toy_hash toy_sign toy_verify m2 1002 s4 = (Ok (), s5) ∧ get_receipt s5 h = Some r ∧ success r = true ∧ final_phase r = Finalized ∧
  pending s5 = pending ready ∧ get0 (pending_per_sender s5) 1 = get0 (pending_per_sender ready) 1.
Proof.
  apply (transfer_completes toy_ser toy_hash toy_sign toy_verify ready 10 11 1 77 500 9 100 1000 1001 1002 1 2 8 8); try (vm_compute; reflexivity); try lia.
  - intros t. eexists. reflexivity.
  - apply toy_keys. intros kp Hkp. assert (Some kp = Some (mkKeypair [42] [42])) as [= ->] by (rewrite <- Hkp; vm_compute; reflexivity). reflexivity.
  - vm_compute. repeat split; congruence.
  - vm_compute. congruence.
  - vm_compute. split; congruence.
Defined.

Lemma rejection_signs_confirmation_witness : verify_committee_signature toy_hash toy_verify ready (mkMessage (Confirm 3) 11 10 [] [] 0 (committee_signature (build_signed_control_message toy_hash toy_sign ready (Reject 3 "no") 11 10 0))) = Ok ().
Proof.
  apply (rejection_signs_confirmation toy_hash toy_sign toy_verify ready 3 "no" 11 10 0). apply toy_keys. intros kp Hkp. assert (Some kp = Some (mkKeypair [42] [42])) as [= ->] by (rewrite <- Hkp; vm_compute; reflexivity). reflexivity.
Defined.

Definition forged : CrossShardTransaction := mkTx 123 10 11 8 9 1000000 [] 0 0 Locked 0 None 0.

Lemma forged_transfer_confirmed_witness : ∃ s' c s'', process_message toy_ser toy_hash toy_sign toy_verify (mkMessage (Transfer (set_proof (Some (make_proof toy_hash 0 [123; 1000000; 0] forged)) forged)) 10 11 [] [] 0 []) 5 ready = (Ok (), s') ∧
  receive 1 s' = Some (c, s'') ∧ msg_type c = Confirm 123 ∧ committee_signature c = sign_committee toy_hash toy_sign ready c.
Proof. apply (forged_transfer_confirmed toy_ser toy_hash toy_sign toy_verify ready forged [123; 1000000; 0] 0 5 1 8); try (vm_compute; reflexivity); lia. Defined.
End CoordinatorDemo.
