(* ===== verification/TxGraph.v ===== *)
(** * Transaction dependency graph

    Models [src/L1/src/vm/tx_dependency_graph.rs]: the conflict analysis of transactions, the graph of their dependencies, and its
    two schedules, batches of independent transactions and a topological order.

    Hash maps and sets are finite maps and sets, iterated in their order, which the code leaves open.  [BinaryHeap] is the vector
    of the Standard Library's implementation, filled by [push].  Counters and sums of compute units wrap; an [i64] is an integer
    between -2^63 and 2^63 - 1. *)

From stdpp Require Import sorting.
From S2P Require Import Prelude Transaction F64.

(** ** Data *)

Inductive DependencyType : Type := ReadAfterWrite | WriteAfterRead | WriteAfterWrite.

Record TxNode : Type := mkNode {
  id : Z;
  hash : Hash;
  read_set : gset Address;
  write_set : gset Address;
  storage_reads : gset (Address * Hash);
  storage_writes : gset (Address * Hash);
  dependencies : gset Z;
  dependents : gset Z;
  priority : Z;
  cu_estimate : Z;
  node_transaction : SignedTransaction
}.

Definition new_node (i : Z) (t : SignedTransaction) : TxNode := mkNode i (tx_hash t) ∅ ∅ ∅ ∅ ∅ ∅ 0 (max_compute_units (transaction t)) t.

Definition set_footprint (r w : gset Address) (n : TxNode) : TxNode :=
  mkNode (id n) (hash n) r w (storage_reads n) (storage_writes n) (dependencies n) (dependents n) (priority n) (cu_estimate n) (node_transaction n).
Definition set_priority (p : Z) (n : TxNode) : TxNode :=
  mkNode (id n) (hash n) (read_set n) (write_set n) (storage_reads n) (storage_writes n) (dependencies n) (dependents n) p (cu_estimate n) (node_transaction n).
Definition set_links (deps back : gset Z) (n : TxNode) : TxNode :=
  mkNode (id n) (hash n) (read_set n) (write_set n) (storage_reads n) (storage_writes n) deps back (priority n) (cu_estimate n) (node_transaction n).

Definition analyze (n : TxNode) : TxNode :=
  let tx := transaction (node_transaction n) in
  let n := set_footprint ({[from tx]} ∪ read_set n) ({[from tx]} ∪ write_set n) n in
  if from tx =? to tx then n else set_footprint ({[to tx]} ∪ read_set n) ({[to tx]} ∪ write_set n) n.

Definition disjoint_sets `{Countable A} (x y : gset A) : bool := bool_decide (x ## y).

Definition conflicts_with (n other : TxNode) : option DependencyType :=
  if negb (disjoint_sets (write_set n) (write_set other)) then Some WriteAfterWrite
  else if negb (disjoint_sets (read_set n) (write_set other)) then Some ReadAfterWrite
  else if negb (disjoint_sets (write_set n) (read_set other)) then Some WriteAfterRead
  else if negb (disjoint_sets (storage_writes n) (storage_writes other)) then Some WriteAfterWrite
  else if negb (disjoint_sets (storage_reads n) (storage_writes other)) then Some ReadAfterWrite
  else None.

Definition dependency_count (n : TxNode) : Z := Z.of_nat (size (dependencies n)).
Definition is_ready (n : TxNode) : bool := bool_decide (dependencies n = ∅).

Record ScheduledTx : Type := mkScheduled { s_id : Z; s_priority : Z; gas : Z }.

Definition cmp (a b : ScheduledTx) : comparison :=
  match Z.compare (s_priority a) (s_priority b) with Eq => Z.compare (gas b) (gas a) | c => c end.

Record ExecutionBatch : Type := mkBatch { transactions : list Z; total_cu : Z; b_priority : Z }.

Definition new_batch : ExecutionBatch := mkBatch [] 0 0.
Definition add (n : TxNode) (b : ExecutionBatch) : ExecutionBatch :=
  mkBatch (transactions b ++ [id n]) (wrapping_add u64_max (total_cu b) (cu_estimate n)) (Z.max (b_priority b) (priority n)).

Record DependencyGraphConfig : Type := mkConfig {
  max_transactions : Z;
  max_batch_size : Z;
  max_batch_cu : Z;
  track_storage : bool;
  value_priority_factor : f64
}.

Definition default_config : DependencyGraphConfig := mkConfig 100000 1000 30000000 true (lit 1 1000).

Record GraphStats : Type := mkStats {
  transactions_added : Z;
  dependencies_detected : Z;
  batches_created : Z;
  parallel_txs : Z;
  sequential_txs : Z
}.

Record TxDependencyGraph : Type := mkGraph {
  config : DependencyGraphConfig;
  nodes : gmap Z TxNode;
  id_counter : Z;
  hash_to_id : gmap Hash Z;
  address_index : gmap Address (gset Z);
  storage_index : gmap (Address * Hash) (gset Z);
  stats : GraphStats
}.

Definition new_graph (c : DependencyGraphConfig) : TxDependencyGraph := mkGraph c ∅ 0 ∅ ∅ ∅ (mkStats 0 0 0 0 0).

Inductive GraphError : Type := GraphFull | CycleDetected (n : Z).

(** ** Building the graph *)

Definition wrap_i64 (x : Z) : Z := (x + 2 ^ 63) mod 2 ^ 64 - 2 ^ 63.

(** [x as i64]: towards zero, saturating, 0 for a NaN. *)
Definition to_i64 (x : f64) : Z :=
  match x with
  | SpecFloat.S754_zero _ | SpecFloat.S754_nan => 0
  | SpecFloat.S754_infinity s => if s then - 2 ^ 63 else 2 ^ 63 - 1
  | SpecFloat.S754_finite s m e => if s then Z.max (- 2 ^ 63) (- int_part m e) else Z.min (2 ^ 63 - 1) (int_part m e)
  end.

Definition calculate_priority (c : DependencyGraphConfig) (n : TxNode) : Z :=
  let tx := transaction (node_transaction n) in
  let cu_priority := wrap_i64 (- wrap_i64 (max_compute_units tx)) in
  let value_boost := to_i64 (fmul (of_Z (amount tx)) (value_priority_factor c)) in
  let dep_penalty := wrap_i64 (dependency_count n * 10) in
  wrap_i64 (wrap_i64 (cu_priority + value_boost) - dep_penalty).

Definition candidates (index : gmap Address (gset Z)) (n : TxNode) : gset Z :=
  ⋃ (map (λ a, default ∅ (index !! a)) (elements (read_set n) ++ elements (write_set n))).

Definition link (acc : TxNode * gmap Z TxNode * Z) (other_id : Z) : TxNode * gmap Z TxNode * Z :=
  let '(n, ns, found) := acc in
  match ns !! other_id with
  | Some other =>
      match conflicts_with n other with
      | Some _ =>
          (set_links ({[other_id]} ∪ dependencies n) (dependents n) n,
           <[other_id := set_links (dependencies other) ({[id n]} ∪ dependents other) other]> ns,
           wrapping_add u64_max found 1)
      | None => acc
      end
  | None => acc
  end.

Definition set_nodes (ns : gmap Z TxNode) (g : TxDependencyGraph) : TxDependencyGraph :=
  mkGraph (config g) ns (id_counter g) (hash_to_id g) (address_index g) (storage_index g) (stats g).
Definition set_stats (s : GraphStats) (g : TxDependencyGraph) : TxDependencyGraph :=
  mkGraph (config g) (nodes g) (id_counter g) (hash_to_id g) (address_index g) (storage_index g) s.

Definition count_dependencies (found : Z) (s : GraphStats) : GraphStats :=
  mkStats (transactions_added s) found (batches_created s) (parallel_txs s) (sequential_txs s).
Definition count_added (s : GraphStats) : GraphStats :=
  mkStats (wrapping_add u64_max (transactions_added s) 1) (dependencies_detected s) (batches_created s) (parallel_txs s) (sequential_txs s).
Definition detect_dependencies (n : TxNode) (g : TxDependencyGraph) : TxNode * TxDependencyGraph :=
  let '(n', ns, found) := foldl link (n, nodes g, dependencies_detected (stats g)) (elements (candidates (address_index g) n)) in
  (n', set_stats (count_dependencies found (stats g)) (set_nodes ns g)).

Definition index_key `{Countable K} (i : Z) (index : gmap K (gset Z)) (k : K) : gmap K (gset Z) := <[k := {[i]} ∪ default ∅ (index !! k)]> index.

Definition update_indices (n : TxNode) (g : TxDependencyGraph) : TxDependencyGraph :=
  mkGraph (config g) (nodes g) (id_counter g) (hash_to_id g)
    (foldl (index_key (id n)) (address_index g) (elements (read_set n) ++ elements (write_set n)))
    (if track_storage (config g) then foldl (index_key (id n)) (storage_index g) (elements (storage_reads n) ++ elements (storage_writes n)) else storage_index g)
    (stats g).

Definition store_node (n : TxNode) (g : TxDependencyGraph) : TxDependencyGraph :=
  mkGraph (config g) (<[id n := n]> (nodes g)) (id_counter g) (<[tx_hash (node_transaction n) := id n]> (hash_to_id g)) (address_index g) (storage_index g) (count_added (stats g)).

Definition next_id (g : TxDependencyGraph) : Z := wrapping_add u64_max (id_counter g) 1.
Definition take_id (g : TxDependencyGraph) : TxDependencyGraph :=
  mkGraph (config g) (nodes g) (next_id g) (hash_to_id g) (address_index g) (storage_index g) (stats g).

Definition insert_node (n : TxNode) (g : TxDependencyGraph) : Result Z GraphError * TxDependencyGraph :=
  let '(n, g) := detect_dependencies n g in
  (Ok (id n), store_node n (update_indices n g)).

Definition add_transaction (t : SignedTransaction) (g : TxDependencyGraph) : Result Z GraphError * TxDependencyGraph :=
  if max_transactions (config g) <=? Z.of_nat (size (nodes g)) then (Err GraphFull, g)
  else
    let g := take_id g in
    let n := analyze (new_node (id_counter g) t) in
    let n := set_priority (calculate_priority (config g) n) n in
    insert_node n g.

Fixpoint add_transactions (ts : list SignedTransaction) (g : TxDependencyGraph) : list (Result Z GraphError) * TxDependencyGraph :=
  match ts with
  | [] => ([], g)
  | t :: ts' => let '(r, g') := add_transaction t g in let '(rs, g'') := add_transactions ts' g' in (r :: rs, g'')
  end.

Definition unlink (tx_id : Z) (n : TxNode) : TxNode := set_links (dependencies n ∖ {[tx_id]}) (dependents n ∖ {[tx_id]}) n.
Definition unindex (tx_id : Z) (index : gmap Address (gset Z)) (a : Address) : gmap Address (gset Z) :=
  match index !! a with Some txs => <[a := txs ∖ {[tx_id]}]> index | None => index end.

Definition remove_transaction (tx_id : Z) (g : TxDependencyGraph) : TxDependencyGraph :=
  match nodes g !! tx_id with
  | Some n =>
      mkGraph (config g) (unlink tx_id <$> delete tx_id (nodes g)) (id_counter g) (delete (hash n) (hash_to_id g))
        (foldl (unindex tx_id) (address_index g) (elements (read_set n) ++ elements (write_set n))) (storage_index g) (stats g)
  | None => g
  end.

Definition clear (g : TxDependencyGraph) : TxDependencyGraph := mkGraph (config g) ∅ 0 ∅ ∅ ∅ (stats g).

Definition get_transaction (g : TxDependencyGraph) (tx_id : Z) : option SignedTransaction := node_transaction <$> nodes g !! tx_id.
Definition get_id_by_hash (g : TxDependencyGraph) (h : Hash) : option Z := hash_to_id g !! h.
Definition len (g : TxDependencyGraph) : Z := Z.of_nat (size (nodes g)).
Definition is_empty (g : TxDependencyGraph) : bool := len g =? 0.
Definition parallelism_ratio (g : TxDependencyGraph) : f64 :=
  let total := wrapping_add u64_max (parallel_txs (stats g)) (sequential_txs (stats g)) in
  if total =? 0 then fzero else fdiv (of_Z (parallel_txs (stats g))) (of_Z total).

(** ** Batches *)

(** [BinaryHeap::push] appends and moves the new entry up while it is greater than its parent. *)
Fixpoint sift_up (fuel : nat) (v : list ScheduledTx) (pos : nat) : list ScheduledTx :=
  match fuel with
  | O => v
  | S f =>
      match pos with
      | O => v
      | S p =>
          let parent := (p / 2)%nat in
          match v !! pos, v !! parent with
          | Some x, Some y => match cmp x y with Gt => sift_up f (<[parent := x]> (<[pos := y]> v)) parent | _ => v end
          | _, _ => v
          end
      end
  end.

Definition heap_push (v : list ScheduledTx) (x : ScheduledTx) : list ScheduledTx := sift_up (S (length v)) (v ++ [x]) (length v).

Definition conflicts_with_batch (ws rs : gset Address) (n : TxNode) : bool :=
  negb (disjoint_sets (write_set n) ws) || negb (disjoint_sets (write_set n) rs) || negb (disjoint_sets (read_set n) ws).

Fixpoint fill_batch (c : DependencyGraphConfig) (ns : gmap Z TxNode) (ready : list ScheduledTx) (ws rs : gset Address) (b : ExecutionBatch) : ExecutionBatch :=
  match ready with
  | [] => b
  | x :: ready' =>
      if max_batch_size c <=? Z.of_nat (length (transactions b)) then b
      else
        match ns !! s_id x with
        | Some n =>
            if max_batch_cu c <? wrapping_add u64_max (total_cu b) (cu_estimate n) then fill_batch c ns ready' ws rs b
            else if conflicts_with_batch ws rs n then fill_batch c ns ready' ws rs b
            else fill_batch c ns ready' (ws ∪ write_set n) (rs ∪ read_set n) (add n b)
        | None => fill_batch c ns ready' ws rs b
        end
  end.

Definition create_batch (c : DependencyGraphConfig) (ns : gmap Z TxNode) (ready : list ScheduledTx) : ExecutionBatch :=
  let b := fill_batch c ns ready ∅ ∅ new_batch in
  match transactions b with
  | [] => match ready with
          | x :: _ => match ns !! s_id x with Some n => add n b | None => b end
          | [] => b
          end
  | _ => b
  end.

Definition ready_tx (completed : gset Z) (e : Z * TxNode) : option ScheduledTx :=
  if negb (bool_decide (e.1 ∈ completed)) && bool_decide (dependencies e.2 ⊆ completed) then Some (mkScheduled e.1 (priority e.2) (cu_estimate e.2)) else None.

Definition ready_heap (ns : gmap Z TxNode) (completed : gset Z) : list ScheduledTx := foldl heap_push [] (omap (ready_tx completed) (map_to_list ns)).

Definition unmet (completed : gset Z) (e : Z * TxNode) : Z * nat := (e.1, size (dependencies e.2 ∖ completed)).

(** [min_by_key]: the first of the smallest. *)
Fixpoint min_by_unmet (l : list (Z * nat)) : option (Z * nat) :=
  match l with
  | [] => None
  | x :: l' => match min_by_unmet l' with Some y => if (y.2 <? x.2)%nat then Some y else Some x | None => Some x end
  end.

Record Counts : Type := mkCounts { parallel : Z; sequential : Z }.

Fixpoint schedule_loop (fuel : nat) (c : DependencyGraphConfig) (ns : gmap Z TxNode) (completed : gset Z) (k : Counts) : option (list ExecutionBatch * Counts) :=
  if (size ns <=? size completed)%nat then Some ([], k)
  else
    match fuel with
    | O => None
    | S f =>
        match ready_heap ns completed with
        | [] =>
            match min_by_unmet (map (unmet completed) (filter (λ e, e.1 ∉ completed) (map_to_list ns))) with
            | None => Some ([], k)
            | Some (forced_id, _) =>
                let forced_batch := match ns !! forced_id with Some n => add n new_batch | None => new_batch end in
                r ← schedule_loop f c ns ({[forced_id]} ∪ completed) (mkCounts (parallel k) (wrapping_add u64_max (sequential k) 1));
                Some (forced_batch :: r.1, r.2)
            end
        | ready =>
            let b := create_batch c ns ready in
            let n := Z.of_nat (length (transactions b)) in
            let k := if 1 <? n then mkCounts (wrapping_add u64_max (parallel k) n) (sequential k) else mkCounts (parallel k) (wrapping_add u64_max (sequential k) n) in
            r ← schedule_loop f c ns (list_to_set (transactions b) ∪ completed) k;
            Some (b :: r.1, r.2)
        end
    end.

Definition schedule (g : TxDependencyGraph) : option (list ExecutionBatch * TxDependencyGraph) :=
  r ← schedule_loop (size (nodes g)) (config g) (nodes g) ∅ (mkCounts (parallel_txs (stats g)) (sequential_txs (stats g)));
  Some (r.1, set_stats (mkStats (transactions_added (stats g)) (dependencies_detected (stats g))
    (wrapping_add u64_max (batches_created (stats g)) (Z.of_nat (length r.1))) (parallel r.2) (sequential r.2)) g).

(** ** Topological order *)

Definition lower (acc : gmap Z Z * list Z) (d : Z) : gmap Z Z * list Z :=
  let '(degree, queue) := acc in
  match degree !! d with
  | Some n => let n' := wrapping_sub u64_max n 1 in (<[d := n']> degree, if n' =? 0 then queue ++ [d] else queue)
  | None => acc
  end.

Fixpoint kahn (fuel : nat) (ns : gmap Z TxNode) (degree : gmap Z Z) (queue : list Z) : option (list Z) :=
  match queue with
  | [] => Some []
  | x :: queue' =>
      match fuel with
      | O => None
      | S f =>
          let '(degree', queue'') := match ns !! x with Some n => foldl lower (degree, queue') (elements (dependents n)) | None => (degree, queue') end in
          r ← kahn f ns degree' queue'';
          Some (x :: r)
      end
  end.

Definition topological_order (g : TxDependencyGraph) : option (Result (list Z) GraphError) :=
  let ns := nodes g in
  result ← kahn (size ns) ns (dependency_count <$> ns) (map fst (filter (λ e, dependencies e.2 = ∅) (map_to_list ns)));
  Some (if (length result <? size ns)%nat
        then Err (CycleDetected (Z.of_nat (length (filter (λ e, e.1 ∉ result) (map_to_list ns)))))
        else Ok result).

(** ** The graph records every conflict *)

(** The accounts a transaction touches. *)
Definition footprint (n : TxNode) : gset Address := {[from (transaction (node_transaction n)); to (transaction (node_transaction n))]}.

Definition clash (m n : TxNode) : Prop := ¬ footprint m ## footprint n.

#[export] Instance clash_dec m n : Decision (clash m n).
Proof. unfold clash. apply _. Defined.

Lemma clash_sym m n : clash m n → clash n m.
Proof. unfold clash. intros H Hd. apply H. by symmetry. Qed.

Definition analyzed (n : TxNode) : Prop := read_set n = footprint n ∧ write_set n = footprint n ∧ storage_reads n = ∅ ∧ storage_writes n = ∅.

Record graph_ok (g : TxDependencyGraph) : Prop := {
  go_node : ∀ i n, nodes g !! i = Some n → id n = i ∧ 1 ≤ i ≤ id_counter g ∧ analyzed n;
  go_deps : ∀ j n, nodes g !! j = Some n → ∀ i, i ∈ dependencies n ↔ i < j ∧ ∃ m, nodes g !! i = Some m ∧ clash m n;
  go_back : ∀ i m, nodes g !! i = Some m → ∀ j, j ∈ dependents m ↔ i < j ∧ ∃ n, nodes g !! j = Some n ∧ clash m n;
  go_index : ∀ a i, i ∈ default ∅ (address_index g !! a) ↔ ∃ n, nodes g !! i = Some n ∧ a ∈ footprint n;
  go_counter : 0 ≤ id_counter g
}.

Lemma analyze_new p i t : let n := set_priority p (analyze (new_node i t)) in analyzed n ∧ id n = i ∧ node_transaction n = t ∧ dependencies n = ∅ ∧ dependents n = ∅.
Proof.
  unfold analyze, analyzed, footprint. cbn [node_transaction new_node]. destruct (Z.eqb_spec (from (transaction t)) (to (transaction t))) as [He|He]; cbn; split_and!; try done; rewrite ?He; set_solver.
Qed.

Lemma conflicts_analyzed n o : analyzed n → analyzed o → conflicts_with n o = if decide (clash n o) then Some WriteAfterWrite else None.
Proof.
  intros (H1 & H2 & H3 & H4) (H5 & H6 & H7 & H8). unfold conflicts_with, disjoint_sets, clash. rewrite H1, H2, H3, H4, H5, H6, H8. destruct (decide (¬ footprint n ## footprint o)) as [Hd|Hd].
  - by rewrite bool_decide_eq_false_2.
  - rewrite bool_decide_eq_true_2 by (by apply dec_stable). cbn. by rewrite bool_decide_eq_true_2 by apply disjoint_empty_l.
Qed.

(** What linking a list of candidates does to the new node and to the others. *)
Lemma link_fold l n ns found : NoDup l → ∃ D found', foldl link (n, ns, found) l =
    (set_links D (dependents n) n, map_imap (λ x o, Some (if decide (x ∈ l ∧ conflicts_with n o ≠ None) then set_links (dependencies o) ({[id n]} ∪ dependents o) o else o)) ns, found') ∧
  ∀ x, x ∈ D ↔ x ∈ dependencies n ∨ x ∈ l ∧ ∃ o, ns !! x = Some o ∧ conflicts_with n o ≠ None.
Proof.
  intros Hnd. revert n ns found. induction Hnd as [|y l Hy _ IH]; intros n ns found.
  - exists (dependencies n), found. split; [|set_solver]. cbn. f_equal. f_equal; [by destruct n|]. apply map_eq. intros x. rewrite map_lookup_imap. destruct (ns !! x); cbn; [|done]. by rewrite decide_False by set_solver.
  - cbn [foldl]. destruct (ns !! y) as [o|] eqn:Ho; [destruct (conflicts_with n o) as [ty|] eqn:Hc|].
    + assert (Hl : link (n, ns, found) y = (set_links ({[y]} ∪ dependencies n) (dependents n) n, <[y := set_links (dependencies o) ({[id n]} ∪ dependents o) o]> ns, wrapping_add u64_max found 1)) by (unfold link; by rewrite Ho, Hc).
      rewrite Hl. destruct (IH (set_links ({[y]} ∪ dependencies n) (dependents n) n) (<[y := set_links (dependencies o) ({[id n]} ∪ dependents o) o]> ns) (wrapping_add u64_max found 1)) as (D & f' & HD & Hin).
      rewrite HD. exists D, f'. split.
      * f_equal. f_equal. apply map_eq. intros x. rewrite !map_lookup_imap. destruct (decide (x = y)) as [->|Hne].
        -- rewrite lookup_insert_eq, Ho. cbn. rewrite decide_False by tauto. rewrite decide_True by (rewrite Hc; set_solver). done.
        -- rewrite lookup_insert_ne by done. destruct (ns !! x) as [o'|]; cbn; [|done]. f_equal. change (conflicts_with (set_links _ _ n) o') with (conflicts_with n o'). destruct (decide (x ∈ l ∧ _)); [rewrite decide_True by set_solver|rewrite decide_False by set_solver]; done.
      * intros x. rewrite Hin. cbn [dependencies set_links]. destruct (decide (x = y)) as [->|Hne].
        -- split; [|set_solver]. intros _. right. split; [set_solver|]. exists o. by rewrite Hc.
        -- rewrite lookup_insert_ne by done. change (conflicts_with (set_links _ _ n)) with (conflicts_with n). set_solver.
    + assert (Hl : link (n, ns, found) y = (n, ns, found)) by (unfold link; by rewrite Ho, Hc). rewrite Hl. destruct (IH n ns found) as (D & f' & HD & Hin). rewrite HD. exists D, f'. split.
      * f_equal. f_equal. apply map_eq. intros x. rewrite !map_lookup_imap. destruct (ns !! x) as [o'|] eqn:Ho'; cbn; [|done]. f_equal. destruct (decide (x = y)) as [->|Hne].
        -- assert (o' = o) as -> by congruence. rewrite !decide_False by tauto. done.
        -- destruct (decide (x ∈ l ∧ _)); [rewrite decide_True by set_solver|rewrite decide_False by set_solver]; done.
      * intros x. rewrite Hin. destruct (decide (x = y)) as [->|Hne]; [|set_solver]. split; [set_solver|]. intros [?|(_ & o' & Ho' & Hc')]; [by left|]. congruence.
    + assert (Hl : link (n, ns, found) y = (n, ns, found)) by (unfold link; by rewrite Ho). rewrite Hl. destruct (IH n ns found) as (D & f' & HD & Hin). rewrite HD. exists D, f'. split.
      * f_equal. f_equal. apply map_eq. intros x. rewrite !map_lookup_imap. destruct (ns !! x) as [o'|] eqn:Ho'; cbn; [|done]. f_equal. assert (x ≠ y) by congruence.
        destruct (decide (x ∈ l ∧ _)); [rewrite decide_True by set_solver|rewrite decide_False by set_solver]; done.
      * intros x. rewrite Hin. destruct (decide (x = y)) as [->|Hne]; [|set_solver]. split; [set_solver|]. intros [?|(_ & o' & Ho' & Hc')]; [by left|]. congruence.
Qed.

Lemma candidates_spec index n x : x ∈ candidates index n ↔ ∃ a, a ∈ read_set n ∪ write_set n ∧ x ∈ default ∅ (index !! a).
Proof.
  unfold candidates. rewrite elem_of_union_list. split.
  - intros (X & HX & Hx). apply list_elem_of_fmap in HX as (a & -> & Ha). exists a. split; [|done]. rewrite elem_of_app, !elem_of_elements in Ha. set_solver.
  - intros (a & Ha & Hx). eexists. split; [|done]. apply list_elem_of_fmap. exists a. split; [done|]. rewrite elem_of_app, !elem_of_elements. set_solver.
Qed.

Lemma index_fold `{Countable K} i l (index : gmap K (gset Z)) k x : x ∈ default ∅ (foldl (index_key i) index l !! k) ↔ x ∈ default ∅ (index !! k) ∨ x = i ∧ k ∈ l.
Proof.
  revert index. induction l as [|y l IH]; intros index; cbn [foldl]; [set_solver|]. rewrite IH. unfold index_key. destruct (decide (k = y)) as [->|Hne]; [rewrite lookup_insert_eq; cbn; set_solver|rewrite lookup_insert_ne by done; set_solver].
Qed.

Lemma unindex_fold i l index a x : x ∈ default ∅ (foldl (unindex i) index l !! a) ↔ x ∈ default ∅ (index !! a) ∧ ¬ (x = i ∧ a ∈ l).
Proof.
  revert index. induction l as [|y l IH]; intros index; cbn [foldl]; [set_solver|]. rewrite IH. unfold unindex. destruct (index !! y) as [txs|] eqn:Hy.
  - destruct (decide (a = y)) as [->|Hne]; [rewrite lookup_insert_eq, Hy; cbn; set_solver|rewrite lookup_insert_ne by done; set_solver].
  - destruct (decide (a = y)) as [->|Hne]; [rewrite Hy; cbn; set_solver|set_solver].
Qed.

(** The nodes after a new one was linked. *)
Definition linked (n : TxNode) (o : TxNode) : TxNode := if decide (clash n o) then set_links (dependencies o) ({[id n]} ∪ dependents o) o else o.

Lemma footprint_linked n o : footprint (linked n o) = footprint o.
Proof. unfold linked. by destruct (decide _). Qed.

Definition inserted (n : TxNode) (g g' : TxDependencyGraph) : Prop :=
  (∀ x, x ∈ dependencies n ↔ ∃ o, nodes g !! x = Some o ∧ clash n o) ∧ nodes g' = <[id n := n]> (linked n <$> nodes g) ∧ id_counter g' = id_counter g ∧ config g' = config g ∧
  ∀ a x, x ∈ default ∅ (address_index g' !! a) ↔ x ∈ default ∅ (address_index g !! a) ∨ x = id n ∧ a ∈ footprint n.

Lemma clash_witness n o : clash n o → ∃ a, a ∈ footprint n ∧ a ∈ footprint o.
Proof.
  intros Hc. destruct (set_choose_or_empty (footprint n ∩ footprint o)) as [[a Ha]|He]; [exists a; by apply elem_of_intersection in Ha|]. destruct Hc. by apply disjoint_intersection.
Qed.

Lemma insert_shape n0 g : analyzed n0 → dependencies n0 = ∅ → (∀ x o, nodes g !! x = Some o → analyzed o) → (∀ a x, x ∈ default ∅ (address_index g !! a) ↔ ∃ n, nodes g !! x = Some n ∧ a ∈ footprint n) →
  ∃ D, insert_node n0 g = (Ok (id n0), (insert_node n0 g).2) ∧ inserted (set_links D (dependents n0) n0) g (insert_node n0 g).2.
Proof.
  intros Han Hd Hns Hidx. unfold insert_node, detect_dependencies.
  destruct (link_fold (elements (candidates (address_index g) n0)) n0 (nodes g) (dependencies_detected (stats g))) as (D & f' & Hf & HD); [apply NoDup_elements|]. rewrite Hf.
  assert (Hcand : ∀ x o, nodes g !! x = Some o → (x ∈ elements (candidates (address_index g) n0) ∧ conflicts_with n0 o ≠ None ↔ clash n0 o)).
  { intros x o Ho. rewrite conflicts_analyzed by eauto. split; [intros [_ Hc]; by destruct (decide (clash n0 o))|]. intros Hc. split; [|by rewrite decide_True].
    rewrite elem_of_elements, candidates_spec. destruct (clash_witness n0 o Hc) as (a & Ha1 & Ha2). exists a. destruct Han as (-> & -> & _). split; [by apply elem_of_union_l|]. apply Hidx. by exists o. }
  exists D. split; [done|]. split; [|split; [|split; [done|split; [done|]]]].
  - intros x. cbn [dependencies set_links]. rewrite HD, Hd. split.
    + intros [?%not_elem_of_empty|(Hx & o & Ho & Hc)]; [done|]. exists o. split; [done|]. by apply (Hcand x o Ho).
    + intros (o & Ho & Hc). right. apply (Hcand x o Ho) in Hc as [Hx Hc]. split; [done|]. by exists o.
  - cbn [snd nodes store_node update_indices set_stats set_nodes]. f_equal. apply map_eq. intros x. rewrite map_lookup_imap, lookup_fmap.
    destruct (nodes g !! x) as [o|] eqn:Ho; cbn; [|done]. unfold linked. f_equal. specialize (Hcand x o Ho). assert (Hcl : clash (set_links D (dependents n0) n0) o ↔ clash n0 o) by done.
    destruct (decide (x ∈ _ ∧ _)); destruct (decide (clash _ o)); (exfalso; tauto) || done.
  - intros a x. cbn [snd address_index store_node update_indices set_stats set_nodes]. rewrite index_fold, elem_of_app, !elem_of_elements. cbn [id read_set write_set set_links]. destruct Han as (-> & -> & _). change (footprint (set_links D (dependents n0) n0)) with (footprint n0). tauto.
Qed.

Lemma add_shape t g : graph_ok g → Z.of_nat (size (nodes g)) < max_transactions (config g) → id_counter g < u64_max →
  ∃ n, (add_transaction t g).1 = Ok (id_counter g + 1) ∧ id n = id_counter g + 1 ∧ node_transaction n = t ∧ analyzed n ∧ dependents n = ∅ ∧ inserted n (take_id g) (add_transaction t g).2.
Proof.
  intros Hok Hroom Hcnt. assert (Hi : next_id g = id_counter g + 1) by (unfold next_id, wrapping_add; rewrite Z.mod_small; [done|]; pose proof (go_counter g Hok); unfold u64_max in *; lia).
  unfold add_transaction. rewrite (proj2 (Z.leb_gt _ _)) by done. cbv zeta. pose proof (analyze_new (calculate_priority (config (take_id g)) (analyze (new_node (id_counter (take_id g)) t))) (id_counter (take_id g)) t) as Hnew. cbv zeta in Hnew.
  set (n0 := set_priority _ _) in *. clearbody n0. destruct Hnew as (Han & Hid & Ht & Hd & Hb). change (id_counter (take_id g)) with (next_id g) in Hid. rewrite Hi in Hid.
  destruct (insert_shape n0 (take_id g) Han Hd) as (D & Hr & Hin); [intros x o Ho; by apply (go_node g Hok x o)|exact (go_index g Hok)|]. exists (set_links D (dependents n0) n0). rewrite Hr. cbn [fst snd]. rewrite Hid.
  split_and!; [done|exact Hid|exact Ht|exact Han|exact Hb|exact Hin].
Qed.

Lemma clash_footprints m n m' n' : footprint m = footprint m' → footprint n = footprint n' → clash m n ↔ clash m' n'.
Proof. unfold clash. by intros -> ->. Qed.

Lemma linked_same n o : id (linked n o) = id o ∧ dependencies (linked n o) = dependencies o ∧ (analyzed o → analyzed (linked n o)).
Proof. unfold linked. by destruct (decide _). Qed.

Lemma inserted_ok n g g' : graph_ok g → (∀ x o, nodes g !! x = Some o → x < id n) → 1 ≤ id n → analyzed n → dependents n = ∅ → inserted n g g' → id_counter g' = id n → graph_ok g'.
Proof.
  intros Hok Hnew Hpos Han Hb (HD & Hns & _ & _ & Hidx) Hcnt. pose proof (λ i n, go_node g Hok i n) as Hn0.
  assert (Hlook : ∀ x m, nodes g' !! x = Some m ↔ x = id n ∧ m = n ∨ x ≠ id n ∧ ∃ o, nodes g !! x = Some o ∧ m = linked n o).
  { intros x m. rewrite Hns. destruct (decide (x = id n)) as [->|Hne]; [rewrite lookup_insert_eq|rewrite lookup_insert_ne, lookup_fmap_Some by done].
    - split; [intros [= <-]; by left|]. intros [[_ ->]|[? _]]; done.
    - split; [intros (o & <- & Ho); right; split; [done|]; by exists o|]. intros [[? _]|(_ & o & Ho & ->)]; [done|]. by exists o. }
  assert (Hex : ∀ x y, (∃ m, nodes g' !! x = Some m ∧ clash m y) ↔ x = id n ∧ clash n y ∨ x ≠ id n ∧ ∃ o, nodes g !! x = Some o ∧ clash o y).
  { intros x y. split.
    - intros (m & [[-> ->]|(Hne & o & Ho & ->)]%Hlook & Hc); [by left|]. right. split; [done|]. exists o. split; [done|]. by rewrite <- (clash_footprints (linked n o) y o y) by (done || apply footprint_linked).
    - intros [[-> Hc]|(Hne & o & Ho & Hc)]; [exists n; split; [apply Hlook; by left|done]|]. exists (linked n o). split; [apply Hlook; right; split; [done|]; by exists o|]. by rewrite (clash_footprints (linked n o) y o y) by (done || apply footprint_linked). }
  split.
  - intros i m [[-> ->]|(Hne & o & Ho & ->)]%Hlook; [split_and!; [done|lia|lia|done..]; apply Han|]. destruct (Hn0 i o Ho) as (Hi & Hr & Ha). destruct (linked_same n o) as (-> & _ & Hl). pose proof (Hnew i o Ho). split_and!; [done|lia|lia|by apply Hl..].
  - intros j m Hm i. rewrite Hex. apply Hlook in Hm as [[-> ->]|(Hne & o & Ho & ->)].
    + rewrite HD. split.
      * intros (o & Ho & Hc). pose proof (Hnew i o Ho). split; [done|]. right. split; [lia|]. exists o. split; [done|by apply clash_sym].
      * intros (Hlt & [[-> _]|(_ & o & Ho & Hc)]); [lia|]. exists o. split; [done|by apply clash_sym].
    + destruct (linked_same n o) as (_ & -> & _). rewrite (go_deps g Hok j o Ho i). pose proof (Hnew j o Ho) as Hj. split.
      * intros (Hlt & m & Hm & Hc). split; [done|]. right. split; [lia|]. exists m. split; [done|]. by rewrite (clash_footprints m (linked n o) m o) by (done || apply footprint_linked).
      * intros (Hlt & [[-> _]|(_ & m & Hm & Hc)]); [lia|]. split; [done|]. exists m. split; [done|]. by rewrite <- (clash_footprints m (linked n o) m o) by (done || apply footprint_linked).
  - intros i m Hm j. assert (Hsw : (∃ x, nodes g' !! j = Some x ∧ clash m x) ↔ (∃ x, nodes g' !! j = Some x ∧ clash x m)) by (split; intros (x & Hx & Hc); exists x; (split; [done|by apply clash_sym])). rewrite Hsw, Hex. clear Hsw. apply Hlook in Hm as [[-> ->]|(Hne & o & Ho & ->)].
    + rewrite Hb. split; [by intros ?%not_elem_of_empty|]. intros (Hlt & [[-> _]|(_ & o & Ho & _)]); [lia|]. pose proof (Hnew j o Ho). lia.
    + pose proof (Hnew i o Ho) as Hi. assert (Hcl : clash n (linked n o) ↔ clash n o) by (apply clash_footprints; [done|apply footprint_linked]).
      assert (Hold : (∃ x, nodes g !! j = Some x ∧ clash x (linked n o)) ↔ ∃ x, nodes g !! j = Some x ∧ clash o x).
      { split; intros (x & Hx & Hc); exists x; (split; [done|]); [apply clash_sym; by rewrite <- (clash_footprints x (linked n o) x o) by (done || apply footprint_linked)|apply clash_sym in Hc; by rewrite (clash_footprints x (linked n o) x o) by (done || apply footprint_linked)]. }
      rewrite Hcl, Hold. assert (Hd : j ∈ dependents (linked n o) ↔ j = id n ∧ clash n o ∨ j ∈ dependents o) by (unfold linked; destruct (decide (clash n o)); cbn [dependents set_links]; set_solver). rewrite Hd, (go_back g Hok i o Ho j). split.
      * intros [[-> Hc]|[Hlt (x & Hx & Hc)]]; [split; [lia|by left]|]. split; [done|]. right. pose proof (Hnew j x Hx). split; [lia|]. by exists x.
      * intros (Hlt & [[-> Hc]|(_ & x & Hx & Hc)]); [by left|]. right. split; [done|]. by exists x.
  - intros a x. rewrite Hidx, (go_index g Hok a x). split.
    + intros [(o & Ho & Ha)|[-> Ha]]; [|exists n; split; [apply Hlook; by left|done]]. exists (linked n o). pose proof (Hnew x o Ho). split; [apply Hlook; right; split; [lia|]; by exists o|by rewrite footprint_linked].
    + intros (m & [[-> ->]|(_ & o & Ho & ->)]%Hlook & Ha); [by right|]. left. exists o. by rewrite footprint_linked in Ha.
  - lia.
Qed.

Lemma add_ok t g : graph_ok g → id_counter g < u64_max → graph_ok (add_transaction t g).2 ∧ id_counter (add_transaction t g).2 ≤ id_counter g + 1.
Proof.
  intros Hok Hcnt. destruct (Z.leb_spec (max_transactions (config g)) (Z.of_nat (size (nodes g)))) as [Hfull|Hroom].
  - unfold add_transaction. rewrite (proj2 (Z.leb_le _ _) Hfull). cbn. split; [done|lia].
  - destruct (add_shape t g Hok Hroom Hcnt) as (n & _ & Hid & _ & Han & Hb & Hin). pose proof (go_counter g Hok) as Hpos. assert (Hc : id_counter (add_transaction t g).2 = id n).
    { destruct Hin as (_ & _ & -> & _). change (id_counter (take_id g)) with (next_id g). rewrite Hid. unfold next_id, wrapping_add. rewrite Z.mod_small; [done|]. unfold u64_max in *. lia. }
    split; [|lia]. apply (inserted_ok n (take_id g)); [|intros x o Ho; destruct (go_node g Hok x o Ho) as (_ & ? & _); lia|lia|done|done|done|done].
    destruct Hok as [H1 H2 H3 H4 H5]. split; cbn [nodes take_id address_index id_counter]; [|done..|]; unfold next_id, wrapping_add; rewrite Z.mod_small by (unfold u64_max in *; lia); [|lia].
    intros i m Hm. destruct (H1 i m Hm) as (? & ? & ?). split_and!; [done|lia|lia|done..].
Qed.

Lemma remove_ok i g : graph_ok g → graph_ok (remove_transaction i g).
Proof.
  intros Hok. unfold remove_transaction. destruct (nodes g !! i) as [n|] eqn:Hn; [|done].
  assert (Hlook : ∀ x m, (unlink i <$> delete i (nodes g)) !! x = Some m ↔ x ≠ i ∧ ∃ o, nodes g !! x = Some o ∧ m = unlink i o).
  { intros x m. rewrite lookup_fmap_Some. split; [intros (o & <- & [Hne Ho]%lookup_delete_Some); split; [done|]; by exists o|]. intros (Hne & o & Ho & ->). exists o. split; [done|]. by apply lookup_delete_Some. }
  destruct Hok as [H1 H2 H3 H4 H5]. split; cbn [nodes id_counter address_index].
  - intros x m (Hne & o & Ho & ->)%Hlook. exact (H1 x o Ho).
  - intros j m (Hne & o & Ho & ->)%Hlook x. cbn [dependencies unlink set_links]. rewrite elem_of_difference, elem_of_singleton, (H2 j o Ho x). split.
    + intros ((Hlt & m & Hm & Hc) & Hx). split; [done|]. exists (unlink i m). split; [apply Hlook; split; [done|]; by exists m|exact Hc].
    + intros (Hlt & m & (Hx & m' & Hm & ->)%Hlook & Hc). split; [|done]. split; [done|]. by exists m'.
  - intros j m (Hne & o & Ho & ->)%Hlook x. cbn [dependents unlink set_links]. rewrite elem_of_difference, elem_of_singleton, (H3 j o Ho x). split.
    + intros ((Hlt & m & Hm & Hc) & Hx). split; [done|]. exists (unlink i m). split; [apply Hlook; split; [done|]; by exists m|exact Hc].
    + intros (Hlt & m & (Hx & m' & Hm & ->)%Hlook & Hc). split; [|done]. split; [done|]. by exists m'.
  - intros a x. rewrite unindex_fold, (H4 a x). destruct (H1 i n Hn) as (_ & _ & -> & -> & _). rewrite elem_of_app, !elem_of_elements. split.
    + intros ((m & Hm & Ha) & Hx). exists (unlink i m). split; [|done]. apply Hlook. split; [|by exists m]. intros ->. assert (m = n) as -> by congruence. tauto.
    + intros (m & (Hx & m' & Hm & ->)%Hlook & Ha). split; [by exists m'|]. intros [-> _]. done.
  - done.
Qed.

Lemma empty_graph_ok g : nodes g = ∅ → address_index g = ∅ → 0 ≤ id_counter g → graph_ok g.
Proof.
  intros Hn Ha Hc. split; rewrite ?Hn, ?Ha; [by intros ? ? ?%lookup_empty_Some..| |done].
  intros a i. rewrite lookup_empty. split; [by intros ?%not_elem_of_empty|by intros (? & ?%lookup_empty_Some & _)].
Qed.

(** ** Histories *)

Inductive Call : Type := CAdd (t : SignedTransaction) | CRemove (tx_id : Z) | CClear | CSchedule.

Definition perform (g : TxDependencyGraph) (c : Call) : TxDependencyGraph :=
  match c with
  | CAdd t => (add_transaction t g).2
  | CRemove i => remove_transaction i g
  | CClear => clear g
  | CSchedule => match schedule g with Some (_, g') => g' | None => g end
  end.

Definition history (c : DependencyGraphConfig) (cs : list Call) : TxDependencyGraph := foldl perform (new_graph c) cs.

Lemma schedule_keeps g r g' : schedule g = Some (r, g') → nodes g' = nodes g ∧ address_index g' = address_index g ∧ id_counter g' = id_counter g.
Proof. unfold schedule. destruct (schedule_loop _ _ _ _ _) as [r'|]; [|done]. cbn [mbind option_bind]. by intros [= _ <-]. Qed.

Lemma perform_ok g c : graph_ok g → id_counter g < u64_max → graph_ok (perform g c) ∧ id_counter (perform g c) ≤ id_counter g + 1.
Proof.
  intros Hok Hc. pose proof (go_counter g Hok) as H0. destruct c as [t|i| |]; cbn [perform].
  - by apply add_ok.
  - split; [by apply remove_ok|]. unfold remove_transaction. destruct (nodes g !! i); cbn; lia.
  - split; [by apply empty_graph_ok|cbn; lia].
  - destruct (schedule g) as [[r g']|] eqn:Hs; [|split; [done|lia]]. apply schedule_keeps in Hs as (Hn & Ha & Hi). rewrite Hi. split; [|lia].
    destruct Hok as [H1 H2 H3 H4 H5]. split; rewrite ?Hn, ?Ha, ?Hi; done.
Qed.

Lemma history_ok c cs : Z.of_nat (length cs) < u64_max → graph_ok (history c cs).
Proof.
  intros Hlen. unfold history. assert (H : graph_ok (new_graph c) ∧ id_counter (new_graph c) = 0) by (split; [by apply empty_graph_ok|done]). destruct H as [Hok H0]. revert Hok H0. generalize (new_graph c). intros g Hok H0.
  assert (Hb : id_counter g + Z.of_nat (length cs) < u64_max) by lia. clear H0 Hlen. revert g Hok Hb. induction cs as [|x cs IH]; intros g Hok Hb; [done|]. cbn [foldl length] in *. destruct (perform_ok g x Hok) as [H1 H2]; [lia|]. apply IH; [done|lia].
Qed.

(** ** Batches *)

Lemma insert_swap {A} (l : list A) i x y : l !! i = Some x → x :: <[i := y]> l ≡ₚ y :: l.
Proof.
  revert i. induction l as [|z l IH]; intros [|i] Hi; cbn in *; [done|done| |].
  - injection Hi as ->. constructor.
  - rewrite (Permutation_swap z x). rewrite (IH i Hi). constructor.
Qed.

Lemma sift_up_perm f v pos : sift_up f v pos ≡ₚ v.
Proof.
  revert v pos. induction f as [|f IH]; intros v pos; cbn [sift_up]; [done|]. destruct pos as [|p]; [done|]. destruct (v !! S p) as [x|] eqn:Hx; [|done]. destruct (v !! (p / 2)%nat) as [y|] eqn:Hy; [|done].
  destruct (cmp x y); [done|done|]. rewrite IH. assert (Hne : (p / 2)%nat ≠ S p) by (pose proof (Nat.Div0.div_le_upper_bound p 2 p); lia).
  pose proof (insert_swap v (S p) x y Hx) as H1. pose proof (insert_swap (<[S p := y]> v) (p / 2)%nat y x) as H2. rewrite list_lookup_insert_ne in H2 by done. specialize (H2 Hy). apply (Permutation_cons_inv (a := y)). rewrite H2. exact H1.
Qed.

Lemma heap_perm l v : foldl heap_push v l ≡ₚ v ++ l.
Proof.
  revert v. induction l as [|x l IH]; intros v; cbn [foldl]; [by rewrite app_nil_r|]. rewrite IH. unfold heap_push. rewrite sift_up_perm. by rewrite <- app_assoc.
Qed.

Lemma ready_spec ns completed i : i ∈ map s_id (ready_heap ns completed) ↔ i ∉ completed ∧ ∃ n, ns !! i = Some n ∧ dependencies n ⊆ completed.
Proof.
  unfold ready_heap. rewrite heap_perm. cbn [app]. rewrite list_elem_of_fmap. split.
  - intros (x & -> & Hx). apply list_elem_of_omap in Hx as ([j n] & Hj & Hr). apply elem_of_map_to_list in Hj. unfold ready_tx in Hr. cbn [fst snd] in Hr. destruct (bool_decide_reflect (j ∈ completed)) as [|Hj1]; [done|]. destruct (bool_decide_reflect (dependencies n ⊆ completed)) as [Hd|]; [|done]. injection Hr as <-. split; [done|]. by exists n.
  - intros (Hi & n & Hn & Hd). exists (mkScheduled i (priority n) (cu_estimate n)). split; [done|]. apply list_elem_of_omap. exists (i, n). split; [by apply elem_of_map_to_list|]. unfold ready_tx. cbn [fst snd]. by rewrite bool_decide_eq_false_2, bool_decide_eq_true_2.
Qed.

Lemma ready_sublist completed l : map s_id (omap (ready_tx completed) l) `sublist_of` l.*1.
Proof.
  induction l as [|[i n] l IH]; cbn; [constructor|]. unfold ready_tx at 1. cbn [fst snd]. destruct (negb _ && _); cbn; by constructor.
Qed.

Lemma ready_nodup ns completed : NoDup (map s_id (ready_heap ns completed)).
Proof.
  assert (Hp : map s_id (ready_heap ns completed) ≡ₚ map s_id (omap (ready_tx completed) (map_to_list ns))) by (apply Permutation_map; unfold ready_heap; by rewrite heap_perm).
  rewrite Hp. eapply sublist_NoDup; [|apply ready_sublist]. apply NoDup_fst_map_to_list.
Qed.

Section Schedule.
Context (c : DependencyGraphConfig) (ns : gmap Z TxNode).
Hypothesis Hwf : ∀ i n, ns !! i = Some n → id n = i ∧ 1 ≤ i ∧ ∀ d, d ∈ dependencies n → d < i ∧ is_Some (ns !! d).

Lemma fill_sublist ready ws rs b : ∃ U, transactions (fill_batch c ns ready ws rs b) = transactions b ++ U ∧ U `sublist_of` map s_id ready ∧
  (Z.of_nat (length (transactions b)) ≤ Z.max 1 (max_batch_size c) → Z.of_nat (length (transactions b ++ U)) ≤ Z.max 1 (max_batch_size c)).
Proof.
  revert ws rs b. induction ready as [|x ready IH]; intros ws rs b; cbn [fill_batch map]; [exists []; rewrite app_nil_r; split_and!; [done|constructor|done]|].
  assert (Hskip : ∀ ws rs b, ∃ U, transactions (fill_batch c ns ready ws rs b) = transactions b ++ U ∧ U `sublist_of` s_id x :: map s_id ready ∧ (Z.of_nat (length (transactions b)) ≤ Z.max 1 (max_batch_size c) → Z.of_nat (length (transactions b ++ U)) ≤ Z.max 1 (max_batch_size c))).
  { intros ws' rs' b'. destruct (IH ws' rs' b') as (U & HU & Hs & Hl). exists U. split_and!; [done|by constructor|done]. }
  destruct (Z.leb_spec (max_batch_size c) (Z.of_nat (length (transactions b)))) as [|Hlt]; [exists []; rewrite app_nil_r; split_and!; [done|by apply sublist_nil_l|done]|]. destruct (ns !! s_id x) as [n|] eqn:Hn; [|apply Hskip].
  destruct (_ <? _); [apply Hskip|]. destruct (conflicts_with_batch ws rs n); [apply Hskip|]. destruct (IH (ws ∪ write_set n) (rs ∪ read_set n) (add n b)) as (U & HU & Hs & Hl). destruct (Hwf _ _ Hn) as (Hid & _). cbn [transactions add] in HU, Hl. rewrite Hid in HU, Hl. exists (s_id x :: U). rewrite HU, <- app_assoc. cbn [app]. rewrite <- app_assoc in Hl. cbn [app] in Hl. split_and!; [done|by constructor|].
  intros _. apply Hl. rewrite length_app. cbn [length]. lia.
Qed.

Lemma batch_spec ready : ready ≠ [] → (∀ x, x ∈ ready → is_Some (ns !! s_id x)) →
  transactions (create_batch c ns ready) ≠ [] ∧ transactions (create_batch c ns ready) `sublist_of` map s_id ready ∧ Z.of_nat (length (transactions (create_batch c ns ready))) ≤ Z.max 1 (max_batch_size c).
Proof.
  intros Hne Hin. unfold create_batch. destruct (fill_sublist ready ∅ ∅ new_batch) as (U & HU & Hs & Hl). cbn [transactions new_batch app length] in HU, Hl. rewrite HU. destruct U as [|u U].
  - destruct ready as [|x ready]; [done|]. destruct (Hin x (list_elem_of_here _ _)) as [n Hn]. rewrite Hn. destruct (Hwf _ _ Hn) as (Hid & _). cbn [transactions add]. rewrite HU, Hid. cbn. split_and!; [done|apply sublist_skip, sublist_nil_l|lia].
  - rewrite HU. split_and!; [done|done|apply Hl; lia].
Qed.

Lemma progress completed x n : ns !! x = Some n → x ∉ completed → ready_heap ns completed ≠ [].
Proof.
  intros Hx Hc Hr. assert (Hno : ∀ i, i ∉ map s_id (ready_heap ns completed)) by (rewrite Hr; intros i; apply not_elem_of_nil). clear Hr. remember (Z.to_nat x) as k eqn:Hk. revert x n Hx Hc Hk. induction k as [k IH] using lt_wf_ind. intros x n Hx Hc ->.
  destruct (decide (dependencies n ⊆ completed)) as [Hd|Hd]; [apply (Hno x), ready_spec; split; [done|]; by exists n|]. destruct (Hwf x n Hx) as (_ & Hpos & Hdep).
  destruct (set_choose_or_empty (dependencies n ∖ completed)) as [[d [Hd1 Hd2]%elem_of_difference]|He]; [|destruct Hd; set_solver]. destruct (Hdep d Hd1) as [Hlt [m Hm]]. apply (IH (Z.to_nat d)) with (x := d) (n := m); [|done|done|done]. destruct (Hwf d m Hm) as (_ & ? & _). lia.
Qed.

(** The batches list every transaction once, and each after its dependencies. *)
Definition batches_ok (completed : gset Z) (bs : list ExecutionBatch) : Prop :=
  NoDup (concat (map transactions bs)) ∧ (∀ x, x ∈ concat (map transactions bs) ↔ is_Some (ns !! x) ∧ x ∉ completed) ∧
  (∀ m b x n d, bs !! m = Some b → x ∈ transactions b → ns !! x = Some n → d ∈ dependencies n → d ∈ completed ∨ ∃ m' b', (m' < m)%nat ∧ bs !! m' = Some b' ∧ d ∈ transactions b') ∧
  Forall (λ b, transactions b ≠ [] ∧ Z.of_nat (length (transactions b)) ≤ Z.max 1 (max_batch_size c)) bs.

Lemma batches_cons completed b bs : NoDup (transactions b) → (∀ x, x ∈ transactions b → x ∉ completed ∧ ∃ n, ns !! x = Some n ∧ dependencies n ⊆ completed) →
  transactions b ≠ [] ∧ Z.of_nat (length (transactions b)) ≤ Z.max 1 (max_batch_size c) → batches_ok (list_to_set (transactions b) ∪ completed) bs → batches_ok completed (b :: bs).
Proof.
  intros Hnd Hb Hl (H1 & H2 & H3 & H4). unfold batches_ok. cbn [map concat]. split_and!.
  - apply list.NoDup_app. split_and!; [done| |done]. intros x Hx [_ Hx2]%H2. set_solver.
  - intros x. rewrite elem_of_app, H2, elem_of_union, elem_of_list_to_set. split.
    + intros [Hx|[Hx Hn]]; [|tauto]. destruct (Hb x Hx) as (Hc & n & Hn & _). by eauto.
    + intros [Hx Hn]. destruct (decide (x ∈ transactions b)); [by left|right; tauto].
  - intros [|m] b' x n d Hb' Hx Hn Hd.
    + injection Hb' as <-. left. destruct (Hb x Hx) as (_ & n' & Hn' & Hsub). assert (n' = n) as -> by congruence. by apply Hsub.
    + destruct (H3 m b' x n d Hb' Hx Hn Hd) as [Hd'|(m' & b'' & Hm & Hb'' & Hd')].
      * apply elem_of_union in Hd' as [Hd'|Hd']; [|by left]. right. exists 0%nat, b. split; [lia|]. split; [done|]. by apply elem_of_list_to_set in Hd'.
      * right. exists (S m'), b''. split; [lia|]. done.
  - by constructor.
Qed.

Lemma schedule_loop_ok f completed k : (size ns ≤ f + size completed)%nat → (∀ x, x ∈ completed → is_Some (ns !! x)) → ∃ r, schedule_loop f c ns completed k = Some r ∧ batches_ok completed r.1.
Proof.
  revert completed k. induction f as [|f IH]; intros completed k Hf Hsub; cbn [schedule_loop]; destruct (Nat.leb_spec (size ns) (size completed)) as [Hle|Hgt]; [|lia| |].
  1, 2: exists ([], k); split; [done|]; unfold batches_ok; cbn [fst map concat]; split_and!; [constructor| |intros m b x n d Hm; by rewrite lookup_nil in Hm|constructor]; intros x; split; [by intros ?%not_elem_of_nil|]; intros [Hx Hn]; exfalso; apply Hn.
  1, 2: assert (Heq : completed = dom ns) by (apply leibniz_equiv; apply set_subseteq_size_equiv; [intros y Hy; apply elem_of_dom; by apply Hsub|rewrite size_dom; lia]); rewrite Heq; by apply elem_of_dom.
  destruct (decide (dom ns ⊆ completed)) as [Hdom|Hdom]; [apply subseteq_size in Hdom; rewrite size_dom in Hdom; lia|].
  assert (Hex : ∃ x n, ns !! x = Some n ∧ x ∉ completed). { destruct (set_choose_or_empty (dom ns ∖ completed)) as [[x [[n Hn]%elem_of_dom Hx]%elem_of_difference]|He]; [by exists x, n|]. destruct Hdom. set_solver. }
  destruct Hex as (x & n & Hn & Hx). pose proof (progress completed x n Hn Hx) as Hne. assert (Hr : ∀ i, i ∈ map s_id (ready_heap ns completed) ↔ _) by apply ready_spec. pose proof (ready_nodup ns completed) as Hnd. destruct (ready_heap ns completed) as [|y ready] eqn:Hrd; [done|]. rewrite <- Hrd in *.
  destruct (batch_spec (ready_heap ns completed)) as (Hb1 & Hb2 & Hb3); [done|intros z Hz; destruct (Hr (s_id z)) as [H _]; destruct H as (_ & m & Hm & _); [by apply list_elem_of_fmap_2|]; by exists m|]. set (b := create_batch _ _ _) in *.
  assert (Hbx : ∀ z, z ∈ transactions b → z ∉ completed ∧ ∃ m, ns !! z = Some m ∧ dependencies m ⊆ completed) by (intros z Hz; apply Hr; eapply list.elem_of_submseteq; [exact Hz|by apply sublist_submseteq]).
  assert (Hbn : NoDup (transactions b)) by (by eapply sublist_NoDup).
  match goal with |- context [schedule_loop f c ns ?C ?K] => destruct (IH C K) as ([bs k'] & Hrun & Hbs) end.
  - assert (Hd : completed ## list_to_set (C := gset Z) (transactions b)) by (intros z Hz1 Hz2; apply elem_of_list_to_set in Hz2; by destruct (Hbx z Hz2)). rewrite size_union by (symmetry; exact Hd). rewrite size_list_to_set by done. destruct (transactions b); [done|]. cbn [length]. lia.
  - intros z [Hz|Hz]%elem_of_union; [|by apply Hsub]. apply elem_of_list_to_set in Hz. destruct (Hbx z Hz) as (_ & m & Hm & _). by exists m.
  - rewrite Hrun. cbn [mbind option_bind]. exists (b :: bs, k'). split; [done|]. cbn [fst]. by apply batches_cons.
Qed.
End Schedule.

Lemma graph_wf g : graph_ok g → ∀ i n, nodes g !! i = Some n → id n = i ∧ 1 ≤ i ∧ ∀ d, d ∈ dependencies n → d < i ∧ is_Some (nodes g !! d).
Proof.
  intros Hok i n Hn. destruct (go_node g Hok i n Hn) as (Hi & Hr & _). split_and!; [done|lia|]. intros d Hd. apply (go_deps g Hok i n Hn d) in Hd as (Hlt & m & Hm & _). by eauto.
Qed.

Lemma schedule_ok g : graph_ok g → ∃ bs g', schedule g = Some (bs, g') ∧ batches_ok (config g) (nodes g) ∅ bs.
Proof.
  intros Hok. unfold schedule. destruct (schedule_loop_ok (config g) (nodes g) (graph_wf g Hok) (size (nodes g)) ∅ (mkCounts (parallel_txs (stats g)) (sequential_txs (stats g)))) as ([bs k] & -> & Hbs); [lia|set_solver|]. cbn [mbind option_bind fst] in *. by eexists _, _.
Qed.

Lemma concat_lookup {A} (ls : list (list A)) x : x ∈ concat ls → ∃ p l, ls !! p = Some l ∧ x ∈ l.
Proof.
  induction ls as [|l ls IH]; cbn; [by intros ?%not_elem_of_nil|]. intros [Hx|Hx]%elem_of_app; [by exists 0%nat, l|]. destruct (IH Hx) as (p & l' & Hp & Hl). by exists (S p), l'.
Qed.

(** C18. Scheduling after any history terminates and is correct: every transaction of the graph is in exactly one batch, batches are not empty and within the size limit, and
    of two transactions that touch a common account the one submitted first is in an earlier batch; in particular, those in one batch touch different accounts. *)
Theorem schedule_correct c cs : Z.of_nat (length cs) < u64_max →
  let g := history c cs in
  ∃ bs g', schedule g = Some (bs, g') ∧ NoDup (concat (map transactions bs)) ∧
    (∀ x, x ∈ concat (map transactions bs) ↔ is_Some (get_transaction g x)) ∧
    Forall (λ b, transactions b ≠ [] ∧ Z.of_nat (length (transactions b)) ≤ Z.max 1 (max_batch_size (config g))) bs ∧
    (∀ i j m n, nodes g !! i = Some m → nodes g !! j = Some n → i < j → clash m n →
      ∃ p q bp bq, (p < q)%nat ∧ bs !! p = Some bp ∧ bs !! q = Some bq ∧ i ∈ transactions bp ∧ j ∈ transactions bq).
Proof.
  intros Hlen g. pose proof (history_ok c cs Hlen) as Hok. fold g in Hok. destruct (schedule_ok g Hok) as (bs & g' & Hs & H1 & H2 & H3 & H4). exists bs, g'. split_and!; [done|done| |done|].
  - intros x. unfold get_transaction. rewrite H2, fmap_is_Some. set_solver.
  - intros i j m n Hi Hj Hlt Hc. assert (Hin : j ∈ concat (map transactions bs)) by (apply H2; split; [by eauto|apply not_elem_of_empty]). apply concat_lookup in Hin as (q & l & Hq & Hl). apply list_lookup_fmap_Some in Hq as (bq & -> & Hq).
    assert (Hd : i ∈ dependencies n) by (apply (go_deps g Hok j n Hj); split; [done|]; by exists m). destruct (H3 q bq j n i Hq Hl Hj Hd) as [?%not_elem_of_empty|(p & bp & Hp & Hbp & Hi')]; [done|]. by exists p, q, bp, bq.
Qed.

(** ** Execution order does not matter between batches *)

Definition accounts (t : SignedTransaction) : gset Address := {[from (transaction t); to (transaction t)]}.

Lemma before_contradiction {A} (x y : A) a b : NoDup (a ++ x :: b) → y ∈ a → ¬ [x; y] `sublist_of` a ++ x :: b.
Proof.
  intros Hnd Hy Hs. apply list.NoDup_app in Hnd as (Hna & Hab & Hnb). assert (Hxa : x ∉ a) by (intros Hx; apply (Hab x Hx), list_elem_of_here). assert (Hyb : y ∉ x :: b) by (by apply Hab).
  apply sublist_app_r in Hs as (l1 & l2 & Heq & Hs1 & Hs2). destruct l1 as [|z l1].
  - cbn in Heq. subst l2. apply Hyb. eapply list.elem_of_submseteq; [|by apply sublist_submseteq]. set_solver.
  - injection Heq as -> _. apply Hxa. eapply list.elem_of_submseteq; [|by apply sublist_submseteq]. set_solver.
Qed.

Lemma before_remove {A} (u v x : A) a b : u ≠ x → v ≠ x → [u; v] `sublist_of` a ++ x :: b → [u; v] `sublist_of` a ++ b.
Proof.
  intros Hu Hv (l1 & l2 & Heq & Hs1 & Hs2)%sublist_app_r. rewrite Heq. apply sublist_app; [done|]. apply sublist_cons_r in Hs2 as [Hs2|(l2' & -> & Hs2)]; [done|]. exfalso. assert (Hx : x ∈ [u; v]) by (rewrite Heq; set_solver). set_solver.
Qed.

Lemma before_in_concat {A} (ls : list (list A)) p q lp lq x y : (p < q)%nat → ls !! p = Some lp → ls !! q = Some lq → x ∈ lp → y ∈ lq → [x; y] `sublist_of` concat ls.
Proof.
  revert p q. induction ls as [|l ls IH]; [intros p q _ Hp; by rewrite lookup_nil in Hp|]. intros [|p] [|q] Hpq Hp Hq Hx Hy; cbn in Hp, Hq |- *; [lia| |lia|].
  - injection Hp as ->. change [x; y] with ([x] ++ [y]). apply sublist_app; [by apply singleton_sublist_l|]. apply singleton_sublist_l. apply list_elem_of_In, in_concat. exists lq. split; apply list_elem_of_In; [by eapply list_elem_of_lookup_2|done].
  - apply sublist_inserts_l. by apply (IH p q); [lia|..].
Qed.

Section Execution.
Context {V : Type} (run : SignedTransaction → gmap Address V → gmap Address V) (ns : gmap Z TxNode).
Hypothesis run_writes : ∀ t s a, a ∉ accounts t → run t s !! a = s !! a.
Hypothesis run_reads : ∀ t s s', (∀ a, a ∈ accounts t → s !! a = s' !! a) → ∀ a, a ∈ accounts t → run t s !! a = run t s' !! a.

Definition execute (s : gmap Address V) (order : list Z) : gmap Address V :=
  foldl (λ s i, match ns !! i with Some n => run (node_transaction n) s | None => s end) s order.

Lemma run_commutes t u s : accounts t ## accounts u → run t (run u s) = run u (run t s).
Proof.
  intros Hd. apply map_eq. intros a. destruct (decide (a ∈ accounts t)) as [Ht|Ht]; [|destruct (decide (a ∈ accounts u)) as [Hu|Hu]].
  - assert (a ∉ accounts u) by set_solver. rewrite (run_writes u (run t s)) by done. apply run_reads; [|done]. intros b Hb. apply run_writes. set_solver.
  - rewrite (run_writes t (run u s)) by done. symmetry. apply run_reads; [|done]. intros b Hb. apply run_writes. set_solver.
  - by rewrite !run_writes.
Qed.

Definition conflicting (i j : Z) : Prop := ∃ m n, ns !! i = Some m ∧ ns !! j = Some n ∧ clash m n.

Lemma execute_move x a b s : (∀ y, y ∈ a → ¬ conflicting x y) → execute s (a ++ x :: b) = execute s (x :: a ++ b).
Proof.
  revert s. induction a as [|y a IH]; intros s Hno; [done|]. cbn [app]. cbn [execute foldl]. fold (execute (match ns !! y with Some n => run (node_transaction n) s | None => s end) (a ++ x :: b)). rewrite IH by (intros z Hz; apply Hno; by apply list_elem_of_further).
  cbn [execute foldl]. f_equal. destruct (ns !! x) as [m|] eqn:Hm; destruct (ns !! y) as [n|] eqn:Hn; [|done..]. apply run_commutes. destruct (decide (clash m n)) as [Hc|Hc]; [|by apply dec_stable in Hc].
  destruct (Hno y (list_elem_of_here _ _)). by exists m, n.
Qed.

Lemma execute_reordered l1 l2 s : NoDup l1 → l1 ≡ₚ l2 → (∀ x y, conflicting x y → [x; y] `sublist_of` l1 → [x; y] `sublist_of` l2) → execute s l1 = execute s l2.
Proof.
  intros Hnd. revert l2 s. induction Hnd as [|x l1 Hx Hnd IH]; intros l2 s Hp Hord; [by apply Permutation_nil_l in Hp as ->|].
  assert (Hin : x ∈ l2) by (rewrite <- Hp; apply list_elem_of_here). apply list_elem_of_split in Hin as (a & b & ->). assert (Hnd2 : NoDup (a ++ x :: b)) by (rewrite <- Hp; by constructor).
  assert (Hp' : l1 ≡ₚ a ++ b) by (apply (Permutation_cons_app_inv _ _ Hp)). rewrite execute_move.
  - cbn [execute foldl]. apply IH; [done|]. intros u v Hc Hs. assert (Hne : u ≠ x ∧ v ≠ x). { split; intros ->; apply Hx; (eapply list.elem_of_submseteq; [|by apply sublist_submseteq]); set_solver. }
    apply (before_remove u v x); [apply Hne..|]. apply Hord; [done|]. by apply sublist_cons.
  - intros y Hy Hc. apply (before_contradiction x y a b Hnd2 Hy). apply Hord; [done|]. apply sublist_skip, singleton_sublist_l. rewrite Hp'. apply elem_of_app. by left.
Qed.
End Execution.

(** ** Topological order *)

Lemma filter_same {A} (P Q : A → Prop) `{!∀ x, Decision (P x), !∀ x, Decision (Q x)} (l : list A) : (∀ x, x ∈ l → P x ↔ Q x) → filter P l = filter Q l.
Proof.
  induction l as [|x l IH]; intros Hl; [done|]. rewrite !filter_cons, IH by (intros y Hy; apply Hl; by apply list_elem_of_further). specialize (Hl x (list_elem_of_here _ _)). destruct (decide (P x)); destruct (decide (Q x)); tauto || done.
Qed.

Lemma lower_fold l deg q : NoDup l → (∀ j, j ∈ l → ∃ n, deg !! j = Some n ∧ 1 ≤ n ≤ u64_max) →
  ∃ deg', foldl lower (deg, q) l = (deg', q ++ filter (λ j, deg !! j = Some 1) l) ∧ ∀ j, deg' !! j = if decide (j ∈ l) then (λ n, n - 1) <$> deg !! j else deg !! j.
Proof.
  intros Hnd. revert deg q. induction Hnd as [|x l Hx _ IH]; intros deg q Hall.
  - exists deg. rewrite app_nil_r. split; [done|]. intros j. by rewrite decide_False by apply not_elem_of_nil.
  - destruct (Hall x (list_elem_of_here _ _)) as (n & Hn & Hr). cbn [foldl]. assert (Hl : lower (deg, q) x = (<[x := n - 1]> deg, if n - 1 =? 0 then q ++ [x] else q)).
    { unfold lower. rewrite Hn. unfold wrapping_sub. rewrite Z.mod_small by (unfold u64_max in *; lia). done. }
    rewrite Hl. destruct (IH (<[x := n - 1]> deg) (if n - 1 =? 0 then q ++ [x] else q)) as (deg' & Hf & Hd).
    { intros j Hj. assert (j ≠ x) by (intros ->; done). rewrite lookup_insert_ne by done. apply Hall. by apply list_elem_of_further. }
    exists deg'. rewrite Hf. split.
    + f_equal. assert (Hfe : filter (λ j, <[x := n - 1]> deg !! j = Some 1) l = filter (λ j, deg !! j = Some 1) l) by (apply filter_same; intros j Hj; rewrite lookup_insert_ne; [done|intros ->; done]).
      rewrite Hfe, filter_cons. destruct (Z.eqb_spec (n - 1) 0) as [He|He]; [rewrite decide_True by (rewrite Hn; f_equal; lia); by rewrite <- app_assoc|rewrite decide_False; [done|]; rewrite Hn; intros [= ->]; lia].
    + intros j. rewrite Hd. destruct (decide (j = x)) as [->|Hne].
      * rewrite decide_False by done. rewrite lookup_insert_eq, decide_True by apply list_elem_of_here. by rewrite Hn.
      * rewrite lookup_insert_ne by done. destruct (decide (j ∈ l)); [rewrite decide_True by (by apply list_elem_of_further)|rewrite decide_False by set_solver]; done.
Qed.

Lemma sub_of_empty (X Y : gset Z) : X ∖ Y ≡ ∅ → X ⊆ Y.
Proof. intros He z Hz. destruct (decide (z ∈ Y)); [done|]. exfalso. apply (proj1 (elem_of_equiv_empty _) He z). by apply elem_of_difference. Qed.

Lemma empty_of_sub (X Y : gset Z) : X ⊆ Y → X ∖ Y = ∅.
Proof. intros Hs. apply leibniz_equiv. set_solver. Qed.

Section Kahn.
Context (ns : gmap Z TxNode).
Hypothesis Hwf : ∀ i n, ns !! i = Some n → id n = i ∧ 1 ≤ i ∧ ∀ d, d ∈ dependencies n → d < i ∧ is_Some (ns !! d).
Hypothesis Hback : ∀ i m, ns !! i = Some m → ∀ j, j ∈ dependents m ↔ ∃ n, ns !! j = Some n ∧ i ∈ dependencies n.
Hypothesis Hsize : Z.of_nat (size ns) ≤ u64_max.

(** The degrees count the open dependencies, and the queue holds the nodes without any. *)
Record kahn_ok (R : gset Z) (deg : gmap Z Z) (queue : list Z) : Prop := {
  ko_sub : ∀ x, x ∈ R → is_Some (ns !! x);
  ko_closed : ∀ x n, x ∈ R → ns !! x = Some n → dependencies n ⊆ R;
  ko_degree : ∀ j n, ns !! j = Some n → deg !! j = Some (Z.of_nat (size (dependencies n ∖ R)));
  ko_nodup : NoDup queue;
  ko_queue : ∀ x, x ∈ queue ↔ x ∉ R ∧ ∃ n, ns !! x = Some n ∧ dependencies n ⊆ R
}.

Lemma deps_size j n R : ns !! j = Some n → Z.of_nat (size (dependencies n ∖ R)) ≤ u64_max.
Proof.
  intros Hn. assert (Hs : dependencies n ∖ R ⊆ dom ns) by (intros d [Hd _]%elem_of_difference; destruct (Hwf j n Hn) as (_ & _ & H); apply elem_of_dom; by apply H). apply subseteq_size in Hs. rewrite size_dom in Hs. lia.
Qed.

Lemma open_step x n R : x ∈ dependencies n → x ∉ R → Z.of_nat (size (dependencies n ∖ R)) = Z.of_nat (size (dependencies n ∖ ({[x]} ∪ R))) + 1.
Proof.
  intros Hx HR. assert (He : dependencies n ∖ R = {[x]} ∪ dependencies n ∖ ({[x]} ∪ R)) by (apply leibniz_equiv; intros y; destruct (decide (y = x)) as [->|]; set_solver). rewrite He at 1. rewrite size_union by set_solver. rewrite size_singleton. lia.
Qed.

Lemma kahn_step R deg x queue m : kahn_ok R deg (x :: queue) → ns !! x = Some m → ∃ deg' queue', foldl lower (deg, queue) (elements (dependents m)) = (deg', queue') ∧ kahn_ok ({[x]} ∪ R) deg' queue'.
Proof.
  intros [H1 H2 H3 H4 H5] Hm. destruct (H5 x) as [Hx _]. destruct Hx as (HxR & n0 & Hn0 & Hd0); [apply list_elem_of_here|]. assert (n0 = m) as -> by congruence. clear Hn0. apply list.NoDup_cons in H4 as [Hxq Hq].
  assert (Hdep : ∀ j, j ∈ elements (dependents m) ↔ ∃ n, ns !! j = Some n ∧ x ∈ dependencies n) by (intros j; rewrite elem_of_elements; by apply Hback).
  destruct (lower_fold (elements (dependents m)) deg queue) as (deg' & Hf & Hd); [apply NoDup_elements| |].
  { intros j (n & Hn & Hxn)%Hdep. eexists. split; [by apply H3|]. pose proof (deps_size j n R Hn). rewrite (open_step x n R) in * by done. lia. }
  exists deg'. eexists. split; [done|]. split.
  - intros y [Hy|Hy]%elem_of_union; [|by apply H1]. apply elem_of_singleton in Hy as ->. by eauto.
  - intros y n [Hy|Hy]%elem_of_union Hn; [apply elem_of_singleton in Hy as ->; assert (n = m) as -> by congruence; set_solver|]. pose proof (H2 y n Hy Hn). set_solver.
  - intros j n Hn. rewrite Hd. destruct (decide (j ∈ elements (dependents m))) as [Hj|Hj].
    + apply Hdep in Hj as (n' & Hn' & Hxn). assert (n' = n) as -> by congruence. rewrite (H3 j n Hn). cbn. f_equal. rewrite (open_step x n R) by done. lia.
    + rewrite (H3 j n Hn). f_equal. f_equal. f_equal. assert (x ∉ dependencies n) by (intros Hxn; apply Hj, Hdep; by exists n). set_solver.
  - apply list.NoDup_app. split_and!; [done| |apply list.NoDup_filter, NoDup_elements]. intros y Hy [_ Hy2]%list_elem_of_filter. apply Hdep in Hy2 as (n & Hn & Hxn). destruct (H5 y) as [Hin _]. destruct Hin as (_ & n' & Hn' & Hs); [by apply list_elem_of_further|]. assert (n' = n) as -> by congruence. set_solver.
  - intros y. rewrite elem_of_app, list_elem_of_filter, Hdep. split.
    + intros [Hy|[H1y (n & Hn & Hxn)]].
      * destruct (H5 y) as [Hin _]. destruct Hin as (HyR & n & Hn & Hs); [by apply list_elem_of_further|]. split; [|exists n; split; [done|set_solver]]. intros [He%elem_of_singleton|He]%elem_of_union; [subst y; exact (Hxq Hy)|exact (HyR He)].
      * rewrite (H3 y n Hn) in H1y. injection H1y as H1y. rewrite (open_step x n R) in H1y by done. assert (Hz : size (dependencies n ∖ ({[x]} ∪ R)) = 0%nat) by lia. apply size_empty_inv in Hz. split; [|exists n; split; [done|by apply sub_of_empty]].
        intros [->%elem_of_singleton|Hy]%elem_of_union; [destruct (Hwf x n Hn) as (_ & _ & H); specialize (H x Hxn); lia|]. pose proof (H2 y n Hy Hn). set_solver.
    + intros (HyR & n & Hn & Hs). destruct (decide (x ∈ dependencies n)) as [Hxn|Hxn].
      * right. split; [|by exists n]. rewrite (H3 y n Hn), (open_step x n R) by done. rewrite empty_of_sub by done. rewrite size_empty. done.
      * left. assert (Hy : y ∈ x :: queue) by (apply H5; split; [set_solver|]; exists n; split; [done|set_solver]). apply elem_of_cons in Hy as [->|Hy]; [set_solver|done].
Qed.

Lemma kahn_run f R deg queue : kahn_ok R deg queue → (size ns ≤ f + size R)%nat → ∃ r, kahn f ns deg queue = Some r ∧ NoDup r ∧ (∀ x, x ∈ r ↔ is_Some (ns !! x) ∧ x ∉ R) ∧
  ∀ x n d, x ∈ r → ns !! x = Some n → d ∈ dependencies n → d ∈ R ∨ [d; x] `sublist_of` r.
Proof.
  revert R deg queue. induction f as [|f IH]; intros R deg queue Hk Hf; destruct queue as [|x queue].
  1, 3: exists []; split_and!; [done|constructor| |by intros ? ? ? ?%not_elem_of_nil]; intros y; split; [by intros ?%not_elem_of_nil|]; intros [[n Hn] Hy]; exfalso.
  1, 2: clear -Hk Hn Hy Hwf; remember (Z.to_nat y) as k eqn:Hkk; revert y n Hn Hy Hkk; induction k as [k IHk] using lt_wf_ind; intros y n Hn Hy ->; destruct (decide (dependencies n ⊆ R)) as [Hd|Hd];
    [eapply not_elem_of_nil; apply (ko_queue _ _ _ Hk y); split; [done|]; by exists n|]; destruct (Hwf y n Hn) as (_ & Hpos & Hdep); destruct (set_choose_or_empty (dependencies n ∖ R)) as [[d [Hd1 Hd2]%elem_of_difference]|He]; [|destruct Hd; set_solver];
    destruct (Hdep d Hd1) as [Hlt [m Hm]]; apply (IHk (Z.to_nat d)) with (y := d) (n := m); [|done|done|done]; destruct (Hwf d m Hm) as (_ & ? & _); lia.
  - destruct (ko_queue _ _ _ Hk x) as [Hx _]. destruct Hx as (HxR & m & Hm & _); [apply list_elem_of_here|]. assert (Hs : {[x]} ∪ R ⊆ dom ns) by (intros y [->%elem_of_singleton|Hy]%elem_of_union; apply elem_of_dom; [by eauto|by apply (ko_sub _ _ _ Hk)]). apply subseteq_size in Hs. rewrite size_union, size_singleton, size_dom in Hs by set_solver. lia.
  - destruct (ko_queue _ _ _ Hk x) as [Hx _]. destruct Hx as (HxR & m & Hm & Hdx); [apply list_elem_of_here|]. destruct (kahn_step R deg x queue m Hk Hm) as (deg' & queue' & Hfold & Hk'). cbn [kahn]. rewrite Hm, Hfold.
    destruct (IH _ _ _ Hk') as (r & Hr & Hnd & Hin & Hord); [rewrite size_union, size_singleton by set_solver; lia|]. rewrite Hr. cbn [mbind option_bind]. exists (x :: r). split_and!; [done| | |].
    + constructor; [|done]. intros [_ Hxr]%Hin. set_solver.
    + intros y. rewrite elem_of_cons, Hin. destruct (decide (y = x)) as [->|]; [split; [by eauto|by left]|]. split; [intros [?|[? ?]]; [done|]; split; [done|set_solver]|]. intros [? ?]. right. split; [done|set_solver].
    + intros y n d [->|Hy]%elem_of_cons Hn Hd; [left; assert (n = m) as -> by congruence; set_solver|]. destruct (Hord y n d Hy Hn Hd) as [[->%elem_of_singleton|HR]%elem_of_union|Hs]; [|by left|right; by apply sublist_cons]. right. apply sublist_skip, singleton_sublist_l. done.
Qed.
End Kahn.

Lemma map_keeps_sublist {A B} (f : A → B) (l k : list A) : l `sublist_of` k → map f l `sublist_of` map f k.
Proof. induction 1; cbn; by constructor. Qed.

Lemma kahn_start ns : kahn_ok ns ∅ (dependency_count <$> ns) (map fst (filter (λ e, dependencies e.2 = ∅) (map_to_list ns))).
Proof.
  split.
  - set_solver.
  - set_solver.
  - intros j n Hn. rewrite lookup_fmap, Hn. cbn. unfold dependency_count. by rewrite difference_empty_L.
  - eapply sublist_NoDup; [apply (NoDup_fst_map_to_list ns)|]. apply map_keeps_sublist, sublist_filter.
  - intros x. rewrite list_elem_of_fmap. split.
    + intros ([y n] & -> & [Hd Hy]%list_elem_of_filter). apply elem_of_map_to_list in Hy. cbn in *. split; [apply not_elem_of_empty|]. exists n. by rewrite Hd.
    + intros (_ & n & Hn & Hd). exists (x, n). split; [done|]. apply list_elem_of_filter. split; [cbn; set_solver|]. by apply elem_of_map_to_list.
Qed.

Lemma perform_size g c : graph_ok g → id_counter g < u64_max → (size (nodes (perform g c)) ≤ S (size (nodes g)))%nat.
Proof.
  intros Hok Hc. destruct c as [t|i| |]; cbn [perform].
  - destruct (Z.leb_spec (max_transactions (config g)) (Z.of_nat (size (nodes g)))) as [Hfull|Hroom]; [unfold add_transaction; rewrite (proj2 (Z.leb_le _ _) Hfull); cbn; lia|].
    destruct (add_shape t g Hok Hroom Hc) as (n & _ & _ & _ & _ & _ & _ & -> & _). change (nodes (take_id g)) with (nodes g). rewrite map_size_insert, map_size_fmap. destruct ((linked n <$> nodes g) !! id n); cbn; lia.
  - unfold remove_transaction. destruct (nodes g !! i) eqn:Hi; cbn; [|lia]. rewrite map_size_fmap, map_size_delete, Hi. lia.
  - cbn [clear nodes]. rewrite map_size_empty. lia.
  - destruct (schedule g) as [[r g']|] eqn:Hs; [|lia]. apply schedule_keeps in Hs as (-> & _). lia.
Qed.

Lemma history_size c cs : Z.of_nat (length cs) < u64_max → (size (nodes (history c cs)) ≤ length cs)%nat.
Proof.
  induction cs as [|x cs IH] using rev_ind; intros Hlen; [done|]. rewrite length_app in *. cbn [length] in *. unfold history in *. rewrite foldl_app. cbn [foldl]. pose proof (history_ok c cs ltac:(lia)) as Hok. fold (history c cs) in *.
  assert (Hc : id_counter (history c cs) ≤ Z.of_nat (length cs)). { clear IH x Hok. assert (Hl : Z.of_nat (length cs) < u64_max) by lia. clear Hlen. induction cs as [|x cs IH] using rev_ind; [done|]. rewrite length_app in *. cbn [length] in *. unfold history. rewrite foldl_app. cbn [foldl]. fold (history c cs). specialize (IH ltac:(lia)). destruct (perform_ok (history c cs) x (history_ok c cs ltac:(lia))) as [_ H]; lia. }
  pose proof (perform_size (history c cs) x Hok ltac:(lia)). specialize (IH ltac:(lia)). lia.
Qed.

Lemma topological_ok g : graph_ok g → Z.of_nat (size (nodes g)) ≤ u64_max → ∃ r, topological_order g = Some (Ok r) ∧ NoDup r ∧ (∀ x, x ∈ r ↔ is_Some (nodes g !! x)) ∧
  ∀ i j m n, nodes g !! i = Some m → nodes g !! j = Some n → i < j → clash m n → [i; j] `sublist_of` r.
Proof.
  intros Hok Hs. unfold topological_order. destruct (kahn_run (nodes g) (graph_wf g Hok)) with (R := ∅ : gset Z) (f := size (nodes g)) (deg := dependency_count <$> nodes g) (queue := map fst (filter (λ e, dependencies e.2 = ∅) (map_to_list (nodes g)))) as (r & Hr & Hnd & Hin & Hord); [|done|apply kahn_start|lia|].
  - intros i m Hm j. rewrite (go_back g Hok i m Hm j). split.
    + intros (Hlt & n & Hn & Hc). exists n. split; [done|]. apply (go_deps g Hok j n Hn). split; [done|]. by exists m.
    + intros (n & Hn & Hi). apply (go_deps g Hok j n Hn) in Hi as (Hlt & m' & Hm' & Hc). split; [done|]. exists n. split; [done|]. by replace m with m' by congruence.
  - assert (Hin' : ∀ x, x ∈ r ↔ is_Some (nodes g !! x)) by (intros x; rewrite Hin; set_solver). rewrite Hr. cbn [mbind option_bind]. exists r. split; [|split_and!; [done|done|]].
    + assert (Hl : length r = size (nodes g)). { rewrite <- size_dom, <- (size_list_to_set (C := gset Z) r) by done. f_equal. apply leibniz_equiv. intros x. rewrite elem_of_list_to_set, Hin'. by rewrite elem_of_dom. } by rewrite (proj2 (Nat.ltb_ge _ _)) by lia.
    + intros i j m n Hi Hj Hlt Hc. destruct (Hord j n i) as [?%not_elem_of_empty|?]; [apply Hin'; by eauto|done| |done|done]. apply (go_deps g Hok j n Hj). split; [done|]. by exists m.
Qed.

(** The topological order after any history exists, no cycle is ever reported, and it lists every transaction once and transactions that touch a common account in the
    order of their submission. *)
Theorem topological_order_correct c cs : Z.of_nat (length cs) < u64_max →
  let g := history c cs in
  ∃ r, topological_order g = Some (Ok r) ∧ NoDup r ∧ (∀ x, x ∈ r ↔ is_Some (get_transaction g x)) ∧
    ∀ i j m n, nodes g !! i = Some m → nodes g !! j = Some n → i < j → clash m n → [i; j] `sublist_of` r.
Proof.
  intros Hlen g. pose proof (history_size c cs Hlen) as Hs. fold g in Hs. destruct (topological_ok g (history_ok c cs Hlen)) as (r & H1 & H2 & H3 & H4); [lia|]. exists r. split_and!; [done|done| |done]. intros x. unfold get_transaction. by rewrite H3, fmap_is_Some.
Qed.

Lemma concat_perm (bs : list ExecutionBatch) ls : Forall2 (λ b l, l ≡ₚ transactions b) bs ls → concat ls ≡ₚ concat (map transactions bs).
Proof. induction 1; cbn; [done|]. by apply Permutation_app. Qed.

Lemma sorted_before (l : list Z) i j : StronglySorted Z.lt l → [i; j] `sublist_of` l → i < j.
Proof.
  induction 1 as [|x l Hs IH Hx]; intros Hij; [by apply sublist_nil_r in Hij|]. apply sublist_cons_r in Hij as [Hij|(l' & Heq & Hij)]; [by apply IH|]. injection Heq as -> <-. apply singleton_sublist_l in Hij. rewrite list.Forall_forall in Hx. by apply Hx.
Qed.

(** C35. Parallel execution is serial execution.  For every effect of transactions that reads and writes only the accounts of sender and recipient, running the batches one after
    the other, each in any order, and running the topological order give the state that running the transactions in the order of their submission gives. *)
Theorem schedule_serializable {V} (run : SignedTransaction → gmap Address V → gmap Address V) c cs serial s :
  (∀ t s a, a ∉ accounts t → run t s !! a = s !! a) →
  (∀ t s s', (∀ a, a ∈ accounts t → s !! a = s' !! a) → ∀ a, a ∈ accounts t → run t s !! a = run t s' !! a) →
  Z.of_nat (length cs) < u64_max → let g := history c cs in
  StronglySorted Z.lt serial → (∀ x, x ∈ serial ↔ is_Some (get_transaction g x)) →
  ∃ bs g' r, schedule g = Some (bs, g') ∧ topological_order g = Some (Ok r) ∧
    (∀ ls, Forall2 (λ b l, l ≡ₚ transactions b) bs ls → execute run (nodes g) s (concat ls) = execute run (nodes g) s serial) ∧
    execute run (nodes g) s r = execute run (nodes g) s serial.
Proof.
  intros Hw Hr Hlen g Hsort Hser. pose proof (history_ok c cs Hlen) as Hok. fold g in Hok. pose proof (history_size c cs Hlen) as Hsz. fold g in Hsz. destruct (schedule_ok g Hok) as (bs & g' & Hs & H1 & H2 & H3 & _). destruct (topological_ok g Hok) as (r & Ht & T1 & T2 & T3); [lia|].
  assert (Hnd : NoDup serial). { clear -Hsort. induction Hsort as [|x l Hs IH Hx]; [constructor|]. constructor; [|done]. intros Hin. rewrite list.Forall_forall in Hx. specialize (Hx x Hin). lia. }
  assert (Hser' : ∀ x, x ∈ serial ↔ is_Some (nodes g !! x)) by (intros x; rewrite Hser; unfold get_transaction; by rewrite fmap_is_Some). exists bs, g', r. split_and!; [done|done| |].
  - intros ls Hls. pose proof (concat_perm bs ls Hls) as Hcp. symmetry. apply execute_reordered; [done|done|done| |].
    + apply NoDup_Permutation; [done|by rewrite Hcp|]. intros x. rewrite Hser', Hcp, H2. set_solver.
    + intros i j (m & n & Hi & Hj & Hc) Hb. apply (sorted_before serial) in Hb; [|done]. assert (Hin : j ∈ concat (map transactions bs)) by (apply H2; split; [by eauto|apply not_elem_of_empty]). apply concat_lookup in Hin as (q & l & Hq & Hl). apply list_lookup_fmap_Some in Hq as (bq & -> & Hq).
      assert (Hd : i ∈ dependencies n) by (apply (go_deps g Hok j n Hj); split; [done|]; by exists m). destruct (H3 q bq j n i Hq Hl Hj Hd) as [?%not_elem_of_empty|(p & bp & Hp & Hbp & Hi')]; [done|].
      destruct (Forall2_lookup_l _ _ _ _ _ Hls Hbp) as (lp & Hlp & Hpp). destruct (Forall2_lookup_l _ _ _ _ _ Hls Hq) as (lq & Hlq & Hpq). apply (before_in_concat ls p q lp lq); [done|done|done|by rewrite Hpp|by rewrite Hpq].
  - symmetry. apply execute_reordered; [done|done|done| |].
    + apply NoDup_Permutation; [done|done|]. intros x. by rewrite Hser', T2.
    + intros i j (m & n & Hi & Hj & Hc) Hb. apply (sorted_before serial) in Hb; [|done]. by apply (T3 i j m n).
Qed.


Module TxGraphDemo.
Definition payment (a b v : Z) : SignedTransaction := mkSigned (Transaction.new 0 Transfer a b v 0 21000 None [] 0) (a * 1000 + b) 100.
Definition calls : list Call := [CAdd (payment 1 2 50); CAdd (payment 3 4 7); CSchedule; CAdd (payment 2 3 30); CAdd (payment 8 9 1); CRemove 4].

Definition pay (t : SignedTransaction) (s : gmap Address Z) : gmap Address Z :=
  let a := from (transaction t) in let b := to (transaction t) in let v := amount (transaction t) in
  <[b := default 0 (s !! b) + v]> (<[a := default 0 (s !! a) - v]> s).

Lemma pay_writes t s a : a ∉ accounts t → pay t s !! a = s !! a.
Proof. unfold accounts, pay. intros Ha. rewrite !lookup_insert_ne by set_solver. done. Qed.

Lemma pay_reads t s s' : (∀ a, a ∈ accounts t → s !! a = s' !! a) → ∀ a, a ∈ accounts t → pay t s !! a = pay t s' !! a.
Proof.
  unfold accounts, pay. intros Hs a Ha. rewrite (Hs (to (transaction t))), (Hs (from (transaction t))) by set_solver. destruct (decide (a = to (transaction t))) as [->|Hne]; [by rewrite !lookup_insert_eq|]. rewrite !(lookup_insert_ne _ (to (transaction t))) by done.
  assert (a = from (transaction t)) as -> by set_solver. by rewrite !lookup_insert_eq.
Qed.

Lemma schedule_correct_witness : ∃ bs g', schedule (history default_config calls) = Some (bs, g') ∧ NoDup (concat (map transactions bs)) ∧ (3 ∈ concat (map transactions bs) ↔ is_Some (get_transaction (history default_config calls) 3)).
Proof. destruct (schedule_correct default_config calls) as (bs & g' & H1 & H2 & H3 & _); [vm_compute; reflexivity|]. exists bs, g'. split; [exact H1|split; [exact H2|exact (H3 3)]]. Defined.

Lemma topological_order_correct_witness : ∃ r, topological_order (history default_config calls) = Some (Ok r) ∧ NoDup r.
Proof. destruct (topological_order_correct default_config calls) as (r & H1 & H2 & _); [vm_compute; reflexivity|]. exists r. split; [exact H1|exact H2]. Defined.

Lemma schedule_serializable_witness : ∃ bs g' r, schedule (history default_config calls) = Some (bs, g') ∧ topological_order (history default_config calls) = Some (Ok r) ∧
  (∀ ls, Forall2 (λ b l, l ≡ₚ transactions b) bs ls → execute pay (nodes (history default_config calls)) ∅ (concat ls) = execute pay (nodes (history default_config calls)) ∅ [1; 2; 3]) ∧
  execute pay (nodes (history default_config calls)) ∅ r = execute pay (nodes (history default_config calls)) ∅ [1; 2; 3].
Proof.
  apply (schedule_serializable pay default_config calls [1; 2; 3] ∅); [exact pay_writes|exact pay_reads|vm_compute; reflexivity|repeat constructor|].
  assert (Hd : dom (nodes (history default_config calls)) = {[1; 2; 3]}) by (vm_compute; reflexivity).
  intros x. unfold get_transaction. rewrite fmap_is_Some, <- elem_of_dom, Hd. clear Hd. set_solver.
Defined.

(** The three payments form two batches. *)
Lemma demo_batches : (λ r, map transactions r.1) <$> schedule (history default_config calls) = Some [[2; 1]; [3]].
Proof. vm_compute. reflexivity. Qed.
End TxGraphDemo.
