(* ===== verification/Goldilocks.v ===== *)
(** * The field of the hash-based VRF

    [src/L1/src/crypto/vrf_hashbased.rs] and [src/L1/src/crypto/rescue_constants.rs] compute in Winterfell's [f64::BaseElement], documented as the prime
    field of order 2^64 - 2^32 + 1.  Its operations are those of the class [FieldElement] of [Air.v]; this file states the laws
    of a field of that order, derives what is needed of sums, powers and matrices, and builds an instance, for which it proves
    that the order is a prime number. *)

From Stdlib Require Import Znumtheory Zpow_facts Ring_theory.
From Stdlib Require Import Zmod.
From S2P Require Import Prelude Air.

Definition modulus : Z := 2 ^ 64 - 2 ^ 32 + 1.

(** ** The order is prime *)

Lemma prime_divisor n : 1 < n → ∃ q, Z.prime q ∧ (q | n) ∧ q ≤ n.
Proof.
  intros Hn. assert (H : ∀ k : nat, ∀ n, 1 < n → Z.to_nat n = k → ∃ q, Z.prime q ∧ (q | n) ∧ q ≤ n); [|by apply (H (Z.to_nat n))]. clear n Hn. induction k as [k IH] using lt_wf_ind. intros n Hn <-.
  destruct (prime_dec n) as [Hp|Hp]; [exists n; split_and!; [by apply prime_alt|done|lia]|]. destruct (not_prime_divide n Hn Hp) as (d & Hd & Hdn).
  destruct (IH (Z.to_nat d) ltac:(lia) d ltac:(lia) eq_refl) as (q & Hq & Hqd & Hle). exists q. split_and!; [done|by transitivity d|lia].
Qed.

Lemma small_prime_divisor n : 1 < n → ¬ Z.prime n → ∃ q, Z.prime q ∧ (q | n) ∧ q * q ≤ n.
Proof.
  intros Hn Hp. destruct (not_prime_divide n Hn) as (d & Hd & [c Hc]); [by rewrite <- prime_alt|]. assert (Hcpos : 1 < c) by nia. destruct (Z.le_ge_cases d c) as [Hle|Hle].
  - destruct (prime_divisor d ltac:(lia)) as (q & Hq & Hqd & Hqle). exists q. split_and!; [done|transitivity d; [done|by exists c]|]. pose proof (Z.prime_ge_2 q Hq). nia.
  - destruct (prime_divisor c Hcpos) as (q & Hq & Hqd & Hqle). exists q. split_and!; [done|transitivity c; [done|exists d; lia]|]. pose proof (Z.prime_ge_2 q Hq). nia.
Qed.

Lemma pow_gcd q (a : Zmod q) x y : Z.gcd (Zmod.unsigned a) q = 1 → Zmod.pow a x = Zmod.one → Zmod.pow a y = Zmod.one → Zmod.pow a (Z.gcd x y) = Zmod.one.
Proof.
  intros Hg Hx Hy. destruct (Z.gcd_bezout x y _ eq_refl) as (u & v & Huv). rewrite <- Huv, Zmod.pow_add_r_coprime by done. rewrite (Z.mul_comm u), (Z.mul_comm v), !Zmod.pow_mul_r_coprime by done. rewrite Hx, Hy, !Zmod.pow_1_l. apply Zmod.mul_1_l.
Qed.

Lemma power_minus_one m q h : 0 ≤ h → 1 < m → 1 < q → (q | m) → Zpow_mod 7 h m = m - 1 → Zmod.pow (Zmod.of_Z q 7) h = Zmod.opp Zmod.one.
Proof.
  intros Hh Hm Hq Hqm Hpow. rewrite <- Zmod.of_Z_pow by done. rewrite <- Zmod.of_Z_m1. apply Zmod.of_Z_inj. rewrite Zpow_mod_correct in Hpow by lia. assert (Hd : (m | 7 ^ h - -1)).
  { exists (7 ^ h / m + 1). pose proof (Z.div_mod (7 ^ h) m ltac:(lia)) as Hdm. rewrite Hpow in Hdm. lia. }
  assert (Hd' : (q | 7 ^ h - -1)) by (by transitivity m). destruct Hd' as [c Hc]. replace (7 ^ h) with (-1 + c * q) by lia. apply Z_mod_plus_full.
Qed.

(** Proth's criterion: a prime divisor below the square root has a group of units too small for an element whose power is minus one. *)
Lemma proth h n : 0 < n → 0 < h → 2 * h = 2 ^ n * (h / 2 ^ (n - 1)) → Z.odd (h / 2 ^ (n - 1)) = true → 1 < 2 * h + 1 < 2 ^ n * 2 ^ n → Zpow_mod 7 h (2 * h + 1) = 2 * h → Z.prime (2 * h + 1).
Proof.
  intros Hn Hh Hfac Hodd Hsz Hpow. destruct (prime_dec (2 * h + 1)) as [Hp|Hp]; [by apply prime_alt|exfalso]. destruct (small_prime_divisor (2 * h + 1)) as (q & Hq & Hqp & Hsq); [lia|by rewrite prime_alt|]. pose proof (Z.prime_ge_2 q Hq) as Hq2.
  assert (Hne2 : q ≠ 2) by (intros ->; destruct Hqp as [c Hc]; lia). set (a := Zmod.of_Z q 7).
  assert (Hhalf : Zmod.pow a h = Zmod.opp Zmod.one) by (apply (power_minus_one (2 * h + 1)); [lia|lia|lia|done|rewrite Hpow; lia]).
  assert (Hneg : @Zmod.opp q Zmod.one ≠ Zmod.one) by (intros He; apply (f_equal Zmod.unsigned) in He; rewrite <- Zmod.of_Z_m1, <- Zmod.of_Z_1, !Zmod.unsigned_of_Z in He; rewrite (Z.mod_small 1) in He by lia; replace (-1) with (q - 1 + (-1) * q) in He by lia; rewrite Z_mod_plus_full, Z.mod_small in He; lia).
  assert (Hnz : a ≠ Zmod.zero) by (intros Hz; rewrite Hz, Zmod.pow_0_l in Hhalf by lia; apply (f_equal Zmod.opp) in Hhalf; rewrite Zmod.opp_opp, Zmod.opp_0 in Hhalf; symmetry in Hhalf; revert Hhalf; apply (Zmod.one_neq_zero (m := q)); lia).
  pose proof (Zmod.fermat_nz a Hnz Hq) as Hfer. assert (Hcop : Z.gcd (Zmod.unsigned a) q = 1).
  { rewrite Z.gcd_comm. apply Z.coprime_prime_small; [done|]. pose proof (Zmod.unsigned_pos_bound a ltac:(lia)) as Hr. assert (Zmod.unsigned a ≠ 0); [|lia]. intros Hz. apply Hnz. apply Zmod.unsigned_inj. rewrite Zmod.unsigned_0. done. }
  assert (Hfull : Zmod.pow a (2 * h) = Zmod.one) by (rewrite Z.mul_comm, Zmod.pow_mul_r_coprime, Hhalf, Zmod.pow_2_r, Zmod.mul_opp_opp by done; apply Zmod.mul_1_l).
  pose proof (pow_gcd q a (2 * h) (Z.pred q) Hcop Hfull Hfer) as Hg. set (g := Z.gcd (2 * h) (Z.pred q)) in *. destruct (Z.gcd_divide_l (2 * h) (Z.pred q)) as [c Hc]. pose proof (Z.gcd_divide_r (2 * h) (Z.pred q)) as Hgq. fold g in Hc, Hgq.
  destruct (Z.Even_or_Odd c) as [[d Hd]|Hco].
  - apply Hneg. rewrite <- Hhalf. replace h with (g * d) by lia. rewrite Zmod.pow_mul_r_coprime, Hg by done. apply Zmod.pow_1_l.
  - assert (Hdiv : (2 ^ n | g)). { apply (Z.gauss _ c); [rewrite <- Hc, Hfac; apply Z.divide_factor_l|]. apply Z.coprime_pow_l; [lia|]. destruct Hco as [d Hd]. apply Z.bezout_1_gcd. exists (- d), 1. lia. }
    assert (Hle : 2 ^ n ≤ Z.pred q) by (apply Z.divide_pos_le; [lia|by transitivity g]). assert (0 < 2 ^ n) by (apply Z.pow_pos_nonneg; lia). nia.
Qed.

Lemma prime_modulus : Z.prime modulus.
Proof.
  assert (Hh : 2 * ((modulus - 1) / 2) + 1 = modulus) by (vm_compute; reflexivity). rewrite <- Hh. apply (proth _ 32); try (vm_compute; done).
Qed.

(** ** The laws *)

Definition order : positive := 18446744069414584321.

(** Integer exponents; [exp] is [fexp]. *)
Definition fexp `{FieldElement E} (x : E) (n : positive) : E := pow_pos fmul x n.

(** The field has [order] elements; [from_u64] is the residue of an integer. *)
Class GoldilocksField (E : Type) `{FieldElement E} : Prop := {
  gf_ring : ring_theory fzero fone fadd fmul fsub (fsub fzero) (@eq E);
  gf_zero : from_u64 (E:=E) 0 = fzero;
  gf_one : from_u64 (E:=E) 1 = fone;
  gf_reduce n : from_u64 (E:=E) (n mod modulus) = from_u64 n;
  gf_add a b : from_u64 (E:=E) (a + b) = fadd (from_u64 a) (from_u64 b);
  gf_mul a b : from_u64 (E:=E) (a * b) = fmul (from_u64 a) (from_u64 b);
  gf_fermat (x : E) : fexp x order = x;
  gf_as_int (x : E) : 0 ≤ as_int x < modulus ∧ from_u64 (as_int x) = x
}.

Section Goldilocks.
Context `{GoldilocksField E}.
Add Ring goldilocks_ring : gf_ring.

Lemma fexp_add (x : E) a b : fexp x (a + b) = fmul (fexp x a) (fexp x b).
Proof. apply (pow_pos_add (eq_equivalence) (Eq_ext fadd fmul (fsub fzero)).(Ring_theory.Rmul_ext)). intros. ring. Qed.

Lemma fexp_mul (x : E) a b : fexp (fexp x a) b = fexp x (a * b).
Proof.
  induction b as [|b IH] using Pos.peano_ind; [by rewrite Pos.mul_1_r|]. rewrite <- Pos.add_1_r, fexp_add, IH, Pos.mul_add_distr_l, Pos.mul_1_r, fexp_add. done.
Qed.

(** The exponents of the power map and of its inverse. *)
Definition ALPHA : positive := 7.
Definition INV_ALPHA : positive := 10540996611094048183.

Lemma fexp_cycle (x : E) n : fexp x (n + (order - 1))%positive = fexp x n.
Proof.
  destruct (Pos.eq_dec n 1%positive) as [->|Hn]; [change (1 + (order - 1))%positive with order; apply gf_fermat|].
  replace n with (Pos.pred n + 1)%positive at 1 by lia. rewrite <- Pos.add_assoc. change (1 + (order - 1))%positive with order. rewrite fexp_add, gf_fermat.
  replace n with (Pos.pred n + 1)%positive at 2 by lia. by rewrite fexp_add.
Qed.

Lemma alpha_inverse (x : E) : fexp (fexp x INV_ALPHA) ALPHA = x ∧ fexp (fexp x ALPHA) INV_ALPHA = x.
Proof.
  rewrite !fexp_mul. change (INV_ALPHA * ALPHA)%positive with (1 + (order - 1) + (order - 1) + (order - 1) + (order - 1))%positive. change (ALPHA * INV_ALPHA)%positive with (1 + (order - 1) + (order - 1) + (order - 1) + (order - 1))%positive.
  rewrite !fexp_cycle. done.
Qed.

(** ** Sums and matrices *)

(** [for j in 0..n { acc += f(j) }] *)
Definition fsum (n : nat) (f : nat → E) : E := foldl (λ acc j, fadd acc (f j)) fzero (seq 0 n).

Lemma fsum_S n f : fsum (S n) f = fadd (fsum n f) (f n).
Proof. unfold fsum. rewrite seq_S, foldl_app. done. Qed.

Lemma fsum_ext n f g : (∀ j, (j < n)%nat → f j = g j) → fsum n f = fsum n g.
Proof. induction n as [|n IH]; intros Hfg; [done|]. rewrite !fsum_S, IH by (intros; apply Hfg; lia). by rewrite Hfg by lia. Qed.

Lemma fsum_mul n c f : fmul c (fsum n f) = fsum n (λ j, fmul c (f j)).
Proof. induction n as [|n IH]; [unfold fsum; cbn; ring|]. rewrite !fsum_S, <- IH. ring. Qed.

Lemma fsum_add n f g : fsum n (λ j, fadd (f j) (g j)) = fadd (fsum n f) (fsum n g).
Proof. induction n as [|n IH]; [unfold fsum; cbn; ring|]. rewrite !fsum_S, IH. ring. Qed.

Lemma fsum_zero n : fsum n (λ _, fzero) = fzero.
Proof. induction n as [|n IH]; [done|]. rewrite fsum_S, IH. ring. Qed.

Lemma fsum_swap n m (f : nat → nat → E) : fsum n (λ j, fsum m (f j)) = fsum m (λ k, fsum n (λ j, f j k)).
Proof.
  induction n as [|n IH]; [symmetry; apply fsum_zero|].
  rewrite fsum_S, IH. rewrite <- fsum_add. apply fsum_ext. intros k _. by rewrite fsum_S.
Qed.

Lemma fsum_delta n i f : (i < n)%nat → fsum n (λ k, fmul (if (i =? k)%nat then fone else fzero) (f k)) = f i.
Proof.
  intros Hi. assert (Hz : ∀ m, (m ≤ i)%nat → fsum m (λ k, fmul (if (i =? k)%nat then fone else fzero) (f k)) = fzero).
  { induction m as [|m IH]; intros Hm; [done|]. rewrite fsum_S, IH by lia. rewrite (proj2 (Nat.eqb_neq i m)) by lia. ring. }
  induction n as [|n IH]; [lia|]. rewrite fsum_S. destruct (decide (i = n)) as [->|Hne]; [rewrite Hz by lia; rewrite Nat.eqb_refl; ring|]. rewrite IH by lia. rewrite (proj2 (Nat.eqb_neq i n)) by lia. ring.
Qed.

Lemma from_u64_fsum n (a : nat → Z) : fsum n (λ j, from_u64 (a j)) = from_u64 (foldl (λ acc j, acc + a j) 0 (seq 0 n)).
Proof. induction n as [|n IH]; [by rewrite gf_zero|]. rewrite fsum_S, IH, <- gf_add. by rewrite seq_S, foldl_app. Qed.

(** An entry of a matrix of constants. *)
Definition entry (m : list (list Z)) (i j : nat) : Z := default 0 (default [] (m !! i) !! j).
Definition coeff (m : list (list Z)) (i j : nat) : E := from_u64 (entry m i j).

Definition inverse_matrices (n : nat) (a b : list (list Z)) : bool :=
  forallb (λ i, forallb (λ k, foldl (λ acc j, acc + entry a i j * entry b j k) 0 (seq 0 n) mod modulus =? (if (i =? k)%nat then 1 else 0)) (seq 0 n)) (seq 0 n).

Lemma inverse_matrices_apply n a b (v : nat → E) i : inverse_matrices n a b = true → (i < n)%nat → fsum n (λ j, fmul (coeff a i j) (fsum n (λ k, fmul (coeff b j k) (v k)))) = v i.
Proof.
  intros Hab Hi. erewrite fsum_ext; [|intros j _; apply fsum_mul]. rewrite fsum_swap. rewrite <- (fsum_delta n i v Hi). apply fsum_ext. intros k Hk.
  assert (He : fsum n (λ j, fmul (coeff a i j) (coeff b j k)) = if (i =? k)%nat then fone else fzero).
  { erewrite (fsum_ext n _ (λ j, from_u64 (entry a i j * entry b j k))) by (intros; by rewrite gf_mul). rewrite from_u64_fsum, <- gf_reduce. unfold inverse_matrices in Hab. rewrite forallb_forall in Hab. specialize (Hab i (proj2 (in_seq n 0 i) ltac:(lia))).
    rewrite forallb_forall in Hab. specialize (Hab k (proj2 (in_seq n 0 k) ltac:(lia))). apply Z.eqb_eq in Hab. rewrite Hab. destruct (i =? k)%nat; [apply gf_one|apply gf_zero]. }
  rewrite <- He. rewrite (fsum_ext n (λ j, fmul (coeff a i j) (fmul (coeff b j k) (v k))) (λ j, fmul (v k) (fmul (coeff a i j) (coeff b j k)))) by (intros; ring). rewrite <- fsum_mul. ring.
Qed.
End Goldilocks.

(** ** The instance *)

#[export] Instance Goldilocks_elements : FieldElement (Zmod modulus) := {
  fzero := Zmod.zero;
  fone := Zmod.one;
  fadd := Zmod.add;
  fsub := Zmod.sub;
  fmul := Zmod.mul;
  from_u64 := Zmod.of_Z modulus;
  as_int := Zmod.unsigned
}.

Lemma pow_pos_zmod m (x : Zmod m) n : pow_pos Zmod.mul x n = Zmod.pow x (Zpos n).
Proof.
  induction n as [|n IH] using Pos.peano_ind; [by rewrite Zmod.pow_1_r|]. rewrite (pow_pos_succ (eq_equivalence) (Eq_ext Zmod.add Zmod.mul Zmod.opp).(Ring_theory.Rmul_ext)) by (intros; apply Zmod.mul_assoc).
  rewrite IH, Pos2Z.inj_succ, Zmod.pow_succ_nonneg_r by lia. done.
Qed.

#[export] Instance Goldilocks_field : GoldilocksField (Zmod modulus).
Proof.
  split; cbn [fzero fone fadd fsub fmul from_u64 as_int Goldilocks_elements].
  - destruct (Zmod.ring_theory modulus) as [H1 H2 H3 H4 H5 H6 H7 H8 H9]. split; [exact H1|exact H2|exact H3|exact H4|exact H5|exact H6|exact H7| |].
    + intros x y. rewrite Zmod.sub_0_l. apply H8.
    + intros x. rewrite Zmod.sub_0_l. apply H9.
  - apply Zmod.of_Z_0.
  - apply Zmod.of_Z_1.
  - intros n. apply Zmod.of_Z_mod.
  - intros a b. apply Zmod.of_Z_add.
  - intros a b. apply Zmod.of_Z_mul.
  - intros x. unfold fexp. cbn [fmul]. rewrite pow_pos_zmod. change (Zpos order) with modulus. apply Zmod.fermat, prime_modulus.
  - intros x. cbn [as_int]. split; [by apply Zmod.unsigned_pos_bound|]. apply Zmod.of_Z_unsigned.
Qed.
