(* ===== verification/Vrf.v ===== *)
(** * The hash-based verifiable random function

    Models [src/L1/src/crypto/vrf_hashbased.rs] and the tables of [src/L1/src/crypto/rescue_constants.rs]: keys, the Rescue-Prime rounds, the execution
    trace and the algebraic constraints of the proof of evaluation.

    The field is an instance of [GoldilocksField].  The hash [Rp64_256] of winter-crypto and Winterfell's prover, verifier and proof encoding are
    arguments; byte strings are lists of bytes, a table is the list of its 28-element rows. *)

From S2P Require Import Prelude Bytes Air Goldilocks.

(** ** Tables *)

Definition MDS : list (list Z) :=
  [[7; 23; 8; 26; 13; 10; 9; 7; 6; 22; 21; 8];
   [8; 7; 23; 8; 26; 13; 10; 9; 7; 6; 22; 21];
   [21; 8; 7; 23; 8; 26; 13; 10; 9; 7; 6; 22];
   [22; 21; 8; 7; 23; 8; 26; 13; 10; 9; 7; 6];
   [6; 22; 21; 8; 7; 23; 8; 26; 13; 10; 9; 7];
   [7; 6; 22; 21; 8; 7; 23; 8; 26; 13; 10; 9];
   [9; 7; 6; 22; 21; 8; 7; 23; 8; 26; 13; 10];
   [10; 9; 7; 6; 22; 21; 8; 7; 23; 8; 26; 13];
   [13; 10; 9; 7; 6; 22; 21; 8; 7; 23; 8; 26];
   [26; 13; 10; 9; 7; 6; 22; 21; 8; 7; 23; 8];
   [8; 26; 13; 10; 9; 7; 6; 22; 21; 8; 7; 23];
   [23; 8; 26; 13; 10; 9; 7; 6; 22; 21; 8; 7]].

Definition INV_MDS : list (list Z) :=
  [[14868391535953158196; 13278298489594233127; 389999932707070822; 9782021734907796003; 4829905704463175582; 7567822018949214430; 14205019324568680367; 15489674211196160593; 17636013826542227504; 16254215311946436093; 3641486184877122796; 11069068059762973582];
   [11069068059762973582; 14868391535953158196; 13278298489594233127; 389999932707070822; 9782021734907796003; 4829905704463175582; 7567822018949214430; 14205019324568680367; 15489674211196160593; 17636013826542227504; 16254215311946436093; 3641486184877122796];
   [3641486184877122796; 11069068059762973582; 14868391535953158196; 13278298489594233127; 389999932707070822; 9782021734907796003; 4829905704463175582; 7567822018949214430; 14205019324568680367; 15489674211196160593; 17636013826542227504; 16254215311946436093];
   [16254215311946436093; 3641486184877122796; 11069068059762973582; 14868391535953158196; 13278298489594233127; 389999932707070822; 9782021734907796003; 4829905704463175582; 7567822018949214430; 14205019324568680367; 15489674211196160593; 17636013826542227504];
   [17636013826542227504; 16254215311946436093; 3641486184877122796; 11069068059762973582; 14868391535953158196; 13278298489594233127; 389999932707070822; 9782021734907796003; 4829905704463175582; 7567822018949214430; 14205019324568680367; 15489674211196160593];
   [15489674211196160593; 17636013826542227504; 16254215311946436093; 3641486184877122796; 11069068059762973582; 14868391535953158196; 13278298489594233127; 389999932707070822; 9782021734907796003; 4829905704463175582; 7567822018949214430; 14205019324568680367];
   [14205019324568680367; 15489674211196160593; 17636013826542227504; 16254215311946436093; 3641486184877122796; 11069068059762973582; 14868391535953158196; 13278298489594233127; 389999932707070822; 9782021734907796003; 4829905704463175582; 7567822018949214430];
   [7567822018949214430; 14205019324568680367; 15489674211196160593; 17636013826542227504; 16254215311946436093; 3641486184877122796; 11069068059762973582; 14868391535953158196; 13278298489594233127; 389999932707070822; 9782021734907796003; 4829905704463175582];
   [4829905704463175582; 7567822018949214430; 14205019324568680367; 15489674211196160593; 17636013826542227504; 16254215311946436093; 3641486184877122796; 11069068059762973582; 14868391535953158196; 13278298489594233127; 389999932707070822; 9782021734907796003];
   [9782021734907796003; 4829905704463175582; 7567822018949214430; 14205019324568680367; 15489674211196160593; 17636013826542227504; 16254215311946436093; 3641486184877122796; 11069068059762973582; 14868391535953158196; 13278298489594233127; 389999932707070822];
   [389999932707070822; 9782021734907796003; 4829905704463175582; 7567822018949214430; 14205019324568680367; 15489674211196160593; 17636013826542227504; 16254215311946436093; 3641486184877122796; 11069068059762973582; 14868391535953158196; 13278298489594233127];
   [13278298489594233127; 389999932707070822; 9782021734907796003; 4829905704463175582; 7567822018949214430; 14205019324568680367; 15489674211196160593; 17636013826542227504; 16254215311946436093; 3641486184877122796; 11069068059762973582; 14868391535953158196]].

Definition ARK1 : list (list Z) :=
  [[13917550007135091859; 16002276252647722320; 4729924423368391595; 10059693067827680263; 9804807372516189948; 15666751576116384237; 10150587679474953119; 13627942357577414247; 2323786301545403792; 615170742765998613; 8870655212817778103; 10534167191270683080];
   [14572151513649018290; 9445470642301863087; 6565801926598404534; 12667566692985038975; 7193782419267459720; 11874811971940314298; 17906868010477466257; 1237247437760523561; 6829882458376718831; 2140011966759485221; 1624379354686052121; 50954653459374206];
   [16288075653722020941; 13294924199301620952; 13370596140726871456; 611533288599636281; 12865221627554828747; 12269498015480242943; 8230863118714645896; 13466591048726906480; 10176988631229240256; 14951460136371189405; 5882405912332577353; 18125144098115032453];
   [6076976409066920174; 7466617867456719866; 5509452692963105675; 14692460717212261752; 12980373618703329746; 1361187191725412610; 6093955025012408881; 5110883082899748359; 8578179704817414083; 9311749071195681469; 16965242536774914613; 5747454353875601040];
   [13684212076160345083; 19445754899749561; 16618768069125744845; 278225951958825090; 4997246680116830377; 782614868534172852; 16423767594935000044; 9990984633405879434; 16757120847103156641; 2103861168279461168; 16018697163142305052; 6479823382130993799];
   [13957683526597936825; 9702819874074407511; 18357323897135139931; 3029452444431245019; 1809322684009991117; 12459356450895788575; 11985094908667810946; 12868806590346066108; 7872185587893926881; 10694372443883124306; 8644995046789277522; 1422920069067375692];
   [17619517835351328008; 6173683530634627901; 15061027706054897896; 4503753322633415655; 11538516425871008333; 12777459872202073891; 17842814708228807409; 13441695826912633916; 5950710620243434509; 17040450522225825296; 8787650312632423701; 7431110942091427450]].

Definition ARK2 : list (list Z) :=
  [[7989257206380839449; 8639509123020237648; 6488561830509603695; 5519169995467998761; 2972173318556248829; 14899875358187389787; 14160104549881494022; 5969738169680657501; 5116050734813646528; 12120002089437618419; 17404470791907152876; 2718166276419445724];
   [2485377440770793394; 14358936485713564605; 3327012975585973824; 6001912612374303716; 17419159457659073951; 11810720562576658327; 14802512641816370470; 751963320628219432; 9410455736958787393; 16405548341306967018; 6867376949398252373; 13982182448213113532];
   [10436926105997283389; 13237521312283579132; 668335841375552722; 2385521647573044240; 3874694023045931809; 12952434030222726182; 1972984540857058687; 14000313505684510403; 976377933822676506; 8407002393718726702; 338785660775650958; 4208211193539481671];
   [2284392243703840734; 4500504737691218932; 3976085877224857941; 2603294837319327956; 5760259105023371034; 2911579958858769248; 18415938932239013434; 7063156700464743997; 16626114991069403630; 163485390956217960; 11596043559919659130; 2976841507452846995];
   [15090073748392700862; 3496786927732034743; 8646735362535504000; 2460088694130347125; 3944675034557577794; 14781700518249159275; 2857749437648203959; 8505429584078195973; 18008150643764164736; 720176627102578275; 7038653538629322181; 8849746187975356582];
   [17427790390280348710; 1159544160012040055; 17946663256456930598; 6338793524502945410; 17715539080731926288; 4208940652334891422; 12386490721239135719; 10010817080957769535; 5566101162185411405; 12520146553271266365; 4972547404153988943; 5597076522138709717];
   [18338863478027005376; 115128380230345639; 4427489889653730058; 10890727269603281956; 7094492770210294530; 7345573238864544283; 6834103517673002336; 14002814950696095900; 15939230865809555943; 12717309295554119359; 4130723396860574906; 7706153020203677238]].

Definition STARK_PROVES_UNIQUENESS : bool := true.
Definition VALIDATOR_ACTIVATION_DELAY_EPOCHS : Z := 2.
Definition VRF_SK_SIZE : nat := 32.
Definition STATE_WIDTH : nat := 12.
Definition NUM_ROUNDS : nat := 7.
Definition PK_STATE_START : nat := 0.
Definition SK_START : nat := 12.
Definition BETA_STATE_START : nat := 16.
Definition VRF_TRACE_WIDTH : nat := 28.
Definition VRF_TRACE_LENGTH : nat := 16.
Definition PERIODIC_ARK1_START : nat := 0.
Definition PERIODIC_ARK2_START : nat := 12.
Definition PERIODIC_IS_FIRST : nat := 24.
Definition PERIODIC_IS_SECOND : nat := 25.
Definition PERIODIC_IS_PADDING : nat := 26.

(** ** Data *)

Record HashVrfKeypair : Type := mkVrfKeypair { secret_key : list Z; public_key : list Z }.

Record VrfPublicInputs : Type := mkVrfInputs { p_public_key : list Z; p_input : list Z; p_beta : list Z }.

Record VrfStarkProof : Type := mkVrfProof { beta : list Z; stark_bytes : list Z }.

Inductive CryptoError : Type := HashError (e : string).

(** [pad_to_32]: the first 32 bytes, with zeros after a shorter input. *)
Definition pad_to_32 (input : list Z) : list Z := take 32 input ++ replicate (32 - length input)%nat 0.

(** [chunks(8)] *)
Fixpoint chunks8 (fuel : nat) (bytes : list Z) : list (list Z) :=
  match fuel, bytes with
  | S f, _ :: _ => take 8 bytes :: chunks8 f (drop 8 bytes)
  | _, _ => []
  end.

Section Vrf.
Context `{FieldElement E}.

(** A short chunk is filled up with zeros, which does not change its value. *)
Definition bytes_to_elements (bytes : list Z) : list E := map (λ c, from_u64 (of_le_bytes c)) (chunks8 (length bytes) bytes).

Definition elements_to_bytes (elems : list E) : list Z :=
  let b := concat (map (λ e, le_bytes 8 (as_int e)) (take 4 elems)) in b ++ replicate (32 - length b)%nat 0.

Definition to_elements (p : VrfPublicInputs) : list E :=
  bytes_to_elements (p_public_key p) ++ bytes_to_elements (pad_to_32 (p_input p)) ++ bytes_to_elements (p_beta p).

(** ** Rescue-Prime rounds *)

Definition elem (l : list E) (i : nat) : E := default fzero (l !! i).

(** Both halves of a round: a power map, the matrix and the constants. *)
Definition half_round (e : positive) (ark : list (list Z)) (round : nat) (state : list E) : list E :=
  map (λ i, fadd (fsum STATE_WIDTH (λ j, fmul (coeff MDS i j) (fexp (elem state j) e))) (coeff ark round i)) (seq 0 STATE_WIDTH).

Definition initial_state (len : Z) (absorbed : list E) : list E :=
  [from_u64 len; fzero; fzero; fzero] ++ absorbed ++ replicate (8 - length absorbed)%nat fzero.

Definition make_row (pk sk bt : list E) : list E := pk ++ sk ++ bt.

(** The states after each half round. *)
Fixpoint round_states (rounds : list nat) (state : list E) : list (list E) :=
  match rounds with
  | [] => []
  | r :: rounds' =>
      let s1 := half_round ALPHA ARK1 r state in
      let s2 := half_round INV_ALPHA ARK2 r s1 in
      s1 :: s2 :: round_states rounds' s2
  end.

Definition build_vrf_trace (sk input : list Z) : list (list E) :=
  let sk_elems := bytes_to_elements sk in
  let input_elems := bytes_to_elements (pad_to_32 input) in
  let pk_state := initial_state 4 (take 4 sk_elems) in
  let beta_state := initial_state 8 (take 4 sk_elems ++ take 4 input_elems) in
  let pk_states := pk_state :: round_states (seq 0 NUM_ROUNDS) pk_state in
  let beta_states := beta_state :: round_states (seq 0 NUM_ROUNDS) beta_state in
  let rows := zip_with (λ p b, make_row p sk_elems b) pk_states beta_states in
  rows ++ match list.last rows with Some r => [r] | None => [] end.

(** ** The constraints *)

Record HashVrfAir : Type := mkAir { pk_elements : list E; beta_elements : list E }.

Definition new_air (p : VrfPublicInputs) : HashVrfAir := mkAir (take 4 (bytes_to_elements (p_public_key p))) (take 4 (bytes_to_elements (p_beta p))).

(** Degree and cycles of each constraint. *)
Definition vrf_degrees : list (nat * list nat) := replicate 4 (1%nat, []) ++ replicate (2 * STATE_WIDTH) (7%nat, [VRF_TRACE_LENGTH]).

Definition is_round_row (row : nat) (parity : nat) : bool := (row <? 2 * NUM_ROUNDS)%nat && (row mod 2 =? parity)%nat.

Definition get_periodic_column_values : list (list E) :=
  map (λ i, map (λ row, if is_round_row row 0 then coeff ARK1 (row / 2) i else fzero) (seq 0 VRF_TRACE_LENGTH)) (seq 0 STATE_WIDTH) ++
  map (λ i, map (λ row, if is_round_row row 1 then coeff ARK2 (row / 2) i else fzero) (seq 0 VRF_TRACE_LENGTH)) (seq 0 STATE_WIDTH) ++
  [map (λ row, if is_round_row row 0 then fone else fzero) (seq 0 VRF_TRACE_LENGTH);
   map (λ row, if is_round_row row 1 then fone else fzero) (seq 0 VRF_TRACE_LENGTH);
   map (λ row, if (2 * NUM_ROUNDS <=? row)%nat then fone else fzero) (seq 0 VRF_TRACE_LENGTH)].

Definition state_constraint (cur nxt periodic : list E) (start i : nat) : E :=
  let forward := fsum STATE_WIDTH (λ j, fmul (coeff MDS i j) (fexp (elem cur (start + j)) ALPHA)) in
  let forward_expected := fadd forward (elem periodic (PERIODIC_ARK1_START + i)) in
  let inverse_input := fsum STATE_WIDTH (λ j, fmul (coeff INV_MDS i j) (fsub (elem nxt (start + j)) (elem periodic (PERIODIC_ARK2_START + j)))) in
  let inverse_expected := fsub (fexp inverse_input ALPHA) (elem cur (start + i)) in
  let forward_constraint := fsub (elem nxt (start + i)) forward_expected in
  fadd (fadd (fmul (elem periodic PERIODIC_IS_FIRST) forward_constraint) (fmul (elem periodic PERIODIC_IS_SECOND) inverse_expected))
    (fmul (elem periodic PERIODIC_IS_PADDING) (fsub (elem nxt (start + i)) (elem cur (start + i)))).

Definition evaluate_transition (cur nxt periodic : list E) : list E :=
  map (λ i, fsub (elem nxt (STATE_WIDTH + i)) (elem cur (STATE_WIDTH + i))) (seq 0 4) ++
  concat (map (λ start, map (state_constraint cur nxt periodic start) (seq 0 STATE_WIDTH)) [PK_STATE_START; BETA_STATE_START]).

Definition get_assertions (air : HashVrfAir) : list (Assertion E) :=
  concat (map (λ i, [single (PK_STATE_START + 4 + i) (VRF_TRACE_LENGTH - 1) (elem (pk_elements air) i);
                     single (BETA_STATE_START + 4 + i) (VRF_TRACE_LENGTH - 1) (elem (beta_elements air) i)]) (seq 0 4)).

(** What a proof attests: a table exists on which every constraint vanishes between all consecutive rows and every assertion holds. *)
Definition periodic_row (row : nat) : list E := map (λ col, elem col row) get_periodic_column_values.

Definition vrf_air_holds (air : HashVrfAir) (table : list (list E)) : Prop :=
  length table = VRF_TRACE_LENGTH ∧ Forall (λ row, length row = VRF_TRACE_WIDTH) table ∧
  (∀ r cur nxt, table !! r = Some cur → table !! S r = Some nxt → Forall (λ v, v = fzero) (evaluate_transition cur nxt (periodic_row r))) ∧
  Forall (λ a, elem (default [] (table !! a_step a)) (a_column a) = a_value a) (get_assertions air).

(** ** Keys, proofs and verification *)

Section Winterfell.
Context (hash_elements : list E → list E).
Context {P : Type} (prove_table : VrfPublicInputs → list (list E) → Result P string) (verify_proof : P → VrfPublicInputs → bool).
Context (to_bytes : P → list Z) (from_bytes : list Z → Result P string).

Definition hash_sk (sk : list Z) : list Z := elements_to_bytes (hash_elements (bytes_to_elements sk)).

(** [generate], with the random bytes. *)
Definition generate (random : list Z) : HashVrfKeypair := mkVrfKeypair random (hash_sk random).

Definition evaluate (kp : HashVrfKeypair) (input : list Z) : list Z :=
  elements_to_bytes (hash_elements (bytes_to_elements (secret_key kp ++ pad_to_32 input))).

Definition prove (kp : HashVrfKeypair) (input : list Z) : Result VrfStarkProof CryptoError :=
  let b := evaluate kp input in
  let pub_inputs := mkVrfInputs (public_key kp) input b in
  match prove_table pub_inputs (build_vrf_trace (secret_key kp) input) with
  | Ok p => Ok (mkVrfProof b (to_bytes p))
  | Err e => Err (HashError (String.append "VRF prove: " e))
  end.

Definition verify (kp : HashVrfKeypair) (input : list Z) (proof : VrfStarkProof) : Result bool CryptoError :=
  match from_bytes (stark_bytes proof) with
  | Err e => Err (HashError (String.append "VRF deserialize: " e))
  | Ok p => Ok (verify_proof p (mkVrfInputs (public_key kp) input (beta proof)))
  end.
End Winterfell.
End Vrf.
Arguments HashVrfAir E : clear implicits.

Definition derive_epoch_input (sha3 : list Z → list Z) (prev_beacon : list Z) (epoch : Z) : list Z := sha3 (prev_beacon ++ le_bytes 8 epoch).

(** ** Linked states *)

Lemma mds_inverse : inverse_matrices STATE_WIDTH MDS INV_MDS = true ∧ inverse_matrices STATE_WIDTH INV_MDS MDS = true.
Proof. split; vm_compute; reflexivity. Qed.

Section Links.
Context `{GoldilocksField E}.
Add Ring vrf_ring : gf_ring.

(** The states of two consecutive rows, as the constraints relate them. *)
Definition linked_states (row : nat) (s s' : list E) : Prop :=
  if is_round_row row 0 then ∀ i, (i < STATE_WIDTH)%nat → elem s' i = fadd (fsum STATE_WIDTH (λ j, fmul (coeff MDS i j) (fexp (elem s j) ALPHA))) (coeff ARK1 (row / 2) i)
  else if is_round_row row 1 then ∀ i, (i < STATE_WIDTH)%nat → fexp (fsum STATE_WIDTH (λ j, fmul (coeff INV_MDS i j) (fsub (elem s' j) (coeff ARK2 (row / 2) j)))) ALPHA = elem s i
  else ∀ i, (i < STATE_WIDTH)%nat → elem s' i = elem s i.

Lemma elem_map (f : nat → E) n i : (i < n)%nat → elem (map f (seq 0 n)) i = f i.
Proof. intros Hi. unfold elem. rewrite list_lookup_fmap, lookup_seq_lt by done. done. Qed.

Lemma half_round_elem e ark r (s : list E) i : (i < STATE_WIDTH)%nat → elem (half_round e ark r s) i = fadd (fsum STATE_WIDTH (λ j, fmul (coeff MDS i j) (fexp (elem s j) e))) (coeff ark r i).
Proof. apply elem_map. Qed.

(** The rounds of the trace builder link states. *)
Lemma first_linked r s : is_round_row r 0 = true → linked_states r s (half_round ALPHA ARK1 (r / 2) s).
Proof. intros Hr. unfold linked_states. rewrite Hr. intros i Hi. by rewrite half_round_elem. Qed.

Lemma second_linked r s : is_round_row r 1 = true → linked_states r s (half_round INV_ALPHA ARK2 (r / 2) s).
Proof.
  intros Hr. assert (Hr0 : is_round_row r 0 = false) by (unfold is_round_row in *; apply andb_true_iff in Hr as [-> Hm]; apply Nat.eqb_eq in Hm; rewrite Hm; done). unfold linked_states. rewrite Hr0, Hr. intros i Hi.
  rewrite (fsum_ext _ _ (λ j, fmul (coeff INV_MDS i j) (fsum STATE_WIDTH (λ k, fmul (coeff MDS j k) (fexp (elem s k) INV_ALPHA))))) by (intros j Hj; f_equal; rewrite half_round_elem by done; ring).
  rewrite (inverse_matrices_apply STATE_WIDTH INV_MDS MDS (λ k, fexp (elem s k) INV_ALPHA) i) by (apply mds_inverse || done). apply alpha_inverse.
Qed.

(** Every state has a predecessor. *)
Definition predecessor (row : nat) (s' : list E) : list E :=
  if is_round_row row 0 then map (λ i, fexp (fsum STATE_WIDTH (λ j, fmul (coeff INV_MDS i j) (fsub (elem s' j) (coeff ARK1 (row / 2) j)))) INV_ALPHA) (seq 0 STATE_WIDTH)
  else if is_round_row row 1 then map (λ i, fexp (fsum STATE_WIDTH (λ j, fmul (coeff INV_MDS i j) (fsub (elem s' j) (coeff ARK2 (row / 2) j)))) ALPHA) (seq 0 STATE_WIDTH)
  else s'.

Lemma predecessor_linked r s' : linked_states r (predecessor r s') s'.
Proof.
  unfold linked_states, predecessor. destruct (is_round_row r 0); [|destruct (is_round_row r 1); [|done]].
  - intros i Hi. set (v := λ j, fsub (elem s' j) (coeff ARK1 (r / 2) j)). rewrite (fsum_ext _ _ (λ j, fmul (coeff MDS i j) (fsum STATE_WIDTH (λ k, fmul (coeff INV_MDS j k) (v k))))).
    + rewrite (inverse_matrices_apply STATE_WIDTH MDS INV_MDS v i) by (apply mds_inverse || done). unfold v. ring.
    + intros j Hj. f_equal. rewrite elem_map by done. apply alpha_inverse.
  - intros i Hi. by rewrite elem_map.
Qed.

(** ** Rows of linked states satisfy the constraints *)

Lemma elem_app_l (l k : list E) i : (i < length l)%nat → elem (l ++ k) i = elem l i.
Proof. intros Hi. unfold elem. by rewrite lookup_app_l. Qed.

Lemma elem_app_r (l k : list E) i : elem (l ++ k) (length l + i) = elem k i.
Proof. unfold elem. rewrite lookup_app_r by lia. by replace (length l + i - length l)%nat with i by lia. Qed.

Lemma row_cells (pk sk bt : list E) i : length pk = STATE_WIDTH → length sk = 4%nat →
  ((i < STATE_WIDTH)%nat → elem (make_row pk sk bt) (PK_STATE_START + i) = elem pk i) ∧ ((i < 4)%nat → elem (make_row pk sk bt) (STATE_WIDTH + i) = elem sk i) ∧ elem (make_row pk sk bt) (BETA_STATE_START + i) = elem bt i.
Proof.
  intros Hp Hs. unfold make_row, PK_STATE_START. split_and!.
  - intros Hi. cbn [Nat.add]. rewrite elem_app_l; [done|]. by rewrite Hp.
  - intros Hi. rewrite <- Hp, elem_app_r, elem_app_l; [done|]. by rewrite Hs.
  - replace (BETA_STATE_START + i)%nat with (length pk + (length sk + i))%nat by (rewrite Hp, Hs; unfold BETA_STATE_START, STATE_WIDTH; lia). by rewrite !elem_app_r.
Qed.

Lemma periodic_cells r i : (r < VRF_TRACE_LENGTH)%nat →
  ((i < STATE_WIDTH)%nat → elem (periodic_row (E:=E) r) (PERIODIC_ARK1_START + i) = if is_round_row r 0 then coeff ARK1 (r / 2) i else fzero) ∧
  ((i < STATE_WIDTH)%nat → elem (periodic_row (E:=E) r) (PERIODIC_ARK2_START + i) = if is_round_row r 1 then coeff ARK2 (r / 2) i else fzero) ∧
  elem (periodic_row (E:=E) r) PERIODIC_IS_FIRST = (if is_round_row r 0 then fone else fzero) ∧ elem (periodic_row (E:=E) r) PERIODIC_IS_SECOND = (if is_round_row r 1 then fone else fzero) ∧
  elem (periodic_row (E:=E) r) PERIODIC_IS_PADDING = (if (2 * NUM_ROUNDS <=? r)%nat then fone else fzero).
Proof.
  intros Hr. unfold periodic_row, get_periodic_column_values, PERIODIC_ARK1_START, PERIODIC_ARK2_START, PERIODIC_IS_FIRST, PERIODIC_IS_SECOND, PERIODIC_IS_PADDING. rewrite !map_app, !map_map.
  assert (Hlen : ∀ f : nat → E, length (map f (seq 0 STATE_WIDTH)) = STATE_WIDTH) by (intros f; by rewrite length_map, length_seq). split_and!.
  - intros Hi. cbn [Nat.add]. rewrite elem_app_l by (by rewrite Hlen). rewrite elem_map by done. by apply elem_map.
  - intros Hi. match goal with |- context [elem (?l ++ _) (12 + i)] => replace (12 + i)%nat with (length l + i)%nat by (by rewrite Hlen) end. rewrite elem_app_r, elem_app_l by (by rewrite Hlen). rewrite elem_map by done. by apply elem_map.
  - cbn [map]. unfold elem at 1. cbn [seq STATE_WIDTH map app lookup list_lookup]. by apply elem_map.
  - cbn [map]. unfold elem at 1. cbn [seq STATE_WIDTH map app lookup list_lookup]. by apply elem_map.
  - cbn [map]. unfold elem at 1. cbn [seq STATE_WIDTH map app lookup list_lookup]. by apply elem_map.
Qed.

Lemma round_row_cases r : is_round_row r 0 = true ∧ is_round_row r 1 = false ∧ (2 * NUM_ROUNDS <=? r)%nat = false ∨ is_round_row r 0 = false ∧ is_round_row r 1 = true ∧ (2 * NUM_ROUNDS <=? r)%nat = false ∨
  is_round_row r 0 = false ∧ is_round_row r 1 = false ∧ (2 * NUM_ROUNDS <=? r)%nat = true.
Proof.
  unfold is_round_row. destruct (Nat.ltb_spec r (2 * NUM_ROUNDS)) as [Hlt|Hge].
  - rewrite (proj2 (Nat.leb_gt _ _)) by done. cbn [andb]. pose proof (Nat.mod_upper_bound r 2 ltac:(lia)). destruct (r mod 2)%nat as [|[|k]]; [by left|by right; left|lia].
  - rewrite (proj2 (Nat.leb_le _ _)) by done. by right; right.
Qed.

Lemma constraint_zero r start (cur nxt s s' : list E) i : (r < VRF_TRACE_LENGTH)%nat → (∀ j, (j < STATE_WIDTH)%nat → elem cur (start + j) = elem s j) → (∀ j, (j < STATE_WIDTH)%nat → elem nxt (start + j) = elem s' j) →
  linked_states r s s' → (i < STATE_WIDTH)%nat → state_constraint cur nxt (periodic_row r) start i = fzero.
Proof.
  intros Hr Hcur Hnxt Hlink Hi. unfold state_constraint. destruct (periodic_cells r i Hr) as (H1 & _ & Hf & Hs & Hp). rewrite H1, Hf, Hs, Hp, Hcur, Hnxt by done.
  rewrite (fsum_ext _ _ (λ j, fmul (coeff MDS i j) (fexp (elem s j) ALPHA))) by (intros j Hj; by rewrite Hcur). unfold linked_states in Hlink.
  rewrite (fsum_ext _ (λ j, fmul (coeff INV_MDS i j) _) (λ j, fmul (coeff INV_MDS i j) (fsub (elem s' j) (if is_round_row r 1 then coeff ARK2 (r / 2) j else fzero)))) by (intros j Hj; destruct (periodic_cells r j Hr) as (_ & H2 & _); by rewrite H2, Hnxt).
  destruct (round_row_cases r) as [(E0 & E1 & ->)|[(E0 & E1 & ->)|(E0 & E1 & ->)]]; rewrite ?E0, ?E1; rewrite ?E0, ?E1 in Hlink; rewrite (Hlink i Hi); ring.
Qed.

Lemma transition_zero r (pk pk' bt bt' sk : list E) : (r < VRF_TRACE_LENGTH)%nat → length pk = STATE_WIDTH → length pk' = STATE_WIDTH → length sk = 4%nat → linked_states r pk pk' → linked_states r bt bt' →
  Forall (λ v, v = fzero) (evaluate_transition (make_row pk sk bt) (make_row pk' sk bt') (periodic_row r)).
Proof.
  intros Hr Hp Hp' Hs Hl1 Hl2. unfold evaluate_transition. apply list.Forall_app. split.
  - apply list.Forall_forall. intros v Hv. apply list_elem_of_fmap in Hv as (i & -> & Hi). apply elem_of_seq in Hi. destruct (row_cells pk sk bt i Hp Hs) as (_ & H1 & _). destruct (row_cells pk' sk bt' i Hp' Hs) as (_ & H2 & _). rewrite H1, H2 by lia. ring.
  - cbn [map concat]. rewrite app_nil_r. apply list.Forall_app. split; apply list.Forall_forall; intros v Hv; apply list_elem_of_fmap in Hv as (i & -> & Hi); apply elem_of_seq in Hi.
    + apply (constraint_zero r PK_STATE_START _ _ pk pk'); [done|intros j Hj; by apply (row_cells pk sk bt j Hp Hs)|intros j Hj; by apply (row_cells pk' sk bt' j Hp' Hs)|done|lia].
    + apply (constraint_zero r BETA_STATE_START _ _ bt bt'); [done|intros j Hj; by apply (row_cells pk sk bt j Hp Hs)|intros j Hj; by apply (row_cells pk' sk bt' j Hp' Hs)|done|lia].
Qed.

(** A sequence of linked states that ends with a digest. *)
Record run_of (digest : list E) (states : list (list E)) : Prop := {
  ro_length : length states = VRF_TRACE_LENGTH;
  ro_width : Forall (λ s, length s = STATE_WIDTH) states;
  ro_linked : ∀ r s s', states !! r = Some s → states !! S r = Some s' → linked_states r s s';
  ro_digest : ∀ s i, states !! (VRF_TRACE_LENGTH - 1)%nat = Some s → (i < 4)%nat → elem s (4 + i) = elem digest i
}.

Definition table_of (ps bs : list (list E)) (sk : list E) : list (list E) := zip_with (λ p b, make_row p sk b) ps bs.

Lemma runs_satisfy_air (air : HashVrfAir E) ps bs sk : run_of (pk_elements air) ps → run_of (beta_elements air) bs → length sk = 4%nat → vrf_air_holds air (table_of ps bs sk).
Proof.
  intros [P1 P2 P3 P4] [B1 B2 B3 B4] Hsk. unfold table_of. rewrite list.Forall_forall in P2, B2. split_and!.
  - by rewrite length_zip_with, P1, B1.
  - apply list.Forall_forall. intros row Hrow. apply list_elem_of_lookup in Hrow as [i Hi]. apply lookup_zip_with_Some in Hi as (p & b & -> & Hp & Hb). unfold make_row. rewrite !length_app, (P2 p), (B2 b), Hsk by (by eapply list_elem_of_lookup_2). done.
  - intros r cur nxt Hcur Hnxt. apply lookup_zip_with_Some in Hcur as (p & b & -> & Hp & Hb). apply lookup_zip_with_Some in Hnxt as (p' & b' & -> & Hp' & Hb').
    apply transition_zero; [apply lookup_lt_Some in Hp; lia|apply P2; by eapply list_elem_of_lookup_2|apply P2; by eapply list_elem_of_lookup_2|done|by apply P3|by apply B3].
  - destruct (lookup_lt_is_Some_2 ps (VRF_TRACE_LENGTH - 1)%nat) as [p Hp]; [rewrite P1; unfold VRF_TRACE_LENGTH; lia|]. destruct (lookup_lt_is_Some_2 bs (VRF_TRACE_LENGTH - 1)%nat) as [b Hb]; [rewrite B1; unfold VRF_TRACE_LENGTH; lia|].
    assert (Hrow : zip_with (λ p b, make_row p sk b) ps bs !! (VRF_TRACE_LENGTH - 1)%nat = Some (make_row p sk b)) by (apply lookup_zip_with_Some; by exists p, b). assert (Hpl : length p = STATE_WIDTH) by (apply P2; by eapply list_elem_of_lookup_2).
    apply list.Forall_forall. intros a Ha. unfold get_assertions in Ha. apply list_elem_of_In, in_concat in Ha as (l & Hl & Ha). apply in_map_iff in Hl as (i & <- & Hi). apply in_seq in Hi. cbn [In] in Ha.
    destruct Ha as [<-|[<-|[]]]; cbn [a_step a_column a_value]; rewrite Hrow; cbn [default from_option id].
    + change (PK_STATE_START + 4 + i)%nat with (PK_STATE_START + (4 + i))%nat. destruct (row_cells p sk b (4 + i) Hpl Hsk) as (H1 & _). rewrite H1 by (unfold STATE_WIDTH; lia). by apply P4; [|lia].
    + change (BETA_STATE_START + 4 + i)%nat with (BETA_STATE_START + (4 + i))%nat. destruct (row_cells p sk b (4 + i) Hpl Hsk) as (_ & _ & H1). rewrite H1. by apply B4; [|lia].
Qed.

(** ** A run for every digest *)

Definition final_state (digest : list E) : list E := replicate 4 fzero ++ take 4 digest ++ replicate (8 - length (take 4 digest))%nat fzero.
Definition forged_state (digest : list E) (r : nat) : list E := foldr predecessor (final_state digest) (seq r (VRF_TRACE_LENGTH - 1 - r)).
Definition forged_run (digest : list E) : list (list E) := map (forged_state digest) (seq 0 VRF_TRACE_LENGTH).

Lemma predecessor_width r (s : list E) : length s = STATE_WIDTH → length (predecessor r s) = STATE_WIDTH.
Proof. intros Hs. unfold predecessor. destruct (is_round_row r 0); [|destruct (is_round_row r 1)]; by rewrite ?length_map, ?length_seq. Qed.

Lemma forged_width digest r : length (forged_state digest r) = STATE_WIDTH.
Proof.
  unfold forged_state. induction (seq r (VRF_TRACE_LENGTH - 1 - r)) as [|x l IH]; cbn [foldr]; [|by apply predecessor_width]. unfold final_state. rewrite !length_app, !length_replicate, length_take. unfold STATE_WIDTH. lia.
Qed.

Lemma forged_step digest r : (S r < VRF_TRACE_LENGTH)%nat → forged_state digest r = predecessor r (forged_state digest (S r)).
Proof. intros Hr. unfold forged_state. replace (VRF_TRACE_LENGTH - 1 - r)%nat with (S (VRF_TRACE_LENGTH - 1 - S r))%nat by lia. done. Qed.

Lemma lookup_map_seq {A} (f : nat → A) n r x : map f (seq 0 n) !! r = Some x → x = f r ∧ (r < n)%nat.
Proof. intros Hx. apply list_lookup_fmap_Some in Hx as (k & -> & Hk). apply lookup_seq in Hk as [-> Hk]. done. Qed.

Lemma forged_run_ok digest : length digest = 4%nat → run_of digest (forged_run digest).
Proof.
  intros Hd. unfold forged_run. split.
  - by rewrite length_map, length_seq.
  - apply list.Forall_forall. intros s Hs. apply list_elem_of_fmap in Hs as (r & -> & _). apply forged_width.
  - intros r s s' [-> _]%lookup_map_seq [-> Hr]%lookup_map_seq. rewrite forged_step by done. apply predecessor_linked.
  - intros s i [-> _]%lookup_map_seq Hi. change (forged_state digest (VRF_TRACE_LENGTH - 1)) with (final_state digest). unfold final_state, elem. rewrite (take_ge digest) by lia. change (4 + i)%nat with (length (replicate 4 (fzero (E:=E))) + i)%nat. rewrite lookup_app_r by lia.
    replace (length (replicate 4 (fzero (E:=E))) + i - length (replicate 4 (fzero (E:=E))))%nat with i by lia. rewrite lookup_app_l by lia. done.
Qed.

(** ** The run of an honest prover *)

Definition permutation (s : list E) : list E := foldl (λ s r, half_round INV_ALPHA ARK2 r (half_round ALPHA ARK1 r s)) s (seq 0 NUM_ROUNDS).

Lemma half_round_width e ark r (s : list E) : length (half_round e ark r s) = STATE_WIDTH.
Proof. unfold half_round. by rewrite length_map, length_seq. Qed.

Lemma permutation_width s : length (permutation s) = STATE_WIDTH.
Proof. unfold permutation. change (seq 0 NUM_ROUNDS) with (seq 0 6 ++ [6%nat]). rewrite foldl_app. apply half_round_width. Qed.

Lemma round_states_last rs (s : list E) : list.last (s :: round_states rs s) = Some (foldl (λ s r, half_round INV_ALPHA ARK2 r (half_round ALPHA ARK1 r s)) s rs).
Proof. revert s. induction rs as [|r rs IH]; intros s; [done|]. cbn [round_states foldl]. rewrite <- IH. done. Qed.

Lemma round_states_length rs (s : list E) : length (round_states rs s) = (2 * length rs)%nat.
Proof. revert s. induction rs as [|r rs IH]; intros s; [done|]. cbn [round_states length]. rewrite IH. lia. Qed.

Lemma round_states_width rs (s : list E) : Forall (λ s, length s = STATE_WIDTH) (round_states rs s).
Proof. revert s. induction rs as [|r rs IH]; intros s; cbn [round_states]; [constructor|]. constructor; [apply half_round_width|]. constructor; [apply half_round_width|apply IH]. Qed.

Lemma even_row k : (k < NUM_ROUNDS)%nat → is_round_row (2 * k) 0 = true ∧ is_round_row (S (2 * k)) 1 = true ∧ (2 * k / 2 = k)%nat ∧ (S (2 * k) / 2 = k)%nat.
Proof. unfold NUM_ROUNDS. intros Hk. do 7 (destruct k as [|k]; [done|]). lia. Qed.

Lemma round_states_linked n k (s : list E) r a b : (k + n ≤ NUM_ROUNDS)%nat → (s :: round_states (seq k n) s) !! r = Some a → (s :: round_states (seq k n) s) !! S r = Some b → linked_states (2 * k + r) a b.
Proof.
  revert k s r. induction n as [|n IH]; intros k s r Hk Ha Hb; [by destruct r|]. destruct (even_row k ltac:(lia)) as (H1 & H2 & H3 & H4). cbn [seq round_states] in Ha, Hb. destruct r as [|[|r]].
  - injection Ha as <-. injection Hb as <-. rewrite Nat.add_0_r, <- H3 at 1. rewrite H3. replace (half_round ALPHA ARK1 k s) with (half_round ALPHA ARK1 (2 * k / 2) s) by (by rewrite H3). by apply first_linked.
  - injection Ha as <-. injection Hb as <-. replace (2 * k + 1)%nat with (S (2 * k)) by lia. set (u := half_round ALPHA ARK1 k s). replace (half_round INV_ALPHA ARK2 k u) with (half_round INV_ALPHA ARK2 (S (2 * k) / 2) u) by (by rewrite H4). by apply second_linked.
  - replace (2 * k + S (S r))%nat with (2 * S k + r)%nat by lia. apply (IH (S k) (half_round INV_ALPHA ARK2 k (half_round ALPHA ARK1 k s)) r); [lia|exact Ha|exact Hb].
Qed.

Definition honest_run (s : list E) : list (list E) := (s :: round_states (seq 0 NUM_ROUNDS) s) ++ [permutation s].

Lemma honest_run_ok s digest : length s = STATE_WIDTH → (∀ i, (i < 4)%nat → elem (permutation s) (4 + i) = elem digest i) → run_of digest (honest_run s).
Proof.
  intros Hs Hd. unfold honest_run. assert (Hlen : length (s :: round_states (seq 0 NUM_ROUNDS) s) = 15%nat) by (cbn [length]; by rewrite round_states_length, length_seq). split.
  - by rewrite length_app, Hlen.
  - apply list.Forall_app. split; [constructor; [done|apply round_states_width]|]. constructor; [apply permutation_width|constructor].
  - intros r a b Ha Hb. destruct (decide (S r < 15)%nat) as [Hlt|Hge].
    + rewrite lookup_app_l in Ha, Hb by lia. by apply (round_states_linked 7 0 s r).
    + assert (r = 14%nat) as -> by (apply lookup_lt_Some in Hb; rewrite length_app, Hlen in Hb; cbn [length] in Hb; lia). rewrite lookup_app_l in Ha by lia. rewrite lookup_app_r in Hb by lia. rewrite Hlen in Hb. injection Hb as <-.
      assert (Hlast : list.last (s :: round_states (seq 0 NUM_ROUNDS) s) = Some (permutation s)) by apply round_states_last. rewrite last_lookup, Hlen in Hlast. cbn [Nat.pred] in Hlast. assert (a = permutation s) as -> by congruence. unfold linked_states. change (is_round_row 14 0) with false. change (is_round_row 14 1) with false. cbv iota. intros i _. reflexivity.
  - intros u i Hu Hi. rewrite lookup_app_r in Hu by (rewrite Hlen; unfold VRF_TRACE_LENGTH; lia). rewrite Hlen in Hu. injection Hu as <-. by apply Hd.
Qed.
End Links.

(** ** Bytes and elements *)

Lemma chunks8_step f (b : list Z) : b ≠ [] → chunks8 (S f) b = take 8 b :: chunks8 f (drop 8 b).
Proof. by destruct b. Qed.

Lemma chunks8_nil f : chunks8 f [] = [].
Proof. by destruct f. Qed.

Lemma chunks8_fuel f g (b : list Z) : (length b ≤ f)%nat → (length b ≤ g)%nat → chunks8 f b = chunks8 g b.
Proof.
  revert g b. induction f as [|f IH]; intros g b Hf Hg; [destruct b; [by rewrite !chunks8_nil|cbn in Hf; lia]|]. destruct b as [|x b]; [by rewrite !chunks8_nil|]. destruct g as [|g]; [cbn in Hg; lia|]. rewrite !chunks8_step by done. f_equal. apply IH; rewrite length_drop; cbn [length] in *; lia.
Qed.

Lemma chunks8_cons f (c b : list Z) : length c = 8%nat → (length (c ++ b) ≤ f)%nat → chunks8 f (c ++ b) = c :: chunks8 (length b) b.
Proof.
  intros Hc Hf. destruct f as [|f]; [rewrite length_app in Hf; lia|]. assert (Hne : c ++ b ≠ []) by (intros [-> _]%app_nil; discriminate Hc). rewrite chunks8_step by exact Hne. rewrite take_app_length', drop_app_length' by done. f_equal. apply chunks8_fuel; rewrite ?length_app in *; lia.
Qed.

Section Proofs.
Context `{GoldilocksField E}.

Lemma elements_cons (c b : list Z) : length c = 8%nat → bytes_to_elements (E:=E) (c ++ b) = from_u64 (of_le_bytes c) :: bytes_to_elements b.
Proof. intros Hc. unfold bytes_to_elements. by rewrite chunks8_cons. Qed.

Lemma elements_last (c : list Z) : length c = 8%nat → bytes_to_elements (E:=E) c = [from_u64 (of_le_bytes c)].
Proof. intros Hc. rewrite <- (app_nil_r c) at 1. by rewrite elements_cons. Qed.

Lemma split8 {A} (b : list A) n : length b = (8 + n)%nat → ∃ c r, b = c ++ r ∧ length c = 8%nat ∧ length r = n.
Proof. intros Hb. exists (take 8 b), (drop 8 b). rewrite take_drop, length_take, length_drop. split_and!; [done|lia|lia]. Qed.

Lemma split32 {A} (b : list A) : length b = 32%nat → ∃ c1 c2 c3 c4, b = c1 ++ c2 ++ c3 ++ c4 ∧ length c1 = 8%nat ∧ length c2 = 8%nat ∧ length c3 = 8%nat ∧ length c4 = 8%nat.
Proof.
  intros Hb. destruct (split8 b 24 Hb) as (c1 & r1 & -> & H1 & Hr1). destruct (split8 r1 16 Hr1) as (c2 & r2 & -> & H2 & Hr2). destruct (split8 r2 8 Hr2) as (c3 & c4 & -> & H3 & H4). by exists c1, c2, c3, c4.
Qed.

Lemma elements_app32 (a b : list Z) : length a = 32%nat → bytes_to_elements (E:=E) (a ++ b) = bytes_to_elements a ++ bytes_to_elements b ∧ length (bytes_to_elements (E:=E) a) = 4%nat.
Proof.
  intros (c1 & c2 & c3 & c4 & -> & H1 & H2 & H3 & H4)%split32. rewrite <- !app_assoc, !elements_cons by done. by rewrite (elements_last c4) by done.
Qed.

Lemma elements_roundtrip (d : list E) : length d = 4%nat → bytes_to_elements (elements_to_bytes d) = d ∧ length (elements_to_bytes d) = 32%nat.
Proof.
  intros Hd. destruct d as [|a [|b [|c [|e [|]]]]]; try done. unfold elements_to_bytes. cbn [take map concat]. rewrite app_nil_r. assert (Hl : ∀ x, length (le_bytes 8 x) = 8%nat) by (intros; apply le_bytes_length). rewrite !length_app, !Hl. cbn [Nat.add Nat.sub replicate].
  assert (He : ∀ x : E, from_u64 (of_le_bytes (le_bytes 8 (as_int x))) = x) by (intros x; destruct (gf_as_int x) as [Hr Hx]; rewrite of_le_le_bytes; [done|]; unfold modulus in Hr; change (256 ^ Z.of_nat 8) with (2 ^ 64); lia).
  rewrite ?app_nil_r, <- ?app_assoc, !elements_cons by apply Hl. rewrite (elements_last (le_bytes 8 (as_int e))), !He by apply Hl. split; [done|]. rewrite ?length_app, ?Hl. done.
Qed.

Lemma pad_length (input : list Z) : length (pad_to_32 input) = 32%nat.
Proof. unfold pad_to_32. rewrite length_app, length_take, length_replicate. lia. Qed.

Lemma initial_width len (l : list E) : (length l ≤ 8)%nat → length (initial_state len l) = STATE_WIDTH.
Proof. intros Hl. unfold initial_state. rewrite !length_app, length_replicate. cbn [length]. unfold STATE_WIDTH. lia. Qed.

Context (hash_elements : list E → list E) {P : Type} (prove_table : VrfPublicInputs → list (list E) → Result P string) (verify_proof : P → VrfPublicInputs → bool).
Context (to_bytes : P → list Z) (from_bytes : list Z → Result P string).

(** [Rp64_256::hash_elements] on the four elements of a secret key and the eight of a key and an input, which fit one block: one permutation of a state that starts
    with their number, and the first half of its rate. *)
Definition rescue_hash : Prop := ∀ l, length l = 4%nat ∨ length l = 8%nat → hash_elements l = take 4 (drop 4 (permutation (initial_state (Z.of_nat (length l)) l))).

(** The prover succeeds on a table that satisfies the constraints, and its proof is accepted. *)
Definition winterfell_complete : Prop :=
  (∀ p table, vrf_air_holds (new_air p) table → ∃ x, prove_table p table = Ok x ∧ verify_proof x p = true) ∧ ∀ x, from_bytes (to_bytes x) = Ok x.

Lemma digest_elem (s : list E) i : length s = STATE_WIDTH → (i < 4)%nat → elem s (4 + i) = elem (take 4 (drop 4 s)) i.
Proof. intros Hs Hi. unfold elem. rewrite lookup_take_lt, lookup_drop by done. done. Qed.

Lemma hash_run l : rescue_hash → length l = 4%nat ∨ length l = 8%nat → run_of (take 4 (bytes_to_elements (elements_to_bytes (hash_elements l)))) (honest_run (initial_state (Z.of_nat (length l)) l)) ∧ length (hash_elements l) = 4%nat.
Proof.
  intros Hh Hl. pose proof (permutation_width (initial_state (Z.of_nat (length l)) l)) as Hw. assert (Hlen : length (hash_elements l) = 4%nat) by (rewrite Hh by done; rewrite length_take, length_drop, Hw; done).
  split; [|done]. destruct (elements_roundtrip (hash_elements l) Hlen) as [Hrt _]. rewrite Hrt, take_ge by lia. apply honest_run_ok; [apply initial_width; lia|]. intros i Hi. rewrite Hh by done. by apply digest_elem.
Qed.

Lemma table_snoc (lp lb : list (list E)) x y sk : length lp = length lb → table_of (lp ++ [x]) (lb ++ [y]) sk = table_of lp lb sk ++ [make_row x sk y].
Proof. intros Hl. unfold table_of. by rewrite zip_with_app. Qed.

Lemma trace_is_table (sk input : list Z) : length sk = 32%nat → build_vrf_trace (E:=E) sk input =
  table_of (honest_run (initial_state 4 (bytes_to_elements sk))) (honest_run (initial_state 8 (bytes_to_elements sk ++ bytes_to_elements (pad_to_32 input)))) (bytes_to_elements sk).
Proof.
  intros Hsk. destruct (elements_app32 sk [] Hsk) as [_ Hl]. destruct (elements_app32 (pad_to_32 input) [] (pad_length input)) as [_ Hl2]. unfold build_vrf_trace. rewrite !(take_ge (bytes_to_elements _)) by lia. set (p0 := initial_state 4 _). set (b0 := initial_state 8 _).
  unfold honest_run.
  assert (Hlen : length (p0 :: round_states (seq 0 NUM_ROUNDS) p0) = length (b0 :: round_states (seq 0 NUM_ROUNDS) b0)) by (cbn [length]; by rewrite !round_states_length). rewrite table_snoc by done. unfold table_of. f_equal.
Qed.

(** C37. Honest evaluations are accepted: for every secret key and input the trace that [build_vrf_trace] makes satisfies every transition constraint and every assertion of
    the circuit for the public key and the value of the function, so that proving succeeds with that value, and the proof verifies. *)
Theorem vrf_complete sk input : rescue_hash → winterfell_complete → length sk = 32%nat →
  let kp := generate hash_elements sk in let value := evaluate hash_elements kp input in
  vrf_air_holds (new_air (mkVrfInputs (public_key kp) input value)) (build_vrf_trace (E:=E) sk input) ∧
  ∃ proof, prove hash_elements prove_table to_bytes kp input = Ok proof ∧ beta proof = value ∧ verify verify_proof from_bytes kp input proof = Ok true.
Proof.
  intros Hh [Hc Hb] Hsk kp value. destruct (elements_app32 sk (pad_to_32 input) Hsk) as [Happ Hl]. destruct (elements_app32 (pad_to_32 input) [] (pad_length input)) as [_ Hl2]. set (p := mkVrfInputs (public_key kp) input (evaluate hash_elements kp input)).
  assert (Hair : vrf_air_holds (new_air p) (build_vrf_trace (E:=E) sk input)).
  { rewrite trace_is_table by done. destruct (hash_run (bytes_to_elements sk) Hh ltac:(lia)) as [Hr1 _]. destruct (hash_run (bytes_to_elements sk ++ bytes_to_elements (pad_to_32 input)) Hh ltac:(rewrite length_app; lia)) as [Hr2 _]. rewrite Hl in Hr1. rewrite length_app, Hl, Hl2 in Hr2.
    apply runs_satisfy_air; [exact Hr1| |done]. change (beta_elements (new_air (E:=E) p)) with (take 4 (bytes_to_elements (E:=E) (elements_to_bytes (hash_elements (bytes_to_elements (sk ++ pad_to_32 input)))))). rewrite Happ. exact Hr2. }
  split; [exact Hair|]. destruct (Hc p _ Hair) as (x & Hx & Hv). exists (mkVrfProof (evaluate hash_elements kp input) (to_bytes x)). unfold prove, verify. change (mkVrfInputs (public_key kp) input (evaluate hash_elements kp input)) with p. change (secret_key kp) with sk. rewrite Hx. split_and!; [done|done|]. cbn [stark_bytes beta]. rewrite Hb. change (mkVrfInputs (public_key kp) input (evaluate hash_elements kp input)) with p. by rewrite Hv.
Qed.

(** C38. The proof does not make the output unique.  No constraint ties the first row to the secret key or the input, and every state has a predecessor: for every public key,
    every input and every value there is a proof that verification accepts as the value of the function. *)
Theorem vrf_accepts_any_value kp input value : winterfell_complete → length (public_key kp) = 32%nat → length value = 32%nat →
  ∃ proof, beta proof = value ∧ verify verify_proof from_bytes kp input proof = Ok true.
Proof.
  intros [Hc Hb] Hpk Hval. destruct (elements_app32 (public_key kp) [] Hpk) as [_ Hl1]. destruct (elements_app32 value [] Hval) as [_ Hl2]. set (p := mkVrfInputs (public_key kp) input value).
  assert (Hair : vrf_air_holds (new_air p) (table_of (forged_run (pk_elements (new_air (E:=E) p))) (forged_run (beta_elements (new_air p))) (replicate 4 fzero))).
  { apply runs_satisfy_air; [apply forged_run_ok|apply forged_run_ok|done]; cbn [new_air pk_elements beta_elements p p_public_key p_beta]; by rewrite length_take, ?Hl1, ?Hl2. }
  destruct (Hc p _ Hair) as (x & Hx & Hv). exists (mkVrfProof value (to_bytes x)). split; [done|]. unfold verify. cbn [stark_bytes beta]. rewrite Hb. fold p. by rewrite Hv.
Qed.
End Proofs.

Module VrfDemo.
Abbreviation F := (Zmod.ZmodDef.Zmod modulus).
Definition rescue (l : list F) : list F := take 4 (drop 4 (permutation (initial_state (Z.of_nat (length l)) l))).
Definition prove_table (p : VrfPublicInputs) (t : list (list F)) : Result () string := Ok ().
Definition verify_proof (x : ()) (p : VrfPublicInputs) : bool := true.
Definition to_bytes (x : ()) : list Z := [].
Definition from_bytes (b : list Z) : Result () string := Ok ().
Definition key : list Z := replicate 32 9.

Lemma demo_winterfell : winterfell_complete prove_table verify_proof to_bytes from_bytes.
Proof. split; [intros p t _; by exists ()|by intros []]. Qed.

Lemma vrf_complete_witness :
  let kp := generate rescue key in let value := evaluate rescue kp [1; 2; 3] in
  vrf_air_holds (new_air (mkVrfInputs (public_key kp) [1; 2; 3] value)) (build_vrf_trace key [1; 2; 3]) ∧
  ∃ proof, prove rescue prove_table to_bytes kp [1; 2; 3] = Ok proof ∧ beta proof = value ∧ verify verify_proof from_bytes kp [1; 2; 3] proof = Ok true.
Proof. apply (vrf_complete rescue prove_table verify_proof to_bytes from_bytes key [1; 2; 3]); [intros l _; reflexivity|exact demo_winterfell|reflexivity]. Defined.

Lemma vrf_accepts_any_value_witness : ∃ proof, beta proof = replicate 32 77 ∧ verify verify_proof from_bytes (mkVrfKeypair key (replicate 32 5)) [1; 2; 3] proof = Ok true.
Proof. apply (vrf_accepts_any_value prove_table verify_proof to_bytes from_bytes (mkVrfKeypair key (replicate 32 5)) [1; 2; 3] (replicate 32 77)); [exact demo_winterfell|reflexivity|reflexivity]. Defined.
End VrfDemo.
